(* ===== verification/_CoqProject ===== *)
-Q . S2P
Prelude.v
Coin.v
Policy.v
BitSet.v
AccountTypes.v
PunishedSlots.v
StakingTypes.v
ValidatorOps.v
StakerOps.v
StakingContract.v
StakingInv.v
StakerProofs.v
ValidatorProofs.v
StakingProofs.v
StakingSpec.v
Codec.v
ReservedBalance.v
BasicAccount.v
VestingContract.v
Float64.v
HtlcContract.v
Account.v
Reservations.v
Accounts.v
AccountsProofs.v
TxContent.v
TxVerify.v
AccountsSpec.v
Discrete.v
Slots.v
Election.v
Tendermint.v
TendermintInv.v
TendermintProofs.v
TendermintPoll.v
TendermintSafety.v
TendermintExample.v
Vrf.v
Block.v
Bls.v
Equivocation.v
BlockVerify.v
LightChain.v
LightChainInv.v
LightVerify.v
LightChainProofs.v
LightPush.v
LightExample.v
KeyNibbles.v
TrieNode.v
Trie.v
TrieInv.v
TriePath.v
TriePut.v
TrieRemove.v
TrieHash.v
TrieSpec.v
TrieDiff.v
TrieProof.v
TrieProofSound.v
TrieProofComplete.v
TrieProofRound.v
TrieChunk.v
TrieTruncate.v
TrieStumps.v
TrieMark.v
TriePutChunk.v
TrieExample.v
Mmr.v
MmrPosition.v
MmrPeaks.v
MmrSpec.v
MmrClimb.v
MmrTerm.v
MmrSound.v
MmrVerify.v
MmrComplete.v
MmrSize.v
MmrLight.v
MmrHistory.v
