(* ===== verification/Prelude.v ===== *)
(** * Verification of the Albatross node

    A development about the Rust implementation of the Nimiq proof-of-stake
    protocol under [src/].  It models the state of the chain (accounts and the
    staking contract), the blocks that change it, the consensus that decides on
    macro blocks, the light node that follows the chain, the Merkle radix trie that
    commits to the state and the Merkle mountain range that commits to the history,
    and proves what makes these parts correct.

    ** How the program is modelled

    Rust integers are [Z] with their width written out: plain operators wrap
    ([wrap]), [Coin] operators panic, checked and saturating forms are separate
    ([Prelude], [Coin]).  Fallible code returns an [outcome]: a value, an error or
    a panic; stateful handlers are functions of the monad [M S E], which threads
    the state through errors as Rust does ([Prelude]).  Maps are [gmap], visited
    in key order where the source uses a [BTreeMap].  Hashes, keys, signatures and
    seeds are numbers (the big-endian value of their bytes).  Third-party code
    (hash functions, curves, pairings, the database) is a parameter, with what the
    code relies on as the laws of a class ([BlockEnv], [CurveLaws], [BlsLaws]).
    Recursion that is not structural takes fuel; running out of it is a panic or
    [None], and the theorems show results, so the fuel is enough: it is bounded by
    the number of stored nodes ([LightChain.walk_fork]), of messages
    ([Tendermint.start_verification]) or of digits of a key: a walk down the trie
    ([Trie.depth_fuel]) gets longer keys at every step, and a traversal
    ([TrieChunk.remove_subtree]) visits every stored node once.  In a Merkle mountain
    range a loop over heights or bits gets 64, the width of an index, and a queue of
    positions 65 turns each ([Mmr.climb_fuel]); ranges have fewer than 2^62 leaves,
    for which all indices fit.  The one loop without a bound in the code is rejection
    sampling of random numbers; the theorems that draw numbers have the hypothesis
    that the fuel reaches an accepted draw ([Election.productive]).

    ** The files

    - [Prelude]: integers, outcomes, the monad with weakest preconditions, sums
      over maps.  [Coin], [Policy], [BitSet], [Float64], [Codec]: amounts, block
      numbers and epochs, bit sets, double precision numbers and serialization
      ([primitives/src/coin.rs], [policy.rs], [collections/src/bitset.rs],
      [serde]).
    - [AccountTypes], [PunishedSlots], [StakingTypes], [ValidatorOps],
      [StakerOps], [StakingContract]: the staking contract
      ([primitives/account/src/account/staking_contract]); [StakingInv],
      [StakerProofs], [ValidatorProofs], [StakingProofs], [StakingSpec]: its
      invariant, and that every handler keeps it and is undone by its revert.
    - [ReservedBalance], [BasicAccount], [VestingContract], [HtlcContract],
      [Account], [Accounts]: the other account types and the accounts tree
      ([primitives/account/src]); [TxContent], [TxVerify]: signed content and
      verification of transactions ([primitives/transaction/src]);
      [Reservations]: a balance is reserved for a transaction exactly when it will
      commit, and what is stricter for the staking contract; [AccountsProofs],
      [AccountsSpec]: transactions are atomic, conserve coins, are authorized and can
      be reverted.
    - [Discrete], [Slots], [Election]: the alias method, slot bands and the
      election of validators ([vrf/src/discrete.rs],
      [primitives/src/slots_allocation.rs], [staking_contract/mod.rs]).
    - [Tendermint]: the state machine of [tendermint/src]; [TendermintInv],
      [TendermintProofs], [TendermintPoll], [TendermintSafety]: no panic, no
      equivocation across restarts, and agreement; [TendermintExample]: a run.
    - [Vrf], [Block], [Bls], [Equivocation], [BlockVerify]: seeds, headers and
      their hashes, signatures, equivocation proofs and block verification
      ([vrf/src/vrf.rs], [primitives/block/src], [bls/src/types]); the messages signed
      with a voting key, the proof of knowledge included, cannot be confused.
    - [LightChain]: the light node ([light-blockchain/src],
      [blockchain-interface/src]); [LightChainInv], [LightVerify],
      [LightChainProofs], [LightPush]: on every reachable state the main chain is
      linked by parents and successors from the last macro block to the head, no push
      takes a final block off it, and [push_macro] adopts only blocks that the
      validators in use have signed ([push_pico_election] trusts its block);
      [LightVerify] also has the rotation of proposers; [LightExample]: runs on a
      small chain.
    - [KeyNibbles]: packed keys and that their operations are those on lists of
      nibbles ([primitives/src/key_nibbles.rs]); [TrieNode], [Trie]: nodes, hashes,
      writes, removals and diffs ([primitives/src/trie], [primitives/trie/src]);
      [TrieProof]: proofs; [TrieChunk]: chunks and stumps.
    - [TrieInv], [TriePath], [TriePut], [TrieRemove], [TrieHash]: well-formed tries,
      complete or missing the keys from some key on, and that every operation keeps
      them so; [TrieSpec]: the trie implements a map and its root hash commits to the
      contents; [TrieDiff]: recorded and applied diffs are undone exactly;
      [TrieProofSound], [TrieProofComplete], [TrieProofRound]: what a proof that
      verifies shows, and that the proofs the trie makes do verify;
      [TrieTruncate], [TrieStumps], [TrieMark], [TriePutChunk]: removing the end of a
      trie, clearing and marking stumps, and that a trie synchronized by chunks from
      anyone has the contents behind the root hash; [TrieExample]: runs on a small
      trie.  Facts that rest on the hash function are stated up to a collision among
      the strings that were hashed.
    - [Mmr]: Merkle mountain ranges, their stores and proofs, and the proofs of the
      history tree ([primitives/mmr/src], [primitives/transaction/src/history_proof.rs],
      [blockchain/src/history/history_tree_chunk.rs]); [MmrPosition], [MmrPeaks]: nodes
      by height and number, and that the arithmetic on indices is right for them;
      [MmrSpec]: a range on any store that satisfies the laws of stores refines a list
      of items; [MmrClimb], [MmrTerm], [MmrSound], [MmrVerify]: verification as a
      computation on terms instead of hashes, and what its success shows;
      [MmrComplete], [MmrSize]: proofs for leaves, parts and sizes that a range makes
      verify; [MmrLight]: the range that keeps only its peaks has the same roots;
      [MmrHistory]: the claims about proofs of the history, and runs on a small range.

    ** What is not modelled

    Networking, databases, the remote procedure calls and the bindings to
    JavaScript are input and output around the modelled state.  The full node's
    push with its history store, the mempool's executors and the requests that
    synchronization sends are asynchronous code over a third-party database.
    Serialization is modelled where it is written by hand or hashed; derived
    serialization is the concatenation of the fields.  The table of the trie is a map
    from keys to nodes, not to their serialized form.  [Accounts] works on a map and takes the accounts
    tree as complete; the trie is also modelled while keys are missing.  That a chunk
    made by an honest node is accepted is not proved.  The Merkle mountain range that
    is put together from proofs ([primitives/mmr/src/mmr/partial.rs]), which nothing
    else uses, and the database store of the history are not modelled. *)

From stdpp Require Export prelude gmap fin_maps list sorting.
From Stdlib Require Export ZArith Lia.
#[export] Set Default Goal Selector "!".
#[global] Open Scope Z_scope.

(** ** Machine integers

    A Rust integer of [w] bits is a [Z].  The [release] profile of the
    workspace does not set [overflow-checks], so plain [+], [-] and [*] wrap. *)

Definition wrap (w x : Z) : Z := x `mod` 2 ^ w.
Definition max_value (w : Z) : Z := 2 ^ w - 1.

Definition checked_add (w a b : Z) : option Z :=
  if a + b <=? max_value w then Some (a + b) else None.
Definition checked_sub (a b : Z) : option Z :=
  if b <=? a then Some (a - b) else None.
Definition checked_mul (w a b : Z) : option Z :=
  if a * b <=? max_value w then Some (a * b) else None.

Definition saturating_add (w a b : Z) : Z := Z.min (a + b) (max_value w).
Definition saturating_sub (a b : Z) : Z := Z.max (a - b) 0.
Definition saturating_mul (w a b : Z) : Z := Z.min (a * b) (max_value w).

(** [u32::div_ceil] and its siblings. *)
Definition div_ceil (a b : Z) : Z :=
  let q := a / b in if a `mod` b =? 0 then q else q + 1.

(** [x] is a value of a [w]-bit unsigned type. *)
Definition in_width (w x : Z) : Prop := 0 <= x <= max_value w.

Lemma wrap_small w x : in_width w x -> wrap w x = x.
Proof. unfold wrap, in_width, max_value. intros. apply Z.mod_small. lia. Qed.

Lemma div_ceil_spec a b : 0 < b -> 0 <= a ->
  div_ceil a b = (a + b - 1) / b.
Proof.
  intros Hb Ha. unfold div_ceil.
  pose proof (Z.div_mod a b ltac:(lia)) as Hdm.
  pose proof (Z.mod_pos_bound a b Hb) as Hm.
  destruct (Z.eqb_spec (a `mod` b) 0) as [Hz|Hz].
  - apply Z.div_unique with (r := b - 1); lia.
  - apply Z.div_unique with (r := a `mod` b - 1); lia.
Qed.

(** The [n] bytes of [x], most significant first, and their value. *)
Fixpoint be_bytes (n : nat) (x : Z) : list Z :=
  match n with
  | O => []
  | S n => (x / 2 ^ (8 * Z.of_nat n)) `mod` 256 :: be_bytes n x
  end.
Definition be_value (bs : list Z) : Z := foldl (fun acc b => 256 * acc + b) 0 bs.

Lemma be_bytes_length n x : length (be_bytes n x) = n.
Proof. induction n; simpl; congruence. Qed.

Lemma foldl_be acc bs :
  foldl (fun acc b => 256 * acc + b) acc bs = 256 ^ Z.of_nat (length bs) * acc + be_value bs.
Proof.
  unfold be_value. revert acc. induction bs as [|b bs IH]; intros acc.
  - simpl length. rewrite Z.pow_0_r. simpl. lia.
  - cbn [foldl length]. rewrite (IH (256 * acc + b)), (IH (256 * 0 + b)).
    rewrite Nat2Z.inj_succ, Z.pow_succ_r by lia. lia.
Qed.

Lemma be_value_bytes n x : 0 <= x -> be_value (be_bytes n x) = x `mod` 256 ^ Z.of_nat n.
Proof.
  intros Hx. induction n as [|n IH]; [simpl; by rewrite Z.mod_1_r|].
  cbn [be_bytes]. unfold be_value. cbn [foldl]. rewrite foldl_be, be_bytes_length, IH.
  rewrite Z.pow_mul_r by lia. change (2 ^ 8) with 256.
  rewrite (Nat2Z.inj_succ n), Z.pow_succ_r, (Z.mul_comm 256 (256 ^ _)) by lia.
  rewrite (Z.rem_mul_r x (256 ^ Z.of_nat n) 256) by lia. lia.
Qed.

(** [N]-byte arrays are determined by their big-endian value. *)
Lemma be_bytes_inj n x y :
  0 <= x < 256 ^ Z.of_nat n -> 0 <= y < 256 ^ Z.of_nat n -> be_bytes n x = be_bytes n y -> x = y.
Proof.
  intros Hx Hy He. rewrite <-(Z.mod_small x _ Hx), <-(Z.mod_small y _ Hy).
  rewrite <-!be_value_bytes by lia. by rewrite He.
Qed.

Definition is_byte (b : Z) : Prop := 0 <= b < 256.

Lemma be_bytes_bytes n x : Forall is_byte (be_bytes n x).
Proof.
  induction n as [|n IH]; simpl; constructor; [|done].
  pose proof (Z.mod_pos_bound (x / 2 ^ (8 * Z.of_nat n)) 256). unfold is_byte. lia.
Qed.

Lemma be_value_range l : Forall is_byte l -> 0 <= be_value l < 256 ^ Z.of_nat (length l).
Proof.
  unfold is_byte. induction 1 as [|b l Hb _ IH]; [by vm_compute|].
  cbn [be_value foldl length]. rewrite foldl_be, Nat2Z.inj_succ, Z.pow_succ_r by lia.
  fold (be_value l). nia.
Qed.

Lemma be_bytes_shift n l b : (n <= length l)%nat -> Forall is_byte l ->
  be_bytes n (256 ^ Z.of_nat (length l) * b + be_value l) = be_bytes n (be_value l).
Proof.
  intros Hn Hl. induction n as [|n IH]; [done|]. cbn [be_bytes]. rewrite IH by lia. f_equal.
  assert (2 ^ (8 * Z.of_nat n) = 256 ^ Z.of_nat n) as ->
    by (rewrite Z.pow_mul_r by lia; done).
  replace (Z.of_nat (length l)) with (Z.of_nat n + 1 + (Z.of_nat (length l) - Z.of_nat n - 1)) by lia.
  rewrite !Z.pow_add_r, Z.pow_1_r by lia.
  rewrite (Z.add_comm _ (be_value l)).
  replace (256 ^ Z.of_nat n * 256 * 256 ^ (Z.of_nat (length l) - Z.of_nat n - 1) * b)
    with (256 * 256 ^ (Z.of_nat (length l) - Z.of_nat n - 1) * b * 256 ^ Z.of_nat n) by ring.
  rewrite Z.div_add by lia.
  replace (256 * 256 ^ (Z.of_nat (length l) - Z.of_nat n - 1) * b)
    with (256 ^ (Z.of_nat (length l) - Z.of_nat n - 1) * b * 256) by ring.
  by rewrite Z.mod_add by lia.
Qed.

Lemma be_bytes_value l : Forall is_byte l -> be_bytes (length l) (be_value l) = l.
Proof.
  induction 1 as [|b l Hb Hl IH]; [done|]. cbn [length be_bytes].
  unfold be_value. cbn [foldl]. rewrite foldl_be. rewrite Z.mul_0_r, Z.add_0_l.
  rewrite be_bytes_shift, IH by done. f_equal.
  assert (2 ^ (8 * Z.of_nat (length l)) = 256 ^ Z.of_nat (length l)) as ->
    by (rewrite Z.pow_mul_r by lia; done).
  rewrite (Z.mul_comm (256 ^ _)), Z.div_add_l by lia.
  rewrite (Z.div_small (be_value l)) by (by apply be_value_range).
  rewrite Z.add_0_r. by apply Z.mod_small.
Qed.

(** ** Outcomes and the state monad of the handlers

    A handler reads and writes a state [S] and either returns a value, returns
    an error, or panics.  The state is threaded through errors, as Rust keeps
    the mutations made before a [?] returns. *)

Inductive outcome (E A : Type) : Type :=
  | Ok (a : A)
  | Err (e : E)
  | Panic.
Arguments Ok {E A} a.
Arguments Err {E A} e.
Arguments Panic {E A}.

(** Pure code with a [Result] type composes outcomes directly. *)
#[global] Instance outcome_ret {E} : MRet (outcome E) := fun A a => Ok a.
#[global] Instance outcome_bind {E} : MBind (outcome E) := fun A B k o =>
  match o with
  | Ok a => k a
  | Err e => Err e
  | Panic => Panic
  end.
(** [if b { return Err(e) }], [Option::ok_or(e)?] and [Option::unwrap]. *)
Definition err_if {E} (b : bool) (e : E) : outcome E unit := if b then Err e else Ok tt.
Definition or_err {E A} (o : option A) (e : E) : outcome E A :=
  match o with Some a => Ok a | None => Err e end.
Definition unwrap {E A} (o : option A) : outcome E A :=
  match o with Some a => Ok a | None => Panic end.

Lemma outcome_bind_ok {E A B} (o : outcome E A) (k : A -> outcome E B) b :
  o ≫= k = Ok b -> exists a, o = Ok a /\ k a = Ok b.
Proof. destruct o as [a|e|]; [by exists a|done..]. Qed.
Lemma err_if_ok {E} b (e : E) u : err_if b e = Ok u -> b = false.
Proof. by destruct b. Qed.
Lemma or_err_ok {E A} (o : option A) (e : E) a : or_err o e = Ok a -> o = Some a.
Proof. destruct o; [by intros [= ->]|done]. Qed.
Lemma unwrap_ok {E A} (o : option A) a : @unwrap E A o = Ok a -> o = Some a.
Proof. destruct o; [by intros [= ->]|done]. Qed.

(** Take a successful pure computation [H : o = Ok a] apart. *)
Ltac inv_outcome H :=
  lazymatch type of H with
  | _ ≫= _ = Ok _ =>
      let a := fresh "a" in let Ho := fresh "Ho" in
      apply outcome_bind_ok in H as (a & Ho & H); cbv beta in H; inv_outcome Ho; inv_outcome H
  | err_if _ _ = Ok _ => apply err_if_ok in H
  | or_err _ _ = Ok _ => apply or_err_ok in H
  | unwrap _ = Ok _ => apply unwrap_ok in H
  | _ => idtac
  end.

Definition M (S E A : Type) : Type := S -> outcome E A * S.

Section Monad.
Context {S E : Type}.

#[global] Instance M_ret : MRet (M S E) := fun A a s => (Ok a, s).
#[global] Instance M_bind : MBind (M S E) := fun A B k m s =>
  match m s with
  | (Ok a, s') => k a s'
  | (Err e, s') => (Err e, s')
  | (Panic, s') => (Panic, s')
  end.

Definition fail {A} (e : E) : M S E A := fun s => (Err e, s).
Definition panic {A} : M S E A := fun s => (Panic, s).
Definition gets {A} (f : S -> A) : M S E A := fun s => (Ok (f s), s).
Definition modify (f : S -> S) : M S E unit := fun s => (Ok tt, f s).

(** [Option::ok_or(e)?] *)
Definition ok_or {A} (o : option A) (e : E) : M S E A :=
  match o with Some a => mret a | None => fail e end.
(** [Option::expect]. *)
Definition expect {A} (o : option A) : M S E A :=
  match o with Some a => mret a | None => panic end.
(** [if b { return Err(e) }] *)
Definition fail_if (b : bool) (e : E) : M S E unit :=
  if b then fail e else mret tt.
(** [assert!(b)] *)
Definition assert_that (b : bool) : M S E unit :=
  if b then mret tt else panic.
(** A pure [Result] followed by [?]. *)
Definition lift {A} (o : outcome E A) : M S E A := fun s => (o, s).
(** The [Result] of a call as a value, for a caller that does not use [?]. *)
Definition catch {A} (m : M S E A) : M S E (outcome E A) := fun s =>
  match m s with
  | (Panic, s') => (Panic, s')
  | (o, s') => (Ok o, s')
  end.
(** [if b { m }] *)
Definition when (b : bool) (m : M S E unit) : M S E unit :=
  if b then m else mret tt.
(** [if let Some(x) = o { m x }] *)
Definition if_some {A} (o : option A) (m : A -> M S E unit) : M S E unit :=
  match o with Some a => m a | None => mret tt end.

Lemma bind_ok {A B} (m : M S E A) (k : A -> M S E B) s a s' :
  m s = (Ok a, s') -> (m ≫= k) s = k a s'.
Proof. unfold mbind, M_bind. by intros ->. Qed.

Lemma bind_err {A B} (m : M S E A) (k : A -> M S E B) s e s' :
  m s = (Err e, s') -> (m ≫= k) s = (Err e, s').
Proof. unfold mbind, M_bind. by intros ->. Qed.

Lemma bind_inv_ok {A B} (m : M S E A) (k : A -> M S E B) s b s' :
  (m ≫= k) s = (Ok b, s') ->
  exists a s1, m s = (Ok a, s1) /\ k a s1 = (Ok b, s').
Proof.
  unfold mbind, M_bind. destruct (m s) as [[a|e|] s1]; [|done..]. eauto.
Qed.

Lemma ok_or_inv {A} (o : option A) e (s s' : S) a :
  @ok_or A o e s = (Ok a, s') -> o = Some a /\ s' = s.
Proof. destruct o; intros [=]; by subst. Qed.

Lemma expect_inv {A} (o : option A) (s s' : S) a :
  @expect A o s = (Ok a, s') -> o = Some a /\ s' = s.
Proof. destruct o; intros [=]; by subst. Qed.

Lemma fail_if_inv b e (s s' : S) u : fail_if b e s = (Ok u, s') -> b = false /\ s' = s.
Proof. destruct b; intros [=]; by subst. Qed.
End Monad.

(** Take a successful run [H : m s = (Ok a, s')] apart. *)
Ltac inv_ok H :=
  lazymatch type of H with
  | (_ ≫= _) _ = (Ok _, _) =>
      let a := fresh "a" in let s := fresh "s" in let Hm := fresh "Hm" in
      apply bind_inv_ok in H as (a & s & Hm & H); inv_ok Hm
  | ok_or _ _ _ = (Ok _, _) => apply ok_or_inv in H as [H ->]
  | expect _ _ = (Ok _, _) => apply expect_inv in H as [H ->]
  | fail_if _ _ _ = (Ok _, _) => apply fail_if_inv in H as [H ->]
  | mret _ _ = (Ok _, _) => injection H as <- <-
  | gets _ _ = (Ok _, _) => injection H as <- <-
  | modify _ _ = (Ok _, _) => injection H as <- <-
  | _ => idtac
  end.

(** ** Weakest preconditions

    [wp m Q QE s]: run from [s], [m] does not panic, a returned value satisfies
    [Q] and an error [QE], each with the final state. *)

Section WP.
Context {S E : Type}.
Implicit Types s : S.

Definition wp {A} (m : M S E A) (Q : A -> S -> Prop) (QE : E -> S -> Prop) s : Prop :=
  match m s with
  | (Ok a, s') => Q a s'
  | (Err e, s') => QE e s'
  | (Panic, _) => False
  end.

Lemma wp_ret {A} (a : A) Q QE s : Q a s -> wp (mret a) Q QE s.
Proof. done. Qed.

Lemma wp_bind {A B} (m : M S E A) (k : A -> M S E B) Q QE s :
  wp m (fun a => wp (k a) Q QE) QE s -> wp (m ≫= k) Q QE s.
Proof. unfold wp, mbind, M_bind. by destruct (m s) as [[a|e|] s']. Qed.

Lemma wp_fail {A} (e : E) (Q : A -> S -> Prop) QE s : QE e s -> wp (fail e) Q QE s.
Proof. done. Qed.

Lemma wp_gets {A} (f : S -> A) Q QE s : Q (f s) s -> wp (gets f) Q QE s.
Proof. done. Qed.

Lemma wp_modify (f : S -> S) Q QE s : Q tt (f s) -> wp (modify f) Q QE s.
Proof. done. Qed.

Lemma wp_ok_or {A} (o : option A) e Q QE s :
  (forall a, o = Some a -> Q a s) -> (o = None -> QE e s) -> wp (ok_or o e) Q QE s.
Proof. intros. destruct o; unfold wp; simpl; auto. Qed.

Lemma wp_expect {A} (o : option A) a Q QE s : o = Some a -> Q a s -> wp (expect o) Q QE s.
Proof. by intros ->. Qed.

Lemma wp_fail_if (b : bool) e Q QE s :
  (b = true -> QE e s) -> (b = false -> Q tt s) -> wp (fail_if b e) Q QE s.
Proof. intros. destruct b; unfold wp; simpl; auto. Qed.

Lemma wp_assert (b : bool) Q QE s : b = true -> Q tt s -> wp (assert_that b) Q QE s.
Proof. by intros ->. Qed.

Lemma wp_lift {A} (o : outcome E A) Q QE s :
  (forall a, o = Ok a -> Q a s) -> (forall e, o = Err e -> QE e s) -> o <> Panic ->
  wp (lift o) Q QE s.
Proof. intros. destruct o; unfold wp; simpl; auto. Qed.

Lemma wp_catch {A} (m : M S E A) Q QE s :
  wp m (fun a => Q (Ok a)) (fun e => Q (Err e)) s -> wp (catch m) Q QE s.
Proof. unfold wp, catch. by destruct (m s) as [[a|e|] s']. Qed.

Lemma wp_mono {A} (m : M S E A) (Q Q' : A -> S -> Prop) (QE QE' : E -> S -> Prop) s :
  wp m Q QE s -> (forall a s', Q a s' -> Q' a s') -> (forall e s', QE e s' -> QE' e s') ->
  wp m Q' QE' s.
Proof. unfold wp. destruct (m s) as [[a|e|] s']; auto. Qed.

(** A [wp] that pins down the result is an equation on the run. *)
Lemma wp_run {A} (m : M S E A) a0 s0 s :
  wp m (fun a s' => a = a0 /\ s' = s0) (fun _ _ => False) s <-> m s = (Ok a0, s0).
Proof.
  unfold wp. destruct (m s) as [[a|e|] s']; split; try done.
  - by intros [-> ->].
  - intros H. by simplify_eq.
Qed.
End WP.

(** One step of symbolic execution. *)
Ltac wp_step :=
  lazymatch goal with
  | |- wp (_ ≫= _) _ _ _ => apply wp_bind
  | |- wp (mret _) _ _ _ => apply wp_ret
  | |- wp (fail _) _ _ _ => apply wp_fail
  | |- wp (gets _) _ _ _ => apply wp_gets
  | |- wp (modify _) _ _ _ => apply wp_modify
  | |- wp (ok_or _ _) _ _ _ => apply wp_ok_or; intros
  | |- wp (fail_if _ _) _ _ _ => apply wp_fail_if; intros
  | |- wp (when ?b _) _ _ _ => destruct b eqn:?; unfold when
  | |- wp (if_some ?o _) _ _ _ => destruct o eqn:?; unfold if_some
  end.

(** ** Sums over finite maps *)

Section MapSum.
Context {K V : Type} `{Countable K}.
Implicit Types (m : gmap K V) (f g : V -> Z).

Definition map_sum f m : Z := map_fold (fun _ x acc => f x + acc) 0 m.

(** The value of [f] at an entry that may be absent. *)
Definition opt_val f (o : option V) : Z :=
  match o with Some x => f x | None => 0 end.

Lemma map_sum_empty f : map_sum f ∅ = 0.
Proof. apply map_fold_empty. Qed.

Lemma map_sum_insert_fresh f m k x :
  m !! k = None -> map_sum f (<[k:=x]> m) = f x + map_sum f m.
Proof. intros. unfold map_sum. rewrite map_fold_insert_L; [done|lia|done]. Qed.

Lemma map_sum_delete f m k :
  map_sum f (delete k m) = map_sum f m - opt_val f (m !! k).
Proof.
  destruct (m !! k) as [x|] eqn:Hk; simpl.
  - rewrite <-(insert_delete_id m k x Hk) at 2.
    rewrite map_sum_insert_fresh by apply lookup_delete_eq. lia.
  - rewrite delete_id by done. lia.
Qed.

(** Replacing the entry at one key changes the sum by the difference of the
    two entries; insertion and deletion are instances. *)
Lemma map_sum_set f m k (o : option V) :
  map_sum f (partial_alter (fun _ => o) k m)
  = map_sum f m - opt_val f (m !! k) + opt_val f o.
Proof.
  destruct o as [x|]; simpl.
  - change (partial_alter _ k m) with (<[k:=x]> m).
    rewrite <-insert_delete_eq, map_sum_insert_fresh by apply lookup_delete_eq.
    rewrite map_sum_delete. lia.
  - change (partial_alter _ k m) with (delete k m).
    rewrite map_sum_delete. lia.
Qed.

Lemma map_sum_insert f m k x :
  map_sum f (<[k:=x]> m) = map_sum f m - opt_val f (m !! k) + f x.
Proof. apply (map_sum_set f m k (Some x)). Qed.

Lemma map_sum_le f g m :
  (forall k x, m !! k = Some x -> f x <= g x) -> map_sum f m <= map_sum g m.
Proof.
  induction m as [|k x m Hk IH] using map_ind; intros Hle.
  - by rewrite !map_sum_empty.
  - rewrite !map_sum_insert_fresh by done.
    assert (f x <= g x) by (eapply Hle; apply lookup_insert_eq).
    enough (map_sum f m <= map_sum g m) by lia.
    apply IH. intros k' x' Hx'. apply (Hle k').
    rewrite lookup_insert_ne; [done|]. intros ->. congruence.
Qed.

Lemma map_sum_nonneg f m :
  (forall k x, m !! k = Some x -> 0 <= f x) -> 0 <= map_sum f m.
Proof.
  intros Hf. transitivity (map_sum (fun _ => 0) m); [|by apply map_sum_le].
  induction m as [|k x m Hk IH] using map_ind; [by rewrite map_sum_empty|].
  rewrite map_sum_insert_fresh by done. etrans; [apply IH|lia].
  intros k' x' Hx'. apply (Hf k').
  rewrite lookup_insert_ne; [done|]. intros ->. congruence.
Qed.

(** One entry is bounded by the whole sum of nonnegative entries. *)
Lemma map_sum_entry_le f m k :
  (forall k x, m !! k = Some x -> 0 <= f x) -> opt_val f (m !! k) <= map_sum f m.
Proof.
  intros Hf. pose proof (map_sum_delete f m k).
  enough (0 <= map_sum f (delete k m)) by lia.
  apply map_sum_nonneg. intros k' x' [_ Hx']%lookup_delete_Some. eauto.
Qed.

Lemma map_sum_zero_entry f m k :
  (forall k x, m !! k = Some x -> 0 <= f x) -> map_sum f m = 0 ->
  opt_val f (m !! k) = 0.
Proof.
  intros Hf Hs. pose proof (map_sum_entry_le f m k Hf).
  destruct (m !! k) as [x|] eqn:Hk; simpl in *; [|done].
  specialize (Hf _ _ Hk). lia.
Qed.

Lemma map_sum_ext f g m :
  (forall k x, m !! k = Some x -> f x = g x) -> map_sum f m = map_sum g m.
Proof.
  intros He. apply Z.le_antisymm; apply map_sum_le; intros k x Hk;
    rewrite (He _ _ Hk); lia.
Qed.
End MapSum.

(** ** Ordered maps and loops *)

(** Keys of an ordered map, in order. *)
Definition sorted_keys {V} (m : gmap Z V) : list Z := merge_sort Z.le (map_to_list m).*1.

(** [for x in xs { f(x)?; }] *)
Fixpoint for_each {S E A} (xs : list A) (f : A -> M S E unit) : M S E unit :=
  match xs with
  | [] => mret tt
  | x :: xs => f x;; for_each xs f
  end.

Lemma sorted_keys_spec {V} (m : gmap Z V) :
  NoDup (sorted_keys m) /\ forall k, k ∈ sorted_keys m <-> is_Some (m !! k).
Proof.
  unfold sorted_keys. split.
  - rewrite merge_sort_Permutation. apply NoDup_fst_map_to_list.
  - intros k. rewrite merge_sort_Permutation, list_elem_of_fmap. split.
    + intros ([k' x] & -> & Hin%elem_of_map_to_list). by exists x.
    + intros [x Hx]. exists (k, x). split; [done|]. by apply elem_of_map_to_list.
Qed.

(** Filters that keep everything, or nothing. *)
Lemma list_filter_all {A} (P : A -> Prop) `{forall a, Decision (P a)} (l : list A) : Forall P l -> base.filter P l = l.
Proof. induction 1 as [|a l Ha _ IH]; [done|]. by rewrite filter_cons_True, IH. Qed.
Lemma list_filter_none {A} (P : A -> Prop) `{forall a, Decision (P a)} (l : list A) : Forall (fun a => ~ P a) l -> base.filter P l = [].
Proof. induction 1 as [|a l Ha _ IH]; [done|]. by rewrite filter_cons_False, IH. Qed.

(** ** Proof automation *)

Create HintDb albatross.

(** Split a hypothesis [m s = (o, s')] of a handler along the [match]es and
    [if]s of its body. *)
Ltac run_simpl :=
  unfold mbind, M_bind, mret, M_ret, fail, panic, gets, modify, ok_or, expect,
    fail_if, assert_that, lift, when, if_some in *; simpl in *.

Ltac bool_to_prop :=
  repeat match goal with
  | H : negb _ = true |- _ => apply negb_true_iff in H
  | H : negb _ = false |- _ => apply negb_false_iff in H
  | H : (_ && _) = true |- _ => apply andb_true_iff in H as [? ?]
  | H : (_ || _) = false |- _ => apply orb_false_iff in H as [? ?]
  | H : (_ <=? _) = true |- _ => apply Z.leb_le in H
  | H : (_ <=? _) = false |- _ => apply Z.leb_gt in H
  | H : (_ <? _) = true |- _ => apply Z.ltb_lt in H
  | H : (_ <? _) = false |- _ => apply Z.ltb_ge in H
  | H : (_ =? _) = true |- _ => apply Z.eqb_eq in H
  | H : (_ =? _) = false |- _ => apply Z.eqb_neq in H
  end.
