(* ===== verification/Coin.v ===== *)
(** * Coin amounts

    Models [primitives/src/coin.rs].  A [Coin] is a [u64] number of lunas held
    as a [Z]; [coin_ok] is the range every [Coin] built by the public
    constructors lies in.  The operators [+] and [-] panic when the result is
    not representable ([add], [sub]); the checked and saturating forms do not.
    Also the textual form: [Display] and [FromStr]. *)

From Stdlib Require Import Ascii.
From S2P Require Import Prelude.

Definition MAX_SAFE_VALUE : Z := 9007199254740991.
Definition LUNAS_PER_COIN : Z := 100000.
Definition FRAC_DIGITS : nat := 5.

Definition coin_ok (c : Z) : Prop := 0 <= c <= MAX_SAFE_VALUE.

(** ** Constructors and arithmetic *)

Definition try_from (val : Z) : option Z :=
  if val <=? MAX_SAFE_VALUE then Some val else None.

Definition is_zero (c : Z) : bool := c =? 0.

Definition coin_checked_add (a b : Z) : option Z :=
  checked_add 64 a b ≫= try_from.
Definition coin_checked_sub (a b : Z) : option Z :=
  checked_sub a b ≫= try_from.
Definition coin_checked_mul (a b : Z) : option Z :=
  checked_mul 64 a b ≫= try_from.

(** [Coin::safe_sub]: [inr (lhs, rhs)] is [CoinUnderflowError { lhs, rhs }]. *)
Definition safe_sub (a b : Z) : Z + Z * Z :=
  match coin_checked_sub a b with
  | Some c => inl c
  | None => inr (a, b)
  end.

Definition coin_saturating_add (a b : Z) : Z :=
  default MAX_SAFE_VALUE (coin_checked_add a b).
Definition coin_saturating_sub (a b : Z) : Z := saturating_sub a b.

Section Operators.
Context {S E : Type}.

Definition from_u64_unchecked (val : Z) : M S E Z := expect (try_from val).
Definition add (a b : Z) : M S E Z := expect (coin_checked_add a b).
Definition sub (a b : Z) : M S E Z := expect (coin_checked_sub a b).

(** [impl Sum for Coin]: a left fold of [add] from zero. *)
Definition sum (cs : list Z) : M S E Z :=
  foldl (fun acc c => a ← acc; add a c) (mret 0) cs.
End Operators.

(** ** Text *)

Definition digit_char (d : Z) : ascii := ascii_of_nat (Z.to_nat (48 + d)).
Definition char_digit (c : ascii) : option Z :=
  let n := Z.of_nat (nat_of_ascii c) in
  if (48 <=? n) && (n <=? 57) then Some (n - 48) else None.
Definition is_digit (c : ascii) : bool := bool_decide (is_Some (char_digit c)).

(** Decimal digits of [n], most significant first ([fuel] digits at most). *)
Fixpoint dec_digits (fuel : nat) (n : Z) : list ascii :=
  match fuel with
  | O => []
  | Datatypes.S fuel =>
      (if n <? 10 then [] else dec_digits fuel (n / 10)) ++ [digit_char (n `mod` 10)]
  end.
(** Exactly [k] digits, zero padded: [{:05}]. *)
Fixpoint pad_digits (k : nat) (n : Z) : list ascii :=
  match k with
  | O => []
  | Datatypes.S k => pad_digits k (n / 10) ++ [digit_char (n `mod` 10)]
  end.

(** [{}] of a [u64], which has at most 20 digits. *)
Definition show_u64 (n : Z) : list ascii := dec_digits 20 n.

Fixpoint digits_value (acc : Z) (s : list ascii) : option Z :=
  match s with
  | [] => Some acc
  | c :: s => d ← char_digit c; digits_value (acc * 10 + d) s
  end.

(** [str::parse::<u64>] on a nonempty run of digits. *)
Definition parse_u64 (s : list ascii) : option Z :=
  n ← digits_value 0 s; if n <=? max_value 64 then Some n else None.

Definition dot : ascii := "."%char.
Definition newline : ascii := ascii_of_nat 10.

Definition fmt_coin (c : Z) : list ascii :=
  let frac_part := c `mod` LUNAS_PER_COIN in
  if frac_part =? 0 then show_u64 (c / LUNAS_PER_COIN)
  else show_u64 (c / LUNAS_PER_COIN) ++ dot :: pad_digits FRAC_DIGITS frac_part.

(** The longest prefix of digits and the rest. *)
Fixpoint span_digits (s : list ascii) : list ascii * list ascii :=
  match s with
  | [] => ([], [])
  | c :: s' =>
      if is_digit c then let '(ds, rest) := span_digits s' in (c :: ds, rest)
      else ([], s)
  end.

(** [captures] of the regular expression of [from_str]: a run of digits
    ([int_part]), then optionally any character, one to five digits
    ([frac_part]) and a run of zeros.  The first quantifier is
    greedy and the text after it does not start with a digit, so no other split
    can match; the unescaped dot matches any character but a newline. *)
Definition captures (s : list ascii) : option (list ascii * option (list ascii)) :=
  let '(int_part, rest) := span_digits s in
  match int_part, rest with
  | [], _ => None
  | _, [] => Some (int_part, None)
  | _, c :: rest' =>
      let '(ds, tail) := span_digits rest' in
      let frac_part := take FRAC_DIGITS ds in
      if bool_decide (c ≠ newline /\ frac_part ≠ [] /\ tail = [] /\
                      Forall (eq "0"%char) (drop FRAC_DIGITS ds))
      then Some (int_part, Some frac_part) else None
  end.

(** [Coin::from_str]; every failure is the one [CoinParseError]. *)
Definition from_str (s : list ascii) : option Z :=
  '(int_str, frac_str) ← captures s;
  int_part ← parse_u64 int_str;
  frac_part ← match frac_str with
              | Some fs =>
                  f ← parse_u64 fs;
                  Some (wrap 64 (f * 10 ^ Z.of_nat (FRAC_DIGITS - length fs)))
              | None => Some 0
              end;
  try_from (wrap 64 (int_part * LUNAS_PER_COIN + frac_part)).

(** ** Arithmetic facts *)

Lemma coin_checked_add_spec a b : coin_ok a -> coin_ok b ->
  coin_checked_add a b = if a + b <=? MAX_SAFE_VALUE then Some (a + b) else None.
Proof.
  unfold coin_ok, MAX_SAFE_VALUE. intros Ha Hb.
  unfold coin_checked_add, checked_add, try_from, max_value. simpl.
  destruct (Z.leb_spec (a + b) (2 ^ 64 - 1)); [done|lia].
Qed.

Lemma coin_checked_sub_spec a b : coin_ok a -> coin_ok b ->
  coin_checked_sub a b = if b <=? a then Some (a - b) else None.
Proof.
  unfold coin_ok, MAX_SAFE_VALUE. intros Ha Hb.
  unfold coin_checked_sub, checked_sub, try_from.
  destruct (Z.leb_spec b a); [simpl|done].
  unfold MAX_SAFE_VALUE. destruct (Z.leb_spec (a - b) 9007199254740991); [done|lia].
Qed.

Lemma add_run {S E} a b (s : S) :
  coin_ok a -> coin_ok b -> a + b <= MAX_SAFE_VALUE ->
  @add S E a b s = (Ok (a + b), s).
Proof.
  intros Ha Hb Hle. unfold add. rewrite coin_checked_add_spec by done.
  by rewrite (proj2 (Z.leb_le _ _) Hle).
Qed.

Lemma sub_run {S E} a b (s : S) :
  coin_ok a -> coin_ok b -> b <= a -> @sub S E a b s = (Ok (a - b), s).
Proof.
  intros Ha Hb Hle. unfold sub. rewrite coin_checked_sub_spec by done.
  by rewrite (proj2 (Z.leb_le _ _) Hle).
Qed.

Lemma wp_add {S E} a b (Q : Z -> S -> Prop) (QE : E -> S -> Prop) s :
  0 <= a -> 0 <= b -> a + b <= MAX_SAFE_VALUE -> Q (a + b) s -> wp (add a b) Q QE s.
Proof. intros Ha Hb Hle HQ. unfold wp. by rewrite add_run by (unfold coin_ok; lia). Qed.

Lemma wp_sub {S E} a b (Q : Z -> S -> Prop) (QE : E -> S -> Prop) s :
  0 <= b -> b <= a -> a <= MAX_SAFE_VALUE -> Q (a - b) s -> wp (sub a b) Q QE s.
Proof. intros Hb Hle Ha HQ. unfold wp. by rewrite sub_run by (unfold coin_ok; lia). Qed.

Lemma add_inv {S E} a b (s s' : S) c :
  coin_ok a -> coin_ok b -> @add S E a b s = (Ok c, s') -> c = a + b /\ s' = s /\ coin_ok c.
Proof.
  intros Ha Hb. unfold add. rewrite coin_checked_add_spec by done.
  destruct (Z.leb_spec (a + b) MAX_SAFE_VALUE); simpl; [|done].
  intros [= <- <-]. unfold coin_ok in *. split_and!; [done..| |]; lia.
Qed.

Lemma sub_inv {S E} a b (s s' : S) c :
  coin_ok a -> coin_ok b -> @sub S E a b s = (Ok c, s') -> c = a - b /\ s' = s /\ coin_ok c.
Proof.
  intros Ha Hb. unfold sub. rewrite coin_checked_sub_spec by done.
  destruct (Z.leb_spec b a); simpl; [|done].
  intros [= <- <-]. unfold coin_ok in *. split_and!; [done..| |]; lia.
Qed.

(** ** Text facts *)

Lemma char_digit_char d : 0 <= d <= 9 -> char_digit (digit_char d) = Some d.
Proof.
  intros Hd. assert (d = 0 \/ d = 1 \/ d = 2 \/ d = 3 \/ d = 4 \/ d = 5 \/ d = 6
    \/ d = 7 \/ d = 8 \/ d = 9) as Hc by lia.
  by repeat destruct Hc as [->|Hc]; [..|subst].
Qed.

Lemma digits_value_app acc s1 s2 :
  digits_value acc (s1 ++ s2) = a ← digits_value acc s1; digits_value a s2.
Proof.
  revert acc. induction s1 as [|c s1 IH]; intros acc; simpl; [done|].
  destruct (char_digit c); simpl; [apply IH|done].
Qed.

Lemma mod10_range n : 0 <= n `mod` 10 <= 9.
Proof. pose proof (Z.mod_pos_bound n 10). lia. Qed.

Lemma dec_digits_value fuel n :
  0 <= n < 10 ^ Z.of_nat fuel -> fuel ≠ O -> digits_value 0 (dec_digits fuel n) = Some n.
Proof.
  revert n. induction fuel as [|fuel IH]; intros n Hn Hf; [done|].
  simpl dec_digits. rewrite digits_value_app.
  pose proof (mod10_range n). pose proof (Z.div_mod n 10 ltac:(lia)) as Hdm.
  destruct (Z.ltb_spec n 10).
  - simpl. rewrite char_digit_char by done. simpl. f_equal.
    rewrite Z.mod_small; lia.
  - assert (fuel ≠ O).
    { intros ->. simpl in Hn. lia. }
    rewrite IH; [|split; [apply Z.div_pos; lia|]|done].
    + simpl. rewrite char_digit_char by done. simpl. f_equal. lia.
    + apply Z.div_lt_upper_bound; [lia|].
      rewrite Nat2Z.inj_succ, Z.pow_succ_r in Hn by lia. lia.
Qed.

Lemma pad_digits_value k n :
  0 <= n < 10 ^ Z.of_nat k -> digits_value 0 (pad_digits k n) = Some n.
Proof.
  revert n. induction k as [|k IH]; intros n Hn.
  - simpl in *. f_equal. lia.
  - simpl pad_digits. rewrite digits_value_app, IH.
    + simpl. rewrite char_digit_char by apply mod10_range. simpl. f_equal.
      pose proof (Z.div_mod n 10). lia.
    + split; [apply Z.div_pos; lia|]. apply Z.div_lt_upper_bound; [lia|].
      rewrite Nat2Z.inj_succ, Z.pow_succ_r in Hn by lia. lia.
Qed.

Lemma pad_digits_length k n : length (pad_digits k n) = k.
Proof. revert n. induction k; intros n; simpl; [done|]. rewrite length_app, IHk. simpl. lia. Qed.

Lemma digit_char_is_digit d : 0 <= d <= 9 -> is_digit (digit_char d) = true.
Proof. intros. unfold is_digit. rewrite char_digit_char by done. by apply bool_decide_eq_true. Qed.

Lemma dec_digits_are_digits fuel n : Forall (fun c => is_digit c = true) (dec_digits fuel n).
Proof.
  revert n. induction fuel as [|fuel IH]; intros n; simpl; [constructor|].
  apply Forall_app. split; [destruct (n <? 10); [constructor|apply IH]|].
  constructor; [|constructor]. apply digit_char_is_digit, mod10_range.
Qed.

Lemma pad_digits_are_digits k n : Forall (fun c => is_digit c = true) (pad_digits k n).
Proof.
  revert n. induction k as [|k IH]; intros n; simpl; [constructor|].
  apply Forall_app. split; [done|].
  constructor; [|constructor]. apply digit_char_is_digit, mod10_range.
Qed.

Lemma span_digits_app ds rest :
  Forall (fun c => is_digit c = true) ds ->
  match rest with [] => True | c :: _ => is_digit c = false end ->
  span_digits (ds ++ rest) = (ds, rest).
Proof.
  intros Hds Hrest. induction Hds as [|c ds Hc _ IH]; simpl.
  - destruct rest as [|c rest]; [done|]. simpl. by rewrite Hrest.
  - by rewrite Hc, IH.
Qed.

Lemma dec_digits_nonempty fuel n : dec_digits (Datatypes.S fuel) n ≠ [].
Proof. simpl. by intros [_ ?]%app_eq_nil. Qed.

Lemma show_u64_nonempty n : show_u64 n ≠ [].
Proof. apply dec_digits_nonempty. Qed.

Lemma parse_show_u64 n : in_width 64 n -> parse_u64 (show_u64 n) = Some n.
Proof.
  unfold in_width, max_value. intros Hn. unfold parse_u64, show_u64, max_value.
  rewrite dec_digits_value by lia. simpl. by destruct (Z.leb_spec n (2 ^ 64 - 1)); [|lia].
Qed.

Lemma captures_int ds :
  ds ≠ [] -> Forall (fun c => is_digit c = true) ds -> captures ds = Some (ds, None).
Proof.
  intros Hne Hds. unfold captures.
  rewrite <-(app_nil_r ds) at 1. rewrite span_digits_app by done. by destruct ds.
Qed.

Lemma captures_frac ds fs :
  ds ≠ [] -> Forall (fun c => is_digit c = true) ds ->
  length fs = FRAC_DIGITS -> Forall (fun c => is_digit c = true) fs ->
  captures (ds ++ dot :: fs) = Some (ds, Some fs).
Proof.
  intros Hne Hds Hlen Hfs. unfold captures.
  rewrite span_digits_app by done. destruct ds as [|d ds]; [done|].
  rewrite <-(app_nil_r fs) at 1. rewrite span_digits_app by done.
  rewrite take_ge, drop_ge by lia.
  rewrite bool_decide_eq_true_2; [done|].
  split_and!; [done| |done|constructor]. by intros ->.
Qed.

Lemma parse_u64_digits s n :
  digits_value 0 s = Some n -> in_width 64 n -> parse_u64 s = Some n.
Proof.
  unfold parse_u64, in_width. intros -> [_ Hn]. simpl.
  by rewrite (proj2 (Z.leb_le _ _) Hn).
Qed.

(** ** Properties *)

(** Printing a representable amount and parsing the text back gives the
    same amount: [Coin::from_str (c.to_string()) = Ok(c)]. *)
Theorem from_str_fmt_coin c : coin_ok c -> from_str (fmt_coin c) = Some c.
Proof.
  unfold coin_ok, MAX_SAFE_VALUE. intros Hc.
  pose proof (Z.div_mod c LUNAS_PER_COIN ltac:(done)) as Hdm.
  pose proof (Z.mod_pos_bound c LUNAS_PER_COIN ltac:(done)) as Hm.
  assert (0 <= c / LUNAS_PER_COIN) by (apply Z.div_pos; done || lia).
  unfold LUNAS_PER_COIN in *.
  assert (in_width 64 (c / 100000)) by (unfold in_width, max_value; lia).
  assert (parse_u64 (show_u64 (c / 100000)) = Some (c / 100000)) as Hint
    by by apply parse_show_u64.
  unfold fmt_coin, from_str, LUNAS_PER_COIN.
  destruct (Z.eqb_spec (c `mod` 100000) 0) as [Hz|Hz].
  - rewrite captures_int by (apply show_u64_nonempty || apply dec_digits_are_digits).
    simpl. rewrite Hint. simpl. rewrite wrap_small by (unfold in_width, max_value; lia).
    replace (c / 100000 * 100000 + 0) with c by lia.
    unfold try_from, MAX_SAFE_VALUE. by destruct (Z.leb_spec c 9007199254740991); [|lia].
  - rewrite (captures_frac (show_u64 _) (pad_digits FRAC_DIGITS _));
      [|apply show_u64_nonempty|apply dec_digits_are_digits|apply pad_digits_length
       |apply pad_digits_are_digits].
    cbn [mbind option_bind]. rewrite Hint. cbn [mbind option_bind].
    rewrite pad_digits_length, (parse_u64_digits _ (c `mod` 100000));
      [|apply pad_digits_value; unfold FRAC_DIGITS; lia|unfold in_width, max_value; lia].
    cbn [mbind option_bind]. rewrite Nat.sub_diag, Z.mul_1_r.
    rewrite (wrap_small 64 (c `mod` _)) by (unfold in_width, max_value; lia).
    rewrite wrap_small by (unfold in_width, max_value; lia).
    replace (c / 100000 * 100000 + c `mod` 100000) with c by lia.
    unfold try_from, MAX_SAFE_VALUE. by destruct (Z.leb_spec c 9007199254740991); [|lia].
Qed.

Lemma from_str_fmt_coin_witness :
  from_str (fmt_coin 123456789) = Some 123456789.
Proof. apply (from_str_fmt_coin 123456789). unfold coin_ok, MAX_SAFE_VALUE. lia. Defined.

(** The dot of the regular expression is not escaped: any character separates
    the integer part from the fraction. *)
Lemma from_str_any_separator :
  from_str ["1"; "x"; "5"]%char = Some 150000.
Proof. vm_compute. reflexivity. Qed.

(** [int_part * LUNAS_PER_COIN] is not checked: an amount far above the maximum
    wraps around [u64] and is accepted as a small one. *)
Lemma from_str_wraps :
  from_str ["1";"8";"4";"4";"6";"7";"4";"4";"0";"7";"3";"7";"0";"9";"6"]%char = Some 48384.
Proof. vm_compute. reflexivity. Qed.
