(* ===== verification/Policy.v ===== *)
(** * Policy: block numbers, batches and epochs

    Models [primitives/src/policy.rs].  The process-wide [GLOBAL_POLICY] is the
    class [Policy]; its functions of a block number are the definitions below,
    on [u32] values held as [Z].  [None] stands for a panic or, where the Rust
    function returns an [Option], for [None].  The floating-point functions
    ([supply_at], [batch_delay_penalty]) are not modelled. *)

From S2P Require Import Prelude Coin.

Class Policy := {
  blocks_per_batch : Z;
  batches_per_epoch : Z;
  state_chunks_max_size : Z;
  transaction_validity_window : Z;
  genesis_block_number : Z;
  max_supported_version : Z;
}.

Definition SLOTS : Z := 512.
Definition TWO_F_PLUS_ONE : Z := div_ceil (2 * SLOTS) 3.
Definition F_PLUS_ONE : Z := div_ceil SLOTS 3.
Definition VALIDATOR_DEPOSIT : Z := 10000000000.
Definition MINIMUM_STAKE : Z := 10000000.
Definition JAIL_EPOCHS : Z := 8.
Definition TOTAL_SUPPLY : Z := 2100000000000000.
Definition UPGRADE_MIN_SUPPORT : Z := 80.
Definition STAKING_CONTRACT_ADDRESS : Z := 1.

(** The three policies of the source. *)
Definition MAINNET_POLICY : Policy := Build_Policy 60 720 1000 120 3456000 2.
Definition TESTNET_POLICY : Policy := Build_Policy 60 720 1000 120 3032010 2.

Section Functions.
Context `{P : Policy}.

Definition blocks_per_epoch : Z := wrap 32 (blocks_per_batch * batches_per_epoch).

Definition transaction_validity_window_blocks : option Z :=
  if transaction_validity_window <=? batches_per_epoch
  then Some (wrap 32 (transaction_validity_window * blocks_per_batch)) else None.

Definition epoch_at (block_number : Z) : Z :=
  if block_number <=? genesis_block_number then 0
  else div_ceil (block_number - genesis_block_number) blocks_per_epoch.

Definition epoch_index_at (block_number : Z) : Z :=
  if block_number <? genesis_block_number then block_number
  else wrap 32 (wrap 32 (block_number - genesis_block_number + blocks_per_epoch) - 1)
       `mod` blocks_per_epoch.

Definition batch_at (block_number : Z) : Z :=
  if block_number <=? genesis_block_number then 0
  else div_ceil (block_number - genesis_block_number) blocks_per_batch.

Definition batch_index_at (block_number : Z) : Z :=
  if block_number <? genesis_block_number then block_number
  else wrap 32 (wrap 32 (block_number - genesis_block_number + blocks_per_batch) - 1)
       `mod` blocks_per_batch.

Definition election_block_after (block_number : Z) : Z :=
  if block_number <? genesis_block_number then genesis_block_number
  else saturating_add 32
         (saturating_mul 32
            (wrap 32 ((block_number - genesis_block_number) / blocks_per_epoch + 1))
            blocks_per_epoch)
         genesis_block_number.

Definition election_block_before (block_number : Z) : option Z :=
  if block_number <? genesis_block_number then None
  else if block_number =? genesis_block_number then Some genesis_block_number
  else Some (wrap 32 ((block_number - genesis_block_number - 1)
                      / blocks_per_epoch * blocks_per_epoch
                      + genesis_block_number)).

Definition last_election_block (block_number : Z) : option Z :=
  if block_number <? genesis_block_number then None
  else Some (wrap 32 ((block_number - genesis_block_number)
                      / blocks_per_epoch * blocks_per_epoch
                      + genesis_block_number)).

Definition is_election_block_at (block_number : Z) : bool :=
  epoch_index_at block_number =? blocks_per_epoch - 1.

Definition macro_block_after (block_number : Z) : Z :=
  if block_number <? genesis_block_number then genesis_block_number
  else saturating_add 32
         (saturating_mul 32
            (wrap 32 ((block_number - genesis_block_number) / blocks_per_batch + 1))
            blocks_per_batch)
         genesis_block_number.

Definition macro_block_before (block_number : Z) : option Z :=
  if block_number <=? genesis_block_number then None
  else Some (wrap 32 ((block_number - genesis_block_number - 1)
                      / blocks_per_batch * blocks_per_batch
                      + genesis_block_number)).

Definition last_macro_block (block_number : Z) : option Z :=
  if block_number <? genesis_block_number then None
  else Some (wrap 32 ((block_number - genesis_block_number)
                      / blocks_per_batch * blocks_per_batch
                      + genesis_block_number)).

Definition is_macro_block_at (block_number : Z) : bool :=
  if block_number <? genesis_block_number then false
  else batch_index_at block_number =? blocks_per_batch - 1.

Definition is_micro_block_at (block_number : Z) : bool :=
  if block_number <? genesis_block_number then false
  else negb (batch_index_at block_number =? blocks_per_batch - 1).

Definition first_block_of (epoch : Z) : option Z :=
  e ← checked_sub epoch 1;
  b ← checked_mul 32 e blocks_per_epoch;
  b ← checked_add 32 b 1;
  checked_add 32 b genesis_block_number.

Definition first_block_of_batch (batch : Z) : option Z :=
  e ← checked_sub batch 1;
  b ← checked_mul 32 e blocks_per_batch;
  b ← checked_add 32 b 1;
  checked_add 32 b genesis_block_number.

Definition election_block_of (epoch : Z) : option Z :=
  b ← checked_mul 32 epoch blocks_per_epoch;
  checked_add 32 b genesis_block_number.

Definition macro_block_of (batch : Z) : option Z :=
  b ← checked_mul 32 batch blocks_per_batch;
  checked_add 32 b genesis_block_number.

Definition first_batch_of_epoch (block_number : Z) : bool :=
  epoch_index_at block_number <? blocks_per_batch.

Definition last_block_of_collateral_lockup (block_number : Z) : Z :=
  saturating_add 32 block_number blocks_per_epoch.

Definition block_after_collateral_lockup (block_number : Z) : Z :=
  saturating_add 32 (last_block_of_collateral_lockup block_number) 1.

Definition last_block_of_equivocation_reporting_window (block_number : Z) : option Z :=
  w ← transaction_validity_window_blocks;
  Some (saturating_add 32 block_number w).

Definition block_after_jail (block_number : Z) : Z :=
  saturating_add 32
    (saturating_add 32 block_number (saturating_mul 32 blocks_per_epoch JAIL_EPOCHS)) 1.
End Functions.

(** ** Upgrade signalling

    [signal_data] is a [Blake2bHash], a list of 32 bytes; the first two are the
    signalled version, big-endian. *)

Definition to_be_bytes16 (v : Z) : list Z := [v / 256; v `mod` 256].
Definition from_be_bytes16 (b0 b1 : Z) : Z := b0 * 256 + b1.

Definition signal_data_for_version (version : Z) : list Z :=
  to_be_bytes16 version ++ replicate 30 0.

Definition signal_data_with_version (current : option (list Z)) (version : Z) : list Z :=
  to_be_bytes16 version ++ drop 2 (default (replicate 32 0) current).

Definition supports_upgrade (signal_data : option (list Z)) (version : Z) : bool :=
  match signal_data with
  | Some (b0 :: b1 :: _) => from_be_bytes16 b0 b1 =? version
  | _ => false
  end.

(** ** Well-formed policies *)

Class PolicyOk (P : Policy) := {
  pol_bpb : 1 < blocks_per_batch <= max_value 32;
  pol_bpe : 0 < batches_per_epoch <= max_value 16;
  pol_epoch : blocks_per_batch * batches_per_epoch <= max_value 32;
  pol_window : 0 <= transaction_validity_window <= batches_per_epoch;
  pol_genesis : in_width 32 genesis_block_number;
}.

#[export] Instance MAINNET_POLICY_ok : PolicyOk MAINNET_POLICY.
Proof. constructor; unfold in_width, max_value; simpl; lia. Qed.
#[export] Instance TESTNET_POLICY_ok : PolicyOk TESTNET_POLICY.
Proof. constructor; unfold in_width, max_value; simpl; lia. Qed.

Section Facts.
Context `{P : Policy} {HP : PolicyOk P}.

Lemma blocks_per_epoch_eq : blocks_per_epoch = blocks_per_batch * batches_per_epoch.
Proof.
  destruct HP as [Hb He Hbe _ _]. unfold blocks_per_epoch. apply wrap_small.
  unfold in_width. nia.
Qed.

Lemma blocks_per_epoch_pos : 1 < blocks_per_epoch <= max_value 32.
Proof. rewrite blocks_per_epoch_eq. destruct HP as [Hb He Hbe _ _]. nia. Qed.

(** The index of a block [d] blocks after genesis in its period of [n] blocks. *)
Lemma period_index n d :
  1 < n <= max_value 32 -> 0 <= d -> d + n - 1 <= max_value 32 ->
  wrap 32 (wrap 32 (d + n) - 1) `mod` n = (d - 1) `mod` n.
Proof.
  unfold wrap, max_value. intros Hn Hd Hmax.
  rewrite Zminus_mod_idemp_l, (Z.mod_small (d + n - 1)) by lia.
  replace (d + n - 1) with (d - 1 + 1 * n) by lia. by rewrite Z.mod_add by lia.
Qed.

Lemma mod_pred n d : 1 < n -> ((d - 1) `mod` n = n - 1) <-> d `mod` n = 0.
Proof.
  intros Hn. pose proof (Z.div_mod d n ltac:(lia)) as Hdm.
  pose proof (Z.mod_pos_bound d n ltac:(lia)) as Hm. split; intros H.
  - pose proof (Z.div_mod (d - 1) n ltac:(lia)) as Hdm'. rewrite H in Hdm'.
    symmetry. apply Z.mod_unique with (q := (d - 1) / n + 1); lia.
  - symmetry. apply Z.mod_unique with (q := d / n - 1); lia.
Qed.

(** Blocks at which [d + n - 1] does not overflow: all but the last period of
    the [u32] range. *)
Definition index_safe (block_number : Z) : Prop :=
  0 <= block_number /\
  block_number - genesis_block_number + blocks_per_epoch - 1 <= max_value 32.

Lemma is_election_block_at_iff bn :
  index_safe bn -> genesis_block_number <= bn ->
  is_election_block_at bn = true <-> (bn - genesis_block_number) `mod` blocks_per_epoch = 0.
Proof.
  intros [H0 Hs] Hg. pose proof blocks_per_epoch_pos.
  unfold is_election_block_at, epoch_index_at.
  destruct (Z.ltb_spec bn genesis_block_number); [lia|].
  rewrite period_index by lia. rewrite Z.eqb_eq. apply mod_pred. lia.
Qed.

Lemma is_macro_block_at_iff bn :
  index_safe bn -> genesis_block_number <= bn ->
  is_macro_block_at bn = true <-> (bn - genesis_block_number) `mod` blocks_per_batch = 0.
Proof.
  intros [H0 Hs] Hg. pose proof blocks_per_epoch_eq. destruct HP as [Hb He Hbe _ _].
  unfold is_macro_block_at, batch_index_at.
  destruct (Z.ltb_spec bn genesis_block_number); [lia|].
  rewrite period_index by nia. rewrite Z.eqb_eq. apply mod_pred. lia.
Qed.

(** The next multiple of the period: [block_after] of the source without
    saturation. *)
Lemma period_after n g d :
  0 < n -> 0 <= d -> 0 <= g -> n <= max_value 32 -> (d / n + 1) * n + g <= max_value 32 ->
  saturating_add 32 (saturating_mul 32 (wrap 32 (d / n + 1)) n) g = (d / n + 1) * n + g.
Proof.
  intros Hn Hd Hg Hnm Hmax. assert (0 <= d / n) by (apply Z.div_pos; lia).
  rewrite wrap_small by (unfold in_width; nia).
  unfold saturating_add, saturating_mul. lia.
Qed.

Lemma next_multiple n d x :
  0 < n -> x `mod` n = 0 -> d < x -> (d / n + 1) * n <= x.
Proof.
  intros Hn Hx Hlt. apply Z.mod_divide in Hx as [k ->]; [|lia].
  assert (d / n < k) by (apply Z.div_lt_upper_bound; lia). nia.
Qed.

Lemma div_mul_bounds n d : 0 < n -> d / n * n <= d < (d / n + 1) * n.
Proof.
  intros Hn. pose proof (Z.div_mod d n ltac:(lia)). pose proof (Z.mod_pos_bound d n Hn). nia.
Qed.

Lemma last_multiple n d x :
  0 < n -> x `mod` n = 0 -> x <= d -> x <= d / n * n.
Proof.
  intros Hn Hx Hle. apply Z.mod_divide in Hx as [k ->]; [|lia].
  assert (k <= d / n) by (apply Z.div_le_lower_bound; lia). nia.
Qed.

(** A block [d > 0] blocks after genesis lies in period [div_ceil d n], whose
    first block is [(k - 1) * n + 1] and whose last is [k * n]. *)
Lemma period_bounds n d k :
  0 < n -> 0 < d -> k = div_ceil d n ->
  1 <= k /\ (k - 1) * n + 1 <= d <= k * n /\ (d - 1) `mod` n = d - ((k - 1) * n + 1).
Proof.
  intros Hn Hd Hk. rewrite div_ceil_spec in Hk by lia.
  pose proof (Z.div_mod (d - 1) n ltac:(lia)) as Hdm.
  pose proof (Z.mod_pos_bound (d - 1) n Hn) as Hm.
  assert (k = (d - 1) / n + 1) as ->.
  { rewrite Hk. replace (d + n - 1) with (d - 1 + 1 * n) by lia. by rewrite Z.div_add by lia. }
  assert (0 <= (d - 1) / n) by (apply Z.div_pos; lia). nia.
Qed.

Lemma checked_add_some w a b : a + b <= max_value w -> checked_add w a b = Some (a + b).
Proof. unfold checked_add. intros. by destruct (Z.leb_spec (a + b) (max_value w)); [|lia]. Qed.
Lemma checked_mul_some w a b : a * b <= max_value w -> checked_mul w a b = Some (a * b).
Proof. unfold checked_mul. intros. by destruct (Z.leb_spec (a * b) (max_value w)); [|lia]. Qed.
Lemma checked_sub_some a b : b <= a -> checked_sub a b = Some (a - b).
Proof. unfold checked_sub. intros. by destruct (Z.leb_spec b a); [|lia]. Qed.

Lemma epoch_at_eq bn :
  epoch_at bn = (Z.max 0 (bn - genesis_block_number) + blocks_per_epoch - 1) / blocks_per_epoch.
Proof.
  pose proof blocks_per_epoch_pos. unfold epoch_at.
  destruct (Z.leb_spec bn genesis_block_number).
  - rewrite Z.max_l by lia. rewrite Z.div_small by lia. done.
  - rewrite div_ceil_spec by lia. by rewrite Z.max_r by lia.
Qed.

Lemma epoch_at_mono b1 b2 : b1 <= b2 -> epoch_at b1 <= epoch_at b2.
Proof.
  intros. pose proof blocks_per_epoch_pos. rewrite !epoch_at_eq. apply Z.div_le_mono; lia.
Qed.

Lemma epoch_at_within b1 b2 : b2 <= b1 + blocks_per_epoch -> epoch_at b2 <= epoch_at b1 + 1.
Proof.
  intros. pose proof blocks_per_epoch_pos. rewrite !epoch_at_eq.
  rewrite <-Z.div_add by lia. apply Z.div_le_mono; lia.
Qed.


(** An offence is reportable only while the collateral of the offender is
    still locked. *)
Lemma reporting_window_within_lockup bn w :
  last_block_of_equivocation_reporting_window bn = Some w ->
  w <= last_block_of_collateral_lockup bn.
Proof.
  unfold last_block_of_equivocation_reporting_window, transaction_validity_window_blocks,
    last_block_of_collateral_lockup.
  rewrite blocks_per_epoch_eq. destruct HP as [Hb He Hbe Hw _].
  destruct (Z.leb_spec transaction_validity_window batches_per_epoch); [|done].
  rewrite wrap_small by (unfold in_width; nia). simpl. intros [= <-].
  unfold saturating_add. nia.
Qed.
End Facts.

(** ** Properties *)

Section Properties.
Context `{P : Policy} {HP : PolicyOk P}.

(** From any block at or after genesis, [last_election_block] and
    [election_block_after] are the two neighbouring election blocks: both are
    recognised by [is_election_block_at], the block lies between them, and no
    election block lies strictly between them. *)
Theorem election_blocks_bracket bn :
  genesis_block_number <= bn ->
  bn + 2 * blocks_per_epoch <= max_value 32 ->
  exists l, last_election_block bn = Some l /\
    l <= bn < election_block_after bn /\
    is_election_block_at l = true /\
    is_election_block_at (election_block_after bn) = true /\
    forall x, l < x < election_block_after bn -> is_election_block_at x = false.
Proof.
  intros Hg Hmax. pose proof blocks_per_epoch_pos as Hn. pose proof pol_genesis as [Hg0 _].
  set (d := bn - genesis_block_number). set (n := blocks_per_epoch) in *.
  pose proof (div_mul_bounds n d ltac:(lia)) as Hd.
  assert (0 <= d / n) by (apply Z.div_pos; lia).
  assert (Hafter : election_block_after bn = (d / n + 1) * n + genesis_block_number).
  { unfold election_block_after. fold d n.
    destruct (Z.ltb_spec bn genesis_block_number); [lia|].
    apply period_after; lia. }
  assert (Hlast : last_election_block bn = Some (d / n * n + genesis_block_number)).
  { unfold last_election_block. fold d n.
    destruct (Z.ltb_spec bn genesis_block_number); [lia|].
    rewrite wrap_small; [done|]. unfold in_width. lia. }
  exists (d / n * n + genesis_block_number). rewrite Hafter.
  split_and!; [done|lia|lia| | |].
  - apply is_election_block_at_iff; [split; fold n; lia|lia|].
    rewrite Z.add_simpl_r. apply Z.mod_mul. lia.
  - apply is_election_block_at_iff; [split; fold n; lia|lia|].
    rewrite Z.add_simpl_r. apply Z.mod_mul. lia.
  - intros x Hx. destruct (is_election_block_at x) eqn:He; [|done]. exfalso.
    apply is_election_block_at_iff in He; [|split; fold n; lia|lia]. fold n in He.
    destruct (Z.le_gt_cases (x - genesis_block_number) d) as [Hle|Hgt].
    + pose proof (last_multiple n d _ ltac:(lia) He Hle). lia.
    + pose proof (next_multiple n d _ ltac:(lia) He Hgt). lia.
Qed.

(** Epoch numbering is consistent.  A block after genesis lies between
    [first_block_of] and [election_block_of] of its own epoch, [epoch_index_at]
    is its offset from the first block of the epoch, and the last block of the
    epoch is an election block of that same epoch. *)
Theorem epoch_numbering bn :
  genesis_block_number < bn ->
  bn + blocks_per_epoch <= max_value 32 ->
  exists f l, first_block_of (epoch_at bn) = Some f /\
    election_block_of (epoch_at bn) = Some l /\
    f <= bn <= l /\
    epoch_index_at bn = bn - f /\
    epoch_at l = epoch_at bn /\
    (is_election_block_at bn = true <-> bn = l).
Proof.
  intros Hg Hmax. pose proof blocks_per_epoch_pos as Hn. pose proof pol_genesis as [Hg0 _].
  set (d := bn - genesis_block_number). set (n := blocks_per_epoch) in *.
  assert (Hk : epoch_at bn = div_ceil d n).
  { unfold epoch_at. fold d n. by destruct (Z.leb_spec bn genesis_block_number); [lia|]. }
  destruct (period_bounds n d (epoch_at bn) ltac:(lia) ltac:(lia) Hk) as (Hk1 & Hb & Hidx).
  set (k := epoch_at bn) in *.
  exists ((k - 1) * n + 1 + genesis_block_number), (k * n + genesis_block_number).
  assert (Hl : epoch_at (k * n + genesis_block_number) = k).
  { unfold epoch_at. fold n.
    destruct (Z.leb_spec (k * n + genesis_block_number) genesis_block_number); [nia|].
    rewrite div_ceil_spec by lia. symmetry.
    apply Z.div_unique with (r := n - 1); lia. }
  split_and!; [| |lia|lia| |done|].
  - unfold first_block_of. rewrite checked_sub_some by lia. simpl. fold n.
    rewrite checked_mul_some by lia. simpl. rewrite checked_add_some by lia. simpl.
    by rewrite checked_add_some by lia.
  - unfold election_block_of. fold n. rewrite checked_mul_some by lia. simpl.
    by rewrite checked_add_some by lia.
  - unfold epoch_index_at. fold n d.
    destruct (Z.ltb_spec bn genesis_block_number); [lia|].
    rewrite period_index by lia. lia.
  - rewrite is_election_block_at_iff by (try split; fold n; lia). fold d n.
    rewrite <-mod_pred, Hidx by lia. lia.
Qed.
End Properties.

Lemma election_blocks_bracket_witness :
  exists l, @last_election_block MAINNET_POLICY 3500000 = Some l /\ l <= 3500000.
Proof.
  destruct (@election_blocks_bracket MAINNET_POLICY _ 3500000) as (l & Hl & Hb & _).
  - simpl. lia.
  - vm_compute. done.
  - exists l. split; [exact Hl|lia].
Defined.

Lemma epoch_numbering_witness :
  exists f, @first_block_of MAINNET_POLICY 2 = Some f /\ f <= 3500000.
Proof.
  destruct (@epoch_numbering MAINNET_POLICY _ 3500000) as (f & l & Hf & _ & Hb & _).
  - simpl. lia.
  - vm_compute. done.
  - exists f. split; [exact Hf|lia].
Defined.

(** Before genesis [epoch_index_at] is the block number itself, so the last
    block of a would-be first epoch is taken for an election block although it
    is not a macro block and [last_election_block] panics on it. *)
Lemma election_block_before_genesis :
  @is_election_block_at MAINNET_POLICY 43199 = true /\
  @is_macro_block_at MAINNET_POLICY 43199 = false /\
  @last_election_block MAINNET_POLICY 43199 = None.
Proof. vm_compute. done. Qed.
