(* ===== verification/BitSet.v ===== *)
(** * Bit sets

    Models [collections/src/bitset.rs]: a growable set of [usize] values stored
    as 64-bit words with a cached cardinality.  [to_set] is the abstract set a
    [BitSet] denotes; the theorems at the end show that the operations on words
    implement the operations on sets, and that the cached count is the
    cardinality.  The infinite iterators ([iter_excluded], [iter_bits]) and the
    formatting and serialisation code are not modelled. *)

From S2P Require Import Prelude.

Record BitSet := mk_bitset { store : list Z; count : Z }.

Definition index_and_mask (value : Z) : Z * Z :=
  (Z.shiftr value 6, Z.shiftl 1 (Z.land value 63)).

Definition new : BitSet := mk_bitset [] 0.

(** [u64::count_ones] through the 64 bits of the word, least significant first
    ([Bits64Iter]). *)
Definition bits64 (w : Z) : list bool := (fun i => Z.testbit w i) <$> seqZ 0 64.
Definition count_true (bs : list bool) : Z := Z.of_nat (length (filter (.= true) bs)).
Definition count_ones (w : Z) : Z := count_true (bits64 w).

Definition len (b : BitSet) : Z := count b.
Definition is_empty (b : BitSet) : bool := count b =? 0.

Definition contains (b : BitSet) (value : Z) : bool :=
  let '(i, m) := index_and_mask value in
  match store b !! Z.to_nat i with
  | Some x => negb (Z.land x m =? 0)
  | None => false
  end.

(** [self.store.resize(n, 0)] when growing. *)
Definition grow (ws : list Z) (n : nat) : list Z := ws ++ replicate (n - length ws) 0.

Definition insert (b : BitSet) (value : Z) : BitSet :=
  let '(i, m) := index_and_mask value in
  let i := Z.to_nat i in
  let ws := if decide (length (store b) <= i)%nat then grow (store b) (i + 1) else store b in
  let x := ws !!! i in
  mk_bitset (<[i := Z.lor x m]> ws)
            (if Z.land x m =? 0 then count b + 1 else count b).

(** Drop the trailing zero words. *)
Fixpoint compact (ws : list Z) : list Z :=
  match ws with
  | [] => []
  | w :: ws =>
      match compact ws with
      | [] => if w =? 0 then [] else [w]
      | ws' => w :: ws'
      end
  end.

Definition remove (b : BitSet) (value : Z) : BitSet :=
  let '(i, m) := index_and_mask value in
  let i := Z.to_nat i in
  if decide (i < length (store b))%nat then
    let x := store b !!! i in
    mk_bitset (compact (<[i := Z.land x (Z.lxor m (max_value 64))]> (store b)))
              (if Z.land x m =? 0 then count b else count b - 1)
  else mk_bitset (compact (store b)) (count b).

(** The loop of [apply_op]: the words of both sides, the shorter one padded
    with zero words. *)
Fixpoint zip_words (op : Z -> Z -> Z) (l r : list Z) : list Z :=
  match l, r with
  | a :: l, b :: r => op a b :: zip_words op l r
  | a :: l, [] => op a 0 :: zip_words op l []
  | [], r => op 0 <$> r
  end.

(** [count += x.count_ones()] over the words. *)
Definition count_words (ws : list Z) : Z := foldr (fun w n => count_ones w + n) 0 ws.

Definition apply_op (op : Z -> Z -> Z) (b1 b2 : BitSet) : BitSet :=
  let ws := zip_words op (store b1) (store b2) in
  mk_bitset (compact ws) (count_words ws).

Definition bitand : BitSet -> BitSet -> BitSet := apply_op Z.land.
Definition bitor : BitSet -> BitSet -> BitSet := apply_op Z.lor.
Definition bitxor : BitSet -> BitSet -> BitSet := apply_op Z.lxor.

Fixpoint superset_words (l r : list Z) : bool :=
  match l, r with
  | a :: l, b :: r => (Z.land a b =? b) && superset_words l r
  | _ :: _, [] => true
  | [], r => forallb (fun b => b =? 0) r
  end.
Definition is_superset (b1 b2 : BitSet) : bool := superset_words (store b1) (store b2).
Definition is_subset (b1 b2 : BitSet) : bool := is_superset b2 b1.

Definition intersection_size (b1 b2 : BitSet) : Z :=
  foldr Z.add 0 (zip_with (fun a b => count_ones (Z.land a b)) (store b1) (store b2)).

Fixpoint eq_words (l r : list Z) : bool :=
  match l, r with
  | a :: l, b :: r => (a =? b) && eq_words l r
  | a :: l, [] => (a =? 0) && eq_words l []
  | [], r => forallb (fun b => 0 =? b) r
  end.
(** [PartialEq::eq]. *)
Definition eq (b1 b2 : BitSet) : bool := eq_words (store b1) (store b2).

(** The bits of all words, and the positions of those that are set ([iter]). *)
Definition iter_bits (ws : list Z) : list bool := ws ≫= bits64.
Definition enum_true (bs : list bool) : list Z :=
  omap (fun p : nat * bool => if p.2 then Some (Z.of_nat p.1) else None)
       (imap pair bs).
Definition iter (b : BitSet) : list Z := enum_true (iter_bits (store b)).

Definition from_iter (vs : list Z) : BitSet := foldl insert new vs.

(** ** The denoted set *)

Definition to_set (b : BitSet) : gset Z := list_to_set (iter b).

(** Every word is a [u64] and the count is the number of set bits. *)
Definition wf (b : BitSet) : Prop :=
  Forall (in_width 64) (store b) /\ count b = count_words (store b).

(** No trailing zero word: the form [insert], [remove] and the operators keep. *)
Definition canonical (b : BitSet) : Prop := compact (store b) = store b.

(** The word at index [i], zero beyond the end. *)
Definition word (ws : list Z) (i : nat) : Z := default 0 (ws !! i).

(** ** Bits *)

Lemma bits64_length w : length (bits64 w) = 64%nat.
Proof. unfold bits64. by rewrite length_fmap, length_seqZ. Qed.

Lemma bits64_lookup w j : (j < 64)%nat -> bits64 w !! j = Some (Z.testbit w (Z.of_nat j)).
Proof.
  intros Hj. unfold bits64. rewrite list_lookup_fmap, lookup_seqZ_lt by lia. done.
Qed.

Lemma iter_bits_lookup ws i j : (j < 64)%nat -> (i < length ws)%nat ->
  iter_bits ws !! (64 * i + j)%nat = Some (Z.testbit (word ws i) (Z.of_nat j)).
Proof.
  intros Hj. revert i. induction ws as [|w ws IH]; intros i Hi; simpl in Hi; [lia|].
  change (iter_bits (w :: ws)) with (bits64 w ++ iter_bits ws).
  destruct i as [|i].
  - rewrite Nat.mul_0_r, Nat.add_0_l, lookup_app_l by (rewrite bits64_length; lia).
    by apply bits64_lookup.
  - rewrite lookup_app_r by (rewrite bits64_length; lia). rewrite bits64_length.
    replace (64 * S i + j - 64)%nat with (64 * i + j)%nat by lia.
    rewrite IH by lia. done.
Qed.

Lemma iter_bits_length ws : length (iter_bits ws) = (64 * length ws)%nat.
Proof.
  induction ws as [|w ws IH]; [done|].
  change (iter_bits (w :: ws)) with (bits64 w ++ iter_bits ws).
  rewrite length_app, bits64_length, IH. simpl. lia.
Qed.

Lemma elem_of_enum_true bs v :
  v ∈ enum_true bs <-> exists n, v = Z.of_nat n /\ bs !! n = Some true.
Proof.
  unfold enum_true. rewrite list_elem_of_omap. split.
  - intros ([n b] & Hin & Hb). simpl in Hb. destruct b; [|done]. simplify_eq.
    exists n. split; [done|]. apply list_elem_of_lookup in Hin as [k Hk].
    rewrite list_lookup_imap in Hk. destruct (bs !! k) eqn:Hbs; simpl in Hk; [|done].
    by simplify_eq.
  - intros (n & -> & Hn). exists (n, true). split; [|done].
    apply list_elem_of_lookup. exists n. by rewrite list_lookup_imap, Hn.
Qed.

Lemma enum_true_NoDup bs : NoDup (enum_true bs).
Proof.
  unfold enum_true.
  assert (Hgen : forall (l : list bool) (f : nat -> nat) , (forall i j, f i = f j -> i = j) ->
    NoDup (omap (fun p : nat * bool => if p.2 then Some (Z.of_nat p.1) else None)
                (imap (fun i b => (f i, b)) l)) ).
  { induction l as [|b l IH]; intros f Hf; simpl; [constructor|].
    specialize (IH (fun i => f (S i))).
    destruct b; simpl.
    - constructor; [|apply IH; intros ?? ?%Hf; lia].
      rewrite list_elem_of_omap. intros ([n b'] & Hin & Hb).
      apply list_elem_of_lookup in Hin as [k Hk]. rewrite list_lookup_imap in Hk.
      destruct (l !! k); simpl in *; [|done]. simplify_eq.
      destruct b'; simplify_eq. apply Hf in Hb. lia.
    - apply IH. intros ?? ?%Hf. lia. }
  apply (Hgen bs id). done.
Qed.

Lemma enum_true_length bs : Z.of_nat (length (enum_true bs)) = count_true bs.
Proof.
  unfold enum_true, count_true. f_equal.
  assert (Hgen : forall (l : list bool) (f : nat -> nat),
    length (omap (fun p : nat * bool => if p.2 then Some (Z.of_nat p.1) else None)
              (imap (fun i b => (f i, b)) l)) = length (filter (.= true) l)).
  { induction l as [|b l IH]; intros f; simpl; [done|].
    specialize (IH (fun i => f (S i))). rewrite filter_cons.
    destruct b; simpl; by rewrite <-IH. }
  apply (Hgen bs id).
Qed.

Lemma count_true_app l1 l2 : count_true (l1 ++ l2) = count_true l1 + count_true l2.
Proof. unfold count_true. rewrite filter_app, length_app. lia. Qed.

Lemma count_iter_bits ws : count_true (iter_bits ws) = count_words ws.
Proof.
  induction ws as [|w ws IH]; [done|].
  change (iter_bits (w :: ws)) with (bits64 w ++ iter_bits ws).
  rewrite count_true_app, IH. done.
Qed.

Lemma land_bit_eqb x k : 0 <= k -> negb (Z.land x (Z.shiftl 1 k) =? 0) = Z.testbit x k.
Proof.
  intros Hk. rewrite Z.shiftl_1_l. destruct (Z.testbit x k) eqn:Hx.
  - apply negb_true_iff, Z.eqb_neq. intros Hz.
    assert (Z.testbit (Z.land x (2 ^ k)) k = false) as Hf by by rewrite Hz, Z.bits_0.
    rewrite Z.land_spec, Hx, Z.pow2_bits_true in Hf by done. done.
  - apply negb_false_iff, Z.eqb_eq, Z.bits_inj_0. intros j.
    rewrite Z.land_spec, Z.pow2_bits_eqb by done.
    destruct (Z.eqb_spec k j) as [<-|]; [by rewrite Hx|apply andb_false_r].
Qed.

(** The word and the bit of a value. *)
Definition word_of (v : Z) : nat := Z.to_nat (v / 64).
Definition bit_of (v : Z) : Z := v `mod` 64.

Lemma index_and_mask_eq v :
  index_and_mask v = (v / 64, Z.shiftl 1 (bit_of v)).
Proof.
  unfold index_and_mask, bit_of. f_equal; [by rewrite Z.shiftr_div_pow2|].
  f_equal. change 63 with (Z.ones 6). by rewrite Z.land_ones.
Qed.

Lemma bit_of_range v : 0 <= bit_of v < 64.
Proof. unfold bit_of. apply Z.mod_pos_bound. lia. Qed.

Lemma value_split v : 0 <= v -> v = 64 * Z.of_nat (word_of v) + bit_of v.
Proof.
  intros Hv. unfold word_of, bit_of. rewrite Z2Nat.id by (apply Z.div_pos; lia).
  apply Z.div_mod. lia.
Qed.

Lemma contains_testbit b v :
  contains b v = Z.testbit (word (store b) (word_of v)) (bit_of v).
Proof.
  unfold contains. rewrite index_and_mask_eq. fold (word_of v). unfold word.
  destruct (store b !! word_of v); simpl.
  - apply land_bit_eqb, bit_of_range.
  - by rewrite Z.bits_0.
Qed.

Lemma elem_of_to_set b v : v ∈ to_set b <-> 0 <= v /\ contains b v = true.
Proof.
  unfold to_set, iter. rewrite elem_of_list_to_set, elem_of_enum_true. split.
  - intros (n & -> & Hn). split; [lia|]. rewrite contains_testbit.
    pose proof (value_split (Z.of_nat n) ltac:(lia)) as Hs.
    pose proof (bit_of_range (Z.of_nat n)) as Hr.
    assert (n < length (iter_bits (store b)))%nat as Hlen by (by eapply lookup_lt_Some).
    rewrite iter_bits_length in Hlen.
    replace n with (64 * word_of (Z.of_nat n) + Z.to_nat (bit_of (Z.of_nat n)))%nat in Hn by lia.
    rewrite iter_bits_lookup in Hn by lia. injection Hn as Hn.
    rewrite Z2Nat.id in Hn by lia. done.
  - intros [Hv Hc]. rewrite contains_testbit in Hc. exists (Z.to_nat v).
    split; [lia|]. pose proof (value_split v Hv). pose proof (bit_of_range v).
    replace (Z.to_nat v) with (64 * word_of v + Z.to_nat (bit_of v))%nat by lia.
    rewrite iter_bits_lookup; [|lia|].
    + by rewrite Z2Nat.id, Hc by lia.
    + destruct (decide (word_of v < length (store b))%nat) as [|Hge]; [done|].
      unfold word in Hc. rewrite lookup_ge_None_2 in Hc by lia. simpl in Hc.
      by rewrite Z.bits_0 in Hc.
Qed.

Lemma size_to_set b : wf b -> Z.of_nat (size (to_set b)) = count b.
Proof.
  intros [_ ->]. unfold to_set. rewrite size_list_to_set by apply enum_true_NoDup.
  unfold iter. by rewrite enum_true_length, count_iter_bits.
Qed.

(** ** Words *)

Lemma word_compact ws i : word (compact ws) i = word ws i.
Proof.
  revert i. induction ws as [|w ws IH]; intros i; [done|]. simpl.
  destruct (compact ws) as [|w' ws'] eqn:Hc.
  - assert (forall j, word ws j = 0) as Hz by (intros j; by rewrite <-IH).
    destruct (Z.eqb_spec w 0) as [->|Hw]; destruct i as [|i]; try done;
      unfold word in *; simpl; rewrite Hz; done.
  - destruct i as [|i]; [done|]. apply IH.
Qed.

Lemma word_zip op l r i : op 0 0 = 0 -> word (zip_words op l r) i = op (word l i) (word r i).
Proof.
  intros H0. unfold word. revert r i.
  induction l as [|a l IH]; intros r i.
  - simpl. rewrite list_lookup_fmap. by destruct (r !! i).
  - destruct r as [|b r]; destruct i as [|i]; simpl; done.
Qed.

Lemma word_grow ws n i : word (grow ws n) i = word ws i.
Proof.
  unfold word, grow. destruct (decide (i < length ws)%nat).
  - by rewrite lookup_app_l by done.
  - rewrite lookup_app_r, (lookup_ge_None_2 ws) by lia. simpl.
    destruct (replicate _ _ !! _) eqn:Hr; [|done]. simpl.
    by apply lookup_replicate in Hr as [-> _].
Qed.

Lemma word_insert ws i j x : (i < length ws)%nat ->
  word (<[i:=x]> ws) j = if decide (i = j) then x else word ws j.
Proof.
  intros Hi. unfold word. case_decide; subst.
  - by rewrite list_lookup_insert_eq.
  - by rewrite list_lookup_insert_ne.
Qed.

Lemma count_words_ext ws1 ws2 : (forall i, word ws1 i = word ws2 i) ->
  count_words ws1 = count_words ws2.
Proof.
  assert (Hz : forall ws, (forall i, word ws i = 0) -> count_words ws = 0).
  { induction ws as [|w ws IH]; intros Hw; [done|]. cbn [count_words foldr].
    fold (count_words ws). rewrite IH by (intros i; apply (Hw (S i))).
    pose proof (Hw O) as H0. unfold word in H0. simpl in H0. by subst. }
  revert ws2. induction ws1 as [|w1 ws1 IH]; intros ws2 He.
  - symmetry. apply Hz. intros i. by rewrite <-He.
  - destruct ws2 as [|w2 ws2].
    + apply Hz. intros i. by rewrite He.
    + cbn [count_words foldr]. fold (count_words ws1) (count_words ws2).
      pose proof (He O) as H0. unfold word in H0. simpl in H0. subst.
      f_equal. apply IH. intros i. apply (He (S i)).
Qed.

Lemma Forall_word ws i : Forall (in_width 64) ws -> in_width 64 (word ws i).
Proof.
  intros Hf. unfold word. destruct (ws !! i) eqn:Hi; simpl.
  - by eapply Forall_lookup_1.
  - unfold in_width, max_value. lia.
Qed.

Lemma Forall_of_word ws : (forall i, in_width 64 (word ws i)) -> Forall (in_width 64) ws.
Proof.
  intros Hw. apply Forall_lookup_2. intros i x Hi. specialize (Hw i).
  unfold word in Hw. by rewrite Hi in Hw.
Qed.

Lemma in_width_iff_bits x :
  in_width 64 x <-> 0 <= x /\ forall i, 64 <= i -> Z.testbit x i = false.
Proof.
  unfold in_width, max_value. split.
  - intros [H0 Hx]. split; [done|]. intros i Hi.
    destruct (decide (x = 0)) as [->|]; [apply Z.bits_0|].
    apply Z.bits_above_log2; [done|].
    assert (Z.log2 x < 64); [|lia]. apply Z.log2_lt_pow2; lia.
  - intros [H0 Hb]. split; [done|].
    destruct (decide (x = 0)) as [->|]; [lia|].
    destruct (Z.lt_ge_cases (Z.log2 x) 64) as [Hl|Hl].
    + apply Z.log2_lt_pow2 in Hl; lia.
    + apply Hb in Hl. by rewrite Z.bit_log2 in Hl by lia.
Qed.

(** An operator that acts bit by bit and keeps zero bits. *)
Definition bitwise (op : Z -> Z -> Z) (f : bool -> bool -> bool) : Prop :=
  f false false = false /\ (forall x y, 0 <= x -> 0 <= y -> 0 <= op x y) /\
  forall x y i, Z.testbit (op x y) i = f (Z.testbit x i) (Z.testbit y i).

Lemma bitwise_width op f x y :
  bitwise op f -> in_width 64 x -> in_width 64 y -> in_width 64 (op x y).
Proof.
  intros (H0 & Hn & Hop) [Hx Hxb]%in_width_iff_bits [Hy Hyb]%in_width_iff_bits.
  apply in_width_iff_bits. split; [by apply Hn|].
  intros i Hi. by rewrite Hop, Hxb, Hyb.
Qed.

Lemma bitwise_zero op f : bitwise op f -> op 0 0 = 0.
Proof.
  intros (H0 & _ & Hop). apply Z.bits_inj_0. intros i. by rewrite Hop, !Z.bits_0.
Qed.

Lemma land_bitwise : bitwise Z.land andb.
Proof. split_and!; [done|intros; apply Z.land_nonneg; by left|intros; apply Z.land_spec]. Qed.
Lemma lor_bitwise : bitwise Z.lor orb.
Proof. split_and!; [done|intros; by apply Z.lor_nonneg|intros; apply Z.lor_spec]. Qed.
Lemma lxor_bitwise : bitwise Z.lxor xorb.
Proof. split_and!; [done|intros; apply Z.lxor_nonneg; lia|intros; apply Z.lxor_spec]. Qed.

Lemma compact_idemp ws : compact (compact ws) = compact ws.
Proof.
  induction ws as [|w ws IH]; [done|]. simpl.
  destruct (compact ws) as [|w' ws'] eqn:Hc.
  - destruct (Z.eqb_spec w 0); [done|]. simpl. by destruct (Z.eqb_spec w 0).
  - simpl in *. by rewrite IH.
Qed.

(** Canonical sets with the same words are the same lists. *)
Lemma canonical_words_eq ws1 ws2 :
  compact ws1 = ws1 -> compact ws2 = ws2 -> (forall i, word ws1 i = word ws2 i) -> ws1 = ws2.
Proof.
  assert (Hz : forall ws, compact ws = ws -> (forall i, word ws i = 0) -> ws = []).
  { intros ws <- Hw. assert (forall i, word ws i = 0) as Hw' by (intros; by rewrite <-word_compact).
    clear Hw. induction ws as [|w ws IH]; [done|]. simpl.
    rewrite IH by (intros i; apply (Hw' (S i))).
    pose proof (Hw' O) as H0. unfold word in H0. simpl in H0. by subst. }
  revert ws2. induction ws1 as [|w1 ws1 IH]; intros ws2 H1 H2 He.
  - symmetry. apply Hz; [done|]. intros i. by rewrite <-He.
  - destruct ws2 as [|w2 ws2]; [apply Hz; [done|]; intros i; by rewrite He|].
    pose proof (He O) as H0. unfold word in H0. simpl in H0. subst. f_equal.
    assert (Htl : forall w ws, compact (w :: ws) = w :: ws -> compact ws = ws).
    { intros w ws Hw. simpl in Hw. destruct (compact ws) as [|w' ws'] eqn:Hc.
      - destruct (w =? 0); by simplify_eq.
      - by simplify_eq. }
    apply IH; [by eapply Htl..|]. intros i. apply (He (S i)).
Qed.

Lemma compact_cons w ws :
  compact (w :: ws) = match compact ws with
                      | [] => if w =? 0 then [] else [w]
                      | ws' => w :: ws'
                      end.
Proof. done. Qed.

Lemma compact_id_iff ws : compact ws = ws <-> last ws ≠ Some 0.
Proof.
  induction ws as [|w ws IH]; [done|].
  destruct ws as [|w' ws].
  - simpl. destruct (Z.eqb_spec w 0) as [->|Hw]; split; try done. congruence.
  - rewrite last_cons_cons, <-IH, (compact_cons w).
    destruct (compact (w' :: ws)) eqn:Hc; [|split; congruence].
    split; [|done]. by destruct (w =? 0).
Qed.

Lemma count_words_size b : count_words (store b) = Z.of_nat (size (to_set b)).
Proof.
  unfold to_set. rewrite size_list_to_set by apply enum_true_NoDup.
  unfold iter. by rewrite enum_true_length, count_iter_bits.
Qed.

Lemma count_compact ws : count_words (compact ws) = count_words ws.
Proof. apply count_words_ext, word_compact. Qed.

(** Equal bits, equal sets. *)
Lemma to_set_ext b1 b2 :
  (forall v, 0 <= v -> contains b1 v = contains b2 v) <-> to_set b1 = to_set b2.
Proof.
  split.
  - intros Hc. apply set_eq. intros v. rewrite !elem_of_to_set.
    split; intros [? ?]; (split; [done|]); [by rewrite <-Hc|by rewrite Hc].
  - intros He v Hv. apply eq_bool_prop_intro. split; intros Hb; apply Is_true_eq_true in Hb;
      apply Is_true_eq_left.
    + assert (v ∈ to_set b2) as Hin by (rewrite <-He; by apply elem_of_to_set).
      by apply elem_of_to_set in Hin as [_ ?].
    + assert (v ∈ to_set b1) as Hin by (rewrite He; by apply elem_of_to_set).
      by apply elem_of_to_set in Hin as [_ ?].
Qed.

Lemma same_value v w : 0 <= v -> 0 <= w ->
  word_of v = word_of w -> bit_of v = bit_of w -> v = w.
Proof. intros Hv Hw H1 H2. rewrite (value_split v), (value_split w) by done. congruence. Qed.

(** ** Insertion *)

Lemma insert_store b v :
  exists ws, store (insert b v) = <[word_of v := Z.lor (word (store b) (word_of v))
                                               (Z.shiftl 1 (bit_of v))]> ws /\
    (word_of v < length ws)%nat /\ (forall i, word ws i = word (store b) i) /\
    (length ws = Nat.max (length (store b)) (word_of v + 1)) /\
    count (insert b v) = if contains b v then count b else count b + 1.
Proof.
  unfold insert. rewrite index_and_mask_eq. fold (word_of v). cbn zeta.
  set (ws := if decide _ then _ else _). exists ws.
  assert (Hlen : length ws = Nat.max (length (store b)) (word_of v + 1)).
  { subst ws. case_decide; [unfold grow; rewrite length_app, length_replicate|]; lia. }
  assert (Hw : forall i, word ws i = word (store b) i).
  { subst ws. case_decide; [intros; apply word_grow|done]. }
  assert (Hx : ws !!! word_of v = word (store b) (word_of v)).
  { rewrite <-Hw. unfold word. destruct (ws !! word_of v) eqn:Hl; simpl.
    - by apply list_lookup_total_correct.
    - apply lookup_ge_None in Hl. lia. }
  rewrite Hx. split_and!; [done|lia|done|done|]. simpl.
  rewrite contains_testbit, <-(land_bit_eqb _ _ (proj1 (bit_of_range v))).
  by destruct (_ =? _).
Qed.

Lemma insert_word b v i :
  word (store (insert b v)) i =
    if decide (word_of v = i) then Z.lor (word (store b) i) (Z.shiftl 1 (bit_of v))
    else word (store b) i.
Proof.
  destruct (insert_store b v) as (ws & -> & Hlt & Hw & _ & _).
  rewrite word_insert by done. case_decide; [by subst|apply Hw].
Qed.

Lemma insert_contains b v w : 0 <= v -> 0 <= w ->
  contains (insert b v) w = bool_decide (v = w) || contains b w.
Proof.
  intros Hv Hw. rewrite !contains_testbit, insert_word.
  pose proof (bit_of_range v). pose proof (bit_of_range w).
  case_decide as Hwd.
  - rewrite Z.lor_spec, Z.shiftl_1_l, Z.pow2_bits_eqb by lia. rewrite orb_comm. f_equal.
    destruct (Z.eqb_spec (bit_of v) (bit_of w)) as [He|He].
    + symmetry. apply bool_decide_eq_true. by apply same_value.
    + symmetry. apply bool_decide_eq_false. congruence.
  - rewrite bool_decide_eq_false_2; [done|]. congruence.
Qed.

Lemma insert_to_set b v : 0 <= v -> to_set (insert b v) = {[v]} ∪ to_set b.
Proof.
  intros Hv. apply set_eq. intros w.
  rewrite elem_of_union, elem_of_singleton, !elem_of_to_set. split.
  - intros [Hw Hc]. rewrite insert_contains in Hc by done.
    apply orb_true_iff in Hc as [->%bool_decide_eq_true|Hc]; auto.
  - intros [->|[Hw Hc]]; (split; [done|]); rewrite insert_contains by done.
    + by rewrite bool_decide_eq_true_2.
    + by rewrite Hc, orb_true_r.
Qed.

Lemma shiftl1_width v : in_width 64 (Z.shiftl 1 (bit_of v)).
Proof.
  pose proof (bit_of_range v). rewrite Z.shiftl_1_l. unfold in_width, max_value.
  assert (2 ^ bit_of v < 2 ^ 64) by (apply Z.pow_lt_mono_r; lia).
  assert (0 < 2 ^ bit_of v) by (apply Z.pow_pos_nonneg; lia). lia.
Qed.

Lemma size_insert_elem (v : Z) (X : gset Z) :
  Z.of_nat (size ({[v]} ∪ X)) = if bool_decide (v ∈ X) then Z.of_nat (size X) else Z.of_nat (size X) + 1.
Proof.
  case_bool_decide as Hin.
  - by replace ({[v]} ∪ X) with X by set_solver.
  - rewrite size_union by set_solver. rewrite size_singleton. lia.
Qed.

Lemma contains_bool_decide b v : 0 <= v -> contains b v = bool_decide (v ∈ to_set b).
Proof.
  intros Hv. destruct (contains b v) eqn:Hc; symmetry.
  - apply bool_decide_eq_true. by apply elem_of_to_set.
  - apply bool_decide_eq_false. rewrite elem_of_to_set, Hc. naive_solver.
Qed.

Lemma insert_wf b v : 0 <= v -> wf b -> wf (insert b v).
Proof.
  intros Hv [Hf Hc]. split.
  - apply Forall_of_word. intros i. rewrite insert_word.
    case_decide; [|by apply Forall_word].
    eapply bitwise_width; [apply lor_bitwise|by apply Forall_word|apply shiftl1_width].
  - destruct (insert_store b v) as (_ & _ & _ & _ & _ & ->).
    rewrite count_words_size, insert_to_set, size_insert_elem by done.
    rewrite contains_bool_decide, Hc, count_words_size by done. by case_bool_decide.
Qed.

Lemma insert_canonical b v : 0 <= v -> canonical b -> canonical (insert b v).
Proof.
  unfold canonical. rewrite !compact_id_iff. intros Hv Hl.
  destruct (insert_store b v) as (ws & -> & Hlt & Hw & Hlen & _).
  rewrite !last_lookup in *. rewrite length_insert.
  destruct (decide (word_of v = pred (length ws))) as [He|He].
  - rewrite He, list_lookup_insert_eq by lia. intros [= H0].
    apply Z.lor_eq_0_iff in H0 as [_ H0]. rewrite Z.shiftl_1_l in H0.
    pose proof (bit_of_range v). pose proof (Z.pow_pos_nonneg 2 (bit_of v)). lia.
  - rewrite list_lookup_insert_ne by done.
    assert (length ws = length (store b)) as Hle by lia.
    intros H0. apply Hl. specialize (Hw (pred (length ws))). unfold word in Hw.
    rewrite H0, Hle in Hw. simpl in Hw.
    destruct (store b !! pred (length (store b))) eqn:Hs; simpl in Hw; [by subst|].
    apply lookup_ge_None in Hs. lia.
Qed.

(** ** Removal *)

(** Clearing a bit of a word. *)
Definition clear_bit (x v : Z) : Z := Z.land x (Z.lxor (Z.shiftl 1 (bit_of v)) (max_value 64)).

Lemma clear_bit_testbit x v j : in_width 64 x ->
  Z.testbit (clear_bit x v) j = Z.testbit x j && negb (bit_of v =? j).
Proof.
  intros [_ Hx]%in_width_iff_bits. unfold clear_bit. pose proof (bit_of_range v).
  rewrite Z.land_spec, Z.lxor_spec, Z.shiftl_1_l, Z.pow2_bits_eqb by lia.
  unfold max_value. change (2 ^ 64 - 1) with (Z.ones 64).
  destruct (Z.lt_ge_cases j 0); [by rewrite Z.testbit_neg_r|].
  destruct (Z.lt_ge_cases j 64) as [Hj|Hj].
  - rewrite Z.ones_spec_low by lia. by destruct (bit_of v =? j), (Z.testbit x j).
  - by rewrite Hx by lia.
Qed.

Lemma clear_bit_width x v : in_width 64 x -> in_width 64 (clear_bit x v).
Proof.
  intros Hx. apply in_width_iff_bits. pose proof Hx as [Hx0 Hxb]%in_width_iff_bits. split.
  - unfold clear_bit. apply Z.land_nonneg. by left.
  - intros i Hi. by rewrite clear_bit_testbit, Hxb by done.
Qed.

Lemma remove_word b v i :
  word (store (remove b v)) i =
    if decide (word_of v = i) then clear_bit (word (store b) i) v else word (store b) i.
Proof.
  unfold remove. rewrite index_and_mask_eq. fold (word_of v). cbn zeta.
  destruct (decide (word_of v < length (store b))%nat) as [Hlt|Hge]; simpl; rewrite word_compact.
  - rewrite word_insert by done. case_decide as He; [|done]. subst. unfold clear_bit. f_equal.
    unfold word. destruct (lookup_lt_is_Some_2 _ _ Hlt) as [x Hx].
    rewrite Hx. simpl. by apply list_lookup_total_correct.
  - case_decide; [|done]. subst. unfold word. by rewrite lookup_ge_None_2 by lia.
Qed.

Lemma remove_count b v :
  count (remove b v) = if contains b v then count b - 1 else count b.
Proof.
  rewrite contains_testbit. unfold remove. rewrite index_and_mask_eq. fold (word_of v). cbn zeta.
  rewrite <-(land_bit_eqb _ _ (proj1 (bit_of_range v))). unfold word.
  destruct (decide (word_of v < length (store b))%nat) as [Hlt|Hge]; simpl.
  - destruct (lookup_lt_is_Some_2 _ _ Hlt) as [x Hx].
    rewrite Hx. simpl. rewrite (list_lookup_total_correct _ _ _ Hx). by destruct (_ =? _).
  - by rewrite lookup_ge_None_2 by lia.
Qed.

Lemma remove_contains b v w : wf b -> 0 <= v -> 0 <= w ->
  contains (remove b v) w = negb (bool_decide (v = w)) && contains b w.
Proof.
  intros [Hf _] Hv Hw. rewrite !contains_testbit, remove_word.
  case_decide as Hwd.
  - rewrite clear_bit_testbit by by apply Forall_word. rewrite andb_comm. f_equal. f_equal.
    destruct (Z.eqb_spec (bit_of v) (bit_of w)) as [He|He].
    + symmetry. apply bool_decide_eq_true. by apply same_value.
    + symmetry. apply bool_decide_eq_false. congruence.
  - rewrite bool_decide_eq_false_2; [done|]. congruence.
Qed.

Lemma remove_to_set b v : wf b -> 0 <= v -> to_set (remove b v) = to_set b ∖ {[v]}.
Proof.
  intros Hwf Hv. apply set_eq. intros w.
  rewrite elem_of_difference, elem_of_singleton, !elem_of_to_set. split.
  - intros [Hw Hc]. rewrite remove_contains in Hc by done. bool_to_prop.
    split; [done|]. intros ->. by rewrite bool_decide_eq_true_2 in *.
  - intros [[Hw Hc] Hne]. split; [done|]. rewrite remove_contains, Hc by done.
    by rewrite bool_decide_eq_false_2 by congruence.
Qed.

Lemma remove_canonical b v : canonical (remove b v).
Proof.
  unfold canonical, remove. destruct (index_and_mask v).
  by case_decide; simpl; rewrite compact_idemp.
Qed.

Lemma remove_wf b v : 0 <= v -> wf b -> wf (remove b v).
Proof.
  intros Hv Hwf. pose proof Hwf as [Hf Hc]. split.
  - apply Forall_of_word. intros i. rewrite remove_word.
    case_decide; [apply clear_bit_width|]; by apply Forall_word.
  - rewrite remove_count, count_words_size, remove_to_set by done.
    rewrite contains_bool_decide, Hc, count_words_size by done. case_bool_decide as Hin.
    + assert (to_set b = {[v]} ∪ (to_set b ∖ {[v]})) as He.
      { apply set_eq. intros w. rewrite elem_of_union, elem_of_difference, elem_of_singleton.
        destruct (decide (w = v)); naive_solver. }
      rewrite He at 1. rewrite size_insert_elem, bool_decide_eq_false_2 by set_solver. lia.
    + by replace (to_set b ∖ {[v]}) with (to_set b) by set_solver.
Qed.

(** Removing a freshly inserted value restores the representation, not just the
    set. *)
Lemma remove_insert b v : wf b -> canonical b -> 0 <= v -> contains b v = false ->
  remove (insert b v) v = b.
Proof.
  intros Hwf Hcan Hv Hn.
  assert (Hs : store (remove (insert b v) v) = store b).
  { apply canonical_words_eq; [apply remove_canonical|done|]. intros i.
    rewrite remove_word, insert_word. case_decide as He; [subst|done].
    pose proof (insert_wf b v Hv Hwf) as [Hf' _]. destruct Hwf as [Hf _].
    apply Z.bits_inj. intros j. rewrite clear_bit_testbit.
    - rewrite Z.lor_spec, Z.shiftl_1_l. pose proof (bit_of_range v).
      rewrite Z.pow2_bits_eqb by lia.
      destruct (Z.eqb_spec (bit_of v) j) as [<-|]; simpl.
      + by rewrite andb_false_r, <-contains_testbit.
      + by rewrite orb_false_r, andb_true_r.
    - eapply bitwise_width; [apply lor_bitwise|by apply Forall_word|apply shiftl1_width]. }
  assert (Hc : count (remove (insert b v) v) = count b).
  { rewrite remove_count, insert_contains, bool_decide_eq_true_2, orb_true_l by done.
    destruct (insert_store b v) as (_ & _ & _ & _ & _ & ->). rewrite Hn. lia. }
  destruct (remove (insert b v) v), b. simpl in *. by subst.
Qed.

(** ** Operators *)

Lemma apply_op_word op f b1 b2 i : bitwise op f ->
  word (store (apply_op op b1 b2)) i = op (word (store b1) i) (word (store b2) i).
Proof.
  intros Hop. unfold apply_op. simpl. rewrite word_compact.
  apply word_zip. by eapply bitwise_zero.
Qed.

Lemma apply_op_contains op f b1 b2 v : bitwise op f ->
  contains (apply_op op b1 b2) v = f (contains b1 v) (contains b2 v).
Proof.
  intros Hop. rewrite !contains_testbit, (apply_op_word op f) by done.
  destruct Hop as (_ & _ & ->). done.
Qed.

Lemma apply_op_wf op f b1 b2 : bitwise op f -> wf b1 -> wf b2 -> wf (apply_op op b1 b2).
Proof.
  intros Hop [Hf1 _] [Hf2 _]. split.
  - apply Forall_of_word. intros i. rewrite (apply_op_word op f) by done.
    eapply bitwise_width; [done|by apply Forall_word..].
  - unfold apply_op. simpl. by rewrite count_compact.
Qed.

Lemma apply_op_canonical op b1 b2 : canonical (apply_op op b1 b2).
Proof. unfold canonical, apply_op. simpl. apply compact_idemp. Qed.

Lemma bitand_to_set b1 b2 : to_set (bitand b1 b2) = to_set b1 ∩ to_set b2.
Proof.
  apply set_eq. intros v. rewrite elem_of_intersection, !elem_of_to_set.
  unfold bitand. rewrite (apply_op_contains _ _ _ _ _ land_bitwise), andb_true_iff. naive_solver.
Qed.

Lemma bitor_to_set b1 b2 : to_set (bitor b1 b2) = to_set b1 ∪ to_set b2.
Proof.
  apply set_eq. intros v. rewrite elem_of_union, !elem_of_to_set.
  unfold bitor. rewrite (apply_op_contains _ _ _ _ _ lor_bitwise), orb_true_iff. naive_solver.
Qed.

Lemma bitxor_to_set b1 b2 :
  to_set (bitxor b1 b2) = (to_set b1 ∖ to_set b2) ∪ (to_set b2 ∖ to_set b1).
Proof.
  apply set_eq. intros v.
  rewrite elem_of_union, !elem_of_difference, !elem_of_to_set.
  unfold bitxor. rewrite (apply_op_contains _ _ _ _ _ lxor_bitwise).
  destruct (contains b1 v), (contains b2 v); naive_solver.
Qed.

Lemma superset_words_iff l r :
  superset_words l r = true <-> forall i, Z.land (word l i) (word r i) = word r i.
Proof.
  revert r. induction l as [|a l IH]; intros r.
  - cbn [superset_words]. rewrite forallb_forall. unfold word. split.
    + intros Hr i. rewrite lookup_nil. simpl. destruct (r !! i) eqn:Hi; simpl; [|done].
      apply Z.eqb_eq. rewrite Z.eqb_sym. apply Hr. apply list_elem_of_In.
      by eapply list_elem_of_lookup_2.
    + intros Hr x [i Hi]%list_elem_of_In%list_elem_of_lookup.
      specialize (Hr i). rewrite lookup_nil, Hi in Hr. simpl in Hr. by apply Z.eqb_eq.
  - destruct r as [|b r].
    + split; [|done]. intros _ i. unfold word. rewrite lookup_nil. simpl. apply Z.land_0_r.
    + cbn [superset_words]. rewrite andb_true_iff, Z.eqb_eq, IH. split.
      * intros [H0 Hs] [|i]; [done|]. apply Hs.
      * intros Hs. split; [apply (Hs O)|]. intros i. apply (Hs (S i)).
Qed.

Lemma eq_words_iff l r : eq_words l r = true <-> forall i, word l i = word r i.
Proof.
  revert r. induction l as [|a l IH]; intros r.
  - cbn [eq_words]. rewrite forallb_forall. unfold word. split.
    + intros Hr i. rewrite lookup_nil. destruct (r !! i) eqn:Hi; simpl; [|done].
      apply Z.eqb_eq, Hr, list_elem_of_In. by eapply list_elem_of_lookup_2.
    + intros Hr x [i Hi]%list_elem_of_In%list_elem_of_lookup.
      specialize (Hr i). rewrite lookup_nil, Hi in Hr. simpl in Hr. by apply Z.eqb_eq.
  - destruct r as [|b r]; cbn [eq_words]; rewrite andb_true_iff, Z.eqb_eq, IH; split.
    + intros [H0 Hs] [|i]; [done|]. exact (Hs i).
    + intros Hs. split; [apply (Hs O)|]. intros i. apply (Hs (S i)).
    + intros [H0 Hs] [|i]; [unfold word; simpl; by subst|]. exact (Hs i).
    + intros Hs. split; [apply (Hs O)|]. intros i. apply (Hs (S i)).
Qed.

(** Words of two sets agree when the sets do. *)
Lemma words_ext b1 b2 : wf b1 -> wf b2 ->
  (forall i, word (store b1) i = word (store b2) i) <-> to_set b1 = to_set b2.
Proof.
  intros [Hf1 _] [Hf2 _]. rewrite <-to_set_ext. split.
  - intros Hw v _. by rewrite !contains_testbit, Hw.
  - intros Hc i. apply Z.bits_inj. intros j.
    pose proof (Forall_word _ i Hf1) as [_ Hb1]%in_width_iff_bits.
    pose proof (Forall_word _ i Hf2) as [_ Hb2]%in_width_iff_bits.
    destruct (Z.lt_ge_cases j 0); [by rewrite !Z.testbit_neg_r|].
    destruct (Z.lt_ge_cases j 64); [|by rewrite Hb1, Hb2].
    specialize (Hc (64 * Z.of_nat i + j) ltac:(lia)). rewrite !contains_testbit in Hc.
    assert (word_of (64 * Z.of_nat i + j) = i) as Hi.
    { unfold word_of. rewrite Z.mul_comm, Z.div_add_l, Z.div_small by lia. lia. }
    assert (bit_of (64 * Z.of_nat i + j) = j) as Hj.
    { unfold bit_of. rewrite Z.mul_comm, Z.add_comm, Z.mod_add by lia. by apply Z.mod_small. }
    by rewrite Hi, Hj in Hc.
Qed.

Lemma land_eq_r_words b1 b2 : wf b1 -> wf b2 ->
  (forall i, Z.land (word (store b1) i) (word (store b2) i) = word (store b2) i) <->
  to_set b2 ⊆ to_set b1.
Proof.
  intros Hw1 Hw2.
  transitivity (to_set (bitand b1 b2) = to_set b2); [|rewrite bitand_to_set; set_solver].
  rewrite <-words_ext by (done || by apply (apply_op_wf _ andb _ _ land_bitwise)).
  unfold bitand. by setoid_rewrite (apply_op_word _ _ _ _ _ land_bitwise).
Qed.

Lemma zip_with_land_count l r :
  foldr Z.add 0 (zip_with (fun a b => count_ones (Z.land a b)) l r)
  = count_words (zip_words Z.land l r).
Proof.
  assert (Hz : count_ones 0 = 0) by (vm_compute; done).
  assert (Hzs : forall l', count_words (zip_words Z.land l' []) = 0).
  { induction l' as [|a l' IH]; [done|]. cbn [zip_words].
    unfold count_words in *. cbn [foldr]. rewrite Z.land_0_r, Hz. exact IH. }
  revert r. induction l as [|a l IH]; intros r.
  - cbn [zip_with foldr zip_words]. induction r as [|b r IHr]; [done|].
    change (Z.land 0 <$> b :: r) with (Z.land 0 b :: (Z.land 0 <$> r)).
    unfold count_words in *. cbn [foldr]. rewrite Z.land_0_l, Hz. exact IHr.
  - destruct r as [|b r]; [by rewrite Hzs|].
    cbn [zip_with foldr zip_words]. rewrite IH. done.
Qed.

Lemma new_wf : wf new.
Proof. split; [constructor|reflexivity]. Qed.

Lemma from_iter_ind (P : BitSet -> Prop) vs :
  P new -> (forall b v, v ∈ vs -> P b -> P (insert b v)) -> P (from_iter vs).
Proof.
  unfold from_iter. generalize new. induction vs as [|v vs IH]; intros b Hb Hstep; [done|].
  simpl. apply IH; [apply Hstep; [left|done]|]. intros b' v' Hv'. apply Hstep. by right.
Qed.

Lemma from_iter_wf vs : Forall (fun v => 0 <= v) vs -> wf (from_iter vs).
Proof.
  intros Hvs. apply from_iter_ind; [apply new_wf|]. intros b v Hv. apply insert_wf.
  by eapply Forall_forall in Hvs.
Qed.

Lemma from_iter_canonical vs : Forall (fun v => 0 <= v) vs -> canonical (from_iter vs).
Proof.
  intros Hvs. apply from_iter_ind; [done|]. intros b v Hv. apply insert_canonical.
  by eapply Forall_forall in Hvs.
Qed.

Lemma from_iter_to_set vs :
  Forall (fun v => 0 <= v) vs -> to_set (from_iter vs) = list_to_set vs.
Proof.
  unfold from_iter. intros Hvs. enough (Hgen : forall b,
    to_set (foldl insert b vs) = to_set b ∪ list_to_set vs).
  { rewrite Hgen. replace (to_set new) with (∅ : gset Z) by (vm_compute; done). set_solver. }
  induction Hvs as [|v vs Hv Hvs IH]; intros b; simpl; [set_solver|].
  rewrite IH, insert_to_set by done. set_solver.
Qed.

(** A canonical bit set is determined by its elements: the order in which they
    were inserted does not show. *)
Lemma canonical_ext b1 b2 :
  wf b1 -> wf b2 -> canonical b1 -> canonical b2 -> to_set b1 = to_set b2 -> b1 = b2.
Proof.
  intros H1 H2 C1 C2 He.
  assert (Hs : store b1 = store b2).
  { apply canonical_words_eq; [done..|]. by apply words_ext. }
  destruct H1 as [_ K1], H2 as [_ K2]. destruct b1, b2. simpl in *. by subst.
Qed.

(** ** Properties *)

(** [insert] and [remove] implement insertion into and removal from the
    denoted set, [contains] is membership and [len] the cardinality; words stay
    [u64] values and the cached count stays exact. *)
Theorem insert_remove_refine b v :
  wf b -> 0 <= v ->
  wf (insert b v) /\ to_set (insert b v) = {[v]} ∪ to_set b /\
  wf (remove b v) /\ to_set (remove b v) = to_set b ∖ {[v]} /\
  (contains b v = true <-> v ∈ to_set b) /\
  len b = Z.of_nat (size (to_set b)).
Proof.
  intros Hwf Hv. split_and!.
  - by apply insert_wf.
  - by apply insert_to_set.
  - by apply remove_wf.
  - by apply remove_to_set.
  - rewrite elem_of_to_set. naive_solver.
  - unfold len. by rewrite size_to_set.
Qed.

Lemma insert_remove_refine_witness :
  wf new /\ to_set (insert new 70) = {[70]} ∪ to_set new.
Proof.
  assert (Hn : wf new) by (split; [constructor|reflexivity]).
  split; [exact Hn|]. apply (insert_remove_refine new 70 Hn). lia.
Defined.

(** The word-wise operators and tests implement the set operations:
    [&], [|] and [^] are intersection, union and symmetric difference with the
    exact count, [is_superset] is inclusion, [==] is equality of the sets and
    [intersection_size] the cardinality of the intersection. *)
Theorem operators_refine b1 b2 :
  wf b1 -> wf b2 ->
  (wf (bitand b1 b2) /\ to_set (bitand b1 b2) = to_set b1 ∩ to_set b2) /\
  (wf (bitor b1 b2) /\ to_set (bitor b1 b2) = to_set b1 ∪ to_set b2) /\
  (wf (bitxor b1 b2) /\
   to_set (bitxor b1 b2) = (to_set b1 ∖ to_set b2) ∪ (to_set b2 ∖ to_set b1)) /\
  (is_superset b1 b2 = true <-> to_set b2 ⊆ to_set b1) /\
  (eq b1 b2 = true <-> to_set b1 = to_set b2) /\
  intersection_size b1 b2 = Z.of_nat (size (to_set b1 ∩ to_set b2)).
Proof.
  intros H1 H2. split_and!.
  - by apply (apply_op_wf _ andb _ _ land_bitwise).
  - apply bitand_to_set.
  - by apply (apply_op_wf _ orb _ _ lor_bitwise).
  - apply bitor_to_set.
  - by apply (apply_op_wf _ xorb _ _ lxor_bitwise).
  - apply bitxor_to_set.
  - unfold is_superset. rewrite superset_words_iff. by apply land_eq_r_words.
  - unfold eq. rewrite eq_words_iff. by apply words_ext.
  - rewrite <-bitand_to_set, <-count_words_size. unfold intersection_size.
    rewrite zip_with_land_count. unfold bitand, apply_op. simpl. by rewrite count_compact.
Qed.

Lemma operators_refine_witness :
  is_superset (from_iter [1; 64; 130]) (from_iter [130; 1]) = true /\
  to_set (from_iter [130; 1]) ⊆ to_set (from_iter [1; 64; 130]).
Proof.
  assert (H1 : wf (from_iter [1; 64; 130])) by (apply from_iter_wf; repeat constructor; lia).
  assert (H2 : wf (from_iter [130; 1])) by (apply from_iter_wf; repeat constructor; lia).
  split; [vm_compute; reflexivity|].
  apply (operators_refine _ _ H1 H2). vm_compute. reflexivity.
Defined.
