(* ===== verification/AccountTypes.v ===== *)
(** * Transactions, inherents, errors, logs and receipts

    The data the account handlers exchange: [Transaction] and [Inherent]
    ([primitives/transaction/src/lib.rs], [inherent.rs]), the error and failure
    types ([primitives/src/account.rs], [primitives/src/transaction.rs]), the
    log entries ([primitives/account/src/logs.rs]), receipts
    ([primitives/account/src/receipts.rs]) and the monad in which the handlers
    of [interaction_traits.rs] run: an account state paired with the log of the
    current transaction.

    Addresses and public keys are byte arrays held as their big-endian value,
    hashes and serialized data as lists of bytes. *)

From S2P Require Import Prelude Coin Policy.

Module AccountType.
Inductive t := Basic | Vesting | HTLC | Staking.
#[global] Instance eq_dec : EqDecision t.
Proof. solve_decision. Defined.
End AccountType.

Module TransactionError.
(** [InvalidSerialization] carries the third-party error value, which no caller
    inspects. *)
Inductive t :=
  | ForeignNetwork | ZeroValue | InvalidValue | Overflow | SenderEqualsRecipient
  | InvalidForSender | InvalidProof | InvalidForRecipient | InvalidForVersion | InvalidData
  | InvalidSerialization.
End TransactionError.

Module AccountError.
(** The payloads of the serialization, coin and trie errors are not inspected
    anywhere and are left out. *)
Inductive t :=
  | InsufficientFunds (needed balance : Z)
  | TypeMismatch (expected got : AccountType.t)
  | InvalidSignature
  | InvalidForSender
  | InvalidForRecipient
  | InvalidForTarget
  | InvalidReceipt
  | InvalidSerialization
  | InvalidTransaction (e : TransactionError.t)
  | InvalidCoinValue
  | CoinParse
  | CoinConvert
  | InvalidInherent
  | NonExistentAddress (address : Z)
  | AlreadyExistentAddress (address : Z)
  | ChunkError.
End AccountError.

Module FailReason.
Inductive t :=
  | InsufficientFunds | TypeMismatch | InvalidSignature | InvalidForSender
  | InvalidForRecipient | InvalidForTarget | InvalidReceipt | InvalidSerialization
  | InvalidTransaction | InvalidCoinValue | CoinParse | CoinConvert | InvalidInherent
  | NonExistentAddress | AlreadyExistentAddress | ChunkError | Incomplete.

Definition from_account_error (err : AccountError.t) : t :=
  match err with
  | AccountError.InsufficientFunds _ _ => InsufficientFunds
  | AccountError.TypeMismatch _ _ => TypeMismatch
  | AccountError.InvalidSignature => InvalidSignature
  | AccountError.InvalidForSender => InvalidForSender
  | AccountError.InvalidForRecipient => InvalidForRecipient
  | AccountError.InvalidForTarget => InvalidForTarget
  | AccountError.InvalidReceipt => InvalidReceipt
  | AccountError.InvalidSerialization => InvalidSerialization
  | AccountError.InvalidTransaction _ => InvalidTransaction
  | AccountError.InvalidCoinValue => InvalidCoinValue
  | AccountError.CoinParse => CoinParse
  | AccountError.CoinConvert => CoinConvert
  | AccountError.InvalidInherent => InvalidInherent
  | AccountError.NonExistentAddress _ => NonExistentAddress
  | AccountError.AlreadyExistentAddress _ => AlreadyExistentAddress
  | AccountError.ChunkError => ChunkError
  end.
End FailReason.

(** [From<CoinUnderflowError> for AccountError], applied by [?] to the result
    of [Coin::safe_sub]. *)
Definition from_coin_underflow (e : Z * Z) : AccountError.t :=
  AccountError.InsufficientFunds e.2 e.1.

(** ** Transactions *)

Definition CONTRACT_CREATION : Z := 1.
Definition SIGNALING : Z := 2.

Record Transaction := mk_transaction {
  tx_sender : Z;
  tx_sender_type : AccountType.t;
  tx_sender_data : list Z;
  tx_recipient : Z;
  tx_recipient_type : AccountType.t;
  tx_recipient_data : list Z;
  tx_value : Z;
  tx_fee : Z;
  tx_validity_start_height : Z;
  tx_network_id : Z;
  tx_flags : Z;
  tx_proof : list Z;
  tx_valid : bool;
}.

(** [TransactionFlags::contains]. *)
Definition flags_contain (flags flag : Z) : bool := Z.land flags flag =? flag.

Definition total_value (tx : Transaction) : Z := coin_saturating_add (tx_value tx) (tx_fee tx).

Definition is_valid_at `{Policy} (tx : Transaction) (block_height : Z) : option bool :=
  window ← transaction_validity_window_blocks;
  Some ((saturating_sub (tx_validity_start_height tx) blocks_per_batch <=? block_height)
        && (block_height <? saturating_add 32 (tx_validity_start_height tx) window)).

(** ** Slots, inherents and the block state *)

(** [Range<u16>]: the start is included, the end excluded. *)
Record Range := mk_range { range_start : Z; range_end : Z }.
#[global] Instance Range_eq_dec : EqDecision Range.
Proof. solve_decision. Defined.

Definition range_list (r : Range) : list Z := seqZ (range_start r) (range_end r - range_start r).

Record PenalizedSlot := mk_penalized_slot {
  pen_slot : Z;
  pen_validator_address : Z;
  pen_offense_event_block : Z;
}.

Record JailedValidator := mk_jailed_validator {
  jail_slots : Range;
  jail_validator_address : Z;
  jail_offense_event_block : Z;
}.

Module Inherent.
Inductive t :=
  | Reward (validator_address target value : Z)
  | Penalize (slot : PenalizedSlot)
  | Jail (jailed_validator : JailedValidator) (new_epoch_slot_range : option Range)
  | FinalizeBatch
  | FinalizeEpoch
  | VersionUpgrade (new_version : Z).

Definition target (inherent : t) : Z :=
  match inherent with
  | Reward _ target _ => target
  | Penalize _ | Jail _ _ | FinalizeBatch | FinalizeEpoch | VersionUpgrade _ =>
      STAKING_CONTRACT_ADDRESS
  end.
End Inherent.

Record BlockState := mk_block_state {
  bs_number : Z;
  bs_time : Z;
  bs_protocol_version : Z;
}.

(** ** HTLC hashes *)

Inductive AnyHash := Blake2b (h : list Z) | Sha256 (h : list Z) | Sha512 (h : list Z).
Inductive PreImage := PreImage32 (h : list Z) | PreImage64 (h : list Z).
#[global] Instance AnyHash_eq_dec : EqDecision AnyHash.
Proof. solve_decision. Defined.
#[global] Instance PreImage_eq_dec : EqDecision PreImage.
Proof. solve_decision. Defined.

(** ** Logs *)

Module Log.
Inductive t :=
  | PayFee (from fee : Z)
  | Transfer (from to amount : Z) (data : option (list Z))
  | HTLCCreate (contract_address sender recipient : Z) (hash_root : AnyHash)
      (hash_count timeout total_amount : Z)
  | HTLCTimeoutResolve (contract_address : Z)
  | HTLCRegularTransfer (contract_address : Z) (pre_image : PreImage) (hash_depth : Z)
  | HTLCEarlyResolve (contract_address : Z)
  | VestingCreate (contract_address owner start_time time_step step_amount total_amount : Z)
  | CreateValidator (validator_address reward_address : Z)
  | UpdateValidator (validator_address old_reward_address : Z) (new_reward_address : option Z)
  | ValidatorFeeDeduction (validator_address fee : Z)
  | DeactivateValidator (validator_address inactive_from : Z)
  | ReactivateValidator (validator_address : Z)
  | SetSignalData (validator_address : Z) (signal_data : option (list Z))
  | CreateStaker (staker_address : Z) (validator_address : option Z) (value : Z)
  | Stake (staker_address : Z) (validator_address : option Z) (value : Z)
  | StakerFeeDeduction (staker_address fee : Z)
  | UpdateStaker (staker_address : Z) (old_validator_address new_validator_address : option Z)
      (active_balance : Z) (inactive_from : option Z)
  | RetireValidator (validator_address : Z)
  | DeleteValidator (validator_address reward_address : Z)
  | SetActiveStake (staker_address : Z) (validator_address : option Z)
      (active_balance inactive_balance : Z) (inactive_from : option Z)
  | RetireStake (staker_address : Z) (validator_address : option Z)
      (inactive_balance : Z) (inactive_from : option Z) (retired_balance : Z)
  | RemoveStake (staker_address : Z) (validator_address : option Z) (value : Z)
  | DeleteStaker (staker_address : Z) (validator_address : option Z)
  | PayoutReward (to value : Z)
  | Penalize (validator_address offense_event_block slot : Z) (newly_deactivated : bool)
  | JailValidator (validator_address event_block : Z) (newly_jailed : bool)
  | RevertContract (contract_address : Z)
  | FailedTransaction (from to : Z) (failure_reason : FailReason.t).

Definition transfer_log (tx : Transaction) : t :=
  Transfer (tx_sender tx) (tx_recipient tx) (tx_value tx)
    (if negb (bool_decide (tx_recipient_data tx = []))
        && bool_decide (tx_recipient_type tx = AccountType.Basic)
     then Some (tx_recipient_data tx) else None).

Definition pay_fee_log (tx : Transaction) : t := PayFee (tx_sender tx) (tx_fee tx).
End Log.

(** ** Handlers

    A handler works on an account state [X] (the account itself and its data
    store) and appends to the log of the current transaction or inherent. *)

Definition AM (X A : Type) : Type := M (X * list Log.t) AccountError.t A.

Section Handlers.
Context {X : Type}.

Definition get_state {A} (f : X -> A) : AM X A := gets (fun s => f s.1).
Definition modify_state (f : X -> X) : AM X unit := modify (fun s => (f s.1, s.2)).
(** [TransactionLog::push_log]. *)
Definition push_log (l : Log.t) : AM X unit := modify (fun s => (s.1, s.2 ++ [l])).

(** Run a handler with [&mut TransactionLog::empty()] and drop what it logs. *)
Definition with_empty_logger {A} (m : AM X A) : AM X A := fun s =>
  let '(o, s') := m (s.1, []) in (o, (s'.1, s.2)).

(** Run a handler with a fresh [TransactionLog] and append it to the inherent
    logger when the handler succeeds ([InherentLogger::push_tx_logger]). *)
Definition with_tx_logger {A} (m : AM X A) : AM X A := fun s =>
  let '(o, s') := m (s.1, []) in
  (o, (s'.1, match o with Ok _ => s.2 ++ s'.2 | _ => s.2 end)).

(** [a.safe_sub(b)?] *)
Definition safe_sub_or (a b : Z) : AM X Z :=
  match safe_sub a b with
  | inl c => mret c
  | inr e => fail (from_coin_underflow e)
  end.

(** A commit is reversible at [x] when it does not panic, leaves the account
    state alone if it fails, and otherwise reaches a state in [post] from which
    the revert handler, given the returned receipt, restores [x] exactly and
    logs the committed entries in reverse. *)
Definition reversible {R} (commit : AM X R) (revert : R -> AM X unit)
    (post : R -> X -> Prop) (x : X) : Prop :=
  forall lg,
  match commit (x, lg) with
  | (Panic, _) => False
  | (Err _, (x', _)) => x' = x
  | (Ok r, (x', lg')) =>
      post r x' /\ exists new_logs, lg' = lg ++ new_logs /\
        forall lg2, revert r (x', lg2) = (Ok tt, (x, lg2 ++ reverse new_logs))
  end.

(** As [reversible], with the entries of the revert in any order. *)
Definition restorable {R} (commit : AM X R) (revert : R -> AM X unit)
    (post : R -> X -> Prop) (x : X) : Prop :=
  forall lg,
  match commit (x, lg) with
  | (Panic, _) => False
  | (Err _, (x', _)) => x' = x
  | (Ok r, (x', lg')) =>
      post r x' /\ exists new_logs, lg' = lg ++ new_logs /\
        forall lg2, exists old_logs, old_logs ≡ₚ new_logs /\
          revert r (x', lg2) = (Ok tt, (x, lg2 ++ old_logs))
  end.

Lemma wp_get_state {A} (f : X -> A) Q QE x lg :
  Q (f x) (x, lg) -> wp (get_state f) Q QE (x, lg).
Proof. done. Qed.

Lemma wp_modify_state (f : X -> X) Q QE x lg :
  Q tt (f x, lg) -> wp (modify_state f) Q QE (x, lg).
Proof. done. Qed.

Lemma wp_push_log l Q QE (x : X) lg :
  Q tt (x, lg ++ [l]) -> wp (push_log l) Q QE (x, lg).
Proof. done. Qed.

Lemma wp_with_empty_logger {A} (m : AM X A) Q QE x lg :
  wp m (fun a s => Q a (s.1, lg)) (fun e s => QE e (s.1, lg)) (x, []) ->
  wp (with_empty_logger m) Q QE (x, lg).
Proof. unfold wp, with_empty_logger. simpl. by destruct (m (x, [])) as [[a|e|] s']. Qed.

Lemma wp_with_tx_logger {A} (m : AM X A) Q QE x lg :
  wp m (fun a s => Q a (s.1, lg ++ s.2)) (fun e s => QE e (s.1, lg)) (x, []) ->
  wp (with_tx_logger m) Q QE (x, lg).
Proof. unfold wp, with_tx_logger. simpl. by destruct (m (x, [])) as [[a|e|] s']. Qed.

(** Reversibility by symbolic execution of the commit and of the revert. *)
Lemma reversible_wp {R} (commit : AM X R) revert post x :
  (forall lg,
    wp commit
      (fun r s => post r s.1 /\ exists new_logs, s.2 = lg ++ new_logs /\
         forall lg2, wp (revert r) (fun a s2 => a = tt /\ s2 = (x, lg2 ++ reverse new_logs))
                        (fun _ _ => False) (s.1, lg2))
      (fun _ s => s.1 = x) (x, lg)) ->
  reversible commit revert post x.
Proof.
  intros Hwp lg. specialize (Hwp lg). unfold wp in Hwp at 1.
  destruct (commit (x, lg)) as [[r|e|] [x' lg']]; simpl in *; [|done..].
  destruct Hwp as [Hp (new_logs & Hl & Hr)]. split; [done|]. exists new_logs.
  split; [done|]. intros lg2. by apply wp_run.
Qed.

Lemma reversible_restorable {R} (commit : AM X R) revert post x :
  reversible commit revert post x -> restorable commit revert post x.
Proof.
  intros Hr lg. specialize (Hr lg). destruct (commit (x, lg)) as [[r|e|] [x' lg']]; [|done..].
  destruct Hr as [Hp (new_logs & Hl & Hrev)]. split; [done|]. exists new_logs. split; [done|].
  intros lg2. exists (reverse new_logs). split; [apply reverse_Permutation|done].
Qed.

Lemma restorable_wp {R} (commit : AM X R) revert post x :
  (forall lg,
    wp commit
      (fun r s => post r s.1 /\ exists new_logs, s.2 = lg ++ new_logs /\
         exists old_logs, old_logs ≡ₚ new_logs /\
         forall lg2, wp (revert r) (fun a s2 => a = tt /\ s2 = (x, lg2 ++ old_logs))
                        (fun _ _ => False) (s.1, lg2))
      (fun _ s => s.1 = x) (x, lg)) ->
  restorable commit revert post x.
Proof.
  intros Hwp lg. specialize (Hwp lg). unfold wp in Hwp at 1.
  destruct (commit (x, lg)) as [[r|e|] [x' lg']]; simpl in *; [|done..].
  destruct Hwp as [Hp (new_logs & Hl & old_logs & Hperm & Hr)]. split; [done|]. exists new_logs.
  split; [done|]. intros lg2. exists old_logs. split; [done|]. by apply wp_run.
Qed.

(** A reversible commit run with a logger of its own. *)
Lemma wp_reversible_empty {R} (commit : AM X R) revert (post : R -> X -> Prop) x Q QE lg :
  reversible commit revert post x ->
  (forall r x', post r x' ->
     (forall lg2, wp (with_empty_logger (revert r)) (fun a s => a = tt /\ s = (x, lg2))
                     (fun _ _ => False) (x', lg2)) -> Q r (x', lg)) ->
  (forall e, QE e (x, lg)) -> wp (with_empty_logger commit) Q QE (x, lg).
Proof.
  intros Hr HQ HE. specialize (Hr []). apply wp_with_empty_logger. unfold wp.
  destruct (commit (x, [])) as [[r|e|] [x' lg']]; simpl; [|by subst|done].
  destruct Hr as [Hp (new_logs & _ & Hrev)]. apply HQ; [done|]. intros lg2.
  apply wp_with_empty_logger. unfold wp. by rewrite Hrev.
Qed.

(** A reversible commit whose log is appended to the inherent log. *)
Lemma wp_reversible_tx {R} (commit : AM X R) revert (post : R -> X -> Prop) x Q QE lg :
  reversible commit revert post x ->
  (forall r x' new_logs, post r x' ->
     (forall lg2, wp (with_tx_logger (revert r))
                     (fun a s => a = tt /\ s = (x, lg2 ++ reverse new_logs))
                     (fun _ _ => False) (x', lg2)) -> Q r (x', lg ++ new_logs)) ->
  (forall e, QE e (x, lg)) -> wp (with_tx_logger commit) Q QE (x, lg).
Proof.
  intros Hr HQ HE. specialize (Hr []). apply wp_with_tx_logger. unfold wp.
  destruct (commit (x, [])) as [[r|e|] [x' lg']]; simpl; [|by subst|done].
  destruct Hr as [Hp (new_logs & -> & Hrev)]. apply HQ; [done|]. intros lg2.
  apply wp_with_tx_logger. unfold wp. by rewrite Hrev.
Qed.

Lemma wp_safe_sub_or a b (Q : Z -> X * list Log.t -> Prop) QE s :
  0 <= b -> 0 <= a <= MAX_SAFE_VALUE ->
  (b <= a -> Q (a - b) s) -> (a < b -> forall e, QE e s) -> wp (safe_sub_or a b) Q QE s.
Proof.
  intros Hb Ha HQ HE. unfold safe_sub_or, safe_sub, coin_checked_sub, checked_sub.
  destruct (Z.leb_spec b a); simpl; [|by apply wp_fail, HE].
  unfold try_from. destruct (Z.leb_spec (a - b) MAX_SAFE_VALUE); [|lia]. by apply wp_ret, HQ.
Qed.

(** Wrapping the receipt of a reversible commit. *)
Lemma reversible_lift {R R'} (commit : AM X R) revert (post : R -> X -> Prop)
    (f : R -> R') (commit' : AM X R') revert' (post' : R' -> X -> Prop) x :
  reversible commit revert post x ->
  (forall s, commit' s = (r ← commit; mret (f r)) s) ->
  (forall r s, revert' (f r) s = revert r s) ->
  (forall r x', post r x' -> post' (f r) x') ->
  reversible commit' revert' post' x.
Proof.
  intros Hrev Hc Hr Hpost lg. specialize (Hrev lg). rewrite Hc.
  unfold mbind, M_bind. destruct (commit (x, lg)) as [[r|e|] [x' lg']]; [|done..].
  simpl. destruct Hrev as [Hp (new_logs & Hl & Hrv)]. split; [by apply Hpost|].
  exists new_logs. split; [done|]. intros lg2. by rewrite Hr.
Qed.

(** A commit that fails at once. *)
Lemma reversible_fail {R} (commit : AM X R) revert (post : R -> X -> Prop) e x :
  (forall s, commit s = (Err e, s)) -> reversible commit revert post x.
Proof. intros Hc lg. by rewrite Hc. Qed.

(** A check that does not change the state, before a reversible commit. *)
Lemma reversible_guard {R} (guard : AM X unit) (commit : AM X R) revert (post : R -> X -> Prop) x :
  reversible commit revert post x ->
  (forall lg, guard (x, lg) = (Ok tt, (x, lg)) \/ exists e, guard (x, lg) = (Err e, (x, lg))) ->
  reversible (guard;; commit) revert post x.
Proof.
  intros Hrev Hg lg. specialize (Hrev lg). unfold mbind, M_bind.
  by destruct (Hg lg) as [->|[e ->]].
Qed.

(** Entries logged around a reversible commit, mirrored by its revert. *)
Lemma reversible_logged {R R'} (commit : AM X R) revert (post : R -> X -> Prop)
    (f : R -> R') (pre : list Log.t) (commit' : AM X R') revert' (post' : R' -> X -> Prop) x :
  reversible commit revert post x ->
  (forall lg, commit' (x, lg) = (r ← commit; mret (f r)) (x, lg ++ pre)) ->
  (forall r y lg, revert r (y, lg) = (Ok tt, (x, (revert r (y, lg)).2.2)) ->
     revert' (f r) (y, lg) = (Ok tt, (x, (revert r (y, lg)).2.2 ++ reverse pre))) ->
  (forall r x', post r x' -> post' (f r) x') ->
  reversible commit' revert' post' x.
Proof.
  intros Hrev Hc Hr Hpost lg. specialize (Hrev (lg ++ pre)). rewrite Hc.
  unfold mbind, M_bind. destruct (commit (x, lg ++ pre)) as [[r|e|] [x' lg']]; [|done..].
  simpl. destruct Hrev as [Hp (new_logs & -> & Hrv)]. split; [by apply Hpost|].
  exists (pre ++ new_logs). split; [by rewrite app_assoc|]. intros lg2.
  rewrite Hr; rewrite Hrv; [|done]. simpl. by rewrite reverse_app, app_assoc.
Qed.
End Handlers.

(** ** Receipts *)

Definition AccountReceipt : Type := list Z.

(** [convert_receipt!]: receipts are stored in their serialized form.  The
    serializer is third-party; the node relies on its round trip. *)
Class ConvertReceipt (T : Type) := {
  into_receipt : T -> AccountReceipt;
  try_from_receipt : AccountReceipt -> option T;
  try_from_into : forall r, try_from_receipt (into_receipt r) = Some r;
}.

(** [receipt.ok_or(AccountError::InvalidReceipt)?.try_into()?] *)
Definition take_receipt {X T} `{ConvertReceipt T} (receipt : option AccountReceipt) : AM X T :=
  receipt ← ok_or receipt AccountError.InvalidReceipt;
  ok_or (try_from_receipt receipt) AccountError.InvalidSerialization.

Record TransactionReceipt := mk_transaction_receipt {
  sender_receipt : option AccountReceipt;
  recipient_receipt : option AccountReceipt;
  pruned_account : option AccountReceipt;
}.

Inductive OperationReceipt (T : Type) :=
  | ReceiptOk (receipt : T)
  | ReceiptErr (receipt : T) (reason : FailReason.t).
Arguments ReceiptOk {T}.
Arguments ReceiptErr {T}.

Record Receipts := mk_receipts {
  rc_transactions : list (OperationReceipt TransactionReceipt);
  rc_inherents : list (OperationReceipt (option AccountReceipt));
}.

Lemma wp_take_receipt {X T} `{ConvertReceipt T} (r : T) (receipt : option AccountReceipt)
    (Q : T -> X * list Log.t -> Prop) QE s :
  receipt = Some (into_receipt r) -> Q r s -> wp (take_receipt receipt) Q QE s.
Proof.
  intros -> HQ. apply wp_bind, wp_ret. rewrite try_from_into. by apply wp_ret.
Qed.

(** A serializer for any countable receipt type, showing that the class can be
    instantiated. *)
Definition countable_receipt (T : Type) `{Countable T} : ConvertReceipt T.
Proof.
  refine {|
    into_receipt r := [Zpos (encode r)];
    try_from_receipt bs := match bs with [Zpos p] => decode p | _ => None end |}.
  intros r. apply decode_encode.
Defined.
