(* ===== verification/PunishedSlots.v ===== *)
(** * Punished slots

    Models [primitives/account/src/account/staking_contract/punished_slots.rs]:
    the slots that earn no reward in the current and in the previous batch.
    The map and set types of the source are ordered; the order only decides in
    which sequence slots are put into a bit set, which the bit set does not
    show ([BitSet.canonical_ext]).  [None] stands for a panic. *)

From S2P Require Import Prelude Coin Policy BitSet AccountTypes.

Record PunishedSlots := mk_punished_slots {
  current_batch_punished_slots : gmap Z (gset Z);
  previous_batch_punished_slots : BitSet;
}.

(** The default value. *)
Definition no_punished_slots : PunishedSlots := mk_punished_slots ∅ BitSet.new.

(** [for slot in slots { entry.insert(slot); }] *)
Definition insert_slots (entry : gset Z) (slots : list Z) : gset Z :=
  foldl (fun e slot => {[slot]} ∪ e) entry slots.

Section Operations.
Context `{P : Policy}.

Definition register_jail (ps : PunishedSlots) (jailed_validator : JailedValidator)
    (reporting_block : Z) (new_epoch_slot_range : option Range)
  : option (PunishedSlots * (BitSet * option (gset Z))) :=
  let address := jail_validator_address jailed_validator in
  let event := jail_offense_event_block jailed_validator in
  let old_previous := previous_batch_punished_slots ps in
  let old_current := current_batch_punished_slots ps !! address in
  let current_range :=
    if epoch_at event =? epoch_at reporting_block
    then Some (jail_slots jailed_validator) else new_epoch_slot_range in
  let current :=
    match current_range with
    | Some slots =>
        <[address := insert_slots (default ∅ old_current) (range_list slots)]>
          (current_batch_punished_slots ps)
    | None => current_batch_punished_slots ps
    end in
  if batch_at event <? batch_at reporting_block then
    if wrap 32 (epoch_at reporting_block - epoch_at event) <=? 1 then
      let previous_range :=
        if epoch_at event =? epoch_at (wrap 32 (reporting_block - blocks_per_batch))
        then Some (jail_slots jailed_validator) else new_epoch_slot_range in
      let previous :=
        match previous_range with
        | Some slots => foldl BitSet.insert old_previous (range_list slots)
        | None => old_previous
        end in
      Some (mk_punished_slots current previous, (old_previous, old_current))
    else None
  else Some (mk_punished_slots current old_previous, (old_previous, old_current)).

Definition revert_register_jail (ps : PunishedSlots) (jailed_validator : JailedValidator)
    (old_previous : BitSet) (old_current : option (gset Z)) : PunishedSlots :=
  mk_punished_slots
    (match old_current with
     | Some slots =>
         <[jail_validator_address jailed_validator := slots]> (current_batch_punished_slots ps)
     | None => delete (jail_validator_address jailed_validator) (current_batch_punished_slots ps)
     end)
    old_previous.

Definition register_penalty (ps : PunishedSlots) (penalized_slot : PenalizedSlot)
    (reporting_block : Z) : PunishedSlots * (bool * bool) :=
  let address := pen_validator_address penalized_slot in
  let event := pen_offense_event_block penalized_slot in
  let slot := pen_slot penalized_slot in
  let '(previous, newly_previous) :=
    if wrap 32 (batch_at event + 1) =? batch_at reporting_block then
      (BitSet.insert (previous_batch_punished_slots ps) slot,
       negb (BitSet.contains (previous_batch_punished_slots ps) slot))
    else (previous_batch_punished_slots ps, false) in
  let '(current, newly_current) :=
    if epoch_at event =? epoch_at reporting_block then
      let entry := default ∅ (current_batch_punished_slots ps !! address) in
      (<[address := {[slot]} ∪ entry]> (current_batch_punished_slots ps),
       negb (bool_decide (slot ∈ entry)))
    else (current_batch_punished_slots ps, false) in
  (mk_punished_slots current previous, (newly_previous, newly_current)).

Definition revert_register_penalty (ps : PunishedSlots) (penalized_slot : PenalizedSlot)
    (newly_previous newly_current : bool) : option PunishedSlots :=
  let address := pen_validator_address penalized_slot in
  let slot := pen_slot penalized_slot in
  let previous :=
    if newly_previous then BitSet.remove (previous_batch_punished_slots ps) slot
    else previous_batch_punished_slots ps in
  if newly_current then
    match current_batch_punished_slots ps !! address with
    | None => None
    | Some entry =>
        if bool_decide (slot ∈ entry) then
          let entry := entry ∖ {[slot]} in
          Some (mk_punished_slots
            (if bool_decide (entry = ∅) then delete address (current_batch_punished_slots ps)
             else <[address := entry]> (current_batch_punished_slots ps)) previous)
        else None
    end
  else Some (mk_punished_slots (current_batch_punished_slots ps) previous).

(** The method [current_batch_punished_slots()]. *)
Definition current_batch_bitset (ps : PunishedSlots) : BitSet :=
  BitSet.from_iter ((map_to_list (current_batch_punished_slots ps)).*2 ≫= elements).

Definition finalize_batch (ps : PunishedSlots) (block_number : Z)
    (current_active_validators : gmap Z Z) : option PunishedSlots :=
  let previous := current_batch_bitset ps in
  if is_election_block_at block_number then Some (mk_punished_slots ∅ previous)
  else if is_macro_block_at block_number then
    Some (mk_punished_slots
      (filter (fun kv => current_active_validators !! kv.1 = None)
              (current_batch_punished_slots ps)) previous)
  else None.

Definition next_batch_initial_punished_set (ps : PunishedSlots) (block_number : Z)
    (current_active_validators : gmap Z Z) : option BitSet :=
  ps' ← finalize_batch ps block_number current_active_validators;
  Some (current_batch_bitset ps').
End Operations.

(** ** Well-formedness *)

Record punished_ok (ps : PunishedSlots) : Prop := {
  prev_wf : BitSet.wf (previous_batch_punished_slots ps);
  prev_canonical : BitSet.canonical (previous_batch_punished_slots ps);
  cur_entries : forall a slots, current_batch_punished_slots ps !! a = Some slots ->
    slots <> ∅ /\ set_Forall (fun s => 0 <= s) slots;
}.

(** All slots punished in the current batch. *)
Definition current_slots (ps : PunishedSlots) : gset Z :=
  map_fold (fun _ slots acc => slots ∪ acc) ∅ (current_batch_punished_slots ps).

Lemma elem_of_current_slots ps s :
  s ∈ current_slots ps <->
  exists a slots, current_batch_punished_slots ps !! a = Some slots /\ s ∈ slots.
Proof.
  unfold current_slots. generalize (current_batch_punished_slots ps). intros m.
  induction m as [|a slots m Hfresh IH] using map_ind.
  - rewrite map_fold_empty. split; [set_solver|]. intros (a & slots & Hl & _).
    by rewrite lookup_empty in Hl.
  - rewrite map_fold_insert_L; [|set_solver|done]. rewrite elem_of_union, IH. split.
    + intros [Hs|(a' & slots' & Hl & Hs)].
      * exists a, slots. by rewrite lookup_insert_eq.
      * exists a', slots'. rewrite lookup_insert_ne; [done|congruence].
    + intros (a' & slots' & [[<- <-]|[Hne Hl]]%lookup_insert_Some & Hs); eauto.
Qed.

Lemma insert_slots_eq entry slots : insert_slots entry slots = entry ∪ list_to_set slots.
Proof.
  unfold insert_slots. revert entry. induction slots as [|s slots IH]; intros entry; simpl.
  - set_solver.
  - rewrite IH. set_solver.
Qed.

Lemma elem_of_range_list r s : s ∈ range_list r <-> range_start r <= s < range_end r.
Proof. unfold range_list. rewrite elem_of_seqZ. lia. Qed.

(** A slot range as elected validators have it. *)
Definition range_ok (r : Range) : Prop := 0 <= range_start r < range_end r.

Lemma range_list_nonneg r : range_ok r -> Forall (fun s => 0 <= s) (range_list r).
Proof.
  intros Hr. apply Forall_forall. intros s Hs%elem_of_range_list. unfold range_ok in Hr. lia.
Qed.

Lemma insert_range_entry ps a r :
  punished_ok ps -> range_ok r ->
  let entry := insert_slots (default ∅ (current_batch_punished_slots ps !! a)) (range_list r) in
  entry <> ∅ /\ set_Forall (fun s => 0 <= s) entry.
Proof.
  intros Hok Hr. simpl. rewrite insert_slots_eq. split.
  - intros He. assert (range_start r ∈ (∅ : gset Z)) as Hin; [|set_solver].
    rewrite <-He. apply elem_of_union_r, elem_of_list_to_set, elem_of_range_list.
    unfold range_ok in Hr. lia.
  - intros s [Hs|Hs]%elem_of_union.
    + destruct (_ !! a) as [slots|] eqn:Hl; simpl in Hs; [|set_solver].
      by apply (cur_entries _ Hok) in Hl as [_ Hf]; apply Hf.
    + apply elem_of_list_to_set, elem_of_range_list in Hs. unfold range_ok in Hr. lia.
Qed.

Lemma cur_entries_insert (m : gmap Z (gset Z)) a (e : gset Z) :
  (forall b slots, m !! b = Some slots -> slots <> ∅ /\ set_Forall (fun s => 0 <= s) slots) ->
  e <> ∅ -> set_Forall (fun s => 0 <= s) e ->
  forall b slots, <[a:=e]> m !! b = Some slots -> slots <> ∅ /\ set_Forall (fun s => 0 <= s) slots.
Proof. intros Hm He Hf b slots [[-> ->]|[_ Hb]]%lookup_insert_Some; eauto. Qed.

Lemma foldl_insert_ok b vs : BitSet.wf b -> BitSet.canonical b -> Forall (fun v => 0 <= v) vs ->
  BitSet.wf (foldl BitSet.insert b vs) /\ BitSet.canonical (foldl BitSet.insert b vs).
Proof.
  intros Hw Hc Hvs. revert b Hw Hc. induction Hvs as [|v vs Hv _ IH]; intros b Hw Hc; [done|].
  simpl. apply IH; [by apply BitSet.insert_wf|by apply BitSet.insert_canonical].
Qed.

Section Proofs.
Context `{P : Policy} {HP : PolicyOk P}.

(** ** Jails *)

(** The revert of a jail restores the record, whatever was punished before. *)
Lemma revert_register_jail_id ps jv reporting range ps' prev cur :
  register_jail ps jv reporting range = Some (ps', (prev, cur)) ->
  revert_register_jail ps' jv prev cur = ps.
Proof.
  unfold register_jail, revert_register_jail. set (a := jail_validator_address jv).
  intros H. repeat case_match; simplify_eq; simpl; destruct ps as [m b]; simpl in *; f_equal;
    repeat match goal with
    | H : m !! a = Some _ |- _ => rewrite ?insert_insert_eq, ?(insert_id _ _ _ H); done
    | H : m !! a = None |- _ => rewrite ?(delete_insert_id _ _ _ H), ?(delete_id _ _ H); done
    end.
Qed.

Lemma register_jail_total ps jv reporting range :
  jail_offense_event_block jv <= reporting -> in_width 32 reporting ->
  reporting <= jail_offense_event_block jv + blocks_per_epoch ->
  is_Some (register_jail ps jv reporting range).
Proof.
  intros Hle Hw Hwin. unfold register_jail.
  case_match; [|by eauto].
  assert (0 <= epoch_at reporting - epoch_at (jail_offense_event_block jv) <= 1) as Hd.
  { pose proof (epoch_at_mono _ _ Hle). pose proof (epoch_at_within _ _ Hwin). lia. }
  rewrite wrap_small by (unfold in_width, max_value; lia).
  destruct (Z.leb_spec (epoch_at reporting - epoch_at (jail_offense_event_block jv)) 1); [|lia].
  by eauto.
Qed.

Lemma register_jail_ok ps jv reporting range ps' r :
  punished_ok ps -> range_ok (jail_slots jv) -> (forall r, range = Some r -> range_ok r) ->
  register_jail ps jv reporting range = Some (ps', r) -> punished_ok ps'.
Proof.
  intros Hok Hjv Hrange. pose proof Hok as [Hw Hc He]. unfold register_jail.
  set (cr := if _ =? _ then Some (jail_slots jv) else range).
  set (pr := if _ =? _ then Some (jail_slots jv) else range).
  assert (Hcr : forall r, cr = Some r -> range_ok r)
    by (subst cr; intros r' ?; case_match; simplify_eq; eauto).
  assert (Hpr : forall r, pr = Some r -> range_ok r)
    by (subst pr; intros r' ?; case_match; simplify_eq; eauto).
  set (cur := match cr with Some _ => _ | None => _ end).
  assert (Hcur : forall b slots, cur !! b = Some slots ->
            slots <> ∅ /\ set_Forall (fun s => 0 <= s) slots).
  { subst cur. destruct cr as [r'|]; [|done].
    destruct (insert_range_entry ps (jail_validator_address jv) r' Hok (Hcr _ eq_refl)).
    by apply cur_entries_insert. }
  intros H. case_match; [case_match; [|done]|]; simplify_eq; split; simpl; try done.
  - destruct pr as [r'|]; [|done]. by apply foldl_insert_ok; [..|apply range_list_nonneg; auto].
  - destruct pr as [r'|]; [|done]. by apply foldl_insert_ok; [..|apply range_list_nonneg; auto].
Qed.

(** ** Penalties *)

Lemma register_penalty_ok ps pen reporting :
  punished_ok ps -> 0 <= pen_slot pen -> punished_ok (register_penalty ps pen reporting).1.
Proof.
  intros [Hw Hc He] Hs. unfold register_penalty.
  destruct (_ =? batch_at reporting), (_ =? epoch_at reporting); split; simpl;
    try done; try (by apply BitSet.insert_wf); try (by apply BitSet.insert_canonical);
    (apply cur_entries_insert; [done|set_solver|]);
    intros s [->%elem_of_singleton|Hin]%elem_of_union; try done;
    destruct (_ !! pen_validator_address pen) as [e|] eqn:Hl; simpl in Hin; try set_solver;
    by apply He in Hl as [_ Hf]; apply Hf.
Qed.

(** Undoing a penalty restores the record exactly: no empty entry is left
    behind and the bit set gets its old words back. *)
Lemma revert_register_penalty_id ps pen reporting ps' np nc :
  punished_ok ps -> 0 <= pen_slot pen ->
  register_penalty ps pen reporting = (ps', (np, nc)) ->
  revert_register_penalty ps' pen np nc = Some ps.
Proof.
  intros [Hw Hc He] Hs Hreg.
  set (a := pen_validator_address pen) in *. set (s := pen_slot pen) in *.
  assert (Hprev :
    (if negb (BitSet.contains (previous_batch_punished_slots ps) s)
     then BitSet.remove (BitSet.insert (previous_batch_punished_slots ps) s) s
     else BitSet.insert (previous_batch_punished_slots ps) s)
    = previous_batch_punished_slots ps).
  { destruct (BitSet.contains _ s) eqn:Hin; simpl.
    - apply BitSet.canonical_ext; [by apply BitSet.insert_wf|done|
        by apply BitSet.insert_canonical|done|].
      rewrite BitSet.insert_to_set by done.
      assert (s ∈ BitSet.to_set (previous_batch_punished_slots ps))
        by (apply BitSet.elem_of_to_set; done).
      set_solver.
    - by apply BitSet.remove_insert. }
  unfold register_penalty in Hreg. fold a s in Hreg. unfold revert_register_penalty. fold a s.
  assert (Hp : (if np then BitSet.remove (previous_batch_punished_slots ps') s
                else previous_batch_punished_slots ps') = previous_batch_punished_slots ps).
  { destruct (_ =? batch_at reporting), (_ =? epoch_at reporting); by simplify_eq. }
  rewrite Hp. clear Hp Hprev.
  destruct ps as [m b]. simpl in *.
  assert (Hm : (nc = false /\ current_batch_punished_slots ps' = m) \/
    (nc = negb (bool_decide (s ∈ default ∅ (m !! a))) /\
     current_batch_punished_slots ps' = <[a := {[s]} ∪ default ∅ (m !! a)]> m)).
  { destruct (_ =? batch_at reporting), (_ =? epoch_at reporting); simplify_eq; auto. }
  destruct Hm as [[-> ->]|[-> ->]]; [done|].
  case_bool_decide as Hin; simpl.
  - destruct (m !! a) as [e|] eqn:Hl; simpl in Hin; [|set_solver]. simpl.
    replace ({[s]} ∪ e) with e by set_solver. by rewrite insert_id.
  - rewrite lookup_insert_eq, bool_decide_eq_true_2 by set_solver.
    replace (({[s]} ∪ default ∅ (m !! a)) ∖ {[s]}) with (default ∅ (m !! a)) by set_solver.
    destruct (m !! a) as [e|] eqn:Hl; simpl.
    + rewrite bool_decide_eq_false_2 by (by apply He in Hl as [? _]).
      by rewrite insert_insert_eq, insert_id.
    + rewrite bool_decide_eq_true_2 by done. by rewrite delete_insert_id.
Qed.

(** ** Batch finalization *)

Lemma slots_nonneg ps :
  punished_ok ps ->
  Forall (fun v => 0 <= v) ((map_to_list (current_batch_punished_slots ps)).*2 ≫= elements).
Proof.
  intros [_ _ He]. apply Forall_forall. intros v Hv.
  apply list_elem_of_bind in Hv as (slots & Hv & Hin).
  apply list_elem_of_fmap in Hin as ([a slots'] & -> & Hl%elem_of_map_to_list).
  apply elem_of_elements in Hv. by apply He in Hl as [_ Hf]; apply Hf.
Qed.

Lemma current_batch_bitset_set ps :
  punished_ok ps -> BitSet.to_set (current_batch_bitset ps) = current_slots ps.
Proof.
  intros Hok. unfold current_batch_bitset.
  rewrite BitSet.from_iter_to_set by by apply slots_nonneg.
  apply set_eq. intros s. rewrite elem_of_list_to_set, elem_of_current_slots.
  rewrite list_elem_of_bind. split.
  - intros (slots & Hs%elem_of_elements & Hin).
    apply list_elem_of_fmap in Hin as ([a slots'] & -> & Hl%elem_of_map_to_list). eauto.
  - intros (a & slots & Hl%elem_of_map_to_list & Hs). exists slots.
    split; [by apply elem_of_elements|]. apply list_elem_of_fmap. by exists (a, slots).
Qed.

Lemma finalize_batch_ok ps bn active ps' :
  punished_ok ps -> finalize_batch ps bn active = Some ps' -> punished_ok ps'.
Proof.
  intros Hok Hf. pose proof (slots_nonneg ps Hok) as Hnn. unfold finalize_batch in Hf.
  repeat case_match; simplify_eq; (split; simpl;
    [by apply BitSet.from_iter_wf|by apply BitSet.from_iter_canonical|]).
  - intros a slots. by rewrite lookup_empty.
  - intros a slots [Hl _]%map_lookup_filter_Some. by eapply cur_entries.
Qed.

(** At every macro block from genesis on, the batch can be finalized: the
    previous set becomes the set of all currently punished slots, and the
    current one keeps exactly the entries of validators that are not active,
    or nothing at an epoch boundary. *)
Lemma finalize_batch_spec ps bn active :
  punished_ok ps -> is_macro_block_at bn = true ->
  exists ps', finalize_batch ps bn active = Some ps' /\
    BitSet.to_set (previous_batch_punished_slots ps') = current_slots ps /\
    forall a, current_batch_punished_slots ps' !! a =
      if is_election_block_at bn then None
      else match active !! a with Some _ => None | None => current_batch_punished_slots ps !! a end.
Proof.
  intros Hok Hm. unfold finalize_batch. rewrite Hm.
  destruct (is_election_block_at bn); eexists; (split; [done|]); simpl;
    (split; [by apply current_batch_bitset_set|]); intros a.
  - apply lookup_empty.
  - destruct (active !! a) eqn:Ha; simpl.
    + apply map_lookup_filter_None. right. intros x _ ?. simpl in *. congruence.
    + destruct (current_batch_punished_slots ps !! a) eqn:Hc.
      * by apply map_lookup_filter_Some.
      * apply map_lookup_filter_None. by left.
Qed.
End Proofs.
