(* ===== verification/StakingTypes.v ===== *)
(** * The staking contract: data, store and receipts

    The records of [primitives/account/src/account/staking_contract]: the
    contract ([mod.rs]), validators and tombstones ([validator.rs]), stakers
    ([staker.rs]), the typed view of the contract's data store ([store.rs]), the
    receipts ([receipts.rs]) and the transaction data of
    [primitives/transaction/src/account/staking_contract/structs.rs].

    The store of the source is the subtrie below the contract's address, with
    the keys [prefix || address]; it is three maps here, one per prefix, and
    [store_key_inj] shows that the keys of the trie keep them apart. *)

From S2P Require Import Prelude Coin Policy BitSet AccountTypes PunishedSlots.

(** ** Data *)

Record Validator := mk_validator {
  v_address : Z;
  v_signing_key : Z;
  v_voting_key : Z;
  v_reward_address : Z;
  v_signal_data : option (list Z);
  v_total_stake : Z;
  v_deposit : Z;
  v_num_stakers : Z;
  v_inactive_from : option Z;
  v_jailed_from : option Z;
  v_retired : bool;
}.

Record Tombstone := mk_tombstone {
  t_remaining_stake : Z;
  t_num_remaining_stakers : Z;
}.

Record Staker := mk_staker {
  s_address : Z;
  s_active_balance : Z;
  s_inactive_balance : Z;
  s_inactive_from : option Z;
  s_retired_balance : Z;
  s_delegation : option Z;
}.

Record StakingContract := mk_staking_contract {
  sc_balance : Z;
  sc_active_validators : gmap Z Z;
  sc_punished_slots : PunishedSlots;
}.

Record Store := mk_store {
  validators : gmap Z Validator;
  stakers : gmap Z Staker;
  tombstones : gmap Z Tombstone;
}.

(** What the handlers of the staking contract work on. *)
Definition St : Type := StakingContract * Store.

(** Field updates. *)
Definition v_set_signing_key (x : Z) (r : Validator) : Validator :=
  mk_validator (v_address r) x (v_voting_key r) (v_reward_address r) (v_signal_data r)
    (v_total_stake r) (v_deposit r) (v_num_stakers r) (v_inactive_from r) (v_jailed_from r)
    (v_retired r).
Definition v_set_voting_key (x : Z) (r : Validator) : Validator :=
  mk_validator (v_address r) (v_signing_key r) x (v_reward_address r) (v_signal_data r)
    (v_total_stake r) (v_deposit r) (v_num_stakers r) (v_inactive_from r) (v_jailed_from r)
    (v_retired r).
Definition v_set_reward_address (x : Z) (r : Validator) : Validator :=
  mk_validator (v_address r) (v_signing_key r) (v_voting_key r) x (v_signal_data r)
    (v_total_stake r) (v_deposit r) (v_num_stakers r) (v_inactive_from r) (v_jailed_from r)
    (v_retired r).
Definition v_set_signal_data (x : option (list Z)) (r : Validator) : Validator :=
  mk_validator (v_address r) (v_signing_key r) (v_voting_key r) (v_reward_address r) x
    (v_total_stake r) (v_deposit r) (v_num_stakers r) (v_inactive_from r) (v_jailed_from r)
    (v_retired r).
Definition v_set_total_stake (x : Z) (r : Validator) : Validator :=
  mk_validator (v_address r) (v_signing_key r) (v_voting_key r) (v_reward_address r)
    (v_signal_data r) x (v_deposit r) (v_num_stakers r) (v_inactive_from r) (v_jailed_from r)
    (v_retired r).
Definition v_set_deposit (x : Z) (r : Validator) : Validator :=
  mk_validator (v_address r) (v_signing_key r) (v_voting_key r) (v_reward_address r)
    (v_signal_data r) (v_total_stake r) x (v_num_stakers r) (v_inactive_from r)
    (v_jailed_from r) (v_retired r).
Definition v_set_num_stakers (x : Z) (r : Validator) : Validator :=
  mk_validator (v_address r) (v_signing_key r) (v_voting_key r) (v_reward_address r)
    (v_signal_data r) (v_total_stake r) (v_deposit r) x (v_inactive_from r) (v_jailed_from r)
    (v_retired r).
Definition v_set_inactive_from (x : option Z) (r : Validator) : Validator :=
  mk_validator (v_address r) (v_signing_key r) (v_voting_key r) (v_reward_address r)
    (v_signal_data r) (v_total_stake r) (v_deposit r) (v_num_stakers r) x (v_jailed_from r)
    (v_retired r).
Definition v_set_jailed_from (x : option Z) (r : Validator) : Validator :=
  mk_validator (v_address r) (v_signing_key r) (v_voting_key r) (v_reward_address r)
    (v_signal_data r) (v_total_stake r) (v_deposit r) (v_num_stakers r) (v_inactive_from r) x
    (v_retired r).
Definition v_set_retired (x : bool) (r : Validator) : Validator :=
  mk_validator (v_address r) (v_signing_key r) (v_voting_key r) (v_reward_address r)
    (v_signal_data r) (v_total_stake r) (v_deposit r) (v_num_stakers r) (v_inactive_from r)
    (v_jailed_from r) x.
Definition s_set_active_balance (x : Z) (r : Staker) : Staker :=
  mk_staker (s_address r) x (s_inactive_balance r) (s_inactive_from r) (s_retired_balance r)
    (s_delegation r).
Definition s_set_inactive_balance (x : Z) (r : Staker) : Staker :=
  mk_staker (s_address r) (s_active_balance r) x (s_inactive_from r) (s_retired_balance r)
    (s_delegation r).
Definition s_set_inactive_from (x : option Z) (r : Staker) : Staker :=
  mk_staker (s_address r) (s_active_balance r) (s_inactive_balance r) x (s_retired_balance r)
    (s_delegation r).
Definition s_set_retired_balance (x : Z) (r : Staker) : Staker :=
  mk_staker (s_address r) (s_active_balance r) (s_inactive_balance r) (s_inactive_from r) x
    (s_delegation r).
Definition s_set_delegation (x : option Z) (r : Staker) : Staker :=
  mk_staker (s_address r) (s_active_balance r) (s_inactive_balance r) (s_inactive_from r)
    (s_retired_balance r) x.

Definition sc_set_balance (x : Z) (r : StakingContract) : StakingContract :=
  mk_staking_contract x (sc_active_validators r) (sc_punished_slots r).
Definition sc_set_active_validators (x : gmap Z Z) (r : StakingContract) : StakingContract :=
  mk_staking_contract (sc_balance r) x (sc_punished_slots r).
Definition sc_set_punished_slots (x : PunishedSlots) (r : StakingContract) : StakingContract :=
  mk_staking_contract (sc_balance r) (sc_active_validators r) x.

(** ** Keys of the data store *)

Definition PREFIX_VALIDATOR : Z := 0.
Definition PREFIX_STAKER : Z := 1.
Definition PREFIX_TOMBSTONE : Z := 2.

Definition prefixed_address (prefix address : Z) : list Z := prefix :: be_bytes 20 address.
Definition validator_key (address : Z) : list Z := prefixed_address PREFIX_VALIDATOR address.
Definition staker_key (address : Z) : list Z := prefixed_address PREFIX_STAKER address.
Definition tombstone_key (address : Z) : list Z := prefixed_address PREFIX_TOMBSTONE address.

(** Distinct entries of the three maps have distinct keys in the trie. *)
Lemma store_key_inj p1 a1 p2 a2 :
  0 <= a1 < 256 ^ 20 -> 0 <= a2 < 256 ^ 20 ->
  prefixed_address p1 a1 = prefixed_address p2 a2 -> p1 = p2 /\ a1 = a2.
Proof.
  intros H1 H2 He. split.
  - exact (f_equal (hd 0) He).
  - exact (be_bytes_inj 20 _ _ H1 H2 (f_equal tail He)).
Qed.

(** ** Store operations *)

Definition get_validator (address : Z) : AM St (option Validator) :=
  get_state (fun x => validators x.2 !! address).
Definition get_staker (address : Z) : AM St (option Staker) :=
  get_state (fun x => stakers x.2 !! address).
Definition get_tombstone (address : Z) : AM St (option Tombstone) :=
  get_state (fun x => tombstones x.2 !! address).

Definition put_validator (address : Z) (v : Validator) : AM St unit :=
  modify_state (fun x =>
    (x.1, mk_store (<[address := v]> (validators x.2)) (stakers x.2) (tombstones x.2))).
Definition remove_validator (address : Z) : AM St unit :=
  modify_state (fun x =>
    (x.1, mk_store (delete address (validators x.2)) (stakers x.2) (tombstones x.2))).
Definition put_staker (address : Z) (s : Staker) : AM St unit :=
  modify_state (fun x =>
    (x.1, mk_store (validators x.2) (<[address := s]> (stakers x.2)) (tombstones x.2))).
Definition remove_staker (address : Z) : AM St unit :=
  modify_state (fun x =>
    (x.1, mk_store (validators x.2) (delete address (stakers x.2)) (tombstones x.2))).
Definition put_tombstone (address : Z) (t : Tombstone) : AM St unit :=
  modify_state (fun x =>
    (x.1, mk_store (validators x.2) (stakers x.2) (<[address := t]> (tombstones x.2)))).
Definition remove_tombstone (address : Z) : AM St unit :=
  modify_state (fun x =>
    (x.1, mk_store (validators x.2) (stakers x.2) (delete address (tombstones x.2)))).

Definition expect_validator (address : Z) : AM St Validator :=
  v ← get_validator address; ok_or v (AccountError.NonExistentAddress address).
Definition expect_staker (address : Z) : AM St Staker :=
  s ← get_staker address; ok_or s (AccountError.NonExistentAddress address).

(** [self.balance += value] and [self.balance -= value]. *)
Definition increase_balance (value : Z) : AM St unit :=
  b ← get_state (fun x : St => sc_balance x.1);
  b ← add b value;
  modify_state (fun x => (sc_set_balance b x.1, x.2)).
Definition decrease_balance (value : Z) : AM St unit :=
  b ← get_state (fun x : St => sc_balance x.1);
  b ← sub b value;
  modify_state (fun x => (sc_set_balance b x.1, x.2)).

(** [self.active_validators.insert(address, stake)]. *)
Definition insert_active (address stake : Z) : AM St unit :=
  modify_state (fun x =>
    (sc_set_active_validators (<[address := stake]> (sc_active_validators x.1)) x.1, x.2)).
(** [self.active_validators.remove(address)]. *)
Definition remove_active (address : Z) : AM St (option Z) :=
  old ← get_state (fun x : St => sc_active_validators x.1 !! address);
  modify_state (fun x =>
    (sc_set_active_validators (delete address (sc_active_validators x.1)) x.1, x.2));;
  mret old.

(** ** Transaction data *)

(** How a [SetSignalData] transaction changes the signal data. *)
Inductive SignalDataUpdate :=
  | SignalFull (signal_data : option (list Z))
  | SignalVersion (version : Z).

Module Incoming.
(** [IncomingStakingTransactionData], over the type of signature proofs. *)
Inductive t (SignatureProof : Type) :=
  | CreateValidator (signing_key voting_key reward_address : Z) (signal_data : option (list Z))
      (proof_of_knowledge : Z) (proof : SignatureProof)
  | UpdateValidator (new_signing_key new_voting_key new_reward_address : option Z)
      (new_signal_data : option (option (list Z))) (new_proof_of_knowledge : option Z)
      (proof : SignatureProof)
  | DeactivateValidator (validator_address : Z) (proof : SignatureProof)
  | ReactivateValidator (validator_address : Z) (proof : SignatureProof)
  | RetireValidator (proof : SignatureProof)
  | CreateStaker (delegation : option Z) (proof : SignatureProof)
  | AddStake (staker_address : Z)
  | UpdateStaker (new_delegation : option Z) (reactivate_all_stake : bool)
      (proof : SignatureProof)
  | SetActiveStake (new_active_balance : Z) (proof : SignatureProof)
  | RetireStake (retire_stake : Z) (proof : SignatureProof)
  | SetSignalData (validator_address : Z) (update : SignalDataUpdate) (proof : SignatureProof).
Arguments CreateValidator {_}.
Arguments UpdateValidator {_}.
Arguments DeactivateValidator {_}.
Arguments ReactivateValidator {_}.
Arguments RetireValidator {_}.
Arguments CreateStaker {_}.
Arguments AddStake {_}.
Arguments UpdateStaker {_}.
Arguments SetActiveStake {_}.
Arguments RetireStake {_}.
Arguments SetSignalData {_}.
End Incoming.

Module Outgoing.
Inductive t := DeleteValidator | RemoveStake.
End Outgoing.

(** The parts of the transaction layer that are serialization or cryptography:
    the signature proof type, the address of a proof's signer and of a public
    key, and the parsers of the data, sender data and proof fields.  [None]
    stands for a deserialization error. *)
Class StakingEnv := {
  SignatureProof : Type;
  compute_signer : SignatureProof -> Z;
  address_of_key : Z -> Z;
  parse_incoming : Transaction -> option (Incoming.t SignatureProof);
  parse_outgoing : Transaction -> option Outgoing.t;
  parse_signature_proof : list Z -> option SignatureProof;
}.

(** [IncomingStakingTransactionData::is_signaling]. *)
Definition is_signaling {P} (data : Incoming.t P) : bool :=
  match data with
  | Incoming.UpdateValidator _ _ _ _ _ _ | Incoming.DeactivateValidator _ _
  | Incoming.ReactivateValidator _ _ | Incoming.RetireValidator _
  | Incoming.UpdateStaker _ _ _ | Incoming.SetActiveStake _ _
  | Incoming.RetireStake _ _ | Incoming.SetSignalData _ _ _ => true
  | _ => false
  end.

(** ** Receipts *)

Record PenalizeReceipt := mk_penalize_receipt {
  pr_newly_deactivated : bool;
  pr_newly_punished_previous_batch : bool;
  pr_newly_punished_current_batch : bool;
}.

Record JailReceipt := mk_jail_receipt {
  jr_newly_deactivated : bool;
  jr_old_previous_batch_punished_slots : BitSet;
  jr_old_current_batch_punished_slots : option (gset Z);
  jr_old_jailed_from : option Z;
}.

Record UpdateValidatorReceipt := mk_update_validator_receipt {
  uv_old_signing_key : Z;
  uv_old_voting_key : Z;
  uv_old_reward_address : Z;
  uv_old_signal_data : option (list Z);
}.

Record SetSignalDataReceipt := mk_set_signal_data_receipt {
  ss_old_signal_data : option (list Z);
}.

Record JailValidatorReceipt := mk_jail_validator_receipt {
  jv_newly_deactivated : bool;
  jv_old_jailed_from : option Z;
}.

Definition jail_validator_receipt_from (r : JailReceipt) : JailValidatorReceipt :=
  mk_jail_validator_receipt (jr_newly_deactivated r) (jr_old_jailed_from r).

Record ReactivateValidatorReceipt := mk_reactivate_validator_receipt {
  rv_was_inactive_from : Z;
}.

Record RetireValidatorReceipt := mk_retire_validator_receipt {
  rt_was_active : bool;
}.

Record DeleteValidatorReceipt := mk_delete_validator_receipt {
  dv_signing_key : Z;
  dv_voting_key : Z;
  dv_reward_address : Z;
  dv_signal_data : option (list Z);
  dv_inactive_from : Z;
  dv_jailed_from : option Z;
}.

Record StakerReceipt := mk_staker_receipt {
  sr_delegation : option Z;
  sr_active_balance : Z;
  sr_inactive_from : option Z;
}.

Record SetActiveStakeReceipt := mk_set_active_stake_receipt {
  sa_old_inactive_from : option Z;
  sa_old_active_balance : Z;
}.

Record RetireStakeReceipt := mk_retire_stake_receipt {
  rs_old_inactive_from : option Z;
}.

Record DeleteStakerReceipt := mk_delete_staker_receipt {
  ds_delegation : option Z;
}.

(** The serializers of all receipt types. *)
Class StakingReceipts := {
  #[global] conv_penalize :: ConvertReceipt PenalizeReceipt;
  #[global] conv_jail :: ConvertReceipt JailReceipt;
  #[global] conv_update_validator :: ConvertReceipt UpdateValidatorReceipt;
  #[global] conv_set_signal_data :: ConvertReceipt SetSignalDataReceipt;
  #[global] conv_reactivate_validator :: ConvertReceipt ReactivateValidatorReceipt;
  #[global] conv_retire_validator :: ConvertReceipt RetireValidatorReceipt;
  #[global] conv_delete_validator :: ConvertReceipt DeleteValidatorReceipt;
  #[global] conv_staker :: ConvertReceipt StakerReceipt;
  #[global] conv_set_active_stake :: ConvertReceipt SetActiveStakeReceipt;
  #[global] conv_retire_stake :: ConvertReceipt RetireStakeReceipt;
  #[global] conv_delete_staker :: ConvertReceipt DeleteStakerReceipt;
}.
