(* ===== verification/ValidatorOps.v ===== *)
(** * Validator operations of the staking contract

    Models [primitives/account/src/account/staking_contract/validator.rs]:
    creating, updating, (de)activating, jailing, retiring and deleting
    validators, each with its revert. *)

From S2P Require Import Prelude Coin Policy BitSet AccountTypes PunishedSlots StakingTypes.

Definition is_active (v : Validator) : bool := bool_decide (v_inactive_from v = None).

Section ValidatorOps.
Context `{P : Policy} `{Env : StakingEnv}.

Definition jail_active (jailed_from : option Z) (block_number : Z) : bool :=
  match jailed_from with
  | Some jailed_from => block_number <? block_after_jail jailed_from
  | None => false
  end.

Definition is_jailed (v : Validator) (block_number : Z) : bool :=
  jail_active (v_jailed_from v) block_number.

Definition enforce_retire_and_release (v : Validator) (block_number : Z) : AM St unit :=
  fail_if (negb (v_retired v)) AccountError.InvalidForSender;;
  fail_if (is_jailed v block_number) AccountError.InvalidForSender;;
  inactive_from ← expect (v_inactive_from v);
  fail_if (block_number <=? last_block_of_collateral_lockup inactive_from)
    AccountError.InvalidForSender.

Definition can_delete_validator (v : Validator) (value block_number : Z) : AM St unit :=
  fail_if (negb (value =? v_deposit v)) AccountError.InvalidCoinValue;;
  enforce_retire_and_release v block_number.

Definition create_validator (validator_address signing_key voting_key reward_address : Z)
    (signal_data : option (list Z)) (deposit : Z) (inactive_from jailed_from : option Z)
    (retired : bool) (block_number : Z) : AM St unit :=
  existing ← get_validator validator_address;
  fail_if (bool_decide (is_Some existing))
    (AccountError.AlreadyExistentAddress validator_address);;
  fail_if (bool_decide (inactive_from = None) && (retired || jail_active jailed_from block_number))
    AccountError.InvalidForRecipient;;
  tombstone ← get_tombstone validator_address;
  fail_if (bool_decide (is_Some tombstone)) AccountError.InvalidForRecipient;;
  let validator := mk_validator validator_address signing_key voting_key reward_address
                     signal_data deposit deposit 0 inactive_from jailed_from retired in
  increase_balance deposit;;
  when (is_active validator) (insert_active validator_address (v_total_stake validator));;
  push_log (Log.CreateValidator validator_address (v_reward_address validator));;
  put_validator validator_address validator.

Definition revert_create_validator (validator_address deposit : Z) : AM St unit :=
  validator ← expect_validator validator_address;
  assert_that (v_deposit validator =? deposit);;
  decrease_balance deposit;;
  remove_active validator_address;;
  remove_validator validator_address;;
  push_log (Log.CreateValidator validator_address (v_reward_address validator)).

Definition update_validator (validator_address : Z)
    (new_signing_key new_voting_key new_reward_address : option Z)
    (new_signal_data : option (option (list Z))) : AM St UpdateValidatorReceipt :=
  validator ← expect_validator validator_address;
  let receipt := mk_update_validator_receipt (v_signing_key validator) (v_voting_key validator)
                   (v_reward_address validator) (v_signal_data validator) in
  let validator := match new_signing_key with
                   | Some value => v_set_signing_key value validator | None => validator end in
  let validator := match new_voting_key with
                   | Some value => v_set_voting_key value validator | None => validator end in
  let validator := match new_reward_address with
                   | Some value => v_set_reward_address value validator | None => validator end in
  let validator := match new_signal_data with
                   | Some value => v_set_signal_data value validator | None => validator end in
  push_log (Log.UpdateValidator validator_address (uv_old_reward_address receipt)
              (Some (v_reward_address validator)));;
  put_validator validator_address validator;;
  mret receipt.

Definition revert_update_validator (validator_address : Z) (receipt : UpdateValidatorReceipt)
  : AM St unit :=
  validator ← expect_validator validator_address;
  push_log (Log.UpdateValidator validator_address (uv_old_reward_address receipt)
              (Some (v_reward_address validator)));;
  let validator := v_set_signing_key (uv_old_signing_key receipt) validator in
  let validator := v_set_voting_key (uv_old_voting_key receipt) validator in
  let validator := v_set_reward_address (uv_old_reward_address receipt) validator in
  let validator := v_set_signal_data (uv_old_signal_data receipt) validator in
  put_validator validator_address validator.

Definition set_signal_data (validator_address signer : Z) (update : SignalDataUpdate)
  : AM St SetSignalDataReceipt :=
  validator ← expect_validator validator_address;
  fail_if (negb (signer =? address_of_key (v_signing_key validator)))
    AccountError.InvalidSignature;;
  let receipt := mk_set_signal_data_receipt (v_signal_data validator) in
  let new_signal_data :=
    match update with
    | SignalFull signal_data => signal_data
    | SignalVersion version => Some (signal_data_with_version (v_signal_data validator) version)
    end in
  let validator := v_set_signal_data new_signal_data validator in
  push_log (Log.SetSignalData validator_address new_signal_data);;
  put_validator validator_address validator;;
  mret receipt.

Definition revert_set_signal_data (validator_address : Z) (receipt : SetSignalDataReceipt)
  : AM St unit :=
  validator ← expect_validator validator_address;
  push_log (Log.SetSignalData validator_address (v_signal_data validator));;
  put_validator validator_address (v_set_signal_data (ss_old_signal_data receipt) validator).

Definition deactivate_validator (validator_address signer block_number : Z) : AM St unit :=
  validator ← expect_validator validator_address;
  fail_if (negb (is_active validator)) AccountError.InvalidForRecipient;;
  fail_if (negb (signer =? address_of_key (v_signing_key validator)))
    AccountError.InvalidSignature;;
  let next_election_block := election_block_after block_number in
  let validator := v_set_inactive_from (Some next_election_block) validator in
  old ← remove_active validator_address;
  expect old;;
  put_validator validator_address validator;;
  push_log (Log.DeactivateValidator validator_address next_election_block).

Definition revert_deactivate_validator (validator_address : Z) : AM St unit :=
  validator ← expect_validator validator_address;
  inactive_from ← expect (v_inactive_from validator);
  let validator := v_set_inactive_from None validator in
  insert_active validator_address (v_total_stake validator);;
  put_validator validator_address validator;;
  push_log (Log.DeactivateValidator validator_address inactive_from).

Definition jail_validator (validator_address block_number : Z) : AM St JailValidatorReceipt :=
  validator ← expect_validator validator_address;
  let old_jailed_from := v_jailed_from validator in
  let newly_deactivated := is_active validator in
  let next_election_block := election_block_after block_number in
  validator ←
    (if newly_deactivated then
       old ← remove_active validator_address;
       expect old;;
       mret (v_set_inactive_from (Some next_election_block) validator)
     else mret validator);
  let validator := v_set_jailed_from (Some block_number) validator in
  put_validator validator_address validator;;
  push_log (Log.JailValidator validator_address block_number
              (bool_decide (old_jailed_from = None)));;
  when newly_deactivated
    (push_log (Log.DeactivateValidator validator_address next_election_block));;
  mret (mk_jail_validator_receipt newly_deactivated old_jailed_from).

Definition revert_jail_validator (validator_address : Z) (receipt : JailValidatorReceipt)
  : AM St unit :=
  validator ← expect_validator validator_address;
  let inactive_from := v_inactive_from validator in
  validator ←
    (if jv_newly_deactivated receipt then
       insert_active validator_address (v_total_stake validator);;
       mret (v_set_inactive_from None validator)
     else mret validator);
  jailed_from ← expect (v_jailed_from validator);
  let validator := v_set_jailed_from (jv_old_jailed_from receipt) validator in
  put_validator validator_address validator;;
  when (jv_newly_deactivated receipt)
    (inactive_from ← expect inactive_from;
     push_log (Log.DeactivateValidator validator_address inactive_from));;
  push_log (Log.JailValidator validator_address jailed_from
              (bool_decide (jv_old_jailed_from receipt = None))).

Definition reactivate_validator (validator_address signer block_number : Z)
  : AM St ReactivateValidatorReceipt :=
  validator ← expect_validator validator_address;
  fail_if (is_active validator) AccountError.InvalidForRecipient;;
  fail_if (v_retired validator) AccountError.InvalidForRecipient;;
  fail_if (is_jailed validator block_number) AccountError.InvalidForRecipient;;
  fail_if (negb (signer =? address_of_key (v_signing_key validator)))
    AccountError.InvalidSignature;;
  was_inactive_from ← expect (v_inactive_from validator);
  let validator := v_set_inactive_from None validator in
  insert_active validator_address (v_total_stake validator);;
  put_validator validator_address validator;;
  push_log (Log.ReactivateValidator validator_address);;
  mret (mk_reactivate_validator_receipt was_inactive_from).

Definition revert_reactivate_validator (validator_address : Z)
    (receipt : ReactivateValidatorReceipt) : AM St unit :=
  validator ← expect_validator validator_address;
  let validator := v_set_inactive_from (Some (rv_was_inactive_from receipt)) validator in
  old ← remove_active validator_address;
  expect old;;
  put_validator validator_address validator;;
  push_log (Log.ReactivateValidator validator_address).

Definition retire_validator (validator_address block_number : Z)
  : AM St RetireValidatorReceipt :=
  validator ← expect_validator validator_address;
  fail_if (v_retired validator) AccountError.InvalidForRecipient;;
  let validator := v_set_retired true validator in
  push_log (Log.RetireValidator validator_address);;
  let was_active := is_active validator in
  validator ←
    (if was_active then
       let next_election_block := election_block_after block_number in
       old ← remove_active validator_address;
       expect old;;
       push_log (Log.DeactivateValidator validator_address next_election_block);;
       mret (v_set_inactive_from (Some next_election_block) validator)
     else mret validator);
  put_validator validator_address validator;;
  mret (mk_retire_validator_receipt was_active).

Definition revert_retire_validator (validator_address : Z) (receipt : RetireValidatorReceipt)
  : AM St unit :=
  validator ← expect_validator validator_address;
  let validator := v_set_retired false validator in
  validator ←
    (if rt_was_active receipt then
       inactive_from ← expect (v_inactive_from validator);
       insert_active validator_address (v_total_stake validator);;
       push_log (Log.DeactivateValidator validator_address inactive_from);;
       mret (v_set_inactive_from None validator)
     else mret validator);
  push_log (Log.RetireValidator validator_address);;
  put_validator validator_address validator.

Definition delete_validator (validator_address block_number value : Z)
  : AM St DeleteValidatorReceipt :=
  validator ← expect_validator validator_address;
  can_delete_validator validator value block_number;;
  decrease_balance (v_deposit validator);;
  when (0 <? v_num_stakers validator)
    (remaining_stake ← sub (v_total_stake validator) (v_deposit validator);
     put_tombstone validator_address (mk_tombstone remaining_stake (v_num_stakers validator)));;
  remove_validator validator_address;;
  push_log (Log.DeleteValidator validator_address (v_reward_address validator));;
  inactive_from ← expect (v_inactive_from validator);
  mret (mk_delete_validator_receipt (v_signing_key validator) (v_voting_key validator)
          (v_reward_address validator) (v_signal_data validator) inactive_from
          (v_jailed_from validator)).

Definition revert_delete_validator (validator_address transaction_total_value : Z)
    (receipt : DeleteValidatorReceipt) : AM St unit :=
  increase_balance transaction_total_value;;
  let validator := mk_validator validator_address (dv_signing_key receipt)
                     (dv_voting_key receipt) (dv_reward_address receipt) (dv_signal_data receipt)
                     transaction_total_value transaction_total_value 0
                     (Some (dv_inactive_from receipt)) (dv_jailed_from receipt) true in
  tombstone ← get_tombstone validator_address;
  validator ←
    match tombstone with
    | Some tombstone =>
        total_stake ← add (v_total_stake validator) (t_remaining_stake tombstone);
        remove_tombstone validator_address;;
        mret (v_set_num_stakers
                (wrap 64 (v_num_stakers validator + t_num_remaining_stakers tombstone))
                (v_set_total_stake total_stake validator))
    | None => mret validator
    end;
  push_log (Log.DeleteValidator validator_address (v_reward_address validator));;
  put_validator validator_address validator.
End ValidatorOps.
