(* ===== verification/StakerOps.v ===== *)
(** * Staker operations of the staking contract

    Models [primitives/account/src/account/staking_contract/staker.rs]:
    creating stakers, adding, (in)activating, retiring and removing stake,
    changing the delegation, and the bookkeeping of validators and tombstones,
    each operation with its revert. *)

From S2P Require Import Prelude Coin Policy BitSet AccountTypes PunishedSlots StakingTypes.
From S2P Require Import ValidatorOps.

Section StakerOps.
Context `{P : Policy}.

Definition total_balance (s : Staker) : AM St Z :=
  b ← add (s_active_balance s) (s_inactive_balance s);
  add b (s_retired_balance s).

Definition non_retired_balance (s : Staker) : AM St Z :=
  add (s_active_balance s) (s_inactive_balance s).

Definition can_remove_stake (s : Staker) (value : Z) : AM St unit :=
  fail_if (negb (value =? s_retired_balance s)) AccountError.InvalidCoinValue.

(** The body of [is_inactive_stake_released] on the validator of the current
    delegation, if it still exists. *)
Definition inactive_stake_released (s : Staker) (validator : option Validator)
    (block_number : Z) : bool :=
  match s_delegation s with
  | Some _ =>
      if match s_inactive_from s with
         | Some inactive_from => block_number <? block_after_collateral_lockup inactive_from
         | None => false
         end
      then false
      else match validator with
           | Some validator => negb (is_jailed validator block_number)
           | None => true
           end
  | None => true
  end.

Definition is_inactive_stake_released (s : Staker) (block_number : Z) : AM St bool :=
  validator ← match s_delegation s with
              | Some validator_address => get_validator validator_address
              | None => mret None
              end;
  mret (inactive_stake_released s validator block_number).

Definition enforce_min_stake (active_balance inactive_balance retired_balance : Z)
  : AM St unit :=
  non_retired_balance ← add active_balance inactive_balance;
  fail_if ((0 <? non_retired_balance) && (non_retired_balance <? MINIMUM_STAKE))
    AccountError.InvalidCoinValue;;
  fail_if ((non_retired_balance =? 0) && (0 <? retired_balance)
           && (retired_balance <? MINIMUM_STAKE))
    AccountError.InvalidCoinValue.

(** ** Delegation counters and stakes *)

Definition register_staker_on_validator (validator_address : Z) (can_create_tombstone : bool)
  : AM St unit :=
  validator ← get_validator validator_address;
  match validator with
  | Some validator =>
      put_validator validator_address
        (v_set_num_stakers (wrap 64 (v_num_stakers validator + 1)) validator)
  | None =>
      tombstone ← get_tombstone validator_address;
      match tombstone with
      | Some tombstone =>
          put_tombstone validator_address
            (mk_tombstone (t_remaining_stake tombstone)
               (wrap 64 (t_num_remaining_stakers tombstone + 1)))
      | None =>
          if can_create_tombstone then put_tombstone validator_address (mk_tombstone 0 1)
          else panic
      end
  end.

Definition unregister_staker_from_validator (validator_address : Z) : AM St unit :=
  validator ← get_validator validator_address;
  match validator with
  | Some validator =>
      put_validator validator_address
        (v_set_num_stakers (wrap 64 (v_num_stakers validator - 1)) validator)
  | None =>
      tombstone ← get_tombstone validator_address;
      match tombstone with
      | Some tombstone =>
          let n := wrap 64 (t_num_remaining_stakers tombstone - 1) in
          if n =? 0 then remove_tombstone validator_address
          else put_tombstone validator_address (mk_tombstone (t_remaining_stake tombstone) n)
      | None => panic
      end
  end.

Definition increase_stake_to_validator (validator_address value : Z) : AM St unit :=
  validator ← get_validator validator_address;
  match validator with
  | Some validator =>
      total_stake ← add (v_total_stake validator) value;
      let validator := v_set_total_stake total_stake validator in
      when (is_active validator) (insert_active validator_address (v_total_stake validator));;
      put_validator validator_address validator
  | None =>
      tombstone ← get_tombstone validator_address;
      match tombstone with
      | Some tombstone =>
          remaining_stake ← add (t_remaining_stake tombstone) value;
          put_tombstone validator_address
            (mk_tombstone remaining_stake (t_num_remaining_stakers tombstone))
      | None => panic
      end
  end.

Definition decrease_stake_from_validator (validator_address value : Z) : AM St unit :=
  validator ← get_validator validator_address;
  match validator with
  | Some validator =>
      total_stake ← sub (v_total_stake validator) value;
      let validator := v_set_total_stake total_stake validator in
      when (is_active validator) (insert_active validator_address (v_total_stake validator));;
      put_validator validator_address validator
  | None =>
      tombstone ← get_tombstone validator_address;
      match tombstone with
      | Some tombstone =>
          remaining_stake ← sub (t_remaining_stake tombstone) value;
          put_tombstone validator_address
            (mk_tombstone remaining_stake (t_num_remaining_stakers tombstone))
      | None => panic
      end
  end.

Definition update_stake_for_validator (validator_address old_balance new_balance : Z)
  : AM St unit :=
  match new_balance ?= old_balance with
  | Lt => value ← sub old_balance new_balance;
          decrease_stake_from_validator validator_address value
  | Gt => value ← sub new_balance old_balance;
          increase_stake_to_validator validator_address value
  | Eq => mret tt
  end.

(** ** Operations *)

Definition create_staker (staker_address value : Z) (delegation : option Z)
    (inactive_balance : Z) (inactive_from : option Z) : AM St unit :=
  existing ← get_staker staker_address;
  fail_if (bool_decide (is_Some existing)) (AccountError.AlreadyExistentAddress staker_address);;
  fail_if (negb (Bool.eqb (is_zero inactive_balance) (bool_decide (inactive_from = None))))
    AccountError.InvalidForRecipient;;
  if_some delegation (fun validator_address => expect_validator validator_address;; mret tt);;
  let staker := mk_staker staker_address value inactive_balance inactive_from 0 delegation in
  if_some (s_delegation staker) (fun validator_address =>
    register_staker_on_validator validator_address false;;
    increase_stake_to_validator validator_address (s_active_balance staker));;
  total ← add value inactive_balance;
  increase_balance total;;
  push_log (Log.CreateStaker staker_address (s_delegation staker) value);;
  put_staker staker_address staker.

Definition revert_create_staker (staker_address value : Z) : AM St unit :=
  staker ← expect_staker staker_address;
  assert_that (value =? s_active_balance staker);;
  total ← add value (s_inactive_balance staker);
  decrease_balance total;;
  if_some (s_delegation staker) (fun validator_address =>
    decrease_stake_from_validator validator_address (s_active_balance staker);;
    unregister_staker_from_validator validator_address);;
  remove_staker (s_address staker);;
  push_log (Log.CreateStaker staker_address (s_delegation staker) value).

Definition add_stake (staker_address value : Z) : AM St unit :=
  staker ← expect_staker staker_address;
  active_balance ← add (s_active_balance staker) value;
  enforce_min_stake active_balance (s_inactive_balance staker) (s_retired_balance staker);;
  if_some (s_delegation staker) (fun validator_address =>
    expect_validator validator_address;;
    increase_stake_to_validator validator_address value);;
  active_balance ← add (s_active_balance staker) value;
  let staker := s_set_active_balance active_balance staker in
  increase_balance value;;
  push_log (Log.Stake staker_address (s_delegation staker) value);;
  put_staker staker_address staker.

Definition revert_add_stake (staker_address value : Z) : AM St unit :=
  staker ← expect_staker staker_address;
  if_some (s_delegation staker) (fun validator_address =>
    decrease_stake_from_validator validator_address value);;
  active_balance ← sub (s_active_balance staker) value;
  let staker := s_set_active_balance active_balance staker in
  decrease_balance value;;
  push_log (Log.Stake staker_address (s_delegation staker) value);;
  put_staker staker_address staker.

Definition update_staker (staker_address : Z) (new_delegation : option Z)
    (reactivate_all_stake : bool) (block_number : Z) : AM St StakerReceipt :=
  staker ← expect_staker staker_address;
  if_some new_delegation (fun new_validator_address =>
    expect_validator new_validator_address;; mret tt);;
  if_some (s_delegation staker) (fun _ =>
    fail_if (negb (is_zero (s_active_balance staker))) AccountError.InvalidForRecipient;;
    released ← is_inactive_stake_released staker block_number;
    fail_if (negb released) AccountError.InvalidForRecipient);;
  let receipt := mk_staker_receipt (s_delegation staker) (s_active_balance staker)
                   (s_inactive_from staker) in
  let old_validator_address := s_delegation staker in
  if_some (s_delegation staker) unregister_staker_from_validator;;
  let staker := s_set_delegation new_delegation staker in
  staker ←
    (if reactivate_all_stake then
       active_balance ← add (s_active_balance staker) (s_inactive_balance staker);
       mret (s_set_inactive_from None
               (s_set_inactive_balance 0 (s_set_active_balance active_balance staker)))
     else mret staker);
  if_some (s_delegation staker) (fun validator_address =>
    register_staker_on_validator validator_address false;;
    when (negb (is_zero (s_active_balance staker)))
      (increase_stake_to_validator validator_address (s_active_balance staker)));;
  push_log (Log.UpdateStaker staker_address old_validator_address (s_delegation staker)
              (s_active_balance staker) (s_inactive_from staker));;
  put_staker staker_address staker;;
  mret receipt.

Definition revert_update_staker (staker_address : Z) (receipt : StakerReceipt) : AM St unit :=
  staker ← expect_staker staker_address;
  if_some (s_delegation staker) (fun validator_address =>
    when (negb (is_zero (s_active_balance staker)))
      (decrease_stake_from_validator validator_address (s_active_balance staker));;
    unregister_staker_from_validator validator_address);;
  push_log (Log.UpdateStaker staker_address (sr_delegation receipt) (s_delegation staker)
              (s_active_balance staker) (s_inactive_from staker));;
  let staker := s_set_delegation (sr_delegation receipt) staker in
  if_some (s_delegation staker) (fun validator_address =>
    register_staker_on_validator validator_address true);;
  non_retired ← non_retired_balance staker;
  let staker := s_set_active_balance (sr_active_balance receipt) staker in
  inactive_balance ← sub non_retired (s_active_balance staker);
  let staker := s_set_inactive_balance inactive_balance staker in
  let staker := s_set_inactive_from (sr_inactive_from receipt) staker in
  put_staker staker_address staker.

Definition set_active_stake (staker_address new_active_balance block_number : Z)
  : AM St SetActiveStakeReceipt :=
  staker ← expect_staker staker_address;
  non_retired ← non_retired_balance staker;
  fail_if (non_retired <? new_active_balance)
    (AccountError.InsufficientFunds new_active_balance non_retired);;
  let old_inactive_from := s_inactive_from staker in
  let old_active_balance := s_active_balance staker in
  new_inactive_balance ← sub non_retired new_active_balance;
  let staker := s_set_active_balance new_active_balance staker in
  let staker := s_set_inactive_balance new_inactive_balance staker in
  let staker := s_set_inactive_from
                  (if is_zero new_inactive_balance then None
                   else Some (election_block_after block_number)) staker in
  if_some (s_delegation staker) (fun validator_address =>
    update_stake_for_validator validator_address old_active_balance new_active_balance);;
  push_log (Log.SetActiveStake staker_address (s_delegation staker) new_active_balance
              new_inactive_balance (s_inactive_from staker));;
  put_staker staker_address staker;;
  mret (mk_set_active_stake_receipt old_inactive_from old_active_balance).

Definition revert_set_active_stake (staker_address value : Z)
    (receipt : SetActiveStakeReceipt) : AM St unit :=
  staker ← expect_staker staker_address;
  non_retired ← non_retired_balance staker;
  let old_inactive_from := s_inactive_from staker in
  let old_inactive_balance := s_inactive_balance staker in
  let staker := s_set_inactive_from (sa_old_inactive_from receipt) staker in
  let staker := s_set_active_balance (sa_old_active_balance receipt) staker in
  inactive_balance ← sub non_retired (s_active_balance staker);
  let staker := s_set_inactive_balance inactive_balance staker in
  if_some (s_delegation staker) (fun validator_address =>
    update_stake_for_validator validator_address value (s_active_balance staker));;
  push_log (Log.SetActiveStake staker_address (s_delegation staker) value
              old_inactive_balance old_inactive_from);;
  put_staker staker_address staker.

Definition retire_stake (staker_address retire_stake block_number : Z)
  : AM St RetireStakeReceipt :=
  staker ← expect_staker staker_address;
  fail_if (s_inactive_balance staker <? retire_stake)
    (AccountError.InsufficientFunds retire_stake (s_inactive_balance staker));;
  new_inactive_balance ← sub (s_inactive_balance staker) retire_stake;
  new_retired_balance ← add (s_retired_balance staker) retire_stake;
  enforce_min_stake (s_active_balance staker) new_inactive_balance new_retired_balance;;
  released ← is_inactive_stake_released staker block_number;
  fail_if (negb released) AccountError.InvalidForRecipient;;
  let old_inactive_from := s_inactive_from staker in
  let staker := s_set_inactive_balance new_inactive_balance staker in
  retired_balance ← add (s_retired_balance staker) retire_stake;
  let staker := s_set_retired_balance retired_balance staker in
  let staker := if is_zero (s_inactive_balance staker) then s_set_inactive_from None staker
                else staker in
  push_log (Log.RetireStake staker_address (s_delegation staker) (s_inactive_balance staker)
              (s_inactive_from staker) (s_retired_balance staker));;
  put_staker staker_address staker;;
  mret (mk_retire_stake_receipt old_inactive_from).

Definition revert_retire_stake (staker_address retire_stake : Z) (receipt : RetireStakeReceipt)
  : AM St unit :=
  staker ← expect_staker staker_address;
  let old_retire_balance := s_retired_balance staker in
  let old_inactive_balance := s_inactive_balance staker in
  let old_inactive_from := s_inactive_from staker in
  retired_balance ← sub (s_retired_balance staker) retire_stake;
  let staker := s_set_retired_balance retired_balance staker in
  inactive_balance ← add (s_inactive_balance staker) retire_stake;
  let staker := s_set_inactive_balance inactive_balance staker in
  let staker := s_set_inactive_from (rs_old_inactive_from receipt) staker in
  push_log (Log.RetireStake staker_address (s_delegation staker) old_inactive_balance
              old_inactive_from old_retire_balance);;
  put_staker staker_address staker.

Definition remove_stake (staker_address value : Z) : AM St (option DeleteStakerReceipt) :=
  staker ← expect_staker staker_address;
  fail_if (s_retired_balance staker <? value)
    (AccountError.InsufficientFunds value (s_retired_balance staker));;
  new_retired_balance ← sub (s_retired_balance staker) value;
  enforce_min_stake (s_active_balance staker) (s_inactive_balance staker) new_retired_balance;;
  let staker := s_set_retired_balance new_retired_balance staker in
  decrease_balance value;;
  push_log (Log.RemoveStake staker_address (s_delegation staker) value);;
  total ← total_balance staker;
  if is_zero total then
    if_some (s_delegation staker) unregister_staker_from_validator;;
    remove_staker staker_address;;
    push_log (Log.DeleteStaker staker_address (s_delegation staker));;
    mret (Some (mk_delete_staker_receipt (s_delegation staker)))
  else
    put_staker staker_address staker;;
    mret None.

Definition revert_remove_stake (staker_address value : Z) (receipt : option DeleteStakerReceipt)
  : AM St unit :=
  staker ←
    match receipt with
    | Some receipt =>
        if_some (ds_delegation receipt) (fun validator_address =>
          register_staker_on_validator validator_address true);;
        push_log (Log.DeleteStaker staker_address (ds_delegation receipt));;
        mret (mk_staker staker_address 0 0 None value (ds_delegation receipt))
    | None =>
        staker ← expect_staker staker_address;
        retired_balance ← add (s_retired_balance staker) value;
        mret (s_set_retired_balance retired_balance staker)
    end;
  increase_balance value;;
  push_log (Log.RemoveStake staker_address (s_delegation staker) value);;
  put_staker staker_address staker.
End StakerOps.
