(* ===== verification/StakingContract.v ===== *)
(** * Transactions and inherents of the staking contract

    Models [primitives/account/src/account/staking_contract/traits.rs] (the
    commit and revert handlers that dispatch to the validator and staker
    operations) and the version-upgrade functions of [mod.rs]. *)

From S2P Require Import Prelude Coin Policy BitSet AccountTypes PunishedSlots StakingTypes.
From S2P Require Import ValidatorOps StakerOps.

Section StakingContract.
Context `{P : Policy} `{Env : StakingEnv} `{Rc : StakingReceipts}.

(** ** Version upgrades ([mod.rs]) *)

Definition unsupporting_validators (support_check : option (list Z) -> bool)
  : AM St (list (Z * Z)) :=
  active ← get_state (fun x : St => sc_active_validators x.1);
  vals ← get_state (fun x : St => validators x.2);
  foldr (fun validator_address (acc : AM St (list (Z * Z))) =>
      validator ← expect (vals !! validator_address);
      rest ← acc;
      mret (if negb (support_check (v_signal_data validator))
            then (v_address validator, address_of_key (v_signing_key validator)) :: rest
            else rest))
    (mret []) (sorted_keys active).

Definition deactivate_unsupporting_validators (support_check : option (list Z) -> bool)
    (block_number : Z) : AM St unit :=
  unsupporting ← unsupporting_validators support_check;
  for_each unsupporting (fun va =>
    deactivate_validator va.1 va.2 (wrap 32 (block_number - 1))).

(** ** Incoming transactions *)

Definition invalid_data : AccountError.t :=
  AccountError.InvalidTransaction TransactionError.InvalidSerialization.

Definition commit_incoming_transaction (tx : Transaction) (bs : BlockState)
  : AM St (option AccountReceipt) :=
  data ← ok_or (parse_incoming tx) invalid_data;
  match data with
  | Incoming.CreateValidator signing_key voting_key reward_address signal_data _ proof =>
      create_validator (compute_signer proof) signing_key voting_key reward_address signal_data
        (tx_value tx) None None false (bs_number bs);;
      mret None
  | Incoming.UpdateValidator new_signing_key new_voting_key new_reward_address new_signal_data
      _ proof =>
      receipt ← update_validator (compute_signer proof) new_signing_key new_voting_key
                  new_reward_address new_signal_data;
      mret (Some (into_receipt receipt))
  | Incoming.DeactivateValidator validator_address proof =>
      deactivate_validator validator_address (compute_signer proof) (bs_number bs);;
      mret None
  | Incoming.ReactivateValidator validator_address proof =>
      receipt ← reactivate_validator validator_address (compute_signer proof) (bs_number bs);
      mret (Some (into_receipt receipt))
  | Incoming.RetireValidator proof =>
      receipt ← retire_validator (compute_signer proof) (bs_number bs);
      mret (Some (into_receipt receipt))
  | Incoming.CreateStaker delegation proof =>
      create_staker (compute_signer proof) (tx_value tx) delegation 0 None;;
      mret None
  | Incoming.AddStake staker_address =>
      add_stake staker_address (tx_value tx);;
      mret None
  | Incoming.UpdateStaker new_delegation reactivate_all_stake proof =>
      receipt ← update_staker (compute_signer proof) new_delegation reactivate_all_stake
                  (bs_number bs);
      mret (Some (into_receipt receipt))
  | Incoming.SetActiveStake new_active_balance proof =>
      receipt ← set_active_stake (compute_signer proof) new_active_balance (bs_number bs);
      mret (Some (into_receipt receipt))
  | Incoming.RetireStake stake proof =>
      receipt ← retire_stake (compute_signer proof) stake (bs_number bs);
      mret (Some (into_receipt receipt))
  | Incoming.SetSignalData validator_address update proof =>
      receipt ← set_signal_data validator_address (compute_signer proof) update;
      mret (Some (into_receipt receipt))
  end.

Definition revert_incoming_transaction (tx : Transaction) (receipt : option AccountReceipt)
  : AM St unit :=
  data ← ok_or (parse_incoming tx) invalid_data;
  match data with
  | Incoming.CreateValidator _ _ _ _ _ proof =>
      revert_create_validator (compute_signer proof) (tx_value tx)
  | Incoming.UpdateValidator _ _ _ _ _ proof =>
      receipt ← take_receipt receipt;
      revert_update_validator (compute_signer proof) receipt
  | Incoming.DeactivateValidator validator_address _ =>
      revert_deactivate_validator validator_address
  | Incoming.ReactivateValidator validator_address _ =>
      receipt ← take_receipt receipt;
      revert_reactivate_validator validator_address receipt
  | Incoming.RetireValidator proof =>
      receipt ← take_receipt receipt;
      revert_retire_validator (compute_signer proof) receipt
  | Incoming.CreateStaker _ proof =>
      revert_create_staker (compute_signer proof) (tx_value tx)
  | Incoming.AddStake staker_address =>
      revert_add_stake staker_address (tx_value tx)
  | Incoming.UpdateStaker _ _ proof =>
      receipt ← take_receipt receipt;
      revert_update_staker (compute_signer proof) receipt
  | Incoming.SetActiveStake new_active_balance proof =>
      receipt ← take_receipt receipt;
      revert_set_active_stake (compute_signer proof) new_active_balance receipt
  | Incoming.RetireStake stake proof =>
      receipt ← take_receipt receipt;
      revert_retire_stake (compute_signer proof) stake receipt
  | Incoming.SetSignalData validator_address _ _ =>
      receipt ← take_receipt receipt;
      revert_set_signal_data validator_address receipt
  end.

(** ** Outgoing transactions *)

Definition commit_outgoing_transaction (tx : Transaction) (bs : BlockState)
  : AM St (option AccountReceipt) :=
  data ← ok_or (parse_outgoing tx) invalid_data;
  proof ← ok_or (parse_signature_proof (tx_proof tx)) AccountError.InvalidSerialization;
  push_log (Log.pay_fee_log tx);;
  push_log (Log.transfer_log tx);;
  match data with
  | Outgoing.DeleteValidator =>
      receipt ← delete_validator (compute_signer proof) (bs_number bs) (total_value tx);
      mret (Some (into_receipt receipt))
  | Outgoing.RemoveStake =>
      staker ← expect_staker (compute_signer proof);
      can_remove_stake staker (total_value tx);;
      receipt ← remove_stake (compute_signer proof) (total_value tx);
      mret (into_receipt <$> receipt)
  end.

(** [if let Some(receipt) = receipt { Some(receipt.try_into()?) } else { None }] *)
Definition take_optional_receipt {T} `{ConvertReceipt T} (receipt : option AccountReceipt)
  : AM St (option T) :=
  match receipt with
  | Some receipt =>
      r ← ok_or (try_from_receipt receipt) AccountError.InvalidSerialization;
      mret (Some r)
  | None => mret None
  end.

(** The logs are pushed whether or not the revert succeeds. *)
Definition revert_outgoing_transaction (tx : Transaction) (receipt : option AccountReceipt)
  : AM St unit :=
  data ← ok_or (parse_outgoing tx) invalid_data;
  proof ← ok_or (parse_signature_proof (tx_proof tx)) AccountError.InvalidSerialization;
  result ←
    match data with
    | Outgoing.DeleteValidator =>
        receipt ← take_receipt receipt;
        catch (revert_delete_validator (compute_signer proof) (total_value tx) receipt)
    | Outgoing.RemoveStake =>
        receipt ← take_optional_receipt receipt;
        catch (revert_remove_stake (compute_signer proof) (total_value tx) receipt)
    end;
  push_log (Log.transfer_log tx);;
  push_log (Log.pay_fee_log tx);;
  lift result.

(** ** Failed transactions: only the fee is paid *)

Definition commit_failed_transaction (tx : Transaction) (bs : BlockState)
  : AM St (option AccountReceipt) :=
  data ← ok_or (parse_outgoing tx) invalid_data;
  proof ← ok_or (parse_signature_proof (tx_proof tx)) AccountError.InvalidSerialization;
  push_log (Log.pay_fee_log tx);;
  match data with
  | Outgoing.DeleteValidator =>
      let validator_address := compute_signer proof in
      validator ← expect_validator validator_address;
      new_deposit ← safe_sub_or (v_deposit validator) (tx_fee tx);
      enforce_retire_and_release validator (bs_number bs);;
      push_log (Log.ValidatorFeeDeduction validator_address (tx_fee tx));;
      if is_zero new_deposit then
        receipt ← delete_validator validator_address (bs_number bs) (tx_fee tx);
        mret (Some (into_receipt receipt))
      else
        let validator := v_set_deposit new_deposit validator in
        total_stake ← safe_sub_or (v_total_stake validator) (tx_fee tx);
        let validator := v_set_total_stake total_stake validator in
        decrease_balance (tx_fee tx);;
        put_validator validator_address validator;;
        mret None
  | Outgoing.RemoveStake =>
      let staker_address := compute_signer proof in
      receipt ← with_empty_logger (remove_stake staker_address (tx_fee tx));
      push_log (Log.StakerFeeDeduction staker_address (tx_fee tx));;
      if_some receipt (fun receipt =>
        push_log (Log.DeleteStaker staker_address (ds_delegation receipt)));;
      mret (into_receipt <$> receipt)
  end.

Definition revert_failed_transaction (tx : Transaction) (receipt : option AccountReceipt)
  : AM St unit :=
  data ← ok_or (parse_outgoing tx) invalid_data;
  proof ← ok_or (parse_signature_proof (tx_proof tx)) AccountError.InvalidSerialization;
  match data with
  | Outgoing.DeleteValidator =>
      let validator_address := compute_signer proof in
      push_log (Log.ValidatorFeeDeduction validator_address (tx_fee tx));;
      existing ← get_validator validator_address;
      validator ←
        match existing, receipt with
        | Some validator, _ => mret validator
        | None, Some receipt =>
            receipt ← ok_or (try_from_receipt receipt) AccountError.InvalidSerialization;
            revert_delete_validator validator_address 0 receipt;;
            validator ← get_validator validator_address;
            expect validator
        | None, None => fail AccountError.InvalidReceipt
        end;
      deposit ← add (v_deposit validator) (tx_fee tx);
      let validator := v_set_deposit deposit validator in
      total_stake ← add (v_total_stake validator) (tx_fee tx);
      let validator := v_set_total_stake total_stake validator in
      increase_balance (tx_fee tx);;
      put_validator validator_address validator
  | Outgoing.RemoveStake =>
      let staker_address := compute_signer proof in
      receipt ← take_optional_receipt receipt;
      if_some receipt (fun receipt =>
        push_log (Log.DeleteStaker staker_address (ds_delegation receipt)));;
      with_empty_logger (revert_remove_stake staker_address (tx_fee tx) receipt);;
      push_log (Log.StakerFeeDeduction staker_address (tx_fee tx))
  end;;
  push_log (Log.pay_fee_log tx).

(** ** Inherents *)

Definition set_punished (ps : PunishedSlots) : AM St unit :=
  modify_state (fun x => (sc_set_punished_slots ps x.1, x.2)).

Definition commit_inherent (inherent : Inherent.t) (bs : BlockState)
  : AM St (option AccountReceipt) :=
  match inherent with
  | Inherent.Jail jailed_validator new_epoch_slot_range =>
      receipt ← with_tx_logger
                  (jail_validator (jail_validator_address jailed_validator) (bs_number bs));
      ps ← get_state (fun x : St => sc_punished_slots x.1);
      r ← expect (register_jail ps jailed_validator (bs_number bs) new_epoch_slot_range);
      set_punished r.1;;
      mret (Some (into_receipt
        (mk_jail_receipt (jv_newly_deactivated receipt) r.2.1 r.2.2
           (jv_old_jailed_from receipt))))
  | Inherent.Penalize slot =>
      validator ← expect_validator (pen_validator_address slot);
      let newly_deactivated := is_active validator in
      when newly_deactivated
        (with_tx_logger
           (deactivate_validator (pen_validator_address slot)
              (address_of_key (v_signing_key validator)) (bs_number bs)));;
      ps ← get_state (fun x : St => sc_punished_slots x.1);
      let r := register_penalty ps slot (bs_number bs) in
      set_punished r.1;;
      push_log (Log.Penalize (pen_validator_address slot) (pen_offense_event_block slot)
                  (pen_slot slot) newly_deactivated);;
      mret (Some (into_receipt (mk_penalize_receipt newly_deactivated r.2.1 r.2.2)))
  | Inherent.FinalizeBatch =>
      ps ← get_state (fun x : St => sc_punished_slots x.1);
      active ← get_state (fun x : St => sc_active_validators x.1);
      ps ← expect (finalize_batch ps (bs_number bs) active);
      set_punished ps;;
      mret None
  | Inherent.FinalizeEpoch => mret None
  | Inherent.Reward _ _ _ => fail AccountError.InvalidForTarget
  | Inherent.VersionUpgrade new_version =>
      with_tx_logger
        (deactivate_unsupporting_validators (fun data => supports_upgrade data new_version)
           (bs_number bs));;
      mret None
  end.

Definition revert_inherent (inherent : Inherent.t) (receipt : option AccountReceipt)
  : AM St unit :=
  match inherent with
  | Inherent.Jail jailed_validator _ =>
      receipt ← take_receipt receipt;
      ps ← get_state (fun x : St => sc_punished_slots x.1);
      set_punished (revert_register_jail ps jailed_validator
                      (jr_old_previous_batch_punished_slots receipt)
                      (jr_old_current_batch_punished_slots receipt));;
      with_tx_logger
        (revert_jail_validator (jail_validator_address jailed_validator)
           (jail_validator_receipt_from receipt))
  | Inherent.Penalize slot =>
      receipt ← take_receipt receipt;
      ps ← get_state (fun x : St => sc_punished_slots x.1);
      ps ← expect (revert_register_penalty ps slot (pr_newly_punished_previous_batch receipt)
                     (pr_newly_punished_current_batch receipt));
      set_punished ps;;
      push_log (Log.Penalize (pen_validator_address slot) (pen_offense_event_block slot)
                  (pen_slot slot) (pr_newly_deactivated receipt));;
      when (pr_newly_deactivated receipt)
        (with_tx_logger (revert_deactivate_validator (pen_validator_address slot)))
  | Inherent.FinalizeBatch | Inherent.FinalizeEpoch | Inherent.VersionUpgrade _ =>
      fail AccountError.InvalidForTarget
  | Inherent.Reward _ _ _ => fail AccountError.InvalidForTarget
  end.
End StakingContract.
