(* ===== verification/StakingInv.v ===== *)
(** * Invariant of the staking contract

    The contract keeps derived data next to its primary data: every validator
    carries the total stake delegated to it and the number of its stakers,
    deleted validators leave tombstones with the same sums, the active
    validators are listed with their stakes, and the contract's balance is the
    sum of all deposits and staker balances.  [WF] says that the derived data is
    exact, together with the invariants stated in the comments of
    [validator.rs] and [staker.rs].  [books_determined] shows that the derived
    data is a function of the primary data; the theorems on reverts follow
    from it. *)

From S2P Require Import Prelude Coin Policy BitSet AccountTypes PunishedSlots StakingTypes.
From S2P Require Import ValidatorOps StakerOps.

(** ** The books of one validator address *)

(** The part of a validator that delegations do not change. *)
Definition strip (v : Validator) : Validator := v_set_num_stakers 0 (v_set_total_stake 0 v).
Definition static (vals : gmap Z Validator) : gmap Z Validator := strip <$> vals.

(** The entries of one address when [n] stakers delegate [a] coins to it. *)
Definition book_ok (n a : Z) (act : option Z) (val : option Validator) (tomb : option Tombstone)
  : Prop :=
  0 <= n /\ 0 <= a /\ (n = 0 -> a = 0) /\
  match val with
  | Some v =>
      v_total_stake v = v_deposit v + a /\ v_num_stakers v = n /\ tomb = None /\
      act = (if is_active v then Some (v_total_stake v) else None)
  | None => act = None /\ tomb = (if n =? 0 then None else Some (mk_tombstone a n))
  end.

Definition books_ok (n a : Z -> Z) (act : gmap Z Z) (vals : gmap Z Validator)
    (tomb : gmap Z Tombstone) : Prop :=
  forall v, book_ok (n v) (a v) (act !! v) (vals !! v) (tomb !! v).

(** [f] changed by [d] at the address [o], if any. *)
Definition upd (f : Z -> Z) (o : option Z) (d : Z) : Z -> Z :=
  fun w => if decide (o = Some w) then f w + d else f w.

Lemma upd_eq f v d : upd f (Some v) d v = f v + d.
Proof. unfold upd. by rewrite decide_True. Qed.
Lemma upd_ne f v d w : w <> v -> upd f (Some v) d w = f w.
Proof. intros. unfold upd. rewrite decide_False; [done|congruence]. Qed.

Lemma strip_eq v1 v2 :
  strip v1 = strip v2 -> v_total_stake v1 = v_total_stake v2 ->
  v_num_stakers v1 = v_num_stakers v2 -> v1 = v2.
Proof. destruct v1, v2. unfold strip. simpl. intros. by simplify_eq. Qed.

Lemma is_active_strip v : is_active (strip v) = is_active v.
Proof. done. Qed.

Lemma static_lookup vals vals' v :
  static vals' = static vals -> strip <$> vals' !! v = strip <$> vals !! v.
Proof. intros Hs. unfold static in Hs. by rewrite <-!lookup_fmap, Hs. Qed.

Lemma static_is_Some vals vals' v :
  static vals' = static vals -> is_Some (vals !! v) -> is_Some (vals' !! v).
Proof.
  intros Hs%(static_lookup _ _ v) Hv. destruct (vals !! v), (vals' !! v); simpl in *;
    destruct Hv; naive_solver.
Qed.

Lemma static_insert_same vals v val val' :
  vals !! v = Some val -> strip val' = strip val -> static (<[v:=val']> vals) = static vals.
Proof.
  intros Hv He. unfold static. rewrite fmap_insert, He, insert_id; [done|].
  by rewrite lookup_fmap, Hv.
Qed.

Lemma book_determined n a act val tomb act' val' tomb' :
  book_ok n a act val tomb -> book_ok n a act' val' tomb' -> strip <$> val = strip <$> val' ->
  act = act' /\ val = val' /\ tomb = tomb'.
Proof.
  intros (_ & _ & _ & H1) (_ & _ & _ & H2) He.
  destruct val as [v|], val' as [v'|]; simpl in He; try discriminate; try apply (inj Some) in He.
  - destruct H1 as (T1 & N1 & -> & ->), H2 as (T2 & N2 & -> & ->).
    assert (v_deposit v = v_deposit v') by exact (f_equal v_deposit He).
    assert (v = v') as -> by (apply strip_eq; [done|lia..]). done.
  - by destruct H1 as [-> ->], H2 as [-> ->].
Qed.

(** The derived data is determined by the delegations and the static part of
    the validators. *)
Lemma books_determined n a act vals tomb act' vals' tomb' :
  books_ok n a act vals tomb -> books_ok n a act' vals' tomb' -> static vals = static vals' ->
  act = act' /\ vals = vals' /\ tomb = tomb'.
Proof.
  intros H1 H2 Hs.
  assert (Hv : forall v, act !! v = act' !! v /\ vals !! v = vals' !! v /\ tomb !! v = tomb' !! v).
  { intros v. eapply book_determined; [apply H1|apply H2|]. by apply static_lookup. }
  split_and!; apply map_eq; intros v; apply Hv.
Qed.

Lemma books_ext n a n' a' act vals tomb :
  (forall v, n v = n' v) -> (forall v, a v = a' v) ->
  books_ok n a act vals tomb -> books_ok n' a' act vals tomb.
Proof. intros Hn Ha Hb v. rewrite <-Hn, <-Ha. apply Hb. Qed.

(** Changing the entries of one address. *)
Lemma books_at v n a n' a' act vals tomb act' vals' tomb' :
  books_ok n a act vals tomb ->
  book_ok (n' v) (a' v) (act' !! v) (vals' !! v) (tomb' !! v) ->
  (forall w, w <> v -> n' w = n w /\ a' w = a w /\ act' !! w = act !! w /\
     vals' !! w = vals !! w /\ tomb' !! w = tomb !! w) ->
  books_ok n' a' act' vals' tomb'.
Proof.
  intros Hb Hv Hw w. destruct (decide (w = v)) as [->|Hne]; [done|].
  destruct (Hw w Hne) as (-> & -> & -> & -> & ->). apply Hb.
Qed.

(** The contract state, field by field. *)
Abbreviation mk_st bal act pun vals stk tomb :=
  (mk_staking_contract bal act pun, mk_store vals stk tomb).

Ltac solve_elsewhere :=
  intros; rewrite ?upd_ne by done;
  rewrite ?lookup_insert_ne, ?lookup_delete_ne by done; by split_and!.

(** ** Bookkeeping operations *)

Section Bookkeeping.
Context {n a : Z -> Z} {bal : Z} {act : gmap Z Z} {pun : PunishedSlots}.
Context {vals : gmap Z Validator} {stk : gmap Z Staker} {tomb : gmap Z Tombstone}.
Context {lg : list Log.t}.
Context {Q : unit -> St * list Log.t -> Prop} {QE : AccountError.t -> St * list Log.t -> Prop}.

(** After the operation the books are those of [n'] and [a'], and nothing else
    has changed. *)
Definition rebooked (n' a' : Z -> Z) : Prop :=
  forall act' vals' tomb', books_ok n' a' act' vals' tomb' -> static vals' = static vals ->
    Q tt (mk_st bal act' pun vals' stk tomb', lg).

Lemma wp_register v can_create :
  books_ok n a act vals tomb -> n v + 1 <= max_value 64 ->
  can_create = true \/ is_Some (vals !! v) \/ 0 < n v ->
  rebooked (upd n (Some v) 1) a ->
  wp (register_staker_on_validator v can_create) Q QE (mk_st bal act pun vals stk tomb, lg).
Proof.
  intros Hb Hmax Hex HQ. destruct (Hb v) as (Hn & Ha & Hz & Hv).
  unfold register_staker_on_validator, get_validator. apply wp_bind, wp_get_state. simpl.
  destruct (vals !! v) as [val|] eqn:Hval.
  - destruct Hv as (Ht & Hns & Htomb & Hact). apply wp_modify_state, HQ.
    + eapply (books_at v); [done| |solve_elsewhere].
      rewrite upd_eq, lookup_insert_eq, wrap_small by (unfold in_width; lia).
      split_and!; [lia..|done|simpl; lia|done|done].
    + by eapply static_insert_same.
  - destruct Hv as [Hact Htomb]. unfold get_tombstone. apply wp_bind, wp_get_state. simpl.
    destruct (Z.eqb_spec (n v) 0) as [Hn0|Hn0]; rewrite Htomb.
    + destruct can_create; [|exfalso; destruct Hex as [?|[[? ?]|?]]; [done|done|lia]].
      apply wp_modify_state, HQ; [|done]. simpl.
      eapply (books_at v); [done| |solve_elsewhere].
      rewrite upd_eq, lookup_insert_eq, Hn0, Hz, Hval by done. split_and!; done || lia.
    + apply wp_modify_state, HQ; [|done]. simpl.
      eapply (books_at v); [done| |solve_elsewhere].
      rewrite upd_eq, lookup_insert_eq, Hval, wrap_small by (unfold in_width; lia).
      split_and!; [lia..|done|]. by rewrite (proj2 (Z.eqb_neq (n v + 1) 0)) by lia.
Qed.

Lemma wp_unregister v :
  books_ok n a act vals tomb -> 1 <= n v <= max_value 64 -> (n v = 1 -> a v = 0) ->
  rebooked (upd n (Some v) (-1)) a ->
  wp (unregister_staker_from_validator v) Q QE (mk_st bal act pun vals stk tomb, lg).
Proof.
  intros Hb Hn1 Hlast HQ. destruct (Hb v) as (Hn & Ha & Hz & Hv).
  unfold unregister_staker_from_validator, get_validator. apply wp_bind, wp_get_state. simpl.
  destruct (vals !! v) as [val|] eqn:Hval.
  - destruct Hv as (Ht & Hns & Htomb & Hact). apply wp_modify_state, HQ.
    + eapply (books_at v); [done| |solve_elsewhere].
      rewrite upd_eq, lookup_insert_eq, wrap_small by (unfold in_width; lia).
      split_and!; [lia..|done|simpl; lia|done|done].
    + by eapply static_insert_same.
  - destruct Hv as [Hact Htomb]. unfold get_tombstone. apply wp_bind, wp_get_state. simpl.
    rewrite (proj2 (Z.eqb_neq (n v) 0)) in Htomb by lia. rewrite Htomb.
    simpl. rewrite wrap_small by (unfold in_width; lia).
    destruct (Z.eqb_spec (n v - 1) 0) as [Hn0|Hn0]; apply wp_modify_state, HQ; try done;
      simpl; (eapply (books_at v); [done| |solve_elsewhere]); rewrite upd_eq, Hval.
    + rewrite lookup_delete_eq. split_and!; [lia..|done|].
      by rewrite (proj2 (Z.eqb_eq (n v + -1) 0)) by lia.
    + rewrite lookup_insert_eq. split_and!; [lia..|done|].
      by rewrite (proj2 (Z.eqb_neq (n v + -1) 0)) by lia.
Qed.

(** Changing the stake of a validator, or of a tombstone, by [d]. *)
Lemma books_validator_stake v val d :
  books_ok n a act vals tomb -> vals !! v = Some val -> 0 < n v -> 0 <= a v + d ->
  let val' := v_set_total_stake (v_total_stake val + d) val in
  books_ok n (upd a (Some v) d)
    (if is_active val then <[v := v_total_stake val']> act else act) (<[v := val']> vals) tomb /\
  static (<[v := val']> vals) = static vals.
Proof.
  intros Hb Hval Hnv Hd. split; [|by eapply static_insert_same].
  destruct (Hb v) as (Hn & Ha & Hz & Hv). rewrite Hval in Hv.
  destruct Hv as (Ht & Hns & Htomb & Hact).
  eapply (books_at v); [done| |destruct (is_active val); solve_elsewhere].
  rewrite upd_eq, lookup_insert_eq. split_and!; [lia..|simpl; lia|done|done|].
  change (is_active (v_set_total_stake _ val)) with (is_active val).
  destruct (is_active val); [by rewrite lookup_insert_eq|done].
Qed.

Lemma books_tombstone_stake v t d :
  books_ok n a act vals tomb -> vals !! v = None -> tomb !! v = Some t -> 0 <= a v + d ->
  t_remaining_stake t = a v /\
  books_ok n (upd a (Some v) d) act vals
    (<[v := mk_tombstone (t_remaining_stake t + d) (t_num_remaining_stakers t)]> tomb).
Proof.
  intros Hb Hval Ht Hd. destruct (Hb v) as (Hn & Ha & Hz & Hv). rewrite Hval, Ht in Hv.
  destruct Hv as [Hact Htomb]. destruct (Z.eqb_spec (n v) 0) as [|Hn0]; simplify_eq.
  split; [done|]. eapply (books_at v); [done| |solve_elsewhere].
  rewrite upd_eq, lookup_insert_eq, Hval. split_and!; [lia..|done|].
  by rewrite (proj2 (Z.eqb_neq (n v) 0)) by lia.
Qed.

(** With delegators there is a validator or a tombstone. *)
Lemma books_entry v : books_ok n a act vals tomb -> 0 < n v ->
  (exists val, vals !! v = Some val /\ v_total_stake val = v_deposit val + a v) \/
  (vals !! v = None /\ tomb !! v = Some (mk_tombstone (a v) (n v))).
Proof.
  intros Hb Hnv. destruct (Hb v) as (_ & _ & _ & Hv). destruct (vals !! v) as [val|].
  - left. exists val. naive_solver.
  - right. split; [done|]. destruct Hv as [_ ->].
    by rewrite (proj2 (Z.eqb_neq (n v) 0)) by lia.
Qed.

Lemma wp_increase v x :
  books_ok n a act vals tomb -> 0 <= x -> 0 < n v ->
  (forall val, vals !! v = Some val ->
     0 <= v_deposit val /\ v_deposit val + a v + x <= MAX_SAFE_VALUE) ->
  a v + x <= MAX_SAFE_VALUE ->
  rebooked n (upd a (Some v) x) ->
  wp (increase_stake_to_validator v x) Q QE (mk_st bal act pun vals stk tomb, lg).
Proof.
  intros Hb Hx Hnv Hmax Hmax' HQ. destruct (Hb v) as (_ & Ha & _).
  unfold increase_stake_to_validator, get_validator. apply wp_bind, wp_get_state. simpl.
  destruct (books_entry v Hb Hnv) as [(val & Hval & Ht)|[Hval Htomb]]; rewrite Hval.
  - destruct (Hmax _ Hval) as [Hd Hmx]. apply wp_bind, wp_add; [lia..|]. apply wp_bind.
    destruct (books_validator_stake v val x Hb Hval Hnv ltac:(lia)) as [Hb' Hs'].
    change (is_active (v_set_total_stake _ val)) with (is_active val).
    destruct (is_active val); apply wp_modify_state; by apply HQ.
  - unfold get_tombstone. apply wp_bind, wp_get_state. simpl. rewrite Htomb. simpl.
    destruct (books_tombstone_stake v _ x Hb Hval Htomb ltac:(lia)) as [_ Hb'].
    apply wp_bind, wp_add; [lia..|]. apply wp_modify_state. by apply HQ.
Qed.

Lemma wp_decrease v x :
  books_ok n a act vals tomb -> 0 <= x <= a v -> 0 < n v ->
  (forall val, vals !! v = Some val ->
     0 <= v_deposit val /\ v_deposit val + a v <= MAX_SAFE_VALUE) ->
  a v <= MAX_SAFE_VALUE ->
  rebooked n (upd a (Some v) (- x)) ->
  wp (decrease_stake_from_validator v x) Q QE (mk_st bal act pun vals stk tomb, lg).
Proof.
  intros Hb Hx Hnv Hmax Hmax' HQ.
  unfold decrease_stake_from_validator, get_validator. apply wp_bind, wp_get_state. simpl.
  destruct (books_entry v Hb Hnv) as [(val & Hval & Ht)|[Hval Htomb]]; rewrite Hval.
  - destruct (Hmax _ Hval) as [Hd Hmx]. apply wp_bind, wp_sub; [lia..|]. apply wp_bind.
    destruct (books_validator_stake v val (- x) Hb Hval Hnv ltac:(lia)) as [Hb' Hs'].
    change (is_active (v_set_total_stake _ val)) with (is_active val).
    destruct (is_active val); apply wp_modify_state; by apply HQ.
  - unfold get_tombstone. apply wp_bind, wp_get_state. simpl. rewrite Htomb. simpl.
    destruct (books_tombstone_stake v _ (- x) Hb Hval Htomb ltac:(lia)) as [_ Hb'].
    apply wp_bind, wp_sub; [lia..|]. apply wp_modify_state. by apply HQ.
Qed.
End Bookkeeping.

(** ** Operations on an optional delegation

    [fits n a vals d]: counters and stakes are below their limits, with room for
    [d] more coins. *)
Definition fits (n a : Z -> Z) (vals : gmap Z Validator) (d : Z) : Prop :=
  forall v, n v + 1 <= max_value 64 /\ a v + d <= MAX_SAFE_VALUE /\
    forall val, vals !! v = Some val ->
      0 <= v_deposit val /\ v_deposit val + a v + d <= MAX_SAFE_VALUE.

Lemma static_deposit vals vals' v val' :
  static vals' = static vals -> vals' !! v = Some val' ->
  exists val, vals !! v = Some val /\ v_deposit val = v_deposit val'.
Proof.
  intros Hs%(static_lookup _ _ v) Hv. rewrite Hv in Hs.
  destruct (vals !! v) as [val|]; [|done]. exists val. split; [done|].
  apply (inj Some) in Hs. symmetry. exact (f_equal v_deposit Hs).
Qed.

Lemma fits_mono n a vals d n' a' vals' d' :
  fits n a vals d -> static vals' = static vals -> (forall v, n' v <= n v) ->
  (forall v, a' v + d' <= a v + d) -> fits n' a' vals' d'.
Proof.
  intros Hf Hs Hn Ha v. destruct (Hf v) as (H1 & H2 & H3). specialize (Hn v). specialize (Ha v).
  split_and!; [lia..|]. intros val' Hv'.
  destruct (static_deposit _ _ _ _ Hs Hv') as (val & Hv & He). destruct (H3 _ Hv). lia.
Qed.

Section Delegation.
Context {n a : Z -> Z} {bal : Z} {act : gmap Z Z} {pun : PunishedSlots}.
Context {vals : gmap Z Validator} {stk : gmap Z Staker} {tomb : gmap Z Tombstone}.
Context {lg : list Log.t}.
Context {Q : unit -> St * list Log.t -> Prop} {QE : AccountError.t -> St * list Log.t -> Prop}.
Hypothesis Hb : books_ok n a act vals tomb.

Local Abbreviation rebook n' a' :=
  (@rebooked bal pun vals stk lg Q n' a').
Local Abbreviation start := (mk_st bal act pun vals stk tomb, lg).

Lemma rebooked_ext n1 a1 n2 a2 :
  (forall v, n1 v = n2 v) -> (forall v, a1 v = a2 v) -> rebook n1 a1 -> rebook n2 a2.
Proof.
  intros Hn Ha HQ act' vals' tomb' Hb' Hs'. apply HQ; [|done].
  by eapply books_ext; [..|exact Hb'].
Qed.

Lemma rebooked_id : rebook n a -> Q tt start.
Proof. intros HQ. by apply HQ. Qed.

Lemma wp_register_opt o can_create d :
  fits n a vals d ->
  (forall v, o = Some v -> can_create = true \/ is_Some (vals !! v) \/ 0 < n v) ->
  rebook (upd n o 1) a ->
  wp (if_some o (fun v => register_staker_on_validator v can_create)) Q QE start.
Proof.
  intros Hf Hex HQ. destruct o as [v|]; simpl; [|by apply wp_ret, HQ].
  eapply wp_register; [exact Hb|apply Hf|by apply Hex|done].
Qed.

Lemma wp_unregister_opt o d :
  fits n a vals d -> (forall v, o = Some v -> 1 <= n v /\ (n v = 1 -> a v = 0)) ->
  rebook (upd n o (-1)) a ->
  wp (if_some o unregister_staker_from_validator) Q QE start.
Proof.
  intros Hf Hex HQ. destruct o as [v|]; simpl; [|by apply wp_ret, HQ].
  destruct (Hex v eq_refl), (Hf v). eapply wp_unregister; [exact Hb|lia|done|done].
Qed.

Lemma wp_decrease_opt o x :
  fits n a vals 0 -> 0 <= x -> (forall v, o = Some v -> x <= a v /\ 0 < n v) ->
  rebook n (upd a o (- x)) ->
  wp (if_some o (fun v => decrease_stake_from_validator v x)) Q QE start.
Proof.
  intros Hf Hx Hex HQ. destruct o as [v|]; simpl; [|by apply wp_ret, HQ].
  destruct (Hex v eq_refl), (Hf v) as (? & ? & Hd).
  eapply wp_decrease; [exact Hb|lia|lia| |lia|done].
  intros val Hval. destruct (Hd val Hval). lia.
Qed.

Lemma wp_increase_opt o x :
  fits n a vals x -> 0 <= x -> (forall v, o = Some v -> 0 < n v) ->
  rebook n (upd a o x) ->
  wp (if_some o (fun v => increase_stake_to_validator v x)) Q QE start.
Proof.
  intros Hf Hx Hex HQ. destruct o as [v|]; simpl; [|by apply wp_ret, HQ].
  destruct (Hf v) as (? & ? & Hd).
  eapply wp_increase; [exact Hb|lia|by apply Hex|done|lia|done].
Qed.
End Delegation.

Section Delegation2.
Context {n a : Z -> Z} {bal : Z} {act : gmap Z Z} {pun : PunishedSlots}.
Context {vals : gmap Z Validator} {stk : gmap Z Staker} {tomb : gmap Z Tombstone}.
Context {lg : list Log.t}.
Context {Q : unit -> St * list Log.t -> Prop} {QE : AccountError.t -> St * list Log.t -> Prop}.
Hypothesis Hb : books_ok n a act vals tomb.

Local Abbreviation rebook n' a' :=
  (@rebooked bal pun vals stk lg Q n' a').
Local Abbreviation start := (mk_st bal act pun vals stk tomb, lg).

(** The check that a new delegation names an existing validator. *)
Lemma wp_check_delegation o :
  ((forall v, o = Some v -> is_Some (vals !! v)) -> Q tt start) -> (forall e, QE e start) ->
  wp (if_some o (fun v => expect_validator v;; mret tt)) Q QE start.
Proof.
  intros HQ HE. destruct o as [v|]; simpl; [|by apply wp_ret, HQ].
  apply wp_bind. unfold expect_validator, get_validator. apply wp_bind, wp_get_state. simpl.
  apply wp_ok_or; [|by intros; apply HE]. intros val Hval. apply wp_ret, HQ.
  intros v' [= <-]. by exists val.
Qed.

(** Registering a staker and adding its stake, if there is any. *)
Lemma wp_delegate o x (b : bool) :
  fits n a vals x -> 0 <= x -> (forall v, o = Some v -> is_Some (vals !! v)) ->
  (b = false -> x = 0) -> rebook (upd n o 1) (upd a o x) ->
  wp (if_some o (fun v =>
        register_staker_on_validator v false;;
        when b (increase_stake_to_validator v x))) Q QE start.
Proof.
  intros Hf Hx Hex Hz HQ. destruct o as [v|]; simpl; [|by apply wp_ret, HQ].
  destruct (Hf v) as (Hn1 & Ha1 & Hd1). destruct (Hb v) as (Hn & Ha & _).
  apply wp_bind. eapply wp_register; [exact Hb|done|by right; left; apply Hex|].
  intros act' vals' tomb' Hb' Hs'. destruct b; simpl.
  - eapply wp_increase; [exact Hb'|done|rewrite upd_eq; lia| |lia|].
    + intros val' Hv'. destruct (static_deposit _ _ _ _ Hs' Hv') as (val & Hv & He).
      destruct (Hd1 _ Hv). lia.
    + intros act2 vals2 tomb2 Hb2 Hs2. apply HQ; [done|congruence].
  - apply wp_ret, HQ; [|done]. rewrite Hz by done.
    eapply books_ext; [..|exact Hb']; [done|]. intros w. unfold upd. case_decide; lia.
Qed.

(** Adding stake to the delegation, which must still exist. *)
Lemma wp_increase_existing o x :
  fits n a vals x -> 0 <= x -> (forall v, o = Some v -> 0 < n v) -> (forall e, QE e start) ->
  rebook n (upd a o x) ->
  wp (if_some o (fun v => expect_validator v;; increase_stake_to_validator v x)) Q QE start.
Proof.
  intros Hf Hx Hex HE HQ. destruct o as [v|]; simpl; [|by apply wp_ret, HQ].
  apply wp_bind. unfold expect_validator, get_validator. apply wp_bind, wp_get_state. simpl.
  apply wp_ok_or; [|by intros; apply HE]. intros val Hval.
  destruct (Hf v) as (? & ? & Hd).
  eapply wp_increase; [exact Hb|lia|by apply Hex|done|lia|done].
Qed.

(** Taking the stake of a staker away, if there is any, and unregistering it. *)
Lemma wp_undelegate o x (b : bool) :
  fits n a vals 0 -> 0 <= x ->
  (forall v, o = Some v -> x <= a v /\ 1 <= n v /\ (n v = 1 -> a v = x)) ->
  (b = false -> x = 0) -> rebook (upd n o (-1)) (upd a o (- x)) ->
  wp (if_some o (fun v =>
        when b (decrease_stake_from_validator v x);;
        unregister_staker_from_validator v)) Q QE start.
Proof.
  intros Hf Hx Hex Hz HQ. destruct o as [v|]; simpl; [|by apply wp_ret, HQ].
  destruct (Hf v) as (Hn1 & Ha1 & Hd1). destruct (Hb v) as (Hn & Ha & _).
  destruct (Hex v eq_refl) as (Hxa & Hnv & Hlast). apply wp_bind. destruct b; simpl.
  - eapply wp_decrease; [exact Hb|lia|lia| |lia|].
    { intros val Hval. destruct (Hd1 val Hval). lia. }
    intros act' vals' tomb' Hb' Hs'.
    eapply wp_unregister; [exact Hb'|lia| |].
    + rewrite upd_eq. intros. rewrite Hlast by done. lia.
    + intros act2 vals2 tomb2 Hb2 Hs2. apply HQ; [done|congruence].
  - rewrite Hz in * by done. apply wp_ret. eapply wp_unregister; [exact Hb|lia|done|].
    eapply rebooked_ext; [..|exact HQ]; [done|]. intros w. unfold upd. case_decide; lia.
Qed.

Lemma wp_update_stake_opt o x y :
  fits n a vals (Z.max 0 (y - x)) -> 0 <= x <= MAX_SAFE_VALUE -> 0 <= y <= MAX_SAFE_VALUE ->
  (forall v, o = Some v -> x <= a v /\ 0 < n v) ->
  rebook n (upd a o (y - x)) ->
  wp (if_some o (fun v => update_stake_for_validator v x y)) Q QE start.
Proof.
  intros Hf Hx Hy Hex HQ. destruct o as [v|]; simpl; [|by apply wp_ret, HQ].
  destruct (Hex v eq_refl) as [Hxa Hnv]. destruct (Hf v) as (Hn1 & Ha1 & Hd1).
  unfold update_stake_for_validator. destruct (Z.compare_spec y x) as [->|Hlt|Hgt].
  - apply wp_ret. apply (rebooked_id Hb). eapply rebooked_ext; [..|exact HQ]; [done|].
    intros w. unfold upd. case_decide; lia.
  - apply wp_bind, wp_sub; [lia..|]. eapply wp_decrease; [exact Hb|lia|lia| |lia|].
    + intros val Hval. destruct (Hd1 val Hval). lia.
    + eapply rebooked_ext; [..|exact HQ]; [done|]. intros w. unfold upd. case_decide; lia.
  - apply wp_bind, wp_sub; [lia..|]. eapply wp_increase; [exact Hb|lia|lia| |lia|done].
    intros val Hval. destruct (Hd1 val Hval). lia.
Qed.
End Delegation2.

(** ** Delegations *)

Definition stake_of (v : Z) (s : Staker) : Z :=
  if decide (s_delegation s = Some v) then s_active_balance s else 0.
Definition delegates_to (v : Z) (s : Staker) : Z :=
  if decide (s_delegation s = Some v) then 1 else 0.

(** The active stake delegated to [v] and the number of its stakers. *)
Definition staked (stk : gmap Z Staker) (v : Z) : Z := map_sum (stake_of v) stk.
Definition delegators (stk : gmap Z Staker) (v : Z) : Z := map_sum (delegates_to v) stk.

Definition staker_total (s : Staker) : Z :=
  s_active_balance s + s_inactive_balance s + s_retired_balance s.

(** The invariants 1 to 4 of [staker.rs]; a stored staker has a balance. *)
Record staker_ok (k : Z) (s : Staker) : Prop := {
  staker_address_ok : s_address s = k;
  staker_nonneg : 0 <= s_active_balance s /\ 0 <= s_inactive_balance s /\ 0 <= s_retired_balance s;
  staker_min_non_retired : s_active_balance s + s_inactive_balance s = 0 \/
                           MINIMUM_STAKE <= s_active_balance s + s_inactive_balance s;
  staker_min_total : MINIMUM_STAKE <= staker_total s;
  staker_inactive : s_inactive_from s = None <-> s_inactive_balance s = 0;
}.

Section Invariant.
Context `{P : Policy}.

(** The invariants 1 and 2 of [validator.rs] at block [bn]. *)
Record validator_ok (bn k : Z) (v : Validator) : Prop := {
  validator_address_ok : v_address v = k;
  validator_deposit_ok : 0 <= v_deposit v;
  validator_retired_ok : v_retired v = true -> v_inactive_from v <> None;
  validator_jailed_ok : is_jailed v bn = true -> v_inactive_from v <> None;
}.

Record WF (bn : Z) (x : St) : Prop := {
  wf_books : books_ok (delegators (stakers x.2)) (staked (stakers x.2))
               (sc_active_validators x.1) (validators x.2) (tombstones x.2);
  wf_balance : sc_balance x.1 = map_sum v_deposit (validators x.2)
                                + map_sum staker_total (stakers x.2);
  wf_max : sc_balance x.1 <= MAX_SAFE_VALUE;
  wf_validators : forall k v, validators x.2 !! k = Some v -> validator_ok bn k v;
  wf_stakers : forall k s, stakers x.2 !! k = Some s -> staker_ok k s;
  wf_punished : punished_ok (sc_punished_slots x.1);
}.

(** ** Consequences *)

Lemma validator_ok_strip bn k v v' : strip v = strip v' -> validator_ok bn k v -> validator_ok bn k v'.
Proof.
  intros Hs [Ha Hd Hr Hj].
  assert (v_address v = v_address v') as Ha' by exact (f_equal v_address Hs).
  assert (v_deposit v = v_deposit v') as Hd' by exact (f_equal v_deposit Hs).
  assert (v_retired v = v_retired v') as Hr' by exact (f_equal v_retired Hs).
  assert (v_inactive_from v = v_inactive_from v') as Hi' by exact (f_equal v_inactive_from Hs).
  assert (is_jailed v bn = is_jailed v' bn) as Hj' by exact (f_equal (fun v => is_jailed v bn) Hs).
  split; rewrite <-?Ha', <-?Hd', <-?Hr', <-?Hi', <-?Hj'; done.
Qed.

Lemma validator_ok_static bn vals vals' :
  static vals' = static vals -> (forall k v, vals !! k = Some v -> validator_ok bn k v) ->
  forall k v, vals' !! k = Some v -> validator_ok bn k v.
Proof.
  intros Hs Hok k v Hv. pose proof (static_lookup _ _ k Hs) as Hk. rewrite Hv in Hk.
  destruct (vals !! k) as [v0|] eqn:Hv0; simpl in Hk; [|done].
  apply (validator_ok_strip bn k v0); [congruence|eauto].
Qed.

Lemma deposits_static vals : map_sum v_deposit (static vals) = map_sum v_deposit vals.
Proof.
  unfold static. induction vals as [|k v vals Hk IH] using map_ind.
  - by rewrite fmap_empty.
  - rewrite fmap_insert, !map_sum_insert_fresh, IH by (rewrite ?lookup_fmap, ?Hk; done). done.
Qed.

Lemma deposits_static_eq vals vals' :
  static vals' = static vals -> map_sum v_deposit vals' = map_sum v_deposit vals.
Proof. intros Hs. by rewrite <-deposits_static, Hs, deposits_static. Qed.

Lemma staker_total_min k s : staker_ok k s -> 1 <= staker_total s.
Proof. intros [_ _ _ Hm _]. unfold MINIMUM_STAKE in Hm. lia. Qed.

Section Facts.
Context {bn bal : Z} {act : gmap Z Z} {pun : PunishedSlots}.
Context {vals : gmap Z Validator} {stk : gmap Z Staker} {tomb : gmap Z Tombstone}.
Hypothesis Hwf : WF bn (mk_st bal act pun vals stk tomb).

Lemma wf_stake_nonneg k s v : stk !! k = Some s -> 0 <= stake_of v s.
Proof.
  intros Hk. destruct (wf_stakers _ _ Hwf k s Hk) as [_ Hn _ _ _].
  unfold stake_of. case_decide; lia.
Qed.

Lemma wf_deposit_nonneg k v : vals !! k = Some v -> 0 <= v_deposit v.
Proof. intros Hk. apply (wf_validators _ _ Hwf k v Hk). Qed.

Lemma wf_totals_nonneg : 0 <= map_sum staker_total stk.
Proof.
  apply map_sum_nonneg. intros k s Hk.
  pose proof (staker_total_min k s (wf_stakers _ _ Hwf k s Hk)). lia.
Qed.

Lemma wf_deposits_nonneg : 0 <= map_sum v_deposit vals.
Proof. apply map_sum_nonneg. apply wf_deposit_nonneg. Qed.

Lemma wf_books_eq : books_ok (delegators stk) (staked stk) act vals tomb.
Proof. apply (wf_books _ _ Hwf). Qed.

Lemma wf_balance_eq : bal = map_sum v_deposit vals + map_sum staker_total stk.
Proof. apply (wf_balance _ _ Hwf). Qed.

Lemma wf_balance_nonneg : 0 <= bal.
Proof. pose proof wf_balance_eq. pose proof wf_totals_nonneg. pose proof wf_deposits_nonneg. lia. Qed.

Lemma wf_staked_le v : staked stk v <= map_sum staker_total stk.
Proof.
  apply map_sum_le. intros k s Hk. destruct (wf_stakers _ _ Hwf k s Hk) as [_ Hn _ _ _].
  unfold stake_of, staker_total. case_decide; lia.
Qed.

Lemma wf_delegators_le v : delegators stk v <= map_sum staker_total stk.
Proof.
  apply map_sum_le. intros k s Hk. specialize (wf_stakers _ _ Hwf k s Hk) as Hs.
  apply staker_total_min in Hs. unfold delegates_to. case_decide; lia.
Qed.

(** The stake of a validator, with its deposit, is part of the balance. *)
Lemma wf_total_stake_le v val : vals !! v = Some val -> v_deposit val + staked stk v <= bal.
Proof.
  intros Hv. pose proof (map_sum_entry_le v_deposit vals v wf_deposit_nonneg) as Hd.
  rewrite Hv in Hd. simpl in Hd. pose proof (wf_staked_le v). pose proof wf_balance_eq. lia.
Qed.

Lemma wf_staked_le_balance v : staked stk v <= bal.
Proof. pose proof (wf_staked_le v). pose proof wf_deposits_nonneg. pose proof wf_balance_eq. lia. Qed.

Lemma wf_delegators_max v : delegators stk v + 1 <= max_value 64.
Proof.
  pose proof (wf_delegators_le v). pose proof wf_deposits_nonneg. pose proof wf_balance_eq.
  pose proof (wf_max _ _ Hwf) as Hm. simpl in Hm. unfold MAX_SAFE_VALUE in Hm.
  unfold max_value. lia.
Qed.

Lemma wf_staker_le_balance k s : stk !! k = Some s -> staker_total s <= bal.
Proof.
  intros Hk. assert (staker_total s <= map_sum staker_total stk) as Hle.
  { assert (Hn : forall k s, stk !! k = Some s -> 0 <= staker_total s).
    { intros k' s' Hk'. specialize (wf_stakers _ _ Hwf k' s' Hk') as Hs'.
      apply staker_total_min in Hs'. lia. }
    pose proof (map_sum_entry_le staker_total stk k Hn) as He. by rewrite Hk in He. }
  pose proof wf_deposits_nonneg. pose proof wf_balance_eq. lia.
Qed.

(** The active stake of a delegator is part of the stake of its validator. *)
Lemma wf_active_le k s v :
  stk !! k = Some s -> s_delegation s = Some v -> s_active_balance s <= staked stk v.
Proof.
  intros Hk Hd.
  pose proof (map_sum_entry_le (stake_of v) stk k (fun k s => wf_stake_nonneg k s v)) as He.
  rewrite Hk in He. simpl in He. unfold stake_of in He at 1. by rewrite decide_True in He.
Qed.

Lemma delegates_nonneg v s : 0 <= delegates_to v s.
Proof. unfold delegates_to. case_decide; lia. Qed.

Lemma wf_delegators_pos k s v :
  stk !! k = Some s -> s_delegation s = Some v -> 1 <= delegators stk v.
Proof.
  intros Hk Hd. pose proof (map_sum_entry_le (delegates_to v) stk k
    (fun k s _ => delegates_nonneg v s)) as He.
  rewrite Hk in He. simpl in He. unfold delegates_to in He at 1. by rewrite decide_True in He.
Qed.

(** The only delegator of a validator owns all of its stake. *)
Lemma wf_last_delegator k s v :
  stk !! k = Some s -> s_delegation s = Some v -> delegators stk v = 1 ->
  staked stk v = s_active_balance s.
Proof.
  intros Hk Hd Hn.
  pose proof (map_sum_delete (delegates_to v) stk k) as H1.
  pose proof (map_sum_delete (stake_of v) stk k) as H2.
  rewrite Hk in H1, H2. simpl in H1, H2.
  unfold delegates_to in H1 at 3. unfold stake_of in H2 at 3. rewrite decide_True in H1, H2 by done.
  assert (map_sum (stake_of v) (delete k stk) = 0) as Hz.
  { rewrite (map_sum_ext _ (fun _ => 0)).
    - apply Z.le_antisymm.
      + etrans; [apply (map_sum_le _ (delegates_to v))|unfold delegators in Hn; lia].
        intros. apply delegates_nonneg.
      + apply map_sum_nonneg. done.
    - intros k' s' Hk'.
      pose proof (map_sum_zero_entry (delegates_to v) (delete k stk) k'
        (fun k s _ => delegates_nonneg v s)) as Hz.
      unfold delegators in Hn. rewrite Hk' in Hz. simpl in Hz.
      unfold delegates_to in Hz at 2. unfold stake_of.
      case_decide; [|done]. specialize (Hz ltac:(lia)). lia. }
  unfold staked. lia.
Qed.

Lemma wf_delegator k s v :
  stk !! k = Some s -> s_delegation s = Some v ->
  s_active_balance s <= staked stk v /\ 1 <= delegators stk v /\
  (delegators stk v = 1 -> staked stk v = s_active_balance s).
Proof.
  intros Hk Hd. split_and!; [by eapply wf_active_le|by eapply wf_delegators_pos|].
  by eapply wf_last_delegator.
Qed.
End Facts.

(** Counters and stakes have room for [d] coins when the balance has. *)
Lemma wf_fits {bn bal act pun vals stk tomb} d :
  WF bn (mk_st bal act pun vals stk tomb) -> bal + d <= MAX_SAFE_VALUE ->
  fits (delegators stk) (staked stk) vals d.
Proof.
  intros Hwf Hd v. split_and!.
  - apply (wf_delegators_max Hwf).
  - pose proof (wf_staked_le_balance Hwf v). lia.
  - intros val Hval. split; [by apply (wf_deposit_nonneg Hwf v)|].
    pose proof (wf_total_stake_le Hwf v val Hval). lia.
Qed.

(** A staker's own coins can become stake of its validator. *)
Lemma wf_fits_own {bn bal act pun vals stk tomb} k s d :
  WF bn (mk_st bal act pun vals stk tomb) -> stk !! k = Some s ->
  (forall v, d + stake_of v s <= staker_total s) ->
  fits (delegators stk) (staked stk) vals d.
Proof.
  intros Hwf Hk Hd v. specialize (Hd v).
  assert (Hroom : staked stk v + d <= map_sum staker_total stk).
  { pose proof (map_sum_delete (stake_of v) stk k) as H1.
    pose proof (map_sum_delete staker_total stk k) as H2.
    assert (map_sum (stake_of v) (delete k stk) <= map_sum staker_total (delete k stk)) as H3.
    { apply map_sum_le. intros k' s' [_ Hk']%lookup_delete_Some.
      destruct (wf_stakers _ _ Hwf k' s' Hk') as [_ Hn _ _ _].
      unfold stake_of, staker_total. case_decide; lia. }
    rewrite Hk in H1, H2. simpl in H1, H2. unfold staked. lia. }
  pose proof (wf_balance_eq Hwf). pose proof (wf_deposits_nonneg Hwf).
  pose proof (wf_max _ _ Hwf) as Hmax. simpl in Hmax.
  split_and!; [apply (wf_delegators_max Hwf)|lia|]. intros val Hval.
  split; [by apply (wf_deposit_nonneg Hwf v)|].
  pose proof (map_sum_entry_le v_deposit vals v (wf_deposit_nonneg Hwf)) as Hdep.
  rewrite Hval in Hdep. simpl in Hdep. lia.
Qed.

(** ** Rebuilding the invariant *)

(** The invariant after an operation that changed stakers, with books to match. *)
Lemma wf_rebuild {bn bal act pun vals stk tomb} n' a' bal' act' vals' stk' tomb' :
  WF bn (mk_st bal act pun vals stk tomb) ->
  books_ok n' a' act' vals' tomb' -> static vals' = static vals ->
  (forall w, n' w = delegators stk' w) -> (forall w, a' w = staked stk' w) ->
  (forall k s, stk' !! k = Some s -> staker_ok k s) ->
  bal' - bal = map_sum staker_total stk' - map_sum staker_total stk -> bal' <= MAX_SAFE_VALUE ->
  WF bn (mk_st bal' act' pun vals' stk' tomb').
Proof.
  intros Hwf Hb Hs Hn Ha Hstk Hbal Hmax. split; simpl.
  - by eapply books_ext.
  - rewrite (deposits_static_eq _ _ Hs). pose proof (wf_balance_eq Hwf). lia.
  - done.
  - eapply validator_ok_static; [done|]. apply (wf_validators _ _ Hwf).
  - done.
  - apply (wf_punished _ _ Hwf).
Qed.

(** A state with the primary data of [x] and matching books is [x]. *)
Lemma wf_restore {bn bal act pun vals stk tomb} n' a' bal' act' vals' tomb' :
  WF bn (mk_st bal act pun vals stk tomb) ->
  books_ok n' a' act' vals' tomb' -> static vals' = static vals ->
  (forall w, n' w = delegators stk w) -> (forall w, a' w = staked stk w) -> bal' = bal ->
  mk_st bal' act' pun vals' stk tomb' = mk_st bal act pun vals stk tomb.
Proof.
  intros Hwf Hb Hs Hn Ha ->.
  destruct (books_determined (delegators stk) (staked stk) act' vals' tomb' act vals tomb)
    as (-> & -> & ->); [by eapply books_ext|apply (wf_books _ _ Hwf)|done|done].
Qed.
End Invariant.

(** Pointwise equations between changed books. *)
Ltac solve_books :=
  intros; unfold upd, staked, delegators;
  repeat match goal with
  | H : _ !! ?k = _ |- context [map_sum _ (<[?k:=_]> _)] => rewrite map_sum_insert, H
  | H : _ !! ?k = _ |- context [map_sum _ (delete ?k _)] => rewrite map_sum_delete, H
  end;
  unfold opt_val, stake_of, delegates_to; simpl;
  repeat case_decide; simplify_eq; try congruence; try lia.

(** ** Symbolic execution of the handlers *)

Ltac st_simpl :=
  unfold sc_set_balance, sc_set_active_validators, sc_set_punished_slots;
  cbn [fst snd sc_balance sc_active_validators sc_punished_slots validators stakers tombstones
       sc_set_balance sc_set_active_validators sc_set_punished_slots
       s_address s_active_balance s_inactive_balance s_inactive_from s_retired_balance s_delegation
       s_set_active_balance s_set_inactive_balance s_set_inactive_from s_set_retired_balance
       s_set_delegation
       v_address v_signing_key v_voting_key v_reward_address v_signal_data v_total_stake v_deposit
       v_num_stakers v_inactive_from v_jailed_from v_retired
       v_set_signing_key v_set_voting_key v_set_reward_address v_set_signal_data
       v_set_total_stake v_set_deposit v_set_num_stakers v_set_inactive_from v_set_jailed_from
       v_set_retired
       pr_newly_deactivated pr_newly_punished_previous_batch pr_newly_punished_current_batch jr_newly_deactivated
       jr_old_previous_batch_punished_slots jr_old_current_batch_punished_slots jr_old_jailed_from uv_old_signing_key
       uv_old_voting_key uv_old_reward_address uv_old_signal_data ss_old_signal_data
       jv_newly_deactivated jv_old_jailed_from rv_was_inactive_from rt_was_active
       dv_signing_key dv_voting_key dv_reward_address dv_signal_data
       dv_inactive_from dv_jailed_from sr_delegation sr_active_balance
       sr_inactive_from sa_old_inactive_from sa_old_active_balance rs_old_inactive_from
       ds_delegation].

Ltac st_step :=
  lazymatch goal with
  | |- wp (_ ≫= _) _ _ _ => apply wp_bind
  | |- wp (mret _) _ _ _ => apply wp_ret
  | |- wp (fail _) _ _ _ => apply wp_fail
  | |- wp (get_state _) _ _ _ => apply wp_get_state
  | |- wp (modify_state _) _ _ _ => apply wp_modify_state
  | |- wp (push_log _) _ _ _ => apply wp_push_log
  | |- wp (get_validator _) _ _ _ => apply wp_get_state
  | |- wp (get_staker _) _ _ _ => apply wp_get_state
  | |- wp (get_tombstone _) _ _ _ => apply wp_get_state
  | |- wp (put_validator _ _) _ _ _ => apply wp_modify_state
  | |- wp (put_staker _ _) _ _ _ => apply wp_modify_state
  | |- wp (put_tombstone _ _) _ _ _ => apply wp_modify_state
  | |- wp (remove_validator _) _ _ _ => apply wp_modify_state
  | |- wp (remove_staker _) _ _ _ => apply wp_modify_state
  | |- wp (remove_tombstone _) _ _ _ => apply wp_modify_state
  | |- wp (insert_active _ _) _ _ _ => apply wp_modify_state
  | |- wp (remove_active _) _ _ _ => unfold remove_active
  | |- wp (expect_validator _) _ _ _ => unfold expect_validator
  | |- wp (expect_staker _) _ _ _ => unfold expect_staker
  | |- wp (increase_balance _) _ _ _ => unfold increase_balance
  | |- wp (decrease_balance _) _ _ _ => unfold decrease_balance
  | |- wp (non_retired_balance _) _ _ _ => unfold non_retired_balance
  | |- wp (total_balance _) _ _ _ => unfold total_balance
  | |- wp (ok_or (Some _) _) _ _ _ => apply wp_ret
  | |- wp (if_some None _) _ _ _ => unfold if_some
  | |- wp (if_some (Some _) _) _ _ _ => unfold if_some
  end; st_simpl.
Ltac st_steps := repeat st_step.
