(* ===== verification/StakerProofs.v ===== *)
(** * Stakers: correctness of the operations and their reverts

    Every staker operation, run on a state that satisfies the invariant,
    neither panics nor changes the state when it fails; when it succeeds the
    invariant holds again, the balance has changed by the amount moved, and the
    revert operation restores the state exactly. *)

From S2P Require Import Prelude Coin Policy BitSet AccountTypes PunishedSlots StakingTypes.
From S2P Require Import ValidatorOps StakerOps StakingInv.

Ltac solve_staker_eq s :=
  destruct s; simpl in *;
  unfold s_set_active_balance, s_set_inactive_balance, s_set_inactive_from, s_set_retired_balance,
    s_set_delegation; st_simpl; f_equal; (done || lia).

Section Proofs.
Context `{P : Policy} {HP : PolicyOk P}.
Context {bn bal : Z} {act : gmap Z Z} {pun : PunishedSlots}.
Context {vals : gmap Z Validator} {stk : gmap Z Staker} {tomb : gmap Z Tombstone}.
Hypothesis Hwf : WF bn (mk_st bal act pun vals stk tomb).

(** What every committed operation establishes: the invariant, and the given
    change of the balance. *)
Definition committed {R} (delta : Z) (_ : R) (x : St) : Prop :=
  WF bn x /\ sc_balance x.1 = bal + delta.

Lemma wf_max_le : bal <= MAX_SAFE_VALUE.
Proof. apply (wf_max _ _ Hwf). Qed.

Lemma stakers_ok_insert k s :
  staker_ok k s -> forall k' s', <[k:=s]> stk !! k' = Some s' -> staker_ok k' s'.
Proof.
  intros Hs k' s' [[<- <-]|[_ Hk]]%lookup_insert_Some; [done|by apply (wf_stakers _ _ Hwf)].
Qed.

Lemma totals_insert k s :
  map_sum staker_total (<[k:=s]> stk) - map_sum staker_total stk
  = staker_total s - opt_val staker_total (stk !! k).
Proof. rewrite map_sum_insert. lia. Qed.

Lemma create_staker_reversible k value dlg inactive from :
  0 <= value -> 0 <= inactive -> MINIMUM_STAKE <= value + inactive ->
  bal + (value + inactive) <= MAX_SAFE_VALUE ->
  reversible (create_staker k value dlg inactive from) (fun _ => revert_create_staker k value)
    (committed (value + inactive)) (mk_st bal act pun vals stk tomb).
Proof.
  intros Hv Hi Hmin Hmax. apply reversible_wp. intros lg. unfold create_staker.
  st_steps. apply wp_fail_if; [done|]. intros Hnew. st_steps.
  apply wp_fail_if; [done|]. intros Hfrom. st_steps.
  assert (Hk : stk !! k = None).
  { destruct (stk !! k); [by rewrite bool_decide_eq_true_2 in Hnew|done]. }
  assert (Hs : staker_ok k (mk_staker k value inactive from 0 dlg)).
  { split; unfold staker_total; simpl; [done|lia|lia|lia|]. unfold is_zero in Hfrom.
    destruct (Z.eqb_spec inactive 0), from; simpl in Hfrom; done || naive_solver. }
  apply wp_check_delegation; [|done]. intros Hex. st_steps.
  pose proof (wf_balance_nonneg Hwf). pose proof (wf_fits value Hwf ltac:(lia)) as Hfits.
  apply (wp_delegate (wf_books_eq Hwf) dlg value true); [done|lia|done|done|].
  intros act' vals' tomb' Hb' Hs'. st_steps. apply wp_add; [lia..|]. st_steps.
  apply wp_add; [lia..|]. st_steps.
  assert (Hwf' : WF bn (mk_st (bal + (value + inactive)) act' pun vals'
            (<[k:=mk_staker k value inactive from 0 dlg]> stk) tomb')).
  { eapply (wf_rebuild _ _ _ _ _ _ _ Hwf Hb' Hs'); [solve_books..| | |lia].
    - by apply stakers_ok_insert.
    - rewrite totals_insert, Hk. unfold staker_total. simpl. lia. }
  split; [by split|]. eexists. split; [done|]. intros lg2. unfold revert_create_staker. st_steps.
  rewrite lookup_insert_eq. apply wp_ok_or; [intros s [= <-]|done]. st_steps.
  apply wp_assert; [by rewrite Z.eqb_refl|]. st_steps. apply wp_add; [lia..|]. st_steps.
  apply wp_sub; [lia..|]. st_steps.
  apply (wp_undelegate (wf_books_eq Hwf') dlg value true);
    [apply (wf_fits 0 Hwf'); lia|lia| |done|].
  { intros v ->. by apply (wf_delegator Hwf' k _ v (lookup_insert_eq _ _ _)). }
  intros act2 vals2 tomb2 Hb2 Hs2. st_steps.
  rewrite delete_insert_id by done. split; [done|]. f_equal.
  eapply (wf_restore _ _ _ _ _ _ Hwf Hb2); [congruence|solve_books..|lia].
Qed.

Lemma wp_enforce_min_stake x y r Q QE (s : St * list Log.t) :
  0 <= x -> 0 <= y -> 0 <= r -> x + y <= MAX_SAFE_VALUE ->
  (x + y = 0 \/ MINIMUM_STAKE <= x + y -> (x + y = 0 -> r = 0 \/ MINIMUM_STAKE <= r) -> Q tt s) ->
  (forall e, QE e s) -> wp (enforce_min_stake x y r) Q QE s.
Proof.
  intros Hx Hy Hr Hmax HQ HE. unfold enforce_min_stake.
  apply wp_bind, wp_add; [done..|]. apply wp_bind, wp_fail_if; [by intros; apply HE|].
  intros H1. apply wp_fail_if; [by intros; apply HE|]. intros H2.
  assert (0 < MINIMUM_STAKE) by (unfold MINIMUM_STAKE; lia).
  apply HQ; repeat match goal with
    | H : (_ && _) = false |- _ => apply andb_false_iff in H
    | H : _ \/ _ |- _ => destruct H
    end; lia.
Qed.

Lemma staker_bounds k s :
  stk !! k = Some s ->
  staker_ok k s /\ staker_total s <= bal /\ bal <= MAX_SAFE_VALUE.
Proof.
  intros Hk. split_and!; [by apply (wf_stakers _ _ Hwf)|by apply (wf_staker_le_balance Hwf k)|].
  apply wf_max_le.
Qed.

Lemma insert_restore k s s1 s2 :
  stk !! k = Some s -> s2 = s -> <[k:=s2]> (<[k:=s1]> stk) = stk.
Proof. intros Hk ->. by rewrite insert_insert_eq, insert_id. Qed.

Lemma add_stake_reversible k value :
  0 <= value -> bal + value <= MAX_SAFE_VALUE ->
  reversible (add_stake k value) (fun _ => revert_add_stake k value)
    (committed value) (mk_st bal act pun vals stk tomb).
Proof.
  intros Hv Hmax. apply reversible_wp. intros lg. unfold add_stake. st_steps.
  apply wp_ok_or; [|done]. intros s Hk. st_steps.
  destruct (staker_bounds k s Hk) as ([Ha Hn Hm1 Hm2 Hi] & Htot & _). unfold staker_total in *.
  apply wp_add; [lia..|]. st_steps.
  apply wp_enforce_min_stake; [lia..| |done]. intros Hmin _. st_steps.
  set (s' := s_set_active_balance (s_active_balance s + value) s).
  assert (Hs' : staker_ok k s') by (split; unfold staker_total; simpl; [done|lia..|done]).
  pose proof (wf_fits value Hwf Hmax) as Hfits.
  apply (wp_increase_existing (wf_books_eq Hwf)); [done|lia| |done|].
  { intros v Hd. pose proof (wf_delegators_pos k s v Hk Hd). lia. }
  intros act' vals' tomb' Hb' Hs''. st_steps.
  apply wp_add; [lia..|]. st_steps. apply wp_add; [lia..|]. st_steps.
  assert (Hwf' : WF bn (mk_st (bal + value) act' pun vals' (<[k:=s']> stk) tomb')).
  { eapply (wf_rebuild _ _ _ _ _ _ _ Hwf Hb' Hs''); [solve_books..| | |lia].
    - by apply stakers_ok_insert.
    - rewrite totals_insert, Hk. unfold staker_total. simpl. lia. }
  split; [by split|]. eexists. split; [done|]. intros lg2. unfold revert_add_stake. st_steps.
  rewrite lookup_insert_eq. apply wp_ok_or; [intros s2 [= <-]|done]. st_steps.
  apply (wp_decrease_opt (wf_books_eq Hwf')); [apply (wf_fits 0 Hwf'); lia|lia| |].
  { intros v Hd. destruct (wf_delegator Hwf' k s' v (lookup_insert_eq _ _ _) Hd) as (Hle & ? & _).
    simpl in Hle. lia. }
  intros act2 vals2 tomb2 Hb2 Hs2. st_steps.
  apply wp_sub; [lia..|]. st_steps. apply wp_sub; [lia..|]. st_steps.
  rewrite (insert_restore k s) by (done || solve_staker_eq s).
  split; [done|]. f_equal. eapply (wf_restore _ _ _ _ _ _ Hwf Hb2); [congruence|solve_books..|lia].
Qed.

Lemma set_active_stake_reversible k x block :
  0 <= x ->
  reversible (set_active_stake k x block) (revert_set_active_stake k x)
    (committed 0) (mk_st bal act pun vals stk tomb).
Proof.
  intros Hx. apply reversible_wp. intros lg. unfold set_active_stake. st_steps.
  apply wp_ok_or; [|done]. intros s Hk. st_steps.
  destruct (staker_bounds k s Hk) as ([Ha Hn Hm1 Hm2 Hi] & Htot & Hmax). unfold staker_total in *.
  apply wp_add; [lia..|]. st_steps. apply wp_fail_if; [done|]. intros Hlt%Z.ltb_ge. st_steps.
  apply wp_sub; [lia..|]. st_steps.
  set (y := s_active_balance s + s_inactive_balance s - x).
  assert (Hy : y = s_active_balance s + s_inactive_balance s - x) by done.
  set (from := if is_zero y then None else Some (election_block_after block)).
  set (s' := s_set_inactive_from from (s_set_inactive_balance y (s_set_active_balance x s))).
  assert (Hs' : staker_ok k s').
  { split; unfold staker_total; simpl; [done|subst y; lia..|].
    subst from. unfold is_zero. destruct (Z.eqb_spec y 0); naive_solver. }
  apply (wp_update_stake_opt (wf_books_eq Hwf)); [|lia..| |].
  { apply (wf_fits_own k s _ Hwf Hk). unfold stake_of, staker_total. intros. case_decide; lia. }
  { intros v Hd. destruct (wf_delegator Hwf k s v Hk Hd) as (? & ? & _). lia. }
  intros act' vals' tomb' Hb' Hs''. st_steps.
  assert (Hwf' : WF bn (mk_st bal act' pun vals' (<[k:=s']> stk) tomb')).
  { eapply (wf_rebuild _ _ _ _ _ _ _ Hwf Hb' Hs''); [solve_books..| | |lia].
    - by apply stakers_ok_insert.
    - rewrite totals_insert, Hk. unfold staker_total. simpl. lia. }
  split; [split; [done|simpl; lia]|]. eexists. split; [done|]. intros lg2.
  unfold revert_set_active_stake. st_steps.
  rewrite lookup_insert_eq. apply wp_ok_or; [intros s2 [= <-]|done]. subst s'. st_steps.
  apply wp_add; [lia..|]. st_steps. apply wp_sub; [lia..|]. st_steps.
  apply (wp_update_stake_opt (wf_books_eq Hwf')); [|lia..| |].
  { apply (wf_fits_own k _ _ Hwf' (lookup_insert_eq _ _ _)).
    unfold stake_of, staker_total. simpl. intros. case_decide; lia. }
  { intros v Hd. destruct (wf_delegator Hwf' k _ v (lookup_insert_eq _ _ _) Hd) as (Hle & ? & _).
    simpl in Hle. lia. }
  intros act2 vals2 tomb2 Hb2 Hs2. st_steps.
  rewrite (insert_restore k s) by (done || solve_staker_eq s).
  split; [done|]. f_equal. eapply (wf_restore _ _ _ _ _ _ Hwf Hb2); [congruence|solve_books..|lia].
Qed.

Lemma wp_released s block Q QE lg :
  (forall b, Q b (mk_st bal act pun vals stk tomb, lg)) ->
  wp (is_inactive_stake_released s block) Q QE (mk_st bal act pun vals stk tomb, lg).
Proof.
  intros HQ. unfold is_inactive_stake_released. apply wp_bind.
  destruct (s_delegation s); [apply wp_get_state|apply wp_ret]; apply wp_ret, HQ.
Qed.

Lemma retire_stake_reversible k x block :
  0 <= x ->
  reversible (retire_stake k x block) (revert_retire_stake k x)
    (committed 0) (mk_st bal act pun vals stk tomb).
Proof.
  intros Hx. apply reversible_wp. intros lg. unfold retire_stake. st_steps.
  apply wp_ok_or; [|done]. intros s Hk. st_steps.
  destruct (staker_bounds k s Hk) as ([Ha Hn Hm1 Hm2 Hi] & Htot & Hmax). unfold staker_total in *.
  apply wp_fail_if; [done|]. intros Hlt%Z.ltb_ge. st_steps.
  apply wp_sub; [lia..|]. st_steps. apply wp_add; [lia..|]. st_steps.
  apply wp_enforce_min_stake; [lia..| |done]. intros Hmin1 Hmin2. st_steps.
  apply wp_released. intros released. st_steps. apply wp_fail_if; [done|]. intros _. st_steps.
  apply wp_add; [lia..|]. st_steps.
  set (y := s_inactive_balance s - x). assert (Hy : y = s_inactive_balance s - x) by done.
  set (s' := if is_zero y then _ else _).
  assert (Hf : s_address s' = s_address s /\ s_active_balance s' = s_active_balance s /\
    s_inactive_balance s' = y /\ s_retired_balance s' = s_retired_balance s + x /\
    s_delegation s' = s_delegation s /\
    (s_inactive_from s' = None <-> y = 0)).
  { subst s' y. unfold is_zero. destruct (Z.eqb_spec (s_inactive_balance s - x) 0); simpl; split_and!; try done.
    rewrite Hi. lia. }
  destruct Hf as (F1 & F2 & F3 & F4 & F5 & F6).
  assert (Hs' : staker_ok k s').
  { split; unfold staker_total; rewrite ?F1, ?F2, ?F3, ?F4; [done|lia|lia|lia|done]. }
  assert (Hwf' : WF bn (mk_st bal act pun vals (<[k:=s']> stk) tomb)).
  { eapply (wf_rebuild _ _ _ _ _ _ _ Hwf (wf_books_eq Hwf) eq_refl); [| | | |lia].
    - unfold delegators. intros. rewrite map_sum_insert, Hk. simpl. unfold delegates_to.
      rewrite F5. lia.
    - unfold staked. intros. rewrite map_sum_insert, Hk. simpl. unfold stake_of.
      rewrite F5, F2. lia.
    - by apply stakers_ok_insert.
    - rewrite totals_insert, Hk. unfold staker_total. simpl. rewrite F2, F3, F4. lia. }
  split; [split; [done|simpl; lia]|]. eexists. split; [done|]. intros lg2.
  unfold revert_retire_stake. st_steps.
  rewrite lookup_insert_eq. apply wp_ok_or; [intros s2 [= <-]|done]. st_steps.
  rewrite F3, F4. apply wp_sub; [lia..|]. st_steps. apply wp_add; [lia..|]. st_steps.
  rewrite F5. split; [done|]. f_equal. f_equal. f_equal.
  apply (insert_restore k s); [done|]. clearbody s'. clear Hs' Hwf'. destruct s, s'.
  unfold s_set_inactive_from, s_set_inactive_balance, s_set_retired_balance. simpl in *.
  f_equal; congruence || lia.
Qed.

Lemma stakers_ok_delete k :
  forall k' s', delete k stk !! k' = Some s' -> staker_ok k' s'.
Proof. intros k' s' [_ Hk]%lookup_delete_Some. by apply (wf_stakers _ _ Hwf). Qed.

(** Removing the last coins deletes the staker, and the tombstone of its deleted
    validator if it was the last one there. *)
Lemma remove_last_stake_reversible k value s lg :
  stk !! k = Some s -> s_active_balance s = 0 -> s_inactive_balance s = 0 ->
  s_retired_balance s = value ->
  wp (if_some (s_delegation s) unregister_staker_from_validator;;
      remove_staker k;;
      push_log (Log.DeleteStaker k (s_delegation s));;
      mret (Some (mk_delete_staker_receipt (s_delegation s))))
    (fun r x => committed (- value) r x.1 /\ x.2 = lg ++ [Log.DeleteStaker k (s_delegation s)] /\
       forall lg2, wp (revert_remove_stake k value r)
         (fun a x2 => a = tt /\ x2 = (mk_st bal act pun vals stk tomb,
            lg2 ++ [Log.DeleteStaker k (s_delegation s); Log.RemoveStake k (s_delegation s) value]))
         (fun _ _ => False) (x.1, lg2))
    (fun _ x => x.1 = mk_st bal act pun vals stk tomb)
    (mk_st (bal - value) act pun vals stk tomb, lg).
Proof.
  intros Hk Hz1 Hz2 Hz3.
  destruct (staker_bounds k s Hk) as ([Ha Hn Hm1 Hm2 Hi] & Htot & Hmax). unfold staker_total in *.
  assert (Hdel : forall v, s_delegation s = Some v ->
    1 <= delegators stk v /\ (delegators stk v = 1 -> staked stk v = 0)).
  { intros v Hd. destruct (wf_delegator Hwf k s v Hk Hd) as (? & ? & Hl). lia. }
  st_steps. apply (wp_unregister_opt (wf_books_eq Hwf) _ 0); [apply (wf_fits 0 Hwf); lia|done|].
  intros act' vals' tomb' Hb' Hs'. st_steps.
  assert (Hwf' : WF bn (mk_st (bal - value) act' pun vals' (delete k stk) tomb')).
  { eapply (wf_rebuild _ _ _ _ _ _ _ Hwf Hb' Hs'); [solve_books..| | |lia].
    - apply stakers_ok_delete.
    - rewrite map_sum_delete, Hk. simpl. unfold staker_total. lia. }
  split; [split; [done|simpl; lia]|]. split; [done|]. intros lg2. unfold revert_remove_stake. st_steps.
  apply (wp_register_opt (wf_books_eq Hwf') _ true 0); [apply (wf_fits 0 Hwf'); lia|by left|].
  intros act2 vals2 tomb2 Hb2 Hs2. st_steps. apply wp_add; [lia..|]. st_steps.
  split; [done|]. rewrite <-app_assoc. f_equal.
  rewrite (insert_delete_id _ k) by (rewrite Hk; f_equal; destruct s; simpl in *; subst;
    f_equal; by apply Hi).
  eapply (wf_restore _ _ _ _ _ _ Hwf Hb2); [congruence|solve_books..|lia].
Qed.

Lemma remove_stake_reversible k value :
  0 <= value ->
  reversible (remove_stake k value) (revert_remove_stake k value)
    (committed (- value)) (mk_st bal act pun vals stk tomb).
Proof.
  intros Hv. apply reversible_wp. intros lg. unfold remove_stake. st_steps.
  apply wp_ok_or; [|done]. intros s Hk. st_steps.
  destruct (staker_bounds k s Hk) as ([Ha Hn Hm1 Hm2 Hi] & Htot & Hmax). unfold staker_total in *.
  apply wp_fail_if; [done|]. intros Hlt%Z.ltb_ge. st_steps.
  apply wp_sub; [lia..|]. st_steps.
  apply wp_enforce_min_stake; [lia..| |done]. intros _ Hmin2. st_steps.
  apply wp_sub; [lia..|]. st_steps. apply wp_add; [lia..|]. st_steps.
  apply wp_add; [lia..|]. unfold is_zero at 1.
  destruct (Z.eqb_spec (s_active_balance s + s_inactive_balance s + (s_retired_balance s - value)) 0)
    as [Hz|Hz].
  - eapply wp_mono; [apply (remove_last_stake_reversible k value s); [done|lia..]| |done].
    intros r [x lg'] (Hc & -> & Hr). split; [done|]. eexists. rewrite <-app_assoc.
    by split.
  - st_steps. set (s' := s_set_retired_balance (s_retired_balance s - value) s).
    assert (Hwf' : WF bn (mk_st (bal - value) act pun vals (<[k:=s']> stk) tomb)).
    { eapply (wf_rebuild _ _ _ _ _ _ _ Hwf (wf_books_eq Hwf) eq_refl); [solve_books..| | |lia].
      - apply stakers_ok_insert. split; unfold staker_total; simpl; [done|lia|lia| |done].
        destruct Hm1 as [Hm|Hm]; [destruct (Hmin2 Hm)|]; lia.
      - rewrite totals_insert, Hk. unfold staker_total. simpl. lia. }
    split; [split; [done|simpl; lia]|]. eexists. split; [done|]. intros lg2.
    unfold revert_remove_stake. st_steps.
    rewrite lookup_insert_eq. apply wp_ok_or; [intros s2 [= <-]|done]. subst s'. st_steps.
    apply wp_add; [lia..|]. st_steps. apply wp_add; [lia..|]. st_steps.
    split; [done|]. f_equal. f_equal; f_equal; [lia|].
    apply (insert_restore k s); [done|]. solve_staker_eq s.
Qed.

(** The second half of [update_staker]: the staker [s], already unregistered
    from its old validator, becomes [s'] and joins the new one. *)
Lemma update_staker_tail k s s' act1 vals1 tomb1 lg :
  stk !! k = Some s ->
  (s_delegation s <> None -> s_active_balance s = 0) ->
  (forall v, s_delegation s' = Some v -> is_Some (vals !! v)) ->
  staker_ok k s' -> s_retired_balance s' = s_retired_balance s ->
  s_active_balance s' + s_inactive_balance s' = s_active_balance s + s_inactive_balance s ->
  books_ok (upd (delegators stk) (s_delegation s) (-1)) (staked stk) act1 vals1 tomb1 ->
  static vals1 = static vals ->
  wp (if_some (s_delegation s') (fun v =>
        register_staker_on_validator v false;;
        when (negb (is_zero (s_active_balance s')))
          (increase_stake_to_validator v (s_active_balance s')));;
      push_log (Log.UpdateStaker k (s_delegation s) (s_delegation s')
                  (s_active_balance s') (s_inactive_from s'));;
      put_staker k s';;
      mret (mk_staker_receipt (s_delegation s) (s_active_balance s) (s_inactive_from s)))
    (fun r x => committed 0 r x.1 /\ exists new_logs, x.2 = lg ++ new_logs /\
       forall lg2, wp (revert_update_staker k r)
         (fun a x2 => a = tt /\ x2 = (mk_st bal act pun vals stk tomb, lg2 ++ reverse new_logs))
         (fun _ _ => False) (x.1, lg2))
    (fun _ x => x.1 = mk_st bal act pun vals stk tomb)
    (mk_st bal act1 pun vals1 stk tomb1, lg).
Proof.
  intros Hk Hzero Hex Hs' Hr Hnr Hb1 Hs1. pose proof Hs' as [Ha' Hn' _ _ _].
  destruct (staker_bounds k s Hk) as ([Ha Hn _ _ _] & Htot & Hmax). unfold staker_total in *.
  assert (Hown : forall v, stake_of v s = 0).
  { intros v. unfold stake_of. case_decide as Hd; [|done]. apply Hzero. by rewrite Hd. }
  st_steps. apply (wp_delegate Hb1); [|lia| | |].
  { eapply fits_mono; [apply (wf_fits_own k s (s_active_balance s') Hwf Hk)|done|..].
    - intros v. rewrite Hown. unfold staker_total. lia.
    - intros v. unfold upd. case_decide; lia.
    - lia. }
  { intros v Hd. eapply static_is_Some; [done|by apply Hex]. }
  { unfold is_zero. intros Hz%negb_false_iff%Z.eqb_eq. done. }
  intros act' vals' tomb' Hb' Hs''. st_steps.
  assert (Hwf' : WF bn (mk_st bal act' pun vals' (<[k:=s']> stk) tomb')).
  { eapply (wf_rebuild _ _ _ _ _ _ _ Hwf Hb'); [congruence| | | | |lia].
    - solve_books.
    - intros v. pose proof (Hown v) as Hz. unfold stake_of in Hz. solve_books.
    - by apply stakers_ok_insert.
    - rewrite totals_insert, Hk. unfold staker_total. simpl. lia. }
  split; [split; [done|simpl; lia]|]. eexists. split; [done|]. intros lg2.
  unfold revert_update_staker. st_steps.
  rewrite lookup_insert_eq. apply wp_ok_or; [intros s2 [= <-]|done]. st_steps.
  apply (wp_undelegate (wf_books_eq Hwf')); [apply (wf_fits 0 Hwf'); lia|lia| | |].
  { intros v Hd. by apply (wf_delegator Hwf' k s' v (lookup_insert_eq _ _ _)). }
  { unfold is_zero. intros Hz%negb_false_iff%Z.eqb_eq. done. }
  intros act2 vals2 tomb2 Hb2 Hs2. st_steps.
  apply (wp_register_opt Hb2 _ true 0); [|by left|].
  { eapply fits_mono; [apply (wf_fits 0 Hwf'); lia|done|..].
    - intros v. unfold upd. case_decide; lia.
    - intros v. unfold upd. case_decide; lia. }
  intros act3 vals3 tomb3 Hb3 Hs3. st_steps.
  apply wp_add; [lia..|]. st_steps. apply wp_sub; [lia..|]. st_steps.
  split; [done|]. rewrite (insert_restore k s) by (done ||
    (destruct s, s'; unfold s_set_inactive_from, s_set_inactive_balance, s_set_active_balance,
       s_set_delegation; simpl in *; f_equal; (congruence || lia))).
  f_equal. eapply (wf_restore _ _ _ _ _ _ Hwf Hb3); [congruence| | |lia].
  - solve_books.
  - intros v. pose proof (Hown v) as Hz. unfold stake_of in Hz. solve_books.
Qed.

Lemma update_staker_reversible k new_delegation reactivate block :
  reversible (update_staker k new_delegation reactivate block) (revert_update_staker k)
    (committed 0) (mk_st bal act pun vals stk tomb).
Proof.
  apply reversible_wp. intros lg. unfold update_staker. st_steps.
  apply wp_ok_or; [|done]. intros s Hk. st_steps.
  destruct (staker_bounds k s Hk) as ([Ha Hn Hm1 Hm2 Hi] & Htot & Hmax). unfold staker_total in *.
  apply wp_check_delegation; [|done]. intros Hex. st_steps.
  enough (Htail : (s_delegation s <> None -> s_active_balance s = 0) ->
    wp (if_some (s_delegation s) unregister_staker_from_validator ≫= (fun _ =>
      (if reactivate then
         active_balance ← add (s_active_balance s) (s_inactive_balance s);
         mret (s_set_inactive_from None (s_set_inactive_balance 0
                 (s_set_active_balance active_balance (s_set_delegation new_delegation s))))
       else mret (s_set_delegation new_delegation s)) ≫= (fun staker =>
      if_some (s_delegation staker) (fun validator_address =>
        register_staker_on_validator validator_address false;;
        when (negb (is_zero (s_active_balance staker)))
          (increase_stake_to_validator validator_address (s_active_balance staker)));;
      push_log (Log.UpdateStaker k (s_delegation s) (s_delegation staker)
                  (s_active_balance staker) (s_inactive_from staker));;
      put_staker k staker;;
      mret (mk_staker_receipt (s_delegation s) (s_active_balance s) (s_inactive_from s)))))
    (fun r x => committed 0 r x.1 /\ exists new_logs, x.2 = lg ++ new_logs /\
       forall lg2, wp (revert_update_staker k r)
         (fun a x2 => a = tt /\ x2 = (mk_st bal act pun vals stk tomb, lg2 ++ reverse new_logs))
         (fun _ _ => False) (x.1, lg2))
    (fun _ x => x.1 = mk_st bal act pun vals stk tomb)
    (mk_st bal act pun vals stk tomb, lg)).
  { destruct (s_delegation s) as [v|] eqn:Hd; simpl.
    - st_steps. apply wp_fail_if; [done|]. intros Hz%negb_false_iff%Z.eqb_eq. st_steps.
      apply wp_released. intros released. apply wp_fail_if; [done|]. intros _.
      by apply Htail.
    - apply wp_ret. by apply Htail. }
  intros Hzero. st_steps.
  apply (wp_unregister_opt (wf_books_eq Hwf) _ 0); [apply (wf_fits 0 Hwf); lia| |].
  { intros v Hd. destruct (wf_delegator Hwf k s v Hk Hd) as (? & ? & Hl). split; [lia|].
    intros H1. rewrite (Hl H1). apply Hzero. by rewrite Hd. }
  intros act1 vals1 tomb1 Hb1 Hs1. apply wp_bind. destruct reactivate.
  - apply wp_bind, wp_add; [lia..|]. apply wp_ret.
    set (s' := s_set_inactive_from None _). apply (update_staker_tail k s s'); try done.
    + split; unfold staker_total; simpl; [done|lia..|done].
    + simpl. lia.
  - apply wp_ret. by apply (update_staker_tail k s (s_set_delegation new_delegation s)).
Qed.
End Proofs.
