(* ===== verification/ValidatorProofs.v ===== *)
(** * Validators: correctness of the operations and their reverts

    As for the stakers: on a state that satisfies the invariant, every validator
    operation fails without effect or re-establishes the invariant, and its
    revert restores the state exactly. *)

From S2P Require Import Prelude Coin Policy BitSet AccountTypes PunishedSlots StakingTypes.
From S2P Require Import ValidatorOps StakerOps StakingInv StakerProofs.

Section Proofs.
Context `{P : Policy} {HP : PolicyOk P} `{Env : StakingEnv}.
Context {bn bal : Z} {act : gmap Z Z} {pun : PunishedSlots}.
Context {vals : gmap Z Validator} {stk : gmap Z Staker} {tomb : gmap Z Tombstone}.
Hypothesis Hwf : WF bn (mk_st bal act pun vals stk tomb).

Local Abbreviation committed := (committed (bn:=bn) (bal:=bal)).
Local Abbreviation start := (mk_st bal act pun vals stk tomb).

(** The entry of [v] among the active validators. *)
Definition listed (val : Validator) : option Z :=
  if is_active val then Some (v_total_stake val) else None.

Definition set_listed (v : Z) (o : option Z) (m : gmap Z Z) : gmap Z Z :=
  match o with Some x => <[v:=x]> m | None => delete v m end.

Lemma set_listed_lookup v o m : set_listed v o m !! v = o.
Proof. destruct o; simpl; [apply lookup_insert_eq|apply lookup_delete_eq]. Qed.

Lemma set_listed_ne v o m w : w <> v -> set_listed v o m !! w = m !! w.
Proof. intros. destruct o; simpl; [by rewrite lookup_insert_ne|by rewrite lookup_delete_ne]. Qed.

Lemma set_listed_id v m : set_listed v (m !! v) m = m.
Proof. destruct (m !! v) eqn:Hm; simpl; [by apply insert_id|by apply delete_id]. Qed.

Lemma set_listed_twice v o o' m : set_listed v o' (set_listed v o m) = set_listed v o' m.
Proof.
  destruct o, o'; simpl; rewrite ?insert_insert_eq, ?insert_delete_eq, ?delete_insert_eq,
    ?delete_delete_eq; done.
Qed.

(** What the books say about an existing validator. *)
Lemma existing v val : vals !! v = Some val ->
  validator_ok bn v val /\ v_total_stake val = v_deposit val + staked stk v /\
  v_num_stakers val = delegators stk v /\ tomb !! v = None /\ act !! v = listed val.
Proof.
  intros Hv. split; [by apply (wf_validators _ _ Hwf)|].
  destruct (wf_books_eq Hwf v) as (_ & _ & _ & Hbk). rewrite Hv in Hbk. naive_solver.
Qed.

Lemma listed_id v val : vals !! v = Some val -> set_listed v (listed val) act = act.
Proof.
  intros Hv. destruct (existing v val Hv) as (_ & _ & _ & _ & <-). apply set_listed_id.
Qed.

(** The invariant after changing the static data of one validator. *)
Lemma wf_set_validator v val val' :
  vals !! v = Some val -> validator_ok bn v val' -> v_deposit val' = v_deposit val ->
  v_total_stake val' = v_total_stake val -> v_num_stakers val' = v_num_stakers val ->
  WF bn (mk_st bal (set_listed v (listed val') act) pun (<[v:=val']> vals) stk tomb).
Proof.
  intros Hv Hok Hd Ht Hn. destruct (existing v val Hv) as (_ & Ht0 & Hn0 & Htomb & _).
  split; simpl.
  - eapply (books_at v); [apply (wf_books_eq Hwf)| |].
    + destruct (wf_books_eq Hwf v) as (H1 & H2 & H3 & _).
      rewrite lookup_insert_eq, set_listed_lookup. split_and!; [done..|congruence|congruence|done|done].
    + intros w Hw. rewrite lookup_insert_ne, set_listed_ne by done. done.
  - rewrite map_sum_insert, Hv. simpl. pose proof (wf_balance_eq Hwf). lia.
  - apply (wf_max _ _ Hwf).
  - intros k w [[<- <-]|[_ Hk]]%lookup_insert_Some; [done|by apply (wf_validators _ _ Hwf)].
  - apply (wf_stakers _ _ Hwf).
  - apply (wf_punished _ _ Hwf).
Qed.

Lemma insert_validator_restore v val val1 val2 :
  vals !! v = Some val -> val2 = val -> <[v:=val2]> (<[v:=val1]> vals) = vals.
Proof. intros Hk ->. by rewrite insert_insert_eq, insert_id. Qed.

Ltac solve_validator_eq val :=
  destruct val;
  unfold v_set_signing_key, v_set_voting_key, v_set_reward_address, v_set_signal_data,
    v_set_total_stake, v_set_deposit, v_set_num_stakers, v_set_inactive_from, v_set_jailed_from,
    v_set_retired; simpl in *; f_equal; (done || congruence || lia).

(** The operations that touch neither activity nor books. *)
Lemma wf_set_validator_same v val val' :
  vals !! v = Some val -> validator_ok bn v val' -> v_deposit val' = v_deposit val ->
  v_total_stake val' = v_total_stake val -> v_num_stakers val' = v_num_stakers val ->
  v_inactive_from val' = v_inactive_from val ->
  WF bn (mk_st bal act pun (<[v:=val']> vals) stk tomb).
Proof.
  intros Hv Hok Hd Ht Hn Hi. pose proof (wf_set_validator v val val' Hv Hok Hd Ht Hn) as Hwf'.
  assert (listed val' = listed val) as He by (unfold listed, is_active; by rewrite Hi, Ht).
  by rewrite He, (listed_id v val Hv) in Hwf'.
Qed.

Lemma update_validator_reversible v sk vk ra sd :
  reversible (update_validator v sk vk ra sd) (revert_update_validator v) (committed 0) start.
Proof.
  apply reversible_wp. intros lg. unfold update_validator. st_steps.
  apply wp_ok_or; [|done]. intros val Hv. st_steps.
  set (val' := match sd with Some _ => _ | None => _ end).
  assert (Hf : v_address val' = v_address val /\ v_total_stake val' = v_total_stake val /\
    v_deposit val' = v_deposit val /\ v_num_stakers val' = v_num_stakers val /\
    v_inactive_from val' = v_inactive_from val /\ v_jailed_from val' = v_jailed_from val /\
    v_retired val' = v_retired val).
  { subst val'. by destruct sk, vk, ra, sd. }
  destruct Hf as (F1 & F2 & F3 & F4 & F5 & F6 & F7).
  destruct (existing v val Hv) as ([Ka Kd Kr Kj] & _).
  assert (Hok : validator_ok bn v val').
  { split; unfold is_jailed; rewrite ?F1, ?F3, ?F5, ?F6, ?F7; done. }
  split; [split; [by apply (wf_set_validator_same v val)|simpl; lia]|].
  eexists. split; [done|]. intros lg2. unfold revert_update_validator. st_steps.
  rewrite lookup_insert_eq. apply wp_ok_or; [intros val2 [= <-]|done]. st_steps.
  split; [done|]. rewrite (insert_validator_restore v val); [done..|].
  clearbody val'. destruct val, val'.
  unfold v_set_signal_data, v_set_reward_address, v_set_voting_key, v_set_signing_key.
  simpl in *. by subst.
Qed.

Lemma set_signal_data_reversible v signer update :
  reversible (set_signal_data v signer update) (revert_set_signal_data v) (committed 0) start.
Proof.
  apply reversible_wp. intros lg. unfold set_signal_data. st_steps.
  apply wp_ok_or; [|done]. intros val Hv. st_steps. apply wp_fail_if; [done|]. intros _. st_steps.
  destruct (existing v val Hv) as ([Ka Kd Kr Kj] & _).
  split; [split; [by apply (wf_set_validator_same v val)|simpl; lia]|].
  eexists. split; [done|]. intros lg2. unfold revert_set_signal_data. st_steps.
  rewrite lookup_insert_eq. apply wp_ok_or; [intros val2 [= <-]|done]. st_steps.
  split; [done|]. by rewrite (insert_validator_restore v val) by (done || solve_validator_eq val).
Qed.

(** Taking a validator off the list of active validators, and back. *)
Lemma wf_deactivated v val val' :
  vals !! v = Some val -> validator_ok bn v val' -> v_deposit val' = v_deposit val ->
  v_total_stake val' = v_total_stake val -> v_num_stakers val' = v_num_stakers val ->
  v_inactive_from val' <> None ->
  WF bn (mk_st bal (delete v act) pun (<[v:=val']> vals) stk tomb).
Proof.
  intros Hv Hok Hd Ht Hn Hi. pose proof (wf_set_validator v val val' Hv Hok Hd Ht Hn) as Hwf'.
  assert (listed val' = None) as He.
  { unfold listed, is_active. by rewrite bool_decide_eq_false_2. }
  by rewrite He in Hwf'.
Qed.

Lemma active_listed v val : vals !! v = Some val -> is_active val = true ->
  act !! v = Some (v_total_stake val).
Proof.
  intros Hv Ha. destruct (existing v val Hv) as (_ & _ & _ & _ & ->). unfold listed. by rewrite Ha.
Qed.

Lemma inactive_unlisted v val : vals !! v = Some val -> is_active val = false -> act !! v = None.
Proof.
  intros Hv Ha. destruct (existing v val Hv) as (_ & _ & _ & _ & ->). unfold listed. by rewrite Ha.
Qed.

Lemma is_active_true val : is_active val = true -> v_inactive_from val = None.
Proof. apply bool_decide_eq_true_1. Qed.
Lemma is_active_false val : is_active val = false -> v_inactive_from val <> None.
Proof. apply bool_decide_eq_false_1. Qed.

Lemma deactivate_validator_reversible v signer block :
  reversible (deactivate_validator v signer block) (fun _ => revert_deactivate_validator v)
    (committed 0) start.
Proof.
  apply reversible_wp. intros lg. unfold deactivate_validator. st_steps.
  apply wp_ok_or; [|done]. intros val Hv. st_steps.
  apply wp_fail_if; [done|]. intros Ha%negb_false_iff. st_steps.
  apply wp_fail_if; [done|]. intros _. st_steps.
  pose proof (active_listed v val Hv Ha) as Hl. apply is_active_true in Ha.
  eapply wp_expect; [done|]. st_steps.
  destruct (existing v val Hv) as ([Ka Kd Kr Kj] & _).
  split; [split; [by apply (wf_deactivated v val)|simpl; lia]|].
  eexists. split; [done|]. intros lg2. unfold revert_deactivate_validator. st_steps.
  rewrite lookup_insert_eq. apply wp_ok_or; [intros val2 [= <-]|done]. st_steps.
  eapply wp_expect; [done|]. st_steps. split; [done|].
  rewrite (insert_delete_id act v) by done.
  by rewrite (insert_validator_restore v val) by (done || solve_validator_eq val).
Qed.

Lemma jail_validator_reversible v :
  reversible (jail_validator v bn) (revert_jail_validator v) (committed 0) start.
Proof.
  apply reversible_wp. intros lg. unfold jail_validator. st_steps.
  apply wp_ok_or; [|done]. intros val Hv. st_steps.
  destruct (existing v val Hv) as ([Ka Kd Kr Kj] & _).
  destruct (is_active val) eqn:Ha; st_steps.
  - pose proof (active_listed v val Hv Ha) as Hl. apply is_active_true in Ha.
    eapply wp_expect; [done|]. st_steps. simpl when. st_steps.
    split; [split; [by apply (wf_deactivated v val)|simpl; lia]|].
    eexists. rewrite <-app_assoc. split; [done|]. intros lg2. unfold revert_jail_validator. st_steps.
    rewrite lookup_insert_eq. apply wp_ok_or; [intros val2 [= <-]|done]. st_steps.
    eapply wp_expect; [done|]. st_steps. simpl when. st_steps.
    split; [done|]. rewrite <-app_assoc, (insert_delete_id act v) by done.
    by rewrite (insert_validator_restore v val) by (done || solve_validator_eq val).
  - apply is_active_false in Ha. simpl when. st_steps.
    split; [split; [by apply (wf_set_validator_same v val)|simpl; lia]|].
    eexists. split; [done|]. intros lg2. unfold revert_jail_validator. st_steps.
    rewrite lookup_insert_eq. apply wp_ok_or; [intros val2 [= <-]|done]. st_steps.
    eapply wp_expect; [done|]. st_steps. simpl when. st_steps. split; [done|].
    by rewrite (insert_validator_restore v val) by (done || solve_validator_eq val).
Qed.

Lemma reactivate_validator_reversible v signer :
  reversible (reactivate_validator v signer bn) (revert_reactivate_validator v)
    (committed 0) start.
Proof.
  apply reversible_wp. intros lg. unfold reactivate_validator. st_steps.
  apply wp_ok_or; [|done]. intros val Hv. st_steps.
  apply wp_fail_if; [done|]. intros Ha. st_steps. apply wp_fail_if; [done|]. intros Hret. st_steps.
  apply wp_fail_if; [done|]. intros Hjail. st_steps. apply wp_fail_if; [done|]. intros _. st_steps.
  pose proof (inactive_unlisted v val Hv Ha) as Hl. apply is_active_false in Ha.
  destruct (v_inactive_from val) as [from|] eqn:Hfrom; [|done].
  eapply wp_expect; [done|]. st_steps.
  destruct (existing v val Hv) as ([Ka Kd Kr Kj] & _).
  assert (Hwf' : WF bn (mk_st bal (<[v:=v_total_stake val]> act) pun
                    (<[v:=v_set_inactive_from None val]> vals) stk tomb)).
  { apply (wf_set_validator v val (v_set_inactive_from None val)); try done.
    split; try done; simpl.
    - by rewrite Hret.
    - intros Hj. unfold is_jailed in *. simpl in Hj. congruence. }
  split; [split; [done|simpl; lia]|].
  eexists. split; [done|]. intros lg2. unfold revert_reactivate_validator. st_steps.
  rewrite lookup_insert_eq. apply wp_ok_or; [intros val2 [= <-]|done]. st_steps.
  rewrite lookup_insert_eq. eapply wp_expect; [done|]. st_steps. split; [done|].
  rewrite delete_insert_id by done.
  by rewrite (insert_validator_restore v val) by (done || solve_validator_eq val).
Qed.

Lemma retire_validator_reversible v block :
  reversible (retire_validator v block) (revert_retire_validator v) (committed 0) start.
Proof.
  apply reversible_wp. intros lg. unfold retire_validator. st_steps.
  apply wp_ok_or; [|done]. intros val Hv. st_steps. apply wp_fail_if; [done|]. intros Hret. st_steps.
  destruct (existing v val Hv) as ([Ka Kd Kr Kj] & _).
  change (is_active (v_set_retired true val)) with (is_active val).
  destruct (is_active val) eqn:Ha; st_steps.
  - pose proof (active_listed v val Hv Ha) as Hl. apply is_active_true in Ha.
    eapply wp_expect; [done|]. st_steps.
    split; [split; [by apply (wf_deactivated v val)|simpl; lia]|].
    eexists. rewrite <-app_assoc. split; [done|]. intros lg2. unfold revert_retire_validator. st_steps.
    rewrite lookup_insert_eq. apply wp_ok_or; [intros val2 [= <-]|done]. st_steps.
    eapply wp_expect; [done|]. st_steps.
    split; [done|]. rewrite <-app_assoc, (insert_delete_id act v) by done.
    by rewrite (insert_validator_restore v val) by (done || solve_validator_eq val).
  - apply is_active_false in Ha.
    split; [split; [by apply (wf_set_validator_same v val)|simpl; lia]|].
    eexists. split; [done|]. intros lg2. unfold revert_retire_validator. st_steps.
    rewrite lookup_insert_eq. apply wp_ok_or; [intros val2 [= <-]|done]. st_steps. split; [done|].
    by rewrite (insert_validator_restore v val) by (done || solve_validator_eq val).
Qed.

(** ** Creation *)

(** A fresh address: no validator, no tombstone, hence no delegator. *)
Lemma fresh_address v : vals !! v = None -> tomb !! v = None ->
  delegators stk v = 0 /\ staked stk v = 0 /\ act !! v = None.
Proof.
  intros Hv Ht. destruct (wf_books_eq Hwf v) as (_ & _ & Hz & Hbk). rewrite Hv, Ht in Hbk.
  destruct Hbk as [Hact Htomb]. destruct (Z.eqb_spec (delegators stk v) 0); [|done].
  split_and!; auto.
Qed.

Lemma wf_created v val :
  vals !! v = None -> tomb !! v = None -> validator_ok bn v val ->
  v_total_stake val = v_deposit val -> v_num_stakers val = 0 ->
  bal + v_deposit val <= MAX_SAFE_VALUE ->
  WF bn (mk_st (bal + v_deposit val) (set_listed v (listed val) act) pun (<[v:=val]> vals) stk tomb).
Proof.
  intros Hv Htomb Hok Ht Hn Hmax. destruct (fresh_address v Hv Htomb) as (Hn0 & Ha0 & _).
  split; simpl.
  - eapply (books_at v); [apply (wf_books_eq Hwf)| |].
    + rewrite lookup_insert_eq, set_listed_lookup, Hn0, Ha0.
      split_and!; [done..|lia|done|done|done].
    + intros w Hw. rewrite lookup_insert_ne, set_listed_ne by done. done.
  - rewrite map_sum_insert, Hv. simpl. pose proof (wf_balance_eq Hwf). lia.
  - done.
  - intros k w [[<- <-]|[_ Hk]]%lookup_insert_Some; [done|by apply (wf_validators _ _ Hwf)].
  - apply (wf_stakers _ _ Hwf).
  - apply (wf_punished _ _ Hwf).
Qed.

Lemma create_validator_reversible v sk vk ra sd deposit inactive jailed retired :
  0 <= deposit -> bal + deposit <= MAX_SAFE_VALUE ->
  reversible (create_validator v sk vk ra sd deposit inactive jailed retired bn)
    (fun _ => revert_create_validator v deposit) (committed deposit) start.
Proof.
  intros Hd Hmax. apply reversible_wp. intros lg. unfold create_validator. st_steps.
  apply wp_fail_if; [done|]. intros Hv%bool_decide_eq_false%eq_None_not_Some. st_steps.
  apply wp_fail_if; [done|]. intros Hinv. st_steps.
  apply wp_fail_if; [done|]. intros Htomb%bool_decide_eq_false%eq_None_not_Some. st_steps.
  pose proof (wf_balance_nonneg Hwf). apply wp_add; [lia..|]. st_steps.
  set (val := mk_validator v sk vk ra sd deposit deposit 0 inactive jailed retired).
  destruct (fresh_address v Hv Htomb) as (_ & _ & Hact).
  assert (Hok : validator_ok bn v val).
  { split; simpl; [done|done|..]; intros He Hn; subst inactive; simpl in Hinv.
    - by rewrite He in Hinv.
    - unfold is_jailed in He. simpl in He. by rewrite He, orb_true_r in Hinv. }
  pose proof (wf_created v val Hv Htomb Hok eq_refl eq_refl Hmax) as Hwf'.
  assert (Hgoal : forall lg', wp (push_log (Log.CreateValidator v ra);; put_validator v val)
    (fun (r : unit) s => committed deposit r s.1 /\ exists new_logs, s.2 = lg' ++ new_logs /\
       forall lg2, wp (revert_create_validator v deposit)
         (fun a s2 => a = tt /\ s2 = (start, lg2 ++ reverse new_logs)) (fun _ _ => False) (s.1, lg2))
    (fun _ s => s.1 = start)
    (mk_st (bal + deposit) (set_listed v (listed val) act) pun vals stk tomb, lg')).
  { intros lg'. st_steps. split; [by split|]. eexists. split; [done|]. intros lg2.
    unfold revert_create_validator. st_steps. rewrite lookup_insert_eq.
    apply wp_ok_or; [intros val2 [= <-]|done]. st_steps.
    apply wp_assert; [by rewrite Z.eqb_refl|]. st_steps. simpl. apply wp_sub; [lia..|]. st_steps.
    split; [done|]. rewrite delete_insert_id by done. f_equal. f_equal. f_equal; [lia|].
    change (delete v ?m) with (set_listed v None m). rewrite set_listed_twice.
    rewrite <-Hact. apply set_listed_id. }
  unfold when. unfold listed in *. destruct (is_active val) eqn:Hactive; st_steps; simpl in Hgoal.
  - apply Hgoal.
  - rewrite (delete_id act) in Hgoal by done. apply Hgoal.
Qed.

(** ** Deletion *)

Lemma wp_enforce_release v val block Q QE (s : St * list Log.t) :
  validator_ok bn v val ->
  (forall from, v_retired val = true -> v_inactive_from val = Some from -> Q tt s) ->
  (forall e, QE e s) -> wp (enforce_retire_and_release val block) Q QE s.
Proof.
  intros [_ _ Hr _] HQ HE. unfold enforce_retire_and_release.
  apply wp_bind, wp_fail_if; [by intros; apply HE|]. intros Hret%negb_false_iff.
  apply wp_bind, wp_fail_if; [by intros; apply HE|]. intros _.
  destruct (v_inactive_from val) as [from|] eqn:Hfrom; [|by destruct (Hr Hret)].
  apply wp_bind. eapply wp_expect; [done|].
  apply wp_fail_if; [by intros; apply HE|]. intros _. by eapply HQ.
Qed.

(** The state after deleting the validator [val] at [v]. *)
Definition deleted_tombs (v : Z) : gmap Z Tombstone :=
  if 0 <? delegators stk v
  then <[v := mk_tombstone (staked stk v) (delegators stk v)]> tomb else tomb.
Definition deleted (v : Z) (val : Validator) : St :=
  mk_st (bal - v_deposit val) act pun (delete v vals) stk (deleted_tombs v).
Definition delete_receipt (val : Validator) (from : Z) : DeleteValidatorReceipt :=
  mk_delete_validator_receipt (v_signing_key val) (v_voting_key val) (v_reward_address val)
    (v_signal_data val) from (v_jailed_from val).

Lemma deposit_le v val : vals !! v = Some val -> 0 <= v_deposit val <= bal /\
  v_deposit val + staked stk v <= bal /\ 0 <= staked stk v /\ 0 <= delegators stk v < max_value 64.
Proof.
  intros Hv. pose proof (wf_deposit_nonneg Hwf v val Hv). pose proof (wf_total_stake_le Hwf v val Hv).
  destruct (wf_books_eq Hwf v) as (? & ? & _). pose proof (wf_delegators_max Hwf v). lia.
Qed.

Lemma wp_delete_validator v block value Q QE lg :
  (forall val from, vals !! v = Some val -> value = v_deposit val -> v_retired val = true ->
     v_inactive_from val = Some from ->
     Q (delete_receipt val from)
       (deleted v val, lg ++ [Log.DeleteValidator v (v_reward_address val)])) ->
  (forall e, QE e (start, lg)) ->
  wp (delete_validator v block value) Q QE (start, lg).
Proof.
  intros HQ HE. unfold delete_validator. st_steps.
  apply wp_ok_or; [|by intros; apply HE]. intros val Hv. st_steps. unfold can_delete_validator.
  st_steps. apply wp_fail_if; [by intros; apply HE|]. intros Hval%negb_false_iff%Z.eqb_eq. st_steps.
  destruct (existing v val Hv) as (Hok & Ht & Hn & Htomb & Hact).
  destruct (deposit_le v val Hv) as (Hd1 & Hd2 & Hs0 & Hn0). pose proof (wf_max_le Hwf).
  apply (wp_enforce_release v); [done| |done]. intros from Hret Hfrom. st_steps.
  apply wp_sub; [lia..|]. st_steps.
  specialize (HQ val from Hv Hval Hret Hfrom). unfold deleted, deleted_tombs in HQ.
  unfold when. rewrite Hn. destruct (Z.ltb_spec 0 (delegators stk v)); st_steps.
  - apply wp_sub; [lia..|]. st_steps. eapply wp_expect; [done|]. st_steps.
    replace (v_total_stake val - v_deposit val) with (staked stk v) by lia. exact HQ.
  - eapply wp_expect; [done|]. st_steps. exact HQ.
Qed.

Lemma wf_deleted v val :
  vals !! v = Some val -> v_inactive_from val <> None -> WF bn (deleted v val).
Proof.
  intros Hv Hfrom. destruct (existing v val Hv) as (Hok & Ht & Hn & Htomb & Hact).
  destruct (deposit_le v val Hv) as (Hd1 & Hd2 & Hs0 & Hn0). pose proof (wf_max_le Hwf).
  assert (Hnone : act !! v = None).
  { rewrite Hact. unfold listed, is_active. by rewrite bool_decide_eq_false_2. }
  unfold deleted. split; simpl.
  - eapply (books_at v); [apply (wf_books_eq Hwf)| |].
    + destruct (wf_books_eq Hwf v) as (H1 & H2 & H3 & _). rewrite lookup_delete_eq, Hnone.
      split_and!; [done..|]. unfold deleted_tombs.
      destruct (Z.ltb_spec 0 (delegators stk v)), (Z.eqb_spec (delegators stk v) 0); try lia.
      * apply lookup_insert_eq.
      * done.
    + intros w Hw. rewrite lookup_delete_ne by done. unfold deleted_tombs.
      case_match; rewrite ?lookup_insert_ne by done; done.
  - rewrite map_sum_delete, Hv. simpl. pose proof (wf_balance_eq Hwf). lia.
  - lia.
  - intros k w [_ Hk]%lookup_delete_Some. by apply (wf_validators _ _ Hwf).
  - apply (wf_stakers _ _ Hwf).
  - apply (wf_punished _ _ Hwf).
Qed.

(** The revert brings the validator back with the deposit [t]. *)
Lemma wp_revert_delete_validator v val from t Q QE lg :
  vals !! v = Some val -> v_retired val = true -> v_inactive_from val = Some from ->
  0 <= t -> bal - v_deposit val + t <= MAX_SAFE_VALUE ->
  Q tt (mk_st (bal - v_deposit val + t) act pun
          (<[v := v_set_total_stake (t + staked stk v) (v_set_deposit t val)]> vals) stk tomb,
        lg ++ [Log.DeleteValidator v (v_reward_address val)]) ->
  wp (revert_delete_validator v t (delete_receipt val from)) Q QE (deleted v val, lg).
Proof.
  intros Hv Hret Hfrom H0t Hmax HQ. unfold deleted, delete_receipt, revert_delete_validator.
  destruct (existing v val Hv) as ([Ka _ _ _] & Ht & Hn & Htomb & Hact).
  destruct (deposit_le v val Hv) as (Hd1 & Hd2 & Hs0 & Hn0).
  st_steps. apply wp_add; [lia..|]. st_steps.
  unfold deleted_tombs. destruct (Z.ltb_spec 0 (delegators stk v)) as [Hpos|Hzero].
  - rewrite lookup_insert_eq. st_steps. simpl. apply wp_add; [lia..|]. st_steps.
    rewrite wrap_small by (unfold in_width; lia).
    rewrite (delete_insert_id tomb) by done. rewrite insert_delete_eq.
    destruct val; unfold v_set_total_stake, v_set_deposit, v_set_num_stakers in *; simpl in *.
    subst. exact HQ.
  - rewrite Htomb. st_steps. rewrite insert_delete_eq.
    assert (delegators stk v = 0) as Hdz by lia.
    destruct (wf_books_eq Hwf v) as (_ & _ & Hz & _). rewrite (Hz Hdz), Z.add_0_r in HQ.
    rewrite Hdz in Hn.
    destruct val; unfold v_set_total_stake, v_set_deposit in *; simpl in *. subst. exact HQ.
Qed.

Lemma delete_validator_reversible v block value :
  reversible (delete_validator v block value) (revert_delete_validator v value)
    (committed (- value)) start.
Proof.
  apply reversible_wp. intros lg. apply wp_delete_validator; [|done].
  intros val from Hv -> Hret Hfrom.
  destruct (existing v val Hv) as (Hok & Ht & Hn & Htomb & Hact).
  destruct (deposit_le v val Hv) as (Hd1 & Hd2 & Hs0 & Hn0). pose proof (wf_max_le Hwf).
  split; [split; [apply wf_deleted; [done|by rewrite Hfrom]|simpl; lia]|].
  eexists. split; [done|]. intros lg2. simpl fst.
  apply wp_revert_delete_validator; [done|done|done|lia|lia|].
  split; [done|]. f_equal. f_equal; f_equal; [lia|]. apply insert_id. rewrite Hv. f_equal.
  solve_validator_eq val.
Qed.

(** ** Fees taken from the deposit *)

Definition fee_deducted (v : Z) (val : Validator) (fee : Z) : St :=
  mk_st (bal - fee) act pun
    (<[v := v_set_total_stake (v_total_stake val - fee)
              (v_set_deposit (v_deposit val - fee) val)]> vals) stk tomb.

Lemma wf_fee_deducted v val fee :
  vals !! v = Some val -> v_inactive_from val <> None -> 0 <= fee <= v_deposit val ->
  WF bn (fee_deducted v val fee).
Proof.
  intros Hv Hfrom Hfee. destruct (existing v val Hv) as ([Ka Kd Kr Kj] & Ht & Hn & Htomb & Hact).
  destruct (deposit_le v val Hv) as (Hd1 & Hd2 & Hs0 & Hn0). pose proof (wf_max_le Hwf).
  unfold fee_deducted. split; simpl.
  - eapply (books_at v); [apply (wf_books_eq Hwf)| |].
    + destruct (wf_books_eq Hwf v) as (H1 & H2 & H3 & _). rewrite lookup_insert_eq, Hact.
      split_and!; [done..|simpl; lia|done|done|].
      unfold listed, is_active. simpl. by rewrite bool_decide_eq_false_2.
    + intros w Hw. by rewrite lookup_insert_ne.
  - rewrite map_sum_insert, Hv. simpl. pose proof (wf_balance_eq Hwf). lia.
  - lia.
  - intros k w [[<- <-]|[_ Hk]]%lookup_insert_Some; [|by apply (wf_validators _ _ Hwf)].
    split; simpl; [done|lia|done|done].
  - apply (wf_stakers _ _ Hwf).
  - apply (wf_punished _ _ Hwf).
Qed.
End Proofs.
