(* ===== verification/StakingProofs.v ===== *)
(** * The staking contract: correctness of transactions and inherents *)

From S2P Require Import Prelude Coin Policy BitSet AccountTypes PunishedSlots StakingTypes.
From S2P Require Import ValidatorOps StakerOps StakingContract StakingInv StakerProofs.
From S2P Require Import ValidatorProofs.

Section Proofs.
Context `{P : Policy} {HP : PolicyOk P} `{Env : StakingEnv} `{Rc : StakingReceipts}.

(** What static verification of an incoming transaction guarantees
    ([StakingContractVerifier], [IncomingStakingTransactionData::verify]):
    amounts are coins, signaling transactions carry no value, and validators and
    stakers are created with the required amounts. *)
Definition incoming_verified (tx : Transaction) (data : Incoming.t SignatureProof) : Prop :=
  0 <= tx_value tx /\ (is_signaling data = true -> tx_value tx = 0) /\
  match data with
  | Incoming.CreateStaker _ _ => MINIMUM_STAKE <= tx_value tx
  | Incoming.SetActiveStake x _ | Incoming.RetireStake x _ => 0 <= x
  | _ => True
  end.

(** The committed state: the invariant holds and the balance moved by [delta]. *)
Definition commits (bn : Z) (x : St) (delta : Z) {R} (_ : R) (x' : St) : Prop :=
  WF bn x' /\ sc_balance x'.1 = sc_balance x.1 + delta.

Lemma take_receipt_some {X T} `{ConvertReceipt T} (r : T) {A} (k : T -> AM X A) s :
  (take_receipt (Some (into_receipt r)) ≫= k) s = k r s.
Proof. unfold take_receipt, mbind, M_bind. simpl. by rewrite try_from_into. Qed.

Lemma parsed {A B} (a : A) (e : AccountError.t) (k : A -> AM St B) s :
  (ok_or (Some a) e ≫= k) s = k a s.
Proof. done. Qed.

(** Lift the reversibility of one operation to the transaction that runs it. *)
Ltac lift_op op :=
  lazymatch goal with
  | Hparse : parse_incoming _ = Some _, Hpost : forall R delta, _ -> _ |- _ =>
      eapply reversible_lift;
      [ eapply op
      | by intros s; unfold commit_incoming_transaction; rewrite Hparse
      | intros r s; unfold revert_incoming_transaction; rewrite Hparse;
        first [reflexivity | rewrite parsed; apply take_receipt_some]
      | intros r x'; apply Hpost; lia ]; try lia
  end.

Lemma commit_incoming_reversible tx bs x :
  WF (bs_number bs) x ->
  (forall data, parse_incoming tx = Some data -> incoming_verified tx data) ->
  sc_balance x.1 + tx_value tx <= MAX_SAFE_VALUE ->
  reversible (commit_incoming_transaction tx bs) (revert_incoming_transaction tx)
    (commits (bs_number bs) x (tx_value tx)) x.
Proof.
  intros Hwf Hver Hmax. destruct x as [[bal act pun] [vals stk tomb]]. simpl in Hmax.
  destruct (parse_incoming tx) as [data|] eqn:Hparse.
  2:{ eapply reversible_fail. intros s. unfold commit_incoming_transaction. by rewrite Hparse. }
  destruct (Hver data eq_refl) as (H0 & Hsig & Hspec). clear Hver.
  assert (Hpost : forall R delta, delta = tx_value tx -> forall R' (r : R) (r' : R') x',
    committed (bn:=bs_number bs) (bal:=bal) delta r x' ->
    commits (bs_number bs) (mk_st bal act pun vals stk tomb) (tx_value tx) r' x').
  { intros R delta -> R' r r' x' [Hw Hb]. by split. }
  destruct data; simpl in Hsig, Hspec.
  - lift_op (create_validator_reversible Hwf).
  - lift_op (update_validator_reversible Hwf).
  - lift_op (deactivate_validator_reversible Hwf).
  - lift_op (reactivate_validator_reversible Hwf).
  - lift_op (retire_validator_reversible Hwf).
  - lift_op (create_staker_reversible Hwf).
  - lift_op (add_stake_reversible Hwf).
  - lift_op (update_staker_reversible Hwf).
  - lift_op (set_active_stake_reversible Hwf).
  - lift_op (retire_stake_reversible Hwf).
  - lift_op (set_signal_data_reversible Hwf).
Qed.

(** ** Outgoing transactions *)

(** The tail shared by the reverts of outgoing transactions. *)
Lemma revert_logged (k : AM St (outcome AccountError.t unit)) (m : AM St unit) tx x y lg :
  (forall s, k s = catch m s) -> m (y, lg) = (Ok tt, (x, (m (y, lg)).2.2)) ->
  (result ← k;
   push_log (Log.transfer_log tx);;
   push_log (Log.pay_fee_log tx);;
   lift result) (y, lg)
  = (Ok tt, (x, (m (y, lg)).2.2 ++ reverse [Log.pay_fee_log tx; Log.transfer_log tx])).
Proof.
  intros Hk Hm. unfold mbind, M_bind. rewrite Hk. unfold catch. rewrite Hm. simpl.
  unfold lift. by rewrite <-app_assoc.
Qed.

Lemma commit_outgoing_reversible tx bs x :
  WF (bs_number bs) x -> 0 <= total_value tx ->
  reversible (commit_outgoing_transaction tx bs) (revert_outgoing_transaction tx)
    (commits (bs_number bs) x (- total_value tx)) x.
Proof.
  intros Hwf Hv. destruct x as [[bal act pun] [vals stk tomb]].
  destruct (parse_outgoing tx) as [data|] eqn:Hparse.
  2:{ eapply reversible_fail. intros s. unfold commit_outgoing_transaction. by rewrite Hparse. }
  destruct (parse_signature_proof (tx_proof tx)) as [proof|] eqn:Hproof.
  2:{ eapply reversible_fail. intros s. unfold commit_outgoing_transaction.
      by rewrite Hparse, Hproof. }
  destruct data.
  - eapply (reversible_logged _ _ _ _ [Log.pay_fee_log tx; Log.transfer_log tx]).
    + apply (delete_validator_reversible Hwf (compute_signer proof) (bs_number bs) (total_value tx)).
    + intros lg. unfold commit_outgoing_transaction. rewrite Hparse, Hproof.
      change ([?a; ?b]) with ([a] ++ [b]). rewrite (app_assoc lg). reflexivity.
    + intros r y lg Hr. unfold revert_outgoing_transaction. rewrite Hparse, Hproof, !parsed.
      apply revert_logged; [|done]. intros s.
      exact (take_receipt_some r (fun r =>
        catch (revert_delete_validator (compute_signer proof) (total_value tx) r)) s).
    + by intros r x' [Hw Hb].
  - eapply (reversible_logged _ _ _ (fmap into_receipt)
              [Log.pay_fee_log tx; Log.transfer_log tx]).
    + apply (reversible_guard
        (staker ← expect_staker (compute_signer proof); can_remove_stake staker (total_value tx))).
      * by apply (remove_stake_reversible Hwf (compute_signer proof) (total_value tx)).
      * intros lg. unfold expect_staker, get_staker, can_remove_stake, mbind, M_bind. simpl.
        destruct (stk !! compute_signer proof); simpl; [|by eauto].
        destruct (negb _); simpl; eauto.
    + intros lg. unfold commit_outgoing_transaction. rewrite Hparse, Hproof.
      change ([?a; ?b]) with ([a] ++ [b]). rewrite (app_assoc lg).
      rewrite !parsed. unfold mbind, M_bind, push_log, modify. simpl.
      destruct (expect_staker _ _) as [[a|e|] s1]; [|done..].
      by destruct (can_remove_stake a _ s1) as [[] s2].
    + intros r y lg Hr. unfold revert_outgoing_transaction. rewrite Hparse, Hproof, !parsed.
      apply revert_logged; [|done]. intros s. destruct r; simpl; [|done].
      unfold mbind, M_bind. simpl. by rewrite try_from_into.
    + by intros r x' [Hw Hb].
Qed.

(** ** Failed transactions *)

Section Failed.
Context {bn bal : Z} {act : gmap Z Z} {pun : PunishedSlots}.
Context {vals : gmap Z Validator} {stk : gmap Z Staker} {tomb : gmap Z Tombstone}.
Hypothesis Hwf : WF bn (mk_st bal act pun vals stk tomb).
Context (tx : Transaction) (proof : SignatureProof).
Hypothesis Hfee : 0 <= tx_fee tx.
Hypothesis Hproof : parse_signature_proof (tx_proof tx) = Some proof.
Local Abbreviation start := (mk_st bal act pun vals stk tomb).
Local Abbreviation v := (compute_signer proof).
Local Abbreviation pay_fee := (Log.pay_fee_log tx).
Local Abbreviation deduction := (Log.ValidatorFeeDeduction v (tx_fee tx)).

(** The revert of a failed deletion that left the validator in place. *)
Lemma revert_fee_deduction val lg :
  parse_outgoing tx = Some Outgoing.DeleteValidator ->
  vals !! v = Some val -> tx_fee tx <= v_deposit val ->
  wp (revert_failed_transaction tx None)
    (fun a s => a = tt /\ s = (start, lg ++ [deduction; pay_fee])) (fun _ _ => False)
    (fee_deducted (bal:=bal) (act:=act) (pun:=pun) (vals:=vals) (stk:=stk) (tomb:=tomb)
       v val (tx_fee tx), lg).
Proof.
  intros Hparse Hv Hle. destruct (deposit_le Hwf v val Hv) as (Hd1 & Hd2 & Hs0 & Hn0).
  pose proof (wf_max_le Hwf). destruct (existing Hwf v val Hv) as (_ & Ht & _).
  unfold revert_failed_transaction, fee_deducted. rewrite Hparse, Hproof.
  apply wp_bind, wp_ret, wp_bind, wp_ret, wp_bind. st_steps. rewrite lookup_insert_eq. st_steps.
  apply wp_add; [simpl; lia..|]. st_steps. apply wp_add; [simpl; lia..|]. st_steps.
  apply wp_add; [lia..|]. st_steps. split; [done|]. rewrite <-app_assoc. f_equal. f_equal; f_equal; [lia|].
  rewrite insert_insert_eq. apply insert_id. rewrite Hv. f_equal.
  destruct val. unfold v_set_total_stake, v_set_deposit. simpl. f_equal; lia.
Qed.

(** The revert of a failed deletion whose fee used up the deposit. *)
Lemma revert_fee_deletion val from lg :
  parse_outgoing tx = Some Outgoing.DeleteValidator ->
  vals !! v = Some val -> v_retired val = true -> v_inactive_from val = Some from ->
  tx_fee tx = v_deposit val ->
  wp (revert_failed_transaction tx (Some (into_receipt (delete_receipt val from))))
    (fun a s => a = tt /\ s = (start,
       lg ++ [deduction; Log.DeleteValidator v (v_reward_address val); pay_fee]))
    (fun _ _ => False)
    (deleted (bal:=bal) (act:=act) (pun:=pun) (vals:=vals) (stk:=stk) (tomb:=tomb) v val, lg).
Proof.
  intros Hparse Hv Hret Hfrom He. destruct (deposit_le Hwf v val Hv) as (Hd1 & Hd2 & Hs0 & Hn0).
  pose proof (wf_max_le Hwf). destruct (existing Hwf v val Hv) as (_ & Ht & _).
  unfold revert_failed_transaction. rewrite Hparse, Hproof.
  apply wp_bind, wp_ret, wp_bind, wp_ret, wp_bind. unfold deleted at 1. st_steps.
  rewrite lookup_delete_eq, try_from_into. st_steps.
  eapply (wp_revert_delete_validator Hwf v val from 0); [done..|lia|]. st_steps.
  rewrite lookup_insert_eq. eapply wp_expect; [done|]. st_steps.
  apply wp_add; [simpl; lia..|]. st_steps. apply wp_add; [simpl; lia..|]. st_steps.
  apply wp_add; [lia..|]. st_steps. split; [done|]. rewrite <-!app_assoc. f_equal.
  f_equal; f_equal; [lia|]. rewrite insert_insert_eq. apply insert_id. rewrite Hv. f_equal.
  destruct val. unfold v_set_total_stake, v_set_deposit. simpl in *. f_equal; lia.
Qed.

Lemma commit_failed_delete bs :
  parse_outgoing tx = Some Outgoing.DeleteValidator ->
  restorable (commit_failed_transaction tx bs) (revert_failed_transaction tx)
    (commits bn start (- tx_fee tx)) start.
Proof.
  intros Hparse. apply restorable_wp. intros lg. unfold commit_failed_transaction.
  rewrite Hparse, Hproof. apply wp_bind, wp_ret, wp_bind, wp_ret. st_steps.
  apply wp_ok_or; [|done]. intros val Hv. st_steps.
  destruct (deposit_le Hwf v val Hv) as (Hd1 & Hd2 & Hs0 & Hn0). pose proof (wf_max_le Hwf).
  destruct (existing Hwf v val Hv) as (Hok & Ht & _).
  apply wp_safe_sub_or; [lia..| |done]. intros Hle. st_steps.
  eapply (wp_enforce_release v); [exact Hok| |done]. intros from Hret Hfrom. st_steps.
  unfold is_zero. destruct (Z.eqb_spec (v_deposit val - tx_fee tx) 0).
  - st_steps. apply (wp_delete_validator Hwf); [|done]. intros val2 from2 Hv2 Hd Hret2 Hfrom2.
    assert (val2 = val) as -> by congruence. assert (from2 = from) as -> by congruence. st_steps.
    split; [split; [apply (wf_deleted Hwf); [done|by rewrite Hfrom]|simpl; lia]|].
    eexists. rewrite <-!app_assoc. split; [done|].
    exists [deduction; Log.DeleteValidator v (v_reward_address val); pay_fee].
    split; [by rewrite (Permutation_app_comm [_; _] [_] : [_; _; _] ≡ₚ _)|].
    intros lg2. by apply revert_fee_deletion.
  - st_steps. apply wp_safe_sub_or; [simpl; lia..| |lia]. intros _. st_steps.
    apply wp_sub; [lia..|]. st_steps.
    split; [split; [apply (wf_fee_deducted Hwf); [done|by rewrite Hfrom|lia]|simpl; lia]|].
    eexists. rewrite <-!app_assoc. split; [done|]. exists [deduction; pay_fee].
    split; [apply Permutation_swap|]. intros lg2. by apply revert_fee_deduction.
Qed.

Lemma commit_failed_remove bs :
  parse_outgoing tx = Some Outgoing.RemoveStake ->
  reversible (commit_failed_transaction tx bs) (revert_failed_transaction tx)
    (commits bn start (- tx_fee tx)) start.
Proof.
  intros Hparse. apply reversible_wp. intros lg. unfold commit_failed_transaction.
  rewrite Hparse, Hproof. apply wp_bind, wp_ret, wp_bind, wp_ret. st_steps.
  apply (wp_reversible_empty _ _ _ _ _ _ _ (remove_stake_reversible Hwf v (tx_fee tx) Hfee)); [|done].
  intros r x' Hpost Hrev. st_steps.
  destruct r as [r|]; st_steps;
    (split; [done|]; eexists; rewrite <-?app_assoc; split; [done|]; intros lg2;
     unfold revert_failed_transaction; rewrite Hparse, Hproof;
     apply wp_bind, wp_ret, wp_bind, wp_ret, wp_bind; st_steps;
     unfold take_optional_receipt; cbn [fmap option_fmap option_map];
     rewrite ?try_from_into; st_steps;
     (eapply wp_mono; [apply Hrev| |done]); intros [] s [_ ->]; st_steps;
     split; [done|]; by rewrite <-?app_assoc).
Qed.
End Failed.

Lemma commit_failed_restorable tx bs x :
  WF (bs_number bs) x -> 0 <= tx_fee tx ->
  restorable (commit_failed_transaction tx bs) (revert_failed_transaction tx)
    (commits (bs_number bs) x (- tx_fee tx)) x.
Proof.
  intros Hwf Hfee. destruct x as [[bal act pun] [vals stk tomb]].
  destruct (parse_outgoing tx) as [[]|] eqn:Hparse;
    destruct (parse_signature_proof (tx_proof tx)) as [proof|] eqn:Hproof;
    try (intros lg; unfold commit_failed_transaction; by rewrite Hparse, ?Hproof).
  - by apply (commit_failed_delete Hwf tx proof).
  - by apply reversible_restorable, (commit_failed_remove Hwf tx proof).
Qed.

(** ** Slashing inherents *)

Lemma wf_set_punished bn x ps :
  WF bn x -> punished_ok ps -> WF bn (sc_set_punished_slots ps x.1, x.2).
Proof. by intros [? ? ? ? ? ?] ?. Qed.

Lemma st_eta (x : St) :
  (mk_staking_contract (sc_balance x.1) (sc_active_validators x.1) (sc_punished_slots x.1), x.2) = x.
Proof. by destruct x as [[? ? ?] ?]. Qed.

(** The conditions under which the chain issues slashing inherents at block
    [bn]: slot bands are not empty, and offenses are reported within the
    reporting window of one epoch. *)
Definition slashing_ok (bn : Z) (inherent : Inherent.t) : Prop :=
  match inherent with
  | Inherent.Jail jv range =>
      range_ok (jail_slots jv) /\ (forall r, range = Some r -> range_ok r) /\
      jail_offense_event_block jv <= bn <= jail_offense_event_block jv + blocks_per_epoch
  | Inherent.Penalize slot => 0 <= pen_slot slot
  | _ => False
  end.

Lemma commit_jail_reversible jv range bs x :
  WF (bs_number bs) x -> in_width 32 (bs_number bs) ->
  slashing_ok (bs_number bs) (Inherent.Jail jv range) ->
  reversible (commit_inherent (Inherent.Jail jv range) bs)
    (revert_inherent (Inherent.Jail jv range)) (commits (bs_number bs) x 0) x.
Proof.
  intros Hwf Hw (Hr1 & Hr2 & Hwin). destruct x as [[bal act pun] [vals stk tomb]].
  apply reversible_wp. intros lg. unfold commit_inherent. apply wp_bind.
  apply (wp_reversible_tx _ _ _ _ _ _ _ (jail_validator_reversible Hwf (jail_validator_address jv)));
    [|done].
  intros r x' new_logs [Hw' Hb'] Hrev. unfold set_punished. st_steps.
  destruct (register_jail_total (sc_punished_slots x'.1) jv (bs_number bs) range)
    as [[ps' [prev cur]] Hreg]; [lia|done|lia|].
  eapply wp_expect; [exact Hreg|]. st_steps.
  split.
  { split; [|done]. apply wf_set_punished; [done|].
    eapply register_jail_ok; [apply (wf_punished _ _ Hw')|done|done|done]. }
  exists new_logs. split; [done|]. intros lg2. unfold revert_inherent. apply wp_bind.
  eapply wp_take_receipt; [done|]. unfold set_punished. st_steps.
  rewrite (revert_register_jail_id _ _ _ _ _ _ _ Hreg).
  rewrite st_eta. destruct r. apply Hrev.
Qed.

Lemma commit_penalize_reversible slot bs x :
  WF (bs_number bs) x -> slashing_ok (bs_number bs) (Inherent.Penalize slot) ->
  reversible (commit_inherent (Inherent.Penalize slot) bs)
    (revert_inherent (Inherent.Penalize slot)) (commits (bs_number bs) x 0) x.
Proof.
  intros Hwf Hs. destruct x as [[bal act pun] [vals stk tomb]].
  apply reversible_wp. intros lg. unfold commit_inherent. st_steps.
  apply wp_ok_or; [|done]. intros val Hv. st_steps.
  (* the second half, after a possible deactivation logged as [dlogs] *)
  enough (Htail : forall x' dlogs, WF (bs_number bs) x' -> sc_balance x'.1 = bal ->
    (forall lg2, wp (when (is_active val)
                       (with_tx_logger (revert_deactivate_validator (pen_validator_address slot))))
       (fun a s => a = tt /\ s = (mk_st bal act pun vals stk tomb, lg2 ++ reverse dlogs))
       (fun _ _ => False) (x', lg2)) ->
    wp (ps ← get_state (fun x : St => sc_punished_slots x.1);
        set_punished (register_penalty ps slot (bs_number bs)).1;;
        push_log (Log.Penalize (pen_validator_address slot) (pen_offense_event_block slot)
                    (pen_slot slot) (is_active val));;
        mret (Some (into_receipt (mk_penalize_receipt (is_active val)
          (register_penalty ps slot (bs_number bs)).2.1
          (register_penalty ps slot (bs_number bs)).2.2))))
      (fun r s => commits (bs_number bs) (mk_st bal act pun vals stk tomb) 0 r s.1 /\
         exists new_logs, s.2 = lg ++ new_logs /\
         forall lg2, wp (revert_inherent (Inherent.Penalize slot) r)
           (fun a s2 => a = tt /\ s2 = (mk_st bal act pun vals stk tomb, lg2 ++ reverse new_logs))
           (fun _ _ => False) (s.1, lg2))
      (fun _ s => s.1 = mk_st bal act pun vals stk tomb) (x', lg ++ dlogs)).
  { unfold when. destruct (is_active val) eqn:Ha; unfold when in Htail.
    - apply (wp_reversible_tx _ _ _ _ _ _ _ (deactivate_validator_reversible Hwf
        (pen_validator_address slot) (address_of_key (v_signing_key val)) (bs_number bs))); [|done].
      intros [] x' new_logs [Hw' Hb'] Hrev. apply Htail; [done|lia|]. apply Hrev.
    - apply wp_ret. specialize (Htail (mk_st bal act pun vals stk tomb) []).
      rewrite app_nil_r in Htail. apply Htail; [done|done|]. intros lg2. apply wp_ret. by rewrite app_nil_r. }
  intros x' dlogs Hw' Hb' Hrev. unfold set_punished. st_steps.
  destruct (register_penalty _ _ _) as [ps' [np nc]] eqn:Hreg. simpl.
  split.
  { split; [|simpl; lia]. apply wf_set_punished; [done|].
    pose proof (register_penalty_ok (sc_punished_slots x'.1) slot (bs_number bs)
      (wf_punished _ _ Hw') Hs) as Hok. by rewrite Hreg in Hok. }
  eexists. rewrite <-app_assoc. split; [done|]. intros lg2. unfold revert_inherent. apply wp_bind.
  eapply wp_take_receipt; [done|]. unfold set_punished. st_steps.
  eapply wp_expect; [by apply (revert_register_penalty_id (sc_punished_slots x'.1) slot (bs_number bs));
    [apply (wf_punished _ _ Hw')| |]|]. st_steps.
  rewrite st_eta.
  rewrite reverse_app. simpl reverse at 1. rewrite (app_assoc lg2). apply Hrev.
Qed.

(** ** Version upgrades *)

Lemma wp_deactivate bn bal act pun vals stk tomb v val block Q QE lg :
  WF bn (mk_st bal act pun vals stk tomb) -> vals !! v = Some val -> is_active val = true ->
  (WF bn (mk_st bal (delete v act) pun
            (<[v := v_set_inactive_from (Some (election_block_after block)) val]> vals) stk tomb) ->
   Q tt (mk_st bal (delete v act) pun
           (<[v := v_set_inactive_from (Some (election_block_after block)) val]> vals) stk tomb,
         lg ++ [Log.DeactivateValidator v (election_block_after block)])) ->
  wp (deactivate_validator v (address_of_key (v_signing_key val)) block) Q QE
    (mk_st bal act pun vals stk tomb, lg).
Proof.
  intros Hwf Hv Ha HQ. unfold deactivate_validator. st_steps. rewrite Hv. st_steps.
  apply wp_fail_if; [by rewrite Ha|]. intros _. st_steps.
  apply wp_fail_if; [by rewrite Z.eqb_refl|]. intros _. st_steps.
  eapply wp_expect; [by apply (active_listed Hwf)|]. st_steps. apply HQ.
  destruct (existing Hwf v val Hv) as ([Ka Kd Kr Kj] & _).
  by apply (wf_deactivated Hwf v val).
Qed.

(** Deactivating a list of active validators. *)
Lemma wp_deactivate_all bn block l x lg :
  WF bn x -> NoDup l.*1 ->
  (forall va, va ∈ l -> exists val, validators x.2 !! va.1 = Some val /\ is_active val = true /\
     va.2 = address_of_key (v_signing_key val)) ->
  wp (for_each l (fun va => deactivate_validator va.1 va.2 block))
    (fun _ s => WF bn s.1 /\
       (forall w, sc_active_validators s.1.1 !! w =
          if decide (w ∈ l.*1) then None else sc_active_validators x.1 !! w) /\
       (forall w, v_signal_data <$> validators s.1.2 !! w = v_signal_data <$> validators x.2 !! w) /\
       sc_balance s.1.1 = sc_balance x.1 /\ stakers s.1.2 = stakers x.2)
    (fun _ _ => False) (x, lg).
Proof.
  revert x lg. induction l as [|[v signer] l IH]; intros x lg Hwf Hnd Hl; simpl.
  { apply wp_ret. by split_and!. }
  destruct x as [[bal act pun] [vals stk tomb]].
  apply NoDup_cons in Hnd as [Hnew Hnd].
  destruct (Hl (v, signer) ltac:(left)) as (val & Hv & Ha & Hs).
  simpl in Hv, Hs. subst signer. apply wp_bind. apply (wp_deactivate bn _ _ _ _ _ _ _ val); [done..|]. intros Hwf'.
  eapply wp_mono; [apply IH; [exact Hwf'|done|]| |done].
  - intros [w sg] Hw. simpl.
    destruct (Hl (w, sg) ltac:(by right)) as (val' & Hv' & Ha' & He). simpl in *.
    exists val'. rewrite lookup_insert_ne; [done|]. intros <-. apply Hnew.
    apply list_elem_of_fmap. by exists (v, sg).
  - intros [] s (H1 & H2 & H3 & H4 & H5). split_and!; [done| | |done|done].
    + intros w. rewrite H2. simpl. destruct (decide (w = v)) as [->|Hne].
      * rewrite lookup_delete_eq. by rewrite (decide_True (P := v ∈ v :: _)) by left; case_decide.
      * rewrite lookup_delete_ne by done.
        destruct (decide (w ∈ l.*1)); [rewrite decide_True by by right|
          rewrite decide_False by (by rewrite elem_of_cons; naive_solver)]; done.
    + intros w. rewrite H3. simpl. destruct (decide (w = v)) as [->|Hne].
      * by rewrite lookup_insert_eq, Hv.
      * by rewrite lookup_insert_ne.
Qed.

(** An active validator is stored, and marked active. *)
Lemma active_exists bn bal act pun vals stk tomb v :
  WF bn (mk_st bal act pun vals stk tomb) -> is_Some (act !! v) ->
  exists val, vals !! v = Some val /\ is_active val = true /\ v_address val = v.
Proof.
  intros Hwf [st Hst]. destruct (wf_books_eq Hwf v) as (_ & _ & _ & Hbk).
  destruct (vals !! v) as [val|] eqn:Hv.
  - exists val. destruct Hbk as (_ & _ & _ & Hact). rewrite Hst in Hact.
    destruct (is_active val); [|done]. split_and!; try done. by apply (wf_validators _ _ Hwf v val).
  - destruct Hbk as [Hn _]. congruence.
Qed.

Lemma wp_unsupporting bn bal act pun vals stk tomb check Q QE lg :
  WF bn (mk_st bal act pun vals stk tomb) ->
  (forall l, NoDup l.*1 ->
     (forall v, v ∈ l.*1 <-> exists val, is_Some (act !! v) /\ vals !! v = Some val /\
        check (v_signal_data val) = false) ->
     (forall va, va ∈ l -> exists val, vals !! va.1 = Some val /\ is_active val = true /\
        va.2 = address_of_key (v_signing_key val)) ->
     Q l (mk_st bal act pun vals stk tomb, lg)) ->
  wp (unsupporting_validators check) Q QE (mk_st bal act pun vals stk tomb, lg).
Proof.
  intros Hwf HQ. unfold unsupporting_validators. st_steps.
  destruct (sorted_keys_spec act) as [Hnd Hin].
  assert (Hsub : forall v, v ∈ sorted_keys act -> is_Some (act !! v)) by (intros; by apply Hin).
  enough (Hgen : forall ks, NoDup ks -> (forall v, v ∈ ks -> is_Some (act !! v)) ->
    exists l, foldr (fun v (acc : AM St (list (Z * Z))) =>
        val ← expect (vals !! v);
        rest ← acc;
        mret (if negb (check (v_signal_data val))
              then (v_address val, address_of_key (v_signing_key val)) :: rest else rest))
      (mret []) ks (mk_st bal act pun vals stk tomb, lg)
      = (Ok l, (mk_st bal act pun vals stk tomb, lg)) /\ NoDup l.*1 /\
      (forall v, v ∈ l.*1 <-> exists val, v ∈ ks /\ vals !! v = Some val /\
        check (v_signal_data val) = false) /\
      (forall va, va ∈ l -> exists val, vals !! va.1 = Some val /\ is_active val = true /\
        va.2 = address_of_key (v_signing_key val))).
  { destruct (Hgen _ Hnd Hsub) as (l & Hrun & Hl1 & Hl2 & Hl3).
    eapply wp_mono; [apply wp_run; exact Hrun| |done]. intros ? ? [-> ->].
    apply HQ; [done| |done]. intros v. rewrite Hl2.
    split; intros (val & Hv & Hrest); exists val; (split; [by apply Hin|done]). }
  induction ks as [|v ks IH]; intros Hnk Hks.
  { exists []. split_and!; [done|constructor| |]; set_solver. }
  apply NoDup_cons in Hnk as [Hnew Hnk].
  destruct IH as (l & Hrun & H1 & H2 & H3); [done|by intros; apply Hks; right|].
  destruct (active_exists _ _ _ _ _ _ _ v Hwf (Hks v ltac:(left))) as (val & Hv & Ha & Haddr).
  cbn [foldr]. unfold mbind at 1, M_bind at 1. rewrite Hv. simpl.
  unfold mbind at 1, M_bind at 1. rewrite Hrun.
  eexists. split; [done|]. destruct (check (v_signal_data val)) eqn:Hc; simpl.
  - split_and!; [done| |done]. intros w. rewrite H2. setoid_rewrite elem_of_cons.
    split; [naive_solver|]. intros (val' & [->|Hw] & Hv' & Hc'); [congruence|naive_solver].
  - rewrite Haddr. split_and!.
    + apply NoDup_cons. split; [|done]. rewrite H2. naive_solver.
    + intros w. setoid_rewrite elem_of_cons. rewrite H2. naive_solver.
    + intros va [->|Hva]%elem_of_cons; [|by apply H3]. exists val. simpl. naive_solver.
Qed.

(** A version upgrade never fails: it deactivates exactly the active validators
    whose signal data does not support the new version. *)
Lemma commit_version_upgrade version bs x lg :
  WF (bs_number bs) x ->
  exists x' lg', commit_inherent (Inherent.VersionUpgrade version) bs (x, lg) = (Ok None, (x', lg')) /\
    WF (bs_number bs) x' /\ sc_balance x'.1 = sc_balance x.1 /\ stakers x'.2 = stakers x.2 /\
    (forall w, v_signal_data <$> validators x'.2 !! w = v_signal_data <$> validators x.2 !! w) /\
    forall v, sc_active_validators x'.1 !! v =
      match validators x.2 !! v with
      | Some val => if supports_upgrade (v_signal_data val) version
                    then sc_active_validators x.1 !! v else None
      | None => None
      end.
Proof.
  intros Hwf. destruct x as [[bal act pun] [vals stk tomb]].
  assert (Hwp : wp (commit_inherent (Inherent.VersionUpgrade version) bs)
    (fun r s => r = None /\ WF (bs_number bs) s.1 /\ sc_balance s.1.1 = bal /\ stakers s.1.2 = stk /\
       (forall w, v_signal_data <$> validators s.1.2 !! w = v_signal_data <$> vals !! w) /\
       forall v, sc_active_validators s.1.1 !! v =
         match vals !! v with
         | Some val => if supports_upgrade (v_signal_data val) version then act !! v else None
         | None => None
         end) (fun _ _ => False) (mk_st bal act pun vals stk tomb, lg)).
  2:{ unfold wp in Hwp. destruct (commit_inherent _ _ _) as [[r|e|] [x' lg']]; [|done..].
      destruct Hwp as (-> & Hrest). by exists x', lg'. }
  unfold commit_inherent. apply wp_bind, wp_with_tx_logger.
  unfold deactivate_unsupporting_validators. apply wp_bind.
  apply (wp_unsupporting (bs_number bs)); [done|]. intros l Hnd Hin Hl.
  eapply wp_mono; [by apply (wp_deactivate_all (bs_number bs))| |done].
  intros [] s (H1 & H2 & H3 & H4 & H5). st_steps. split_and!; try done. intros v. simpl in H2.
  rewrite H2. destruct (act !! v) eqn:Ha.
  - destruct (active_exists _ _ _ _ _ _ _ v Hwf ltac:(by rewrite Ha)) as (val & Hv & _).
    rewrite Hv. destruct (supports_upgrade (v_signal_data val) version) eqn:Hc.
    + rewrite decide_False; [done|]. rewrite Hin. naive_solver congruence.
    + rewrite decide_True; [done|]. rewrite Hin. rewrite Ha. naive_solver.
  - by repeat case_match.
Qed.

Lemma commit_finalize_batch bs x lg :
  WF (bs_number bs) x -> is_macro_block_at (bs_number bs) = true ->
  exists ps, commit_inherent Inherent.FinalizeBatch bs (x, lg)
               = (Ok None, ((sc_set_punished_slots ps x.1, x.2), lg)) /\
    WF (bs_number bs) (sc_set_punished_slots ps x.1, x.2) /\
    BitSet.to_set (previous_batch_punished_slots ps) = current_slots (sc_punished_slots x.1) /\
    forall a, current_batch_punished_slots ps !! a =
      if is_election_block_at (bs_number bs) then None
      else match sc_active_validators x.1 !! a with
           | Some _ => None
           | None => current_batch_punished_slots (sc_punished_slots x.1) !! a
           end.
Proof.
  intros Hwf Hm. pose proof (wf_punished _ _ Hwf) as Hok.
  destruct (finalize_batch_spec (sc_punished_slots x.1) (bs_number bs)
    (sc_active_validators x.1) Hok Hm) as (ps & Hf & Hprev & Hcur).
  exists ps. split_and!; [|by eapply wf_set_punished, finalize_batch_ok|done|done].
  unfold commit_inherent. unfold mbind, M_bind. simpl. by rewrite Hf.
Qed.

(** The invariant is kept as the chain grows. *)
Lemma wf_later bn bn' x : WF bn x -> bn <= bn' -> WF bn' x.
Proof.
  intros [H1 H2 H3 H4 H5 H6] Hle. split; try done. intros k v Hv.
  destruct (H4 k v Hv) as [K1 K2 K3 K4]. split; try done. intros Hj. apply K4.
  unfold is_jailed, jail_active in *. destruct (v_jailed_from v); [|done]. bool_to_prop. apply Z.ltb_lt. lia.
Qed.

Lemma wf_empty : forall bn, WF bn (mk_st 0 ∅ no_punished_slots ∅ ∅ ∅).
Proof.
  intros bn. split; simpl; try done.
Qed.
End Proofs.
