(* ===== verification/StakingSpec.v ===== *)
(** * What the staking contract guarantees

    The theorems on the staking contract as a whole: a step relation over its
    transactions, inherents and blocks with the invariant of every reachable
    state, the reversibility of all handlers, the lock-ups, and the effect of
    the inherents of macro blocks and version upgrades. *)

From S2P Require Import Prelude Coin Policy BitSet AccountTypes PunishedSlots StakingTypes.
From S2P Require Import ValidatorOps StakerOps StakingContract StakingInv StakerProofs.
From S2P Require Import ValidatorProofs StakingProofs.

Section Spec.
Context `{P : Policy} {HP : PolicyOk P} `{Env : StakingEnv} `{Rc : StakingReceipts}.

(** ** The contract as a transition system *)

Definition empty_contract : St := mk_st 0 ∅ no_punished_slots ∅ ∅ ∅.

(** One handler run at block [bn], or the advance to a later block. *)
Inductive step : Z * St -> Z * St -> Prop :=
  | step_block bn bn' x : bn <= bn' -> step (bn, x) (bn', x)
  | step_incoming tx bs x o x' lg lg' :
      (forall data, parse_incoming tx = Some data -> incoming_verified tx data) ->
      sc_balance x.1 + tx_value tx <= MAX_SAFE_VALUE ->
      commit_incoming_transaction tx bs (x, lg) = (o, (x', lg')) ->
      step (bs_number bs, x) (bs_number bs, x')
  | step_outgoing tx bs x o x' lg lg' :
      0 <= total_value tx ->
      commit_outgoing_transaction tx bs (x, lg) = (o, (x', lg')) ->
      step (bs_number bs, x) (bs_number bs, x')
  | step_failed tx bs x o x' lg lg' :
      0 <= tx_fee tx ->
      commit_failed_transaction tx bs (x, lg) = (o, (x', lg')) ->
      step (bs_number bs, x) (bs_number bs, x')
  | step_slashing inherent bs x o x' lg lg' :
      in_width 32 (bs_number bs) -> slashing_ok (bs_number bs) inherent ->
      commit_inherent inherent bs (x, lg) = (o, (x', lg')) ->
      step (bs_number bs, x) (bs_number bs, x')
  | step_finalize inherent bs x o x' lg lg' :
      inherent = Inherent.FinalizeBatch \/ inherent = Inherent.FinalizeEpoch ->
      is_macro_block_at (bs_number bs) = true ->
      commit_inherent inherent bs (x, lg) = (o, (x', lg')) ->
      step (bs_number bs, x) (bs_number bs, x')
  | step_upgrade version bs x o x' lg lg' :
      commit_inherent (Inherent.VersionUpgrade version) bs (x, lg) = (o, (x', lg')) ->
      step (bs_number bs, x) (bs_number bs, x').

Definition reachable (bn : Z) (x : St) : Prop :=
  exists bn0, rtc step (bn0, empty_contract) (bn, x).

(** The state after a reversible commit satisfies what both outcomes do. *)
Lemma reversible_state {R} (c : AM St R) rev post x (Q : St -> Prop) :
  reversible c rev post x -> Q x -> (forall r x', post r x' -> Q x') ->
  forall lg o x' lg', c (x, lg) = (o, (x', lg')) -> o <> Panic /\ Q x'.
Proof.
  intros Hrev Hx Hp lg o x' lg' Hc. specialize (Hrev lg). rewrite Hc in Hrev.
  destruct o; [|by subst|done]. destruct Hrev as [? _]. eauto.
Qed.

Lemma restorable_state {R} (c : AM St R) rev post x (Q : St -> Prop) :
  restorable c rev post x -> Q x -> (forall r x', post r x' -> Q x') ->
  forall lg o x' lg', c (x, lg) = (o, (x', lg')) -> o <> Panic /\ Q x'.
Proof.
  intros Hrev Hx Hp lg o x' lg' Hc. specialize (Hrev lg). rewrite Hc in Hrev.
  destruct o; [|by subst|done]. destruct Hrev as [? _]. eauto.
Qed.

Lemma slashing_reversible inherent bs x :
  WF (bs_number bs) x -> in_width 32 (bs_number bs) -> slashing_ok (bs_number bs) inherent ->
  reversible (commit_inherent inherent bs) (revert_inherent inherent)
    (commits (bs_number bs) x 0) x.
Proof.
  intros Hwf Hw Hs. destruct inherent; try done.
  - by apply commit_penalize_reversible.
  - by apply commit_jail_reversible.
Qed.

Lemma step_wf s s' : step s s' -> WF s.1 s.2 -> WF s'.1 s'.2.
Proof.
  assert (Hc : forall bn x delta R (r : R) x', commits bn x delta r x' -> WF bn x')
    by by intros * [? ?].
  intros [bn bn' x Hle|tx bs x o x' lg lg' Hv Hm H|tx bs x o x' lg lg' Hv H
         |tx bs x o x' lg lg' Hf H|inh bs x o x' lg lg' Hw Hs H
         |inh bs x o x' lg lg' Hi Hm H|version bs x o x' lg lg' H] Hwf; cbn [fst snd] in *.
  - by eapply wf_later.
  - exact (proj2 (reversible_state _ _ _ _ _ (commit_incoming_reversible tx bs x Hwf Hv Hm) Hwf (fun r y => Hc _ _ _ _ r y) _ _ _ _ H)).
  - exact (proj2 (reversible_state _ _ _ _ _ (commit_outgoing_reversible tx bs x Hwf Hv) Hwf (fun r y => Hc _ _ _ _ r y) _ _ _ _ H)).
  - exact (proj2 (restorable_state _ _ _ _ _ (commit_failed_restorable tx bs x Hwf Hf) Hwf (fun r y => Hc _ _ _ _ r y) _ _ _ _ H)).
  - exact (proj2 (reversible_state _ _ _ _ _ (slashing_reversible inh bs x Hwf Hw Hs) Hwf (fun r y => Hc _ _ _ _ r y) _ _ _ _ H)).
  - destruct Hi as [-> | ->]; [|by injection H as <- <- <-].
    destruct (commit_finalize_batch bs x lg Hwf Hm) as (ps & Hrun & Hw & _). rewrite H in Hrun. by injection Hrun as -> -> ->.
  - destruct (commit_version_upgrade version bs x lg Hwf) as (y & lgy & Hrun & Hw & _). rewrite H in Hrun. by injection Hrun as -> -> ->.
Qed.

Lemma reachable_wf bn x : reachable bn x -> WF bn x.
Proof.
  intros [bn0 Hr]. change (WF (bn, x).1 (bn, x).2). revert Hr.
  apply (rtc_ind_r (fun s => WF s.1 s.2)); [apply wf_empty|].
  intros y z _ Hs Hy. by eapply step_wf.
Qed.

(** ** Lock-ups *)

Lemma expect_validator_inv v (s s' : St * list Log.t) val :
  expect_validator v s = (Ok val, s') -> validators s.1.2 !! v = Some val /\ s' = s.
Proof. unfold expect_validator, get_validator, get_state. intros H. by inv_ok H; inv_ok H. Qed.

Lemma expect_staker_inv k (s s' : St * list Log.t) st :
  expect_staker k s = (Ok st, s') -> stakers s.1.2 !! k = Some st /\ s' = s.
Proof. unfold expect_staker, get_staker, get_state. intros H. by inv_ok H; inv_ok H. Qed.

(** The inactive stake of [s] is free at block [bn].  Stake that is not delegated is
    exempt: no lock-up applies to it, whatever [s_inactive_from] says.  Delegated stake is
    free when its lock-up is over and its validator, if still there, is not jailed. *)
Definition stake_free (vals : gmap Z Validator) (s : Staker) (bn : Z) : Prop :=
  match s_delegation s with
  | None => True
  | Some v =>
      (forall from, s_inactive_from s = Some from -> block_after_collateral_lockup from <= bn) /\
      (forall val, vals !! v = Some val -> is_jailed val bn = false)
  end.

Lemma released_free st bn (s s' : St * list Log.t) :
  is_inactive_stake_released st bn s = (Ok true, s') -> stake_free (validators s.1.2) st bn.
Proof.
  unfold is_inactive_stake_released. intros H. inv_ok H. injection H as Hr ->.
  unfold stake_free. destruct (s_delegation st) as [v|] eqn:Hd; [|done].
  unfold inactive_stake_released in Hr. rewrite Hd in Hr. injection Hm as <- <-. split.
  - intros from Hfrom. rewrite Hfrom in Hr. destruct (Z.ltb_spec bn (block_after_collateral_lockup from)); [done|lia].
  - intros val Hv. apply negb_true_iff. unfold St in *. by rewrite Hv in Hr; repeat case_match.
Qed.

Lemma enforce_min_stake_inv a b c (s s' : St * list Log.t) u :
  enforce_min_stake a b c s = (Ok u, s') -> s' = s.
Proof. unfold enforce_min_stake, add. intros H. by repeat (progress inv_ok H). Qed.

Lemma enforce_release_inv val bn (s s' : St * list Log.t) :
  enforce_retire_and_release val bn s = (Ok tt, s') ->
  v_retired val = true /\ is_jailed val bn = false /\
  exists from, v_inactive_from val = Some from /\ last_block_of_collateral_lockup from < bn.
Proof.
  unfold enforce_retire_and_release. intros H. repeat (progress inv_ok H). bool_to_prop. eauto 6.
Qed.

(** ** Theorems *)

(** C2: in every reachable state of the staking contract the derived data is
    exact: the balance is the sum of all deposits and stakes, a validator's
    total stake is its deposit plus the active stake delegated to it and its
    staker count the number of delegations, the active validators are listed
    with exactly their stake, and a deleted validator has a tombstone if and
    only if stakers still delegate to it. *)
Theorem staking_books_exact bn x :
  reachable bn x ->
  sc_balance x.1 = map_sum v_deposit (validators x.2) + map_sum staker_total (stakers x.2) /\
  forall v,
    match validators x.2 !! v with
    | Some val =>
        v_total_stake val = v_deposit val + staked (stakers x.2) v /\
        v_num_stakers val = delegators (stakers x.2) v /\ tombstones x.2 !! v = None /\
        sc_active_validators x.1 !! v = (if is_active val then Some (v_total_stake val) else None)
    | None =>
        sc_active_validators x.1 !! v = None /\
        tombstones x.2 !! v =
          (if delegators (stakers x.2) v =? 0 then None
           else Some (mk_tombstone (staked (stakers x.2) v) (delegators (stakers x.2) v)))
    end.
Proof.
  intros Hwf%reachable_wf. split; [apply (wf_balance _ _ Hwf)|].
  intros v. by destruct (wf_books _ _ Hwf v) as (_ & _ & _ & ?).
Qed.

(** C26: a verified incoming staking transaction never panics; if it fails the
    contract is unchanged, and if it succeeds the invariant holds, the balance
    grows by the transaction's value, and the revert with the returned receipt
    restores the contract exactly and logs the same entries in reverse. *)
Theorem staking_incoming_reversible tx bs x :
  WF (bs_number bs) x ->
  (forall data, parse_incoming tx = Some data -> incoming_verified tx data) ->
  sc_balance x.1 + tx_value tx <= MAX_SAFE_VALUE ->
  reversible (commit_incoming_transaction tx bs) (revert_incoming_transaction tx)
    (commits (bs_number bs) x (tx_value tx)) x.
Proof. apply commit_incoming_reversible. Qed.

(** C27: an outgoing staking transaction never panics; if it fails the contract
    is unchanged, and if it succeeds the invariant holds, the balance shrinks by
    value and fee, and the revert restores the contract exactly. *)
Theorem staking_outgoing_reversible tx bs x :
  WF (bs_number bs) x -> 0 <= total_value tx ->
  reversible (commit_outgoing_transaction tx bs) (revert_outgoing_transaction tx)
    (commits (bs_number bs) x (- total_value tx)) x.
Proof. apply commit_outgoing_reversible. Qed.

(** Charging the fee of a failed outgoing transaction never panics, keeps
    the invariant, takes exactly the fee, and is undone exactly by its revert;
    the revert logs the same entries, in some order. *)
Theorem staking_failed_restorable tx bs x :
  WF (bs_number bs) x -> 0 <= tx_fee tx ->
  restorable (commit_failed_transaction tx bs) (revert_failed_transaction tx)
    (commits (bs_number bs) x (- tx_fee tx)) x.
Proof. apply commit_failed_restorable. Qed.

(** C28: penalties and jailings never panic, keep the invariant and the balance,
    and are undone exactly by their reverts. *)
Theorem staking_slashing_reversible inherent bs x :
  WF (bs_number bs) x -> in_width 32 (bs_number bs) -> slashing_ok (bs_number bs) inherent ->
  reversible (commit_inherent inherent bs) (revert_inherent inherent)
    (commits (bs_number bs) x 0) x.
Proof. apply slashing_reversible. Qed.

(** C29: a committed transaction that retires stake retires inactive stake of its
    signer, and if that stake is delegated, its lock-up has passed and its validator, if
    it still exists, is not jailed.  A committed redelegation of delegated stake finds
    no active stake and the same release.  Stake that is not delegated is exempt from
    lock-up and jail in both cases. *)
Theorem stake_released_only_when_free tx bs x lg r s' :
  commit_incoming_transaction tx bs (x, lg) = (Ok r, s') ->
  match parse_incoming tx with
  | Some (Incoming.RetireStake value proof) =>
      exists s, stakers x.2 !! compute_signer proof = Some s /\
        value <= s_inactive_balance s /\ stake_free (validators x.2) s (bs_number bs)
  | Some (Incoming.UpdateStaker _ _ proof) =>
      exists s, stakers x.2 !! compute_signer proof = Some s /\
        (s_delegation s <> None -> s_active_balance s = 0) /\
        stake_free (validators x.2) s (bs_number bs)
  | _ => True
  end.
Proof.
  unfold commit_incoming_transaction. intros H. inv_ok H. rewrite Hm.
  destruct a; try done; inv_ok H.
  - unfold update_staker in Hm0. inv_ok Hm0. apply expect_staker_inv in Hm1 as [Hk ->].
    exists a0. split; [done|]. inv_ok Hm0. inv_ok Hm0.
    assert (s0 = (x, lg)) as ->.
    { destruct new_delegation; simpl in Hm1; [|by injection Hm1].
      inv_ok Hm1. apply expect_validator_inv in Hm3 as [_ ->]. by injection Hm1. }
    destruct (s_delegation a0) as [v|] eqn:Hd; [|split; [done|]; unfold stake_free; by rewrite Hd].
    simpl in Hm2. inv_ok Hm2. inv_ok Hm2. inv_ok Hm2. bool_to_prop. subst a4.
    split; [by intros _; apply Z.eqb_eq|]. by eapply (released_free a0 _ (x, lg)).
  - unfold StakerOps.retire_stake in Hm0. inv_ok Hm0. apply expect_staker_inv in Hm1 as [Hk ->].
    exists a0. split; [done|]. inv_ok Hm0. bool_to_prop. split; [done|].
    unfold sub, add in Hm0. repeat (progress inv_ok Hm0).
    apply enforce_min_stake_inv in Hm4 as ->. bool_to_prop. subst. by eapply (released_free a0 _ (x, lg)).
Qed.

(** C30: a committed outgoing transaction takes coins only after the lock-up: a
    validator is deleted when it is retired, not jailed, past its collateral lock-up and
    for exactly its deposit; a staker withdraws exactly its retired balance.  (The fee
    of a failed transaction is charged by [commit_failed_transaction], not here.) *)
Theorem withdrawals_only_after_lockup tx bs x lg r s' :
  commit_outgoing_transaction tx bs (x, lg) = (Ok r, s') ->
  exists proof, parse_signature_proof (tx_proof tx) = Some proof /\
  match parse_outgoing tx with
  | Some Outgoing.DeleteValidator =>
      exists val from, validators x.2 !! compute_signer proof = Some val /\
        total_value tx = v_deposit val /\ v_retired val = true /\
        is_jailed val (bs_number bs) = false /\ v_inactive_from val = Some from /\
        last_block_of_collateral_lockup from < bs_number bs
  | Some Outgoing.RemoveStake =>
      exists s, stakers x.2 !! compute_signer proof = Some s /\
        total_value tx = s_retired_balance s
  | None => False
  end.
Proof.
  unfold commit_outgoing_transaction, push_log. intros H. inv_ok H. rewrite Hm.
  inv_ok H. inv_ok H. inv_ok H. exists a0. split; [done|]. destruct a; inv_ok H.
  - unfold delete_validator in Hm1. inv_ok Hm1. apply expect_validator_inv in Hm2 as [Hv ->].
    inv_ok Hm1. unfold can_delete_validator in Hm2. inv_ok Hm2. bool_to_prop. destruct a2.
    destruct (enforce_release_inv _ _ _ _ Hm2) as (Hr & Hj & from & Hf & Hl).
    exists a1, from. by split_and!.
  - apply expect_staker_inv in Hm1 as [Hk ->]. inv_ok H. unfold can_remove_stake in Hm1.
    inv_ok Hm1. bool_to_prop. by exists a.
Qed.

(** A version upgrade never fails and deactivates exactly the active
    validators whose signal data does not support the new version; it moves no
    coins and keeps the invariant. *)
Theorem version_upgrade_exact version bs x lg :
  WF (bs_number bs) x ->
  exists x' lg', commit_inherent (Inherent.VersionUpgrade version) bs (x, lg) = (Ok None, (x', lg')) /\
    WF (bs_number bs) x' /\ sc_balance x'.1 = sc_balance x.1 /\ stakers x'.2 = stakers x.2 /\
    (forall w, v_signal_data <$> validators x'.2 !! w = v_signal_data <$> validators x.2 !! w) /\
    forall v, sc_active_validators x'.1 !! v =
      match validators x.2 !! v with
      | Some val => if supports_upgrade (v_signal_data val) version
                    then sc_active_validators x.1 !! v else None
      | None => None
      end.
Proof. apply commit_version_upgrade. Qed.

(** At every macro block the batch is finalized without failing: the
    previous punished set becomes the set of all currently punished slots, and
    the current one keeps the entries of inactive validators, or nothing when
    the epoch ends. *)
Theorem finalize_batch_exact bs x lg :
  WF (bs_number bs) x -> is_macro_block_at (bs_number bs) = true ->
  exists ps, commit_inherent Inherent.FinalizeBatch bs (x, lg)
               = (Ok None, ((sc_set_punished_slots ps x.1, x.2), lg)) /\
    WF (bs_number bs) (sc_set_punished_slots ps x.1, x.2) /\
    BitSet.to_set (previous_batch_punished_slots ps) = current_slots (sc_punished_slots x.1) /\
    forall a, current_batch_punished_slots ps !! a =
      if is_election_block_at (bs_number bs) then None
      else match sc_active_validators x.1 !! a with
           | Some _ => None
           | None => current_batch_punished_slots (sc_punished_slots x.1) !! a
           end.
Proof. apply commit_finalize_batch. Qed.
End Spec.

(** ** A concrete contract

    Serializers of the receipts, a small transaction format, and a contract with
    one validator and one staker, at which the theorems are instantiated. *)

Module Example.

(** A serializer of [T] through a countable type of tuples. *)
Definition receipt_via {T U} `{Countable U} (f : T -> U) (g : U -> T)
    (Hgf : forall r, g (f r) = r) : ConvertReceipt T.
Proof.
  refine {|
    into_receipt r := [Zpos (encode (f r))];
    try_from_receipt bs := match bs with [Zpos p] => g <$> decode p | _ => None end |}.
  intros r. by rewrite decode_encode; simpl; rewrite Hgf.
Defined.

Definition receipts : StakingReceipts.
Proof.
  split.
  - apply (receipt_via (fun r => (pr_newly_deactivated r, pr_newly_punished_previous_batch r,
             pr_newly_punished_current_batch r)) (fun p => mk_penalize_receipt p.1.1 p.1.2 p.2)).
    by intros [].
  - apply (receipt_via (fun r => (jr_newly_deactivated r,
             BitSet.store (jr_old_previous_batch_punished_slots r),
             BitSet.count (jr_old_previous_batch_punished_slots r),
             jr_old_current_batch_punished_slots r, jr_old_jailed_from r))
             (fun p => mk_jail_receipt p.1.1.1.1 (BitSet.mk_bitset p.1.1.1.2 p.1.1.2) p.1.2 p.2)).
    by intros [? [] ? ?].
  - apply (receipt_via (fun r => (uv_old_signing_key r, uv_old_voting_key r,
             uv_old_reward_address r, uv_old_signal_data r))
             (fun p => mk_update_validator_receipt p.1.1.1 p.1.1.2 p.1.2 p.2)). by intros [].
  - apply (receipt_via ss_old_signal_data mk_set_signal_data_receipt). by intros [].
  - apply (receipt_via rv_was_inactive_from mk_reactivate_validator_receipt). by intros [].
  - apply (receipt_via rt_was_active mk_retire_validator_receipt). by intros [].
  - apply (receipt_via (fun r => (dv_signing_key r, dv_voting_key r, dv_reward_address r,
             dv_signal_data r, dv_inactive_from r, dv_jailed_from r))
             (fun p => mk_delete_validator_receipt p.1.1.1.1.1 p.1.1.1.1.2 p.1.1.1.2 p.1.1.2
                         p.1.2 p.2)). by intros [].
  - apply (receipt_via (fun r => (sr_delegation r, sr_active_balance r, sr_inactive_from r))
             (fun p => mk_staker_receipt p.1.1 p.1.2 p.2)). by intros [].
  - apply (receipt_via (fun r => (sa_old_inactive_from r, sa_old_active_balance r))
             (fun p => mk_set_active_stake_receipt p.1 p.2)). by intros [].
  - apply (receipt_via rs_old_inactive_from mk_retire_stake_receipt). by intros [].
  - apply (receipt_via ds_delegation mk_delete_staker_receipt). by intros [].
Defined.

Definition coin_of (x : Z) : option Z :=
  if (0 <=? x) && (x <=? MAX_SAFE_VALUE) then Some x else None.

Definition env : StakingEnv := {|
  SignatureProof := Z;
  compute_signer p := p;
  address_of_key k := k;
  parse_incoming tx :=
    match tx_recipient_data tx with
    | [0; signing_key; voting_key; reward; signer] =>
        Some (Incoming.CreateValidator signing_key voting_key reward None 0 signer)
    | [4; signer] => Some (Incoming.RetireValidator signer)
    | [5; validator; signer] => Some (Incoming.CreateStaker (Some validator) signer)
    | [8; balance; signer] => (fun c => Incoming.SetActiveStake c signer) <$> coin_of balance
    | [9; stake; signer] => (fun c => Incoming.RetireStake c signer) <$> coin_of stake
    | _ => None
    end;
  parse_outgoing tx :=
    match tx_sender_data tx with
    | [0] => Some Outgoing.DeleteValidator
    | [1] => Some Outgoing.RemoveStake
    | _ => None
    end;
  parse_signature_proof bs := match bs with [p] => Some p | _ => None end;
|}.

#[local] Existing Instances MAINNET_POLICY receipts env.

Definition incoming (data : list Z) (value : Z) : Transaction :=
  mk_transaction 100 AccountType.Basic [] STAKING_CONTRACT_ADDRESS AccountType.Staking data
    value 0 3456000 24 0 [] false.
Definition outgoing (data : list Z) (signer value fee : Z) : Transaction :=
  mk_transaction STAKING_CONTRACT_ADDRESS AccountType.Staking data 100 AccountType.Basic []
    value fee 3456000 24 0 [signer] false.
Definition at_block (bn : Z) : BlockState := mk_block_state bn 0 1.

Definition run_incoming (bn : Z) (data : list Z) (value : Z) (x : St) : St :=
  (commit_incoming_transaction (incoming data value) (at_block bn) (x, [])).2.1.

(** Validator 7 and staker 9, delegating to it. *)
Definition staked_at : Z := 3456001.
Definition contract : St :=
  run_incoming staked_at [5; 7; 9] 20000000
    (run_incoming staked_at [0; 70; 71; 72; 7] VALIDATOR_DEPOSIT empty_contract).
(** The stake is deactivated and the validator retired; both are released later. *)
Definition retiring : St :=
  run_incoming staked_at [4; 7] 0 (run_incoming staked_at [8; 0; 9] 0 contract).
Definition released_at : Z := 3600000.
Definition retired : St := run_incoming released_at [9; 20000000; 9] 0 retiring.

Lemma reachable_incoming bn data value x :
  reachable bn x ->
  (forall d, parse_incoming (incoming data value) = Some d ->
     incoming_verified (incoming data value) d) ->
  sc_balance x.1 + value <= MAX_SAFE_VALUE -> reachable bn (run_incoming bn data value x).
Proof.
  intros [bn0 Hr] Hv Hmax. exists bn0. eapply rtc_r; [exact Hr|]. unfold run_incoming.
  destruct (commit_incoming_transaction _ (at_block bn) (x, [])) as [o [x' lg']] eqn:Hrun.
  by eapply (step_incoming (incoming data value) (at_block bn)).
Qed.

Lemma reachable_later bn bn' x : reachable bn x -> bn <= bn' -> reachable bn' x.
Proof. intros [bn0 Hr] Hle. exists bn0. eapply rtc_r; [exact Hr|]. by apply step_block. Qed.

Ltac verified := intros d [= <-]; split_and!; vm_compute; (done || intros; done).

Lemma contract_reachable : reachable staked_at contract.
Proof.
  apply reachable_incoming; [apply reachable_incoming| |].
  - exists staked_at. reflexivity.
  - verified.
  - vm_compute. done.
  - verified.
  - vm_compute. done.
Qed.

Lemma retiring_reachable : reachable released_at retiring.
Proof.
  apply (reachable_later staked_at); [|done].
  apply reachable_incoming; [apply reachable_incoming; [apply contract_reachable|..]|..].
  - verified.
  - vm_compute. done.
  - verified.
  - vm_compute. done.
Qed.

Lemma retired_reachable : reachable released_at retired.
Proof.
  apply reachable_incoming; [apply retiring_reachable|verified|vm_compute; done].
Qed.

Lemma staking_books_exact_witness :
  v_total_stake <$> validators contract.2 !! 7 = Some (VALIDATOR_DEPOSIT + 20000000) /\
  sc_balance contract.1 = map_sum v_deposit (validators contract.2)
                          + map_sum staker_total (stakers contract.2).
Proof.
  split; [vm_compute; done|]. apply (staking_books_exact staked_at contract contract_reachable).
Defined.

Lemma staking_incoming_reversible_witness :
  (commit_incoming_transaction (incoming [8; 0; 9] 0) (at_block staked_at) (contract, [])).1 <> Panic /\
  reversible (commit_incoming_transaction (incoming [8; 0; 9] 0) (at_block staked_at))
    (revert_incoming_transaction (incoming [8; 0; 9] 0)) (commits staked_at contract 0) contract.
Proof.
  split; [vm_compute; done|].
  apply (staking_incoming_reversible (incoming [8; 0; 9] 0) (at_block staked_at) contract).
  - apply reachable_wf, contract_reachable.
  - verified.
  - vm_compute. done.
Defined.

Lemma staking_outgoing_reversible_witness :
  (commit_outgoing_transaction (outgoing [1] 9 19999000 1000) (at_block released_at) (retired, [])).1
    = Ok (Some (into_receipt (mk_delete_staker_receipt (Some 7)))) /\
  reversible (commit_outgoing_transaction (outgoing [1] 9 19999000 1000) (at_block released_at))
    (revert_outgoing_transaction (outgoing [1] 9 19999000 1000))
    (commits released_at retired (-20000000)) retired.
Proof.
  split; [vm_compute; done|].
  apply (staking_outgoing_reversible (outgoing [1] 9 19999000 1000) (at_block released_at) retired).
  - apply reachable_wf, retired_reachable.
  - vm_compute. done.
Defined.

Lemma staking_failed_restorable_witness :
  (commit_failed_transaction (outgoing [0] 7 5 1000) (at_block released_at) (retired, [])).1 = Ok None /\
  restorable (commit_failed_transaction (outgoing [0] 7 5 1000) (at_block released_at))
    (revert_failed_transaction (outgoing [0] 7 5 1000)) (commits released_at retired (-1000)) retired.
Proof.
  split; [vm_compute; done|].
  apply (staking_failed_restorable (outgoing [0] 7 5 1000) (at_block released_at) retired).
  - apply reachable_wf, retired_reachable.
  - vm_compute. done.
Defined.

Lemma staking_slashing_reversible_witness :
  let jail := Inherent.Jail (mk_jailed_validator (mk_range 3 5) 7 3456001) None in
  (commit_inherent jail (at_block staked_at) (contract, [])).1 <> Panic /\
  reversible (commit_inherent jail (at_block staked_at)) (revert_inherent jail)
    (commits staked_at contract 0) contract.
Proof.
  intros jail. split; [vm_compute; done|].
  apply (staking_slashing_reversible jail (at_block staked_at) contract).
  - apply reachable_wf, contract_reachable.
  - vm_compute. done.
  - split; [vm_compute; done|]. split; [done|]. vm_compute. done.
Defined.

Lemma stake_released_only_when_free_witness :
  exists s, stakers retiring.2 !! 9 = Some s /\ 20000000 <= s_inactive_balance s /\
    stake_free (validators retiring.2) s released_at.
Proof.
  refine (stake_released_only_when_free (P := MAINNET_POLICY) (incoming [9; 20000000; 9] 0) (at_block released_at)
    retiring [] (Some (into_receipt (mk_retire_stake_receipt (Some 3499200))))
    (commit_incoming_transaction (incoming [9; 20000000; 9] 0) (at_block released_at) (retiring, [])).2
    _).
  vm_compute. done.
Defined.

Lemma withdrawals_only_after_lockup_witness :
  exists proof, Some 7 = Some proof /\
  exists val from, validators retired.2 !! proof = Some val /\
    VALIDATOR_DEPOSIT = v_deposit val /\ v_retired val = true /\
    is_jailed val released_at = false /\ v_inactive_from val = Some from /\
    last_block_of_collateral_lockup from < released_at.
Proof.
  refine (withdrawals_only_after_lockup (P := MAINNET_POLICY) (outgoing [0] 7 VALIDATOR_DEPOSIT 0) (at_block released_at)
    retired [] (Some (into_receipt (mk_delete_validator_receipt 70 71 72 None 3499200 None)))
    (commit_outgoing_transaction (outgoing [0] 7 VALIDATOR_DEPOSIT 0) (at_block released_at)
       (retired, [])).2 _).
  vm_compute. done.
Defined.

Lemma version_upgrade_exact_witness :
  exists x' lg', commit_inherent (Inherent.VersionUpgrade 2) (at_block staked_at) (contract, [])
                 = (Ok None, (x', lg')) /\ WF staked_at x' /\ sc_active_validators x'.1 !! 7 = None.
Proof.
  destruct (version_upgrade_exact 2 (at_block staked_at) contract [])
    as (x' & lg' & Hrun & Hwf & _ & _ & _ & Hact).
  - apply reachable_wf, contract_reachable.
  - exists x', lg'. split; [exact Hrun|]. split; [exact Hwf|]. rewrite Hact. vm_compute. done.
Defined.

Lemma finalize_batch_exact_witness :
  exists ps, commit_inherent Inherent.FinalizeBatch (at_block 3456060) (contract, [])
               = (Ok None, ((sc_set_punished_slots ps contract.1, contract.2), [])).
Proof.
  destruct (finalize_batch_exact (at_block 3456060) contract []) as (ps & Hrun & _).
  - apply reachable_wf. by apply (reachable_later staked_at); [apply contract_reachable|].
  - vm_compute. done.
  - exists ps. exact Hrun.
Defined.
End Example.
