(* ===== verification/Codec.v ===== *)
(** * Binary serialization

    The part of [serde/src/lib.rs] and of the serialization macros that
    hand-written formats rely on: fixed-width big-endian integers
    ([nimiq_serde::fixint::be]), fixed-size byte arrays
    ([add_serialization_fns_typed_arr!]), addresses, coins, and structs as the
    concatenation of their fields.  A [codec] packs a printer, a parser that
    returns the rest of the input, the values the printer accepts, and the
    round trip. *)

From S2P Require Import Prelude Coin AccountTypes.

Record codec (A : Type) := mk_codec {
  cenc : A -> list Z;
  cdec : list Z -> option (A * list Z);
  cvalid : A -> Prop;
  cdec_enc : forall a rest, cvalid a -> cdec (cenc a ++ rest) = Some (a, rest);
}.
Arguments cenc {_}.
Arguments cdec {_}.
Arguments cvalid {_}.
Arguments cdec_enc {_}.

(** The first [n] bytes of the input. *)
Definition take_bytes (n : nat) (bs : list Z) : option (list Z * list Z) :=
  if decide (n <= length bs)%nat then Some (take n bs, drop n bs) else None.

(** [Deserialize::deserialize_all]: the whole input, no extra data. *)
Definition deserialize_all {A} (c : codec A) (bs : list Z) : option A :=
  match cdec c bs with
  | Some (a, []) => Some a
  | _ => None
  end.

Lemma take_bytes_app n l rest : length l = n -> take_bytes n (l ++ rest) = Some (l, rest).
Proof.
  intros <-. unfold take_bytes. rewrite decide_True by (rewrite length_app; lia).
  by rewrite take_app_length, drop_app_length.
Qed.

Lemma deserialize_all_enc {A} (c : codec A) a :
  cvalid c a -> deserialize_all c (cenc c a) = Some a.
Proof.
  intros Hv. unfold deserialize_all. rewrite <-(app_nil_r (cenc c a)). by rewrite cdec_enc.
Qed.

(** [add_serialization_fns_typed_arr!]: an array of [n] bytes. *)
Program Definition array_codec (n : nat) : codec (list Z) := {|
  cenc l := l;
  cdec := take_bytes n;
  cvalid l := length l = n;
|}.
Next Obligation. intros. by apply take_bytes_app. Qed.

(** [nimiq_serde::fixint::be] for an integer of [n] bytes; also single bytes and
    addresses, which are kept as their big-endian value. *)
Program Definition be_codec (n : nat) : codec Z := {|
  cenc x := be_bytes n x;
  cdec bs := '(l, rest) ← take_bytes n bs; Some (be_value l, rest);
  cvalid x := 0 <= x < 256 ^ Z.of_nat n;
|}.
Next Obligation.
  intros n x rest Hx. simpl in *. rewrite take_bytes_app by apply be_bytes_length. simpl.
  by rewrite be_value_bytes, Z.mod_small by lia.
Qed.

Definition u8_codec : codec Z := be_codec 1.
Definition u64_codec : codec Z := be_codec 8.
Definition address_codec : codec Z := be_codec 20.

Lemma u8_cons b bs : cdec u8_codec (b :: bs) = Some (b, bs).
Proof.
  cbn [u8_codec be_codec cdec]. unfold take_bytes. rewrite decide_True by (simpl; lia).
  by destruct bs.
Qed.

(** [Deserialize for Coin] and [Serialize for Coin]. *)
Program Definition coin_codec : codec Z := {|
  cenc x := be_bytes 8 x;
  cdec bs := '(v, rest) ← cdec u64_codec bs; c ← try_from v; Some (c, rest);
  cvalid := coin_ok;
|}.
Next Obligation.
  intros x rest [H0 H1]. change (be_bytes 8 x) with (cenc u64_codec x).
  rewrite cdec_enc by (unfold MAX_SAFE_VALUE in *; simpl; lia). cbn [mbind option_bind].
  unfold try_from. by destruct (Z.leb_spec x MAX_SAFE_VALUE); [|lia].
Qed.

(** A struct: its fields in order. *)
Program Definition pair_codec {A B} (ca : codec A) (cb : codec B) : codec (A * B) := {|
  cenc p := cenc ca p.1 ++ cenc cb p.2;
  cdec bs := '(a, bs) ← cdec ca bs; '(b, bs) ← cdec cb bs; Some ((a, b), bs);
  cvalid p := cvalid ca p.1 /\ cvalid cb p.2;
|}.
Next Obligation.
  intros A B ca cb [a b] rest [Ha Hb]. simpl in *. rewrite <-app_assoc, cdec_enc by done. simpl.
  by rewrite cdec_enc.
Qed.

(** A type that is serialized through another one. *)
Program Definition via_codec {A B} (f : A -> B) (g : B -> option A) (cb : codec B)
    (Hgf : forall a, g (f a) = Some a) : codec A := {|
  cenc a := cenc cb (f a);
  cdec bs := '(b, bs) ← cdec cb bs; a ← g b; Some (a, bs);
  cvalid a := cvalid cb (f a);
|}.
Next Obligation.
  intros A B f g cb Hgf a rest Hv. simpl in *. rewrite cdec_enc by done. simpl. by rewrite Hgf.
Qed.

(** [Serialize for AnyHash]: the algorithm byte, then the hash. *)
Program Definition any_hash_codec : codec AnyHash := {|
  cenc h := match h with
            | Blake2b h => 1 :: h
            | Sha256 h => 3 :: h
            | Sha512 h => 4 :: h
            end;
  cdec bs :=
    '(algorithm, bs) ← cdec u8_codec bs;
    if algorithm =? 1 then '(h, bs) ← take_bytes 32 bs; Some (Blake2b h, bs)
    else if algorithm =? 3 then '(h, bs) ← take_bytes 32 bs; Some (Sha256 h, bs)
    else if algorithm =? 4 then '(h, bs) ← take_bytes 64 bs; Some (Sha512 h, bs)
    else None;
  cvalid h := match h with
              | Blake2b h | Sha256 h => length h = 32%nat
              | Sha512 h => length h = 64%nat
              end;
|}.
Next Obligation.
  intros [h|h|h] rest Hl; cbn [app]; rewrite u8_cons; cbn [mbind option_bind Z.eqb Pos.eqb];
    by rewrite take_bytes_app.
Qed.

(** [Serialize for PreImage]: the length as the type byte, then the bytes. *)
Program Definition pre_image_codec : codec PreImage := {|
  cenc p := match p with PreImage32 h => 32 :: h | PreImage64 h => 64 :: h end;
  cdec bs :=
    '(pre_image_type, bs) ← cdec u8_codec bs;
    if pre_image_type =? 32 then '(h, bs) ← take_bytes 32 bs; Some (PreImage32 h, bs)
    else if pre_image_type =? 64 then '(h, bs) ← take_bytes 64 bs; Some (PreImage64 h, bs)
    else None;
  cvalid p := match p with
              | PreImage32 h => length h = 32%nat
              | PreImage64 h => length h = 64%nat
              end;
|}.
Next Obligation.
  intros [h|h] rest Hl; cbn [app]; rewrite u8_cons; cbn [mbind option_bind Z.eqb Pos.eqb];
    by rewrite take_bytes_app.
Qed.
