(* ===== verification/ReservedBalance.v ===== *)
(** * Reserved balances

    [primitives/account/src/reserved_balance.rs]: the amounts that pending
    transactions of one sender already claim, per address (a staking contract
    reserves for its validators and stakers). *)

From S2P Require Import Prelude Coin AccountTypes.

Record ReservedBalance := mk_reserved_balance {
  rb_address : Z;
  rb_balances : gmap Z Z;
}.

(** Operations on a reserved balance; errors leave it as it is. *)
Definition RM (A : Type) : Type := M ReservedBalance AccountError.t A.

Definition new (address : Z) : ReservedBalance := mk_reserved_balance address ∅.

Definition balance_for (rb : ReservedBalance) (address : Z) : Z :=
  default 0 (rb_balances rb !! address).

Definition balance (rb : ReservedBalance) : Z := balance_for rb (rb_address rb).

Definition set_balance_for (address amount : Z) : RM unit :=
  modify (fun rb => mk_reserved_balance (rb_address rb) (<[address := amount]> (rb_balances rb))).

Definition reserve_for (address available amount : Z) : RM unit :=
  reserved ← gets (fun rb => default 0 (rb_balances rb !! address));
  needed ← ok_or (coin_checked_add reserved amount) AccountError.InvalidCoinValue;
  fail_if (available <? needed) (AccountError.InsufficientFunds needed available);;
  set_balance_for address needed.

Definition reserve (available amount : Z) : RM unit :=
  address ← gets rb_address;
  reserve_for address available amount.

Definition release_for (address amount : Z) : RM unit :=
  reserved ← gets (fun rb => default 0 (rb_balances rb !! address));
  reserved ← expect (coin_checked_sub reserved amount);
  set_balance_for address reserved.

Definition release (amount : Z) : RM unit :=
  address ← gets rb_address;
  release_for address amount.

(** ** Facts *)

(** Reserved amounts are coins. *)
Definition reserved_ok (rb : ReservedBalance) : Prop := forall a, coin_ok (balance_for rb a).

(** Reserving succeeds exactly when the amount fits into what is available on
    top of the reservations, and then adds it to them. *)
Lemma reserve_for_spec a available amount rb :
  reserved_ok rb -> coin_ok available -> coin_ok amount ->
  if balance_for rb a + amount <=? available
  then exists rb', reserve_for a available amount rb = (Ok tt, rb') /\ reserved_ok rb' /\
         rb_address rb' = rb_address rb /\ balance_for rb' a = balance_for rb a + amount /\
         forall b, b <> a -> balance_for rb' b = balance_for rb b
  else exists e, reserve_for a available amount rb = (Err e, rb).
Proof.
  intros Hok Hav Ham. pose proof (Hok a) as Ha. unfold reserve_for, mbind, M_bind. cbn [gets].
  change (default 0 (rb_balances rb !! a)) with (balance_for rb a).
  rewrite coin_checked_add_spec by done. unfold coin_ok in *.
  destruct (Z.leb_spec (balance_for rb a + amount) available) as [Hle|Hgt].
  - destruct (Z.leb_spec (balance_for rb a + amount) MAX_SAFE_VALUE); [|lia]. simpl.
    destruct (Z.ltb_spec available (balance_for rb a + amount)); [lia|]. simpl.
    eexists. split; [done|]. unfold balance_for, reserved_ok. simpl. split_and!; [|done|..].
    + intros b. unfold balance_for. simpl. destruct (decide (b = a)) as [->|Hne].
      * rewrite lookup_insert_eq. simpl. unfold coin_ok, balance_for in *. lia.
      * rewrite lookup_insert_ne by done. apply Hok.
    + by rewrite lookup_insert_eq.
    + intros b Hne. by rewrite lookup_insert_ne.
  - destruct (Z.leb_spec (balance_for rb a + amount) MAX_SAFE_VALUE); simpl; [|by eexists].
    destruct (Z.ltb_spec available (balance_for rb a + amount)); [|lia]. simpl. by eexists.
Qed.

(** Releasing a reserved amount never panics and takes it off. *)
Lemma release_for_spec a amount rb :
  reserved_ok rb -> 0 <= amount <= balance_for rb a ->
  exists rb', release_for a amount rb = (Ok tt, rb') /\ reserved_ok rb' /\
    rb_address rb' = rb_address rb /\ balance_for rb' a = balance_for rb a - amount /\
    forall b, b <> a -> balance_for rb' b = balance_for rb b.
Proof.
  intros Hok Ham. pose proof (Hok a) as Ha. unfold release_for, mbind, M_bind. cbn [gets].
  change (default 0 (rb_balances rb !! a)) with (balance_for rb a).
  rewrite coin_checked_sub_spec by (unfold coin_ok in *; lia).
  destruct (Z.leb_spec amount (balance_for rb a)); [|lia]. simpl.
  eexists. split; [done|]. unfold balance_for, reserved_ok. simpl. split_and!; [|done|..].
  - intros b. unfold balance_for. simpl. destruct (decide (b = a)) as [->|Hne].
    + rewrite lookup_insert_eq. simpl. unfold coin_ok, balance_for in *. lia.
    + rewrite lookup_insert_ne by done. apply Hok.
  - by rewrite lookup_insert_eq.
  - intros b Hne. by rewrite lookup_insert_ne.
Qed.
