(* ===== verification/BasicAccount.v ===== *)
(** * Basic accounts

    [primitives/account/src/account/basic_account.rs]. *)

From S2P Require Import Prelude Coin AccountTypes ReservedBalance.

Record BasicAccount := mk_basic_account { ba_balance : Z }.

Definition commit_incoming_transaction (tx : Transaction)
  : AM BasicAccount (option AccountReceipt) :=
  b ← get_state ba_balance;
  b ← add b (tx_value tx);
  modify_state (fun _ => mk_basic_account b);;
  mret None.

Definition revert_incoming_transaction (tx : Transaction) : AM BasicAccount unit :=
  b ← get_state ba_balance;
  b ← sub b (tx_value tx);
  modify_state (fun _ => mk_basic_account b).

Definition commit_outgoing_transaction (tx : Transaction)
  : AM BasicAccount (option AccountReceipt) :=
  b ← get_state ba_balance;
  b ← safe_sub_or b (total_value tx);
  modify_state (fun _ => mk_basic_account b);;
  push_log (Log.pay_fee_log tx);;
  push_log (Log.transfer_log tx);;
  mret None.

Definition revert_outgoing_transaction (tx : Transaction) : AM BasicAccount unit :=
  b ← get_state ba_balance;
  b ← add b (total_value tx);
  modify_state (fun _ => mk_basic_account b);;
  push_log (Log.transfer_log tx);;
  push_log (Log.pay_fee_log tx).

Definition commit_failed_transaction (tx : Transaction)
  : AM BasicAccount (option AccountReceipt) :=
  b ← get_state ba_balance;
  b ← safe_sub_or b (tx_fee tx);
  modify_state (fun _ => mk_basic_account b);;
  push_log (Log.pay_fee_log tx);;
  mret None.

Definition revert_failed_transaction (tx : Transaction) : AM BasicAccount unit :=
  b ← get_state ba_balance;
  b ← add b (tx_fee tx);
  modify_state (fun _ => mk_basic_account b);;
  push_log (Log.pay_fee_log tx).

Definition reserve_balance (self : BasicAccount) (tx : Transaction) : RM unit :=
  reserve (ba_balance self) (total_value tx).

Definition release_balance (tx : Transaction) : RM unit := release (total_value tx).

Definition commit_inherent (inherent : Inherent.t) : AM BasicAccount (option AccountReceipt) :=
  match inherent with
  | Inherent.Reward _ target value =>
      b ← get_state ba_balance;
      b ← add b value;
      modify_state (fun _ => mk_basic_account b);;
      push_log (Log.PayoutReward target value);;
      mret None
  | _ => fail AccountError.InvalidForTarget
  end.

Definition revert_inherent (inherent : Inherent.t) : AM BasicAccount unit :=
  match inherent with
  | Inherent.Reward _ target value =>
      b ← get_state ba_balance;
      b ← sub b value;
      modify_state (fun _ => mk_basic_account b);;
      push_log (Log.PayoutReward target value)
  | _ => fail AccountError.InvalidForTarget
  end.

Definition can_be_pruned (self : BasicAccount) : bool := is_zero (ba_balance self).

(** ** Reversibility *)

Definition paid (b delta : Z) (r : option AccountReceipt) (x : BasicAccount) : Prop :=
  x = mk_basic_account (b + delta) /\ 0 <= b + delta.

Lemma basic_incoming_reversible tx b :
  0 <= b -> 0 <= tx_value tx -> b + tx_value tx <= MAX_SAFE_VALUE ->
  reversible (commit_incoming_transaction tx) (fun _ => revert_incoming_transaction tx)
    (paid b (tx_value tx)) (mk_basic_account b).
Proof.
  intros. apply reversible_wp. intros lg. unfold commit_incoming_transaction.
  apply wp_bind, wp_get_state, wp_bind, wp_add; [simpl; lia..|].
  apply wp_bind, wp_modify_state, wp_ret. split; [split; [done|lia]|].
  exists []. rewrite app_nil_r. split; [done|]. intros lg2. unfold revert_incoming_transaction.
  apply wp_bind, wp_get_state, wp_bind, wp_sub; [simpl; lia..|]. apply wp_modify_state.
  split; [done|]. rewrite app_nil_r. f_equal. simpl. f_equal. lia.
Qed.

Lemma basic_outgoing_reversible tx b :
  0 <= b <= MAX_SAFE_VALUE -> 0 <= total_value tx ->
  reversible (commit_outgoing_transaction tx) (fun _ => revert_outgoing_transaction tx)
    (paid b (- total_value tx)) (mk_basic_account b).
Proof.
  intros. apply reversible_wp. intros lg. unfold commit_outgoing_transaction.
  apply wp_bind, wp_get_state, wp_bind, wp_safe_sub_or; [simpl; lia..| |done]. intros Hle. simpl in Hle.
  apply wp_bind, wp_modify_state, wp_bind, wp_push_log, wp_bind, wp_push_log, wp_ret. split; [split; [done|lia]|].
  eexists. rewrite <-app_assoc. split; [done|]. intros lg2. unfold revert_outgoing_transaction.
  apply wp_bind, wp_get_state, wp_bind, wp_add; [simpl; lia..|].
  apply wp_bind, wp_modify_state, wp_bind, wp_push_log, wp_push_log.
  split; [done|]. rewrite <-app_assoc. f_equal. simpl. f_equal. lia.
Qed.

Lemma basic_failed_reversible tx b :
  0 <= b <= MAX_SAFE_VALUE -> 0 <= tx_fee tx ->
  reversible (commit_failed_transaction tx) (fun _ => revert_failed_transaction tx)
    (paid b (- tx_fee tx)) (mk_basic_account b).
Proof.
  intros. apply reversible_wp. intros lg. unfold commit_failed_transaction.
  apply wp_bind, wp_get_state, wp_bind, wp_safe_sub_or; [simpl; lia..| |done]. intros Hle. simpl in Hle.
  apply wp_bind, wp_modify_state, wp_bind, wp_push_log, wp_ret. split; [split; [done|lia]|].
  eexists. split; [done|]. intros lg2. unfold revert_failed_transaction.
  apply wp_bind, wp_get_state, wp_bind, wp_add; [simpl; lia..|].
  apply wp_bind, wp_modify_state, wp_push_log.
  split; [done|]. f_equal. simpl. f_equal. lia.
Qed.

Lemma basic_reward_reversible va target value b :
  0 <= b -> 0 <= value -> b + value <= MAX_SAFE_VALUE ->
  reversible (commit_inherent (Inherent.Reward va target value))
    (fun _ => revert_inherent (Inherent.Reward va target value))
    (paid b value) (mk_basic_account b).
Proof.
  intros. apply reversible_wp. intros lg. unfold commit_inherent.
  apply wp_bind, wp_get_state, wp_bind, wp_add; [simpl; lia..|].
  apply wp_bind, wp_modify_state, wp_bind, wp_push_log, wp_ret. split; [split; [done|lia]|].
  eexists. split; [done|]. intros lg2. unfold revert_inherent.
  apply wp_bind, wp_get_state, wp_bind, wp_sub; [simpl; lia..|].
  apply wp_bind, wp_modify_state, wp_push_log.
  split; [done|]. f_equal. simpl. f_equal. lia.
Qed.
