(* ===== verification/VestingContract.v ===== *)
(** * Vesting contracts

    [primitives/account/src/account/vesting_contract.rs] and the creation data
    of [primitives/transaction/src/account/vesting_contract.rs]: parsing and
    printing of the three data formats, the release schedule [min_cap], the
    handlers with their reverts, pruning and restoring. *)

From S2P Require Import Prelude Coin AccountTypes StakingTypes ReservedBalance Codec.

(** ** Creation data *)

Record CreationTransactionData := mk_creation_data {
  cd_owner : Z;
  cd_start_time : Z;
  cd_time_step : Z;
  cd_step_amount : Z;
  cd_total_amount : Z;
}.

Definition MAX_TIME_VALUE : Z := MAX_SAFE_VALUE.

(** The fields of [CreationTransactionData8], [24] and [32] in order. *)
Definition data8_codec : codec (Z * Z) := pair_codec address_codec u64_codec.
Definition data24_codec : codec (Z * (Z * (Z * Z))) :=
  pair_codec address_codec (pair_codec u64_codec (pair_codec u64_codec coin_codec)).
Definition data32_codec : codec (Z * (Z * (Z * (Z * Z)))) :=
  pair_codec address_codec
    (pair_codec u64_codec (pair_codec u64_codec (pair_codec coin_codec coin_codec))).
Definition DATA8_SIZE : nat := 28.
Definition DATA24_SIZE : nat := 44.
Definition DATA32_SIZE : nat := 52.

(** The result of the parsers: a value or a [TransactionError]. *)
Definition parsed (A : Type) : Type := A + TransactionError.t.
Definition invalid_data {A} : parsed A := inr TransactionError.InvalidData.
Definition or_invalid_serialization {A} (o : option A) : parsed A :=
  match o with Some a => inl a | None => inr TransactionError.InvalidSerialization end.
Definition parsed_bind {A B} (p : parsed A) (k : A -> parsed B) : parsed B :=
  match p with inl a => k a | inr e => inr e end.

Definition parse_data (data : list Z) (tx_value : Z) : parsed CreationTransactionData :=
  let n := length data in
  if (n =? DATA8_SIZE)%nat then
    parsed_bind (or_invalid_serialization (deserialize_all data8_codec data))
      (fun '(owner, time_step) =>
         if MAX_TIME_VALUE <? time_step then invalid_data
         else inl (mk_creation_data owner 0 time_step tx_value tx_value))
  else if (n =? DATA24_SIZE)%nat then
    parsed_bind (or_invalid_serialization (deserialize_all data24_codec data))
      (fun '(owner, (start_time, (time_step, step_amount))) =>
         if (MAX_TIME_VALUE <? start_time) || (MAX_TIME_VALUE <? time_step) then invalid_data
         else inl (mk_creation_data owner start_time time_step step_amount tx_value))
  else if (n =? DATA32_SIZE)%nat then
    parsed_bind (or_invalid_serialization (deserialize_all data32_codec data))
      (fun '(owner, (start_time, (time_step, (step_amount, total_amount)))) =>
         if (MAX_TIME_VALUE <? start_time) || (MAX_TIME_VALUE <? time_step) then invalid_data
         else if tx_value <? total_amount then invalid_data
         else if total_amount <? step_amount then invalid_data
         else inl (mk_creation_data owner start_time time_step step_amount total_amount))
  else invalid_data.

Definition parse (tx : Transaction) : parsed CreationTransactionData :=
  parse_data (tx_recipient_data tx) (tx_value tx).

Definition to_tx_data (d : CreationTransactionData) : list Z :=
  if cd_step_amount d =? cd_total_amount d then
    if cd_start_time d =? 0 then cenc data8_codec (cd_owner d, cd_time_step d)
    else cenc data24_codec
           (cd_owner d, (cd_start_time d, (cd_time_step d, cd_step_amount d)))
  else cenc data32_codec
         (cd_owner d, (cd_start_time d, (cd_time_step d, (cd_step_amount d, cd_total_amount d)))).

(** ** The contract *)

Record VestingContract := mk_vesting_contract {
  vc_balance : Z;
  vc_owner : Z;
  vc_start_time : Z;
  vc_time_step : Z;
  vc_step_amount : Z;
  vc_total_amount : Z;
}.
Definition vc_set_balance (b : Z) (c : VestingContract) : VestingContract :=
  mk_vesting_contract b (vc_owner c) (vc_start_time c) (vc_time_step c) (vc_step_amount c)
    (vc_total_amount c).

(** The balance that is still locked at [time].  The [i128] computation is exact
    for 64-bit arguments, its division truncates towards zero. *)
Definition min_cap (self : VestingContract) (time : Z) : Z :=
  if (0 <? vc_time_step self) && (0 <? vc_step_amount self) then
    let total := vc_total_amount self in
    let steps := Z.quot (time - vc_start_time self) (vc_time_step self) in
    let min_cap := total - steps * vc_step_amount self in
    Z.min (Z.max min_cap 0) total
  else 0.

Section Handlers.
Context `{Env : StakingEnv}.

Definition is_signed_by (proof : SignatureProof) (address : Z) : bool :=
  compute_signer proof =? address.

Definition can_change_balance {X} (self : VestingContract) (tx : Transaction) (new_balance : Z)
    (bs : BlockState) : M X AccountError.t unit :=
  let min_cap := min_cap self (bs_time bs) in
  fail_if (new_balance <? min_cap)
    (AccountError.InsufficientFunds (coin_saturating_sub (vc_balance self) new_balance)
       (coin_saturating_sub (vc_balance self) min_cap));;
  signature_proof ← ok_or (parse_signature_proof (tx_proof tx)) AccountError.InvalidSerialization;
  fail_if (negb (is_signed_by signature_proof (vc_owner self))) AccountError.InvalidSignature.

(** [Account::Vesting] of the new contract; the state is not used. *)
Definition create_new_contract {X} (tx : Transaction) (initial_balance : Z)
  : AM X VestingContract :=
  data ← match parse tx with
         | inl data => mret data
         | inr e => fail (AccountError.InvalidTransaction e)
         end;
  push_log (Log.VestingCreate (tx_recipient tx) (cd_owner data) (cd_start_time data)
              (cd_time_step data) (cd_step_amount data) (cd_total_amount data));;
  balance ← add initial_balance (tx_value tx);
  mret (mk_vesting_contract balance (cd_owner data) (cd_start_time data) (cd_time_step data)
          (cd_step_amount data) (cd_total_amount data)).

Definition revert_new_contract (tx : Transaction) : AM VestingContract unit :=
  c ← get_state id;
  b ← sub (vc_balance c) (tx_value tx);
  modify_state (vc_set_balance b);;
  push_log (Log.VestingCreate (tx_recipient tx) (vc_owner c) (vc_start_time c)
              (vc_time_step c) (vc_step_amount c) (vc_total_amount c)).

Definition commit_incoming_transaction : AM VestingContract (option AccountReceipt) :=
  fail AccountError.InvalidForRecipient.
Definition revert_incoming_transaction : AM VestingContract unit :=
  fail AccountError.InvalidForRecipient.

Definition commit_outgoing_transaction (tx : Transaction) (bs : BlockState)
  : AM VestingContract (option AccountReceipt) :=
  c ← get_state id;
  new_balance ← safe_sub_or (vc_balance c) (total_value tx);
  can_change_balance c tx new_balance bs;;
  modify_state (vc_set_balance new_balance);;
  push_log (Log.pay_fee_log tx);;
  push_log (Log.transfer_log tx);;
  mret None.

Definition revert_outgoing_transaction (tx : Transaction) : AM VestingContract unit :=
  c ← get_state id;
  b ← add (vc_balance c) (total_value tx);
  modify_state (vc_set_balance b);;
  push_log (Log.transfer_log tx);;
  push_log (Log.pay_fee_log tx).

Definition commit_failed_transaction (tx : Transaction) (bs : BlockState)
  : AM VestingContract (option AccountReceipt) :=
  c ← get_state id;
  new_balance ← safe_sub_or (vc_balance c) (tx_fee tx);
  can_change_balance c tx new_balance bs;;
  modify_state (vc_set_balance new_balance);;
  push_log (Log.pay_fee_log tx);;
  mret None.

Definition revert_failed_transaction (tx : Transaction) : AM VestingContract unit :=
  c ← get_state id;
  b ← add (vc_balance c) (tx_fee tx);
  modify_state (vc_set_balance b);;
  push_log (Log.pay_fee_log tx).

Definition reserve_balance (self : VestingContract) (tx : Transaction) (bs : BlockState)
  : RM unit :=
  reserved ← gets balance;
  needed ← ok_or (coin_checked_add reserved (total_value tx)) AccountError.InvalidCoinValue;
  new_balance ← match safe_sub (vc_balance self) needed with
                | inl b => mret b
                | inr e => fail (from_coin_underflow e)
                end;
  can_change_balance self tx new_balance bs;;
  reserve (vc_balance self) (total_value tx).

Definition release_balance (tx : Transaction) : RM unit := release (total_value tx).
End Handlers.

Definition commit_inherent : AM VestingContract (option AccountReceipt) :=
  fail AccountError.InvalidForTarget.
Definition revert_inherent : AM VestingContract unit := fail AccountError.InvalidForTarget.

Definition can_be_pruned (self : VestingContract) : bool := is_zero (vc_balance self).

(** ** Pruning *)

Record PrunedVestingContract := mk_pruned_vesting {
  pv_owner : Z;
  pv_start_time : Z;
  pv_time_step : Z;
  pv_step_amount : Z;
  pv_total_amount : Z;
}.

Definition pruned_from (c : VestingContract) : PrunedVestingContract :=
  mk_pruned_vesting (vc_owner c) (vc_start_time c) (vc_time_step c) (vc_step_amount c)
    (vc_total_amount c).
Definition vesting_from (r : PrunedVestingContract) : VestingContract :=
  mk_vesting_contract 0 (pv_owner r) (pv_start_time r) (pv_time_step r) (pv_step_amount r)
    (pv_total_amount r).

Section Pruning.
Context `{ConvertReceipt PrunedVestingContract}.

Definition prune (self : VestingContract) : option AccountReceipt :=
  Some (into_receipt (pruned_from self)).
Definition restore {X} (pruned_account : option AccountReceipt) : AM X VestingContract :=
  pruned_account ← take_receipt pruned_account;
  mret (vesting_from pruned_account).
End Pruning.

(** ** The release schedule *)

(** The parameters of a contract that creation data can give. *)
Record vesting_ok (c : VestingContract) : Prop := {
  vesting_balance_ok : coin_ok (vc_balance c);
  vesting_total_ok : 0 <= vc_total_amount c;
  vesting_step_ok : 0 <= vc_step_amount c;
  vesting_time_ok : 0 <= vc_time_step c;
}.

Lemma min_cap_bounds c time : 0 <= vc_total_amount c -> 0 <= min_cap c time <= vc_total_amount c.
Proof. unfold min_cap. destruct (_ && _); lia. Qed.

Lemma min_cap_antitone c t1 t2 :
  0 <= vc_total_amount c -> t1 <= t2 -> min_cap c t2 <= min_cap c t1.
Proof.
  intros Ht Hle. unfold min_cap.
  destruct (Z.ltb_spec 0 (vc_time_step c)); destruct (Z.ltb_spec 0 (vc_step_amount c)); simpl; try lia.
  enough (Z.quot (t1 - vc_start_time c) (vc_time_step c)
          <= Z.quot (t2 - vc_start_time c) (vc_time_step c)) by nia.
  apply Z.quot_le_mono; lia.
Qed.

(** After [n] full steps, [n] step amounts are released, until nothing is
    locked; before the first step everything is. *)
Lemma min_cap_after_steps c n r :
  0 <= vc_total_amount c -> 0 < vc_step_amount c -> 0 <= n -> 0 <= r < vc_time_step c ->
  min_cap c (vc_start_time c + n * vc_time_step c + r)
  = Z.max 0 (vc_total_amount c - n * vc_step_amount c).
Proof.
  intros Ht Hs Hn Hr. unfold min_cap.
  destruct (Z.ltb_spec 0 (vc_time_step c)); [|lia].
  destruct (Z.ltb_spec 0 (vc_step_amount c)); [|lia]. simpl.
  replace (vc_start_time c + n * vc_time_step c + r - vc_start_time c)
    with (n * vc_time_step c + r) by lia.
  rewrite Z.quot_div_nonneg by nia.
  rewrite Z.div_add_l by lia. rewrite (Z.div_small r) by lia. nia.
Qed.

(** ** Creation data round trip *)

Record creation_ok (d : CreationTransactionData) : Prop := {
  creation_owner : 0 <= cd_owner d < 256 ^ 20;
  creation_start : 0 <= cd_start_time d <= MAX_TIME_VALUE;
  creation_step : 0 <= cd_time_step d <= MAX_TIME_VALUE;
  creation_amounts : 0 <= cd_step_amount d <= cd_total_amount d;
  creation_total : cd_total_amount d <= MAX_SAFE_VALUE;
}.

Lemma to_tx_data_length d :
  length (to_tx_data d) =
    if cd_step_amount d =? cd_total_amount d
    then if cd_start_time d =? 0 then DATA8_SIZE else DATA24_SIZE else DATA32_SIZE.
Proof.
  unfold to_tx_data. repeat case_match; simpl cenc; by rewrite ?length_app, ?be_bytes_length.
Qed.

(** The printed data parses back, provided the contract locks the whole value of
    the transaction whenever the short formats are chosen. *)
Lemma parse_to_tx_data d value :
  creation_ok d -> cd_total_amount d <= value ->
  (cd_step_amount d = cd_total_amount d -> cd_total_amount d = value) ->
  parse_data (to_tx_data d) value = inl d.
Proof.
  intros [Ho Hs Ht Ha Hm] Hv Heq. unfold parse_data. rewrite to_tx_data_length. unfold to_tx_data.
  unfold MAX_TIME_VALUE, MAX_SAFE_VALUE in *.
  destruct (Z.eqb_spec (cd_step_amount d) (cd_total_amount d)) as [E|E];
    [destruct (Z.eqb_spec (cd_start_time d) 0) as [E0|E0]|]; cbn [Nat.eqb DATA8_SIZE DATA24_SIZE DATA32_SIZE];
    rewrite deserialize_all_enc by (simpl; unfold coin_ok, MAX_SAFE_VALUE; lia);
    cbn [or_invalid_serialization parsed_bind fst snd];
    repeat match goal with
    | |- context [?a <? ?b] => destruct (Z.ltb_spec a b); [lia|]
    end; cbn [orb]; destruct d; simpl in *; f_equal; f_equal; auto; lia.
Qed.

(** Otherwise the short format drops the total amount: the parser locks the
    whole transaction value instead. *)
Lemma to_tx_data_drops_total_amount :
  let d := mk_creation_data 7 0 1000 5 5 in
  creation_ok d /\ parse_data (to_tx_data d) 8 = inl (mk_creation_data 7 0 1000 8 8).
Proof. split; [split; simpl; unfold MAX_TIME_VALUE, MAX_SAFE_VALUE; lia|vm_compute; done]. Qed.

(** ** Reversibility *)

Section Proofs.
Context `{Env : StakingEnv}.

Lemma vc_set_balance_eta c : vc_set_balance (vc_balance c) c = c.
Proof. by destruct c. Qed.

Lemma wp_can_change_vesting {X} c tx new_balance bs Q QE (s : X) :
  (min_cap c (bs_time bs) <= new_balance ->
   (exists proof, parse_signature_proof (tx_proof tx) = Some proof /\
      compute_signer proof = vc_owner c) -> Q tt s) ->
  (forall e, QE e s) -> wp (can_change_balance c tx new_balance bs) Q QE s.
Proof.
  intros HQ HE. unfold can_change_balance. apply wp_bind, wp_fail_if; [by intros; apply HE|].
  intros Hcap%Z.ltb_ge. apply wp_bind, wp_ok_or; [|by intros; apply HE]. intros proof Hp.
  apply wp_fail_if; [by intros; apply HE|]. intros Hs%negb_false_iff%Z.eqb_eq. eauto.
Qed.

(** The balance moved by [delta], everything else is kept. *)
Definition vesting_paid (c : VestingContract) (delta : Z) (r : option AccountReceipt)
    (c' : VestingContract) : Prop :=
  c' = vc_set_balance (vc_balance c + delta) c /\ 0 <= vc_balance c'.

Lemma vesting_outgoing_reversible tx bs c :
  coin_ok (vc_balance c) -> 0 <= total_value tx ->
  reversible (commit_outgoing_transaction tx bs) (fun _ => revert_outgoing_transaction tx)
    (vesting_paid c (- total_value tx)) c.
Proof.
  intros Hok Hv. unfold coin_ok in Hok. apply reversible_wp. intros lg.
  unfold commit_outgoing_transaction. apply wp_bind, wp_get_state, wp_bind, wp_safe_sub_or;
    [unfold id; lia..| |done]. intros Hle. unfold id in *.
  apply wp_bind, wp_can_change_vesting; [|done]. intros _ _.
  apply wp_bind, wp_modify_state, wp_bind, wp_push_log, wp_bind, wp_push_log, wp_ret.
  split; [split; [done|simpl; lia]|].
  eexists. rewrite <-app_assoc. split; [done|]. intros lg2. unfold revert_outgoing_transaction.
  apply wp_bind, wp_get_state, wp_bind, wp_add; [simpl; lia..|].
  apply wp_bind, wp_modify_state, wp_bind, wp_push_log, wp_push_log.
  split; [done|]. rewrite <-app_assoc. f_equal. unfold vc_set_balance. destruct c. simpl. f_equal. lia.
Qed.

Lemma vesting_failed_reversible tx bs c :
  coin_ok (vc_balance c) -> 0 <= tx_fee tx ->
  reversible (commit_failed_transaction tx bs) (fun _ => revert_failed_transaction tx)
    (vesting_paid c (- tx_fee tx)) c.
Proof.
  intros Hok Hv. unfold coin_ok in Hok. apply reversible_wp. intros lg.
  unfold commit_failed_transaction. apply wp_bind, wp_get_state, wp_bind, wp_safe_sub_or;
    [unfold id; lia..| |done]. intros Hle. unfold id in *.
  apply wp_bind, wp_can_change_vesting; [|done]. intros _ _.
  apply wp_bind, wp_modify_state, wp_bind, wp_push_log, wp_ret.
  split; [split; [done|simpl; lia]|].
  eexists. split; [done|]. intros lg2. unfold revert_failed_transaction.
  apply wp_bind, wp_get_state, wp_bind, wp_add; [simpl; lia..|].
  apply wp_bind, wp_modify_state, wp_push_log.
  split; [done|]. f_equal. unfold vc_set_balance. destruct c. simpl. f_equal. lia.
Qed.

Lemma restore_prune_vesting `{ConvertReceipt PrunedVestingContract} {X} c (s : X * list Log.t) :
  vc_balance c = 0 -> restore (prune c) s = (Ok c, s).
Proof.
  intros Hb. unfold restore, prune, take_receipt, mbind, M_bind. simpl. rewrite try_from_into. simpl.
  unfold vesting_from, pruned_from. destruct c. simpl in *. by subst.
Qed.
End Proofs.
