(* ===== verification/Float64.v ===== *)
(** * Double precision arithmetic

    The [f64] operations the source uses, over the IEEE 754 specification of
    the standard library ([SpecFloat]) at precision 53 and exponent 1024:
    conversions from and to integers, the four operations with rounding to
    nearest even, [floor] and [max]. *)

From Stdlib Require Import Floats.SpecFloat.
From S2P Require Import Prelude.

Definition f64 : Type := spec_float.

(** [n as f64] for an unsigned integer. *)
Definition f64_of_Z (n : Z) : f64 := binary_normalize 53 1024 n 0 false.
Definition f64_add : f64 -> f64 -> f64 := SFadd 53 1024.
Definition f64_sub : f64 -> f64 -> f64 := SFsub 53 1024.
Definition f64_mul : f64 -> f64 -> f64 := SFmul 53 1024.
Definition f64_div : f64 -> f64 -> f64 := SFdiv 53 1024.
Definition f64_one : f64 := f64_of_Z 1.

(** [f64::floor]. *)
Definition f64_floor (f : f64) : f64 :=
  match f with
  | S754_finite s m e =>
      if 0 <=? e then f
      else binary_normalize 53 1024 (cond_Zopp s (Zpos m) / 2 ^ (- e)) 0 s
  | _ => f
  end.

(** [f64::max] against [0.0]: the other operand if one is not a number. *)
Definition f64_max_zero (f : f64) : f64 :=
  match f with
  | S754_finite false _ _ | S754_infinity false => f
  | _ => S754_zero false
  end.

(** [f as u64]: truncating, saturating, and zero if not a number. *)
Definition f64_to_u64 (f : f64) : Z :=
  match f with
  | S754_finite false m e =>
      Z.min (if 0 <=? e then Zpos m * 2 ^ e else Zpos m / 2 ^ (- e)) (max_value 64)
  | S754_infinity false => max_value 64
  | _ => 0
  end.
