(* ===== verification/HtlcContract.v ===== *)
(** * Hashed time-locked contracts

    [primitives/account/src/account/htlc_contract.rs] and the creation data and
    proofs of [primitives/transaction/src/account/htlc_contract.rs]. *)

From S2P Require Import Prelude Coin AccountTypes StakingTypes ReservedBalance Codec Float64.
From S2P Require Import VestingContract.

(** ** Creation data *)

Record CreationTransactionData := mk_htlc_creation {
  hd_sender : Z;
  hd_recipient : Z;
  hd_hash_root : AnyHash;
  hd_hash_count : Z;
  hd_timeout : Z;
}.

Definition creation_tuple (d : CreationTransactionData) : Z * (Z * (AnyHash * (Z * Z))) :=
  (hd_sender d, (hd_recipient d, (hd_hash_root d, (hd_hash_count d, hd_timeout d)))).
Definition creation_of_tuple (p : Z * (Z * (AnyHash * (Z * Z)))) : CreationTransactionData :=
  mk_htlc_creation p.1 p.2.1 p.2.2.1 p.2.2.2.1 p.2.2.2.2.
Lemma creation_tuple_inv d : Some (creation_of_tuple (creation_tuple d)) = Some d.
Proof. by destruct d. Qed.

Definition creation_codec : codec CreationTransactionData :=
  via_codec creation_tuple (fun p => Some (creation_of_tuple p))
    (pair_codec address_codec (pair_codec address_codec
      (pair_codec any_hash_codec (pair_codec u8_codec u64_codec)))) creation_tuple_inv.

Definition parse_data (data : list Z) : parsed CreationTransactionData :=
  or_invalid_serialization (deserialize_all creation_codec data).
Definition parse (tx : Transaction) : parsed CreationTransactionData :=
  parse_data (tx_recipient_data tx).
(** [CreationTransactionData::verify]. *)
Definition verify_creation (d : CreationTransactionData) : parsed unit :=
  if hd_hash_count d =? 0 then VestingContract.invalid_data else inl tt.

(** ** Proofs of outgoing transactions *)

Inductive OutgoingHTLCTransactionProof (SignatureProof : Type) :=
  | RegularTransfer (hash_depth : Z) (hash_root : AnyHash) (pre_image : PreImage)
      (signature_proof : SignatureProof)
  | EarlyResolve (signature_proof_recipient signature_proof_sender : SignatureProof)
  | TimeoutResolve (signature_proof_sender : SignatureProof).
Arguments RegularTransfer {_}.
Arguments EarlyResolve {_}.
Arguments TimeoutResolve {_}.

(** The deserializer of proofs, which contain signature proofs. *)
Class HtlcEnv `{StakingEnv} := {
  parse_htlc_proof : list Z -> option (OutgoingHTLCTransactionProof SignatureProof);
}.

(** ** The contract *)

Record HashedTimeLockedContract := mk_htlc {
  ht_balance : Z;
  ht_sender : Z;
  ht_recipient : Z;
  ht_hash_root : AnyHash;
  ht_hash_count : Z;
  ht_timeout : Z;
  ht_total_amount : Z;
}.
Definition ht_set_balance (b : Z) (c : HashedTimeLockedContract) : HashedTimeLockedContract :=
  mk_htlc b (ht_sender c) (ht_recipient c) (ht_hash_root c) (ht_hash_count c) (ht_timeout c)
    (ht_total_amount c).

(** The balance a regular transfer must leave: the fraction of the total amount
    that [hash_depth] of [hash_count] hashes do not unlock, in [f64]. *)
Definition htlc_min_cap (hash_depth hash_count total_amount : Z) : option Z :=
  let cap_ratio := f64_sub f64_one (f64_div (f64_of_Z hash_depth) (f64_of_Z hash_count)) in
  try_from (f64_to_u64 (f64_max_zero (f64_floor (f64_mul cap_ratio (f64_of_Z total_amount))))).

Section Handlers.
Context `{Env : StakingEnv} {HEnv : HtlcEnv}.

Definition can_change_balance {X} (self : HashedTimeLockedContract) (tx : Transaction)
    (new_balance : Z) (bs : BlockState) : AM X unit :=
  proof ← ok_or (parse_htlc_proof (tx_proof tx)) AccountError.InvalidSerialization;
  match proof with
  | RegularTransfer hash_depth hash_root pre_image signature_proof =>
      fail_if (ht_timeout self <? bs_time bs) AccountError.InvalidForSender;;
      fail_if (negb (bool_decide (hash_root = ht_hash_root self))) AccountError.InvalidForSender;;
      fail_if (negb (is_signed_by signature_proof (ht_recipient self)))
        AccountError.InvalidSignature;;
      min_cap ← ok_or (htlc_min_cap hash_depth (ht_hash_count self) (ht_total_amount self))
                  AccountError.CoinConvert;
      fail_if (new_balance <? min_cap)
        (AccountError.InsufficientFunds (coin_saturating_sub (ht_balance self) new_balance)
           (coin_saturating_sub (ht_balance self) min_cap));;
      push_log (Log.HTLCRegularTransfer (tx_sender tx) pre_image hash_depth)
  | EarlyResolve signature_proof_recipient signature_proof_sender =>
      fail_if (negb (is_signed_by signature_proof_recipient (ht_recipient self))
               || negb (is_signed_by signature_proof_sender (ht_sender self)))
        AccountError.InvalidSignature;;
      push_log (Log.HTLCEarlyResolve (tx_sender tx))
  | TimeoutResolve signature_proof_sender =>
      fail_if (bs_time bs <=? ht_timeout self) AccountError.InvalidForSender;;
      fail_if (negb (is_signed_by signature_proof_sender (ht_sender self)))
        AccountError.InvalidSignature;;
      push_log (Log.HTLCTimeoutResolve (tx_sender tx))
  end.

Definition create_new_contract {X} (tx : Transaction) (initial_balance : Z)
  : AM X HashedTimeLockedContract :=
  data ← match parse tx with
         | inl data => mret data
         | inr e => fail (AccountError.InvalidTransaction e)
         end;
  push_log (Log.HTLCCreate (tx_recipient tx) (hd_sender data) (hd_recipient data)
              (hd_hash_root data) (hd_hash_count data) (hd_timeout data) (tx_value tx));;
  balance ← add initial_balance (tx_value tx);
  mret (mk_htlc balance (hd_sender data) (hd_recipient data) (hd_hash_root data)
          (hd_hash_count data) (hd_timeout data) (tx_value tx)).

Definition revert_new_contract (tx : Transaction) : AM HashedTimeLockedContract unit :=
  c ← get_state id;
  b ← sub (ht_balance c) (tx_value tx);
  modify_state (ht_set_balance b);;
  push_log (Log.HTLCCreate (tx_recipient tx) (ht_sender c) (ht_recipient c) (ht_hash_root c)
              (ht_hash_count c) (ht_timeout c) (tx_value tx)).

Definition commit_incoming_transaction : AM HashedTimeLockedContract (option AccountReceipt) :=
  fail AccountError.InvalidForRecipient.
Definition revert_incoming_transaction : AM HashedTimeLockedContract unit :=
  fail AccountError.InvalidForRecipient.

Definition commit_outgoing_transaction (tx : Transaction) (bs : BlockState)
  : AM HashedTimeLockedContract (option AccountReceipt) :=
  push_log (Log.pay_fee_log tx);;
  push_log (Log.transfer_log tx);;
  c ← get_state id;
  new_balance ← safe_sub_or (ht_balance c) (total_value tx);
  can_change_balance c tx new_balance bs;;
  modify_state (ht_set_balance new_balance);;
  mret None.

Definition revert_outgoing_transaction (tx : Transaction) : AM HashedTimeLockedContract unit :=
  c ← get_state id;
  b ← add (ht_balance c) (total_value tx);
  modify_state (ht_set_balance b);;
  proof ← ok_or (parse_htlc_proof (tx_proof tx)) AccountError.InvalidSerialization;
  push_log match proof with
           | RegularTransfer hash_depth _ pre_image _ =>
               Log.HTLCRegularTransfer (tx_sender tx) pre_image hash_depth
           | EarlyResolve _ _ => Log.HTLCEarlyResolve (tx_sender tx)
           | TimeoutResolve _ => Log.HTLCTimeoutResolve (tx_sender tx)
           end;;
  push_log (Log.transfer_log tx);;
  push_log (Log.pay_fee_log tx).

Definition commit_failed_transaction (tx : Transaction) (bs : BlockState)
  : AM HashedTimeLockedContract (option AccountReceipt) :=
  c ← get_state id;
  new_balance ← safe_sub_or (ht_balance c) (tx_fee tx);
  with_empty_logger (can_change_balance c tx new_balance bs);;
  modify_state (ht_set_balance new_balance);;
  push_log (Log.pay_fee_log tx);;
  mret None.

Definition revert_failed_transaction (tx : Transaction) : AM HashedTimeLockedContract unit :=
  c ← get_state id;
  b ← add (ht_balance c) (tx_fee tx);
  modify_state (ht_set_balance b);;
  push_log (Log.pay_fee_log tx).

(** The check runs with a logger of its own that is dropped. *)
Definition reserve_balance (self : HashedTimeLockedContract) (tx : Transaction)
    (bs : BlockState) : RM unit :=
  reserved ← gets balance;
  needed ← ok_or (coin_checked_add reserved (total_value tx)) AccountError.InvalidCoinValue;
  new_balance ← match safe_sub (ht_balance self) needed with
                | inl b => mret b
                | inr e => fail (from_coin_underflow e)
                end;
  lift (can_change_balance self tx new_balance bs (tt, [])).1;;
  reserve (ht_balance self) (total_value tx).

Definition release_balance (tx : Transaction) : RM unit := release (total_value tx).
End Handlers.

Definition commit_inherent : AM HashedTimeLockedContract (option AccountReceipt) :=
  fail AccountError.InvalidForTarget.
Definition revert_inherent : AM HashedTimeLockedContract unit :=
  fail AccountError.InvalidForTarget.

Definition can_be_pruned (self : HashedTimeLockedContract) : bool := is_zero (ht_balance self).

(** ** Pruning *)

Record PrunedHashedTimeLockContract := mk_pruned_htlc {
  ph_sender : Z;
  ph_recipient : Z;
  ph_hash_root : AnyHash;
  ph_hash_count : Z;
  ph_timeout : Z;
  ph_total_amount : Z;
}.

Definition pruned_from (c : HashedTimeLockedContract) : PrunedHashedTimeLockContract :=
  mk_pruned_htlc (ht_sender c) (ht_recipient c) (ht_hash_root c) (ht_hash_count c)
    (ht_timeout c) (ht_total_amount c).
Definition htlc_from (r : PrunedHashedTimeLockContract) : HashedTimeLockedContract :=
  mk_htlc 0 (ph_sender r) (ph_recipient r) (ph_hash_root r) (ph_hash_count r) (ph_timeout r)
    (ph_total_amount r).

Section Pruning.
Context `{ConvertReceipt PrunedHashedTimeLockContract}.

Definition prune (self : HashedTimeLockedContract) : option AccountReceipt :=
  Some (into_receipt (pruned_from self)).
Definition restore {X} (pruned_account : option AccountReceipt) : AM X HashedTimeLockedContract :=
  pruned_account ← take_receipt pruned_account;
  mret (htlc_from pruned_account).
End Pruning.

(** ** Creation data round trip *)

Lemma parse_creation_data d :
  cvalid creation_codec d -> parse_data (cenc creation_codec d) = inl d.
Proof. intros Hv. unfold parse_data. by rewrite deserialize_all_enc. Qed.

(** ** Redemption *)

Section Proofs.
Context `{Env : StakingEnv} {HEnv : HtlcEnv}.

Definition htlc_log (tx : Transaction) (proof : OutgoingHTLCTransactionProof SignatureProof)
  : Log.t :=
  match proof with
  | RegularTransfer hash_depth _ pre_image _ =>
      Log.HTLCRegularTransfer (tx_sender tx) pre_image hash_depth
  | EarlyResolve _ _ => Log.HTLCEarlyResolve (tx_sender tx)
  | TimeoutResolve _ => Log.HTLCTimeoutResolve (tx_sender tx)
  end.

(** The three ways to move coins out of a contract, at [time] and down to
    [new_balance]: the recipient before the timeout with the right hash root and
    down to the cap, both parties at any time, the sender after the timeout. *)
Definition redeemable (c : HashedTimeLockedContract) (new_balance time : Z)
    (proof : OutgoingHTLCTransactionProof SignatureProof) : Prop :=
  match proof with
  | RegularTransfer hash_depth hash_root _ signature =>
      time <= ht_timeout c /\ hash_root = ht_hash_root c /\
      compute_signer signature = ht_recipient c /\
      exists cap, htlc_min_cap hash_depth (ht_hash_count c) (ht_total_amount c) = Some cap /\
        cap <= new_balance
  | EarlyResolve recipient sender =>
      compute_signer recipient = ht_recipient c /\ compute_signer sender = ht_sender c
  | TimeoutResolve sender => ht_timeout c < time /\ compute_signer sender = ht_sender c
  end.

Lemma wp_can_change_htlc {X} c tx new_balance bs Q QE (x : X) lg :
  (forall proof, parse_htlc_proof (tx_proof tx) = Some proof ->
     redeemable c new_balance (bs_time bs) proof -> Q tt (x, lg ++ [htlc_log tx proof])) ->
  (forall e, QE e (x, lg)) -> wp (can_change_balance c tx new_balance bs) Q QE (x, lg).
Proof.
  intros HQ HE. unfold can_change_balance. apply wp_bind, wp_ok_or; [|by intros; apply HE].
  intros [d root pre sg|rc sd|sd] Hp; unfold is_signed_by; cbn -[htlc_min_cap];
    repeat (apply wp_bind, wp_fail_if; [by intros; apply HE|]; intros ?).
  - apply wp_bind, wp_ok_or; [|by intros; apply HE]. intros cap Hcap.
    apply wp_bind, wp_fail_if; [by intros; apply HE|]. intros ?. apply wp_push_log.
    apply (HQ _ Hp). simpl. bool_to_prop.
    split_and!; [done|by eapply bool_decide_eq_true_1|done|]. eauto.
  - apply wp_push_log, (HQ _ Hp). simpl. by bool_to_prop.
  - apply wp_push_log, (HQ _ Hp). simpl. by bool_to_prop.
Qed.

Definition htlc_paid (c : HashedTimeLockedContract) (delta : Z) (r : option AccountReceipt)
    (c' : HashedTimeLockedContract) : Prop :=
  c' = ht_set_balance (ht_balance c + delta) c /\ 0 <= ht_balance c'.

Lemma htlc_outgoing_reversible tx bs c :
  coin_ok (ht_balance c) -> 0 <= total_value tx ->
  reversible (commit_outgoing_transaction tx bs) (fun _ => revert_outgoing_transaction tx)
    (htlc_paid c (- total_value tx)) c.
Proof.
  intros Hok Hv. unfold coin_ok in Hok. apply reversible_wp. intros lg.
  unfold commit_outgoing_transaction. apply wp_bind, wp_push_log, wp_bind, wp_push_log.
  apply wp_bind, wp_get_state, wp_bind, wp_safe_sub_or; [unfold id; lia..| |done].
  intros Hle. unfold id in *. apply wp_bind, wp_can_change_htlc; [|done]. intros proof Hp _.
  apply wp_bind, wp_modify_state, wp_ret. split; [split; [done|simpl; lia]|].
  eexists. rewrite <-!app_assoc. split; [done|]. intros lg2. unfold revert_outgoing_transaction.
  apply wp_bind, wp_get_state, wp_bind, wp_add; [simpl; lia..|].
  apply wp_bind, wp_modify_state, wp_bind. rewrite Hp. apply wp_ret.
  apply wp_bind, wp_push_log, wp_bind, wp_push_log, wp_push_log.
  split; [done|]. rewrite <-!app_assoc. f_equal. unfold ht_set_balance. destruct c. simpl. f_equal. lia.
Qed.

Lemma htlc_failed_reversible tx bs c :
  coin_ok (ht_balance c) -> 0 <= tx_fee tx ->
  reversible (commit_failed_transaction tx bs) (fun _ => revert_failed_transaction tx)
    (htlc_paid c (- tx_fee tx)) c.
Proof.
  intros Hok Hv. unfold coin_ok in Hok. apply reversible_wp. intros lg.
  unfold commit_failed_transaction.
  apply wp_bind, wp_get_state, wp_bind, wp_safe_sub_or; [unfold id; lia..| |done].
  intros Hle. unfold id in *. apply wp_bind, wp_with_empty_logger, wp_can_change_htlc; [|done].
  intros proof Hp _. apply wp_bind, wp_modify_state, wp_bind, wp_push_log, wp_ret.
  split; [split; [done|simpl; lia]|]. eexists. split; [done|]. intros lg2.
  unfold revert_failed_transaction.
  apply wp_bind, wp_get_state, wp_bind, wp_add; [simpl; lia..|].
  apply wp_bind, wp_modify_state, wp_push_log.
  split; [done|]. f_equal. unfold ht_set_balance. destruct c. simpl. f_equal. lia.
Qed.

Lemma restore_prune_htlc `{ConvertReceipt PrunedHashedTimeLockContract} {X} c (s : X * list Log.t) :
  ht_balance c = 0 -> restore (prune c) s = (Ok c, s).
Proof.
  intros Hb. unfold restore, prune, take_receipt, mbind, M_bind. simpl. rewrite try_from_into. simpl.
  unfold htlc_from, pruned_from. destruct c. simpl in *. by subst.
Qed.
End Proofs.
