(* ===== verification/Account.v ===== *)
(** * Accounts of all types

    [primitives/account/src/account/mod.rs]: the enum [Account] and the dispatch
    of the interaction traits to the four account types, which the source
    generates with [gen_account_match!] and [gen_account_type_match!].  A handler
    runs on the account and the data store below its address; only the staking
    contract uses the store.  The balance reservations of the staking contract
    ([staking_contract/traits.rs]) are here as well. *)

From S2P Require Import Prelude Coin Policy AccountTypes StakingTypes ValidatorOps StakerOps.
From S2P Require Import StakingContract ReservedBalance.
From S2P Require Import BasicAccount VestingContract HtlcContract.

Inductive Account :=
  | Basic (account : BasicAccount)
  | Vesting (account : VestingContract)
  | HTLC (account : HashedTimeLockedContract)
  | Staking (account : StakingTypes.StakingContract).

Definition account_type (self : Account) : AccountType.t :=
  match self with
  | Basic _ => AccountType.Basic
  | Vesting _ => AccountType.Vesting
  | HTLC _ => AccountType.HTLC
  | Staking _ => AccountType.Staking
  end.

Definition account_balance (self : Account) : Z :=
  match self with
  | Basic account => ba_balance account
  | Vesting account => vc_balance account
  | HTLC account => ht_balance account
  | Staking account => sc_balance account
  end.

Definition default_with_balance (balance : Z) : Account := Basic (mk_basic_account balance).
(** [Account::default]. *)
Definition default_account : Account := default_with_balance 0.

Definition empty_store : Store := mk_store ∅ ∅ ∅.

(** A handler of one account type as a handler of accounts. *)
Definition zoom {B R} (wrap : B -> Account) (b : B) (m : AM B R) : AM (Account * Store) R :=
  fun s => let '(o, (b', lg)) := m (b, s.2) in (o, ((wrap b', s.1.2), lg)).
Definition zoom_staking {R} (sc : StakingTypes.StakingContract) (m : AM St R)
  : AM (Account * Store) R :=
  fun s => let '(o, ((sc', st'), lg)) := m ((sc, s.1.2), s.2) in (o, ((Staking sc', st'), lg)).

(** The serializers of pruned contracts and staking receipts. *)
Class AccountReceipts := {
  #[global] account_staking_receipts :: StakingReceipts;
  #[global] conv_pruned_vesting :: ConvertReceipt PrunedVestingContract;
  #[global] conv_pruned_htlc :: ConvertReceipt PrunedHashedTimeLockContract;
}.

Section Account.
Context `{P : Policy} `{Env : StakingEnv} {HEnv : HtlcEnv} {Rc : AccountReceipts}.

(** [create_new_contract] and the account it returns; no type uses the store. *)
Definition create_new_contract {X} (tx : Transaction) (initial_balance : Z) : AM X Account :=
  assert_that (flags_contain (tx_flags tx) CONTRACT_CREATION);;
  match tx_recipient_type tx with
  | AccountType.Basic => fail AccountError.InvalidForRecipient
  | AccountType.Vesting =>
      c ← VestingContract.create_new_contract tx initial_balance; mret (Vesting c)
  | AccountType.HTLC => c ← HtlcContract.create_new_contract tx initial_balance; mret (HTLC c)
  | AccountType.Staking => fail AccountError.InvalidForRecipient
  end.

Definition revert_new_contract (tx : Transaction) : AM (Account * Store) unit := fun s =>
  match s.1.1 with
  | Basic _ => fail AccountError.InvalidForRecipient s
  | Vesting account => zoom Vesting account (VestingContract.revert_new_contract tx) s
  | HTLC account => zoom HTLC account (HtlcContract.revert_new_contract tx) s
  | Staking _ => fail AccountError.InvalidForRecipient s
  end.

Definition commit_incoming_transaction (tx : Transaction) (bs : BlockState)
  : AM (Account * Store) (option AccountReceipt) := fun s =>
  match s.1.1 with
  | Basic account => zoom Basic account (BasicAccount.commit_incoming_transaction tx) s
  | Vesting account => zoom Vesting account VestingContract.commit_incoming_transaction s
  | HTLC account => zoom HTLC account HtlcContract.commit_incoming_transaction s
  | Staking account =>
      zoom_staking account (StakingContract.commit_incoming_transaction tx bs) s
  end.

Definition revert_incoming_transaction (tx : Transaction) (receipt : option AccountReceipt)
  : AM (Account * Store) unit := fun s =>
  match s.1.1 with
  | Basic account => zoom Basic account (BasicAccount.revert_incoming_transaction tx) s
  | Vesting account => zoom Vesting account VestingContract.revert_incoming_transaction s
  | HTLC account => zoom HTLC account HtlcContract.revert_incoming_transaction s
  | Staking account =>
      zoom_staking account (StakingContract.revert_incoming_transaction tx receipt) s
  end.

Definition commit_outgoing_transaction (tx : Transaction) (bs : BlockState)
  : AM (Account * Store) (option AccountReceipt) := fun s =>
  match s.1.1 with
  | Basic account => zoom Basic account (BasicAccount.commit_outgoing_transaction tx) s
  | Vesting account => zoom Vesting account (VestingContract.commit_outgoing_transaction tx bs) s
  | HTLC account => zoom HTLC account (HtlcContract.commit_outgoing_transaction tx bs) s
  | Staking account =>
      zoom_staking account (StakingContract.commit_outgoing_transaction tx bs) s
  end.

Definition revert_outgoing_transaction (tx : Transaction) (receipt : option AccountReceipt)
  : AM (Account * Store) unit := fun s =>
  match s.1.1 with
  | Basic account => zoom Basic account (BasicAccount.revert_outgoing_transaction tx) s
  | Vesting account => zoom Vesting account (VestingContract.revert_outgoing_transaction tx) s
  | HTLC account => zoom HTLC account (HtlcContract.revert_outgoing_transaction tx) s
  | Staking account =>
      zoom_staking account (StakingContract.revert_outgoing_transaction tx receipt) s
  end.

Definition commit_failed_transaction (tx : Transaction) (bs : BlockState)
  : AM (Account * Store) (option AccountReceipt) := fun s =>
  match s.1.1 with
  | Basic account => zoom Basic account (BasicAccount.commit_failed_transaction tx) s
  | Vesting account => zoom Vesting account (VestingContract.commit_failed_transaction tx bs) s
  | HTLC account => zoom HTLC account (HtlcContract.commit_failed_transaction tx bs) s
  | Staking account => zoom_staking account (StakingContract.commit_failed_transaction tx bs) s
  end.

Definition revert_failed_transaction (tx : Transaction) (receipt : option AccountReceipt)
  : AM (Account * Store) unit := fun s =>
  match s.1.1 with
  | Basic account => zoom Basic account (BasicAccount.revert_failed_transaction tx) s
  | Vesting account => zoom Vesting account (VestingContract.revert_failed_transaction tx) s
  | HTLC account => zoom HTLC account (HtlcContract.revert_failed_transaction tx) s
  | Staking account =>
      zoom_staking account (StakingContract.revert_failed_transaction tx receipt) s
  end.

Definition commit_inherent (inherent : Inherent.t) (bs : BlockState)
  : AM (Account * Store) (option AccountReceipt) := fun s =>
  match s.1.1 with
  | Basic account => zoom Basic account (BasicAccount.commit_inherent inherent) s
  | Vesting account => zoom Vesting account VestingContract.commit_inherent s
  | HTLC account => zoom HTLC account HtlcContract.commit_inherent s
  | Staking account => zoom_staking account (StakingContract.commit_inherent inherent bs) s
  end.

Definition revert_inherent (inherent : Inherent.t) (receipt : option AccountReceipt)
  : AM (Account * Store) unit := fun s =>
  match s.1.1 with
  | Basic account => zoom Basic account (BasicAccount.revert_inherent inherent) s
  | Vesting account => zoom Vesting account VestingContract.revert_inherent s
  | HTLC account => zoom HTLC account HtlcContract.revert_inherent s
  | Staking account => zoom_staking account (StakingContract.revert_inherent inherent receipt) s
  end.

(** ** Pruning; a staking contract is never pruned ([unreachable!]) *)

Definition can_be_pruned (self : Account) : bool :=
  match self with
  | Basic account => BasicAccount.can_be_pruned account
  | Vesting account => VestingContract.can_be_pruned account
  | HTLC account => HtlcContract.can_be_pruned account
  | Staking _ => false
  end.

Definition prune {S} (self : Account) : M S AccountError.t (option AccountReceipt) :=
  match self with
  | Basic _ => mret None
  | Vesting account => mret (VestingContract.prune account)
  | HTLC account => mret (HtlcContract.prune account)
  | Staking _ => panic
  end.

Definition restore {X} (ty : AccountType.t) (pruned_account : option AccountReceipt)
  : AM X Account :=
  match ty with
  | AccountType.Basic => mret default_account
  | AccountType.Vesting => c ← VestingContract.restore pruned_account; mret (Vesting c)
  | AccountType.HTLC => c ← HtlcContract.restore pruned_account; mret (HTLC c)
  | AccountType.Staking => panic
  end.

(** ** Reservations *)

(** [StakingContract::reserve_balance]. *)
Definition staking_reserve_balance (store : Store) (tx : Transaction) (bs : BlockState)
  : RM unit :=
  data ← ok_or (parse_outgoing tx) StakingContract.invalid_data;
  proof ← ok_or (parse_signature_proof (tx_proof tx)) AccountError.InvalidSerialization;
  match data with
  | Outgoing.DeleteValidator =>
      let validator_address := compute_signer proof in
      validator ← ok_or (validators store !! validator_address)
                    (AccountError.NonExistentAddress validator_address);
      lift (can_delete_validator validator (total_value tx) (bs_number bs)
              ((mk_staking_contract 0 ∅ PunishedSlots.no_punished_slots, store), [])).1;;
      reserve_for validator_address (v_deposit validator) (total_value tx)
  | Outgoing.RemoveStake =>
      let staker_address := compute_signer proof in
      staker ← ok_or (stakers store !! staker_address)
                 (AccountError.NonExistentAddress staker_address);
      let state := ((mk_staking_contract 0 ∅ PunishedSlots.no_punished_slots, store), []) in
      lift (can_remove_stake staker (total_value tx) state).1;;
      retired ← sub (s_retired_balance staker) (tx_fee tx);
      lift (enforce_min_stake (s_active_balance staker) (s_inactive_balance staker) retired
              state).1;;
      reserve_for staker_address (s_retired_balance staker) (total_value tx)
  end.

(** [StakingContract::release_balance]. *)
Definition staking_release_balance (tx : Transaction) : RM unit :=
  data ← ok_or (parse_outgoing tx) StakingContract.invalid_data;
  proof ← ok_or (parse_signature_proof (tx_proof tx)) AccountError.InvalidSerialization;
  match data with
  | Outgoing.DeleteValidator => release_for (compute_signer proof) (total_value tx)
  | Outgoing.RemoveStake => release_for (compute_signer proof) (total_value tx)
  end.

Definition reserve_balance (self : Account) (store : Store) (tx : Transaction)
    (bs : BlockState) : RM unit :=
  match self with
  | Basic account => BasicAccount.reserve_balance account tx
  | Vesting account => VestingContract.reserve_balance account tx bs
  | HTLC account => HtlcContract.reserve_balance account tx bs
  | Staking _ => staking_reserve_balance store tx bs
  end.

Definition release_balance (self : Account) (tx : Transaction) : RM unit :=
  match self with
  | Basic _ => BasicAccount.release_balance tx
  | Vesting _ => VestingContract.release_balance tx
  | HTLC _ => HtlcContract.release_balance tx
  | Staking _ => staking_release_balance tx
  end.
End Account.
