(* ===== verification/Reservations.v ===== *)
(** * Reservations agree with the handlers

    The mempool reserves the balances of pending transactions without running
    them ([reserve_balance] of [primitives/account/src/account]).  For basic accounts,
    vesting contracts and HTLCs a reservation is granted exactly when the transaction
    can be committed on the account that is left after the transactions reserved
    before it.  The staking contract grants at most one withdrawal per validator or
    staker, and only if the fee alone could be charged as well. *)

From S2P Require Import Prelude Coin Policy AccountTypes StakingTypes ValidatorOps StakerOps.
From S2P Require Import StakingContract StakingInv StakerProofs StakingProofs ReservedBalance.
From S2P Require Import BasicAccount VestingContract HtlcContract Account.

(** The account after its balance was spent down to [b]. *)
Definition set_balance (b : Z) (acc : Account) : Account :=
  match acc with
  | Basic _ => Basic (mk_basic_account b)
  | Vesting c => Vesting (vc_set_balance b c)
  | HTLC c => HTLC (ht_set_balance b c)
  | Staking sc => Staking sc
  end.

Section Reservations.
Context `{P : Policy} `{Env : StakingEnv} {HEnv : HtlcEnv} {Rc : AccountReceipts}.

(** The checks on a contract do not depend on its current balance. *)
Definition vesting_allows (c : VestingContract) (tx : Transaction) (new_balance time : Z) : bool :=
  (min_cap c time <=? new_balance) &&
  match parse_signature_proof (tx_proof tx) with
  | Some proof => VestingContract.is_signed_by proof (vc_owner c)
  | None => false
  end.

Definition htlc_allows (c : HashedTimeLockedContract) (tx : Transaction) (new_balance time : Z)
  : bool :=
  match parse_htlc_proof (tx_proof tx) with
  | Some (RegularTransfer hash_depth hash_root _ proof) =>
      (time <=? ht_timeout c) && bool_decide (hash_root = ht_hash_root c)
      && VestingContract.is_signed_by proof (ht_recipient c)
      && match htlc_min_cap hash_depth (ht_hash_count c) (ht_total_amount c) with
         | Some cap => cap <=? new_balance
         | None => false
         end
  | Some (EarlyResolve recipient sender) =>
      VestingContract.is_signed_by recipient (ht_recipient c)
      && VestingContract.is_signed_by sender (ht_sender c)
  | Some (TimeoutResolve sender) =>
      (ht_timeout c <? time) && VestingContract.is_signed_by sender (ht_sender c)
  | None => false
  end.

Lemma vesting_check {X} c tx new_balance bs (s : X) :
  if vesting_allows c tx new_balance (bs_time bs)
  then VestingContract.can_change_balance c tx new_balance bs s = (Ok tt, s)
  else exists e, VestingContract.can_change_balance c tx new_balance bs s = (Err e, s).
Proof.
  unfold vesting_allows, VestingContract.can_change_balance, mbind, M_bind, fail_if.
  rewrite Z.leb_antisym. destruct (_ <? _); simpl; [by eexists|].
  destruct (parse_signature_proof _) as [proof|]; simpl; [|by eexists].
  destruct (is_signed_by _ _); simpl; [done|by eexists].
Qed.

Lemma htlc_check {X} c tx new_balance bs (x : X) lg :
  if htlc_allows c tx new_balance (bs_time bs)
  then exists l, HtlcContract.can_change_balance c tx new_balance bs (x, lg) = (Ok tt, (x, lg ++ [l]))
  else exists e, HtlcContract.can_change_balance c tx new_balance bs (x, lg) = (Err e, (x, lg)).
Proof.
  unfold htlc_allows, HtlcContract.can_change_balance, mbind, M_bind, fail_if, push_log, modify.
  destruct (parse_htlc_proof _) as [[depth root pre sg|rc sd|sd]|]; cbn -[htlc_min_cap]; [..|by eexists].
  - rewrite (Z.ltb_antisym (bs_time bs)). destruct (_ <=? _); cbn -[htlc_min_cap]; [|by eexists].
    destruct (bool_decide _); cbn -[htlc_min_cap]; [|by eexists].
    destruct (is_signed_by _ _); cbn -[htlc_min_cap]; [|by eexists].
    destruct (htlc_min_cap _ _ _) as [cap|]; simpl; [|by eexists].
    rewrite Z.ltb_antisym. destruct (_ <=? _); simpl; by eexists.
  - destruct (is_signed_by rc _), (is_signed_by sd _); simpl; by eexists.
  - rewrite (Z.leb_antisym _ (bs_time bs)). destruct (_ <? _); simpl; [|by eexists].
    destruct (is_signed_by _ _); simpl; by eexists.
Qed.

Definition allows (acc : Account) (tx : Transaction) (new_balance time : Z) : bool :=
  match acc with
  | Vesting c => vesting_allows c tx new_balance time
  | HTLC c => htlc_allows c tx new_balance time
  | _ => true
  end.

Lemma safe_sub_spec a b :
  0 <= b -> coin_ok a -> safe_sub a b = if b <=? a then inl (a - b) else inr (a, b).
Proof.
  intros Hb [Ha1 Ha2]. unfold safe_sub, coin_checked_sub, checked_sub, try_from.
  destruct (Z.leb_spec b a); simpl; [|done].
  by destruct (Z.leb_spec (a - b) MAX_SAFE_VALUE); [|lia].
Qed.

(** When a transaction can be committed on its sender. *)
Lemma commit_outgoing_decided acc st tx bs lg :
  account_type acc <> AccountType.Staking -> coin_ok (account_balance acc) -> 0 <= total_value tx ->
  let b := account_balance acc - total_value tx in
  if (total_value tx <=? account_balance acc) && allows acc tx b (bs_time bs)
  then exists new_logs, Account.commit_outgoing_transaction tx bs ((acc, st), lg)
         = (Ok None, ((set_balance b acc, st), lg ++ new_logs))
  else exists e s', Account.commit_outgoing_transaction tx bs ((acc, st), lg) = (Err e, s').
Proof.
  intros Hty Hb H0. destruct acc as [[bal]|c|c|sc]; [| | |done]; cbn [account_balance] in *;
    unfold Account.commit_outgoing_transaction, zoom; cbn [fst snd].
  - unfold BasicAccount.commit_outgoing_transaction, safe_sub_or, mbind, M_bind. simpl.
    rewrite safe_sub_spec by done. destruct (_ <=? _); simpl; [|by eauto].
    eexists. by rewrite <-app_assoc.
  - unfold VestingContract.commit_outgoing_transaction, safe_sub_or, mbind, M_bind. simpl.
    rewrite safe_sub_spec by done. destruct (_ <=? _); simpl; [|by eauto].
    pose proof (vesting_check c tx (vc_balance c - total_value tx) bs (c, lg)) as Hc.
    destruct (vesting_allows _ _ _ _); [|by destruct Hc as [e ->]; eauto].
    rewrite Hc. simpl. eexists. by rewrite <-app_assoc.
  - unfold HtlcContract.commit_outgoing_transaction, safe_sub_or, push_log, modify, mbind, M_bind. simpl.
    rewrite safe_sub_spec by done. destruct (_ <=? _); simpl; [|by eauto].
    match goal with |- context [can_change_balance c tx ?nb bs (?x, ?l)] =>
      pose proof (htlc_check c tx nb bs x l) as Hc end.
    destruct (htlc_allows _ _ _ _); [|by destruct Hc as [e ->]; eauto].
    destruct Hc as [l ->]. simpl. eexists. by rewrite <-!app_assoc.
Qed.

(** When a reservation is granted. *)
Lemma reserve_decided available tx rb :
  reserved_ok rb -> coin_ok available -> coin_ok (total_value tx) ->
  if balance rb + total_value tx <=? available
  then exists rb', reserve available (total_value tx) rb = (Ok tt, rb') /\ reserved_ok rb' /\
         balance rb' = balance rb + total_value tx
  else exists e, reserve available (total_value tx) rb = (Err e, rb).
Proof.
  intros Hok Hav Ht. pose proof (reserve_for_spec (rb_address rb) available _ rb Hok Hav Ht) as Hr.
  unfold reserve, mbind, M_bind. cbn [gets]. unfold balance.
  destruct (_ <=? _); [|done]. destruct Hr as (rb' & Hrun & Hok' & Ha & Hb & _).
  exists rb'. rewrite Ha. by split_and!.
Qed.

Lemma needed_spec rb tx :
  reserved_ok rb -> coin_ok (total_value tx) ->
  coin_checked_add (balance rb) (total_value tx)
  = if balance rb + total_value tx <=? MAX_SAFE_VALUE then Some (balance rb + total_value tx) else None.
Proof. intros Hok Ht. apply coin_checked_add_spec; [apply Hok|done]. Qed.

Lemma reserve_balance_decided acc st tx bs rb :
  account_type acc <> AccountType.Staking -> coin_ok (account_balance acc) -> reserved_ok rb ->
  coin_ok (total_value tx) ->
  let b := account_balance acc - (balance rb + total_value tx) in
  if (balance rb + total_value tx <=? account_balance acc) && allows acc tx b (bs_time bs)
  then exists rb', reserve_balance acc st tx bs rb = (Ok tt, rb') /\ reserved_ok rb' /\
         balance rb' = balance rb + total_value tx
  else exists e, reserve_balance acc st tx bs rb = (Err e, rb).
Proof.
  intros Hty Hb Hok Ht. pose proof (reserve_decided (account_balance acc) tx rb Hok Hb Ht) as Hr.
  pose proof (needed_spec rb tx Hok Ht) as Hn. pose proof (Hok (rb_address rb)) as Hbal.
  fold (balance rb) in Hbal. unfold coin_ok in Hbal, Ht, Hb.
  destruct acc as [[bal]|c|c|sc]; [by cbn [allows]; rewrite andb_true_r| | |done];
    cbn [account_balance reserve_balance allows] in *;
    unfold VestingContract.reserve_balance, HtlcContract.reserve_balance, mbind, M_bind; cbn [gets];
    rewrite Hn; destruct (Z.leb_spec (balance rb + total_value tx) MAX_SAFE_VALUE); cbn [ok_or];
    [|by destruct (Z.leb_spec (balance rb + total_value tx) (vc_balance c)); [lia|]; simpl; eauto
     | |by destruct (Z.leb_spec (balance rb + total_value tx) (ht_balance c)); [lia|]; simpl; eauto];
    cbn [mret M_ret]; rewrite safe_sub_spec by (unfold coin_ok; lia);
    destruct (_ <=? _) eqn:Hle; cbn [andb]; [|by simpl; eauto| |by simpl; eauto]; cbn [mret M_ret].
  - match goal with |- context [VestingContract.can_change_balance c tx ?nb bs ?s] =>
      pose proof (vesting_check c tx nb bs s) as Hc end.
    destruct (vesting_allows _ _ _ _); [by rewrite Hc|by destruct Hc as [e ->]; eauto].
  - match goal with |- context [can_change_balance c tx ?nb bs (?x, ?l)] =>
      pose proof (htlc_check c tx nb bs x l) as Hc end.
    destruct (htlc_allows _ _ _ _); [by destruct Hc as [l ->]|by destruct Hc as [e ->]; eauto].
Qed.

Lemma reservation_matches acc st tx bs rb lg :
  account_type acc <> AccountType.Staking -> coin_ok (account_balance acc) -> reserved_ok rb ->
  coin_ok (total_value tx) -> balance rb <= account_balance acc ->
  let left rb := set_balance (account_balance acc - balance rb) acc in
  match reserve_balance acc st tx bs rb with
  | (Ok _, rb') => reserved_ok rb' /\ balance rb' = balance rb + total_value tx /\
      exists new_logs, Account.commit_outgoing_transaction tx bs ((left rb, st), lg)
        = (Ok None, ((left rb', st), lg ++ new_logs))
  | (Err _, rb') => rb' = rb /\
      exists e s', Account.commit_outgoing_transaction tx bs ((left rb, st), lg) = (Err e, s')
  | (Panic, _) => False
  end.
Proof.
  intros Hty Hb Hok Ht Hle left. pose proof (Hok (rb_address rb)) as Hbal.
  fold (balance rb) in Hbal. unfold coin_ok in Hbal, Ht, Hb.
  pose proof (reserve_balance_decided acc st tx bs rb Hty Hb Hok Ht) as Hr.
  assert (Hl : account_balance (left rb) = account_balance acc - balance rb) by by destruct acc.
  pose proof (commit_outgoing_decided (left rb) st tx bs lg) as Hc. cbv zeta in Hr, Hc.
  rewrite Hl in Hc.
  assert (Hal : forall b t, allows (left rb) tx b t = allows acc tx b t) by by destruct acc.
  assert (Hset : forall b, set_balance b (left rb) = set_balance b acc) by by destruct acc.
  rewrite Hal, Hset in Hc.
  replace (total_value tx <=? account_balance acc - balance rb)
    with (balance rb + total_value tx <=? account_balance acc) in Hc
    by (destruct (Z.leb_spec (balance rb + total_value tx) (account_balance acc)),
          (Z.leb_spec (total_value tx) (account_balance acc - balance rb)); (done || lia)).
  rewrite <-Z.sub_add_distr in Hc.
  destruct (_ && _).
  - destruct Hr as (rb' & -> & Hok' & Hb'). split_and!; [done..|]. unfold left at 2. rewrite Hb'.
    apply Hc; [by destruct acc|unfold coin_ok; lia|lia].
  - destruct Hr as [e ->]. split; [done|]. apply Hc; [by destruct acc|unfold coin_ok; lia|lia].
Qed.

(** ** The staking contract *)

(** What [can_delete_validator] asks for. *)
Definition delete_allows (val : Validator) (value bn : Z) : bool :=
  (value =? v_deposit val) && v_retired val && negb (is_jailed val bn) &&
  match v_inactive_from val with
  | Some from => last_block_of_collateral_lockup from <? bn
  | None => false
  end.
(** The outgoing transactions that the contract accepts. *)
Definition staking_allows (st : Store) (tx : Transaction) (bn : Z) : bool :=
  match parse_outgoing tx, parse_signature_proof (tx_proof tx) with
  | Some Outgoing.DeleteValidator, Some proof =>
      match validators st !! compute_signer proof with
      | Some val => delete_allows val (total_value tx) bn
      | None => false
      end
  | Some Outgoing.RemoveStake, Some proof =>
      match stakers st !! compute_signer proof with
      | Some staker => total_value tx =? s_retired_balance staker
      | None => false
      end
  | _, _ => false
  end.
(** The signer of the transaction, and whether it is a staker whose retired stake would
    fall below the minimum if only the fee were charged. *)
Definition staking_signer (tx : Transaction) : Z :=
  match parse_signature_proof (tx_proof tx) with Some proof => compute_signer proof | None => 0 end.
Definition fee_breaks_minimum (st : Store) (tx : Transaction) : bool :=
  match parse_outgoing tx, stakers st !! staking_signer tx with
  | Some Outgoing.RemoveStake, Some staker =>
      (s_active_balance staker + s_inactive_balance staker =? 0)
      && (0 <? s_retired_balance staker - tx_fee tx)
      && (s_retired_balance staker - tx_fee tx <? MINIMUM_STAKE)
  | _, _ => false
  end.

Lemma delete_check bn k val value (s : St * list Log.t) : validator_ok bn k val ->
  if delete_allows val value bn then can_delete_validator val value bn s = (Ok tt, s)
  else exists e, can_delete_validator val value bn s = (Err e, s).
Proof.
  intros Hok. unfold delete_allows, can_delete_validator, enforce_retire_and_release, mbind, M_bind, fail_if.
  destruct (_ =? _); cbn [negb andb]; [|by eexists].
  destruct (v_retired val) eqn:Hr; cbn [negb andb]; [|by eexists].
  destruct (is_jailed val bn); cbn [negb andb]; [by eexists|].
  pose proof (validator_retired_ok _ _ _ Hok Hr) as Hi. destruct (v_inactive_from val) as [from|]; [|done].
  cbn [expect mret M_ret]. rewrite (Z.leb_antisym _ bn). destruct (_ <? _); cbn [negb]; [done|by eexists].
Qed.

Lemma min_stake_check a i r (s : St * list Log.t) : 0 <= a -> 0 <= i -> a + i <= MAX_SAFE_VALUE ->
  a + i = 0 \/ MINIMUM_STAKE <= a + i ->
  if (a + i =? 0) && (0 <? r) && (r <? MINIMUM_STAKE)
  then exists e, enforce_min_stake a i r s = (Err e, s) else enforce_min_stake a i r s = (Ok tt, s).
Proof.
  intros Ha Hi Hmax Hmin. unfold enforce_min_stake, add, mbind, M_bind.
  rewrite coin_checked_add_spec by (unfold coin_ok; lia).
  destruct (Z.leb_spec (a + i) MAX_SAFE_VALUE); [|lia]. cbn [expect mret M_ret].
  replace ((0 <? a + i) && (a + i <? MINIMUM_STAKE)) with false
    by (symmetry; apply andb_false_iff; rewrite Z.ltb_ge, Z.ltb_ge; lia).
  cbn [fail_if]. destruct (_ && _); [by eexists|done].
Qed.

(** *** Commits *)

(** [m] returns or panics. *)
Definition never_err {S E A} (m : M S E A) : Prop := forall s e s', m s <> (Err e, s').
Lemma ne_bind {S E A B} (m : M S E A) (k : A -> M S E B) :
  never_err m -> (forall a, never_err (k a)) -> never_err (m ≫= k).
Proof.
  intros Hm Hk s e s' Hb. unfold mbind, M_bind in Hb. specialize (Hm s).
  destruct (m s) as [[a|e'|] s1]; [by apply Hk in Hb|by eapply Hm|done].
Qed.
Lemma ne_expect {S E A} (o : option A) : never_err (expect (S := S) (E := E) o).
Proof. by destruct o. Qed.

Lemma ne_unregister v : never_err (unregister_staker_from_validator v).
Proof.
  unfold unregister_staker_from_validator. apply ne_bind; [done|]. intros [val|]; [done|].
  apply ne_bind; [done|]. intros [t|]; [|done]. by destruct (_ =? _).
Qed.

(** What follows the check in [delete_validator]. *)
Lemma delete_not_err k bn value val (x : St) lg :
  validators x.2 !! k = Some val -> can_delete_validator val value bn (x, lg) = (Ok tt, (x, lg)) ->
  forall e s', delete_validator k bn value (x, lg) <> (Err e, s').
Proof.
  intros Hv Hc e s'. unfold delete_validator.
  assert (Hx : expect_validator k (x, lg) = (Ok val, (x, lg)))
    by (unfold expect_validator, mbind, M_bind; cbn; by rewrite Hv).
  rewrite (bind_ok _ _ _ _ _ Hx), (bind_ok _ _ _ _ _ Hc). revert e s'.
  match goal with |- forall e s', ?m _ <> _ => enough (Hn : never_err m) by apply Hn end.
  unfold decrease_balance. repeat (apply ne_bind; [|intros ?]); try apply ne_expect; try done.
  unfold when. destruct (_ <? _); [|done]. apply ne_bind; [apply ne_expect|done].
Qed.

(** What follows the checks in [remove_stake]. *)
Lemma remove_not_err k staker (x : St) lg :
  stakers x.2 !! k = Some staker ->
  enforce_min_stake (s_active_balance staker) (s_inactive_balance staker) 0 (x, lg) = (Ok tt, (x, lg)) ->
  forall e s', remove_stake k (s_retired_balance staker) (x, lg) <> (Err e, s').
Proof.
  intros Hv Hc e s'. unfold remove_stake.
  assert (Hx : expect_staker k (x, lg) = (Ok staker, (x, lg)))
    by (unfold expect_staker, mbind, M_bind; cbn; by rewrite Hv).
  assert (Hle : fail_if (s_retired_balance staker <? s_retired_balance staker)
    (AccountError.InsufficientFunds (s_retired_balance staker) (s_retired_balance staker)) (x, lg) = (Ok tt, (x, lg)))
    by (by rewrite Z.ltb_irrefl).
  assert (Hsub : sub (s_retired_balance staker) (s_retired_balance staker) (x, lg)
    = (Ok (E := AccountError.t) 0, (x, lg))).
  { unfold sub, coin_checked_sub, checked_sub, try_from. rewrite Z.sub_diag.
    by destruct (Z.leb_spec (s_retired_balance staker) (s_retired_balance staker)); [|lia]. }
  rewrite (bind_ok _ _ _ _ _ Hx), (bind_ok _ _ _ _ _ Hle), (bind_ok _ _ _ _ _ Hsub).
  rewrite (bind_ok _ _ _ _ _ Hc). revert e s'.
  match goal with |- forall e s', ?m _ <> _ => enough (Hn : never_err m) by apply Hn end.
  unfold decrease_balance, total_balance. repeat (apply ne_bind; [|intros ?]); try apply ne_expect; try done.
  destruct (is_zero _); [|done]. repeat (apply ne_bind; [|intros ?]); try done.
  unfold if_some. destruct (s_delegation _); [apply ne_unregister|done].
Qed.

Definition is_err {S E A} (r : outcome E A * S) : Prop := exists e s', r = (Err e, s').

Lemma staker_fits bn sc st k staker : WF bn (sc, st) -> stakers st !! k = Some staker ->
  staker_ok k staker /\ s_active_balance staker + s_inactive_balance staker <= MAX_SAFE_VALUE /\
  s_retired_balance staker <= MAX_SAFE_VALUE.
Proof.
  intros Hwf Hk. destruct sc as [bal act pun], st as [vals stk tomb].
  destruct (staker_bounds Hwf k staker Hk) as (Hok & Htot & Hmax). split; [done|].
  destruct (staker_nonneg _ _ Hok) as (? & ? & ?). unfold staker_total in *. lia.
Qed.

(** The parsed transaction, behind the two log entries. *)
Lemma commit_parsed tx bs data proof x lg :
  parse_outgoing tx = Some data -> parse_signature_proof (tx_proof tx) = Some proof ->
  StakingContract.commit_outgoing_transaction tx bs (x, lg) =
  match data with
  | Outgoing.DeleteValidator =>
      receipt ← delete_validator (compute_signer proof) (bs_number bs) (total_value tx);
      mret (Some (into_receipt receipt))
  | Outgoing.RemoveStake =>
      staker ← expect_staker (compute_signer proof);
      can_remove_stake staker (total_value tx);;
      receipt ← remove_stake (compute_signer proof) (total_value tx);
      mret (into_receipt <$> receipt)
  end (x, (lg ++ [Log.pay_fee_log tx]) ++ [Log.transfer_log tx]).
Proof. intros Hd Hp. unfold StakingContract.commit_outgoing_transaction. rewrite Hd, Hp. reflexivity. Qed.

(** A transaction fails exactly when [staking_allows] rejects it. *)
Lemma staking_commit_err sc st tx bs lg : WF (bs_number bs) (sc, st) ->
  is_err (StakingContract.commit_outgoing_transaction tx bs ((sc, st), lg)) <->
  staking_allows st tx (bs_number bs) = false.
Proof.
  intros Hwf. unfold staking_allows, is_err.
  destruct (parse_outgoing tx) as [data|] eqn:Hd.
  2:{ split; [done|]. intros _. unfold StakingContract.commit_outgoing_transaction. rewrite Hd. by eexists _, _. }
  destruct (parse_signature_proof (tx_proof tx)) as [proof|] eqn:Hp.
  2:{ assert (Hr : StakingContract.commit_outgoing_transaction tx bs ((sc, st), lg)
        = (Err AccountError.InvalidSerialization, ((sc, st), lg)))
        by (unfold StakingContract.commit_outgoing_transaction; by rewrite Hd, Hp).
      destruct data; (split; [done|]; intros _; rewrite Hr; by eexists _, _). }
  rewrite (commit_parsed tx bs data proof _ _ Hd Hp). set (lg' := (lg ++ _) ++ _).
  set (k := compute_signer proof). destruct data.
  - destruct (validators st !! k) as [val|] eqn:Hv.
    + pose proof (delete_check _ k val (total_value tx) ((sc, st), lg') (wf_validators _ _ Hwf k val Hv)) as Hc.
      destruct (delete_allows val _ _).
      * split; [|done]. intros (e & s' & Hrun). pose proof (delete_not_err k _ _ val (sc, st) lg' Hv Hc) as Hn.
        unfold mbind, M_bind in Hrun. destruct (delete_validator _ _ _ _) as [[r|e'|] s1]; [done|by destruct (Hn e' s1)|done].
      * split; [done|]. intros _. destruct Hc as [e Hc].
        assert (Hx : expect_validator k ((sc, st), lg') = (Ok val, ((sc, st), lg')))
          by (unfold expect_validator, mbind, M_bind; cbn; by rewrite Hv).
        assert (Hr : delete_validator k (bs_number bs) (total_value tx) ((sc, st), lg') = (Err e, ((sc, st), lg')))
          by (unfold delete_validator; by rewrite (bind_ok _ _ _ _ _ Hx), (bind_err _ _ _ _ _ Hc)).
        rewrite (bind_err _ _ _ _ _ Hr). by eexists _, _.
    + split; [done|]. intros _. unfold delete_validator, expect_validator, mbind, M_bind. cbn. rewrite Hv.
      by eexists _, _.
  - destruct (stakers st !! k) as [staker|] eqn:Hv.
    + destruct (staker_fits _ _ _ _ _ Hwf Hv) as (Hok & Hmax & _). destruct (staker_nonneg _ _ Hok) as (? & ? & ?).
      assert (Hx : expect_staker k ((sc, st), lg') = (Ok staker, ((sc, st), lg')))
        by (unfold expect_staker, mbind, M_bind; cbn; by rewrite Hv).
      rewrite (bind_ok _ _ _ _ _ Hx). unfold can_remove_stake.
      destruct (Z.eqb_spec (total_value tx) (s_retired_balance staker)) as [->|Hne]; cbn [negb].
      * split; [|done]. intros (e & s' & Hrun). 
        pose proof (min_stake_check (s_active_balance staker) (s_inactive_balance staker) 0 ((sc, st), lg')) as Hmin.
        rewrite Z.ltb_irrefl, andb_false_r in Hmin. cbn [andb] in Hmin.
        pose proof (remove_not_err k staker (sc, st) lg' Hv (Hmin ltac:(done) ltac:(done) ltac:(done)
          (staker_min_non_retired _ _ Hok))) as Hn.
        unfold mbind, M_bind in Hrun. cbn [fail_if mret M_ret] in Hrun. destruct (remove_stake _ _ _) as [[r|e'|] s1]; [done|by destruct (Hn e' s1)|done].
      * split; [done|]. intros _. by eexists _, _.
    + split; [done|]. intros _. unfold expect_staker, mbind, M_bind. cbn. rewrite Hv. by eexists _, _.
Qed.

Lemma staking_commit_run sc st tx bs lg :
  WF (bs_number bs) (sc, st) -> 0 <= total_value tx ->
  let run := Account.commit_outgoing_transaction tx bs ((Staking sc, st), lg) in
  if staking_allows st tx (bs_number bs)
  then exists r sc' st' new_logs, run = (Ok r, ((Staking sc', st'), lg ++ new_logs)) /\
         sc_balance sc' = sc_balance sc - total_value tx
  else is_err run.
Proof.
  intros Hwf Hv. pose proof (staking_commit_err sc st tx bs lg Hwf) as He.
  pose proof (commit_outgoing_reversible tx bs (sc, st) Hwf Hv lg) as Hrev.
  unfold Account.commit_outgoing_transaction, zoom_staking, is_err, St in *. cbn [fst snd] in *.
  destruct (StakingContract.commit_outgoing_transaction tx bs ((sc, st), lg)) as [[r|e|] [[sc' st'] lg']]; [| |done].
  - destruct (staking_allows _ _ _) eqn:Ha.
    + destruct Hrev as ([_ Hb] & new_logs & -> & _). eexists r, sc', st', new_logs. split; [done|].
      cbn [fst] in Hb. lia.
    + destruct (proj2 He eq_refl) as (? & ? & ?). done.
  - rewrite (proj1 He) by (by eexists _, _). by eexists _, _.
Qed.

(** *** Reservations *)

Lemma staking_reserve_for available tx rb k :
  reserved_ok rb -> coin_ok (total_value tx) -> available = total_value tx ->
  if balance_for rb k =? 0
  then exists rb', reserve_for k available (total_value tx) rb = (Ok tt, rb') /\ reserved_ok rb' /\
         balance_for rb' k = total_value tx /\ forall a, a <> k -> balance_for rb' a = balance_for rb a
  else exists e, reserve_for k available (total_value tx) rb = (Err e, rb).
Proof.
  intros Hok Ht ->. pose proof (reserve_for_spec k (total_value tx) _ rb Hok Ht Ht) as Hr.
  pose proof (Hok k) as Hk. unfold coin_ok in Hk.
  destruct (Z.leb_spec (balance_for rb k + total_value tx) (total_value tx)), (Z.eqb_spec (balance_for rb k) 0);
    try lia; [|done]. destruct Hr as (rb' & ? & ? & _ & Hb & ?). exists rb'. rewrite Hb. split_and!; [done..|lia|done].
Qed.

Lemma staking_reserve_decided sc st tx bs rb :
  WF (bs_number bs) (sc, st) -> reserved_ok rb -> coin_ok (total_value tx) ->
  0 <= tx_fee tx <= total_value tx ->
  let k := staking_signer tx in
  if staking_allows st tx (bs_number bs) && negb (fee_breaks_minimum st tx) && (balance_for rb k =? 0)
  then exists rb', staking_reserve_balance st tx bs rb = (Ok tt, rb') /\ reserved_ok rb' /\
         balance_for rb' k = total_value tx /\ forall a, a <> k -> balance_for rb' a = balance_for rb a
  else exists e, staking_reserve_balance st tx bs rb = (Err e, rb).
Proof.
  intros Hwf Hok Ht Hf k.
  unfold k, staking_reserve_balance, staking_allows, fee_breaks_minimum, staking_signer, mbind, M_bind.
  destruct (parse_outgoing tx) as [data|]; cbn [ok_or andb mret M_ret]; [|by eexists].
  destruct (parse_signature_proof (tx_proof tx)) as [proof|]; cbn [ok_or mret M_ret]; [|destruct data; by eexists].
  destruct data; cbn [andb negb].
  - destruct (validators st !! compute_signer proof) as [val|] eqn:Hv; cbn [ok_or mret M_ret andb]; [|by eexists].
    match goal with |- context [can_delete_validator val _ _ ?s] =>
      pose proof (delete_check _ _ val (total_value tx) s (wf_validators _ _ Hwf _ val Hv)) as Hc end.
    destruct (delete_allows val _ _) eqn:Ha; cbn [andb]; [|destruct Hc as [e ->]; by eexists].
    rewrite Hc. cbn [fst lift]. apply staking_reserve_for; [done..|]. symmetry. apply Z.eqb_eq.
    unfold delete_allows in Ha. by destruct (_ =? _).
  - destruct (stakers st !! compute_signer proof) as [staker|] eqn:Hv; cbn [ok_or mret M_ret andb]; [|by eexists].
    destruct (staker_fits _ _ _ _ _ Hwf Hv) as (Hsok & Hmax & Hret).
    destruct (staker_nonneg _ _ Hsok) as (? & ? & ?). unfold can_remove_stake.
    destruct (Z.eqb_spec (total_value tx) (s_retired_balance staker)) as [He|]; cbn [negb andb fail_if fst lift];
      [|by eexists]. cbn [mret M_ret fst lift].
    unfold sub. rewrite coin_checked_sub_spec by (unfold coin_ok; lia).
    destruct (Z.leb_spec (tx_fee tx) (s_retired_balance staker)); [|lia]. cbn [expect mret M_ret].
    match goal with |- context [enforce_min_stake ?a ?i ?r ?s] =>
      pose proof (min_stake_check a i r s ltac:(done) ltac:(done) ltac:(done)
        (staker_min_non_retired _ _ Hsok)) as Hc end.
    destruct (_ && _ && _) eqn:Hb; cbn [negb andb]; [destruct Hc as [e ->]; by eexists|].
    rewrite Hc. cbn [fst lift]. by apply staking_reserve_for.
Qed.

(** C37: reservations agree with commits.  For basic accounts, vesting contracts and
    HTLCs, a reservation on top of the amounts already reserved is granted exactly when
    the transaction commits on the account without those amounts; it then reserves
    exactly the coins the commit takes, and otherwise leaves the reservations as they
    are.  For a well-formed staking contract, whose validators and stakers have
    reservations of their own, a granted reservation is the first of its signer and the
    transaction then commits; a refusal means that the transaction fails, that the
    signer has a reservation already, or that charging only the fee, as for a failed
    transaction, would leave less than the minimum stake. *)
Theorem reservation_exact acc st tx bs rb lg :
  coin_ok (account_balance acc) -> reserved_ok rb -> coin_ok (total_value tx) ->
  0 <= tx_fee tx <= total_value tx ->
  let left rb := set_balance (account_balance acc - balance rb) acc in
  let signer := staking_signer tx in
  match acc with
  | Staking sc =>
      WF (bs_number bs) (sc, st) ->
      let run := Account.commit_outgoing_transaction tx bs ((acc, st), lg) in
      match reserve_balance acc st tx bs rb with
      | (Ok _, rb') => reserved_ok rb' /\ balance_for rb signer = 0 /\
          balance_for rb' signer = total_value tx /\
          (forall a, a <> signer -> balance_for rb' a = balance_for rb a) /\
          exists r sc' st' new_logs, run = (Ok r, ((Staking sc', st'), lg ++ new_logs)) /\
            sc_balance sc' = sc_balance sc - total_value tx
      | (Err _, rb') => rb' = rb /\
          (is_err run \/ 0 < balance_for rb signer \/ fee_breaks_minimum st tx = true)
      | (Panic, _) => False
      end
  | _ =>
      balance rb <= account_balance acc ->
      let run := Account.commit_outgoing_transaction tx bs ((left rb, st), lg) in
      match reserve_balance acc st tx bs rb with
      | (Ok _, rb') => reserved_ok rb' /\ balance rb' = balance rb + total_value tx /\
          exists new_logs, run = (Ok None, ((left rb', st), lg ++ new_logs))
      | (Err _, rb') => rb' = rb /\ is_err run
      | (Panic, _) => False
      end
  end.
Proof.
  intros Hb Hok Ht Hf left signer. destruct acc as [a|c|c|sc];
    [by intros; apply (reservation_matches _ st tx bs rb lg)..|].
  intros Hwf run. pose proof (staking_reserve_decided sc st tx bs rb Hwf Hok Ht Hf) as Hr. cbv zeta in Hr.
  pose proof (staking_commit_run sc st tx bs lg Hwf (proj1 Ht)) as Hc. cbv zeta in Hc. fold run in Hc.
  cbn [reserve_balance]. fold signer in Hr. pose proof (Hok signer) as Hk. unfold coin_ok in Hk.
  destruct (staking_allows _ _ _); cbn [andb] in Hr; [|destruct Hr as [e ->]; split; [done|by left]].
  destruct (fee_breaks_minimum _ _); cbn [andb negb] in Hr; [destruct Hr as [e ->]; split; [done|by right; right]|].
  destruct (Z.eqb_spec (balance_for rb signer) 0); [|destruct Hr as [e ->]; split; [done|right; left; lia]].
  destruct Hr as (rb' & -> & ? & ? & ?). split_and!; done.
Qed.
End Reservations.
