(* ===== verification/Accounts.v ===== *)
(** * The accounts tree

    [primitives/account/src/accounts.rs]: committing and reverting transactions
    and inherents on the tree of all accounts.  The tree is complete (a node
    with the whole state), so [mark_changed_if_missing] is false and reads do
    not fail; it is modelled by the map of the accounts and the map of the data
    stores below them.  An account without data has no entries in the tree, so
    the empty store is not kept.  Handlers work on a copy of the account that
    is written back with [put], while their writes to the data store are in the
    tree at once. *)

From S2P Require Import Prelude Coin Policy AccountTypes StakingTypes ReservedBalance Account.

Record AccountsTree := mk_accounts {
  tree : gmap Z Account;
  data : gmap Z Store;
}.

#[global] Instance Validator_eq_dec : EqDecision Validator.
Proof. solve_decision. Defined.
#[global] Instance Tombstone_eq_dec : EqDecision Tombstone.
Proof. solve_decision. Defined.
#[global] Instance Staker_eq_dec : EqDecision Staker.
Proof. solve_decision. Defined.
#[global] Instance Store_eq_dec : EqDecision Store.
Proof. solve_decision. Defined.

(** Operations on the tree with the log of one transaction or inherent. *)
Definition TM (A : Type) : Type := AM AccountsTree A.

Definition data_store (x : AccountsTree) (address : Z) : Store :=
  default empty_store (data x !! address).
Definition set_store (address : Z) (st : Store) (x : AccountsTree) : AccountsTree :=
  mk_accounts (tree x)
    (if decide (st = empty_store) then delete address (data x) else <[address := st]> (data x)).

(** Run a handler on the account [account] at [address] and return the account
    it leaves. *)
Definition with_store {R} (address : Z) (account : Account) (m : AM (Account * Store) R)
  : TM (R * Account) := fun s =>
  let '(o, ((account', st'), lg)) := m ((account, data_store s.1 address), s.2) in
  (match o with Ok r => Ok (r, account') | Err e => Err e | Panic => Panic end,
   (set_store address st' s.1, lg)).

(** [FailedTransaction] log of [TransactionLog::push_failed_log]; [clear]. *)
Definition push_failed_log (tx : Transaction) (reason : FailReason.t) : TM unit :=
  push_log (Log.FailedTransaction (tx_sender tx) (tx_recipient tx) reason).
Definition clear_logs : TM unit := modify (fun s => (s.1, [])).

Section Accounts.
Context `{P : Policy} `{Env : StakingEnv} {HEnv : HtlcContract.HtlcEnv} {Rc : AccountReceipts}.

Definition get_complete (address : Z) : TM Account :=
  get_state (fun x => default default_account (tree x !! address)).

Definition get_with_type (address : Z) (ty : AccountType.t) : TM Account :=
  account ← get_complete address;
  fail_if (negb (bool_decide (account_type account = ty)))
    (AccountError.TypeMismatch ty (account_type account));;
  mret account.

Definition get_or_restore (address : Z) (ty : AccountType.t)
    (pruned_account : option AccountReceipt) : TM Account :=
  account ← get_state (fun x => tree x !! address);
  match account with
  | Some account =>
      fail_if (negb (bool_decide (account_type account = ty)))
        (AccountError.TypeMismatch ty (account_type account));;
      mret account
  | None => restore ty pruned_account
  end.

Definition put (address : Z) (account : Account) : TM unit :=
  assert_that (negb (can_be_pruned account));;
  modify_state (fun x => mk_accounts (<[address := account]> (tree x)) (data x)).

(** [Accounts::prune]. *)
Definition prune_account (address : Z) : TM unit :=
  modify_state (fun x => mk_accounts (delete address (tree x)) (data x)).

Definition put_or_prune (address : Z) (account : Account) : TM (option AccountReceipt) :=
  if can_be_pruned account then
    pruned_account ← prune account;
    prune_account address;;
    mret pruned_account
  else
    put address account;;
    mret None.

(** ** Committing *)

Definition commit_recipient (tx : Transaction) (bs : BlockState)
  : TM (option AccountReceipt * Account) :=
  let recipient_address := tx_recipient tx in
  if flags_contain (tx_flags tx) CONTRACT_CREATION then
    result ← catch (get_with_type recipient_address AccountType.Basic);
    recipient_account ← match result with Ok a => mret a | _ => panic end;
    account ← create_new_contract tx (account_balance recipient_account);
    mret (None, account)
  else
    account ← get_with_type recipient_address (tx_recipient_type tx);
    with_store recipient_address account (commit_incoming_transaction tx bs).

Definition try_commit_transaction (tx : Transaction) (bs : BlockState) : TM TransactionReceipt :=
  let sender_address := tx_sender tx in
  sender_account ← get_with_type sender_address (tx_sender_type tx);
  sender ← with_store sender_address sender_account (commit_outgoing_transaction tx bs);
  let '(sender_receipt, sender_account) := sender in
  recipient_result ← catch (commit_recipient tx bs);
  match recipient_result with
  | Err e =>
      reverted ← catch (with_store sender_address sender_account
                          (revert_outgoing_transaction tx sender_receipt));
      match reverted with
      | Ok _ => fail e
      | _ => panic
      end
  | Panic => panic
  | Ok (recipient_receipt, recipient_account) =>
      pruned_account ← put_or_prune sender_address sender_account;
      put (tx_recipient tx) recipient_account;;
      mret (mk_transaction_receipt sender_receipt recipient_receipt pruned_account)
  end.

Definition commit_failed_transaction (tx : Transaction) (bs : BlockState)
  : TM TransactionReceipt :=
  let sender_address := tx_sender tx in
  sender_account ← get_with_type sender_address (tx_sender_type tx);
  sender ← with_store sender_address sender_account
             (Account.commit_failed_transaction tx bs);
  let '(sender_receipt, sender_account) := sender in
  pruned_account ← put_or_prune sender_address sender_account;
  mret (mk_transaction_receipt sender_receipt None pruned_account).

Definition commit_transaction (tx : Transaction) (bs : BlockState)
  : TM (OperationReceipt TransactionReceipt) :=
  result ← catch (try_commit_transaction tx bs);
  match result with
  | Ok receipt => mret (ReceiptOk receipt)
  | Err e =>
      let fail_reason := FailReason.from_account_error e in
      clear_logs;;
      push_failed_log tx fail_reason;;
      receipt ← commit_failed_transaction tx bs;
      mret (ReceiptErr receipt fail_reason)
  | Panic => panic
  end.

Definition commit_inherent (inherent : Inherent.t) (bs : BlockState)
  : TM (OperationReceipt (option AccountReceipt)) :=
  let address := Inherent.target inherent in
  account ← get_complete address;
  result ← catch (with_store address account (Account.commit_inherent inherent bs));
  match result with
  | Ok (receipt, account) => put address account;; mret (ReceiptOk receipt)
  | Err e => mret (ReceiptErr None (FailReason.from_account_error e))
  | Panic => panic
  end.

(** ** Reverting *)

(** The recipient half of [revert_successful_transaction]. *)
Definition revert_recipient (tx : Transaction) (receipt : TransactionReceipt) : TM unit :=
  let recipient_address := tx_recipient tx in
  recipient_account ← get_with_type recipient_address (tx_recipient_type tx);
  recipient_account ←
    (if flags_contain (tx_flags tx) CONTRACT_CREATION then
       r ← with_store recipient_address recipient_account (revert_new_contract tx);
       mret (default_with_balance (account_balance r.2))
     else
       r ← with_store recipient_address recipient_account
             (revert_incoming_transaction tx (recipient_receipt receipt));
       mret r.2);
  put_or_prune recipient_address recipient_account;;
  mret tt.

Definition revert_successful_transaction (tx : Transaction) (receipt : TransactionReceipt)
  : TM unit :=
  revert_recipient tx receipt;;
  let sender_address := tx_sender tx in
  sender_account ← get_or_restore sender_address (tx_sender_type tx) (pruned_account receipt);
  r ← with_store sender_address sender_account
        (revert_outgoing_transaction tx (sender_receipt receipt));
  put_or_prune sender_address r.2;;
  mret tt.

Definition revert_failed_transaction (tx : Transaction) (receipt : TransactionReceipt)
  : TM unit :=
  let sender_address := tx_sender tx in
  sender_account ← get_or_restore sender_address (tx_sender_type tx) (pruned_account receipt);
  r ← with_store sender_address sender_account
        (Account.revert_failed_transaction tx (sender_receipt receipt));
  put_or_prune sender_address r.2;;
  mret tt.

Definition revert_transaction (tx : Transaction) (receipt : OperationReceipt TransactionReceipt)
  : TM unit :=
  match receipt with
  | ReceiptOk receipt => revert_successful_transaction tx receipt
  | ReceiptErr receipt fail_reason =>
      result ← catch (revert_failed_transaction tx receipt);
      push_failed_log tx fail_reason;;
      lift result
  end.

Definition revert_inherent (inherent : Inherent.t)
    (receipt : OperationReceipt (option AccountReceipt)) : TM unit :=
  match receipt with
  | ReceiptErr _ _ => mret tt
  | ReceiptOk receipt =>
      let address := Inherent.target inherent in
      account ← get_complete address;
      r ← with_store address account (Account.revert_inherent inherent receipt);
      put_or_prune address r.2;;
      mret tt
  end.

(** ** Blocks

    A block logger holds one log per transaction and one for the inherents. *)

Inductive AccountsError :=
  | InvalidTransaction (e : AccountError.t) (tx : Transaction)
  | InvalidInherent (e : AccountError.t) (inherent : Inherent.t).

Record BlockLogger := mk_block_logger {
  inherent_logs : list Log.t;
  tx_logs : list (list Log.t);
}.

Definition BM (A : Type) : Type := M (AccountsTree * BlockLogger) AccountsError A.

(** Run with the log of a new transaction ([BlockLogger::new_tx_log]). *)
Definition with_new_tx_log {A} (tx : Transaction) (m : TM A) : BM A := fun s =>
  let '(o, (x, lg)) := m (s.1, []) in
  (match o with Ok a => Ok a | Err e => Err (InvalidTransaction e tx) | Panic => Panic end,
   (x, mk_block_logger (inherent_logs s.2) (tx_logs s.2 ++ [lg]))).
(** Run with the log of the inherents ([BlockLogger::inherent_logger]). *)
Definition with_inherent_logger {A} (inherent : Inherent.t) (m : TM A) : BM A := fun s =>
  let '(o, (x, lg)) := m (s.1, inherent_logs s.2) in
  (match o with Ok a => Ok a | Err e => Err (InvalidInherent e inherent) | Panic => Panic end,
   (x, mk_block_logger lg (tx_logs s.2))).

Fixpoint commit_transactions (transactions : list Transaction) (bs : BlockState)
  : BM (list (OperationReceipt TransactionReceipt)) :=
  match transactions with
  | [] => mret []
  | transaction :: transactions =>
      receipt ← with_new_tx_log transaction (commit_transaction transaction bs);
      receipts ← commit_transactions transactions bs;
      mret (receipt :: receipts)
  end.

Fixpoint commit_inherents (inherents : list Inherent.t) (bs : BlockState)
  : BM (list (OperationReceipt (option AccountReceipt))) :=
  match inherents with
  | [] => mret []
  | inherent :: inherents =>
      receipt ← with_inherent_logger inherent (commit_inherent inherent bs);
      receipts ← commit_inherents inherents bs;
      mret (receipt :: receipts)
  end.

Definition commit_batch (transactions : list Transaction) (inherents : list Inherent.t)
    (bs : BlockState) : BM Receipts :=
  tx_receipts ← commit_transactions transactions bs;
  inherent_receipts ← commit_inherents inherents bs;
  mret (mk_receipts tx_receipts inherent_receipts).

Definition revert_batch (transactions : list Transaction) (inherents : list Inherent.t)
    (receipts : Receipts) : BM unit :=
  assert_that (length inherents =? length (rc_inherents receipts))%nat;;
  foldr (fun '(inherent, receipt) (k : BM unit) =>
      with_inherent_logger inherent (revert_inherent inherent receipt);; k) (mret tt)
    (reverse (zip inherents (rc_inherents receipts)));;
  assert_that (length transactions =? length (rc_transactions receipts))%nat;;
  foldr (fun '(transaction, receipt) (k : BM unit) =>
      with_new_tx_log transaction (revert_transaction transaction receipt);; k) (mret tt)
    (reverse (zip transactions (rc_transactions receipts))).

(** ** Reservations *)

Definition accounts_reserve_balance (x : AccountsTree) (account : Account) (tx : Transaction)
    (bs : BlockState) : RM unit :=
  fail_if (negb (bool_decide (account_type account = tx_sender_type tx)))
    (AccountError.TypeMismatch (tx_sender_type tx) (account_type account));;
  reserve_balance account (data_store x (tx_sender tx)) tx bs.

Definition accounts_release_balance (account : Account) (tx : Transaction) : RM unit :=
  release_balance account tx.
End Accounts.
