(* ===== verification/AccountsProofs.v ===== *)
(** * Transactions and inherents on the accounts tree: proofs

    The handlers of single accounts are restorable; from this, committing a
    transaction or an inherent keeps the invariant of the tree, moves exactly
    the coins it says, and is undone by its revert. *)

From S2P Require Import Prelude Coin Policy BitSet AccountTypes PunishedSlots StakingTypes.
From S2P Require Import StakingContract StakingInv StakingProofs StakingSpec.
From S2P Require Import BasicAccount VestingContract HtlcContract Account Accounts.

Section AccountProofs.
Context `{P : Policy} {HP : PolicyOk P} `{Env : StakingEnv} {HEnv : HtlcContract.HtlcEnv}.
Context {Rc : AccountReceipts}.

(** ** Handlers of one account *)

Definition account_ok (bn : Z) (acc : Account) (st : Store) : Prop :=
  match acc with
  | Staking sc => WF bn (sc, st)
  | _ => coin_ok (account_balance acc)
  end.

(** A handler left a proper account of the same type, with [delta] more coins. *)
Definition moved (bn : Z) (acc : Account) (delta : Z) (r : option AccountReceipt)
    (x : Account * Store) : Prop :=
  account_ok bn x.1 x.2 /\ account_type x.1 = account_type acc /\
  account_balance x.1 = account_balance acc + delta.

Lemma zoom_restorable {B R} (wrap : B -> Account) b st (m : AM B R) rev post commit revert
    (post' : R -> Account * Store -> Prop) :
  restorable m rev post b ->
  (forall lg, commit ((wrap b, st), lg) = zoom wrap b m ((wrap b, st), lg)) ->
  (forall r b' lg, revert r ((wrap b', st), lg) = zoom wrap b' (rev r) ((wrap b', st), lg)) ->
  (forall r b', post r b' -> post' r (wrap b', st)) ->
  restorable commit revert post' (wrap b, st).
Proof.
  intros Hm Hc Hr Hp lg. specialize (Hm lg). rewrite Hc. unfold zoom. simpl.
  destruct (m (b, lg)) as [[r|e|] [b' lg']]; [|by subst|done].
  destruct Hm as [Hpost (new_logs & Hl & Hrev)]. split; [by apply Hp|]. exists new_logs.
  split; [done|]. intros lg2. destruct (Hrev lg2) as (old_logs & Hperm & Hrun).
  exists old_logs. split; [done|]. rewrite Hr. unfold zoom. simpl. by rewrite Hrun.
Qed.

Lemma zoom_staking_restorable {R} sc st (m : AM St R) rev post commit revert
    (post' : R -> Account * Store -> Prop) :
  restorable m rev post (sc, st) ->
  (forall lg, commit ((Staking sc, st), lg) = zoom_staking sc m ((Staking sc, st), lg)) ->
  (forall r sc' st' lg, revert r ((Staking sc', st'), lg)
                        = zoom_staking sc' (rev r) ((Staking sc', st'), lg)) ->
  (forall r x', post r x' -> post' r (Staking x'.1, x'.2)) ->
  restorable commit revert post' (Staking sc, st).
Proof.
  unfold St in *. intros Hm Hc Hr Hp lg. specialize (Hm lg). rewrite Hc. unfold zoom_staking. simpl.
  destruct (m (sc, st, lg)) as [[r|e|] [[sc' st'] lg']]; [|by simplify_eq|done].
  destruct Hm as [Hpost (new_logs & Hl & Hrev)]. split; [by apply (Hp r (sc', st'))|].
  exists new_logs. split; [done|]. intros lg2. destruct (Hrev lg2) as (old_logs & Hperm & Hrun).
  exists old_logs. split; [done|]. rewrite Hr. unfold zoom_staking. simpl. by rewrite Hrun.
Qed.

Lemma account_balance_nonneg bn acc st : account_ok bn acc st -> 0 <= account_balance acc.
Proof.
  destruct acc as [b|c|c|sc]; simpl; unfold coin_ok; try lia.
  destruct sc, st. intros Hwf. by apply (wf_balance_nonneg Hwf).
Qed.

(** The balance of a restorable staking handler. *)
Lemma commits_moved bn sc st delta (r : option AccountReceipt) x' :
  commits bn (sc, st) delta r x' -> moved bn (Staking sc) delta r (Staking x'.1, x'.2).
Proof. intros [Hw Hb]. split; [by destruct x'|by split]. Qed.

Ltac moved_simpl := unfold moved, account_ok, coin_ok; simpl; split_and!; (done || lia).

Lemma account_outgoing_restorable tx bs acc st :
  account_ok (bs_number bs) acc st -> 0 <= total_value tx ->
  restorable (Account.commit_outgoing_transaction tx bs) (Account.revert_outgoing_transaction tx)
    (moved (bs_number bs) acc (- total_value tx)) (acc, st).
Proof.
  intros Hok Hv. destruct acc as [[b]|c|c|sc]; simpl in Hok; unfold coin_ok in Hok; simpl in Hok.
  - eapply (zoom_restorable Basic); [by apply reversible_restorable, basic_outgoing_reversible|done..|].
    intros r b' [-> ?]. moved_simpl.
  - eapply (zoom_restorable Vesting); [by apply reversible_restorable, vesting_outgoing_reversible|done..|].
    intros r b' [-> ?]. simpl in *. moved_simpl.
  - eapply (zoom_restorable HTLC); [by apply reversible_restorable, htlc_outgoing_reversible|done..|].
    intros r b' [-> ?]. simpl in *. moved_simpl.
  - eapply (zoom_staking_restorable sc st);
      [by apply reversible_restorable, (commit_outgoing_reversible tx bs (sc, st))|done..|].
    intros r x'. apply commits_moved.
Qed.

Lemma account_failed_restorable tx bs acc st :
  account_ok (bs_number bs) acc st -> 0 <= tx_fee tx ->
  restorable (Account.commit_failed_transaction tx bs) (Account.revert_failed_transaction tx)
    (moved (bs_number bs) acc (- tx_fee tx)) (acc, st).
Proof.
  intros Hok Hv. destruct acc as [[b]|c|c|sc]; simpl in Hok; unfold coin_ok in Hok; simpl in Hok.
  - eapply (zoom_restorable Basic); [by apply reversible_restorable, basic_failed_reversible|done..|].
    intros r b' [-> ?]. moved_simpl.
  - eapply (zoom_restorable Vesting); [by apply reversible_restorable, vesting_failed_reversible|done..|].
    intros r b' [-> ?]. simpl in *. moved_simpl.
  - eapply (zoom_restorable HTLC); [by apply reversible_restorable, htlc_failed_reversible|done..|].
    intros r b' [-> ?]. simpl in *. moved_simpl.
  - eapply (zoom_staking_restorable sc st); [by apply (commit_failed_restorable tx bs (sc, st))|done..|].
    intros r x'. apply commits_moved.
Qed.

(** A handler that is not allowed for the account type. *)
Lemma restorable_fail {X R} (commit : AM X R) revert (post : R -> X -> Prop) e x :
  (forall lg, commit (x, lg) = (Err e, (x, lg))) -> restorable commit revert post x.
Proof. intros Hc lg. by rewrite Hc. Qed.

Lemma account_incoming_restorable tx bs acc st :
  account_ok (bs_number bs) acc st -> 0 <= tx_value tx ->
  (account_type acc = AccountType.Staking ->
   forall data, parse_incoming tx = Some data -> incoming_verified tx data) ->
  account_balance acc + tx_value tx <= MAX_SAFE_VALUE ->
  restorable (Account.commit_incoming_transaction tx bs) (Account.revert_incoming_transaction tx)
    (moved (bs_number bs) acc (tx_value tx)) (acc, st).
Proof.
  intros Hok Hv Hver Hmax.
  destruct acc as [[b]|c|c|sc]; simpl in Hok; unfold coin_ok in Hok; simpl in *.
  - eapply (zoom_restorable Basic); [by apply reversible_restorable, (basic_incoming_reversible tx b); lia|done..|].
    intros r b' [-> ?]. moved_simpl.
  - by eapply restorable_fail.
  - by eapply restorable_fail.
  - eapply (zoom_staking_restorable sc st);
      [by apply reversible_restorable, (commit_incoming_reversible tx bs (sc, st)); auto|done..|].
    intros r x'. apply commits_moved.
Qed.

(** The inherents that blocks revert, and the conditions on them. *)
Definition inherent_ok (bn : Z) (inherent : Inherent.t) : Prop :=
  match inherent with
  | Inherent.Reward _ _ value => 0 < value
  | _ => in_width 32 bn /\ slashing_ok bn inherent
  end.

Definition minted (inherent : Inherent.t) : Z :=
  match inherent with Inherent.Reward _ _ value => value | _ => 0 end.

Lemma account_inherent_restorable inherent bs acc st :
  account_ok (bs_number bs) acc st -> inherent_ok (bs_number bs) inherent ->
  account_balance acc + minted inherent <= MAX_SAFE_VALUE ->
  restorable (Account.commit_inherent inherent bs) (Account.revert_inherent inherent)
    (fun r x' => moved (bs_number bs) acc (minted inherent) r x' /\ can_be_pruned x'.1 = false)
    (acc, st).
Proof.
  intros Hok Hi Hmax.
  destruct acc as [[b]|c|c|sc]; simpl in Hok; unfold coin_ok in Hok; simpl in *.
  - destruct inherent as [va t value| | | | |]; simpl in *;
      try (eapply restorable_fail; intros; reflexivity).
    eapply (zoom_restorable Basic);
      [by apply reversible_restorable, (basic_reward_reversible va t value b); lia|done..|].
    intros r b' [-> ?]. split; [moved_simpl|]. apply Z.eqb_neq. simpl. lia.
  - by eapply restorable_fail.
  - by eapply restorable_fail.
  - destruct inherent as [va t value|slot|jv range| | |];
      try (by destruct Hi); try (by eapply restorable_fail);
      destruct Hi as [Hw Hs];
      (eapply (zoom_staking_restorable sc st);
        [by apply reversible_restorable; eapply (slashing_reversible _ bs (sc, st))|done..|];
       intros r x' Hc; split; [by apply (commits_moved _ _ st)|done]).
Qed.

(** ** The tree *)

Definition total (x : AccountsTree) : Z := map_sum account_balance (tree x).
Definition account_at (x : AccountsTree) (a : Z) : Account :=
  default default_account (tree x !! a).

(** No empty data stores are kept. *)
Definition data_canonical (x : AccountsTree) : Prop := forall a, data x !! a <> Some empty_store.

Record tree_ok (bn : Z) (x : AccountsTree) : Prop := {
  tree_accounts : forall a acc, tree x !! a = Some acc ->
    account_ok bn acc (data_store x a) /\ can_be_pruned acc = false;
  tree_data : data_canonical x;
  tree_total : total x <= MAX_SAFE_VALUE;
}.

(** Write an account or prune it. *)
Definition place (a : Z) (acc : Account) (t : gmap Z Account) : gmap Z Account :=
  if can_be_pruned acc then delete a t else <[a := acc]> t.
(** Set the account and the data at one address. *)
Definition settle (a : Z) (acc : Account) (st : Store) (x : AccountsTree) : AccountsTree :=
  mk_accounts (place a acc (tree x)) (data (set_store a st x)).

Lemma data_store_set_store a st x : data_store (set_store a st x) a = st.
Proof.
  unfold data_store, set_store. simpl. case_decide; [by rewrite lookup_delete_eq|].
  by rewrite lookup_insert_eq.
Qed.
Lemma data_store_set_store_ne a b st x :
  b <> a -> data_store (set_store a st x) b = data_store x b.
Proof.
  intros Hne. unfold data_store, set_store. simpl.
  case_decide; [by rewrite lookup_delete_ne|by rewrite lookup_insert_ne].
Qed.
Lemma set_store_id a x : data_canonical x -> set_store a (data_store x a) x = x.
Proof.
  intros Hc. destruct x as [t d]. unfold set_store, data_store. simpl. f_equal.
  specialize (Hc a). simpl in Hc. destruct (d !! a) as [st|] eqn:Hd; simpl.
  - case_decide; [congruence|]. by apply insert_id.
  - rewrite decide_True by done. by apply delete_id.
Qed.
Lemma set_store_twice a st st' x : set_store a st (set_store a st' x) = set_store a st x.
Proof.
  unfold set_store. simpl. f_equal. do 2 case_decide;
    by rewrite ?delete_delete_eq, ?delete_insert_eq, ?insert_delete_eq, ?insert_insert_eq.
Qed.
Lemma set_store_comm a b st st' x :
  a <> b -> set_store a st (set_store b st' x) = set_store b st' (set_store a st x).
Proof.
  intros Hne. unfold set_store. simpl. f_equal. do 2 case_decide.
  - apply delete_delete.
  - by rewrite delete_insert_ne.
  - by rewrite delete_insert_ne.
  - by apply insert_insert_ne.
Qed.
Lemma set_store_canonical a st x : data_canonical x -> data_canonical (set_store a st x).
Proof.
  intros Hc b. unfold set_store. simpl. case_decide.
  - destruct (decide (b = a)) as [->|Hne]; [by rewrite lookup_delete_eq|].
    rewrite lookup_delete_ne by done. apply Hc.
  - destruct (decide (b = a)) as [->|Hne]; [rewrite lookup_insert_eq; congruence|].
    rewrite lookup_insert_ne by done. apply Hc.
Qed.

Lemma place_twice a acc acc' t : place a acc (place a acc' t) = place a acc t.
Proof.
  unfold place. repeat case_match;
    by rewrite ?delete_delete_eq, ?delete_insert_eq, ?insert_delete_eq, ?insert_insert_eq.
Qed.
Lemma place_comm a b acc acc' t :
  a <> b -> place a acc (place b acc' t) = place b acc' (place a acc t).
Proof.
  intros Hne. unfold place. repeat case_match.
  - apply delete_delete.
  - by rewrite delete_insert_ne.
  - by rewrite delete_insert_ne.
  - by apply insert_insert_ne.
Qed.

Lemma settle_twice a acc st acc' st' x :
  settle a acc st (settle a acc' st' x) = settle a acc st x.
Proof.
  unfold settle. f_equal; simpl; [apply place_twice|].
  change (data (set_store a st (set_store a st' x)) = data (set_store a st x)).
  by rewrite set_store_twice.
Qed.
Lemma settle_comm a b acc acc' st st' x :
  a <> b -> settle a acc st (settle b acc' st' x) = settle b acc' st' (settle a acc st x).
Proof.
  intros Hne. unfold settle. f_equal; simpl; [by apply place_comm|].
  change (data (set_store a st (set_store b st' x)) = data (set_store b st' (set_store a st x))).
  by rewrite set_store_comm.
Qed.
Lemma settle_id bn a x : tree_ok bn x -> settle a (account_at x a) (data_store x a) x = x.
Proof.
  intros [Ha Hd _]. unfold settle. rewrite set_store_id by done. destruct x as [t d]. simpl. f_equal.
  unfold place, account_at. simpl. destruct (t !! a) as [acc|] eqn:Hacc; simpl.
  - destruct (Ha a acc Hacc) as [_ ->]. by apply insert_id.
  - by apply delete_id.
Qed.

Lemma pruned_balance acc : can_be_pruned acc = true -> account_balance acc = 0.
Proof. destruct acc; simpl; try done; intros H; by apply Z.eqb_eq in H. Qed.

Lemma opt_balance x a : opt_val account_balance (tree x !! a) = account_balance (account_at x a).
Proof. unfold account_at. by destruct (tree x !! a). Qed.

Lemma total_settle a acc st x :
  total (settle a acc st x) = total x - account_balance (account_at x a) + account_balance acc.
Proof.
  unfold total, settle, place. simpl. rewrite <-opt_balance. destruct (can_be_pruned acc) eqn:Hp.
  - rewrite map_sum_delete, (pruned_balance acc) by done. lia.
  - by rewrite map_sum_insert.
Qed.

Lemma account_at_ok bn x a : tree_ok bn x -> account_ok bn (account_at x a) (data_store x a).
Proof.
  intros [Ha _ _]. unfold account_at. destruct (tree x !! a) as [acc|] eqn:Hacc; simpl.
  - by apply (Ha a acc).
  - done.
Qed.

Lemma tree_balance_nonneg bn x k acc :
  tree_ok bn x -> tree x !! k = Some acc -> 0 <= account_balance acc.
Proof. intros Hok Hk. destruct (tree_accounts _ _ Hok k acc Hk). by eapply account_balance_nonneg. Qed.

(** Two accounts together hold at most the total. *)
Lemma two_balances_le bn x a b :
  tree_ok bn x -> a <> b ->
  account_balance (account_at x a) + account_balance (account_at x b) <= total x.
Proof.
  intros Hok Hne. unfold total. pose proof (map_sum_delete account_balance (tree x) a) as Hd.
  rewrite opt_balance in Hd. pose proof (map_sum_entry_le account_balance (delete a (tree x)) b) as Hb.
  rewrite lookup_delete_ne, opt_balance in Hb by done.
  enough (account_balance (account_at x b) <= map_sum account_balance (delete a (tree x))) by lia.
  apply Hb. intros k acc [_ Hk]%lookup_delete_Some. by eapply tree_balance_nonneg.
Qed.

Lemma balance_le_total bn x a : tree_ok bn x -> account_balance (account_at x a) <= total x.
Proof.
  intros Hok. rewrite <-opt_balance. apply map_sum_entry_le.
  intros k acc Hk. by eapply tree_balance_nonneg.
Qed.

Lemma tree_ok_settle bn a acc st x :
  tree_ok bn x -> account_ok bn acc st ->
  total x - account_balance (account_at x a) + account_balance acc <= MAX_SAFE_VALUE ->
  tree_ok bn (settle a acc st x).
Proof.
  intros Hok Hacc Hmax. pose proof Hok as [Ha Hd Ht]. split.
  - intros b acc' Hb. destruct (decide (b = a)) as [->|Hne].
    + unfold settle, place in Hb. simpl in Hb. destruct (can_be_pruned acc) eqn:Hp.
      * by rewrite lookup_delete_eq in Hb.
      * rewrite lookup_insert_eq in Hb. simplify_eq. split; [|done].
        change (data_store (settle a acc' st x) a) with (data_store (set_store a st x) a).
        by rewrite data_store_set_store.
    + assert (Hb' : tree x !! b = Some acc').
      { unfold settle, place in Hb. simpl in Hb. destruct (can_be_pruned acc).
        - by rewrite lookup_delete_ne in Hb.
        - by rewrite lookup_insert_ne in Hb. }
      change (data_store (settle a acc st x) b) with (data_store (set_store a st x) b).
      rewrite data_store_set_store_ne by done. by apply Ha.
  - apply set_store_canonical, Hd.
  - by rewrite total_settle.
Qed.

Lemma tree_ok_later bn bn' x : tree_ok bn x -> bn <= bn' -> tree_ok bn' x.
Proof.
  intros [Ha Hd Ht] Hle. split; [|done|done]. intros a acc Hacc. destruct (Ha a acc Hacc) as [Hok Hp].
  split; [|done]. destruct acc; try done. by eapply wf_later.
Qed.

(** ** Handlers in the tree *)

(** The revert of a handler run at [a] restores account and data from any tree
    that holds the data the commit left. *)
Definition store_reverts (a : Z) (acc acc' : Account) (st st' : Store)
    (rev : AM (Account * Store) unit) (new_logs : list Log.t) : Prop :=
  forall x lg, data_store x a = st' ->
  exists old_logs, old_logs ≡ₚ new_logs /\
    with_store a acc' rev (x, lg) = (Ok (tt, acc), (set_store a st x, lg ++ old_logs)).

Lemma wp_with_store {R} a acc (m : AM (Account * Store) R) rev post Q QE x lg :
  data_canonical x -> restorable m rev post (acc, data_store x a) ->
  (forall r acc' st' new_logs, post r (acc', st') ->
     store_reverts a acc acc' (data_store x a) st' (rev r) new_logs ->
     Q (r, acc') (set_store a st' x, lg ++ new_logs)) ->
  (forall e lg', QE e (x, lg')) -> wp (with_store a acc m) Q QE (x, lg).
Proof.
  intros Hd Hr HQ HE. specialize (Hr lg). unfold wp, with_store. simpl.
  destruct (m (acc, data_store x a, lg)) as [[r|e|] [[acc' st'] lg']]; [|simplify_eq|done].
  - destruct Hr as [Hp (new_logs & -> & Hrev)]. apply HQ; [done|]. intros y lg2 Hy.
    destruct (Hrev lg2) as (old_logs & Hperm & Hrun). exists old_logs. split; [done|].
    unfold with_store. simpl. by rewrite Hy, Hrun.
  - rewrite set_store_id by done. apply HE.
Qed.

Lemma wp_get_with_type a ty Q QE x lg :
  (account_type (account_at x a) = ty -> Q (account_at x a) (x, lg)) ->
  (forall e, QE e (x, lg)) -> wp (get_with_type a ty) Q QE (x, lg).
Proof.
  intros HQ HE. unfold get_with_type, get_complete. apply wp_bind, wp_get_state, wp_bind, wp_fail_if.
  - intros _. apply HE.
  - intros Ht%negb_false_iff%bool_decide_eq_true_1. by apply wp_ret, HQ.
Qed.

Lemma wp_put a acc Q QE x lg :
  can_be_pruned acc = false ->
  Q tt (mk_accounts (place a acc (tree x)) (data x), lg) -> wp (put a acc) Q QE (x, lg).
Proof.
  intros Hp HQ. unfold put. apply wp_bind, wp_assert; [by rewrite Hp|]. apply wp_modify_state.
  unfold place in HQ. by rewrite Hp in HQ.
Qed.

(** What [put_or_prune] returns brings the account back with [get_or_restore]. *)
Lemma wp_put_or_prune a acc Q QE x lg :
  (forall pruned,
     (forall y lg2 Q2 QE2, tree y !! a = (if can_be_pruned acc then None else Some acc) ->
        Q2 acc (y, lg2) -> wp (get_or_restore a (account_type acc) pruned) Q2 QE2 (y, lg2)) ->
     Q pruned (mk_accounts (place a acc (tree x)) (data x), lg)) ->
  wp (put_or_prune a acc) Q QE (x, lg).
Proof.
  intros HQ. unfold put_or_prune.
  assert (Hget : forall acc y lg2 (Q2 : Account -> AccountsTree * list Log.t -> Prop) QE2 pruned,
    tree y !! a = Some acc -> Q2 acc (y, lg2) ->
    wp (get_or_restore a (account_type acc) pruned) Q2 QE2 (y, lg2)).
  { intros acc0 y lg2 Q2 QE2 pruned Hy HQ2. unfold get_or_restore. apply wp_bind, wp_get_state.
    rewrite Hy. apply wp_bind, wp_fail_if; [|by intros; apply wp_ret].
    intros H%negb_true_iff%bool_decide_eq_false_1. done. }
  destruct (can_be_pruned acc) eqn:Hp.
  - unfold place in HQ. rewrite Hp in HQ. apply wp_bind.
    destruct acc as [[b]|c|c|sc]; simpl in Hp; [..|done]; apply Z.eqb_eq in Hp; simpl in Hp;
      apply wp_ret, wp_bind, wp_modify_state, wp_ret, HQ; intros y lg2 Q2 QE2 Hy HQ2;
      unfold get_or_restore; apply wp_bind, wp_get_state; rewrite Hy; simpl restore.
    + apply wp_ret. by subst b.
    + apply wp_bind. unfold wp. rewrite restore_prune_vesting by done. done.
    + apply wp_bind. unfold wp. rewrite restore_prune_htlc by done. done.
  - apply wp_bind, wp_put; [done|]. apply wp_ret, HQ. intros y lg2 Q2 QE2 Hy HQ2. by apply Hget.
Qed.

(** ** Transactions *)

(** What static verification of a transaction guarantees. *)
Record tx_verified (tx : Transaction) : Prop := {
  ver_value : 0 <= tx_value tx;
  ver_fee : 0 <= tx_fee tx;
  ver_sum : tx_value tx + tx_fee tx <= MAX_SAFE_VALUE;
  ver_addresses : tx_sender tx <> tx_recipient tx;
  ver_positive : tx_recipient_type tx <> AccountType.Staking -> 0 < tx_value tx;
  ver_creation : flags_contain (tx_flags tx) CONTRACT_CREATION = true ->
    tx_recipient_type tx = AccountType.Vesting \/ tx_recipient_type tx = AccountType.HTLC;
  ver_staking : tx_recipient_type tx = AccountType.Staking ->
    forall data, parse_incoming tx = Some data -> incoming_verified tx data;
}.

(** The address of a new contract, a hash of the transaction, is not in use by a
    contract. *)
Definition target_free (x : AccountsTree) (tx : Transaction) : Prop :=
  flags_contain (tx_flags tx) CONTRACT_CREATION = true ->
  account_type (account_at x (tx_recipient tx)) = AccountType.Basic.

Lemma total_value_eq tx : tx_verified tx -> total_value tx = tx_value tx + tx_fee tx.
Proof.
  intros [H1 H2 H3 _ _ _ _]. unfold total_value, coin_saturating_add.
  rewrite coin_checked_add_spec by (unfold coin_ok; lia).
  destruct (Z.leb_spec (tx_value tx + tx_fee tx) MAX_SAFE_VALUE); [done|lia].
Qed.

(** A new contract holds the old balance of its address and the value. *)
Lemma wp_create_new_contract {X} tx b Q QE (x : X) lg :
  tx_verified tx -> flags_contain (tx_flags tx) CONTRACT_CREATION = true ->
  0 <= b -> b + tx_value tx <= MAX_SAFE_VALUE ->
  (forall acc new_logs, account_type acc = tx_recipient_type tx -> can_be_pruned acc = false ->
     account_balance acc = b + tx_value tx -> (forall bn st, account_ok bn acc st) ->
     (forall st lg2, Account.revert_new_contract tx ((acc, st), lg2)
        = (Ok tt, ((match acc with
                    | Vesting c => Vesting (vc_set_balance b c)
                    | HTLC c => HTLC (ht_set_balance b c)
                    | _ => acc
                    end, st), lg2 ++ new_logs))) ->
     Q acc (x, lg ++ new_logs)) ->
  (forall e, QE e (x, lg)) -> wp (create_new_contract tx b) Q QE (x, lg).
Proof.
  intros Hv Hf Hb Hmax HQ HE. unfold create_new_contract. apply wp_bind, wp_assert; [done|].
  assert (0 < tx_value tx).
  { apply (ver_positive _ Hv). destruct (ver_creation _ Hv Hf); congruence. }
  destruct (ver_creation _ Hv Hf) as [Ht|Ht]; rewrite Ht; apply wp_bind.
  - unfold VestingContract.create_new_contract. apply wp_bind.
    destruct (VestingContract.parse tx) as [d|e]; [apply wp_ret|apply wp_fail, HE].
    apply wp_bind, wp_push_log, wp_bind, wp_add; [lia..|]. apply wp_ret, wp_ret, HQ; [done|..].
    + simpl. unfold VestingContract.can_be_pruned, is_zero. apply Z.eqb_neq. simpl. lia.
    + done.
    + intros bn st. unfold account_ok, coin_ok. simpl. lia.
    + intros st lg2. unfold Account.revert_new_contract, zoom. simpl.
      unfold VestingContract.revert_new_contract, mbind, M_bind. simpl.
      rewrite sub_run by (unfold coin_ok; lia). simpl. unfold vc_set_balance. simpl.
      by replace (b + tx_value tx - tx_value tx) with b by lia.
  - unfold HtlcContract.create_new_contract. apply wp_bind.
    destruct (HtlcContract.parse tx) as [d|e]; [apply wp_ret|apply wp_fail, HE].
    apply wp_bind, wp_push_log, wp_bind, wp_add; [lia..|]. apply wp_ret, wp_ret, HQ; [done|..].
    + simpl. unfold HtlcContract.can_be_pruned, is_zero. apply Z.eqb_neq. simpl. lia.
    + done.
    + intros bn st. unfold account_ok, coin_ok. simpl. lia.
    + intros st lg2. unfold Account.revert_new_contract, zoom. simpl.
      unfold HtlcContract.revert_new_contract, mbind, M_bind. simpl.
      rewrite sub_run by (unfold coin_ok; lia). simpl. unfold ht_set_balance. simpl.
      by replace (b + tx_value tx - tx_value tx) with b by lia.
Qed.

Lemma not_pruned acc :
  (account_type acc <> AccountType.Staking -> 0 < account_balance acc) ->
  can_be_pruned acc = false.
Proof.
  destruct acc; simpl; intros H; [..|done]; apply Z.eqb_neq; specialize (H ltac:(done)); lia.
Qed.

Lemma wp_of_run {S E A} (m : M S E A) (Q : A -> S -> Prop) (QE : E -> S -> Prop) s a s' :
  m s = (Ok a, s') -> Q a s' -> wp m Q QE s.
Proof. intros Hm HQ. unfold wp. by rewrite Hm. Qed.

Lemma wp_get_typed a acc ty Q QE x lg :
  account_at x a = acc -> account_type acc = ty -> Q acc (x, lg) ->
  wp (get_with_type a ty) Q QE (x, lg).
Proof.
  intros <- <- HQ. unfold get_with_type, get_complete. apply wp_bind, wp_get_state, wp_bind.
  apply wp_fail_if; [|by intros; apply wp_ret].
  intros H%negb_true_iff%bool_decide_eq_false_1. done.
Qed.

(** Writing back what a handler at [a] left completes the change at [a]. *)
Lemma wp_settle a acc st Q QE x lg :
  (forall pruned,
     (forall y lg2 Q2 QE2, tree y !! a = (if can_be_pruned acc then None else Some acc) ->
        Q2 acc (y, lg2) -> wp (get_or_restore a (account_type acc) pruned) Q2 QE2 (y, lg2)) ->
     Q pruned (settle a acc st x, lg)) ->
  wp (put_or_prune a acc) Q QE (set_store a st x, lg).
Proof. intros HQ. apply wp_put_or_prune. exact HQ. Qed.

(** The revert of the recipient, from any tree that holds what the commit left. *)
Definition recipient_reverts (tx : Transaction) (acc acc' : Account) (st st' : Store)
    (r : option AccountReceipt) (new_logs : list Log.t) : Prop :=
  forall receipt y lg (Q : unit -> AccountsTree * list Log.t -> Prop) QE,
  recipient_receipt receipt = r -> tree y !! tx_recipient tx = Some acc' ->
  data_store y (tx_recipient tx) = st' ->
  (forall old_logs, old_logs ≡ₚ new_logs -> Q tt (settle (tx_recipient tx) acc st y, lg ++ old_logs)) ->
  wp (revert_recipient tx receipt) Q QE (y, lg).

(** What the committed recipient [acc'] with data [st'] satisfies. *)
Record received (tx : Transaction) (bn : Z) (x : AccountsTree) (r : option AccountReceipt)
    (acc' : Account) (st' : Store) (new_logs : list Log.t) : Prop := {
  received_ok : account_ok bn acc' st';
  received_kept : can_be_pruned acc' = false;
  received_balance :
    account_balance acc' = account_balance (account_at x (tx_recipient tx)) + tx_value tx;
  received_type : flags_contain (tx_flags tx) CONTRACT_CREATION = false ->
    account_type acc' = account_type (account_at x (tx_recipient tx));
  received_reverts : recipient_reverts tx (account_at x (tx_recipient tx)) acc'
    (data_store x (tx_recipient tx)) st' r new_logs;
}.

Lemma received_ext tx bn x y r acc' st' new_logs :
  account_at y (tx_recipient tx) = account_at x (tx_recipient tx) ->
  data_store y (tx_recipient tx) = data_store x (tx_recipient tx) ->
  received tx bn y r acc' st' new_logs -> received tx bn x r acc' st' new_logs.
Proof. intros Ha Hs [H1 H2 H3 H4 H5]. rewrite Ha in *. rewrite Hs in *. by split. Qed.

(** The recipient of a contract creation. *)
Lemma wp_recipient_created tx bs x lg Q QE :
  let b := tx_recipient tx in
  data_canonical x -> tx_verified tx -> target_free x tx ->
  flags_contain (tx_flags tx) CONTRACT_CREATION = true ->
  0 <= account_balance (account_at x b) ->
  account_balance (account_at x b) + tx_value tx <= MAX_SAFE_VALUE ->
  (forall r acc' st' new_logs, received tx (bs_number bs) x r acc' st' new_logs ->
     Q (r, acc') (set_store b st' x, lg ++ new_logs)) ->
  (forall e lg', QE e (x, lg')) -> wp (commit_recipient tx bs) Q QE (x, lg).
Proof.
  intros b Hd Hv Hfree Hf Hnn Hmax HQ HE. specialize (Hfree Hf).
  unfold commit_recipient. rewrite Hf. fold b in Hfree |- *.
  apply wp_bind, wp_catch. eapply wp_get_typed; [done|done|]. apply wp_bind, wp_ret, wp_bind.
  apply (wp_create_new_contract tx); [done..| |by intros; apply HE].
  intros acc new_logs Hty Hp Hbal Haok Hrev. apply wp_ret.
  rewrite <-(set_store_id b x) at 1 by done. apply HQ. split; [apply Haok|done|done|congruence|].
  intros receipt y lg2 Q2 QE2 Hr Hy Hst HQ2. unfold revert_recipient. fold b in Hy, Hst, HQ2 |- *.
  apply wp_bind. eapply (wp_get_typed _ acc); [unfold account_at; by rewrite Hy|done|].
  apply wp_bind. rewrite Hf. apply wp_bind.
  eapply wp_of_run; [unfold with_store; simpl; rewrite Hrev, Hst; reflexivity|].
  apply wp_ret, wp_bind, wp_settle. intros pruned _. apply wp_ret. simpl.
  replace (default_with_balance _) with (account_at x b); [by apply HQ2|].
  destruct (account_at x b) as [[z]| | |]; try done.
  destruct acc; simpl in *; try done; destruct (ver_creation _ Hv Hf); congruence.
Qed.

(** The recipient of a transfer. *)
Lemma wp_recipient_receives tx bs x lg Q QE :
  let b := tx_recipient tx in
  data_canonical x -> tx_verified tx ->
  flags_contain (tx_flags tx) CONTRACT_CREATION = false ->
  account_ok (bs_number bs) (account_at x b) (data_store x b) ->
  account_balance (account_at x b) + tx_value tx <= MAX_SAFE_VALUE ->
  (forall r acc' st' new_logs, received tx (bs_number bs) x r acc' st' new_logs ->
     Q (r, acc') (set_store b st' x, lg ++ new_logs)) ->
  (forall e lg', QE e (x, lg')) -> wp (commit_recipient tx bs) Q QE (x, lg).
Proof.
  intros b Hd Hv Hf Hok Hmax HQ HE. pose proof (account_balance_nonneg _ _ _ Hok) as Hnn.
  unfold commit_recipient. rewrite Hf. fold b.
  apply wp_bind, wp_get_with_type; [|by intros; apply HE]. intros Hty.
  eapply wp_with_store; [done| | |by intros; apply HE].
  { apply account_incoming_restorable; [done|apply (ver_value _ Hv)| |done].
    intros Hs. apply (ver_staking _ Hv). congruence. }
  intros r acc' st' new_logs (Hok' & Hty' & Hbal) Hrev. simpl in Hok', Hty', Hbal.
  apply HQ. split; [done| |done|done|].
  { apply not_pruned. intros Hns. rewrite Hbal. rewrite Hty', Hty in Hns.
    pose proof (ver_positive _ Hv Hns). lia. }
  intros receipt y lg2 Q2 QE2 <- Hy Hst HQ2. unfold revert_recipient. fold b in Hy, Hst, HQ2 |- *.
  apply wp_bind. eapply (wp_get_typed _ acc'); [unfold account_at; by rewrite Hy|congruence|].
  apply wp_bind. rewrite Hf. apply wp_bind.
  destruct (Hrev y lg2 Hst) as (old_logs & Hperm & Hrun). eapply wp_of_run; [exact Hrun|].
  apply wp_ret, wp_bind, wp_settle. intros pruned _. apply wp_ret. by apply HQ2.
Qed.

Lemma tree_settle_ne a b acc st x : b <> a -> tree (settle a acc st x) !! b = tree x !! b.
Proof.
  intros Hne. unfold settle, place. simpl.
  destruct (can_be_pruned acc); [by rewrite lookup_delete_ne|by rewrite lookup_insert_ne].
Qed.
Lemma tree_settle a acc st x :
  tree (settle a acc st x) !! a = if can_be_pruned acc then None else Some acc.
Proof.
  unfold settle, place. simpl.
  destruct (can_be_pruned acc); [by rewrite lookup_delete_eq|by rewrite lookup_insert_eq].
Qed.
Lemma data_store_settle a acc st x : data_store (settle a acc st x) a = st.
Proof. exact (data_store_set_store a st x). Qed.
Lemma data_store_settle_ne a b acc st x :
  b <> a -> data_store (settle a acc st x) b = data_store x b.
Proof. exact (data_store_set_store_ne a b st x). Qed.

(** Reverting the sender from the tree in which only the sender is changed. *)
Lemma wp_revert_sender tx bn x rev acc' st' pruned new_logs lg Q
    (QE : AccountError.t -> AccountsTree * list Log.t -> Prop) :
  let a := tx_sender tx in
  tree_ok bn x -> account_type acc' = tx_sender_type tx ->
  store_reverts a (account_at x a) acc' (data_store x a) st' rev new_logs ->
  (forall y lg2 Q2 QE2, tree y !! a = (if can_be_pruned acc' then None else Some acc') ->
     Q2 acc' (y, lg2) -> wp (get_or_restore a (account_type acc') pruned) Q2 QE2 (y, lg2)) ->
  (forall old_logs, old_logs ≡ₚ new_logs -> Q tt (x, lg ++ old_logs)) ->
  wp (sender_account ← get_or_restore a (tx_sender_type tx) pruned;
      r ← with_store a sender_account rev;
      put_or_prune a r.2;;
      mret tt) Q QE (settle a acc' st' x, lg).
Proof.
  intros a Hok Hty Hrev Hget HQ. apply wp_bind. rewrite <-Hty.
  apply Hget; [apply tree_settle|]. apply wp_bind.
  destruct (Hrev (settle a acc' st' x) lg (data_store_settle _ _ _ _)) as (old_logs & Hperm & Hrun).
  eapply wp_of_run; [exact Hrun|]. apply wp_bind, wp_settle. intros p _. apply wp_ret. simpl.
  rewrite settle_twice, (settle_id bn) by done. by apply HQ.
Qed.

(** A committed change of state whose revert restores the tree. *)
Definition undone {R} (x : AccountsTree) (lg : list Log.t) (revert : R -> TM unit) (r : R)
    (s : AccountsTree * list Log.t) : Prop :=
  exists new_logs, s.2 = lg ++ new_logs /\
  forall lg2, wp (revert r) (fun _ s2 => s2.1 = x /\ exists old_logs, old_logs ≡ₚ new_logs /\
                              s2.2 = lg2 ++ old_logs) (fun _ _ => False) (s.1, lg2).

(** Only a contract creation turns a basic account into a contract. *)
Definition basic_kept (tx : Transaction) (x x' : AccountsTree) : Prop :=
  forall c, account_type (account_at x c) = AccountType.Basic ->
  (flags_contain (tx_flags tx) CONTRACT_CREATION = true -> c <> tx_recipient tx) ->
  account_type (account_at x' c) = AccountType.Basic.

Lemma type_settle a acc st x c :
  (c = a -> account_type acc = AccountType.Basic) ->
  account_type (account_at x c) = AccountType.Basic ->
  account_type (account_at (settle a acc st x) c) = AccountType.Basic.
Proof.
  intros Ha Hc. unfold account_at. destruct (decide (c = a)) as [->|Hne].
  - rewrite tree_settle. destruct (can_be_pruned acc); [done|by apply Ha].
  - by rewrite tree_settle_ne.
Qed.

Section TryCommit.
Context (tx : Transaction) (bs : BlockState) (x : AccountsTree) (lg : list Log.t).
Local Abbreviation a := (tx_sender tx).
Local Abbreviation b := (tx_recipient tx).
Hypothesis Hok : tree_ok (bs_number bs) x.
Hypothesis Hv : tx_verified tx.

(** What a committed transaction establishes: the invariant, the total without
    the fee, and that the revert restores the tree. *)
Definition committed_tx (receipt : TransactionReceipt) (s : AccountsTree * list Log.t) : Prop :=
  tree_ok (bs_number bs) s.1 /\ total s.1 = total x - tx_fee tx /\ basic_kept tx x s.1 /\
  undone x lg (revert_successful_transaction tx) receipt s.

(** The sender's half is committed. *)
Context (ra : option AccountReceipt) (acc_a : Account) (st_a : Store) (new_a : list Log.t).
Hypothesis Hmoved_a :
  moved (bs_number bs) (account_at x a) (- (tx_value tx + tx_fee tx)) ra (acc_a, st_a).
Hypothesis Hty_a : account_type (account_at x a) = tx_sender_type tx.
Hypothesis Hrev_a : store_reverts a (account_at x a) acc_a (data_store x a) st_a
                      (Account.revert_outgoing_transaction tx ra) new_a.

(** If the recipient fails, the sender is reverted. *)
Lemma sender_reverted e lg' :
  wp (reverted ← catch (with_store a acc_a (Account.revert_outgoing_transaction tx ra));
      match reverted with Ok _ => fail e | _ => panic end)
    committed_tx (fun _ s => s.1 = x) (set_store a st_a x, lg').
Proof.
  apply wp_bind, wp_catch.
  destruct (Hrev_a (set_store a st_a x) lg' (data_store_set_store _ _ _)) as (old_logs & _ & Hrun).
  eapply wp_of_run; [exact Hrun|]. apply wp_fail. simpl.
  rewrite set_store_twice. by apply set_store_id, Hok.
Qed.

(** If the recipient succeeds, both accounts are written. *)
Lemma recipient_settled rb acc_b st_b new_b :
  received tx (bs_number bs) x rb acc_b st_b new_b ->
  wp (pruned_account ← put_or_prune a acc_a; put b acc_b;;
      mret (mk_transaction_receipt ra rb pruned_account))
    committed_tx (fun _ s => s.1 = x)
    (set_store b st_b (set_store a st_a x), (lg ++ new_a) ++ new_b).
Proof.
  intros [Hok_b Hp_b Hbal_b Htype_b Hrev_b]. destruct Hmoved_a as (Hok_a & Hty & Hbal_a).
  simpl in Hok_a, Hty, Hbal_a.
  assert (Hne : b <> a) by (intros He; by apply (ver_addresses _ Hv)).
  pose proof (tree_total _ _ Hok). pose proof (ver_value _ Hv). pose proof (ver_fee _ Hv).
  apply wp_bind, wp_put_or_prune. intros pruned Hget. apply wp_bind, wp_put; [done|]. apply wp_ret.
  change (mk_accounts (place b acc_b _) _) with (settle b acc_b st_b (settle a acc_a st_a x)).
  assert (Hat : account_at (settle a acc_a st_a x) b = account_at x b)
    by (unfold account_at; by rewrite tree_settle_ne).
  split_and!.
  - apply tree_ok_settle; [apply tree_ok_settle; [done..|lia]|done|]. rewrite total_settle, Hat. lia.
  - simpl. rewrite !total_settle, Hat. lia.
  - intros c Hc Hcre. apply type_settle; [intros ->|apply type_settle; [intros ->|done]].
    + destruct (flags_contain (tx_flags tx) CONTRACT_CREATION); [by destruct (Hcre eq_refl)|].
      by rewrite Htype_b.
    + congruence.
  - eexists. rewrite <-app_assoc. split; [done|]. intros lg2. unfold revert_successful_transaction.
    apply wp_bind. apply Hrev_b; cbn [fst]; [done| |apply data_store_settle|].
    { rewrite tree_settle. by rewrite Hp_b. }
    intros old_b Hperm_b. rewrite settle_twice, settle_comm, (settle_id (bs_number bs)) by done.
    apply (wp_revert_sender tx (bs_number bs) x _ acc_a st_a pruned new_a);
      [done|congruence|done|done|].
    intros old_a Hperm_a. simpl. split; [done|]. exists (old_b ++ old_a).
    split; [rewrite Hperm_a, Hperm_b; apply Permutation_app_comm|by rewrite app_assoc].
Qed.
End TryCommit.

Lemma wp_try_commit tx bs x lg :
  tree_ok (bs_number bs) x -> tx_verified tx -> target_free x tx ->
  wp (try_commit_transaction tx bs) (committed_tx tx bs x lg) (fun _ s => s.1 = x) (x, lg).
Proof.
  intros Hok Hv Hfree. unfold try_commit_transaction.
  set (a := tx_sender tx). set (b := tx_recipient tx).
  assert (Hne : b <> a) by (intros ?; by apply (ver_addresses _ Hv)).
  pose proof (account_at_ok _ x a Hok) as Ha. pose proof (account_at_ok _ x b Hok) as Hb.
  pose proof (account_balance_nonneg _ _ _ Hb) as Hb0.
  pose proof (two_balances_le _ x a b Hok ltac:(done)) as Htwo.
  pose proof (total_value_eq tx Hv) as Htv. pose proof (ver_value _ Hv). pose proof (ver_fee _ Hv).
  apply wp_bind, wp_get_with_type; [|done]. intros Hty.
  apply wp_bind. eapply wp_with_store; [apply Hok|by apply account_outgoing_restorable; [|lia]| |done].
  rewrite Htv. intros ra acc_a st_a new_a Hmoved Hrev_a. pose proof Hmoved as (Hok_a & _ & Hbal_a).
  simpl in Hok_a, Hbal_a.
  pose proof (account_balance_nonneg _ _ _ Hok_a). pose proof (tree_total _ _ Hok).
  assert (Hst_b : data_store (set_store a st_a x) b = data_store x b)
    by by apply data_store_set_store_ne.
  assert (Hacc_b : account_at (set_store a st_a x) b = account_at x b) by done.
  apply wp_bind, wp_catch. destruct (flags_contain (tx_flags tx) CONTRACT_CREATION) eqn:Hf.
  - apply wp_recipient_created; fold b; [by apply set_store_canonical, Hok|done|done|done| | | |];
      rewrite ?Hacc_b; [lia..| |by intros; eapply sender_reverted].
    intros rb acc_b st_b new_b Hrec. eapply recipient_settled; [done..|].
    by eapply received_ext; [exact Hacc_b|exact Hst_b|].
  - apply wp_recipient_receives; fold b; [by apply set_store_canonical, Hok|done|done| | | |];
      rewrite ?Hacc_b, ?Hst_b; [done|lia| |by intros; eapply sender_reverted].
    intros rb acc_b st_b new_b Hrec. eapply recipient_settled; [done..|].
    by eapply received_ext; [exact Hacc_b|exact Hst_b|].
Qed.

Lemma wp_commit_failed tx bs x lg :
  tree_ok (bs_number bs) x -> tx_verified tx ->
  wp (commit_failed_transaction tx bs)
    (fun receipt s => tree_ok (bs_number bs) s.1 /\ total s.1 = total x - tx_fee tx /\
       basic_kept tx x s.1 /\ undone x lg (revert_failed_transaction tx) receipt s)
    (fun _ s => s.1 = x) (x, lg).
Proof.
  intros Hok Hv. unfold commit_failed_transaction. set (a := tx_sender tx).
  pose proof (account_at_ok _ x a Hok) as Ha. pose proof (ver_fee _ Hv).
  pose proof (tree_total _ _ Hok).
  apply wp_bind, wp_get_with_type; [|done]. intros Hty.
  apply wp_bind. eapply wp_with_store; [apply Hok|by apply account_failed_restorable| |done].
  intros ra acc_a st_a new_a (Hok_a & Hty_a & Hbal_a) Hrev_a. simpl in Hok_a, Hty_a, Hbal_a.
  apply wp_bind, wp_settle. intros pruned Hget. apply wp_ret. split_and!.
  - apply tree_ok_settle; [done..|lia].
  - simpl. rewrite total_settle. lia.
  - intros c Hc _. apply type_settle; [intros ->; congruence|done].
  - eexists. split; [done|]. intros lg2. unfold revert_failed_transaction.
    apply (wp_revert_sender tx (bs_number bs) x _ acc_a st_a pruned new_a);
      [done|congruence|done|done|].
    intros old_a Hperm_a. simpl. eauto.
Qed.

(** Committing a transaction with a fresh log. *)
Lemma wp_commit_transaction tx bs x :
  tree_ok (bs_number bs) x -> tx_verified tx -> target_free x tx ->
  wp (commit_transaction tx bs)
    (fun receipt s => tree_ok (bs_number bs) s.1 /\ total s.1 = total x - tx_fee tx /\
       basic_kept tx x s.1 /\ undone x [] (revert_transaction tx) receipt s)
    (fun _ s => s.1 = x) (x, []).
Proof.
  intros Hok Hv Hfree. unfold commit_transaction. apply wp_bind, wp_catch.
  eapply wp_mono; [by apply wp_try_commit| |].
  - intros receipt [x' lg'] (Hok' & Ht & Hb & Hu). apply wp_ret. by split_and!.
  - intros e [x' lg'] Hx. simpl in Hx. subst x'. apply wp_bind, wp_modify, wp_bind, wp_push_log. simpl.
    apply wp_bind. eapply wp_mono; [by apply wp_commit_failed| |done].
    intros receipt [x' lg2] (Hok' & Ht & Hb & new_logs & Hl & Hrev). simpl in Hl, Hrev. subst lg2.
    apply wp_ret. split_and!; [done..|]. eexists. split; [done|]. intros lg2. unfold revert_transaction.
    apply wp_bind, wp_catch. eapply wp_mono; [apply Hrev| |done].
    intros [] [y lg3] (Hy & old_logs & Hperm & Hl3). simpl in Hy, Hl3. subst.
    apply wp_bind, wp_push_log, wp_ret. split; [done|]. simpl.
    eexists. rewrite <-app_assoc. split; [|done]. rewrite Hperm. apply Permutation_app_comm.
Qed.

(** The coins an inherent receipt says were paid out. *)
Definition paid_out (inherent : Inherent.t) (receipt : OperationReceipt (option AccountReceipt)) : Z :=
  match receipt with ReceiptOk _ => minted inherent | ReceiptErr _ _ => 0 end.

Lemma minted_nonneg bn inherent : inherent_ok bn inherent -> 0 <= minted inherent.
Proof. destruct inherent; simpl; lia. Qed.

Lemma wp_commit_inherent inherent bs x lg :
  tree_ok (bs_number bs) x -> inherent_ok (bs_number bs) inherent ->
  total x + minted inherent <= MAX_SAFE_VALUE ->
  wp (commit_inherent inherent bs)
    (fun receipt s => tree_ok (bs_number bs) s.1 /\ total s.1 = total x + paid_out inherent receipt /\
       forall lg2, wp (revert_inherent inherent receipt) (fun _ s2 => s2.1 = x) (fun _ _ => False)
                      (s.1, lg2))
    (fun _ _ => False) (x, lg).
Proof.
  intros Hok Hi Hmax. unfold commit_inherent. set (a := Inherent.target inherent).
  pose proof (account_at_ok _ x a Hok) as Ha. pose proof (balance_le_total _ x a Hok).
  pose proof (minted_nonneg _ _ Hi).
  apply wp_bind, wp_get_state, wp_bind, wp_catch.
  change (default default_account (tree x !! a)) with (account_at x a).
  eapply wp_with_store; [apply Hok|apply account_inherent_restorable; [done|done|lia]| |].
  - intros r acc' st' new_logs [(Hok_a & Hty_a & Hbal_a) Hp] Hrev. simpl in Hok_a, Hty_a, Hbal_a, Hp.
    apply wp_bind, wp_put; [done|]. apply wp_ret.
    change (mk_accounts (place a acc' _) _) with (settle a acc' st' x).
    split; [|split].
    + apply tree_ok_settle; [done..|lia].
    + simpl. rewrite total_settle. lia.
    + intros lg2. unfold revert_inherent. fold a. pose proof (tree_settle a acc' st' x) as Hacc.
      rewrite Hp in Hacc. apply wp_bind, wp_get_state, wp_bind. cbn [fst]. rewrite Hacc.
      destruct (Hrev (settle a acc' st' x) lg2 (data_store_settle _ _ _ _)) as (old_logs & _ & Hrun).
      eapply wp_of_run; [exact Hrun|]. apply wp_bind, wp_settle. intros p _. apply wp_ret. simpl.
      by rewrite settle_twice, (settle_id (bs_number bs)).
  - intros e lg'. apply wp_ret. split_and!; [done|simpl; lia|]. intros lg2. by apply wp_ret.
Qed.

(** ** Blocks *)

(** The transactions of a block: all verified, and every new contract at an
    address of its own that no contract uses. *)
Record batch_verified (x : AccountsTree) (txs : list Transaction) : Prop := {
  batch_txs : Forall tx_verified txs;
  batch_free : Forall (target_free x) txs;
  batch_creations :
    NoDup (tx_recipient <$> filter (fun tx => flags_contain (tx_flags tx) CONTRACT_CREATION = true) txs);
}.

Lemma batch_verified_cons x x' tx txs :
  batch_verified x (tx :: txs) -> basic_kept tx x x' -> batch_verified x' txs.
Proof.
  intros [Hv Hf Hn] Hk. apply Forall_cons in Hv as [_ Hv], Hf as [_ Hf]. split; [done| |].
  - apply Forall_forall. intros tx' Hin Hcre. rewrite Forall_forall in Hf.
    apply Hk; [by apply (Hf tx' Hin)|]. intros Hcre2 He. rewrite filter_cons_True in Hn by done.
    apply NoDup_cons in Hn as [Hnot _]. apply Hnot. apply list_elem_of_fmap. exists tx'.
    split; [done|]. by apply list_elem_of_filter.
  - rewrite filter_cons in Hn. case_decide; [|done]. by apply NoDup_cons in Hn as [_ ?].
Qed.

(** Running a list of steps and then [k]. *)
Lemma wp_steps {S E A} (g : A -> M S E unit) (k : M S E unit) l Q QE s :
  wp (foldr (fun p k => g p;; k) (mret tt) l) (fun _ => wp k Q QE) QE s ->
  wp (foldr (fun p k => g p;; k) k l) Q QE s.
Proof.
  revert s. induction l as [|p l IH]; intros s; simpl; [done|]. intros Hwp. apply wp_bind.
  unfold wp in Hwp at 1. unfold mbind, M_bind in Hwp. unfold wp at 1.
  destruct (g p s) as [[[]|e|] s']; [|done..]. by apply IH.
Qed.

Lemma wp_with_new_tx_log {A} tx (m : TM A) Q QE x bl :
  wp m (fun a s => forall lg, Q a (s.1, mk_block_logger (inherent_logs bl) lg))
    (fun e s => forall bl', QE (InvalidTransaction e tx) (s.1, bl')) (x, []) ->
  wp (with_new_tx_log tx m) Q QE (x, bl).
Proof. unfold wp, with_new_tx_log. simpl. by destruct (m (x, [])) as [[a|e|] [x' lg]]. Qed.

Lemma wp_with_inherent_logger {A} inherent (m : TM A) Q QE x bl :
  wp m (fun a s => Q a (s.1, mk_block_logger s.2 (tx_logs bl)))
    (fun e s => forall bl', QE (InvalidInherent e inherent) (s.1, bl')) (x, inherent_logs bl) ->
  wp (with_inherent_logger inherent m) Q QE (x, bl).
Proof.
  unfold wp, with_inherent_logger. simpl. by destruct (m (x, inherent_logs bl)) as [[a|e|] [x' lg]].
Qed.

Definition sum_fees (txs : list Transaction) : Z := foldr (fun tx n => tx_fee tx + n) 0 txs.

(** The loops of [revert_batch]. *)
Definition revert_transactions (l : list (Transaction * OperationReceipt TransactionReceipt)) : BM unit :=
  foldr (fun p (k : BM unit) => with_new_tx_log p.1 (revert_transaction p.1 p.2);; k) (mret tt) l.
Definition revert_inherents (l : list (Inherent.t * OperationReceipt (option AccountReceipt))) : BM unit :=
  foldr (fun p (k : BM unit) => with_inherent_logger p.1 (revert_inherent p.1 p.2);; k) (mret tt) l.

Lemma wp_commit_transactions txs bs x bl :
  tree_ok (bs_number bs) x -> batch_verified x txs ->
  wp (commit_transactions txs bs)
    (fun receipts s => tree_ok (bs_number bs) s.1 /\ total s.1 = total x - sum_fees txs /\
       length receipts = length txs /\
       forall bl2, wp (revert_transactions (reverse (zip txs receipts)))
                      (fun _ s2 => s2.1 = x) (fun _ _ => False) (s.1, bl2))
    (fun e _ => exists e' tx, e = InvalidTransaction e' tx) (x, bl).
Proof.
  revert x bl. induction txs as [|tx txs IH]; intros x bl Hok Hv.
  { apply wp_ret. split_and!; [done|simpl; lia|done|]. intros bl2. by apply wp_ret. }
  cbn [commit_transactions]. apply wp_bind, wp_with_new_tx_log.
  pose proof Hv as [Htx Hfree _]. apply Forall_cons in Htx as [Htx _], Hfree as [Hfree _].
  eapply wp_mono; [by apply wp_commit_transaction| |by eauto].
  intros receipt [x1 lg1] (Hok1 & Ht1 & Hk1 & new_logs & _ & Hrev1) lg. simpl in *.
  apply wp_bind. eapply wp_mono; [apply IH; [done|by eapply batch_verified_cons]| |done].
  intros receipts [x2 bl2] (Hok2 & Ht2 & Hl & Hrev2). simpl in *. apply wp_ret.
  split_and!; [done|simpl; lia|simpl; by rewrite Hl|]. intros bl3. cbn [zip zip_with].
  rewrite reverse_cons. unfold revert_transactions. rewrite foldr_app. apply wp_steps.
  eapply wp_mono; [apply Hrev2| |done]. intros _ [x3 bl4] Hx. simpl in Hx. subst x3.
  cbn [foldr]. apply wp_bind, wp_with_new_tx_log.
  eapply wp_mono; [apply Hrev1| |done]. intros _ s2 [Hs _] lg2. by apply wp_ret.
Qed.

Definition sum_paid_out (l : list (Inherent.t * OperationReceipt (option AccountReceipt))) : Z :=
  foldr (fun p n => paid_out p.1 p.2 + n) 0 l.
Definition sum_minted (inherents : list Inherent.t) : Z :=
  foldr (fun i n => minted i + n) 0 inherents.

Lemma sum_minted_nonneg bn inherents : Forall (inherent_ok bn) inherents -> 0 <= sum_minted inherents.
Proof.
  induction 1 as [|i l Hi _ IH]; simpl; [lia|]. pose proof (minted_nonneg _ _ Hi). lia.
Qed.

Lemma wp_commit_inherents inherents bs x bl :
  tree_ok (bs_number bs) x -> Forall (inherent_ok (bs_number bs)) inherents ->
  total x + sum_minted inherents <= MAX_SAFE_VALUE ->
  wp (commit_inherents inherents bs)
    (fun receipts s => tree_ok (bs_number bs) s.1 /\
       total s.1 = total x + sum_paid_out (zip inherents receipts) /\
       length receipts = length inherents /\
       forall bl2, wp (revert_inherents (reverse (zip inherents receipts)))
                      (fun _ s2 => s2.1 = x) (fun _ _ => False) (s.1, bl2))
    (fun _ _ => False) (x, bl).
Proof.
  revert x bl. induction inherents as [|i inherents IH]; intros x bl Hok Hi Hmax.
  { apply wp_ret. split_and!; [done|simpl; lia|done|]. intros bl2. by apply wp_ret. }
  apply Forall_cons in Hi as [Hi His]. simpl in Hmax. pose proof (minted_nonneg _ _ Hi).
  pose proof (sum_minted_nonneg _ _ His).
  cbn [commit_inherents]. apply wp_bind, wp_with_inherent_logger.
  eapply wp_mono; [apply wp_commit_inherent; [done|done|lia]| |done].
  intros receipt [x1 lg1] (Hok1 & Ht1 & Hrev1). simpl in *.
  assert (paid_out i receipt <= minted i) by (destruct receipt; simpl; lia).
  apply wp_bind. eapply wp_mono; [apply IH; [done|done|lia]| |done].
  intros receipts [x2 bl2] (Hok2 & Ht2 & Hl & Hrev2). simpl in *. apply wp_ret.
  split_and!; [done|simpl; lia|simpl; by rewrite Hl|]. intros bl3. cbn [zip zip_with].
  rewrite reverse_cons. unfold revert_inherents. rewrite foldr_app. apply wp_steps.
  eapply wp_mono; [apply Hrev2| |done]. intros _ [x3 bl4] Hx. simpl in Hx. subst x3.
  cbn [foldr]. apply wp_bind, wp_with_inherent_logger.
  eapply wp_mono; [apply Hrev1| |done]. intros u s2 Hs. by apply wp_ret.
Qed.
Lemma sum_fees_nonneg txs : Forall tx_verified txs -> 0 <= sum_fees txs.
Proof. induction 1 as [|tx l Hv _ IH]; simpl; [lia|]. pose proof (ver_fee _ Hv). lia. Qed.

Lemma revert_batch_eq txs inherents receipts :
  length (rc_inherents receipts) = length inherents ->
  length (rc_transactions receipts) = length txs ->
  revert_batch txs inherents receipts =
    (assert_that true;; revert_inherents (reverse (zip inherents (rc_inherents receipts)));;
     assert_that true;; revert_transactions (reverse (zip txs (rc_transactions receipts)))).
Proof.
  intros Hi Ht. unfold revert_batch. rewrite Hi, Ht, !Nat.eqb_refl.
  assert (Heq1 : forall l, foldr (fun '(inherent, receipt) (k : BM unit) =>
      with_inherent_logger inherent (revert_inherent inherent receipt);; k) (mret tt) l
      = revert_inherents l) by (induction l as [|[??] l IH]; simpl; by rewrite ?IH).
  assert (Heq2 : forall l, foldr (fun '(transaction, receipt) (k : BM unit) =>
      with_new_tx_log transaction (revert_transaction transaction receipt);; k) (mret tt) l
      = revert_transactions l) by (induction l as [|[??] l IH]; simpl; by rewrite ?IH).
  by rewrite Heq1, Heq2.
Qed.

(** A committed block: the invariant holds, the supply changes by the fees and
    the rewards, and reverting the block restores the tree. *)
Definition committed_batch (txs : list Transaction) (inherents : list Inherent.t) (bs : BlockState)
    (x : AccountsTree) (receipts : Receipts) (s : AccountsTree * BlockLogger) : Prop :=
  tree_ok (bs_number bs) s.1 /\
  total s.1 = total x - sum_fees txs + sum_paid_out (zip inherents (rc_inherents receipts)) /\
  forall bl, wp (revert_batch txs inherents receipts)
               (fun _ s2 => s2.1 = x) (fun _ _ => False) (s.1, bl).

Lemma wp_commit_batch txs inherents bs x bl :
  tree_ok (bs_number bs) x -> batch_verified x txs ->
  Forall (inherent_ok (bs_number bs)) inherents -> total x + sum_minted inherents <= MAX_SAFE_VALUE ->
  wp (commit_batch txs inherents bs) (committed_batch txs inherents bs x)
    (fun e _ => exists e' tx, e = InvalidTransaction e' tx) (x, bl).
Proof.
  intros Hok Hv Hi Hmax. pose proof (sum_fees_nonneg _ (batch_txs _ _ Hv)).
  unfold commit_batch. apply wp_bind. eapply wp_mono; [by apply wp_commit_transactions| |].
  2: { intros e s He. exact He. }
  intros receipts_t [x1 bl1] (Hok1 & Ht1 & Hl1 & Hrev1). simpl in *.
  apply wp_bind. eapply wp_mono; [apply wp_commit_inherents; [done|done|lia]| |done].
  intros receipts_i [x2 bl2] (Hok2 & Ht2 & Hl2 & Hrev2). simpl in *. apply wp_ret.
  split_and!; [done|simpl; lia|]. intros bl3. rewrite revert_batch_eq by done.
  cbn [rc_inherents rc_transactions fst].
  apply wp_bind, wp_assert; [done|]. apply wp_bind. eapply wp_mono; [apply Hrev2| |done].
  intros u [x3 bl4] Hx. simpl in Hx. subst x3.
  apply wp_bind, wp_assert; [done|]. apply Hrev1.
Qed.
End AccountProofs.
