(* ===== verification/TxContent.v ===== *)
(** * The signed content of a transaction

    [SerializeContent for Transaction] and [contract_creation_address] of
    [primitives/transaction/src/lib.rs], and the network ids of
    [primitives/src/networks.rs].  The content is what the sender signs; its
    [Blake2b] hash is the transaction hash and, for a contract creation, the
    address of the new contract. *)

From S2P Require Import Prelude Coin AccountTypes Codec.

(** ** Network ids *)

Module NetworkId.
Inductive t :=
  | Test | Dev | Bounty | Dummy | Main
  | TestAlbatross | DevAlbatross | UnitAlbatross | MainAlbatross.

(** The discriminants of the [repr(u8)] enum. *)
Definition to_u8 (n : t) : Z :=
  match n with
  | Test => 1 | Dev => 2 | Bounty => 3 | Dummy => 4 | Main => 42
  | TestAlbatross => 5 | DevAlbatross => 6 | UnitAlbatross => 7 | MainAlbatross => 24
  end.

Definition try_from (value : Z) : option t :=
  if value =? 1 then Some Test
  else if value =? 2 then Some Dev
  else if value =? 3 then Some Bounty
  else if value =? 4 then Some Dummy
  else if value =? 42 then Some Main
  else if value =? 5 then Some TestAlbatross
  else if value =? 6 then Some DevAlbatross
  else if value =? 7 then Some UnitAlbatross
  else if value =? 24 then Some MainAlbatross
  else None.

Definition is_albatross (n : t) : bool :=
  match n with
  | TestAlbatross | DevAlbatross | UnitAlbatross | MainAlbatross => true
  | _ => false
  end.

Lemma try_from_to_u8 n : try_from (to_u8 n) = Some n.
Proof. by destruct n. Qed.
End NetworkId.

(** A transaction keeps the discriminant of its network id. *)
Definition is_albatross (tx : Transaction) : bool :=
  match NetworkId.try_from (tx_network_id tx) with
  | Some n => NetworkId.is_albatross n
  | None => false
  end.

(** ** Serialization *)

(** The discriminants of [AccountType]. *)
Definition account_type_u8 (ty : AccountType.t) : Z :=
  match ty with
  | AccountType.Basic => 0
  | AccountType.Vesting => 1
  | AccountType.HTLC => 2
  | AccountType.Staking => 3
  end.
Definition account_type_of_u8 (b : Z) : option AccountType.t :=
  if b =? 0 then Some AccountType.Basic
  else if b =? 1 then Some AccountType.Vesting
  else if b =? 2 then Some AccountType.HTLC
  else if b =? 3 then Some AccountType.Staking
  else None.
Lemma account_type_of_to ty : account_type_of_u8 (account_type_u8 ty) = Some ty.
Proof. by destruct ty. Qed.

Definition account_type_codec : codec AccountType.t :=
  via_codec account_type_u8 account_type_of_u8 u8_codec account_type_of_to.

(** A byte string behind its length. *)
Program Definition vec_codec (len : codec Z) : codec (list Z) := {|
  cenc l := cenc len (Z.of_nat (length l)) ++ l;
  cdec bs := '(n, bs) ← cdec len bs; take_bytes (Z.to_nat n) bs;
  cvalid l := cvalid len (Z.of_nat (length l));
|}.
Next Obligation.
  intros len l rest Hv. simpl in *. rewrite <-app_assoc, cdec_enc by done. simpl.
  by apply take_bytes_app; lia.
Qed.

(** The serialization of a [usize], the length prefix of byte vectors, and the
    [Blake2b] digest are third-party code. *)
Class ContentEnv := {
  usize_codec : codec Z;
  usize_valid : forall n, 0 <= n < 2 ^ 64 -> cvalid usize_codec n;
  blake2b : list Z -> list Z;
}.

Section Content.
Context `{CEnv : ContentEnv}.

Definition serialize_content (tx : Transaction) : list Z :=
  be_bytes 2 (wrap 16 (Z.of_nat (length (tx_recipient_data tx)))) ++
  tx_recipient_data tx ++
  cenc address_codec (tx_sender tx) ++
  cenc account_type_codec (tx_sender_type tx) ++
  cenc address_codec (tx_recipient tx) ++
  cenc account_type_codec (tx_recipient_type tx) ++
  cenc coin_codec (tx_value tx) ++
  cenc coin_codec (tx_fee tx) ++
  be_bytes 4 (tx_validity_start_height tx) ++
  cenc u8_codec (tx_network_id tx) ++
  cenc u8_codec (tx_flags tx) ++
  (if is_albatross tx then cenc (vec_codec usize_codec) (tx_sender_data tx) else []).

(** [Address::from(Blake2bHash)]: the first 20 bytes. *)
Definition address_of_hash (hash : list Z) : Z := be_value (take 20 hash).

Definition with_recipient (recipient : Z) (tx : Transaction) : Transaction :=
  mk_transaction (tx_sender tx) (tx_sender_type tx) (tx_sender_data tx) recipient
    (tx_recipient_type tx) (tx_recipient_data tx) (tx_value tx) (tx_fee tx)
    (tx_validity_start_height tx) (tx_network_id tx) (tx_flags tx) (tx_proof tx) (tx_valid tx).

Definition contract_creation_address (tx : Transaction) : Z :=
  address_of_hash (blake2b (serialize_content (with_recipient 0 tx))).

(** [Transaction::new_contract_creation]. *)
Definition new_contract_creation (sender : Z) (sender_type : AccountType.t)
    (sender_data : list Z) (recipient_type : AccountType.t) (recipient_data : list Z)
    (value fee validity_start_height network_id : Z) : Transaction :=
  let tx := mk_transaction sender sender_type sender_data 0 recipient_type recipient_data value
              fee validity_start_height network_id CONTRACT_CREATION [] false in
  with_recipient (contract_creation_address tx) tx.

(** The types of the fields: what deserialization guarantees. *)
Record tx_typed (tx : Transaction) : Prop := {
  typed_sender : 0 <= tx_sender tx < 256 ^ 20;
  typed_recipient : 0 <= tx_recipient tx < 256 ^ 20;
  typed_recipient_data : Z.of_nat (length (tx_recipient_data tx)) < 2 ^ 16;
  typed_sender_data : Z.of_nat (length (tx_sender_data tx)) < 2 ^ 64;
  typed_value : coin_ok (tx_value tx);
  typed_fee : coin_ok (tx_fee tx);
  typed_height : 0 <= tx_validity_start_height tx < 2 ^ 32;
  typed_network : is_Some (NetworkId.try_from (tx_network_id tx));
  typed_flags : 0 <= tx_flags tx < 256;
}.

(** The fields of the content, in its order. *)
Definition fields : Type :=
  list Z * (Z * (AccountType.t * (Z * (AccountType.t * (Z * (Z * (Z * (Z * Z)))))))).
Definition tx_fields (tx : Transaction) : fields :=
  (tx_recipient_data tx, (tx_sender tx, (tx_sender_type tx, (tx_recipient tx,
    (tx_recipient_type tx, (tx_value tx, (tx_fee tx, (tx_validity_start_height tx,
      (tx_network_id tx, tx_flags tx))))))))).
Definition fields_codec : codec fields :=
  pair_codec (vec_codec (be_codec 2)) (pair_codec address_codec (pair_codec account_type_codec
    (pair_codec address_codec (pair_codec account_type_codec (pair_codec coin_codec
      (pair_codec coin_codec (pair_codec (be_codec 4) (pair_codec u8_codec u8_codec)))))))).

Lemma network_u8 n : is_Some (NetworkId.try_from n) -> 0 <= n < 256.
Proof.
  unfold NetworkId.try_from. repeat (case_match; [lia|]). by intros [].
Qed.

Lemma fields_valid tx : tx_typed tx -> cvalid fields_codec (tx_fields tx).
Proof.
  intros [Hs Hr Hrd _ Hv Hf Hh Hn Hfl]. pose proof (network_u8 _ Hn).
  cbn -[Z.pow]. rewrite Z.pow_1_r. change (256 ^ Z.of_nat 2) with (2 ^ 16).
  change (256 ^ Z.of_nat 4) with (2 ^ 32).
  split_and!; try done; try lia; by destruct tx as [? [] ? ? []].
Qed.

(** The content is the serialization of its fields. *)
Lemma serialize_content_fields tx :
  tx_typed tx ->
  serialize_content tx = cenc fields_codec (tx_fields tx) ++
    (if is_albatross tx then cenc (vec_codec usize_codec) (tx_sender_data tx) else []).
Proof.
  intros Ht. unfold serialize_content. cbn [fields_codec pair_codec vec_codec cenc tx_fields fst snd].
  unfold wrap. rewrite Z.mod_small by (pose proof (typed_recipient_data _ Ht); lia).
  by rewrite <-!app_assoc.
Qed.

(** The signed fields of a transaction: all of [PartialEq for Transaction]. *)
Definition same_content (tx1 tx2 : Transaction) : Prop :=
  tx_fields tx1 = tx_fields tx2 /\
  (is_albatross tx1 = true -> tx_sender_data tx1 = tx_sender_data tx2).

Lemma serialize_content_inj tx1 tx2 :
  tx_typed tx1 -> tx_typed tx2 -> serialize_content tx1 = serialize_content tx2 ->
  same_content tx1 tx2.
Proof.
  intros Ht1 Ht2. rewrite !serialize_content_fields by done. intros He.
  apply (f_equal (cdec fields_codec)) in He. rewrite !cdec_enc in He by by apply fields_valid.
  apply (inj Some), pair_equal_spec in He as [Hf Hrest]. split; [done|]. intros Ha.
  assert (Hn : is_albatross tx2 = true).
  { rewrite <-Ha. unfold is_albatross. do 8 apply (f_equal snd) in Hf. by injection Hf as -> _. }
  rewrite Ha, Hn in Hrest. apply (f_equal (fun l => cdec (vec_codec usize_codec) (l ++ []))) in Hrest.
  rewrite !cdec_enc in Hrest; [by injection Hrest| |];
    apply usize_valid; [pose proof (typed_sender_data _ Ht2)|pose proof (typed_sender_data _ Ht1)]; lia.
Qed.
End Content.
