(* ===== verification/TxVerify.v ===== *)
(** * Verification of transactions

    [Transaction::verify] of [primitives/transaction/src/lib.rs] and the
    verifiers of the four account types in [primitives/transaction/src/account]:
    the checks a transaction passes before it may be put into a block.  The
    verifiers assert the account type of the transaction they are dispatched
    on, which holds by the dispatch. *)

From S2P Require Import Prelude Coin Policy AccountTypes StakingTypes Codec VestingContract.
From S2P Require Import HtlcContract TxContent.

#[global] Instance parsed_bind_instance : MBind parsed := fun A B k p => parsed_bind p k.
#[global] Instance parsed_ret_instance : MRet parsed := fun A => inl.

Definition ensure (b : bool) (e : TransactionError.t) : parsed unit :=
  if b then inl tt else inr e.

Definition MAX_BASIC_TX_RECIPIENT_DATA_SIZE : nat := 64.
Definition WARM_KEY_SIGNALING : Z := 2.

(** ** Creation data of the Proof-of-Work chain *)

Definition u32_codec : codec Z := be_codec 4.

Definition pow_data4_codec : codec (Z * Z) := pair_codec address_codec u32_codec.
Definition pow_data16_codec : codec (Z * (Z * (Z * Z))) :=
  pair_codec address_codec (pair_codec u32_codec (pair_codec u32_codec coin_codec)).
Definition pow_data24_codec : codec (Z * (Z * (Z * (Z * Z)))) :=
  pair_codec address_codec
    (pair_codec u32_codec (pair_codec u32_codec (pair_codec coin_codec coin_codec))).

(** [PoWCreationTransactionData] of the vesting contract, with the block numbers
    in the fields of the timestamps. *)
Definition pow_vesting_parse (tx : Transaction) : parsed VestingContract.CreationTransactionData :=
  let data := tx_recipient_data tx in
  let n := length data in
  if (n =? 24)%nat then
    '(owner, step_blocks) ← or_invalid_serialization (deserialize_all pow_data4_codec data);
    mret (mk_creation_data owner 1 step_blocks (tx_value tx) (tx_value tx))
  else if (n =? 36)%nat then
    '(owner, (start_block, (step_blocks, step_amount))) ←
      or_invalid_serialization (deserialize_all pow_data16_codec data);
    mret (mk_creation_data owner start_block step_blocks step_amount (tx_value tx))
  else if (n =? 44)%nat then
    '(owner, (start_block, (step_blocks, (step_amount, total_amount)))) ←
      or_invalid_serialization (deserialize_all pow_data24_codec data);
    mret (mk_creation_data owner start_block step_blocks step_amount total_amount)
  else invalid_data.

(** [PoWCreationTransactionData] of the HTLC, with the block number in the field
    of the timeout. *)
Definition pow_htlc_codec : codec HtlcContract.CreationTransactionData :=
  via_codec creation_tuple (fun p => Some (creation_of_tuple p))
    (pair_codec address_codec (pair_codec address_codec
      (pair_codec any_hash_codec (pair_codec u8_codec u32_codec)))) creation_tuple_inv.
Definition pow_htlc_parse (tx : Transaction) : parsed HtlcContract.CreationTransactionData :=
  or_invalid_serialization (deserialize_all pow_htlc_codec (tx_recipient_data tx)).

Inductive PoWOutgoingHTLCTransactionProof (PoWSignatureProof : Type) :=
  | DummyZero
  | PoWRegularTransfer (hash_depth : Z) (hash_root : AnyHash) (pre_image : PreImage)
      (signature_proof : PoWSignatureProof)
  | PoWEarlyResolve (signature_proof_recipient signature_proof_sender : PoWSignatureProof)
  | PoWTimeoutResolve (signature_proof_sender : PoWSignatureProof).
Arguments DummyZero {_}.
Arguments PoWRegularTransfer {_}.
Arguments PoWEarlyResolve {_}.
Arguments PoWTimeoutResolve {_}.

(** The coin fields of the parsed data of a staking transaction are coins. *)
Definition incoming_coins {T} (data : Incoming.t T) : Prop :=
  match data with
  | Incoming.SetActiveStake c _ | Incoming.RetireStake c _ => coin_ok c
  | _ => True
  end.

(** Signatures, hashes and the formats that contain them. *)
Class VerifyEnv `{HEnv : HtlcEnv} `{CEnv : ContentEnv} := {
  sha256 : list Z -> list Z;
  sha512 : list Z -> list Z;
  (** [SignatureProof::verify] and [is_default_public_key]. *)
  proof_verify : SignatureProof -> list Z -> bool;
  is_default_public_key : SignatureProof -> bool;
  (** Proofs of the Proof-of-Work chain. *)
  PoWSignatureProof : Type;
  parse_pow_signature_proof : list Z -> option PoWSignatureProof;
  parse_pow_htlc_proof : list Z -> option (PoWOutgoingHTLCTransactionProof PoWSignatureProof);
  pow_proof_verify : PoWSignatureProof -> list Z -> bool;
  into_pos : PoWSignatureProof -> SignatureProof;
  (** The [BLS] proof of knowledge: both points decompress and the pairing holds. *)
  bls_proof_of_knowledge : Z -> Z -> bool;
  (** [IncomingStakingTransactionData::set_signature_on_data] with the default
      signature proof. *)
  set_default_signature : list Z -> option (list Z);
  parse_incoming_coins : forall tx data, parse_incoming tx = Some data -> incoming_coins data;
}.

Section Verify.
Context `{P : Policy} `{VEnv : VerifyEnv}.

Definition with_recipient_data (data : list Z) (tx : Transaction) : Transaction :=
  mk_transaction (tx_sender tx) (tx_sender_type tx) (tx_sender_data tx) (tx_recipient tx)
    (tx_recipient_type tx) data (tx_value tx) (tx_fee tx)
    (tx_validity_start_height tx) (tx_network_id tx) (tx_flags tx) (tx_proof tx) (tx_valid tx).

(** ** Basic accounts *)

Definition basic_verify_incoming (tx : Transaction) : parsed unit :=
  ensure (negb (tx_value tx =? 0)) TransactionError.ZeroValue;;
  ensure (length (tx_recipient_data tx) <=? MAX_BASIC_TX_RECIPIENT_DATA_SIZE)%nat
    TransactionError.Overflow;;
  ensure (negb (flags_contain (tx_flags tx) CONTRACT_CREATION
                || flags_contain (tx_flags tx) SIGNALING)) TransactionError.InvalidForRecipient.

(** The signature proof of a transaction, by network. *)
Definition parse_proof (tx : Transaction) : parsed SignatureProof :=
  if is_albatross tx then or_invalid_serialization (parse_signature_proof (tx_proof tx))
  else
    p ← or_invalid_serialization (parse_pow_signature_proof (tx_proof tx));
    mret (into_pos p).

Definition is_nil {A} (l : list A) : bool := match l with [] => true | _ => false end.

Definition basic_verify_outgoing (tx : Transaction) : parsed unit :=
  ensure (is_nil (tx_sender_data tx)) TransactionError.Overflow;;
  signature_proof ← parse_proof tx;
  ensure (is_signed_by signature_proof (tx_sender tx)
          && proof_verify signature_proof (serialize_content tx)) TransactionError.InvalidProof.

(** ** Vesting contracts *)

(** The checks of a contract creation, for vesting contracts and HTLCs. *)
Definition verify_contract_creation (tx : Transaction) : parsed unit :=
  ensure (flags_contain (tx_flags tx) CONTRACT_CREATION) TransactionError.InvalidForRecipient;;
  ensure (negb (flags_contain (tx_flags tx) SIGNALING)) TransactionError.InvalidForRecipient;;
  ensure (tx_recipient tx =? contract_creation_address tx) TransactionError.InvalidForRecipient.

Definition vesting_verify_incoming (tx : Transaction) : parsed unit :=
  verify_contract_creation tx;;
  if is_albatross tx then _ ← VestingContract.parse tx; mret tt
  else _ ← pow_vesting_parse tx; mret tt.

Definition vesting_verify_outgoing (tx : Transaction) : parsed unit :=
  ensure (is_nil (tx_sender_data tx)) TransactionError.Overflow;;
  signature_proof ← parse_proof tx;
  ensure (proof_verify signature_proof (serialize_content tx)) TransactionError.InvalidProof.

(** ** Hashed time-locked contracts *)

Definition htlc_verify_incoming (tx : Transaction) : parsed unit :=
  verify_contract_creation tx;;
  let n := length (tx_recipient_data tx) in
  if is_albatross tx then
    ensure ((n =? 82)%nat || (n =? 114)%nat) TransactionError.InvalidData;;
    data ← HtlcContract.parse tx;
    verify_creation data
  else
    ensure ((n =? 78)%nat || (n =? 110)%nat) TransactionError.InvalidData;;
    data ← pow_htlc_parse tx;
    verify_creation data.

Definition any_hash_bytes (h : AnyHash) : list Z :=
  match h with Blake2b h | Sha256 h | Sha512 h => h end.
Definition pre_image_bytes (p : PreImage) : list Z :=
  match p with PreImage32 h | PreImage64 h => h end.

(** One round of the hash chain: the hash function of the root, and the variant
    of the digest. *)
Definition hash_step (hash_root : AnyHash) (tmp_hash : PreImage) : PreImage :=
  match hash_root with
  | Blake2b _ => PreImage32 (blake2b (pre_image_bytes tmp_hash))
  | Sha256 _ => PreImage32 (sha256 (pre_image_bytes tmp_hash))
  | Sha512 _ => PreImage64 (sha512 (pre_image_bytes tmp_hash))
  end.
Definition hash_chain (hash_depth : Z) (hash_root : AnyHash) (pre_image : PreImage) : PreImage :=
  Nat.iter (Z.to_nat hash_depth) (hash_step hash_root) pre_image.

(** [OutgoingHTLCTransactionProof::verify]. *)
Definition htlc_proof_verify (proof : OutgoingHTLCTransactionProof SignatureProof)
    (tx : Transaction) : parsed unit :=
  let tx_buf := serialize_content tx in
  match proof with
  | RegularTransfer hash_depth hash_root pre_image signature_proof =>
      ensure (bool_decide (any_hash_bytes hash_root =
                           pre_image_bytes (hash_chain hash_depth hash_root pre_image)))
        TransactionError.InvalidProof;;
      ensure (proof_verify signature_proof tx_buf) TransactionError.InvalidProof
  | EarlyResolve signature_proof_recipient signature_proof_sender =>
      ensure (proof_verify signature_proof_recipient tx_buf
              && proof_verify signature_proof_sender tx_buf) TransactionError.InvalidProof
  | TimeoutResolve signature_proof_sender =>
      ensure (proof_verify signature_proof_sender tx_buf) TransactionError.InvalidProof
  end.

(** [PoWOutgoingHTLCTransactionProof::verify]. *)
Definition pow_htlc_proof_verify (proof : PoWOutgoingHTLCTransactionProof PoWSignatureProof)
    (tx : Transaction) : parsed unit :=
  let tx_buf := serialize_content tx in
  match proof with
  | DummyZero => inr TransactionError.InvalidProof
  | PoWRegularTransfer hash_depth hash_root pre_image signature_proof =>
      ensure (bool_decide (any_hash_bytes hash_root =
                           pre_image_bytes (hash_chain hash_depth hash_root pre_image)))
        TransactionError.InvalidProof;;
      ensure (pow_proof_verify signature_proof tx_buf) TransactionError.InvalidProof
  | PoWEarlyResolve signature_proof_recipient signature_proof_sender =>
      ensure (pow_proof_verify signature_proof_recipient tx_buf
              && pow_proof_verify signature_proof_sender tx_buf) TransactionError.InvalidProof
  | PoWTimeoutResolve signature_proof_sender =>
      ensure (pow_proof_verify signature_proof_sender tx_buf) TransactionError.InvalidProof
  end.

Definition htlc_verify_outgoing (tx : Transaction) : parsed unit :=
  ensure (is_nil (tx_sender_data tx)) TransactionError.Overflow;;
  if is_albatross tx then
    proof ← or_invalid_serialization (parse_htlc_proof (tx_proof tx));
    htlc_proof_verify proof tx
  else
    proof ← or_invalid_serialization (parse_pow_htlc_proof (tx_proof tx));
    pow_htlc_proof_verify proof tx.

(** ** The staking contract *)

Definition verify_transaction_signature (tx : Transaction) (sig_proof : SignatureProof)
  : parsed unit :=
  ensure (negb (is_default_public_key sig_proof)) TransactionError.InvalidProof;;
  data ← or_invalid_serialization (set_default_signature (tx_recipient_data tx));
  ensure (proof_verify sig_proof (serialize_content (with_recipient_data data tx)))
    TransactionError.InvalidProof.

Definition verify_proof_of_knowledge (voting_key proof_of_knowledge : Z) : parsed unit :=
  ensure (bls_proof_of_knowledge voting_key proof_of_knowledge) TransactionError.InvalidData.

Definition is_none {A} (o : option A) : bool := match o with None => true | Some _ => false end.

(** [IncomingStakingTransactionData::verify]. *)
Definition incoming_verify (data : Incoming.t SignatureProof) (tx : Transaction)
    (protocol_version : Z) : parsed unit :=
  match data with
  | Incoming.CreateValidator _ voting_key _ _ proof_of_knowledge proof =>
      ensure (tx_value tx =? VALIDATOR_DEPOSIT) TransactionError.InvalidValue;;
      verify_proof_of_knowledge voting_key proof_of_knowledge;;
      verify_transaction_signature tx proof
  | Incoming.UpdateValidator new_signing_key new_voting_key new_reward_address new_signal_data
      new_proof_of_knowledge proof =>
      ensure (negb (is_none new_signing_key && is_none new_voting_key
                    && is_none new_reward_address && is_none new_signal_data))
        TransactionError.InvalidData;;
      match new_voting_key, new_proof_of_knowledge with
      | Some key, Some pok => verify_proof_of_knowledge key pok
      | Some _, None | None, Some _ => inr TransactionError.InvalidData
      | None, None => mret tt
      end;;
      verify_transaction_signature tx proof
  | Incoming.DeactivateValidator _ proof | Incoming.ReactivateValidator _ proof
  | Incoming.RetireValidator proof => verify_transaction_signature tx proof
  | Incoming.CreateStaker _ proof =>
      ensure (negb (tx_value tx <? MINIMUM_STAKE)) TransactionError.InvalidValue;;
      verify_transaction_signature tx proof
  | Incoming.AddStake _ => ensure (negb (is_zero (tx_value tx))) TransactionError.ZeroValue
  | Incoming.UpdateStaker _ _ proof | Incoming.SetActiveStake _ proof =>
      verify_transaction_signature tx proof
  | Incoming.RetireStake retire_stake proof =>
      ensure (negb (is_zero retire_stake)) TransactionError.ZeroValue;;
      verify_transaction_signature tx proof
  | Incoming.SetSignalData _ _ proof =>
      ensure (negb (protocol_version <? WARM_KEY_SIGNALING)) TransactionError.InvalidForVersion;;
      verify_transaction_signature tx proof
  end.

Definition staking_verify_incoming (tx : Transaction) (protocol_version : Z) : parsed unit :=
  ensure (negb (flags_contain (tx_flags tx) CONTRACT_CREATION))
    TransactionError.InvalidForRecipient;;
  data ← or_invalid_serialization (parse_incoming tx);
  ensure (eqb (is_signaling data) (flags_contain (tx_flags tx) SIGNALING))
    TransactionError.InvalidForRecipient;;
  ensure (negb (is_signaling data && negb (is_zero (tx_value tx)))) TransactionError.InvalidValue;;
  incoming_verify data tx protocol_version.

Definition staking_verify_outgoing (tx : Transaction) : parsed unit :=
  _ ← or_invalid_serialization (parse_outgoing tx);
  proof ← or_invalid_serialization (parse_signature_proof (tx_proof tx));
  ensure (proof_verify proof (serialize_content tx)) TransactionError.InvalidProof.

(** ** Transactions *)

Definition verify_incoming_transaction (tx : Transaction) (protocol_version : Z) : parsed unit :=
  match tx_recipient_type tx with
  | AccountType.Basic => basic_verify_incoming tx
  | AccountType.Vesting => vesting_verify_incoming tx
  | AccountType.HTLC => htlc_verify_incoming tx
  | AccountType.Staking => staking_verify_incoming tx protocol_version
  end.

Definition verify_outgoing_transaction (tx : Transaction) : parsed unit :=
  match tx_sender_type tx with
  | AccountType.Basic => basic_verify_outgoing tx
  | AccountType.Vesting => vesting_verify_outgoing tx
  | AccountType.HTLC => htlc_verify_outgoing tx
  | AccountType.Staking => staking_verify_outgoing tx
  end.

Definition verify (tx : Transaction) (network_id protocol_version : Z) : parsed unit :=
  if tx_valid tx then mret tt
  else
    ensure (negb (tx_sender tx =? tx_recipient tx)) TransactionError.SenderEqualsRecipient;;
    ensure (tx_network_id tx =? network_id) TransactionError.ForeignNetwork;;
    (if flags_contain (tx_flags tx) SIGNALING then
       ensure (tx_value tx =? 0) TransactionError.InvalidForRecipient
     else ensure (negb (tx_value tx =? 0)) TransactionError.ZeroValue);;
    match coin_checked_add (tx_value tx) (tx_fee tx) with
    | Some coin => ensure (negb (TOTAL_SUPPLY <? coin)) TransactionError.Overflow
    | None => inr TransactionError.Overflow
    end;;
    verify_outgoing_transaction tx;;
    verify_incoming_transaction tx protocol_version.

(** [Transaction::verify_mut]: remember that the transaction is valid. *)
Definition verify_mut (tx : Transaction) (network_id protocol_version : Z)
  : parsed unit * Transaction :=
  match verify tx network_id protocol_version with
  | inl _ => (inl tt, mk_transaction (tx_sender tx) (tx_sender_type tx) (tx_sender_data tx)
                        (tx_recipient tx) (tx_recipient_type tx) (tx_recipient_data tx)
                        (tx_value tx) (tx_fee tx) (tx_validity_start_height tx)
                        (tx_network_id tx) (tx_flags tx) (tx_proof tx) true)
  | inr e => (inr e, tx)
  end.

(** ** What verification establishes *)

Lemma ensure_ok b e : ensure b e = inl tt -> b = true.
Proof. by destruct b. Qed.

Lemma parsed_bind_ok {A B} (p : parsed A) (k : A -> parsed B) b :
  p ≫= k = inl b -> exists a, p = inl a /\ k a = inl b.
Proof. destruct p as [a|e]; [by exists a|done]. Qed.

Lemma or_invalid_ok {A} (o : option A) a : or_invalid_serialization o = inl a -> o = Some a.
Proof. destruct o; by intros [= ->]. Qed.

Lemma verify_creation_data d u : verify_creation d = inl u -> hd_hash_count d <> 0.
Proof. unfold verify_creation. by destruct (Z.eqb_spec (hd_hash_count d) 0). Qed.
End Verify.

(** Take a successful verification apart. *)
Ltac inv_verify H :=
  lazymatch type of H with
  | _ ≫= _ = inl _ =>
      let a := fresh "a" in let H1 := fresh "Hv" in
      apply parsed_bind_ok in H as (a & H1 & H); inv_verify H1; inv_verify H
  | ensure _ _ = inl ?u => destruct u; apply ensure_ok in H
  | or_invalid_serialization _ = inl _ => apply or_invalid_ok in H
  | _ => idtac
  end.
