(* ===== verification/AccountsSpec.v ===== *)
(** * What transactions and blocks do to the accounts

    The theorems about verified transactions and blocks on the accounts tree:
    a transaction is atomic, conserves the coins and can be reverted; a block
    can be reverted; coins leave an account only with the signatures and under
    the conditions of its type. *)

From S2P Require Import Prelude Coin Policy BitSet AccountTypes PunishedSlots StakingTypes.
From S2P Require Import ValidatorOps StakerOps StakingContract StakingInv StakingProofs.
From S2P Require Import StakingSpec.
From S2P Require Import Codec BasicAccount VestingContract HtlcContract Account Accounts.
From S2P Require Import AccountsProofs.
From S2P Require Import ReservedBalance Reservations TxContent TxVerify.

Section Spec.
Context `{P : Policy} {HP : PolicyOk P} `{VEnv : VerifyEnv} {Rc : AccountReceipts}.

(** ** Verified transactions *)

(** A transaction that passed verification for [network_id] under the rules of
    [protocol_version]. *)
Record accepted (network_id protocol_version : Z) (tx : Transaction) : Prop := {
  acc_typed : tx_typed tx;
  acc_fresh : tx_valid tx = false;
  acc_verify : verify tx network_id protocol_version = inl tt;
}.

(** The checks of [verify] in one conjunction. *)
Lemma accepted_inv network_id protocol_version tx :
  accepted network_id protocol_version tx ->
  tx_sender tx <> tx_recipient tx /\ tx_network_id tx = network_id /\
  (if flags_contain (tx_flags tx) SIGNALING then tx_value tx = 0 else tx_value tx <> 0) /\
  tx_value tx + tx_fee tx <= TOTAL_SUPPLY /\
  verify_outgoing_transaction tx = inl tt /\
  verify_incoming_transaction tx protocol_version = inl tt.
Proof.
  intros [Ht Hf Hver]. unfold verify in Hver. rewrite Hf in Hver. inv_verify Hver.
  bool_to_prop. split_and!; [done|done| | |by destruct a1|done].
  - destruct (flags_contain _ _); inv_verify Hv1; by bool_to_prop.
  - rewrite coin_checked_add_spec in Hv2 by apply Ht.
    destruct (_ <=? MAX_SAFE_VALUE); [|done]. inv_verify Hv2. by bool_to_prop.
Qed.

Lemma staking_incoming_accepted protocol_version tx data :
  0 <= tx_value tx -> staking_verify_incoming tx protocol_version = inl tt ->
  parse_incoming tx = Some data -> incoming_verified tx data.
Proof.
  intros H0 Hv Hp. pose proof (parse_incoming_coins _ _ Hp) as Hc.
  unfold staking_verify_incoming in Hv. inv_verify Hv. simplify_eq. unfold incoming_verified.
  split_and!; [done| |].
  - intros Hs. rewrite Hs in Hv3. simpl in Hv3. unfold is_zero in Hv3. by bool_to_prop.
  - destruct a; try done; simpl in Hc; try (unfold coin_ok in Hc; lia).
    cbn [incoming_verify] in Hv. inv_verify Hv. by bool_to_prop.
Qed.

(** Verification establishes all that the handlers rely on. *)
Lemma accepted_verified network_id protocol_version tx :
  accepted network_id protocol_version tx -> tx_verified tx.
Proof.
  intros Ha. destruct (accepted_inv _ _ _ Ha) as (Hne & _ & Hval & Hsum & _ & Hin).
  destruct (acc_typed _ _ _ Ha) as [_ _ _ _ [Hv0 _] [Hf0 _] _ _ _].
  unfold verify_incoming_transaction in Hin.
  split; [done|done|unfold TOTAL_SUPPLY, MAX_SAFE_VALUE in *; lia|done|..].
  - intros Hty. assert (tx_value tx <> 0); [|lia].
    destruct (tx_recipient_type tx); [| | |done].
    + unfold basic_verify_incoming in Hin. inv_verify Hin. by bool_to_prop.
    + unfold vesting_verify_incoming, verify_contract_creation in Hin. inv_verify Hin. bool_to_prop.
      by destruct (flags_contain _ SIGNALING).
    + unfold htlc_verify_incoming, verify_contract_creation in Hin. inv_verify Hin. bool_to_prop.
      by destruct (flags_contain _ SIGNALING).
  - intros Hc. destruct (tx_recipient_type tx); [|by left|by right|].
    + unfold basic_verify_incoming in Hin. inv_verify Hin. bool_to_prop. congruence.
    + unfold staking_verify_incoming in Hin. inv_verify Hin. bool_to_prop. congruence.
  - intros Hty data Hp. rewrite Hty in Hin. by eapply staking_incoming_accepted.
Qed.

(** ** Who may spend *)

(** The proof of the transaction is a signature of its content by [address]. *)
Definition signed (tx : Transaction) (address : Z) : Prop :=
  exists proof, parse_signature_proof (tx_proof tx) = Some proof /\
    compute_signer proof = address /\ proof_verify proof (serialize_content tx) = true.

(** The hash chain and the signatures of an HTLC proof. *)
Definition proof_valid (tx : Transaction) (proof : OutgoingHTLCTransactionProof SignatureProof)
  : Prop :=
  match proof with
  | RegularTransfer hash_depth hash_root pre_image sg =>
      pre_image_bytes (hash_chain hash_depth hash_root pre_image) = any_hash_bytes hash_root /\
      proof_verify sg (serialize_content tx) = true
  | EarlyResolve recipient sender =>
      proof_verify recipient (serialize_content tx) = true /\
      proof_verify sender (serialize_content tx) = true
  | TimeoutResolve sender => proof_verify sender (serialize_content tx) = true
  end.

(** The conditions under which a transaction may take [amount] from an account. *)
Definition may_spend (acc : Account) (st : Store) (time : Z) (tx : Transaction) (amount : Z)
  : Prop :=
  match acc with
  | Basic _ => signed tx (tx_sender tx)
  | Vesting c => signed tx (vc_owner c) /\ min_cap c time <= vc_balance c - amount
  | HTLC c => exists proof, parse_htlc_proof (tx_proof tx) = Some proof /\
      redeemable c (ht_balance c - amount) time proof /\ proof_valid tx proof
  | Staking _ => exists signer, signed tx signer /\
      match parse_outgoing tx with
      | Some Outgoing.DeleteValidator => is_Some (validators st !! signer)
      | Some Outgoing.RemoveStake => is_Some (stakers st !! signer)
      | None => False
      end
  end.

Lemma wp_ok {S E A} (m : M S E A) Q QE s a s' : m s = (Ok a, s') -> wp m Q QE s -> Q a s'.
Proof. unfold wp. by intros ->. Qed.

Lemma safe_sub_or_inv {X} a b (s s' : X * list Log.t) c :
  safe_sub_or a b s = (Ok c, s') -> c = a - b /\ s' = s.
Proof.
  unfold safe_sub_or, safe_sub, coin_checked_sub, checked_sub, try_from.
  destruct (b <=? a); [|done]. simpl. destruct (_ <=? _); [|done]. simpl. by intros [= <- <-].
Qed.

Lemma htlc_proof_accepted tx proof :
  htlc_proof_verify proof tx = inl tt -> proof_valid tx proof.
Proof.
  destruct proof; simpl; intros Hv; inv_verify Hv; bool_to_prop; [|done..].
  by case_bool_decide.
Qed.

Lemma remove_stake_inv k value (s s' : St * list Log.t) r :
  remove_stake k value s = (Ok r, s') -> is_Some (stakers s.1.2 !! k).
Proof. unfold remove_stake. intros Hr. inv_ok Hr. apply expect_staker_inv in Hm as [Hm _]. eauto. Qed.

Lemma zoom_inv {B R} (wrap : B -> Account) b (m : AM B R) acc st lg r s' :
  zoom wrap b m ((acc, st), lg) = (Ok r, s') -> exists b' lg', m (b, lg) = (Ok r, (b', lg')).
Proof. unfold zoom. simpl. destruct (m (b, lg)) as [o [b' lg']]. intros [= -> _]. eauto. Qed.
Lemma zoom_staking_inv {R} sc (m : AM St R) acc st lg r s' :
  zoom_staking sc m ((acc, st), lg) = (Ok r, s') ->
  exists sc' st' lg', m ((sc, st), lg) = (Ok r, ((sc', st'), lg')).
Proof.
  unfold zoom_staking, St in *. simpl. destruct (m (sc, st, lg)) as [o [[sc' st'] lg']].
  intros [= -> _]. eauto.
Qed.
Lemma with_empty_logger_inv {X A} (m : AM X A) x lg a s' :
  with_empty_logger m (x, lg) = (Ok a, s') -> exists s2, m (x, []) = (Ok a, s2).
Proof. unfold with_empty_logger. simpl. destruct (m (x, [])) as [o s2]. intros [= -> _]. eauto. Qed.

Section Authorized.
Context (network_id protocol_version : Z) (tx : Transaction) (bs : BlockState).
Hypothesis Hacc : accepted network_id protocol_version tx.
Hypothesis Halb : is_albatross tx = true.

Lemma outgoing_verified : verify_outgoing_transaction tx = inl tt.
Proof. by destruct (accepted_inv _ _ _ Hacc) as (_ & _ & _ & _ & ? & _). Qed.

Lemma vesting_authorized c amount new_balance (s s' : VestingContract * list Log.t) u :
  tx_sender_type tx = AccountType.Vesting -> new_balance = vc_balance c - amount ->
  VestingContract.can_change_balance c tx new_balance bs s = (Ok u, s') ->
  may_spend (Vesting c) empty_store (bs_time bs) tx amount.
Proof.
  intros Hty -> Hrun. pose proof outgoing_verified as Hv.
  unfold verify_outgoing_transaction, vesting_verify_outgoing, parse_proof in Hv.
  rewrite Hty, Halb in Hv. inv_verify Hv.
  eapply (wp_ok _ (fun _ _ => _) (fun _ _ => True)); [exact Hrun|]. apply wp_can_change_vesting; [|done].
  intros Hcap (proof & Hp & Hs). simplify_eq. split; [|done]. by eexists.
Qed.

Lemma htlc_authorized c amount new_balance (s s' : HashedTimeLockedContract * list Log.t) u :
  tx_sender_type tx = AccountType.HTLC -> new_balance = ht_balance c - amount ->
  HtlcContract.can_change_balance c tx new_balance bs s = (Ok u, s') ->
  may_spend (HTLC c) empty_store (bs_time bs) tx amount.
Proof.
  intros Hty -> Hrun. pose proof outgoing_verified as Hv.
  unfold verify_outgoing_transaction, htlc_verify_outgoing in Hv.
  rewrite Hty, Halb in Hv. inv_verify Hv. apply htlc_proof_accepted in Hv. destruct s as [x lg].
  eapply (wp_ok _ (fun _ _ => _) (fun _ _ => True)); [exact Hrun|]. apply wp_can_change_htlc; [|done].
  intros proof Hp Hr. simplify_eq. by eexists.
Qed.

(** The signature on a transaction from the staking contract. *)
Lemma staking_authorized sc st amount proof :
  tx_sender_type tx = AccountType.Staking -> parse_signature_proof (tx_proof tx) = Some proof ->
  match parse_outgoing tx with
  | Some Outgoing.DeleteValidator => is_Some (validators st !! compute_signer proof)
  | Some Outgoing.RemoveStake => is_Some (stakers st !! compute_signer proof)
  | None => False
  end ->
  may_spend (Staking sc) st (bs_time bs) tx amount.
Proof.
  intros Hty Hp Hm. pose proof outgoing_verified as Hv.
  unfold verify_outgoing_transaction, staking_verify_outgoing in Hv.
  rewrite Hty in Hv. inv_verify Hv. simplify_eq. eexists. split; [|done]. by eexists.
Qed.

Lemma basic_authorized b st amount :
  tx_sender_type tx = AccountType.Basic -> may_spend (Basic b) st (bs_time bs) tx amount.
Proof.
  intros Hty. pose proof outgoing_verified as Hv.
  unfold verify_outgoing_transaction, basic_verify_outgoing, parse_proof in Hv.
  rewrite Hty, Halb in Hv. inv_verify Hv. unfold is_signed_by in Hv. bool_to_prop. by exists a.
Qed.

Lemma commit_outgoing_authorized acc st lg r s' :
  account_type acc = tx_sender_type tx ->
  Account.commit_outgoing_transaction tx bs ((acc, st), lg) = (Ok r, s') ->
  may_spend acc st (bs_time bs) tx (total_value tx).
Proof.
  intros Hty Hrun. destruct acc as [b|c|c|sc].
  - by apply basic_authorized.
  - apply zoom_inv in Hrun as (c' & lg' & Hrun).
    unfold VestingContract.commit_outgoing_transaction, get_state in Hrun.
    do 3 inv_ok Hrun. apply safe_sub_or_inv in Hm as [-> ->]. by eapply vesting_authorized.
  - apply zoom_inv in Hrun as (c' & lg' & Hrun).
    unfold HtlcContract.commit_outgoing_transaction, get_state, push_log in Hrun.
    do 5 inv_ok Hrun. apply safe_sub_or_inv in Hm as [-> ->]. by eapply htlc_authorized.
  - apply zoom_staking_inv in Hrun as (c' & st' & lg' & Hrun).
    unfold StakingContract.commit_outgoing_transaction, push_log in Hrun. do 4 inv_ok Hrun.
    eapply staking_authorized; [done|done|]. rewrite Hm. destruct a; inv_ok Hrun.
    + unfold delete_validator in Hm1. inv_ok Hm1. apply expect_validator_inv in Hm2 as [? _]. eauto.
    + apply expect_staker_inv in Hm1 as [? _]. eauto.
Qed.

Lemma commit_failed_authorized acc st lg r s' :
  account_type acc = tx_sender_type tx ->
  Account.commit_failed_transaction tx bs ((acc, st), lg) = (Ok r, s') ->
  may_spend acc st (bs_time bs) tx (tx_fee tx).
Proof.
  intros Hty Hrun. destruct acc as [b|c|c|sc].
  - by apply basic_authorized.
  - apply zoom_inv in Hrun as (c' & lg' & Hrun).
    unfold VestingContract.commit_failed_transaction, get_state in Hrun.
    do 3 inv_ok Hrun. apply safe_sub_or_inv in Hm as [-> ->]. by eapply vesting_authorized.
  - apply zoom_inv in Hrun as (c' & lg' & Hrun).
    unfold HtlcContract.commit_failed_transaction, get_state in Hrun.
    do 3 inv_ok Hrun. apply safe_sub_or_inv in Hm as [-> ->].
    apply with_empty_logger_inv in Hm0 as [s2 Hm0]. by eapply htlc_authorized.
  - apply zoom_staking_inv in Hrun as (c' & st' & lg' & Hrun).
    unfold StakingContract.commit_failed_transaction, push_log in Hrun. do 3 inv_ok Hrun.
    eapply staking_authorized; [done|done|]. rewrite Hm. destruct a; inv_ok Hrun.
    + apply expect_validator_inv in Hm1 as [? _]. eauto.
    + apply with_empty_logger_inv in Hm1 as [s2 Hm1]. by apply remove_stake_inv in Hm1.
Qed.

Lemma with_store_inv {R} a acc (m : AM (Account * Store) R) x lg r s' :
  with_store a acc m (x, lg) = (Ok r, s') ->
  exists s2, m ((acc, data_store x a), lg) = (Ok r.1, s2).
Proof.
  unfold with_store. simpl. destruct (m _) as [[r'|e|] [[acc' st'] lg']]; [|done..].
  intros [= <- _]. eauto.
Qed.

Lemma get_with_type_inv a ty x lg acc s' :
  get_with_type a ty (x, lg) = (Ok acc, s') ->
  acc = account_at x a /\ account_type acc = ty /\ s' = (x, lg).
Proof.
  unfold get_with_type, get_complete, get_state. intros Hr. do 3 inv_ok Hr. bool_to_prop.
  by apply bool_decide_eq_true_1 in Hm.
Qed.

Lemma try_commit_authorized x lg r s' :
  try_commit_transaction tx bs (x, lg) = (Ok r, s') ->
  may_spend (account_at x (tx_sender tx)) (data_store x (tx_sender tx)) (bs_time bs) tx
    (total_value tx).
Proof.
  unfold try_commit_transaction. intros Hr. do 2 inv_ok Hr.
  apply get_with_type_inv in Hm as (-> & Hty & ->). apply with_store_inv in Hm0 as [s2 Hrun].
  by eapply commit_outgoing_authorized.
Qed.

Lemma failed_authorized x lg r s' :
  commit_failed_transaction tx bs (x, lg) = (Ok r, s') ->
  may_spend (account_at x (tx_sender tx)) (data_store x (tx_sender tx)) (bs_time bs) tx (tx_fee tx).
Proof.
  unfold commit_failed_transaction. intros Hr. do 2 inv_ok Hr.
  apply get_with_type_inv in Hm as (-> & Hty & ->). apply with_store_inv in Hm0 as [s2 Hrun].
  by eapply commit_failed_authorized.
Qed.
End Authorized.

(** The coins a committed transaction takes from its sender. *)
Definition spent (tx : Transaction) (receipt : OperationReceipt TransactionReceipt) : Z :=
  match receipt with ReceiptOk _ => total_value tx | ReceiptErr _ _ => tx_fee tx end.

(** ** Theorems *)

(** C3: a transaction that passed verification is committed atomically on a
    proper tree: it never panics; if it is rejected the tree is unchanged; if it
    is committed, successfully or as a failed transaction that pays its fee, the
    invariant holds, the accounts together hold exactly the fee less, and
    reverting it with its receipt restores the tree. *)
Theorem transaction_atomic network_id protocol_version tx bs x :
  accepted network_id protocol_version tx -> tree_ok (bs_number bs) x -> target_free x tx ->
  match commit_transaction tx bs (x, []) with
  | (Ok receipt, (x', _)) =>
      tree_ok (bs_number bs) x' /\ total x' = total x - tx_fee tx /\
      forall lg, exists lg', revert_transaction tx receipt (x', lg) = (Ok tt, (x, lg'))
  | (Err _, (x', _)) => x' = x
  | (Panic, _) => False
  end.
Proof.
  intros Ha Hok Hfree. apply accepted_verified in Ha.
  pose proof (wp_commit_transaction tx bs x Hok Ha Hfree) as Hwp. unfold wp in Hwp.
  destruct (commit_transaction tx bs (x, [])) as [[receipt|e|] [x' lg']]; [|done..].
  destruct Hwp as (Hok' & Ht & _ & new_logs & _ & Hrev). split_and!; [done..|].
  intros lg. specialize (Hrev lg). unfold wp in Hrev. cbn [fst] in Hrev.
  destruct (revert_transaction tx receipt (x', lg)) as [[[]|e|] [y lg2]]; [|done..].
  destruct Hrev as [Hy _]. simpl in Hy. subst. by eexists.
Qed.

(** C6: committing the transactions and the reward and slashing inherents of a
    block on a proper tree never panics and fails only on an invalid transaction;
    otherwise the invariant holds, the accounts together change by the rewards
    paid minus the fees, and reverting the block restores the tree. *)
Theorem block_round_trip network_id protocol_version txs inherents bs x bl :
  Forall (accepted network_id protocol_version) txs -> Forall (target_free x) txs ->
  NoDup (tx_recipient <$>
         filter (fun tx => flags_contain (tx_flags tx) CONTRACT_CREATION = true) txs) ->
  Forall (inherent_ok (bs_number bs)) inherents ->
  tree_ok (bs_number bs) x -> total x + sum_minted inherents <= MAX_SAFE_VALUE ->
  match commit_batch txs inherents bs (x, bl) with
  | (Ok receipts, (x', _)) =>
      tree_ok (bs_number bs) x' /\
      total x' = total x - sum_fees txs + sum_paid_out (zip inherents (rc_inherents receipts)) /\
      forall bl2, exists bl', revert_batch txs inherents receipts (x', bl2) = (Ok tt, (x, bl'))
  | (Err e, _) => exists e' tx, e = InvalidTransaction e' tx
  | (Panic, _) => False
  end.
Proof.
  intros Ha Hfree Hnd Hi Hok Hmax.
  assert (Hb : batch_verified x txs).
  { split; [|done|done]. eapply Forall_impl; [exact Ha|]. intros tx. apply accepted_verified. }
  pose proof (wp_commit_batch txs inherents bs x bl Hok Hb Hi Hmax) as Hwp. unfold wp in Hwp.
  destruct (commit_batch txs inherents bs (x, bl)) as [[receipts|e|] [x' bl1]]; [|done..].
  destruct Hwp as (Hok' & Ht & Hrev). split_and!; [done..|].
  intros bl2. specialize (Hrev bl2). unfold wp in Hrev. cbn [fst] in Hrev.
  destruct (revert_batch txs inherents receipts (x', bl2)) as [[[]|e|] [y bl3]]; [|done..].
  simpl in Hrev. subst. by eexists.
Qed.

(** C12: a committed transaction was allowed to take what it takes from its
    sender (value and fee, or the fee of a failed transaction): from a basic
    account with the signature of the account; from a vesting contract with the
    signature of the owner and down to the locked balance; from an HTLC by the
    recipient before the timeout with a hash chain to the root and down to the
    remaining share, by both parties, or by the sender after the timeout; from
    the staking contract with the signature of the validator or the staker. *)
Theorem spending_authorized network_id protocol_version tx bs x receipt s' :
  accepted network_id protocol_version tx -> is_albatross tx = true ->
  tree_ok (bs_number bs) x -> target_free x tx ->
  commit_transaction tx bs (x, []) = (Ok receipt, s') ->
  may_spend (account_at x (tx_sender tx)) (data_store x (tx_sender tx)) (bs_time bs) tx
    (spent tx receipt).
Proof.
  intros Ha Halb Hok Hfree Hrun. pose proof (accepted_verified _ _ _ Ha) as Hv.
  pose proof (wp_try_commit tx bs x [] Hok Hv Hfree) as Hwp. unfold wp in Hwp.
  unfold commit_transaction, mbind, M_bind, catch in Hrun.
  destruct (try_commit_transaction tx bs (x, [])) as [[r|e|] [x1 lg1]] eqn:Htry; [| |done].
  - injection Hrun as <- _. by eapply try_commit_authorized.
  - simpl in Hwp. subst x1. unfold push_failed_log, push_log, clear_logs, modify in Hrun. simpl in Hrun.
    destruct (commit_failed_transaction tx bs _) as [[r|e2|] s2] eqn:Hf; [|done..].
    injection Hrun as <- _. by eapply failed_authorized.
Qed.
(** The content that is signed and hashed determines every field of a
    transaction but the proof, on the networks of this chain. *)
Theorem content_determines_transaction tx1 tx2 :
  tx_typed tx1 -> tx_typed tx2 -> is_albatross tx1 = true ->
  serialize_content tx1 = serialize_content tx2 ->
  tx1 = mk_transaction (tx_sender tx2) (tx_sender_type tx2) (tx_sender_data tx2)
          (tx_recipient tx2) (tx_recipient_type tx2) (tx_recipient_data tx2) (tx_value tx2)
          (tx_fee tx2) (tx_validity_start_height tx2) (tx_network_id tx2) (tx_flags tx2)
          (tx_proof tx1) (tx_valid tx1).
Proof.
  intros Ht1 Ht2 Ha Hc. destruct (serialize_content_inj _ _ Ht1 Ht2 Hc) as [Hf Hs].
  specialize (Hs Ha). destruct tx1, tx2. unfold tx_fields in Hf. simpl in *. by simplify_eq.
Qed.
End Spec.

(** ** Contracts *)

(** The balance a vesting contract locks is between zero and the total
    amount, never grows, is the total amount until the first step, and after [n]
    steps is the total amount without [n] step amounts. *)
Theorem vesting_schedule c :
  0 <= vc_total_amount c -> 0 < vc_time_step c -> 0 < vc_step_amount c ->
  (forall t, 0 <= min_cap c t <= vc_total_amount c) /\
  (forall t1 t2, t1 <= t2 -> min_cap c t2 <= min_cap c t1) /\
  (forall t, t < vc_start_time c + vc_time_step c -> min_cap c t = vc_total_amount c) /\
  (forall n r, 0 <= n -> 0 <= r < vc_time_step c ->
     min_cap c (vc_start_time c + n * vc_time_step c + r)
     = Z.max 0 (vc_total_amount c - n * vc_step_amount c)).
Proof.
  intros Ht Hs Ha. split_and!.
  - intros t. by apply min_cap_bounds.
  - intros t1 t2. by apply min_cap_antitone.
  - intros t Hlt. pose proof (min_cap_bounds c t Ht).
    pose proof (min_cap_antitone c t (vc_start_time c + 0 * vc_time_step c + (vc_time_step c - 1)) Ht
                  ltac:(lia)).
    rewrite min_cap_after_steps in * by lia. lia.
  - intros n r. by apply min_cap_after_steps.
Qed.

(** The creation data of a vesting contract parses back to what was printed
    whenever the total amount is at most the value sent, and equals it if the
    whole amount is released in one step. *)
Theorem vesting_data_round_trip d tx :
  creation_ok d -> tx_recipient_data tx = to_tx_data d -> cd_total_amount d <= tx_value tx ->
  (cd_step_amount d = cd_total_amount d -> cd_total_amount d = tx_value tx) ->
  VestingContract.parse tx = inl d.
Proof. intros Hd Ht Hv He. unfold VestingContract.parse. rewrite Ht. by apply parse_to_tx_data. Qed.

(** When the whole amount is released in one step and less than the value
    sent, the printed data loses the total amount: the parsed contract locks the
    whole value instead. *)
Theorem vesting_data_drops_total_amount :
  exists d value, creation_ok d /\ cd_total_amount d <= value /\
    VestingContract.parse_data (to_tx_data d) value <> inl d.
Proof.
  destruct to_tx_data_drops_total_amount as [Hok Hp]. eexists _, 8.
  split_and!; [exact Hok|done|]. by rewrite Hp.
Qed.

(** ** A concrete tree

    Small formats for signatures and HTLC proofs on top of those of the staking
    example, a toy hash function, and a tree with a basic account and an HTLC, at
    which the theorems are instantiated. *)

Module Example.
Import StakingSpec.Example.
#[local] Existing Instances MAINNET_POLICY receipts env.

Definition hash32 (bs : list Z) : list Z := be_bytes 32 (be_value bs + 1).

#[local] Instance content_env : ContentEnv := {|
  usize_codec := u64_codec;
  usize_valid n Hn := Hn;
  blake2b := hash32;
|}.

#[local] Instance htlc_env : HtlcEnv := {|
  parse_htlc_proof bs :=
    match bs with
    | [0; sender] => Some (TimeoutResolve sender)
    | [1; recipient; sender] => Some (EarlyResolve recipient sender)
    | [2; depth; root; pre_image; recipient] =>
        Some (RegularTransfer depth (Blake2b (be_bytes 32 root)) (PreImage32 (be_bytes 32 pre_image))
                recipient)
    | _ => None
    end : option (OutgoingHTLCTransactionProof SignatureProof);
|}.

Lemma coin_of_ok x c : coin_of x = Some c -> coin_ok c.
Proof. unfold coin_of. case_match; [|done]. bool_to_prop. by intros [= <-]. Qed.

Lemma incoming_coins_example tx data :
  parse_incoming tx = Some data -> incoming_coins data.
Proof.
  unfold parse_incoming, env. intros Hp. repeat case_match; simplify_eq/=; try done;
    apply fmap_Some in Hp as (c & Hc%coin_of_ok & ->); done.
Qed.

Definition toy_verify (p : Z) (_ : list Z) : bool := negb (p =? 0).

#[local] Instance verify_env : @VerifyEnv env htlc_env content_env := {|
  sha256 := hash32;
  sha512 bs := be_bytes 64 (be_value bs + 1);
  proof_verify := toy_verify;
  is_default_public_key := Z.eqb 0;
  PoWSignatureProof := Z;
  parse_pow_signature_proof bs := match bs with [p] => Some p | _ => None end;
  parse_pow_htlc_proof bs := match bs with [p] => Some (PoWTimeoutResolve p) | _ => None end;
  pow_proof_verify := toy_verify;
  into_pos p := p;
  bls_proof_of_knowledge _ _ := true;
  set_default_signature bs := Some bs;
  parse_incoming_coins := incoming_coins_example;
|}.

Definition hash_tag (h : AnyHash) : Z := match h with Blake2b _ => 1 | Sha256 _ => 3 | Sha512 _ => 4 end.
Definition hash_of_tag (tag : Z) (h : list Z) : AnyHash :=
  if tag =? 1 then Blake2b h else if tag =? 3 then Sha256 h else Sha512 h.

#[local] Instance account_receipts : AccountReceipts.
Proof.
  split; [exact receipts| |].
  - apply (receipt_via (fun r => (pv_owner r, pv_start_time r, pv_time_step r, pv_step_amount r,
             pv_total_amount r)) (fun p => mk_pruned_vesting p.1.1.1.1 p.1.1.1.2 p.1.1.2 p.1.2 p.2)).
    by intros [].
  - apply (receipt_via (fun r => (ph_sender r, ph_recipient r, hash_tag (ph_hash_root r),
             any_hash_bytes (ph_hash_root r), ph_hash_count r, ph_timeout r, ph_total_amount r))
             (fun p => mk_pruned_htlc p.1.1.1.1.1.1 p.1.1.1.1.1.2
                (hash_of_tag p.1.1.1.1.2 p.1.1.1.2) p.1.1.2 p.1.2 p.2)).
    by intros [? ? []].
Defined.

(** A basic account and an HTLC that pays account 2 before time 5000: four
    hashes unlock everything, each a quarter. *)
Definition htlc : HashedTimeLockedContract :=
  mk_htlc 1000 1 2 (Blake2b (be_bytes 32 44)) 4 5000 1000.
Definition accounts : AccountsTree :=
  mk_accounts (<[100 := Basic (mk_basic_account 50)]> (<[300 := HTLC htlc]> ∅)) ∅.
Definition block : BlockState := mk_block_state staked_at 4000 2.

(** Account 2 presents the pre-image of the root and takes a quarter. *)
Definition redeem : Transaction :=
  mk_transaction 300 AccountType.HTLC [] 200 AccountType.Basic [] 240 10 staked_at 24 0
    [2; 1; 44; 43; 2] false.

Lemma accounts_ok : tree_ok (bs_number block) accounts.
Proof.
  split.
  - intros a acc. simpl. rewrite !lookup_insert_Some, lookup_empty.
    intros [[<- <-]|[_ [[<- <-]|[_ ?]]]]; [..|done]; by split.
  - done.
  - vm_compute. done.
Qed.

Lemma redeem_accepted : accepted 24 2 redeem.
Proof. split; [split; vm_compute; try done; by eexists|done|vm_compute; done]. Qed.

Lemma redeem_free : target_free accounts redeem.
Proof. intros Hf. vm_compute in Hf. done. Qed.

Lemma transaction_atomic_witness :
  (commit_transaction redeem block (accounts, [])).1
    = Ok (ReceiptOk (mk_transaction_receipt None None None)) /\
  match commit_transaction redeem block (accounts, []) with
  | (Ok receipt, (x', _)) =>
      tree_ok (bs_number block) x' /\ total x' = total accounts - tx_fee redeem /\
      forall lg, exists lg', revert_transaction redeem receipt (x', lg) = (Ok tt, (accounts, lg'))
  | (Err _, (x', _)) => x' = accounts
  | (Panic, _) => False
  end.
Proof.
  split; [vm_compute; done|].
  apply (transaction_atomic 24 2 redeem block accounts).
  - apply redeem_accepted.
  - apply accounts_ok.
  - apply redeem_free.
Defined.

Lemma spending_authorized_witness :
  may_spend (HTLC htlc) empty_store 4000 redeem 250.
Proof.
  refine (spending_authorized 24 2 redeem block accounts
    (ReceiptOk (mk_transaction_receipt None None None))
    (commit_transaction redeem block (accounts, [])).2 redeem_accepted _ accounts_ok redeem_free _).
  - vm_compute. done.
  - vm_compute. done.
Defined.

Lemma content_determines_transaction_witness :
  with_recipient 200 redeem = redeem.
Proof.
  refine (content_determines_transaction (with_recipient 200 redeem) redeem
    (acc_typed _ _ _ redeem_accepted) (acc_typed _ _ _ redeem_accepted) _ _).
  - vm_compute. done.
  - vm_compute. done.
Defined.

Definition vesting : VestingContract := mk_vesting_contract 100 7 1000 60 25 100.
Lemma vesting_schedule_witness : min_cap vesting (1000 + 3 * 60 + 0) = 25.
Proof.
  destruct (vesting_schedule vesting) as (_ & _ & _ & Hn); [vm_compute; done..|].
  apply (Hn 3 0); vm_compute; done.
Defined.

Definition creation : VestingContract.CreationTransactionData := mk_creation_data 7 1000 60 25 100.
Definition create : Transaction :=
  new_contract_creation 100 AccountType.Basic [] AccountType.Vesting (to_tx_data creation) 100 0
    staked_at 24.
Lemma vesting_data_round_trip_witness : VestingContract.parse create = inl creation.
Proof.
  apply (vesting_data_round_trip creation create).
  - split; vm_compute; done.
  - vm_compute. done.
  - vm_compute. done.
  - vm_compute. done.
Defined.

Definition pay : Transaction :=
  mk_transaction 100 AccountType.Basic [] 200 AccountType.Basic [] 30 5 staked_at 24 0 [100] false.
Definition withdraw : Transaction := outgoing [1] 9 19999000 1000.
Lemma withdraw_reserved :
  (reserve_balance (Staking retired.1) retired.2 withdraw (at_block released_at)
     (ReservedBalance.new STAKING_CONTRACT_ADDRESS)).1 = Ok tt.
Proof. vm_compute. reflexivity. Qed.
Lemma withdraw_wf : WF (bs_number (at_block released_at)) (retired.1, retired.2).
Proof. rewrite <-surjective_pairing. apply reachable_wf. exact retired_reachable. Qed.
Lemma withdraw_balance : coin_ok (account_balance (Staking retired.1)).
Proof. vm_compute. done. Qed.
Lemma new_reserved : reserved_ok (ReservedBalance.new STAKING_CONTRACT_ADDRESS).
Proof. intros a. by split. Qed.
Lemma withdraw_coins : coin_ok (total_value withdraw).
Proof. vm_compute. done. Qed.
Lemma withdraw_fee : 0 <= tx_fee withdraw <= total_value withdraw.
Proof. vm_compute. done. Qed.
Lemma reservation_exact_witness :
  (exists new_logs, Account.commit_outgoing_transaction pay block
      ((Basic (mk_basic_account 50), empty_store), [])
    = (Ok None, ((Basic (mk_basic_account 15), empty_store), new_logs))) /\
  (exists r sc' st' new_logs, Account.commit_outgoing_transaction withdraw (at_block released_at)
      ((Staking retired.1, retired.2), []) = (Ok r, ((Staking sc', st'), new_logs)) /\
    sc_balance sc' = sc_balance retired.1 - 20000000).
Proof.
  split.
  - pose proof (reservation_exact (Basic (mk_basic_account 50)) empty_store pay block
                  (ReservedBalance.new 100) []) as Hr.
    destruct Hr as (_ & _ & new_logs & Hrun);
      [done|intros a; split; done|vm_compute; done|vm_compute; done|done|].
    exists new_logs. exact Hrun.
  - pose proof (reservation_exact (Staking retired.1) retired.2 withdraw (at_block released_at)
                  (ReservedBalance.new STAKING_CONTRACT_ADDRESS) [] withdraw_balance new_reserved
                  withdraw_coins withdraw_fee withdraw_wf) as Hs. cbv zeta in Hs.
    pose proof withdraw_reserved as Hg.
    destruct (reserve_balance (Staking retired.1) retired.2 withdraw (at_block released_at)
                (ReservedBalance.new STAKING_CONTRACT_ADDRESS)) as [o rb']. cbn [fst] in Hg. subst o.
    destruct Hs as (_ & _ & _ & _ & r & sc' & st' & new_logs & Hrun & Hb).
    exists r, sc', st', new_logs. split; [exact Hrun|exact Hb].
Defined.

Lemma block_round_trip_witness :
  match commit_batch [redeem] [Inherent.Reward 7 100 5] block (accounts, mk_block_logger [] []) with
  | (Ok receipts, (x', _)) =>
      tree_ok (bs_number block) x' /\
      total x' = total accounts - sum_fees [redeem] +
        sum_paid_out (zip [Inherent.Reward 7 100 5] (rc_inherents receipts)) /\
      forall bl2, exists bl', revert_batch [redeem] [Inherent.Reward 7 100 5] receipts (x', bl2)
                              = (Ok tt, (accounts, bl'))
  | (Err e, _) => exists e' tx, e = InvalidTransaction e' tx
  | (Panic, _) => False
  end.
Proof.
  apply (block_round_trip 24 2 [redeem] [Inherent.Reward 7 100 5] block accounts (mk_block_logger [] [])).
  - repeat constructor; apply redeem_accepted.
  - repeat constructor; apply redeem_free.
  - constructor.
  - repeat constructor.
  - apply accounts_ok.
  - vm_compute. done.
Defined.
End Example.
