(* ===== verification/Discrete.v ===== *)
(** * Sampling from a discrete distribution

    [vrf/src/discrete.rs] and [vrf/src/rng.rs]: the alias method that elects
    validators in proportion to their stake, and rejection sampling below a
    limit.  A stack is a list with its top first; [None] is a panic or a loop
    that ran out of fuel, and the theorems show results, so neither. *)

From S2P Require Import Prelude.

Record DiscreteDistribution := mk_dist {
  dd_T : Z;
  dd_n : nat;
  dd_K : list nat;
  dd_U : list Z;
}.

(** Put index [i] on the stack of underfull or of overfull entries. *)
Definition push_class (T : Z) (i : nat) (u : Z) (st : list nat * list nat) : list nat * list nat :=
  match u ?= T with
  | Eq => st
  | Gt => (st.1, i :: st.2)
  | Lt => (i :: st.1, st.2)
  end.

Definition classify (T : Z) (U : list Z) : list nat * list nat :=
  foldl (fun st i => push_class T i (U !!! i) st) ([], []) (seq 0 (length U)).

(** The [while let] loop; leaving it pops both stacks once more. *)
Fixpoint alias_loop (fuel : nat) (T : Z) (st : list nat * list nat) (K : list nat) (U : list Z)
  : option (list nat * list nat * list nat * list Z) :=
  match st with
  | (i_u :: under, i_o :: over) =>
      match fuel with
      | O => None
      | S fuel =>
          let u := wrap 64 (U !!! i_o + U !!! i_u - T) in
          alias_loop fuel T (push_class T i_o u (under, over)) (<[i_u := i_o]> K) (<[i_o := u]> U)
      end
  | (under, over) => Some (tail under, tail over, K, U)
  end.

Definition total_probability (p : list Z) : Z := foldl (fun T x => wrap 64 (T + x)) 0 p.
Definition scaled (p : list Z) : list Z :=
  (fun x => wrap 64 (x * wrap 64 (Z.of_nat (length p)))) <$> p.

(** [DiscreteDistribution::new]. *)
Definition new_distribution (p : list Z) : option DiscreteDistribution :=
  let n := length p in
  let T := total_probability p in
  if T =? 0 then None
  else
    match alias_loop n T (classify T (scaled p)) (seq 0 n) (scaled p) with
    | Some ([], [], K, U) => Some (mk_dist T n K U)
    | _ => None
    end.

(** The decision of [sample] for the two draws. *)
Definition sample_at (d : DiscreteDistribution) (x : nat) (y : Z) : nat :=
  if y <? dd_U d !!! x then x else dd_K d !!! x.

(** ** Random numbers *)

(** A source of 64-bit numbers. *)
Class Rng (R : Type) := next_u64 : R -> Z * R.

Definition next_power_of_two (x : Z) : Z := wrap 64 (2 ^ Z.log2_up x).

Fixpoint next_below_loop {R} `{Rng R} (fuel : nat) (bitmask limit : Z) (r : R) : option (Z * R) :=
  match fuel with
  | O => None
  | S fuel =>
      let '(x, r) := next_u64 r in
      let x := Z.land x bitmask in
      if x <? limit then Some (x, r) else next_below_loop fuel bitmask limit r
  end.

Definition next_u64_below {R} `{Rng R} (fuel : nat) (limit : Z) (r : R) : option (Z * R) :=
  if limit =? 0 then None
  else next_below_loop fuel (wrap 64 (next_power_of_two limit - 1)) limit r.

Definition sample {R} `{Rng R} (fuel : nat) (d : DiscreteDistribution) (r : R) : option (nat * R) :=
  '(x, r) ← next_u64_below fuel (Z.of_nat (dd_n d)) r;
  '(y, r) ← next_u64_below fuel (dd_T d) r;
  Some (sample_at d (Z.to_nat x) y, r).

(** ** Sums over indices *)

Definition sumn (f : nat -> Z) (l : list nat) : Z := foldr (fun x s => f x + s) 0 l.

Lemma sumn_ext f g l : (forall x, x ∈ l -> f x = g x) -> sumn f l = sumn g l.
Proof.
  induction l as [|x l IH]; intros H; simpl; [done|].
  rewrite (H x), IH; [done| |left]. intros y Hy. apply H. by right.
Qed.

Lemma sumn_add f g l : sumn (fun x => f x + g x) l = sumn f l + sumn g l.
Proof. induction l as [|x l IH]; simpl; [done|]. rewrite IH. lia. Qed.

Lemma sumn_app f l1 l2 : sumn f (l1 ++ l2) = sumn f l1 + sumn f l2.
Proof. induction l1 as [|x l IH]; simpl; [done|]. rewrite IH. lia. Qed.

Lemma sumn_perm f l1 l2 : l1 ≡ₚ l2 -> sumn f l1 = sumn f l2.
Proof. induction 1; simpl; lia. Qed.

(** Changing one term. *)
Lemma sumn_change f g l i :
  NoDup l -> i ∈ l -> (forall x, x ∈ l -> x <> i -> f x = g x) -> sumn f l = sumn g l + f i - g i.
Proof.
  intros Hnd Hi Hfg. apply list_elem_of_split in Hi as (l1 & l2 & ->).
  apply NoDup_app in Hnd as (_ & Hd & Hnd2). apply NoDup_cons in Hnd2 as [Hn2 _].
  rewrite !sumn_app. simpl. rewrite (sumn_ext f g l1), (sumn_ext f g l2); [lia| |].
  - intros x Hx. apply Hfg; [set_solver|]. by intros ->.
  - intros x Hx. apply Hfg; [set_solver|]. intros ->. apply (Hd i Hx). set_solver.
Qed.

(** A sum with one non-zero term. *)
Lemma sumn_single (f : nat -> Z) l i :
  NoDup l -> i ∈ l -> sumn (fun x => if decide (x = i) then f x else 0) l = f i.
Proof.
  intros Hnd Hi. rewrite (sumn_change _ (fun _ => 0) l i); [|done..|].
  - rewrite decide_True by done. assert (sumn (fun _ => 0) l = 0) by (clear; induction l; simpl; lia). lia.
  - intros x _ Hx. by rewrite decide_False.
Qed.

Lemma sumn_nonneg f l : (forall x, x ∈ l -> 0 <= f x) -> 0 <= sumn f l.
Proof.
  induction l as [|x l IH]; intros H; simpl; [lia|].
  pose proof (H x ltac:(set_solver)). specialize (IH ltac:(set_solver)). lia.
Qed.

Lemma sumn_fmap f (g : nat -> nat) l : sumn f (g <$> l) = sumn (fun x => f (g x)) l.
Proof. induction l as [|x l IH]; [done|]. exact (f_equal (Z.add (f (g x))) IH). Qed.

Lemma sumn_opp f l : sumn (fun x => - f x) l = - sumn f l.
Proof. induction l as [|x l IH]; simpl; [done|]. rewrite IH. lia. Qed.

Lemma push_class_in T' i u st x :
  (x ∈ (push_class T' i u st).1 <-> x ∈ st.1 \/ (x = i /\ u < T')) /\
  (x ∈ (push_class T' i u st).2 <-> x ∈ st.2 \/ (x = i /\ T' < u)).
Proof.
  unfold push_class. destruct st as [under over].
  destruct (Z.compare_spec u T'); simpl; rewrite ?elem_of_cons; intuition lia.
Qed.

Lemma push_class_nodup T' i u st :
  NoDup (st.1 ++ st.2) -> i ∉ st.1 -> i ∉ st.2 ->
  NoDup ((push_class T' i u st).1 ++ (push_class T' i u st).2).
Proof.
  intros Hnd H1 H2. unfold push_class. destruct st as [under over]. simpl in *.
  destruct (u ?= T'); simpl; [done|apply NoDup_cons; split; [set_solver|done]|].
  rewrite <-Permutation_middle. apply NoDup_cons. split; [set_solver|done].
Qed.

(** ** The alias table *)

Section Alias.
Context (n : nat) (T : Z) (weight : nat -> Z).

(** What index [i] receives from the entries that alias to it. *)
Definition aliased (K : list nat) (U : list Z) (i : nat) : Z :=
  sumn (fun x => if decide (K !!! x = i /\ x <> i) then T - U !!! x else 0) (seq 0 n).
(** The surplus of an entry that has no alias yet. *)
Definition surplus (K : list nat) (U : list Z) (x : nat) : Z :=
  if decide (K !!! x = x) then U !!! x - T else 0.

Record alias_inv (st : list nat * list nat) (K : list nat) (U : list Z) : Prop := {
  ai_len_K : length K = n;
  ai_len_U : length U = n;
  ai_nodup : NoDup (st.1 ++ st.2);
  ai_under : forall i, i ∈ st.1 -> (i < n)%nat /\ U !!! i < T /\ K !!! i = i;
  ai_over : forall i, i ∈ st.2 -> (i < n)%nat /\ T < U !!! i /\ K !!! i = i;
  ai_done : forall i, (i < n)%nat -> i ∉ st.1 -> i ∉ st.2 ->
    U !!! i <= T /\ (K !!! i = i -> U !!! i = T);
  ai_alias : forall i, (i < n)%nat -> (K !!! i < n)%nat;
  ai_bounds : forall i, (i < n)%nat -> 0 <= U !!! i < 2 ^ 64;
  ai_balanced : sumn (surplus K U) (seq 0 n) = 0;
  ai_weight : forall i, (i < n)%nat -> U !!! i + aliased K U i = weight i;
}.

(** With one stack empty no entry has a surplus, so the other is empty, too. *)
Lemma surplus_pos K U l x :
  NoDup l -> x ∈ l -> (forall y, y ∈ l -> 0 <= surplus K U y) -> 0 < surplus K U x ->
  0 < sumn (surplus K U) l.
Proof.
  intros Hnd Hx Hnn Hpos.
  rewrite (sumn_change _ (fun y => if decide (y = x) then 0 else surplus K U y) l x) by
    (try done; intros y _ Hy; by rewrite decide_False).
  rewrite decide_True by done.
  assert (0 <= sumn (fun y => if decide (y = x) then 0 else surplus K U y) l); [|lia].
  apply sumn_nonneg. intros y Hy. case_decide; [lia|by apply Hnn].
Qed.

Lemma alias_under_empty over K U : alias_inv ([], over) K U -> over = [].
Proof.
  intros Hi. destruct over as [|x over]; [done|exfalso].
  destruct (ai_over _ _ _ Hi x ltac:(simpl; set_solver)) as (Hx & HT & HK).
  assert (0 < sumn (surplus K U) (seq 0 n)); [|rewrite (ai_balanced _ _ _ Hi) in *; lia].
  apply (surplus_pos _ _ _ x); [apply NoDup_seq|apply elem_of_seq; lia| |].
  - intros y Hy%elem_of_seq. unfold surplus. case_decide as HKy; [|lia].
    destruct (decide (y ∈ x :: over)) as [Hin|Hin].
    + destruct (ai_over _ _ _ Hi y Hin) as (_ & ? & _). lia.
    + destruct (ai_done _ _ _ Hi y ltac:(lia) ltac:(simpl; set_solver) Hin) as [_ Heq]. rewrite Heq by done. lia.
  - unfold surplus. rewrite decide_True by done. lia.
Qed.

Lemma alias_over_empty under K U : alias_inv (under, []) K U -> under = [].
Proof.
  intros Hi. destruct under as [|x under]; [done|exfalso].
  destruct (ai_under _ _ _ Hi x ltac:(simpl; set_solver)) as (Hx & HT & HK).
  assert (Hneg : forall y, y ∈ seq 0 n -> surplus K U y <= 0).
  { intros y Hy%elem_of_seq. unfold surplus. case_decide as HKy; [|lia].
    destruct (decide (y ∈ x :: under)) as [Hin|Hin].
    - destruct (ai_under _ _ _ Hi y Hin) as (_ & ? & _). lia.
    - destruct (ai_done _ _ _ Hi y ltac:(lia) Hin ltac:(simpl; set_solver)) as [? _]. lia. }
  pose proof (ai_balanced _ _ _ Hi) as Hb.
  rewrite (sumn_change _ (fun y => if decide (y = x) then 0 else surplus K U y) _ x) in Hb;
    [|apply NoDup_seq|apply elem_of_seq; lia|intros y _ Hy; by rewrite decide_False].
  rewrite decide_True in Hb by done.
  assert (0 <= sumn (fun y => - (if decide (y = x) then 0 else surplus K U y)) (seq 0 n)) as Hs.
  { apply sumn_nonneg. intros y Hy. specialize (Hneg y Hy). case_decide; lia. }
  rewrite sumn_opp in Hs. unfold surplus in Hb at 2. rewrite decide_True in Hb by done. lia.
Qed.

Section Step.
Context (i_u i_o : nat) (under over : list nat) (K : list nat) (U : list Z).
Hypothesis Hinv : alias_inv (i_u :: under, i_o :: over) K U.
Local Abbreviation u := (U !!! i_o + U !!! i_u - T).
Local Abbreviation K' := (<[i_u := i_o]> K).
Local Abbreviation U' := (<[i_o := u]> U).

Lemma step_indices :
  (i_u < n)%nat /\ (i_o < n)%nat /\ i_u <> i_o /\ (i_u ∉ under) /\ (i_u ∉ over) /\
  (i_o ∉ under) /\ (i_o ∉ over) /\ NoDup (under ++ over).
Proof.
  pose proof (ai_nodup _ _ _ Hinv) as Hnd. simpl in Hnd. apply NoDup_cons in Hnd as [Hu Hnd].
  rewrite <-Permutation_middle in Hnd. apply NoDup_cons in Hnd as [Ho Hnd].
  destruct (ai_under _ _ _ Hinv i_u ltac:(simpl; set_solver)) as (? & _).
  destruct (ai_over _ _ _ Hinv i_o ltac:(simpl; set_solver)) as (? & _).
  split_and!; [done|done|set_solver..|done].
Qed.

Lemma step_values :
  0 <= U !!! i_u < T /\ T < U !!! i_o < 2 ^ 64 /\ K !!! i_u = i_u /\ K !!! i_o = i_o.
Proof.
  destruct (ai_under _ _ _ Hinv i_u ltac:(simpl; set_solver)) as (Hu & ? & ?).
  destruct (ai_over _ _ _ Hinv i_o ltac:(simpl; set_solver)) as (Ho & ? & ?).
  pose proof (ai_bounds _ _ _ Hinv _ Hu). pose proof (ai_bounds _ _ _ Hinv _ Ho). lia.
Qed.

Lemma step_K x : K' !!! x = if decide (x = i_u) then i_o else K !!! x.
Proof.
  destruct step_indices as (Hu & _). pose proof (ai_len_K _ _ _ Hinv). case_decide as Hx.
  - subst. rewrite list_lookup_total_insert_eq; [done|lia].
  - by rewrite list_lookup_total_insert_ne.
Qed.
Lemma step_U x : U' !!! x = if decide (x = i_o) then u else U !!! x.
Proof.
  destruct step_indices as (_ & Ho & _). pose proof (ai_len_U _ _ _ Hinv). case_decide as Hx.
  - subst. rewrite list_lookup_total_insert_eq; [done|lia].
  - by rewrite list_lookup_total_insert_ne.
Qed.

Lemma step_balanced : sumn (surplus K' U') (seq 0 n) = 0.
Proof.
  destruct step_indices as (Hu & Ho & Hne & _). destruct step_values as (? & ? & HKu & HKo).
  rewrite <-(ai_balanced _ _ _ Hinv).
  pose (f x := if decide (x = i_u) then 0 else surplus K U x).
  rewrite (sumn_change _ f _ i_o), (sumn_change (surplus K U) f _ i_u);
    [|apply NoDup_seq|apply elem_of_seq; lia|..|apply NoDup_seq|apply elem_of_seq; lia|].
  - unfold f, surplus. rewrite !step_K, !step_U, !(decide_False (P := i_o = i_u)) by done.
    rewrite HKo, HKu, !decide_True by done. lia.
  - intros x _ Hx. unfold f. by rewrite decide_False.
  - intros x _ Hx. unfold f, surplus. rewrite step_K, step_U, (decide_False (P := x = i_o)) by done.
    destruct (decide (x = i_u)) as [->|]; [|done]. by rewrite decide_False.
Qed.

Lemma step_weight i : (i < n)%nat -> U' !!! i + aliased K' U' i = weight i.
Proof.
  intros Hi. destruct step_indices as (Hu & Ho & Hne & _). destruct step_values as (? & ? & HKu & HKo).
  rewrite <-(ai_weight _ _ _ Hinv i Hi). unfold aliased.
  rewrite (sumn_change (fun x => if decide (K' !!! x = i /\ x <> i) then T - U' !!! x else 0)
             (fun x => if decide (K !!! x = i /\ x <> i) then T - U !!! x else 0) _ i_u);
    [|apply NoDup_seq|apply elem_of_seq; lia|].
  - rewrite step_K, !step_U, (decide_True (P := i_u = i_u)), HKu by done. rewrite (decide_False (P := i_u = i_o)) by done.
    destruct (decide (i = i_o)) as [->|].
    + rewrite decide_True by done. rewrite decide_False by naive_solver. lia.
    + rewrite !decide_False by naive_solver. lia.
  - intros x Hx Hxu. rewrite step_K, step_U, (decide_False (P := x = i_u)) by done.
    destruct (decide (x = i_o)) as [->|]; [|done]. rewrite !decide_False by naive_solver. done.
Qed.

Lemma alias_step : alias_inv (push_class T i_o u (under, over)) K' U'.
Proof.
  destruct step_indices as (Hu & Ho & Hne & Huu & Huo & Hou & Hoo & Hnd).
  destruct step_values as (Hvu & Hvo & HKu & HKo).
  split.
  - rewrite length_insert. apply Hinv.
  - rewrite length_insert. apply Hinv.
  - by apply push_class_nodup.
  - intros i Hin. rewrite (proj1 (push_class_in _ _ _ _ _)) in Hin. rewrite step_K, step_U. simpl in Hin.
    destruct Hin as [Hin|[-> Hlt]].
    + rewrite !decide_False by set_solver. apply (ai_under _ _ _ Hinv). simpl. set_solver.
    + rewrite decide_True, decide_False by done. done.
  - intros i Hin. rewrite (proj2 (push_class_in _ _ _ _ _)) in Hin. rewrite step_K, step_U. simpl in Hin.
    destruct Hin as [Hin|[-> Hlt]].
    + rewrite !decide_False by set_solver. apply (ai_over _ _ _ Hinv). simpl. set_solver.
    + rewrite decide_True, decide_False by done. done.
  - intros i Hi Hn1 Hn2. rewrite (proj1 (push_class_in _ _ _ _ _)) in Hn1.
    rewrite (proj2 (push_class_in _ _ _ _ _)) in Hn2. simpl in Hn1, Hn2. rewrite step_K, step_U.
    destruct (decide (i = i_o)) as [->|Hio].
    + rewrite decide_False by done. assert (~ u < T /\ ~ T < u) by naive_solver. lia.
    + destruct (decide (i = i_u)) as [->|Hiu]; [split; [lia|done]|].
      apply (ai_done _ _ _ Hinv); [done|simpl; set_solver..].
  - intros i Hi. rewrite step_K. case_decide; [done|by apply (ai_alias _ _ _ Hinv)].
  - intros i Hi. rewrite step_U. case_decide; [lia|by apply (ai_bounds _ _ _ Hinv)].
  - apply step_balanced.
  - apply step_weight.
Qed.
End Step.

(** The loop ends with both stacks empty. *)
Lemma alias_loop_spec fuel st K U :
  (length st.1 + length st.2 <= fuel)%nat -> alias_inv st K U ->
  exists K' U', alias_loop fuel T st K U = Some ([], [], K', U') /\ alias_inv ([], []) K' U'.
Proof.
  revert st K U. induction fuel as [|fuel IH]; intros [[|i_u under] [|i_o over]] K U Hlen Hinv;
    simpl in Hlen; try lia; try (by eexists _, _);
    try (by apply alias_under_empty in Hinv); try (by apply alias_over_empty in Hinv).
  destruct (step_indices _ _ _ _ _ _ Hinv) as (_ & _ & Hne & _).
  destruct (step_values _ _ _ _ _ _ Hinv) as (? & ? & _). cbn [alias_loop].
  unfold wrap. rewrite Z.mod_small by lia. apply IH; [|by apply alias_step].
  unfold push_class. case_match; simpl; lia.
Qed.
End Alias.

Lemma classify_spec T U :
  let st := classify T U in
  NoDup (st.1 ++ st.2) /\
  (forall i, i ∈ st.1 <-> (i < length U)%nat /\ U !!! i < T) /\
  (forall i, i ∈ st.2 <-> (i < length U)%nat /\ T < U !!! i).
Proof.
  unfold classify. cut (forall l, NoDup l ->
    let st := foldl (fun st i => push_class T i (U !!! i) st) ([], []) l in
    NoDup (st.1 ++ st.2) /\ (forall i, i ∈ st.1 <-> i ∈ l /\ U !!! i < T) /\
    (forall i, i ∈ st.2 <-> i ∈ l /\ T < U !!! i)).
  { intros Hl. specialize (Hl (seq 0 (length U)) (NoDup_seq _ _)) as (Hnd & H1 & H2).
    split_and!; [done|..]; intros i; [rewrite H1|rewrite H2]; rewrite elem_of_seq; intuition lia. }
  induction l as [|x l IH] using rev_ind; intros Hnd; simpl; [split_and!; [constructor|set_solver..]|].
  apply NoDup_app in Hnd as (Hl & Hx & _). specialize (IH Hl) as (IHn & IH1 & IH2).
  rewrite foldl_snoc. assert (x ∉ l) by set_solver. split_and!.
  - apply push_class_nodup; [done|intros Hin%IH1; naive_solver|intros Hin%IH2; naive_solver].
  - intros i. rewrite (proj1 (push_class_in _ _ _ _ _)), IH1, elem_of_app, list_elem_of_singleton.
    naive_solver.
  - intros i. rewrite (proj2 (push_class_in _ _ _ _ _)), IH2, elem_of_app, list_elem_of_singleton.
    naive_solver.
Qed.

(** ** Stakes *)

Definition sum_list_Z (p : list Z) : Z := foldr Z.add 0 p.

(** Probabilities that fit: the products do not overflow. *)
Record stakes_ok (p : list Z) : Prop := {
  stakes_nonneg : Forall (fun x => 0 <= x) p;
  stakes_pos : 0 < sum_list_Z p;
  stakes_fit : Z.of_nat (length p) * sum_list_Z p < 2 ^ 64;
}.

Lemma sum_list_nonneg p : Forall (fun x => 0 <= x) p -> 0 <= sum_list_Z p.
Proof. induction 1; simpl; lia. Qed.

Lemma entry_le_sum p i x : Forall (fun x => 0 <= x) p -> p !! i = Some x -> 0 <= x <= sum_list_Z p.
Proof.
  intros Hp. revert i. induction Hp as [|y p Hy Hp IH]; intros i Hi; [done|].
  pose proof (sum_list_nonneg _ Hp). destruct i as [|i]; simpl in *; [simplify_eq; lia|].
  specialize (IH i Hi). lia.
Qed.

Lemma foldl_wrap_sum p acc :
  Forall (fun x => 0 <= x) p -> 0 <= acc -> acc + sum_list_Z p < 2 ^ 64 ->
  foldl (fun T x => wrap 64 (T + x)) acc p = acc + sum_list_Z p.
Proof.
  intros Hp. revert acc. induction Hp as [|y p Hy Hp IH]; intros acc Ha Hs; simpl in *; [lia|].
  pose proof (sum_list_nonneg _ Hp). unfold wrap at 2. rewrite Z.mod_small by lia.
  rewrite IH by lia. lia.
Qed.

Section New.
Context (p : list Z).
Hypothesis Hok : stakes_ok p.
Local Abbreviation n := (length p).
Local Abbreviation T := (sum_list_Z p).

Lemma stakes_length : (0 < n)%nat.
Proof. pose proof (stakes_pos _ Hok). destruct p; simpl in *; lia. Qed.

Lemma total_probability_eq : total_probability p = T.
Proof.
  pose proof stakes_length. destruct Hok as [Hp Ht Hf].
  unfold total_probability. rewrite foldl_wrap_sum; [lia|done|lia|nia].
Qed.

Lemma scaled_eq i : (i < n)%nat -> scaled p !!! i = p !!! i * Z.of_nat n.
Proof.
  intros Hi. destruct Hok as [Hp Ht Hf]. destruct (lookup_lt_is_Some_2 p i Hi) as [x Hx].
  pose proof (entry_le_sum _ _ _ Hp Hx) as Hxb. pose proof stakes_length.
  rewrite (list_lookup_total_correct p i x) by done.
  apply list_lookup_total_correct. unfold scaled. rewrite list_lookup_fmap, Hx. simpl. f_equal.
  unfold wrap. rewrite (Z.mod_small (Z.of_nat n)) by nia. apply Z.mod_small. nia.
Qed.

Lemma seq_lookup i : (i < n)%nat -> seq 0 n !!! i = i.
Proof. intros Hi. apply list_lookup_total_correct, lookup_seq. lia. Qed.

Lemma sumn_lookup (q : list Z) : sumn (fun i => q !!! i) (seq 0 (length q)) = sum_list_Z q.
Proof.
  induction q as [|x q IH]; simpl; [done|]. rewrite <-IH. f_equal. by rewrite <-(fmap_S_seq 0), sumn_fmap.
Qed.

Lemma sumn_scale f c l : sumn (fun x => f x * c) l = sumn f l * c.
Proof. induction l as [|x l IH]; simpl; [done|]. rewrite IH. lia. Qed.
Lemma sumn_const c l : sumn (fun _ => c) l = c * Z.of_nat (length l).
Proof. induction l as [|x l IH]; simpl; [lia|]. rewrite IH. lia. Qed.

Lemma alias_inv_init :
  alias_inv n T (fun i => p !!! i * Z.of_nat n) (classify T (scaled p)) (seq 0 n) (scaled p).
Proof.
  destruct (classify_spec T (scaled p)) as (Hnd & H1 & H2).
  assert (Hlen : length (scaled p) = n) by (unfold scaled; by rewrite length_fmap).
  rewrite Hlen in H1, H2. pose proof stakes_length.
  split.
  - apply length_seq.
  - done.
  - done.
  - intros i Hi%H1. split_and!; [lia..|]. apply seq_lookup. lia.
  - intros i Hi%H2. split_and!; [lia..|]. apply seq_lookup. lia.
  - intros i Hi Hn1 Hn2. rewrite H1 in Hn1. rewrite H2 in Hn2.
    assert (scaled p !!! i = T) by lia. lia.
  - intros i Hi. by rewrite seq_lookup.
  - intros i Hi. rewrite scaled_eq by done. destruct Hok as [Hp Ht Hf].
    destruct (lookup_lt_is_Some_2 p i Hi) as [x Hx]. pose proof (entry_le_sum _ _ _ Hp Hx).
    rewrite (list_lookup_total_correct p i x) by done. nia.
  - rewrite (sumn_ext _ (fun i => p !!! i * Z.of_nat n + - T)).
    + rewrite sumn_add, sumn_scale, sumn_lookup, sumn_const, length_seq. lia.
    + intros x Hx%elem_of_seq. unfold surplus. rewrite seq_lookup, decide_True by (done || lia).
      rewrite scaled_eq by lia. lia.
  - intros i Hi. rewrite scaled_eq by done. unfold aliased.
    rewrite (sumn_ext _ (fun _ => 0)); [rewrite sumn_const; lia|].
    intros x Hx%elem_of_seq. rewrite seq_lookup by lia. rewrite decide_False; [done|naive_solver].
Qed.

(** The table that is built. *)
Lemma new_distribution_spec :
  exists K U, new_distribution p = Some (mk_dist T n K U) /\
    alias_inv n T (fun i => p !!! i * Z.of_nat n) ([], []) K U.
Proof.
  pose proof (stakes_pos _ Hok).
  destruct (alias_loop_spec n T (fun i => p !!! i * Z.of_nat n) n (classify T (scaled p)) (seq 0 n)
              (scaled p)) as (K & U & Hrun & Hinv); [|apply alias_inv_init|].
  - destruct (classify_spec T (scaled p)) as (Hnd & H1 & H2).
    rewrite <-length_app. rewrite <-(length_seq n 0).
    apply submseteq_length, NoDup_submseteq; [done|]. intros x. rewrite elem_of_app, H1, H2, elem_of_seq.
    unfold scaled. rewrite length_fmap. lia.
  - exists K, U. unfold new_distribution. rewrite total_probability_eq.
    destruct (Z.eqb_spec T 0); [lia|]. by rewrite Hrun.
Qed.
End New.

(** ** Draws below a limit *)

Lemma bitmask_eq limit :
  0 < limit < 2 ^ 64 -> wrap 64 (next_power_of_two limit - 1) = Z.ones (Z.log2_up limit).
Proof.
  intros Hl. unfold next_power_of_two, wrap. rewrite Zminus_mod_idemp_l, Z.ones_equiv.
  assert (Z.log2_up limit <= 64) by (apply Z.log2_up_le_pow2; lia).
  pose proof (Z.log2_up_nonneg limit).
  assert (2 ^ Z.log2_up limit <= 2 ^ 64) by (apply Z.pow_le_mono_r; lia).
  pose proof (Z.pow_pos_nonneg 2 (Z.log2_up limit) ltac:(lia) ltac:(lia)).
  rewrite Z.mod_small; lia.
Qed.

(** A draw that is returned is below the limit. *)
Lemma next_u64_below_range {R} `{Rng R} fuel limit (r r' : R) x :
  next_u64_below fuel limit r = Some (x, r') -> 0 < limit < 2 ^ 64 -> 0 <= x < limit.
Proof.
  unfold next_u64_below. intros Hrun Hl. destruct (Z.eqb_spec limit 0); [lia|].
  rewrite bitmask_eq in Hrun by done. revert r Hrun.
  induction fuel as [|fuel IH]; intros r Hrun; simpl in Hrun; [done|].
  destruct (next_u64 r) as [y r1]. destruct (Z.ltb_spec (Z.land y (Z.ones (Z.log2_up limit))) limit).
  - injection Hrun as <- _. split; [|done]. rewrite Z.land_ones by apply Z.log2_up_nonneg.
    apply Z.mod_pos_bound, Z.pow_pos_nonneg; [lia|apply Z.log2_up_nonneg].
  - by apply (IH r1).
Qed.

(** ** Counting draws *)

(** The number of draws [y] below [T] that elect [i] once [x] is drawn, and the
    number of pairs of draws that do. *)
Definition hits_at (d : DiscreteDistribution) (x i : nat) : Z :=
  Z.of_nat (length (filter (fun y => sample_at d x y = i) (seqZ 0 (dd_T d)))).
Definition hits (d : DiscreteDistribution) (i : nat) : Z :=
  sumn (fun x => hits_at d x i) (seq 0 (dd_n d)).

Lemma filter_const {A} (P : A -> Prop) `{!forall x, Decision (P x)} (Q : Prop) `{!Decision Q} l :
  (forall x, x ∈ l -> P x <-> Q) ->
  Z.of_nat (length (filter P l)) = if decide Q then Z.of_nat (length l) else 0.
Proof.
  induction l as [|x l IH]; intros Hl; [by case_decide|].
  specialize (IH ltac:(set_solver)). specialize (Hl x ltac:(set_solver)).
  rewrite filter_cons. repeat case_decide; simpl; try tauto; lia.
Qed.

Lemma hits_at_eq d x i :
  0 <= dd_U d !!! x <= dd_T d ->
  hits_at d x i = (if decide (x = i) then dd_U d !!! x else 0)
                  + (if decide (dd_K d !!! x = i) then dd_T d - dd_U d !!! x else 0).
Proof.
  intros Hu. unfold hits_at. set (u := dd_U d !!! x) in *.
  replace (seqZ 0 (dd_T d)) with (seqZ 0 u ++ seqZ (0 + u) (dd_T d - u))
    by (rewrite <-seqZ_app by lia; f_equal; lia).
  rewrite filter_app, length_app, Nat2Z.inj_add.
  rewrite (filter_const _ (x = i)), (filter_const _ (dd_K d !!! x = i)).
  - rewrite !length_seqZ. repeat case_decide; lia.
  - intros y Hy%elem_of_seqZ. unfold sample_at. fold u. destruct (Z.ltb_spec y u); [lia|done].
  - intros y Hy%elem_of_seqZ. unfold sample_at. fold u. destruct (Z.ltb_spec y u); [done|lia].
Qed.

(** C35: for stakes whose products fit into 64 bits and that are not all zero,
    building the alias table never panics, and of the [n * T] pairs of draws
    exactly [n * stake] elect an entry: it is sampled with probability exactly
    its share of the total stake. *)
Theorem alias_method_exact p :
  stakes_ok p ->
  exists d, new_distribution p = Some d /\ dd_n d = length p /\ dd_T d = sum_list_Z p /\
    (forall x y, (x < length p)%nat -> (sample_at d x y < length p)%nat) /\
    forall i, (i < length p)%nat -> hits d i = Z.of_nat (length p) * p !!! i.
Proof.
  intros Hok. destruct (new_distribution_spec p Hok) as (K & U & Hnew & Hinv).
  eexists. split_and!; [exact Hnew|done|done|..].
  - intros x y Hx. unfold sample_at. simpl. destruct (_ <? _); [done|by apply (ai_alias _ _ _ _ _ _ Hinv)].
  - intros i Hi. unfold hits. simpl. rewrite Z.mul_comm, <-(ai_weight _ _ _ _ _ _ Hinv i Hi).
    rewrite (sumn_ext _ (fun x => (if decide (x = i) then U !!! x else 0)
      + (if decide (K !!! x = i /\ x <> i) then sum_list_Z p - U !!! x else 0))).
    + rewrite sumn_add, sumn_single; [done|apply NoDup_seq|apply elem_of_seq; lia].
    + intros x Hx%elem_of_seq. pose proof (ai_bounds _ _ _ _ _ _ Hinv x ltac:(lia)).
      destruct (ai_done _ _ _ _ _ _ Hinv x) as [HT HK]; [lia|set_solver..|].
      rewrite hits_at_eq by (simpl; lia). simpl. f_equal.
      destruct (decide (K !!! x = i)) as [HKx|]; [|by rewrite decide_False by naive_solver].
      destruct (decide (x = i)) as [->|]; [|by rewrite decide_True].
      rewrite decide_False by naive_solver. rewrite (HK HKx). lia.
Qed.

Lemma alias_method_exact_witness :
  exists d, new_distribution [1; 2; 3] = Some d /\ dd_n d = 3%nat /\ dd_T d = 6 /\
    (forall x y, (x < 3)%nat -> (sample_at d x y < 3)%nat) /\
    forall i, (i < 3)%nat -> hits d i = 3 * [1; 2; 3] !!! i.
Proof.
  apply (alias_method_exact [1; 2; 3]). split; [repeat constructor; lia|simpl; lia|simpl; lia].
Defined.
