(* ===== verification/Slots.v ===== *)
(** * Slot allocation

    [primitives/src/slots_allocation.rs]: the validators of an epoch, each with a
    band of consecutive slots, the checks on a validator set, the lookups by slot
    and by address, and the builder that elections use.  [None] is a panic. *)

From S2P Require Import Prelude Policy AccountTypes StakingContract StakingProofs.

(** [Validator] of a slot allocation; keys are kept as numbers. *)
Record SlotValidator := mk_slot_validator {
  sv_address : Z;
  sv_voting_key : Z;
  sv_signing_key : Z;
  sv_slots : Range;
}.

(** [Range::len]. *)
Definition range_len (r : Range) : Z := Z.max 0 (range_end r - range_start r).
Definition num_slots (v : SlotValidator) : Z := wrap 16 (range_len (sv_slots v)).

Record Validators := mk_validators {
  vs_validators : list SlotValidator;
  vs_map : gmap Z Z;
}.

(** [Validators::new]: later entries of the map replace earlier ones. *)
Definition new_validators (validators : list SlotValidator) : Validators :=
  mk_validators validators
    (foldl (fun m '(i, v) => <[sv_address v := wrap 16 (Z.of_nat i)]> m) ∅
       (imap pair validators)).

Definition num_validators (self : Validators) : nat := length (vs_validators self).

(** [slice::binary_search_by] on the indices below [size]. *)
Fixpoint search_loop (fuel : nat) (f : nat -> comparison) (base size : nat) : nat :=
  match fuel with
  | O => base
  | S fuel =>
      if (size <=? 1)%nat then base
      else
        let half := Nat.div2 size in
        let mid := (base + half)%nat in
        search_loop fuel f (match f mid with Gt => base | _ => mid end) (size - half)
  end.
Definition binary_search_by {A} (l : list A) (f : A -> comparison) : option nat :=
  let cmp i := match l !! i with Some x => f x | None => Gt end in
  let base := search_loop (length l) cmp 0 (length l) in
  match cmp base with Eq => Some base | _ => None end.

(** The position of a band relative to [slot]. *)
Definition compare_band (slot : Z) (v : SlotValidator) : comparison :=
  if range_end (sv_slots v) <=? slot then Lt
  else if slot <? range_start (sv_slots v) then Gt
  else Eq.

Definition get_band_from_slot (self : Validators) (slot : Z) : option Z :=
  if slot <? SLOTS then
    i ← binary_search_by (vs_validators self) (compare_band slot);
    if Z.of_nat i <? 2 ^ 16 then Some (Z.of_nat i) else None
  else None.

Definition get_validator_by_slot_number (self : Validators) (slot_number : Z)
  : option SlotValidator :=
  band ← get_band_from_slot self slot_number;
  vs_validators self !! Z.to_nat band.

Definition get_validator_by_slot_band (self : Validators) (slot_band : Z) : option SlotValidator :=
  vs_validators self !! Z.to_nat slot_band.

(** The outer [None] is the result for an unknown address, the inner a panic. *)
Definition get_validator_by_address (self : Validators) (address : Z)
  : option (option SlotValidator) :=
  band ← vs_map self !! address;
  Some (vs_validators self !! Z.to_nat band).

Definition get_slot_band_by_address (self : Validators) (address : Z) : option Z :=
  vs_map self !! address.

Definition PK_TREE_BREADTH : Z := 2 ^ 5.

(** [Validators::validate_structure], the loop and the checks after it; [false] is
    [InvalidValidatorsError]. *)
Fixpoint validate_loop (validators : list SlotValidator) (total_slots : Z) (seen : gset Z)
  : option Z :=
  match validators with
  | [] => Some total_slots
  | v :: validators =>
      let r := sv_slots v in
      if negb (range_start r =? total_slots) || (range_end r <=? range_start r) then None
      else if bool_decide (sv_address v ∈ seen) then None
      else
        total_slots ← checked_add 16 total_slots (num_slots v);
        validate_loop validators total_slots ({[sv_address v]} ∪ seen)
  end.
Definition validate_structure (self : Validators) : bool :=
  match validate_loop (vs_validators self) 0 ∅ with
  | Some total_slots =>
      (total_slots =? SLOTS) && (total_slots `mod` PK_TREE_BREADTH =? 0)
  | None => false
  end.

(** ** The builder *)

(** Validator address to voting key, signing key and number of slots. *)
Abbreviation ValidatorsBuilder := (gmap Z (Z * Z * Z)).
Definition builder_new : ValidatorsBuilder := ∅.

Definition builder_push (validator_address voting_key signing_key : Z) (self : ValidatorsBuilder)
  : ValidatorsBuilder :=
  let '(vk, sk, num) := default (voting_key, signing_key, 0) (self !! validator_address) in
  <[validator_address := (vk, sk, wrap 16 (num + 1))]> self.

(** The loop of [ValidatorsBuilder::build] over the entries in the order of their
    addresses. *)
Fixpoint build_loop (self : ValidatorsBuilder) (addresses : list Z) (start_slot : Z)
  : list SlotValidator :=
  match addresses with
  | [] => []
  | address :: addresses =>
      match self !! address with
      | Some (voting_key, signing_key, num) =>
          let end_slot := wrap 16 (start_slot + num) in
          mk_slot_validator address voting_key signing_key (mk_range start_slot end_slot)
            :: build_loop self addresses end_slot
      | None => build_loop self addresses start_slot
      end
  end.
Definition builder_build (self : ValidatorsBuilder) : Validators :=
  new_validators (build_loop self (sorted_keys self) 0).

(** ** Bands *)

(** Consecutive non-empty bands from [s] to [e]. *)
Fixpoint bands (l : list SlotValidator) (s e : Z) : Prop :=
  match l with
  | [] => s = e
  | v :: l => range_start (sv_slots v) = s /\ s < range_end (sv_slots v) /\
              bands l (range_end (sv_slots v)) e
  end.

Lemma bands_le l s e : bands l s e -> s + Z.of_nat (length l) <= e.
Proof. revert s. induction l as [|v l IH]; simpl; intros s; [lia|]. intros (? & ? & Hb%IH). lia. Qed.

Lemma bands_app l1 l2 s e :
  bands (l1 ++ l2) s e <-> exists m, bands l1 s m /\ bands l2 m e.
Proof.
  revert s. induction l1 as [|v l1 IH]; simpl; intros s.
  - split; [by eauto|]. by intros (m & -> & ?).
  - rewrite IH. naive_solver.
Qed.

(** The band of a slot. *)
Lemma bands_find l s e slot :
  bands l s e -> s <= slot < e -> exists i v, l !! i = Some v /\ compare_band slot v = Eq.
Proof.
  revert s. induction l as [|v l IH]; simpl; intros s; [lia|]. intros (Hs & Hlt & Hb) Hslot.
  destruct (Z.ltb_spec slot (range_end (sv_slots v))) as [Hin|Hout].
  - exists O, v. split; [done|]. unfold compare_band.
    destruct (Z.leb_spec (range_end (sv_slots v)) slot); [lia|].
    destruct (Z.ltb_spec slot (range_start (sv_slots v))); [lia|done].
  - destruct (IH _ Hb) as (i & w & Hi & Hc); [lia|]. by exists (S i), w.
Qed.

Lemma compare_band_eq slot v :
  compare_band slot v = Eq <-> range_start (sv_slots v) <= slot < range_end (sv_slots v).
Proof.
  unfold compare_band. destruct (Z.leb_spec (range_end (sv_slots v)) slot); [split; [done|lia]|].
  destruct (Z.ltb_spec slot (range_start (sv_slots v))); split; (done || lia).
Qed.

(** Bands before the one of a slot end before it, bands behind it start later. *)
Lemma bands_order l s e i j v w :
  bands l s e -> l !! i = Some v -> l !! j = Some w -> (i < j)%nat ->
  range_start (sv_slots v) < range_end (sv_slots v) <= range_start (sv_slots w) /\
  range_start (sv_slots w) < range_end (sv_slots w).
Proof.
  revert s i j. induction l as [|x l IH]; simpl; intros s i j; [done|]. intros (Hs & Hlt & Hb) Hi Hj Hij.
  destruct j as [|j]; [lia|]. simpl in Hj. destruct i as [|i]; simpl in Hi.
  - simplify_eq. assert (Hge : forall l s e j w, bands l s e -> l !! j = Some w ->
      s <= range_start (sv_slots w) < range_end (sv_slots w)).
    { clear. induction l as [|x l IH]; simpl; intros s e j w; [done|]. intros (Hs & Hlt & Hb) Hj.
      destruct j as [|j]; simpl in Hj; [simplify_eq; lia|]. specialize (IH _ _ _ _ Hb Hj). lia. }
    specialize (Hge _ _ _ _ _ Hb Hj). lia.
  - apply (IH _ i j Hb); [done..|lia].
Qed.

Lemma compare_order l s e slot k v i w :
  bands l s e -> l !! k = Some v -> compare_band slot v = Eq -> l !! i = Some w ->
  ((i < k)%nat -> compare_band slot w = Lt) /\ ((k < i)%nat -> compare_band slot w = Gt).
Proof.
  intros Hb Hk Hc%compare_band_eq Hi. split; intros Hlt.
  - destruct (bands_order _ _ _ _ _ _ _ Hb Hi Hk Hlt) as [? ?]. unfold compare_band.
    destruct (Z.leb_spec (range_end (sv_slots w)) slot); [done|lia].
  - destruct (bands_order _ _ _ _ _ _ _ Hb Hk Hi Hlt) as [? ?]. unfold compare_band.
    destruct (Z.leb_spec (range_end (sv_slots w)) slot); [lia|].
    destruct (Z.ltb_spec slot (range_start (sv_slots w))); [done|lia].
Qed.

(** Binary search finds an index with smaller ones before and larger ones behind. *)
Lemma search_loop_spec fuel f base size k :
  (size <= fuel)%nat -> (base <= k < base + size)%nat ->
  (forall i, (i < k)%nat -> f i = Lt) -> f k = Eq ->
  (forall i, (k < i)%nat -> f i = Gt) -> search_loop fuel f base size = k.
Proof.
  revert base size. induction fuel as [|fuel IH]; intros base size Hf Hk Hlt Heq Hgt; simpl; [lia|].
  destruct (Nat.leb_spec size 1); [lia|].
  assert (Hh : (1 <= Nat.div2 size /\ 2 * Nat.div2 size <= size)%nat)
    by (pose proof (Nat.div2_odd size); destruct (Nat.odd size); simpl Nat.b2n in *; lia).
  destruct (Nat.lt_trichotomy (base + Nat.div2 size) k) as [Hm|[Hm|Hm]].
  - rewrite (Hlt _ Hm). apply IH; (done || lia).
  - rewrite Hm, Heq. apply IH; (done || lia).
  - rewrite (Hgt _ Hm). apply IH; (done || lia).
Qed.

Lemma binary_search_band l s e slot k v :
  bands l s e -> l !! k = Some v -> compare_band slot v = Eq ->
  binary_search_by l (compare_band slot) = Some k.
Proof.
  intros Hb Hk Hc. unfold binary_search_by. apply lookup_lt_Some in Hk as Hkl.
  rewrite (search_loop_spec _ _ _ _ k); [by rewrite Hk, Hc|done|lia| |by rewrite Hk|].
  - intros i Hi. destruct (lookup_lt_is_Some_2 l i) as [w Hw]; [lia|]. rewrite Hw.
    by apply (proj1 (compare_order _ _ _ _ _ _ _ _ Hb Hk Hc Hw)).
  - intros i Hi. destruct (l !! i) as [w|] eqn:Hw; [|done].
    by apply (proj2 (compare_order _ _ _ _ _ _ _ _ Hb Hk Hc Hw)).
Qed.

(** ** Validated sets *)

(** The slots of a band are [u16]. *)
Definition typed_bands (l : list SlotValidator) : Prop :=
  Forall (fun v => in_width 16 (range_start (sv_slots v)) /\ in_width 16 (range_end (sv_slots v))) l.

Lemma num_slots_eq v :
  in_width 16 (range_start (sv_slots v)) -> in_width 16 (range_end (sv_slots v)) ->
  range_start (sv_slots v) <= range_end (sv_slots v) ->
  num_slots v = range_end (sv_slots v) - range_start (sv_slots v).
Proof.
  unfold num_slots, range_len, wrap, in_width, max_value. intros Hs He Hle. rewrite Z.mod_small; lia.
Qed.

Lemma validate_loop_spec l s seen e :
  typed_bands l -> in_width 16 s ->
  validate_loop l s seen = Some e <->
  bands l s e /\ NoDup (sv_address <$> l) /\ (forall v, v ∈ l -> sv_address v ∉ seen).
Proof.
  intros Ht. revert s seen. induction Ht as [|v l [Hvs Hve] Ht IH]; intros s seen Hs; simpl.
  { split; [intros [= ->]; split_and!; [done|constructor|set_solver]|]. by intros (-> & _). }
  destruct (Z.eqb_spec (range_start (sv_slots v)) s) as [E|E]; simpl; [|split; [done|naive_solver]].
  destruct (Z.leb_spec (range_end (sv_slots v)) (range_start (sv_slots v))); simpl.
  { split; [done|]. intros ((_ & ? & _) & _). lia. }
  case_bool_decide as Hseen.
  { split; [done|]. intros (_ & _ & Hn). destruct (Hn v); set_solver. }
  rewrite num_slots_eq by (done || lia). unfold checked_add, in_width, max_value in *.
  destruct (Z.leb_spec (s + (range_end (sv_slots v) - range_start (sv_slots v))) (2 ^ 16 - 1)); [|lia].
  simpl. replace (s + (range_end (sv_slots v) - range_start (sv_slots v)))
    with (range_end (sv_slots v)) by lia.
  rewrite IH by done. rewrite NoDup_cons, list_elem_of_fmap. set_solver by lia.
Qed.

Lemma validate_structure_spec self :
  typed_bands (vs_validators self) ->
  validate_structure self = true <->
  bands (vs_validators self) 0 SLOTS /\ NoDup (sv_address <$> vs_validators self).
Proof.
  intros Ht. unfold validate_structure.
  pose proof (validate_loop_spec _ 0 ∅ SLOTS Ht ltac:(unfold in_width, max_value; lia)) as Hv.
  destruct (validate_loop _ _ _) as [e|].
  - rewrite andb_true_iff, Z.eqb_eq. split.
    + intros [-> _]. destruct (proj1 Hv eq_refl) as (? & ? & _). done.
    + intros [Hb Hn]. assert (He : Some e = Some SLOTS) by (apply Hv; set_solver).
      by injection He as ->.
  - split; [done|]. intros [Hb Hn]. assert (He : None = Some SLOTS) by (apply Hv; set_solver). done.
Qed.

(** The map from addresses to bands. *)
Lemma new_validators_map l :
  NoDup (sv_address <$> l) -> Z.of_nat (length l) < 2 ^ 16 ->
  forall a i, vs_map (new_validators l) !! a = Some i <->
    exists k v, i = Z.of_nat k /\ l !! k = Some v /\ sv_address v = a.
Proof.
  intros Hnd Hlen. unfold new_validators. simpl. revert Hnd Hlen.
  induction l as [|x l IH] using rev_ind; intros Hnd Hlen a i.
  { simpl. rewrite lookup_empty. split; [done|]. by intros (k & v & _ & ? & _). }
  rewrite fmap_app in Hnd. apply NoDup_app in Hnd as (Hnd & Hx & _). rewrite length_app in Hlen. simpl in Hlen.
  rewrite imap_app, foldl_app. simpl. unfold wrap. rewrite Nat.add_0_r, Z.mod_small by lia.
  rewrite lookup_insert_Some, IH by (done || lia). split.
  - intros [[<- <-]|[Hne (k & v & -> & Hk & <-)]].
    + exists (length l), x. by rewrite list_lookup_middle.
    + exists k, v. split_and!; [done|by apply lookup_app_l_Some|done].
  - intros (k & v & -> & Hk & <-). apply lookup_app_Some in Hk as [Hk|[Hle Hk]].
    + right. split; [|by eauto]. intros He. apply (Hx (sv_address v)); [|simpl; set_solver].
      apply list_elem_of_fmap. exists v. split; [done|]. by eapply list_elem_of_lookup_2.
    + apply list_lookup_singleton_Some in Hk as [Hk <-]. left. split; [done|]. lia.
Qed.

(** A validated set, as [Validators::new] builds it. *)
Definition well_formed (self : Validators) : Prop :=
  typed_bands (vs_validators self) /\ self = new_validators (vs_validators self) /\
  validate_structure self = true.

Lemma well_formed_bands self :
  well_formed self ->
  bands (vs_validators self) 0 SLOTS /\ NoDup (sv_address <$> vs_validators self) /\
  Z.of_nat (length (vs_validators self)) <= SLOTS.
Proof.
  intros (Ht & _ & Hv). apply validate_structure_spec in Hv as [Hb Hn]; [|done].
  pose proof (bands_le _ _ _ Hb). by split_and!.
Qed.

Lemma get_band_spec self slot :
  well_formed self -> 0 <= slot < SLOTS ->
  exists k v, get_band_from_slot self slot = Some (Z.of_nat k) /\
    vs_validators self !! k = Some v /\
    range_start (sv_slots v) <= slot < range_end (sv_slots v).
Proof.
  intros (Hb & Hn & Hl)%well_formed_bands Hs.
  destruct (bands_find _ _ _ _ Hb Hs) as (k & v & Hk & Hc). exists k, v. unfold get_band_from_slot.
  rewrite (binary_search_band _ _ _ _ _ _ Hb Hk Hc). apply lookup_lt_Some in Hk as Hkl. simpl.
  destruct (Z.ltb_spec slot SLOTS); [|lia]. unfold SLOTS in *.
  destruct (Z.ltb_spec (Z.of_nat k) (2 ^ 16)); [|lia]. apply compare_band_eq in Hc. split; [done|by split].
Qed.

(** C36: a validator set that passes validation owns every slot exactly once:
    the lookup of a slot never panics and returns the only validator whose band
    contains it, and the lookup of an address returns its only validator. *)
Theorem slots_owned_once self :
  well_formed self ->
  (forall slot, 0 <= slot < SLOTS -> exists v, get_validator_by_slot_number self slot = Some v /\
     v ∈ vs_validators self /\
     forall w, w ∈ vs_validators self ->
       range_start (sv_slots w) <= slot < range_end (sv_slots w) <-> w = v) /\
  (forall v, v ∈ vs_validators self ->
     get_validator_by_address self (sv_address v) = Some (Some v)).
Proof.
  intros Hwf. destruct (well_formed_bands _ Hwf) as (Hb & Hn & Hl). split.
  - intros slot Hs. destruct (get_band_spec _ _ Hwf Hs) as (k & v & Hg & Hk & Hin). exists v.
    unfold get_validator_by_slot_number. rewrite Hg. simpl. rewrite Nat2Z.id. split_and!; [done| |].
    { by eapply list_elem_of_lookup_2. }
    intros w [j Hj]%list_elem_of_lookup_1. split; [|by intros ->].
    intros Hjn. destruct (Nat.lt_trichotomy j k) as [Hlt|[->|Hlt]]; [|congruence|].
    + destruct (bands_order _ _ _ _ _ _ _ Hb Hj Hk Hlt). lia.
    + destruct (bands_order _ _ _ _ _ _ _ Hb Hk Hj Hlt). lia.
  - intros v [k Hk]%list_elem_of_lookup_1. destruct Hwf as (_ & Heq & _). rewrite Heq.
    unfold get_validator_by_address, SLOTS in *.
    assert (Hm : vs_map (new_validators (vs_validators self)) !! sv_address v = Some (Z.of_nat k)).
    { apply new_validators_map; [done|lia|]. by exists k, v. }
    rewrite Hm. simpl. by rewrite Nat2Z.id, Hk.
Qed.

(** ** The builder *)

Definition entry_slots (e : Z * Z * Z) : Z := e.2.

(** A builder after [count] pushes. *)
Record builder_ok (self : ValidatorsBuilder) (count : Z) : Prop := {
  builder_entries : forall a e, self !! a = Some e -> 0 < entry_slots e;
  builder_count : map_sum entry_slots self = count;
  builder_fits : count < 2 ^ 16;
}.

Lemma builder_empty : builder_ok builder_new 0.
Proof.
  unfold builder_new. split; [intros a e; by rewrite lookup_empty|apply map_sum_empty|lia].
Qed.

Lemma builder_push_ok self count a vk sk :
  builder_ok self count -> count + 1 < 2 ^ 16 -> builder_ok (builder_push a vk sk self) (count + 1).
Proof.
  intros [He Hc Hf] Hlt. unfold builder_push.
  assert (Hle : opt_val entry_slots (self !! a) <= count).
  { rewrite <-Hc. apply map_sum_entry_le. intros k e Hk. specialize (He k e Hk). lia. }
  destruct (self !! a) as [[[vk' sk'] num]|] eqn:Ha; simpl in *.
  - pose proof (He a _ Ha) as Hnum. unfold entry_slots in Hnum, Hle. simpl in Hnum, Hle.
    rewrite wrap_small by (unfold in_width, max_value; lia). split; [|..|done].
    + intros b e. rewrite lookup_insert_Some. intros [[<- <-]|[_ Hb]]; [simpl; unfold entry_slots; simpl; lia|].
      by apply (He b).
    + rewrite map_sum_insert, Ha, Hc. simpl. unfold entry_slots. simpl. lia.
  - split; [|..|done].
    + intros b e. rewrite lookup_insert_Some. intros [[<- <-]|[_ Hb]]; [done|]. by apply (He b).
    + rewrite map_sum_insert, Ha, Hc. unfold opt_val, entry_slots. simpl. change (wrap 16 (0 + 1)) with 1. lia.
Qed.

Lemma builder_push_keys self a vk sk b :
  is_Some (builder_push a vk sk self !! b) <-> b = a \/ is_Some (self !! b).
Proof.
  unfold builder_push. destruct (default _ _) as [[vk' sk'] num].
  rewrite lookup_insert_is_Some'. naive_solver.
Qed.

(** The sum over the keys in [l]. *)
Definition sum_keys {V} (f : V -> Z) (m : gmap Z V) (l : list Z) : Z :=
  foldr (fun a s => opt_val f (m !! a) + s) 0 l.

Lemma sum_keys_map {V} (f : V -> Z) (m : gmap Z V) l :
  NoDup l -> (forall a, a ∈ l <-> is_Some (m !! a)) -> sum_keys f m l = map_sum f m.
Proof.
  revert m. induction l as [|a l IH]; intros m Hnd Hl.
  - replace m with (∅ : gmap Z V); [by rewrite map_sum_empty|].
    symmetry. apply map_empty. intros a. apply eq_None_not_Some. rewrite <-Hl. set_solver.
  - apply NoDup_cons in Hnd as [Ha Hnd]. simpl.
    pose proof (map_sum_delete f m a) as Hd.
    rewrite <-(IH (delete a m)) in Hd.
    + replace (sum_keys f (delete a m) l) with (sum_keys f m l) in Hd; [lia|].
      clear -Ha. induction l as [|b l IHl]; [done|]. simpl. rewrite IHl by set_solver.
      by rewrite lookup_delete_ne by set_solver.
    + done.
    + intros b. destruct (decide (b = a)) as [->|Hne].
      * rewrite lookup_delete_eq. split; [done|]. by intros [].
      * rewrite lookup_delete_ne by done. rewrite <-Hl. set_solver.
Qed.

Lemma build_loop_spec self l s count :
  builder_ok self count -> (forall a, a ∈ l -> is_Some (self !! a)) -> 0 <= s ->
  s + sum_keys entry_slots self l < 2 ^ 16 ->
  bands (build_loop self l s) s (s + sum_keys entry_slots self l) /\
  sv_address <$> build_loop self l s = l /\ typed_bands (build_loop self l s).
Proof.
  intros Hok. revert s. induction l as [|a l IH]; intros s Hl Hs Hsum; simpl.
  { split_and!; [lia|done|constructor]. }
  destruct (Hl a ltac:(set_solver)) as [[[vk sk] num] Ha]. rewrite Ha. simpl in *.
  rewrite Ha in Hsum. simpl in Hsum.
  pose proof (builder_entries _ _ Hok _ _ Ha) as Hn. unfold entry_slots in Hn. simpl in Hn.
  assert (Hnn : 0 <= sum_keys entry_slots self l).
  { clear -Hok. induction l as [|b l IHl]; simpl; [lia|]. destruct (self !! b) as [e|] eqn:Hb; simpl; [|lia].
    pose proof (builder_entries _ _ Hok _ _ Hb). lia. }
  rewrite wrap_small by (unfold in_width, max_value; lia).
  destruct (IH (s + num)) as (Hb & Hadr & Ht); [set_solver|lia|lia|]. split_and!.
  - done.
  - simpl. lia.
  - unfold entry_slots. cbn [snd]. by rewrite Z.add_assoc.
  - exact (f_equal (cons a) Hadr).
  - constructor; [|done]. simpl. unfold in_width, max_value. lia.
Qed.

(** After a push per slot the builder gives a well-formed set of exactly the
    pushed validators. *)
Lemma builder_build_ok self :
  builder_ok self SLOTS ->
  well_formed (builder_build self) /\
  forall v, v ∈ vs_validators (builder_build self) -> is_Some (self !! sv_address v).
Proof.
  intros Hok. destruct (sorted_keys_spec self) as [Hnd Hin].
  pose proof (sum_keys_map entry_slots self _ Hnd Hin) as Hsum. rewrite (builder_count _ _ Hok) in Hsum.
  destruct (build_loop_spec self (sorted_keys self) 0 SLOTS Hok) as (Hb & Ha & Ht);
    [intros a; by rewrite Hin|done|by rewrite Hsum|].
  rewrite Hsum in Hb. split.
  - split_and!; [done|done|]. apply validate_structure_spec; [done|]. simpl. by rewrite Ha.
  - intros v Hv. apply Hin. rewrite <-Ha. apply list_elem_of_fmap. by exists v.
Qed.
