(* ===== verification/Election.v ===== *)
(** * Elections and upgrade support

    The functions of [staking_contract/mod.rs] that read the active validators:
    the election of the next epoch's validators from a random source, and the
    support for a version upgrade. *)

From S2P Require Import Prelude Coin Policy AccountTypes StakingTypes ValidatorOps StakerOps.
From S2P Require Import StakingContract StakingInv StakingProofs StakingSpec Discrete Slots.

(** The values of an ordered map, in the order of the keys. *)
Definition sorted_values (m : gmap Z Z) : list Z := (fun a => default 0 (m !! a)) <$> sorted_keys m.

(** The loop of [select_validators] over the slots: a sampled index, the address
    at it, the stored validator. *)
Fixpoint select_loop {R} `{Rng R} (slots fuel : nat) (lookup : DiscreteDistribution)
    (addresses : list Z) (vals : gmap Z Validator) (r : R) (slots_builder : ValidatorsBuilder)
  : option ValidatorsBuilder :=
  match slots with
  | O => Some slots_builder
  | S slots =>
      '(index, r) ← sample fuel lookup r;
      address ← addresses !! index;
      chosen_validator ← vals !! address;
      select_loop slots fuel lookup addresses vals r
        (builder_push (v_address chosen_validator) (v_voting_key chosen_validator)
           (v_signing_key chosen_validator) slots_builder)
  end.

(** [fuel] bounds the draws that are rejected for one sample. *)
Definition select_validators {R} `{Rng R} (fuel : nat) (self : StakingTypes.StakingContract)
    (store : Store) (r : R) : option Validators :=
  let validator_addresses := sorted_keys (sc_active_validators self) in
  let validator_stakes := sorted_values (sc_active_validators self) in
  match validator_stakes with
  | [] => None
  | _ =>
      lookup ← new_distribution validator_stakes;
      slots_builder ← select_loop (Z.to_nat SLOTS) fuel lookup validator_addresses
                        (validators store) r builder_new;
      Some (builder_build slots_builder)
  end.

(** ** Upgrade support *)

Definition get_active_stake : AM St Z :=
  active ← get_state (fun x : St => sc_active_validators x.1);
  sum (sorted_values active).

Definition get_supporting_stake (support_check : option (list Z) -> bool) : AM St Z :=
  active ← get_state (fun x : St => sc_active_validators x.1);
  vals ← get_state (fun x : St => validators x.2);
  stakes ← foldr (fun validator_address (acc : AM St (list Z)) =>
      validator ← expect (vals !! validator_address);
      rest ← acc;
      mret (if support_check (v_signal_data validator)
            then default 0 (active !! validator_address) :: rest else rest))
    (mret []) (sorted_keys active);
  sum stakes.

Definition get_supporting_slots (elected : Validators) (support_check : option (list Z) -> bool)
    (vals : gmap Z Validator) : Z :=
  foldl (fun acc validator =>
      let supports_upgrade :=
        match vals !! sv_address validator with
        | Some val => support_check (v_signal_data val)
        | None => false
        end in
      wrap 16 (acc + if supports_upgrade then num_slots validator else 0))
    0 (vs_validators elected).

Definition supports_version_upgrade (elected : Validators) (new_version : Z) : AM St bool :=
  let support_check data := supports_upgrade data new_version in
  vals ← get_state (fun x : St => validators x.2);
  let supporting_slots := get_supporting_slots elected support_check vals in
  if wrap 64 (supporting_slots * 100) <? wrap 64 (SLOTS * UPGRADE_MIN_SUPPORT) then mret false
  else
    supporting_stake ← get_supporting_stake support_check;
    total_active_stake ← get_active_stake;
    mret (wrap 64 (total_active_stake * UPGRADE_MIN_SUPPORT)
          <=? wrap 64 (supporting_stake * 100)).

(** ** Sums of stakes *)

Lemma sum_keys_le {V} (f : V -> Z) (m : gmap Z V) l :
  NoDup l -> (forall k x, m !! k = Some x -> 0 <= f x) -> sum_keys f m l <= map_sum f m.
Proof.
  revert m. induction l as [|a l IH]; intros m Hnd Hf; simpl; [by apply map_sum_nonneg|].
  apply NoDup_cons in Hnd as [Ha Hnd]. pose proof (map_sum_delete f m a) as Hd.
  assert (He : sum_keys f (delete a m) l = sum_keys f m l).
  { clear -Ha. induction l as [|b l IHl]; [done|]. simpl. rewrite IHl by set_solver.
    by rewrite lookup_delete_ne by set_solver. }
  specialize (IH (delete a m) Hnd). rewrite He in IH.
  enough (sum_keys f m l <= map_sum f (delete a m)) by lia. apply IH.
  intros k x Hk. apply lookup_delete_Some in Hk as [_ Hk]. by apply (Hf k).
Qed.

(** A staker delegates to one validator at most. *)
Lemma stake_of_sum s l :
  NoDup l -> 0 <= s_active_balance s ->
  0 <= foldr (fun v acc => stake_of v s + acc) 0 l <= s_active_balance s /\
  (s_delegation s ∉ Some <$> l -> foldr (fun v acc => stake_of v s + acc) 0 l = 0).
Proof.
  intros Hnd H0. induction Hnd as [|v l Hv Hnd [IH1 IH2]]; simpl; [split; [lia|done]|].
  destruct (decide (s_delegation s = Some v)) as [Hd|Hd].
  - assert (Hs : stake_of v s = s_active_balance s) by (unfold stake_of; by rewrite decide_True).
    rewrite Hs, Hd in *. rewrite IH2 by set_solver. split; [lia|set_solver].
  - assert (Hs : stake_of v s = 0) by (unfold stake_of; by rewrite decide_False).
    rewrite Hs. split; [lia|]. intros Hn. rewrite IH2; [done|set_solver].
Qed.

Lemma staked_sum_le stk l :
  NoDup l -> (forall k s, stk !! k = Some s -> staker_ok k s) ->
  foldr (fun v acc => staked stk v + acc) 0 l <= map_sum staker_total stk.
Proof.
  intros Hnd. induction stk as [|k s m Hk IH] using map_ind; intros Hok.
  - rewrite map_sum_empty. clear. induction l as [|v l IH]; simpl; [done|].
    unfold staked at 1. rewrite map_sum_empty. lia.
  - rewrite map_sum_insert_fresh by done.
    assert (Heq : foldr (fun v acc => staked (<[k:=s]> m) v + acc) 0 l
      = foldr (fun v acc => stake_of v s + acc) 0 l + foldr (fun v acc => staked m v + acc) 0 l).
    { clear -Hk. induction l as [|v l IH]; simpl; [done|]. unfold staked at 1.
      rewrite map_sum_insert_fresh by done. unfold staked at 2. lia. }
    destruct (Hok k s (lookup_insert_eq _ _ _)) as [_ Hnn _ _ _].
    destruct (stake_of_sum s l Hnd) as [[_ Hle] _]; [lia|].
    rewrite Heq. enough (foldr (fun v acc => staked m v + acc) 0 l <= map_sum staker_total m)
      by (unfold staker_total at 1; lia).
    apply IH. intros k' s' Hk'. apply Hok. rewrite lookup_insert_ne; [done|]. intros ->. congruence.
Qed.

Section Stakes.
Context `{P : Policy} {bn bal : Z} {act : gmap Z Z} {pun : PunishedSlots.PunishedSlots}.
Context {vals : gmap Z Validator} {stk : gmap Z Staker} {tomb : gmap Z Tombstone}.
Hypothesis Hwf : WF bn (mk_st bal act pun vals stk tomb).

(** The stake of an active validator. *)
Lemma active_stake v st :
  act !! v = Some st -> exists val, vals !! v = Some val /\ st = v_deposit val + staked stk v /\
    0 <= v_deposit val /\ 0 <= staked stk v.
Proof.
  intros Hst. destruct (active_exists _ _ _ _ _ _ _ v Hwf) as (val & Hv & Ha & _); [by eauto|].
  destruct (wf_books_eq Hwf v) as (_ & Hn & _ & Hbk). rewrite Hv, Ha, Hst in Hbk.
  destruct Hbk as (Ht & _ & _ & [= ->]). exists val. split_and!; [done|done| |done].
  by apply (wf_validators _ _ Hwf v val).
Qed.

Lemma active_sum_le l :
  NoDup l -> (forall v, v ∈ l -> is_Some (act !! v)) ->
  0 <= sum_keys id act l <= bal.
Proof.
  intros Hnd Hl.
  assert (Heq : sum_keys id act l
    = sum_keys v_deposit vals l + foldr (fun v acc => staked stk v + acc) 0 l).
  { clear Hnd. induction l as [|v l IH]; simpl; [done|]. rewrite IH by set_solver.
    destruct (Hl v ltac:(set_solver)) as [st Hst]. rewrite Hst.
    destruct (active_stake v st Hst) as (val & Hv & -> & _). rewrite Hv. simpl. unfold id. lia. }
  split.
  - clear Heq Hnd. induction l as [|v l IH]; simpl; [done|]. specialize (IH ltac:(set_solver)).
    destruct (Hl v ltac:(set_solver)) as [st Hst]. rewrite Hst. simpl. change (id st) with st.
    destruct (active_stake v st Hst) as (val & Hv & -> & ? & ?). lia.
  - rewrite Heq, (wf_balance_eq Hwf).
    pose proof (sum_keys_le v_deposit vals l Hnd (wf_deposit_nonneg Hwf)).
    pose proof (staked_sum_le stk l Hnd (wf_stakers _ _ Hwf)). lia.
Qed.

Lemma active_keys :
  NoDup (sorted_keys act) /\ (forall v, v ∈ sorted_keys act -> is_Some (act !! v)) /\
  (forall v, is_Some (act !! v) -> v ∈ sorted_keys act).
Proof. destruct (sorted_keys_spec act) as [Hnd Hin]. split_and!; [done|intros v; apply Hin..]. Qed.
End Stakes.

(** ** Sums never panic *)

Lemma coin_sum_spec {S E} (l : list Z) (s : S) :
  Forall (fun x => 0 <= x) l -> sum_list_Z l <= MAX_SAFE_VALUE ->
  (sum l : M S E Z) s = (Ok (sum_list_Z l), s).
Proof.
  intros Hl Hmax. unfold sum.
  cut (forall (m : M S E Z) a, (forall s, m s = (Ok a, s)) -> 0 <= a -> a + sum_list_Z l <= MAX_SAFE_VALUE ->
    foldl (fun acc c => a ← acc; add a c) m l s = (Ok (a + sum_list_Z l), s)).
  { intros Hc. by apply (Hc (mret 0) 0). }
  clear Hmax. induction Hl as [|x l Hx Hl IH]; intros m a Hm Ha Hmax; simpl in *.
  { rewrite Hm. by rewrite Z.add_0_r. }
  pose proof (sum_list_nonneg _ Hl). rewrite (IH _ (a + x)); [by rewrite Z.add_assoc| |lia|lia].
  intros s'. unfold mbind, M_bind. rewrite Hm. unfold add.
  rewrite coin_checked_add_spec by (unfold coin_ok; lia).
  by destruct (Z.leb_spec (a + x) MAX_SAFE_VALUE); [|lia].
Qed.

(** The stakes at a list of addresses. *)
Definition stakes_at (act : gmap Z Z) (l : list Z) : list Z := (fun a => default 0 (act !! a)) <$> l.

Lemma stakes_at_sum act l : sum_list_Z (stakes_at act l) = sum_keys id act l.
Proof.
  induction l as [|a l IH]; [done|].
  change (default 0 (act !! a) + sum_list_Z (stakes_at act l) = opt_val id (act !! a) + sum_keys id act l).
  rewrite IH. by destruct (act !! a).
Qed.

Section Support.
Context `{P : Policy} {bn bal : Z} {act : gmap Z Z} {pun : PunishedSlots.PunishedSlots}.
Context {vals : gmap Z Validator} {stk : gmap Z Staker} {tomb : gmap Z Tombstone}.
Hypothesis Hwf : WF bn (mk_st bal act pun vals stk tomb).
Local Abbreviation x := (mk_st bal act pun vals stk tomb).

Lemma stakes_nonneg_at l : (forall v, v ∈ l -> is_Some (act !! v)) -> Forall (fun y => 0 <= y) (stakes_at act l).
Proof.
  intros Hl. apply Forall_fmap, Forall_forall. intros v Hv. destruct (Hl v Hv) as [st Hst]. simpl.
  rewrite Hst. destruct (active_stake Hwf v st Hst) as (val & _ & -> & ? & ?). simpl. lia.
Qed.

Lemma get_active_stake_run lg : get_active_stake (x, lg) = (Ok (map_sum id act), (x, lg)).
Proof.
  destruct (active_keys (act := act)) as (Hnd & Hin & Hall).
  pose proof (active_sum_le Hwf _ Hnd Hin) as Hle. pose proof (wf_max _ _ Hwf) as Hmax. simpl in Hmax.
  unfold get_active_stake, mbind, M_bind. simpl. change (sorted_values act) with (stakes_at act (sorted_keys act)).
  rewrite coin_sum_spec; [|by apply stakes_nonneg_at|rewrite stakes_at_sum; lia].
  rewrite stakes_at_sum, sum_keys_map; [done..|]. intros v. split; [apply Hin|apply Hall].
Qed.

Context (check : option (list Z) -> bool).

(** The active validators that pass the check. *)
Definition supporting (l : list Z) : list Z :=
  filter (fun v => match vals !! v with Some val => check (v_signal_data val) | None => false end = true) l.

Lemma supporting_run l s :
  (forall v, v ∈ l -> is_Some (vals !! v)) ->
  (foldr (fun validator_address (acc : AM St (list Z)) =>
      validator ← expect (vals !! validator_address);
      rest ← acc;
      mret (if check (v_signal_data validator)
            then default 0 (act !! validator_address) :: rest else rest))
    (mret []) l) s = (Ok (stakes_at act (supporting l)), s).
Proof.
  induction l as [|v l IH]; intros Hl; [done|]. cbn [foldr].
  destruct (Hl v ltac:(set_solver)) as [val Hv].
  etrans; [apply (bind_ok _ _ s val s); by rewrite Hv|]. cbv beta.
  etrans; [eapply bind_ok, IH; set_solver|].
  unfold supporting. rewrite filter_cons, Hv. by destruct (check (v_signal_data val)).
Qed.

Lemma get_supporting_stake_run lg :
  get_supporting_stake check (x, lg) = (Ok (sum_keys id act (supporting (sorted_keys act))), (x, lg)).
Proof.
  destruct (active_keys (act := act)) as (Hnd & Hin & Hall).
  assert (Hsub : forall v, v ∈ supporting (sorted_keys act) -> is_Some (act !! v)).
  { intros v Hv. apply Hin. unfold supporting in Hv. by apply list_elem_of_filter in Hv as [_ ?]. }
  pose proof (active_sum_le Hwf (supporting (sorted_keys act)) ltac:(by apply NoDup_filter) Hsub) as Hle.
  pose proof (wf_max _ _ Hwf) as Hmax. simpl in Hmax.
  unfold get_supporting_stake. do 2 (etrans; [by eapply bind_ok|cbv beta]).
  etrans; [eapply bind_ok, supporting_run|].
  - intros v [st Hst]%Hin. destruct (active_stake Hwf v st Hst) as (val & ? & _). eauto.
  - cbn [fst snd sc_active_validators]. rewrite coin_sum_spec; [by rewrite stakes_at_sum|by apply stakes_nonneg_at|rewrite stakes_at_sum; lia].
Qed.

(** The stake that supports is all that an upgrade keeps active. *)
Lemma supporting_sum (act' : gmap Z Z) :
  (forall v, act' !! v = match vals !! v with
                         | Some val => if check (v_signal_data val) then act !! v else None
                         | None => None
                         end) ->
  sum_keys id act (supporting (sorted_keys act)) = map_sum id act'.
Proof.
  intros Hact. destruct (active_keys (act := act)) as (Hnd & Hin & Hall).
  rewrite <-(sum_keys_map id act' (supporting (sorted_keys act))).
  - assert (Hs : forall v, v ∈ supporting (sorted_keys act) -> act' !! v = act !! v).
    { intros v Hv. unfold supporting in Hv. apply list_elem_of_filter in Hv as [Hc _]. rewrite Hact.
      destruct (vals !! v) as [val|]; [|done]. by rewrite Hc. }
    clear -Hs. induction (supporting _) as [|v l IH]; [done|]. simpl.
    rewrite (Hs v), IH; [done|set_solver|set_solver].
  - by apply NoDup_filter.
  - intros v. unfold supporting. rewrite list_elem_of_filter, Hact. split.
    + intros [Hc Hv%Hin]. destruct (vals !! v) as [val|]; [|done]. by rewrite Hc.
    + destruct (vals !! v) as [val|]; [|by intros []]. destruct (check _); [|by intros []].
      intros Hv%Hall. done.
Qed.
End Support.

Section Upgrade.
Context `{P : Policy} {HP : PolicyOk P} `{Env : StakingEnv} `{Rc : StakingReceipts}.

(** Deciding on a version upgrade never panics, and an upgrade that is
    decided keeps at least 80% of the active stake active. *)
Theorem upgrade_keeps_majority elected version bs x lg :
  WF (bs_number bs) x ->
  exists supported, supports_version_upgrade elected version (x, lg) = (Ok supported, (x, lg)) /\
  exists x' lg', commit_inherent (Inherent.VersionUpgrade version) bs (x, lg) = (Ok None, (x', lg')) /\
  exists before after, get_active_stake (x, lg) = (Ok before, (x, lg)) /\
    get_active_stake (x', lg') = (Ok after, (x', lg')) /\
    (supported = true -> before * UPGRADE_MIN_SUPPORT <= after * 100).
Proof.
  intros Hwf. destruct (commit_version_upgrade version bs x lg Hwf)
    as (x' & lg' & Hrun & Hwf' & _ & _ & _ & Hact).
  destruct x as [[bal act pun] [vals stk tomb]], x' as [[bal' act' pun'] [vals' stk' tomb']].
  cbn [fst snd sc_active_validators validators] in Hact.
  pose proof (get_active_stake_run Hwf lg) as Hbefore. pose proof (get_active_stake_run Hwf' lg') as Hafter.
  pose proof (get_supporting_stake_run Hwf (fun data => supports_upgrade data version) lg) as Hsup.
  rewrite (supporting_sum _ act' Hact) in Hsup.
  set (slots := get_supporting_slots elected (fun data => supports_upgrade data version) vals).
  exists (if wrap 64 (slots * 100) <? wrap 64 (SLOTS * UPGRADE_MIN_SUPPORT) then false
          else wrap 64 (map_sum id act * UPGRADE_MIN_SUPPORT) <=? wrap 64 (map_sum id act' * 100)).
  split.
  - unfold supports_version_upgrade. etrans; [by eapply bind_ok|]. cbv beta zeta.
    change (get_supporting_slots _ _ _) with slots. destruct (_ <? _); [reflexivity|].
    etrans; [eapply bind_ok, Hsup|]. cbv beta. etrans; [eapply bind_ok, Hbefore|]. reflexivity.
  - eexists _, _. split; [exact Hrun|]. eexists _, _. split; [exact Hbefore|]. split; [exact Hafter|].
    destruct (_ <? _); [done|]. intros Hle%Z.leb_le. revert Hle.
    assert (Hb : forall b a p v s t, WF (bs_number bs) (mk_st b a p v s t) ->
      0 <= map_sum id a <= MAX_SAFE_VALUE).
    { clear. intros b a p v s t Hwf. destruct (active_keys (act := a)) as (Hnd & Hin & Hall).
      pose proof (active_sum_le Hwf _ Hnd Hin) as Hle. pose proof (wf_max _ _ Hwf) as Hmax. simpl in Hmax.
      rewrite sum_keys_map in Hle; [lia|done|]. intros k. split; [apply Hin|apply Hall]. }
    pose proof (Hb _ _ _ _ _ _ Hwf). pose proof (Hb _ _ _ _ _ _ Hwf').
    unfold wrap, UPGRADE_MIN_SUPPORT, MAX_SAFE_VALUE in *. rewrite !Z.mod_small by lia. done.
Qed.
End Upgrade.

(** ** Elections *)

(** A source of randomness that has an acceptable draw among the next [fuel]. *)
Definition productive {R} `{Rng R} (fuel : nat) : Prop :=
  forall limit (r : R), 0 < limit < 2 ^ 64 -> is_Some (next_u64_below fuel limit r).

(** The builder holds active validators with their keys. *)
Definition elected_ok (act : gmap Z Z) (vals : gmap Z Validator) (b : ValidatorsBuilder) : Prop :=
  forall a e, b !! a = Some e -> exists val, vals !! a = Some val /\ is_Some (act !! a) /\
    e.1 = (v_voting_key val, v_signing_key val).

Lemma elected_push act vals b a val :
  elected_ok act vals b -> vals !! a = Some val -> is_Some (act !! a) ->
  elected_ok act vals (builder_push a (v_voting_key val) (v_signing_key val) b).
Proof.
  intros Hb Hv Ha c e. unfold builder_push. destruct (b !! a) as [[[vk sk] num]|] eqn:Hba; simpl;
    rewrite lookup_insert_Some; (intros [[<- <-]|[_ Hc]]; [|by apply Hb]); exists val; split_and!; try done.
  destruct (Hb a _ Hba) as (val' & Hv' & _ & Hk). simpl in *. congruence.
Qed.

Lemma build_loop_entries b l s v :
  v ∈ build_loop b l s ->
  exists num, b !! sv_address v = Some (sv_voting_key v, sv_signing_key v, num).
Proof.
  revert s. induction l as [|a l IH]; intros s; simpl; [by intros ?%elem_of_nil|].
  destruct (b !! a) as [[[vk sk] num]|] eqn:Ha; [|apply IH].
  intros [->|Hv]%elem_of_cons; [by exists num|by eapply IH].
Qed.

Section Elect.
Context `{P : Policy} {bn bal : Z} {act : gmap Z Z} {pun : PunishedSlots.PunishedSlots}.
Context {vals : gmap Z Validator} {stk : gmap Z Staker} {tomb : gmap Z Tombstone}.
Hypothesis Hwf : WF bn (mk_st bal act pun vals stk tomb).
Context {R : Type} `{HR : Rng R} (fuel : nat).
Hypothesis Hprod : productive (R := R) fuel.

Lemma sample_spec d (r : R) :
  (0 < dd_n d)%nat -> Z.of_nat (dd_n d) < 2 ^ 64 -> 0 < dd_T d < 2 ^ 64 ->
  (forall x y, (x < dd_n d)%nat -> (sample_at d x y < dd_n d)%nat) ->
  exists i r', sample fuel d r = Some (i, r') /\ (i < dd_n d)%nat.
Proof.
  intros Hn Hn64 HT Hs. unfold sample.
  destruct (Hprod (Z.of_nat (dd_n d)) r) as [[x r1] Hx]; [lia|]. rewrite Hx. simpl.
  destruct (Hprod (dd_T d) r1) as [[y r2] Hy]; [lia|]. rewrite Hy. simpl.
  eexists _, _. split; [done|]. apply Hs.
  apply next_u64_below_range in Hx; lia.
Qed.

Lemma select_loop_spec k d (r : R) b count :
  dd_n d = length (sorted_keys act) -> (0 < dd_n d)%nat -> Z.of_nat (dd_n d) < 2 ^ 64 ->
  0 < dd_T d < 2 ^ 64 -> (forall x y, (x < dd_n d)%nat -> (sample_at d x y < dd_n d)%nat) ->
  builder_ok b count -> elected_ok act vals b -> count + Z.of_nat k < 2 ^ 16 ->
  exists b', select_loop k fuel d (sorted_keys act) vals r b = Some b' /\
    builder_ok b' (count + Z.of_nat k) /\ elected_ok act vals b'.
Proof.
  intros Hlen Hn Hn64 HT Hs. revert r b count.
  induction k as [|k IH]; intros r b count Hb He Hc.
  { exists b. simpl. by rewrite Z.add_0_r. }
  destruct (sample_spec d r Hn Hn64 HT Hs) as (i & r' & Hsm & Hi). cbn [select_loop]. rewrite Hsm. simpl.
  destruct (lookup_lt_is_Some_2 (sorted_keys act) i) as [a Ha]; [lia|]. rewrite Ha. simpl.
  destruct (active_keys (act := act)) as (_ & Hin & _).
  pose proof (Hin a (list_elem_of_lookup_2 _ _ _ Ha)) as Hact.
  destruct (active_exists _ _ _ _ _ _ _ a Hwf Hact) as (val & Hv & _ & Hadr). rewrite Hv. simpl. rewrite Hadr.
  destruct (IH r' (builder_push a (v_voting_key val) (v_signing_key val) b) (count + 1))
    as (b' & Hrun & Hb' & He'); [apply builder_push_ok; [done|lia]|by apply elected_push|lia|].
  exists b'. split_and!; [done| |done]. by replace (count + Z.of_nat (S k)) with (count + 1 + Z.of_nat k) by lia.
Qed.

Lemma election_stakes_ok :
  0 < map_sum id act -> Z.of_nat (length (sorted_keys act)) * bal < 2 ^ 64 ->
  stakes_ok (sorted_values act).
Proof.
  intros Hpos Hfit. destruct (active_keys (act := act)) as (Hnd & Hin & Hall).
  pose proof (active_sum_le Hwf _ Hnd Hin) as Hle.
  change (sorted_values act) with (stakes_at act (sorted_keys act)).
  assert (Hk : sum_keys id act (sorted_keys act) = map_sum id act).
  { apply sum_keys_map; [done|]. intros v. split; [apply Hin|apply Hall]. }
  split.
  - by apply (stakes_nonneg_at Hwf).
  - by rewrite stakes_at_sum, Hk.
  - rewrite stakes_at_sum. unfold stakes_at. rewrite length_fmap. nia.
Qed.
End Elect.

(** C13: let a well-formed contract have active stake, let the source of randomness
    yield an acceptable number within any [fuel] draws in a row ([productive]; rejection
    sampling has no bound of its own), and let the number of active validators times
    the balance of the contract be below [2 ^ 64], as it always is up to 2048 active
    validators (beyond it the products of the alias method may wrap around).  Then an
    election does not panic and ends, it allocates all slots in a well-formed validator
    set, and it elects only active validators, with the keys they have stored. *)
Theorem election_well_formed `{P : Policy} {R} `{HR : Rng R} fuel bn x (r : R) :
  WF bn x -> productive (R := R) fuel -> 0 < map_sum id (sc_active_validators x.1) ->
  Z.of_nat (size (sc_active_validators x.1)) * sc_balance x.1 < 2 ^ 64 ->
  exists elected, select_validators fuel x.1 x.2 r = Some elected /\ well_formed elected /\
    forall v, v ∈ vs_validators elected -> exists val, validators x.2 !! sv_address v = Some val /\
      is_active val = true /\ sv_voting_key v = v_voting_key val /\
      sv_signing_key v = v_signing_key val.
Proof.
  intros Hwf Hprod Hpos Hfit. destruct x as [[bal act pun] [vals stk tomb]].
  cbn [fst snd sc_active_validators sc_balance validators] in *.
  assert (Hsize : length (sorted_keys act) = size act).
  { unfold sorted_keys. rewrite merge_sort_Permutation, length_fmap. by apply length_map_to_list. }
  pose proof (election_stakes_ok Hwf Hpos ltac:(by rewrite Hsize)) as Hok.
  destruct (new_distribution_spec _ Hok) as (K & U & Hnew & Hinv).
  assert (Hlen : length (sorted_values act) = length (sorted_keys act))
    by (unfold sorted_values; by rewrite length_fmap).
  pose proof (stakes_length _ Hok) as Hn. destruct Hok as [_ Hsum Hf].
  assert (Hn64 : Z.of_nat (length (sorted_values act)) < 2 ^ 64) by nia.
  assert (HT : 0 < sum_list_Z (sorted_values act) < 2 ^ 64) by nia.
  destruct (select_loop_spec Hwf fuel Hprod (Z.to_nat SLOTS)
    (mk_dist (sum_list_Z (sorted_values act)) (length (sorted_values act)) K U) r builder_new 0)
    as (b & Hrun & Hb & He); [done|done|done|done| |apply builder_empty| |done|].
  { intros i y Hi. unfold sample_at. cbn [dd_U dd_K dd_n] in *. destruct (_ <? _); [done|]. by apply (ai_alias _ _ _ _ _ _ Hinv). }
  { intros a e. unfold builder_new. by rewrite lookup_empty. }
  exists (builder_build b). destruct (builder_build_ok b Hb) as [Hwfb _]. split_and!; [|done|].
  - unfold select_validators. simpl. destruct (sorted_values act) as [|y l] eqn:Hl; [simpl in Hn; lia|].
    rewrite Hnew. simpl in Hrun |- *. by rewrite Hrun.
  - intros v Hv. destruct (build_loop_entries b (sorted_keys b) 0 v Hv) as [num Hbv].
    destruct (He _ _ Hbv) as (val & Hval & Hact & Hkeys). simpl in Hkeys. injection Hkeys as -> ->.
    destruct (active_exists _ _ _ _ _ _ _ _ Hwf Hact) as (val' & Hval' & Ha & _). simplify_eq. eauto.
Qed.

(** ** A concrete election

    The contract of the staking example and a source of alternating bits. *)

Module Example.
Import StakingSpec.Example.
#[local] Existing Instances MAINNET_POLICY receipts env.

#[local] Instance bits : Rng bool := fun b => (Z.b2z b, negb b).

Lemma bits_productive : productive (R := bool) 1.
Proof.
  intros limit r Hl. unfold next_u64_below. destruct (Z.eqb_spec limit 0); [lia|].
  rewrite bitmask_eq by done. simpl. rewrite Z.land_ones by apply Z.log2_up_nonneg.
  assert (Z.b2z r `mod` 2 ^ Z.log2_up limit < limit) as Hlt.
  { destruct (decide (limit = 1)) as [->|]; [by destruct r|].
    pose proof (Z.log2_up_nonneg limit).
    pose proof (Z.mod_le (Z.b2z r) (2 ^ Z.log2_up limit) ltac:(by destruct r)
                  ltac:(apply Z.pow_pos_nonneg; lia)).
    assert (Z.b2z r <= 1) by by destruct r. lia. }
  apply Z.ltb_lt in Hlt. rewrite Hlt. by eexists.
Qed.

Definition two_bands : Validators :=
  new_validators [mk_slot_validator 7 71 70 (mk_range 0 200); mk_slot_validator 8 81 80 (mk_range 200 512)].

Lemma slots_owned_once_witness :
  exists v, get_validator_by_slot_number two_bands 300 = Some v /\ sv_address v = 8.
Proof.
  destruct (slots_owned_once two_bands) as [Hs _].
  - split_and!; [|done|vm_compute; done]. repeat constructor; vm_compute; done.
  - destruct (Hs 300) as (v & Hv & _); [done|]. exists v. split; [done|]. vm_compute in Hv.
    by injection Hv as <-.
Defined.

Lemma upgrade_keeps_majority_witness :
  exists supported, supports_version_upgrade two_bands 2 (contract, []) = (Ok supported, (contract, [])) /\
  exists x' lg', commit_inherent (Inherent.VersionUpgrade 2) (at_block staked_at) (contract, [])
                 = (Ok None, (x', lg')) /\
  exists before after, get_active_stake (contract, []) = (Ok before, (contract, [])) /\
    get_active_stake (x', lg') = (Ok after, (x', lg')) /\
    (supported = true -> before * UPGRADE_MIN_SUPPORT <= after * 100).
Proof.
  apply (upgrade_keeps_majority two_bands 2 (at_block staked_at) contract []).
  apply reachable_wf, contract_reachable.
Defined.

Lemma election_well_formed_witness :
  exists elected, select_validators 1 contract.1 contract.2 true = Some elected /\ well_formed elected /\
    forall v, v ∈ vs_validators elected -> exists val, validators contract.2 !! sv_address v = Some val /\
      is_active val = true /\ sv_voting_key v = v_voting_key val /\
      sv_signing_key v = v_signing_key val.
Proof.
  apply (election_well_formed 1 staked_at contract true).
  - apply reachable_wf, contract_reachable.
  - apply bits_productive.
  - vm_compute. done.
  - vm_compute. done.
Defined.
End Example.
