(* ===== verification/Tendermint.v ===== *)
(** * The Tendermint state machine

    Models the crate [tendermint/src]: [state.rs], [utils.rs], [protocol.rs],
    the operations of [tendermint.rs] and the three states of the machine in
    [states/].  The trait [Protocol] is the class [Protocol]; its calls with an
    effect on the outside are recorded in the field [protocol] of the instance,
    and what the streams, futures and callbacks answer during one call of
    [poll_next] is the record [Inputs].  A [BTreeMap] is a [gmap] whose keys are
    visited in order, a [BitSet] the set of its members, a proposal or inherent
    hash the number its bytes denote. *)

From S2P Require Import Prelude.

(** ** Steps ([utils.rs]) *)

Module Step.
Inductive t := Propose | Prevote | Precommit.

#[export] Instance eq_dec : EqDecision t.
Proof. solve_decision. Defined.

Definition to_u8 (s : t) : Z :=
  match s with Propose => 0 | Prevote => 1 | Precommit => 2 end.
Definition try_from (value : Z) : option t :=
  if value =? 0 then Some Propose
  else if value =? 1 then Some Prevote
  else if value =? 2 then Some Precommit
  else None.

Lemma try_from_u8 s : try_from (to_u8 s) = Some s.
Proof. by destruct s. Qed.

#[export] Instance countable : Countable t := inj_countable to_u8 try_from try_from_u8.
End Step.
Import Step.

(** The tag of an aggregation: its round and step, in the derived order. *)
Abbreviation Id := (Z * Step.t)%type.
Definition id_le (a b : Id) : Prop :=
  a.1 < b.1 \/ (a.1 = b.1 /\ to_u8 a.2 <= to_u8 b.2).
#[export] Instance id_le_dec : RelDecision id_le.
Proof. intros a b. unfold id_le. apply _. Defined.
Definition sorted_ids {V} (m : gmap Id V) : list Id := merge_sort id_le (map_to_list m).*1.

(** [BTreeMap::entry(k).or_default()] on a map of maps. *)
Definition or_default {V} (k : Z) (m : gmap Z (gmap Z V)) : gmap Z (gmap Z V) :=
  match m !! k with Some _ => m | None => <[k:=∅]> m end.
Definition entry {V} (k : Z) (m : gmap Z (gmap Z V)) : gmap Z V := default ∅ (m !! k).
(** [iter().next()] *)
Definition first {V} (m : gmap Z V) : option (Z * V) :=
  k ← head (sorted_keys m); x ← m !! k; Some (k, x).

(** ** What the instance needs from the outside ([protocol.rs]) *)

Class Protocol := {
  Proposal : Type;
  Inherent : Type;
  ProposalSignature : Type;
  Aggregation : Type;
  Decision : Type;
  TIMEOUT_DELTA : Z;
  TIMEOUT_INIT : Z;
  TWO_F_PLUS_ONE : Z;
  F_PLUS_ONE : Z;
  hash : Proposal -> Z;
  inherent_hash : Proposal -> Z;
  hash_of_inherent : Inherent -> Z;
  proposals : Aggregation -> list (Z * Z);
  contributors_for : Aggregation -> option Z -> gset Z;
  all_contributors : Aggregation -> gset Z;
  (** [None] where the implementation panics. *)
  create_decision : Proposal -> Inherent -> Aggregation -> Z -> option Decision;
}.

(** [BitSet::len] *)
Definition len (s : gset Z) : Z := Z.of_nat (size s).

Inductive ProtocolError := Abort.

Section Types.
Context `{Pr : Protocol}.

Record ProposalMessage := mk_message {
  pm_round : Z;
  pm_valid_round : option Z;
  pm_proposal : Proposal;
}.
Record SignedProposalMessage := mk_signed {
  sp_message : ProposalMessage;
  sp_signature : ProposalSignature;
}.
Record AggregationMessage := mk_agg_message {
  am_sender : Z;
  am_aggregation : Aggregation;
}.
Record TaggedAggregationMessage := mk_tagged {
  tag : Id;
  aggregation : AggregationMessage;
}.

(** The calls of the protocol that reach the outside. *)
Inductive Effect :=
  | BroadcastProposal (proposal : SignedProposalMessage)
  | RequestProposal (proposal_hash round : Z) (candidates : gset Z)
  | CreateAggregation (round : Z) (step : Step.t) (vote : option Z).

(** ** The state ([state.rs]) *)

Record State := mk_state {
  current_round : Z;
  current_step : Step.t;
  known_proposals : gmap Z Proposal;
  round_proposals : gmap Z (gmap Z (option Z * ProposalSignature));
  votes : gmap Id (option Z);
  best_votes : gmap Id Aggregation;
  inherents : gmap Z Inherent;
  locked : option (Z * Z);
  valid : option (Z * Z);
}.
Definition default_state : State := mk_state 0 Propose ∅ ∅ ∅ ∅ ∅ None None.

Definition set_round r (s : State) := mk_state r (current_step s) (known_proposals s)
  (round_proposals s) (votes s) (best_votes s) (inherents s) (locked s) (valid s).
Definition set_step st (s : State) := mk_state (current_round s) st (known_proposals s)
  (round_proposals s) (votes s) (best_votes s) (inherents s) (locked s) (valid s).
Definition set_known k (s : State) := mk_state (current_round s) (current_step s) k
  (round_proposals s) (votes s) (best_votes s) (inherents s) (locked s) (valid s).
Definition set_round_proposals rp (s : State) := mk_state (current_round s) (current_step s)
  (known_proposals s) rp (votes s) (best_votes s) (inherents s) (locked s) (valid s).
Definition set_votes v (s : State) := mk_state (current_round s) (current_step s)
  (known_proposals s) (round_proposals s) v (best_votes s) (inherents s) (locked s) (valid s).
Definition set_best_votes b (s : State) := mk_state (current_round s) (current_step s)
  (known_proposals s) (round_proposals s) (votes s) b (inherents s) (locked s) (valid s).
Definition set_inherents i (s : State) := mk_state (current_round s) (current_step s)
  (known_proposals s) (round_proposals s) (votes s) (best_votes s) i (locked s) (valid s).
Definition set_locked l (s : State) := mk_state (current_round s) (current_step s)
  (known_proposals s) (round_proposals s) (votes s) (best_votes s) (inherents s) l (valid s).
Definition set_valid v (s : State) := mk_state (current_round s) (current_step s)
  (known_proposals s) (round_proposals s) (votes s) (best_votes s) (inherents s) (locked s) v.

(** What a call of [poll_next] returns ([utils.rs]); [None] for the end of the
    stream. *)
Inductive Return :=
  | Decided (decision : Decision)
  | Update (state : State)
  | ProposalAccepted (proposal : SignedProposalMessage)
  | ProposalIgnored (proposal : SignedProposalMessage)
  | ProposalRejected (proposal : SignedProposalMessage).
Inductive Poll (A : Type) := Ready (a : A) | Pending.
Arguments Ready {A} a.
Arguments Pending {A}.

(** ** The instance ([tendermint.rs])

    The streams of the instance are inputs; of the started aggregations and the
    requested proposals it keeps the identifiers.  A running verification is
    the round and the contributors it yields when it succeeds; a timeout its
    duration. *)
Record Tendermint := mk_tendermint {
  protocol : list Effect;
  state : State;
  pending_proposal_requests : gset (Z * Z);
  aggregation_senders : gset Id;
  future_contributions : gmap Z (gset Z);
  future_round_messages : gmap Z TaggedAggregationMessage;
  future_round_verification : option (Z * gset Z);
  timeout : option Z;
  state_return_pending : bool;
  pending_aggregation_starts : gset Id;
  decision : bool;
  pending_decision : option Decision;
}.

Definition set_state st (t : Tendermint) := mk_tendermint (protocol t) st
  (pending_proposal_requests t) (aggregation_senders t) (future_contributions t)
  (future_round_messages t) (future_round_verification t) (timeout t) (state_return_pending t)
  (pending_aggregation_starts t) (decision t) (pending_decision t).
Definition upd f (t : Tendermint) := set_state (f (state t)) t.
Definition emit e (t : Tendermint) := mk_tendermint (protocol t ++ [e]) (state t)
  (pending_proposal_requests t) (aggregation_senders t) (future_contributions t)
  (future_round_messages t) (future_round_verification t) (timeout t) (state_return_pending t)
  (pending_aggregation_starts t) (decision t) (pending_decision t).
Definition set_requests r (t : Tendermint) := mk_tendermint (protocol t) (state t)
  r (aggregation_senders t) (future_contributions t)
  (future_round_messages t) (future_round_verification t) (timeout t) (state_return_pending t)
  (pending_aggregation_starts t) (decision t) (pending_decision t).
Definition set_senders s (t : Tendermint) := mk_tendermint (protocol t) (state t)
  (pending_proposal_requests t) s (future_contributions t)
  (future_round_messages t) (future_round_verification t) (timeout t) (state_return_pending t)
  (pending_aggregation_starts t) (decision t) (pending_decision t).
Definition set_future_contributions c (t : Tendermint) := mk_tendermint (protocol t) (state t)
  (pending_proposal_requests t) (aggregation_senders t) c
  (future_round_messages t) (future_round_verification t) (timeout t) (state_return_pending t)
  (pending_aggregation_starts t) (decision t) (pending_decision t).
Definition set_future_messages m (t : Tendermint) := mk_tendermint (protocol t) (state t)
  (pending_proposal_requests t) (aggregation_senders t) (future_contributions t)
  m (future_round_verification t) (timeout t) (state_return_pending t)
  (pending_aggregation_starts t) (decision t) (pending_decision t).
Definition set_verification v (t : Tendermint) := mk_tendermint (protocol t) (state t)
  (pending_proposal_requests t) (aggregation_senders t) (future_contributions t)
  (future_round_messages t) v (timeout t) (state_return_pending t)
  (pending_aggregation_starts t) (decision t) (pending_decision t).
Definition set_timeout d (t : Tendermint) := mk_tendermint (protocol t) (state t)
  (pending_proposal_requests t) (aggregation_senders t) (future_contributions t)
  (future_round_messages t) (future_round_verification t) d (state_return_pending t)
  (pending_aggregation_starts t) (decision t) (pending_decision t).
Definition set_return_pending b (t : Tendermint) := mk_tendermint (protocol t) (state t)
  (pending_proposal_requests t) (aggregation_senders t) (future_contributions t)
  (future_round_messages t) (future_round_verification t) (timeout t) b
  (pending_aggregation_starts t) (decision t) (pending_decision t).
Definition set_starts p (t : Tendermint) := mk_tendermint (protocol t) (state t)
  (pending_proposal_requests t) (aggregation_senders t) (future_contributions t)
  (future_round_messages t) (future_round_verification t) (timeout t) (state_return_pending t)
  p (decision t) (pending_decision t).
Definition set_decision b (t : Tendermint) := mk_tendermint (protocol t) (state t)
  (pending_proposal_requests t) (aggregation_senders t) (future_contributions t)
  (future_round_messages t) (future_round_verification t) (timeout t) (state_return_pending t)
  (pending_aggregation_starts t) b (pending_decision t).
Definition set_pending_decision d (t : Tendermint) := mk_tendermint (protocol t) (state t)
  (pending_proposal_requests t) (aggregation_senders t) (future_contributions t)
  (future_round_messages t) (future_round_verification t) (timeout t) (state_return_pending t)
  (pending_aggregation_starts t) (decision t) d.

(** ** Inputs of one call of [poll_next] *)

(** Result of [try_send] on the channel of an aggregation. *)
Inductive SendResult := Sent | Full | Closed.

(** One turn of the loop of [dispatch_messages]: the result of the running
    verification and the next message, where they are ready, and the numbers
    drawn for choosing the next message to verify. *)
Record DispatchInput := mk_dispatch {
  di_verified : option bool;
  di_message : option (TaggedAggregationMessage * SendResult);
  di_random : nat -> nat;
}.

Record Inputs := mk_inputs {
  in_proposal : option SignedProposalMessage;
  in_responses : list (option SignedProposalMessage * (Z * Z));
  in_dispatch : list DispatchInput;
  in_updates : list (Id * Aggregation);
  in_retry : SendResult;
  in_timeout : bool;
  in_more_updates : list (Id * Aggregation);
  is_proposer : Z -> option bool;
  create_proposal : Z -> option (ProposalMessage * Inherent);
  sign_proposal : ProposalMessage -> ProposalSignature;
  verify_proposal : SignedProposalMessage -> option Inherent -> option Inherent;
}.
End Types.
Arguments Ready {A} a.
Arguments Pending {A}.

(** The operations, as state transformers that may panic. *)
Abbreviation TM A := (M Tendermint ProtocolError A).

Section Operations.
Context `{Pr : Protocol}.

Definition get_st {A} (f : State -> A) : TM A := gets (fun t => f (state t)).
Definition set_st (f : State -> State) : TM unit := modify (upd f).

(** ** Predicates and small updates *)

Definition is_allowed_to_vote_on (proposal_hash : Z) (vr : option Z) (s : State) : bool :=
  match locked s with
  | None => true
  | Some (locked_round, locked_hash) =>
      (locked_hash =? proposal_hash)
      || match vr with Some vr => locked_round <=? vr | None => false end
  end.

Definition has_two_f_plus_one (proposal_hash round : Z) (s : State) : bool :=
  match best_votes s !! (round, Prevote) with
  | Some aggregate => TWO_F_PLUS_ONE <=? len (contributors_for aggregate (Some proposal_hash))
  | None => false
  end.

Definition update_valid (round proposal_hash : Z) (s : State) : State :=
  match valid s with
  | None => set_valid (Some (round, proposal_hash)) s
  | Some (vr, _) => if vr <? round then set_valid (Some (round, proposal_hash)) s else s
  end.

Definition build_decision (proposal : Proposal) (aggregation : Aggregation) (round : Z)
    (s : State) : option Decision :=
  inherent ← inherents s !! inherent_hash proposal;
  create_decision proposal inherent aggregation round.

Definition is_commit_polka (proposal_hash : Z) (s : State) (id : Id) : bool :=
  match best_votes s !! id with
  | Some agg => bool_decide (id.2 = Precommit)
                && (TWO_F_PLUS_ONE <=? len (contributors_for agg (Some proposal_hash)))
  | None => false
  end.
Definition cached_decision (proposal_hash : Z) : TM (option Decision) :=
  s ← get_st (fun s => s);
  match List.find (is_commit_polka proposal_hash s) (sorted_ids (best_votes s)) with
  | None => mret None
  | Some found =>
      match best_votes s !! found, known_proposals s !! proposal_hash with
      | Some aggregation, Some proposal =>
          d ← expect (build_decision proposal aggregation found.1 s); mret (Some d)
      | _, _ => mret None
      end
  end.

Definition start_timeout : TM unit :=
  modify (fun t =>
    match timeout t with
    | Some _ => t
    | None => set_timeout (Some (wrap 64 (TIMEOUT_INIT
                + wrap 64 (current_round (state t) * TIMEOUT_DELTA)))) t
    end).

(** Both places that start an aggregation ([init], [create_aggregation]). *)
Definition start_aggregation (id : Id) (vote : option Z) (t : Tendermint) : Tendermint :=
  set_senders ({[id]} ∪ aggregation_senders t) (emit (CreateAggregation id.1 id.2 vote) t).

Definition create_aggregation (id : Id) : TM unit :=
  running ← gets (fun t => bool_decide (id ∈ aggregation_senders t));
  if (running : bool) then mret tt
  else
    vote ← get_st (fun s => votes s !! id);
    vote ← expect vote;
    modify (start_aggregation id vote).

Definition new_instance (dependencies : list Effect) (state_opt : option State) : Tendermint :=
  mk_tendermint dependencies (default default_state state_opt) ∅ ∅ ∅ ∅ None None false ∅ false None.

Definition init_vote (t : Tendermint) (id : Id) : Tendermint :=
  if bool_decide ((current_round (state t), current_step (state t)) = id) then t
  else if bool_decide (id ∈ aggregation_senders t) then t
  else match votes (state t) !! id with
       | Some vote => start_aggregation id vote t
       | None => t
       end.
Definition init (t : Tendermint) : Tendermint :=
  foldl init_vote t (sorted_ids (votes (state t))).

Definition new (dependencies : list Effect) (state_opt : option State) : Tendermint :=
  init (new_instance dependencies state_opt).

(** ** Proposals *)

Definition insert_known (p : Proposal) (s : State) : State :=
  set_known (<[hash p := p]> (known_proposals s)) s.

Definition insert_round_proposal (round proposal_hash : Z) (x : option Z * ProposalSignature)
    (s : State) : State :=
  set_round_proposals
    (<[round := <[proposal_hash := x]> (entry round (round_proposals s))]> (round_proposals s)) s.

Definition check_proposal (i : Inputs) (proposal : SignedProposalMessage) : TM (option Z) :=
  let p := pm_proposal (sp_message proposal) in
  inherent_entry ← get_st (fun s => inherents s !! inherent_hash p);
  match inherent_entry with
  | None =>
      match verify_proposal i proposal None with
      | Some inherent =>
          set_st (fun s => set_inherents (<[inherent_hash p := inherent]> (inherents s)) s);;
          previous ← get_st (fun s => known_proposals s !! hash p);
          set_st (insert_known p);;
          assert_that (match previous with None => true | Some _ => false end);;
          mret (Some (hash p))
      | None => mret None
      end
  | Some inherent =>
      proposal_entry ← get_st (fun s => known_proposals s !! hash p);
      match proposal_entry with
      | None =>
          match verify_proposal i proposal (Some inherent) with
          | Some _ => set_st (insert_known p);; mret (Some (hash p))
          | None => mret None
          end
      | Some _ => mret (Some (hash p))
      end
  end.

Definition process_proposal (i : Inputs) (proposal : SignedProposalMessage) : TM (option Z) :=
  checked ← check_proposal i proposal;
  match checked with
  | None => mret None
  | Some proposal_hash =>
      let proposal_round := pm_round (sp_message proposal) in
      set_st (insert_round_proposal proposal_round proposal_hash
                (pm_valid_round (sp_message proposal), sp_signature proposal));;
      set_st (fun s => if has_two_f_plus_one proposal_hash proposal_round s
                       then update_valid proposal_round proposal_hash s else s);;
      decision ← cached_decision proposal_hash;
      if_some decision (fun d => modify (set_pending_decision (Some d)));;
      mret (Some proposal_hash)
  end.

Definition process_next_proposal (i : Inputs) : TM (option Return) :=
  match in_proposal i with
  | None => mret None
  | Some proposal =>
      let proposal_round := pm_round (sp_message proposal) in
      set_st (fun s => set_round_proposals (or_default proposal_round (round_proposals s)) s);;
      existing ← get_st (fun s => entry proposal_round (round_proposals s));
      if negb (bool_decide (existing = ∅)) then mret (Some (ProposalIgnored proposal))
      else
        processed ← process_proposal i proposal;
        match processed with
        | Some _ => modify (set_return_pending true);; mret (Some (ProposalAccepted proposal))
        | None => mret (Some (ProposalRejected proposal))
        end
  end.

(** ** Messages and the skip to a future round *)

Definition vote_none_if_vacant (t : Tendermint) (id : Id) : Tendermint :=
  match votes (state t) !! id with
  | Some _ => t
  | None => set_starts ({[id]} ∪ pending_aggregation_starts t)
              (upd (fun s => set_votes (<[id := None]> (votes s)) s) t)
  end.
Definition vote_none_in_round (t : Tendermint) (round_number : Z) : Tendermint :=
  vote_none_if_vacant (vote_none_if_vacant t (round_number, Prevote)) (round_number, Precommit).

Definition skip_ahead (round : Z) (t : Tendermint) : Tendermint :=
  let current := current_round (state t) in
  let t := foldl vote_none_in_round t (seqZ current (round - current)) in
  let t := upd (fun s => set_step Propose (set_round round s)) t in
  let t := set_timeout None t in
  let t := set_future_contributions
             (filter (fun x => round < x.1) (future_contributions t)) t in
  set_future_messages (filter (fun x => round < (tag x.2).1) (future_round_messages t)) t.

(** The flags say whether the turn did something, and whether it skipped. *)
Definition finish_verification (d : DispatchInput) : TM (bool * bool) :=
  running ← gets future_round_verification;
  match running, di_verified d with
  | Some (round, new_contributors), Some verified =>
      modify (set_verification None);;
      current ← get_st current_round;
      if verified && (current <? round) then
        contributors ← gets (fun t => default ∅ (future_contributions t !! round) ∪ new_contributors);
        modify (fun t => set_future_contributions
                           (<[round := contributors]> (future_contributions t)) t);;
        if F_PLUS_ONE <=? len contributors then modify (skip_ahead round);; mret (true, true)
        else mret (true, false)
      else mret (true, false)
  | _, _ => mret (false, false)
  end.

Definition queue_message (m : TaggedAggregationMessage) (t : Tendermint) : Tendermint :=
  let sender := am_sender (aggregation m) in
  let queued := set_future_messages (<[sender := m]> (future_round_messages t)) t in
  match future_round_messages t !! sender with
  | None => queued
  | Some o => if (tag o).1 <=? (tag m).1 then queued else t
  end.

(** Whether there was a message, and the message if its channel was full. *)
Definition receive_message (d : DispatchInput) : TM (bool * option TaggedAggregationMessage) :=
  match di_message d with
  | None => mret (false, None)
  | Some (m, sent) =>
      current ← get_st current_round;
      if current <? (tag m).1 then modify (queue_message m);; mret (true, None)
      else
        running ← gets (fun t => bool_decide (tag m ∈ aggregation_senders t));
        if (running : bool) then
          match sent with
          | Sent => mret (true, None)
          | Closed => panic
          | Full => mret (true, Some m)
          end
        else mret (true, None)
  end.

Fixpoint start_verification (fuel : nat) (random : nat -> nat) (t : Tendermint)
  : bool * Tendermint :=
  match fuel with
  | O => (false, t)
  | S fuel =>
      match future_round_verification t, sorted_keys (future_round_messages t) with
      | None, (_ :: _) as keys =>
          match keys !! (random fuel mod length keys)%nat with
          | Some validator_id =>
              match future_round_messages t !! validator_id with
              | Some m =>
                  let t := set_future_messages (delete validator_id (future_round_messages t)) t in
                  let round := (tag m).1 in
                  let contributors := all_contributors (am_aggregation (aggregation m)) in
                  if bool_decide (contributors ⊆ default ∅ (future_contributions t !! round))
                  then (true, (start_verification fuel random t).2)
                  else (true, set_verification (Some (round, contributors)) t)
              | None => (false, t)
              end
          | None => (false, t)
          end
      | _, _ => (false, t)
      end
  end.

(** The loop ends with the first turn that does nothing; a list of inputs that
    ends earlier stands for the turns up to there. *)
Fixpoint dispatch_messages (ds : list DispatchInput) (should_export_state : bool)
  : TM (option TaggedAggregationMessage * bool) :=
  match ds with
  | [] => mret (None, should_export_state)
  | d :: ds =>
      verified ← finish_verification d;
      if (verified : bool * bool).2 then mret (None, true)
      else
        received ← receive_message d;
        match (received : bool * option TaggedAggregationMessage).2 with
        | Some m => mret (Some m, should_export_state)
        | None =>
            started ← (fun t =>
              let r := start_verification (size (future_round_messages t)) (di_random d) t in
              (Ok r.1, r.2));
            if verified.1 || received.1 || (started : bool)
            then dispatch_messages ds should_export_state
            else mret (None, should_export_state)
        end
  end.

(** ** Aggregations *)

(** The best vote of an aggregation after an update, and whether it improved. *)
Definition update_best (id : Id) (aggregate : Aggregation) : TM (Aggregation * bool) :=
  best ← get_st (fun s => best_votes s !! id);
  match best with
  | Some agg =>
      if len (all_contributors agg) <? len (all_contributors aggregate)
      then set_st (fun s => set_best_votes (<[id := aggregate]> (best_votes s)) s);;
           mret (aggregate, true)
      else mret (agg, false)
  | None =>
      set_st (fun s => set_best_votes (<[id := aggregate]> (best_votes s)) s);;
      mret (aggregate, true)
  end.

Definition act_on_polka (id : Id) (best_vote : Aggregation) (proposal_hash : Z)
  : TM (option Decision) :=
  known ← get_st (fun s => known_proposals s !! proposal_hash);
  match known with
  | Some proposal =>
      match id.2 with
      | Prevote => set_st (update_valid id.1 proposal_hash);; mret None
      | Precommit =>
          s ← get_st (fun s => s);
          d ← expect (build_decision proposal best_vote id.1 s); mret (Some d)
      | Propose => panic
      end
  | None => mret None
  end.

Definition request_if_promising (id : Id) (best_vote : Aggregation) (total : Z)
    (proposal_hash contributor_count : Z) (t : Tendermint) : Tendermint :=
  if (F_PLUS_ONE <=? contributor_count)
     && (wrap 64 (total - contributor_count) <? F_PLUS_ONE)
     && match known_proposals (state t) !! proposal_hash with None => true | Some _ => false end
     && negb (bool_decide ((proposal_hash, id.1) ∈ pending_proposal_requests t))
  then emit (RequestProposal proposal_hash id.1 (contributors_for best_vote (Some proposal_hash)))
         (set_requests ({[(proposal_hash, id.1)]} ∪ pending_proposal_requests t) t)
  else t.

Fixpoint scan_best_vote (id : Id) (best_vote : Aggregation) (ps : list (Z * Z))
  : TM (option Decision) :=
  match ps with
  | [] => mret None
  | (proposal_hash, contributor_count) :: ps =>
      decision ← (if TWO_F_PLUS_ONE <=? contributor_count
                  then act_on_polka id best_vote proposal_hash else mret None);
      match decision with
      | Some d => mret (Some d)
      | None =>
          modify (request_if_promising id best_vote (len (all_contributors best_vote))
                    proposal_hash contributor_count);;
          scan_best_vote id best_vote ps
      end
  end.

Fixpoint poll_aggregations (updates : list (Id * Aggregation)) (should_export_state : bool)
  : TM (option Decision * bool) :=
  match updates with
  | [] => mret (None, should_export_state)
  | (round_and_step, aggregate) :: updates =>
      best ← update_best round_and_step aggregate;
      let should_export_state := should_export_state || (best : Aggregation * bool).2 in
      decision ← scan_best_vote round_and_step best.1 (proposals best.1);
      match decision with
      | Some d => mret (Some d, should_export_state)
      | None => poll_aggregations updates should_export_state
      end
  end.

(** ** The states of the machine ([states/]) *)

(** [votes.insert(id, vote)]; whether there was no vote before. *)
Definition insert_vote (id : Id) (vote : option Z) : TM bool :=
  previous ← get_st (fun s => votes s !! id);
  set_st (fun s => set_votes (<[id := vote]> (votes s)) s);;
  mret (match previous with None => true | Some _ => false end).

Definition export_state : TM (option Return) :=
  s ← get_st (fun s => s); mret (Some (Update s)).

(** [propose.rs] *)
Definition propose (i : Inputs) : TM Return :=
  set_st (fun s => set_round_proposals (or_default (current_round s) (round_proposals s)) s);;
  s ← get_st (fun s => s);
  match first (entry (current_round s) (round_proposals s)) with
  | Some (proposal_hash, (vr, signature)) =>
      proposal ← expect (known_proposals s !! proposal_hash);
      modify (emit (BroadcastProposal
                      (mk_signed (mk_message (current_round s) vr proposal) signature)));;
      set_st (set_step Prevote);;
      let vote := if is_allowed_to_vote_on proposal_hash vr s then Some proposal_hash else None in
      fresh ← insert_vote (current_round s, Prevote) vote;
      assert_that fresh;;
      s ← get_st (fun s => s); mret (Update s)
  | None =>
      match valid s with
      | Some (valid_round, proposal_hash) =>
          proposal ← expect (known_proposals s !! proposal_hash);
          let message := mk_message (current_round s) (Some valid_round) proposal in
          set_st (insert_round_proposal (current_round s) proposal_hash
                    (Some valid_round, sign_proposal i message));;
          s ← get_st (fun s => s); mret (Update s)
      | None =>
          created ← ok_or (create_proposal i (current_round s)) Abort;
          let message := (created : ProposalMessage * Inherent).1 in
          let inherent := created.2 in
          let proposal_hash := hash (pm_proposal message) in
          set_st (fun s => set_inherents
                             (<[hash_of_inherent inherent := inherent]> (inherents s)) s);;
          set_st (insert_known (pm_proposal message));;
          set_st (insert_round_proposal (current_round s) proposal_hash
                    (None, sign_proposal i message));;
          s ← get_st (fun s => s); mret (Update s)
      end
  end.

(** [await_proposal.rs] *)
Definition prevote (vote : option Z) (s : State) : State :=
  set_step Prevote (set_votes (<[(current_round s, Prevote) := vote]> (votes s)) s).

Definition received_proposal_with_vr (proposal_hash vr : Z) (s : State) : State :=
  if (vr <? current_round s) && is_allowed_to_vote_on proposal_hash (Some vr) s
     && has_two_f_plus_one proposal_hash vr s
  then prevote (Some proposal_hash) s else prevote None s.

Definition received_proposal_without_vr (proposal_hash : Z) (s : State) : State :=
  if is_allowed_to_vote_on proposal_hash None s
  then prevote (Some proposal_hash) s else prevote None s.

Definition await_proposal (i : Inputs) : TM (option Return) :=
  vote ← get_st (fun s => votes s !! (current_round s, Prevote));
  assert_that (match vote with None => true | Some _ => false end);;
  start_timeout;;
  set_st (fun s => set_round_proposals (or_default (current_round s) (round_proposals s)) s);;
  received ← get_st (fun s => first (entry (current_round s) (round_proposals s)));
  match received with
  | Some (proposal, (Some vr, _)) =>
      set_st (received_proposal_with_vr proposal vr);; modify (set_timeout None);; export_state
  | Some (proposal, (None, _)) =>
      set_st (received_proposal_without_vr proposal);; modify (set_timeout None);; export_state
  | None =>
      if in_timeout i
      then set_st (prevote None);; modify (set_timeout None);; export_state
      else mret None
  end.

(** [aggregate.rs] *)
Definition on_polka (proposal_hash : Z) : TM unit :=
  s ← get_st (fun s => s);
  match current_step s with
  | Prevote =>
      set_st (set_step Precommit);;
      fresh ← insert_vote (current_round s, Precommit) (Some proposal_hash);
      assert_that fresh;;
      set_st (set_locked (Some (current_round s, proposal_hash)))
  | Precommit | Propose => panic
  end.

Definition on_none_polka : TM unit :=
  s ← get_st (fun s => s);
  match current_step s with
  | Prevote =>
      set_st (set_step Precommit);;
      fresh ← insert_vote (current_round s, Precommit) None;
      assert_that fresh
  | Precommit =>
      let round := wrap 32 (current_round s + 1) in
      set_st (fun s => set_step Propose (set_round round s));;
      modify (fun t => set_future_contributions
                         (filter (fun x => round < x.1) (future_contributions t)) t)
  | Propose => panic
  end.

(** The loop over the proposals of the round: the first with 2f+1 votes, or
    whether a proposal can improve and the contributors to other proposals. *)
Fixpoint scan_proposals (best : Aggregation) (total : Z) (hashes : list Z)
    (can_improve : bool) (remaining : Z) : Z + bool * Z :=
  match hashes with
  | [] => inr (can_improve, remaining)
  | proposal_hash :: hashes =>
      let count := len (contributors_for best (Some proposal_hash)) in
      if count <? TWO_F_PLUS_ONE then
        scan_proposals best total hashes
          (can_improve || (saturating_sub total count <? F_PLUS_ONE))
          (saturating_sub remaining count)
      else inl proposal_hash
  end.

Definition aggregate (i : Inputs) : TM (option Return) :=
  id ← get_st (fun s => (current_round s, current_step s));
  create_aggregation id;;
  best ← get_st (fun s => best_votes s !! id);
  match best with
  | None => mret None
  | Some current_best =>
      let total := len (all_contributors current_best) in
      if total <? TWO_F_PLUS_ONE then mret None
      else
        set_st (fun s => set_round_proposals (or_default (current_round s) (round_proposals s)) s);;
        hashes ← get_st (fun s => sorted_keys (entry (current_round s) (round_proposals s)));
        match scan_proposals current_best total hashes false total with
        | inl proposal_hash =>
            match id.2 with
            | Prevote =>
                set_st (update_valid id.1 proposal_hash);; on_polka proposal_hash;;
                modify (set_timeout None);; export_state
            | Precommit =>
                s ← get_st (fun s => s);
                proposal ← expect (known_proposals s !! proposal_hash);
                d ← expect (build_decision proposal current_best id.1 s);
                modify (set_timeout None);; mret (Some (Decided d))
            | Propose => panic
            end
        | inr (can_improve, remaining) =>
            let none_count := len (contributors_for current_best None) in
            let remaining := saturating_sub remaining none_count in
            if (TWO_F_PLUS_ONE <=? none_count)
               || negb can_improve && (F_PLUS_ONE <=? saturating_sub total remaining)
            then on_none_polka;; modify (set_timeout None);; export_state
            else
              start_timeout;;
              if in_timeout i then on_none_polka;; modify (set_timeout None);; export_state
              else mret None
        end
  end.

(** ** [Stream::poll_next] *)

Fixpoint process_responses (i : Inputs)
    (responses : list (option SignedProposalMessage * (Z * Z))) (should_export_state : bool)
  : TM bool :=
  match responses with
  | [] => mret should_export_state
  | (response, id) :: responses =>
      modify (fun t => set_requests (pending_proposal_requests t ∖ {[id]}) t);;
      processed ← match response with
                  | Some proposal => process_proposal i proposal
                  | None => mret None
                  end;
      process_responses i responses
        (match processed with Some _ => true | None => should_export_state end)
  end.

(** The end of the stream ([None]), a value, or nothing yet. *)
Definition run_state_machine (i : Inputs) : TM (option (option Return)) :=
  s ← get_st (fun s => s);
  match current_step s with
  | Propose =>
      match is_proposer i (current_round s) with
      | None => mret None
      | Some true =>
          r ← catch (propose i);
          match r with
          | Ok r => mret (Some (Some r))
          | _ => mret None
          end
      | Some false => r ← await_proposal i; mret (Some r)
      end
  | Prevote | Precommit => r ← aggregate i; mret (Some r)
  end.

(** [while let Some(id) = pending_aggregation_starts.pop_first()] *)
Definition start_pending : TM bool :=
  starts ← gets (fun t => merge_sort id_le (elements (pending_aggregation_starts t)));
  for_each starts (fun id =>
    modify (fun t => set_starts (pending_aggregation_starts t ∖ {[id]}) t);;
    create_aggregation id);;
  mret (match starts with [] => false | _ :: _ => true end).

Definition returning (r : Return) : TM (Poll (option Return)) := mret (Ready (Some r)).

(** A message whose channel was full is sent again. *)
Definition retry (i : Inputs) (failed : option TaggedAggregationMessage) : TM unit :=
  match failed with
  | Some m =>
      running ← gets (fun t => bool_decide (tag m ∈ aggregation_senders t));
      if (running : bool) then match in_retry i with Closed => panic | Sent | Full => mret tt end
      else mret tt
  | None => mret tt
  end.

(** The part of [poll_next] after the state machine has nothing to return. *)
Definition finish_poll (i : Inputs) (should_export_state : bool) : TM (Poll (option Return)) :=
  pending ← gets state_return_pending;
  if should_export_state || (pending : bool) then
    modify (set_return_pending false);;
    s ← get_st (fun s => s); returning (Update s)
  else
    aggregations_created ← start_pending;
    first_poll ← gets (fun t =>
      let id := (current_round (state t), current_step (state t)) in
      negb (bool_decide (current_step (state t) = Propose))
      && match best_votes (state t) !! id with None => true | Some _ => false end
      && bool_decide (id ∈ aggregation_senders t));
    if (aggregations_created : bool) || (first_poll : bool) then
      polled ← poll_aggregations (in_more_updates i) should_export_state;
      match (polled : option Decision * bool) with
      | (Some d, _) => modify (set_decision true);; returning (Decided d)
      | (None, true) =>
          modify (set_return_pending false);;
          s ← get_st (fun s => s); returning (Update s)
      | (None, false) => mret Pending
      end
    else mret Pending.

Definition poll_machine (i : Inputs) (should_export_state : bool) : TM (Poll (option Return)) :=
  result ← run_state_machine i;
  match result with
  | None => modify (set_decision true);; mret (Ready None)
  | Some (Some r) =>
      match r with
      | Decided _ => modify (set_decision true)
      | Update _ => modify (set_return_pending false)
      | ProposalAccepted _ | ProposalIgnored _ | ProposalRejected _ => mret tt
      end;; returning r
  | Some None => finish_poll i should_export_state
  end.

Definition poll_next (i : Inputs) : TM (Poll (option Return)) :=
  decided ← gets decision;
  if (decided : bool) then mret (Ready None)
  else
    gossiped ← process_next_proposal i;
    match gossiped with
    | Some r => returning r
    | None =>
        should_export_state ← process_responses i (in_responses i) false;
        late ← gets pending_decision;
        modify (set_pending_decision None);;
        match late with
        | Some d => modify (set_decision true);; returning (Decided d)
        | None =>
            dispatched ← dispatch_messages (in_dispatch i) should_export_state;
            polled ← poll_aggregations (in_updates i)
                       (dispatched : option TaggedAggregationMessage * bool).2;
            match (polled : option Decision * bool) with
            | (Some d, _) => modify (set_decision true);; returning (Decided d)
            | (None, should_export_state) =>
                retry i dispatched.1;; poll_machine i should_export_state
            end
        end
    end.
End Operations.
