(* ===== verification/TendermintInv.v ===== *)
(** * Invariants of the Tendermint state machine

    What a validator's Tendermint state satisfies at all times, whatever the
    other validators send: which votes it has cast, what its stored proposals,
    its lock and its valid value are backed by, and the locking rule its votes
    obey.  Every update of the state preserves this invariant. *)

From S2P Require Import Prelude Tendermint.
Import Step.

(** What the state machine relies on in its protocol: equal proposal hashes
    mean equal inherent hashes, the counts of an aggregation are those of its
    contributors, and a decision is built from a proposal, its inherent and an
    aggregation with enough votes for it. *)
Class ProtocolOk (Pr : Protocol) := {
  decision_proposal : Decision -> Proposal;
  decision_signers : Decision -> gset Z;
  decision_round : Decision -> Z;
  hash_inherent : forall p q : Proposal, hash p = hash q -> inherent_hash p = inherent_hash q;
  proposals_count : forall a h n, (h, n) ∈ proposals a -> n = len (contributors_for a (Some h));
  create_decision_ok : forall p x a r,
    TWO_F_PLUS_ONE <= len (contributors_for a (Some (hash p))) ->
    hash_of_inherent x = inherent_hash p ->
    exists d, create_decision p x a r = Some d /\ decision_proposal d = p /\ decision_round d = r /\
      decision_signers d = contributors_for a (Some (hash p));
}.

Section Invariant.
Context `{Pr : Protocol}.
(** [Sound id a]: the aggregation [a] of [id] carries votes its contributors
    cast.  [Valid p]: the proposal [p] passed the verification.  [own r]: this
    validator proposes in round [r]. *)
Context (Sound : Id -> Aggregation -> Prop) (Valid : Proposal -> Prop) (own : Z -> Prop).
Implicit Types s : State.

Definition polka (r h : Z) : Prop :=
  exists a, Sound (r, Prevote) a /\ TWO_F_PLUS_ONE <= len (contributors_for a (Some h)).

(** The aggregations a validator in this round and step has voted in. *)
Definition voted_upto (s : State) (id : Id) : Prop :=
  id.2 <> Propose /\ 0 <= id.1 /\
  (id.1 < current_round s \/ (id.1 = current_round s /\ to_u8 id.2 <= to_u8 (current_step s))).

(** No precommit is given up without a newer polka for the other proposal. *)
Definition may_prevote (s : State) (r' h' : Z) : Prop :=
  forall r h, votes s !! (r, Precommit) = Some (Some h) -> r < r' ->
  h' = h \/ exists r'', r <= r'' < r' /\ polka r'' h'.

Definition lock_ok (s : State) : Prop :=
  match locked s with
  | None => forall r h, votes s !! (r, Precommit) <> Some (Some h)
  | Some (lr, lh) => votes s !! (lr, Precommit) = Some (Some lh) /\
      forall r h, votes s !! (r, Precommit) = Some (Some h) -> r <= lr
  end.

Record state_ok (s : State) : Prop := {
  so_round : 0 <= current_round s;
  so_votes id : is_Some (votes s !! id) <-> voted_upto s id;
  so_best id a : best_votes s !! id = Some a -> is_Some (votes s !! id) /\ Sound id a;
  so_known h p : known_proposals s !! h = Some p ->
    hash p = h /\ Valid p /\ is_Some (inherents s !! inherent_hash p);
  so_inherents k x : inherents s !! k = Some x -> hash_of_inherent x = k;
  so_proposals r h x : entry r (round_proposals s) !! h = Some x -> is_Some (known_proposals s !! h);
  so_valid r h : valid s = Some (r, h) ->
    is_Some (known_proposals s !! h) /\ is_Some (votes s !! (r, Prevote)) /\ polka r h;
  so_own r h v sg : own r -> entry r (round_proposals s) !! h = Some (Some v, sg) -> v < r /\ polka v h;
  so_own_one r h h' x x' : own r -> entry r (round_proposals s) !! h = Some x ->
    entry r (round_proposals s) !! h' = Some x' -> h = h';
  so_commit r h : votes s !! (r, Precommit) = Some (Some h) -> polka r h;
  so_locked : lock_ok s;
  so_discipline r h : votes s !! (r, Prevote) = Some (Some h) -> may_prevote s r h;
}.

Lemma default_state_ok : state_ok default_state.
Proof.
  split; simpl; try done.
  intros id. rewrite lookup_empty. unfold voted_upto. simpl. split; [by intros []|].
  intros (Hs & H0 & [H|[_ H]]); [lia|]. destruct id as [r []]; simpl in *; (done || lia).
Qed.

(** ** Updates that keep the votes *)

Lemma entry_or_default {V} r r' (m : gmap Z (gmap Z V)) : entry r' (or_default r m) = entry r' m.
Proof.
  unfold entry, or_default. destruct (m !! r) eqn:Hr; [done|].
  destruct (decide (r = r')) as [->|Hne]; [by rewrite lookup_insert_eq, Hr|].
  by rewrite lookup_insert_ne.
Qed.

Lemma or_default_ok s r : state_ok s ->
  state_ok (set_round_proposals (or_default r (round_proposals s)) s).
Proof.
  intros [? ? ? ? ? ? ? ? ? ? ? ?]. destruct s as [cr st kn rp vo be ih lo va]; simpl in *.
  split; simpl; try done; intros r'; rewrite entry_or_default; eauto.
Qed.

Lemma best_ok s id a : state_ok s -> is_Some (votes s !! id) -> Sound id a ->
  state_ok (set_best_votes (<[id := a]> (best_votes s)) s).
Proof.
  intros [? ? ? ? ? ? ? ? ? ? ? ?] Hv Ha. destruct s as [cr st kn rp vo be ih lo va]; simpl in *. split; simpl; try done.
  intros id' a' [[<- <-]|[_ Hl]]%lookup_insert_Some; eauto.
Qed.

Lemma update_valid_ok s r h : state_ok s ->
  is_Some (known_proposals s !! h) -> is_Some (votes s !! (r, Prevote)) -> polka r h ->
  state_ok (update_valid r h s).
Proof.
  intros Hok Hk Hv Hp. assert (Hset : state_ok (set_valid (Some (r, h)) s)).
  { destruct Hok. destruct s as [cr st kn rp vo be ih lo va]; simpl in *. split; simpl; try done. intros r' h' [= <- <-]. eauto. }
  unfold update_valid. destruct (valid s) as [[vr vh]|]; [|done]. by destruct (_ <? _).
Qed.

Lemma insert_known_ok s p : state_ok s -> Valid p -> is_Some (inherents s !! inherent_hash p) ->
  state_ok (insert_known p s).
Proof.
  intros [? ? ? Hkn ? Hpr Hva ? ? ? ? ?] Hv Hi. destruct s as [cr st kn rp vo be ih lo va]; simpl in *.
  assert (Hmono : forall h, is_Some (kn !! h) ->
    is_Some (<[hash p := p]> kn !! h)) by (intros; rewrite lookup_insert_is_Some'; eauto).
  split; simpl; try done.
  - intros h q [[<- <-]|[_ Hl]]%lookup_insert_Some; eauto.
  - intros r h x Hx. eauto.
  - intros r h Hx. destruct (Hva _ _ Hx) as (? & ? & ?). eauto.
Qed.

Lemma insert_inherent_ok s k x : state_ok s -> hash_of_inherent x = k ->
  state_ok (set_inherents (<[k := x]> (inherents s)) s).
Proof.
  intros [? ? ? Hkn Hin ? ? ? ? ? ? ?] Hx. destruct s as [cr st kn rp vo be ih lo va]; simpl in *. split; simpl; try done.
  - intros h p Hp. destruct (Hkn _ _ Hp) as (? & ? & ?). rewrite lookup_insert_is_Some'. eauto.
  - intros k' x' [[<- <-]|[_ Hl]]%lookup_insert_Some; eauto.
Qed.

Lemma entry_insert {V} r r' (m : gmap Z (gmap Z V)) e :
  entry r' (<[r := e]> m) = if decide (r = r') then e else entry r' m.
Proof.
  unfold entry. case_decide as Hr; [subst; by rewrite lookup_insert_eq|by rewrite lookup_insert_ne].
Qed.

(** What an entry of an own round must satisfy. *)
Definition own_entry_ok (s : State) (r h : Z) (vr : option Z) : Prop :=
  (forall v, vr = Some v -> v < r /\ polka v h) /\
  forall h' x, entry r (round_proposals s) !! h' = Some x -> h' = h.

Lemma insert_round_proposal_ok s r h x : state_ok s -> is_Some (known_proposals s !! h) ->
  (own r -> own_entry_ok s r h x.1) -> state_ok (insert_round_proposal r h x s).
Proof.
  intros [? ? ? ? ? Hpr ? Hown Hone ? ? ?] Hk Ho. unfold own_entry_ok in Ho. destruct s as [cr st kn rp vo be ih lo va]; simpl in *.
  split; simpl; try done.
  - intros r' h' x'. rewrite entry_insert. case_decide as Hr; [subst r'|eauto].
    intros [[<- <-]|[_ Hl]]%lookup_insert_Some; eauto.
  - intros r' h' v sg Hr'. rewrite entry_insert. case_decide as Hr; [subst r'|eauto].
    intros [[<- ->]|[_ Hl]]%lookup_insert_Some; [by apply (Ho Hr')|eauto].
  - intros r' h1 h2 x1 x2 Hr'. rewrite entry_insert. case_decide as Hr; [subst r'|eauto].
    destruct (Ho Hr') as [_ Hsame].
    intros [[<- _]|[_ H1%Hsame]]%lookup_insert_Some [[<- _]|[_ H2%Hsame]]%lookup_insert_Some;
      congruence.
Qed.

(** ** Updates that add votes *)

Lemma voted_prevote s r : state_ok s -> is_Some (votes s !! (r, Prevote)) ->
  0 <= r <= current_round s /\ (current_step s = Propose -> r < current_round s).
Proof.
  intros Hok (_ & Hr & Hc)%(so_votes _ Hok). simpl in *. split; [lia|].
  intros Hs. rewrite Hs in Hc. simpl in Hc. lia.
Qed.

Lemma voted_precommit s r : state_ok s -> is_Some (votes s !! (r, Precommit)) ->
  0 <= r <= current_round s /\ (current_step s <> Precommit -> r < current_round s).
Proof.
  intros Hok (_ & Hr & Hc)%(so_votes _ Hok). simpl in *. split; [lia|].
  intros Hs. destruct (current_step s); simpl in Hc; (done || lia).
Qed.

Lemma prevote_vacant s : state_ok s -> current_step s = Propose ->
  votes s !! (current_round s, Prevote) = None.
Proof.
  intros Hok Hs. apply eq_None_not_Some. intros Hv.
  destruct (voted_prevote _ _ Hok Hv) as [_ Hlt]. specialize (Hlt Hs). lia.
Qed.

Lemma precommit_vacant s : state_ok s -> current_step s = Prevote ->
  votes s !! (current_round s, Precommit) = None.
Proof.
  intros Hok Hs. apply eq_None_not_Some. intros Hv.
  destruct (voted_precommit _ _ Hok Hv) as [_ Hlt]. rewrite Hs in Hlt. specialize (Hlt ltac:(done)). lia.
Qed.

Lemma step_range (id : Id) : id.2 <> Propose -> 1 <= to_u8 id.2 <= 2.
Proof. destruct id as [r []]; simpl; (done || lia). Qed.

Lemma prevote_ok s v : state_ok s -> current_step s = Propose ->
  (forall h, v = Some h -> may_prevote s (current_round s) h) -> state_ok (prevote v s).
Proof.
  intros Hok Hs Hv. pose proof (prevote_vacant s Hok Hs) as Hvac. destruct Hok as [? Hvo Hbe ? ? ? Hva ? ? ? Hlo Hdi].
  destruct s as [cr st kn rp vo be ih lo va]. unfold prevote, may_prevote, lock_ok in *. simpl in *. subst st.
  split; unfold may_prevote, lock_ok; simpl; try done.
  - intros id. rewrite lookup_insert_is_Some', Hvo. unfold voted_upto. simpl. split.
    + intros [<-|(Hp & H0 & Hc)]; simpl; [split_and!; (done || lia)|].
      pose proof (step_range id Hp). split_and!; (done || lia).
    + intros (Hp & H0 & [Hc|[Hr Hc]]); [right; split_and!; (done || lia)|].
      left. destruct id as [r []]; simpl in *; subst; (done || lia).
  - intros id a Ha. destruct (Hbe _ _ Ha). rewrite lookup_insert_is_Some'. eauto.
  - intros r h Hr. destruct (Hva _ _ Hr) as (? & ? & ?). rewrite lookup_insert_is_Some'. eauto.
  - intros r h. rewrite lookup_insert_ne by done. eauto.
  - destruct lo as [[lr lh]|]; [|by intros r h; rewrite lookup_insert_ne].
    rewrite lookup_insert_ne by done. destruct Hlo as [? Hl]. split; [done|].
    intros r h. rewrite lookup_insert_ne by done. apply Hl.
  - intros r h Hr r0 h0. rewrite lookup_insert_ne by done. revert Hr.
    intros [[[= <-] ->]|[_ Hr]]%lookup_insert_Some; eauto.
Qed.

(** The update of a precommit, with the lock a vote for a proposal takes. *)
Definition precommit (v : option Z) (s : State) : State :=
  set_locked (match v with Some h => Some (current_round s, h) | None => locked s end)
    (set_votes (<[(current_round s, Precommit) := v]> (votes s)) (set_step Precommit s)).

Lemma precommit_ok s v : state_ok s -> current_step s = Prevote ->
  (forall h, v = Some h -> polka (current_round s) h) -> state_ok (precommit v s).
Proof.
  intros Hok Hs Hv. pose proof (precommit_vacant s Hok Hs) as Hvac.
  assert (Hle : forall r, is_Some (votes s !! (r, Prevote)) -> r <= current_round s).
  { intros r Hr. destruct (voted_prevote _ _ Hok Hr). lia. }
  assert (Hlt : forall r, is_Some (votes s !! (r, Precommit)) -> r < current_round s).
  { intros r Hr. destruct (voted_precommit _ _ Hok Hr) as [_ Hc]. apply Hc. by rewrite Hs. }
  destruct Hok as [? Hvo Hbe ? ? ? Hva ? ? Hco Hlo Hdi].
  destruct s as [cr st kn rp vo be ih lo va]. unfold precommit, may_prevote, lock_ok in *. simpl in *. subst st.
  split; unfold may_prevote, lock_ok; simpl; try done.
  - intros id. rewrite lookup_insert_is_Some', Hvo. unfold voted_upto. simpl. split.
    + intros [<-|(Hp & H0 & Hc)]; simpl; split_and!; (done || lia).
    + intros (Hp & H0 & [Hc|[Hr Hc]]); [right; split_and!; (done || lia)|].
      destruct id as [r []]; simpl in *; subst; [done| |by left]. right. split_and!; (done || lia).
  - intros id a Ha. destruct (Hbe _ _ Ha). rewrite lookup_insert_is_Some'. eauto.
  - intros r h Hr. destruct (Hva _ _ Hr) as (? & ? & ?). rewrite lookup_insert_is_Some'. eauto.
  - intros r h [[[= <-] ->]|[_ Hr]]%lookup_insert_Some; eauto.
  - assert (Hnew : forall r h, <[(cr, Precommit) := v]> vo !! (r, Precommit) = Some (Some h) ->
      (r = cr /\ v = Some h) \/ (r < cr /\ vo !! (r, Precommit) = Some (Some h))).
    { intros r h [[[= <-] ->]|[_ Hr]]%lookup_insert_Some; [by left|]. right. split; [apply Hlt; eauto|done]. }
    destruct v as [h|].
    + split; [by rewrite lookup_insert_eq|]. intros r h' [[-> _]|[? _]]%Hnew; lia.
    + destruct lo as [[lr lh]|]; [|intros r h [[_ ?]|[_ Hr]]%Hnew; [done|by apply (Hlo r h)]].
      destruct Hlo as [Hl Hmax]. split; [|intros r h [[_ ?]|[_ Hr]]%Hnew; [done|by apply (Hmax r h)]].
      rewrite lookup_insert_ne; [done|]. intros [= <-]. congruence.
  - intros r h. rewrite lookup_insert_ne by done. intros Hr r0 h0.
    intros [[[= <-] ->]|[_ Hr0]]%lookup_insert_Some Hlt0; [|by apply (Hdi r h Hr r0)].
    specialize (Hle r ltac:(eauto)). lia.
Qed.

Lemma next_round_ok s : state_ok s -> current_step s = Precommit ->
  state_ok (set_step Propose (set_round (current_round s + 1) s)).
Proof.
  intros [? Hvo ? ? ? ? ? ? ? ? ? ?] Hs. destruct s as [cr st kn rp vo be ih lo va].
  simpl in *. subst st. split; simpl; try done; [lia|].
  intros id. rewrite Hvo. unfold voted_upto. simpl.
  split; intros (Hp & H0 & Hc); pose proof (step_range id Hp);
    split_and!; (done || lia).
Qed.

(** Votes for nothing in the rounds that are skipped. *)
Definition filled (s : State) (round : Z) (v : gmap Id (option Z)) : Prop :=
  forall id, v !! id =
    match votes s !! id with
    | Some x => Some x
    | None => if decide (id.2 <> Propose /\ current_round s <= id.1 < round) then Some None else None
    end.

Lemma skip_ok s round v : state_ok s -> current_round s < round -> filled s round v ->
  state_ok (set_step Propose (set_round round (set_votes v s))).
Proof.
  intros [? Hvo Hbe ? ? ? Hva ? ? Hco Hlo Hdi] Hlt Hv.
  assert (Hsome : forall id h, v !! id = Some (Some h) <-> votes s !! id = Some (Some h)).
  { intros id h. rewrite Hv. destruct (votes s !! id); [done|]. by case_decide. }
  assert (Hmono : forall id, is_Some (votes s !! id) -> is_Some (v !! id)).
  { intros id [x Hx]. rewrite Hv, Hx. eauto. }
  unfold filled in Hv. destruct s as [cr st kn rp vo be ih lo va].
  unfold may_prevote, lock_ok in *. simpl in *. split; unfold may_prevote, lock_ok; simpl; try done.
  - lia.
  - intros id. specialize (Hvo id). rewrite Hv. unfold voted_upto in *. simpl in *. destruct (vo !! id).
    + split; [|eauto]. intros _. destruct Hvo as [Hvo _]. destruct Hvo as (? & ? & ?); [eauto|].
      split_and!; (done || lia).
    + case_decide as Hd; [split; [intros _; split_and!; (tauto || lia)|eauto]|].
      split; [by intros []|]. intros (Hp & H0 & Hc).
      pose proof (step_range id Hp).
      apply Hvo. split_and!; try done. destruct Hc as [Hc|[_ Hc]]; [|simpl in Hc; lia].
      left. apply Z.nle_gt. intros ?. apply Hd. done.
  - intros id a Ha. destruct (Hbe _ _ Ha). eauto.
  - intros r h Hr. destruct (Hva _ _ Hr) as (? & ? & ?). eauto.
  - intros r h Hr%Hsome. eauto.
  - destruct lo as [[lr lh]|]; [|intros r h Hr%Hsome; by apply (Hlo r h)].
    destruct Hlo as [Hl Hmax]. split; [by apply Hsome|]. intros r h Hr%Hsome. by apply (Hmax r h).
  - intros r h Hr%Hsome r0 h0 Hr0%Hsome. by apply Hdi.
Qed.

(** ** The locking rule *)

(** A validator that is allowed to vote for a proposal, with a polka for it in
    the valid round it refers to, may do so. *)
Lemma allowed_may_prevote s h vr : state_ok s -> current_step s = Propose ->
  is_allowed_to_vote_on h vr s = true ->
  (forall v, vr = Some v -> v < current_round s /\ polka v h) ->
  may_prevote s (current_round s) h.
Proof.
  intros Hok Hs Hal Hvr r h0 Hr Hlt. pose proof (so_locked _ Hok) as Hlo. unfold lock_ok in Hlo.
  unfold is_allowed_to_vote_on in Hal. destruct (locked s) as [[lr lh]|]; [|by destruct (Hlo r h0)].
  destruct Hlo as [Hl Hmax]. specialize (Hmax _ _ Hr).
  apply orb_prop in Hal as [Heq|Hle].
  - apply Z.eqb_eq in Heq as ->. destruct (decide (r = lr)) as [->|Hne]; [left; congruence|].
    right. exists lr. split; [|by apply (so_commit _ Hok)].
    destruct (voted_precommit s lr Hok ltac:(eauto)) as [_ Hc]. rewrite Hs in Hc. specialize (Hc ltac:(done)). lia.
  - destruct vr as [v|]; [|done]. apply Z.leb_le in Hle. destruct (Hvr v eq_refl). right. exists v. split; [lia|done].
Qed.

Lemma has_polka s h r : state_ok s -> has_two_f_plus_one h r s = true ->
  is_Some (votes s !! (r, Prevote)) /\ polka r h.
Proof.
  intros Hok. unfold has_two_f_plus_one. destruct (best_votes s !! (r, Prevote)) as [a|] eqn:Ha; [|done].
  intros Hle%Z.leb_le. destruct (so_best _ Hok _ _ Ha). split; [done|]. by exists a.
Qed.

Lemma received_with_vr_ok s h vr : state_ok s -> current_step s = Propose ->
  state_ok (received_proposal_with_vr h vr s).
Proof.
  intros Hok Hs. unfold received_proposal_with_vr.
  destruct (_ && _) eqn:Hc; apply prevote_ok; try done.
  intros h' [= <-]. bool_to_prop. apply (allowed_may_prevote s h (Some vr)); try done.
  intros v [= <-]. split; [done|]. by apply (has_polka s h vr).
Qed.

Lemma received_without_vr_ok s h : state_ok s -> current_step s = Propose ->
  state_ok (received_proposal_without_vr h s).
Proof.
  intros Hok Hs. unfold received_proposal_without_vr.
  destruct (is_allowed_to_vote_on _ _ _) eqn:Hc; apply prevote_ok; try done.
  intros h' [= <-]. by apply (allowed_may_prevote s h None).
Qed.
End Invariant.
