(* ===== verification/TendermintProofs.v ===== *)
(** * Runs of the Tendermint state machine

    The invariant of an instance, the assumptions on the inputs of one call of
    [poll_next], and the proof that every call keeps the invariant without
    panicking, publishes only votes and proposals that the state already holds
    at its beginning, and returns every change of the votes to be stored. *)

From S2P Require Import Prelude Tendermint TendermintInv.
Import Step.

Section Instance.
Context `{Pr : Protocol} {PrOk : ProtocolOk Pr}.
Context (Sound : Id -> Aggregation -> Prop) (Valid : Proposal -> Prop) (own : Z -> Prop).
#[local] Abbreviation ok := (state_ok Sound Valid own).

(** A decision is justified by the precommits of 2f+1 slots for a verified
    proposal. *)
Definition decision_ok (d : Decision) : Prop :=
  Valid (decision_proposal d) /\
  TWO_F_PLUS_ONE <= len (decision_signers d) /\
  exists a, Sound (decision_round d, Precommit) a /\
    decision_signers d = contributors_for a (Some (hash (decision_proposal d))).

(** The proposals of a round, without their signatures. *)
Definition view (s : State) (r : Z) : gmap Z (option Z) := fst <$> entry r (round_proposals s).

(** Everything published is in the state. *)
Record covers (effects : list Effect) (s : State) : Prop := {
  cv_vote r st v : CreateAggregation r st v ∈ effects -> votes s !! (r, st) = Some v;
  cv_proposal p : BroadcastProposal p ∈ effects ->
    own (pm_round (sp_message p)) /\
    view s (pm_round (sp_message p)) !! hash (pm_proposal (sp_message p))
      = Some (pm_valid_round (sp_message p));
}.

Record inst_ok (t : Tendermint) : Prop := {
  io_state : ok (state t);
  io_senders id : id ∈ aggregation_senders t -> is_Some (votes (state t) !! id);
  io_starts id : id ∈ pending_aggregation_starts t -> is_Some (votes (state t) !! id);
  io_pending d : pending_decision t = Some d -> decision_ok d;
  io_covers : covers (protocol t) (state t);
}.

(** A proposal received for an own round is one this validator has broadcast:
    the proposer signs its proposals, and received ones are passed on only
    with a valid signature. *)
Definition delivered (t : Tendermint) (p : SignedProposalMessage) : Prop :=
  own (pm_round (sp_message p)) ->
  exists q, BroadcastProposal q ∈ protocol t /\
    pm_round (sp_message q) = pm_round (sp_message p) /\
    pm_valid_round (sp_message q) = pm_valid_round (sp_message p) /\
    hash (pm_proposal (sp_message q)) = hash (pm_proposal (sp_message p)).

(** The inputs of a call: aggregations of votes that were cast, in rounds and
    steps this validator has voted in; proposals; verified inherents; open
    channels; a round counter that has not run out. *)
Record inputs_ok (t : Tendermint) (i : Inputs) : Prop := {
  ok_updates id a : (id, a) ∈ in_updates i ++ in_more_updates i ->
    is_Some (votes (state t) !! id) /\ Sound id a;
  ok_proposal p : in_proposal i = Some p -> delivered t p;
  ok_responses p q : (Some p, q) ∈ in_responses i -> delivered t p;
  ok_proposer r : is_proposer i r = Some true -> own r;
  ok_create r m x : create_proposal i r = Some (m, x) ->
    Valid (pm_proposal m) /\ hash_of_inherent x = inherent_hash (pm_proposal m);
  ok_verify p o x : verify_proposal i p o = Some x ->
    Valid (pm_proposal (sp_message p)) /\
    (o = None -> hash_of_inherent x = inherent_hash (pm_proposal (sp_message p)));
  ok_channels d m : d ∈ in_dispatch i -> di_message d <> Some (m, Closed);
  ok_retry : in_retry i <> Closed;
  ok_round : current_round (state t) < max_value 32;
}.

(** ** What operations leave alone *)

Definition is_request (e : Effect) : Prop :=
  match e with RequestProposal _ _ _ => True | _ => False end.

(** Nothing but requests is published, own rounds keep their proposals. *)
Record calm (t t' : Tendermint) : Prop := {
  calm_view r : own r -> view (state t') r = view (state t) r;
  calm_effects e : e ∈ protocol t' -> e ∈ protocol t \/ is_request e;
  calm_grow e : e ∈ protocol t -> e ∈ protocol t';
}.
(** In addition, no vote is cast and the round and step stay. *)
Record quiet (t t' : Tendermint) : Prop := {
  quiet_calm : calm t t';
  quiet_votes : votes (state t') = votes (state t);
  quiet_round : current_round (state t') = current_round (state t);
  quiet_step : current_step (state t') = current_step (state t);
}.

#[export] Instance calm_preorder : PreOrder calm.
Proof.
  split; [by split; auto|]. intros t1 t2 t3 [V1 E1 G1] [V2 E2 G2]. split.
  - intros r Hr. by rewrite V2, V1.
  - intros e [He|?]%E2; [|by right]. by apply E1.
  - auto.
Qed.
#[export] Instance quiet_preorder : PreOrder quiet.
Proof.
  split; [by split|]. intros t1 t2 t3 [C1 V1 R1 S1] [C2 V2 R2 S2].
  split; [by etrans|congruence..].
Qed.

Lemma covers_calm t t' : calm t t' -> covers (protocol t) (state t) ->
  (forall id v, votes (state t) !! id = Some v -> votes (state t') !! id = Some v) ->
  covers (protocol t') (state t').
Proof.
  intros [Hv He _] [Hcv Hcp] Hmono. split.
  - intros r st v [Hin|[]]%He. by apply Hmono, Hcv.
  - intros p [Hin|[]]%He. destruct (Hcp p Hin) as [Hown Hp]. split; [done|]. by rewrite Hv.
Qed.

(** The instance keeps its invariant along quiet changes of the state. *)
Lemma inst_quiet t t' : inst_ok t -> quiet t t' -> ok (state t') ->
  aggregation_senders t' = aggregation_senders t ->
  pending_aggregation_starts t' = pending_aggregation_starts t ->
  (forall d, pending_decision t' = Some d -> decision_ok d) -> inst_ok t'.
Proof.
  intros [Hok Hs Hst Hp Hcv] Hq Hok' Es Est Hp'. split; [done| | |done|].
  - intros id. rewrite Es, (quiet_votes _ _ Hq). apply Hs.
  - intros id. rewrite Est, (quiet_votes _ _ Hq). apply Hst.
  - apply (covers_calm t); [apply Hq|done|]. by rewrite (quiet_votes _ _ Hq).
Qed.

Lemma quiet_same t t' : state t' = state t -> protocol t' = protocol t -> quiet t t'.
Proof. intros Hs Hp. split; [split|..]; rewrite ?Hs, ?Hp; auto. Qed.

Lemma inst_same t t' : inst_ok t -> state t' = state t -> protocol t' = protocol t ->
  aggregation_senders t' = aggregation_senders t ->
  pending_aggregation_starts t' = pending_aggregation_starts t ->
  (forall d, pending_decision t' = Some d -> decision_ok d) -> inst_ok t' /\ quiet t t'.
Proof.
  intros Hi Hs Hp Hse Hst Hd. pose proof (quiet_same t t' Hs Hp). split; [|done].
  apply (inst_quiet t); try done. rewrite Hs. apply Hi.
Qed.

Lemma view_insert s r h x r' :
  view (insert_round_proposal r h x s) r' =
  if decide (r = r') then <[h := x.1]> (view s r) else view s r'.
Proof.
  unfold view, insert_round_proposal. simpl. rewrite entry_insert.
  case_decide; [subst; by rewrite fmap_insert|done].
Qed.

Lemma view_or_default s r r' :
  view (set_round_proposals (or_default r (round_proposals s)) s) r' = view s r'.
Proof. unfold view. simpl. by rewrite entry_or_default. Qed.

(** ** Proposals *)

Lemma build_decision_ok s p a r : ok s -> known_proposals s !! hash p = Some p ->
  TWO_F_PLUS_ONE <= len (contributors_for a (Some (hash p))) -> Sound (r, Precommit) a ->
  exists d, build_decision p a r s = Some d /\ decision_ok d.
Proof.
  intros Hok Hk Hn Hs. destruct (so_known _ _ _ _ Hok _ _ Hk) as (_ & Hv & [x Hx]).
  destruct (create_decision_ok p x a r Hn (so_inherents _ _ _ _ Hok _ _ Hx)) as (d & Hd & Hp & Hr & Hsg).
  exists d. unfold build_decision. rewrite Hx. simpl. split; [done|].
  unfold decision_ok. rewrite Hp, Hr, Hsg. split_and!; [done|done|]. by exists a.
Qed.

Lemma known_hash s h p : ok s -> known_proposals s !! h = Some p -> hash p = h.
Proof. intros Hok Hk. by destruct (so_known _ _ _ _ Hok _ _ Hk). Qed.

Lemma wp_cached_decision h t : inst_ok t ->
  wp (cached_decision h) (fun od t' => t' = t /\ forall d, od = Some d -> decision_ok d)
    (fun _ _ => False) t.
Proof.
  intros Hi. unfold cached_decision, get_st. repeat wp_step.
  destruct (List.find _ _) as [found|] eqn:Hf; [|by wp_step].
  apply List.find_some in Hf as [_ Hc]. unfold is_commit_polka in Hc.
  destruct (best_votes (state t) !! found) as [a|] eqn:Ha; [|done].
  apply andb_prop in Hc as [Hst%bool_decide_eq_true Hn%Z.leb_le].
  destruct found as [r st]. simpl in *. subst st.
  destruct (known_proposals (state t) !! h) as [p|] eqn:Hk; [|by wp_step].
  pose proof (known_hash _ _ _ (io_state _ Hi) Hk) as <-.
  destruct (so_best _ _ _ _ (io_state _ Hi) _ _ Ha) as [_ Hs].
  destruct (build_decision_ok (state t) p a r (io_state _ Hi) Hk Hn Hs) as (d & Hd & Hdok).
  wp_step. apply (wp_expect _ d); [done|]. wp_step. split; [done|]. by intros d' [= <-].
Qed.

(** A change of the state alone that casts no vote. *)
Lemma inst_upd f t : inst_ok t -> ok (f (state t)) ->
  votes (f (state t)) = votes (state t) -> current_round (f (state t)) = current_round (state t) ->
  current_step (f (state t)) = current_step (state t) ->
  (forall r, own r -> view (f (state t)) r = view (state t) r) ->
  inst_ok (upd f t) /\ quiet t (upd f t).
Proof.
  intros Hi Hok Hv Hr Hs Hview. assert (quiet t (upd f t)) as Hq by (split; [split; auto|done..]).
  split; [|done]. apply (inst_quiet t); try done. apply (io_pending _ Hi).
Qed.

Lemma inst_insert_known p t : inst_ok t -> Valid p ->
  is_Some (inherents (state t) !! inherent_hash p) ->
  inst_ok (upd (insert_known p) t) /\ quiet t (upd (insert_known p) t).
Proof. intros Hi Hv Hx. apply inst_upd; try done. apply insert_known_ok; [apply Hi|done|done]. Qed.

Lemma inst_insert_inherent k x t : inst_ok t -> hash_of_inherent x = k ->
  let f s := set_inherents (<[k := x]> (inherents s)) s in
  inst_ok (upd f t) /\ quiet t (upd f t).
Proof. intros Hi Hx f. apply inst_upd; try done. apply insert_inherent_ok; [apply Hi|done]. Qed.

Lemma inst_or_default r t : inst_ok t ->
  let f s := set_round_proposals (or_default r (round_proposals s)) s in
  inst_ok (upd f t) /\ quiet t (upd f t).
Proof.
  intros Hi f. apply inst_upd; try done; [apply or_default_ok, Hi|].
  intros r' _. apply view_or_default.
Qed.

Lemma update_valid_frame r h s :
  votes (update_valid r h s) = votes s /\ current_round (update_valid r h s) = current_round s /\
  current_step (update_valid r h s) = current_step s /\
  round_proposals (update_valid r h s) = round_proposals s.
Proof. unfold update_valid. destruct (valid s) as [[vr ?]|]; [destruct (vr <? r)|]; done. Qed.

Lemma inst_update_valid r h t : inst_ok t -> is_Some (known_proposals (state t) !! h) ->
  is_Some (votes (state t) !! (r, Prevote)) -> polka Sound r h ->
  inst_ok (upd (update_valid r h) t) /\ quiet t (upd (update_valid r h) t).
Proof.
  intros Hi Hk Hv Hp. destruct (update_valid_frame r h (state t)) as (? & ? & ? & Hrp).
  apply inst_upd; try done; [apply update_valid_ok; try done; apply Hi|].
  intros r' _. unfold view. by rewrite Hrp.
Qed.

(** A proposal of an own round is only stored again if it is the stored one. *)
Lemma inst_insert_round_proposal r h x t : inst_ok t -> is_Some (known_proposals (state t) !! h) ->
  (own r -> view (state t) r !! h = Some x.1) ->
  inst_ok (upd (insert_round_proposal r h x) t) /\ quiet t (upd (insert_round_proposal r h x) t).
Proof.
  intros Hi Hk Hown. apply inst_upd; try done.
  - apply insert_round_proposal_ok; [apply Hi|done|]. intros Hr. specialize (Hown Hr).
    unfold view in Hown. rewrite lookup_fmap in Hown.
    destruct (entry r _ !! h) as [[vr sg]|] eqn:He; [|done]. injection Hown as Hvr. split.
    + intros v Hv. rewrite <-Hvr in Hv. simpl in Hv. rewrite Hv in He.
      by apply (so_own _ _ _ _ (io_state _ Hi) r h v sg).
    + intros h' x' Hx'. by apply (so_own_one _ _ _ _ (io_state _ Hi) r h' h x' _ Hr Hx' He).
  - intros r' Hr'. rewrite view_insert. case_decide as Heq; [subst r'|done].
    apply insert_id. by apply Hown.
Qed.

Section Inputs.
Context (i : Inputs).

Definition verify_ok : Prop := forall p o x, verify_proposal i p o = Some x ->
  Valid (pm_proposal (sp_message p)) /\
  (o = None -> hash_of_inherent x = inherent_hash (pm_proposal (sp_message p))).

Lemma wp_check_proposal p t : verify_ok -> inst_ok t ->
  wp (check_proposal i p) (fun r t' => inst_ok t' /\ quiet t t' /\ protocol t' = protocol t /\
    forall h, r = Some h -> h = hash (pm_proposal (sp_message p)) /\ is_Some (known_proposals (state t') !! h))
    (fun _ _ => False) t.
Proof.
  intros Hver Hi. unfold check_proposal, get_st, set_st. cbv zeta. set (q := pm_proposal (sp_message p)).
  wp_step. wp_step. destruct (inherents (state t) !! inherent_hash q) as [x|] eqn:Hx.
  - wp_step. wp_step. destruct (known_proposals (state t) !! hash q) as [q'|] eqn:Hk.
    { wp_step. split_and!; try done. intros h [= <-]. eauto. }
    destruct (verify_proposal i p (Some x)) as [x'|] eqn:Hv; [|by wp_step].
    destruct (Hver _ _ _ Hv) as [Hval _]. repeat wp_step.
    destruct (inst_insert_known q t Hi Hval ltac:(eauto)) as [Hi' Hq]. split_and!; try done.
    intros h [= <-]. split; [done|]. simpl. rewrite lookup_insert_eq. eauto.
  - destruct (verify_proposal i p None) as [x|] eqn:Hv; [|by wp_step].
    destruct (Hver _ _ _ Hv) as [Hval Hinh]. specialize (Hinh eq_refl).
    repeat wp_step.
    destruct (inst_insert_inherent (inherent_hash q) x t Hi Hinh) as [Hi1 Hq1].
    destruct (inst_insert_known q _ Hi1 Hval) as [Hi2 Hq2]; [simpl; rewrite lookup_insert_eq; eauto|].
    apply wp_assert.
    { simpl. destruct (known_proposals (state t) !! hash q) as [q'|] eqn:Hk; [|done].
      destruct (so_known _ _ _ _ (io_state _ Hi) _ _ Hk) as (Heq & _ & [y Hy]).
      rewrite (hash_inherent _ _ Heq) in Hy. congruence. }
    wp_step. split_and!; [done|by etrans|done|]. intros h [= <-]. split; [done|].
    simpl. rewrite lookup_insert_eq. eauto.
Qed.

Lemma wp_process_proposal p t : verify_ok -> inst_ok t -> delivered t p ->
  wp (process_proposal i p) (fun _ t' => inst_ok t' /\ quiet t t') (fun _ _ => False) t.
Proof.
  intros Hver Hi Hdel. unfold process_proposal. wp_step.
  eapply wp_mono; [by apply wp_check_proposal| |done]. simpl.
  intros [h|] t1 (Hi1 & Hq1 & Hpr & Hh); [|by wp_step]. destruct (Hh h eq_refl) as [-> Hk].
  set (h := hash _) in *. set (r := pm_round _) in *.
  set (x := (pm_valid_round (sp_message p), sp_signature p)).
  assert (Hown : own r -> view (state t1) r !! h = Some x.1).
  { intros Hr. destruct (Hdel Hr) as (q & Hin & Hr' & Hvr & Hhash).
    rewrite <-Hpr in Hin. destruct (cv_proposal _ _ (io_covers _ Hi1) q Hin) as [_ Hview].
    by rewrite Hr', Hhash, Hvr in Hview. }
  destruct (inst_insert_round_proposal r h x t1 Hi1 Hk Hown) as [Hi2 Hq2].
  unfold set_st. repeat wp_step. set (t2 := upd _ t1) in *.
  set (f := fun s => if has_two_f_plus_one h r s then update_valid r h s else s).
  assert (Hi3 : inst_ok (upd f t2) /\ quiet t2 (upd f t2)).
  { unfold upd at 1 2, f. destruct (has_two_f_plus_one h r (state t2)) eqn:Hp.
    - destruct (has_polka _ _ _ _ _ _ (io_state _ Hi2) Hp). by apply inst_update_valid.
    - apply inst_same; try done. apply (io_pending _ Hi2). }
  destruct Hi3 as [Hi3 Hq3]. change (upd (fun s => _) t2) with (upd f t2). set (t3 := upd f t2) in *.
  eapply wp_mono; [by apply wp_cached_decision| |done]. simpl. intros od t' [-> Hd].
  assert (quiet t t3) by (etrans; [done|]; by etrans).
  wp_step. destruct od as [d|]; simpl; do 2 wp_step; [|done].
  assert (Hd' : forall d', Some d = Some d' -> decision_ok d') by (intros d' [= <-]; by apply Hd).
  destruct (inst_same t3 (set_pending_decision (Some d) t3) Hi3 eq_refl eq_refl eq_refl eq_refl Hd').
  split; [done|by etrans].
Qed.

Lemma delivered_calm t t' p : calm t t' -> delivered t p -> delivered t' p.
Proof.
  intros Hc Hd Hr. destruct (Hd Hr) as (q & Hq & Heq). exists q. split; [|done]. by apply (calm_grow _ _ Hc).
Qed.

Lemma wp_process_next_proposal t : verify_ok -> inst_ok t ->
  (forall p, in_proposal i = Some p -> delivered t p) ->
  wp (process_next_proposal i) (fun r t' => inst_ok t' /\ quiet t t' /\
    (in_proposal i = None -> t' = t) /\ (r = None -> in_proposal i = None) /\
    forall x, r = Some x -> match x with Decided _ | Update _ => False | _ => True end)
    (fun _ _ => False) t.
Proof.
  intros Hver Hi Hdel. unfold process_next_proposal, set_st, get_st. destruct (in_proposal i) as [p|]; [|by wp_step].
  specialize (Hdel p eq_refl). repeat wp_step.
  destruct (inst_or_default (pm_round (sp_message p)) t Hi) as [Hi1 Hq1].
  destruct (negb _); [by wp_step; split_and!; try done; intros x [= <-]|]. wp_step.
  eapply wp_mono; [apply wp_process_proposal; [done|done|]| |done].
  { eapply delivered_calm; [apply Hq1|done]. }
  simpl. intros r t2 [Hi2 Hq2]. destruct r as [h|]; repeat wp_step.
  - destruct (inst_same t2 (set_return_pending true t2)) as [Hi3 Hq3]; try done; [apply (io_pending _ Hi2)|].
    split_and!; try done; [|by intros x [= <-]]. etrans; [done|]. by etrans.
  - split_and!; try done; [by etrans|by intros x [= <-]].
Qed.

Lemma wp_process_responses rs export t : verify_ok -> inst_ok t ->
  (forall p q, (Some p, q) ∈ rs -> delivered t p) ->
  wp (process_responses i rs export) (fun _ t' => inst_ok t' /\ quiet t t') (fun _ _ => False) t.
Proof.
  intros Hver. revert export t. induction rs as [|[[p|] q] rs IH]; intros export t Hi Hdel.
  - simpl. by wp_step.
  - simpl. repeat wp_step. set (t1 := set_requests _ t).
    destruct (inst_same t t1) as [Hi1 Hq1]; try done; [apply (io_pending _ Hi)|].
    eapply wp_mono; [apply wp_process_proposal; [done|done|]| |done].
    { eapply delivered_calm; [apply Hq1|]. apply (Hdel p q). by left. }
    simpl. intros r t2 [Hi2 Hq2]. assert (Hq : quiet t t2) by (by etrans).
    eapply wp_mono; [apply IH; [done|]| |done].
    { intros p' q' Hin. eapply delivered_calm; [apply Hq|]. apply (Hdel p' q'). by right. }
    simpl. intros _ t3 [? ?]. split; [done|by etrans].
  - simpl. repeat wp_step. set (t1 := set_requests _ t).
    destruct (inst_same t t1) as [Hi1 Hq1]; try done; [apply (io_pending _ Hi)|].
    eapply wp_mono; [apply IH; [done|]| |done].
    { intros p' q' Hin. eapply delivered_calm; [apply Hq1|]. apply (Hdel p' q'). by right. }
    simpl. intros _ t3 [? ?]. split; [done|by etrans].
Qed.
End Inputs.

(** ** Skipping ahead *)

Definition grows (t t' : Tendermint) : Prop :=
  forall id v, votes (state t) !! id = Some v -> votes (state t') !! id = Some v.

#[export] Instance grows_preorder : PreOrder grows.
Proof. split; [by intros t id v|]. intros t1 t2 t3 H1 H2 id v Hv. by apply H2, H1. Qed.

Lemma quiet_grows t t' : quiet t t' -> grows t t'.
Proof. intros Hq id v. by rewrite (quiet_votes _ _ Hq). Qed.

(** [t'] is [t] with votes for nothing added in the rounds of [l]. *)
Record fills (l : list Z) (t t' : Tendermint) : Prop := {
  fl_state : state t' = set_votes (votes (state t')) (state t);
  fl_votes id : votes (state t') !! id =
    match votes (state t) !! id with
    | Some x => Some x
    | None => if decide (id.2 <> Propose /\ id.1 ∈ l) then Some None else None
    end;
  fl_protocol : protocol t' = protocol t;
  fl_senders : aggregation_senders t' = aggregation_senders t;
  fl_decision : pending_decision t' = pending_decision t;
  fl_starts id : id ∈ pending_aggregation_starts t' ->
    id ∈ pending_aggregation_starts t \/ is_Some (votes (state t') !! id);
}.

Lemma vote_none_fills t id : let t' := vote_none_if_vacant t id in
  state t' = set_votes (votes (state t')) (state t) /\
  (forall id', votes (state t') !! id' = match votes (state t) !! id' with
     | Some x => Some x | None => if decide (id' = id) then Some None else None end) /\
  protocol t' = protocol t /\ aggregation_senders t' = aggregation_senders t /\
  pending_decision t' = pending_decision t /\
  forall id', id' ∈ pending_aggregation_starts t' ->
    id' ∈ pending_aggregation_starts t \/ is_Some (votes (state t') !! id').
Proof.
  unfold vote_none_if_vacant. destruct (votes (state t) !! id) as [x|] eqn:Hv; simpl; split_and!; try done.
  - by destruct (state t).
  - intros id'. destruct (votes (state t) !! id') eqn:?; [done|]. rewrite decide_False; [done|congruence].
  - auto.
  - intros id'. destruct (decide (id' = id)) as [->|Hne]; [by rewrite lookup_insert_eq, Hv|].
    rewrite lookup_insert_ne by done. by destruct (votes (state t) !! id').
  - intros id' [Hin%elem_of_singleton|Hin]%elem_of_union; [|by left].
    right. subst. rewrite lookup_insert_eq. eauto.
Qed.

Lemma fill_step l r (id : Id) :
  match match if decide (id.2 <> Propose /\ id.1 ∈ l) then Some None else None with
        | Some x => Some x
        | None => if decide (id = (r, Prevote)) then Some None else None
        end with
  | Some x => Some x
  | None => if decide (id = (r, Precommit)) then Some None else None
  end = if decide (id.2 <> Propose /\ id.1 ∈ l ++ [r]) then Some (@None Z) else None.
Proof.
  destruct (decide (id.2 <> Propose /\ id.1 ∈ l ++ [r])) as [[Hp Hin]|Hn].
  - apply elem_of_app in Hin as [Hin|Hin%list_elem_of_singleton]; [by rewrite decide_True|].
    destruct id as [r' []]; simpl in *; subst; repeat case_decide; naive_solver.
  - destruct id as [r' []]; simpl in *; repeat case_decide; try done; exfalso; apply Hn;
      simplify_eq; (split; [done|]); rewrite elem_of_app, list_elem_of_singleton; naive_solver.
Qed.

Lemma fills_round l r t t' : fills l t t' -> fills (l ++ [r]) t (vote_none_in_round t' r).
Proof.
  intros [Hs Hv Hp Hse Hd Hst]. unfold vote_none_in_round.
  destruct (vote_none_fills t' (r, Prevote)) as (Hs1 & Hv1 & Hp1 & Hse1 & Hd1 & Hst1).
  set (t1 := vote_none_if_vacant t' _) in *.
  destruct (vote_none_fills t1 (r, Precommit)) as (Hs2 & Hv2 & Hp2 & Hse2 & Hd2 & Hst2).
  set (t2 := vote_none_if_vacant t1 _) in *. split; try congruence.
  - rewrite Hs2, Hs1, Hs. done.
  - intros id. rewrite Hv2, Hv1, Hv. destruct (votes (state t) !! _); [done|]. apply fill_step.
  - intros id Hid. destruct (Hst2 _ Hid) as [Hid1|]; [|by right].
    destruct (Hst1 _ Hid1) as [Hid0|[x Hx]]; [|right; rewrite Hv2, Hx; eauto].
    destruct (Hst _ Hid0) as [|[x Hx]]; [by left|]. right. rewrite Hv2, Hv1, Hx. eauto.
Qed.

Lemma fills_foldl l t : fills l t (foldl vote_none_in_round t l).
Proof.
  induction l as [|r l IH] using rev_ind.
  - split; simpl; try done; [by destruct (state t)| |auto].
    intros id. destruct (votes (state t) !! id); [done|]. rewrite decide_False; [done|set_solver].
  - rewrite foldl_app. simpl. by apply fills_round.
Qed.

Lemma inst_skip_ahead round t : inst_ok t -> current_round (state t) < round ->
  inst_ok (skip_ahead round t) /\ calm t (skip_ahead round t) /\ grows t (skip_ahead round t) /\
  current_step (state (skip_ahead round t)) = Propose.
Proof.
  intros Hi Hlt. unfold skip_ahead. set (l := seqZ _ _).
  destruct (fills_foldl l t) as [Hs Hv Hp Hse Hd Hst]. set (t1 := foldl _ t l) in *. cbv zeta.
  set (t2 := set_future_messages _ _).
  assert (Hs2 : state t2 = set_step Propose (set_round round (set_votes (votes (state t1)) (state t)))).
  { change (state t2) with (set_step Propose (set_round round (state t1))). by rewrite Hs. }
  assert (Hc : calm t t2).
  { split; [|change (protocol t2) with (protocol t1); rewrite Hp; auto..].
    intros r _. by rewrite Hs2. }
  assert (Hmono : grows t t2).
  { intros id v Hv'. rewrite Hs2. simpl. by rewrite Hv, Hv'. }
  split_and!; [|done|done|by rewrite Hs2]. split.
  - rewrite Hs2. apply skip_ok; [apply Hi|done|]. intros id. rewrite Hv.
    destruct (votes (state t) !! id); [done|]. apply decide_ext. subst l. rewrite elem_of_seqZ. split; intros [? ?]; (split; [done|lia]).
  - intros id Hid. change (aggregation_senders t2) with (aggregation_senders t1) in Hid. rewrite Hse in Hid.
    destruct (io_senders _ Hi id Hid) as [v Hv']. eauto.
  - intros id Hid. destruct (Hst id Hid) as [Hid0|[v Hv']]; [|rewrite Hs2; simpl; eauto].
    destruct (io_starts _ Hi id Hid0) as [v Hv']. eauto.
  - intros d. change (pending_decision t2) with (pending_decision t1). rewrite Hd. apply Hi.
  - apply (covers_calm t); [done|apply Hi|done].
Qed.

(** ** Messages *)

Lemma start_verification_frame fuel random t : let t' := (start_verification fuel random t).2 in
  state t' = state t /\ protocol t' = protocol t /\ aggregation_senders t' = aggregation_senders t /\
  pending_aggregation_starts t' = pending_aggregation_starts t /\ pending_decision t' = pending_decision t.
Proof.
  revert t. induction fuel as [|fuel IH]; intros t; simpl; [done|].
  destruct (future_round_verification t); [done|].
  destruct (sorted_keys _) as [|k ks]; [done|]. destruct (_ !! _) as [v|]; [|done].
  destruct (future_round_messages t !! v) as [m|]; [|done].
  destruct (bool_decide _); [|done]. simpl. by destruct (IH (set_future_messages (delete v (future_round_messages t)) t)).
Qed.

Lemma wp_finish_verification d t : inst_ok t ->
  wp (finish_verification d) (fun r t' => inst_ok t' /\ calm t t' /\ grows t t' /\
    (r.2 = false -> quiet t t') /\ (r.2 = true -> current_step (state t') = Propose))
    (fun _ _ => False) t.
Proof.
  intros Hi. unfold finish_verification, get_st. repeat wp_step.
  destruct (future_round_verification t) as [[round new]|]; [|by wp_step].
  destruct (di_verified d) as [verified|]; [|by wp_step]. repeat wp_step.
  set (t1 := set_verification None t).
  destruct (inst_same t t1) as [Hi1 Hq1]; try done; [apply (io_pending _ Hi)|].
  destruct (verified && _) eqn:Hlt; [|wp_step; split_and!; [done|apply Hq1|by apply quiet_grows|done..]].
  repeat wp_step. set (t2 := set_future_contributions _ t1).
  destruct (inst_same t1 t2) as [Hi2 Hq2]; try done; [apply (io_pending _ Hi1)|].
  assert (Hq : quiet t t2) by (by etrans).
  destruct (F_PLUS_ONE <=? _); repeat wp_step; [|split_and!; [done|apply Hq|by apply quiet_grows|done..]].
  bool_to_prop. destruct (inst_skip_ahead round t2) as (Hi3 & Hc3 & Hg3 & Hs3); [done|done|].
  split_and!; try done. etrans; [apply Hq|done].
Qed.

Lemma wp_receive_message d t : inst_ok t -> (forall m, di_message d <> Some (m, Closed)) ->
  wp (receive_message d) (fun _ t' => inst_ok t' /\ quiet t t') (fun _ _ => False) t.
Proof.
  intros Hi Hc. unfold receive_message, get_st. destruct (di_message d) as [[m sent]|]; [|by wp_step].
  repeat wp_step. destruct (_ <? _).
  - repeat wp_step. unfold queue_message.
    assert (inst_ok (set_future_messages (<[am_sender (aggregation m):=m]> (future_round_messages t)) t)
      /\ quiet t (set_future_messages (<[am_sender (aggregation m):=m]> (future_round_messages t)) t)).
    { apply inst_same; try done. apply (io_pending _ Hi). }
    destruct (_ !! _); [by destruct (_ <=? _)|done].
  - repeat wp_step. destruct (bool_decide _); [|by wp_step].
    destruct sent; [by wp_step..|]. by destruct (Hc m).
Qed.

Lemma wp_dispatch_messages ds export t : inst_ok t ->
  (forall d m, d ∈ ds -> di_message d <> Some (m, Closed)) ->
  wp (dispatch_messages ds export) (fun r t' => inst_ok t' /\ calm t t' /\ grows t t' /\
    (quiet t t' \/ (r.2 = true /\ current_step (state t') = Propose)) /\ (export = true -> r.2 = true))
    (fun _ _ => False) t.
Proof.
  revert t. induction ds as [|d ds IH]; intros t Hi Hc; simpl.
  { wp_step. split_and!; try done. by left. }
  wp_step. eapply wp_mono; [by apply wp_finish_verification| |done]. simpl.
  intros [did skipped] t1 (Hi1 & Hc1 & Hg1 & Hq1 & Hs1). simpl in *. destruct skipped.
  { wp_step. split_and!; try done. right. auto. }
  specialize (Hq1 eq_refl). wp_step. eapply wp_mono; [apply wp_receive_message; [done|]| |done].
  { intros m. apply Hc. by left. }
  simpl. intros [did' full] t2 [Hi2 Hq2]. simpl.
  assert (Hq : quiet t t2) by (by etrans).
  destruct full as [m|]; [wp_step; split_and!; [done|apply Hq|by apply quiet_grows|by left|done]|].
  wp_step. unfold wp at 1. set (r := start_verification _ _ _).
  pose proof (start_verification_frame (size (future_round_messages t2)) (di_random d) t2) as Hf.
  cbv zeta in Hf. fold r in Hf. destruct Hf as (F1 & F2 & F3 & F4 & F5). destruct r as [started t3]. simpl in *.
  destruct (inst_same t2 t3) as [Hi3 Hq3]; try done.
  { rewrite F5. apply (io_pending _ Hi2). }
  assert (Hq' : quiet t t3) by (by etrans).
  destruct (_ || _); [|wp_step; split_and!; [done|apply Hq'|by apply quiet_grows|by left|done]].
  eapply wp_mono; [apply IH; [done|]| |done]; [intros d' m' ?; apply Hc; by right|].
  simpl. intros [m' ex'] t4 (Hi4 & Hc4 & Hg4 & Hor & Hex). simpl in *. split_and!; [done| | | |done].
  - etrans; [apply Hq'|done].
  - intros id v Hv. by apply Hg4, (quiet_grows _ _ Hq').
  - destruct Hor as [Hq4|[? ?]]; [left; by etrans|by right].
Qed.

(** ** Aggregations *)

Lemma inst_best id a t : inst_ok t -> is_Some (votes (state t) !! id) -> Sound id a ->
  let f s := set_best_votes (<[id := a]> (best_votes s)) s in
  inst_ok (upd f t) /\ quiet t (upd f t).
Proof. intros Hi Hv Ha f. apply inst_upd; try done. apply best_ok; [apply Hi|done|done]. Qed.

Lemma wp_update_best id a t : inst_ok t -> is_Some (votes (state t) !! id) -> Sound id a ->
  wp (update_best id a) (fun r t' => inst_ok t' /\ quiet t t' /\ Sound id r.1) (fun _ _ => False) t.
Proof.
  intros Hi Hv Ha. unfold update_best, get_st, set_st. repeat wp_step.
  destruct (inst_best id a t Hi Hv Ha) as [Hi1 Hq1].
  destruct (best_votes (state t) !! id) as [old|] eqn:Hb; [|by repeat wp_step].
  destruct (_ <? _); repeat wp_step; split_and!; try done. simpl.
  by apply (so_best _ _ _ _ (io_state _ Hi) id old).
Qed.

Lemma voted_not_propose s id : ok s -> is_Some (votes s !! id) -> id.2 <> Propose.
Proof. intros Hok Hv. by apply (so_votes _ _ _ _ Hok) in Hv as [? _]. Qed.

Lemma wp_act_on_polka id a h t : inst_ok t -> is_Some (votes (state t) !! id) -> Sound id a ->
  TWO_F_PLUS_ONE <= len (contributors_for a (Some h)) ->
  wp (act_on_polka id a h) (fun r t' => inst_ok t' /\ quiet t t' /\ forall d, r = Some d -> decision_ok d)
    (fun _ _ => False) t.
Proof.
  intros Hi Hv Ha Hn. unfold act_on_polka, get_st, set_st. repeat wp_step.
  destruct (known_proposals (state t) !! h) as [p|] eqn:Hk; [|by wp_step].
  pose proof (voted_not_propose _ _ (io_state _ Hi) Hv) as Hst.
  destruct id as [r []]; simpl in *; [done|..].
  - repeat wp_step. destruct (inst_update_valid r h t) as [Hi1 Hq1]; try done; by exists a.
  - pose proof (known_hash _ _ _ (io_state _ Hi) Hk) as <-.
    destruct (build_decision_ok (state t) p a r (io_state _ Hi) Hk Hn Ha) as (d & Hd & Hdok).
    repeat wp_step. apply (wp_expect _ d); [done|]. wp_step. split_and!; try done. by intros d' [= <-].
Qed.

Lemma inst_request id a n h c t : inst_ok t ->
  inst_ok (request_if_promising id a n h c t) /\ quiet t (request_if_promising id a n h c t).
Proof.
  intros Hi. unfold request_if_promising. destruct (_ && _); [|done]. set (t' := emit _ _).
  assert (Hq : quiet t t').
  { split; [split|..]; try done.
    - intros e. unfold t'. simpl. rewrite elem_of_app, list_elem_of_singleton. intros [?|He]; [by left|right; by subst].
    - intros e He. unfold t'. simpl. rewrite elem_of_app. by left. }
  split; [|done]. apply (inst_quiet t); try done; [apply Hi|apply (io_pending _ Hi)].
Qed.

Lemma wp_scan_best_vote id a ps t : inst_ok t -> is_Some (votes (state t) !! id) -> Sound id a ->
  (forall h n, (h, n) ∈ ps -> n = len (contributors_for a (Some h))) ->
  wp (scan_best_vote id a ps) (fun r t' => inst_ok t' /\ quiet t t' /\ forall d, r = Some d -> decision_ok d)
    (fun _ _ => False) t.
Proof.
  revert t. induction ps as [|[h n] ps IH]; intros t Hi Hv Ha Hps; simpl; [by wp_step|].
  wp_step.
  assert (Hact : wp (if TWO_F_PLUS_ONE <=? n then act_on_polka id a h else mret None)
    (fun r t' => inst_ok t' /\ quiet t t' /\ forall d, r = Some d -> decision_ok d) (fun _ _ => False) t).
  { destruct (_ <=? _) eqn:Hn; [|by wp_step]. bool_to_prop. apply wp_act_on_polka; try done.
    rewrite <-(Hps h n); [done|by left]. }
  eapply wp_mono; [exact Hact| |done]. simpl. intros [d|] t1 (Hi1 & Hq1 & Hd); [by wp_step|].
  repeat wp_step. set (t2 := request_if_promising _ _ _ _ _ t1).
  destruct (inst_request id a (len (all_contributors a)) h n t1 Hi1) as [Hi2 Hq2]. fold t2 in Hi2, Hq2.
  assert (Hq : quiet t t2) by (by etrans).
  eapply wp_mono; [apply IH; [done| |done|]| |done].
  - by rewrite (quiet_votes _ _ Hq).
  - intros h' n' ?. apply Hps. by right.
  - simpl. intros r t3 (? & ? & ?). split_and!; [done|by etrans|done].
Qed.

Lemma wp_poll_aggregations us export t : inst_ok t ->
  (forall id a, (id, a) ∈ us -> is_Some (votes (state t) !! id) /\ Sound id a) ->
  wp (poll_aggregations us export) (fun r t' => inst_ok t' /\ quiet t t' /\
    (forall d, r.1 = Some d -> decision_ok d) /\ (export = true -> r.2 = true)) (fun _ _ => False) t.
Proof.
  revert export t. induction us as [|[id a] us IH]; intros export t Hi Hus; simpl; [by wp_step|].
  destruct (Hus id a) as [Hv Ha]; [by left|].
  wp_step. eapply wp_mono; [by apply wp_update_best| |done]. simpl. intros [best b] t1 (Hi1 & Hq1 & Hb).
  simpl in *. wp_step. eapply wp_mono; [apply wp_scan_best_vote; [done| |done|]| |done].
  - by rewrite (quiet_votes _ _ Hq1).
  - intros h n. apply proposals_count.
  - simpl. intros [d|] t2 (Hi2 & Hq2 & Hd).
    + wp_step. split_and!; [done|by etrans|by intros d' [= <-]; apply Hd|]. by intros ->.
    + assert (Hq : quiet t t2) by (by etrans). eapply wp_mono; [apply IH; [done|]| |done].
      * intros id' a' ?. rewrite (quiet_votes _ _ Hq). apply Hus. by right.
      * simpl. intros r t3 (? & ? & ? & Hex). split_and!; [done|by etrans|done|]. intros ->. by apply Hex.
Qed.

(** ** The state machine *)

(** What is published from [t] to [t']: votes, under a condition, and
    proposals of own rounds, all of them in the state of [t]. *)
Record publishes (may_vote : Prop) (t t' : Tendermint) : Prop := {
  pb_vote r st v : CreateAggregation r st v ∈ protocol t' ->
    CreateAggregation r st v ∈ protocol t \/ (may_vote /\ votes (state t) !! (r, st) = Some v);
  pb_proposal p : BroadcastProposal p ∈ protocol t' ->
    BroadcastProposal p ∈ protocol t \/
    (own (pm_round (sp_message p)) /\
     view (state t) (pm_round (sp_message p)) !! hash (pm_proposal (sp_message p))
       = Some (pm_valid_round (sp_message p)));
}.

(** No vote is cast and own rounds keep their proposals. *)
Record still (t t' : Tendermint) : Prop := {
  still_votes : votes (state t') = votes (state t);
  still_view r : own r -> view (state t') r = view (state t) r;
}.

Lemma quiet_still t t' : quiet t t' -> still t t'.
Proof. intros [[? _ _] ? _ _]. by split. Qed.

#[export] Instance still_trans : Transitive still.
Proof.
  intros t1 t2 t3 [V1 W1] [V2 W2]. split; [congruence|]. intros r Hr. by rewrite W2, W1.
Qed.

Lemma publishes_calm Q t t' : calm t t' -> publishes Q t t'.
Proof. intros [_ He _]. split; [intros r st v|intros p]; by intros [?|[]]%He; left. Qed.

Lemma publishes_trans Q t t' t'' : publishes Q t t' -> publishes Q t' t'' -> still t t' ->
  publishes Q t t''.
Proof.
  intros [V1 P1] [V2 P2] [Ev Ew]. split.
  - intros r st v [Hin|[? Hv]]%V2; [by apply V1|]. right. by rewrite <-Ev.
  - intros p [Hin|[? Hv]]%P2; [by apply P1|]. right. by rewrite <-Ew.
Qed.

Lemma publishes_after (Q : Prop) t t' t'' : calm t t' -> publishes Q t' t'' -> ~ Q -> publishes False t t''.
Proof.
  intros [Hw He _] [V P] HQ. split.
  - intros r st v [Hin|[? _]]%V; [|done]. destruct (He _ Hin) as [?|[]]. by left.
  - intros p [Hin|[? Hv]]%P; [destruct (He _ Hin) as [?|[]]; by left|]. right. by rewrite <-Hw.
Qed.

Lemma publishes_impl (Q Q' : Prop) t t' : (Q -> Q') -> publishes Q t t' -> publishes Q' t t'.
Proof. intros HQ [V P]. split; [intros r st v [?|[? ?]]%V; auto|done]. Qed.

Lemma covers_grow effects s s' : covers effects s ->
  (forall id v, votes s !! id = Some v -> votes s' !! id = Some v) ->
  (forall r h v, own r -> view s r !! h = Some v -> view s' r !! h = Some v) -> covers effects s'.
Proof.
  intros [Hv Hp] Hmv Hmp. split; [intros r st v Hin; by apply Hmv, Hv|].
  intros p Hin. destruct (Hp p Hin). auto.
Qed.

(** A change of the state that may cast votes. *)
Lemma inst_cast t t' : inst_ok t -> ok (state t') -> protocol t' = protocol t ->
  aggregation_senders t' = aggregation_senders t ->
  pending_aggregation_starts t' = pending_aggregation_starts t ->
  pending_decision t' = pending_decision t ->
  (forall id v, votes (state t) !! id = Some v -> votes (state t') !! id = Some v) ->
  (forall r h v, own r -> view (state t) r !! h = Some v -> view (state t') r !! h = Some v) ->
  inst_ok t'.
Proof.
  intros [Hok Hs Hst Hp Hcv] Hok' Ep Es Est Ed Hmv Hmp. split; [done| | |by rewrite Ed|].
  - intros id. rewrite Es. intros [v Hv]%Hs. eauto.
  - intros id. rewrite Est. intros [v Hv]%Hst. eauto.
  - rewrite Ep. by eapply covers_grow.
Qed.

Lemma wp_create_aggregation id t : inst_ok t -> is_Some (votes (state t) !! id) ->
  wp (create_aggregation id) (fun _ t' => inst_ok t' /\ publishes True t t' /\ state t' = state t)
    (fun _ _ => False) t.
Proof.
  intros Hi [v Hv]. unfold create_aggregation, get_st. repeat wp_step.
  destruct (bool_decide _); [wp_step; split_and!; try done; apply publishes_calm; reflexivity|].
  repeat wp_step. apply (wp_expect _ v); [done|]. wp_step. destruct id as [r st].
  set (t' := start_aggregation _ _ _).
  assert (Hin : forall e, e ∈ protocol t' -> e ∈ protocol t \/ e = CreateAggregation r st v).
  { intros e. unfold t'. simpl. by rewrite elem_of_app, list_elem_of_singleton. }
  assert (Hpub : publishes True t t').
  { split; [|intros p [?|?]%Hin; [by left|done]].
    intros r' st' v' [?|[= -> -> ->]]%Hin; [by left|by right]. }
  split_and!; try done. destruct Hi as [Hok Hs Hst Hp [Hcv Hcp]]. split; try done.
  - intros id. unfold t'. simpl. intros [->%elem_of_singleton|?]%elem_of_union; [simpl; eauto|auto].
  - split; [intros r' st' v' [?|[_ ?]]%(pb_vote _ _ _ Hpub); auto|].
    intros p [?|[]]%(pb_proposal _ _ _ Hpub); auto.
Qed.

Lemma inst_broadcast p t : inst_ok t -> own (pm_round (sp_message p)) ->
  view (state t) (pm_round (sp_message p)) !! hash (pm_proposal (sp_message p))
    = Some (pm_valid_round (sp_message p)) ->
  inst_ok (emit (BroadcastProposal p) t) /\ publishes False t (emit (BroadcastProposal p) t).
Proof.
  intros Hi Hown Hview. set (t' := emit _ _).
  assert (Hin : forall e, e ∈ protocol t' -> e ∈ protocol t \/ e = BroadcastProposal p).
  { intros e. unfold t'. simpl. by rewrite elem_of_app, list_elem_of_singleton. }
  assert (Hpub : publishes False t t').
  { split; [intros r st v [?|?]%Hin; [by left|done]|]. intros q [?|[= ->]]%Hin; [by left|by right]. }
  split; [|done]. destruct Hi as [Hok Hs Hst Hp [Hcv Hcp]]. split; try done.
  split; [intros r' st' v' [?|[[] _]]%(pb_vote _ _ _ Hpub); auto|].
  intros q [?|[]]%(pb_proposal _ _ _ Hpub); auto.
Qed.

Lemma first_lookup {V} (m : gmap Z V) k x : first m = Some (k, x) -> m !! k = Some x.
Proof.
  unfold first. destruct (head _) as [k'|]; [|done]. simpl.
  destruct (m !! k') as [x'|] eqn:Hk; [|done]. by intros [= <- <-].
Qed.

Lemma first_none {V} (m : gmap Z V) k : first m = None -> m !! k = None.
Proof.
  unfold first. destruct (sorted_keys_spec m) as [_ Hin]. intros Hf. apply eq_None_not_Some. intros Hk%Hin.
  destruct (sorted_keys m) as [|k' l]; [by apply not_elem_of_nil in Hk|]. simpl in Hf.
  destruct (proj1 (Hin k') ltac:(by left)) as [x Hx]. by rewrite Hx in Hf.
Qed.
End Instance.
