(* ===== verification/TendermintPoll.v ===== *)
(** * One call of the Tendermint state machine

    The three states of the machine and [poll_next]: each call keeps the
    invariant, does not panic, publishes only what the state holds at its
    beginning, and hands out every change of the votes to be stored. *)

From S2P Require Import Prelude Tendermint TendermintInv TendermintProofs.
Import Step.

Section Machine.
Context `{Pr : Protocol} {PrOk : ProtocolOk Pr}.
Context (Sound : Id -> Aggregation -> Prop) (Valid : Proposal -> Prop) (own : Z -> Prop).
#[local] Abbreviation ok := (state_ok Sound Valid own).
#[local] Abbreviation iok := (inst_ok Sound Valid own).
#[local] Abbreviation quiet := (quiet own).
#[local] Abbreviation still := (still own).
#[local] Abbreviation publishes := (publishes own).
#[local] Abbreviation decision_ok := (decision_ok Sound Valid).

Lemma wp_get_st {A} (f : State -> A) Q QE t : Q (f (state t)) t -> wp (get_st f) Q QE t.
Proof. done. Qed.
Lemma wp_set_st f Q QE t : Q tt (upd f t) -> wp (set_st f) Q QE t.
Proof. done. Qed.

(** A new vote keeps the older ones. *)
Lemma insert_mono {V} (m : gmap Id V) id x : m !! id = None ->
  forall id' v, m !! id' = Some v -> <[id := x]> m !! id' = Some v.
Proof. intros Hid id' v Hv. rewrite lookup_insert_ne; [done|]. intros ->. congruence. Qed.

(** ** Waiting for a proposal *)

Lemma inst_prevote v t : iok t -> current_step (state t) = Propose -> ok (prevote v (state t)) ->
  iok (upd (prevote v) t).
Proof.
  intros Hi Hs Hok. apply (inst_cast _ _ _ t); try done. simpl.
  apply insert_mono. by apply (prevote_vacant Sound Valid own); [apply Hi|].
Qed.

Lemma received_upd t f : (f (state t) = prevote None (state t) \/
    exists h, f (state t) = prevote (Some h) (state t)) ->
  iok t -> current_step (state t) = Propose -> ok (f (state t)) -> iok (upd f t).
Proof.
  intros Hf Hi Hs Hok. unfold upd. destruct Hf as [Hf|[h Hf]]; rewrite Hf in Hok |- *; by apply inst_prevote.
Qed.

Lemma wp_export t : iok t ->
  wp (modify (set_timeout None);; export_state)
    (fun r t' => iok t' /\ protocol t' = protocol t /\ r = Some (Update (state t'))) (fun _ _ => False) t.
Proof.
  intros Hi. unfold export_state, get_st. repeat wp_step. split_and!; try done.
  apply (inst_same _ _ _ t); try done. apply (io_pending _ _ _ _ Hi).
Qed.

Lemma wp_await_proposal i t : iok t -> current_step (state t) = Propose ->
  wp (await_proposal i) (fun r t' => iok t' /\ protocol t' = protocol t /\
    (r = None -> quiet t t') /\ forall x, r = Some x -> x = Update (state t')) (fun _ _ => False) t.
Proof.
  intros Hi Hs. unfold await_proposal, get_st, set_st. repeat wp_step. apply wp_assert.
  { by rewrite (prevote_vacant Sound Valid own _ (io_state _ _ _ _ Hi) Hs). }
  unfold start_timeout. repeat wp_step. set (t1 := match timeout t with Some _ => t | None => _ end).
  assert (H1 : iok t1 /\ quiet t t1).
  { unfold t1. destruct (timeout t); [done|]. apply inst_same; try done. apply (io_pending _ _ _ _ Hi). }
  assert (Hpr1 : protocol t1 = protocol t) by (unfold t1; by destruct (timeout t)). clearbody t1.
  destruct H1 as [Hi1 Hq1]. set (t2 := upd _ t1).
  destruct (inst_or_default Sound Valid own (current_round (state t1)) t1 Hi1) as [Hi2 Hq2].
  change (iok t2) in Hi2. change (quiet t1 t2) in Hq2.
  assert (Hq : quiet t t2) by (by etrans). assert (Hs2 : current_step (state t2) = Propose) by (by rewrite (quiet_step _ _ _ Hq)).
  assert (Hpr2 : protocol t2 = protocol t) by done. clearbody t2.
  assert (Hexp : forall t3, iok t3 -> protocol t3 = protocol t ->
    wp (modify (set_timeout None);; export_state) (fun r t' => iok t' /\ protocol t' = protocol t /\
    (r = None -> quiet t t') /\ forall x, r = Some x -> x = Update (state t')) (fun _ _ => False) t3).
  { intros t3 Hi3 Hp3. eapply wp_mono; [by apply wp_export| |done]. simpl. intros r t' (? & ? & ->).
    split_and!; [done|congruence|done|]. by intros x [= <-]. }
  destruct (first _) as [[h [[vr|] sg]]|].
  - wp_step. wp_step. apply Hexp; [|done]. apply received_upd; [|done|done|].
    + unfold received_proposal_with_vr. destruct (_ && _); eauto.
    + apply received_with_vr_ok; [apply Hi2|done].
  - wp_step. wp_step. apply Hexp; [|done]. apply received_upd; [|done|done|].
    + unfold received_proposal_without_vr. destruct (is_allowed_to_vote_on _ _ _); eauto.
    + apply received_without_vr_ok; [apply Hi2|done].
  - destruct (in_timeout i); [|by wp_step; split_and!]. wp_step. wp_step. apply Hexp; [|done].
    apply inst_prevote; [done|done|]. apply prevote_ok; [apply Hi2|done|done].
Qed.

(** ** Proposing *)

Definition create_ok (i : Inputs) : Prop := forall r m x, create_proposal i r = Some (m, x) ->
  Valid (pm_proposal m) /\ hash_of_inherent x = inherent_hash (pm_proposal m).

(** Storing a first proposal for an own round. *)
Lemma inst_own_proposal r h x t : iok t -> is_Some (known_proposals (state t) !! h) ->
  (forall v, x.1 = Some v -> v < r /\ polka Sound v h) ->
  (forall k, entry r (round_proposals (state t)) !! k = None) ->
  iok (upd (insert_round_proposal r h x) t).
Proof.
  intros Hi Hk Hv He. apply (inst_cast _ _ _ t); try done.
  - apply insert_round_proposal_ok; [apply Hi|done|]. intros _. split; [done|].
    intros h' x'. by rewrite He.
  - intros r' h' v' _. simpl. rewrite view_insert. case_decide as Hr; [subst r'|done].
    unfold view. by rewrite lookup_fmap, He.
Qed.

Lemma wp_broadcast h vr sg p t : iok t -> current_step (state t) = Propose -> own (current_round (state t)) ->
  entry (current_round (state t)) (round_proposals (state t)) !! h = Some (vr, sg) ->
  known_proposals (state t) !! h = Some p ->
  wp (modify (emit (BroadcastProposal (mk_signed (mk_message (current_round (state t)) vr p) sg)));;
      set_st (set_step Prevote);;
      fresh ← insert_vote (current_round (state t), Prevote)
                (if is_allowed_to_vote_on h vr (state t) then Some h else None);
      assert_that fresh;;
      s ← get_st (fun s => s); mret (Update s))
    (fun r t' => iok t' /\ publishes False t t' /\ r = Update (state t')) (fun _ _ => False) t.
Proof.
  intros Hi Hs Hown He Hk. unfold set_st, get_st, insert_vote, get_st, set_st. repeat wp_step.
  apply wp_assert; [simpl; by rewrite (prevote_vacant Sound Valid own _ (io_state _ _ _ _ Hi) Hs)|].
  repeat wp_step. set (m := mk_signed _ _). set (vote := if is_allowed_to_vote_on _ _ _ then _ else _).
  destruct (inst_broadcast Sound Valid own m t) as [Hi1 Hp1]; [done|done| |].
  { simpl. rewrite (known_hash Sound Valid own _ _ _ (io_state _ _ _ _ Hi) Hk). unfold view. by rewrite lookup_fmap, He. }
  split_and!; [|destruct Hp1; by split|done].
  apply (inst_prevote vote (emit (BroadcastProposal m) t)); [done|done|]. simpl.
  apply prevote_ok; [apply Hi|done|]. intros h'. unfold vote.
  destruct (is_allowed_to_vote_on h vr (state t)) eqn:Hal; [|done]. intros [= <-].
  eapply allowed_may_prevote; [apply Hi|done|exact Hal|]. intros v ->.
  by apply (so_own _ _ _ _ (io_state _ _ _ _ Hi) _ h v sg).
Qed.

Lemma wp_propose i t : create_ok i -> iok t -> current_step (state t) = Propose ->
  own (current_round (state t)) ->
  wp (propose i) (fun r t' => iok t' /\ publishes False t t' /\ r = Update (state t'))
    (fun _ t' => iok t' /\ quiet t t') t.
Proof.
  intros Hcr Hi Hs Hown. unfold propose. wp_step. apply wp_set_st. wp_step. apply wp_get_st.
  destruct (inst_or_default Sound Valid own (current_round (state t)) t Hi) as [Hi1 Hq1].
  set (t1 := upd _ t). change (iok t1) in Hi1. change (quiet t t1) in Hq1.
  assert (Hs1 : current_step (state t1) = Propose) by done.
  assert (Hown1 : own (current_round (state t1))) by done.
  assert (Hpub : forall t', publishes False t1 t' -> publishes False t t').
  { intros t' Hp. eapply publishes_trans; [|exact Hp|by apply quiet_still]. apply publishes_calm, Hq1. }
  assert (Hsame : forall t', protocol t' = protocol t1 -> publishes False t t').
  { intros t' Hp. apply Hpub. split; rewrite Hp; auto. }
  clearbody t1. destruct (first _) as [[h [vr sg]]|] eqn:Hf.
  - apply first_lookup in Hf. destruct (so_proposals _ _ _ _ (io_state _ _ _ _ Hi1) _ _ _ Hf) as [p Hp].
    wp_step. apply (wp_expect _ p); [done|].
    eapply wp_mono; [by apply (wp_broadcast h vr sg p t1)| |done]. simpl. intros r t' (? & ? & ?). auto.
  - pose proof (fun k => first_none _ k Hf) as Hnone.
    destruct (valid (state t1)) as [[vr h]|] eqn:Hva.
    + destruct (so_valid _ _ _ _ (io_state _ _ _ _ Hi1) _ _ Hva) as ([p Hp] & Hvote & Hpol).
      wp_step. apply (wp_expect _ p); [done|]. unfold set_st, get_st. repeat wp_step.
      split_and!; [|by apply Hsame|done]. apply inst_own_proposal; [done|eauto| |done].
      simpl. intros v [= <-]. split; [|done].
      by apply (voted_prevote Sound Valid own _ _ (io_state _ _ _ _ Hi1) Hvote).
    + wp_step. wp_step; [|done]. destruct a as [m x]. destruct (Hcr _ _ _ H) as [Hval Hx].
      unfold set_st, get_st. repeat wp_step. simpl fst. simpl snd.
      destruct (inst_insert_inherent Sound Valid own (hash_of_inherent x) x t1 Hi1 eq_refl) as [Hi2 _].
      destruct (inst_insert_known Sound Valid own (pm_proposal m) _ Hi2 Hval) as [Hi3 _].
      { simpl. rewrite Hx, lookup_insert_eq. eauto. }
      split_and!; [|by apply Hsame|done]. apply inst_own_proposal; [exact Hi3| |done|done].
      simpl. rewrite lookup_insert_eq. eauto.
Qed.

(** ** Aggregating *)

(** A result of the machine: a changed state is handed out as it is. *)
Definition returns (r : option Return) (t t' : Tendermint) : Prop :=
  match r with
  | None => still t t'
  | Some (Update s) => s = state t'
  | Some (Decided d) => decision_ok d
  | Some _ => False
  end.

Lemma voted_current t : iok t -> current_step (state t) <> Propose ->
  is_Some (votes (state t) !! (current_round (state t), current_step (state t))).
Proof.
  intros Hi Hs. apply (so_votes _ _ _ _ (io_state _ _ _ _ Hi)). split_and!; simpl; [done|apply Hi|lia].
Qed.

Lemma inst_precommit v t : iok t -> current_step (state t) = Prevote ->
  (forall h, v = Some h -> polka Sound (current_round (state t)) h) -> iok (upd (precommit v) t).
Proof.
  intros Hi Hs Hv. apply (inst_cast _ _ _ t); try done; [apply precommit_ok; try done; apply Hi|].
  simpl. apply insert_mono. by apply (precommit_vacant Sound Valid own); [apply Hi|].
Qed.

Lemma wp_on_polka h t : iok t -> current_step (state t) = Prevote -> polka Sound (current_round (state t)) h ->
  wp (on_polka h) (fun _ t' => iok t' /\ protocol t' = protocol t) (fun _ _ => False) t.
Proof.
  intros Hi Hs Hp. unfold on_polka, insert_vote, get_st, set_st. repeat wp_step. rewrite Hs. repeat wp_step.
  apply wp_assert; [simpl; by rewrite (precommit_vacant Sound Valid own _ (io_state _ _ _ _ Hi) Hs)|].
  wp_step. split; [|done]. apply (inst_precommit (Some h) t); try done. by intros h' [= <-].
Qed.

Lemma wp_on_none_polka t : iok t -> current_step (state t) <> Propose ->
  current_round (state t) < max_value 32 ->
  wp on_none_polka (fun _ t' => iok t' /\ protocol t' = protocol t) (fun _ _ => False) t.
Proof.
  intros Hi Hs Hr. unfold on_none_polka, insert_vote, get_st, set_st. repeat wp_step.
  destruct (current_step (state t)) eqn:Hst; [done|..]; repeat wp_step.
  - apply wp_assert; [simpl; by rewrite (precommit_vacant Sound Valid own _ (io_state _ _ _ _ Hi) Hst)|].
    split; [|done]. apply (inst_precommit None t); done.
  - split; [|done]. pose proof (so_round _ _ _ _ (io_state _ _ _ _ Hi)).
    rewrite wrap_small by (unfold in_width; lia).
    apply (inst_cast _ _ _ t); try done. simpl. apply (next_round_ok Sound Valid own); [apply Hi|done].
Qed.

Lemma wp_export_after (m : TM unit) t0 t : publishes True t0 t ->
  wp m (fun _ t' => iok t' /\ protocol t' = protocol t) (fun _ _ => False) t ->
  wp (m;; modify (set_timeout None);; export_state)
    (fun r t' => iok t' /\ publishes True t0 t' /\ returns r t0 t') (fun _ _ => False) t.
Proof.
  intros Hpub Hm. wp_step. eapply wp_mono; [exact Hm| |done]. simpl. intros _ t1 [Hi1 Hp1].
  eapply wp_mono; [by apply wp_export| |done]. simpl. intros r t2 (Hi2 & Hp2 & ->).
  split_and!; [done| |done]. destruct Hpub as [Hv Hb]. split; rewrite Hp2, Hp1; [apply Hv|apply Hb].
Qed.

Lemma scan_proposals_found best total hashes c n h :
  scan_proposals best total hashes c n = inl h ->
  h ∈ hashes /\ TWO_F_PLUS_ONE <= len (contributors_for best (Some h)).
Proof.
  revert c n. induction hashes as [|h' hs IH]; intros c n; simpl; [done|].
  destruct (_ <? _) eqn:Hc; bool_to_prop.
  - intros [? ?]%IH. split; [by right|done].
  - intros [= ->]. split; [by left|done].
Qed.

(** A polka for a known proposal leads to a precommit or a decision. *)
Lemma wp_aggregate_polka h best t0 t : iok t -> current_step (state t) <> Propose ->
  publishes True t0 t -> still t0 t -> is_Some (known_proposals (state t) !! h) ->
  Sound (current_round (state t), current_step (state t)) best ->
  TWO_F_PLUS_ONE <= len (contributors_for best (Some h)) ->
  wp (match current_step (state t) with
      | Prevote =>
          set_st (update_valid (current_round (state t)) h);; on_polka h;;
          modify (set_timeout None);; export_state
      | Precommit =>
          s ← get_st (fun s => s);
          proposal ← expect (known_proposals s !! h);
          d ← expect (build_decision proposal best (current_round (state t)) s);
          modify (set_timeout None);; mret (Some (Decided d))
      | Propose => panic
      end)
    (fun r t' => iok t' /\ publishes True t0 t' /\ returns r t0 t') (fun _ _ => False) t.
Proof.
  intros Hi Hs Hpub Hstill [p Hk] Hsound Hn. destruct (current_step (state t)) eqn:Hst; [done|..].
  - wp_step. apply wp_set_st.
    assert (Hpol : polka Sound (current_round (state t)) h) by (by exists best).
    assert (Hvoted : is_Some (votes (state t) !! (current_round (state t), Prevote))).
    { rewrite <-Hst. apply voted_current; [done|by rewrite Hst]. }
    destruct (inst_update_valid Sound Valid own (current_round (state t)) h t) as [Hi3 Hq3]; [done|eauto|done|done|].
    apply wp_export_after.
    { eapply publishes_trans; [done|apply publishes_calm, Hq3|done]. }
    apply wp_on_polka; [done|by rewrite (quiet_step _ _ _ Hq3)|by rewrite (quiet_round _ _ _ Hq3)].
  - wp_step. apply wp_get_st. wp_step. apply (wp_expect _ p); [done|].
    pose proof (known_hash Sound Valid own _ _ _ (io_state _ _ _ _ Hi) Hk) as <-.
    destruct (build_decision_ok Sound Valid own _ p best (current_round (state t)) (io_state _ _ _ _ Hi) Hk Hn Hsound)
      as (d & Hd & Hdok).
    wp_step. apply (wp_expect _ d); [done|]. repeat wp_step. split_and!; [|by destruct Hpub|done].
    apply (inst_same _ _ _ t); try done. apply (io_pending _ _ _ _ Hi).
Qed.

Lemma wp_aggregate i t : iok t -> current_step (state t) <> Propose ->
  current_round (state t) < max_value 32 ->
  wp (aggregate i) (fun r t' => iok t' /\ publishes True t t' /\ returns r t t') (fun _ _ => False) t.
Proof.
  intros Hi Hs Hr. unfold aggregate. wp_step. apply wp_get_st. wp_step.
  eapply wp_mono; [apply wp_create_aggregation; [done|by apply voted_current]| |done].
  simpl. intros _ t1 (Hi1 & Hp1 & Heq). wp_step. apply wp_get_st.
  assert (Hst1 : still t t1) by (split; by rewrite Heq).
  destruct (best_votes (state t1) !! _) as [best|] eqn:Hb; [|by wp_step].
  destruct (_ <? TWO_F_PLUS_ONE); [by wp_step|]. wp_step. apply wp_set_st. wp_step. apply wp_get_st.
  destruct (so_best _ _ _ _ (io_state _ _ _ _ Hi1) _ _ Hb) as [_ Hsound].
  destruct (inst_or_default Sound Valid own (current_round (state t1)) t1 Hi1) as [Hi2 Hq2].
  set (t2 := upd _ t1). change (iok t2) in Hi2. change (quiet t1 t2) in Hq2.
  assert (Hp2 : publishes True t t2).
  { eapply publishes_trans; [done|apply publishes_calm, Hq2|done]. }
  assert (Hst2 : still t t2) by (etrans; [done|by apply quiet_still]).
  assert (E : current_round (state t2) = current_round (state t) /\
              current_step (state t2) = current_step (state t)).
  { rewrite (quiet_round _ _ _ Hq2), (quiet_step _ _ _ Hq2), Heq. done. }
  destruct E as [Er Es]. clearbody t2. rewrite <-Er, <-Es in *. simpl snd. simpl fst.
  destruct (scan_proposals _ _ _ _ _) as [h|[ci rem]] eqn:Hscan.
  - apply scan_proposals_found in Hscan as [Hin Hn].
    apply (sorted_keys_spec (entry _ _)) in Hin as [x Hx].
    apply (wp_aggregate_polka h best t t2); try done.
    apply (so_proposals _ _ _ _ (io_state _ _ _ _ Hi2) _ _ _ Hx).
  - destruct (_ || _).
    + apply wp_export_after; [done|]. by apply wp_on_none_polka.
    + unfold start_timeout. repeat wp_step. set (t3 := match timeout t2 with Some _ => t2 | None => _ end).
      assert (H3 : iok t3 /\ quiet t2 t3).
      { unfold t3. destruct (timeout t2); [done|]. apply inst_same; try done. apply (io_pending _ _ _ _ Hi2). }
      destruct H3 as [Hi3 Hq3]. assert (Hp3 : publishes True t t3).
      { eapply publishes_trans; [done|apply publishes_calm, Hq3|done]. }
      destruct (in_timeout i).
      * apply wp_export_after; [done|]. apply wp_on_none_polka; [done|by rewrite (quiet_step _ _ _ Hq3)|].
        by rewrite (quiet_round _ _ _ Hq3).
      * wp_step. split_and!; [done|done|]. simpl. etrans; [done|by apply quiet_still].
Qed.

Lemma wp_run_state_machine i t : create_ok i -> (forall r, is_proposer i r = Some true -> own r) ->
  iok t -> (current_step (state t) <> Propose -> current_round (state t) < max_value 32) ->
  wp (run_state_machine i)
    (fun r t' => iok t' /\ publishes (current_step (state t) <> Propose) t t' /\
                 match r with None => True | Some r => returns r t t' end)
    (fun _ _ => False) t.
Proof.
  intros Hcr Hown Hi Hr. unfold run_state_machine. wp_step. apply wp_get_st.
  assert (Hagg : current_step (state t) <> Propose ->
    wp (r ← aggregate i; mret (Some r)) (fun r t' => iok t' /\ publishes (current_step (state t) <> Propose) t t' /\
                 match r with None => True | Some r => returns r t t' end) (fun _ _ => False) t).
  { intros Hs. wp_step. eapply wp_mono; [by apply wp_aggregate; auto| |done]. simpl.
    intros r t' (? & ? & ?). wp_step. split_and!; try done. by apply (publishes_impl own True). }
  destruct (current_step (state t)) eqn:Hs; [|by apply Hagg..]. clear Hagg.
  destruct (is_proposer i _) as [[]|] eqn:Hp.
  - wp_step. apply wp_catch. eapply wp_mono; [by apply wp_propose; eauto|..]; simpl.
    + intros r t' (? & ? & ->). wp_step. split_and!; [done|by apply (publishes_impl own False)|done].
    + intros e t' [? Hq]. wp_step. split_and!; [done|by apply publishes_calm, Hq|done].
  - wp_step. eapply wp_mono; [by apply wp_await_proposal| |done]. simpl.
    intros r t' (? & Hpr & Hq & Hu). wp_step. split_and!; [done|split; rewrite Hpr; auto|].
    destruct r as [x|]; [by rewrite (Hu x eq_refl)|by apply quiet_still, Hq].
  - wp_step. split_and!; [done|apply publishes_calm; reflexivity|done].
Qed.

(** ** [poll_next] *)

Lemma wp_start_pending t : iok t ->
  wp start_pending (fun _ t' => iok t' /\ publishes True t t' /\ state t' = state t) (fun _ _ => False) t.
Proof.
  intros Hi. unfold start_pending. wp_step. wp_step. set (l := merge_sort _ _).
  assert (Hl : forall id, id ∈ l -> is_Some (votes (state t) !! id)).
  { intros id. unfold l. rewrite merge_sort_Permutation, elem_of_elements. apply Hi. }
  clearbody l. wp_step.
  enough (Hloop : forall t1, iok t1 -> publishes True t t1 -> state t1 = state t ->
    wp (for_each l (fun id =>
          modify (fun t => set_starts (pending_aggregation_starts t ∖ {[id]}) t);; create_aggregation id))
      (fun _ t' => iok t' /\ publishes True t t' /\ state t' = state t) (fun _ _ => False) t1).
  { eapply wp_mono; [apply Hloop; [done|apply publishes_calm; reflexivity|done]|done..]. }
  induction l as [|id l IH]; intros t1 Hi1 Hp Hs; simpl; [by wp_step|].
  repeat wp_step. set (t2 := set_starts _ t1).
  assert (Hi2 : iok t2).
  { destruct Hi1. split; try done. intros id'. unfold t2. simpl. set_solver. }
  eapply wp_mono; [apply wp_create_aggregation; [done|]| |done].
  { unfold t2. simpl. rewrite Hs. apply Hl. by left. }
  simpl. intros _ t3 (Hi3 & Hp3 & Hs3). apply IH; [intros id' ?; apply Hl; by right|done| |].
  - eapply publishes_trans; [exact Hp| |split; by rewrite Hs]. destruct Hp3. by split.
  - by rewrite Hs3.
Qed.

(** What a call of [poll_next] may return: the new state, a decision, and
    anything else only when no vote changed or the stream has ended. *)
Definition outcome_ok (r : Poll (option Return)) (t t' : Tendermint) : Prop :=
  match r with
  | Ready (Some (Update s)) => s = state t'
  | Ready (Some (Decided d)) => decision_ok d /\ decision t' = true
  | Ready (Some _) => still t t'
  | Ready None => decision t' = true
  | Pending => still t t'
  end.

Lemma outcome_still r t0 t t' : still t0 t -> outcome_ok r t t' -> outcome_ok r t0 t'.
Proof. destruct r as [[[]|]|]; simpl; try done; intros; by etrans. Qed.

Lemma wp_decided d t0 t : iok t -> decision_ok d ->
  wp (modify (set_decision true);; returning (Decided d))
    (fun r t' => iok t' /\ protocol t' = protocol t /\ outcome_ok r t0 t') (fun _ _ => False) t.
Proof.
  intros Hi Hd. unfold returning. repeat wp_step. split_and!; try done.
  apply (inst_same _ _ _ t); try done. apply (io_pending _ _ _ _ Hi).
Qed.

Lemma wp_update t0 t : iok t ->
  wp (modify (set_return_pending false);; s ← get_st (fun s => s); returning (Update s))
    (fun r t' => iok t' /\ protocol t' = protocol t /\ outcome_ok r t0 t') (fun _ _ => False) t.
Proof.
  intros Hi. unfold returning, get_st. repeat wp_step. split_and!; try done.
  apply (inst_same _ _ _ t); try done. apply (io_pending _ _ _ _ Hi).
Qed.

Lemma publishes_same Q t t1 t2 : publishes Q t t1 -> protocol t2 = protocol t1 -> publishes Q t t2.
Proof. intros [Hv Hp] E. split; rewrite E; [apply Hv|apply Hp]. Qed.

Lemma wp_finish_poll i export t : iok t ->
  (export = false -> forall id a, (id, a) ∈ in_more_updates i -> is_Some (votes (state t) !! id) /\ Sound id a) ->
  wp (finish_poll i export) (fun r t' => iok t' /\ publishes (export = false) t t' /\ outcome_ok r t t' /\
       (export = true -> exists s, r = Ready (Some (Update s)))) (fun _ _ => False) t.
Proof.
  intros Hi Hus. unfold finish_poll. wp_step. wp_step.
  assert (Hupd : forall t1, iok t1 -> publishes (export = false) t t1 ->
    wp (modify (set_return_pending false);; s ← get_st (fun s => s); returning (Update s))
    (fun r t' => iok t' /\ publishes (export = false) t t' /\ outcome_ok r t t' /\
       (export = true -> exists s, r = Ready (Some (Update s)))) (fun _ _ => False) t1).
  { intros t1 Hi1 Hp1. unfold returning, get_st. repeat wp_step. split_and!; try done; [| |by eauto].
    - apply (inst_same _ _ _ t1); try done. apply (io_pending _ _ _ _ Hi1).
    - by eapply publishes_same. }
  destruct (_ || _) eqn:He; [apply Hupd; [done|apply publishes_calm; reflexivity]|].
  apply orb_false_iff in He as [He _]. rewrite He in *.
  wp_step. eapply wp_mono; [by apply wp_start_pending| |done]. simpl. intros created t1 (Hi1 & Hp1 & Hs1).
  assert (Hp1' : publishes (false = false) t t1) by (by apply (publishes_impl own True)).
  assert (Hst1 : still t t1) by (split; by rewrite Hs1).
  wp_step. wp_step. destruct (_ || _); [|by wp_step; split_and!].
  wp_step. eapply wp_mono; [apply wp_poll_aggregations; [done|rewrite Hs1; by apply Hus]| |done].
  simpl. intros [[d|] ex] t2 (Hi2 & Hq2 & Hd & _); simpl in *.
  - eapply wp_mono; [apply (wp_decided d t); [done|by apply Hd]| |done]. simpl. intros r t3 (? & Hpr & ?).
    split_and!; try done. eapply publishes_same; [|done].
    eapply publishes_trans; [done|by apply publishes_calm, Hq2|done].
  - assert (Hp2 : publishes (false = false) t t2).
    { eapply publishes_trans; [done|by apply publishes_calm, Hq2|done]. }
    destruct ex; [by apply Hupd|]. wp_step. split_and!; try done. simpl.
    etrans; [done|by apply quiet_still].
Qed.

(** Changes of the votes are handed out, unless the stream has ended. *)
Definition exports (r : Poll (option Return)) : Prop :=
  match r with Ready (Some (Update _)) | Ready (Some (Decided _)) | Ready None => True | _ => False end.

Lemma wp_poll_machine i export t : create_ok i -> (forall r, is_proposer i r = Some true -> own r) ->
  iok t -> (current_step (state t) <> Propose -> current_round (state t) < max_value 32) ->
  (export = false -> forall id a, (id, a) ∈ in_more_updates i -> is_Some (votes (state t) !! id) /\ Sound id a) ->
  wp (poll_machine i export) (fun r t' => iok t' /\
       publishes (export = false \/ current_step (state t) <> Propose) t t' /\ outcome_ok r t t' /\
       (export = true -> exports r)) (fun _ _ => False) t.
Proof.
  intros Hcr Hown Hi Hr Hus. unfold poll_machine. wp_step.
  eapply wp_mono; [by apply wp_run_state_machine| |done]. simpl. intros r t1 (Hi1 & Hp1 & Hret).
  assert (Hp1' : publishes (export = false \/ current_step (state t) <> Propose) t t1).
  { eapply publishes_impl; [|done]. tauto. }
  assert (Hsame : forall t2, state t2 = state t1 -> protocol t2 = protocol t1 ->
    aggregation_senders t2 = aggregation_senders t1 ->
    pending_aggregation_starts t2 = pending_aggregation_starts t1 ->
    pending_decision t2 = pending_decision t1 -> iok t2).
  { intros t2 ? ? ? ? E. apply (inst_same _ _ _ t1); try done. rewrite E. apply (io_pending _ _ _ _ Hi1). }
  unfold returning. destruct r as [[[d|s| | |]|]|]; try done; [repeat wp_step..| |repeat wp_step].
  - split_and!; [by apply Hsame|by eapply publishes_same|done|done].
  - simpl in Hret. subst s. split_and!; [by apply Hsame|by eapply publishes_same|done|done].
  - simpl in Hret. eapply wp_mono; [apply wp_finish_poll; [done|]| |done].
    { by rewrite (still_votes _ _ _ Hret). }
    simpl. intros r t2 (Hi2 & Hp2 & Ho & Hex). split_and!; [done| |by eapply outcome_still|].
    2:{ intros He. by destruct (Hex He) as [s ->]. }
    eapply publishes_trans; [done| |done]. eapply publishes_impl; [|done]. tauto.
  - split_and!; [by apply Hsame|by eapply publishes_same|done|done].
Qed.

(** Effects covered by a later state are covered by an earlier one if they are
    published from there. *)
Lemma covers_publishes Q t t' : covers own (protocol t) (state t) -> publishes Q t t' ->
  covers own (protocol t') (state t).
Proof.
  intros [Hv Hp] [Pv Pp]. split.
  - intros r st v [?|[_ ?]]%Pv; auto.
  - intros p [?|?]%Pp; auto.
Qed.

Lemma wp_retry i failed t : in_retry i <> Closed ->
  wp (retry i failed) (fun _ t' => t' = t) (fun _ _ => False) t.
Proof.
  intros Hr. unfold retry. destruct failed; [|by wp_step]. repeat wp_step.
  destruct (bool_decide _); [|by wp_step]. by destruct (in_retry i).
Qed.

Lemma wp_poll_next i t : iok t -> inputs_ok Sound Valid own t i ->
  wp (poll_next i) (fun r t' => iok t' /\ covers own (protocol t') (state t) /\ outcome_ok r t t')
    (fun _ _ => False) t.
Proof.
  intros Hi [Hus Hprop Hresp Hown Hcr Hver Hch Hretry Hr]. unfold poll_next. wp_step. wp_step.
  destruct (decision t) eqn:Hdec; [wp_step; split_and!; [done|apply Hi|done]|].
  wp_step. eapply wp_mono; [by apply wp_process_next_proposal| |done]. simpl.
  intros r t1 (Hi1 & Hq1 & Heq & Hnone & Hkind).
  assert (Hcov : forall Q t', publishes Q t t' -> covers own (protocol t') (state t)).
  { intros Q t'. apply covers_publishes, Hi. }
  destruct r as [x|].
  { unfold returning. wp_step. split_and!; [done|apply (Hcov True), publishes_calm, Hq1|].
    specialize (Hkind x eq_refl). destruct x; try done; by apply quiet_still. }
  rewrite (Heq (Hnone eq_refl)) in *. clear Hnone Hkind Heq Hi1 Hq1 t1.
  wp_step. eapply wp_mono; [by apply wp_process_responses| |done]. simpl. intros export t1 [Hi1 Hq1].
  repeat wp_step. set (t1' := set_pending_decision None t1).
  destruct (inst_same Sound Valid own t1 t1') as [Hi1' Hq1']; try done.
  assert (Hq : quiet t t1') by (by etrans).
  assert (Hend : forall d t2, decision_ok d -> iok t2 -> calm own t t2 ->
    wp (modify (set_decision true);; returning (Decided d))
      (fun r t' => iok t' /\ covers own (protocol t') (state t) /\ outcome_ok r t t') (fun _ _ => False) t2).
  { intros d t2 Hd Hi2 Hc2. eapply wp_mono; [by apply (wp_decided d t)| |done]. simpl. intros r t3 (? & E & ?).
    split_and!; try done. apply (Hcov True). eapply publishes_same; [by apply publishes_calm|done]. }
  destruct (pending_decision t1) as [d|] eqn:Hpd.
  { apply Hend; [by apply (io_pending _ _ _ _ Hi1)|done|apply Hq]. }
  clearbody t1'. wp_step. eapply wp_mono; [by apply wp_dispatch_messages| |done]. simpl.
  intros [failed ex] t2 (Hi2 & Hc2 & Hg2 & Hor & Hex). simpl in *.
  wp_step. eapply wp_mono; [apply wp_poll_aggregations; [done|]| |done].
  { intros id a Hin. destruct (Hus id a) as [[v Hv] ?]; [apply elem_of_app; by left|]. split; [|done].
    exists v. by apply Hg2, (quiet_grows _ _ _ Hq). }
  simpl. intros [[d|] ex'] t3 (Hi3 & Hq3 & Hd & Hex'); simpl in *.
  { apply Hend; [by apply Hd|done|]. etrans; [apply Hq|]. etrans; [done|apply Hq3]. }
  wp_step. eapply wp_mono; [by apply (wp_retry i failed t3)| |done]. simpl. intros _ t' ->.
  destruct Hor as [Hq2|[-> Hs2]].
  - assert (Hqq : quiet t t3) by (etrans; [done|]; by etrans).
    eapply wp_mono; [apply wp_poll_machine; try done| |done].
    + by rewrite (quiet_round _ _ _ Hqq).
    + intros _ id a Hin. rewrite (quiet_votes _ _ _ Hqq). apply Hus, elem_of_app. by right.
    + simpl. intros r t4 (Hi4 & Hp4 & Ho4 & _). pose proof (quiet_still _ _ _ Hqq).
      split_and!; [done| |by eapply outcome_still]. eapply Hcov, publishes_trans; [|exact Hp4|done].
      apply publishes_calm, Hqq.
  - rewrite (Hex' eq_refl) in *. assert (Hs3 : current_step (state t3) = Propose) by (by rewrite (quiet_step _ _ _ Hq3)).
    eapply wp_mono; [apply wp_poll_machine; try done| |done]. simpl. intros r t4 (Hi4 & Hp4 & Ho4 & Hexp).
    specialize (Hexp eq_refl). split_and!; [done| |by destruct r as [[[]|]|]].
    eapply (Hcov False), publishes_after; [|exact Hp4|by intros [?|?]].
    etrans; [apply Hq|]. etrans; [done|apply Hq3].
Qed.
End Machine.
