(* ===== verification/TendermintSafety.v ===== *)
(** * Safety of Tendermint

    A validator runs a Tendermint instance, stores every state it is handed
    ([validator.rs], [poll_macro]) and may stop at any time and start again from
    the stored state ([init_block_producer]).  Whatever it receives, it never
    votes or proposes twice, and validators whose faulty slots number at most
    [f] never decide on different proposals. *)

From S2P Require Import Prelude Tendermint TendermintInv TendermintProofs TendermintPoll.
Import Step.

(** ** A validator *)

Section Node.
Context `{Pr : Protocol} {PrOk : ProtocolOk Pr}.

Record Node := mk_node {
  live : Tendermint;
  macro_state : option State;
  decided : list Decision;
}.

(** The events of the stream, as [poll_macro] handles them for the height the
    chain is at: an exported state replaces the stored one, a decision is
    published.  Events about gossiped proposals change nothing here. *)
Definition poll_macro (n : Node) (event : Poll (option Return)) (t : Tendermint) : Node :=
  match event with
  | Ready (Some (Update s)) => mk_node t (Some s) (decided n)
  | Ready (Some (Decided d)) => mk_node t (macro_state n) (decided n ++ [d])
  | _ => mk_node t (macro_state n) (decided n)
  end.

Definition init_block_producer (effects : list Effect) (n : Node) : Node :=
  mk_node (new effects (macro_state n)) (macro_state n) (decided n).

Definition initial_node : Node := mk_node (new [] None) None [].

Context (Sound : Id -> Aggregation -> Prop) (Valid : Proposal -> Prop) (own : Z -> Prop).
#[local] Abbreviation ok := (state_ok Sound Valid own).
#[local] Abbreviation iok := (inst_ok Sound Valid own).

Inductive node_step : Node -> Node -> Prop :=
  | node_poll n i r t : inputs_ok Sound Valid own (live n) i ->
      poll_next i (live n) = (Ok r, t) -> node_step n (poll_macro n r t)
  | node_restart n : node_step n (init_block_producer (protocol (live n)) n).

Definition reachable (n : Node) : Prop := rtc node_step initial_node n.

Definition stored (n : Node) : State := default default_state (macro_state n).

(** Between two calls the stored state has all votes and own proposals, or the
    instance will not act again. *)
Record node_ok (n : Node) : Prop := {
  no_live : iok (live n);
  no_stored : ok (stored n);
  no_covers : covers own (protocol (live n)) (stored n);
  no_sync : decision (live n) = true \/
    (votes (stored n) = votes (state (live n)) /\
     forall r, own r -> view (stored n) r = view (state (live n)) r);
  no_decided d : d ∈ decided n -> decision_ok Sound Valid d;
}.

Lemma covers_eq effects s s' : covers own effects s -> votes s' = votes s ->
  (forall r, own r -> view s' r = view s r) -> covers own effects s'.
Proof.
  intros Hc Hv Hw. eapply covers_grow; [done|by rewrite Hv|]. intros r h v Hr. by rewrite Hw.
Qed.

Lemma init_vote_ok t id : iok t -> iok (init_vote t id) /\ state (init_vote t id) = state t /\
  decision (init_vote t id) = decision t.
Proof.
  intros Hi. unfold init_vote. destruct (bool_decide _); [done|]. destruct (bool_decide _) eqn:Hb; [done|].
  destruct (votes (state t) !! id) as [v|] eqn:Hv; [|done]. split; [|done].
  pose proof (wp_create_aggregation Sound Valid own id t Hi ltac:(eauto)) as Hwp.
  unfold wp, create_aggregation, mbind, M_bind, gets, get_st, gets, expect, modify in Hwp. simpl in Hwp.
  rewrite Hb, Hv in Hwp. simpl in Hwp. apply Hwp.
Qed.

Lemma new_ok effects o : ok (default default_state o) -> covers own effects (default default_state o) ->
  iok (new effects o) /\ state (new effects o) = default default_state o.
Proof.
  intros Hok Hc. unfold new, init. set (t := new_instance effects o). set (l := sorted_ids _).
  assert (Hi : iok t).
  { split; try done; intros id; set_solver. }
  change (default default_state o) with (state t). clearbody t l. clear Hok Hc.
  revert t Hi. induction l as [|id l IH]; intros t Hi; [done|]. simpl.
  destruct (init_vote_ok t id Hi) as (Hi' & <- & _). by apply IH.
Qed.

Lemma initial_ok : node_ok initial_node.
Proof.
  destruct (new_ok [] None) as [Hi Hs]; [apply default_state_ok|split; intros; by apply not_elem_of_nil in H|].
  assert (Hp : protocol (live initial_node) = []) by reflexivity.
  split; try done; [apply default_state_ok| |right; by simpl; rewrite Hs|].
  - rewrite Hp. split; intros; by apply not_elem_of_nil in H.
  - intros d Hd. by apply not_elem_of_nil in Hd.
Qed.

Lemma poll_decided i t : decision t = true -> poll_next i t = (Ok (Ready None), t).
Proof. intros Hd. unfold poll_next, mbind, M_bind, gets. by rewrite Hd. Qed.

Lemma node_step_ok n n' : node_step n n' -> node_ok n -> node_ok n'.
Proof.
  intros Hstep Hok. destruct Hstep as [n i r t Hin Hrun|n], Hok as [Hi Hst Hcv Hsy Hdec].
  - destruct (decision (live n)) eqn:Hd.
    { rewrite (poll_decided _ _ Hd) in Hrun. injection Hrun as <- <-. split; try done. by left. }
    destruct Hsy as [?|[Hv Hw]]; [done|].
    pose proof (wp_poll_next Sound Valid own i _ Hi Hin) as Hwp. unfold wp in Hwp. rewrite Hrun in Hwp.
    destruct Hwp as (Hi' & Hc' & Ho).
    assert (Hc : covers own (protocol t) (stored n)) by (by eapply covers_eq).
    assert (Hstill : forall t', still own (live n) t' -> decision t' = true \/
      (votes (stored n) = votes (state t') /\ forall r, own r -> view (stored n) r = view (state t') r)).
    { intros t' [Hv' Hw']. right. rewrite Hv'. split; [done|]. intros r' Hr'. rewrite Hw' by done. by apply Hw. }
    destruct r as [[[d|s| | |]|]|]; simpl in Ho; try (split; [done|done|done|by apply Hstill|done]).
    + destruct Ho. split; try done; [by left|]. simpl. intros d'.
      rewrite elem_of_app, list_elem_of_singleton. intros [?|E]; [by apply Hdec|by subst].
    + subst s. split; try done; [apply Hi'|apply Hi'|by right].
    + split; try done. by left.
  - destruct (new_ok (protocol (live n)) (macro_state n) Hst Hcv) as [Hi' Hs'].
    split; try done; simpl; [|right; by rewrite Hs'].
    change (covers own (protocol (new (protocol (live n)) (macro_state n))) (default default_state (macro_state n))).
    rewrite <-Hs'. apply Hi'.
Qed.

Lemma reachable_ok n : reachable n -> node_ok n.
Proof.
  intros Hr. unfold reachable in Hr. pose proof initial_ok as H0.
  induction Hr as [|n1 n2 n3 Hs _ IH]; [done|]. apply IH. by eapply node_step_ok.
Qed.

(** C5: a validator never equivocates, whatever it receives and however often
    it stops and starts again from its stored state: it publishes one vote per
    round and step, and one proposal per round. *)
Theorem no_equivocation n : reachable n ->
  (forall r st v v', CreateAggregation r st v ∈ protocol (live n) ->
     CreateAggregation r st v' ∈ protocol (live n) -> v = v') /\
  (forall p q, BroadcastProposal p ∈ protocol (live n) -> BroadcastProposal q ∈ protocol (live n) ->
     pm_round (sp_message p) = pm_round (sp_message q) ->
     hash (pm_proposal (sp_message p)) = hash (pm_proposal (sp_message q)) /\
     pm_valid_round (sp_message p) = pm_valid_round (sp_message q)).
Proof.
  intros [_ Hst [Hv Hp] _ _]%reachable_ok. split.
  - intros r st v v' H1%Hv H2%Hv. congruence.
  - intros p q H1 H2 Hr. destruct (Hp p H1) as [Hown Hp1], (Hp q H2) as [_ Hp2]. rewrite <-Hr in Hp2.
    unfold view in Hp1, Hp2. rewrite lookup_fmap in Hp1, Hp2.
    apply fmap_Some in Hp1 as (x & Hx & Ex), Hp2 as (y & Hy & Ey).
    pose proof (so_own_one _ _ _ _ Hst _ _ _ _ _ Hown Hx Hy) as Hh. split; [done|].
    rewrite Hh, Hy in Hx. congruence.
Qed.

End Node.

(** ** Agreement *)

(** Two sets of 2f+1 slots have more than [f] slots in common. *)
Class Quorums (Pr : Protocol) := {
  num_slots : Z;
  num_slots_nonneg : 0 <= num_slots;
  quorums_intersect : num_slots + F_PLUS_ONE <= 2 * TWO_F_PLUS_ONE;
}.

Lemma len_union_inter (X Y : gset Z) : len X + len Y = len (X ∪ Y) + len (X ∩ Y).
Proof.
  unfold len. rewrite size_union_alt. assert (E : Y = (Y ∖ X) ∪ (X ∩ Y)).
  { apply set_eq. intros s. destruct (decide (s ∈ X)); set_solver. }
  rewrite E at 1. rewrite size_union by set_solver. lia.
Qed.

Lemma not_subset_elem (X F : gset Z) : ~ X ⊆ F -> exists s, s ∈ X /\ s ∉ F.
Proof.
  intros Hn. destruct (set_choose_or_empty (X ∖ F)) as [[s Hs]|He]; [exists s; set_solver|].
  exfalso. apply Hn. intros s Hs. destruct (decide (s ∈ F)) as [|HF]; [done|].
  exfalso. apply (not_elem_of_empty (C := gset Z) s). apply He. by apply elem_of_difference.
Qed.

Section Agreement.
Context `{Pr : Protocol} {PrOk : ProtocolOk Pr} {Qu : Quorums Pr}.
(** The validators by their slots, after any number of steps. *)
Context (nodes : Z -> Node) (faulty : gset Z) (Valid : Proposal -> Prop) (own : Z -> Z -> Prop).

Definition is_slot (slot : Z) : Prop := 0 <= slot < num_slots.

(** The votes of an aggregation are those of existing slots, and those of the
    slots that are not faulty were published by their validators: an
    aggregation carries the signatures of its contributors. *)
Definition signed_votes (id : Id) (a : Aggregation) : Prop :=
  forall h slot, slot ∈ contributors_for a (Some h) ->
  is_slot slot /\
  (slot ∉ faulty -> CreateAggregation id.1 id.2 (Some h) ∈ protocol (live (nodes slot))).

Definition honest_run : Prop := forall slot, is_slot slot -> slot ∉ faulty ->
  reachable signed_votes Valid (own slot) (nodes slot).

Lemma all_slots_size (X : gset Z) : (forall s, s ∈ X -> is_slot s) -> len X <= Z.max 0 num_slots.
Proof.
  intros HX. unfold len. rewrite <-(Z2Nat.id (Z.max 0 num_slots)) by lia. apply Nat2Z.inj_le.
  rewrite <-(length_seqZ 0 (Z.max 0 num_slots)). rewrite <-(size_list_to_set (C := gset Z)).
  - apply subseteq_size. intros s Hs%HX. apply elem_of_list_to_set, elem_of_seqZ. unfold is_slot in Hs. lia.
  - apply NoDup_seqZ.
Qed.

Lemma quorum_honest (X Y : gset Z) : len faulty < F_PLUS_ONE ->
  (forall s, s ∈ X -> is_slot s) -> (forall s, s ∈ Y -> is_slot s) ->
  TWO_F_PLUS_ONE <= len X -> TWO_F_PLUS_ONE <= len Y ->
  exists s, s ∈ X /\ s ∈ Y /\ is_slot s /\ s ∉ faulty.
Proof.
  intros Hf HX HY LX LY. pose proof quorums_intersect as Hq. pose proof num_slots_nonneg as H0.
  assert (Hu : len (X ∪ Y) <= Z.max 0 num_slots).
  { apply all_slots_size. intros s [?|?]%elem_of_union; auto. }
  pose proof (len_union_inter X Y) as HI.
  destruct (decide (X ∩ Y ⊆ faulty)) as [Hsub%subseteq_size|Hn].
  - exfalso. unfold len in *. lia.
  - destruct (not_subset_elem _ _ Hn) as (s & [Hx Hy]%elem_of_intersection & Hsf).
    exists s. split_and!; auto.
Qed.

#[local] Abbreviation polka := (polka signed_votes).

Definition committed (r h : Z) : Prop :=
  exists a, signed_votes (r, Precommit) a /\ TWO_F_PLUS_ONE <= len (contributors_for a (Some h)).

(** The votes of an honest slot are those of its validator's state. *)
Lemma honest_vote slot : honest_run -> is_slot slot -> slot ∉ faulty ->
  exists s, state_ok signed_votes Valid (own slot) s /\
    (forall r st v, CreateAggregation r st v ∈ protocol (live (nodes slot)) -> votes s !! (r, st) = Some v).
Proof.
  intros Hrun Hs Hh. destruct (reachable_ok _ _ _ _ (Hrun slot Hs Hh)) as [Hi _ _ _ _].
  exists (state (live (nodes slot))). split; [apply Hi|]. apply (cv_vote _ _ _ (io_covers _ _ _ _ Hi)).
Qed.

(** An honest slot among the contributors of two aggregations with 2f+1 votes
    each has cast both votes. *)
Lemma common_voter id a h id' a' h' : honest_run -> len faulty < F_PLUS_ONE ->
  signed_votes id a -> TWO_F_PLUS_ONE <= len (contributors_for a (Some h)) ->
  signed_votes id' a' -> TWO_F_PLUS_ONE <= len (contributors_for a' (Some h')) ->
  exists slot s, state_ok signed_votes Valid (own slot) s /\
    votes s !! id = Some (Some h) /\ votes s !! id' = Some (Some h').
Proof.
  intros Hrun Hf Ha Hn Ha' Hn'.
  destruct (quorum_honest (contributors_for a (Some h)) (contributors_for a' (Some h')))
    as (slot & H1 & H2 & Hs & Hh); try done.
  - intros s Hs. by apply (Ha h).
  - intros s Hs. by apply (Ha' h').
  - apply Ha in H1 as [_ H1]. apply Ha' in H2 as [_ H2]. specialize (H1 Hh). specialize (H2 Hh).
    destruct (honest_vote slot Hrun Hs Hh) as (s & Hok & Hv).
    exists slot, s. destruct id, id'. auto.
Qed.

(** After a commit, every polka of the same or a later round is for the same
    proposal. *)
Lemma polka_after_commit r h : honest_run -> len faulty < F_PLUS_ONE -> committed r h ->
  forall r' h', r <= r' -> polka r' h' -> h' = h.
Proof.
  intros Hrun Hf (a & Ha & Hn) r'. induction (Z.lt_wf r r') as [r' _ IH]. intros h' Hle (b & Hb & Hm).
  destruct (common_voter _ a h _ b h' Hrun Hf Ha Hn Hb Hm) as (slot & s & Hok & Hc & Hp).
  destruct (decide (r' = r)) as [->|Hne].
  - destruct (so_commit _ _ _ _ Hok _ _ Hc) as (c & Hc' & Hl).
    destruct (common_voter _ c h _ b h' Hrun Hf Hc' Hl Hb Hm) as (slot' & s' & _ & H1 & H2). congruence.
  - destruct (so_discipline _ _ _ _ Hok _ _ Hp r h Hc) as [?|(r'' & Hr & Hpol)]; [lia|done|].
    apply (IH r''); [lia|lia|done].
Qed.

Lemma commits_agree r1 h1 r2 h2 : honest_run -> len faulty < F_PLUS_ONE ->
  r1 <= r2 -> committed r1 h1 -> committed r2 h2 -> h1 = h2.
Proof.
  intros Hrun Hf Hle H1 (a & Ha & Hn).
  destruct (common_voter _ a h2 _ a h2 Hrun Hf Ha Hn Ha Hn) as (slot & s & Hok & Hc & _).
  symmetry. by apply (polka_after_commit r1 h1 Hrun Hf H1 r2), (so_commit _ _ _ _ Hok).
Qed.

(** C1: agreement.  If fewer than f+1 slots are faulty and aggregations carry
    only votes that the honest slots published, then two decisions of honest
    validators, in whatever rounds, are for the same proposal, and that proposal
    was verified and has the precommits of 2f+1 slots. *)
Theorem agreement s1 s2 d1 d2 : honest_run -> len faulty < F_PLUS_ONE ->
  is_slot s1 -> s1 ∉ faulty -> is_slot s2 -> s2 ∉ faulty ->
  d1 ∈ decided (nodes s1) -> d2 ∈ decided (nodes s2) ->
  hash (decision_proposal d1) = hash (decision_proposal d2) /\
  Valid (decision_proposal d1) /\ TWO_F_PLUS_ONE <= len (decision_signers d1).
Proof.
  intros Hrun Hf Hs1 Hh1 Hs2 Hh2 Hd1 Hd2.
  destruct (no_decided _ _ _ _ (reachable_ok _ _ _ _ (Hrun s1 Hs1 Hh1)) _ Hd1) as (Hv1 & Hn1 & a1 & Ha1 & E1).
  destruct (no_decided _ _ _ _ (reachable_ok _ _ _ _ (Hrun s2 Hs2 Hh2)) _ Hd2) as (Hv2 & Hn2 & a2 & Ha2 & E2).
  split; [|done].
  assert (C1 : committed (decision_round d1) (hash (decision_proposal d1))) by (exists a1; by rewrite <-E1).
  assert (C2 : committed (decision_round d2) (hash (decision_proposal d2))) by (exists a2; by rewrite <-E2).
  destruct (Z.le_ge_cases (decision_round d1) (decision_round d2)).
  - by apply (commits_agree (decision_round d1) _ (decision_round d2)).
  - symmetry. by apply (commits_agree (decision_round d2) _ (decision_round d1)).
Qed.
End Agreement.
