(* ===== verification/TendermintExample.v ===== *)
(** * A run of Tendermint

    Four slots, of which the last one is faulty: slot 0 proposes, the others
    receive the proposal, and all honest slots decide on it.  The run satisfies
    the assumptions of the theorems of [TendermintSafety]. *)

From S2P Require Import Prelude Tendermint TendermintInv TendermintProofs TendermintPoll.
From S2P Require Import TendermintSafety.
Import Step.

Module Toy.

(** Proposals and inherents are their hashes, an aggregation the contributors
    to every vote. *)
#[export] Instance protocol : Protocol := {
  Proposal := Z;
  Inherent := Z;
  ProposalSignature := unit;
  Aggregation := gmap (option Z) (gset Z);
  Decision := Z * gset Z * Z;
  TIMEOUT_DELTA := 1000;
  TIMEOUT_INIT := 4000;
  TWO_F_PLUS_ONE := 3;
  F_PLUS_ONE := 2;
  hash p := p;
  inherent_hash p := p;
  hash_of_inherent x := x;
  proposals a := omap (fun x => h ← x.1; Some (h, len x.2)) (map_to_list a);
  contributors_for a v := default ∅ (a !! v);
  all_contributors a := ⋃ (map_to_list a).*2;
  create_decision p x a r := Some (p, default ∅ (a !! Some p), r);
}.

#[export, program] Instance protocol_ok : ProtocolOk protocol := {
  decision_proposal d := d.1.1;
  decision_signers d := d.1.2;
  decision_round d := d.2;
}.
Next Obligation. done. Qed.
Next Obligation.
  intros a h n [[v s] [Hin E]]%list_elem_of_omap. apply elem_of_map_to_list in Hin.
  destruct v as [k|]; [|done]. simpl in E. injection E as <- <-. simpl. by rewrite Hin.
Qed.
Next Obligation. intros p x a r _ _. eexists. eauto. Qed.

#[export, program] Instance quorums : Quorums protocol := { num_slots := 4 }.
Next Obligation. done. Qed.
Next Obligation. done. Qed.

Definition proposed : ProposalMessage := mk_message 0 None 7.
Definition votes_for (voters : gset Z) : gmap (option Z) (gset Z) := {[Some 7 := voters]}.
Definition honest : gset Z := {[0; 1; 2]}.

(** The inputs of a call: the gossiped proposal, the updates of the
    aggregations, and whether the validator is the proposer. *)
Definition call (p : option SignedProposalMessage) (us : list (Id * gmap (option Z) (gset Z)))
    (proposer : bool) : Inputs :=
  mk_inputs p [] [] [] Sent false us (fun r => Some (proposer && (r =? 0)))
    (fun _ => Some (proposed, 7))
    (fun _ => tt) (fun p _ => if pm_proposal (sp_message p) =? 7 then Some 7 else None).

Definition prevoted : list (Id * gmap (option Z) (gset Z)) := [((0, Prevote), votes_for honest)].
Definition precommitted : list (Id * gmap (option Z) (gset Z)) := [((0, Precommit), votes_for honest)].

Definition poll (i : Inputs) (n : Node) : Node :=
  match poll_next i (live n) with (Ok r, t) => poll_macro n r t | _ => n end.

Definition proposer_calls : list Inputs :=
  [call None [] true; call None [] true; call None prevoted true; call None [] true;
   call None precommitted true].
Definition voter_calls : list Inputs :=
  [call (Some (mk_signed proposed tt)) [] false; call None [] false; call None prevoted false;
   call None [] false; call None precommitted false].
Definition run (calls : list Inputs) : Node := foldl (fun n i => poll i n) initial_node calls.

Definition nodes (slot : Z) : Node :=
  if slot =? 0 then run proposer_calls else if slot <=? 2 then run voter_calls else initial_node.
Definition own (slot r : Z) : Prop := slot = 0 /\ r = 0.
Definition Valid (p : Z) : Prop := p = 7.
Definition faulty : gset Z := {[3]}.
#[local] Abbreviation Sound := (signed_votes nodes faulty).

(** ** The assumptions on the inputs hold *)


Definition is_vote (st : Step.t) (e : Effect) : bool :=
  match e with
  | CreateAggregation r s (Some h) => (r =? 0) && bool_decide (s = st) && (h =? 7)
  | _ => false
  end.
Definition published (st : Step.t) (n : Node) : bool := existsb (is_vote st) (Tendermint.protocol (live n)).
Definition voted_by (calls : list Inputs) : bool :=
  published Prevote (run calls) && published Precommit (run calls).

Definition proposer_voted : voted_by proposer_calls = true := eq_refl.
Definition voter_voted : voted_by voter_calls = true := eq_refl.

(** What a node needs to take part in the given call. *)
Definition ready (n : Node) (i : Inputs) : bool :=
  match poll_next i (live n) with (Ok _, _) => true | _ => false end
  && (current_round (state (live n)) =? 0)
  && forallb (fun u => bool_decide (is_Some (votes (state (live n)) !! u.1))) (in_more_updates i).
Fixpoint all_ready (n : Node) (calls : list Inputs) : bool :=
  match calls with
  | [] => true
  | i :: calls => ready n i && all_ready (poll i n) calls
  end.
Definition proposer_ready : all_ready initial_node proposer_calls = true := eq_refl.
Definition voter_ready : all_ready initial_node voter_calls = true := eq_refl.

Definition decision_of (n : Node) : option (Z * gset Z * Z) := head (decided n).
Definition the_decision : Z * gset Z * Z := (7, honest, 0).
Definition proposer_decided : decision_of (run proposer_calls) = Some the_decision := eq_refl.
Definition voter_decided : decision_of (run voter_calls) = Some the_decision := eq_refl.

#[local] Opaque poll_next run.

Lemma honest_slots slot : slot ∈ honest <-> slot = 0 \/ slot = 1 \/ slot = 2.
Proof. unfold honest. set_solver. Qed.

Lemma published_elem st n : published st n = true ->
  CreateAggregation 0 st (Some 7) ∈ Tendermint.protocol (live n).
Proof.
  unfold published. intros (e & Hin & He)%existsb_exists. apply list_elem_of_In in Hin.
  destruct e as [| |r s [h|]]; try done. simpl in He.
  apply andb_true_iff in He as [[->%Z.eqb_eq ->%bool_decide_eq_true]%andb_true_iff ->%Z.eqb_eq]. done.
Qed.

Lemma voted_published st calls : voted_by calls = true -> st <> Propose ->
  published st (run calls) = true.
Proof.
  unfold voted_by. intros [H1 H2]%andb_true_iff Hst.
  destruct st; [destruct Hst; reflexivity|exact H1|exact H2].
Qed.

Lemma nodes_runs slot : slot ∈ honest -> exists calls, nodes slot = run calls /\
  voted_by calls = true /\ all_ready initial_node calls = true /\
  decision_of (run calls) = Some the_decision /\
  (slot = 0 /\ calls = proposer_calls \/ slot <> 0 /\ calls = voter_calls).
Proof.
  intros Hs%honest_slots. unfold nodes. destruct (decide (slot = 0)) as [->|Hne].
  - exists proposer_calls. split; [reflexivity|].
    split; [exact proposer_voted|]. split; [exact proposer_ready|].
    split; [exact proposer_decided|]. by left.
  - exists voter_calls. rewrite (proj2 (Z.eqb_neq _ _) Hne), (proj2 (Z.leb_le _ _)) by lia.
    split; [reflexivity|]. split; [exact voter_voted|]. split; [exact voter_ready|].
    split; [exact voter_decided|]. by right.
Qed.

Lemma slot_published st slot : st <> Propose -> slot ∈ honest -> published st (nodes slot) = true.
Proof. intros Hst (calls & -> & Hv & _)%nodes_runs. by apply voted_published. Qed.

Lemma sound_honest st : st <> Propose -> Sound (0, st) (votes_for honest).
Proof.
  intros Hst h slot. simpl. unfold votes_for. destruct (decide (h = 7)) as [->|Hne].
  - rewrite lookup_singleton_eq. change (default ∅ (Some honest)) with honest. intros Hs. split.
    + unfold is_slot. change num_slots with 4. apply honest_slots in Hs. lia.
    + intros _. by apply published_elem, slot_published.
  - rewrite lookup_singleton_ne by congruence. simpl. set_solver.
Qed.

(** Calls that deliver the votes of the honest slots and the proposal. *)
Record fair (slot : Z) (i : Inputs) : Prop := {
  fair_call : exists p us proposer, i = call p us proposer /\
    (p <> None -> slot <> 0) /\ (proposer = true -> slot = 0) /\
    (forall u, u ∈ us -> u.1.1 = 0 /\ u.1.2 <> Propose /\ u.2 = votes_for honest);
}.

Lemma ready_inputs slot n i : fair slot i -> ready n i = true ->
  inputs_ok Sound Valid (own slot) (live n) i.
Proof.
  intros [(p & us & proposer & -> & Hp & Hpr & Hus)] Hr. unfold ready in Hr.
  apply andb_true_iff in Hr as [[_ Hround%Z.eqb_eq]%andb_true_iff Hvotes].
  assert (Hown : forall q, p = Some q -> delivered (own slot) (live n) q).
  { intros q -> [E _]. by destruct (Hp ltac:(done)). }
  split.
  - intros id a Hin. simpl in Hin, Hvotes. destruct (Hus _ Hin) as (Er & Hst & Ea).
    rewrite forallb_forall in Hvotes. apply list_elem_of_In in Hin. apply Hvotes in Hin.
    apply bool_decide_eq_true in Hin. split; [done|]. destruct id as [r st]. simpl in *. subst.
    by apply sound_honest.
  - intros q Hq. by apply Hown.
  - intros q x Hin. by apply not_elem_of_nil in Hin.
  - intros r Hr. simpl in Hr. injection Hr as [-> ->%Z.eqb_eq]%andb_true_iff. split; [by apply Hpr|done].
  - intros r m x Hc. simpl in Hc. injection Hc as <- <-. done.
  - intros q o x Hv. simpl in Hv. destruct (_ =? 7) eqn:E; [|done]. apply Z.eqb_eq in E.
    injection Hv as <-. unfold Valid. by rewrite E.
  - intros d m Hin. by apply not_elem_of_nil in Hin.
  - done.
  - rewrite Hround. done.
Qed.

Lemma run_reaches slot calls n : Forall (fair slot) calls -> all_ready n calls = true ->
  rtc (node_step Sound Valid (own slot)) n (foldl (fun n i => poll i n) n calls).
Proof.
  revert n. induction calls as [|i calls IH]; intros n Hf Hr; [apply rtc_refl|].
  apply Forall_cons in Hf as [Hi Hf]. simpl in Hr. apply andb_true_iff in Hr as [Hr Hrest].
  eapply rtc_l; [|by apply IH]. pose proof (ready_inputs slot n i Hi Hr) as Hin.
  unfold poll. unfold ready in Hr. destruct (poll_next i (live n)) as [[r|e|] t] eqn:E; [|done..].
  by eapply node_poll.
Qed.

Lemma calls_fair slot calls :
  slot = 0 /\ calls = proposer_calls \/ slot <> 0 /\ calls = voter_calls -> Forall (fair slot) calls.
Proof.
  assert (Hus : forall st u, st <> Propose -> u ∈ [((0, st), votes_for honest)] ->
    u.1.1 = 0 /\ u.1.2 <> Propose /\ u.2 = votes_for honest).
  { intros st u Hst ->%list_elem_of_singleton. done. }
  intros [[-> ->]|[Hs ->]]; repeat (apply Forall_cons; split); try apply Forall_nil_2;
    constructor; eexists _, _, _; (split; [reflexivity|]); (split; [done|]); (split; [done|]);
    intros u Hu; try (by apply not_elem_of_nil in Hu); by eapply Hus, Hu.
Qed.

Lemma slot_reachable slot : slot ∈ honest -> reachable Sound Valid (own slot) (nodes slot).
Proof. intros (calls & -> & _ & Hr & _ & Hc)%nodes_runs. apply run_reaches; [by apply calls_fair|exact Hr]. Qed.

Lemma slot_decided slot : slot ∈ honest -> the_decision ∈ decided (nodes slot).
Proof.
  intros (calls & -> & _ & _ & Hd & _)%nodes_runs. unfold decision_of in Hd.
  destruct (decided (run calls)) as [|d l]; [discriminate|]. injection Hd as ->. apply list_elem_of_here.
Qed.

Lemma all_honest : honest_run nodes faulty Valid own.
Proof.
  intros slot Hs Hf. apply slot_reachable. unfold is_slot in Hs. change num_slots with 4 in Hs.
  apply honest_slots. unfold faulty in Hf. rewrite elem_of_singleton in Hf. lia.
Qed.

(** ** Witnesses of the theorems *)

Lemma no_equivocation_witness :
  reachable Sound Valid (own 0) (nodes 0) /\
  CreateAggregation 0 Prevote (Some 7) ∈ Tendermint.protocol (live (nodes 0)) /\
  (forall v, CreateAggregation 0 Prevote v ∈ Tendermint.protocol (live (nodes 0)) -> v = Some 7).
Proof.
  assert (H0 : reachable Sound Valid (own 0) (nodes 0)) by (by apply slot_reachable, honest_slots; left).
  assert (Hp : CreateAggregation 0 Prevote (Some 7) ∈ Tendermint.protocol (live (nodes 0))).
  { apply published_elem, slot_published; [done|]. apply honest_slots. by left. }
  split; [exact H0|]. split; [exact Hp|]. intros v Hv.
  exact (proj1 (no_equivocation _ _ _ _ H0) _ _ _ _ Hv Hp).
Defined.


Lemma agreement_witness :
  the_decision ∈ decided (nodes 0) /\ the_decision ∈ decided (nodes 2) /\
  3 <= len (decision_signers the_decision).
Proof.
  assert (H0 : the_decision ∈ decided (nodes 0)) by (apply slot_decided, honest_slots; left; reflexivity).
  assert (H2 : the_decision ∈ decided (nodes 2)) by (apply slot_decided, honest_slots; right; right; reflexivity).
  split; [exact H0|]. split; [exact H2|].
  assert (Hf : len faulty < F_PLUS_ONE) by reflexivity.
  assert (S0 : is_slot 0) by (split; reflexivity || discriminate).
  assert (S2 : is_slot 2) by (split; reflexivity || discriminate).
  assert (N0 : 0 ∉ faulty) by (unfold faulty; rewrite elem_of_singleton; discriminate).
  assert (N2 : 2 ∉ faulty) by (unfold faulty; rewrite elem_of_singleton; discriminate).
  exact (proj2 (proj2 (agreement nodes faulty Valid own 0 2 the_decision the_decision
    all_honest Hf S0 N0 S2 N2 H0 H2))).
Defined.
End Toy.
