(* ===== verification/Vrf.v ===== *)
(** * Verifiable random seeds

    [vrf/src/vrf.rs]: every block carries a VXEdDSA signature of the entropy of
    the previous block; the entropy that elections and slot selection draw on is
    extracted from it.  The curve and the hash functions are third-party code: a
    [Curve] has their operations and [CurveLaws] the group laws they document.
    A seed is the big-endian value of its 96 bytes. *)

From S2P Require Import Prelude.

Definition le_value (bs : list Z) : Z := be_value (rev bs).
Definition le_bytes (n : nat) (x : Z) : list Z := rev (be_bytes n x).

Lemma le_value_bytes n x : 0 <= x < 256 ^ Z.of_nat n -> le_value (le_bytes n x) = x.
Proof.
  intros Hx. unfold le_value, le_bytes. rewrite rev_involutive, be_value_bytes by lia.
  by apply Z.mod_small.
Qed.

(** ** The curve *)

Class Curve := {
  point : Type;
  decompress : list Z -> option point;
  compress : point -> list Z;
  point_sub : point -> point -> point;
  scalar_mul : Z -> point -> point;
  basepoint : point;
  mul_by_cofactor : point -> point;
  is_small_order : point -> bool;
  is_identity : point -> bool;
  (** [MontgomeryPoint::to_edwards]. *)
  to_edwards : list Z -> Z -> option point;
  sha512 : list Z -> list Z;
  sha256 : list Z -> list Z;
}.

(** The order of the prime subgroup and the modulus of the field. *)
Definition L : Z := 2 ^ 252 + 27742317777372353535851937790883648493.
Definition P25519 : Z := 2 ^ 255 - 19.

Section Vrf.
Context `{Cv : Curve}.

(** [Scalar::from_canonical_bytes] and [Scalar::hash_from_bytes::<Sha512>]. *)
Definition from_canonical_bytes (bs : list Z) : option Z :=
  let x := le_value bs in if x <? L then Some x else None.
Definition hash_from_bytes (bs : list Z) : Z := le_value (sha512 bs) `mod` L.

(** [BigUint::modpow]: square and multiply over the bits of the exponent. *)
Fixpoint modpow_pos (b : Z) (e : positive) (m : Z) : Z :=
  match e with
  | xH => b `mod` m
  | xO e => let r := modpow_pos b e m in (r * r) `mod` m
  | xI e => let r := modpow_pos b e m in (r * r * b) `mod` m
  end.
Definition modpow (b e m : Z) : Z :=
  match e with Zpos e => modpow_pos b e m | _ => 1 `mod` m end.

(** [elligator_encode]: the [u]-coordinate for 32 bytes. *)
Definition elligator_u (res : list Z) : Z :=
  let p := P25519 in
  let a := 486662 in
  let inv x := modpow x (p - 2) p in
  let r := (le_value res `mod` 2 ^ 255) `mod` p in
  let two_r2 := (2 * r * r) `mod` p in
  let denom := (1 + two_r2) `mod` p in
  let neg_a := (p - a) `mod` p in
  let d := (neg_a * inv denom) `mod` p in
  let d2 := (d * d) `mod` p in
  let inner := (d2 + (a * d) `mod` p + 1) `mod` p in
  let eps := (d * inner) `mod` p in
  let legendre := modpow eps ((p - 1) / 2) p in
  if negb (legendre =? p - 1) then d else (p - (d + a) `mod` p) `mod` p.
Definition elligator_encode (res : list Z) : list Z := le_bytes 32 (elligator_u res).

(** [nonspec_map_to_curve]; [None] is the panic of its [expect]. *)
Definition nonspec_map_to_curve (input : list Z) : option point :=
  let res := take 32 (sha512 input) in
  let sign_bit := Z.shiftr (Z.land (default 0 (res !! 31%nat)) 128) 7 in
  p ← to_edwards (elligator_encode res) sign_bit;
  Some (mul_by_cofactor p).

(** ** Seeds *)

Inductive VrfError := Forged | InvalidSignature.
Inductive VrfUseCase := Seed | ValidatorSlotSelection | ViewSlotSelection | RewardDistribution.
#[global] Instance use_case_eq_dec : EqDecision VrfUseCase.
Proof. solve_decision. Defined.
Definition use_case_u8 (u : VrfUseCase) : Z :=
  match u with
  | Seed => 1 | ValidatorSlotSelection => 2 | ViewSlotSelection => 3 | RewardDistribution => 4
  end.

Definition try_entropy (self : Z) : option Z :=
  V ← decompress (take 32 (be_bytes 96 self));
  Some (be_value (take 32 (sha256 (compress (mul_by_cofactor V))))).

(** The message that the next seed signs: a use case, the nonce, the entropy. *)
Definition seed_message (nonce entropy : Z) : list Z :=
  use_case_u8 Seed :: be_bytes 4 nonce ++ be_bytes 32 entropy.

Definition verify (self prev_seed public_key nonce : Z) : outcome VrfError unit :=
  let signature := be_bytes 96 self in
  V ← or_err (decompress (take 32 signature)) InvalidSignature;
  h ← or_err (from_canonical_bytes (take 32 (drop 32 signature))) InvalidSignature;
  s ← or_err (from_canonical_bytes (drop 64 signature)) InvalidSignature;
  let A_bytes := be_bytes 32 public_key in
  A ← or_err (decompress A_bytes) InvalidSignature;
  entropy ← unwrap (try_entropy prev_seed);
  let message := seed_message nonce entropy in
  B_v ← unwrap (nonspec_map_to_curve (A_bytes ++ message));
  if is_small_order A || is_small_order V || is_identity B_v then Err InvalidSignature
  else
    let R := point_sub (scalar_mul s basepoint) (scalar_mul h A) in
    let R_v := point_sub (scalar_mul s B_v) (scalar_mul h V) in
    let h_check := hash_from_bytes
      (A_bytes ++ compress V ++ compress R ++ compress R_v ++ message) in
    if h =? h_check then Ok tt else Err Forged.

(** [sign_next_with_rng] for the random bytes [z], the secret scalar [a] and the
    public key of the key pair; [None] is a panic. *)
Definition sign_next (self : Z) (a : Z) (public : Z) (nonce : Z) (z : list Z) : option Z :=
  let A_bytes := be_bytes 32 public in
  entropy ← try_entropy self;
  let message := seed_message nonce entropy in
  B_v ← nonspec_map_to_curve (A_bytes ++ message);
  let V := compress (scalar_mul a B_v) in
  let r := hash_from_bytes (le_bytes 32 a ++ V ++ z) in
  let R := compress (scalar_mul r basepoint) in
  let R_v := compress (scalar_mul r B_v) in
  let h := hash_from_bytes (A_bytes ++ V ++ R ++ R_v ++ message) in
  let s := (r + h * a) `mod` L in
  Some (be_value (V ++ le_bytes 32 h ++ le_bytes 32 s)).

(** ** The random number generator *)

Record VrfRng := mk_vrf_rng { vr_entropy : Z; vr_use_case : VrfUseCase; vr_counter : Z }.

(** [VrfSeed::rng]; [None] is a panic. *)
Definition rng (self : Z) (use_case : VrfUseCase) : option VrfRng :=
  if bool_decide (use_case = Seed) then None
  else entropy ← try_entropy self; Some (mk_vrf_rng entropy use_case 0).

Section Rng.
Variable blake2b : list Z -> list Z.

Definition next_hash (self : VrfRng) : list Z * VrfRng :=
  (blake2b (use_case_u8 (vr_use_case self) :: be_bytes 8 (vr_counter self)
              ++ be_bytes 32 (vr_entropy self)),
   mk_vrf_rng (vr_entropy self) (vr_use_case self) (wrap 64 (vr_counter self + 1))).

Definition next_u64 (self : VrfRng) : Z * VrfRng :=
  let '(hash, self) := next_hash self in (be_value (take 8 hash), self).
End Rng.
End Vrf.

(** ** Group laws *)

Class CurveLaws (Cv : Curve) := {
  prime_order : point -> Prop;
  compress_bytes : forall P, length (compress P) = 32%nat /\ Forall is_byte (compress P);
  decompress_compress : forall P, decompress (compress P) = Some P;
  prime_basepoint : prime_order basepoint;
  prime_cofactor : forall P, prime_order (mul_by_cofactor P);
  mul_mul : forall x y P, prime_order P -> scalar_mul x (scalar_mul y P) = scalar_mul (x * y) P;
  mul_sub : forall x y P, prime_order P ->
    point_sub (scalar_mul x P) (scalar_mul y P) = scalar_mul (x - y) P;
  mul_mod : forall x P, prime_order P -> scalar_mul (x `mod` L) P = scalar_mul x P;
  basepoint_not_identity : is_identity basepoint = false;
  large_order : forall x P, prime_order P -> is_identity P = false -> 0 < x < L ->
    is_small_order (scalar_mul x P) = false;
}.

(** ** Arithmetic *)

Lemma modpow_pos_eq b e m : 0 < m -> modpow_pos b e m = b ^ Zpos e `mod` m.
Proof.
  intros Hm. induction e as [e IH|e IH|]; cbn [modpow_pos]; [| |by rewrite Z.pow_1_r];
    rewrite IH.
  - rewrite Pos2Z.inj_xI, Z.pow_add_r, Z.pow_1_r, (Z.mul_comm 2), Z.pow_mul_r by lia.
    rewrite <-Z.mul_mod_idemp_l by lia. rewrite <-Z.mul_mod by lia.
    rewrite Z.mul_mod_idemp_l by lia. by rewrite Z.pow_2_r.
  - rewrite Pos2Z.inj_xO, (Z.mul_comm 2), Z.pow_mul_r by lia.
    by rewrite <-Z.mul_mod, Z.pow_2_r by lia.
Qed.

Lemma modpow_eq b e m : 0 < m -> 0 <= e -> modpow b e m = b ^ e `mod` m.
Proof.
  intros Hm He. destruct e as [|e|e]; [by rewrite Z.pow_0_r|by apply modpow_pos_eq|lia].
Qed.

Lemma P25519_pos : 0 < P25519 < 256 ^ 32.
Proof. by vm_compute. Qed.
Lemma L_pos : 1 < L < 256 ^ 32.
Proof. by vm_compute. Qed.
#[local] Opaque L P25519.

Lemma elligator_u_range res : 0 <= elligator_u res < P25519.
Proof.
  unfold elligator_u. pose proof P25519_pos as [Hp _].
  destruct (negb _); apply Z.mod_pos_bound; lia.
Qed.

Section Roundtrip.
Context `{Cv : Curve} `{CL : !CurveLaws Cv}.

Lemma hash_from_bytes_range l : 0 <= hash_from_bytes l < L.
Proof. apply Z.mod_pos_bound. pose proof L_pos. lia. Qed.

Lemma le_bytes_ok n x : length (le_bytes n x) = n /\ Forall is_byte (le_bytes n x).
Proof.
  unfold le_bytes. rewrite length_rev, be_bytes_length. split; [done|].
  apply Forall_rev, be_bytes_bytes.
Qed.

(** The three parts of a seed. *)
Lemma seed_parts V h s : length V = 32%nat -> Forall is_byte V ->
  be_bytes 96 (be_value (V ++ le_bytes 32 h ++ le_bytes 32 s)) = V ++ le_bytes 32 h ++ le_bytes 32 s.
Proof.
  intros Hl HV. destruct (le_bytes_ok 32 h) as [Hh1 Hh2], (le_bytes_ok 32 s) as [Hs1 Hs2].
  assert (96%nat = length (V ++ le_bytes 32 h ++ le_bytes 32 s)) as ->
    by (rewrite !length_app; lia).
  apply be_bytes_value. rewrite !Forall_app. done.
Qed.

Lemma canonical_le_bytes x : 0 <= x < L -> from_canonical_bytes (le_bytes 32 x) = Some x.
Proof.
  intros Hx. pose proof L_pos. unfold from_canonical_bytes.
  rewrite le_value_bytes by (simpl; lia). by destruct (Z.ltb_spec x L); [|lia].
Qed.

(** [s P - h (a P) = r P] for [s = r + h a]. *)
Lemma commitment r h a P : prime_order P ->
  point_sub (scalar_mul ((r + h * a) `mod` L) P) (scalar_mul h (scalar_mul a P)) = scalar_mul r P.
Proof. intros HP. rewrite mul_mod, mul_mul, mul_sub by done. f_equal. ring. Qed.

Lemma prime_mapped input B_v : nonspec_map_to_curve input = Some B_v -> prime_order B_v.
Proof.
  unfold nonspec_map_to_curve. intros Hm. apply bind_Some in Hm as (p & _ & [= <-]).
  apply prime_cofactor.
Qed.

(** The seed that [sign_next] builds is accepted, and its entropy does not depend on
    the random bytes of the signature. *)
Definition next_entropy (a : Z) (B_v : point) : Z :=
  be_value (take 32 (sha256 (compress (mul_by_cofactor (scalar_mul a B_v))))).

(** The challenge of a signature with commitment [r]. *)
Definition challenge (A_bytes : list Z) (a r : Z) (B_v : point) (message : list Z) : Z :=
  hash_from_bytes (A_bytes ++ compress (scalar_mul a B_v) ++ compress (scalar_mul r basepoint) ++
                   compress (scalar_mul r B_v) ++ message).
Definition signature (a h s : Z) (B_v : point) : Z :=
  be_value (compress (scalar_mul a B_v) ++ le_bytes 32 h ++ le_bytes 32 s).

Lemma signature_parts a h s B_v :
  let sig := be_bytes 96 (signature a h s B_v) in
  take 32 sig = compress (scalar_mul a B_v) /\ take 32 (drop 32 sig) = le_bytes 32 h /\
  drop 64 sig = le_bytes 32 s.
Proof.
  destruct (compress_bytes (scalar_mul a B_v)) as [HVl HVb].
  destruct (le_bytes_ok 32 h) as [Hh1 _].
  cbv zeta. unfold signature. rewrite seed_parts by done.
  assert (HdV : drop 32 (compress (scalar_mul a B_v) ++ le_bytes 32 h ++ le_bytes 32 s)
                = le_bytes 32 h ++ le_bytes 32 s) by (by apply drop_app_length').
  change 64%nat with (32 + 32)%nat. rewrite <-drop_drop, HdV.
  by rewrite !take_app_length', drop_app_length' by done.
Qed.

Lemma signature_verifies prev entropy a r public nonce B_v :
  try_entropy prev = Some entropy -> 0 < a < L ->
  be_bytes 32 public = compress (scalar_mul a basepoint) ->
  nonspec_map_to_curve (be_bytes 32 public ++ seed_message nonce entropy) = Some B_v ->
  is_identity B_v = false ->
  let h := challenge (be_bytes 32 public) a r B_v (seed_message nonce entropy) in
  verify (signature a h ((r + h * a) `mod` L) B_v) prev public nonce = Ok tt.
Proof.
  intros He Ha HA HB Hid h. pose proof (prime_mapped _ _ HB) as Hprime.
  destruct (signature_parts a h ((r + h * a) `mod` L) B_v) as (H1 & H2 & H3).
  unfold verify. rewrite H1, H2, H3, decompress_compress, !canonical_le_bytes by
    (apply hash_from_bytes_range || (apply Z.mod_pos_bound; pose proof L_pos; lia)).
  cbn [or_err mbind outcome_bind]. rewrite HA at 1.
  rewrite decompress_compress, He. cbn [or_err unwrap mbind outcome_bind]. rewrite HB.
  cbn [unwrap mbind outcome_bind].
  rewrite !large_order by (done || apply prime_basepoint || apply basepoint_not_identity).
  rewrite Hid, !commitment by (done || apply prime_basepoint). cbn [orb].
  by rewrite Z.eqb_refl.
Qed.

Lemma sign_next_verifies prev entropy a public nonce z B_v :
  try_entropy prev = Some entropy -> 0 < a < L ->
  public = be_value (compress (scalar_mul a basepoint)) ->
  nonspec_map_to_curve (be_bytes 32 public ++ seed_message nonce entropy) = Some B_v ->
  is_identity B_v = false ->
  exists seed, sign_next prev a public nonce z = Some seed /\
    verify seed prev public nonce = Ok tt /\ try_entropy seed = Some (next_entropy a B_v).
Proof.
  intros He Ha Hpub HB Hid.
  assert (HA : be_bytes 32 public = compress (scalar_mul a basepoint)).
  { subst public. destruct (compress_bytes (scalar_mul a basepoint)) as [Hl Hb].
    rewrite <-Hl at 1. by apply be_bytes_value. }
  unfold sign_next. rewrite He. cbn [mbind option_bind]. rewrite HB. cbn [mbind option_bind].
  eexists. split; [done|]. split; [by apply (signature_verifies prev entropy)|].
  pose proof (fun h s => proj1 (signature_parts a h s B_v)) as H1.
  cbv zeta in H1. unfold signature in H1. unfold try_entropy. by rewrite H1, decompress_compress.
Qed.

(** A block producer's next seed always exists, verifies against the previous
    seed and the producer's public key, and its entropy is a function of the key,
    the nonce and the previous entropy alone: the random bytes that go into the
    signature cannot be used to grind it. *)
Theorem next_seed_verifies prev entropy a public nonce B_v :
  try_entropy prev = Some entropy -> 0 < a < L ->
  public = be_value (compress (scalar_mul a basepoint)) ->
  nonspec_map_to_curve (be_bytes 32 public ++ seed_message nonce entropy) = Some B_v ->
  is_identity B_v = false ->
  exists entropy', forall z, exists seed,
    sign_next prev a public nonce z = Some seed /\
    verify seed prev public nonce = Ok tt /\ try_entropy seed = Some entropy'.
Proof.
  intros. exists (next_entropy a B_v). intros z. by apply (sign_next_verifies prev entropy).
Qed.
End Roundtrip.

(** ** A group in which the laws hold: the integers modulo [L] *)

Module Toy.
Definition in_range (x : Z) : bool := (0 <=? x) && (x <? L).
Definition pt : Type := { x : Z | in_range x = true }.

Lemma mod_in_range x : in_range (x `mod` L) = true.
Proof.
  unfold in_range. pose proof L_pos. pose proof (Z.mod_pos_bound x L ltac:(lia)).
  apply andb_true_intro. split; [apply Z.leb_le|apply Z.ltb_lt]; lia.
Qed.
Definition mkp (x : Z) : pt := exist _ (x `mod` L) (mod_in_range x).
Definition val (p : pt) : Z := proj1_sig p.

Lemma pt_eq (p q : pt) : val p = val q -> p = q.
Proof.
  destruct p as [x Hx], q as [y Hy]. simpl. intros ->. f_equal. apply proof_irrel.
Qed.
Lemma val_range (p : pt) : 0 <= val p < L.
Proof. destruct p as [x Hx]. unfold in_range in Hx. simpl. lia. Qed.

#[global] Instance curve : Curve := {|
  point := pt;
  decompress bs := let x := be_value bs in if in_range x then Some (mkp x) else None;
  compress p := be_bytes 32 (val p);
  point_sub p q := mkp (val p - val q);
  scalar_mul x p := mkp (x * val p);
  basepoint := mkp 9;
  mul_by_cofactor p := mkp (8 * val p);
  is_small_order _ := false;
  is_identity p := val p =? 0;
  to_edwards u sign := Some (mkp (1 + sign));
  sha512 l := be_bytes 64 (3 * be_value l + 7);
  sha256 l := be_bytes 32 (5 * be_value l + 11);
|}.

#[global] Instance curve_laws : CurveLaws curve.
Proof.
  pose proof L_pos as HL.
  refine {| prime_order := fun _ : @point curve => True |}; try done; cbn -[Z.mul be_bytes].
  - intros p. split; [apply be_bytes_length|apply be_bytes_bytes].
  - intros p. pose proof (val_range p) as Hp. rewrite be_value_bytes by lia.
    rewrite Z.mod_small by (simpl; lia).
    replace (in_range (val p)) with true by (symmetry; apply (proj2_sig p)).
    f_equal. apply pt_eq. cbn. by apply Z.mod_small.
  - intros x y p _. apply pt_eq. cbn -[Z.mul]. rewrite Z.mul_mod_idemp_r by lia. f_equal. ring.
  - intros x y p _. apply pt_eq. cbn -[Z.mul]. rewrite <-Zminus_mod. f_equal. ring.
  - intros x p _. apply pt_eq. cbn -[Z.mul]. by rewrite Z.mul_mod_idemp_l by lia.
Qed.
End Toy.

Lemma next_seed_verifies_witness :
  exists entropy', forall z, exists seed,
    sign_next (Cv := Toy.curve) 77 5 45 1000 z = Some seed /\
    verify (Cv := Toy.curve) seed 77 45 1000 = Ok tt /\
    try_entropy (Cv := Toy.curve) seed = Some entropy'.
Proof.
  eapply (next_seed_verifies (Cv := Toy.curve) 77 _ 5 45 1000).
  - vm_compute. reflexivity.
  - vm_compute. split; reflexivity.
  - vm_compute. reflexivity.
  - lazy. reflexivity.
  - reflexivity.
Defined.
