(* ===== verification/Block.v ===== *)
(** * Blocks: data, content and hashes

    [primitives/block/src/{macro_block,micro_block,multisig,tendermint,skip_block,block}.rs]:
    micro and macro blocks, the bytes their hashes are taken of, and the messages
    validators sign ([primitives/src/{signed,tendermint}.rs]).  Hashes, keys,
    signatures and seeds are kept as the big-endian value of their bytes; the order
    of hashes is then the order of numbers. *)

From S2P Require Import Prelude Coin Policy BitSet AccountTypes Codec TxContent Slots.

(** The [Blake2b] and [Blake2s] digests are third-party code: 32 bytes each. *)
Class BlockEnv := {
  block_content_env :: ContentEnv;
  blake2s : list Z -> list Z;
  blake2b_bytes : forall l, length (blake2b l) = 32%nat /\ Forall is_byte (blake2b l);
  blake2s_bytes : forall l, length (blake2s l) = 32%nat /\ Forall is_byte (blake2s l);
}.

(** ** Serialization of options and sequences *)

(** [Option<T>]: a tag byte. *)
Program Definition option_codec {A} (ca : codec A) : codec (option A) := {|
  cenc o := match o with Some a => 1 :: cenc ca a | None => [0] end;
  cdec bs :=
    '(tag, bs) ← cdec u8_codec bs;
    if tag =? 0 then Some (None, bs)
    else if tag =? 1 then '(a, bs) ← cdec ca bs; Some (Some a, bs)
    else None;
  cvalid o := match o with Some a => cvalid ca a | None => True end;
|}.
Next Obligation.
  intros A ca [a|] rest Hv; cbn [app]; rewrite u8_cons; cbn [mbind option_bind Z.eqb Pos.eqb];
    [|done]. by rewrite cdec_enc.
Qed.

(** The elements of a sequence, one after the other. *)
Fixpoint enc_list {A} (ca : codec A) (l : list A) : list Z :=
  match l with
  | [] => []
  | a :: l => cenc ca a ++ enc_list ca l
  end.
Fixpoint dec_list {A} (ca : codec A) (n : nat) (bs : list Z) : option (list A * list Z) :=
  match n with
  | O => Some ([], bs)
  | S n =>
      '(a, bs) ← cdec ca bs;
      '(l, bs) ← dec_list ca n bs;
      Some (a :: l, bs)
  end.
Lemma dec_enc_list {A} (ca : codec A) l rest :
  Forall (cvalid ca) l -> dec_list ca (length l) (enc_list ca l ++ rest) = Some (l, rest).
Proof.
  induction 1 as [|a l Ha _ IH]; [done|]. cbn [enc_list dec_list length].
  rewrite <-app_assoc, cdec_enc by done. cbn [mbind option_bind]. by rewrite IH.
Qed.

(** [Vec<T>]: the length, then the elements. *)
Program Definition seq_codec {A} (len : codec Z) (ca : codec A) : codec (list A) := {|
  cenc l := cenc len (Z.of_nat (length l)) ++ enc_list ca l;
  cdec bs := '(n, bs) ← cdec len bs; dec_list ca (Z.to_nat n) bs;
  cvalid l := cvalid len (Z.of_nat (length l)) /\ Forall (cvalid ca) l;
|}.
Next Obligation.
  intros A len ca l rest [Hn Hl]. simpl. rewrite <-app_assoc, cdec_enc by done. simpl.
  rewrite Nat2Z.id. by apply dec_enc_list.
Qed.

(** Encodings of valid values differ when the values do. *)
Lemma cenc_inj_app {A} (c : codec A) a1 a2 r1 r2 :
  cvalid c a1 -> cvalid c a2 -> cenc c a1 ++ r1 = cenc c a2 ++ r2 -> a1 = a2 /\ r1 = r2.
Proof.
  intros H1 H2 He. apply (f_equal (cdec c)) in He. rewrite !cdec_enc in He by done.
  by injection He.
Qed.
Lemma cenc_inj {A} (c : codec A) a1 a2 :
  cvalid c a1 -> cvalid c a2 -> cenc c a1 = cenc c a2 -> a1 = a2.
Proof.
  intros H1 H2 He. apply (cenc_inj_app c a1 a2 [] []); [done..|]. by rewrite He.
Qed.

Lemma network_of_to n : NetworkId.try_from (NetworkId.to_u8 n) = Some n.
Proof. apply NetworkId.try_from_to_u8. Qed.
Definition network_codec : codec NetworkId.t :=
  via_codec NetworkId.to_u8 NetworkId.try_from u8_codec network_of_to.
Lemma network_valid n : cvalid network_codec n.
Proof. by destruct n. Qed.

Definition hash_codec : codec Z := be_codec 32.
Definition seed_codec : codec Z := be_codec 96.

#[global] Instance network_eq_dec : EqDecision NetworkId.t.
Proof. solve_decision. Defined.

(** ** Consensus changes of protocol version 2 ([policy/upgrades/v2.rs]) *)

Module V2.
Definition VERSION : Z := 2.
Definition EQUIVOCATION_REPORTING_WINDOW : Z := VERSION.
Definition ELECTION_VALIDATOR_METADATA_COMMITMENT : Z := VERSION.
Definition DIFF_ROOT_COMMITMENT : Z := VERSION.
Definition SKIP_BLOCK_STATE_ROOT_BINDING : Z := VERSION.
End V2.

(** ** Signatures *)

(** [MultiSignature]; [signers] is the set of the members of the bit set. *)
Record MultiSignature := mk_multi_signature {
  ms_signature : Z;
  ms_signers : gset Z;
}.
Record TendermintProof := mk_tendermint_proof { tp_round : Z; tp_sig : MultiSignature }.
Record SkipBlockProof := mk_skip_block_proof { sp_sig : MultiSignature }.

(** ** Micro blocks *)

Module MicroHeader.
Record t := mk {
  network : NetworkId.t;
  version : Z;
  block_number : Z;
  timestamp : Z;
  parent_hash : Z;
  seed : Z;
  extra_data : list Z;
  state_root : Z;
  body_root : Z;
  diff_root : Z;
  history_root : Z;
  cached_hash : option Z;
}.

(** [PartialEq for MicroHeader]: all fields but the cached hash. *)
Definition same (h1 h2 : t) : Prop :=
  network h1 = network h2 /\ version h1 = version h2 /\ block_number h1 = block_number h2 /\
  timestamp h1 = timestamp h2 /\ parent_hash h1 = parent_hash h2 /\ seed h1 = seed h2 /\
  extra_data h1 = extra_data h2 /\ state_root h1 = state_root h2 /\
  body_root h1 = body_root h2 /\ diff_root h1 = diff_root h2 /\
  history_root h1 = history_root h2.
End MicroHeader.

Inductive MicroJustification :=
  | Micro (signature : Z)
  | Skip (proof : SkipBlockProof).

(** ** Macro blocks *)

Module MacroHeader.
Record t := mk {
  network : NetworkId.t;
  version : Z;
  block_number : Z;
  round : Z;
  timestamp : Z;
  parent_hash : Z;
  parent_election_hash : Z;
  interlink : option (list Z);
  seed : Z;
  extra_data : list Z;
  state_root : Z;
  body_root : Z;
  diff_root : Z;
  history_root : Z;
  validators : option Validators;
  next_batch_initial_punished_set : BitSet;
  cached_hash : option Z;
}.

(** [PartialEq for MacroHeader]: all fields but the cached hash. *)
Definition same (h1 h2 : t) : Prop :=
  network h1 = network h2 /\ version h1 = version h2 /\ block_number h1 = block_number h2 /\
  round h1 = round h2 /\ timestamp h1 = timestamp h2 /\ parent_hash h1 = parent_hash h2 /\
  parent_election_hash h1 = parent_election_hash h2 /\ interlink h1 = interlink h2 /\
  seed h1 = seed h2 /\ extra_data h1 = extra_data h2 /\ state_root h1 = state_root h2 /\
  body_root h1 = body_root h2 /\ diff_root h1 = diff_root h2 /\
  history_root h1 = history_root h2 /\ validators h1 = validators h2 /\
  next_batch_initial_punished_set h1 = next_batch_initial_punished_set h2.
End MacroHeader.

Record RewardTransaction := mk_reward_transaction {
  rt_validator_address : Z;
  rt_recipient : Z;
  rt_value : Z;
}.
Record MacroBody := mk_macro_body { mab_transactions : list RewardTransaction }.

Record MacroBlock := mk_macro_block {
  ma_header : MacroHeader.t;
  ma_body : option MacroBody;
  ma_justification : option TendermintProof;
}.

(** ** Content and hashes *)

Section Hashing.
Context `{BEnv : BlockEnv}.

Definition blake2b_hash (l : list Z) : Z := be_value (blake2b l).
Definition blake2s_hash (l : list Z) : Z := be_value (blake2s l).

Definition vec_u8_codec : codec (list Z) := vec_codec usize_codec.

(** The derived [SerializeContent for MicroHeader]: the serialization; integers are
    written as variable-length numbers. *)
Definition micro_header_content (self : MicroHeader.t) : list Z :=
  cenc network_codec (MicroHeader.network self) ++
  cenc usize_codec (MicroHeader.version self) ++
  cenc usize_codec (MicroHeader.block_number self) ++
  cenc usize_codec (MicroHeader.timestamp self) ++
  cenc hash_codec (MicroHeader.parent_hash self) ++
  cenc seed_codec (MicroHeader.seed self) ++
  cenc vec_u8_codec (MicroHeader.extra_data self) ++
  cenc hash_codec (MicroHeader.state_root self) ++
  cenc hash_codec (MicroHeader.body_root self) ++
  cenc hash_codec (MicroHeader.diff_root self) ++
  cenc hash_codec (MicroHeader.history_root self).

Definition micro_header_hash (self : MicroHeader.t) : Z :=
  match MicroHeader.cached_hash self with
  | Some hash => hash
  | None => blake2b_hash (micro_header_content self)
  end.

(** [MicroHeader::hash_cached]: the hash and the header that remembers it. *)
Definition micro_header_hash_cached (self : MicroHeader.t) : Z * MicroHeader.t :=
  let hash := micro_header_hash self in
  (hash, MicroHeader.mk (MicroHeader.network self) (MicroHeader.version self)
           (MicroHeader.block_number self) (MicroHeader.timestamp self)
           (MicroHeader.parent_hash self) (MicroHeader.seed self) (MicroHeader.extra_data self)
           (MicroHeader.state_root self) (MicroHeader.body_root self)
           (MicroHeader.diff_root self) (MicroHeader.history_root self) (Some hash)).

(** *** The validator set *)

(** [Validators::commitment_hash]: the bytes of one validator and of all. *)
Definition validator_bytes (v : SlotValidator) : list Z :=
  be_bytes 20 (sv_address v) ++ be_bytes 32 (sv_signing_key v) ++
  be_bytes 285 (sv_voting_key v) ++
  be_bytes 2 (range_start (sv_slots v)) ++ be_bytes 2 (range_end (sv_slots v)).
Definition commitment_bytes (self : Validators) : list Z :=
  concat (validator_bytes <$> vs_validators self).

(** The slices [l[i * len / n..(i + 1) * len / n]] for [i] below [n]. *)
Definition even_chunks (n : nat) (l : list Z) : list (list Z) :=
  (fun i => let from := (i * length l / n)%nat in
            take ((i + 1) * length l / n - from) (drop from l)) <$> seq 0 n.

(** [merkle_tree_construct]: one level, and the loop until one node is left. *)
Definition merkle_level (nodes : list (list Z)) : list (list Z) :=
  blake2s <$> even_chunks (length nodes / 2) (concat nodes).
Fixpoint merkle_levels (fuel : nat) (nodes : list (list Z)) : option (list Z) :=
  match fuel with
  | O => None
  | S fuel =>
      match nodes with
      | [] => None
      | [root] => Some root
      | _ => merkle_levels fuel (merkle_level nodes)
      end
  end.
Definition is_power_of_two (n : nat) : bool :=
  bool_decide (n = 2 ^ Nat.log2 n)%nat && negb (n =? 0)%nat.
Definition merkle_tree_construct (inputs : list (list Z)) : option (list Z) :=
  if (length inputs =? 0)%nat then None
  else if negb (is_power_of_two (length inputs)) then None
  else merkle_levels (length inputs) (blake2s <$> inputs).

(** [Hash for Validators]: the tree over the voting keys, one per slot. *)
Definition voting_key_bytes (self : Validators) : list Z :=
  concat ((fun v => concat (replicate (Z.to_nat (num_slots v)) (be_bytes 285 (sv_voting_key v))))
            <$> vs_validators self).
Definition validators_tree (self : Validators) : option (list Z) :=
  merkle_tree_construct (even_chunks (Z.to_nat PK_TREE_BREADTH) (voting_key_bytes self)).

Lemma even_chunks_length n l : length (even_chunks n l) = n.
Proof. unfold even_chunks. by rewrite length_fmap, length_seq. Qed.

(** The loop ends: each level has half the nodes of the one below. *)
Lemma merkle_levels_total k fuel nodes :
  length nodes = (2 ^ k)%nat -> (k < fuel)%nat -> is_Some (merkle_levels fuel nodes).
Proof.
  revert fuel nodes. induction k as [|k IH]; intros [|fuel] nodes Hl Hf; try lia.
  - destruct nodes as [|root [|? ?]]; simpl in Hl; try lia. by eexists.
  - assert (Hl' : length (merkle_level nodes) = (2 ^ k)%nat).
    { unfold merkle_level. rewrite length_fmap, even_chunks_length, Hl. cbn [Nat.pow].
      by rewrite Nat.mul_comm, Nat.div_mul. }
    assert (1 < length nodes)%nat.
    { rewrite Hl. cbn [Nat.pow]. pose proof (Nat.pow_nonzero 2 k). lia. }
    destruct nodes as [|x [|y nodes]]; simpl in *; try lia. apply IH; [done|lia].
Qed.

Lemma validators_tree_total self : is_Some (validators_tree self).
Proof.
  unfold validators_tree, merkle_tree_construct. rewrite even_chunks_length.
  change (Z.to_nat PK_TREE_BREADTH) with (2 ^ 5)%nat at 1 2 3. cbn [Nat.eqb negb].
  change (is_power_of_two _) with true. cbn [negb].
  apply (merkle_levels_total 5); [|vm_compute; lia]. by rewrite length_fmap, even_chunks_length.
Qed.

(** The tree has a root for every set ([validators_tree_total]). *)
Definition validators_hash (self : Validators) : list Z := default [] (validators_tree self).

(** *** Macro headers *)

Definition punished_set_codec : codec (list Z) := seq_codec usize_codec usize_codec.

Definition serialize_payload_commitment (self : MacroHeader.t) : list Z :=
  match MacroHeader.validators self with
  | Some validators =>
      if V2.ELECTION_VALIDATOR_METADATA_COMMITMENT <=? MacroHeader.version self
      then blake2s (commitment_bytes validators) else validators_hash validators
  | None => [0]
  end ++
  blake2s (cenc punished_set_codec (store (MacroHeader.next_batch_initial_punished_set self))) ++
  cenc hash_codec (MacroHeader.body_root self).

Definition payload_commitment_root (self : MacroHeader.t) : list Z :=
  blake2s (serialize_payload_commitment self).

Definition interlink_codec : codec (option (list Z)) :=
  option_codec (seq_codec usize_codec hash_codec).

(** [SerializeContent for MacroHeader], for the hash function [H]. *)
Definition macro_header_content (H : list Z -> list Z) (self : MacroHeader.t) : list Z :=
  cenc network_codec (MacroHeader.network self) ++
  be_bytes 2 (MacroHeader.version self) ++
  be_bytes 4 (MacroHeader.block_number self) ++
  be_bytes 4 (MacroHeader.round self) ++
  be_bytes 8 (MacroHeader.timestamp self) ++
  cenc hash_codec (MacroHeader.parent_hash self) ++
  cenc hash_codec (MacroHeader.parent_election_hash self) ++
  H (cenc interlink_codec (MacroHeader.interlink self)) ++
  cenc seed_codec (MacroHeader.seed self) ++
  H (cenc vec_u8_codec (MacroHeader.extra_data self)) ++
  cenc hash_codec (MacroHeader.state_root self) ++
  payload_commitment_root self ++
  cenc hash_codec (MacroHeader.history_root self) ++
  (if V2.DIFF_ROOT_COMMITMENT <=? MacroHeader.version self
   then cenc hash_codec (MacroHeader.diff_root self) else []).

Definition macro_header_hash (self : MacroHeader.t) : Z :=
  match MacroHeader.cached_hash self with
  | Some hash => hash
  | None => blake2b_hash (macro_header_content blake2b self)
  end.

Definition with_cached_hash (hash : option Z) (self : MacroHeader.t) : MacroHeader.t :=
  MacroHeader.mk (MacroHeader.network self) (MacroHeader.version self)
    (MacroHeader.block_number self) (MacroHeader.round self) (MacroHeader.timestamp self)
    (MacroHeader.parent_hash self) (MacroHeader.parent_election_hash self)
    (MacroHeader.interlink self) (MacroHeader.seed self) (MacroHeader.extra_data self)
    (MacroHeader.state_root self) (MacroHeader.body_root self) (MacroHeader.diff_root self)
    (MacroHeader.history_root self) (MacroHeader.validators self)
    (MacroHeader.next_batch_initial_punished_set self) hash.
Definition macro_header_hash_cached (self : MacroHeader.t) : Z * MacroHeader.t :=
  let hash := macro_header_hash self in (hash, with_cached_hash (Some hash) self).

(** [MacroBlock::hash_blake2s]: never cached. *)
Definition hash_blake2s (self : MacroBlock) : Z :=
  blake2s_hash (macro_header_content blake2s (ma_header self)).

Definition reward_codec : codec (Z * (Z * Z)) :=
  pair_codec address_codec (pair_codec address_codec coin_codec).
Definition macro_body_content (H : list Z -> list Z) (self : MacroBody) : list Z :=
  H (cenc (seq_codec usize_codec reward_codec)
       ((fun tx => (rt_validator_address tx, (rt_recipient tx, rt_value tx)))
          <$> mab_transactions self)).
Definition macro_body_hash (self : MacroBody) : Z := blake2s_hash (macro_body_content blake2s self).

(** ** Signed messages ([primitives/src/signed.rs], [primitives/src/tendermint.rs]) *)

Definition PREFIX_SKIP_BLOCK_INFO : Z := 1.
Definition PREFIX_TENDERMINT_PROPOSAL : Z := 2.
Definition PREFIX_TENDERMINT_PREPARE : Z := 3.
Definition PREFIX_TENDERMINT_COMMIT : Z := 4.
Definition PREFIX_SKIP_BLOCK_WITH_STATE_ROOT_INFO : Z := 7.

(** [TendermintStep] with the discriminants of the [repr(u8)] enum. *)
Inductive TendermintStep := PreVote | PreCommit | Propose.
Definition step_u8 (s : TendermintStep) : Z :=
  match s with
  | PreVote => PREFIX_TENDERMINT_PREPARE
  | PreCommit => PREFIX_TENDERMINT_COMMIT
  | Propose => PREFIX_TENDERMINT_PROPOSAL
  end.

Record TendermintIdentifier := mk_tendermint_id {
  ti_network : NetworkId.t;
  ti_block_number : Z;
  ti_round_number : Z;
  ti_step : TendermintStep;
}.
Record TendermintVote := mk_tendermint_vote {
  tv_proposal_hash : option Z;
  tv_id : TendermintIdentifier;
}.
Record TendermintProposal := mk_tendermint_proposal {
  tpr_proposal : MacroHeader.t;
  tpr_round : Z;
  tpr_valid_round : option Z;
}.

Definition opt_hash_codec : codec (option Z) := option_codec hash_codec.

(** [SerializeContent for TendermintVote] and its hash, which is signed. *)
Definition vote_content (self : TendermintVote) : list Z :=
  step_u8 (ti_step (tv_id self)) ::
  cenc network_codec (ti_network (tv_id self)) ++
  be_bytes 4 (ti_round_number (tv_id self)) ++
  be_bytes 4 (ti_block_number (tv_id self)) ++
  cenc opt_hash_codec (tv_proposal_hash self).
Definition vote_hash (self : TendermintVote) : Z := blake2s_hash (vote_content self).

(** [SerializeContent for TendermintProposal<MacroHeader>] and [TendermintProposal::hash]. *)
Definition proposal_content (self : TendermintProposal) : list Z :=
  step_u8 Propose ::
  macro_header_content blake2s (tpr_proposal self) ++
  cenc usize_codec (tpr_round self) ++
  cenc (option_codec usize_codec) (tpr_valid_round self).
Definition proposal_hash (self : TendermintProposal) : Z := blake2s_hash (proposal_content self).

Record SkipBlockInfo := mk_skip_block_info {
  sk_network_id : NetworkId.t;
  sk_block_number : Z;
  sk_vrf_entropy : Z;
}.
Definition skip_block_info_content (self : SkipBlockInfo) : list Z :=
  cenc network_codec (sk_network_id self) ++
  cenc usize_codec (sk_block_number self) ++
  cenc hash_codec (sk_vrf_entropy self).

(** The bytes [hash_with_prefix] hashes for the two skip block messages, and
    [SkipBlockInfo::signing_hash]. *)
Definition skip_message (self : SkipBlockInfo) (state_root : option Z) : list Z :=
  match state_root with
  | None => PREFIX_SKIP_BLOCK_INFO :: skip_block_info_content self
  | Some state_root =>
      PREFIX_SKIP_BLOCK_WITH_STATE_ROOT_INFO ::
      skip_block_info_content self ++ cenc hash_codec state_root
  end.
Definition skip_signing_hash (self : SkipBlockInfo) (state_root protocol_version : Z) : Z :=
  blake2s_hash (skip_message self
    (if protocol_version <? V2.SKIP_BLOCK_STATE_ROOT_BINDING then None else Some state_root)).

(** What a proof of knowledge signs: the compressed voting key itself, without a prefix. *)
Definition possession_content (voting_key : Z) : list Z := be_bytes 285 voting_key.
End Hashing.

(** ** What a hash binds *)

(** The ranges of the fields, which deserialization guarantees. *)
Definition fits (n : nat) (x : Z) : Prop := 0 <= x < 256 ^ Z.of_nat n.

Record micro_typed (h : MicroHeader.t) : Prop := {
  mit_version : fits 2 (MicroHeader.version h);
  mit_block_number : fits 4 (MicroHeader.block_number h);
  mit_timestamp : fits 8 (MicroHeader.timestamp h);
  mit_parent_hash : fits 32 (MicroHeader.parent_hash h);
  mit_seed : fits 96 (MicroHeader.seed h);
  mit_extra_data : Z.of_nat (length (MicroHeader.extra_data h)) < 2 ^ 64;
  mit_state_root : fits 32 (MicroHeader.state_root h);
  mit_body_root : fits 32 (MicroHeader.body_root h);
  mit_diff_root : fits 32 (MicroHeader.diff_root h);
  mit_history_root : fits 32 (MicroHeader.history_root h);
}.

Record validator_typed (v : SlotValidator) : Prop := {
  vt_address : fits 20 (sv_address v);
  vt_signing_key : fits 32 (sv_signing_key v);
  vt_voting_key : fits 285 (sv_voting_key v);
  vt_start : fits 2 (range_start (sv_slots v));
  vt_end : fits 2 (range_end (sv_slots v));
}.
Definition validators_typed (vs : Validators) : Prop :=
  Forall validator_typed (vs_validators vs) /\ vs = new_validators (vs_validators vs).

Record macro_typed (h : MacroHeader.t) : Prop := {
  mat_version : fits 2 (MacroHeader.version h);
  mat_block_number : fits 4 (MacroHeader.block_number h);
  mat_round : fits 4 (MacroHeader.round h);
  mat_timestamp : fits 8 (MacroHeader.timestamp h);
  mat_parent_hash : fits 32 (MacroHeader.parent_hash h);
  mat_parent_election_hash : fits 32 (MacroHeader.parent_election_hash h);
  mat_interlink : forall l, MacroHeader.interlink h = Some l ->
    Forall (fits 32) l /\ Z.of_nat (length l) < 2 ^ 64;
  mat_seed : fits 96 (MacroHeader.seed h);
  mat_extra_data : Z.of_nat (length (MacroHeader.extra_data h)) < 2 ^ 64;
  mat_state_root : fits 32 (MacroHeader.state_root h);
  mat_body_root : fits 32 (MacroHeader.body_root h);
  mat_diff_root : fits 32 (MacroHeader.diff_root h);
  mat_history_root : fits 32 (MacroHeader.history_root h);
  mat_validators : forall vs, MacroHeader.validators h = Some vs -> validators_typed vs;
  mat_punished : wf (MacroHeader.next_batch_initial_punished_set h) /\
    Z.of_nat (length (store (MacroHeader.next_batch_initial_punished_set h))) < 2 ^ 64;
}.

Section Binding.
Context `{BEnv : BlockEnv}.

Lemma fits_usize n x : (n <= 8)%nat -> fits n x -> cvalid usize_codec x.
Proof.
  intros Hn [H0 H1]. apply usize_valid. split; [done|].
  eapply Z.lt_le_trans; [exact H1|]. change (2 ^ 64) with (256 ^ Z.of_nat 8).
  apply Z.pow_le_mono_r; lia.
Qed.
Lemma length_usize {A} (l : list A) :
  Z.of_nat (length l) < 2 ^ 64 -> cvalid usize_codec (Z.of_nat (length l)).
Proof. intros. apply usize_valid. lia. Qed.

(** *** Micro headers *)

Definition micro_codec :=
  pair_codec network_codec (pair_codec usize_codec (pair_codec usize_codec (pair_codec usize_codec
    (pair_codec hash_codec (pair_codec seed_codec (pair_codec vec_u8_codec (pair_codec hash_codec
      (pair_codec hash_codec (pair_codec hash_codec hash_codec))))))))).
Definition micro_fields (h : MicroHeader.t) :=
  (MicroHeader.network h, (MicroHeader.version h, (MicroHeader.block_number h,
    (MicroHeader.timestamp h, (MicroHeader.parent_hash h, (MicroHeader.seed h,
      (MicroHeader.extra_data h, (MicroHeader.state_root h, (MicroHeader.body_root h,
        (MicroHeader.diff_root h, MicroHeader.history_root h)))))))))).

Lemma micro_fields_valid h : micro_typed h -> cvalid micro_codec (micro_fields h).
Proof.
  intros []. unfold micro_codec, micro_fields. cbn [pair_codec cvalid fst snd].
  split_and!; first [apply network_valid | by eapply fits_usize; [|eassumption]; lia
                    | by apply length_usize | assumption].
Qed.

Lemma micro_content_inj h1 h2 :
  micro_typed h1 -> micro_typed h2 -> micro_header_content h1 = micro_header_content h2 ->
  MicroHeader.same h1 h2.
Proof.
  intros H1 H2 He.
  assert (Hf : micro_fields h1 = micro_fields h2).
  { by apply (cenc_inj micro_codec); [apply micro_fields_valid..|]. }
  unfold micro_fields in Hf. unfold MicroHeader.same. by simplify_eq.
Qed.

(** *** Macro headers *)

(** Two different strings among [xs] and [ys] with the same digest. *)
Definition collision (H : list Z -> list Z) (xs ys : list (list Z)) : Prop :=
  exists x y, x ∈ xs /\ y ∈ ys /\ x <> y /\ H x = H y.

Lemma no_collision H xs ys x y :
  x ∈ xs -> y ∈ ys -> H x = H y -> x = y \/ collision H xs ys.
Proof. intros. destruct (decide (x = y)); [by left|]. right. by exists x, y. Qed.

(** The strings hashed on the way to the hash of a header. *)
Definition hashed_strings (H : list Z -> list Z) (h : MacroHeader.t) : list (list Z) :=
  [macro_header_content H h; cenc interlink_codec (MacroHeader.interlink h);
   cenc vec_u8_codec (MacroHeader.extra_data h)].
Definition payload_strings (h : MacroHeader.t) : list (list Z) :=
  [serialize_payload_commitment h;
   cenc punished_set_codec (store (MacroHeader.next_batch_initial_punished_set h));
   match MacroHeader.validators h with Some vs => commitment_bytes vs | None => [] end].

Definition digest_codec : codec (list Z) := array_codec 32.

Definition macro_codec :=
  pair_codec network_codec (pair_codec (be_codec 2) (pair_codec (be_codec 4)
    (pair_codec (be_codec 4) (pair_codec (be_codec 8) (pair_codec hash_codec (pair_codec hash_codec
      (pair_codec digest_codec (pair_codec seed_codec (pair_codec digest_codec
        (pair_codec hash_codec (pair_codec digest_codec hash_codec))))))))))).
Definition macro_fields (H : list Z -> list Z) (h : MacroHeader.t) :=
  (MacroHeader.network h, (MacroHeader.version h, (MacroHeader.block_number h,
    (MacroHeader.round h, (MacroHeader.timestamp h, (MacroHeader.parent_hash h,
      (MacroHeader.parent_election_hash h,
       (H (cenc interlink_codec (MacroHeader.interlink h)), (MacroHeader.seed h,
         (H (cenc vec_u8_codec (MacroHeader.extra_data h)), (MacroHeader.state_root h,
           (payload_commitment_root h, MacroHeader.history_root h)))))))))))).

Lemma macro_content_fields H h :
  macro_header_content H h = cenc macro_codec (macro_fields H h) ++
    (if V2.DIFF_ROOT_COMMITMENT <=? MacroHeader.version h
     then cenc hash_codec (MacroHeader.diff_root h) else []).
Proof.
  unfold macro_header_content. cbn [macro_codec macro_fields pair_codec cenc fst snd].
  by rewrite <-!app_assoc.
Qed.

Definition is_digest (H : list Z -> list Z) : Prop :=
  forall l, length (H l) = 32%nat /\ Forall is_byte (H l).

Lemma macro_fields_valid H h :
  is_digest H -> macro_typed h -> cvalid macro_codec (macro_fields H h).
Proof.
  intros HH []. unfold macro_codec, macro_fields. cbn [pair_codec cvalid fst snd].
  split_and!; first [apply network_valid | apply HH | apply blake2s_bytes | assumption].
Qed.

Lemma interlink_valid h : macro_typed h -> cvalid interlink_codec (MacroHeader.interlink h).
Proof.
  intros Ht. destruct (MacroHeader.interlink h) as [l|] eqn:Hl; [|done].
  destruct (mat_interlink _ Ht l Hl) as [Hf Hn]. split; [by apply length_usize|].
  eapply Forall_impl; [exact Hf|done].
Qed.
Lemma punished_valid h : macro_typed h ->
  cvalid punished_set_codec (store (MacroHeader.next_batch_initial_punished_set h)).
Proof.
  intros Ht. destruct (mat_punished _ Ht) as [[Hw _] Hn]. split; [by apply length_usize|].
  eapply Forall_impl; [exact Hw|]. intros x Hx. apply usize_valid.
  unfold in_width, max_value in Hx. lia.
Qed.

Definition validator_codec :=
  pair_codec (be_codec 20) (pair_codec (be_codec 32) (pair_codec (be_codec 285)
    (pair_codec (be_codec 2) (be_codec 2)))).
Definition validator_fields (v : SlotValidator) :=
  (sv_address v, (sv_signing_key v, (sv_voting_key v,
    (range_start (sv_slots v), range_end (sv_slots v))))).

Lemma validator_fields_inj v1 v2 : validator_fields v1 = validator_fields v2 -> v1 = v2.
Proof. destruct v1 as [? ? ? []], v2 as [? ? ? []]. intros He. by simplify_eq/=. Qed.

Lemma commitment_enc vs :
  commitment_bytes vs = enc_list validator_codec (validator_fields <$> vs_validators vs).
Proof.
  unfold commitment_bytes. induction (vs_validators vs) as [|v l IH]; [done|].
  rewrite !fmap_cons. cbn [concat enc_list]. by rewrite IH.
Qed.

Lemma validator_enc_length l :
  length (enc_list validator_codec l) = (341 * length l)%nat.
Proof.
  induction l as [|v l IH]; [done|]. cbn [enc_list length]. rewrite length_app, IH.
  destruct v as (? & ? & ? & ? & ?). cbn [validator_codec pair_codec cenc fst snd be_codec].
  rewrite !length_app, !be_bytes_length. lia.
Qed.

Lemma commitment_inj vs1 vs2 :
  validators_typed vs1 -> validators_typed vs2 ->
  commitment_bytes vs1 = commitment_bytes vs2 -> vs1 = vs2.
Proof.
  intros [Ht1 Hn1] [Ht2 Hn2] He. rewrite !commitment_enc in He.
  assert (Hv : forall l, Forall validator_typed l ->
                Forall (cvalid validator_codec) (validator_fields <$> l)).
  { intros l Hl. apply Forall_fmap. eapply Forall_impl; [exact Hl|]. by intros v []. }
  assert (Hlen : length (vs_validators vs1) = length (vs_validators vs2)).
  { apply (f_equal length) in He. rewrite !validator_enc_length, !length_fmap in He. lia. }
  assert (Hf : validator_fields <$> vs_validators vs1 = validator_fields <$> vs_validators vs2).
  { apply (f_equal (fun l => dec_list validator_codec (length (vs_validators vs1)) (l ++ []))) in He.
    rewrite <-(length_fmap validator_fields) in He at 1. rewrite dec_enc_list in He by auto.
    rewrite Hlen, <-(length_fmap validator_fields), dec_enc_list in He by auto. by simplify_eq. }
  rewrite Hn1, Hn2. f_equal. eapply list_fmap_eq_inj; [|exact Hf]. exact validator_fields_inj.
Qed.

(** *** The payload of a version 2 header *)

Definition validators_part (h : MacroHeader.t) : list Z :=
  match MacroHeader.validators h with Some vs => blake2s (commitment_bytes vs) | None => [0] end.

Lemma payload_v2 h : V2.VERSION <= MacroHeader.version h ->
  serialize_payload_commitment h = validators_part h ++
    blake2s (cenc punished_set_codec (store (MacroHeader.next_batch_initial_punished_set h))) ++
    cenc hash_codec (MacroHeader.body_root h).
Proof.
  intros Hv. unfold serialize_payload_commitment, validators_part, V2.ELECTION_VALIDATOR_METADATA_COMMITMENT.
  by destruct (Z.leb_spec V2.VERSION (MacroHeader.version h)); [|lia].
Qed.

Lemma validators_part_length h :
  length (validators_part h) =
    match MacroHeader.validators h with Some _ => 32%nat | None => 1%nat end.
Proof. unfold validators_part. by destruct (MacroHeader.validators h); [apply blake2s_bytes|]. Qed.

Lemma hash_codec_length x : length (cenc hash_codec x) = 32%nat.
Proof. apply be_bytes_length. Qed.

Lemma payload_parts h1 h2 :
  macro_typed h1 -> macro_typed h2 -> V2.VERSION <= MacroHeader.version h1 ->
  V2.VERSION <= MacroHeader.version h2 ->
  serialize_payload_commitment h1 = serialize_payload_commitment h2 ->
  validators_part h1 = validators_part h2 /\
  (is_Some (MacroHeader.validators h1) <-> is_Some (MacroHeader.validators h2)) /\
  blake2s (cenc punished_set_codec (store (MacroHeader.next_batch_initial_punished_set h1))) =
  blake2s (cenc punished_set_codec (store (MacroHeader.next_batch_initial_punished_set h2))) /\
  MacroHeader.body_root h1 = MacroHeader.body_root h2.
Proof.
  intros Ht1 Ht2 Hv1 Hv2 He. rewrite !payload_v2 in He by done.
  assert (Hl : length (validators_part h1) = length (validators_part h2)).
  { apply (f_equal length) in He. rewrite !length_app, !hash_codec_length in He.
    destruct (blake2s_bytes (cenc punished_set_codec
      (store (MacroHeader.next_batch_initial_punished_set h1)))) as [Hp1 _].
    destruct (blake2s_bytes (cenc punished_set_codec
      (store (MacroHeader.next_batch_initial_punished_set h2)))) as [Hp2 _]. lia. }
  pose proof Hl as Hl'. rewrite !validators_part_length in Hl'.
  apply app_inj_1 in He as [Hvp He]; [|done].
  apply app_inj_1 in He as [Hp Hb];
    [|by rewrite !(proj1 (blake2s_bytes _))].
  split_and!; [done| |done|by apply (be_bytes_inj 32); [apply Ht1|apply Ht2|]].
  destruct (MacroHeader.validators h1), (MacroHeader.validators h2); try lia;
    split; by intros [].
Qed.

(** The payload root binds the validators, the punished set and the body root. *)
Lemma payload_binds h1 h2 :
  macro_typed h1 -> macro_typed h2 -> V2.VERSION <= MacroHeader.version h1 ->
  V2.VERSION <= MacroHeader.version h2 ->
  payload_commitment_root h1 = payload_commitment_root h2 ->
  (MacroHeader.validators h1 = MacroHeader.validators h2 /\
   MacroHeader.next_batch_initial_punished_set h1 = MacroHeader.next_batch_initial_punished_set h2 /\
   MacroHeader.body_root h1 = MacroHeader.body_root h2) \/
  collision blake2s (payload_strings h1) (payload_strings h2).
Proof.
  intros Ht1 Ht2 Hv1 Hv2 He. unfold payload_commitment_root in He.
  destruct (no_collision blake2s (payload_strings h1) (payload_strings h2) _ _
              ltac:(left) ltac:(left) He) as [Hp|]; [|by right].
  destruct (payload_parts h1 h2 Ht1 Ht2 Hv1 Hv2 Hp) as (Hvs & Hsome & Hpun & Hb).
  destruct (no_collision blake2s (payload_strings h1) (payload_strings h2) _ _
              ltac:(right; left) ltac:(right; left) Hpun) as [Hstore|]; [|by right].
  assert (Hpunished : MacroHeader.next_batch_initial_punished_set h1 =
                      MacroHeader.next_batch_initial_punished_set h2).
  { apply cenc_inj in Hstore; [|by apply punished_valid..].
    destruct (mat_punished _ Ht1) as [[_ Hc1] _], (mat_punished _ Ht2) as [[_ Hc2] _].
    destruct (MacroHeader.next_batch_initial_punished_set h1),
      (MacroHeader.next_batch_initial_punished_set h2). simpl in *. congruence. }
  unfold validators_part in Hvs. pose proof (mat_validators _ Ht1) as Hty1.
  pose proof (mat_validators _ Ht2) as Hty2.
  destruct (MacroHeader.validators h1) as [vs1|] eqn:E1,
    (MacroHeader.validators h2) as [vs2|] eqn:E2.
  - destruct (no_collision blake2s (payload_strings h1) (payload_strings h2)
                (commitment_bytes vs1) (commitment_bytes vs2)) as [Hc|]; [..|done| |by right].
    + unfold payload_strings. rewrite E1. right; right; left.
    + unfold payload_strings. rewrite E2. right; right; left.
    + left. split; [|done]. f_equal. apply commitment_inj; auto.
  - destruct Hsome as [Hs _]. destruct (Hs ltac:(by eexists)) as [? [=]].
  - destruct Hsome as [_ Hs]. destruct (Hs ltac:(by eexists)) as [? [=]].
  - by left.
Qed.

(** A version 2 hash binds the whole header. *)
Lemma content_binds H h1 h2 :
  is_digest H -> macro_typed h1 -> macro_typed h2 -> V2.VERSION <= MacroHeader.version h1 ->
  H (macro_header_content H h1) = H (macro_header_content H h2) ->
  MacroHeader.same h1 h2 \/ collision H (hashed_strings H h1) (hashed_strings H h2) \/
  collision blake2s (payload_strings h1) (payload_strings h2).
Proof.
  intros HH Ht1 Ht2 Hv He.
  destruct (no_collision H (hashed_strings H h1) (hashed_strings H h2) _ _
              ltac:(left) ltac:(left) He) as [Hc|]; [|by right; left].
  rewrite !macro_content_fields in Hc.
  apply cenc_inj_app in Hc as [Hf Hd]; [|by apply macro_fields_valid..].
  unfold macro_fields in Hf. simplify_eq.
  match goal with Hx : MacroHeader.version h1 = _ |- _ => rename Hx into Hver end.
  match goal with Hx : payload_commitment_root h1 = _ |- _ => rename Hx into Hpay end.
  match goal with Hx : H (cenc interlink_codec _) = _ |- _ => rename Hx into Hint end.
  match goal with Hx : H (cenc vec_u8_codec _) = _ |- _ => rename Hx into Hext end.
  destruct (payload_binds h1 h2) as [(Hvs & Hpun & Hb)|]; [done|done|done|lia|done| |by right; right].
  destruct (no_collision H (hashed_strings H h1) (hashed_strings H h2) _ _
              ltac:(right; left) ltac:(right; left) Hint) as [Hint'|]; [|by right; left].
  destruct (no_collision H (hashed_strings H h1) (hashed_strings H h2) _ _
              ltac:(right; right; left) ltac:(right; right; left) Hext) as [Hext'|]; [|by right; left].
  apply cenc_inj in Hint'; [|by apply interlink_valid..].
  apply cenc_inj in Hext'; [|by apply length_usize; apply mat_extra_data..].
  rewrite <-Hver in Hd. unfold V2.DIFF_ROOT_COMMITMENT in Hd.
  rewrite (proj2 (Z.leb_le _ _) Hv) in Hd.
  apply (be_bytes_inj 32) in Hd; [|by apply mat_diff_root..].
  left. unfold MacroHeader.same. split_and!; done.
Qed.

(** Digests are determined by their value. *)
Lemma digest_value_inj (H : list Z -> list Z) x y :
  is_digest H -> be_value (H x) = be_value (H y) -> H x = H y.
Proof.
  intros HH He. destruct (HH x) as [Hlx Hx], (HH y) as [Hly Hy].
  rewrite <-(be_bytes_value (H x)), <-(be_bytes_value (H y)) by done. by rewrite Hlx, Hly, He.
Qed.

(** A cached hash is the hash. *)
Definition cache_ok (h : MacroHeader.t) : Prop :=
  forall c, MacroHeader.cached_hash h = Some c -> c = blake2b_hash (macro_header_content blake2b h).

Lemma macro_header_hash_eq h :
  cache_ok h -> macro_header_hash h = blake2b_hash (macro_header_content blake2b h).
Proof.
  unfold cache_ok, macro_header_hash. intros Hc.
  destruct (MacroHeader.cached_hash h) as [c|]; [by apply Hc|done].
Qed.

Lemma hash_of_cached h : macro_header_hash (macro_header_hash_cached h).2 = macro_header_hash h.
Proof. done. Qed.
Lemma hash_cached_ok h : cache_ok h -> cache_ok (macro_header_hash_cached h).2.
Proof. intros Hc c [= <-]. cbn. by rewrite macro_header_hash_eq. Qed.

(** *** Signed messages *)

(** What validators sign with their voting key: votes of both steps, skip blocks and the
    proof of knowledge of the key.  (Proposals are signed with the signing key.) *)
Inductive ValidatorMessage :=
  | VoteMessage (vote : TendermintVote)
  | SkipMessage (info : SkipBlockInfo) (state_root : option Z)
  | PossessionMessage (voting_key : Z).
Definition message_bytes (m : ValidatorMessage) : list Z :=
  match m with
  | VoteMessage vote => vote_content vote
  | SkipMessage info state_root => skip_message info state_root
  | PossessionMessage voting_key => possession_content voting_key
  end.
Definition message_typed (m : ValidatorMessage) : Prop :=
  match m with
  | VoteMessage vote =>
      fits 4 (ti_round_number (tv_id vote)) /\ fits 4 (ti_block_number (tv_id vote)) /\
      (forall h, tv_proposal_hash vote = Some h -> fits 32 h)
  | SkipMessage info state_root =>
      fits 4 (sk_block_number info) /\ fits 32 (sk_vrf_entropy info) /\
      (forall r, state_root = Some r -> fits 32 r)
  | PossessionMessage voting_key => fits 285 voting_key
  end.

Lemma cons_split (x y : Z) l k : x :: l = y :: k -> x = y /\ l = k.
Proof. by intros [= -> ->]. Qed.

Lemma vote_content_inj v1 v2 :
  message_typed (VoteMessage v1) -> message_typed (VoteMessage v2) ->
  vote_content v1 = vote_content v2 -> v1 = v2.
Proof.
  destruct v1 as [p1 [n1 b1 r1 s1]], v2 as [p2 [n2 b2 r2 s2]].
  intros (Hr1 & Hb1 & Hp1) (Hr2 & Hb2 & Hp2) He. apply cons_split in He as [Hs He].
  cbn [tv_id tv_proposal_hash ti_round_number ti_block_number ti_network ti_step] in *.
  apply (cenc_inj_app network_codec) in He as [-> He]; [|apply network_valid..].
  apply (cenc_inj_app (be_codec 4)) in He as [-> He]; [|done..].
  apply (cenc_inj_app (be_codec 4)) in He as [-> He]; [|done..].
  apply (cenc_inj opt_hash_codec) in He as ->; [|destruct p1; [by apply Hp1|done]|destruct p2; [by apply Hp2|done]].
  by destruct s1, s2.
Qed.

Lemma skip_info_inj_app i1 i2 r1 r2 :
  fits 4 (sk_block_number i1) /\ fits 32 (sk_vrf_entropy i1) ->
  fits 4 (sk_block_number i2) /\ fits 32 (sk_vrf_entropy i2) ->
  skip_block_info_content i1 ++ r1 = skip_block_info_content i2 ++ r2 -> i1 = i2 /\ r1 = r2.
Proof.
  destruct i1 as [n1 b1 e1], i2 as [n2 b2 e2]. unfold skip_block_info_content. simpl.
  intros [Hb1 He1] [Hb2 He2] He. rewrite <-!app_assoc in He.
  apply (cenc_inj_app network_codec) in He as [-> He]; [|apply network_valid..].
  apply (cenc_inj_app usize_codec) in He as [-> He];
    [|by apply (fits_usize 4); [lia|]..].
  by apply (cenc_inj_app hash_codec) in He as [-> He].
Qed.

(** Integers have short encodings, as the variable-length integers of the serializer do. *)
Definition usize_short : Prop := forall n, fits 4 n -> (length (cenc usize_codec n) <= 10)%nat.

(** A proof of knowledge is longer than every other message. *)
Lemma message_length m : usize_short -> message_typed m ->
  match m with
  | PossessionMessage _ => length (message_bytes m) = 285%nat
  | _ => (length (message_bytes m) < 285)%nat
  end.
Proof.
  intros Hs. assert (Hn : forall n, length (cenc network_codec n) = 1%nat) by by intros [].
  assert (Hh : forall h, length (cenc hash_codec h) = 32%nat) by (intros h; apply be_bytes_length).
  destruct m as [v|i o|k]; cbn [message_bytes message_typed].
  - intros _. unfold vote_content. cbn [length]. rewrite !length_app, Hn, !be_bytes_length.
    destruct (tv_proposal_hash v); cbn [cenc opt_hash_codec option_codec length]; rewrite ?Hh; lia.
  - intros (Hb & _ & _). specialize (Hs _ Hb).
    assert (length (skip_block_info_content i) <= 43)%nat
      by (unfold skip_block_info_content; rewrite !length_app, Hn, Hh; lia).
    destruct o; cbn [skip_message length]; rewrite ?length_app, ?Hh; lia.
  - intros _. apply be_bytes_length.
Qed.

Lemma message_bytes_inj m1 m2 : usize_short ->
  message_typed m1 -> message_typed m2 -> message_bytes m1 = message_bytes m2 -> m1 = m2.
Proof.
  intros Hs H1 H2 He. pose proof (message_length m1 Hs H1) as L1. pose proof (message_length m2 Hs H2) as L2.
  rewrite He in L1. destruct m1 as [v1|i1 o1|k1], m2 as [v2|i2 o2|k2]; try lia; clear L1 L2.
  - f_equal. by apply vote_content_inj.
  - destruct o2; apply cons_split in He as [Hst _]; by destruct (ti_step (tv_id v1)).
  - destruct o1; apply cons_split in He as [Hst _]; by destruct (ti_step (tv_id v2)).
  - destruct H1 as (Hb1 & He1 & Hr1), H2 as (Hb2 & He2 & Hr2).
    destruct o1 as [r1|], o2 as [r2|]; apply cons_split in He as [Hst He]; try done.
    + apply skip_info_inj_app in He as [-> He]; [|done..].
      apply (be_bytes_inj 32) in He as ->; [done|by apply Hr1|by apply Hr2].
    + rewrite <-(app_nil_r (skip_block_info_content i1)),
        <-(app_nil_r (skip_block_info_content i2)) in He.
      by apply skip_info_inj_app in He as [-> _].
  - f_equal. by apply (be_bytes_inj 285).
Qed.

(** C31: from protocol version 2 on, the hash of a macro header commits to every
    field of it, the elected validators' addresses, keys and slots, the punished
    set and the diff root included: two headers with the same hash are equal, or
    one of the strings hashed on the way is a hash collision. *)
Theorem header_hash_binds h1 h2 :
  macro_typed h1 -> macro_typed h2 -> cache_ok h1 -> cache_ok h2 ->
  V2.VERSION <= MacroHeader.version h1 ->
  macro_header_hash h1 = macro_header_hash h2 ->
  MacroHeader.same h1 h2 \/
  collision blake2b (hashed_strings blake2b h1) (hashed_strings blake2b h2) \/
  collision blake2s (payload_strings h1) (payload_strings h2).
Proof.
  intros Ht1 Ht2 Hc1 Hc2 Hv He. rewrite !macro_header_hash_eq in He by done.
  apply content_binds; [exact blake2b_bytes|done..|].
  apply digest_value_inj; [exact blake2b_bytes|done].
Qed.

(** C32: no two different messages that a validator signs with its voting key (votes of
    either step, skip block votes of either protocol version, the proof of knowledge of
    the key) have the same signed hash, unless their contents are a collision of
    [Blake2s]: a signature cannot be replayed for another height, round, step, network
    or purpose.  The proof of knowledge has no prefix and is told apart by its length, for
    which encoded integers have to be short ([usize_short]).  Proposals are signed with
    another key, the signing key, and are not among the messages. *)
Theorem signed_messages_distinct m1 m2 :
  usize_short -> message_typed m1 -> message_typed m2 ->
  blake2s_hash (message_bytes m1) = blake2s_hash (message_bytes m2) ->
  m1 = m2 \/ collision blake2s [message_bytes m1] [message_bytes m2].
Proof.
  intros Hs H1 H2 He. apply digest_value_inj in He; [|exact blake2s_bytes].
  destruct (no_collision blake2s [message_bytes m1] [message_bytes m2] _ _
              ltac:(left) ltac:(left) He) as [Hm|]; [left|by right].
  by apply message_bytes_inj.
Qed.
End Binding.

(** ** A concrete environment *)

Module Toy.
Definition digest (k : Z) (l : list Z) : list Z := be_bytes 32 (k * be_value l + Z.of_nat (length l)).
Lemma digest_bytes k l : length (digest k l) = 32%nat /\ Forall is_byte (digest k l).
Proof. split; [apply be_bytes_length|apply be_bytes_bytes]. Qed.
Definition content_env : ContentEnv := {|
  usize_codec := u64_codec;
  usize_valid n Hn := Hn;
  blake2b := digest 3;
|}.
Definition env : BlockEnv := {|
  block_content_env := content_env;
  blake2s := digest 5;
  blake2b_bytes := digest_bytes 3;
  blake2s_bytes := digest_bytes 5;
|}.

(** The same with a hash function that is broken. *)
Definition constant (l : list Z) : list Z := replicate 32 0.
Lemma constant_bytes l : length (constant l) = 32%nat /\ Forall is_byte (constant l).
Proof. by repeat constructor. Qed.
Definition broken_env : BlockEnv := {|
  block_content_env := content_env;
  blake2s := constant;
  blake2b_bytes := digest_bytes 3;
  blake2s_bytes := constant_bytes;
|}.

(** An election header of version 2 with one validator, and its network. *)
Definition validators : Validators := new_validators [mk_slot_validator 17 23 29 (mk_range 0 512)].
Definition header (block_number round : Z) (cached : option Z) : MacroHeader.t :=
  MacroHeader.mk NetworkId.UnitAlbatross 2 block_number round 1000 7 8 (Some [9]) 10 [1; 2]
    11 12 13 14 (Some validators) BitSet.new cached.
End Toy.

Lemma toy_header_typed bn r c : fits 4 bn -> fits 4 r -> macro_typed (Toy.header bn r c).
Proof.
  intros Hb Hr. constructor; try done.
  - intros l [= <-]. split; [|by vm_compute]. by constructor.
  - intros vs [= <-]. split; [|done]. constructor; [|done]. by constructor.
Qed.

Lemma header_hash_binds_witness :
  exists h1 h2, h1 <> h2 /\ MacroHeader.same h1 h2 /\
    (MacroHeader.same h1 h2 \/
     collision (@blake2b Toy.content_env) (hashed_strings (BEnv := Toy.env) (@blake2b Toy.content_env) h1)
       (hashed_strings (BEnv := Toy.env) (@blake2b Toy.content_env) h2) \/
     collision (@blake2s Toy.env) (payload_strings (BEnv := Toy.env) h1)
       (payload_strings (BEnv := Toy.env) h2)).
Proof.
  set (h1 := Toy.header 720 1 None).
  exists h1, (macro_header_hash_cached (BEnv := Toy.env) h1).2. split; [done|]. split; [done|].
  apply (header_hash_binds (BEnv := Toy.env)).
  - by apply toy_header_typed.
  - by apply (toy_header_typed 720 1).
  - done.
  - by apply hash_cached_ok.
  - by vm_compute.
  - symmetry. apply hash_of_cached.
Defined.

(** With the broken hash a precommit and a proof of knowledge have the same hash, and
    the theorem names the collision. *)
Lemma signed_messages_distinct_witness :
  let vote := VoteMessage (mk_tendermint_vote (Some 5) (mk_tendermint_id NetworkId.UnitAlbatross 60 1 PreCommit)) in
  collision (@blake2s Toy.broken_env) [message_bytes (BEnv := Toy.broken_env) vote]
    [message_bytes (BEnv := Toy.broken_env) (PossessionMessage 5)].
Proof.
  intros vote.
  destruct (signed_messages_distinct (BEnv := Toy.broken_env) vote (PossessionMessage 5)) as [He|Hc].
  - intros n _. cbn [usize_codec block_content_env Toy.broken_env Toy.content_env u64_codec be_codec cenc].
    rewrite be_bytes_length. lia.
  - split_and!; [done..|]. by intros h [= <-].
  - done.
  - reflexivity.
  - discriminate He.
  - exact Hc.
Defined.
