(* ===== verification/Bls.v ===== *)
(** * Aggregate signatures

    [bls/src/types/{public_key,secret_key,signature,aggregate_public_key,aggregate_signature}.rs]
    and [keys/src/public_key.rs]: the signatures of votes, skip blocks and
    proposals.  The curve groups, the pairing and [Ed25519] are third-party code:
    a [BlsEnv] has their operations on points, which are kept as numbers, and
    [BlsLaws] what bilinearity of the pairing gives. *)

From S2P Require Import Prelude.

Class BlsEnv := {
  g1_zero : Z;
  g1_add : Z -> Z -> Z;
  g1_mul : Z -> Z -> Z;
  g2_zero : Z;
  g2_generator : Z;
  g2_add : Z -> Z -> Z;
  g2_mul : Z -> Z -> Z;
  (** [e(signature, g2) * e(-hash_curve, public_key)] is one. *)
  pairing_check : Z -> Z -> Z -> bool;
  (** The points of compressed keys and signatures. *)
  uncompress_key : Z -> option Z;
  uncompress_signature_point : Z -> option Z;
  compress_signature_point : Z -> Z;
  (** [Signature::hash_to_g1]. *)
  hash_to_g1 : Z -> Z;
  (** [ed25519_zebra::VerificationKey::verify]. *)
  ed25519_verify : Z -> Z -> list Z -> bool;
}.

Section Bls.
Context `{Bls : BlsEnv}.

(** ** Keys and signatures *)

Definition from_secret (x : Z) : Z := g2_mul x g2_generator.
Definition sign_g1 (x hash_curve : Z) : Z := g1_mul x hash_curve.
Definition sign_hash (x hash : Z) : Z := sign_g1 x (hash_to_g1 hash).

Definition verify_g1 (public_key hash_curve signature : Z) : bool :=
  if public_key =? g2_zero then false else pairing_check signature hash_curve public_key.
Definition verify_hash (public_key hash signature : Z) : bool :=
  verify_g1 public_key (hash_to_g1 hash) signature.

(** [PublicKey::multiply] and [Signature::multiply]. *)
Definition multiply_key (public_key x : Z) : Z := g2_mul x public_key.
Definition multiply_signature (signature x : Z) : Z := g1_mul x signature.

(** ** Aggregation *)

Definition aggregate_public_key_new : Z := g2_zero.
Definition aggregate_key (self key : Z) : Z := g2_add self key.
Definition from_public_keys (public_keys : list Z) : Z := foldl g2_add g2_zero public_keys.

Definition aggregate_signature_new : Z := g1_zero.
Definition aggregate_signature (self sig : Z) : Z := g1_add self sig.
Definition from_signatures (sigs : list Z) : Z := foldl g1_add g1_zero sigs.
Definition merge_into (self other : Z) : Z := g1_add self other.

(** [Ed25519PublicKey::verify]: the all-zero key signs nothing. *)
Definition schnorr_verify (public_key signature : Z) (data : list Z) : bool :=
  if public_key =? 0 then false else ed25519_verify public_key signature data.
End Bls.

(** ** Bilinearity *)

Class BlsLaws (Bls : BlsEnv) := {
  pairing_sign : forall x h, pairing_check (g1_mul x h) h (g2_mul x g2_generator) = true;
  pairing_add : forall s1 s2 h p1 p2,
    pairing_check s1 h p1 = true -> pairing_check s2 h p2 = true ->
    pairing_check (g1_add s1 s2) h (g2_add p1 p2) = true;
  pairing_mul : forall s h p n, pairing_check s h p = true ->
    pairing_check (g1_mul n s) h (g2_mul n p) = true;
  pairing_zero : forall h, pairing_check g1_zero h g2_zero = true;
  uncompress_compress : forall s,
    uncompress_signature_point (compress_signature_point s) = Some s;
}.

Section Aggregates.
Context `{Bls : BlsEnv} `{BL : !BlsLaws Bls}.

Lemma verify_g1_pairing pk h s : pairing_check s h pk = true -> pk <> g2_zero -> verify_g1 pk h s = true.
Proof. intros Hp Hz. unfold verify_g1. by destruct (Z.eqb_spec pk g2_zero). Qed.

Lemma aggregates_pair h l :
  Forall (fun p => pairing_check p.2 h p.1 = true) l ->
  forall pk s, pairing_check s h pk = true ->
  pairing_check (foldl g1_add s (snd <$> l)) h (foldl g2_add pk (fst <$> l)) = true.
Proof.
  induction 1 as [|[pk1 s1] l Hp _ IH]; intros pk s Hs; [done|].
  rewrite !fmap_cons. cbn [foldl fst snd]. apply IH. by apply pairing_add.
Qed.

(** Signers with secret keys [xs], each counted with a number of slots, make an
    aggregate that verifies unless their keys cancel out. *)
Lemma honest_aggregate hash (signers : list (Z * Z)) :
  let keys := (fun p => multiply_key (from_secret p.1) p.2) <$> signers in
  let sigs := (fun p => multiply_signature (sign_hash p.1 hash) p.2) <$> signers in
  from_public_keys keys <> g2_zero ->
  verify_hash (from_public_keys keys) hash (from_signatures sigs) = true.
Proof.
  intros keys sigs Hz. apply verify_g1_pairing; [|done].
  pose proof (aggregates_pair (hash_to_g1 hash)
    ((fun p => (multiply_key (from_secret p.1) p.2, multiply_signature (sign_hash p.1 hash) p.2))
       <$> signers)) as Ha.
  rewrite <-!list_fmap_compose in Ha. apply Ha; [|apply pairing_zero].
  apply Forall_fmap, Forall_forall. intros [x n] _. apply pairing_mul, pairing_sign.
Qed.
End Aggregates.

(** ** A model of the laws: points are their discrete logarithms. *)

Module Linear.
Definition bls : BlsEnv := {|
  g1_zero := 0; g1_add := Z.add; g1_mul := Z.mul; g2_zero := 0; g2_generator := 1; g2_add := Z.add;
  g2_mul := Z.mul; pairing_check s h p := s =? h * p; uncompress_key := Some;
  uncompress_signature_point := Some; compress_signature_point s := s; hash_to_g1 h := h + 1;
  ed25519_verify key signature _ := key =? signature;
|}.

Lemma bls_laws : BlsLaws bls.
Proof. constructor; simpl; intros; rewrite ?Z.eqb_eq in *; subst; first [reflexivity | ring | by rewrite Z.mul_0_r]. Qed.
End Linear.
