(* ===== verification/Equivocation.v ===== *)
(** * Equivocation proofs

    [primitives/block/src/equivocation_proof.rs], [primitives/block/src/multisig.rs] and
    [primitives/transaction/src/equivocation_locator.rs]: proofs that a validator
    signed two blocks, proposals or votes for one place, how they are built and
    verified, and the locators that make one offence punishable once. *)

From S2P Require Import Prelude Policy AccountTypes Codec TxContent Slots Vrf Block Bls.

(** ** Signer sets *)

(** The members of a bit set in increasing order. *)
Definition sorted_set (s : gset Z) : list Z := merge_sort Z.le (elements s).

Lemma elem_of_sorted_set s x : x ∈ sorted_set s <-> x ∈ s.
Proof. unfold sorted_set. by rewrite merge_sort_Permutation, elem_of_elements. Qed.
Lemma sorted_set_NoDup s : NoDup (sorted_set s).
Proof. unfold sorted_set. rewrite merge_sort_Permutation. apply NoDup_elements. Qed.
Lemma sorted_set_length s : length (sorted_set s) = size s.
Proof. unfold sorted_set. by rewrite merge_sort_Permutation. Qed.

Fixpoint check_slots (slots : list Z) : option (list Z) :=
  match slots with
  | [] => Some []
  | slot :: slots =>
      if (SLOTS <=? slot) || (max_value 16 <? slot) then None
      else checked ← check_slots slots; Some (slot :: checked)
  end.
Definition checked_signer_slots (signers : gset Z) : option (list Z) :=
  check_slots (sorted_set signers).

Lemma check_slots_eq l l' : check_slots l = Some l' -> l' = l /\ Forall (fun s => s < SLOTS) l.
Proof.
  revert l'. induction l as [|s l IH]; intros l'; cbn [check_slots]; [by intros [= <-]|].
  destruct (_ || _) eqn:Hb; [done|]. intros (c & Hc & [= <-])%bind_Some.
  apply IH in Hc as [-> Hl]. split; [done|]. constructor; [lia|done].
Qed.
Lemma check_slots_some l : Forall (fun s => s < SLOTS) l -> check_slots l = Some l.
Proof.
  induction 1 as [|s l Hs _ IH]; [done|]. cbn [check_slots]. unfold SLOTS, max_value in *.
  destruct (_ || _) eqn:Hb; [lia|]. by rewrite IH.
Qed.

Lemma checked_signer_slots_some signers slots :
  checked_signer_slots signers = Some slots ->
  slots = sorted_set signers /\ forall s, s ∈ signers -> s < SLOTS.
Proof.
  intros [-> Hl]%check_slots_eq. split; [done|]. intros s Hs. rewrite Forall_forall in Hl.
  apply Hl. by apply elem_of_sorted_set.
Qed.

(** ** Locators *)

Module EquivocationLocator.
Inductive t :=
  | Fork (validator_address block_number : Z)
  | DoubleProposal (validator_address block_number round : Z)
  | DoubleVote (validator_address block_number round : Z) (step : TendermintStep).
End EquivocationLocator.

(** ** Proofs *)

Module EquivocationProofError.
Inductive t :=
  | NetworkMismatch | SlotMismatch | NoOverlap | InvalidJustification
  | InvalidValidatorAddress | SameHeader | WrongOrder.
End EquivocationProofError.

Record ForkProof := mk_fork_proof {
  fp_validator_address : Z;
  fp_header1 : MicroHeader.t;
  fp_header2 : MicroHeader.t;
  fp_justification1 : Z;
  fp_justification2 : Z;
}.
Record DoubleProposalProof := mk_double_proposal_proof {
  dp_validator_address : Z;
  dp_proposal1 : TendermintProposal;
  dp_proposal2 : TendermintProposal;
  dp_justification1 : Z;
  dp_justification2 : Z;
}.
(** The signatures are kept compressed. *)
Record DoubleVoteProof := mk_double_vote_proof {
  dv_validator_address : Z;
  dv_tendermint_id : TendermintIdentifier;
  dv_proposal_hash1 : option Z;
  dv_proposal_hash2 : option Z;
  dv_signature1 : Z;
  dv_signature2 : Z;
  dv_signers1 : gset Z;
  dv_signers2 : gset Z;
}.
Inductive EquivocationProof :=
  | Fork (proof : ForkProof)
  | DoubleProposal (proof : DoubleProposalProof)
  | DoubleVote (proof : DoubleVoteProof).

(** [Ord for Option<Blake2sHash>]: [None] is the least. *)
Definition compare_option (a b : option Z) : comparison :=
  match a, b with
  | None, None => Eq
  | None, Some _ => Lt
  | Some _, None => Gt
  | Some a, Some b => a ?= b
  end.

Definition proof_network (self : EquivocationProof) : NetworkId.t :=
  match self with
  | Fork proof => MicroHeader.network (fp_header1 proof)
  | DoubleProposal proof => MacroHeader.network (tpr_proposal (dp_proposal1 proof))
  | DoubleVote proof => ti_network (dv_tendermint_id proof)
  end.
Definition proof_validator_address (self : EquivocationProof) : Z :=
  match self with
  | Fork proof => fp_validator_address proof
  | DoubleProposal proof => dp_validator_address proof
  | DoubleVote proof => dv_validator_address proof
  end.
Definition proof_block_number (self : EquivocationProof) : Z :=
  match self with
  | Fork proof => MicroHeader.block_number (fp_header1 proof)
  | DoubleProposal proof => MacroHeader.block_number (tpr_proposal (dp_proposal1 proof))
  | DoubleVote proof => ti_block_number (dv_tendermint_id proof)
  end.

Definition locator (self : EquivocationProof) : EquivocationLocator.t :=
  match self with
  | Fork proof =>
      EquivocationLocator.Fork (fp_validator_address proof) (proof_block_number self)
  | DoubleProposal proof =>
      EquivocationLocator.DoubleProposal (dp_validator_address proof) (proof_block_number self)
        (tpr_round (dp_proposal1 proof))
  | DoubleVote proof =>
      EquivocationLocator.DoubleVote (dv_validator_address proof) (proof_block_number self)
        (ti_round_number (dv_tendermint_id proof)) (ti_step (dv_tendermint_id proof))
  end.

Section Proofs.
Context `{P : Policy} `{BEnv : BlockEnv} `{Cv : Curve} `{Bls : BlsEnv}.
#[local] Abbreviation Res := (outcome EquivocationProofError.t).

(** The derived serialization of a locator: the index of the variant, its fields. *)
Definition locator_content (l : EquivocationLocator.t) : list Z :=
  match l with
  | EquivocationLocator.Fork address block_number =>
      cenc usize_codec 0 ++ cenc address_codec address ++ cenc usize_codec block_number
  | EquivocationLocator.DoubleProposal address block_number round =>
      cenc usize_codec 1 ++ cenc address_codec address ++ cenc usize_codec block_number ++
      cenc usize_codec round
  | EquivocationLocator.DoubleVote address block_number round step =>
      cenc usize_codec 2 ++ cenc address_codec address ++ cenc usize_codec block_number ++
      cenc usize_codec round ++ [step_u8 step]
  end.
Definition sort_key (self : EquivocationProof) : Z := blake2b_hash (locator_content (locator self)).

(** ** Construction *)

Definition new_fork_proof (validator_address : Z) (header1 : MicroHeader.t) (justification1 : Z)
    (header2 : MicroHeader.t) (justification2 : Z) : ForkProof :=
  if micro_header_hash header2 <? micro_header_hash header1
  then mk_fork_proof validator_address header2 header1 justification2 justification1
  else mk_fork_proof validator_address header1 header2 justification1 justification2.

Definition new_double_proposal_proof (validator_address : Z) (proposal1 : TendermintProposal)
    (justification1 : Z) (proposal2 : TendermintProposal) (justification2 : Z)
  : DoubleProposalProof :=
  if proposal_hash proposal2 <? proposal_hash proposal1
  then mk_double_proposal_proof validator_address proposal2 proposal1 justification2 justification1
  else mk_double_proposal_proof validator_address proposal1 proposal2 justification1 justification2.

Definition new_double_vote_proof (tendermint_id : TendermintIdentifier) (validator_address : Z)
    (proposal_hash1 : option Z) (signature1 : Z) (signers1 : gset Z)
    (proposal_hash2 : option Z) (signature2 : Z) (signers2 : gset Z) : DoubleVoteProof :=
  match compare_option proposal_hash1 proposal_hash2 with
  | Gt => mk_double_vote_proof validator_address tendermint_id proposal_hash2 proposal_hash1
            (compress_signature_point signature2) (compress_signature_point signature1)
            signers2 signers1
  | _ => mk_double_vote_proof validator_address tendermint_id proposal_hash1 proposal_hash2
           (compress_signature_point signature1) (compress_signature_point signature2)
           signers1 signers2
  end.

(** ** Verification *)

(** The three-way check of the order of two hashes. *)
Definition check_order (c : comparison) : Res unit :=
  match c with
  | Lt => Ok tt
  | Eq => Err EquivocationProofError.SameHeader
  | Gt => Err EquivocationProofError.WrongOrder
  end.

Definition verify_fork_proof (self : ForkProof) (signing_key : Z) : Res unit :=
  let hash1 := micro_header_hash (fp_header1 self) in
  let hash2 := micro_header_hash (fp_header2 self) in
  check_order (hash1 ?= hash2);;
  err_if (negb (bool_decide (MicroHeader.network (fp_header1 self)
                             = MicroHeader.network (fp_header2 self))))
    EquivocationProofError.NetworkMismatch;;
  err_if (negb (schnorr_verify signing_key (fp_justification1 self) (be_bytes 32 hash1))
          || negb (schnorr_verify signing_key (fp_justification2 self) (be_bytes 32 hash2)))
    EquivocationProofError.InvalidJustification;;
  err_if (negb (MicroHeader.block_number (fp_header1 self)
                =? MicroHeader.block_number (fp_header2 self))
          || match try_entropy (MicroHeader.seed (fp_header1 self)),
                   try_entropy (MicroHeader.seed (fp_header2 self)) with
             | Some entropy1, Some entropy2 => negb (entropy1 =? entropy2)
             | _, _ => true
             end)
    EquivocationProofError.SlotMismatch.

Definition verify_double_proposal_proof (self : DoubleProposalProof) (signing_key : Z) : Res unit :=
  let p1 := dp_proposal1 self in
  let p2 := dp_proposal2 self in
  let hash1 := proposal_hash p1 in
  let hash2 := proposal_hash p2 in
  check_order (hash1 ?= hash2);;
  err_if (negb (bool_decide (MacroHeader.network (tpr_proposal p1)
                             = MacroHeader.network (tpr_proposal p2))))
    EquivocationProofError.NetworkMismatch;;
  err_if (negb (MacroHeader.block_number (tpr_proposal p1)
                =? MacroHeader.block_number (tpr_proposal p2))
          || negb (tpr_round p1 =? tpr_round p2))
    EquivocationProofError.SlotMismatch;;
  err_if (negb (schnorr_verify signing_key (dp_justification1 self) (be_bytes 32 hash1))
          || negb (schnorr_verify signing_key (dp_justification2 self) (be_bytes 32 hash2)))
    EquivocationProofError.InvalidJustification.

(** The voting keys of the signers added up, as three verifiers do it: a slot that
    no validator holds panics, a key that does not decompress is [None]. *)
Fixpoint aggregate_slots (validators : Validators) (slots : list Z) (agg_pk : Z)
  : option (option Z) :=
  match slots with
  | [] => Some (Some agg_pk)
  | slot :: slots =>
      validator ← get_validator_by_slot_number validators slot;
      match uncompress_key (sv_voting_key validator) with
      | Some pk => aggregate_slots validators slots (aggregate_key agg_pk pk)
      | None => Some None
      end
  end.

(** The closure [verify] of the double vote verification. *)
Definition verify_votes (validators : Validators) (tendermint_id : TendermintIdentifier)
    (proposal_hash : option Z) (signers : list Z) (signature : Z) : Res unit :=
  let message := mk_tendermint_vote proposal_hash tendermint_id in
  agg_pk ← unwrap (aggregate_slots validators signers aggregate_public_key_new);
  agg_pk ← or_err agg_pk EquivocationProofError.InvalidJustification;
  err_if (negb (verify_hash agg_pk (vote_hash message) signature))
    EquivocationProofError.InvalidJustification.

Definition verify_double_vote_proof (self : DoubleVoteProof) (validators : Validators)
    (validator_slots : Range) : Res unit :=
  checked_signers1 ← or_err (checked_signer_slots (dv_signers1 self))
                       EquivocationProofError.InvalidJustification;
  checked_signers2 ← or_err (checked_signer_slots (dv_signers2 self))
                       EquivocationProofError.InvalidJustification;
  check_order (compare_option (dv_proposal_hash1 self) (dv_proposal_hash2 self));;
  err_if (negb (existsb (fun s => bool_decide (s ∈ checked_signers1)
                                  && bool_decide (s ∈ checked_signers2))
                  (range_list validator_slots)))
    EquivocationProofError.NoOverlap;;
  signature1 ← or_err (uncompress_signature_point (dv_signature1 self))
                 EquivocationProofError.InvalidJustification;
  signature2 ← or_err (uncompress_signature_point (dv_signature2 self))
                 EquivocationProofError.InvalidJustification;
  verify_votes validators (dv_tendermint_id self) (dv_proposal_hash1 self) checked_signers1 signature1;;
  verify_votes validators (dv_tendermint_id self) (dv_proposal_hash2 self) checked_signers2 signature2.

Definition verify_excluding_address_and_network (self : EquivocationProof)
    (validators : Validators) (validator : SlotValidator) : Res unit :=
  match self with
  | Fork proof => verify_fork_proof proof (sv_signing_key validator)
  | DoubleProposal proof => verify_double_proposal_proof proof (sv_signing_key validator)
  | DoubleVote proof => verify_double_vote_proof proof validators (sv_slots validator)
  end.

Definition verify_equivocation (self : EquivocationProof) (network : NetworkId.t)
    (validators : Validators) : Res unit :=
  err_if (negb (bool_decide (network = proof_network self))) EquivocationProofError.NetworkMismatch;;
  validator ← or_err (get_validator_by_address validators (proof_validator_address self))
                EquivocationProofError.InvalidValidatorAddress;
  validator ← unwrap validator;
  verify_excluding_address_and_network self validators validator.

(** [is_valid_at] by the version of the reporting block; [None] is a panic. *)
Definition proof_is_valid_at (self : EquivocationProof) (block_number version : Z) : option bool :=
  last_reportable_block ←
    (if V2.EQUIVOCATION_REPORTING_WINDOW <=? version
     then last_block_of_equivocation_reporting_window (proof_block_number self)
     else Some (last_block_of_collateral_lockup (proof_block_number self)));
  Some ((block_number <=? last_reportable_block)
        && (batch_at (proof_block_number self) <=? batch_at block_number)).

(** ** Offences *)

Definition fork_offence (signing_key : Z) (h1 h2 : MicroHeader.t) (s1 s2 : Z) : Prop :=
  MicroHeader.network h1 = MicroHeader.network h2 /\
  MicroHeader.block_number h1 = MicroHeader.block_number h2 /\
  (exists e, try_entropy (MicroHeader.seed h1) = Some e /\
             try_entropy (MicroHeader.seed h2) = Some e) /\
  schnorr_verify signing_key s1 (be_bytes 32 (micro_header_hash h1)) = true /\
  schnorr_verify signing_key s2 (be_bytes 32 (micro_header_hash h2)) = true.

Definition double_proposal_offence (signing_key : Z) (p1 p2 : TendermintProposal) (s1 s2 : Z) : Prop :=
  MacroHeader.network (tpr_proposal p1) = MacroHeader.network (tpr_proposal p2) /\
  MacroHeader.block_number (tpr_proposal p1) = MacroHeader.block_number (tpr_proposal p2) /\
  tpr_round p1 = tpr_round p2 /\
  schnorr_verify signing_key s1 (be_bytes 32 (proposal_hash p1)) = true /\
  schnorr_verify signing_key s2 (be_bytes 32 (proposal_hash p2)) = true.

(** A signature of all the signers under a vote. *)
Definition votes_signed (validators : Validators) (id : TendermintIdentifier) (h : option Z)
    (signers : gset Z) (signature : Z) : Prop :=
  (forall s, s ∈ signers -> s < SLOTS) /\
  exists agg_pk,
    aggregate_slots validators (sorted_set signers) aggregate_public_key_new = Some (Some agg_pk) /\
    verify_hash agg_pk (vote_hash (mk_tendermint_vote h id)) signature = true.

(** A slot of the range is among both sets of signers. *)
Definition double_vote_offence (validators : Validators) (slots : Range) (id : TendermintIdentifier)
    (h1 h2 : option Z) (sig1 sig2 : Z) (signers1 signers2 : gset Z) : Prop :=
  (exists s, s ∈ range_list slots /\ s ∈ signers1 /\ s ∈ signers2) /\
  votes_signed validators id h1 signers1 sig1 /\ votes_signed validators id h2 signers2 sig2.

Lemma outcome_seq_iff {A} (o : Res unit) (k : Res A) a :
  (o ;; k) = Ok a <-> o = Ok tt /\ k = Ok a.
Proof.
  split; [|by intros [-> ?]]. intros ([] & -> & ?)%outcome_bind_ok. done.
Qed.
Lemma err_if_iff b (e : EquivocationProofError.t) : err_if b e = Ok tt <-> b = false.
Proof. by destruct b. Qed.
Lemma check_order_iff c : check_order c = Ok tt <-> c = Lt.
Proof. by destruct c. Qed.
Lemma or_err_bind_iff {A B} (o : option A) (e : EquivocationProofError.t) (k : A -> Res B) b :
  or_err o e ≫= k = Ok b <-> exists a, o = Some a /\ k a = Ok b.
Proof. destruct o; simpl; [|naive_solver]. split; [eauto|]. by intros (? & [= ->] & ?). Qed.
Lemma unwrap_bind_iff {A B} (o : option A) (k : A -> Res B) b :
  unwrap o ≫= k = Ok b <-> exists a, o = Some a /\ k a = Ok b.
Proof. destruct o; simpl; [|naive_solver]. split; [eauto|]. by intros (? & [= ->] & ?). Qed.

Lemma verify_fork_iff p key :
  verify_fork_proof p key = Ok tt <->
  micro_header_hash (fp_header1 p) < micro_header_hash (fp_header2 p) /\
  fork_offence key (fp_header1 p) (fp_header2 p) (fp_justification1 p) (fp_justification2 p).
Proof.
  unfold verify_fork_proof, fork_offence.
  rewrite !outcome_seq_iff, check_order_iff, !err_if_iff, Z.compare_lt_iff, negb_false_iff,
    bool_decide_eq_true, !orb_false_iff, !negb_false_iff, Z.eqb_eq.
  destruct (try_entropy (MicroHeader.seed (fp_header1 p))) as [e1|],
    (try_entropy (MicroHeader.seed (fp_header2 p))) as [e2|];
    [rewrite negb_false_iff, Z.eqb_eq|..]; naive_solver.
Qed.

Lemma verify_double_proposal_iff p key :
  verify_double_proposal_proof p key = Ok tt <->
  proposal_hash (dp_proposal1 p) < proposal_hash (dp_proposal2 p) /\
  double_proposal_offence key (dp_proposal1 p) (dp_proposal2 p) (dp_justification1 p)
    (dp_justification2 p).
Proof.
  unfold verify_double_proposal_proof, double_proposal_offence.
  rewrite !outcome_seq_iff, check_order_iff, !err_if_iff, Z.compare_lt_iff, negb_false_iff,
    bool_decide_eq_true, !orb_false_iff, !negb_false_iff, !Z.eqb_eq. tauto.
Qed.

Lemma checked_signers_iff signers slots :
  checked_signer_slots signers = Some slots <->
  slots = sorted_set signers /\ forall s, s ∈ signers -> s < SLOTS.
Proof.
  split; [apply checked_signer_slots_some|]. intros [-> Hs]. apply check_slots_some, Forall_forall.
  intros s. rewrite elem_of_sorted_set. apply Hs.
Qed.

Lemma verify_votes_iff validators id h signers sig :
  (forall s, s ∈ signers -> s < SLOTS) ->
  verify_votes validators id h (sorted_set signers) sig = Ok tt <->
  votes_signed validators id h signers sig.
Proof.
  intros Hs. unfold verify_votes, votes_signed. rewrite unwrap_bind_iff.
  setoid_rewrite or_err_bind_iff. setoid_rewrite err_if_iff. setoid_rewrite negb_false_iff.
  naive_solver.
Qed.

Lemma overlap_iff slots (s1 s2 : gset Z) :
  existsb (fun s => bool_decide (s ∈ sorted_set s1) && bool_decide (s ∈ sorted_set s2))
    (range_list slots) = true <->
  exists s, s ∈ range_list slots /\ s ∈ s1 /\ s ∈ s2.
Proof.
  rewrite existsb_exists. setoid_rewrite andb_true_iff. setoid_rewrite bool_decide_eq_true.
  setoid_rewrite elem_of_sorted_set. by setoid_rewrite list_elem_of_In.
Qed.

Lemma verify_double_vote_iff p validators slots :
  verify_double_vote_proof p validators slots = Ok tt <->
  compare_option (dv_proposal_hash1 p) (dv_proposal_hash2 p) = Lt /\
  exists sig1 sig2, uncompress_signature_point (dv_signature1 p) = Some sig1 /\
    uncompress_signature_point (dv_signature2 p) = Some sig2 /\
    double_vote_offence validators slots (dv_tendermint_id p) (dv_proposal_hash1 p)
      (dv_proposal_hash2 p) sig1 sig2 (dv_signers1 p) (dv_signers2 p).
Proof.
  unfold verify_double_vote_proof, double_vote_offence. rewrite or_err_bind_iff. split.
  - intros (l1 & [-> H1]%checked_signers_iff & Hv). apply or_err_bind_iff in Hv as (l2 & Hl2 & Hv).
    apply checked_signers_iff in Hl2 as [-> H2].
    rewrite !outcome_seq_iff, check_order_iff, err_if_iff, negb_false_iff, overlap_iff in Hv.
    destruct Hv as (Ho & Hover & Hv). apply or_err_bind_iff in Hv as (sig1 & Hs1 & Hv).
    apply or_err_bind_iff in Hv as (sig2 & Hs2 & Hv).
    rewrite outcome_seq_iff, !verify_votes_iff in Hv by done. split; [done|]. by exists sig1, sig2.
  - intros (Ho & sig1 & sig2 & Hs1 & Hs2 & Hover & [H1 Hv1] & [H2 Hv2]).
    exists (sorted_set (dv_signers1 p)). split; [by apply checked_signers_iff|].
    apply or_err_bind_iff. exists (sorted_set (dv_signers2 p)).
    split; [by apply checked_signers_iff|].
    rewrite !outcome_seq_iff, check_order_iff, err_if_iff, negb_false_iff, overlap_iff.
    split_and!; [done..|]. rewrite or_err_bind_iff. exists sig1. split; [done|].
    rewrite or_err_bind_iff. exists sig2. split; [done|].
    rewrite outcome_seq_iff, !verify_votes_iff by done. by split.
Qed.

(** ** Built proofs *)

Lemma compare_option_lt_gt a b : compare_option a b = Gt <-> compare_option b a = Lt.
Proof. destruct a, b; simpl; try done. rewrite Z.compare_gt_iff, Z.compare_lt_iff. done. Qed.
Lemma compare_option_eq a b : compare_option a b = Eq -> a = b.
Proof. destruct a, b; simpl; try done. by intros ->%Z.compare_eq_iff. Qed.

Lemma new_fork_verifies key a h1 s1 h2 s2 :
  micro_header_hash h1 <> micro_header_hash h2 -> fork_offence key h1 h2 s1 s2 ->
  verify_fork_proof (new_fork_proof a h1 s1 h2 s2) key = Ok tt.
Proof.
  intros Hne Ho. apply verify_fork_iff. unfold new_fork_proof.
  destruct (Z.ltb_spec (micro_header_hash h2) (micro_header_hash h1)); simpl; split; try lia; [|done].
  destruct Ho as (? & ? & (e & ? & ?) & ? & ?). split_and!; eauto.
Qed.

Lemma new_double_proposal_verifies key a p1 s1 p2 s2 :
  proposal_hash p1 <> proposal_hash p2 -> double_proposal_offence key p1 p2 s1 s2 ->
  verify_double_proposal_proof (new_double_proposal_proof a p1 s1 p2 s2) key = Ok tt.
Proof.
  intros Hne Ho. apply verify_double_proposal_iff. unfold new_double_proposal_proof.
  destruct (Z.ltb_spec (proposal_hash p2) (proposal_hash p1)); simpl; split; try lia; [|done].
  destruct Ho as (? & ? & ? & ? & ?). split_and!; eauto.
Qed.

Lemma new_double_vote_verifies `{!BlsLaws Bls} validators slots id a h1 sig1 signers1 h2 sig2 signers2 :
  h1 <> h2 -> double_vote_offence validators slots id h1 h2 sig1 sig2 signers1 signers2 ->
  verify_double_vote_proof (new_double_vote_proof id a h1 sig1 signers1 h2 sig2 signers2)
    validators slots = Ok tt.
Proof.
  intros Hne ((s & Hs & Hs1 & Hs2) & Hv1 & Hv2). apply verify_double_vote_iff.
  unfold new_double_vote_proof.
  destruct (compare_option h1 h2) eqn:Hc; simpl; [by apply compare_option_eq in Hc| |].
  - split; [done|]. exists sig1, sig2. rewrite !uncompress_compress. split_and!; [done..|].
    split_and!; eauto.
  - split; [by apply compare_option_lt_gt|]. exists sig2, sig1. rewrite !uncompress_compress.
    split_and!; [done..|]. split_and!; eauto.
Qed.

(** Two signed headers, proposals or votes. *)
Inductive Evidence :=
  | ForkEvidence (h1 : MicroHeader.t) (s1 : Z) (h2 : MicroHeader.t) (s2 : Z)
  | ProposalEvidence (p1 : TendermintProposal) (s1 : Z) (p2 : TendermintProposal) (s2 : Z)
  | VoteEvidence (id : TendermintIdentifier) (h1 : option Z) (sig1 : Z) (signers1 : gset Z)
      (h2 : option Z) (sig2 : Z) (signers2 : gset Z).

Definition swap_evidence (ev : Evidence) : Evidence :=
  match ev with
  | ForkEvidence h1 s1 h2 s2 => ForkEvidence h2 s2 h1 s1
  | ProposalEvidence p1 s1 p2 s2 => ProposalEvidence p2 s2 p1 s1
  | VoteEvidence id h1 sig1 signers1 h2 sig2 signers2 =>
      VoteEvidence id h2 sig2 signers2 h1 sig1 signers1
  end.

Definition build_proof (address : Z) (ev : Evidence) : EquivocationProof :=
  match ev with
  | ForkEvidence h1 s1 h2 s2 => Fork (new_fork_proof address h1 s1 h2 s2)
  | ProposalEvidence p1 s1 p2 s2 => DoubleProposal (new_double_proposal_proof address p1 s1 p2 s2)
  | VoteEvidence id h1 sig1 signers1 h2 sig2 signers2 =>
      DoubleVote (new_double_vote_proof id address h1 sig1 signers1 h2 sig2 signers2)
  end.

Definition offends (validators : Validators) (validator : SlotValidator) (network : NetworkId.t)
    (ev : Evidence) : Prop :=
  match ev with
  | ForkEvidence h1 s1 h2 s2 =>
      MicroHeader.network h1 = network /\ micro_header_hash h1 <> micro_header_hash h2 /\
      fork_offence (sv_signing_key validator) h1 h2 s1 s2
  | ProposalEvidence p1 s1 p2 s2 =>
      MacroHeader.network (tpr_proposal p1) = network /\ proposal_hash p1 <> proposal_hash p2 /\
      double_proposal_offence (sv_signing_key validator) p1 p2 s1 s2
  | VoteEvidence id h1 sig1 signers1 h2 sig2 signers2 =>
      ti_network id = network /\ h1 <> h2 /\
      double_vote_offence validators (sv_slots validator) id h1 h2 sig1 sig2 signers1 signers2
  end.

Lemma build_proof_place validators validator network address ev :
  offends validators validator network ev ->
  proof_network (build_proof address ev) = network /\
  locator (build_proof address (swap_evidence ev)) = locator (build_proof address ev).
Proof.
  destruct ev as [h1 s1 h2 s2|p1 s1 p2 s2|id h1 sig1 signers1 h2 sig2 signers2]; simpl.
  - intros (Hn & _ & Hn' & Hb & _). unfold new_fork_proof, locator, proof_network, proof_block_number.
    do 2 destruct (_ <? _); simpl; split; congruence.
  - intros (Hn & _ & Hn' & Hb & Hr & _).
    unfold new_double_proposal_proof, locator, proof_network, proof_block_number.
    do 2 destruct (_ <? _); simpl; split; congruence.
  - intros (Hn & _). unfold new_double_vote_proof, locator, proof_network, proof_block_number.
    by do 2 destruct (compare_option _ _).
Qed.

(** C33: two different headers, proposals or vote hashes for one place that a
    validator signed always convict it ([offends]; headers and proposals are different
    when their hashes are): the proof built from them verifies,
    whichever is given first, and the order of the two does not change the locator
    under which the offence is recorded. *)
Theorem equivocations_are_provable `{!BlsLaws Bls} validators validator network address ev :
  get_validator_by_address validators address = Some (Some validator) ->
  offends validators validator network ev ->
  verify_equivocation (build_proof address ev) network validators = Ok tt /\
  locator (build_proof address (swap_evidence ev)) = locator (build_proof address ev).
Proof.
  intros Ha Ho. destruct (build_proof_place validators validator network address ev Ho) as [Hn Hl].
  split; [|done]. unfold verify_equivocation. rewrite Hn.
  rewrite bool_decide_eq_true_2 by done. cbn [negb err_if mbind outcome_bind].
  assert (proof_validator_address (build_proof address ev) = address) as ->.
  { destruct ev; simpl; unfold new_fork_proof, new_double_proposal_proof, new_double_vote_proof;
      by case_match. }
  rewrite Ha. cbn [or_err unwrap mbind outcome_bind].
  destruct ev; simpl in Ho; destruct Ho as (_ & Hne & Ho).
  - by apply new_fork_verifies.
  - by apply new_double_proposal_verifies.
  - by apply new_double_vote_verifies.
Qed.

(** ** One offence, one locator key *)

Definition locator_typed (l : EquivocationLocator.t) : Prop :=
  match l with
  | EquivocationLocator.Fork a b => fits 20 a /\ fits 4 b
  | EquivocationLocator.DoubleProposal a b r | EquivocationLocator.DoubleVote a b r _ =>
      fits 20 a /\ fits 4 b /\ fits 4 r
  end.

Lemma locator_content_inj l1 l2 :
  locator_typed l1 -> locator_typed l2 -> locator_content l1 = locator_content l2 -> l1 = l2.
Proof.
  assert (H3 : forall n, 0 <= n < 3 -> cvalid usize_codec n) by (intros; apply usize_valid; lia).
  assert (H4 : forall n, fits 4 n -> cvalid usize_codec n) by (intros; by apply (fits_usize 4); [lia|]).
  destruct l1 as [a1 b1|a1 b1 r1|a1 b1 r1 st1], l2 as [a2 b2|a2 b2 r2|a2 b2 r2 st2];
    simpl; intros Ht1 Ht2 He; destruct_and?;
    apply (cenc_inj_app usize_codec) in He as [Hi He]; try (apply H3; lia); try done;
    apply (cenc_inj_app address_codec) in He as [-> He]; try done.
  - apply (cenc_inj usize_codec) in He; auto. by subst.
  - apply (cenc_inj_app usize_codec) in He as [-> He]; auto.
    apply (cenc_inj usize_codec) in He; auto. by subst.
  - apply (cenc_inj_app usize_codec) in He as [-> He]; auto.
    apply (cenc_inj_app usize_codec) in He as [-> He]; auto. by destruct st1, st2.
Qed.
End Proofs.
