(* ===== verification/BlockVerify.v ===== *)
(** * Block verification

    [primitives/block/src/{block,macro_block,micro_block,skip_block,tendermint}.rs]:
    the checks on a block by itself, against its predecessor, its proposer and
    the validators of its epoch. *)

From S2P Require Import Prelude Coin Policy BitSet AccountTypes Codec TxContent Slots Vrf Block.
From S2P Require Import Bls Equivocation.

Module BlockError.
Inductive t :=
  | NetworkMismatch | InvalidBlockType | UnsupportedVersion | InvalidBlockNumber
  | InvalidTimestamp | InvalidParentHash | InvalidParentElectionHash | InvalidInterlink
  | InvalidSeed | ExtraDataTooLarge | BodyHashMismatch | AccountsHashMismatch
  | DiffRootMismatch | InvalidHistoryRoot | SizeExceeded | MissingJustification | MissingBody
  | InvalidForkProof | DuplicateForkProof | ForkProofsNotOrdered | DuplicateTransaction
  | InvalidTransaction | ExpiredTransaction | TransactionExecutionMismatch
  | InvalidJustification | InvalidSkipBlockProof | InvalidValidators | InvalidPunishedSet
  | InvalidRewardTransactions | InvalidVersionUpgrade | InvalidSkipBlockBody
  | TransactionFeeOverflow.
End BlockError.

(** ** Blocks *)

Inductive ExecutedTransaction := TxOk (tx : Transaction) | TxErr (tx : Transaction).
Definition get_raw_transaction (self : ExecutedTransaction) : Transaction :=
  match self with TxOk tx | TxErr tx => tx end.

Record MicroBody := mk_micro_body {
  mib_equivocation_proofs : list EquivocationProof;
  mib_transactions : list ExecutedTransaction;
}.
Definition get_raw_transactions (self : MicroBody) : list Transaction :=
  get_raw_transaction <$> mib_transactions self.

Record MicroBlock := mk_micro_block {
  mi_header : MicroHeader.t;
  mi_justification : option MicroJustification;
  mi_body : option MicroBody;
}.
Definition is_skip_block (self : MicroBlock) : bool :=
  match mi_justification self with Some (Skip _) => true | _ => false end.

Inductive Block := BMacro (block : MacroBlock) | BMicro (block : MicroBlock).

Inductive BlockType := MacroType | MicroType.
#[global] Instance block_type_eq_dec : EqDecision BlockType.
Proof. solve_decision. Defined.

Definition MIN_PRODUCER_TIMEOUT : Z := 4 * 1000.
Definition MAX_SIZE_MICRO_BODY : Z := 100000.

(** The serialization of a body is derived code. *)
Class BodyEnv := { micro_body_bytes : MicroBody -> list Z }.

Section Verify.
Context `{P : Policy} `{BEnv : BlockEnv} `{Cv : Curve} `{Bls : BlsEnv} `{Bd : BodyEnv}.
#[local] Abbreviation Res := (outcome BlockError.t).

(** [BlockType::of]. *)
Definition block_type_of (block_number : Z) : BlockType :=
  if is_macro_block_at block_number then MacroType else MicroType.

Definition ty (self : Block) : BlockType :=
  match self with BMacro _ => MacroType | BMicro _ => MicroType end.
Definition network (self : Block) : NetworkId.t :=
  match self with
  | BMacro block => MacroHeader.network (ma_header block)
  | BMicro block => MicroHeader.network (mi_header block)
  end.
Definition version (self : Block) : Z :=
  match self with
  | BMacro block => MacroHeader.version (ma_header block)
  | BMicro block => MicroHeader.version (mi_header block)
  end.
Definition block_number (self : Block) : Z :=
  match self with
  | BMacro block => MacroHeader.block_number (ma_header block)
  | BMicro block => MicroHeader.block_number (mi_header block)
  end.
Definition timestamp (self : Block) : Z :=
  match self with
  | BMacro block => MacroHeader.timestamp (ma_header block)
  | BMicro block => MicroHeader.timestamp (mi_header block)
  end.
Definition parent_hash (self : Block) : Z :=
  match self with
  | BMacro block => MacroHeader.parent_hash (ma_header block)
  | BMicro block => MicroHeader.parent_hash (mi_header block)
  end.
Definition parent_election_hash (self : Block) : option Z :=
  match self with
  | BMacro block => Some (MacroHeader.parent_election_hash (ma_header block))
  | BMicro _ => None
  end.
Definition seed (self : Block) : Z :=
  match self with
  | BMacro block => MacroHeader.seed (ma_header block)
  | BMicro block => MicroHeader.seed (mi_header block)
  end.
Definition extra_data (self : Block) : list Z :=
  match self with
  | BMacro block => MacroHeader.extra_data (ma_header block)
  | BMicro block => MicroHeader.extra_data (mi_header block)
  end.
Definition body_root (self : Block) : Z :=
  match self with
  | BMacro block => MacroHeader.body_root (ma_header block)
  | BMicro block => MicroHeader.body_root (mi_header block)
  end.
Definition block_hash (self : Block) : Z :=
  match self with
  | BMacro block => macro_header_hash (ma_header block)
  | BMicro block => micro_header_hash (mi_header block)
  end.
(** [Block::vrf_offset]. *)
Definition vrf_offset (self : Block) : Z :=
  match self with
  | BMacro block => MacroHeader.round (ma_header block)
  | BMicro block => MicroHeader.block_number (mi_header block)
  end.
Definition is_skip (self : Block) : bool :=
  match self with BMacro _ => false | BMicro block => is_skip_block block end.
Definition is_macro (self : Block) : bool :=
  match self with BMacro _ => true | BMicro _ => false end.
(** [MacroBlock::is_election] and [Block::is_election]. *)
Definition is_election_macro (self : MacroBlock) : bool :=
  is_election_block_at (MacroHeader.block_number (ma_header self)).
Definition is_election (self : Block) : bool :=
  match self with BMacro block => is_election_macro block | BMicro _ => false end.

(** [Block::sum_transaction_fees]. *)
Fixpoint sum_fees (txs : list ExecutedTransaction) (acc : Z) : Res Z :=
  match txs with
  | [] => Ok acc
  | tx :: txs =>
      acc ← or_err (coin_checked_add acc (tx_fee (get_raw_transaction tx)))
              BlockError.TransactionFeeOverflow;
      sum_fees txs acc
  end.
Definition sum_transaction_fees (self : Block) : Res Z :=
  match self with
  | BMacro _ => Ok 0
  | BMicro block =>
      match mi_body block with
      | Some body => sum_fees (mib_transactions body) 0
      | None => Ok 0
      end
  end.

(** ** Bodies *)

Definition micro_body_hash (self : MicroBody) : Z := blake2s_hash (micro_body_bytes self).
Definition transaction_hash (tx : Transaction) : Z := blake2b_hash (serialize_content tx).

(** The loop over the equivocation proofs of [MicroBody::verify]. *)
Fixpoint check_proofs (proofs : list EquivocationProof) (previous_proof : option EquivocationProof)
    (block_number version : Z) : Res unit :=
  match proofs with
  | [] => Ok tt
  | proof :: proofs =>
      valid ← unwrap (proof_is_valid_at proof block_number version);
      err_if (negb valid) BlockError.InvalidForkProof;;
      match previous_proof with
      | Some previous =>
          match sort_key previous ?= sort_key proof with
          | Eq => Err BlockError.DuplicateForkProof
          | Gt => Err BlockError.ForkProofsNotOrdered
          | Lt => check_proofs proofs (Some proof) block_number version
          end
      | None => check_proofs proofs (Some proof) block_number version
      end
  end.

(** The loop over the transactions. *)
Fixpoint check_transactions (txs : list Transaction) (uniq : gset Z) (block_number : Z) : Res unit :=
  match txs with
  | [] => Ok tt
  | tx :: txs =>
      valid ← unwrap (is_valid_at tx block_number);
      err_if (negb valid) BlockError.ExpiredTransaction;;
      err_if (bool_decide (transaction_hash tx ∈ uniq)) BlockError.DuplicateTransaction;;
      check_transactions txs ({[transaction_hash tx]} ∪ uniq) block_number
  end.

Definition verify_micro_body (self : MicroBody) (is_skip : bool) (block_number version : Z) : Res unit :=
  err_if (MAX_SIZE_MICRO_BODY <? Z.of_nat (length (micro_body_bytes self))) BlockError.SizeExceeded;;
  err_if (is_skip && (negb (bool_decide (length (mib_equivocation_proofs self) = 0%nat))
                      || negb (bool_decide (length (mib_transactions self) = 0%nat))))
    BlockError.InvalidSkipBlockBody;;
  check_proofs (mib_equivocation_proofs self) None block_number version;;
  check_transactions (get_raw_transactions self) ∅ block_number.

(** ** Headers *)

(** [Validators::validate_keys]. *)
Definition validate_keys (self : Validators) : bool :=
  validate_structure self
  && forallb (fun v => match uncompress_key (sv_voting_key v) with Some _ => true | None => false end)
       (vs_validators self).

(** [MacroHeader::verify] and [MacroHeader::verify_voting_keys]. *)
Definition verify_macro_header (self : MacroHeader.t) : Res unit :=
  err_if (negb (Bool.eqb (is_election_block_at (MacroHeader.block_number self))
                  match MacroHeader.validators self with Some _ => true | None => false end))
    BlockError.InvalidValidators;;
  match MacroHeader.validators self with
  | Some validators => err_if (negb (validate_structure validators)) BlockError.InvalidValidators
  | None => Ok tt
  end;;
  err_if (existsb (fun slot => SLOTS <=? slot) (iter (MacroHeader.next_batch_initial_punished_set self)))
    BlockError.InvalidPunishedSet.
Definition verify_voting_keys (self : MacroHeader.t) : Res unit :=
  match MacroHeader.validators self with
  | Some validators => err_if (negb (validate_keys validators)) BlockError.InvalidValidators
  | None => Ok tt
  end.

Definition verify_header (self : Block) (net : NetworkId.t) (is_skip : bool) (max_timestamp : Z)
  : Res unit :=
  err_if (negb (bool_decide (network self = net))) BlockError.NetworkMismatch;;
  err_if (max_timestamp <? timestamp self) BlockError.InvalidTimestamp;;
  err_if (max_supported_version <? version self) BlockError.UnsupportedVersion;;
  err_if (32 <? Z.of_nat (length (extra_data self))) BlockError.ExtraDataTooLarge;;
  err_if (is_skip && negb (bool_decide (length (extra_data self) = 0%nat))) BlockError.ExtraDataTooLarge;;
  match self with
  | BMacro block => verify_macro_header (ma_header block)
  | BMicro _ => Ok tt
  end.

(** [Block::verify]. *)
Definition verify_block (self : Block) (net : NetworkId.t) (max_timestamp : Z) : Res unit :=
  err_if (negb (bool_decide (ty self = block_type_of (block_number self)))) BlockError.InvalidBlockType;;
  verify_header self net (is_skip self) max_timestamp;;
  match self with
  | BMacro block =>
      match ma_body block with
      | Some body =>
          err_if (negb (body_root self =? macro_body_hash body)) BlockError.BodyHashMismatch
      | None => Ok tt
      end
  | BMicro block =>
      match mi_body block with
      | Some body =>
          err_if (negb (body_root self =? micro_body_hash body)) BlockError.BodyHashMismatch;;
          verify_micro_body body (is_skip self) (block_number self)
            (MicroHeader.version (mi_header block))
      | None => Ok tt
      end
  end.

(** ** Successors *)

(** The version only increases in election blocks, by one. *)
Definition wrong_version (self : Block) (previous : Z) : bool :=
  negb (version self =? previous)
  && (negb (is_election self) || negb (version self =? wrap 16 (previous + 1))).

Definition verify_immediate_successor (self predecessor : Block) : Res unit :=
  err_if (negb (block_number self =? wrap 32 (block_number predecessor + 1)))
    BlockError.InvalidBlockNumber;;
  err_if (negb (parent_hash self =? block_hash predecessor)) BlockError.InvalidParentHash;;
  err_if (wrong_version self (version predecessor)) BlockError.UnsupportedVersion;;
  if is_skip self then
    err_if (negb (timestamp self =? wrap 64 (timestamp predecessor + MIN_PRODUCER_TIMEOUT)))
      BlockError.InvalidTimestamp;;
    err_if (negb (seed self =? seed predecessor)) BlockError.InvalidSeed
  else
    err_if (timestamp self <? timestamp predecessor) BlockError.InvalidTimestamp.

Definition verify_macro_successor (self : Block) (predecessor : MacroBlock) : Res unit :=
  err_if (negb (is_macro self)) BlockError.InvalidBlockType;;
  let expected_parent_election_hash :=
    if is_election_macro predecessor then macro_header_hash (ma_header predecessor)
    else MacroHeader.parent_election_hash (ma_header predecessor) in
  parent_election_hash ← unwrap (parent_election_hash self);
  err_if (negb (parent_election_hash =? expected_parent_election_hash))
    BlockError.InvalidParentElectionHash;;
  let predecessor_block := MacroHeader.block_number (ma_header predecessor) in
  err_if ((block_number self <=? predecessor_block)
          || (election_block_after predecessor_block <? block_number self))
    BlockError.InvalidBlockNumber;;
  err_if (wrong_version self (MacroHeader.version (ma_header predecessor)))
    BlockError.UnsupportedVersion;;
  err_if (timestamp self <? MacroHeader.timestamp (ma_header predecessor)) BlockError.InvalidTimestamp.

(** ** Justifications *)

(** [TendermintProof::verify]; [None] is a panic. *)
Definition verify_tendermint_proof (block : MacroBlock) (current_validators : Validators)
  : option bool :=
  match ma_justification block with
  | None => Some false
  | Some justification =>
      match checked_signer_slots (ms_signers (tp_sig justification)) with
      | None => Some false
      | Some signer_slots =>
          if Z.of_nat (length signer_slots) <? TWO_F_PLUS_ONE then Some false
          else
            let message := mk_tendermint_vote (Some (hash_blake2s block))
              (mk_tendermint_id (MacroHeader.network (ma_header block))
                 (MacroHeader.block_number (ma_header block)) (tp_round justification) PreCommit) in
            agg_pk ← aggregate_slots current_validators signer_slots aggregate_public_key_new;
            match agg_pk with
            | Some agg_pk =>
                Some (verify_hash agg_pk (vote_hash message) (ms_signature (tp_sig justification)))
            | None => Some false
            end
      end
  end.

(** [SkipBlockProof::verify]; [None] is a panic. *)
Definition verify_skip_block_proof (self : SkipBlockProof) (skip_block : SkipBlockInfo)
    (state_root protocol_version : Z) (validators : Validators) : option bool :=
  match checked_signer_slots (ms_signers (sp_sig self)) with
  | None => Some false
  | Some signer_slots =>
      if Z.of_nat (length signer_slots) <? TWO_F_PLUS_ONE then Some false
      else
        agg_pk ← aggregate_slots validators signer_slots aggregate_public_key_new;
        match agg_pk with
        | Some agg_pk =>
            Some (verify_hash agg_pk (skip_signing_hash skip_block state_root protocol_version)
                    (ms_signature (sp_sig self)))
        | None => Some false
        end
  end.

(** [MicroBlock::verify_proposer] and [MicroBlock::verify_validators]. *)
Definition verify_micro_proposer (self : MicroBlock) (signing_key : Z) : Res unit :=
  justification ← or_err (mi_justification self) BlockError.MissingJustification;
  match justification with
  | Micro signature =>
      err_if (negb (schnorr_verify signing_key signature
                      (be_bytes 32 (micro_header_hash (mi_header self)))))
        BlockError.InvalidJustification
  | Skip _ => Ok tt
  end.
Definition verify_micro_validators (self : MicroBlock) (validators : Validators) : Res unit :=
  justification ← or_err (mi_justification self) BlockError.MissingJustification;
  match justification with
  | Skip proof =>
      entropy ← unwrap (try_entropy (MicroHeader.seed (mi_header self)));
      let skip_block := mk_skip_block_info (MicroHeader.network (mi_header self))
        (MicroHeader.block_number (mi_header self)) entropy in
      valid ← unwrap (verify_skip_block_proof proof skip_block
                        (MicroHeader.state_root (mi_header self))
                        (MicroHeader.version (mi_header self)) validators);
      err_if (negb valid) BlockError.InvalidSkipBlockProof
  | Micro _ => Ok tt
  end.
(** [MacroBlock::verify_validators]. *)
Definition verify_macro_validators (self : MacroBlock) (validators : Validators) : Res unit :=
  valid ← unwrap (verify_tendermint_proof self validators);
  err_if (negb valid) BlockError.InvalidJustification;;
  verify_voting_keys (ma_header self).

(** [Block::verify_proposer] and [Block::verify_validators]. *)
Definition verify_proposer (self : Block) (signing_key prev_seed : Z) : Res unit :=
  (if is_skip self then err_if (negb (seed self =? prev_seed)) BlockError.InvalidSeed
   else match Vrf.verify (seed self) prev_seed signing_key (block_number self) with
        | Ok _ => Ok tt
        | Err _ => Err BlockError.InvalidSeed
        | Panic => Panic
        end);;
  match self with
  | BMicro block => verify_micro_proposer block signing_key
  | BMacro _ => Ok tt
  end.
Definition verify_validators (self : Block) (validators : Validators) : Res unit :=
  match self with
  | BMicro block => verify_micro_validators block validators
  | BMacro block => verify_macro_validators block validators
  end.
End Verify.
