(* ===== verification/LightChain.v ===== *)
(** * The light blockchain

    [light-blockchain/src/{chain_store,blockchain,push,sync,abstract_blockchain}.rs] and what it
    shares with the full node in
    [blockchain-interface/src/{chain_info,chain_ordering,abstract_blockchain,error}.rs]: a store
    of headers by hash and by height, the choice between branches, and the
    operations that push blocks.  A [HashMap] is a [gmap]; the events sent to
    the notifiers are recorded in the state. *)

From S2P Require Import Prelude Coin Policy BitSet AccountTypes Codec TxContent Discrete Slots.
From S2P Require Import Vrf Block Bls Equivocation BlockVerify.

(** ** Errors and events ([error.rs]) *)

Module BlockchainError.
Inductive t :=
  | InconsistentState | BlockNotFound (height : Z) | BlockNotFoundByHash (hash : Z)
  | BlockBodyNotFound | BlockIsNotMacro | NoValidatorsFound | InvalidEpoch.
End BlockchainError.

Module PushError.
Inductive t :=
  | Orphan
  | InvalidBlock (error : BlockError.t)
  | InvalidFork
  | Blockchain (error : BlockchainError.t).
End PushError.

Inductive PushResult := Known | Extended | Rebranched | Forked | Ignored.

Module BlockchainEvent.
Inductive t :=
  | Extended (hash : Z)
  | HistoryAdopted (hash : Z)
  | Rebranched (first second : list (Z * Block))
  | Stored (block : Block)
  | Finalized (hash : Z)
  | EpochFinalized (hash : Z)
  | ProtocolUpgrade (hash version : Z).
End BlockchainEvent.

(** ** Chain infos *)

(** [ChainInfo]; the missing range of the accounts is always [None] here. *)
Record ChainInfo := mk_chain_info {
  ci_head : Block;
  on_main_chain : bool;
  main_chain_successor : option Z;
  cum_tx_fees : Z;
  cum_hist_tx_size : Z;
  history_tree_len : Z;
  prunable : bool;
}.
Definition set_main_chain (b : bool) (successor : option Z) (ci : ChainInfo) : ChainInfo :=
  mk_chain_info (ci_head ci) b successor (cum_tx_fees ci) (cum_hist_tx_size ci)
    (history_tree_len ci) (prunable ci).
Definition set_head (head : Block) (ci : ChainInfo) : ChainInfo :=
  mk_chain_info head (on_main_chain ci) (main_chain_successor ci) (cum_tx_fees ci)
    (cum_hist_tx_size ci) (history_tree_len ci) (prunable ci).

Record ChainStore := mk_chain_store {
  chain_db : gmap Z ChainInfo;
  height_idx : gmap Z (list Z);
  election_db : gmap Z MacroHeader.t;
}.
Definition default_store : ChainStore := mk_chain_store ∅ ∅ ∅.

Definition has_body (self : Block) : bool :=
  match self with
  | BMacro block => match ma_body block with Some _ => true | None => false end
  | BMicro block => match mi_body block with Some _ => true | None => false end
  end.
(** The block without its body. *)
Definition strip_body (self : Block) : Block :=
  match self with
  | BMacro block => BMacro (mk_macro_block (ma_header block) None (ma_justification block))
  | BMicro block => BMicro (mk_micro_block (mi_header block) (mi_justification block) None)
  end.
(** The part of a block that the store keeps. *)
Definition stored_part (self : Block) : Block :=
  match self with
  | BMacro block => BMacro (mk_macro_block (ma_header block) None None)
  | BMicro block => BMicro (mk_micro_block (mi_header block) (mi_justification block) None)
  end.

Inductive Direction := Forward | Backward.

(** The number of draws that rejection sampling may take. *)
Class SlotEnv := { draw_fuel : nat }.

Record LightBlockchain := mk_light {
  lb_network_id : NetworkId.t;
  lb_head : Block;
  lb_macro_head : MacroBlock;
  lb_election_head : MacroBlock;
  lb_current_validators : option Validators;
  lb_genesis_block : Block;
  lb_chain_store : ChainStore;
  lb_events : list BlockchainEvent.t;
  lb_fork_events : list ForkProof;
}.

Section Store.
Context `{P : Policy} `{BEnv : BlockEnv}.
#[local] Abbreviation Res := (outcome BlockchainError.t).

(** [Block::hash_cached]: the hash, and the block that remembers it. *)
Definition block_hash_cached (self : Block) : Z * Block :=
  match self with
  | BMacro block =>
      let '(hash, header) := macro_header_hash_cached (ma_header block) in
      (hash, BMacro (mk_macro_block header (ma_body block) (ma_justification block)))
  | BMicro block =>
      let '(hash, header) := micro_header_hash_cached (mi_header block) in
      (hash, BMicro (mk_micro_block header (mi_justification block) (mi_body block)))
  end.

(** [ChainInfo::new] and [ChainInfo::from_block]. *)
Definition chain_info_new (head : Block) (on_main_chain : bool) : ChainInfo :=
  mk_chain_info head on_main_chain None 0 0 0 (negb (is_election head)).
Definition chain_info_from_block (block : Block) (prev_info : ChainInfo)
  : outcome BlockError.t ChainInfo :=
  if negb (block_number (ci_head prev_info) =? wrap 32 (block_number block - 1)) then Panic
  else
    block_fees ← sum_transaction_fees block;
    cum_tx_fees ←
      (if is_macro_block_at (block_number (ci_head prev_info)) then Ok block_fees
       else or_err (coin_checked_add (cum_tx_fees prev_info) block_fees)
              BlockError.TransactionFeeOverflow);
    Ok (mk_chain_info block false None cum_tx_fees 0 0 (negb (is_election block))).

(** [ChainInfo::set_cumulative_hist_tx_size]. *)
Definition HISTORY_CHUNKS_MAX_SIZE : Z := 25 * 1024 * 1024.
Definition set_cumulative_hist_tx_size (self prev_info : ChainInfo) (block_hist_tx_size : Z)
  : ChainInfo :=
  let prev := block_number (ci_head prev_info) in
  let set size prunable :=
    mk_chain_info (ci_head self) (on_main_chain self) (main_chain_successor self)
      (cum_tx_fees self) size (history_tree_len self) prunable in
  let sum := wrap 64 (cum_hist_tx_size prev_info + block_hist_tx_size) in
  if is_election_block_at prev || (is_macro_block_at prev && negb (prunable prev_info))
  then set block_hist_tx_size true
  else if is_macro_block_at (block_number (ci_head self)) && (HISTORY_CHUNKS_MAX_SIZE <? sum)
  then set sum false
  else set sum true.

(** ** The chain store ([chain_store.rs]) *)

Definition get_chain_info (self : ChainStore) (hash : Z) (include_body : bool) : Res ChainInfo :=
  chain_info ← or_err (chain_db self !! hash) (BlockchainError.BlockNotFoundByHash hash);
  if include_body && negb (has_body (ci_head chain_info)) then Err BlockchainError.BlockBodyNotFound
  else Ok chain_info.

Definition get_block_hashes (self : ChainStore) (block_number : Z) : option (list Z) :=
  height_idx self !! block_number.

(** The loop of [get_chain_info_at]. *)
Fixpoint find_main_chain (self : ChainStore) (hashes : list Z) (block_height : Z)
    (include_body : bool) : Res ChainInfo :=
  match hashes with
  | [] => Err (BlockchainError.BlockNotFound block_height)
  | hash :: hashes =>
      chain_info ← get_chain_info self hash include_body;
      if on_main_chain chain_info then Ok chain_info
      else find_main_chain self hashes block_height include_body
  end.
Definition get_chain_info_at (self : ChainStore) (block_height : Z) (include_body : bool)
  : Res ChainInfo :=
  block_hashes ← or_err (get_block_hashes self block_height)
                   (BlockchainError.BlockNotFound block_height);
  find_main_chain self block_hashes block_height include_body.

Definition put_chain_info (chain_info : ChainInfo) (self : ChainStore) : ChainStore :=
  let '(hash, head) := block_hash_cached (ci_head chain_info) in
  let head := stored_part head in
  mk_chain_store (<[hash := set_head head chain_info]> (chain_db self))
    (match chain_db self !! hash with
     | Some _ => height_idx self
     | None => <[block_number head := default [] (height_idx self !! block_number head) ++ [hash]]>
                 (height_idx self)
     end)
    (election_db self).

Definition get_election (self : ChainStore) (epoch_number : Z) : option MacroHeader.t :=
  election_db self !! epoch_number.
Definition put_election (header : MacroHeader.t) (self : ChainStore) : ChainStore :=
  mk_chain_store (chain_db self) (height_idx self)
    (<[epoch_at (MacroHeader.block_number header) := header]> (election_db self)).

(** The closure of [clear_old_blocks]. *)
Definition should_retain_block (current_block block_number : Z) : bool :=
  if is_election_block_at block_number
  then wrap 32 (current_block - block_number) <=? blocks_per_epoch
  else wrap 32 (current_block - block_number) <=? blocks_per_batch.
Definition clear_old_blocks (current_block : Z) (self : ChainStore) : ChainStore :=
  mk_chain_store
    (filter (fun kv => should_retain_block current_block (block_number (ci_head kv.2)) = true)
       (chain_db self))
    (filter (fun kv => should_retain_block current_block kv.1 = true) (height_idx self))
    (filter (fun kv => should_retain_block current_block (MacroHeader.block_number kv.2) = true)
       (election_db self)).

Definition get_blocks_at (self : ChainStore) (block_height : Z) : list Block :=
  match height_idx self !! block_height with
  | Some block_hashes => omap (fun hash => ci_head <$> (chain_db self !! hash)) block_hashes
  | None => []
  end.

(** The loops of the queries; [count] is the number of blocks still wanted. *)
Fixpoint blocks_backward (self : ChainStore) (count : nat) (hash : Z) (include_body : bool)
  : Res (list Block) :=
  match count with
  | O => Ok []
  | S count =>
      match chain_db self !! hash with
      | Some chain_info =>
          let block := ci_head chain_info in
          if include_body && negb (has_body block) then Err BlockchainError.BlockBodyNotFound
          else
            blocks ← blocks_backward self count (parent_hash block) include_body;
            Ok (block :: blocks)
      | None => Ok []
      end
  end.
Definition get_blocks_backward (self : ChainStore) (start_block_hash count : Z) (include_body : bool)
  : Res (list Block) :=
  start ← or_err (chain_db self !! start_block_hash)
            (BlockchainError.BlockNotFoundByHash start_block_hash);
  blocks_backward self (Z.to_nat count) (parent_hash (ci_head start)) include_body.

Fixpoint blocks_forward (self : ChainStore) (count : nat) (chain_info : ChainInfo)
    (include_body : bool) : Res (list Block) :=
  match count with
  | O => Ok []
  | S count =>
      match main_chain_successor chain_info ≫= (fun successor => chain_db self !! successor) with
      | Some chain_info =>
          let block := ci_head chain_info in
          if include_body && negb (has_body block) then Err BlockchainError.BlockBodyNotFound
          else
            blocks ← blocks_forward self count chain_info include_body;
            Ok (block :: blocks)
      | None => Ok []
      end
  end.
Definition get_blocks_forward (self : ChainStore) (start_block_hash count : Z) (include_body : bool)
  : Res (list Block) :=
  start ← or_err (chain_db self !! start_block_hash)
            (BlockchainError.BlockNotFoundByHash start_block_hash);
  blocks_forward self (Z.to_nat count) start include_body.

Definition get_blocks (self : ChainStore) (start_block_hash count : Z) (direction : Direction)
    (include_body : bool) : Res (list Block) :=
  match direction with
  | Forward => get_blocks_forward self start_block_hash count include_body
  | Backward => get_blocks_backward self start_block_hash count include_body
  end.
End Store.

Section Chain.
Context `{P : Policy} `{BEnv : BlockEnv} `{Cv : Curve} `{Bls : BlsEnv} `{Bd : BodyEnv} `{SEnv : SlotEnv}.

(** The loops of [get_macro_blocks_backward] and [get_macro_blocks_forward]. *)
Fixpoint macro_blocks_backward (self : ChainStore) (count : nat) (hash : Z)
    (election_blocks_only include_body : bool) : outcome BlockchainError.t (list Block) :=
  match count with
  | O => Ok []
  | S count =>
      match ci_head <$> chain_db self !! hash with
      | Some (BMacro block) =>
          let hash := if election_blocks_only
                      then MacroHeader.parent_election_hash (ma_header block)
                      else MacroHeader.parent_hash (ma_header block) in
          if include_body && negb (has_body (BMacro block))
          then Err BlockchainError.BlockBodyNotFound
          else
            blocks ← macro_blocks_backward self count hash election_blocks_only include_body;
            Ok (BMacro block :: blocks)
      | _ => Ok []
      end
  end.
Fixpoint macro_blocks_forward (self : ChainStore) (count : nat) (next_macro_block : Z)
    (election_blocks_only include_body : bool) : outcome BlockchainError.t (list Block) :=
  match count with
  | O => Ok []
  | S count =>
      match get_chain_info_at self next_macro_block include_body with
      | Ok chain_info =>
          match ci_head chain_info with
          | BMacro block =>
              let number := MacroHeader.block_number (ma_header block) in
              let next_macro_block := if election_blocks_only then election_block_after number
                                      else macro_block_after number in
              blocks ← macro_blocks_forward self count next_macro_block election_blocks_only
                         include_body;
              Ok (BMacro block :: blocks)
          | BMicro _ => Err BlockchainError.InconsistentState
          end
      | Err (BlockchainError.BlockNotFound _) => Ok []
      | Err e => Err e
      | Panic => Panic
      end
  end.
Definition get_macro_blocks (self : ChainStore) (start_block_hash count : Z) (direction : Direction)
    (election_blocks_only include_body : bool) : outcome BlockchainError.t (list Block) :=
  match ci_head <$> chain_db self !! start_block_hash with
  | Some (BMacro block) =>
      let header := ma_header block in
      match direction with
      | Backward =>
          macro_blocks_backward self (Z.to_nat count)
            (if election_blocks_only then MacroHeader.parent_election_hash header
             else MacroHeader.parent_hash header) election_blocks_only include_body
      | Forward =>
          macro_blocks_forward self (Z.to_nat count)
            (if election_blocks_only then election_block_after (MacroHeader.block_number header)
             else macro_block_after (MacroHeader.block_number header))
            election_blocks_only include_body
      end
  | Some (BMicro _) => Err BlockchainError.BlockIsNotMacro
  | None => Err (BlockchainError.BlockNotFoundByHash start_block_hash)
  end.

(** ** Slot selection ([abstract_blockchain.rs]) *)

#[local] Instance vrf_rng : Rng VrfRng := Vrf.next_u64 blake2b.

Definition all_slots : list Z := seqZ 0 SLOTS.
(** The viable slots. *)
Definition viable_slots (disabled_slots : BitSet) : list Z :=
  let slots :=
    if len disabled_slots =? SLOTS then all_slots
    else List.filter (fun slot => negb (contains disabled_slots slot)) all_slots in
  if bool_decide (slots = []) then all_slots else slots.

(** [slice::swap]; [None] is the panic on an index out of bounds. *)
Definition swap (slots : list Z) (i j : nat) : option (list Z) :=
  x ← slots !! i;
  y ← slots !! j;
  Some (<[j := x]> (<[i := y]> slots)).
(** The Fisher-Yates shuffle, for [i] down to one; [None] is a panic of [swap], or
    more than [draw_fuel] rejected draws in a row. *)
Fixpoint shuffle (i : nat) (slots : list Z) (rng : VrfRng) : option (list Z) :=
  match i with
  | O => Some slots
  | S i' =>
      '(r, rng) ← next_u64_below draw_fuel (Z.of_nat (i + 1)) rng;
      slots ← swap slots (Z.to_nat r) i;
      shuffle i' slots rng
  end.
Definition compute_slot_number (offset vrf_entropy : Z) (disabled_slots : BitSet) : option Z :=
  let rng := mk_vrf_rng vrf_entropy ViewSlotSelection 0 in
  slots ← shuffle (length (viable_slots disabled_slots) - 1) (viable_slots disabled_slots) rng;
  slots !! Z.to_nat (offset `mod` Z.of_nat (length slots)).

(** ** The blockchain ([blockchain.rs]) *)

(** [LightBlockchain::with_genesis]; [None] is a panic. *)
Definition with_genesis (network_id : NetworkId.t) (genesis_block : Block) : option LightBlockchain :=
  let genesis_block := (block_hash_cached genesis_block).2 in
  match genesis_block with
  | BMacro block =>
      Some (mk_light network_id genesis_block block block
              (MacroHeader.validators (ma_header block)) genesis_block
              (put_chain_info (chain_info_new genesis_block true) default_store) [] [])
  | BMicro _ => None
  end.

Definition get_block_at (self : LightBlockchain) (height : Z) : outcome BlockchainError.t Block :=
  chain_info ← get_chain_info_at (lb_chain_store self) height false;
  Ok (ci_head chain_info).

(** [Block::unwrap_macro]. *)
Definition unwrap_macro {E} (self : Block) : outcome E MacroBlock :=
  match self with BMacro block => Ok block | BMicro _ => Panic end.

Definition get_validators_for_epoch (self : LightBlockchain) (epoch : Z)
  : outcome BlockchainError.t Validators :=
  let current_epoch := epoch_at (block_number (lb_head self)) in
  if epoch =? current_epoch
  then or_err (lb_current_validators self) BlockchainError.NoValidatorsFound
  else if epoch =? 0 then Err BlockchainError.InvalidEpoch
  else
    number ← or_err (election_block_of (epoch - 1)) BlockchainError.InvalidEpoch;
    block ← get_block_at self number;
    block ← unwrap_macro block;
    or_err (MacroHeader.validators (ma_header block)) BlockchainError.NoValidatorsFound.

(** [Slot]. *)
Record Slot := mk_slot { sl_number : Z; sl_band : Z; sl_validator : SlotValidator }.

Definition get_proposer (self : LightBlockchain) (block_number offset vrf_entropy : Z)
  : outcome BlockchainError.t Slot :=
  before ← unwrap (macro_block_before block_number);
  block ← get_block_at self before;
  block ← unwrap_macro block;
  let disabled_slots := MacroHeader.next_batch_initial_punished_set (ma_header block) in
  slot_number ← unwrap (compute_slot_number offset vrf_entropy disabled_slots);
  validators ← get_validators_for_epoch self (epoch_at block_number);
  validator ← unwrap (get_validator_by_slot_number validators slot_number);
  slot_band ← unwrap (get_band_from_slot validators slot_number);
  Ok (mk_slot slot_number slot_band validator).

(** ** Branch selection ([chain_ordering.rs]) *)

Inductive ChainOrdering := Extend | Superior | Inferior | Unknown.

(** The walk from the predecessor up to the main chain: the skip flags of the
    branch, oldest first, and the number of its first block.  Block numbers
    decrease along the walk, so a block's number bounds its length. *)
Fixpoint walk_fork (fuel : nat) (self : ChainStore) (info : ChainInfo) (skip_block_flags : list bool)
    (start_block_number : Z) : option (list bool * Z) :=
  if on_main_chain info then Some (skip_block_flags, start_block_number)
  else
    match fuel with
    | O => None
    | S fuel =>
        prev ← chain_db self !! parent_hash (ci_head info);
        walk_fork fuel self prev (is_skip (ci_head info) :: skip_block_flags)
          (block_number (ci_head info))
    end.

(** The loop over the common heights. *)
Fixpoint compare_branches (self : ChainStore) (heights : list Z) (skip_block_flags : list bool)
  : option ChainOrdering :=
  match heights with
  | [] => Some Unknown
  | h :: heights =>
      match skip_block_flags with
      | [] => None
      | block_is_skip :: skip_block_flags =>
          match get_chain_info_at self h false with
          | Ok current_on_main_chain =>
              if block_is_skip && negb (is_skip (ci_head current_on_main_chain)) then Some Superior
              else if negb block_is_skip && is_skip (ci_head current_on_main_chain)
              then Some Inferior
              else compare_branches self heights skip_block_flags
          | _ => None
          end
      end
  end.

Definition order_chains (self : LightBlockchain) (block : Block) (prev_info : ChainInfo)
  : option ChainOrdering :=
  let store := lb_chain_store self in
  let head_number := block_number (lb_head self) in
  if parent_hash block =? block_hash (lb_head self) then Some Extend
  else if is_macro block && (head_number <? block_number block) then Some Superior
  else
    '(flags, start_block_number) ←
       walk_fork (S (Z.to_nat (block_number (ci_head prev_info)))) store prev_info
         [is_skip block] (block_number block);
    let end_block_number := Z.min head_number (block_number block) in
    order ← compare_branches store
              (seqZ start_block_number (end_block_number - start_block_number + 1)) flags;
    match order with
    | Unknown => Some (if head_number <? block_number block then Superior else Unknown)
    | order => Some order
    end.

(** ** Pushing blocks ([push.rs]) *)

#[local] Abbreviation LM := (M LightBlockchain PushError.t).

Definition set_store (f : ChainStore -> ChainStore) (b : LightBlockchain) : LightBlockchain :=
  mk_light (lb_network_id b) (lb_head b) (lb_macro_head b) (lb_election_head b)
    (lb_current_validators b) (lb_genesis_block b) (f (lb_chain_store b)) (lb_events b)
    (lb_fork_events b).
Definition set_lb_head (head : Block) (b : LightBlockchain) : LightBlockchain :=
  mk_light (lb_network_id b) head (lb_macro_head b) (lb_election_head b)
    (lb_current_validators b) (lb_genesis_block b) (lb_chain_store b) (lb_events b)
    (lb_fork_events b).
Definition set_macro_head (block : MacroBlock) (b : LightBlockchain) : LightBlockchain :=
  mk_light (lb_network_id b) (lb_head b) block (lb_election_head b)
    (lb_current_validators b) (lb_genesis_block b) (lb_chain_store b) (lb_events b)
    (lb_fork_events b).
(** The fields that an election block changes. *)
Definition set_election (block : MacroBlock) (b : LightBlockchain) : LightBlockchain :=
  set_store (put_election (ma_header block))
    (mk_light (lb_network_id b) (lb_head b) (lb_macro_head b) block
       (MacroHeader.validators (ma_header block)) (lb_genesis_block b) (lb_chain_store b)
       (lb_events b) (lb_fork_events b)).
Definition send (event : BlockchainEvent.t) (b : LightBlockchain) : LightBlockchain :=
  mk_light (lb_network_id b) (lb_head b) (lb_macro_head b) (lb_election_head b)
    (lb_current_validators b) (lb_genesis_block b) (lb_chain_store b) (lb_events b ++ [event])
    (lb_fork_events b).
Definition send_fork (proof : ForkProof) (b : LightBlockchain) : LightBlockchain :=
  mk_light (lb_network_id b) (lb_head b) (lb_macro_head b) (lb_election_head b)
    (lb_current_validators b) (lb_genesis_block b) (lb_chain_store b) (lb_events b)
    (lb_fork_events b ++ [proof]).

Definition current_version (b : LightBlockchain) : Z := version (lb_head b).
Definition head_hash (b : LightBlockchain) : Z := block_hash (lb_head b).

(** The events after a change of the head, as [extend] and [rebranch] send them. *)
Definition send_finality (is_protocol_upgrade : bool) (block_hash : Z) (is_election_block is_macro_block : bool)
    (b : LightBlockchain) : LightBlockchain :=
  if is_election_block then
    send (BlockchainEvent.EpochFinalized block_hash)
      (if is_protocol_upgrade
       then send (BlockchainEvent.ProtocolUpgrade block_hash (current_version b)) b else b)
  else if is_macro_block then send (BlockchainEvent.Finalized block_hash) b
  else b.

Definition extend (chain_info prev_info : ChainInfo) : LM PushResult :=
  let number := block_number (ci_head chain_info) in
  let is_election_block := is_election_block_at number in
  let is_macro_block := is_macro_block_at number in
  let hash := block_hash (ci_head chain_info) in
  let chain_info := set_main_chain true (main_chain_successor chain_info) chain_info in
  let prev_info := set_main_chain (on_main_chain prev_info) (Some hash) prev_info in
  modify (set_store (put_chain_info prev_info));;
  when (is_macro (ci_head chain_info)) (modify (set_store (clear_old_blocks number)));;
  is_protocol_upgrade ← gets (fun b => current_version b <? version (ci_head chain_info));
  modify (set_lb_head (ci_head chain_info));;
  match ci_head chain_info with
  | BMacro macro_block =>
      modify (set_macro_head macro_block);;
      when (is_election_macro macro_block) (modify (set_election macro_block))
  | BMicro _ => mret tt
  end;;
  modify (set_store (put_chain_info chain_info));;
  modify (send (BlockchainEvent.Extended hash));;
  modify (send_finality is_protocol_upgrade hash is_election_block is_macro_block);;
  mret Extended.

(** The two walks of [rebranch]: the branch up to the main chain, newest first,
    with the ancestor, and the main chain from the head down to the ancestor. *)
Fixpoint fork_walk (fuel : nat) (self : ChainStore) (current : Z * ChainInfo)
  : option (list (Z * ChainInfo) * (Z * ChainInfo)) :=
  if on_main_chain current.2 then Some ([], current)
  else
    match fuel with
    | O => None
    | S fuel =>
        let prev_hash := parent_hash (ci_head current.2) in
        prev_info ← chain_db self !! prev_hash;
        '(fork_chain, ancestor) ← fork_walk fuel self (prev_hash, prev_info);
        Some (current :: fork_chain, ancestor)
    end.
Fixpoint revert_walk (fuel : nat) (self : ChainStore) (current : Z * ChainInfo) (ancestor : Z)
  : option (list (Z * ChainInfo)) :=
  if current.1 =? ancestor then Some []
  else
    match fuel with
    | O => None
    | S fuel =>
        if is_macro (ci_head current.2) then None
        else
          let prev_hash := parent_hash (ci_head current.2) in
          prev_info ← chain_db self !! prev_hash;
          revert_chain ← revert_walk fuel self (prev_hash, prev_info) ancestor;
          Some (current :: revert_chain)
    end.

(** The flags of the adopted branch, oldest block first; a block's successor is the
    next newer one. *)
Definition unset_main (info : ChainInfo) : ChainInfo := set_main_chain false None info.
Fixpoint adopt_chain (fork_chain : list (Z * ChainInfo)) (successor : option Z)
  : list (Z * ChainInfo) :=
  match fork_chain with
  | [] => []
  | (hash, info) :: fork_chain =>
      (hash, set_main_chain true successor info) :: adopt_chain fork_chain (Some hash)
  end.
Definition put_all (infos : list ChainInfo) (self : ChainStore) : ChainStore :=
  foldl (fun store info => put_chain_info info store) self infos.

Definition rebranch (chain_info : ChainInfo) : LM PushResult :=
  store ← gets lb_chain_store;
  walk ← expect (fork_walk (S (Z.to_nat (block_number (ci_head chain_info)))) store
                   (block_hash (ci_head chain_info), chain_info));
  let '(fork_chain, ancestor) := walk in
  macro_head ← gets lb_macro_head;
  fail_if (block_number (ci_head ancestor.2) <? MacroHeader.block_number (ma_header macro_head))
    PushError.InvalidFork;;
  hash ← gets head_hash;
  head_info ← expect (chain_db store !! hash);
  revert_chain ← expect (revert_walk (S (Z.to_nat (block_number (ci_head head_info)))) store
                           (hash, head_info) ancestor.1);
  let reverted := (fun c => (c.1, unset_main c.2)) <$> revert_chain in
  modify (set_store (put_all (snd <$> reverted)));;
  last_fork ← expect (last fork_chain);
  modify (set_store (put_chain_info (set_main_chain (on_main_chain ancestor.2) (Some last_fork.1) ancestor.2)));;
  let adopted := adopt_chain fork_chain None in
  modify (set_store (put_all (reverse (snd <$> adopted))));;
  new_head ← expect (head adopted);
  let new_head_block := ci_head new_head.2 in
  modify (set_lb_head new_head_block);;
  is_protocol_upgrade ←
    match new_head_block with
    | BMacro macro_block =>
        modify (set_macro_head macro_block);;
        modify (set_store (clear_old_blocks (block_number new_head_block)));;
        if is_election_macro macro_block then
          is_protocol_upgrade ← gets (fun b => current_version b <? MacroHeader.version (ma_header macro_block));
          modify (set_election macro_block);;
          mret is_protocol_upgrade
        else mret false
    | BMicro _ => mret false
    end;
  let blocks := fun chain : list (Z * ChainInfo) => (fun c => (c.1, ci_head c.2)) <$> reverse chain in
  modify (send (BlockchainEvent.Rebranched (blocks reverted) (blocks adopted)));;
  modify (send_finality is_protocol_upgrade (block_hash new_head_block)
            (is_election new_head_block) (is_macro new_head_block));;
  mret Rebranched.

(** [detect_forks]; a skip block in the arguments, an invalid seed or a missing
    signature panics. *)
Definition fork_with (block micro_block : MicroBlock) (validator_address : Z) : option (option ForkProof) :=
  entropy1 ← try_entropy (MicroHeader.seed (mi_header block));
  entropy2 ← try_entropy (MicroHeader.seed (mi_header micro_block));
  if entropy1 =? entropy2 then
    match mi_justification block, mi_justification micro_block with
    | Some (Micro justification1), Some (Micro justification2) =>
        Some (Some (new_fork_proof validator_address (mi_header block) justification1
                      (mi_header micro_block) justification2))
    | _, _ => None
    end
  else Some None.
Definition is_plain_micro (self : Block) : option MicroBlock :=
  match self with
  | BMicro block => if is_skip_block block then None else Some block
  | BMacro _ => None
  end.
Definition detect_forks (block : MicroBlock) (validator_address : Z) : LM unit :=
  assert_that (negb (is_skip_block block));;
  micro_blocks ← gets (fun b => omap is_plain_micro
                    (get_blocks_at (lb_chain_store b) (MicroHeader.block_number (mi_header block))));
  for_each micro_blocks (fun micro_block =>
    proof ← expect (fork_with block micro_block validator_address);
    if_some proof (fun proof => modify (send_fork proof))).

(** A check of a block inside [push]: its error is [PushError::InvalidBlock]. *)
Definition check {A} (o : outcome BlockError.t A) : LM A :=
  match o with
  | Ok a => mret a
  | Err e => fail (PushError.InvalidBlock e)
  | Panic => panic
  end.
(** [map_err(|_| PushError::Orphan)?]. *)
Definition or_orphan {A} (o : outcome BlockchainError.t A) : LM A :=
  match o with
  | Ok a => mret a
  | Err _ => fail PushError.Orphan
  | Panic => panic
  end.

Definition TIMESTAMP_MAX_DRIFT : Z := 600000.
Definition max_timestamp (now : Z) : Z := saturating_add 64 now TIMESTAMP_MAX_DRIFT.

(** The checks of [push] on a block without its body, with the report of forks. *)
Definition check_block (now : Z) (block : Block) (prev_info : ChainInfo) : LM unit :=
  self ← gets (fun b => b);
  check (verify_block block (lb_network_id self) (max_timestamp now));;
  let predecessor := ci_head prev_info in
  check (verify_immediate_successor block predecessor);;
  when (is_macro block) (check (verify_macro_successor block (lb_macro_head self)));;
  entropy ← expect (try_entropy (seed predecessor));
  proposer ← or_orphan (get_proposer self (block_number block) (vrf_offset block) entropy);
  check (verify_proposer block (sv_signing_key (sl_validator proposer)) (seed predecessor));;
  validators ← expect (lb_current_validators self);
  check (verify_validators block validators);;
  match block with
  | BMicro micro_block =>
      if is_skip_block micro_block then mret tt
      else
        slot ← (match get_proposer self (block_number block) (block_number block) entropy with
                | Ok slot => mret slot
                | _ => panic
                end);
        detect_forks micro_block (sv_address (sl_validator slot))
  | BMacro _ => mret tt
  end.

(** The end of [push]: the block goes to the place that its order gives it. *)
Definition add_block (chain_order : ChainOrdering) (chain_info prev_info : ChainInfo) : LM PushResult :=
  match chain_order with
  | Extend => extend chain_info prev_info
  | Superior => rebranch chain_info
  | order =>
      modify (set_store (put_chain_info chain_info));;
      modify (send (BlockchainEvent.Stored (ci_head chain_info)));;
      mret (match order with Inferior => Ignored | _ => Forked end)
  end.

(** [LightBlockchain::push] at the time [now]. *)
Definition push (now : Z) (block : Block) : LM PushResult :=
  head_number ← gets (fun b => block_number (lb_head b));
  last_macro_block ← expect (last_macro_block head_number);
  if block_number block <=? last_macro_block then mret Ignored
  else
    let '(hash, block) := block_hash_cached block in
    store ← gets lb_chain_store;
    match chain_db store !! hash with
    | Some _ => mret Known
    | None =>
        prev_info ← or_orphan (get_chain_info store (parent_hash block) false);
        self ← gets (fun b => b);
        chain_order ← expect (order_chains self block prev_info);
        let block := strip_body block in
        check_block now block prev_info;;
        chain_info ← check (chain_info_from_block block prev_info);
        add_block chain_order chain_info prev_info
    end.

(** ** Syncing ([sync.rs]) *)

(** The end of [push_macro]: the block becomes the head.  [verify_election_checkpoint],
    called for an election block, compares its hash with a constant of the build and
    reports a mismatch to the log and a flag of the process; it returns nothing and
    changes no field of the blockchain. *)
Definition adopt_macro (block : Block) (macro_block : MacroBlock) (hash : Z) : LM PushResult :=
  modify (set_store (clear_old_blocks (block_number block)));;
  modify (set_store (put_chain_info (chain_info_new block true)));;
  previous_version ← gets current_version;
  modify (set_lb_head block);;
  modify (set_macro_head macro_block);;
  modify (send (BlockchainEvent.Extended hash));;
  (if is_election block then
     let is_protocol_upgrade := previous_version <? version block in
     modify (set_election macro_block);;
     when is_protocol_upgrade
       (modify (fun b => send (BlockchainEvent.ProtocolUpgrade hash (current_version b)) b));;
     modify (send (BlockchainEvent.EpochFinalized hash))
   else modify (send (BlockchainEvent.Finalized hash)));;
  mret Extended.

(** The end of [push_pico_election], which has asserted an election block. *)
Definition adopt_pico (block : Block) (macro_block : MacroBlock) (hash : Z) : LM PushResult :=
  modify (set_store (clear_old_blocks (block_number block)));;
  modify (set_store (put_chain_info (chain_info_new block true)));;
  previous_version ← gets current_version;
  modify (set_lb_head block);;
  modify (set_macro_head macro_block);;
  modify (send (BlockchainEvent.Extended hash));;
  let is_protocol_upgrade := previous_version <? version block in
  modify (set_election macro_block);;
  when is_protocol_upgrade
    (modify (fun b => send (BlockchainEvent.ProtocolUpgrade hash (current_version b)) b));;
  modify (send (BlockchainEvent.EpochFinalized hash));;
  mret Extended.

Definition push_macro (now : Z) (block : Block) : LM PushResult :=
  assert_that (is_macro block);;
  let '(hash, block) := block_hash_cached block in
  self ← gets (fun b => b);
  if bool_decide (is_Some (chain_db (lb_chain_store self) !! hash)) then mret Known
  else if block_number block <=? MacroHeader.block_number (ma_header (lb_macro_head self))
  then mret Ignored
  else
    let block := strip_body block in
    check (verify_block block (lb_network_id self) (max_timestamp now));;
    check (verify_macro_successor block (lb_macro_head self));;
    validators ← expect (lb_current_validators self);
    check (verify_validators block validators);;
    macro_block ← check (unwrap_macro block);
    adopt_macro block macro_block hash.

Definition push_pico_election (now : Z) (block : Block) : LM PushResult :=
  assert_that (is_macro block);;
  assert_that (is_election_block_at (block_number block));;
  let '(hash, block) := block_hash_cached block in
  self ← gets (fun b => b);
  if bool_decide (is_Some (chain_db (lb_chain_store self) !! hash)) then mret Known
  else if block_number block <=? MacroHeader.block_number (ma_header (lb_macro_head self))
  then mret Ignored
  else
    let block := strip_body block in
    check (verify_block block (lb_network_id self) (max_timestamp now));;
    macro_block ← check (unwrap_macro block);
    check (verify_voting_keys (ma_header macro_block));;
    fail_if (bool_decide (try_entropy (MacroHeader.seed (ma_header macro_block)) = None))
      (PushError.InvalidBlock BlockError.InvalidSeed);;
    adopt_pico block macro_block hash.

(** [LightBlockchain::reset_blockchain]. *)
Definition reset_blockchain : LM unit :=
  genesis_block ← gets lb_genesis_block;
  block ← check (unwrap_macro genesis_block);
  modify (fun b => mk_light (lb_network_id b) genesis_block block block
            (MacroHeader.validators (ma_header block)) genesis_block
            (put_chain_info (chain_info_new genesis_block true) default_store)
            (lb_events b) (lb_fork_events b)).

(** [BlockchainEvent::added_hashes]. *)
Definition added_hashes (event : BlockchainEvent.t) : list Z :=
  match event with
  | BlockchainEvent.EpochFinalized _ | BlockchainEvent.Finalized _
  | BlockchainEvent.ProtocolUpgrade _ _ => []
  | BlockchainEvent.Extended hash | BlockchainEvent.HistoryAdopted hash => [hash]
  | BlockchainEvent.Rebranched adopted_blocks _ => fst <$> adopted_blocks
  | BlockchainEvent.Stored block => [block_hash block]
  end.
End Chain.
