(* ===== verification/LightChainInv.v ===== *)
(** * The light blockchain: invariant of the store

    What holds between two operations: the two indexes of the store agree, the
    main chain is linked in both directions between the last macro block and the
    head, branches are linked to it, only micro blocks are ever off it, and no stored
    block waits on top of the head. *)

From S2P Require Import Prelude Coin Policy BitSet AccountTypes Codec TxContent Discrete Slots.
From S2P Require Import Vrf Block Bls Equivocation BlockVerify LightChain.

Section Store.
Context `{P : Policy} {PolOk : PolicyOk P} `{BEnv : BlockEnv}.

Definition num (ci : ChainInfo) : Z := block_number (ci_head ci).

(** ** Blocks that carry their hash *)

(** A block as the store keeps it: with its hash cached, and no body. *)
Definition kept (hash : Z) (block : Block) : Prop :=
  block_hash_cached block = (hash, block) /\ stored_part block = block.

Lemma kept_hash hash block : kept hash block -> block_hash block = hash.
Proof.
  intros [Hc _]. destruct block as [[h b j]|[h j b]]; simpl in *; by injection Hc.
Qed.

Lemma hash_cached_hash block : (block_hash_cached block).1 = block_hash block.
Proof. by destruct block. Qed.

Lemma hash_cached_kept block :
  kept (block_hash block) (stored_part (block_hash_cached block).2).
Proof. by destruct block. Qed.

Lemma hash_cached_idem block :
  block_hash_cached (block_hash_cached block).2 = block_hash_cached block.
Proof. by destruct block. Qed.

(** The header fields the chain depends on do not change when a block is stored. *)
Lemma stored_part_fields block :
  block_number (stored_part block) = block_number block /\
  parent_hash (stored_part block) = parent_hash block /\
  seed (stored_part block) = seed block /\ version (stored_part block) = version block /\
  is_macro (stored_part block) = is_macro block /\ is_skip (stored_part block) = is_skip block /\
  timestamp (stored_part block) = timestamp block.
Proof. by destruct block. Qed.
Lemma hash_cached_fields block :
  let b := (block_hash_cached block).2 in
  block_number b = block_number block /\ parent_hash b = parent_hash block /\
  seed b = seed block /\ version b = version block /\ is_macro b = is_macro block /\
  is_skip b = is_skip block /\ timestamp b = timestamp block.
Proof. by destruct block. Qed.

(** ** The indexes *)

Record store_ok (st : ChainStore) : Prop := {
  so_kept h ci : chain_db st !! h = Some ci -> kept h (ci_head ci);
  so_height n h : (exists l, height_idx st !! n = Some l /\ h ∈ l) <->
                  (exists ci, chain_db st !! h = Some ci /\ num ci = n);
}.

Lemma put_kept st ci hash :
  kept hash (ci_head ci) ->
  put_chain_info ci st = mk_chain_store (<[hash := ci]> (chain_db st))
    (match chain_db st !! hash with
     | Some _ => height_idx st
     | None => <[num ci := default [] (height_idx st !! num ci) ++ [hash]]> (height_idx st)
     end) (election_db st).
Proof.
  intros [Hc Hs]. unfold put_chain_info, num. rewrite Hc, Hs. f_equal.
  destruct ci; simpl in *. done.
Qed.

Lemma put_kept_ok st ci hash :
  store_ok st -> kept hash (ci_head ci) ->
  (forall old, chain_db st !! hash = Some old -> num old = num ci) ->
  store_ok (put_chain_info ci st) /\ chain_db (put_chain_info ci st) = <[hash := ci]> (chain_db st).
Proof.
  intros [Hk Hh] Hki Hold. rewrite (put_kept st ci hash Hki). split; [|done].
  split; simpl; [intros h ci' [[<- <-]|[_ H]]%lookup_insert_Some; auto|].
  intros n h. destruct (chain_db st !! hash) as [old|] eqn:Ho.
  - rewrite Hh. specialize (Hold old eq_refl). destruct (decide (h = hash)) as [->|Hne].
    + rewrite Ho, lookup_insert_eq. split; intros (c & Hc & Hn); injection Hc as <-;
        [exists ci|exists old]; split; congruence.
    + by rewrite (lookup_insert_ne (chain_db st)) by done.
  - destruct (decide (h = hash)) as [->|Hne].
    + rewrite lookup_insert_eq. split.
      * intros (l & Hl & Hin). exists ci. split; [done|].
        apply lookup_insert_Some in Hl as [[-> _]|[_ Hl]]; [done|].
        destruct (proj1 (Hh n hash)) as (c & Hc & _); [eauto|]. congruence.
      * intros (c & Hc & <-). injection Hc as <-. eexists. rewrite lookup_insert_eq.
        split; [done|]. set_solver.
    + rewrite (lookup_insert_ne (chain_db st)) by done. rewrite <-Hh. destruct (decide (n = num ci)) as [->|Hn].
      * rewrite lookup_insert_eq. split.
        -- intros (l & Hl & Hin). injection Hl as <-. apply elem_of_app in Hin as [Hin|Hin]; [|set_solver].
           destruct (height_idx st !! num ci); [eauto|]. by apply not_elem_of_nil in Hin.
        -- intros (l & Hl & Hin). eexists. split; [done|]. rewrite Hl. set_solver.
      * by rewrite lookup_insert_ne by done.
Qed.

(** ** Lookup by height *)

Lemma find_main_ok st hashes n h ci :
  (forall k, k ∈ hashes -> exists c, chain_db st !! k = Some c /\ num c = n) ->
  h ∈ hashes -> chain_db st !! h = Some ci -> on_main_chain ci = true ->
  (forall k c, chain_db st !! k = Some c -> num c = n -> on_main_chain c = true -> k = h) ->
  find_main_chain st hashes n false = Ok ci.
Proof.
  intros Hall Hin Hh Hon Huniq. induction hashes as [|k hashes IH]; [by apply not_elem_of_nil in Hin|].
  destruct (Hall k) as (c & Hc & Hn); [by left|]. cbn [find_main_chain].
  unfold get_chain_info. rewrite Hc. cbn [or_err mbind outcome_bind andb].
  destruct (on_main_chain c) eqn:Ho.
  - assert (k = h) as -> by by eapply Huniq. congruence.
  - apply IH; [|apply elem_of_cons in Hin as [->|?]; [congruence|done]].
    intros k' Hk'. apply Hall. by right.
Qed.

Lemma get_chain_info_at_ok st h ci :
  store_ok st -> chain_db st !! h = Some ci -> on_main_chain ci = true ->
  (forall k c, chain_db st !! k = Some c -> num c = num ci -> on_main_chain c = true -> k = h) ->
  get_chain_info_at st (num ci) false = Ok ci.
Proof.
  intros Hok Hh Hon Huniq. destruct (proj2 (so_height st Hok (num ci) h)) as (l & Hl & Hin); [eauto|].
  unfold get_chain_info_at, get_block_hashes. rewrite Hl. cbn [or_err mbind outcome_bind].
  eapply find_main_ok; [|exact Hin|done..]. intros k Hk. apply (so_height st Hok). eauto.
Qed.
End Store.

(** ** The chain *)

Section Chain.
Context `{P : Policy} {PolOk : PolicyOk P} `{BEnv : BlockEnv}.
#[local] Abbreviation bpb := blocks_per_batch.
#[local] Abbreviation genesis := genesis_block_number.

Definition macro_number (n : Z) : Prop := genesis <= n /\ (n - genesis) `mod` bpb = 0.

(** [hh] and [mh] are the hashes of the head and the last macro block, [m] is the
    number of the latter. *)
Record chain_ok (db : gmap Z ChainInfo) (hh mh m : Z) : Prop := {
  co_head : exists ci, db !! hh = Some ci /\ on_main_chain ci = true /\ m <= num ci;
  co_macro : exists ci, db !! mh = Some ci /\ on_main_chain ci = true /\ num ci = m;
  co_number : macro_number m;
  co_top h ci hd : db !! h = Some ci -> on_main_chain ci = true -> db !! hh = Some hd ->
    num ci <= num hd;
  co_uniq h1 h2 c1 c2 : db !! h1 = Some c1 -> db !! h2 = Some c2 -> on_main_chain c1 = true ->
    on_main_chain c2 = true -> num c1 = num c2 -> m <= num c1 -> h1 = h2;
  co_link h ci : db !! h = Some ci -> on_main_chain ci = true -> m < num ci ->
    exists p, db !! parent_hash (ci_head ci) = Some p /\ on_main_chain p = true /\
      num p = num ci - 1;
  co_fork h ci : db !! h = Some ci -> on_main_chain ci = false ->
    is_macro (ci_head ci) = false /\
    exists p, db !! parent_hash (ci_head ci) = Some p /\ num p = num ci - 1;
  co_type h ci : db !! h = Some ci -> is_macro (ci_head ci) = true <-> macro_number (num ci);
  co_range h ci : db !! h = Some ci -> genesis <= num ci < m + bpb;
  co_succ h ci : db !! h = Some ci -> on_main_chain ci = true -> m <= num ci -> h <> hh ->
    exists s c, main_chain_successor ci = Some s /\ db !! s = Some c /\ on_main_chain c = true /\
      num c = num ci + 1;
  co_last hd : db !! hh = Some hd -> main_chain_successor hd = None;
  co_off h ci : db !! h = Some ci -> on_main_chain ci = false ->
    main_chain_successor ci = None /\ parent_hash (ci_head ci) <> hh;
}.

Lemma bpb_pos : 1 < bpb.
Proof. apply pol_bpb. Qed.

(** The macro numbers are [bpb] apart. *)
Lemma macro_number_gap m n : macro_number m -> macro_number n -> m < n -> m + bpb <= n.
Proof.
  pose proof bpb_pos. intros [Hm1 Hm2] [Hn1 Hn2] Hlt.
  apply Z.mod_divide in Hm2 as [k Hk]; [|lia]. apply Z.mod_divide in Hn2 as [j Hj]; [|lia].
  assert (Hkj : k < j) by (apply (Z.mul_lt_mono_pos_r bpb); lia).
  assert ((k + 1) * bpb <= j * bpb) by (apply Z.mul_le_mono_nonneg_r; lia). lia.
Qed.
Lemma macro_number_next m : macro_number m -> macro_number (m + bpb).
Proof.
  pose proof bpb_pos. intros [H1 H2]. split; [lia|].
  replace (m + bpb - genesis) with (m - genesis + 1 * bpb) by lia. by rewrite Z.mod_add by lia.
Qed.

Section Facts.
Context (db : gmap Z ChainInfo) (hh mh m : Z) (Hok : chain_ok db hh mh m).

(** Stored blocks above the last macro block are micro blocks. *)
Lemma above_macro h ci : db !! h = Some ci -> m < num ci -> is_macro (ci_head ci) = false.
Proof.
  intros Hh Hlt. destruct (is_macro (ci_head ci)) eqn:Hm; [|done].
  apply (co_type _ _ _ _ Hok h) in Hm; [|done].
  pose proof (macro_number_gap m (num ci) (co_number _ _ _ _ Hok) Hm Hlt).
  pose proof (co_range _ _ _ _ Hok h ci Hh). lia.
Qed.

(** A block off the main chain is not at the height of the last macro block. *)
Lemma fork_not_macro h ci : db !! h = Some ci -> on_main_chain ci = false -> num ci <> m.
Proof.
  intros Hh Hf He. destruct (co_fork _ _ _ _ Hok h ci Hh Hf) as [Hm _].
  assert (is_macro (ci_head ci) = true); [|congruence].
  apply (co_type _ _ _ _ Hok h); [done|]. rewrite He. apply Hok.
Qed.

Lemma main_at n hd : db !! hh = Some hd -> m <= n <= num hd ->
  exists h ci, db !! h = Some ci /\ on_main_chain ci = true /\ num ci = n.
Proof.
  intros Hhd. remember (Z.to_nat (num hd - n)) as k eqn:Hk. revert n Hk.
  induction k as [|k IH]; intros n Hk Hn.
  - destruct (co_head _ _ _ _ Hok) as (ci & Hci & Hon & _). rewrite Hhd in Hci. injection Hci as <-.
    exists hh, hd. split_and!; [done..|lia].
  - destruct (IH (n + 1)) as (h & ci & Hh & Hon & Hnum); [lia..|].
    destruct (co_link _ _ _ _ Hok h ci Hh Hon) as (p & Hp & Hpon & Hpn); [lia|].
    exists (parent_hash (ci_head ci)), p. split_and!; [done..|lia].
Qed.

(** *** Walking down *)

(** A branch from [c] down to the main chain, newest block first. *)
Inductive fork_path : Z * ChainInfo -> list (Z * ChainInfo) -> Z * ChainInfo -> Prop :=
  | fp_main c : db !! c.1 = Some c.2 -> on_main_chain c.2 = true -> fork_path c [] c
  | fp_step c p chain anc : on_main_chain c.2 = false ->
      db !! parent_hash (ci_head c.2) = Some p -> num p = num c.2 - 1 ->
      fork_path (parent_hash (ci_head c.2), p) chain anc -> fork_path c (c :: chain) anc.

Lemma fork_walk_stored st fuel h ci : chain_db st = db ->
  db !! h = Some ci -> (Z.to_nat (num ci) < fuel)%nat ->
  exists chain anc, fork_walk fuel st (h, ci) = Some (chain, anc) /\ fork_path (h, ci) chain anc.
Proof.
  intros Hst. revert h ci. induction fuel as [|fuel IH]; intros h ci Hh Hf; [lia|].
  cbn [fork_walk snd]. destruct (on_main_chain ci) eqn:Hon.
  { exists [], (h, ci). split; [done|by apply fp_main]. }
  destruct (co_fork _ _ _ _ Hok h ci Hh Hon) as (_ & p & Hp & Hn).
  pose proof (co_range _ _ _ _ Hok _ _ Hp) as Hr. pose proof (pol_genesis) as [Hg _].
  destruct (IH _ p Hp) as (chain & anc & Hw & Hpath); [lia|].
  rewrite Hst, Hp. cbn [mbind option_bind]. rewrite Hw. cbn [mbind option_bind].
  exists ((h, ci) :: chain), anc. split; [done|]. by eapply fp_step.
Qed.

Lemma walk_fork_stored st fuel h ci flags : chain_db st = db ->
  db !! h = Some ci -> m <= num ci -> (Z.to_nat (num ci) < fuel)%nat ->
  exists flags' start, walk_fork fuel st ci flags (num ci + 1) = Some (flags', start) /\
    m < start <= num ci + 1 /\
    Z.of_nat (length flags') = Z.of_nat (length flags) + (num ci + 1 - start).
Proof.
  intros Hst. revert h ci flags. induction fuel as [|fuel IH]; intros h ci flags Hh Hm Hf; [lia|].
  cbn [walk_fork]. destruct (on_main_chain ci) eqn:Hon.
  { exists flags, (num ci + 1). split; [done|]. lia. }
  destruct (co_fork _ _ _ _ Hok h ci Hh Hon) as (_ & p & Hp & Hn).
  pose proof (fork_not_macro h ci Hh Hon) as Hne.
  pose proof (co_range _ _ _ _ Hok _ _ Hp) as Hr. pose proof (pol_genesis) as [Hg _].
  destruct (IH _ p (is_skip (ci_head ci) :: flags) Hp) as (flags' & start & Hw & Hs & Hl); [lia..|].
  rewrite Hst, Hp. cbn [mbind option_bind].
  replace (block_number (ci_head ci)) with (num p + 1) by (unfold num in *; lia).
  rewrite Hw. exists flags', start. split; [done|]. cbn [length] in Hl. lia.
Qed.

Lemma compare_total st heights flags hd : chain_db st = db -> store_ok st -> db !! hh = Some hd ->
  (forall n, n ∈ heights -> m <= n <= num hd) -> (length heights <= length flags)%nat ->
  is_Some (compare_branches st heights flags).
Proof.
  intros Hst Hso Hhd. revert flags. induction heights as [|n heights IH]; intros flags Hn Hl; [by eexists|].
  destruct flags as [|f flags]; simpl in Hl; [lia|]. cbn [compare_branches].
  destruct (main_at n hd Hhd) as (h & ci & Hh & Hon & <-); [apply Hn; by left|].
  assert (Hat : get_chain_info_at st (num ci) false = Ok ci).
  { eapply get_chain_info_at_ok; [done|by rewrite Hst|done|]. rewrite Hst. intros k c Hk Hnum Hc.
    eapply (co_uniq _ _ _ _ Hok k h c ci); try done. rewrite Hnum. apply Hn. by left. }
  rewrite Hat. destruct (_ && _); [by eexists|]. destruct (_ && _); [by eexists|].
  apply IH; [|lia]. intros k Hk. apply Hn. by right.
Qed.

(** The main chain from [c] down to [anc], both included in the main chain. *)
Lemma revert_walk_ok st fuel h ci anc : chain_db st = db ->
  db !! h = Some ci -> on_main_chain ci = true ->
  db !! anc.1 = Some anc.2 -> on_main_chain anc.2 = true -> m <= num anc.2 -> num anc.2 <= num ci ->
  (Z.to_nat (num ci) < fuel)%nat ->
  exists chain, revert_walk fuel st (h, ci) anc.1 = Some chain /\ NoDup chain.*1 /\
    forall k c, (k, c) ∈ chain <->
      db !! k = Some c /\ on_main_chain c = true /\ num anc.2 < num c <= num ci.
Proof.
  intros Hst. revert h ci. induction fuel as [|fuel IH]; intros h ci Hh Hon Ha Haon Ham Hle Hf; [lia|].
  cbn [revert_walk fst snd]. destruct (Z.eqb_spec h anc.1) as [->|Hne].
  { exists []. split_and!; [done|constructor|]. rewrite Hh in Ha. injection Ha as Ha.
    intros k c. split; [intros Hk; by apply not_elem_of_nil in Hk|]. rewrite <-Ha. lia. }
  assert (Hlt : num anc.2 < num ci).
  { destruct (decide (num anc.2 = num ci)) as [He|]; [|lia]. exfalso. apply Hne.
    by eapply (co_uniq _ _ _ _ Hok h anc.1 ci anc.2); try done; lia. }
  rewrite (above_macro h ci Hh) by lia.
  destruct (co_link _ _ _ _ Hok h ci Hh Hon) as (p & Hp & Hpon & Hpn); [lia|].
  pose proof (pol_genesis) as [Hg _]. pose proof (co_range _ _ _ _ Hok _ _ Hp) as Hr.
  destruct (IH _ p Hp Hpon Ha Haon Ham) as (chain & Hw & Hnd & Hin); [lia..|].
  rewrite Hst, Hp. cbn [mbind option_bind]. rewrite Hw. cbn [mbind option_bind].
  exists ((h, ci) :: chain). split; [done|]. split.
  - rewrite fmap_cons. constructor; [|done]. intros ([k c] & Hk & Hc)%list_elem_of_fmap.
    simpl in Hk. subst k. apply Hin in Hc as (Hc & _ & Hr'). rewrite Hh in Hc. injection Hc as <-. lia.
  - intros k c. rewrite elem_of_cons, Hin. split.
    + intros [[= -> ->]|(Hk & Hc & Hr')]; [split_and!; [done..|lia|lia]|split_and!; [done..|lia|lia]].
    + intros (Hk & Hc & Hr'). destruct (decide (num c = num ci)) as [He|].
      * left. assert (k = h) as -> by (eapply (co_uniq _ _ _ _ Hok k h c ci); try done; lia).
        congruence.
      * right. split_and!; [done..|lia|lia].
Qed.
End Facts.
End Chain.

(** ** Updates of the store *)

Section Updates.
Context `{P : Policy} {PolOk : PolicyOk P} `{BEnv : BlockEnv}.
#[local] Abbreviation bpb := blocks_per_batch.
#[local] Abbreviation genesis := genesis_block_number.

(** Putting a list of infos, each under its own hash. *)
Lemma put_all_ok l st :
  store_ok st -> NoDup l.*1 ->
  (forall h c, (h, c) ∈ l -> kept h (ci_head c) /\
     forall old, chain_db st !! h = Some old -> num old = num c) ->
  store_ok (put_all l.*2 st) /\
  (forall h c, (h, c) ∈ l -> chain_db (put_all l.*2 st) !! h = Some c) /\
  (forall h, h ∉ l.*1 -> chain_db (put_all l.*2 st) !! h = chain_db st !! h).
Proof.
  revert st. induction l as [|[h c] l IH]; intros st Hso Hnd Hl.
  { split_and!; [done|intros ? ? Hin; by apply not_elem_of_nil in Hin|done]. }
  rewrite !fmap_cons in *. apply NoDup_cons in Hnd as [Hh Hnd]. cbn [fst snd] in *.
  destruct (Hl h c) as [Hk Hn]; [by left|].
  destruct (put_kept_ok st c h Hso Hk Hn) as [Hso' Hdb].
  destruct (IH (put_chain_info c st)) as (H1 & H2 & H3); [done|done| |].
  { intros h' c' Hin. destruct (Hl h' c') as [Hk' Hn']; [by right|]. split; [done|].
    intros old. rewrite Hdb, lookup_insert_ne; [apply Hn'|]. intros <-. apply Hh.
    apply list_elem_of_fmap. by exists (h, c'). }
  split; [done|]. cbn [put_all foldl]. split.
  - intros h' c' [[= -> ->]|Hin]%elem_of_cons; [|by apply H2].
    unfold put_all in H3. rewrite H3 by done. rewrite Hdb. apply lookup_insert_eq.
  - intros h' [Hne Hni]%not_elem_of_cons. unfold put_all in H3. rewrite H3 by done.
    by rewrite Hdb, lookup_insert_ne.
Qed.

(** *** Removing old blocks *)

Lemma clear_lookup cur st h ci :
  chain_db (clear_old_blocks cur st) !! h = Some ci <->
  chain_db st !! h = Some ci /\ should_retain_block cur (num ci) = true.
Proof. unfold clear_old_blocks. cbn [chain_db]. by rewrite map_lookup_filter_Some. Qed.

Lemma clear_store_ok cur st : store_ok st -> store_ok (clear_old_blocks cur st).
Proof.
  intros [Hk Hh]. split.
  - intros h ci [Hc _]%clear_lookup. by apply Hk.
  - intros n h. setoid_rewrite clear_lookup. unfold clear_old_blocks. cbn [height_idx].
    setoid_rewrite map_lookup_filter_Some. cbn [fst]. split.
    + intros (l & [Hl Hr] & Hin). destruct (proj1 (Hh n h)) as (ci & Hci & <-); [eauto|]. eauto.
    + intros (ci & [Hci Hr] & <-). destruct (proj2 (Hh (num ci) h)) as (l & Hl & Hin); [eauto|]. eauto.
Qed.

Definition safe_number (n : Z) : Prop := genesis <= n /\ n + blocks_per_epoch <= max_value 32.

Lemma retain_small cur n :
  safe_number cur -> genesis <= n <= cur -> cur - n <= bpb -> should_retain_block cur n = true.
Proof.
  intros [_ Hcur] Hn Hd. unfold should_retain_block. pose proof pol_genesis as [Hg _].
  pose proof blocks_per_epoch_pos. rewrite wrap_small by (unfold in_width; lia).
  assert (bpb <= blocks_per_epoch) by (rewrite blocks_per_epoch_eq; destruct PolOk; nia).
  destruct (is_election_block_at n); apply Z.leb_le; lia.
Qed.
Lemma retain_micro cur n :
  safe_number cur -> genesis <= n <= cur -> ~ macro_number n -> should_retain_block cur n = true ->
  cur - n <= bpb.
Proof.
  intros [Hc Hcur] Hn Hm. unfold should_retain_block. pose proof pol_genesis as [Hg _].
  pose proof blocks_per_epoch_pos. rewrite wrap_small by (unfold in_width; lia).
  destruct (is_election_block_at n) eqn:He; [|by rewrite Z.leb_le].
  exfalso. apply Hm. apply is_election_block_at_iff in He; [|unfold index_safe; lia|lia].
  split; [lia|]. apply Z.mod_divide in He as [k Hk]; [|lia].
  rewrite Hk, blocks_per_epoch_eq. pose proof bpb_pos.
  replace (k * (bpb * batches_per_epoch)) with (k * batches_per_epoch * bpb) by ring.
  apply Z.mod_mul. lia.
Qed.

(** Blocks off the main chain keep their predecessors. *)
Definition fork_closed (db : gmap Z ChainInfo) : Prop :=
  forall h ci, db !! h = Some ci -> on_main_chain ci = false ->
    is_macro (ci_head ci) = false /\
    exists p, db !! parent_hash (ci_head ci) = Some p /\ num p = num ci - 1.
Definition typed_db (db : gmap Z ChainInfo) (top : Z) : Prop :=
  forall h ci, db !! h = Some ci -> (is_macro (ci_head ci) = true <-> macro_number (num ci)) /\
    genesis <= num ci <= top.

Lemma clear_fork_closed cur st :
  macro_number cur -> safe_number cur -> typed_db (chain_db st) cur -> fork_closed (chain_db st) ->
  fork_closed (chain_db (clear_old_blocks cur st)).
Proof.
  intros Hc Hs Ht Hf h ci [Hh Hr]%clear_lookup Hoff.
  destruct (Hf h ci Hh Hoff) as (Hm & p & Hp & Hn). split; [done|]. exists p. split; [|done].
  apply clear_lookup. split; [done|]. destruct (Ht _ _ Hh) as [Hty Hrange], (Ht _ _ Hp) as [_ Hrp].
  assert (Hnm : ~ macro_number (num ci)) by (rewrite <-Hty; congruence).
  pose proof (retain_micro cur (num ci) Hs Hrange Hnm Hr) as Hle.
  apply retain_small; [done|lia|]. destruct (decide (cur - num ci = bpb)) as [He|]; [|lia].
  exfalso. apply Hnm. split; [lia|]. destruct Hc as [_ Hc]. pose proof bpb_pos.
  replace (num ci - genesis) with (cur - genesis + (-1) * bpb) by lia. by rewrite Z.mod_add by lia.
Qed.
End Updates.

(** ** Changing the main chain *)

Section Rebranch.
Context `{P : Policy} {PolOk : PolicyOk P} `{BEnv : BlockEnv}.
#[local] Abbreviation bpb := blocks_per_batch.
#[local] Abbreviation genesis := genesis_block_number.

(** *** Branches *)

Section Path.
Context (db : gmap Z ChainInfo).

Lemma path_anc c chain anc : fork_path db c chain anc ->
  db !! anc.1 = Some anc.2 /\ on_main_chain anc.2 = true /\
  num anc.2 = num c.2 - Z.of_nat (length chain).
Proof.
  induction 1 as [c Hc Hon|c p chain anc Hoff Hp Hn Hpath (H1 & H2 & H3)]; cbn [length].
  - split_and!; [done..|lia].
  - split_and!; [done..|]. cbn [snd] in H3. lia.
Qed.

Lemma path_stored c chain anc : fork_path db c chain anc -> db !! c.1 = Some c.2 ->
  forall h ci, (h, ci) ∈ chain -> db !! h = Some ci /\ on_main_chain ci = false /\
    num anc.2 < num ci <= num c.2.
Proof.
  intros Hpath. induction Hpath as [c Hc Hon|c p chain anc Hoff Hp Hn Hpath IH]; intros Hc' h ci Hin.
  { by apply not_elem_of_nil in Hin. }
  pose proof (path_anc _ _ _ Hpath) as (_ & _ & Ha). cbn [snd] in Ha.
  apply elem_of_cons in Hin as [<-|Hin]; [cbn [fst snd] in *; split_and!; [done..|lia|lia]|].
  destruct (IH Hp h ci Hin) as (? & ? & ?). cbn [snd] in *. split_and!; [done..|lia|lia].
Qed.

(** The predecessor of a block of the branch is in the branch or the ancestor. *)
Lemma path_link c chain anc : fork_path db c chain anc ->
  forall h ci, (h, ci) ∈ chain -> exists p, num p = num ci - 1 /\
    ((parent_hash (ci_head ci), p) ∈ chain \/ (parent_hash (ci_head ci), p) = anc).
Proof.
  intros Hpath. induction Hpath as [c Hc Hon|c p chain anc Hoff Hp Hn Hpath IH]; intros h ci Hin.
  { by apply not_elem_of_nil in Hin. }
  apply elem_of_cons in Hin as [<-|Hin].
  - exists p. split; [done|]. cbn [snd]. inversion Hpath; subst; [by right|]. left. right. by left.
  - destruct (IH h ci Hin) as (q & Hq & [Hin'|He]); exists q; (split; [done|]); [left; by right|by right].
Qed.

Lemma path_uniq c chain anc : fork_path db c chain anc -> db !! c.1 = Some c.2 ->
  forall h1 c1 h2 c2, (h1, c1) ∈ chain -> (h2, c2) ∈ chain -> num c1 = num c2 -> h1 = h2.
Proof.
  intros Hpath. induction Hpath as [c Hc Hon|c p chain anc Hoff Hp Hn Hpath IH]; intros Hc' h1 c1 h2 c2 H1 H2 He.
  { by apply not_elem_of_nil in H1. }
  apply elem_of_cons in H1 as [<-|H1], H2 as [Heq|H2].
  - by injection Heq as -> _.
  - destruct (path_stored _ _ _ Hpath Hp _ _ H2) as (_ & _ & ?). cbn [snd] in *. lia.
  - subst c. destruct (path_stored _ _ _ Hpath Hp _ _ H1) as (_ & _ & ?). cbn [snd] in *. lia.
  - by eapply IH.
Qed.

Lemma path_nodup c chain anc : fork_path db c chain anc -> db !! c.1 = Some c.2 -> NoDup chain.*1.
Proof.
  intros Hpath. induction Hpath as [c Hc Hon|c p chain anc Hoff Hp Hn Hpath IH]; intros Hc'; [constructor|].
  rewrite fmap_cons. constructor; [|by apply IH].
  intros ([k q] & Hk & Hin)%list_elem_of_fmap. cbn [fst] in Hk. subst k.
  destruct (path_stored _ _ _ Hpath Hp _ _ Hin) as (Hl & _ & ?). rewrite Hc' in Hl. injection Hl as <-.
  cbn [snd] in *. lia.
Qed.

Lemma path_above hh mh m c chain anc : chain_ok db hh mh m -> fork_path db c chain anc ->
  db !! c.1 = Some c.2 -> m <= num c.2 -> m <= num anc.2.
Proof.
  intros Hok Hpath. induction Hpath as [c Hc Hon|c p chain anc Hoff Hp Hn Hpath IH]; intros Hc' Hm; [done|].
  apply IH; [done|]. cbn [snd]. pose proof (fork_not_macro _ _ _ _ Hok _ _ Hc' Hoff). lia.
Qed.

(** A branch from a block other than the head does not start at the head. *)
Lemma path_not_tip hh mh m c chain anc : chain_ok db hh mh m -> fork_path db c chain anc ->
  db !! c.1 = Some c.2 -> c.1 <> hh -> anc.1 <> hh.
Proof.
  intros Hok Hpath. induction Hpath as [c Hc Hon|c p chain anc Hoff Hp Hn Hpath IH]; intros Hc' Hne; [done|].
  apply IH; [done|]. by destruct (co_off _ _ _ _ Hok _ _ Hc' Hoff).
Qed.

(** In an adopted branch the successor of a block is the next newer one. *)
Lemma path_adopt c chain anc : fork_path db c chain anc ->
  forall s top, num top = num c.2 + 1 -> forall h c', (h, c') ∈ adopt_chain chain (Some s) ->
    (main_chain_successor c' = Some s /\ num top = num c' + 1) \/
    exists k q, main_chain_successor c' = Some k /\ (k, q) ∈ chain /\ num q = num c' + 1.
Proof.
  intros Hpath. induction Hpath as [c Hc Hon|[hc c] p chain anc Hoff Hp Hn Hpath IH]; intros s top Ht h c' Hin.
  { by apply not_elem_of_nil in Hin. }
  cbn [adopt_chain fst snd] in *. apply elem_of_cons in Hin as [[= -> ->]|Hin]; [by left|]. right.
  destruct (IH hc c ltac:(lia) h c' Hin) as [[Hs Hq]|(k & q & Hs & Hq & Hqn)].
  - exists hc, c. split_and!; [done|by left|done].
  - exists k, q. split_and!; [done|by right|done].
Qed.

(** The oldest block of a branch, with the block on top of it, follows the ancestor. *)
Lemma path_last c chain anc : fork_path db c chain anc ->
  forall t, num t.2 = num c.2 + 1 ->
    exists s q, last (t :: chain) = Some (s, q) /\ (s, q) ∈ t :: chain /\ num q = num anc.2 + 1.
Proof.
  intros Hpath. induction Hpath as [c Hc Hon|c p chain anc Hoff Hp Hn Hpath IH]; intros t Ht.
  - exists t.1, t.2. destruct t. split_and!; [done|by left|done].
  - destruct (IH c) as (s & q & Hl & Hin & Hq); [cbn [snd]; lia|]. exists s, q.
    split_and!; [exact Hl|by right|done].
Qed.
End Path.

(** *** The new main chain *)

(** [db'] is [db] with the blocks of [fork] added, on the main chain and linked upwards
    from [anc], and the blocks above [anc] off it. *)
Definition moved (anc : ChainInfo) (next : option Z) (c c' : ChainInfo) : Prop :=
  ci_head c' = ci_head c /\ on_main_chain c' = on_main_chain c && (num c <=? num anc) /\
  main_chain_successor c' =
    (if on_main_chain c && (num anc <=? num c) then if num c =? num anc then next else None
     else main_chain_successor c).
Definition next_in (fork : list (Z * ChainInfo)) (h : Z) (c' : ChainInfo) : Prop :=
  (main_chain_successor c' = None /\ fst <$> head fork = Some h) \/
  exists s q, main_chain_successor c' = Some s /\ (s, q) ∈ fork /\ num q = num c' + 1.
Definition rebranched (db db' : gmap Z ChainInfo) (fork : list (Z * ChainInfo)) (anc : ChainInfo)
  : Prop :=
  (forall h c, (h, c) ∈ fork -> exists c', db' !! h = Some c' /\ ci_head c' = ci_head c /\
     on_main_chain c' = true /\ next_in fork h c') /\
  (forall h, h ∉ fork.*1 -> option_Forall2 (moved anc (fst <$> last fork)) (db !! h) (db' !! h)).

Section View.
Context (db db' : gmap Z ChainInfo) (hh mh m nh : Z) (new : ChainInfo) (par anc : Z * ChainInfo).
Context (chain : list (Z * ChainInfo)).
Hypothesis Hok : chain_ok db hh mh m.
Hypothesis Hpath : fork_path db par chain anc.
Hypothesis Hpar : db !! par.1 = Some par.2.
Hypothesis Hm : m <= num par.2.
Hypothesis Hnew : db !! nh = None.
Hypothesis Hlink : parent_hash (ci_head new) = par.1.
Hypothesis Hnum : num new = num par.2 + 1.
Hypothesis Htype : is_macro (ci_head new) = true <-> macro_number (num new).
#[local] Abbreviation fork := ((nh, new) :: chain).
Hypothesis Hview : rebranched db db' fork anc.2.

Lemma fork_entry h c : (h, c) ∈ fork ->
  (h = nh /\ c = new \/ db !! h = Some c /\ on_main_chain c = false /\ num c < num new) /\
  num anc.2 < num c <= num new.
Proof.
  destruct (path_anc _ _ _ _ Hpath) as (_ & _ & Ha).
  intros [[= -> ->]|Hin]%elem_of_cons; [split; [by left|lia]|].
  destruct (path_stored _ _ _ _ Hpath Hpar _ _ Hin) as (H1 & H2 & H3).
  split; [right; split_and!; [done..|lia]|lia].
Qed.

Lemma fork_unique h1 c1 h2 c2 :
  (h1, c1) ∈ fork -> (h2, c2) ∈ fork -> num c1 = num c2 -> h1 = h2.
Proof.
  intros H1 H2 He. destruct (fork_entry _ _ H1) as [[[-> ->]|(_ & _ & L1)] _],
    (fork_entry _ _ H2) as [[[-> ->]|(_ & _ & L2)] _]; [done|lia|lia|].
  apply elem_of_cons in H1 as [[= -> ->]|H1], H2 as [[= -> ->]|H2]; [lia..|].
  by eapply path_uniq.
Qed.

Lemma view_present h c : db !! h = Some c ->
  exists c', db' !! h = Some c' /\ ci_head c' = ci_head c.
Proof.
  intros Hh. destruct Hview as [Hf Ho]. destruct (decide (h ∈ fork.*1)) as [Hin|Hin].
  - apply list_elem_of_fmap in Hin as ([k q] & Hk & Hin). cbn [fst] in Hk. subst k.
    destruct (Hf _ _ Hin) as (c' & Hc' & Hhd & _).
    destruct (fork_entry _ _ Hin) as [[[-> ->]|(Hq & _)] _]; [congruence|].
    exists c'. split; congruence.
  - specialize (Ho h Hin). rewrite Hh in Ho. inversion Ho as [? c' [Hhd _]|]; subst. by exists c'.
Qed.

Lemma view_cases h c' : db' !! h = Some c' ->
  (exists c, (h, c) ∈ fork /\ ci_head c' = ci_head c /\ on_main_chain c' = true /\ next_in fork h c') \/
  (exists c, db !! h = Some c /\ moved anc.2 (fst <$> last fork) c c').
Proof.
  intros Hh. destruct Hview as [Hf Ho]. destruct (decide (h ∈ fork.*1)) as [Hin|Hin].
  - left. apply list_elem_of_fmap in Hin as ([k q] & Hk & Hin). cbn [fst] in Hk. subst k.
    destruct (Hf _ _ Hin) as (c & Hc & Hhd & Hon). exists q. rewrite Hh in Hc. by injection Hc as <-.
  - right. specialize (Ho h Hin). rewrite Hh in Ho. inversion Ho as [c ? Hmv|]; subst. by exists c.
Qed.

(** A main-chain block of [db'] is in the branch or was on the main chain. *)
Lemma view_main h c' : db' !! h = Some c' -> on_main_chain c' = true ->
  (exists c, (h, c) ∈ fork /\ ci_head c' = ci_head c /\ num anc.2 < num c' <= num new) \/
  (exists c, db !! h = Some c /\ ci_head c' = ci_head c /\ on_main_chain c = true /\
     num c' <= num anc.2).
Proof.
  intros Hh Hon. destruct (view_cases h c' Hh) as [(c & Hin & Hhd & _)|(c & Hc & Hhd & Hmv & _)].
  - left. exists c. destruct (fork_entry _ _ Hin) as [_ Hr]. unfold num in *. rewrite Hhd. done.
  - right. exists c. rewrite Hon in Hmv. symmetry in Hmv. apply andb_true_iff in Hmv as [Hc1 Hc2%Z.leb_le].
    unfold num in *. rewrite Hhd. done.
Qed.

Lemma view_old_main h c : db !! h = Some c -> on_main_chain c = true -> num c <= num anc.2 ->
  exists c', db' !! h = Some c' /\ ci_head c' = ci_head c /\ on_main_chain c' = true.
Proof.
  intros Hh Hon Hle. destruct Hview as [Hf Ho]. destruct (decide (h ∈ fork.*1)) as [Hin|Hin].
  - apply list_elem_of_fmap in Hin as ([k q] & Hk & Hin). cbn [fst] in Hk. subst k. exfalso.
    destruct (fork_entry _ _ Hin) as [[[-> ->]|(Hq & Hoff & _)] _]; congruence.
  - specialize (Ho h Hin). rewrite Hh in Ho. inversion Ho as [? c' (Hhd & Hmv & _)|]; subst. exists c'.
    split_and!; [done..|]. rewrite Hmv, Hon. by apply Z.leb_le.
Qed.

Lemma view_link h c' : db' !! h = Some c' -> on_main_chain c' = true -> m < num c' ->
  exists p, db' !! parent_hash (ci_head c') = Some p /\ on_main_chain p = true /\
    num p = num c' - 1.
Proof.
  intros Hh Hon Hlt. destruct (path_anc _ _ _ _ Hpath) as (Ha & Haon & _).
  assert (Hanc : exists p, db' !! anc.1 = Some p /\ on_main_chain p = true /\ num p = num anc.2).
  { destruct (view_old_main _ _ Ha Haon) as (p & Hp & Hhd & Hpon); [lia|]. exists p.
    unfold num. by rewrite Hhd. }
  assert (Hfork : forall k q, (k, q) ∈ fork ->
    exists p, db' !! k = Some p /\ on_main_chain p = true /\ num p = num q).
  { intros k q Hin. destruct (proj1 Hview _ _ Hin) as (p & Hp & Hhd & Hpon & _). exists p.
    unfold num. by rewrite Hhd. }
  destruct (view_main h c' Hh Hon) as [(c & Hin & Hhd & Hr)|(c & Hc & Hhd & Hcon & Hle)].
  - assert (Hn : num c' = num c) by (unfold num; by rewrite Hhd). rewrite Hhd, Hn.
    apply elem_of_cons in Hin as [[= -> ->]|Hin].
    + rewrite Hlink, Hnum. replace (num par.2 + 1 - 1) with (num par.2) by lia.
      inversion Hpath; subst; [done|]. apply Hfork. right. destruct par. by left.
    + destruct (path_link _ _ _ _ Hpath _ _ Hin) as (p & <- & [Hp|<-]); [apply Hfork; by right|done].
  - destruct (co_link _ _ _ _ Hok h c Hc Hcon) as (p & Hp & Hpon & Hpn); [unfold num in *; by rewrite <-Hhd|].
    assert (Hn : num c' = num c) by (unfold num; by rewrite Hhd).
    destruct (view_old_main _ _ Hp Hpon) as (p' & Hp' & Hphd & Hpon'); [lia|].
    exists p'. rewrite Hhd. split_and!; [done..|]. rewrite Hn, <-Hpn. unfold num. by rewrite Hphd.
Qed.

Lemma view_fork h c' : db' !! h = Some c' -> on_main_chain c' = false ->
  is_macro (ci_head c') = false /\ main_chain_successor c' = None /\ parent_hash (ci_head c') <> nh /\
  exists p, db' !! parent_hash (ci_head c') = Some p /\ num p = num c' - 1.
Proof.
  intros Hh Hoff.
  destruct (view_cases h c' Hh) as [(c & _ & _ & Hon & _)|(c & Hc & Hhd & Hmv & Hsu)]; [congruence|].
  rewrite Hoff in Hmv. symmetry in Hmv.
  assert (Hcf : is_macro (ci_head c) = false /\ main_chain_successor c' = None /\
    exists p, db !! parent_hash (ci_head c) = Some p /\ num p = num c - 1).
  { destruct (on_main_chain c) eqn:Hcon; cbn [andb] in Hmv, Hsu.
    - apply Z.leb_gt in Hmv. pose proof (path_above _ _ _ _ _ _ _ Hok Hpath Hpar Hm).
      destruct (co_link _ _ _ _ Hok h c Hc Hcon) as (p & Hp & _ & Hpn); [lia|]. split_and!.
      + eapply (above_macro _ _ _ _ Hok); [done|lia].
      + rewrite Hsu. destruct (Z.leb_spec (num anc.2) (num c)), (Z.eqb_spec (num c) (num anc.2)); done || lia.
      + by exists p.
    - destruct (co_off _ _ _ _ Hok h c Hc Hcon) as [Hn _], (co_fork _ _ _ _ Hok h c Hc Hcon).
      split_and!; [done|congruence|done]. }
  destruct Hcf as (Hma & Hn & p & Hp & Hpn). rewrite Hhd. split_and!; [done..|congruence|].
  destruct (view_present _ _ Hp) as (p' & Hp' & Hphd). exists p'. split; [done|].
  unfold num in *. by rewrite Hphd, Hhd.
Qed.

Lemma view_last c : db' !! nh = Some c -> main_chain_successor c = None.
Proof.
  intros Hc. destruct (proj1 Hview nh new) as (c' & Hc' & Hhd & _ & Hnx); [by left|].
  rewrite Hc in Hc'. injection Hc' as <-. destruct Hnx as [[Hn _]|(s & q & _ & Hq & Hqn)]; [done|].
  destruct (fork_entry _ _ Hq) as [_ Hr]. assert (num c = num new) by (unfold num; by rewrite Hhd). lia.
Qed.

Lemma view_succ h c' : db' !! h = Some c' -> on_main_chain c' = true -> m <= num c' -> h <> nh ->
  exists s q, main_chain_successor c' = Some s /\ db' !! s = Some q /\ on_main_chain q = true /\
    num q = num c' + 1.
Proof.
  intros Hh Hon Hle Hne.
  assert (Hfork : forall k q, (k, q) ∈ fork ->
    exists p, db' !! k = Some p /\ on_main_chain p = true /\ num p = num q).
  { intros k q Hin. destruct (proj1 Hview _ _ Hin) as (p & Hp & Hhd & Hpon & _). exists p.
    unfold num. by rewrite Hhd. }
  destruct (view_cases h c' Hh) as [(c & Hin & Hhd & _ & Hnx)|(c & Hc & Hhd & Hmv & Hsu)].
  - destruct Hnx as [[_ Hn]|(s & q & Hs & Hq & Hqn)]; [cbn in Hn; congruence|].
    destruct (Hfork _ _ Hq) as (p & Hp & Hpon & Hpn). exists s, p. split_and!; [done..|lia].
  - rewrite Hon in Hmv. symmetry in Hmv. apply andb_true_iff in Hmv as [Hcon Hca%Z.leb_le].
    assert (Hn : num c' = num c) by (unfold num; by rewrite Hhd). rewrite Hn in *. rewrite Hcon in Hsu.
    cbn [andb] in Hsu. destruct (path_anc _ _ _ _ Hpath) as (Ha & Haon & _).
    destruct (Z.leb_spec (num anc.2) (num c)) as [Hge|Hlt].
    + replace (num c =? num anc.2) with true in Hsu by (symmetry; apply Z.eqb_eq; lia).
      destruct (path_last _ _ _ _ Hpath (nh, new)) as (s & q & Hl & Hq & Hqn); [cbn [snd]; lia|].
      rewrite Hl in Hsu. destruct (Hfork _ _ Hq) as (p & Hp & Hpon & Hpn).
      exists s, p. split_and!; [done..|lia].
    + destruct (co_head _ _ _ _ Hok) as (hd & Hhd0 & _).
      pose proof (co_top _ _ _ _ Hok _ _ _ Ha Haon Hhd0).
      destruct (co_succ _ _ _ _ Hok h c Hc Hcon Hle) as (s & q & Hs & Hq & Hqon & Hqn);
        [intros ->; rewrite Hhd0 in Hc; injection Hc as ->; lia|].
      destruct (view_old_main _ _ Hq Hqon) as (q' & Hq' & Hqhd & Hqon'); [lia|].
      exists s, q'. split_and!; [congruence|done..|]. unfold num in *. by rewrite Hqhd.
Qed.

Lemma view_chain_ok mh' m' :
  m <= m' <= num new -> macro_number m' -> num new < m' + bpb ->
  (exists c, db' !! mh' = Some c /\ on_main_chain c = true /\ num c = m') ->
  chain_ok db' nh mh' m'.
Proof.
  intros Hm' Hmn Hr Hmac. pose proof (path_above _ _ _ _ _ _ _ Hok Hpath Hpar Hm) as Hma.
  assert (Hhead : exists c, db' !! nh = Some c /\ ci_head c = ci_head new /\ on_main_chain c = true)
    by (destruct (proj1 Hview nh new) as (c & ? & ? & ? & _); [by left|by exists c]).
  split; [|done|done| | | | | | | | |].
  - destruct Hhead as (c & Hc & Hhd & Hon). exists c. split_and!; [done..|]. unfold num in *. rewrite Hhd. lia.
  - intros h ci hd Hh Hon Hhd. destruct Hhead as (c & Hc & Hch & _). rewrite Hc in Hhd. injection Hhd as <-.
    destruct (path_anc _ _ _ _ Hpath) as (_ & _ & Ha).
    replace (num c) with (num new) by (unfold num; by rewrite Hch).
    destruct (view_main h ci Hh Hon) as [(q & _ & _ & ?)|(q & _ & _ & _ & ?)]; lia.
  - intros h1 h2 c1 c2 H1 H2 Hon1 Hon2 He Hle.
    destruct (view_main h1 c1 H1 Hon1) as [(q1 & Hq1 & Hhd1 & L1)|(q1 & Hq1 & Hhd1 & Hqon1 & L1)],
      (view_main h2 c2 H2 Hon2) as [(q2 & Hq2 & Hhd2 & L2)|(q2 & Hq2 & Hhd2 & Hqon2 & L2)]; [|lia|lia|];
      unfold num in He, Hle; rewrite Hhd1 in *; rewrite Hhd2 in *.
    + by eapply (fork_unique h1 q1 h2 q2).
    + eapply (co_uniq _ _ _ _ Hok h1 h2 q1 q2); try done. unfold num. lia.
  - intros h ci Hh Hon Hlt. apply (view_link h); [done..|lia].
  - intros h ci Hh Hoff. by destruct (view_fork h ci Hh Hoff) as (? & _ & _ & ?).
  - intros h ci Hh. destruct (view_cases h ci Hh) as [(c & Hin & Hhd & _)|(c & Hc & Hhd & _)];
      unfold num; rewrite Hhd.
    + destruct (fork_entry _ _ Hin) as [[[-> ->]|(Hc & _)] _]; [done|by apply (co_type _ _ _ _ Hok h)].
    + by apply (co_type _ _ _ _ Hok h).
  - pose proof (co_range _ _ _ _ Hok _ _ Hpar) as Hpr.
    intros h ci Hh. destruct (view_cases h ci Hh) as [(c & Hin & Hhd & _)|(c & Hc & Hhd & _)];
      replace (num ci) with (num c) by (unfold num; by rewrite Hhd).
    + pose proof (co_number _ _ _ _ Hok) as [Hg _]. destruct (fork_entry _ _ Hin) as [_ ?]. lia.
    + pose proof (co_range _ _ _ _ Hok _ _ Hc). lia.
  - intros h ci Hh Hon Hle. apply view_succ; [done..|lia].
  - apply view_last.
  - intros h ci Hh Hoff. by destruct (view_fork h ci Hh Hoff) as (_ & ? & ? & _).
Qed.

Lemma view_micro : is_macro (ci_head new) = false -> chain_ok db' nh mh m.
Proof.
  intros Hmi. pose proof (path_above _ _ _ _ _ _ _ Hok Hpath Hpar Hm) as Hma.
  pose proof (co_range _ _ _ _ Hok _ _ Hpar) as Hpr. pose proof (co_number _ _ _ _ Hok) as Hmn.
  apply view_chain_ok; [lia|done| |].
  - destruct (decide (num new = m + bpb)) as [He|]; [|lia]. exfalso.
    assert (is_macro (ci_head new) = true); [|congruence]. apply Htype. rewrite He. by apply macro_number_next.
  - destruct (co_macro _ _ _ _ Hok) as (c & Hc & Hon & <-).
    destruct (view_old_main _ _ Hc Hon Hma) as (c' & Hc' & Hhd & Hon'). exists c'. split_and!; [done..|].
    unfold num. by rewrite Hhd.
Qed.

Lemma view_macro : is_macro (ci_head new) = true -> num new = m + bpb /\ chain_ok db' nh nh (num new).
Proof.
  intros Hma%Htype. pose proof (co_range _ _ _ _ Hok _ _ Hpar) as Hpr. pose proof (co_number _ _ _ _ Hok) as Hmn.
  pose proof (macro_number_gap m (num new) Hmn Hma ltac:(lia)) as Hgap. split; [lia|].
  pose proof bpb_pos. apply view_chain_ok; [lia|done|lia|].
  destruct (proj1 Hview nh new) as (c & Hc & Hhd & Hon & _); [by left|]. exists c. split_and!; [done..|].
  unfold num. by rewrite Hhd.
Qed.
End View.
End Rebranch.

(** ** Macro blocks and stored branches *)

Section Tips.
Context `{P : Policy} {PolOk : PolicyOk P} `{BEnv : BlockEnv}.
#[local] Abbreviation bpb := blocks_per_batch.
#[local] Abbreviation genesis := genesis_block_number.

(** A store whose newest block is a macro block on the main chain. *)
Lemma tip_chain_ok db nh n c :
  db !! nh = Some c -> on_main_chain c = true -> num c = n -> macro_number n ->
  typed_db db n -> fork_closed db ->
  (forall h ci, db !! h = Some ci -> on_main_chain ci = true -> num ci = n -> h = nh) ->
  main_chain_successor c = None ->
  (forall h ci, db !! h = Some ci -> on_main_chain ci = false ->
     main_chain_successor ci = None /\ parent_hash (ci_head ci) <> nh) ->
  chain_ok db nh nh n.
Proof.
  intros Hc Hon Hn Hmn Ht Hf Hu Hlast Hoff. pose proof bpb_pos.
  assert (Hle : forall h ci, db !! h = Some ci -> genesis <= num ci <= n) by (intros; by eapply Ht).
  split; try done.
  - exists c. split_and!; [done..|lia].
  - by exists c.
  - intros h ci hd Hh _ Hhd. specialize (Hle _ _ Hh). rewrite Hc in Hhd. injection Hhd as <-. lia.
  - intros h1 h2 c1 c2 H1 H2 Hon1 Hon2 He Hge.
    pose proof (Hle _ _ H1). pose proof (Hle _ _ H2).
    rewrite (Hu h1 c1), (Hu h2 c2); done || lia.
  - intros h ci Hh _ Hlt. specialize (Hle _ _ Hh). lia.
  - intros h ci Hh. by eapply Ht.
  - intros h ci Hh. specialize (Hle _ _ Hh). lia.
  - intros h ci Hh Hci Hge Hne. specialize (Hle _ _ Hh). destruct Hne. apply (Hu h ci); [done..|lia].
  - intros hd Hhd. congruence.
Qed.

Lemma chain_ok_typed db hh mh m top : chain_ok db hh mh m -> m + bpb - 1 <= top -> typed_db db top.
Proof.
  intros Hok Htop h ci Hh. split; [by apply (co_type _ _ _ _ Hok h)|].
  pose proof (co_range _ _ _ _ Hok _ _ Hh). lia.
Qed.
Lemma chain_ok_closed db hh mh m : chain_ok db hh mh m -> fork_closed db.
Proof. intros Hok h ci. apply (co_fork _ _ _ _ Hok). Qed.

(** Adopting a macro block above everything stored, old blocks removed. *)
Lemma adopt_chain_ok st hh mh m nh new :
  chain_ok (chain_db st) hh mh m -> m < num new -> macro_number (num new) -> safe_number (num new) ->
  is_macro (ci_head new) = true -> on_main_chain new = true -> main_chain_successor new = None ->
  chain_db st !! nh = None ->
  chain_ok (<[nh := new]> (chain_db (clear_old_blocks (num new) st))) nh nh (num new).
Proof.
  intros Hok Hlt Hmn Hs Hma Hon Hnx Hfresh.
  pose proof (macro_number_gap _ _ (co_number _ _ _ _ Hok) Hmn Hlt) as Hgap.
  assert (Ht : typed_db (chain_db st) (num new)) by (eapply chain_ok_typed; [done|lia]).
  assert (Hlow : forall h ci, chain_db (clear_old_blocks (num new) st) !! h = Some ci -> num ci < num new).
  { intros h ci [Hh _]%clear_lookup. pose proof (co_range _ _ _ _ Hok _ _ Hh). lia. }
  eapply tip_chain_ok; [apply lookup_insert_eq|done..| | | |done|].
  - intros h ci [[<- <-]|[_ [Hh _]%clear_lookup]]%lookup_insert_Some; [|by eapply Ht].
    split; [done|]. destruct Hs. lia.
  - pose proof (clear_fork_closed _ _ Hmn Hs Ht (chain_ok_closed _ _ _ _ Hok)) as Hf.
    intros h ci [[<- <-]|[Hne Hh]]%lookup_insert_Some Hoff; [congruence|].
    destruct (Hf h ci Hh Hoff) as (Hmi & p & Hp & Hpn). split; [done|].
    exists p. rewrite lookup_insert_ne; [done|]. intros ->. apply clear_lookup in Hp as [Hp _]. congruence.
  - intros h ci [[<- <-]|[_ Hh]]%lookup_insert_Some _ He; [done|]. specialize (Hlow _ _ Hh). lia.
  - intros h ci [[<- <-]|[_ [Hh _]%clear_lookup]]%lookup_insert_Some Hoff; [congruence|].
    destruct (co_off _ _ _ _ Hok h ci Hh Hoff) as [? _]. split; [done|].
    destruct (co_fork _ _ _ _ Hok h ci Hh Hoff) as (_ & p & Hp & _). congruence.
Qed.

(** Removing old blocks below a macro head. *)
Lemma clear_chain_ok st nh n :
  chain_ok (chain_db st) nh nh n -> safe_number n -> typed_db (chain_db st) n ->
  chain_ok (chain_db (clear_old_blocks n st)) nh nh n.
Proof.
  intros Hok Hs Ht. destruct (co_macro _ _ _ _ Hok) as (c & Hc & Hon & Hn).
  pose proof (co_number _ _ _ _ Hok) as Hmn. pose proof bpb_pos.
  eapply tip_chain_ok; [|done..| | | | |].
  - apply clear_lookup. split; [done|]. destruct Hs. apply retain_small; [done|lia|lia].
  - intros h ci [Hh _]%clear_lookup. by eapply Ht.
  - apply clear_fork_closed; [done..|]. by eapply chain_ok_closed.
  - intros h ci [Hh _]%clear_lookup Hon' He.
    eapply (co_uniq _ _ _ _ Hok h nh ci c); try done; lia.
  - by apply (co_last _ _ _ _ Hok).
  - intros h ci [Hh _]%clear_lookup. by apply (co_off _ _ _ _ Hok h).
Qed.

(** Storing a micro block off the main chain. *)
Lemma store_chain_ok db hh mh m nh new par :
  chain_ok db hh mh m -> db !! nh = None -> on_main_chain new = false ->
  main_chain_successor new = None -> parent_hash (ci_head new) <> hh ->
  is_macro (ci_head new) = false -> (is_macro (ci_head new) = true <-> macro_number (num new)) ->
  db !! parent_hash (ci_head new) = Some par -> num par = num new - 1 -> m <= num par ->
  chain_ok (<[nh := new]> db) hh mh m.
Proof.
  intros Hok Hfresh Hoff Hnx Htip Hmi Hty Hp Hpn Hm. pose proof (co_range _ _ _ _ Hok _ _ Hp) as Hr.
  assert (Hkeep : forall h c, db !! h = Some c -> <[nh := new]> db !! h = Some c).
  { intros h c Hh. rewrite lookup_insert_ne; [done|]. intros ->. congruence. }
  assert (Hmain : forall h c, <[nh := new]> db !! h = Some c -> on_main_chain c = true -> db !! h = Some c).
  { intros h c [[<- <-]|[_ Hh]]%lookup_insert_Some Hon; [congruence|done]. }
  split.
  - destruct (co_head _ _ _ _ Hok) as (c & Hc & ?). eauto.
  - destruct (co_macro _ _ _ _ Hok) as (c & Hc & ?). eauto.
  - apply Hok.
  - intros h ci hd Hh Hon Hhd. destruct (co_head _ _ _ _ Hok) as (c & Hc & _).
    rewrite (Hkeep _ _ Hc) in Hhd. injection Hhd as <-. eapply (co_top _ _ _ _ Hok h); eauto.
  - intros h1 h2 c1 c2 H1 H2 Hon1 Hon2. eapply (co_uniq _ _ _ _ Hok); eauto.
  - intros h ci Hh Hon Hlt. destruct (co_link _ _ _ _ Hok h ci) as (p & Hp' & ?); eauto.
  - intros h ci [[<- <-]|[_ Hh]]%lookup_insert_Some Hof; [eauto|].
    destruct (co_fork _ _ _ _ Hok h ci Hh Hof) as (? & p & Hp' & ?). eauto.
  - intros h ci [[<- <-]|[_ Hh]]%lookup_insert_Some; [done|]. by apply (co_type _ _ _ _ Hok h).
  - intros h ci [[<- <-]|[_ Hh]]%lookup_insert_Some; [|by apply (co_range _ _ _ _ Hok h)].
    destruct (decide (num new = m + bpb)) as [He|]; [|lia]. exfalso.
    assert (is_macro (ci_head new) = true); [|congruence]. apply Hty. rewrite He.
    apply macro_number_next, Hok.
  - intros h ci Hh Hon Hle Hne. destruct (co_succ _ _ _ _ Hok h ci) as (s & c & ? & Hs & ?); eauto.
    exists s, c. eauto.
  - intros hd Hhd. destruct (co_head _ _ _ _ Hok) as (c & Hc & _). rewrite (Hkeep _ _ Hc) in Hhd.
    injection Hhd as <-. by apply (co_last _ _ _ _ Hok).
  - intros h ci [[<- <-]|[_ Hh]]%lookup_insert_Some Hof; [done|]. by apply (co_off _ _ _ _ Hok h).
Qed.
End Tips.
