(* ===== verification/LightVerify.v ===== *)
(** * The light blockchain: slot selection and checks

    The checks of a block never panic on the values that a light node feeds them,
    and the selection of the proposer of a block is fair among the enabled slots. *)

From S2P Require Import Prelude Coin Policy BitSet AccountTypes Codec TxContent Discrete Slots.
From S2P Require Import Election Vrf Block Bls Equivocation BlockVerify LightChain.
From S2P Require Import LightChainInv.

(** ** Computations that do not panic *)

Definition no_panic {E A} (o : outcome E A) : Prop := o <> Panic.

Create HintDb nopanic.

Lemma no_panic_bind {E A B} (o : outcome E A) (k : A -> outcome E B) :
  no_panic o -> (forall a, o = Ok a -> no_panic (k a)) -> no_panic (o ≫= k).
Proof. destruct o as [a|e|]; [|done..]. intros _ Hk. by apply Hk. Qed.
Lemma no_panic_err_if {E} b (e : E) : no_panic (err_if b e).
Proof. by destruct b. Qed.
Lemma no_panic_or_err {E A} (o : option A) (e : E) : no_panic (or_err o e).
Proof. by destruct o. Qed.
Lemma no_panic_ok {E A} (a : A) : no_panic (E := E) (Ok a).
Proof. done. Qed.
Lemma no_panic_err {E A} (e : E) : no_panic (A := A) (Err e).
Proof. done. Qed.
Lemma no_panic_unwrap {E A} (o : option A) : is_Some o -> no_panic (E := E) (unwrap o).
Proof. by intros [a ->]. Qed.
#[export] Hint Resolve no_panic_bind no_panic_err_if no_panic_or_err no_panic_ok no_panic_err : nopanic.

(** ** Slot selection *)

Section Shuffle.
Context `{P : Policy} `{BEnv : BlockEnv} `{Cv : Curve} `{SEnv : SlotEnv}.
#[local] Existing Instance vrf_rng.

Lemma swap_perm l i j l' : swap l i j = Some l' -> l' ≡ₚ l.
Proof.
  unfold swap. intros (x & Hi & (y & Hj & [= <-])%bind_Some)%bind_Some.
  destruct (decide (i = j)) as [->|Hne].
  { rewrite Hi in Hj. injection Hj as <-. by rewrite !list_insert_id by (rewrite ?list_insert_id; done). }
  apply Permutation_inj. split; [by rewrite !length_insert|].
  apply lookup_lt_Some in Hi as Li. apply lookup_lt_Some in Hj as Lj.
  exists (fun k => if decide (k = i) then j else if decide (k = j) then i else k). split.
  - intros a b. repeat case_decide; congruence.
  - intros k. destruct (decide (k = i)) as [->|]; [|destruct (decide (k = j)) as [->|]].
    + rewrite list_lookup_insert_ne by done. by rewrite list_lookup_insert_eq by done.
    + rewrite list_lookup_insert_eq by (by rewrite length_insert). done.
    + by rewrite !list_lookup_insert_ne by done.
Qed.
Lemma swap_total l i j : (i < length l)%nat -> (j < length l)%nat ->
  exists l', swap l i j = Some l' /\ length l' = length l.
Proof.
  intros [x Hx]%lookup_lt_is_Some [y Hy]%lookup_lt_is_Some. unfold swap. rewrite Hx, Hy.
  eexists. split; [done|]. by rewrite !length_insert.
Qed.

Lemma shuffle_perm i slots r slots' : shuffle i slots r = Some slots' -> slots' ≡ₚ slots.
Proof.
  revert slots r. induction i as [|i IH]; intros slots r; cbn [shuffle]; [by intros [= <-]|].
  intros ([x r'] & _ & (slots1 & Hsw & Hs)%bind_Some)%bind_Some. rewrite (IH _ _ Hs). by eapply swap_perm.
Qed.

(** The shuffle draws no index out of bounds. *)
Lemma shuffle_total i slots r : productive (R := VrfRng) draw_fuel ->
  (i < length slots <= 512)%nat -> is_Some (shuffle i slots r).
Proof.
  intros Hp. revert slots r. induction i as [|i IH]; intros slots r Hi; cbn [shuffle]; [by eexists|].
  destruct (Hp (Z.of_nat (S i + 1)) r) as [[x r'] Hx]; [lia|].
  pose proof (next_u64_below_range _ _ _ _ _ Hx ltac:(lia)) as Hr. rewrite Hx. cbn [mbind option_bind].
  destruct (swap_total slots (Z.to_nat x) (S i)) as (slots' & Hsw & Hl); [lia..|]. rewrite Hsw.
  cbn [mbind option_bind]. apply IH. lia.
Qed.

Lemma all_slots_spec :
  length all_slots = 512%nat /\ NoDup all_slots /\ forall s, s ∈ all_slots <-> 0 <= s < SLOTS.
Proof.
  unfold all_slots, SLOTS. split_and!; [by rewrite length_seqZ|apply NoDup_seqZ|].
  intros s. rewrite elem_of_seqZ. lia.
Qed.

(** A slot is accepted when it exists and is enabled, or when the set counts as
    disabling every slot. *)
Lemma viable_elem disabled s :
  s ∈ viable_slots disabled <-> 0 <= s < SLOTS /\
    (contains disabled s = false \/ len disabled = SLOTS \/
     forall t, 0 <= t < SLOTS -> contains disabled t = true).
Proof.
  unfold viable_slots. destruct all_slots_spec as (Hlen & _ & Hall).
  set (f := fun slot => negb (contains disabled slot)).
  assert (Hf : forall s, s ∈ List.filter f all_slots <-> 0 <= s < SLOTS /\ contains disabled s = false).
  { intros t. rewrite <-Hall, !list_elem_of_In, filter_In. unfold f. by rewrite negb_true_iff. }
  destruct (Z.eqb_spec (len disabled) SLOTS) as [He|Hne].
  { rewrite bool_decide_eq_false_2 by (intros Hn; by rewrite Hn in Hlen). rewrite Hall. split; [|by intros [? _]]. intros Hs. split; [done|]. by right; left. }
  case_bool_decide as Hnil.
  - rewrite Hall. split; [|by intros [? _]]. intros Hs. split; [done|]. right. right. intros t Ht.
    destruct (contains disabled t) eqn:Hc; [done|].
    assert (Hin : t ∈ List.filter f all_slots) by by apply Hf. rewrite Hnil in Hin. by apply not_elem_of_nil in Hin.
  - rewrite Hf. split; [intros [? ?]; split; [done|by left]|]. intros (Hs & [Hc|[Hc|Hc]]); [done|done|]. exfalso. apply Hnil.
    destruct (List.filter f all_slots) as [|t l] eqn:Hl; [done|].
    destruct (proj1 (Hf t)) as [Ht Hct]; [left|]. by rewrite Hc in Hct.
Qed.

Lemma viable_slots_spec disabled :
  (0 < length (viable_slots disabled) <= 512)%nat /\ NoDup (viable_slots disabled).
Proof.
  unfold viable_slots. destruct all_slots_spec as (Hlen & Hnd & _).
  set (f := fun slot => negb (contains disabled slot)).
  destruct (_ =? _).
  { rewrite bool_decide_eq_false_2 by (intros Hn; by rewrite Hn in Hlen). rewrite Hlen. split; [lia|done]. }
  case_bool_decide as Hnil; [rewrite Hlen; split; [lia|done]|]. split; [split|].
  - destruct (List.filter f all_slots); [done|]. simpl. lia.
  - rewrite <-Hlen. apply filter_length_le.
  - apply NoDup_ListNoDup, List.NoDup_filter, NoDup_ListNoDup, Hnd.
Qed.

(** A punished set within the slots that leaves a slot enabled has fewer entries
    than there are slots. *)
Lemma len_enabled disabled t :
  wf disabled -> (forall s, s ∈ to_set disabled -> s < SLOTS) -> 0 <= t < SLOTS ->
  contains disabled t = false -> len disabled <> SLOTS.
Proof.
  intros Hwf Hall Ht Hc. unfold len. rewrite <-size_to_set by done.
  assert (Hsub : to_set disabled ∪ {[t]} ⊆ list_to_set all_slots).
  { intros s [Hs| ->%elem_of_singleton]%elem_of_union; apply elem_of_list_to_set; unfold all_slots, SLOTS in *;
      apply elem_of_seqZ; [|lia]. pose proof (Hall s Hs). apply elem_of_to_set in Hs as [? _]. lia. }
  apply subseteq_size in Hsub. rewrite size_list_to_set in Hsub by apply NoDup_seqZ.
  rewrite size_union, size_singleton in Hsub.
  - unfold all_slots, SLOTS in *. rewrite length_seqZ in Hsub. lia.
  - intros s Hs ->%elem_of_singleton. apply elem_of_to_set in Hs as [_ Hs]. congruence.
Qed.

Lemma compute_slot_spec entropy disabled :
  productive (R := VrfRng) draw_fuel ->
  exists slots, slots ≡ₚ viable_slots disabled /\
    forall offset, compute_slot_number offset entropy disabled =
      slots !! Z.to_nat (offset `mod` Z.of_nat (length slots)).
Proof.
  intros Hp. destruct (viable_slots_spec disabled) as [Hl _]. unfold compute_slot_number.
  destruct (shuffle_total (length (viable_slots disabled) - 1) (viable_slots disabled)
              (mk_vrf_rng entropy ViewSlotSelection 0) Hp) as [slots Hs]; [lia|].
  exists slots. rewrite Hs. split; [by eapply shuffle_perm|done].
Qed.

Lemma compute_slot_total offset entropy disabled :
  productive (R := VrfRng) draw_fuel ->
  exists slot, compute_slot_number offset entropy disabled = Some slot /\
    slot ∈ viable_slots disabled.
Proof.
  intros Hp. destruct (compute_slot_spec entropy disabled Hp) as (slots & Hperm & Heq).
  destruct (viable_slots_spec disabled) as [Hl _]. rewrite <-Hperm in Hl.
  pose proof (Z.mod_pos_bound offset (Z.of_nat (length slots)) ltac:(lia)) as Hb.
  destruct (lookup_lt_is_Some_2 slots (Z.to_nat (offset `mod` Z.of_nat (length slots)))) as [s Hs]; [lia|].
  exists s. rewrite Heq. split; [done|]. rewrite <-Hperm. by eapply list_elem_of_lookup_2.
Qed.

(** The offsets of one round, [n] consecutive ones, are one per index. *)
Lemma offset_of_index start n i : 0 <= i < n ->
  exists offset, start <= offset < start + n /\ offset `mod` n = i /\
    forall other, start <= other < start + n -> other `mod` n = i -> other = offset.
Proof.
  intros Hi. assert (Hn : 0 < n) by lia. pose proof (Z.mod_pos_bound (i - start) n Hn) as Hb.
  exists (start + (i - start) `mod` n). split_and!; [lia|lia| |].
  - rewrite Z.add_mod_idemp_r by lia. replace (start + (i - start)) with i by lia. apply Z.mod_small. lia.
  - intros other Ho Hmo. replace (i - start) with (i + (- start)) by lia. rewrite <-Hmo.
    rewrite Z.add_mod_idemp_l by lia. replace (other + - start) with (other - start) by lia.
    rewrite Z.mod_small by lia. lia.
Qed.

(** C34: provided that no run of [draw_fuel] draws in a row is rejected
    ([productive]), the selection of proposers is total and rotates.  No index of the
    shuffle is out of bounds, every offset selects a viable slot, and among any [n]
    consecutive offsets, [n] the number of viable slots, each viable slot is selected
    exactly once.  A slot is viable when it exists and is not disabled; when all slots
    are disabled, or the set has as many entries as there are slots, every slot is.
    For a well-formed set without entries out of range the two exceptions are one. *)
Theorem proposers_rotate entropy disabled :
  productive (R := VrfRng) draw_fuel ->
  let n := Z.of_nat (length (viable_slots disabled)) in
  let all_disabled := forall t, 0 <= t < SLOTS -> contains disabled t = true in
  0 < n <= SLOTS /\
  (forall s, s ∈ viable_slots disabled <->
     0 <= s < SLOTS /\ (contains disabled s = false \/ len disabled = SLOTS \/ all_disabled)) /\
  (wf disabled -> (forall s, s ∈ to_set disabled -> s < SLOTS) -> len disabled = SLOTS -> all_disabled) /\
  (forall offset, exists slot, compute_slot_number offset entropy disabled = Some slot /\
     slot ∈ viable_slots disabled) /\
  (forall start slot, slot ∈ viable_slots disabled ->
     exists offset, start <= offset < start + n /\
       compute_slot_number offset entropy disabled = Some slot /\
       forall other, start <= other < start + n ->
         compute_slot_number other entropy disabled = Some slot -> other = offset).
Proof.
  intros Hp n all_disabled. destruct (viable_slots_spec disabled) as (Hl & Hnd). split_and!.
  - lia.
  - unfold SLOTS. lia.
  - apply viable_elem.
  - intros Hwf Hall Hlen t Ht. destruct (contains disabled t) eqn:Hc; [done|].
    by destruct (len_enabled disabled t Hwf Hall Ht Hc).
  - intros offset. by apply compute_slot_total.
  - intros start slot Hv. destruct (compute_slot_spec entropy disabled Hp) as (slots & Hperm & Heq).
    assert (Hlen : Z.of_nat (length slots) = n) by (unfold n; by rewrite Hperm).
    rewrite <-Hperm in Hv, Hnd. apply list_elem_of_lookup_1 in Hv as [i Hi].
    apply lookup_lt_Some in Hi as Hil. setoid_rewrite Heq. rewrite Hlen.
    destruct (offset_of_index start n (Z.of_nat i)) as (offset & Ho & Hm & Hu); [lia|].
    exists offset. rewrite Hm, Nat2Z.id. split_and!; [lia|lia|done|]. intros other Hoth Hs.
    apply Hu; [done|]. pose proof (Z.mod_pos_bound other n ltac:(lia)).
    pose proof (NoDup_lookup _ _ _ _ Hnd Hi Hs). lia.
Qed.
End Shuffle.

(** ** The checks of a block *)

Section Checks.
Context `{P : Policy} {PolOk : PolicyOk P} `{BEnv : BlockEnv} `{Cv : Curve} `{Bls : BlsEnv}.
Context `{Bd : BodyEnv} `{SEnv : SlotEnv}.

(** The values that a decoded block can have: sets of signers hold [u16]s. *)
Definition nonneg_signers (sig : MultiSignature) : Prop := forall s, s ∈ ms_signers sig -> 0 <= s.
Definition typed_justification (block : Block) : Prop :=
  match block with
  | BMacro block => forall proof, ma_justification block = Some proof -> nonneg_signers (tp_sig proof)
  | BMicro block => forall proof, mi_justification block = Some (Skip proof) ->
      nonneg_signers (sp_sig proof)
  end.

Lemma aggregate_slots_total validators slots agg :
  well_formed validators -> Forall (fun s => 0 <= s < SLOTS) slots ->
  is_Some (aggregate_slots validators slots agg).
Proof.
  intros Hwf Hs. revert agg. induction Hs as [|s slots Hs _ IH]; intros agg; [by eexists|].
  cbn [aggregate_slots]. destruct (get_band_spec _ _ Hwf Hs) as (k & v & Hb & Hk & _).
  unfold get_validator_by_slot_number. rewrite Hb. cbn [mbind option_bind]. rewrite Nat2Z.id, Hk.
  cbn [mbind option_bind]. destruct (uncompress_key _); [apply IH|by eexists].
Qed.

Lemma signers_slots sig slots :
  nonneg_signers sig -> checked_signer_slots (ms_signers sig) = Some slots ->
  Forall (fun s => 0 <= s < SLOTS) slots.
Proof.
  intros Hn [-> Hs]%checked_signer_slots_some. apply Forall_forall. intros s Hin%elem_of_sorted_set.
  split; [by apply Hn|by apply Hs].
Qed.

Lemma verify_tendermint_total block validators :
  well_formed validators -> typed_justification (BMacro block) ->
  is_Some (verify_tendermint_proof block validators).
Proof.
  intros Hwf Ht. unfold verify_tendermint_proof.
  destruct (ma_justification block) as [proof|] eqn:Hj; [|by eexists].
  destruct (checked_signer_slots _) as [slots|] eqn:Hs; [|by eexists].
  destruct (_ <? _); [by eexists|].
  destruct (aggregate_slots_total validators slots aggregate_public_key_new Hwf) as [[pk|] Hpk];
    [by eapply signers_slots; [apply Ht|]|..]; rewrite Hpk; by eexists.
Qed.

Lemma verify_skip_total proof info state_root version validators :
  well_formed validators -> nonneg_signers (sp_sig proof) ->
  is_Some (verify_skip_block_proof proof info state_root version validators).
Proof.
  intros Hwf Ht. unfold verify_skip_block_proof.
  destruct (checked_signer_slots _) as [slots|] eqn:Hs; [|by eexists].
  destruct (_ <? _); [by eexists|].
  destruct (aggregate_slots_total validators slots aggregate_public_key_new Hwf) as [[pk|] Hpk];
    [by eapply signers_slots|..]; rewrite Hpk; by eexists.
Qed.

(** [try_entropy] of a seed succeeds. *)
Definition valid_seed (seed : Z) : Prop := is_Some (try_entropy seed).

(** [nonspec_map_to_curve] never fails: the map always yields a curve point. *)
Definition map_total : Prop := forall input, is_Some (nonspec_map_to_curve input).

Ltac np := repeat first
  [ apply no_panic_err_if | apply no_panic_or_err | apply no_panic_ok | apply no_panic_err
  | apply no_panic_unwrap; solve [eauto]
  | apply no_panic_bind; [|intros ? ?] ].

Lemma verify_block_safe block net max_timestamp :
  has_body block = false -> no_panic (verify_block block net max_timestamp).
Proof.
  intros Hb. unfold verify_block, verify_header, verify_macro_header, has_body in *.
  destruct block as [block|block]; [destruct (ma_body block)|destruct (mi_body block)]; try done; np.
  destruct (MacroHeader.validators _); np.
Qed.

Lemma verify_immediate_safe block predecessor : no_panic (verify_immediate_successor block predecessor).
Proof. unfold verify_immediate_successor. np. destruct (is_skip block); np. Qed.

Lemma verify_macro_successor_safe block predecessor : no_panic (verify_macro_successor block predecessor).
Proof. unfold verify_macro_successor. destruct block; [np|done]. Qed.

Lemma vrf_verify_safe seed prev_seed key nonce :
  valid_seed prev_seed -> map_total -> no_panic (Vrf.verify seed prev_seed key nonce).
Proof.
  intros Hs Hm. unfold Vrf.verify. np.
  destruct (_ || _); [done|]. by destruct (_ =? _).
Qed.

Lemma verify_proposer_safe block key prev_seed :
  valid_seed prev_seed -> map_total -> no_panic (verify_proposer block key prev_seed).
Proof.
  intros Hs Hm. unfold verify_proposer. apply no_panic_bind.
  - destruct (is_skip block); [np|].
    pose proof (vrf_verify_safe (seed block) prev_seed key (block_number block) Hs Hm).
    by destruct (Vrf.verify _ _ _ _).
  - intros ? _. destruct block as [|block]; [done|]. unfold verify_micro_proposer. np.
    destruct a0; np.
Qed.

Lemma verify_validators_safe block validators :
  well_formed validators -> typed_justification block ->
  (is_skip block = true -> valid_seed (seed block)) -> no_panic (verify_validators block validators).
Proof.
  intros Hwf Ht Hs. unfold verify_validators. destruct block as [block|block].
  - unfold verify_macro_validators, verify_voting_keys. np; [by apply no_panic_unwrap, verify_tendermint_total|].
    destruct (MacroHeader.validators _); np.
  - unfold verify_micro_validators. simpl in *. unfold is_skip_block in Hs.
    destruct (mi_justification block) as [[sig|proof]|] eqn:Hj; [done| |done]. cbn [or_err mbind outcome_bind].
    apply no_panic_bind; [apply no_panic_unwrap, Hs; done|]. intros entropy _.
    np. apply no_panic_unwrap, verify_skip_total; [done|by apply Ht].
Qed.

(** ** What the checks establish *)

(** [block] is signed by [validators]: the proof names at least [2f + 1] slots, and its
    signature is valid for the keys of these slots on a precommit for the block. *)
Definition justified (block : MacroBlock) (validators : Validators) : Prop :=
  exists proof agg_pk, ma_justification block = Some proof /\
    let signers := ms_signers (tp_sig proof) in
    (forall s, s ∈ signers -> s < SLOTS) /\ TWO_F_PLUS_ONE <= Z.of_nat (size signers) /\
    aggregate_slots validators (sorted_set signers) aggregate_public_key_new = Some (Some agg_pk) /\
    verify_hash agg_pk
      (vote_hash (mk_tendermint_vote (Some (hash_blake2s block))
         (mk_tendermint_id (MacroHeader.network (ma_header block))
            (MacroHeader.block_number (ma_header block)) (tp_round proof) PreCommit)))
      (ms_signature (tp_sig proof)) = true.

Lemma verify_tendermint_justified block validators :
  verify_tendermint_proof block validators = Some true -> justified block validators.
Proof.
  unfold verify_tendermint_proof, justified. intros Hp.
  destruct (ma_justification block) as [proof|]; [|done].
  destruct (checked_signer_slots _) as [slots|] eqn:Hs; [|done].
  apply checked_signer_slots_some in Hs as [-> Hs].
  destruct (Z.ltb_spec (Z.of_nat (length (sorted_set (ms_signers (tp_sig proof))))) TWO_F_PLUS_ONE)
    as [|Hq]; [done|]. rewrite sorted_set_length in Hq.
  apply bind_Some in Hp as ([pk|] & Hpk & Hp); [|done]. injection Hp as Hp. by exists proof, pk.
Qed.

Lemma verify_macro_justified block validators :
  verify_validators (BMacro block) validators = Ok tt ->
  justified block validators /\ verify_voting_keys (ma_header block) = Ok tt.
Proof.
  unfold verify_validators, verify_macro_validators.
  intros (valid & Hp%unwrap_ok & (? & Hv%err_if_ok & Hk)%outcome_bind_ok)%outcome_bind_ok.
  apply negb_false_iff in Hv as ->. split; [by apply verify_tendermint_justified|done].
Qed.

Lemma verify_proposer_seed block key prev_seed :
  valid_seed prev_seed -> verify_proposer block key prev_seed = Ok tt -> valid_seed (seed block).
Proof.
  intros Hs Hv. unfold verify_proposer in Hv. apply outcome_bind_ok in Hv as (u & Hv & _).
  destruct (is_skip block).
  - apply err_if_ok in Hv. apply negb_false_iff, Z.eqb_eq in Hv. by rewrite Hv.
  - destruct (Vrf.verify _ _ _ _) as [v| |] eqn:Hvrf; [|done..]. unfold Vrf.verify in Hvrf.
    apply outcome_bind_ok in Hvrf as (V & HV%or_err_ok & _). unfold valid_seed, try_entropy.
    rewrite HV. by eexists.
Qed.
End Checks.
