(* ===== verification/LightChainProofs.v ===== *)
(** * The light blockchain: pushing blocks

    The invariant of the light node and its preservation by [push], [rebranch],
    [push_macro] and [push_pico_election]; none of them panics on an invariant
    state, and no macro block is ever reverted. *)

From S2P Require Import Prelude Coin Policy BitSet AccountTypes Codec TxContent Discrete Slots.
From S2P Require Import Election Vrf Block Bls Equivocation BlockVerify LightChain.
From S2P Require Import LightChainInv LightVerify.

(** ** Storing blocks that are not stripped yet *)

Section Normal.
Context `{P : Policy} {PolOk : PolicyOk P} `{BEnv : BlockEnv}.

(** The info as the store keeps it. *)
Definition normal (ci : ChainInfo) : ChainInfo := set_head (stored_part (ci_head ci)) ci.
(** A block that carries its hash. *)
Definition carries (hash : Z) (block : Block) : Prop := block_hash_cached block = (hash, block).

Lemma carries_hash hash block : carries hash block -> block_hash block = hash.
Proof. unfold carries. intros Hc. by rewrite <-hash_cached_hash, Hc. Qed.
Lemma carries_cached block : carries (block_hash block) (strip_body (block_hash_cached block).2).
Proof. by destruct block. Qed.
Lemma carries_kept hash block : carries hash block -> kept hash (stored_part block).
Proof.
  unfold carries. intros Hc. rewrite <-(carries_hash _ _ Hc).
  pose proof (hash_cached_kept block) as Hk. by rewrite Hc in Hk.
Qed.
Lemma kept_carries hash block : kept hash block -> carries hash block.
Proof. by intros [Hc _]. Qed.

Lemma normal_kept hash ci : kept hash (ci_head ci) -> normal ci = ci.
Proof. intros [_ Hs]. unfold normal. rewrite Hs. by destruct ci. Qed.
Lemma normal_num ci : num (normal ci) = num ci.
Proof. unfold num, normal. cbn [ci_head set_head]. by destruct (ci_head ci). Qed.

Lemma put_normal hash ci st : carries hash (ci_head ci) ->
  put_chain_info ci st = put_chain_info (normal ci) st.
Proof.
  intros Hc. pose proof (carries_kept _ _ Hc) as Hk.
  rewrite (put_kept st (normal ci) hash Hk). unfold put_chain_info. rewrite Hc.
  unfold num, normal. cbn [ci_head set_head]. done.
Qed.

Lemma put_all_app l1 l2 st : put_all (l1 ++ l2) st = put_all l2 (put_all l1 st).
Proof. apply foldl_app. Qed.
Lemma put_all_normal l st :
  (forall ci, ci ∈ l -> exists hash, carries hash (ci_head ci)) ->
  put_all l st = put_all (normal <$> l) st.
Proof.
  revert st. induction l as [|ci l IH]; intros st Hl; [done|]. cbn [put_all foldl fmap list_fmap].
  destruct (Hl ci) as [hash Hc]; [by left|]. rewrite (put_normal hash ci st Hc). apply IH.
  intros c Hin. apply Hl. by right.
Qed.

(** ** The store after a change of the main chain *)

Lemma adopt_keys chain successor : (adopt_chain chain successor).*1 = chain.*1.
Proof.
  revert successor. induction chain as [|[h c] chain IH]; intros s; [done|].
  cbn [adopt_chain]. rewrite !fmap_cons, IH. done.
Qed.
Lemma adopt_elem chain successor h c' : (h, c') ∈ adopt_chain chain successor ->
  exists c, (h, c) ∈ chain /\ ci_head c' = ci_head c /\ on_main_chain c' = true.
Proof.
  revert successor. induction chain as [|[k c] chain IH]; intros s; cbn [adopt_chain].
  { intros Hin. by apply not_elem_of_nil in Hin. }
  intros [[= -> ->]|Hin]%elem_of_cons; [exists c; split; [by left|done]|].
  destruct (IH _ Hin) as (q & Hq & ?). exists q. split; [by right|done].
Qed.
Lemma adopt_elem_inv chain successor h c : (h, c) ∈ chain ->
  exists c', (h, c') ∈ adopt_chain chain successor /\ ci_head c' = ci_head c /\ on_main_chain c' = true.
Proof.
  revert successor. induction chain as [|[k q] chain IH]; intros s Hin; [by apply not_elem_of_nil in Hin|].
  cbn [adopt_chain]. apply elem_of_cons in Hin as [[= <- <-]|Hin].
  - eexists. split; [by left|done].
  - destruct (IH (Some k) Hin) as (c' & Hc' & ?). exists c'. split; [by right|done].
Qed.

(** All the writes of a change of the main chain, in order. *)
Definition writes (revert fork : list (Z * ChainInfo)) (anc : Z * ChainInfo) : list (Z * ChainInfo) :=
  ((fun c => (c.1, unset_main c.2)) <$> revert) ++
  [(anc.1, set_main_chain (on_main_chain anc.2) (fst <$> last fork) anc.2)] ++
  reverse (adopt_chain fork None).

Section Writes.
Context (st : ChainStore) (hh mh m nh : Z) (new : ChainInfo) (par anc : Z * ChainInfo).
Context (chain revert : list (Z * ChainInfo)) (hd : ChainInfo).
#[local] Abbreviation db := (chain_db st).
#[local] Abbreviation fork := ((nh, new) :: chain).
Hypothesis Hso : store_ok st.
Hypothesis Hok : chain_ok db hh mh m.
Hypothesis Hhd : db !! hh = Some hd.
Hypothesis Hpath : fork_path db par chain anc.
Hypothesis Hpar : db !! par.1 = Some par.2.
Hypothesis Hm : m <= num par.2.
Hypothesis Hnum : num new = num par.2 + 1.
Hypothesis Hnew : db !! nh = None.
Hypothesis Hcar : carries nh (ci_head new).
Hypothesis Hnd : NoDup revert.*1.
Hypothesis Hrev : forall k c, (k, c) ∈ revert <->
  db !! k = Some c /\ on_main_chain c = true /\ num anc.2 < num c <= num hd.

#[local] Abbreviation L := ((fun c => (c.1, normal c.2)) <$> writes revert fork anc).

Lemma writes_keys : L.*1 = revert.*1 ++ anc.1 :: reverse fork.*1.
Proof.
  rewrite <-list_fmap_compose. unfold writes. rewrite !fmap_app, <-list_fmap_compose.
  change (fst ∘ (fun c : Z * ChainInfo => (c.1, normal c.2))) with (@fst Z ChainInfo).
  rewrite fmap_reverse, adopt_keys. done.
Qed.

Lemma fork_lookup h c : (h, c) ∈ fork -> (h = nh /\ c = new) \/ (db !! h = Some c /\ on_main_chain c = false).
Proof.
  intros [[= -> ->]|Hin]%elem_of_cons; [by left|]. right.
  by destruct (path_stored _ _ _ _ Hpath Hpar _ _ Hin) as (? & ? & _).
Qed.

Lemma writes_nodup : NoDup L.*1.
Proof.
  rewrite writes_keys. destruct (path_anc _ _ _ _ Hpath) as (Ha & Haon & _).
  assert (Hfork : forall h, h ∈ fork.*1 -> exists c, (h, c) ∈ fork).
  { intros h ([k c] & -> & Hin)%list_elem_of_fmap. by exists c. }
  apply NoDup_app. split_and!; [done| |].
  - intros h ([k c] & -> & (Hc & Hon & Hr)%Hrev)%list_elem_of_fmap [He|Hin]%elem_of_cons; cbn [fst] in *.
    + subst k. rewrite Hc in Ha. injection Ha as ->. lia.
    + rewrite reverse_Permutation in Hin. apply Hfork in Hin as (q & Hq).
      destruct (fork_lookup _ _ Hq) as [[-> _]|[Hq' Hoff]]; congruence.
  - apply NoDup_cons. split.
    + rewrite reverse_Permutation. intros (q & Hq)%Hfork.
      destruct (fork_lookup _ _ Hq) as [[E _]|[Hq' Hoff]]; congruence.
    + rewrite reverse_Permutation, fmap_cons. apply NoDup_cons. split; [|by eapply path_nodup].
      intros ([k q] & E & Hq)%list_elem_of_fmap. cbn [fst] in E. subst k.
      destruct (path_stored _ _ _ _ Hpath Hpar _ _ Hq). congruence.
Qed.

(** Every write is of a stored block, or of the new one. *)
Lemma writes_elem h c' : (h, c') ∈ writes revert fork anc ->
  exists c, ci_head c' = ci_head c /\ ((h = nh /\ c = new) \/ db !! h = Some c) /\
    ((h, c) ∈ fork /\ on_main_chain c' = true \/
     (h ∉ fork.*1) /\ db !! h = Some c /\ moved anc.2 (fst <$> last fork) c c').
Proof.
  destruct (path_anc _ _ _ _ Hpath) as (Ha & Haon & _).
  assert (Hmain : forall k c, db !! k = Some c -> on_main_chain c = true -> k ∉ fork.*1).
  { intros k c Hk Hon ([k' q] & E & Hq)%list_elem_of_fmap. cbn [fst] in E. subst k'.
    destruct (fork_lookup _ _ Hq) as [[-> _]|[Hq' Hoff]]; congruence. }
  unfold writes. rewrite !elem_of_app. intros [Hin|[Hin|Hin]].
  - apply list_elem_of_fmap in Hin as ([k c] & [= -> ->] & (Hc & Hon & Hr)%Hrev). exists c.
    split; [done|]. split; [by right|]. right. split_and!; [by eapply Hmain|done|].
    unfold moved, unset_main. cbn [ci_head on_main_chain main_chain_successor set_main_chain].
    rewrite Hon. cbn [andb]. split_and!; [done|symmetry; apply Z.leb_gt; lia|].
    destruct (Z.leb_spec (num anc.2) (num c)), (Z.eqb_spec (num c) (num anc.2)); done || lia.
  - apply list_elem_of_singleton in Hin. injection Hin as -> ->. exists anc.2.
    split; [done|]. split; [by right|]. right. split_and!; [by eapply Hmain|done|].
    unfold moved. cbn [ci_head on_main_chain main_chain_successor set_main_chain].
    rewrite Haon, Z.leb_refl, Z.eqb_refl. done.
  - rewrite reverse_Permutation in Hin. apply adopt_elem in Hin as (c & Hc & Hhd' & Hon). exists c.
    split; [done|]. split; [|by left]. destruct (fork_lookup _ _ Hc) as [?|[? _]]; [by left|by right].
Qed.

(** The successors of the adopted branch. *)
Lemma adopt_next h c' : (h, c') ∈ adopt_chain fork None -> next_in ((nh, normal new) :: chain) h (normal c').
Proof.
  unfold next_in. rewrite normal_num. cbn [adopt_chain]. intros [[= -> ->]|Hin]%elem_of_cons; [by left|]. right.
  destruct (path_adopt _ _ _ _ Hpath nh (normal new)) with h c' as [[Hs Hn]|(k & q & Hs & Hq & Hn)];
    [rewrite normal_num; lia|done| |].
  - exists nh, (normal new). split_and!; [done|by left|done].
  - exists k, q. split_and!; [done|by right|done].
Qed.

Lemma writes_carry ci : ci ∈ (writes revert fork anc).*2 -> exists hash, carries hash (ci_head ci).
Proof.
  intros ([h c'] & -> & Hin)%list_elem_of_fmap. cbn [snd].
  destruct (writes_elem _ _ Hin) as (c & -> & [[-> ->]|Hc] & _); [by exists nh|]. exists h.
  apply kept_carries. by apply (so_kept _ Hso).
Qed.

(** A block that is not written is below the ancestor or off the main chain. *)
Lemma unwritten_moved h c next : db !! h = Some c -> h ∉ L.*1 -> moved anc.2 next c c.
Proof.
  intros Hc Hout. split; [done|]. destruct (on_main_chain c) eqn:Hon; cbn [andb]; [|done].
  rewrite writes_keys, elem_of_app, elem_of_cons in Hout. destruct (path_anc _ _ _ _ Hpath) as (Ha & Haon & _).
  pose proof (path_above _ _ _ _ _ _ _ Hok Hpath Hpar Hm) as Hab.
  assert (Hlt : num c < num anc.2).
  { destruct (decide (num c < num anc.2)) as [|Hge]; [done|]. destruct Hout.
    destruct (decide (num c = num anc.2)) as [He|Hne].
    - right. left. eapply (co_uniq _ _ _ _ Hok h anc.1 c anc.2); try done. lia.
    - left. apply list_elem_of_fmap. exists (h, c). split; [done|]. apply Hrev.
      pose proof (co_top _ _ _ _ Hok h c hd Hc Hon Hhd). split_and!; [done..|lia|lia]. }
  split; [symmetry; apply Z.leb_le; lia|]. by destruct (Z.leb_spec (num anc.2) (num c)); [lia|].
Qed.

Lemma writes_ok :
  store_ok (put_all (writes revert fork anc).*2 st) /\
  rebranched db (chain_db (put_all (writes revert fork anc).*2 st)) ((nh, normal new) :: chain) anc.2.
Proof.
  rewrite (put_all_normal _ _ writes_carry).
  replace (normal <$> (writes revert fork anc).*2) with (L.*2)
    by (rewrite <-!list_fmap_compose; done).
  destruct (put_all_ok L st Hso writes_nodup) as (H1 & H2 & H3).
  { intros h c'' ([k c'] & [= -> ->] & Hin)%list_elem_of_fmap. cbn [fst snd].
    destruct (writes_elem _ _ Hin) as (c & Hhd' & Hc & _).
    rewrite normal_num. assert (Hn : num c' = num c) by (unfold num; by rewrite Hhd'). rewrite Hn.
    unfold normal. cbn [ci_head set_head]. rewrite Hhd'. destruct Hc as [[-> ->]|Hc].
    - split; [by apply carries_kept|]. congruence.
    - split; [|congruence]. apply carries_kept, kept_carries. by apply (so_kept _ Hso). }
  assert (Hst : forall h c, db !! h = Some c -> stored_part (ci_head c) = ci_head c)
    by (intros h c Hc; by apply (so_kept _ Hso) in Hc as [_ ?]).
  split; [done|]. split.
  - assert (Hput : forall h c, (h, c) ∈ fork -> exists c', chain_db (put_all L.*2 st) !! h = Some c' /\
      ci_head c' = stored_part (ci_head c) /\ on_main_chain c' = true /\
      next_in ((nh, normal new) :: chain) h c').
    { intros h c Hin. destruct (adopt_elem_inv fork None h c Hin) as (c' & Hc' & Hhd' & Hon).
      exists (normal c'). split; [|split_and!; [by unfold normal; cbn [ci_head set_head]; rewrite Hhd'
        |done|by apply adopt_next]].
      apply H2. apply list_elem_of_fmap. exists (h, c'). split; [done|]. unfold writes.
      rewrite !elem_of_app. right. right. by rewrite reverse_Permutation. }
    intros h c [[= -> ->]|Hin]%elem_of_cons; [apply Hput; by left|].
    destruct (Hput h c) as (c' & ? & Hhd' & ?); [by right|]. exists c'. split_and!; [done| |naive_solver..].
    rewrite Hhd'. destruct (path_stored _ _ _ _ Hpath Hpar _ _ Hin) as [Hc _]. by eapply Hst.
  - rewrite fmap_cons. change (((nh, normal new).1) :: chain.*1) with (fork.*1). intros h Hni.
    replace (fst <$> last ((nh, normal new) :: chain)) with (fst <$> last fork) by by destruct chain.
    destruct (decide (h ∈ L.*1)) as [Hin|Hout].
    + apply list_elem_of_fmap in Hin as ([k c''] & E & Hin). cbn [fst] in E. subst k.
      rewrite (H2 _ _ Hin). apply list_elem_of_fmap in Hin as ([k c'] & [= -> ->] & Hin). cbn [fst snd] in *.
      destruct (writes_elem _ _ Hin) as (c & Hhd' & _ & [[Hf _]|(_ & Hc & Hmv)]).
      { exfalso. apply Hni. apply list_elem_of_fmap. by exists (k, c). }
      rewrite Hc. constructor. split; [|apply Hmv]. unfold normal. cbn [ci_head set_head]. rewrite Hhd'.
      by eapply Hst.
    + rewrite H3 by done. destruct (db !! h) as [c|] eqn:Hc; constructor. by apply unwritten_moved with h.
Qed.
End Writes.
End Normal.

(** ** Batches and epochs *)

Section Batches.
Context `{P : Policy} {PolOk : PolicyOk P}.
#[local] Abbreviation bpb := blocks_per_batch.
#[local] Abbreviation bpe := blocks_per_epoch.
#[local] Abbreviation genesis := genesis_block_number.

Lemma bpb_le_bpe : bpb <= bpe.
Proof. rewrite blocks_per_epoch_eq. destruct PolOk. nia. Qed.

Lemma last_macro_eq m n : macro_number m -> safe_number n -> m <= n < m + bpb ->
  last_macro_block n = Some m.
Proof.
  intros [Hg Hm] [_ Hs] Hn. pose proof bpb_pos. pose proof blocks_per_epoch_pos. pose proof pol_genesis as [Hg0 _].
  unfold last_macro_block. destruct (Z.ltb_spec n genesis); [lia|]. f_equal.
  apply Z.mod_divide in Hm as [k Hk]; [|lia].
  assert (Hdiv : (n - genesis) / bpb = k) by (symmetry; apply Z.div_unique with (r := n - m); lia).
  rewrite Hdiv, wrap_small; [lia|]. unfold in_width. lia.
Qed.

Lemma macro_before_eq m n : macro_number m -> safe_number n -> m < n <= m + bpb ->
  macro_block_before n = Some m.
Proof.
  intros [Hg Hm] [_ Hs] Hn. pose proof bpb_pos. pose proof blocks_per_epoch_pos. pose proof pol_genesis as [Hg0 _].
  unfold macro_block_before. destruct (Z.leb_spec n genesis); [lia|]. f_equal.
  apply Z.mod_divide in Hm as [k Hk]; [|lia].
  assert (Hdiv : (n - genesis - 1) / bpb = k) by (symmetry; apply Z.div_unique with (r := n - 1 - m); lia).
  rewrite Hdiv, wrap_small; [lia|]. unfold in_width. lia.
Qed.

Lemma safe_type n : safe_number n -> is_macro_block_at n = true <-> macro_number n.
Proof.
  intros [Hg Hs]. pose proof pol_genesis as [Hg0 _]. pose proof blocks_per_epoch_pos.
  rewrite is_macro_block_at_iff; [|unfold index_safe; lia|done]. unfold macro_number. naive_solver.
Qed.
Lemma safe_election n : safe_number n ->
  is_election_block_at n = true <-> (n - genesis) `mod` bpe = 0.
Proof.
  intros [Hg Hs]. pose proof pol_genesis as [Hg0 _]. pose proof blocks_per_epoch_pos.
  apply is_election_block_at_iff; [unfold index_safe; lia|done].
Qed.

(** The blocks of the batch after macro block [m] are in one epoch. *)
Lemma epoch_in_batch m n : macro_number m -> m < n <= m + bpb -> epoch_at n = (m - genesis) / bpe + 1.
Proof.
  intros [Hg Hm] Hn. pose proof bpb_pos. pose proof blocks_per_epoch_pos. rewrite epoch_at_eq.
  rewrite Z.max_r by lia. apply Z.mod_divide in Hm as [k Hk]; [|lia].
  pose proof blocks_per_epoch_eq as He. destruct PolOk as [_ [Hbpe _] _ _ _].
  assert (Hkn : (m - genesis) / bpe = k / batches_per_epoch).
  { rewrite Hk, He, (Z.mul_comm k). by rewrite Z.div_mul_cancel_l by lia. }
  assert (Hne : batches_per_epoch <> 0) by lia. rewrite Hkn. pose proof (Z.div_mod k _ Hne) as Hdm.
  pose proof (Z.mod_pos_bound k batches_per_epoch Hbpe) as Hmb.
  set (q := k / batches_per_epoch) in *. set (r := k `mod` batches_per_epoch) in *.
  symmetry. apply Z.div_unique with (r := n - genesis - q * bpe - 1); [|ring]. left.
  assert (Hkb : k * bpb = q * bpe + r * bpb) by (rewrite Hdm, He; ring).
  assert (0 <= r * bpb <= bpe - bpb) by (rewrite He; nia). lia.
Qed.

(** The epoch of a macro block itself. *)
Lemma epoch_at_macro m : macro_number m ->
  epoch_at m = (if (m - genesis) `mod` bpe =? 0 then (m - genesis) / bpe else (m - genesis) / bpe + 1).
Proof.
  intros [Hg Hm]. pose proof blocks_per_epoch_pos. rewrite epoch_at_eq, Z.max_r by lia.
  assert (Hpos : 0 < bpe) by lia. assert (Hne : bpe <> 0) by lia.
  pose proof (Z.div_mod (m - genesis) _ Hne) as Hdm.
  pose proof (Z.mod_pos_bound (m - genesis) _ Hpos) as Hmb.
  destruct (Z.eqb_spec ((m - genesis) `mod` bpe) 0) as [He|Hn0]; symmetry.
  - apply Z.div_unique with (r := bpe - 1); lia.
  - apply Z.div_unique with (r := (m - genesis) `mod` bpe - 1); lia.
Qed.

Lemma election_of m : safe_number m -> (m - genesis) `mod` bpe = 0 ->
  election_block_of ((m - genesis) / bpe) = Some m.
Proof.
  intros [Hg Hs] Hm. pose proof blocks_per_epoch_pos. pose proof pol_genesis as [Hg0 _].
  assert (Hne : bpe <> 0) by lia. pose proof (Z.div_mod (m - genesis) _ Hne) as Hdm. rewrite Hm in Hdm.
  unfold election_block_of. rewrite checked_mul_some by lia. cbn [mbind option_bind].
  rewrite checked_add_some by lia. f_equal. lia.
Qed.
End Batches.

(** ** The invariant of the light node *)

Section Light.
Context `{P : Policy} {PolOk : PolicyOk P} `{BEnv : BlockEnv} `{Cv : Curve} `{Bls : BlsEnv}.
Context `{Bd : BodyEnv} `{SEnv : SlotEnv}.
#[local] Existing Instance vrf_rng.
#[local] Abbreviation bpb := blocks_per_batch.
#[local] Abbreviation bpe := blocks_per_epoch.
#[local] Abbreviation genesis := genesis_block_number.
#[local] Abbreviation db b := (chain_db (lb_chain_store b)).

(** What the checks established for a stored block. *)
Definition head_ok (block : Block) : Prop :=
  valid_seed (seed block) /\ safe_number (block_number block) /\
  match block with
  | BMacro block => is_election_macro block = true ->
      exists v, MacroHeader.validators (ma_header block) = Some v /\ well_formed v
  | BMicro block => is_skip_block block = false -> exists sig, mi_justification block = Some (Micro sig)
  end.

Definition macro_num (b : LightBlockchain) : Z := MacroHeader.block_number (ma_header (lb_macro_head b)).
Definition macro_hash (b : LightBlockchain) : Z := macro_header_hash (ma_header (lb_macro_head b)).
Definition election_num (b : LightBlockchain) : Z :=
  MacroHeader.block_number (ma_header (lb_election_head b)).

(** A genesis block: an election block with a validator set. *)
Definition genesis_ok (block : Block) : Prop :=
  block_number block = genesis /\ valid_seed (seed block) /\ genesis + bpe <= max_value 32 /\
  match block with
  | BMacro mb => exists v, MacroHeader.validators (ma_header mb) = Some v /\ well_formed v
  | BMicro _ => False
  end.

Record light_ok (b : LightBlockchain) : Prop := {
  lo_store : store_ok (lb_chain_store b);
  lo_chain : chain_ok (db b) (head_hash b) (macro_hash b) (macro_num b);
  lo_head : exists ci, db b !! head_hash b = Some ci /\ ci_head ci = stored_part (lb_head b);
  lo_macro : exists ci, db b !! macro_hash b = Some ci /\
    ci_head ci = stored_part (BMacro (lb_macro_head b));
  lo_blocks h ci : db b !! h = Some ci -> head_ok (ci_head ci);
  lo_validators : exists v, lb_current_validators b = Some v /\ well_formed v;
  lo_elected : lb_current_validators b = MacroHeader.validators (ma_header (lb_election_head b));
  lo_genesis : genesis_ok (lb_genesis_block b) /\ exists hash, carries hash (lb_genesis_block b);
  lo_epoch : (election_num b - genesis) `mod` bpe = 0 /\
    genesis <= election_num b <= macro_num b /\ macro_num b < election_num b + bpe;
}.

Section Facts.
Context (b : LightBlockchain) (Hok : light_ok b).
Let m := macro_num b.

Lemma light_head : exists ci, db b !! head_hash b = Some ci /\ ci_head ci = stored_part (lb_head b) /\
  on_main_chain ci = true /\ num ci = block_number (lb_head b) /\ m <= num ci < m + bpb.
Proof.
  destruct (lo_head b Hok) as (ci & Hci & Hhd). exists ci.
  destruct (co_head _ _ _ _ (lo_chain b Hok)) as (ci' & Hci' & Hon & Hle).
  rewrite Hci in Hci'. injection Hci' as <-.
  pose proof (co_range _ _ _ _ (lo_chain b Hok) _ _ Hci) as [_ Hr].
  split_and!; [done..| |done|done]. unfold num. rewrite Hhd. by destruct (lb_head b).
Qed.

Lemma light_macro : exists ci, db b !! macro_hash b = Some ci /\
  ci_head ci = stored_part (BMacro (lb_macro_head b)) /\ on_main_chain ci = true /\ num ci = m.
Proof.
  destruct (lo_macro b Hok) as (ci & Hci & Hhd). exists ci.
  destruct (co_macro _ _ _ _ (lo_chain b Hok)) as (ci' & Hci' & Hon & Hle).
  rewrite Hci in Hci'. by injection Hci' as <-.
Qed.

Lemma light_safe h ci : db b !! h = Some ci -> safe_number (num ci).
Proof. intros Hh. by destruct (lo_blocks b Hok h ci Hh) as (_ & ? & _). Qed.

Lemma macro_safe : safe_number m.
Proof. destruct light_macro as (ci & Hci & _ & _ & <-). by eapply light_safe. Qed.

Lemma head_last_macro : last_macro_block (block_number (lb_head b)) = Some m.
Proof.
  destruct light_head as (ci & Hci & _ & _ & <- & Hr).
  apply last_macro_eq; [apply (lo_chain b Hok)|by eapply light_safe|done].
Qed.

(** The blocks of the main chain above the last macro block are found by their
    numbers. *)
Lemma main_block_at h ci : db b !! h = Some ci -> on_main_chain ci = true -> m <= num ci ->
  get_block_at b (num ci) = Ok (ci_head ci).
Proof.
  intros Hci Hon Hm. unfold get_block_at.
  rewrite (get_chain_info_at_ok (lb_chain_store b) h ci (lo_store b Hok) Hci Hon); [done|].
  intros k c Hk Hkn Hkon. eapply (co_uniq _ _ _ _ (lo_chain b Hok) k h c ci); try done. fold m. lia.
Qed.

Lemma macro_at : get_block_at b m = Ok (stored_part (BMacro (lb_macro_head b))).
Proof.
  destruct light_macro as (ci & Hci & Hhd & Hon & Hn). rewrite <-Hn, <-Hhd.
  apply (main_block_at _ _ Hci Hon). lia.
Qed.

Lemma macro_head_ok : head_ok (stored_part (BMacro (lb_macro_head b))).
Proof. destruct light_macro as (ci & Hci & <- & _). by eapply lo_blocks. Qed.

(** The validators of the batch after the last macro block. *)
Lemma validators_at n : m < n <= m + bpb ->
  exists v, get_validators_for_epoch b (epoch_at n) = Ok v /\ well_formed v.
Proof.
  intros Hn. pose proof (co_number _ _ _ _ (lo_chain b Hok)) as Hmn. fold m in Hmn.
  destruct light_head as (hd & Hhd & _ & _ & Hhn & Hhr). unfold get_validators_for_epoch.
  rewrite <-Hhn. destruct (lo_validators b Hok) as (v & Hv & Hwf).
  rewrite (epoch_in_batch m n Hmn Hn).
  destruct (decide (num hd = m)) as [He|Hne].
  - rewrite He, (epoch_at_macro m Hmn).
    destruct (Z.eqb_spec ((m - genesis) `mod` bpe) 0) as [Hel|Hnel].
    + destruct (Z.eqb_spec ((m - genesis) / bpe + 1) ((m - genesis) / bpe)); [lia|].
      pose proof blocks_per_epoch_pos as Hbpe. destruct macro_safe as [Hg _].
      assert (0 <= (m - genesis) / bpe) by (apply Z.div_pos; lia).
      destruct (Z.eqb_spec ((m - genesis) / bpe + 1) 0); [lia|].
      replace ((m - genesis) / bpe + 1 - 1) with ((m - genesis) / bpe) by lia.
      rewrite (election_of m macro_safe Hel). cbn [or_err mbind outcome_bind].
      rewrite macro_at. cbn [stored_part unwrap_macro mbind outcome_bind].
      destruct macro_head_ok as (_ & _ & Hval).
      destruct Hval as (w & Hw & Hwwf); [by apply (safe_election m macro_safe)|].
      exists w. cbn [ma_header] in Hw |- *. by rewrite Hw.
    + rewrite Z.eqb_refl, Hv. by exists v.
  - rewrite (epoch_in_batch m (num hd) Hmn) by lia. rewrite Z.eqb_refl, Hv. by exists v.
Qed.

Lemma get_proposer_total n offset entropy :
  productive (R := VrfRng) draw_fuel -> safe_number n -> m < n <= m + bpb ->
  exists slot, get_proposer b n offset entropy = Ok slot.
Proof.
  intros Hp Hs Hn. unfold get_proposer.
  rewrite (macro_before_eq m n (co_number _ _ _ _ (lo_chain b Hok)) Hs Hn).
  cbn [unwrap mbind outcome_bind]. rewrite macro_at.
  cbn [stored_part unwrap_macro mbind outcome_bind ma_header].
  destruct (compute_slot_total offset entropy
              (MacroHeader.next_batch_initial_punished_set (ma_header (lb_macro_head b))) Hp) as (slot & -> & Hv).
  cbn [unwrap mbind outcome_bind]. destruct (validators_at n Hn) as (v & -> & Hwf). cbn [mbind outcome_bind].
  pose proof (proj1 (proj1 (viable_elem _ slot) Hv)) as Hr.
  destruct (get_band_spec v slot Hwf Hr) as (k & w & Hb & Hk & _).
  unfold get_validator_by_slot_number. rewrite Hb. cbn [mbind option_bind]. rewrite Nat2Z.id, Hk.
  by eexists.
Qed.

(** The order of a block whose number is consistent with its predecessor. *)
Lemma order_total block h prev :
  db b !! h = Some prev -> m <= num prev -> block_number block = num prev + 1 ->
  exists order, order_chains b block prev = Some order /\
    (order = Extend <-> parent_hash block = head_hash b) /\
    (is_macro block = true -> block_number (lb_head b) < block_number block ->
     order = Extend \/ order = Superior).
Proof.
  intros Hh Hm Hbn. unfold order_chains. fold (head_hash b).
  destruct (Z.eqb_spec (parent_hash block) (head_hash b)) as [He|Hne]; [exists Extend; naive_solver|].
  destruct (is_macro block && _) eqn:Hma; [exists Superior; naive_solver|].
  assert (Hmh : is_macro block = true -> block_number (lb_head b) < block_number block -> False).
  { intros H1 H2%Z.ltb_lt. by rewrite H1, H2 in Hma. }
  destruct (walk_fork_stored _ _ _ _ (lo_chain b Hok) (lb_chain_store b)
              (S (Z.to_nat (block_number (ci_head prev)))) h prev [is_skip block])
    as (flags & start & Hw & Hst & Hl); [done..|unfold num; lia|].
  rewrite Hbn, Hw. cbn [mbind option_bind]. rewrite <-Hbn.
  destruct light_head as (hd & Hhd & _ & _ & Hhn & Hhr).
  destruct (compare_total _ _ _ _ (lo_chain b Hok) (lb_chain_store b)
              (seqZ start (Z.min (block_number (lb_head b)) (block_number block) - start + 1)) flags hd)
    as [order Ho]; [done|apply lo_store, Hok|done| |rewrite length_seqZ; cbn [length] in Hl; lia|].
  { intros n Hn%elem_of_seqZ. fold m in Hst |- *. lia. }
  rewrite Ho. cbn [mbind option_bind].
  assert (Hne' : forall l f o, compare_branches (lb_chain_store b) l f = Some o -> o <> Extend).
  { clear. induction l as [|x l IH]; intros f o; cbn [compare_branches]; [by intros [= <-]|].
    destruct f as [|c f]; [done|]. destruct (get_chain_info_at _ _ _); [|done..].
    destruct (_ && _); [by intros [= <-]|]. destruct (_ && _); [by intros [= <-]|apply IH]. }
  specialize (Hne' _ _ _ Ho).
  destruct order; [done|exists Superior|exists Inferior|eexists]; (split; [done|]);
    [naive_solver..|]. destruct (_ <? _); naive_solver.
Qed.
End Facts.

(** ** A new head *)

(** A checked block that can be added to the store. *)
Record new_ok (b : LightBlockchain) (block : Block) (hash : Z) (prev : ChainInfo) : Prop := {
  no_carries : carries hash block;
  no_fresh : db b !! hash = None;
  no_prev : db b !! parent_hash block = Some prev;
  no_number : block_number block = num prev + 1;
  no_above : macro_num b <= num prev;
  no_type : is_macro block = true <-> macro_number (block_number block);
  no_head : head_ok (stored_part block);
}.

(** The store [st'] has [block] as the head of its main chain. *)
Record grown (b : LightBlockchain) (st' : ChainStore) (block : Block) (hash : Z) : Prop := {
  gr_store : store_ok st';
  gr_chain : chain_ok (chain_db st') hash (if is_macro block then hash else macro_hash b)
               (if is_macro block then block_number block else macro_num b);
  gr_head : exists ci, chain_db st' !! hash = Some ci /\ ci_head ci = stored_part block;
  gr_blocks h ci : chain_db st' !! h = Some ci -> head_ok (ci_head ci);
}.

(** The last macro block of [b] is on the main chain of [b'], and [b'] is not behind. *)
Definition keeps_macro (b : LightBlockchain) (st' : ChainStore) : Prop :=
  exists ci, chain_db st' !! macro_hash b = Some ci /\
    ci_head ci = stored_part (BMacro (lb_macro_head b)) /\ on_main_chain ci = true.
(** A block of the main chain is still stored and on it. *)
Definition still_main (st' : ChainStore) (h : Z) (ci : ChainInfo) : Prop :=
  exists ci', chain_db st' !! h = Some ci' /\ ci_head ci' = ci_head ci /\ on_main_chain ci' = true.
(** So are all blocks up to the last macro block of [b], except for those that are
    removed because they are too old for the new last macro block, number [m']. *)
Definition keeps_final (b : LightBlockchain) (st' : ChainStore) (m' : Z) : Prop :=
  forall h ci, db b !! h = Some ci -> on_main_chain ci = true -> num ci <= macro_num b ->
    still_main st' h ci \/
    (macro_num b < m' /\ chain_db st' !! h = None /\ should_retain_block m' (num ci) = false).
Definition final (b b' : LightBlockchain) : Prop :=
  macro_num b <= macro_num b' /\ keeps_macro b (lb_chain_store b') /\
  keeps_final b (lb_chain_store b') (macro_num b').
(** The number of the last macro block once [block] is the head. *)
Definition next_macro (b : LightBlockchain) (block : Block) : Z :=
  if is_macro block then block_number block else macro_num b.

(** The fields that a new head changes. *)
Definition advanced (b b' : LightBlockchain) (st' : ChainStore) (block : Block) : Prop :=
  lb_head b' = block /\ lb_genesis_block b' = lb_genesis_block b /\
  db b' = chain_db st' /\ height_idx (lb_chain_store b') = height_idx st' /\
  match block with
  | BMacro mb => lb_macro_head b' = mb /\
      lb_election_head b' = (if is_election_macro mb then mb else lb_election_head b) /\
      lb_current_validators b' = (if is_election_macro mb then MacroHeader.validators (ma_header mb)
                                  else lb_current_validators b)
  | BMicro _ => lb_macro_head b' = lb_macro_head b /\ lb_election_head b' = lb_election_head b /\
      lb_current_validators b' = lb_current_validators b
  end.

Lemma store_ok_ext st st' : chain_db st' = chain_db st -> height_idx st' = height_idx st ->
  store_ok st -> store_ok st'.
Proof. intros H1 H2 [Hk Hh]. split; rewrite H1, ?H2; [apply Hk|apply Hh]. Qed.

Lemma final_refl b : light_ok b -> final b b.
Proof.
  intros Hok. split; [done|]. split.
  - destruct (light_macro b Hok) as (ci & Hci & Hhd & Hon & _). by exists ci.
  - intros h ci Hci Hon _. left. by exists ci.
Qed.

(** Macro blocks up to the next election block keep the epoch. *)
Lemma next_epoch e m n : (e - genesis) `mod` bpe = 0 -> genesis <= e <= m ->
  m < n -> n <= e + bpe \/ is_election_block_at n = true -> safe_number n -> macro_number n ->
  let e' := if is_election_block_at n then n else e in
  (e' - genesis) `mod` bpe = 0 /\ genesis <= e' <= n /\ n < e' + bpe.
Proof.
  intros He Hem Hlt Hn Hs Hmn e'. subst e'. pose proof blocks_per_epoch_pos as Hb.
  pose proof (safe_election n Hs) as Hel.
  destruct (is_election_block_at n); [split; [by apply Hel|lia]|].
  destruct Hn as [Hn|]; [|done]. split; [done|]. split; [lia|]. destruct (decide (n = e + bpe)) as [->|]; [|lia]. exfalso.
  assert (false = true); [|done]. apply Hel. replace (e + bpe - genesis) with (e - genesis + 1 * bpe) by lia.
  by rewrite Z.mod_add by lia.
Qed.

Lemma grown_light b b' st' block hash :
  light_ok b -> grown b st' block hash -> advanced b b' st' block -> carries hash block ->
  (is_macro block = true -> macro_num b < block_number block /\
     (block_number block <= election_num b + bpe \/ is_election_block_at (block_number block) = true)) ->
  (is_macro block = false -> keeps_macro b st') ->
  light_ok b' /\ macro_num b <= macro_num b'.
Proof.
  intros Hok Hg (Hh & Hgen & Hdb & Hidx & Hfields) Hc Hn Hkm.
  assert (Hhash : head_hash b' = hash) by (unfold head_hash; rewrite Hh; by apply carries_hash).
  assert (Hso : store_ok (lb_chain_store b')) by (eapply store_ok_ext; [done..|apply Hg]).
  destruct (gr_head _ _ _ _ Hg) as (ci & Hci & Hhd). pose proof (gr_chain _ _ _ _ Hg) as Hch.
  pose proof (lo_epoch b Hok) as (He1 & He2 & He3).
  destruct block as [mb|mb]; cbn [is_macro block_number] in *; destruct Hfields as (Hm & He & Hv).
  - assert (Hmh : macro_hash b' = hash) by (unfold macro_hash; rewrite Hm; by apply carries_hash in Hc).
    assert (Hmn : macro_num b' = MacroHeader.block_number (ma_header mb)) by (unfold macro_num; by rewrite Hm).
    destruct (Hn eq_refl) as [Hlt Hle]. split; [|lia].
    pose proof (gr_blocks _ _ _ _ Hg _ _ Hci) as Hhok. rewrite Hhd in Hhok.
    destruct Hhok as (_ & Hsafe & Hel). cbn [stored_part is_election_macro ma_header block_number] in *.
    split; [done|by rewrite Hdb, Hhash, Hmh, Hmn|rewrite Hdb, Hhash, Hh; by exists ci
      |rewrite Hdb, Hmh, Hm; by exists ci|rewrite Hdb; apply Hg| | |rewrite Hgen; apply Hok|].
    + rewrite Hv. unfold is_election_macro in *. cbn [ma_header] in Hel.
      destruct (is_election_block_at _); [by apply Hel|apply Hok].
    + rewrite Hv, He. destruct (is_election_macro mb); [done|apply Hok].
    + pose proof (next_epoch _ _ _ He1 He2 Hlt Hle Hsafe (co_number _ _ _ _ Hch)) as Hne.
      unfold election_num at 1 2 3 4. rewrite He, Hmn. unfold is_election_macro.
      cbv zeta in Hne. by destruct (is_election_block_at _).
  - assert (Hmh : macro_hash b' = macro_hash b) by (unfold macro_hash; by rewrite Hm).
    assert (Hmn : macro_num b' = macro_num b) by (unfold macro_num; by rewrite Hm).
    assert (Hen : election_num b' = election_num b) by (unfold election_num; by rewrite He).
    split; [|lia]. destruct (Hkm eq_refl) as (mi & Hmi & Hmhd & _).
    split; [done|by rewrite Hdb, Hhash, Hmh, Hmn|rewrite Hdb, Hhash, Hh; by exists ci
      |rewrite Hdb, Hmh, Hm; by exists mi|rewrite Hdb; apply Hg|rewrite Hv; apply Hok
      |rewrite Hv, He; apply Hok|rewrite Hgen; apply Hok|by rewrite Hen, Hmn].
Qed.

Lemma new_safe b block hash prev : new_ok b block hash prev -> safe_number (block_number block).
Proof. intros Hno. destruct (no_head _ _ _ _ Hno) as (_ & Hs & _). by destruct block. Qed.

(** Removing old blocks at a new macro block. *)
Lemma clear_final b st n : macro_num b < n ->
  (forall h ci, db b !! h = Some ci -> on_main_chain ci = true -> num ci <= macro_num b ->
     still_main st h ci) ->
  keeps_final b (clear_old_blocks n st) n.
Proof.
  intros Hlt Hst h ci Hci Hon Hn. destruct (Hst h ci Hci Hon Hn) as (c & Hc & Hhd & Hcon).
  assert (Hnum : num c = num ci) by (unfold num; by rewrite Hhd).
  destruct (should_retain_block n (num ci)) eqn:Hr.
  - left. exists c. split; [|done]. apply clear_lookup. by rewrite Hnum.
  - right. split_and!; [done| |done]. destruct (chain_db (clear_old_blocks n st) !! h) as [c'|] eqn:Hc'; [|done].
    apply clear_lookup in Hc' as [Hc' Hr']. rewrite Hc in Hc'. injection Hc' as <-. congruence.
Qed.

Section Grow.
Context (b : LightBlockchain) (block : Block) (hash : Z) (prev new hd : ChainInfo) (anc : Z * ChainInfo).
Context (chain revert : list (Z * ChainInfo)).
Hypothesis Hok : light_ok b.
Hypothesis Hno : new_ok b block hash prev.
Hypothesis Hhead : ci_head new = block.
Hypothesis Hhd : db b !! head_hash b = Some hd.
Hypothesis Hpath : fork_path (db b) (parent_hash block, prev) chain anc.
Hypothesis Hnd : NoDup revert.*1.
Hypothesis Hrev : forall k c, (k, c) ∈ revert <->
  db b !! k = Some c /\ on_main_chain c = true /\ num anc.2 < num c <= num hd.
#[local] Abbreviation st1 := (put_all (writes revert ((hash, new) :: chain) anc).*2 (lb_chain_store b)).

Lemma new_num : num (normal new) = num prev + 1.
Proof. rewrite normal_num. unfold num at 1. rewrite Hhead. apply Hno. Qed.

Lemma grow_view : store_ok st1 /\
  rebranched (db b) (chain_db st1) ((hash, normal new) :: chain) anc.2.
Proof.
  apply (writes_ok (lb_chain_store b) (head_hash b) (macro_hash b) (macro_num b) hash new
           (parent_hash block, prev) anc chain revert hd); try done;
    [apply lo_store, Hok|apply lo_chain, Hok|apply Hno|apply Hno|unfold num at 1; rewrite Hhead; apply Hno
    |apply Hno|rewrite Hhead; apply Hno].
Qed.

(** Lookups in the new store. *)
Lemma grow_lookups :
  (exists ci, chain_db st1 !! hash = Some ci /\ ci_head ci = stored_part block) /\
  keeps_macro b st1 /\
  (forall h ci, db b !! h = Some ci -> on_main_chain ci = true -> num ci <= macro_num b ->
     still_main st1 h ci) /\
  (forall h ci, chain_db st1 !! h = Some ci -> head_ok (ci_head ci)).
Proof.
  destruct grow_view as [_ Hview]. pose proof (lo_chain b Hok) as Hch.
  pose proof (no_prev _ _ _ _ Hno) as Hprev. pose proof (no_fresh _ _ _ _ Hno) as Hfresh.
  pose proof (path_above _ _ _ _ _ _ _ Hch Hpath Hprev (no_above _ _ _ _ Hno)) as Hab.
  split_and!.
  - destruct (proj1 Hview hash (normal new)) as (c & Hc & Hhd' & _); [by left|]. exists c.
    split; [done|]. rewrite Hhd'. unfold normal. cbn [ci_head set_head]. by rewrite Hhead.
  - destruct (light_macro b Hok) as (c & Hc & Hchd & Hon & Hn).
    destruct (view_old_main _ _ hash (normal new) (parent_hash block, prev) anc chain Hpath Hprev Hfresh
                new_num Hview _ _ Hc Hon) as (c' & Hc' & Hhd' & Hon'); [lia|].
    exists c'. split_and!; [done| |done]. by rewrite Hhd'.
  - intros h c Hc Hon Hn.
    apply (view_old_main _ _ hash (normal new) (parent_hash block, prev) anc chain Hpath Hprev Hfresh
             new_num Hview _ _ Hc Hon). lia.
  - intros h ci Hh. destruct (view_cases _ _ hash (normal new) anc chain Hview _ _ Hh)
      as [(c & Hin & Hchd & _)|(c & Hc & Hchd & _)]; rewrite Hchd; [|by apply (lo_blocks b Hok h)].
    apply elem_of_cons in Hin as [[= -> ->]|Hin].
    + unfold normal. cbn [ci_head set_head]. rewrite Hhead. apply Hno.
    + destruct (path_stored _ _ _ _ Hpath Hprev _ _ Hin) as [Hc _]. by apply (lo_blocks b Hok h).
Qed.

Lemma normal_new : parent_hash (ci_head (normal new)) = parent_hash block /\
  is_macro (ci_head (normal new)) = is_macro block /\ num (normal new) = block_number block.
Proof. unfold num, normal. cbn [ci_head set_head]. rewrite Hhead. by destruct block. Qed.

Lemma grow_micro : is_macro block = false ->
  grown b st1 block hash /\ keeps_macro b st1 /\ keeps_final b st1 (next_macro b block).
Proof.
  intros Hmi. destruct grow_view as [Hso Hview]. destruct grow_lookups as (H1 & H2 & H4 & H3).
  destruct normal_new as (Hp & Hm & Hn). split; [|by split; [done|left; apply H4]].
  split; [done| |done..]. rewrite Hmi.
  apply (view_micro (db b) _ (head_hash b) (macro_hash b) (macro_num b) hash (normal new)
           (parent_hash block, prev) anc chain); try done;
    [apply lo_chain, Hok|apply Hno|apply Hno|apply Hno|apply new_num|rewrite Hm, Hn; apply Hno|by rewrite Hm].
Qed.

Lemma grow_macro : is_macro block = true ->
  block_number block = macro_num b + bpb /\
  grown b (clear_old_blocks (block_number block) st1) block hash /\
  keeps_macro b (clear_old_blocks (block_number block) st1) /\
  keeps_final b (clear_old_blocks (block_number block) st1) (next_macro b block).
Proof.
  intros Hma. destruct grow_view as [Hso Hview]. destruct grow_lookups as (H1 & H2 & H4 & H3).
  destruct normal_new as (Hp & Hm & Hn). pose proof (new_safe b block hash prev Hno) as Hsafe. pose proof bpb_pos.
  destruct (view_macro (db b) (chain_db st1) (head_hash b) (macro_hash b) (macro_num b) hash (normal new)
           (parent_hash block, prev) anc chain) as [Hnum Hch]; try done;
    [apply lo_chain, Hok|apply Hno|apply Hno|apply Hno|apply new_num|rewrite Hm, Hn; apply Hno|by rewrite Hm|].
  rewrite Hn in *. split; [done|]. destruct (macro_safe b Hok) as [Hg _].
  assert (Hkeep : forall h ci, chain_db st1 !! h = Some ci -> macro_num b <= num ci <= block_number block ->
    chain_db (clear_old_blocks (block_number block) st1) !! h = Some ci).
  { intros h ci Hh Hr. apply clear_lookup. split; [done|]. apply retain_small; [done|lia|lia]. }
  split; [|split; [|by unfold next_macro; rewrite Hma; apply clear_final; [lia|]]];
    [|destruct H2 as (ci & Hci & Hhd' & Hon); exists ci; split_and!; [apply Hkeep; [done|]|done..];
      unfold num; rewrite Hhd'; cbn [stored_part block_number ma_header]; unfold macro_num in *; lia].
  split.
  - by apply clear_store_ok.
  - rewrite Hma. apply clear_chain_ok; [done..|]. intros h ci Hh. split; [by apply (co_type _ _ _ _ Hch h)|].
    split; [by apply (co_range _ _ _ _ Hch h)|].
    pose proof (no_prev _ _ _ _ Hno) as Hprev. pose proof (lo_chain b Hok) as Hc0.
    destruct (view_cases _ _ hash (normal new) anc chain Hview _ _ Hh) as [(c & Hin & Hchd & _)|(c & Hc & Hchd & _)];
      replace (num ci) with (num c) by (unfold num; by rewrite Hchd).
    + apply elem_of_cons in Hin as [[= -> ->]|Hin]; [lia|].
      destruct (path_stored _ _ _ _ Hpath Hprev _ _ Hin) as [Hc _].
      pose proof (co_range _ _ _ _ Hc0 _ _ Hc). lia.
    + pose proof (co_range _ _ _ _ Hc0 _ _ Hc). lia.
  - destruct H1 as (ci & Hci & Hhd'). exists ci. split; [|done]. apply Hkeep; [done|].
    assert (num ci = block_number block) as -> by (unfold num; rewrite Hhd'; by destruct block). lia.
  - intros h ci [Hh _]%clear_lookup. by eapply H3.
Qed.

(** Clearing at a macro block keeps the batch before it. *)
Lemma grow_retained : is_macro block = true -> forall k c, chain_db st1 !! k = Some c ->
  macro_num b <= num c -> chain_db (clear_old_blocks (block_number block) st1) !! k = Some c.
Proof.
  intros Hma k c Hk Hn. destruct (grow_macro Hma) as (Hnum & Hg & _).
  apply clear_lookup. split; [done|]. pose proof (new_safe b block hash prev Hno) as Hs.
  destruct (macro_safe b Hok) as [Hge _]. destruct grow_view as [_ Hview]. pose proof (lo_chain b Hok) as Hch.
  pose proof (no_number _ _ _ _ Hno) as Hbn. pose proof bpb_pos.
  apply retain_small; [done| |lia]. split; [lia|].
  destruct (view_cases _ _ hash (normal new) anc chain Hview _ _ Hk) as [(q & Hin & Hqhd & _)|(q & Hq & Hqhd & _)];
    replace (num c) with (num q) by (unfold num; by rewrite Hqhd).
  - apply elem_of_cons in Hin as [[= -> ->]|Hin]; [rewrite new_num; lia|].
    destruct (path_stored _ _ _ _ Hpath (no_prev _ _ _ _ Hno) _ _ Hin) as (Hq & _ & _).
    pose proof (co_range _ _ _ _ Hch _ _ Hq). lia.
  - pose proof (co_range _ _ _ _ Hch _ _ Hq). lia.
Qed.
End Grow.

(** ** [extend] *)

Lemma send_advanced b b' st block event :
  advanced b b' st block -> advanced b (send event b') st block.
Proof. done. Qed.
Lemma finality_advanced b b' st block up hash el ma :
  advanced b b' st block -> advanced b (send_finality up hash el ma b') st block.
Proof. intros Ha. unfold send_finality. destruct el, ma, up; by repeat apply send_advanced. Qed.

Lemma put_clear_kept n ci hash st :
  kept hash (ci_head ci) -> chain_db st !! hash = None -> should_retain_block n (num ci) = true ->
  put_chain_info ci (clear_old_blocks n st) = clear_old_blocks n (put_chain_info ci st).
Proof.
  intros Hk Hf Hr. rewrite !(put_kept _ _ _ Hk), Hf.
  assert (chain_db (clear_old_blocks n st) !! hash = None) as ->.
  { apply map_lookup_filter_None. by left. }
  unfold clear_old_blocks. cbn [chain_db height_idx election_db]. f_equal.
  - by rewrite map_filter_insert_True.
  - rewrite map_filter_insert_True by done. f_equal. f_equal.
    destruct (height_idx st !! num ci) as [l|] eqn:Hl.
    + by rewrite (map_lookup_filter_Some_2 _ _ _ l).
    + by rewrite (proj2 (map_lookup_filter_None _ _ _)) by (by left).
Qed.

Lemma put_clear n ci hash st :
  carries hash (ci_head ci) -> chain_db st !! hash = None -> should_retain_block n (num ci) = true ->
  put_chain_info ci (clear_old_blocks n st) = clear_old_blocks n (put_chain_info ci st).
Proof.
  intros Hc Hf Hr. rewrite !(put_normal _ _ _ Hc).
  apply put_clear_kept with hash; [by apply carries_kept|done|by rewrite normal_num].
Qed.

Lemma put_election_comm ci header st :
  put_chain_info ci (put_election header st) = put_election header (put_chain_info ci st).
Proof. unfold put_chain_info. by destruct (block_hash_cached _). Qed.

Lemma next_macro_le b : light_ok b -> macro_num b + bpb <= election_num b + bpe.
Proof.
  intros Hok. destruct (lo_epoch b Hok) as (He1 & He2 & He3). pose proof bpb_pos. pose proof blocks_per_epoch_pos.
  apply macro_number_gap; [apply (lo_chain b Hok)| |done]. split; [lia|].
  apply Z.mod_divide in He1 as [k Hk]; [|lia].
  replace (election_num b + bpe - genesis) with ((k + 1) * bpe) by lia. rewrite blocks_per_epoch_eq.
  replace ((k + 1) * (bpb * batches_per_epoch)) with ((k + 1) * batches_per_epoch * bpb) by ring.
  apply Z.mod_mul. lia.
Qed.

(** The result of [extend] and [rebranch]. *)
Definition new_head (b : LightBlockchain) (block : Block) (b' : LightBlockchain) : Prop :=
  light_ok b' /\ final b b' /\ lb_head b' = block.

Lemma grown_new_head b b' st' block hash prev :
  light_ok b -> new_ok b block hash prev ->
  grown b st' block hash /\ keeps_macro b st' /\ keeps_final b st' (next_macro b block) ->
  advanced b b' st' block ->
  (is_macro block = true -> block_number block = macro_num b + bpb) -> new_head b block b'.
Proof.
  intros Hok Hno (Hg & Hkm & Hkf) Ha Hnum.
  destruct (grown_light b b' st' block hash Hok Hg Ha (no_carries _ _ _ _ Hno)) as [H1 H2].
  - intros Hma. rewrite Hnum by done. pose proof bpb_pos. pose proof (next_macro_le b Hok).
    split; [lia|left; lia].
  - done.
  - split_and!; [done| |apply Ha]. destruct Ha as (_ & _ & Hdb & _ & Hf).
    assert (Hm : macro_num b' = next_macro b block)
      by (unfold next_macro, macro_num; destruct block; by destruct Hf as [-> _]).
    split; [done|]. unfold keeps_macro, keeps_final, still_main. by rewrite Hm, Hdb.
Qed.

(** The branch of a block on top of the head. *)
Lemma extend_branch b block hash prev : light_ok b -> new_ok b block hash prev ->
  parent_hash block = head_hash b ->
  db b !! head_hash b = Some prev /\ fork_path (db b) (parent_hash block, prev) [] (parent_hash block, prev) /\
  (forall k c, (k, c) ∈ @nil (Z * ChainInfo) <->
    db b !! k = Some c /\ on_main_chain c = true /\ num prev < num c <= num prev).
Proof.
  intros Hok Hno Hpar. destruct (light_head b Hok) as (hd & Hhd & _ & Hon & _ & _).
  pose proof (no_prev _ _ _ _ Hno) as Hprev. rewrite Hpar, Hhd in Hprev. injection Hprev as <-.
  split_and!; [done|apply fp_main; [apply Hno|done]|].
  intros k c. split; [intros Hin; by apply not_elem_of_nil in Hin|lia].
Qed.

Lemma extend_spec b block hash prev new :
  light_ok b -> new_ok b block hash prev -> ci_head new = block -> main_chain_successor new = None ->
  parent_hash block = head_hash b ->
  wp (extend new prev) (fun r b' => r = Extended /\ new_head b block b') (fun _ _ => False) b.
Proof.
  intros Hok Hno Hhead Hsucc Hpar. destruct (extend_branch b block hash prev Hok Hno Hpar) as (Hhd & Hpath & Hrev).
  pose proof (carries_hash _ _ (no_carries _ _ _ _ Hno)) as Hbh.
  pose proof (grow_micro b block hash prev new prev _ [] [] Hok Hno Hhead Hhd Hpath (NoDup_nil_2) Hrev) as Hmi.
  pose proof (grow_macro b block hash prev new prev _ [] [] Hok Hno Hhead Hhd Hpath (NoDup_nil_2) Hrev) as Hma.
  unfold extend. rewrite Hsucc, Hhead, Hbh. cbn [ci_head set_main_chain]. rewrite Hhead.
  assert (Hres : forall b' st', grown b st' block hash /\ keeps_macro b st' /\
      keeps_final b st' (next_macro b block) -> advanced b b' st' block ->
    (is_macro block = true -> block_number block = macro_num b + bpb) -> Extended = Extended /\ new_head b block b').
  { intros b' st' Hg Ha Hn. split; [done|]. by eapply grown_new_head. }
  set (prev' := set_main_chain (on_main_chain prev) (Some hash) prev) in *.
  assert (Hcl : put_chain_info (set_main_chain true None new)
      (clear_old_blocks (block_number block) (put_chain_info prev' (lb_chain_store b))) =
    clear_old_blocks (block_number block) (put_all
      (writes [] [(hash, new)] (parent_hash block, prev)).*2 (lb_chain_store b))).
  { apply put_clear with hash.
    - cbn [ci_head set_main_chain]. rewrite Hhead. apply Hno.
    - destruct (put_kept_ok (lb_chain_store b) prev' (head_hash b) (lo_store b Hok)) as [_ ->].
      + exact (so_kept _ (lo_store b Hok) _ _ Hhd).
      + intros old Hold. rewrite Hhd in Hold. by injection Hold as <-.
      + pose proof (no_fresh _ _ _ _ Hno) as Hf. rewrite lookup_insert_ne; [done|]. intros <-. congruence.
    - unfold num. cbn [ci_head set_main_chain]. rewrite Hhead.
      pose proof (new_safe b block hash prev Hno) as Hs. pose proof bpb_pos.
      apply retain_small; [done|destruct Hs; lia|lia]. }
  unfold when. destruct block as [mb|mb]; cbn [is_macro] in *.
  - destruct (Hma eq_refl) as [Hn Hg]. destruct (is_election_macro mb) eqn:He;
      repeat (wp_step; cbv beta); (eapply Hres; [exact Hg| |done]);
      apply finality_advanced, send_advanced; unfold advanced; rewrite He; cbn [lb_chain_store set_store
        set_election set_macro_head set_lb_head]; rewrite ?put_election_comm, Hcl; done.
  - repeat (wp_step; cbv beta). eapply Hres; [by apply Hmi| |done]. by apply finality_advanced, send_advanced.
Qed.

(** ** [rebranch] *)

Definition on_main (b : LightBlockchain) (h : Z) : Prop :=
  exists ci, db b !! h = Some ci /\ on_main_chain ci = true.

(** The two walks from a new block that is not on the main chain. *)
Lemma rebranch_walks b block hash prev new :
  light_ok b -> new_ok b block hash prev -> ci_head new = block -> on_main_chain new = false ->
  exists chain anc revert hd, db b !! head_hash b = Some hd /\
    fork_walk (S (Z.to_nat (block_number block))) (lb_chain_store b) (hash, new)
      = Some ((hash, new) :: chain, anc) /\
    revert_walk (S (Z.to_nat (block_number (ci_head hd)))) (lb_chain_store b) (head_hash b, hd) anc.1
      = Some revert /\
    fork_path (db b) (parent_hash block, prev) chain anc /\ macro_num b <= num anc.2 /\
    NoDup revert.*1 /\
    (forall k c, (k, c) ∈ revert <->
       db b !! k = Some c /\ on_main_chain c = true /\ num anc.2 < num c <= num hd).
Proof.
  intros Hok Hno Hhead Hoff. pose proof (lo_chain b Hok) as Hch. pose proof (no_prev _ _ _ _ Hno) as Hprev.
  destruct (light_head b Hok) as (hd & Hhd & _ & Hon & _ & Hr). pose proof pol_genesis as [Hg _].
  pose proof (co_range _ _ _ _ Hch _ _ Hprev) as Hpr.
  destruct (fork_walk_stored _ _ _ _ Hch (lb_chain_store b) (Z.to_nat (block_number block)) _ _ eq_refl Hprev)
    as (chain & anc & Hw & Hpath); [rewrite (no_number _ _ _ _ Hno); lia|].
  pose proof (path_above _ _ _ _ _ _ _ Hch Hpath Hprev (no_above _ _ _ _ Hno)) as Hab.
  destruct (path_anc _ _ _ _ Hpath) as (Ha & Haon & _).
  destruct (revert_walk_ok _ _ _ _ Hch (lb_chain_store b) (S (Z.to_nat (block_number (ci_head hd))))
              _ _ anc eq_refl Hhd Hon Ha Haon Hab) as (revert & Hrw & Hnd & Hin).
  - by apply (co_top _ _ _ _ Hch anc.1).
  - unfold num. lia.
  - exists chain, anc, revert, hd. split_and!; try done. cbn [fork_walk snd]. rewrite Hoff, Hhead, Hprev.
    cbn [mbind option_bind]. by rewrite Hw.
Qed.

(** The writes of [rebranch] are those of the new main chain. *)
Lemma rebranch_puts revert hash new chain anc last_fork st :
  last ((hash, new) :: chain) = Some last_fork ->
  put_all (reverse (snd <$> adopt_chain ((hash, new) :: chain) None))
    (put_chain_info (set_main_chain (on_main_chain anc.2) (Some last_fork.1) anc.2)
       (put_all (snd <$> ((fun c => (c.1, unset_main c.2)) <$> revert)) st)) =
  put_all (writes revert ((hash, new) :: chain) anc).*2 st.
Proof.
  intros Hl. unfold writes. rewrite Hl, !fmap_app, !put_all_app, fmap_reverse. done.
Qed.

Definition is_upgrade (event : BlockchainEvent.t) : bool :=
  match event with BlockchainEvent.ProtocolUpgrade _ _ => true | _ => false end.

(** The events of [rebranch]. *)
Definition rebranch_events (b b' : LightBlockchain) (hash : Z) : Prop :=
  exists reverted adopted tail,
    lb_events b' = lb_events b ++ BlockchainEvent.Rebranched reverted adopted :: tail /\
    Forall (fun event => is_upgrade event = false) tail /\
    (forall h, h ∈ reverted.*1 -> on_main b h /\ ~ on_main b' h) /\ head_hash b ∈ reverted.*1 /\
    (forall h, h ∈ adopted.*1 -> ~ on_main b h /\ on_main b' h) /\ hash ∈ adopted.*1.

Lemma finality_events hash el ma b :
  exists tail, lb_events (send_finality false hash el ma b) = lb_events b ++ tail /\
    Forall (fun event => is_upgrade event = false) tail.
Proof.
  unfold send_finality. destruct el, ma; [eexists; split; [done|by repeat constructor]..|].
  exists []. by rewrite app_nil_r.
Qed.

Section Rebranched.
Context (b : LightBlockchain) (block : Block) (hash : Z) (prev new hd : ChainInfo) (anc : Z * ChainInfo).
Context (chain revert : list (Z * ChainInfo)).
Hypothesis Hok : light_ok b.
Hypothesis Hno : new_ok b block hash prev.
Hypothesis Hhead : ci_head new = block.
Hypothesis Hhd : db b !! head_hash b = Some hd.
Hypothesis Hpath : fork_path (db b) (parent_hash block, prev) chain anc.
Hypothesis Hnd : NoDup revert.*1.
Hypothesis Hrev : forall k c, (k, c) ∈ revert <->
  db b !! k = Some c /\ on_main_chain c = true /\ num anc.2 < num c <= num hd.
#[local] Abbreviation st1 := (put_all (writes revert ((hash, new) :: chain) anc).*2 (lb_chain_store b)).
#[local] Abbreviation blocks l := ((fun c : Z * ChainInfo => (c.1, ci_head c.2)) <$> reverse l).

Lemma rebranched_off h st' :
  (forall k c, chain_db st' !! k = Some c -> chain_db st1 !! k = Some c) -> h ∈ revert.*1 ->
  forall ci, chain_db st' !! h = Some ci -> on_main_chain ci = false.
Proof.
  intros Hsub ([k c] & -> & Hin)%list_elem_of_fmap ci Hci%Hsub. cbn [fst] in Hci.
  apply Hrev in Hin as (Hc & Hon & Hr).
  destruct (grow_view b block hash prev new hd anc chain revert Hok Hno Hhead Hhd Hpath Hnd Hrev) as [_ Hview].
  destruct (view_cases _ _ _ _ _ _ Hview _ _ Hci) as [(q & Hq & _)|(q & Hq & _ & Hmv & _)].
  - apply elem_of_cons in Hq as [[= -> ->]|Hq]; [pose proof (no_fresh _ _ _ _ Hno); congruence|].
    destruct (path_stored _ _ _ _ Hpath (no_prev _ _ _ _ Hno) _ _ Hq) as (Hq' & Hoff & _). congruence.
  - rewrite Hc in Hq. injection Hq as <-. rewrite Hmv, Hon. cbn. apply Z.leb_gt. lia.
Qed.

(** The old head is reverted. *)
Lemma head_reverted : parent_hash block <> head_hash b -> head_hash b ∈ revert.*1.
Proof.
  intros Hne. apply list_elem_of_fmap. exists (head_hash b, hd). split; [done|]. apply Hrev.
  pose proof (lo_chain b Hok) as Hch. pose proof (no_prev _ _ _ _ Hno) as Hprev.
  destruct (path_anc _ _ _ _ Hpath) as (Ha & Haon & _).
  pose proof (path_above _ _ _ _ _ _ _ Hch Hpath Hprev (no_above _ _ _ _ Hno)) as Hab.
  pose proof (path_not_tip _ _ _ _ _ _ _ Hch Hpath Hprev Hne) as Htip.
  destruct (light_head b Hok) as (hd' & Hhd' & _ & Hon & _). rewrite Hhd in Hhd'. injection Hhd' as <-.
  pose proof (co_top _ _ _ _ Hch _ _ _ Ha Haon Hhd). split_and!; [done..| |lia].
  destruct (decide (num anc.2 = num hd)) as [He|]; [|lia]. destruct Htip.
  eapply (co_uniq _ _ _ _ Hch anc.1 (head_hash b) anc.2 hd); try done; lia.
Qed.

(** The adopted blocks are on the new main chain. *)
Lemma adopted_on h c st' :
  (forall k c, chain_db st1 !! k = Some c -> macro_num b <= num c -> chain_db st' !! k = Some c) ->
  (h, c) ∈ (hash, new) :: chain -> exists ci, chain_db st' !! h = Some ci /\ on_main_chain ci = true.
Proof.
  intros Hsup Hin. pose proof (no_prev _ _ _ _ Hno) as Hprev.
  destruct (grow_view b block hash prev new hd anc chain revert Hok Hno Hhead Hhd Hpath Hnd Hrev) as [_ Hview].
  pose proof (path_above _ _ _ _ _ _ _ (lo_chain b Hok) Hpath Hprev (no_above _ _ _ _ Hno)) as Hab.
  assert (Hput : exists c', chain_db st1 !! h = Some c' /\ num c' = num c /\ on_main_chain c' = true).
  { apply elem_of_cons in Hin as [[= -> ->]|Hin].
    - destruct (proj1 Hview hash (normal new)) as (c' & ? & Hc & ? & _); [by left|]. exists c'.
      split_and!; [done| |done]. rewrite <-(normal_num new). unfold num. by rewrite Hc.
    - destruct (proj1 Hview h c) as (c' & ? & Hc & ? & _); [by right|]. exists c'.
      split_and!; [done| |done]. unfold num. by rewrite Hc. }
  destruct Hput as (c' & Hc' & Hn & Hon). exists c'. split; [|done]. apply Hsup; [done|]. rewrite Hn.
  apply elem_of_cons in Hin as [[= -> ->]|Hin].
  - unfold num. rewrite Hhead, (no_number _ _ _ _ Hno). pose proof (no_above _ _ _ _ Hno). lia.
  - destruct (path_stored _ _ _ _ Hpath Hprev _ _ Hin) as (_ & _ & ?). lia.
Qed.

(** A state with the new head and the events of [rebranch]. *)
Lemma rebranch_done b1 st' up el ma :
  parent_hash block <> head_hash b ->
  grown b st' block hash /\ keeps_macro b st' /\ keeps_final b st' (next_macro b block) ->
  advanced b b1 st' block -> lb_events b1 = lb_events b -> up = false ->
  (forall k c, chain_db st' !! k = Some c -> chain_db st1 !! k = Some c) ->
  (forall k c, chain_db st1 !! k = Some c -> macro_num b <= num c -> chain_db st' !! k = Some c) ->
  (is_macro block = true -> block_number block = macro_num b + bpb) ->
  let b' := send_finality up (block_hash block) el ma
    (send (BlockchainEvent.Rebranched (blocks ((fun c => (c.1, unset_main c.2)) <$> revert))
             (blocks (adopt_chain ((hash, new) :: chain) None))) b1) in
  new_head b block b' /\ rebranch_events b b' hash.
Proof.
  intros Hne Hg Ha Hev -> Hsub Hsup Hn b'.
  assert (Hdb : db b' = chain_db st') by (unfold b', send_finality; destruct el, ma; apply Ha). split.
  { eapply grown_new_head; [done..| |done]. by apply finality_advanced, send_advanced. }
  destruct (finality_events (block_hash block) el ma (send (BlockchainEvent.Rebranched
     (blocks ((fun c => (c.1, unset_main c.2)) <$> revert))
     (blocks (adopt_chain ((hash, new) :: chain) None))) b1)) as (tail & Htail & Hup).
  eexists _, _, tail. split_and!; [|done|..].
  - unfold b'. rewrite Htail. cbn [lb_events send]. by rewrite Hev, <-app_assoc.
  - intros h Hin. rewrite <-list_fmap_compose, fmap_reverse, reverse_Permutation, <-list_fmap_compose in Hin.
    split.
    + apply list_elem_of_fmap in Hin as ([k c] & -> & (Hc & Hon & _)%Hrev). by exists c.
    + intros (ci & Hci & Hon). rewrite Hdb in Hci. rewrite (rebranched_off h st' Hsub Hin ci Hci) in Hon. done.
  - rewrite <-list_fmap_compose, fmap_reverse, reverse_Permutation, <-list_fmap_compose. by apply head_reverted.
  - intros h Hin. rewrite <-list_fmap_compose, fmap_reverse, reverse_Permutation in Hin.
    change (h ∈ (adopt_chain ((hash, new) :: chain) None).*1) in Hin. rewrite adopt_keys in Hin.
    apply list_elem_of_fmap in Hin as ([k c] & -> & Hin). cbn [fst] in *.
    split; [|unfold on_main; rewrite Hdb; by eapply adopted_on]. intros (ci & Hci & Hon).
    apply elem_of_cons in Hin as [[= -> ->]|Hin]; [pose proof (no_fresh _ _ _ _ Hno); congruence|].
    destruct (path_stored _ _ _ _ Hpath (no_prev _ _ _ _ Hno) _ _ Hin) as (Hc & Hoff & _). congruence.
  - rewrite <-list_fmap_compose, fmap_reverse, reverse_Permutation. by left.
Qed.
End Rebranched.

Lemma rebranch_spec b block hash prev new :
  light_ok b -> new_ok b block hash prev -> ci_head new = block -> on_main_chain new = false ->
  parent_hash block <> head_hash b ->
  wp (rebranch new) (fun r b' => r = Rebranched /\ new_head b block b' /\ rebranch_events b b' hash)
    (fun _ _ => False) b.
Proof.
  intros Hok Hno Hhead Hoff Hne.
  destruct (rebranch_walks b block hash prev new Hok Hno Hhead Hoff)
    as (chain & anc & revert & hd & Hhd & Hfw & Hrw & Hpath & Hab & Hnd & Hrev).
  pose proof (carries_hash _ _ (no_carries _ _ _ _ Hno)) as Hbh.
  pose proof (grow_micro b block hash prev new hd anc chain revert Hok Hno Hhead Hhd Hpath Hnd Hrev) as Hmi.
  pose proof (grow_macro b block hash prev new hd anc chain revert Hok Hno Hhead Hhd Hpath Hnd Hrev) as Hma.
  pose proof (rebranch_done b block hash prev new hd anc chain revert Hok Hno Hhead Hhd Hpath Hnd Hrev) as Hdone.
  cbv zeta in Hdone. unfold rebranch. rewrite Hhead, Hbh.
  wp_step. wp_step. wp_step. eapply wp_expect; [exact Hfw|]. cbv beta iota.
  wp_step. wp_step. wp_step. wp_step.
  { exfalso. match goal with H : (_ <? _) = true |- _ => apply Z.ltb_lt in H end. unfold num, macro_num in *. lia. }
  wp_step. wp_step. wp_step. eapply wp_expect; [exact Hhd|].
  wp_step. eapply wp_expect; [exact Hrw|].
  wp_step. wp_step. wp_step.
  destruct (last ((hash, new) :: chain)) as [last_fork|] eqn:Hl; [|by apply last_None in Hl].
  eapply wp_expect; [done|]. do 4 wp_step.
  wp_step. eapply wp_expect; [reflexivity|]. cbn [ci_head set_main_chain snd]. rewrite Hhead.
  wp_step. wp_step. cbv beta.
  pose proof (rebranch_puts revert hash new chain anc last_fork (lb_chain_store b) Hl) as Hputs.
  destruct block as [mb|mb]; cbn [is_macro] in *.
  - destruct (Hma eq_refl) as [Hn Hg].
    pose proof (grow_retained b _ hash prev new hd anc chain revert Hok Hno Hhead Hhd Hpath Hnd Hrev eq_refl) as Hsup.
    destruct (is_election_macro mb) eqn:He; repeat (wp_step; cbv beta); (split; [done|]);
      (apply (Hdone _ _ _ _ _ Hne Hg);
       [|done|done || apply Z.ltb_irrefl|by intros k c [Hk _]%clear_lookup|exact Hsup|done]);
      unfold advanced; rewrite He; cbn [lb_chain_store set_store set_election set_macro_head set_lb_head];
      by rewrite Hputs.
  - repeat (wp_step; cbv beta). split; [done|]. apply (Hdone _ _ _ _ _ Hne (Hmi eq_refl)); try done.
    unfold advanced. cbn [lb_chain_store set_store set_lb_head]. by rewrite Hputs.
Qed.

(** ** The checks of [push] *)

(** What holds of every decoded block with a number below the last epoch of the
    [u32] range: [Validators] is built by [Validators::new] from [u16] bands. *)
Definition typed_block (block : Block) : Prop :=
  typed_justification block /\ block_number block + bpe <= max_value 32 /\
  match block with
  | BMacro mb => forall v, MacroHeader.validators (ma_header mb) = Some v ->
      typed_bands (vs_validators v) /\ v = new_validators (vs_validators v)
  | BMicro _ => True
  end.

Lemma verify_block_type block net max : verify_block block net max = Ok tt ->
  is_macro block = is_macro_block_at (block_number block).
Proof.
  unfold verify_block. intros Hv. apply outcome_bind_ok in Hv as (? & Hv%err_if_ok & _).
  apply negb_false_iff, bool_decide_eq_true in Hv. unfold block_type_of in Hv.
  destruct block; cbn [ty is_macro] in *; by destruct (is_macro_block_at _).
Qed.

Lemma verify_block_election mb net max v0 : verify_block (BMacro mb) net max = Ok v0 ->
  typed_block (BMacro mb) -> is_election_macro mb = true ->
  exists v, MacroHeader.validators (ma_header mb) = Some v /\ well_formed v.
Proof.
  unfold verify_block, verify_header, verify_macro_header, is_election_macro. intros Hv (_ & _ & Ht) He.
  rewrite He in Hv. inv_outcome Hv. destruct (MacroHeader.validators (ma_header mb)) as [v|].
  - exists v. split; [done|]. destruct (Ht v eq_refl) as [Hb Hn]. apply err_if_ok, negb_false_iff in Ho7.
    by split_and!.
  - done.
Qed.

Lemma verify_proposer_signed mb key prev_seed :
  verify_proposer (BMicro mb) key prev_seed = Ok tt -> is_skip_block mb = false ->
  exists sig, mi_justification mb = Some (Micro sig).
Proof.
  unfold verify_proposer, verify_micro_proposer, is_skip_block. intros Hv Hs.
  apply outcome_bind_ok in Hv as (_ & _ & Hv). destruct (mi_justification mb) as [[sig|proof]|]; [|done..].
  by exists sig.
Qed.

Lemma chain_info_spec block prev : has_body block = false -> block_number block = num prev + 1 ->
  safe_number (num prev) ->
  no_panic (chain_info_from_block block prev) /\
  forall ci, chain_info_from_block block prev = Ok ci ->
    ci_head ci = block /\ on_main_chain ci = false /\ main_chain_successor ci = None.
Proof.
  intros Hb Hn [Hg Hs]. unfold chain_info_from_block. pose proof pol_genesis as [Hg0 _].
  pose proof blocks_per_epoch_pos. rewrite Hn. replace (num prev + 1 - 1) with (num prev) by lia.
  rewrite wrap_small by (unfold in_width; lia). unfold num. rewrite Z.eqb_refl. cbn [negb].
  assert (sum_transaction_fees block = Ok 0) as ->.
  { destruct block as [mb|mb]; [done|]. cbn in *. by destruct (mi_body mb). }
  cbn [mbind outcome_bind]. destruct (is_macro_block_at _).
  - split; [done|]. cbn. by intros ci [= <-].
  - destruct (coin_checked_add _ _); (split; [done|]); [by intros ci [= <-]|done].
Qed.

(** A state that differs only in the reported forks. *)
Definition same_chain (b b' : LightBlockchain) : Prop :=
  exists l, b' = mk_light (lb_network_id b) (lb_head b) (lb_macro_head b) (lb_election_head b)
    (lb_current_validators b) (lb_genesis_block b) (lb_chain_store b) (lb_events b) l.

Lemma same_chain_refl b : same_chain b b.
Proof. exists (lb_fork_events b). by destruct b. Qed.
Lemma same_chain_light b b' : same_chain b b' -> light_ok b -> light_ok b'.
Proof. intros [l ->] []. by split. Qed.

Definition signed_micro (mb : MicroBlock) : Prop :=
  valid_seed (MicroHeader.seed (mi_header mb)) /\ exists sig, mi_justification mb = Some (Micro sig).

(** The loop of [detect_forks]. *)
Lemma detect_loop b s block address l :
  signed_micro block -> (forall mb, mb ∈ l -> signed_micro mb) -> same_chain b s ->
  wp (for_each l (fun micro_block =>
        proof ← expect (fork_with block micro_block address);
        if_some proof (fun proof => modify (send_fork proof))))
    (fun _ b' => same_chain b b') (fun (_ : PushError.t) _ => False) s.
Proof.
  intros ([e He] & sig & Hj). revert s. induction l as [|mb l IH]; intros s Hl Hs; cbn [for_each]; [by wp_step|].
  destruct (Hl mb) as ([e' He'] & sig' & Hj'); [by left|].
  assert (Hf : exists o, fork_with block mb address = Some o).
  { unfold fork_with. rewrite He, He'. cbn [mbind option_bind]. rewrite Hj, Hj'.
    destruct (_ =? _); by eexists. }
  destruct Hf as [o Ho]. wp_step. wp_step. eapply wp_expect; [exact Ho|]. cbv beta.
  destruct o as [proof|]; unfold if_some; wp_step; (apply IH; [intros mb' Hin; apply Hl; by right|]).
  - destruct Hs as [l' ->]. by eexists.
  - done.
Qed.

Lemma detect_forks_spec b block address :
  light_ok b -> signed_micro block ->
  wp (detect_forks block address) (fun _ b' => same_chain b b') (fun _ _ => False) b.
Proof.
  intros Hok Hm. unfold detect_forks. wp_step. destruct Hm as (Hse & sig & Hj).
  apply wp_assert; [unfold is_skip_block; by rewrite Hj|]. wp_step. wp_step. cbv beta.
  apply detect_loop; [by split; [|exists sig]| |apply same_chain_refl].
  intros mb (bl & Hbl & Hp)%list_elem_of_omap. unfold get_blocks_at in Hbl.
  destruct (height_idx _ !! _) as [hs|]; [|by apply not_elem_of_nil in Hbl].
  apply list_elem_of_omap in Hbl as (h & _ & Hh). apply fmap_Some in Hh as (ci & Hci & ->).
  destruct (lo_blocks b Hok h ci Hci) as (Hs & _ & Hmi). unfold is_plain_micro in Hp.
  destruct (ci_head ci) as [|mb']; [done|]. destruct (is_skip_block mb') eqn:Hsk; [done|].
  injection Hp as ->. split; [done|by apply Hmi].
Qed.
End Light.
