(* ===== verification/LightPush.v ===== *)
(** * The light blockchain: the entry points

    [push], [push_macro], [push_pico_election] and [reset_blockchain] keep the
    invariant of the light node and do not panic. *)

From S2P Require Import Prelude Coin Policy BitSet AccountTypes Codec TxContent Discrete Slots.
From S2P Require Import Election Vrf Block Bls Equivocation BlockVerify LightChain.
From S2P Require Import LightChainInv LightVerify LightChainProofs.

Section Push.
Context `{P : Policy} {PolOk : PolicyOk P} `{BEnv : BlockEnv} `{Cv : Curve} `{Bls : BlsEnv}.
Context `{Bd : BodyEnv} `{SEnv : SlotEnv}.
#[local] Existing Instance vrf_rng.
#[local] Abbreviation bpb := blocks_per_batch.
#[local] Abbreviation bpe := blocks_per_epoch.
#[local] Abbreviation genesis := genesis_block_number.
#[local] Abbreviation db b := (chain_db (lb_chain_store b)).

(** ** A block off the main chain *)

Lemma store_spec b block hash prev new events :
  light_ok b -> new_ok b block hash prev -> ci_head new = block -> on_main_chain new = false ->
  main_chain_successor new = None -> parent_hash block <> head_hash b -> is_macro block = false ->
  let b' := mk_light (lb_network_id b) (lb_head b) (lb_macro_head b) (lb_election_head b)
    (lb_current_validators b) (lb_genesis_block b) (put_chain_info new (lb_chain_store b)) events
    (lb_fork_events b) in
  light_ok b' /\ final b b'.
Proof.
  intros Hok Hno Hhead Hoff Hnx Htip Hmi b'.
  assert (Hcar : carries hash (ci_head new)) by (rewrite Hhead; apply Hno).
  pose proof (no_fresh _ _ _ _ Hno) as Hf.
  assert (Hnew : ci_head (normal new) = stored_part block) by (unfold normal; cbn; by rewrite Hhead).
  destruct (put_kept_ok (lb_chain_store b) (normal new) hash (lo_store b Hok)) as [Hso Hdb];
    [rewrite Hnew; by apply carries_kept; rewrite <-Hhead|congruence|].
  assert (Hst : lb_chain_store b' = put_chain_info (normal new) (lb_chain_store b))
    by (unfold b'; cbn; by apply put_normal with hash).
  assert (Hdb' : db b' = <[hash := normal new]> (db b)) by (by rewrite Hst).
  assert (Hkeep : forall h c, db b !! h = Some c -> db b' !! h = Some c).
  { intros h c Hh. rewrite Hdb', lookup_insert_ne; [done|]. intros ->. congruence. }
  assert (Hnum : num (normal new) = block_number block)
    by (unfold num; rewrite Hnew; by destruct block).
  split.
  - destruct (lo_head b Hok) as (hd & Hhd & ?), (lo_macro b Hok) as (mi & Hmi' & ?).
    split; [by rewrite Hst| |by eauto|by eauto| |apply Hok..].
    + rewrite Hdb'. apply (store_chain_ok _ _ _ _ _ _ prev (lo_chain b Hok) Hf); try done.
      * rewrite Hnew. by destruct block.
      * rewrite Hnew. by destruct block.
      * rewrite Hnum, Hnew. replace (is_macro (stored_part block)) with (is_macro block) by by destruct block.
        apply Hno.
      * rewrite Hnew. replace (parent_hash (stored_part block)) with (parent_hash block) by by destruct block.
        apply Hno.
      * rewrite Hnum, (no_number _ _ _ _ Hno). lia.
      * apply Hno.
    + intros h ci. rewrite Hdb'. intros [[<- <-]|[_ Hh]]%lookup_insert_Some; [|by apply (lo_blocks b Hok h)].
      rewrite Hnew. apply Hno.
  - split; [done|]. split.
    + destruct (light_macro b Hok) as (ci & Hci & Hhd & Hon & _). exists ci. eauto.
    + intros h ci Hci Hon _. left. exists ci. eauto.
Qed.

(** ** [push] *)

(** The result of a push of a block with hash [hash] on top of [parent]. *)
Definition pushed (b : LightBlockchain) (hash parent : Z) (r : PushResult) (b' : LightBlockchain) : Prop :=
  light_ok b' /\ final b b' /\
  match r with
  | Extended => head_hash b' = hash /\ parent = head_hash b /\
      block_number (lb_head b') = block_number (lb_head b) + 1
  | Rebranched => head_hash b' = hash /\ parent <> head_hash b /\
      macro_num b < block_number (lb_head b') /\ rebranch_events b b' hash
  | Known | Ignored | Forked => lb_head b' = lb_head b /\ lb_macro_head b' = lb_macro_head b
  end.

(** The number of the block is consistent with its predecessor, if that is known. *)
Definition consistent (b : LightBlockchain) (block : Block) : Prop :=
  forall prev, db b !! parent_hash block = Some prev -> block_number block = num prev + 1.

Lemma same_new b b' block hash prev : same_chain b b' -> new_ok b block hash prev -> new_ok b' block hash prev.
Proof. by intros [l ->] []. Qed.
Lemma same_final b b' b'' : same_chain b b' -> final b' b'' -> final b b''.
Proof. by intros [l ->]. Qed.

(** The end of [push], once the block is checked. *)
Lemma push_end b b1 block hash prev new order :
  light_ok b -> same_chain b b1 -> new_ok b block hash prev -> ci_head new = block ->
  on_main_chain new = false -> main_chain_successor new = None ->
  (order = Extend <-> parent_hash block = head_hash b) ->
  (is_macro block = true -> order = Extend \/ order = Superior) ->
  wp (add_block order new prev) (pushed b hash (parent_hash block)) (fun _ _ => False) b1.
Proof.
  intros Hok Hsame Hno Hhead Hoff Hsucc Hext Hma. pose proof (same_chain_light _ _ Hsame Hok) as Hok1.
  pose proof (same_new _ _ _ _ _ Hsame Hno) as Hno1. pose proof (no_number _ _ _ _ Hno) as Hbn.
  assert (Hhd1 : head_hash b1 = head_hash b) by by destruct Hsame as [l ->].
  assert (Hnew : forall b', new_head b1 block b' ->
    light_ok b' /\ final b b' /\ head_hash b' = hash /\ lb_head b' = block).
  { intros b' (H1 & H2 & H3). split_and!; [done|by eapply same_final| |done]. unfold head_hash. rewrite H3.
    apply carries_hash, Hno. }
  assert (Hstore : order <> Extend -> order <> Superior ->
    let b' := send (BlockchainEvent.Stored (ci_head new)) (set_store (put_chain_info new) b1) in
    light_ok b' /\ final b b' /\ lb_head b' = lb_head b /\ lb_macro_head b' = lb_macro_head b).
  { intros Hne1 Hne2 b'.
    assert (Hmi : is_macro block = false) by (destruct (is_macro block); [by destruct (Hma eq_refl)|done]).
    destruct (store_spec b1 block hash prev new (lb_events b1 ++ [BlockchainEvent.Stored (ci_head new)])
                Hok1 Hno1 Hhead Hoff Hsucc) as [H1 H2]; [rewrite Hhd1; naive_solver|done|].
    split_and!; [exact H1|eapply same_final; [done|exact H2]|by destruct Hsame as [l ->]..]. }
  unfold add_block. destruct order.
  - eapply wp_mono; [apply (extend_spec b1 block hash); try done; by rewrite Hhd1, <-Hext| |done].
    intros r b' [-> (H1 & H2 & H3 & H4)%Hnew]. destruct (light_head b Hok) as (hd & Hhd & _ & _ & Hhn & _).
    assert (Hpar : parent_hash block = head_hash b) by by apply Hext.
    pose proof (no_prev _ _ _ _ Hno) as Hprev. rewrite Hpar, Hhd in Hprev. injection Hprev as ->.
    split_and!; [done..|by rewrite H4, Hbn, Hhn].
  - assert (Hne : parent_hash block <> head_hash b) by (intros Hp%Hext; done).
    eapply wp_mono; [apply (rebranch_spec b1 block hash prev); try done; by rewrite Hhd1| |done].
    intros r b' (-> & (H1 & H2 & H3 & H4)%Hnew & Hev). split_and!; [done..| |by destruct Hsame as [l ->]].
    pose proof (no_above _ _ _ _ Hno). rewrite H4, Hbn. lia.
  - wp_step. wp_step. wp_step. wp_step. wp_step. by apply Hstore.
  - wp_step. wp_step. wp_step. wp_step. wp_step. by apply Hstore.
Qed.

(** A check: its error leaves the state unchanged. *)
Lemma wp_check {A} (o : outcome BlockError.t A) (Q : A -> LightBlockchain -> Prop) QE s :
  no_panic o -> (forall e, QE e s) -> (forall a, o = Ok a -> Q a s) -> wp (check o) Q QE s.
Proof. intros Hn He HQ. destruct o; [by apply HQ|by apply He|done]. Qed.
Lemma wp_or_orphan {A} (o : outcome BlockchainError.t A) (Q : A -> LightBlockchain -> Prop) QE s :
  no_panic o -> (forall e, QE e s) -> (forall a, o = Ok a -> Q a s) -> wp (or_orphan o) Q QE s.
Proof. intros Hn He HQ. destruct o; [by apply HQ|by apply He|done]. Qed.

(** A checked block is new to the store. *)
Lemma checked_new b block prev net max key v0 :
  let block' := strip_body (block_hash_cached block).2 in
  light_ok b -> typed_block block -> macro_num b < block_number block -> db b !! block_hash block = None ->
  db b !! parent_hash block = Some prev -> block_number block = num prev + 1 ->
  verify_block block' net max = Ok v0 -> verify_proposer block' key (seed (ci_head prev)) = Ok tt ->
  new_ok b block' (block_hash block) prev.
Proof.
  intros block' Hok Ht Hgt Hf Hprev Hn Hv Hp. destruct v0.
  assert (Hbn : block_number block' = block_number block) by by destruct block.
  assert (Hpar : parent_hash block' = parent_hash block) by by destruct block.
  destruct (macro_safe b Hok) as [Hg _].
  assert (Hsafe : safe_number (block_number block')) by (destruct Ht as (_ & Hmax & _); split; lia).
  split; [apply carries_cached|done|by rewrite Hpar|lia|lia| |].
  - rewrite (verify_block_type _ _ _ Hv). by apply safe_type.
  - split_and!.
    + replace (seed (stored_part block')) with (seed block') by by destruct block.
      eapply verify_proposer_seed; [|exact Hp]. by destruct (lo_blocks b Hok _ _ Hprev).
    + by replace (block_number (stored_part block')) with (block_number block') by by destruct block.
    + destruct block as [mb|mb]; cbn [block' strip_body stored_part block_hash_cached snd] in *.
      * intros He. by apply (verify_block_election _ _ _ _ Hv).
      * intros Hs. by apply (verify_proposer_signed _ _ _ Hp).
Qed.

(** The checks neither panic nor change the chain; a block that passes is new. *)
Lemma check_block_spec now b block prev :
  let block' := strip_body (block_hash_cached block).2 in
  light_ok b -> typed_block block -> macro_num b < block_number block -> db b !! block_hash block = None ->
  db b !! parent_hash block = Some prev -> block_number block = num prev + 1 ->
  productive (R := VrfRng) draw_fuel -> map_total ->
  wp (check_block now block' prev)
    (fun _ b' => same_chain b b' /\ new_ok b block' (block_hash block) prev)
    (fun _ b' => b' = b) b.
Proof.
  intros block' Hok Ht Hgt Hf Hprev Hn Hprod Hmap. destruct (lo_blocks b Hok _ _ Hprev) as ([e He] & _).
  assert (Hbn : block_number block' = block_number block) by by destruct block.
  assert (Hbody : has_body block' = false) by by destruct block.
  assert (Hty : typed_justification block') by (destruct Ht as [Hj _]; by destruct block).
  assert (Hget : forall offset, exists slot, get_proposer b (block_number block') offset e = Ok slot).
  { intros offset. apply get_proposer_total; [done..| |].
    - destruct (macro_safe b Hok), Ht as (_ & Hmax & _). split; lia.
    - pose proof (co_range _ _ _ _ (lo_chain b Hok) _ _ Hprev). lia. }
  unfold check_block. wp_step. wp_step. cbv beta.
  wp_step. apply wp_check; [by apply verify_block_safe|done|]. intros [] Hv.
  wp_step. apply wp_check; [apply verify_immediate_safe|done|]. intros [] _.
  wp_step. eapply wp_mono with (QE := fun _ b' => b' = b) (Q := fun _ b' => b' = b); [|intros [] s ->|done].
  { unfold when. destruct (is_macro block'); [|by wp_step].
    apply wp_check; [apply verify_macro_successor_safe|done|]. by intros []. }
  wp_step. eapply wp_expect; [exact He|].
  wp_step. destruct (Hget (vrf_offset block')) as [proposer ->]. apply wp_or_orphan; [done..|]. intros ? [= <-].
  wp_step. apply wp_check; [apply verify_proposer_safe; [by exists e|done]|done|]. intros [] Hp.
  pose proof (checked_new b block prev _ _ _ tt Hok Ht Hgt Hf Hprev Hn Hv Hp) as Hnew. fold block' in Hnew.
  assert (Hseed : valid_seed (seed block')) by (eapply verify_proposer_seed; [by exists e|exact Hp]).
  wp_step. destruct (lo_validators b Hok) as (v & Hval & Hwf). eapply wp_expect; [exact Hval|].
  wp_step. apply wp_check; [by apply verify_validators_safe|done|]. intros [] _.
  pose proof (same_chain_refl b) as Hrefl.
  destruct block' as [mb|mb]; [by wp_step|]. destruct (is_skip_block mb) eqn:Hsk; [by wp_step|].
  destruct (Hget (block_number (BMicro mb))) as [slot ->]. wp_step. wp_step.
  eapply wp_mono; [apply detect_forks_spec; [done|]|by intros [] b'|done].
  split; [done|]. by eapply verify_proposer_signed.
Qed.

Lemma push_spec now b block :
  light_ok b -> typed_block block -> consistent b block ->
  productive (R := VrfRng) draw_fuel -> map_total ->
  wp (push now block) (pushed b (block_hash block) (parent_hash block)) (fun _ b' => light_ok b' /\ final b b') b.
Proof.
  intros Hok Ht Hcons Hprod Hmap. pose proof (final_refl b Hok) as Hfin.
  unfold push. wp_step. wp_step. wp_step. eapply wp_expect; [by apply head_last_macro|]. cbv beta.
  destruct (Z.leb_spec (block_number block) (macro_num b)) as [Hle|Hgt]; [by wp_step|].
  destruct (block_hash_cached block) as [hash block1] eqn:Hc.
  assert (Hhash : hash = block_hash block) by (rewrite <-hash_cached_hash; by rewrite Hc).
  assert (Hb1 : block1 = (block_hash_cached block).2) by by rewrite Hc.
  wp_step. wp_step. cbv beta. rewrite Hhash.
  destruct (db b !! block_hash block) as [known|] eqn:Hfresh; [by wp_step|].
  pose proof (hash_cached_fields block) as (Hbn & Hpar & _ & _ & Hma & _ & _). rewrite <-Hb1 in *.
  wp_step. apply wp_or_orphan; [|done|].
  { unfold get_chain_info. apply no_panic_bind; [apply no_panic_or_err|]. by intros ci _. }
  intros prev Hprev. unfold get_chain_info in Hprev. rewrite Hpar in Hprev. cbn [andb] in Hprev.
  apply outcome_bind_ok in Hprev as (prev' & Hprev%or_err_ok & [= ->]).
  pose proof (Hcons prev Hprev) as Hn. wp_step. wp_step. cbv beta. wp_step.
  destruct (order_total b Hok block1 _ prev Hprev) as (order & Ho & Hext & Hsup); [lia|by rewrite Hbn|].
  eapply wp_expect; [exact Ho|].
  wp_step. rewrite Hb1. eapply wp_mono; [by apply check_block_spec| |by intros ? ? ->].
  intros [] b1 [Hsame Hno]. cbv beta.
  set (block' := strip_body (block_hash_cached block).2) in *.
  destruct (chain_info_spec block' prev) as [Hnp Hci]; [by destruct block|by destruct block|by eapply light_safe|].
  wp_step. apply wp_check; [done| |].
  { intros _. split; [by eapply same_chain_light|by destruct Hsame as [l ->]]. }
  intros new (Hhd & Hoff & Hsucc)%Hci.
  replace (parent_hash block) with (parent_hash block') by by destruct block.
  eapply wp_mono; [eapply (push_end b b1 block' (block_hash block) prev); try done| |done].
  - rewrite Hext. replace (parent_hash block') with (parent_hash block1); [done|]. rewrite Hb1. by destruct block.
  - intros Hmb. apply Hsup; [rewrite Hb1; by destruct block|]. rewrite Hbn.
    assert (block_number block' = block_number block) as Hbn' by by destruct block.
    pose proof (proj1 (no_type _ _ _ _ Hno) Hmb) as Hmn. rewrite Hbn' in Hmn.
    pose proof (macro_number_gap _ _ (co_number _ _ _ _ (lo_chain b Hok)) Hmn Hgt).
    destruct (light_head b Hok) as (hd & _ & _ & _ & <- & ?). lia.
  - done.
Qed.

(** ** [push_macro] and [push_pico_election] *)

(** A checked macro block that can be adopted. *)
Record macro_ok (b : LightBlockchain) (mb : MacroBlock) (hash : Z) : Prop := {
  mo_carries : carries hash (BMacro mb);
  mo_fresh : db b !! hash = None;
  mo_number : macro_num b < block_number (BMacro mb);
  mo_type : macro_number (block_number (BMacro mb));
  mo_head : head_ok (stored_part (BMacro mb));
}.

Lemma adopt_grown b mb hash : light_ok b -> macro_ok b mb hash ->
  grown b (put_chain_info (chain_info_new (BMacro mb) true)
             (clear_old_blocks (block_number (BMacro mb)) (lb_chain_store b))) (BMacro mb) hash.
Proof.
  intros Hok Hmo. set (ci := chain_info_new (BMacro mb) true). set (n := block_number (BMacro mb)).
  assert (Hcar : carries hash (ci_head ci)) by apply Hmo.
  assert (Hnum : num (normal ci) = n) by by rewrite normal_num.
  destruct (put_kept_ok (clear_old_blocks n (lb_chain_store b)) (normal ci) hash) as [Hso Hdb].
  - apply clear_store_ok, Hok.
  - by apply carries_kept.
  - intros old [Hold _]%clear_lookup. pose proof (mo_fresh _ _ _ Hmo). congruence.
  - rewrite (put_normal hash ci _ Hcar). destruct (mo_head _ _ _ Hmo) as (_ & Hsafe & _). split; [done|..].
    + rewrite Hdb. cbn [is_macro]. fold n. rewrite <-Hnum.
      eapply adopt_chain_ok; [apply lo_chain, Hok|rewrite Hnum; apply Hmo|rewrite Hnum; apply Hmo
        |rewrite Hnum; apply Hmo|done..|apply Hmo].
    + rewrite Hdb. exists (normal ci). by rewrite lookup_insert_eq.
    + rewrite Hdb. intros h c [[<- <-]|[_ [Hh _]%clear_lookup]]%lookup_insert_Some; [apply Hmo|].
      by apply (lo_blocks b Hok h).
Qed.

Definition adopted (b : LightBlockchain) (mb : MacroBlock) (b' : LightBlockchain) : Prop :=
  light_ok b' /\ macro_num b <= macro_num b' /\ lb_head b' = BMacro mb /\ lb_macro_head b' = mb /\
  keeps_final b (lb_chain_store b') (block_number (BMacro mb)).

(** What [adopt_macro] and [adopt_pico] do to the fields, in any state. *)
Lemma adopt_advanced b mb hash :
  wp (adopt_macro (BMacro mb) mb hash) (fun r b' => r = Extended /\
    advanced b b' (put_chain_info (chain_info_new (BMacro mb) true)
                     (clear_old_blocks (block_number (BMacro mb)) (lb_chain_store b))) (BMacro mb))
    (fun _ _ => False) b.
Proof.
  unfold adopt_macro, when. do 12 (wp_step; cbv beta). wp_step. cbn [is_election].
  destruct (is_election_macro mb) eqn:He.
  - do 2 (wp_step; cbv beta). wp_step. destruct (_ <? _); repeat (wp_step; cbv beta);
      (split; [done|]); unfold advanced; rewrite He; done.
  - repeat (wp_step; cbv beta). split; [done|]. unfold advanced. rewrite He. done.
Qed.

Lemma pico_advanced b mb hash : is_election_macro mb = true ->
  wp (adopt_pico (BMacro mb) mb hash) (fun r b' => r = Extended /\
    advanced b b' (put_chain_info (chain_info_new (BMacro mb) true)
                     (clear_old_blocks (block_number (BMacro mb)) (lb_chain_store b))) (BMacro mb))
    (fun _ _ => False) b.
Proof.
  intros He. unfold adopt_pico, when. do 14 (wp_step; cbv beta). wp_step.
  destruct (_ <? _); repeat (wp_step; cbv beta); (split; [done|]); unfold advanced; rewrite He; done.
Qed.

(** The old main chain stays, apart from the blocks that are too old. *)
Lemma adopt_final b mb hash : macro_ok b mb hash ->
  keeps_final b (put_chain_info (chain_info_new (BMacro mb) true)
    (clear_old_blocks (block_number (BMacro mb)) (lb_chain_store b))) (block_number (BMacro mb)).
Proof.
  intros Hmo. set (ci := chain_info_new (BMacro mb) true). pose proof (mo_fresh _ _ _ Hmo) as Hf.
  rewrite (put_normal hash ci _ (mo_carries _ _ _ Hmo)), (put_kept _ _ hash) by (by apply carries_kept, Hmo).
  pose proof (clear_final b (lb_chain_store b) _ (mo_number _ _ _ Hmo)) as Hk.
  intros h c Hc Hon Hn. unfold still_main. cbn [chain_db]. rewrite lookup_insert_ne by congruence.
  apply (Hk (fun h c Hc Hon _ => ex_intro _ c (conj Hc (conj eq_refl Hon))) h c Hc Hon Hn).
Qed.

Lemma advanced_adopted b b' mb hash :
  light_ok b -> macro_ok b mb hash ->
  block_number (BMacro mb) <= election_num b + bpe \/ is_election_block_at (block_number (BMacro mb)) = true ->
  advanced b b' (put_chain_info (chain_info_new (BMacro mb) true)
                   (clear_old_blocks (block_number (BMacro mb)) (lb_chain_store b))) (BMacro mb) ->
  adopted b mb b'.
Proof.
  intros Hok Hmo Hle Ha.
  destruct (grown_light b b' _ _ hash Hok (adopt_grown b mb hash Hok Hmo) Ha (mo_carries _ _ _ Hmo))
    as [H1 H2]; [intros _; split; [apply Hmo|done]|done|].
  pose proof (adopt_final b mb hash Hmo) as Hk. destruct Ha as (Hh & _ & Hdb & _ & Hm & _).
  split_and!; [done..|]. unfold keeps_final, still_main in *. by rewrite Hdb.
Qed.

Lemma election_after_eq b : light_ok b -> election_block_after (macro_num b) = election_num b + bpe.
Proof.
  intros Hok. destruct (lo_epoch b Hok) as (He1 & He2 & He3), (macro_safe b Hok) as [Hg Hs].
  pose proof blocks_per_epoch_pos as Hb. pose proof pol_genesis as [Hg0 _].
  unfold election_block_after. destruct (Z.ltb_spec (macro_num b) genesis); [lia|].
  apply Z.mod_divide in He1 as [k Hk]; [|lia].
  assert (Hd : (macro_num b - genesis) / bpe = k)
    by (symmetry; apply Z.div_unique with (r := macro_num b - election_num b); lia).
  rewrite <-Hd in Hk. rewrite period_after; lia.
Qed.

Lemma macro_successor_number b block : light_ok b -> verify_macro_successor block (lb_macro_head b) = Ok tt ->
  macro_num b < block_number block <= election_num b + bpe.
Proof.
  intros Hok Hv. unfold verify_macro_successor in Hv. inv_outcome Hv. fold (macro_num b) in Ho2.
  rewrite (election_after_eq b Hok) in Ho2. apply orb_false_iff in Ho2 as [?%Z.leb_gt ?%Z.ltb_ge]. lia.
Qed.

(** The macro block behind the checks of [push_macro] and [push_pico_election]. *)
Lemma checked_macro b mb net max v0 :
  let mb' := mk_macro_block (macro_header_hash_cached (ma_header mb)).2 None (ma_justification mb) in
  light_ok b -> typed_block (BMacro mb) -> macro_num b < block_number (BMacro mb) ->
  db b !! block_hash (BMacro mb) = None -> valid_seed (seed (BMacro mb)) ->
  verify_block (BMacro mb') net max = Ok v0 -> macro_ok b mb' (block_hash (BMacro mb)).
Proof.
  intros mb' Hok Ht Hgt Hf Hs Hv. destruct v0, (macro_safe b Hok) as [Hg _].
  assert (Hsafe : safe_number (block_number (BMacro mb'))).
  { destruct Ht as (_ & Hmax & _). change (block_number (BMacro mb')) with (block_number (BMacro mb)). split; lia. }
  split; [done..| |].
  - apply safe_type; [done|]. by rewrite <-(verify_block_type _ _ _ Hv).
  - split_and!; [done..|]. intros He. by apply (verify_block_election _ _ _ _ Hv).
Qed.

(** The result of the two operations; [accepted] is what the checks of an adopted
    block established. *)
Definition macro_pushed (b : LightBlockchain) (hash : Z) (accepted : Prop) (r : PushResult)
    (b' : LightBlockchain) : Prop :=
  match r with
  | Extended => accepted /\ light_ok b' /\ macro_num b < macro_num b' /\ head_hash b' = hash /\
      macro_hash b' = hash /\ keeps_final b (lb_chain_store b') (macro_num b')
  | _ => b' = b
  end.

Lemma adopted_pushed b mb b' hash (accepted : Prop) :
  macro_ok b mb hash -> accepted -> adopted b mb b' -> macro_pushed b hash accepted Extended b'.
Proof.
  intros Hmo Hacc (H1 & H2 & H3 & H4 & H5). pose proof (carries_hash _ _ (mo_carries _ _ _ Hmo)) as Hh.
  pose proof (mo_number _ _ _ Hmo) as Hn. cbn [macro_pushed].
  unfold macro_num in *. unfold head_hash, macro_hash. rewrite H3, H4 in *. done.
Qed.

(** What [push_macro] has checked of a block that it adopts. *)
Definition checked_successor (b : LightBlockchain) (mb : MacroBlock) : Prop :=
  (exists v, lb_current_validators b = Some v /\ justified mb v) /\
  macro_num b < block_number (BMacro mb) <= election_num b + bpe /\
  MacroHeader.parent_election_hash (ma_header mb) =
    (if is_election_macro (lb_macro_head b) then macro_hash b
     else MacroHeader.parent_election_hash (ma_header (lb_macro_head b))) /\
  MacroHeader.timestamp (ma_header (lb_macro_head b)) <= MacroHeader.timestamp (ma_header mb) /\
  verify_voting_keys (ma_header mb) = Ok tt.
(** What [push_pico_election] has checked: there is no justification among it. *)
Definition checked_pico (b : LightBlockchain) (mb : MacroBlock) : Prop :=
  macro_num b < block_number (BMacro mb) /\ is_election_macro mb = true /\
  verify_voting_keys (ma_header mb) = Ok tt /\ valid_seed (seed (BMacro mb)).

Lemma macro_successor_checked b mb : light_ok b ->
  verify_macro_successor (BMacro mb) (lb_macro_head b) = Ok tt ->
  macro_num b < block_number (BMacro mb) <= election_num b + bpe /\
  MacroHeader.parent_election_hash (ma_header mb) =
    (if is_election_macro (lb_macro_head b) then macro_hash b
     else MacroHeader.parent_election_hash (ma_header (lb_macro_head b))) /\
  MacroHeader.timestamp (ma_header (lb_macro_head b)) <= MacroHeader.timestamp (ma_header mb).
Proof.
  intros Hok Hv. pose proof (macro_successor_number b _ Hok Hv) as Hn. unfold verify_macro_successor in Hv.
  inv_outcome Hv. cbn in Ho0. injection Ho0 as <-. apply negb_false_iff, Z.eqb_eq in Ho1.
  apply Z.ltb_ge in Hv. done.
Qed.

(** The block as the two operations store it. *)
#[local] Abbreviation stripped mb :=
  (mk_macro_block (macro_header_hash_cached (ma_header mb)).2 None (ma_justification mb)).

Lemma push_macro_spec now b mb :
  light_ok b -> typed_block (BMacro mb) -> valid_seed (seed (BMacro mb)) ->
  wp (push_macro now (BMacro mb)) (macro_pushed b (block_hash (BMacro mb)) (checked_successor b mb))
    (fun _ b' => b' = b) b.
Proof.
  intros Hok Ht Hs. unfold push_macro. wp_step. apply wp_assert; [done|].
  set (mb' := stripped mb).
  change (block_hash_cached (BMacro mb)) with (block_hash (BMacro mb), BMacro (mk_macro_block
    (macro_header_hash_cached (ma_header mb)).2 (ma_body mb) (ma_justification mb))).
  cbv beta iota. change (strip_body _) with (BMacro mb').
  wp_step. wp_step. cbv beta. case_bool_decide as Hf; [by wp_step|]. apply eq_None_not_Some in Hf.
  match goal with |- context [if ?x <=? ?y then _ else _] =>
    change (x <=? y) with (block_number (BMacro mb) <=? macro_num b) end.
  destruct (Z.leb_spec (block_number (BMacro mb)) (macro_num b)) as [|Hgt]; [by wp_step|].
  wp_step. apply wp_check; [by apply verify_block_safe|done|]. intros [] Hv.
  wp_step. apply wp_check; [apply verify_macro_successor_safe|done|]. intros [] Hsucc.
  wp_step. destruct (lo_validators b Hok) as (v & Hval & Hwf). eapply wp_expect; [exact Hval|].
  wp_step. apply wp_check; [by apply verify_validators_safe; [done|apply Ht|]|done|]. intros [] Hj.
  wp_step. apply wp_check; [done..|]. intros ? [= <-].
  pose proof (checked_macro b mb _ _ tt Hok Ht Hgt Hf Hs Hv) as Hmo. fold mb' in Hmo.
  destruct (macro_successor_checked b mb' Hok Hsucc) as (Hn & Hp & Htime).
  eapply wp_mono; [apply adopt_advanced| |done]. intros r b' [-> Ha].
  eapply adopted_pushed; [exact Hmo| |eapply advanced_adopted; [done..|left; apply Hn|exact Ha]].
  destruct (verify_macro_justified _ _ Hj) as [Hju Hkeys].
  split_and!; [exists v; split; [done|exact Hju]|apply Hn..|exact Hp|exact Htime|exact Hkeys].
Qed.

Lemma push_pico_spec now b mb :
  light_ok b -> typed_block (BMacro mb) -> is_election_macro mb = true ->
  wp (push_pico_election now (BMacro mb)) (macro_pushed b (block_hash (BMacro mb)) (checked_pico b mb))
    (fun _ b' => b' = b) b.
Proof.
  intros Hok Ht Hel. unfold push_pico_election. wp_step. apply wp_assert; [done|].
  wp_step. apply wp_assert; [exact Hel|].
  set (mb' := stripped mb).
  change (block_hash_cached (BMacro mb)) with (block_hash (BMacro mb), BMacro (mk_macro_block
    (macro_header_hash_cached (ma_header mb)).2 (ma_body mb) (ma_justification mb))).
  cbv beta iota. change (strip_body _) with (BMacro mb').
  wp_step. wp_step. cbv beta. case_bool_decide as Hf; [by wp_step|]. apply eq_None_not_Some in Hf.
  match goal with |- context [if ?x <=? ?y then _ else _] =>
    change (x <=? y) with (block_number (BMacro mb) <=? macro_num b) end.
  destruct (Z.leb_spec (block_number (BMacro mb)) (macro_num b)) as [|Hgt]; [by wp_step|].
  wp_step. apply wp_check; [by apply verify_block_safe|done|]. intros [] Hv.
  wp_step. apply wp_check; [done..|]. intros ? [= <-].
  wp_step. apply wp_check; [|done|].
  { unfold verify_voting_keys. destruct (MacroHeader.validators _); [apply no_panic_err_if|done]. }
  intros [] Hkeys. wp_step. wp_step; [done|].
  match goal with H : bool_decide _ = false |- _ => apply bool_decide_eq_false, not_eq_None_Some in H as Hs end.
  pose proof (checked_macro b mb _ _ tt Hok Ht Hgt Hf Hs Hv) as Hmo. fold mb' in Hmo.
  eapply wp_mono; [by apply pico_advanced| |done]. intros r b' [-> Ha].
  eapply adopted_pushed; [exact Hmo| |eapply advanced_adopted; [done..|by right|exact Ha]].
  by split_and!.
Qed.

(** ** The start *)

Lemma genesis_macro_number : macro_number genesis.
Proof. split; [lia|]. by rewrite Z.sub_diag, Z.mod_0_l by (pose proof bpb_pos; lia). Qed.

Lemma default_store_ok : store_ok default_store.
Proof.
  split; cbn.
  - intros h c Hh. by rewrite lookup_empty in Hh.
  - intros n h. split; [intros (l & Hl & _)|intros (l & Hl & _)]; by rewrite lookup_empty in Hl.
Qed.

(** The state of [with_genesis] and of [reset_blockchain]. *)
Lemma genesis_light net mb events forks :
  let header := (macro_header_hash_cached (ma_header mb)).2 in
  let mb' := mk_macro_block header (ma_body mb) (ma_justification mb) in
  genesis_ok (BMacro mb) ->
  light_ok (mk_light net (BMacro mb') mb' mb' (MacroHeader.validators header) (BMacro mb')
              (put_chain_info (chain_info_new (BMacro mb') true) default_store) events forks).
Proof.
  intros header mb' Hgen. pose proof Hgen as (Hn & Hs & Hmax & v & Hv & Hwf). set (ci := chain_info_new (BMacro mb') true).
  assert (Hcar : carries (macro_header_hash header) (BMacro mb')) by done.
  destruct (put_kept_ok default_store (normal ci) (macro_header_hash header)) as [Hso Hdb].
  { apply default_store_ok. }
  { by apply carries_kept. }
  { intros old Hold. cbn in Hold. by rewrite lookup_empty in Hold. }
  rewrite (put_normal _ ci _ Hcar). pose proof genesis_macro_number as Hmn.
  assert (Hnum : num (normal ci) = genesis) by (rewrite normal_num; exact Hn).
  assert (Hsafe : safe_number genesis) by (split; lia).
  assert (Hone : forall h c, chain_db (put_chain_info (normal ci) default_store) !! h = Some c ->
    h = macro_header_hash header /\ c = normal ci).
  { intros h c. rewrite Hdb. cbn. intros [[<- <-]|[_ Hh]]%lookup_insert_Some; [done|].
    by rewrite lookup_empty in Hh. }
  assert (Hat : chain_db (put_chain_info (normal ci) default_store) !! macro_header_hash header = Some (normal ci))
    by (rewrite Hdb; apply lookup_insert_eq).
  split; unfold head_hash, macro_hash, macro_num, election_num; cbn [lb_chain_store lb_head lb_macro_head
    lb_election_head lb_current_validators block_hash ma_header mb'].
  - done.
  - replace (MacroHeader.block_number header) with genesis by (rewrite <-Hn; done).
    eapply tip_chain_ok; [exact Hat|done..| | | |done|].
    + intros h c [_ ->]%Hone. rewrite Hnum. split; [done|lia].
    + by intros h c [_ ->]%Hone.
    + intros h c [-> _]%Hone. done.
    + by intros h c [_ ->]%Hone.
  - by exists (normal ci).
  - by exists (normal ci).
  - intros h c [_ ->]%Hone. split_and!; [done|by rewrite <-Hn in Hsafe|]. intros _. by exists v.
  - by exists v.
  - done.
  - split; [exact Hgen|by eexists].
  - replace (MacroHeader.block_number header) with genesis by (rewrite <-Hn; done).
    pose proof blocks_per_epoch_pos. rewrite Z.sub_diag, Z.mod_0_l by lia. lia.
Qed.

Lemma with_genesis_ok net block b : genesis_ok block -> with_genesis net block = Some b -> light_ok b.
Proof.
  intros Hg Hb. destruct block as [mb|mb]; [|done]. injection Hb as <-. by apply genesis_light.
Qed.

Lemma reset_spec b : light_ok b ->
  wp reset_blockchain (fun _ b' => light_ok b') (fun _ _ => False) b.
Proof.
  intros Hok. destruct (lo_genesis b Hok) as (Hg & hash & Hc). unfold reset_blockchain. wp_step. wp_step. cbv beta.
  destruct (lb_genesis_block b) as [mb|mb]; [|by destruct Hg as (_ & _ & _ & ?)].
  wp_step. apply (wp_ret mb). wp_step.
  assert (Hh : (macro_header_hash_cached (ma_header mb)).2 = ma_header mb)
    by (unfold carries in Hc; cbn in Hc; apply (f_equal snd) in Hc; cbn in Hc;
        injection Hc as Hc; exact (f_equal ma_header Hc)).
  pose proof (genesis_light (lb_network_id b) mb (lb_events b) (lb_fork_events b) Hg) as Hl. cbv zeta in Hl.
  rewrite Hh in Hl. by destruct mb.
Qed.

(** ** The served main chain *)

Lemma main_info_at b h ci : light_ok b -> db b !! h = Some ci -> on_main_chain ci = true ->
  macro_num b <= num ci -> get_chain_info_at (lb_chain_store b) (num ci) false = Ok ci.
Proof.
  intros Hok Hci Hon Hm. apply (get_chain_info_at_ok _ h ci (lo_store b Hok) Hci Hon).
  intros k c Hk Hkn Hkon. eapply (co_uniq _ _ _ _ (lo_chain b Hok) k h c ci); try done. lia.
Qed.

(** The successor of a block of the main chain is served at the next height. *)
Lemma successor_served b h ci hd : light_ok b -> db b !! head_hash b = Some hd ->
  db b !! h = Some ci -> on_main_chain ci = true -> macro_num b <= num ci ->
  match main_chain_successor ci with
  | Some s => num ci < num hd /\ exists next,
      get_chain_info_at (lb_chain_store b) (num ci + 1) false = Ok next /\
      block_hash (ci_head next) = s /\ parent_hash (ci_head next) = h
  | None => num ci = num hd
  end.
Proof.
  intros Hok Hhd Hci Hon Hm. pose proof (lo_chain b Hok) as Hch.
  destruct (decide (h = head_hash b)) as [->|Hne].
  { rewrite Hhd in Hci. injection Hci as ->. by rewrite (co_last _ _ _ _ Hch ci Hhd). }
  destruct (co_succ _ _ _ _ Hch h ci Hci Hon Hm Hne) as (s & c & -> & Hc & Hcon & Hcn).
  pose proof (co_top _ _ _ _ Hch _ _ _ Hc Hcon Hhd). split; [lia|]. exists c. rewrite <-Hcn. split_and!.
  - apply (main_info_at b s); [done..|lia].
  - exact (kept_hash _ _ (so_kept _ (lo_store b Hok) _ _ Hc)).
  - destruct (co_link _ _ _ _ Hch s c Hc Hcon) as (p & Hp & Hpon & Hpn); [lia|].
    eapply (co_uniq _ _ _ _ Hch _ h p ci); try done; lia.
Qed.

(** ** Runs of the light node *)

Section Runs.
Context (net : NetworkId.t) (genesis_block : Block).

(** The states that calls reach from the genesis block.  A macro block that is pushed
    with the signatures of the validators has a valid seed. *)
Inductive reachable : LightBlockchain -> Prop :=
  | reach_genesis b : with_genesis net genesis_block = Some b -> reachable b
  | reach_push now block r b b' : reachable b -> typed_block block -> consistent b block ->
      push now block b = (r, b') -> reachable b'
  | reach_macro now mb r b b' : reachable b -> typed_block (BMacro mb) -> valid_seed (seed (BMacro mb)) ->
      push_macro now (BMacro mb) b = (r, b') -> reachable b'
  | reach_pico now mb r b b' : reachable b -> typed_block (BMacro mb) -> is_election_macro mb = true ->
      push_pico_election now (BMacro mb) b = (r, b') -> reachable b'
  | reach_reset r b b' : reachable b -> reset_blockchain b = (r, b') -> reachable b'.

Hypothesis Hgenesis : genesis_ok genesis_block.
Hypothesis Hprod : productive (R := VrfRng) draw_fuel.
Hypothesis Hmap : map_total.

Lemma light_reachable_ok b : reachable b -> light_ok b.
Proof.
  induction 1 as [b Hb|now block r b b' _ IH Ht Hc Hrun|now mb r b b' _ IH Ht Hs Hrun
    |now mb r b b' _ IH Ht He Hrun|r b b' _ IH Hrun].
  - by eapply with_genesis_ok.
  - pose proof (push_spec now b block IH Ht Hc Hprod Hmap) as Hwp. unfold wp in Hwp. rewrite Hrun in Hwp.
    destruct r; [apply Hwp|apply Hwp|done].
  - pose proof (push_macro_spec now b mb IH Ht Hs) as Hwp. unfold wp in Hwp. rewrite Hrun in Hwp.
    destruct r as [[]| |]; cbn in Hwp; try (subst; done). apply Hwp.
  - pose proof (push_pico_spec now b mb IH Ht He) as Hwp. unfold wp in Hwp. rewrite Hrun in Hwp.
    destruct r as [[]| |]; cbn in Hwp; try (subst; done). apply Hwp.
  - pose proof (reset_spec b IH) as Hwp. unfold wp in Hwp. rewrite Hrun in Hwp. by destruct r.
Qed.


(** C40: under the hypotheses of the runs ([genesis_ok], [productive], [map_total]),
    when the push of a decoded, consistently numbered block rebranches, it sends
    [Rebranched reverted adopted] first.  The first list holds blocks that were on
    the main chain and are not any more, the old head among them, the second blocks
    that were not on it and now are, the pushed block among them.  [added_hashes] of
    this event is the first list: it is not empty, names only blocks that left the main
    chain and not the new head.  No protocol upgrade is announced by any of the
    events. *)
Theorem rebranch_announces_reverted now block b b' :
  reachable b -> typed_block block -> consistent b block ->
  push now block b = (Ok Rebranched, b') ->
  exists reverted adopted tail,
    let event := BlockchainEvent.Rebranched reverted adopted in
    lb_events b' = lb_events b ++ event :: tail /\
    Forall (fun event => is_upgrade event = false) (event :: tail) /\
    (forall h, h ∈ reverted.*1 -> on_main b h /\ ~ on_main b' h) /\ head_hash b ∈ reverted.*1 /\
    (forall h, h ∈ adopted.*1 -> ~ on_main b h /\ on_main b' h) /\ block_hash block ∈ adopted.*1 /\
    added_hashes event = reverted.*1 /\
    head_hash b' = block_hash block /\ block_hash block ∉ added_hashes event.
Proof.
  intros Hr Ht Hc Hrun. pose proof (push_spec now b block (light_reachable_ok b Hr) Ht Hc Hprod Hmap) as Hwp.
  unfold wp in Hwp. rewrite Hrun in Hwp.
  destruct Hwp as (_ & _ & Hh & _ & _ & reverted & adopted & tail & Hev & Hup & Hrev & Hold & Had & Hin).
  exists reverted, adopted, tail. split_and!; try done; [by constructor|].
  intros Hbad. destruct (Hrev _ Hbad) as [Hon _]. by apply (Had _ Hin).
Qed.

(** C25: under the hypotheses of the runs ([genesis_ok], [productive], [map_total]),
    [push_macro] and [push_pico_election] of a decoded macro block never panic, for
    [push_macro] if the seed of the block decodes, for [push_pico_election] if it is an
    election block.  They adopt the block or leave the state as it is.  An adopted
    block becomes the head and the last macro block, above the last one; no final block
    is lost that is not too old, and the validators in use are those of the last
    election block, at most an epoch back.  [push_macro] adopts only a block that is
    signed by [2f + 1] slots of the validators in use ([justified]), not above the next
    election block, with the expected previous election block and no earlier timestamp.
    [push_pico_election] requires no justification: it trusts the block, and checks
    only the block itself, its voting keys and its seed. *)
Theorem light_sync_sound now mb b :
  reachable b -> typed_block (BMacro mb) ->
  let ok (accepted : Prop) (res : outcome PushError.t PushResult * LightBlockchain) :=
    match res with
    | (Ok Extended, b') =>
        accepted /\ reachable b' /\
        macro_num b < macro_num b' /\ head_hash b' = block_hash (BMacro mb) /\
        macro_hash b' = block_hash (BMacro mb) /\
        keeps_final b (lb_chain_store b') (macro_num b') /\
        election_num b' <= macro_num b' < election_num b' + bpe /\
        lb_current_validators b' = MacroHeader.validators (ma_header (lb_election_head b'))
    | (Ok _, b') | (Err _, b') => b' = b
    | (Panic, _) => False
    end in
  (valid_seed (seed (BMacro mb)) -> ok (checked_successor b mb) (push_macro now (BMacro mb) b)) /\
  (is_election_macro mb = true -> ok (checked_pico b mb) (push_pico_election now (BMacro mb) b)).
Proof.
  intros Hr Ht ok. pose proof (light_reachable_ok b Hr) as Hok.
  assert (Hgen : forall m accepted, (forall r b', m b = (r, b') -> reachable b') ->
    wp m (macro_pushed b (block_hash (BMacro mb)) accepted) (fun _ b' => b' = b) b -> ok accepted (m b)).
  { intros m accepted Hre Hwp. unfold wp in Hwp. unfold ok.
    destruct (m b) as [[[]|e|] b'] eqn:Hrun; cbn in Hwp; try done.
    destruct Hwp as (Ha & Hok' & Hlt & Hh & Hmh & Hk). destruct (lo_epoch b' Hok') as (_ & [_ ?] & ?).
    split_and!; [done|by eapply Hre|done..|]. apply Hok'. }
  split; intros H; (apply Hgen; [intros r b' Hrun|]).
  - by eapply reach_macro.
  - by apply push_macro_spec.
  - by eapply reach_pico.
  - by apply push_pico_spec.
Qed.

(** C24: under the hypotheses of the runs ([genesis_ok], [productive], [map_total]), on
    every state that the light node reaches the main chain is linked in both directions
    from the last macro block to the head.  Every height in this range is served by one
    block, with that number and its flag set, and no other stored block of this number
    has the flag; the two ends are the last macro block and the head, and only the
    former is a macro block.  The successor of a block below the head is the hash of the block
    served at the next height, whose parent hash leads back; the head has none.
    Nothing above the head is on the main chain.  A stored block off the main chain
    is a micro block without successor whose parent is stored and is not the head. *)
Theorem light_chain_linked b :
  reachable b ->
  let head := block_number (lb_head b) in
  let served n := get_chain_info_at (lb_chain_store b) n false in
  get_block_at b head = Ok (stored_part (lb_head b)) /\
  get_block_at b (macro_num b) = Ok (stored_part (BMacro (lb_macro_head b))) /\
  (forall n, macro_num b <= n <= head -> exists ci, served n = Ok ci /\
     num ci = n /\ on_main_chain ci = true /\ is_macro (ci_head ci) = (n =? macro_num b) /\
     (forall h c, db b !! h = Some c -> num c = n -> on_main_chain c = true ->
        h = block_hash (ci_head ci) /\ c = ci) /\
     match main_chain_successor ci with
     | Some s => n < head /\ exists next, served (n + 1) = Ok next /\ block_hash (ci_head next) = s /\
         parent_hash (ci_head next) = block_hash (ci_head ci)
     | None => n = head
     end) /\
  (forall h c, db b !! h = Some c ->
     if on_main_chain c then num c <= head
     else main_chain_successor c = None /\ is_macro (ci_head c) = false /\
       parent_hash (ci_head c) <> head_hash b /\
       exists p, db b !! parent_hash (ci_head c) = Some p /\ num p = num c - 1).
Proof.
  intros Hr head served. pose proof (light_reachable_ok b Hr) as Hok. pose proof (lo_chain b Hok) as Hch.
  destruct (light_head b Hok) as (hd & Hhd & Hhh & Hon & Hhn & Hhr). split_and!.
  - unfold head. rewrite <-Hhn, <-Hhh. apply (main_block_at b Hok _ _ Hhd Hon). lia.
  - by apply macro_at.
  - intros n Hn. unfold head in *. rewrite <-Hhn in *.
    destruct (main_at _ _ _ _ Hch n hd Hhd Hn) as (h & ci & Hci & Hcon & <-). exists ci.
    rewrite (kept_hash h (ci_head ci)) by exact (so_kept _ (lo_store b Hok) _ _ Hci).
    split_and!; [apply (main_info_at b h); [done..|lia]|done|done| |..].
    + destruct (Z.eqb_spec (num ci) (macro_num b)) as [He|Hne].
      * apply (co_type _ _ _ _ Hch h); [done|]. rewrite He. apply Hch.
      * apply (above_macro _ _ _ _ Hch h); [done|lia].
    + intros h' c Hc Hcn Hc'. assert (h' = h) as -> by (eapply (co_uniq _ _ _ _ Hch h' h c ci); try done; lia).
      split; [done|congruence].
    + apply (successor_served b h ci hd); [done..|lia].
  - intros h c Hc. destruct (on_main_chain c) eqn:Hoff.
    + unfold head. rewrite <-Hhn. by apply (co_top _ _ _ _ Hch h).
    + destruct (co_off _ _ _ _ Hch h c Hc Hoff), (co_fork _ _ _ _ Hch h c Hc Hoff). done.
Qed.
End Runs.
End Push.
