(* ===== verification/LightExample.v ===== *)
(** * A light node on a small chain

    A policy with batches of eight blocks, and cryptography that accepts
    everything: concrete runs of the light node, among them one that panics. *)

From S2P Require Import Prelude Coin Policy BitSet AccountTypes Codec TxContent Discrete Slots.
From S2P Require Import Election Vrf Block Bls Equivocation BlockVerify LightChain.
From S2P Require Import LightChainInv LightVerify LightChainProofs LightPush.

Module Small.
#[export] Instance policy : Policy := Build_Policy 8 4 1000 2 100 2.
#[export] Instance policy_ok : PolicyOk policy.
Proof. constructor; unfold in_width, max_value; simpl; lia. Qed.

Definition zeros (n : nat) (_ : list Z) : list Z := replicate n 0.
Lemma zeros_bytes l : length (zeros 32 l) = 32%nat /\ Forall is_byte (zeros 32 l).
Proof. by repeat constructor. Qed.
Definition content_env : ContentEnv :=
  {| usize_codec := u64_codec; usize_valid n Hn := Hn; blake2b := zeros 32 |}.
#[export] Instance env : BlockEnv := {|
  block_content_env := content_env; blake2s := zeros 32;
  blake2b_bytes := zeros_bytes; blake2s_bytes := zeros_bytes;
|}.
#[export] Instance curve : Curve := {|
  point := unit; decompress _ := Some tt; compress _ := replicate 32 0; point_sub _ _ := tt;
  scalar_mul _ _ := tt; basepoint := tt; mul_by_cofactor _ := tt; is_small_order _ := false;
  is_identity _ := false; to_edwards _ _ := Some tt; sha512 := zeros 64; sha256 := zeros 32;
|}.
#[export] Instance bls : BlsEnv := {|
  g1_zero := 0; g1_add _ _ := 1; g1_mul _ _ := 1; g2_zero := 0; g2_generator := 1; g2_add _ _ := 1;
  g2_mul _ _ := 1; pairing_check _ _ _ := true; uncompress_key := Some;
  uncompress_signature_point := Some; compress_signature_point x := x; hash_to_g1 x := x;
  ed25519_verify _ _ _ := true;
|}.
#[export] Instance body : BodyEnv := {| micro_body_bytes _ := [] |}.
#[export] Instance slots : SlotEnv := {| draw_fuel := 1 |}.
#[export] Existing Instance vrf_rng.

Lemma rng_productive : productive (R := VrfRng) draw_fuel.
Proof.
  intros limit r Hl. unfold next_u64_below. destruct (Z.eqb_spec limit 0); [lia|].
  rewrite bitmask_eq by done. cbn -[Z.ones Z.log2_up]. rewrite Z.land_0_l.
  destruct (Z.ltb_spec 0 limit); [by eexists|lia].
Qed.
Lemma map_to_curve_total : map_total.
Proof. intros input. unfold nonspec_map_to_curve. by eexists. Qed.

Definition net : NetworkId.t := NetworkId.UnitAlbatross.
Definition validators : Validators := new_validators [mk_slot_validator 17 23 29 (mk_range 0 512)].
Definition signers : gset Z := list_to_set (seqZ 0 400).
Lemma signers_nonneg s : s ∈ signers -> 0 <= s.
Proof. unfold signers. rewrite elem_of_list_to_set, elem_of_seqZ. lia. Qed.
(** All slots but the first are punished. *)
Definition punished : BitSet := mk_bitset (max_value 64 - 1 :: replicate 7 (max_value 64)) 511.
Definition macro (number parent election hash : Z) : MacroBlock :=
  mk_macro_block (MacroHeader.mk net 1 number 0 1000 parent election None 0 [] 0 0 0 0
    (if is_election_block_at number then Some validators else None) punished (Some hash)) None
    (Some (mk_tendermint_proof 0 (mk_multi_signature 1 signers))).
Definition micro (number parent hash : Z) : Block :=
  BMicro (mk_micro_block (MicroHeader.mk net 1 number 1000 parent 0 [] 0 0 0 0 (Some hash))
    (Some (Micro 1)) None).
Definition genesis_block : Block := BMacro (macro 100 0 0 1).

Lemma validators_ok : well_formed validators.
Proof. split_and!; [|done|by vm_compute]. by repeat constructor. Qed.
Lemma genesis_block_ok : genesis_ok genesis_block.
Proof. split_and!; [done|by eexists|by vm_compute|]. exists validators. split; [done|apply validators_ok]. Qed.

(** The light node at genesis. *)
Definition genesis_macro : MacroBlock := macro 100 0 0 1.
Definition node0 : LightBlockchain :=
  mk_light net genesis_block genesis_macro genesis_macro (Some validators) genesis_block
    (put_chain_info (chain_info_new genesis_block true) default_store) [] [].
Definition check_consistent (b : LightBlockchain) (block : Block) : bool :=
  match chain_db (lb_chain_store b) !! parent_hash block with
  | Some prev => block_number block =? num prev + 1
  | None => true
  end.
Lemma consistent_of b block : check_consistent b block = true -> consistent b block.
Proof. unfold check_consistent. intros Hc prev Hp. rewrite Hp in Hc. by apply Z.eqb_eq. Qed.
Lemma inconsistent_of b block : check_consistent b block = false -> ~ consistent b block.
Proof.
  unfold check_consistent. intros Hc Hcons. destruct (_ !! _) as [prev|] eqn:Hp; [|done].
  apply Z.eqb_neq in Hc. by specialize (Hcons _ Hp).
Qed.
Lemma micro_typed number parent hash : number + blocks_per_epoch <= max_value 32 ->
  typed_block (micro number parent hash).
Proof. intros Hn. unfold typed_block. by split_and!. Qed.

Lemma push_reach now block b : reachable net genesis_block b -> typed_block block ->
  check_consistent b block = true -> reachable net genesis_block (push now block b).2.
Proof.
  intros Hr Ht Hc. destruct (push now block b) as [r b'] eqn:Hrun.
  eapply reach_push; [exact Hr|exact Ht|by apply consistent_of|exact Hrun].
Qed.

(** Pushing several blocks. *)
Definition run (blocks : list Block) (b : LightBlockchain) : LightBlockchain :=
  foldl (fun b block => (push 1000 block b).2) b blocks.
Lemma run_snoc blocks block b : run (blocks ++ [block]) b = (push 1000 block (run blocks b)).2.
Proof. unfold run. by rewrite foldl_app. Qed.
Lemma run_reach blocks block b : reachable net genesis_block (run blocks b) -> typed_block block ->
  check_consistent (run blocks b) block = true -> reachable net genesis_block (run (blocks ++ [block]) b).
Proof. intros Hr Ht Hc. rewrite run_snoc. by apply push_reach. Qed.

(** Three blocks, and a fork at the first of them. *)
Definition chain1 : list Block := [micro 101 1 2].
Definition chain2 : list Block := [micro 101 1 2; micro 102 2 3].
Definition chain3 : list Block := [micro 101 1 2; micro 102 2 3; micro 103 3 4].
Definition chain : list Block := [micro 101 1 2; micro 102 2 3; micro 103 3 4; micro 101 1 5].
Definition wrong_block : Block := micro 104 5 9.
Definition fits1 : check_consistent (run [] node0) (micro 101 1 2) = true := eq_refl.
Definition fits2 : check_consistent (run chain1 node0) (micro 102 2 3) = true := eq_refl.
Definition fits3 : check_consistent (run chain2 node0) (micro 103 3 4) = true := eq_refl.
Definition fits4 : check_consistent (run chain3 node0) (micro 101 1 5) = true := eq_refl.
Definition wrong_misfits : check_consistent (run chain node0) wrong_block = false := eq_refl.
Definition wrong_panics : (push 1000 wrong_block (run chain node0)).1 = Panic := eq_refl.

(** A fork at the first block, and a block that makes it the longer branch. *)
Definition forked : list Block := [micro 101 1 2; micro 101 1 5].
Definition fits6 : check_consistent (run chain1 node0) (micro 101 1 5) = true := eq_refl.
Definition fits7 : check_consistent (run forked node0) (micro 102 5 6) = true := eq_refl.
Definition rebranches : (push 1000 (micro 102 5 6) (run forked node0)).1 = Ok Rebranched := eq_refl.

(** The next election block, signed, and the same block without a justification. *)
Definition signed_macro : MacroBlock := macro 132 9 1 10.
Definition bare_macro : MacroBlock := mk_macro_block (ma_header signed_macro) None None.
Definition macro_adopted : (push_macro 1000 (BMacro signed_macro) node0).1 = Ok Extended := eq_refl.
Definition bare_rejected :
  (push_macro 1000 (BMacro bare_macro) node0).1
    = Err (PushError.InvalidBlock BlockError.InvalidJustification) := eq_refl.
Definition chain_head : block_number (lb_head (run chain node0)) = 103 := eq_refl.
Definition chain_macro : macro_num (run chain node0) = 100 := eq_refl.
Definition bare_trusted : (push_pico_election 1000 (BMacro bare_macro) node0).1 = Ok Extended := eq_refl.

Lemma reach0 : reachable net genesis_block (run [] node0).
Proof. apply reach_genesis. exact eq_refl. Qed.
#[local] Opaque push push_macro push_pico_election.
Lemma reach1 : reachable net genesis_block (run chain1 node0).
Proof. exact (run_reach [] _ _ reach0 (micro_typed 101 1 2 ltac:(done)) fits1). Qed.
Lemma reach2 : reachable net genesis_block (run chain2 node0).
Proof. exact (run_reach chain1 _ _ reach1 (micro_typed 102 2 3 ltac:(done)) fits2). Qed.
Lemma reach3 : reachable net genesis_block (run chain3 node0).
Proof. exact (run_reach chain2 _ _ reach2 (micro_typed 103 3 4 ltac:(done)) fits3). Qed.
Lemma node_reached : reachable net genesis_block (run chain node0).
Proof. exact (run_reach chain3 _ _ reach3 (micro_typed 101 1 5 ltac:(done)) fits4). Qed.

Lemma forked_reached : reachable net genesis_block (run forked node0).
Proof. exact (run_reach chain1 _ _ reach1 (micro_typed 101 1 5 ltac:(done)) fits6). Qed.

(** [push] compares a block with the main chain before it checks that the number
    of the block follows its predecessor's.  A node with a stored fork two blocks below
    its head panics on a block that extends the fork and claims a later number. *)
Theorem push_panics_on_wrong_number :
  exists b block, reachable net genesis_block b /\ typed_block block /\
    ~ consistent b block /\ (push 1000 block b).1 = Panic.
Proof.
  exists (run chain node0), wrong_block. split; [exact node_reached|].
  split; [exact (micro_typed 104 5 9 ltac:(done))|].
  split; [exact (inconsistent_of _ _ wrong_misfits)|exact wrong_panics].
Qed.

(** ** Applications *)


Lemma rebranch_announces_reverted_witness :
  exists b' reverted adopted tail, push 1000 (micro 102 5 6) (run forked node0) = (Ok Rebranched, b') /\
    lb_events b' = lb_events (run forked node0) ++ BlockchainEvent.Rebranched reverted adopted :: tail /\
    head_hash (run forked node0) ∈ added_hashes (BlockchainEvent.Rebranched reverted adopted) /\
    6 ∉ added_hashes (BlockchainEvent.Rebranched reverted adopted).
Proof.
  pose proof rebranches as Hr. destruct (push 1000 (micro 102 5 6) (run forked node0)) as [r b'] eqn:Hrun.
  cbn [fst] in Hr. subst r.
  destruct (rebranch_announces_reverted net genesis_block genesis_block_ok rng_productive map_to_curve_total
    1000 (micro 102 5 6) (run forked node0) b' forked_reached (micro_typed 102 5 6 ltac:(done))
    (consistent_of _ _ fits7) Hrun)
    as (reverted & adopted & tail & Hev & _ & _ & Hold & _ & _ & Hadd & _ & Hnew).
  exists b', reverted, adopted, tail. split; [reflexivity|]. split; [exact Hev|].
  split; [rewrite Hadd; exact Hold|exact Hnew].
Defined.

Lemma signed_typed : typed_block (BMacro signed_macro).
Proof.
  unfold typed_block, signed_macro. split_and!; [|done|].
  - intros proof Hp. assert (proof = mk_tendermint_proof 0 (mk_multi_signature 1 signers)) as ->
      by (cbn [ma_justification macro] in Hp; congruence). exact signers_nonneg.
  - intros v. cbn [ma_header macro MacroHeader.validators]. destruct (is_election_block_at 132); [|done].
    intros [= <-]. destruct validators_ok as (? & ? & _). done.
Qed.
Lemma bare_typed : typed_block (BMacro bare_macro).
Proof. destruct signed_typed as (_ & H1 & H2). unfold typed_block. by split_and!. Qed.

Lemma light_sync_sound_witness :
  (exists b', push_macro 1000 (BMacro signed_macro) node0 = (Ok Extended, b') /\
     checked_successor node0 signed_macro /\ macro_hash b' = 10) /\
  (exists b', push_pico_election 1000 (BMacro bare_macro) node0 = (Ok Extended, b') /\
     checked_pico node0 bare_macro /\ macro_hash b' = 10).
Proof.
  destruct (light_sync_sound net genesis_block genesis_block_ok rng_productive map_to_curve_total
    1000 signed_macro node0 reach0 signed_typed) as [H1 _].
  destruct (light_sync_sound net genesis_block genesis_block_ok rng_productive map_to_curve_total
    1000 bare_macro node0 reach0 bare_typed) as [_ H2].
  specialize (H1 ltac:(by eexists)). specialize (H2 eq_refl).
  pose proof macro_adopted as R1. pose proof bare_trusted as R2. split.
  - destruct (push_macro 1000 (BMacro signed_macro) node0) as [r b']. cbn [fst] in R1. subst r.
    destruct H1 as (Hc & _ & _ & _ & Hm & _). exists b'. split; [reflexivity|]. split; [exact Hc|exact Hm].
  - destruct (push_pico_election 1000 (BMacro bare_macro) node0) as [r b']. cbn [fst] in R2. subst r.
    destruct H2 as (Hc & _ & _ & _ & Hm & _). exists b'. split; [reflexivity|]. split; [exact Hc|exact Hm].
Defined.

(** In the example the main chain is linked upwards from the genesis block. *)
Lemma light_chain_linked_witness :
  let b := run chain node0 in
  exists ci next, get_chain_info_at (lb_chain_store b) 101 false = Ok ci /\
    get_chain_info_at (lb_chain_store b) 102 false = Ok next /\
    main_chain_successor ci = Some (block_hash (ci_head next)) /\
    parent_hash (ci_head next) = block_hash (ci_head ci).
Proof.
  destruct (light_chain_linked net genesis_block genesis_block_ok rng_productive map_to_curve_total
    (run chain node0) node_reached) as (_ & _ & H & _).
  rewrite chain_head, chain_macro in H.
  destruct (H 101 ltac:(lia)) as (ci & Hci & _ & _ & _ & _ & Hs). exists ci.
  destruct (main_chain_successor ci) as [s|]; [|lia]. destruct Hs as (_ & next & Hn & <- & Hp).
  exists next. split; [exact Hci|]. split; [exact Hn|]. split; [reflexivity|exact Hp].
Defined.

Lemma proposers_rotate_witness :
  exists slot, compute_slot_number 5 0 punished = Some slot /\ contains punished slot = false.
Proof.
  destruct (proposers_rotate 0 punished rng_productive) as (_ & Hv & _ & Ho & _).
  destruct (Ho 5) as (slot & Hs & Hin). exists slot. split; [exact Hs|].
  apply Hv in Hin as [_ [Hc|[Hl|Hall]]]; [exact Hc|discriminate Hl|].
  specialize (Hall 0 ltac:(unfold SLOTS; lia)). discriminate Hall.
Defined.

(** A validator that votes for two proposals. *)
Definition vote_id : TendermintIdentifier := mk_tendermint_id net 108 0 PreVote.
Definition double_vote : Evidence := VoteEvidence vote_id (Some 5) 23 {[3]} None 46 {[3; 4]}.
Lemma double_vote_offends :
  offends (Bls := Linear.bls) validators (mk_slot_validator 17 23 29 (mk_range 0 512)) net double_vote.
Proof.
  split; [reflexivity|]. split; [discriminate|]. split.
  - exists 3. split; [|split; apply elem_of_union || apply elem_of_singleton; auto].
    + unfold range_list. apply elem_of_seqZ. simpl. lia.
    + left. by apply elem_of_singleton.
  - split; (split; [unfold SLOTS; set_solver by lia|]); eexists; (split; [vm_compute; reflexivity|]);
      vm_compute; reflexivity.
Qed.

Lemma equivocations_are_provable_witness :
  verify_equivocation (Bls := Linear.bls) (build_proof (Bls := Linear.bls) 17 double_vote) net validators
    = Ok tt.
Proof.
  apply (equivocations_are_provable (Bls := Linear.bls) (BlsLaws0 := Linear.bls_laws) validators
    (mk_slot_validator 17 23 29 (mk_range 0 512)) net 17 double_vote).
  - reflexivity.
  - exact double_vote_offends.
Defined.
End Small.
