(* ===== verification/KeyNibbles.v ===== *)
(** * Keys of the Merkle radix trie

    [primitives/src/key_nibbles.rs]: a key is an array of 63 bytes with the number
    of nibbles in use; unused nibbles are zero.  The operations on bytes implement
    those on lists of nibbles, which the trie is written over: [key_of] is the key
    of a list of nibbles, and each operation on keys of lists is shown to be the
    key of the operation on lists.  [None] is a panic, except where the source
    returns an [Option]. *)

From S2P Require Import Prelude Coin AccountTypes Codec TxContent.

(** The nibbles of a key, most significant first. *)
Abbreviation key := (list nat).

Record KeyNibbles := mk_key { kn_bytes : list Z; kn_length : nat }.

Definition MAX_BYTES : nat := 63.
Definition ROOT : KeyNibbles := mk_key (replicate MAX_BYTES 0) 0.

(** ** Operations on bytes *)

Definition len (self : KeyNibbles) : nat := kn_length self.
Definition bytes_len (self : KeyNibbles) : nat := (len self + 1) / 2.

Definition high_nibble (b : Z) : Z := Z.land (Z.shiftr b 4) 15.
Definition low_nibble (b : Z) : Z := Z.land b 15.

Definition get (self : KeyNibbles) (index : nat) : option nat :=
  if (len self <=? index)%nat then None
  else
    byte ← kn_bytes self !! (index / 2)%nat;
    Some (Z.to_nat (Z.land (Z.shiftr byte ((1 - Z.of_nat (index mod 2)) * 4)) 15)).

Definition successor (self : KeyNibbles) : KeyNibbles :=
  mk_key (kn_bytes self) (S (kn_length self)).

Definition is_prefix_of (self other : KeyNibbles) : bool :=
  if (len other <? len self)%nat then false
  else
    let end_byte := (len self / 2)%nat in
    let odd_differs :=
      (len self mod 2 =? 1)%nat
      && negb (high_nibble (kn_bytes self !!! end_byte) =? high_nibble (kn_bytes other !!! end_byte)) in
    negb odd_differs && bool_decide (take end_byte (kn_bytes self) = take end_byte (kn_bytes other)).

(** The bytes of nibbles that start in the middle of a byte: [current] is the nibble
    that is left over, already shifted. *)
Fixpoint shift_loop (current : Z) (bytes : list Z) : list Z :=
  match bytes with
  | [] => [current]
  | byte :: bytes => Z.lor current (high_nibble byte) :: shift_loop (Z.shiftl (low_nibble byte) 4) bytes
  end.

(** An array of [MAX_BYTES] that starts with the given bytes. *)
Definition pad (bytes : list Z) : list Z := bytes ++ replicate (MAX_BYTES - length bytes) 0.

Definition slice (self : KeyNibbles) (start end_ : nat) : option KeyNibbles :=
  if ((len self <? start) || (end_ <? start))%nat then Some ROOT
  else
    let end_ := Nat.min end_ (len self) in
    let byte_start := (start / 2)%nat in
    let byte_end := (end_ / 2)%nat in
    let bytes := kn_bytes self in
    let last_nibble := Z.land (bytes !!! byte_end) 240 in
    if (start mod 2 =? 0)%nat then
      let new_bytes := take (byte_end - byte_start) (drop byte_start bytes) in
      let new_bytes := if (end_ mod 2 =? 1)%nat then new_bytes ++ [last_nibble] else new_bytes in
      Some (mk_key (pad new_bytes) (end_ - start))
    else if (byte_end <? byte_start + 1)%nat then None
    else
      let new_bytes := shift_loop (Z.shiftl (low_nibble (bytes !!! byte_start)) 4)
        (take (byte_end - (byte_start + 1)) (drop (byte_start + 1) bytes)) in
      let new_bytes :=
        if (end_ mod 2 =? 1)%nat
        then alter (fun b => Z.lor b (Z.shiftr last_nibble 4)) (length new_bytes - 1)%nat new_bytes
        else new_bytes in
      Some (mk_key (pad new_bytes) (end_ - start)).

Definition suffix (self : KeyNibbles) (start : nat) : option KeyNibbles :=
  slice self start (len self).

(** The loop of [common_prefix] over the byte indices. *)
Fixpoint first_difference (self other : KeyNibbles) (js : list nat) (min_len : nat) : nat :=
  match js with
  | [] => min_len
  | j :: js =>
      if kn_bytes self !!! j =? kn_bytes other !!! j then first_difference self other js min_len
      else if bool_decide (get self (j * 2) = get other (j * 2)) then (j * 2 + 1)%nat
      else (j * 2)%nat
  end.
Definition common_prefix (self other : KeyNibbles) : option KeyNibbles :=
  let min_len := Nat.min (len self) (len other) in
  let byte_len := (min_len / 2 + min_len mod 2)%nat in
  slice self 0 (first_difference self other (seq 0 byte_len) min_len).

(** The derived [Ord]: the bytes, then the length. *)
Fixpoint compare_bytes (a b : list Z) : comparison :=
  match a, b with
  | [], [] => Eq
  | [], _ :: _ => Lt
  | _ :: _, [] => Gt
  | x :: a, y :: b => match x ?= y with Eq => compare_bytes a b | c => c end
  end.
Definition cmp (self other : KeyNibbles) : comparison :=
  match compare_bytes (kn_bytes self) (kn_bytes other) with
  | Eq => (kn_length self ?= kn_length other)%nat
  | c => c
  end.

Definition post_order_cmp (self other : KeyNibbles) : comparison :=
  match is_prefix_of self other, is_prefix_of other self with
  | true, true => Eq
  | true, false => Gt
  | false, true => Lt
  | false, false => cmp self other
  end.

(** [bytes] with the part from index [i] on replaced by [new]. *)
Definition overwrite (i : nat) (new bytes : list Z) : list Z :=
  take i bytes ++ new ++ drop (i + length new) bytes.

(** [ops::Add for &KeyNibbles]. *)
Definition add (self other : KeyNibbles) : option KeyNibbles :=
  let bytes := kn_bytes self in
  let others := take (bytes_len other) (kn_bytes other) in
  let length := (kn_length self + kn_length other)%nat in
  if (len self mod 2 =? 0)%nat then
    if (MAX_BYTES <? bytes_len self + bytes_len other)%nat then None
    else Some (mk_key (overwrite (bytes_len self) others bytes) length)
  else
    let shifted := shift_loop (bytes !!! (bytes_len self - 1)%nat) others in
    let shifted := if (kn_length other mod 2 =? 0)%nat then shifted else removelast shifted in
    if (MAX_BYTES <? bytes_len self - 1 + List.length shifted)%nat then None
    else Some (mk_key (overwrite (bytes_len self - 1) shifted bytes) length).

Definition key_checked_add (self other : KeyNibbles) : option (option KeyNibbles) :=
  if (MAX_BYTES * 2 <? len self + len other)%nat then Some None
  else sum ← add self other; Some (Some sum).

(** [From<&[u8]>]. *)
Definition from_bytes (v : list Z) : KeyNibbles :=
  if (MAX_BYTES <? length v)%nat then ROOT else mk_key (pad v) (length v * 2).

Definition to_address (self : KeyNibbles) : option (list Z) :=
  if (len self =? 2 * 20)%nat then Some (take 20 (kn_bytes self)) else None.

Section Serialization.
Context `{CEnv : ContentEnv}.

(** [Serialize] and [Deserialize]: the number of nibbles, then the bytes in use. *)
Definition serialize (self : KeyNibbles) : list Z :=
  cenc u8_codec (Z.of_nat (len self)) ++
  cenc usize_codec (Z.of_nat (bytes_len self)) ++ take (bytes_len self) (kn_bytes self).

Definition deserialize (bs : list Z) : option (KeyNibbles * list Z) :=
  '(len, bs) ← cdec u8_codec bs;
  '(n, bs) ← cdec usize_codec bs;
  '(bytes, bs) ← take_bytes (Z.to_nat n) bs;
  if Z.of_nat MAX_BYTES <? n then None
  else if Z.of_nat MAX_BYTES * 2 <? len then None
  else if negb (n =? div_ceil len 2) then None
  else if (len `mod` 2 =? 1) && negb (Z.land (bytes !!! (length bytes - 1)%nat) 15 =? 0) then None
  else Some (mk_key (pad bytes) (Z.to_nat len), bs).
End Serialization.

(** ** Keys of lists of nibbles *)

Fixpoint pack (l : key) : list Z :=
  match l with
  | [] => []
  | [a] => [16 * Z.of_nat a]
  | a :: b :: l => (16 * Z.of_nat a + Z.of_nat b) :: pack l
  end.
Definition key_of (l : key) : KeyNibbles := mk_key (pad (pack l)) (length l).

Definition nibble (a : nat) : Prop := (a < 16)%nat.
Definition key_ok (l : key) : Prop := Forall nibble l /\ (length l <= MAX_BYTES * 2)%nat.

Lemma pair_ind (P : key -> Prop) :
  P [] -> (forall a, P [a]) -> (forall a b l, P l -> P (a :: b :: l)) -> forall l, P l.
Proof.
  intros H0 H1 H2 l. enough (P l /\ forall a, P (a :: l)) by tauto.
  induction l as [|b l [IH1 IH2]]; auto.
Qed.

Lemma pack_length l : length (pack l) = ((length l + 1) / 2)%nat.
Proof.
  induction l as [| |a b l IH] using pair_ind; [done..|]. cbn [pack length]. rewrite IH.
  replace (S (S (length l)) + 1)%nat with (length l + 1 + 1 * 2)%nat by lia.
  rewrite Nat.div_add by lia. lia.
Qed.

Lemma pack_app l l' : (length l mod 2 = 0)%nat -> pack (l ++ l') = pack l ++ pack l'.
Proof.
  induction l as [|a|a b l IH] using pair_ind; [done|done|]. cbn [length]. intros Hm.
  cbn [pack app]. f_equal. apply IH.
  replace (S (S (length l))) with (length l + 1 * 2)%nat in Hm by lia. by rewrite Nat.Div0.mod_add in Hm.
Qed.

Lemma pack_drop l n : pack (drop (2 * n) l) = drop n (pack l).
Proof.
  revert l. induction n as [|n IH]; intros l; [done|]. replace (2 * S n)%nat with (S (S (2 * n))) by lia.
  destruct l as [|a [|b l]]; [by simpl; rewrite ?drop_nil..|]. apply IH.
Qed.
Lemma pack_take l n : (2 * n <= length l)%nat -> pack (take (2 * n) l) = take n (pack l).
Proof.
  revert l. induction n as [|n IH]; intros l Hl; [done|]. replace (2 * S n)%nat with (S (S (2 * n))) in * by lia.
  destruct l as [|a [|b l]]; [simpl in Hl; lia..|]. cbn [take pack]. f_equal. apply IH. simpl in Hl. lia.
Qed.
Lemma pack_snoc l a : (length l mod 2 = 0)%nat -> pack (l ++ [a]) = pack l ++ [16 * Z.of_nat a].
Proof. intros Hl. by rewrite pack_app. Qed.

(** The two nibbles of a byte. *)
Lemma high_pair a b : nibble a -> nibble b -> high_nibble (16 * Z.of_nat a + Z.of_nat b) = Z.of_nat a.
Proof.
  unfold nibble, high_nibble. intros Ha Hb. change 15 with (Z.ones 4).
  rewrite Z.land_ones, Z.shiftr_div_pow2 by lia. change (2 ^ 4) with 16.
  rewrite Z.mul_comm, Z.div_add_l, (Z.div_small (Z.of_nat b)) by lia. rewrite Z.mod_small; lia.
Qed.
Lemma low_pair a b : nibble b -> low_nibble (16 * Z.of_nat a + Z.of_nat b) = Z.of_nat b.
Proof.
  unfold nibble, low_nibble. intros Hb. change 15 with (Z.ones 4).
  rewrite Z.land_ones by lia. change (2 ^ 4) with 16.
  rewrite Z.add_comm, Z.mul_comm, Z.mod_add by lia. apply Z.mod_small. lia.
Qed.
Lemma lor_pair a b : nibble b -> Z.lor (16 * a) (Z.of_nat b) = 16 * a + Z.of_nat b.
Proof.
  unfold nibble. intros Hb. enough (Z.land (16 * a) (Z.of_nat b) = 0) as Hz.
  { pose proof (Z.add_lor_land (16 * a) (Z.of_nat b)). lia. }
  change 16 with (2 ^ 4). rewrite Z.mul_comm, <-Z.shiftl_mul_pow2 by lia.
  apply Z.bits_inj'. intros n Hn. rewrite Z.land_spec, Z.bits_0. destruct (Z.ltb_spec n 4).
  - by rewrite Z.shiftl_spec_low.
  - apply andb_false_iff. right. destruct (Z.eq_dec (Z.of_nat b) 0) as [->|]; [apply Z.bits_0|].
    apply Z.bits_above_log2; [lia|]. apply Z.log2_lt_pow2; [lia|].
    apply Z.lt_le_trans with (2 ^ 4); [simpl; lia|]. by apply Z.pow_le_mono_r.
Qed.
Lemma land_240 a b : nibble a -> nibble b -> Z.land (16 * Z.of_nat a + Z.of_nat b) 240 = 16 * Z.of_nat a.
Proof.
  unfold nibble. intros Ha Hb. do 16 (destruct a as [|a]; [do 16 (destruct b as [|b]; [reflexivity|]); lia|]). lia.
Qed.

(** The nibble at an index; zero past the end. *)
Definition digit (l : key) (i : nat) : nat := default 0%nat (l !! i).

Lemma digit_nibble l i : Forall nibble l -> nibble (digit l i).
Proof.
  intros Hl. unfold digit. destruct (l !! i) as [a|] eqn:Ha; simpl; [|unfold nibble; lia].
  by eapply Forall_lookup_1.
Qed.

Lemma pack_lookup l j : (2 * j < length l)%nat ->
  pack l !! j = Some (16 * Z.of_nat (digit l (2 * j)) + Z.of_nat (digit l (2 * j + 1))).
Proof.
  revert j. induction l as [|a|a b l IH] using pair_ind; intros j Hj; cbn [length] in Hj; [lia| |].
  - replace j with 0%nat by lia. cbn. f_equal. lia.
  - destruct j as [|j]; [done|]. cbn [pack lookup list_lookup]. rewrite IH by lia.
    replace (2 * S j)%nat with (S (S (2 * j))) by lia. done.
Qed.

Lemma pack_length_bound l : (length l <= MAX_BYTES * 2)%nat -> (length (pack l) <= MAX_BYTES)%nat.
Proof.
  intros Hl. rewrite pack_length. unfold MAX_BYTES in *.
  transitivity ((63 * 2 + 1) / 2)%nat; [apply Nat.Div0.div_le_mono; lia|done].
Qed.
Lemma pad_length bs : (length bs <= MAX_BYTES)%nat -> length (pad bs) = MAX_BYTES.
Proof. intros Hl. unfold pad. rewrite length_app, length_replicate. lia. Qed.

Lemma pad_lookup l j : (j < MAX_BYTES)%nat -> (length l <= MAX_BYTES * 2)%nat ->
  pad (pack l) !! j = Some (16 * Z.of_nat (digit l (2 * j)) + Z.of_nat (digit l (2 * j + 1))).
Proof.
  intros Hj Hl. unfold pad. destruct (decide (2 * j < length l)%nat) as [Hlt|Hge].
  - apply lookup_app_l_Some. by apply pack_lookup.
  - pose proof (pack_length l) as Hp. assert (length (pack l) <= j)%nat.
    { rewrite Hp. apply Nat.lt_succ_r, Nat.Div0.div_lt_upper_bound. lia. }
    rewrite lookup_app_r by done. rewrite lookup_replicate_2 by lia.
    unfold digit. rewrite !lookup_ge_None_2 by lia. done.
Qed.
Lemma pad_lookup_total l j : (j < MAX_BYTES)%nat -> (length l <= MAX_BYTES * 2)%nat ->
  pad (pack l) !!! j = 16 * Z.of_nat (digit l (2 * j)) + Z.of_nat (digit l (2 * j + 1)).
Proof. intros. apply list_lookup_total_correct. by apply pad_lookup. Qed.

Lemma half_bound i : (i < MAX_BYTES * 2 -> i / 2 < MAX_BYTES)%nat.
Proof. intros Hi. apply Nat.Div0.div_lt_upper_bound. unfold MAX_BYTES in *. lia. Qed.
Lemma halves i : (i = 2 * (i / 2) + i mod 2 /\ i mod 2 < 2)%nat.
Proof. split; [apply Nat.div_mod_eq|]. apply Nat.mod_upper_bound. lia. Qed.

Lemma get_key_of l i : key_ok l -> get (key_of l) i = l !! i.
Proof.
  intros [Hn Hl]. unfold get, len, key_of. cbn [kn_length kn_bytes].
  destruct (Nat.leb_spec (length l) i) as [Hi|Hi]; [by rewrite lookup_ge_None_2|].
  rewrite pad_lookup by (try apply half_bound; lia). cbn [mbind option_bind].
  pose proof (halves i) as [Hd Hm]. set (q := (i / 2)%nat) in *. set (r := (i mod 2)%nat) in *.
  assert (Hi' : l !! i = Some (digit l i)).
  { unfold digit. destruct (lookup_lt_is_Some_2 l i Hi) as [a ->]. done. }
  rewrite Hi'. f_equal. pose proof (digit_nibble l (2 * q) Hn). pose proof (digit_nibble l (2 * q + 1) Hn).
  destruct (decide (r = 0)%nat) as [Hr|Hr].
  - rewrite Hr. change ((1 - Z.of_nat 0) * 4) with 4. fold (high_nibble (16 * Z.of_nat (digit l (2 * q)) + Z.of_nat (digit l (2 * q + 1)))).
    rewrite high_pair by done. rewrite Nat2Z.id. f_equal. lia.
  - assert (r = 1)%nat as Hr1 by lia. rewrite Hr1. change ((1 - Z.of_nat 1) * 4) with 0. rewrite Z.shiftr_0_r.
    fold (low_nibble (16 * Z.of_nat (digit l (2 * q)) + Z.of_nat (digit l (2 * q + 1)))).
    rewrite low_pair by done. rewrite Nat2Z.id. f_equal. lia.
Qed.

Lemma key_of_inj l l' : key_ok l -> key_ok l' -> key_of l = key_of l' -> l = l'.
Proof. intros Hl Hl' E. apply list_eq. intros i. rewrite <-(get_key_of l), <-(get_key_of l') by done. by rewrite E. Qed.

Lemma chunk l q p : (q <= p)%nat -> (2 * p <= length l)%nat ->
  take (p - q) (drop q (pad (pack l))) = pack (drop (2 * q) (take (2 * p) l)).
Proof.
  intros Hq Hp. rewrite take_drop_commute. replace (q + (p - q))%nat with p by lia.
  unfold pad. rewrite take_app_le.
  - by rewrite <-pack_take, pack_drop.
  - rewrite pack_length. apply Nat.div_le_lower_bound; lia.
Qed.

Lemma take_snoc l n : (n < length l)%nat -> take (n + 1) l = take n l ++ [digit l n].
Proof.
  intros Hn. destruct (lookup_lt_is_Some_2 l n Hn) as [a Ha]. unfold digit. rewrite Ha.
  replace (n + 1)%nat with (S n) by lia. by apply take_S_r.
Qed.
Lemma drop_digit l n : (n < length l)%nat -> drop n l = digit l n :: drop (n + 1) l.
Proof.
  intros Hn. destruct (lookup_lt_is_Some_2 l n Hn) as [a Ha]. unfold digit. rewrite Ha.
  replace (n + 1)%nat with (S n) by lia. by apply drop_S.
Qed.

Lemma shift_loop_pack a z : Forall nibble z -> (length z mod 2 = 0)%nat ->
  shift_loop (16 * Z.of_nat a) (pack z) = pack (a :: z).
Proof.
  revert a. induction z as [|b|b c z IH] using pair_ind; intros a Hz Hm; [done|done|].
  apply Forall_cons in Hz as [Hb Hz], Hz as [Hc Hz]. cbn [pack shift_loop].
  rewrite high_pair, low_pair, lor_pair by done. f_equal. rewrite Z.shiftl_mul_pow2 by lia.
  change (2 ^ 4) with 16. rewrite Z.mul_comm. rewrite IH; [done|done|].
  cbn [length] in Hm. replace (S (S (length z))) with (length z + 1 * 2)%nat in Hm by lia.
  by rewrite Nat.Div0.mod_add in Hm.
Qed.

Lemma pack_alter_last x d : nibble d -> (length x mod 2 = 1)%nat ->
  alter (fun b => Z.lor b (Z.of_nat d)) (length (pack x) - 1)%nat (pack x) = pack (x ++ [d]).
Proof.
  intros Hd. induction x as [|a|a b x IH] using pair_ind; intros Hm; [done| |].
  - cbn. rewrite lor_pair by done. done.
  - cbn [length] in Hm. replace (S (S (length x))) with (length x + 1 * 2)%nat in Hm by lia.
    rewrite Nat.Div0.mod_add in Hm. specialize (IH Hm). cbn [pack length app].
    destruct x as [|c x]; [done|]. assert (exists n, length (pack (c :: x)) = S n) as [n En].
    { rewrite pack_length. cbn [length]. exists (length x / 2)%nat.
      replace (S (length x) + 1)%nat with (length x + 1 * 2)%nat by lia. rewrite Nat.div_add by lia. lia. }
    rewrite En in IH |- *. replace (S (S n) - 1)%nat with (S n) by lia.
    replace (S n - 1)%nat with n in IH by lia. cbn [alter list_alter]. by rewrite IH.
Qed.

Lemma last_nibble_eq l p : key_ok l -> (2 * p < length l)%nat ->
  Z.land (pad (pack l) !!! p) 240 = 16 * Z.of_nat (digit l (2 * p)).
Proof.
  intros [Hn Hl] Hp. rewrite pad_lookup_total by (unfold MAX_BYTES in *; lia).
  apply land_240; by apply digit_nibble.
Qed.

Lemma slice_even l q p r : key_ok l -> (r < 2)%nat -> (2 * q <= 2 * p + r <= length l)%nat ->
  (let new_bytes := take (p - q) (drop q (pad (pack l))) in
   if (r =? 1)%nat then new_bytes ++ [Z.land (pad (pack l) !!! p) 240] else new_bytes)
  = pack (drop (2 * q) (take (2 * p + r) l)).
Proof.
  intros Hok Hr He. cbv zeta. rewrite chunk by lia. destruct (Nat.eqb_spec r 1) as [->|Hne].
  - rewrite last_nibble_eq by (done || lia). rewrite take_snoc by lia.
    rewrite drop_app_le by (rewrite length_take; lia). rewrite pack_snoc; [done|].
    rewrite length_drop, length_take. replace (Nat.min (2 * p) (length l) - 2 * q)%nat with ((p - q) * 2)%nat by lia.
    apply Nat.Div0.mod_mul.
  - by replace (2 * p + r)%nat with (2 * p)%nat by lia.
Qed.

Lemma slice_odd l q p r : key_ok l -> (r < 2)%nat -> (2 * q + 1 < 2 * p + r <= length l)%nat ->
  (let new_bytes := shift_loop (Z.shiftl (low_nibble (pad (pack l) !!! q)) 4)
       (take (p - (q + 1)) (drop (q + 1) (pad (pack l)))) in
   if (r =? 1)%nat
   then alter (fun b => Z.lor b (Z.shiftr (Z.land (pad (pack l) !!! p) 240) 4)) (length new_bytes - 1)%nat new_bytes
   else new_bytes)
  = pack (drop (2 * q + 1) (take (2 * p + r) l)).
Proof.
  intros [Hn Hl] Hr He. cbv zeta. rewrite (pad_lookup_total l q) by (unfold MAX_BYTES in *; lia).
  rewrite low_pair by (by apply digit_nibble). rewrite Z.shiftl_mul_pow2 by lia. change (2 ^ 4) with 16.
  rewrite Z.mul_comm, chunk by lia. rewrite shift_loop_pack; first last.
  { rewrite length_drop, length_take.
    replace (Nat.min (2 * p) (length l) - 2 * (q + 1))%nat with ((p - (q + 1)) * 2)%nat by lia. apply Nat.Div0.mod_mul. }
  { by apply Forall_drop, Forall_take. }
  assert (digit l (2 * q + 1) :: drop (2 * (q + 1)) (take (2 * p) l) = drop (2 * q + 1) (take (2 * p) l)) as ->.
  { rewrite (drop_digit (take _ _) (2 * q + 1)) by (rewrite length_take; lia).
    unfold digit. rewrite lookup_take_lt by lia. f_equal. f_equal. lia. }
  destruct (Nat.eqb_spec r 1) as [->|Hne]; [|by replace (2 * p + r)%nat with (2 * p)%nat by lia].
  rewrite last_nibble_eq by (done || lia).
  assert (Z.shiftr (16 * Z.of_nat (digit l (2 * p))) 4 = Z.of_nat (digit l (2 * p))) as ->.
  { rewrite Z.shiftr_div_pow2 by lia. change (2 ^ 4) with 16. rewrite Z.mul_comm. by rewrite Z.div_mul. }
  rewrite pack_alter_last; [|by apply digit_nibble|].
  - rewrite take_snoc by lia. by rewrite drop_app_le by (rewrite length_take; lia).
  - rewrite length_drop, length_take.
    replace (Nat.min (2 * p) (length l) - (2 * q + 1))%nat with (1 + (p - q - 1) * 2)%nat by lia.
    by rewrite Nat.Div0.mod_add.
Qed.

(** A slice that is empty and starts in the middle of a byte panics. *)
Lemma slice_key_of l s e : key_ok l -> (s <= e)%nat -> (s <= length l)%nat ->
  slice (key_of l) s e =
    if (s mod 2 =? 1)%nat && (Nat.min e (length l) =? s)%nat then None
    else Some (key_of (take (e - s) (drop s l))).
Proof.
  intros Hok Hse Hs. unfold slice, len. cbn [kn_length kn_bytes key_of].
  destruct (Nat.ltb_spec (length l) s); [lia|]. destruct (Nat.ltb_spec e s); [lia|]. cbn [orb].
  assert (take (e - s) (drop s l) = drop s (take (Nat.min e (length l)) l)) as ->.
  { rewrite take_drop_commute. replace (s + (e - s))%nat with e by lia.
    destruct (Nat.min_spec e (length l)) as [[? ->]|[? ->]]; [done|]. by rewrite !take_ge by lia. }
  set (e' := Nat.min e (length l)). assert (He : (s <= e' <= length l)%nat) by lia. clearbody e'.
  pose proof (halves s) as [Es Hrs]. pose proof (halves e') as [Ee Hre].
  unfold key_of. assert (length (drop s (take e' l)) = (e' - s)%nat) as ->.
  { rewrite length_drop, length_take. lia. }
  destruct (decide (s mod 2 = 0)%nat) as [Hs0|Hs0]; rewrite ?Hs0; cbn [Nat.eqb andb].
  - pose proof (slice_even l (s / 2) (e' / 2) (e' mod 2) Hok Hre ltac:(lia)) as Hb. cbv zeta in Hb.
    rewrite Hb, <-Ee. by replace (2 * (s / 2))%nat with s by lia.
  - assert (s mod 2 = 1)%nat as Hs1 by lia. rewrite Hs1. cbn [Nat.eqb andb].
    destruct (Nat.eqb_spec e' s) as [->|Hes].
    { destruct (Nat.ltb_spec (s / 2) (s / 2 + 1)); [done|lia]. }
    destruct (Nat.ltb_spec (e' / 2) (s / 2 + 1)) as [|Hpq]; [lia|].
    pose proof (slice_odd l (s / 2) (e' / 2) (e' mod 2) Hok Hre ltac:(lia)) as Hb. cbv zeta in Hb.
    rewrite Hb, <-Ee. by replace (2 * (s / 2) + 1)%nat with s by lia.
Qed.

Lemma suffix_key_of l s : key_ok l -> (s < length l)%nat -> suffix (key_of l) s = Some (key_of (drop s l)).
Proof.
  intros Hl Hs. unfold suffix. rewrite slice_key_of by (done || unfold len; cbn; lia).
  unfold len. cbn [kn_length key_of]. rewrite Nat.min_id.
  destruct (Nat.eqb_spec (length l) s); [lia|]. rewrite andb_false_r. by rewrite take_ge by (rewrite length_drop; lia).
Qed.

Lemma key_ok_nil : key_ok [].
Proof. split; [done|]. simpl. lia. Qed.
Lemma key_ok_take l n : key_ok l -> key_ok (take n l).
Proof. intros [Hn Hl]. split; [by apply Forall_take|]. rewrite length_take. lia. Qed.
Lemma key_ok_drop l n : key_ok l -> key_ok (drop n l).
Proof. intros [Hn Hl]. split; [by apply Forall_drop|]. rewrite length_drop. lia. Qed.
Lemma key_ok_app_l l l' : key_ok (l ++ l') -> key_ok l.
Proof. intros [Hn Hl]. apply Forall_app in Hn as [? ?]. rewrite length_app in Hl. split; [done|lia]. Qed.
Lemma key_ok_app_r l l' : key_ok (l ++ l') -> key_ok l'.
Proof. intros [Hn Hl]. apply Forall_app in Hn as [? ?]. rewrite length_app in Hl. split; [done|lia]. Qed.
Lemma key_ok_prefix l l' : l `prefix_of` l' -> key_ok l' -> key_ok l.
Proof. intros [k ->]. apply key_ok_app_l. Qed.

Lemma pack_inj l l' : key_ok l -> key_ok l' -> length l = length l' -> pack l = pack l' -> l = l'.
Proof. intros Hl Hl' E Ep. apply key_of_inj; [done..|]. unfold key_of. by rewrite E, Ep. Qed.

Lemma chunk_0 l p : (2 * p <= length l)%nat -> take p (pad (pack l)) = pack (take (2 * p) l).
Proof. intros Hp. pose proof (chunk l 0 p) as H. rewrite Nat.sub_0_r in H. apply H; lia. Qed.

Lemma high_nibble_eq l q : key_ok l -> (q < MAX_BYTES)%nat ->
  high_nibble (pad (pack l) !!! q) = Z.of_nat (digit l (2 * q)).
Proof. intros [Hn Hl] Hq. rewrite pad_lookup_total by done. apply high_pair; by apply digit_nibble. Qed.

Lemma prefix_iff_take (l l' : key) : l `prefix_of` l' <-> (length l <= length l')%nat /\ take (length l) l' = l.
Proof.
  split.
  - intros [k ->]. rewrite length_app, take_app_length. split; [lia|done].
  - intros [_ E]. rewrite <-E. apply prefix_take.
Qed.

Lemma is_prefix_of_key_of l l' : key_ok l -> key_ok l' ->
  is_prefix_of (key_of l) (key_of l') = bool_decide (l `prefix_of` l').
Proof.
  intros Hl Hl'. apply eq_bool_prop_intro. rewrite bool_decide_spec, prefix_iff_take.
  unfold is_prefix_of, len. cbn [kn_length kn_bytes key_of].
  destruct (Nat.ltb_spec (length l') (length l)) as [|Hlen]; [split; [done|lia]|].
  pose proof (halves (length l)) as [Ed Hr]. set (q := (length l / 2)%nat) in *. set (r := (length l mod 2)%nat) in *.
  clearbody q r. rewrite !chunk_0 by lia. rewrite andb_True, bool_decide_spec, negb_True, andb_True.
  assert (Heq : pack (take (2 * q) l) = pack (take (2 * q) l') <-> take (2 * q) l' = take (2 * q) l).
  { split; [|by intros ->]. intros E. symmetry. apply pack_inj in E; [done|by apply key_ok_take..|].
    rewrite !length_take. lia. }
  rewrite Heq. destruct (decide (r = 1)%nat) as [Hr1|Hr1].
  - assert (Hq : (q < MAX_BYTES)%nat) by (destruct Hl; unfold MAX_BYTES in *; lia).
    rewrite !high_nibble_eq by done. rewrite Hr1, Ed, Hr1. rewrite take_snoc by lia.
    assert (El : l = take (2 * q) l ++ [digit l (2 * q)]).
    { rewrite <-take_snoc by lia. by rewrite take_ge by lia. }
    destruct (Z.eqb_spec (Z.of_nat (digit l (2 * q))) (Z.of_nat (digit l' (2 * q)))) as [Ez|Nz]; split.
    + intros [_ E]. split; [lia|]. rewrite El. by rewrite E, (Nat2Z.inj _ _ Ez).
    + intros [_ E]. split; [naive_solver|]. rewrite El in E. by apply app_inj_2 in E as [? _].
    + cbn. tauto.
    + intros [_ E]. rewrite El in E. apply app_inj_2 in E as [_ E]; [|done]. destruct Nz. f_equal. by injection E.
  - assert (r = 0)%nat as -> by lia. cbn [Nat.eqb andb negb]. rewrite Ed, Nat.add_0_r.
    rewrite (take_ge l) by lia. split; [intros [_ E]; split; [lia|done]|intros [_ E]; split; [cbn; tauto|done]].
Qed.

(** The longest common prefix. *)
Fixpoint lcp (l l' : key) : key :=
  match l, l' with
  | a :: l, b :: l' => if (a =? b)%nat then a :: lcp l l' else []
  | _, _ => []
  end.

Lemma lcp_prefix_l l l' : lcp l l' `prefix_of` l.
Proof.
  revert l'. induction l as [|a l IH]; intros [|b l']; cbn; try apply prefix_nil.
  destruct (Nat.eqb_spec a b); [by apply prefix_cons|apply prefix_nil].
Qed.
Lemma lcp_comm l l' : lcp l l' = lcp l' l.
Proof.
  revert l'. induction l as [|a l IH]; intros [|b l']; cbn; try done.
  rewrite Nat.eqb_sym. destruct (Nat.eqb_spec b a); [subst; by rewrite IH|done].
Qed.
Lemma lcp_prefix_r l l' : lcp l l' `prefix_of` l'.
Proof. rewrite lcp_comm. apply lcp_prefix_l. Qed.
Lemma lcp_app p l l' : lcp (p ++ l) (p ++ l') = p ++ lcp l l'.
Proof. induction p as [|a p IH]; cbn; [done|]. by rewrite Nat.eqb_refl, IH. Qed.
Lemma lcp_longest p l l' : p `prefix_of` l -> p `prefix_of` l' -> p `prefix_of` lcp l l'.
Proof. intros [k ->] [k' ->]. rewrite lcp_app. by exists (lcp k k'). Qed.

(** The length of the longest common prefix is the index of the first difference. *)
Lemma lcp_take d l l' :
  (d <= length l)%nat -> (d <= length l')%nat -> take d l = take d l' ->
  (d = Nat.min (length l) (length l') \/ digit l d <> digit l' d) -> lcp l l' = take d l.
Proof.
  revert l l'. induction d as [|d IH]; intros [|a l] [|b l'] Hl Hl' Ht Hd; cbn in *; try lia; try done.
  - destruct Hd as [|Hd]; [lia|]. destruct (Nat.eqb_spec a b); [by subst|done].
  - injection Ht as -> Ht. rewrite Nat.eqb_refl. f_equal. apply IH; [lia..|done|].
    destruct Hd as [Hd|Hd]; [left; lia|by right].
Qed.

(** Two bytes of equal length agree exactly when their nibbles do. *)
Lemma byte_eq_iff l l' j : key_ok l -> key_ok l' -> (j < MAX_BYTES)%nat ->
  pad (pack l) !!! j = pad (pack l') !!! j <->
  digit l (2 * j) = digit l' (2 * j) /\ digit l (2 * j + 1) = digit l' (2 * j + 1).
Proof.
  intros [Hn Hl] [Hn' Hl'] Hj. rewrite !pad_lookup_total by done.
  pose proof (digit_nibble l (2 * j) Hn). pose proof (digit_nibble l' (2 * j) Hn').
  pose proof (digit_nibble l (2 * j + 1) Hn). pose proof (digit_nibble l' (2 * j + 1) Hn').
  unfold nibble in *. lia.
Qed.

Lemma take_eq_snoc l l' n : (n < length l)%nat -> (n < length l')%nat ->
  take n l = take n l' -> digit l n = digit l' n -> take (n + 1) l = take (n + 1) l'.
Proof. intros. rewrite !take_snoc by done. by f_equal; [|f_equal]. Qed.

Lemma lookup_digit l n : (n < length l)%nat -> l !! n = Some (digit l n).
Proof. intros Hn. destruct (lookup_lt_is_Some_2 l n Hn) as [a Ha]. unfold digit. by rewrite Ha. Qed.

Lemma first_difference_lcp l l' n j m : key_ok l -> key_ok l' ->
  m = Nat.min (length l) (length l') -> (2 * (j + n) = m \/ 2 * (j + n) = m + 1)%nat ->
  take (Nat.min (2 * j) m) l = take (Nat.min (2 * j) m) l' ->
  exists d, first_difference (key_of l) (key_of l') (seq j n) m = d /\ (d <= m)%nat /\ lcp l l' = take d l.
Proof.
  intros Hl Hl' Em. revert j. induction n as [|n IH]; intros j Hjn Ht; cbn [seq first_difference].
  - exists m. split; [done|]. split; [lia|]. replace (Nat.min (2 * j) m) with m in Ht by lia.
    apply lcp_take; [lia..|done|by left].
  - cbn [kn_bytes key_of]. rewrite !get_key_of by done. rewrite (Nat.mul_comm j 2).
    assert (Hj : (2 * j < m)%nat) by lia. replace (Nat.min (2 * j) m) with (2 * j)%nat in Ht by lia.
    assert (Hjm : (j < MAX_BYTES)%nat) by (destruct Hl; unfold MAX_BYTES in *; lia).
    pose proof (byte_eq_iff l l' j Hl Hl' Hjm) as Hb. rewrite !lookup_digit by lia.
    destruct (Z.eqb_spec (pad (pack l) !!! j) (pad (pack l') !!! j)) as [Ez|Nz].
    + apply Hb in Ez as [E0 E1]. apply IH; [lia|].
      destruct (decide (2 * j + 1 < m)%nat) as [Hlt|].
      * replace (Nat.min (2 * S j) m) with (2 * j + 1 + 1)%nat by lia.
        apply take_eq_snoc; [lia..| |done]. apply take_eq_snoc; [lia..|done|done].
      * replace (Nat.min (2 * S j) m) with (2 * j + 1)%nat by lia. by apply take_eq_snoc; [lia..| |].
    + case_bool_decide as E; eexists; (split; [done|]); (split; [lia|]).
      * injection E as E. apply lcp_take; [lia..|by apply take_eq_snoc; [lia..| |]|].
        right. intros E1. apply Nz, Hb. done.
      * apply lcp_take; [lia..|done|]. right. congruence.
Qed.

Lemma common_prefix_key_of l l' : key_ok l -> key_ok l' ->
  common_prefix (key_of l) (key_of l') = Some (key_of (lcp l l')).
Proof.
  intros Hl Hl'. unfold common_prefix, len. cbn [kn_length key_of].
  set (m := Nat.min (length l) (length l')). pose proof (halves m) as [Em Hr].
  destruct (first_difference_lcp l l' (m / 2 + m mod 2) 0 m Hl Hl') as (d & Ed & Hd & El); [done|lia|done|].
  fold (key_of l). fold (key_of l').
  rewrite Ed. rewrite slice_key_of by (done || lia). cbn [Nat.modulo Nat.eqb]. cbn. by rewrite Nat.sub_0_r, El.
Qed.

Lemma overwrite_pad p o : (length p + length o <= MAX_BYTES)%nat ->
  overwrite (length p) o (pad p) = pad (p ++ o).
Proof.
  intros Hl. unfold overwrite, pad. rewrite take_app_length, <-app_assoc. do 2 f_equal.
  rewrite drop_app_ge by lia. rewrite drop_replicate, length_app. f_equal. lia.
Qed.
Lemma overwrite_last x a o : o <> [] -> (length x + length o <= MAX_BYTES)%nat ->
  overwrite (length x) o (pad (x ++ [a])) = pad (x ++ o).
Proof.
  intros Ho Hl. unfold overwrite, pad. rewrite <-!app_assoc, take_app_length. do 2 f_equal.
  destruct o as [|b o]; [done|]. rewrite drop_app_ge by lia. cbn [length app] in *.
  replace (length x + S (length o) - length x)%nat with (S (length o)) by lia. cbn [drop].
  rewrite drop_replicate, !length_app. f_equal. cbn [length]. lia.
Qed.

Lemma shift_loop_odd a z : Forall nibble z -> (length z mod 2 = 1)%nat ->
  shift_loop (16 * Z.of_nat a) (pack z) = pack (a :: z) ++ [0].
Proof.
  revert a. induction z as [|b|b c z IH] using pair_ind; intros a Hz Hm; [done| |].
  - apply Forall_cons in Hz as [Hb _]. cbn [pack shift_loop app].
    pose proof (high_pair b 0 Hb ltac:(unfold nibble; lia)) as H. pose proof (low_pair b 0 ltac:(unfold nibble; lia)) as H'.
    change (Z.of_nat 0) with 0 in H, H'. rewrite Z.add_0_r in H, H'. rewrite H, H'. by rewrite lor_pair.
  - apply Forall_cons in Hz as [Hb Hz], Hz as [Hc Hz]. cbn [pack shift_loop].
    rewrite high_pair, low_pair, lor_pair by done. cbn [app]. f_equal. rewrite Z.shiftl_mul_pow2 by lia.
    change (2 ^ 4) with 16. rewrite Z.mul_comm. rewrite IH; [done|done|].
    cbn [length] in Hm. replace (S (S (length z))) with (length z + 1 * 2)%nat in Hm by lia.
    by rewrite Nat.Div0.mod_add in Hm.
Qed.

Lemma shifted_pack a z : Forall nibble z ->
  (let shifted := shift_loop (16 * Z.of_nat a) (pack z) in
   if (length z mod 2 =? 0)%nat then shifted else removelast shifted) = pack (a :: z).
Proof.
  intros Hz. cbv zeta. pose proof (halves (length z)) as [_ Hr]. destruct (Nat.eqb_spec (length z mod 2) 0) as [E|N].
  - by apply shift_loop_pack.
  - rewrite shift_loop_odd by (done || lia). apply removelast_last.
Qed.

Lemma bytes_len_key_of l : bytes_len (key_of l) = length (pack l).
Proof. unfold bytes_len, len. cbn [kn_length key_of]. by rewrite pack_length. Qed.
Lemma take_bytes_len l : take (length (pack l)) (pad (pack l)) = pack l.
Proof. apply take_app_length. Qed.

Lemma add_key_of l l' : key_ok l -> key_ok l' -> (length l + length l' <= MAX_BYTES * 2)%nat ->
  add (key_of l) (key_of l') = Some (key_of (l ++ l')).
Proof.
  intros [Hn Hl] [Hn' Hl'] Hs. unfold add. rewrite !bytes_len_key_of. unfold len. cbn [kn_length kn_bytes key_of].
  rewrite take_bytes_len. unfold key_of. rewrite length_app.
  pose proof (pack_length_bound (l ++ l') ltac:(rewrite length_app; lia)) as Hp.
  destruct (Nat.eqb_spec (length l mod 2) 0) as [E|N].
  - rewrite pack_app in Hp |- * by done. rewrite length_app in Hp.
    destruct (Nat.ltb_spec MAX_BYTES (length (pack l) + length (pack l'))); [lia|]. by rewrite overwrite_pad.
  - pose proof (halves (length l)) as [Hd Hr]. destruct l as [|a x _] using rev_ind; [done|].
    rewrite length_app in Hd, Hr, N. cbn [length] in *.
    assert (Hx : (length x mod 2 = 0)%nat).
    { replace (length x) with (((length x + 1) / 2) * 2)%nat by lia. apply Nat.Div0.mod_mul. }
    rewrite pack_snoc by done. rewrite <-!app_assoc in *. cbn [app] in *. rewrite pack_app in Hp |- * by done.
    rewrite length_app. cbn [length]. rewrite Nat.add_sub.
    assert (pad (pack x ++ [16 * Z.of_nat a]) !!! length (pack x) = 16 * Z.of_nat a) as ->.
    { apply list_lookup_total_correct. unfold pad. rewrite <-app_assoc. apply list_lookup_middle. done. }
    pose proof (shifted_pack a l' Hn') as Hsh. cbv zeta in Hsh. rewrite Hsh. rewrite length_app in Hp.
    destruct (Nat.ltb_spec MAX_BYTES (length (pack x) + length (pack (a :: l')))); [lia|].
    rewrite overwrite_last; [done| |lia]. by destruct l'.
Qed.

Lemma key_checked_add_key_of l l' : key_ok l -> key_ok l' ->
  key_checked_add (key_of l) (key_of l') =
    Some (if decide (length l + length l' <= MAX_BYTES * 2)%nat then Some (key_of (l ++ l')) else None).
Proof.
  intros Hl Hl'. unfold key_checked_add, len. cbn [kn_length key_of].
  destruct (Nat.ltb_spec (MAX_BYTES * 2) (length l + length l')), (decide (length l + length l' <= MAX_BYTES * 2)%nat); try lia; [done|].
  fold (key_of l). fold (key_of l'). by rewrite add_key_of.
Qed.

(** Lexicographic order on nibbles. *)
Fixpoint lex (l l' : key) : comparison :=
  match l, l' with
  | [], [] => Eq
  | [], _ :: _ => Lt
  | _ :: _, [] => Gt
  | a :: l, b :: l' => match (a ?= b)%nat with Eq => lex l l' | c => c end
  end.

Lemma compare_bytes_antisym a b : compare_bytes b a = CompOpp (compare_bytes a b).
Proof.
  revert b. induction a as [|x a IH]; intros [|y b]; cbn; try done.
  rewrite Z.compare_antisym. destruct (x ?= y); cbn; [apply IH|done..].
Qed.
Lemma lex_antisym a b : lex b a = CompOpp (lex a b).
Proof.
  revert b. induction a as [|x a IH]; intros [|y b]; cbn; try done.
  rewrite Nat.compare_antisym. destruct (x ?= y)%nat; cbn; [apply IH|done..].
Qed.

Lemma compare_bytes_refl a : compare_bytes a a = Eq.
Proof. induction a as [|x a IH]; [done|]. cbn [compare_bytes]. by rewrite Z.compare_refl. Qed.

Lemma compare_zeros n z m : Forall nibble z -> (length (pack z) + m = n)%nat ->
  compare_bytes (replicate n 0) (pack z ++ replicate m 0) <> Gt.
Proof.
  revert n. induction z as [|a|a b z IH] using pair_ind; intros n Hz Hn; cbn [pack length app] in *.
  - subst. by rewrite compare_bytes_refl.
  - subst n. cbn [replicate Nat.add compare_bytes]. rewrite compare_bytes_refl.
    destruct (Z.compare_spec 0 (16 * Z.of_nat a)); [done|done|lia].
  - destruct n as [|n]; [lia|]. apply Forall_cons in Hz as [Ha Hz], Hz as [Hb Hz]. cbn [replicate compare_bytes].
    destruct (Z.compare_spec 0 (16 * Z.of_nat a + Z.of_nat b)); [|done|lia]. apply IH; [done|lia].
Qed.

Lemma compare_byte a b c d : nibble b -> nibble d ->
  (16 * Z.of_nat a + Z.of_nat b ?= 16 * Z.of_nat c + Z.of_nat d) =
  match (a ?= c)%nat with Eq => (b ?= d)%nat | o => o end.
Proof.
  unfold nibble. intros Hb Hd. destruct (Nat.compare_spec a c) as [->|H|H].
  - destruct (Nat.compare_spec b d) as [->|H|H]; [apply Z.compare_refl|apply Z.compare_lt_iff; lia|apply Z.compare_gt_iff; lia].
  - apply Z.compare_lt_iff. lia.
  - apply Z.compare_gt_iff. lia.
Qed.

(** The order of the padded bytes, then the lengths, is the lexicographic order. *)
Definition bytes_then_length (l l' : key) (n n' : nat) : comparison :=
  match compare_bytes (pack l ++ replicate n 0) (pack l' ++ replicate n' 0) with
  | Eq => (length l ?= length l')%nat
  | c => c
  end.

Lemma bytes_then_length_antisym l l' n n' : bytes_then_length l' l n' n = CompOpp (bytes_then_length l l' n n').
Proof.
  unfold bytes_then_length. rewrite compare_bytes_antisym, (Nat.compare_antisym (length l)).
  by destruct (compare_bytes (pack l ++ _) _).
Qed.

Lemma nil_lt l n n' : Forall nibble l -> l <> [] -> (length (pack l) + n' = n)%nat -> bytes_then_length [] l n n' = Lt.
Proof.
  intros Hl Hne Hn. unfold bytes_then_length. cbn [pack app length].
  pose proof (compare_zeros n l n' Hl Hn). destruct (compare_bytes _ _); [|done|done]. by destruct l.
Qed.
Lemma single_lt a b c l n n' : nibble a -> Forall nibble (b :: c :: l) -> (length (pack (b :: c :: l)) + n' = 1 + n)%nat ->
  bytes_then_length [a] (b :: c :: l) n n' = match (a ?= b)%nat with Eq => Lt | o => o end.
Proof.
  intros Ha Hl Hn. apply Forall_cons in Hl as [Hb Hl], Hl as [Hc Hl]. unfold bytes_then_length.
  cbn [pack app length compare_bytes] in *.
  pose proof (compare_byte a 0 b c ltac:(unfold nibble; lia) Hc) as Hbyte. change (Z.of_nat 0) with 0 in Hbyte.
  rewrite Z.add_0_r in Hbyte. rewrite Hbyte. destruct (a ?= b)%nat; [|done|done].
  destruct (Nat.compare_spec 0 c); [|done|lia].
  pose proof (compare_zeros n l n' Hl ltac:(lia)). destruct (compare_bytes _ _); [done|done|done].
Qed.

Lemma bytes_then_length_lex l l' n n' : Forall nibble l -> Forall nibble l' ->
  (length (pack l) + n = length (pack l') + n')%nat -> bytes_then_length l l' n n' = lex l l'.
Proof.
  revert l'. induction l as [|a|a b l IH] using pair_ind; intros l' Hl Hl' Hn.
  - destruct l' as [|a' l']; [|by apply nil_lt]. unfold bytes_then_length. cbn [pack length app Nat.add] in *.
    by rewrite <-Hn, compare_bytes_refl.
  - apply Forall_cons in Hl as [Ha _]. destruct l' as [|a' [|b' l']].
    + rewrite bytes_then_length_antisym, nil_lt; [done|by apply Forall_singleton|done|cbn in *; lia].
    + unfold bytes_then_length. cbn [pack length app Nat.add compare_bytes lex] in *. injection Hn as <-.
      rewrite compare_bytes_refl. pose proof (compare_byte a 0 a' 0) as Hb. change (Z.of_nat 0) with 0 in Hb.
      rewrite !Z.add_0_r in Hb. rewrite Hb by (unfold nibble; lia). by destruct (a ?= a')%nat.
    + rewrite single_lt; [done|done|done|]. cbn [pack length] in *. lia.
  - destruct l' as [|a' [|b' l']].
    + rewrite bytes_then_length_antisym, nil_lt; [done|done|done|cbn in *; lia].
    + apply Forall_cons in Hl' as [Ha' _]. rewrite bytes_then_length_antisym, single_lt; [|done|done|cbn [pack length] in *; lia].
      cbn [lex]. rewrite (Nat.compare_antisym a a'). by destruct (a ?= a')%nat.
    + apply Forall_cons in Hl as [Ha Hl], Hl as [Hb Hl]. apply Forall_cons in Hl' as [Ha' Hl'], Hl' as [Hb' Hl'].
      cbn [pack length] in Hn. specialize (IH l' Hl Hl' ltac:(lia)). unfold bytes_then_length in *.
      cbn [pack length app compare_bytes lex Nat.compare]. rewrite compare_byte by done.
      destruct (a ?= a')%nat; [|done|done]. destruct (b ?= b')%nat; done.
Qed.

Lemma cmp_key_of l l' : key_ok l -> key_ok l' -> cmp (key_of l) (key_of l') = lex l l'.
Proof.
  intros [Hn Hl] [Hn' Hl']. pose proof (pack_length_bound l Hl). pose proof (pack_length_bound l' Hl').
  apply bytes_then_length_lex; [done..|lia].
Qed.

(** The nibbles of a key. *)
Definition nibbles (self : KeyNibbles) : key := omap (get self) (seq 0 (len self)).

Lemma nibbles_key_of l : key_ok l -> nibbles (key_of l) = l.
Proof.
  intros Hl. unfold nibbles, len. cbn [kn_length key_of]. fold (key_of l).
  assert (H : forall n, (n <= length l)%nat -> omap (get (key_of l)) (seq 0 n) = take n l).
  { induction n as [|n IH]; intros Hn; [done|].
    rewrite seq_S, omap_app, IH by lia. cbn [omap list_omap Nat.add]. rewrite get_key_of, lookup_digit by (done || lia).
    rewrite (take_S_r l n (digit l n)); [done|]. apply lookup_digit. lia. }
  rewrite H by lia. by apply take_ge.
Qed.

(** Two nibbles per byte. *)
Definition unpack (bs : list Z) : key :=
  b ← bs; [Z.to_nat (high_nibble b); Z.to_nat (low_nibble b)].

Lemma byte_split b : 0 <= b < 256 ->
  b = 16 * Z.of_nat (Z.to_nat (high_nibble b)) + Z.of_nat (Z.to_nat (low_nibble b))
  /\ nibble (Z.to_nat (high_nibble b)) /\ nibble (Z.to_nat (low_nibble b)).
Proof.
  intros Hb. unfold high_nibble, low_nibble, nibble. change 15 with (Z.ones 4).
  rewrite !Z.land_ones, Z.shiftr_div_pow2 by lia. change (2 ^ 4) with 16.
  pose proof (Z.div_mod b 16). pose proof (Z.mod_pos_bound b 16). pose proof (Z.div_le_lower_bound b 16 0).
  assert (b / 16 < 16) by (apply Z.div_lt_upper_bound; lia). rewrite (Z.mod_small (b / 16)) by lia. lia.
Qed.

Lemma pack_unpack bs : Forall (fun b => 0 <= b < 256) bs ->
  pack (unpack bs) = bs /\ Forall nibble (unpack bs) /\ length (unpack bs) = (2 * length bs)%nat.
Proof.
  induction bs as [|b bs IH]; intros Hb; [done|]. apply Forall_cons in Hb as [Hb Hbs].
  destruct (IH Hbs) as (IH1 & IH2 & IH3), (byte_split b Hb) as (E & Hh & Hl). change (unpack (b :: bs)) with
    (Z.to_nat (high_nibble b) :: Z.to_nat (low_nibble b) :: unpack bs).
  cbn [pack length]. split; [by rewrite IH1, <-E|]. split; [|lia]. by apply Forall_cons; split; [|apply Forall_cons].
Qed.

(** [From<&[u8]>]: the nibbles of the bytes, up to the capacity. *)
Lemma from_bytes_key_of bs : Forall (fun b => 0 <= b < 256) bs ->
  from_bytes bs = key_of (if (MAX_BYTES <? length bs)%nat then [] else unpack bs).
Proof.
  intros Hb. destruct (pack_unpack bs Hb) as (Hp & _ & Hl). unfold from_bytes.
  destruct (Nat.ltb_spec MAX_BYTES (length bs)); [done|]. unfold key_of. rewrite Hp, Hl. f_equal. lia.
Qed.

(** The successor of a key in the order of keys has a zero appended. *)
Lemma successor_key_of l : key_ok l -> (length l < MAX_BYTES * 2)%nat -> successor (key_of l) = key_of (l ++ [0%nat]).
Proof.
  intros [Hn Hl] Hlt. pose proof (halves (length l)) as [Hd Hr]. unfold successor, key_of. cbn [kn_bytes kn_length]. rewrite length_app. cbn [length].
  f_equal; [|lia]. destruct (Nat.eqb_spec (length l mod 2) 0) as [E|N].
  - rewrite pack_app by done. cbn [pack]. change (16 * Z.of_nat 0) with 0. unfold pad. rewrite <- app_assoc, length_app. cbn [app length]. f_equal.
    assert (Hp : (length (pack l) < MAX_BYTES)%nat).
    { rewrite pack_length. apply Nat.Div0.div_lt_upper_bound. unfold MAX_BYTES in *. lia. }
    by replace (MAX_BYTES - length (pack l))%nat with (S (MAX_BYTES - (length (pack l) + 1)))%nat by lia.
  - f_equal. clear Hn Hl Hlt. assert (Hodd : (length l mod 2 = 1)%nat) by lia. clear Hd Hr N.
    induction l as [|a|a b l IH] using pair_ind; [done|cbn; f_equal; lia|]. cbn [pack app]. f_equal. apply IH.
    cbn [length] in Hodd. replace (S (S (length l))) with (length l + 1 * 2)%nat in Hodd by lia. by rewrite Nat.Div0.mod_add in Hodd.
Qed.

(** C38: keys packed two nibbles to a byte behave as lists of nibbles: reading a nibble,
    the prefix test, the common prefix, slices, suffixes, concatenation with and without
    the check of the capacity, the successor and the order of packed keys are those of
    the lists; the only slices that panic are empty ones that start at an odd index. *)
Theorem key_operations_refine l l' i j : key_ok l -> key_ok l' ->
  get (key_of l) i = l !! i /\
  is_prefix_of (key_of l) (key_of l') = bool_decide (l `prefix_of` l') /\
  common_prefix (key_of l) (key_of l') = Some (key_of (lcp l l')) /\
  ((i <= j)%nat -> (i <= length l)%nat -> slice (key_of l) i j =
     if (i mod 2 =? 1)%nat && (Nat.min j (length l) =? i)%nat then None else Some (key_of (take (j - i) (drop i l)))) /\
  key_checked_add (key_of l) (key_of l') =
    Some (if decide (length l + length l' <= MAX_BYTES * 2)%nat then Some (key_of (l ++ l')) else None) /\
  ((length l < MAX_BYTES * 2)%nat -> successor (key_of l) = key_of (l ++ [0%nat])) /\
  cmp (key_of l) (key_of l') = lex l l' /\
  (key_of l = key_of l' -> l = l').
Proof.
  intros Hl Hl'. split; [by apply get_key_of|]. split; [by apply is_prefix_of_key_of|]. split; [by apply common_prefix_key_of|].
  split; [by apply slice_key_of|]. split; [by apply key_checked_add_key_of|]. split; [by apply successor_key_of|].
  split; [by apply cmp_key_of|by apply key_of_inj].
Qed.
Lemma key_operations_refine_witness : slice (key_of [1; 2; 3]%nat) 3 3 = None /\ slice (key_of [1; 2; 3]%nat) 2 9 = Some (key_of [3]%nat).
Proof.
  assert (Hl : key_ok [1; 2; 3]%nat) by (split; [repeat constructor; unfold nibble; lia|cbn; unfold MAX_BYTES; lia]).
  split.
  - apply (key_operations_refine [1; 2; 3]%nat [1; 2; 3]%nat 3 3 Hl Hl); cbn; lia.
  - apply (key_operations_refine [1; 2; 3]%nat [1; 2; 3]%nat 2 9 Hl Hl); cbn; lia.
Defined.

Section Codec.
Context `{CEnv : ContentEnv}.

Lemma last_low l : (length l mod 2 = 1)%nat -> low_nibble (pack l !!! (length (pack l) - 1)%nat) = 0.
Proof.
  induction l as [|a|a b l IH] using pair_ind; intros Hm; [done| |].
  - cbn. pose proof (low_pair a 0 ltac:(unfold nibble; lia)) as H. change (Z.of_nat 0) with 0 in H.
    by rewrite Z.add_0_r in H.
  - cbn [length] in Hm. replace (S (S (length l))) with (length l + 1 * 2)%nat in Hm by lia.
    rewrite Nat.Div0.mod_add in Hm. specialize (IH Hm). cbn [pack length].
    destruct l as [|c l]; [done|]. assert (exists n, length (pack (c :: l)) = S n) as [n En].
    { destruct l; cbn [pack length]; by eexists. }
    rewrite En in IH |- *. replace (S (S n) - 1)%nat with (S n) by lia.
    by replace (S n - 1)%nat with n in IH by lia.
Qed.

(** Deserialization reads back what serialization writes. *)
Lemma deserialize_serialize l rest : key_ok l -> deserialize (serialize (key_of l) ++ rest) = Some (key_of l, rest).
Proof.
  intros [Hn Hl]. pose proof (pack_length_bound l Hl) as Hb. unfold serialize. rewrite bytes_len_key_of.
  unfold len. cbn [kn_length kn_bytes key_of]. rewrite take_bytes_len, <-!app_assoc. unfold deserialize.
  rewrite cdec_enc by (simpl; unfold MAX_BYTES in *; lia). cbn [mbind option_bind].
  rewrite cdec_enc by (apply usize_valid; unfold MAX_BYTES in *; lia). cbn [mbind option_bind].
  rewrite (Nat2Z.id (length (pack l))), take_bytes_app by done. cbn [mbind option_bind].
  destruct (Z.ltb_spec (Z.of_nat MAX_BYTES) (Z.of_nat (length (pack l)))); [lia|].
  destruct (Z.ltb_spec (Z.of_nat MAX_BYTES * 2) (Z.of_nat (length l))); [lia|].
  assert (Z.of_nat (length (pack l)) = div_ceil (Z.of_nat (length l)) 2) as E.
  { rewrite pack_length, div_ceil_spec by lia. rewrite Nat2Z.inj_div, Nat2Z.inj_add. f_equal. lia. }
  rewrite E, Z.eqb_refl. cbn [negb]. rewrite Nat2Z.id.
  destruct (Z.eqb_spec (Z.of_nat (length l) mod 2) 1) as [Hm|Hm]; cbn [andb]; [|done].
  fold (low_nibble (pack l !!! (length (pack l) - 1)%nat)). rewrite last_low; [done|].
  apply Nat2Z.inj. rewrite Nat2Z.inj_mod. done.
Qed.

Lemma key_round_trip l rest : key_ok l ->
  ('(k, bs) ← deserialize (serialize (key_of l) ++ rest); Some (nibbles k, bs)) = Some (l, rest).
Proof. intros Hl. rewrite deserialize_serialize by done. cbn [mbind option_bind]. by rewrite nibbles_key_of. Qed.

Definition key_codec : codec key :=
  mk_codec key (fun l => serialize (key_of l)) (fun bs => '(k, bs) ← deserialize bs; Some (nibbles k, bs))
    key_ok key_round_trip.

(** The bytes of a list of nibbles of odd length. *)
Lemma pack_take_odd bs : Forall (fun b => 0 <= b < 256) bs -> bs <> [] -> low_nibble (bs !!! (length bs - 1)%nat) = 0 ->
  pack (take (2 * length bs - 1) (unpack bs)) = bs.
Proof.
  intros Hb Hne Hlow. destruct bs as [|b bs _] using rev_ind; [done|]. clear Hne. apply Forall_app in Hb as [Hbs Hb].
  apply Forall_cons in Hb as [Hb _]. rewrite length_app in *. cbn [length] in *. rewrite Nat.add_sub in Hlow.
  rewrite lookup_total_app_r, Nat.sub_diag in Hlow by lia. cbn in Hlow.
  destruct (pack_unpack bs Hbs) as (Hp & _ & Hl), (byte_split b Hb) as (E & _ & _).
  assert (Hu : unpack (bs ++ [b]) = unpack bs ++ [Z.to_nat (high_nibble b); Z.to_nat (low_nibble b)]).
  { unfold unpack. by rewrite bind_app. }
  rewrite Hu, take_app, take_ge by lia. replace (2 * (length bs + 1) - 1 - length (unpack bs))%nat with 1%nat by lia. cbn [take].
  rewrite pack_app, Hp; [|rewrite Hl, Nat.mul_comm; apply Nat.Div0.mod_mul]. cbn [pack]. do 2 f_equal.
  rewrite Hlow in E. cbn in E. lia.
Qed.

(** C39: what is read from bytes is a key: whatever bytes a peer sends, deserialization
    either fails or gives the key of a list of at most 126 nibbles, so the length fits the
    array and every unused nibble is zero; it assumes that reading a variable-length
    integer leaves the rest of its input. *)
Theorem deserialized_keys_typed bs k rest :
  (forall bs n rest, cdec usize_codec bs = Some (n, rest) -> rest `suffix_of` bs) ->
  Forall (fun b => 0 <= b < 256) bs -> deserialize bs = Some (k, rest) ->
  exists l, key_ok l /\ k = key_of l /\ (kn_length k <= MAX_BYTES * 2)%nat /\ length (kn_bytes k) = MAX_BYTES.
Proof.
  intros Hsuf Hb Hd. unfold deserialize in Hd. destruct bs as [|len bs]; [done|]. rewrite u8_cons in Hd. cbn [mbind option_bind] in Hd.
  apply Forall_cons in Hb as [Hlen Hb]. destruct (cdec usize_codec bs) as [[n bs1]|] eqn:En; [|done]. cbn [mbind option_bind] in Hd.
  apply Hsuf in En as [pre ->]. apply Forall_app in Hb as [_ Hb]. unfold take_bytes in Hd.
  destruct (decide (Z.to_nat n <= length bs1)%nat) as [Hn|]; [|done]. cbn [mbind option_bind] in Hd.
  set (bytes := take (Z.to_nat n) bs1) in *. assert (Hbytes : Forall (fun b => 0 <= b < 256) bytes) by (by apply Forall_take).
  assert (Hlb : length bytes = Z.to_nat n) by (unfold bytes; rewrite length_take; lia).
  destruct (Z.ltb_spec (Z.of_nat MAX_BYTES) n); [done|]. destruct (Z.ltb_spec (Z.of_nat MAX_BYTES * 2) len); [done|].
  destruct (Z.eqb_spec n (div_ceil len 2)) as [Ediv|]; [|done]. cbn [negb] in Hd. rewrite div_ceil_spec in Ediv by lia.
  destruct (pack_unpack bytes Hbytes) as (Hp & Hnib & Hl).
  pose proof (Z.div_mod (len + 2 - 1) 2 ltac:(lia)). pose proof (Z.mod_pos_bound (len + 2 - 1) 2 ltac:(lia)).
  pose proof (Z.div_mod len 2 ltac:(lia)). pose proof (Z.mod_pos_bound len 2 ltac:(lia)).
  assert (Hkey : pack (take (Z.to_nat len) (unpack bytes)) = bytes -> exists l, key_ok l /\ k = key_of l).
  { intros Hpack. exists (take (Z.to_nat len) (unpack bytes)). split.
    - split; [by apply Forall_take|]. rewrite length_take. lia.
    - unfold key_of. rewrite Hpack, length_take, Hl. replace (Z.to_nat len `min` (2 * length bytes))%nat with (Z.to_nat len) by lia.
      destruct (_ && _); [done|]. by injection Hd as <- _. }
  assert (exists l, key_ok l /\ k = key_of l) as (l & Hok & ->).
  { apply Hkey. destruct (Z.eqb_spec (len mod 2) 1) as [Hm|Hm]; cbn [andb] in Hd.
    - destruct (Z.land (bytes !!! (length bytes - 1)%nat) 15 =? 0) eqn:Elow; [|done]. apply Z.eqb_eq in Elow.
      replace (Z.to_nat len) with (2 * length bytes - 1)%nat by lia. apply pack_take_odd; [done| |done].
      intros E. apply (f_equal length) in E. cbn in E. lia.
    - rewrite take_ge; [done|]. lia. }
  exists l. split; [done|]. split; [done|]. split; [apply Hok|]. cbn. unfold pad. rewrite length_app, length_replicate.
  pose proof (pack_length_bound l (proj2 Hok)). lia.
Qed.
End Codec.

Lemma deserialized_keys_typed_witness :
  let env := {| usize_codec := u64_codec; usize_valid n Hn := Hn; blake2b := fun l => l |} in
  exists l, key_ok l /\ mk_key (pad [18; 48]) 3 = key_of l /\ (3 <= MAX_BYTES * 2)%nat /\ length (pad [18; 48]) = MAX_BYTES.
Proof.
  intros env. apply (deserialized_keys_typed (CEnv := env) [3; 0; 0; 0; 0; 0; 0; 0; 2; 18; 48] (mk_key (pad [18; 48]) 3) []).
  - cbn. intros bs n rest. unfold take_bytes. case_decide; [|done]. cbn. intros [= _ <-]. apply suffix_drop.
  - repeat constructor; lia.
  - reflexivity.
Defined.
