(* ===== verification/TrieNode.v ===== *)
(** * Nodes of the Merkle radix trie

    [primitives/src/trie/trie_node.rs], [trie_proof_node.rs] and [error.rs]: a node
    has a key, sixteen entries for its children (the part of the child's key below
    the node's key, and the child's hash) and possibly a value.  Keys are lists of
    nibbles; [KeyNibbles] relates the operations used here to the byte arrays of
    the source.  A hash of zero marks a hash that has to be recomputed.  The hash
    of a node determines its key, its entries and its value, up to collisions. *)

From S2P Require Import Prelude Coin AccountTypes Codec TxContent Block KeyNibbles.

(** The messages of [InvalidChunk]. *)
Inductive InvalidChunkReason :=
  | DiffKeyIsRoot
  | ProofHasNoRoot
  | ProofMissesNodes
  | InvalidKeys
  | FirstKeyInconsistent
  | ItemKeyIsRoot
  | LastKeyInconsistent
  | FoundStumps
  | ItemsNotSorted
  | LastItemProofInvalid
  | InvalidEndKey
  | EndKeyInconsistent.

Inductive MerkleRadixTrieError :=
  | WrongPrefix
  | BranchesHaveNoValue
  | ChildDoesNotExist
  | ChildIsStump
  | RootCantHaveValue
  | TrieAlreadyComplete
  | NonMatchingChunk
  | ChunkHashMismatch
  | InvalidChunk (reason : InvalidChunkReason)
  | IncompleteTrieError
  | Serialization.

(** ** Keys *)

(** [is_prefix_of], [checked_add] and the order of keys, on nibbles. *)
Definition is_prefix (self other : key) : bool := bool_decide (self `prefix_of` other).
Definition checked_add (self other : key) : option key :=
  if (MAX_BYTES * 2 <? length self + length other)%nat then None else Some (self ++ other).
Definition key_le (a b : key) : bool := match lex a b with Gt => false | _ => true end.
Definition key_lt (a b : key) : bool := match lex a b with Lt => true | _ => false end.

(** [Option<RangeFrom<KeyNibbles>>]: the keys from the start on are missing. *)
Abbreviation range := (option key).
Definition range_contains (missing_range : range) (k : key) : bool :=
  match missing_range with Some start => key_le start k | None => false end.

(** ** Children *)

Record TrieNodeChild := mk_child { suffix : key; child_hash : Z }.
#[global] Instance TrieNodeChild_eq_dec : EqDecision TrieNodeChild.
Proof. solve_decision. Defined.

Definition is_stump (self : TrieNodeChild) (parent_key : key) (missing_range : range) : bool :=
  match checked_add parent_key (suffix self) with
  | Some combined => range_contains missing_range combined
  | None => false
  end.

Definition has_hash (self : TrieNodeChild) : bool := negb (child_hash self =? 0).

Definition entry_key (self : TrieNodeChild) (parent_key : key) (missing_range : range)
  : outcome MerkleRadixTrieError key :=
  combined ← or_err (checked_add parent_key (suffix self)) WrongPrefix;
  if is_stump self parent_key missing_range then Err ChildIsStump else Ok combined.

(** ** Nodes *)

Record RootData := mk_root_data {
  incomplete : range;
  num_branches : Z;
  num_hybrids : Z;
  num_leaves : Z;
}.
#[global] Instance RootData_eq_dec : EqDecision RootData.
Proof. solve_decision. Defined.

Record TrieNode := mk_node {
  node_key : key;
  root_data : option RootData;
  value : option (list Z);
  children : list (option TrieNodeChild);
}.
#[global] Instance TrieNode_eq_dec : EqDecision TrieNode.
Proof. solve_decision. Defined.

Definition set_children (self : TrieNode) (c : list (option TrieNodeChild)) : TrieNode :=
  mk_node (node_key self) (root_data self) (value self) c.
Definition set_root_data (self : TrieNode) (d : option RootData) : TrieNode :=
  mk_node (node_key self) d (value self) (children self).
Definition set_node_value (self : TrieNode) (v : option (list Z)) : TrieNode :=
  mk_node (node_key self) (root_data self) v (children self).

Definition NO_CHILDREN : list (option TrieNodeChild) := replicate 16 None.

Module TrieNodeKind.
Inductive t := Root | Branch | Hybrid | Leaf.
End TrieNodeKind.
#[global] Instance TrieNodeKind_eq_dec : EqDecision TrieNodeKind.t.
Proof. solve_decision. Defined.

Definition new_leaf (k : key) (v : list Z) : TrieNode := mk_node k None (Some v) NO_CHILDREN.
Definition new_root_impl (is_incomplete : bool) : TrieNode :=
  mk_node [] (Some (mk_root_data (if is_incomplete then Some [] else None) 0 0 0)) None NO_CHILDREN.
Definition new_root : TrieNode := new_root_impl false.
Definition new_root_incomplete : TrieNode := new_root_impl true.
Definition new_empty (k : key) : TrieNode := mk_node k None None NO_CHILDREN.

Definition iter_children (self : TrieNode) : list TrieNodeChild := omap id (children self).
Definition has_children (self : TrieNode) : bool := negb (length (iter_children self) =? 0)%nat.
Definition is_root (self : TrieNode) : bool := bool_decide (is_Some (root_data self)).
Definition has_value (self : TrieNode) : bool := bool_decide (is_Some (value self)).
Definition is_empty (self : TrieNode) : bool :=
  negb (is_root self) && negb (has_value self) && negb (has_children self).
Definition is_hybrid (self : TrieNode) : bool :=
  negb (is_root self) && has_value self && has_children self.

Definition kind (self : TrieNode) : option TrieNodeKind.t :=
  match is_root self, has_children self, has_value self with
  | false, false, false => None
  | false, false, true => Some TrieNodeKind.Leaf
  | false, true, false => Some TrieNodeKind.Branch
  | false, true, true => Some TrieNodeKind.Hybrid
  | true, _, _ => Some TrieNodeKind.Root
  end.

(** [child_index], the same for nodes of the trie and of proofs. *)
Definition key_child_index (self_key child_prefix : key) : outcome MerkleRadixTrieError nat :=
  if negb (is_prefix self_key child_prefix) || (length self_key =? length child_prefix)%nat
  then Err WrongPrefix
  else or_err (child_prefix !! length self_key) WrongPrefix.
Definition child_index (self : TrieNode) (child_prefix : key) : outcome MerkleRadixTrieError nat :=
  key_child_index (node_key self) child_prefix.

(** Indexing an array panics out of bounds. *)
Definition array_get {A} (l : list A) (i : nat) : outcome MerkleRadixTrieError A := unwrap (l !! i).
Definition array_set {A} (l : list A) (i : nat) (a : A) : outcome MerkleRadixTrieError (list A) :=
  _ ← unwrap (l !! i); Ok (<[i := a]> l).

Definition child (self : TrieNode) (child_prefix : key) : outcome MerkleRadixTrieError TrieNodeChild :=
  i ← child_index self child_prefix;
  entry ← array_get (children self) i;
  or_err entry ChildDoesNotExist.

Definition child_key (self : TrieNode) (child_prefix : key) (missing_range : range)
  : outcome MerkleRadixTrieError key :=
  c ← child self child_prefix;
  entry_key c (node_key self) missing_range.

(** The suffix of a strictly longer key is not empty, where [KeyNibbles::suffix] does
    not panic. *)
Definition put_child (self : TrieNode) (child_key : key) (hash : Z) : outcome MerkleRadixTrieError TrieNode :=
  idx ← child_index self child_key;
  new ← array_set (children self) idx (Some (mk_child (drop (length (node_key self)) child_key) hash));
  Ok (set_children self new).
Definition put_child_no_hash (self : TrieNode) (child_key : key) : outcome MerkleRadixTrieError TrieNode :=
  put_child self child_key 0.

Definition remove_child (self : TrieNode) (child_prefix : key) : outcome MerkleRadixTrieError TrieNode :=
  idx ← child_index self child_prefix;
  new ← array_set (children self) idx None;
  Ok (set_children self new).

(** The new node and the old value. *)
Definition put_value (self : TrieNode) (new_value : list Z)
  : outcome MerkleRadixTrieError (TrieNode * option (list Z)) :=
  if is_root self then Err RootCantHaveValue
  else Ok (set_node_value self (Some new_value), value self).

Definition can_hash (self : TrieNode) : bool := forallb has_hash (iter_children self).

(** ** Nodes of proofs *)

Inductive ProofValue :=
  | NoValue
  | LeafValue (v : list Z)
  | HybridHash (h : Z)
  | HybridValue (v : list Z).

Record TrieProofNode := mk_proof_node {
  pn_key : key;
  pn_value : ProofValue;
  pn_children : list (option TrieNodeChild);
}.

Definition into_value (self : TrieProofNode) : option (option (list Z)) :=
  match pn_value self with
  | NoValue => Some None
  | LeafValue v | HybridValue v => Some (Some v)
  | HybridHash _ => None
  end.
Definition pn_has_children (self : TrieProofNode) : bool :=
  existsb (fun c => bool_decide (is_Some c)) (pn_children self).
Definition pn_child (self : TrieProofNode) (child_prefix : key) : outcome MerkleRadixTrieError TrieNodeChild :=
  i ← key_child_index (pn_key self) child_prefix;
  entry ← array_get (pn_children self) i;
  or_err entry ChildDoesNotExist.
Definition pn_child_key (self : TrieProofNode) (child_prefix : key) : outcome MerkleRadixTrieError key :=
  c ← pn_child self child_prefix;
  entry_key c (pn_key self) None.

(** ** Hashes *)

Section Hash.
Context `{BEnv : BlockEnv}.

Definition child_codec : codec (key * Z) := pair_codec key_codec hash_codec.
Definition child_fields (c : TrieNodeChild) : key * Z := (suffix c, child_hash c).

(** [[Option<TrieNodeChild>; 16]]: the entries, without a length. *)
Definition children_bytes (cs : list (option TrieNodeChild)) : list Z :=
  enc_list (option_codec child_codec) (map (option_map child_fields) cs).

(** The string that is hashed. *)
Definition node_content (self : TrieNode) : list Z :=
  cenc key_codec (node_key self) ++
  match has_children self, value self with
  | _, None => [0]
  | false, Some val => 1 :: cenc vec_u8_codec val
  | true, Some val => 2 :: cenc hash_codec (blake2b_hash val)
  end ++ children_bytes (children self).

Definition hash (self : TrieNode) : option Z :=
  if can_hash self then Some (blake2b_hash (node_content self)) else None.
Definition hash_assert {E} (self : TrieNode) : outcome E Z := unwrap (hash self).

Definition to_proof_node (include_hybrid_value : bool) (node : TrieNode) : TrieProofNode :=
  mk_proof_node (node_key node)
    match has_children node, value node, include_hybrid_value with
    | _, None, _ => NoValue
    | false, Some val, _ => LeafValue val
    | true, Some val, false => HybridHash (blake2b_hash val)
    | true, Some val, true => HybridValue val
    end
    (children node).

Definition proof_node_content (self : TrieProofNode) : list Z :=
  cenc key_codec (pn_key self) ++
  match pn_value self with
  | NoValue => [0]
  | LeafValue val => 1 :: cenc vec_u8_codec val
  | HybridHash val_hash => 2 :: cenc hash_codec val_hash
  | HybridValue val => 2 :: cenc hash_codec (blake2b_hash val)
  end ++ children_bytes (pn_children self).
Definition proof_node_hash (self : TrieProofNode) : Z := blake2b_hash (proof_node_content self).
End Hash.
