(* ===== verification/Trie.v ===== *)
(** * The Merkle radix trie

    [primitives/trie/src/trie.rs], [transaction.rs] and
    [primitives/src/trie/trie_diff.rs]: reading, writing and removing values, the
    recomputation of hashes, recorded diffs, and diffs on a trie of which the keys
    from some start on are missing.  The table of the database is a map from keys
    to nodes; a stack ([root_path]) is a list with its top first.  Loops that go
    down the trie have fuel for the longest key; running out of it is a panic,
    which the proofs exclude. *)

From S2P Require Import Prelude Coin AccountTypes Codec TxContent Block KeyNibbles TrieNode.

(** ** Diffs *)

Inductive ValueChange :=
  | Insert (n : list Z)
  | Update (o n : list Z)
  | Delete (o : list Z).

Definition invert (self : ValueChange) : ValueChange :=
  match self with
  | Insert n => Delete n
  | Update o n => Update n o
  | Delete o => Insert o
  end.
Definition into_old_and_new (self : ValueChange) : option (list Z) * option (list Z) :=
  match self with
  | Insert n => (None, Some n)
  | Update o n => (Some o, Some n)
  | Delete o => (Some o, None)
  end.
Definition from_old_and_new (old new : option (list Z)) : option ValueChange :=
  match old, new with
  | None, None => None
  | None, Some n => Some (Insert n)
  | Some o, Some n => if bool_decide (o = n) then None else Some (Update o n)
  | Some o, None => Some (Delete o)
  end.
Definition combine {E : Type} (l r : option ValueChange) : outcome E (option ValueChange) :=
  match l, r with
  | None, None => Ok None
  | None, Some r => Ok (Some r)
  | Some l, None => Ok (Some l)
  | Some l, Some r =>
      let l := into_old_and_new l in
      let r := into_old_and_new r in
      if bool_decide (l.2 = r.1) then Ok (from_old_and_new l.1 r.2) else Panic
  end.

(** [TrieDiffBuilder] and [TrieDiff]. *)
Abbreviation TrieDiffBuilder := (gmap key ValueChange).
Abbreviation TrieDiff := (gmap key (option (list Z))).

Definition add_change {E : Type} (changes : TrieDiffBuilder) (k : key) (v : ValueChange) : outcome E TrieDiffBuilder :=
  result ← combine (changes !! k) (Some v);
  Ok match result with
     | Some result => <[k := result]> (delete k changes)
     | None => delete k changes
     end.
Definition into_backward_diff (changes : TrieDiffBuilder) : TrieDiff :=
  (fun v => (into_old_and_new v).1) <$> changes.
Definition into_forward_diff (changes : TrieDiffBuilder) : TrieDiff :=
  (fun v => (into_old_and_new v).2) <$> changes.

Inductive RevertDiffValue :=
  | RevertPut (v : list Z)
  | RevertRemove
  | UpdateStump.
Definition known_value (old_value : option (list Z)) : RevertDiffValue :=
  match old_value with Some v => RevertPut v | None => RevertRemove end.
Definition unknown_value (new_stump : bool) : RevertDiffValue :=
  if new_stump then RevertRemove else UpdateStump.

Abbreviation RevertTrieDiff := (gmap key RevertDiffValue).

(** [sort_by]: a stable sort. *)
Fixpoint insert_by {A} (cmp : A -> A -> comparison) (a : A) (l : list A) : list A :=
  match l with
  | [] => [a]
  | b :: l' => match cmp a b with Gt => b :: insert_by cmp a l' | _ => a :: l end
  end.
Definition sort_by {A} (cmp : A -> A -> comparison) (l : list A) : list A :=
  foldr (insert_by cmp) [] l.

(** The entries of a [BTreeMap] in the order of the keys. *)
Definition btree_iter {A} (m : gmap key A) : list (key * A) :=
  sort_by (fun a b => lex a.1 b.1) (map_to_list m).

(** ** Transactions *)

(** [WriteTransactionProxy]: the table and the changes recorded so far. *)
Record Txn := mk_txn { table : gmap key TrieNode; txn_diff : option TrieDiffBuilder }.
Definition TrieM (A : Type) : Type := M Txn MerkleRadixTrieError A.

(** [Result::unwrap]. *)
Definition unwrap_result {A} (o : outcome MerkleRadixTrieError A) : TrieM A :=
  match o with Ok a => mret a | _ => panic end.

Inductive OldValue := Unchanged | OldNone | OldSome (v : list Z).
Definition old_value (v : option (list Z)) : OldValue :=
  match v with None => OldNone | Some v => OldSome v end.

Definition start_recording : TrieM unit :=
  diff ← gets txn_diff;
  assert_that (bool_decide (diff = None));;
  modify (fun s => mk_txn (table s) (Some ∅)).
Definition stop_recording : TrieM TrieDiffBuilder :=
  diff ← gets txn_diff;
  modify (fun s => mk_txn (table s) None);;
  expect diff.

Definition value_change (old : OldValue) (new : option (list Z)) : option ValueChange :=
  match old, new with
  | Unchanged, _ => None
  | OldNone, None => None
  | OldNone, Some n => Some (Insert n)
  | OldSome o, None => Some (Delete o)
  | OldSome o, Some n => if bool_decide (o = n) then None else Some (Update o n)
  end.
Definition record_value_change (k : key) (old : OldValue) (new : option (list Z)) : TrieM unit :=
  diff ← gets txn_diff;
  if_some diff (fun diff =>
    if_some (value_change old new) (fun change =>
      diff ← lift (add_change diff k change);
      modify (fun s => mk_txn (table s) (Some diff)))).

Definition set_key (k : key) (node : TrieNode) : TrieNode :=
  mk_node k (root_data node) (value node) (children node).
Definition get_node (k : key) : TrieM (option TrieNode) :=
  gets (fun s => set_key k <$> table s !! k).
Definition put_node (node : TrieNode) (old : OldValue) : TrieM unit :=
  record_value_change (node_key node) old (value node);;
  modify (fun s => mk_txn (<[node_key node := node]> (table s)) (txn_diff s)).
Definition remove_node (k : key) (old : OldValue) : TrieM unit :=
  record_value_change k old None;;
  modify (fun s => mk_txn (delete k (table s)) (txn_diff s)).
Definition clear_table : TrieM unit :=
  modify (fun s => mk_txn ∅ (txn_diff s)).

(** ** Numbers of nodes *)

Record CountUpdates := mk_counts { cu_branches : Z; cu_hybrids : Z; cu_leaves : Z }.
Definition no_counts : CountUpdates := mk_counts 0 0 0.

(** The counter of a kind of nodes, changed by [d]. *)
Definition count_kind (self : CountUpdates) (k : option TrieNodeKind.t) (d : Z) : CountUpdates :=
  match k with
  | None => self
  | Some TrieNodeKind.Root => self
  | Some TrieNodeKind.Branch => mk_counts (cu_branches self + d) (cu_hybrids self) (cu_leaves self)
  | Some TrieNodeKind.Hybrid => mk_counts (cu_branches self) (cu_hybrids self + d) (cu_leaves self)
  | Some TrieNodeKind.Leaf => mk_counts (cu_branches self) (cu_hybrids self) (cu_leaves self + d)
  end.
Definition apply_update (self : CountUpdates) (prev cur : option TrieNodeKind.t) : CountUpdates :=
  count_kind (count_kind self prev (-1)) cur 1.
Definition from_update (prev cur : option TrieNodeKind.t) : CountUpdates := apply_update no_counts prev cur.
Definition counts_empty (self : CountUpdates) : bool :=
  (cu_branches self =? 0) && (cu_hybrids self =? 0) && (cu_leaves self =? 0).
Definition apply_difference (data diff : Z) : Z :=
  if 0 <=? diff then wrap 64 (data + diff) else wrap 64 (data - (- diff)).
Definition update_root_data (self : CountUpdates) (rd : RootData) : RootData :=
  mk_root_data (incomplete rd)
    (apply_difference (num_branches rd) (cu_branches self))
    (apply_difference (num_hybrids rd) (cu_hybrids self))
    (apply_difference (num_leaves rd) (cu_leaves self)).

(** ** Reading *)

Definition get_root : TrieM (option TrieNode) := get_node [].
Definition get_missing_range : TrieM range :=
  root ← get_root;
  root ← expect root;
  rd ← expect (root_data root);
  mret (incomplete rd).
Definition is_complete : TrieM bool :=
  r ← get_missing_range;
  mret (bool_decide (r = None)).
Definition is_within_complete_part (k : key) (missing_range : range) : bool :=
  negb (range_contains missing_range k).

Definition init_root (is_incomplete : bool) : TrieM unit :=
  root ← get_root;
  match root with
  | None => put_node (if is_incomplete then new_root_incomplete else new_root) OldNone
  | Some _ => mret tt
  end.
Definition reinitialize_as_incomplete : TrieM unit := clear_table;; init_root true.

Definition get_raw (k : key) : TrieM (option (list Z)) :=
  node ← get_node k;
  mret (node ≫= value).
(** The bytes of the value; the caller's type parses them. *)
Definition trie_get (k : key) : TrieM (option (list Z)) :=
  missing_range ← get_missing_range;
  fail_if (negb (is_within_complete_part k missing_range)) IncompleteTrieError;;
  get_raw k.

(** Fuel for a way down the trie: the keys get longer at each step. *)
Definition depth_fuel : nat := MAX_BYTES * 2 + 2.

(** ** Shared steps *)

Definition child_entry (node : TrieNode) (k : key) : TrieM (key * Z) :=
  i ← unwrap_result (child_index node k);
  entry ← lift (array_get (children node) i);
  c ← expect entry;
  ck ← expect (checked_add (node_key node) (suffix c));
  mret (ck, child_hash c).

Definition replace_with_only_child (parent node : TrieNode) : TrieM TrieNode :=
  c ← expect (head (iter_children node));
  ck ← expect (checked_add (node_key node) (suffix c));
  unwrap_result (put_child parent ck (child_hash c)).

(** From the child towards the root. *)
Fixpoint update_keys_loop (child_node : TrieNode) (root_path : list TrieNode) : TrieM unit :=
  match root_path with
  | [] => mret tt
  | parent_node :: root_path =>
      parent_node ← unwrap_result (put_child parent_node (node_key child_node) 0);
      assert_that (Bool.eqb (bool_decide (root_path = [])) (is_root parent_node));;
      put_node parent_node Unchanged;;
      update_keys_loop parent_node root_path
  end.

(** The stack with its bottom replaced. *)
Definition set_bottom (root_path : list TrieNode) (root : TrieNode) : list TrieNode :=
  removelast root_path ++ [root].

Definition update_keys (root_path : list TrieNode) (count_updates : CountUpdates) : TrieM unit :=
  root ← expect (last root_path);
  if counts_empty count_updates then
    child_node ← expect (head root_path);
    update_keys_loop child_node (tail root_path)
  else
    rd ← expect (root_data root);
    let root := set_root_data root (Some (update_root_data count_updates rd)) in
    let root_path := set_bottom root_path root in
    if (length root_path =? 1)%nat then put_node root Unchanged
    else
      child_node ← expect (head root_path);
      update_keys_loop child_node (tail root_path).

(** ** Writing and removing *)

Section Trie.
Context `{BEnv : BlockEnv}.

(** The node for [k] joins [other_key], a child or a stump below [parent_key]: as its
    parent if it is a prefix of it, else as its sibling below a new branch.  The node
    that takes the place of [other_key], and the changes of the numbers of nodes. *)
Definition put_hybrid (k : key) (v : list Z) (other_key : key) (other_hash : Z) : TrieM (TrieNode * CountUpdates) :=
  new_node ← unwrap_result (put_child (new_leaf k v) other_key other_hash);
  put_node new_node OldNone;;
  mret (new_node, mk_counts 0 1 0).
Definition put_sibling (k : key) (v : list Z) (other_key : key) (other_hash : Z) : TrieM (TrieNode * CountUpdates) :=
  let new_node := new_leaf k v in
  put_node new_node OldNone;;
  new_parent ← unwrap_result (put_child (new_empty (lcp other_key k)) other_key other_hash);
  h ← lift (hash_assert new_node);
  new_parent ← unwrap_result (put_child new_parent (node_key new_node) h);
  put_node new_parent OldNone;;
  mret (new_parent, mk_counts 1 0 1).

Fixpoint put_loop (fuel : nat) (k : key) (v : list Z) (missing_range : range)
    (cur_node : TrieNode) (root_path : list TrieNode) : TrieM (list TrieNode * CountUpdates) :=
  match fuel with
  | O => panic
  | S fuel =>
      if negb (is_prefix (node_key cur_node) k) then
        '(new_node, count_updates) ←
          (if is_prefix k (node_key cur_node) then put_hybrid k v (node_key cur_node) 0
           else put_sibling k v (node_key cur_node) 0);
        mret (new_node :: root_path, count_updates)
      else if bool_decide (node_key cur_node = k) then
        let prev_kind := kind cur_node in
        '(cur_node, old) ← unwrap_result (put_value cur_node v);
        put_node cur_node (old_value old);;
        mret (cur_node :: root_path, from_update prev_kind (kind cur_node))
      else
        match child_key cur_node k missing_range with
        | Err ChildIsStump =>
            '(stump_key, stump_hash) ← child_entry cur_node k;
            '(new_node, count_updates) ←
              (if bool_decide (lcp stump_key k = k) then put_hybrid k v stump_key stump_hash
               else put_sibling k v stump_key stump_hash);
            mret (new_node :: cur_node :: root_path, count_updates)
        | Err _ =>
            let new_node := new_leaf k v in
            put_node new_node OldNone;;
            let old_kind := kind cur_node in
            h ← lift (hash_assert new_node);
            cur_node ← unwrap_result (put_child cur_node (node_key new_node) h);
            put_node cur_node Unchanged;;
            mret (cur_node :: root_path, apply_update (mk_counts 0 0 1) old_kind (kind cur_node))
        | Ok ck =>
            child_node ← get_node ck;
            child_node ← expect child_node;
            put_loop fuel k v missing_range child_node (cur_node :: root_path)
        | Panic => panic
        end
  end.

Definition put_raw (k : key) (v : list Z) (missing_range : range) : TrieM unit :=
  root ← get_root;
  cur_node ← expect root;
  '(root_path, count_updates) ← put_loop depth_fuel k v missing_range cur_node [];
  update_keys root_path count_updates.

(** The way up from a removed leaf. *)
Fixpoint remove_loop (ck : key) (root_path : list TrieNode) (count_updates : CountUpdates) : TrieM unit :=
  match root_path with
  | [] => mret tt
  | parent_node :: root_path =>
      let prev_parent_kind := kind parent_node in
      parent_node ← unwrap_result (remove_child parent_node ck);
      let count_updates := apply_update count_updates prev_parent_kind (kind parent_node) in
      let num_children := length (iter_children parent_node) in
      if (num_children =? 1)%nat && negb (is_root parent_node) && negb (is_hybrid parent_node) then
        remove_node (node_key parent_node) Unchanged;;
        let count_updates := apply_update count_updates (kind parent_node) None in
        grandparent ← expect (head root_path);
        grandparent ← replace_with_only_child grandparent parent_node;
        put_node grandparent Unchanged;;
        update_keys (grandparent :: tail root_path) count_updates
      else if negb (is_empty parent_node) then
        put_node parent_node Unchanged;;
        update_keys (parent_node :: root_path) count_updates
      else
        remove_node (node_key parent_node) Unchanged;;
        let count_updates := apply_update count_updates (kind parent_node) None in
        remove_loop (node_key parent_node) root_path count_updates
  end.

(** The node with the key is found: take its value. *)
Definition remove_at (cur_node : TrieNode) (root_path : list TrieNode) : TrieM unit :=
  let k := node_key cur_node in
  let prev_kind := kind cur_node in
  let old := value cur_node in
  let cur_node := set_node_value cur_node None in
  if is_root cur_node || has_children cur_node then
    let num_children := length (iter_children cur_node) in
    if (num_children =? 1)%nat && negb (is_root cur_node) then
      remove_node (node_key cur_node) (old_value old);;
      parent ← expect (head root_path);
      parent ← replace_with_only_child parent cur_node;
      put_node parent Unchanged;;
      update_keys (parent :: tail root_path) (mk_counts 0 (-1) 0)
    else
      put_node cur_node (old_value old);;
      update_keys (cur_node :: root_path) (from_update prev_kind (kind cur_node))
  else
    remove_node k (old_value old);;
    remove_loop k root_path (mk_counts 0 0 (-1)).

Fixpoint remove_descend (fuel : nat) (k : key) (missing_range : range)
    (cur_node : TrieNode) (root_path : list TrieNode) : TrieM unit :=
  match fuel with
  | O => panic
  | S fuel =>
      if negb (is_prefix (node_key cur_node) k) then mret tt
      else if bool_decide (node_key cur_node = k) then remove_at cur_node root_path
      else
        match child_key cur_node k missing_range with
        | Err _ => mret tt
        | Ok ck =>
            child_node ← get_node ck;
            child_node ← expect child_node;
            remove_descend fuel k missing_range child_node (cur_node :: root_path)
        | Panic => panic
        end
  end.

Definition remove_raw (k : key) (missing_range : range) : TrieM unit :=
  root ← get_root;
  cur_node ← expect root;
  remove_descend depth_fuel k missing_range cur_node [].

(** ** The missing part *)

Fixpoint missing_loop (fuel : nat) (k : key) (missing_range : range)
    (node : TrieNode) (root_path : list TrieNode) : TrieM (list TrieNode * CountUpdates * bool) :=
  match fuel with
  | O => panic
  | S fuel =>
      fail_if (negb (is_prefix (node_key node) k)) ChildDoesNotExist;;
      idx ← lift (child_index node k);
      entry ← lift (array_get (children node) idx);
      match entry with
      | None =>
          let prev_kind := kind node in
          node ← lift (put_child_no_hash node k);
          let count_updates := apply_update no_counts prev_kind (kind node) in
          put_node node Unchanged;;
          mret (node :: root_path, count_updates, true)
      | Some c =>
          ck ← ok_or (checked_add (node_key node) (suffix c)) WrongPrefix;
          let common_prefix := lcp ck k in
          if negb (is_within_complete_part common_prefix missing_range) then
            node ← lift (put_child node ck 0);
            put_node node Unchanged;;
            mret (node :: root_path, no_counts, false)
          else if bool_decide (common_prefix = ck) then
            child_node ← get_node ck;
            child_node ← expect child_node;
            missing_loop fuel k missing_range child_node (node :: root_path)
          else
            new_parent ← lift (put_child (new_empty common_prefix) ck (child_hash c));
            new_parent ← lift (put_child_no_hash new_parent k);
            put_node new_parent OldNone;;
            mret (new_parent :: node :: root_path, mk_counts 1 0 0, true)
      end
  end.

(** Whether a new stump has been added. *)
Definition update_within_missing_part_raw (k : key) (missing_range : range) : TrieM bool :=
  fail_if (bool_decide (k = [])) (InvalidChunk DiffKeyIsRoot);;
  root ← get_root;
  node ← expect root;
  '(root_path, count_updates, new_stump) ← missing_loop depth_fuel k missing_range node [];
  update_keys root_path count_updates;;
  mret new_stump.
Definition update_within_missing_part (k : key) : TrieM unit :=
  missing_range ← get_missing_range;
  _ ← update_within_missing_part_raw k missing_range;
  mret tt.

(** ** Entry points; values are serialized *)

Definition trie_put (k : key) (v : list Z) : TrieM unit :=
  missing_range ← get_missing_range;
  if is_within_complete_part k missing_range then put_raw k v missing_range
  else _ ← update_within_missing_part_raw k missing_range; mret tt.

Definition trie_remove (k : key) : TrieM unit :=
  missing_range ← get_missing_range;
  if is_within_complete_part k missing_range then remove_raw k missing_range
  else
    r ← catch (update_within_missing_part_raw k missing_range);
    _ ← unwrap_result r;
    mret tt.

(** ** Hashes *)

(** One child of the node [k]; [update] updates the hashes below it. *)
Definition update_entry (update : key -> TrieM Z) (k : key) (missing_range : range) (entry : option TrieNodeChild)
  : TrieM (option TrieNodeChild) :=
  match entry with
  | None => mret None
  | Some c =>
      if has_hash c then mret (Some c)
      else
        match entry_key c k missing_range with
        | Ok ck =>
            r ← catch (update ck);
            mret (Some match r with Ok h => mk_child (suffix c) h | _ => c end)
        | Err ChildIsStump => mret (Some c)
        | _ => panic
        end
  end.

Fixpoint update_hashes (fuel : nat) (k : key) (missing_range : range) : TrieM Z :=
  match fuel with
  | O => panic
  | S fuel =>
      node ← get_node k;
      node ← expect node;
      if negb (has_children node) then ok_or (hash node) IncompleteTrieError
      else
        new_children ← mapM (update_entry (fun ck => update_hashes fuel ck missing_range) k missing_range) (children node);
        let node := set_children node new_children in
        put_node node Unchanged;;
        ok_or (hash node) IncompleteTrieError
  end.

Definition update_root : TrieM unit :=
  missing_range ← get_missing_range;
  _ ← update_hashes depth_fuel [] missing_range;
  mret tt.

Definition root_hash_assert : TrieM Z :=
  root ← get_root;
  root ← expect root;
  complete ← is_complete;
  assert_that (complete || has_children root);;
  lift (hash_assert root).

Definition root_hash : TrieM (option Z) :=
  root ← get_root;
  root ← expect root;
  complete ← is_complete;
  if negb complete && negb (has_children root) then mret None
  else
    let root_hash := hash root in
    assert_that (bool_decide (is_Some root_hash) || negb complete);;
    mret root_hash.

(** [init] on an empty trie. *)
Definition trie_init (values : list (key * list Z)) : TrieM unit :=
  root ← get_root;
  root ← expect root;
  rd ← expect (root_data root);
  assert_that (bool_decide (incomplete rd = None));;
  assert_that (num_leaves rd =? 0);;
  assert_that (num_hybrids rd =? 0);;
  _ ← mapM (fun item => put_raw item.1 item.2 None) values;
  r ← catch update_root;
  unwrap_result r.

(** ** Diffs *)

Fixpoint apply_loop (missing_range : range) (entries : list (key * option (list Z))) (result : RevertTrieDiff)
  : TrieM RevertTrieDiff :=
  match entries with
  | [] => mret result
  | (k, v) :: entries =>
      fail_if (bool_decide (k = [])) (InvalidChunk DiffKeyIsRoot);;
      if is_within_complete_part k missing_range then
        old ← get_raw k;
        match v with
        | Some v => put_raw k v missing_range
        | None => remove_raw k missing_range
        end;;
        assert_that (bool_decide (result !! k = None));;
        apply_loop missing_range entries (<[k := known_value old]> result)
      else
        new_stump ← update_within_missing_part_raw k missing_range;
        assert_that (bool_decide (result !! k = None));;
        apply_loop missing_range entries (<[k := unknown_value new_stump]> result)
  end.
Definition apply_diff (diff : TrieDiff) : TrieM RevertTrieDiff :=
  missing_range ← get_missing_range;
  apply_loop missing_range (btree_iter diff) ∅.

Fixpoint revert_loop (missing_range : range) (entries : list (key * RevertDiffValue)) : TrieM unit :=
  match entries with
  | [] => mret tt
  | (k, v) :: entries =>
      (if is_within_complete_part k missing_range then
         match v with
         | RevertPut v => put_raw k v missing_range
         | RevertRemove => remove_raw k missing_range
         | UpdateStump => panic
         end
       else
         match v with
         | RevertPut _ => panic
         | RevertRemove | UpdateStump => _ ← update_within_missing_part_raw k missing_range; mret tt
         end);;
      revert_loop missing_range entries
  end.
Definition revert_diff (diff : RevertTrieDiff) : TrieM unit :=
  missing_range ← get_missing_range;
  revert_loop missing_range (rev (btree_iter diff)).
End Trie.
