(* ===== verification/TrieInv.v ===== *)
(** * The shape of the Merkle radix trie

    The invariant of the table: keys extend along the entries of the nodes, every
    entry leads to a stored node or into the missing part, every stored node below
    the root has a parent and carries a value or at least two children, an entry
    with a hash has the hash of its node, and the root counts the nodes.  The
    structural steps of the operations (adding a leaf, putting a node between two
    others, removing a leaf, merging a node with its only child, marking the path
    to a key as changed) preserve it. *)

From S2P Require Import Prelude Coin AccountTypes Codec TxContent Block KeyNibbles TrieNode.
From S2P Require Import Trie.

(** ** Prefixes *)

Lemma prefix_strict (p c : key) : p `prefix_of` c -> p <> c -> exists i s, c = p ++ i :: s.
Proof. intros [[|i s] ->] H; [by rewrite app_nil_r in H|eauto]. Qed.
Lemma strict_prefix (p : key) i s : p `prefix_of` p ++ i :: s.
Proof. by exists (i :: s). Qed.
Lemma not_prefix_longer (p : key) i s : ~ p ++ i :: s `prefix_of` p.
Proof. intros H%prefix_length. rewrite length_app in H. simpl in H. lia. Qed.

(** Two prefixes of the same key. *)
Lemma prefix_cases (a b c : key) : a `prefix_of` c -> b `prefix_of` c ->
  a = b \/ (exists i s, b = a ++ i :: s) \/ (exists i s, a = b ++ i :: s).
Proof.
  intros Ha Hb. destruct (decide (a = b)) as [|Hne]; [by left|].
  destruct (prefix_weak_total a b c Ha Hb); right; [left|right]; by apply prefix_strict.
Qed.

Lemma prefix_app_cons (p : key) i s j t : p ++ i :: s `prefix_of` p ++ j :: t -> i = j /\ s `prefix_of` t.
Proof. intros H%prefix_app_inv. split; [by eapply prefix_cons_inv_1|by eapply prefix_cons_inv_2]. Qed.

(** ** Entries *)

Implicit Types (db : gmap key TrieNode) (r : range) (n m : TrieNode) (k p : key).

Definition entry (n : TrieNode) (i : nat) (c : TrieNodeChild) : Prop := children n !! i = Some (Some c).

Definition hash_ok (h : Z) : Prop := 0 <= h < 256 ^ 32.

(** A node with the key [k] whose entries extend it. *)
Record node_wf (k : key) (n : TrieNode) : Prop := {
  nw_key : node_key n = k;
  nw_key_ok : key_ok k;
  nw_length : length (children n) = 16%nat;
  nw_entry : forall i c, entry n i c ->
    (exists s, suffix c = i :: s) /\ key_ok (k ++ suffix c) /\ hash_ok (child_hash c);
}.

Record wf (r : range) (db : gmap key TrieNode) : Prop := {
  wf_node : forall k n, db !! k = Some n -> node_wf k n;
  wf_root : exists n, db !! [] = Some n /\ value n = None /\ is_Some (root_data n);
  wf_non_root : forall k n, db !! k = Some n -> k <> [] ->
    root_data n = None /\ range_contains r k = false;
  wf_closed : forall k n i c, db !! k = Some n -> entry n i c ->
    range_contains r (k ++ suffix c) = false -> is_Some (db !! (k ++ suffix c));
  wf_parent : forall k n, db !! k = Some n -> k <> [] ->
    exists p m i c, db !! p = Some m /\ entry m i c /\ k = p ++ suffix c;
}.

(** The keys that some entry leads to. *)
Definition target (db : gmap key TrieNode) (k : key) : Prop :=
  exists p m i c, db !! p = Some m /\ entry m i c /\ k = p ++ suffix c.

Section Shape.
Context {r : range} {db : gmap key TrieNode} (Hwf : wf r db).

Lemma entry_suffix k n i c : db !! k = Some n -> entry n i c -> exists s, suffix c = i :: s.
Proof. intros Hn Hc. destruct (nw_entry _ _ (wf_node _ _ Hwf _ _ Hn) _ _ Hc) as (H & _). exact H. Qed.

Lemma stored_target k n : db !! k = Some n -> k <> [] -> target db k.
Proof. intros Hn Hk. exact (wf_parent _ _ Hwf _ _ Hn Hk). Qed.

(** A stored node leads to every node below it. *)
Lemma entry_towards c : target db c -> forall p m i s, db !! p = Some m -> c = p ++ i :: s ->
  exists ch, entry m i ch /\ p ++ suffix ch `prefix_of` c.
Proof.
  induction c as [c IH] using (induction_ltof1 _ length). unfold ltof in IH.
  intros (q & n & j & ch & Hq & Hch & Ec) p m i s Hp Ep.
  destruct (entry_suffix _ _ _ _ Hq Hch) as [t Et].
  destruct (prefix_cases p q c) as [->|[(i' & s' & Eq)|(i' & s' & Eq)]].
  - rewrite Ep. apply strict_prefix.
  - rewrite Ec, Et. apply strict_prefix.
  - rewrite Hq in Hp. injection Hp as <-. rewrite Ec, Et in Ep. apply app_inv_head in Ep. injection Ep as -> <-.
    exists ch. split; [done|]. by rewrite Ec.
  - assert (i' = i) as ->.
    { rewrite Ec, Eq, <-app_assoc in Ep. by apply app_inv_head in Ep as [= ->]. }
    destruct (IH q) with (p := p) (m := m) (i := i) (s := s') as (ch' & Hch' & Hpre); [| |done|done|].
    + rewrite Ec, Et, length_app. simpl. lia.
    + eapply stored_target; [done|]. rewrite Eq. by destruct p.
    + exists ch'. split; [done|]. rewrite Ec. by apply prefix_app_r.
  - exfalso. destruct (IH p) with (p := q) (m := n) (i := i') (s := s') as (ch' & Hch' & Hpre); [| |done|done|].
    + rewrite Ep, length_app. simpl. lia.
    + eapply stored_target; [done|]. rewrite Eq. by destruct q.
    + assert (i' = j) as ->.
      { rewrite Ec, Et in Ep. rewrite Eq, <-app_assoc in Ep. by apply app_inv_head in Ep as [= ->]. }
      unfold entry in *. rewrite Hch in Hch'. injection Hch' as <-. rewrite <-Ec, Ep in Hpre.
      by apply not_prefix_longer in Hpre.
Qed.

Lemma entry_towards_node p m k n i s : db !! p = Some m -> db !! k = Some n -> k = p ++ i :: s ->
  exists ch, entry m i ch /\ p ++ suffix ch `prefix_of` k.
Proof.
  intros Hp Hk E. eapply entry_towards; [|done|done]. eapply stored_target; [done|]. rewrite E. by destruct p.
Qed.

(** Nothing is stored between a node and the target of its entry, nor where it has
    no entry. *)
Lemma nothing_between p m i c k n s : db !! p = Some m -> entry m i c -> db !! k = Some n ->
  k = p ++ i :: s -> p ++ suffix c `prefix_of` k.
Proof.
  intros Hp Hc Hk E. destruct (entry_towards_node _ _ _ _ _ _ Hp Hk E) as (ch & Hch & Hpre).
  unfold entry in *. by simplify_eq.
Qed.
Lemma nothing_below_empty p m i k n s : db !! p = Some m -> children m !! i = Some None -> db !! k = Some n ->
  k = p ++ i :: s -> False.
Proof.
  intros Hp Hc Hk E. destruct (entry_towards_node _ _ _ _ _ _ Hp Hk E) as (ch & Hch & Hpre).
  unfold entry in *. by simplify_eq.
Qed.

(** An entry is determined by its target. *)
Lemma parent_unique p m i c p' m' i' c' : db !! p = Some m -> entry m i c -> db !! p' = Some m' -> entry m' i' c' ->
  p ++ suffix c = p' ++ suffix c' -> p = p' /\ i = i'.
Proof.
  intros Hp Hc Hp' Hc' E. destruct (entry_suffix _ _ _ _ Hp Hc) as [s Es], (entry_suffix _ _ _ _ Hp' Hc') as [s' Es'].
  destruct (prefix_cases p p' (p ++ suffix c)) as [->|[(j & t & Ej)|(j & t & Ej)]].
  - by apply prefix_app_r.
  - rewrite E. by apply prefix_app_r.
  - split; [done|]. apply app_inv_head in E. congruence.
  - exfalso. assert (i = j) as ->.
    { rewrite Es, Ej, Es', <-app_assoc in E. by apply app_inv_head in E as [= ->]. }
    pose proof (nothing_between _ _ _ _ _ _ _ Hp Hc Hp' Ej) as Hpre. rewrite E, Es' in Hpre.
    by apply not_prefix_longer in Hpre.
  - exfalso. assert (i' = j) as ->.
    { rewrite Es, Ej, Es', <-app_assoc in E. by apply app_inv_head in E as [= ->]. }
    pose proof (nothing_between _ _ _ _ _ _ _ Hp' Hc' Hp Ej) as Hpre. rewrite <-E, Es in Hpre.
    by apply not_prefix_longer in Hpre.
Qed.
End Shape.

(** ** Writing one entry of a node *)

Definition with_entry (n : TrieNode) (i : nat) (c : option TrieNodeChild) : TrieNode :=
  set_children n (<[i := c]> (children n)).

Lemma entry_with_eq n i c c' : entry (with_entry n i c) i c' -> c = Some c'.
Proof.
  unfold entry. cbn. intros H. destruct (decide (i < length (children n))%nat).
  - rewrite list_lookup_insert_eq in H by done. congruence.
  - rewrite lookup_ge_None_2 in H by (rewrite length_insert; lia). done.
Qed.
Lemma entry_with_ne n i j c c' : i <> j -> entry (with_entry n i c) j c' <-> entry n j c'.
Proof. intros H. unfold entry. cbn. by rewrite list_lookup_insert_ne. Qed.
Lemma entry_with_new n i c : (i < length (children n))%nat -> entry (with_entry n i (Some c)) i c.
Proof. intros H. unfold entry. cbn. by rewrite list_lookup_insert_eq. Qed.
Lemma entry_with n i c j c' : entry (with_entry n i c) j c' -> (j = i /\ c = Some c') \/ (j <> i /\ entry n j c').
Proof.
  destruct (decide (j = i)) as [->|Hne]; intros H; [left|right].
  - split; [done|]. by eapply entry_with_eq.
  - split; [done|]. by apply entry_with_ne in H.
Qed.

Lemma nibble_index k n i s : node_wf k n -> key_ok (k ++ i :: s) -> (i < length (children n))%nat.
Proof.
  intros Hn [Hk _]. rewrite (nw_length _ _ Hn). apply Forall_app in Hk as [_ Hk]. by apply Forall_cons in Hk as [? _].
Qed.

Lemma key_child_index_app (k : key) i s : key_child_index k (k ++ i :: s) = Ok i.
Proof.
  unfold key_child_index, is_prefix. rewrite bool_decide_true by apply strict_prefix. cbn [negb orb].
  rewrite length_app. cbn [length]. destruct (Nat.eqb_spec (length k) (length k + S (length s))); [lia|].
  rewrite lookup_app_r by lia. by rewrite Nat.sub_diag.
Qed.
Lemma drop_app_exact (k : key) t : drop (length k) (k ++ t) = t.
Proof. apply drop_app_length. Qed.

Lemma put_child_app k n i s h : node_wf k n -> key_ok (k ++ i :: s) ->
  put_child n (k ++ i :: s) h = Ok (with_entry n i (Some (mk_child (i :: s) h))).
Proof.
  intros Hn Hk. unfold put_child, child_index. rewrite (nw_key _ _ Hn), key_child_index_app.
  cbn [mbind outcome_bind]. unfold array_set.
  destruct (lookup_lt_is_Some_2 (children n) i) as [e ->]; [by eapply nibble_index|].
  cbn [unwrap mbind outcome_bind]. by rewrite drop_app_exact.
Qed.
Lemma remove_child_app k n i s : node_wf k n -> key_ok (k ++ i :: s) ->
  remove_child n (k ++ i :: s) = Ok (with_entry n i None).
Proof.
  intros Hn Hk. unfold remove_child, child_index. rewrite (nw_key _ _ Hn), key_child_index_app.
  cbn [mbind outcome_bind]. unfold array_set.
  destruct (lookup_lt_is_Some_2 (children n) i) as [e ->]; [by eapply nibble_index|]. done.
Qed.

Lemma node_wf_with k n i s h : node_wf k n -> key_ok (k ++ i :: s) -> hash_ok h ->
  node_wf k (with_entry n i (Some (mk_child (i :: s) h))).
Proof.
  intros [H1 H2 H3 H4] Hk Hh. split; [done|done|cbn; by rewrite length_insert|].
  intros j c [[-> [= <-]]|[Hne Hc]]%entry_with; [|by apply H4]. cbn. eauto.
Qed.
Lemma node_wf_without k n i : node_wf k n -> node_wf k (with_entry n i None).
Proof.
  intros [H1 H2 H3 H4]. split; [done|done|cbn; by rewrite length_insert|].
  intros j c [[-> [=]]|[Hne Hc]]%entry_with. by apply H4.
Qed.

Lemma no_children_entry i c : NO_CHILDREN !! i = Some (Some c) -> False.
Proof. unfold NO_CHILDREN. intros [H _]%lookup_replicate. done. Qed.
Lemma node_wf_leaf k v : key_ok k -> node_wf k (new_leaf k v).
Proof. intros Hk. split; [done|done|done|]. by intros i c H%no_children_entry. Qed.
Lemma node_wf_empty k : key_ok k -> node_wf k (new_empty k).
Proof. intros Hk. split; [done|done|done|]. by intros i c H%no_children_entry. Qed.
Lemma hash_ok_0 : hash_ok 0.
Proof. unfold hash_ok. lia. Qed.

(** ** Structural steps *)

Section Steps.
Context {r : range} {db : gmap key TrieNode} (Hwf : wf r db).

(** The same entries, up to hashes. *)
Record same_shape (n n' : TrieNode) : Prop := {
  ss_wf : forall k, node_wf k n -> node_wf k n';
  ss_root : is_Some (root_data n) <-> is_Some (root_data n');
  ss_value : is_Some (root_data n) -> value n = None -> value n' = None;
  ss_entry : forall i c', entry n' i c' -> exists c, entry n i c /\ suffix c = suffix c';
  ss_entry' : forall i c, entry n i c -> exists c', entry n' i c' /\ suffix c = suffix c';
}.

Lemma wf_shape (db' : gmap key TrieNode) : (forall k, match db !! k, db' !! k with
    | Some n, Some n' => same_shape n n' | None, None => True | _, _ => False end) -> wf r db'.
Proof.
  intros Hsh.
  assert (H' : forall k n', db' !! k = Some n' -> exists n, db !! k = Some n /\ same_shape n n').
  { intros k n' Hn'. specialize (Hsh k). rewrite Hn' in Hsh. destruct (db !! k); [eauto|done]. }
  assert (H : forall k n, db !! k = Some n -> exists n', db' !! k = Some n' /\ same_shape n n').
  { intros k n Hn. specialize (Hsh k). rewrite Hn in Hsh. destruct (db' !! k); [eauto|done]. }
  split.
  - intros k n' (n & Hn & Hs)%H'. apply (ss_wf _ _ Hs). by eapply wf_node.
  - destruct (wf_root _ _ Hwf) as (n & Hn & Hv & Hr). destruct (H _ _ Hn) as (n' & Hn' & Hs).
    exists n'. split; [done|]. split; [by eapply ss_value|by apply (ss_root _ _ Hs)].
  - intros k n' (n & Hn & Hs)%H' Hk. destruct (wf_non_root _ _ Hwf _ _ Hn Hk) as [Hr Hc]. split; [|done].
    destruct (root_data n') eqn:E; [|done]. destruct (ss_root _ _ Hs) as [_ Hx]. rewrite Hr in Hx.
    destruct Hx as [? [=]]. by rewrite E.
  - intros k n' i c' (n & Hn & Hs)%H' Hc' Hr. destruct (ss_entry _ _ Hs _ _ Hc') as (c & Hc & Es).
    rewrite <-Es in Hr |- *. destruct (wf_closed _ _ Hwf _ _ _ _ Hn Hc Hr) as [m Hm].
    destruct (H _ _ Hm) as (m' & -> & _). eauto.
  - intros k n' (n & Hn & Hs)%H' Hk. destruct (wf_parent _ _ Hwf _ _ Hn Hk) as (p & m & i & c & Hp & Hc & ->).
    destruct (H _ _ Hp) as (m' & Hm' & Hs'). destruct (ss_entry' _ _ Hs' _ _ Hc) as (c' & Hc' & Es).
    exists p, m', i, c'. by rewrite Es.
Qed.

Lemma same_shape_refl n : same_shape n n.
Proof. split; [done|done|done|eauto|eauto]. Qed.

Lemma wf_update k n n' : db !! k = Some n -> same_shape n n' -> wf r (<[k := n']> db).
Proof.
  intros Hn Hs. apply wf_shape. intros k'. destruct (decide (k' = k)) as [->|Hne].
  - by rewrite lookup_insert_eq, Hn.
  - rewrite lookup_insert_ne by done. destruct (db !! k'); [apply same_shape_refl|done].
Qed.

Lemma entry_i_none m i j c : children m !! i = Some None -> entry m j c -> j <> i.
Proof. unfold entry. intros H1 H2 ->. congruence. Qed.

Lemma app_cons_not_nil (p : key) i s : p ++ i :: s <> [].
Proof. by destruct p. Qed.
Lemma app_cons_ne (p : key) i s : p ++ i :: s <> p.
Proof. intros E. apply (not_prefix_longer p i s). by rewrite E. Qed.

(** A root that stays a root. *)
Lemma wf_root_with (db' : gmap key TrieNode) p m i oc : db !! p = Some m -> db' !! p = Some (with_entry m i oc) ->
  (p <> [] -> db' !! [] = db !! []) -> exists n, db' !! [] = Some n /\ value n = None /\ is_Some (root_data n).
Proof.
  intros Hp Hp' Ho. destruct (wf_root _ _ Hwf) as (n & Hn & Hv & Hr). destruct (decide (p = [])) as [->|Hne].
  - eexists. split; [done|]. by simplify_eq.
  - exists n. by rewrite Ho.
Qed.

(** A new entry where there was none, to a new node without entries or, in the missing
    part, to nothing. *)
Lemma wf_add_entry (db' : gmap key TrieNode) p m i s h :
  db !! p = Some m -> children m !! i = Some None -> key_ok (p ++ i :: s) -> hash_ok h ->
  db' !! p = Some (with_entry m i (Some (mk_child (i :: s) h))) ->
  (if range_contains r (p ++ i :: s) then db' !! (p ++ i :: s) = None
   else exists n, db' !! (p ++ i :: s) = Some n /\ node_wf (p ++ i :: s) n /\
     root_data n = None /\ forall j c, ~ entry n j c) ->
  (forall k, k <> p -> k <> p ++ i :: s -> db' !! k = db !! k) -> wf r db'.
Proof.
  intros Hp Hi Hk Hh Hp' Hc' Ho. pose proof (wf_node _ _ Hwf _ _ Hp) as Hm.
  pose proof (app_cons_ne p i s) as Hne. pose proof (app_cons_not_nil p i s) as Hnn.
  assert (Hin : (i < length (children m))%nat) by (by eapply nibble_index).
  assert (Hfresh : forall q n j c, db !! q = Some n -> entry n j c -> q ++ suffix c <> p ++ i :: s).
  { intros q n j c Hq Hc E. destruct (entry_towards Hwf (p ++ i :: s)) with (p := p) (m := m) (i := i) (s := s)
      as (ch & Hch & _); [|done|done|by unfold entry in Hch; congruence]. exists q, n, j, c. by rewrite E. }
  assert (Hold : forall k, is_Some (db !! k) -> is_Some (db' !! k)).
  { intros k [n Hn]. destruct (decide (k = p)) as [->|]; [by rewrite Hp'|].
    destruct (decide (k = p ++ i :: s)) as [->|]; [|by rewrite Ho].
    exfalso. by eapply (nothing_below_empty Hwf p m i _ n s). }
  split.
  - intros k n Hn. destruct (decide (k = p)) as [->|]; [rewrite Hp' in Hn; injection Hn as <-; by apply node_wf_with|].
    destruct (decide (k = p ++ i :: s)) as [->|]; [|rewrite Ho in Hn by done; by eapply wf_node].
    destruct (range_contains r _); [congruence|]. destruct Hc' as (n' & Hn' & Hw & _). congruence.
  - eapply wf_root_with; [done|done|]. intros. by apply Ho.
  - intros k n Hn Hkn. destruct (decide (k = p)) as [->|].
    { rewrite Hp' in Hn; injection Hn as <-. by apply (wf_non_root _ _ Hwf p m). }
    destruct (decide (k = p ++ i :: s)) as [->|]; [|rewrite Ho in Hn by done; by eapply wf_non_root].
    destruct (range_contains r _); [congruence|]. destruct Hc' as (n' & Hn' & Hw & Hr & _). split; [congruence|done].
  - intros k n j c Hn Hc Hr. destruct (decide (k = p)) as [->|].
    { rewrite Hp' in Hn. injection Hn as <-. apply entry_with in Hc as [[-> [= <-]]|[Hj Hc]].
      - cbn in Hr |- *. rewrite Hr in Hc'. destruct Hc' as (n' & -> & _). eauto.
      - apply Hold. by eapply wf_closed. }
    destruct (decide (k = p ++ i :: s)) as [->|]; [|rewrite Ho in Hn by done; apply Hold; by eapply wf_closed].
    destruct (range_contains r (p ++ i :: s)); [congruence|]. destruct Hc' as (n' & Hn' & Hw & _ & Hno).
    simplify_eq. by apply Hno in Hc.
  - intros k n Hn Hkn. destruct (decide (k = p ++ i :: s)) as [->|Hkc].
    { eexists p, _, i, (mk_child (i :: s) h). split; [done|]. split; [by apply entry_with_new|done]. }
    assert (exists n0, db !! k = Some n0) as [n0 Hn0].
    { destruct (decide (k = p)) as [->|]; [by exists m|]. rewrite Ho in Hn by done. eauto. }
    destruct (wf_parent _ _ Hwf _ _ Hn0 Hkn) as (q & m' & j & c & Hq & Hc & E).
    destruct (decide (q = p)) as [->|].
    + simplify_eq. eexists p, _, j, c. split; [done|]. split; [|done].
      apply entry_with_ne; [|done]. apply not_eq_sym. by eapply entry_i_none.
    + exists q, m', j, c. split; [|done]. rewrite Ho; [done|done|]. intros ->.
      by eapply (nothing_below_empty Hwf p m i _ m' s).
Qed.

(** A new node [x] between [p] and the target of its entry. *)
Lemma wf_insert_between (db' : gmap key TrieNode) p m i s j t h h' hx nx :
  db !! p = Some m -> entry m i (mk_child (i :: s ++ j :: t) h) ->
  range_contains r (p ++ i :: s) = false -> hash_ok hx -> hash_ok h' ->
  node_wf (p ++ i :: s) nx -> root_data nx = None -> entry nx j (mk_child (j :: t) h') ->
  (forall j' c, entry nx j' c -> j' = j) ->
  db' !! p = Some (with_entry m i (Some (mk_child (i :: s) hx))) ->
  db' !! (p ++ i :: s) = Some nx ->
  (forall k, k <> p -> k <> p ++ i :: s -> db' !! k = db !! k) -> wf r db'.
Proof.
  intros Hp Hi Hr Hhx Hh' Hnx Hrx Hj Honly Hp' Hx' Ho. pose proof (wf_node _ _ Hwf _ _ Hp) as Hm.
  pose proof (app_cons_ne p i s) as Hne. pose proof (app_cons_not_nil p i s) as Hnn.
  pose proof (nw_key_ok _ _ Hnx) as Hk.
  assert (Hin : (i < length (children m))%nat) by (by eapply nibble_index).
  assert (Hfresh : db !! (p ++ i :: s) = None).
  { destruct (db !! (p ++ i :: s)) as [n|] eqn:E; [|done]. exfalso.
    pose proof (nothing_between Hwf _ _ _ _ _ _ _ Hp Hi E eq_refl) as Hpre. cbn in Hpre.
    rewrite app_comm_cons, app_assoc in Hpre. by apply not_prefix_longer in Hpre. }
  assert (Hold : forall k, is_Some (db !! k) -> is_Some (db' !! k)).
  { intros k [n Hn]. destruct (decide (k = p)) as [->|]; [by rewrite Hp'|].
    destruct (decide (k = p ++ i :: s)) as [->|]; [congruence|]. by rewrite Ho. }
  assert (Hsame : p ++ i :: s ++ j :: t = (p ++ i :: s) ++ j :: t) by (by rewrite <-app_assoc).
  split.
  - intros k n Hn. destruct (decide (k = p)) as [->|]; [rewrite Hp' in Hn; injection Hn as <-; by apply node_wf_with|].
    destruct (decide (k = p ++ i :: s)) as [->|]; [congruence|]. rewrite Ho in Hn by done. by eapply wf_node.
  - eapply wf_root_with; [done|done|]. intros. by apply Ho.
  - intros k n Hn Hkn. destruct (decide (k = p)) as [->|].
    { rewrite Hp' in Hn; injection Hn as <-. by apply (wf_non_root _ _ Hwf p m). }
    destruct (decide (k = p ++ i :: s)) as [->|]; [split; [congruence|done]|].
    rewrite Ho in Hn by done. by eapply wf_non_root.
  - intros k n j' c Hn Hc Hrc. destruct (decide (k = p)) as [->|].
    { rewrite Hp' in Hn. injection Hn as <-. apply entry_with in Hc as [[-> [= <-]]|[Hj' Hc]].
      - cbn. by rewrite Hx'.
      - apply Hold. by eapply wf_closed. }
    destruct (decide (k = p ++ i :: s)) as [->|]; [|rewrite Ho in Hn by done; apply Hold; by eapply wf_closed].
    rewrite Hx' in Hn. injection Hn as <-. pose proof (Honly _ _ Hc) as ->. unfold entry in *. simplify_eq. cbn in *.
    rewrite <-Hsame in Hrc |- *. apply Hold. by apply (wf_closed _ _ Hwf _ _ _ _ Hp Hi).
  - intros k n Hn Hkn. destruct (decide (k = p ++ i :: s)) as [->|Hkc].
    { eexists p, _, i, (mk_child (i :: s) hx). split; [done|]. split; [by apply entry_with_new|done]. }
    assert (exists n0, db !! k = Some n0) as [n0 Hn0].
    { destruct (decide (k = p)) as [->|]; [by exists m|]. rewrite Ho in Hn by done. eauto. }
    destruct (wf_parent _ _ Hwf _ _ Hn0 Hkn) as (q & m' & j' & c & Hq & Hc & E).
    destruct (decide (q = p)) as [->|].
    + rewrite Hp in Hq. injection Hq as <-. destruct (decide (j' = i)) as [->|Hji].
      * unfold entry in Hc, Hi. rewrite Hi in Hc. injection Hc as <-. cbn in E.
        exists (p ++ i :: s), nx, j, (mk_child (j :: t) h'). split; [done|]. split; [done|]. cbn. by rewrite E, Hsame.
      * eexists p, _, j', c. split; [done|]. split; [|done]. by apply entry_with_ne.
    + exists q, m', j', c. split; [|done]. rewrite Ho; [done|done|]. intros ->. congruence.
Qed.

(** An entry to a node without entries, or to nothing, is removed with the node. *)
Lemma wf_remove_entry (db' : gmap key TrieNode) p m i ch :
  db !! p = Some m -> entry m i ch ->
  (forall n j c, db !! (p ++ suffix ch) = Some n -> ~ entry n j c) ->
  db' !! p = Some (with_entry m i None) -> db' !! (p ++ suffix ch) = None ->
  (forall k, k <> p -> k <> p ++ suffix ch -> db' !! k = db !! k) -> wf r db'.
Proof.
  intros Hp Hi Hno Hp' Hc' Ho. pose proof (wf_node _ _ Hwf _ _ Hp) as Hm.
  assert (Hback : forall k n, db' !! k = Some n -> k <> p -> db !! k = Some n /\ k <> p ++ suffix ch).
  { intros k n Hn Hkp. assert (k <> p ++ suffix ch) by (intros ->; congruence). by rewrite Ho in Hn. }
  split.
  - intros k n Hn. destruct (decide (k = p)) as [->|]; [rewrite Hp' in Hn; injection Hn as <-; by apply node_wf_without|].
    apply Hback in Hn as [Hn _]; [|done]. by eapply wf_node.
  - eapply wf_root_with; [done|done|]. intros. apply Ho; [done|].
    destruct (entry_suffix Hwf _ _ _ _ Hp Hi) as [s ->]. apply not_eq_sym, app_cons_not_nil.
  - intros k n Hn Hkn. destruct (decide (k = p)) as [->|].
    { rewrite Hp' in Hn; injection Hn as <-. by apply (wf_non_root _ _ Hwf p m). }
    apply Hback in Hn as [Hn _]; [|done]. by eapply wf_non_root.
  - intros k n j c Hn Hc Hr.
    assert (exists n0, db !! k = Some n0 /\ entry n0 j c /\ (k = p -> j <> i)) as (n0 & Hn0 & Hc0 & Hji).
    { destruct (decide (k = p)) as [->|Hkp]; [|apply Hback in Hn as [Hn _]; [exists n; by repeat split|done]].
      rewrite Hp' in Hn. injection Hn as <-. apply entry_with in Hc as [[_ [=]]|[Hj Hc]]. eauto. }
    destruct (wf_closed _ _ Hwf _ _ _ _ Hn0 Hc0 Hr) as [t Ht].
    destruct (decide (k ++ suffix c = p)) as [E|Hne]; [rewrite E, Hp'; eauto|].
    rewrite Ho; [by rewrite Ht|done|]. intros E.
    destruct (parent_unique Hwf _ _ _ _ _ _ _ _ Hn0 Hc0 Hp Hi E) as [-> ->]. by apply Hji.
  - intros k n Hn Hkn. assert (exists n0, db !! k = Some n0 /\ k <> p ++ suffix ch) as (n0 & Hn0 & Hkc).
    { destruct (decide (k = p)) as [->|Hkp]; [|apply Hback in Hn as [Hn ?]; by eauto]. exists m. split; [done|].
      intros E. destruct (entry_suffix Hwf _ _ _ _ Hp Hi) as [s Es]. rewrite Es in E. by apply eq_sym, app_cons_ne in E. }
    destruct (wf_parent _ _ Hwf _ _ Hn0 Hkn) as (q & m' & j & c & Hq & Hc & E).
    destruct (decide (q = p)) as [->|].
    + simplify_eq. eexists p, _, j, c. split; [done|]. split; [|done].
      apply entry_with_ne; [|done]. intros ->. unfold entry in *. congruence.
    + exists q, m', j, c. split; [|done]. rewrite Ho; [done|done|]. intros ->. by eapply Hno.
Qed.

(** A node with a single entry is merged with its child. *)
Lemma wf_merge (db' : gmap key TrieNode) p m i chx nx j cc h :
  db !! p = Some m -> entry m i chx -> db !! (p ++ suffix chx) = Some nx -> entry nx j cc ->
  (forall j' c, entry nx j' c -> j' = j) -> hash_ok h ->
  db' !! p = Some (with_entry m i (Some (mk_child (suffix chx ++ suffix cc) h))) ->
  db' !! (p ++ suffix chx) = None ->
  (forall k, k <> p -> k <> p ++ suffix chx -> db' !! k = db !! k) -> wf r db'.
Proof.
  intros Hp Hi Hx Hj Honly Hh Hp' Hx' Ho. pose proof (wf_node _ _ Hwf _ _ Hp) as Hm.
  destruct (entry_suffix Hwf _ _ _ _ Hp Hi) as [s Es].
  destruct (nw_entry _ _ (wf_node _ _ Hwf _ _ Hx) _ _ Hj) as (_ & Hcok & _). rewrite <-app_assoc in Hcok.
  rewrite Es in *. cbn [app] in *. set (x := p ++ i :: s) in *.
  assert (Hc : p ++ i :: s ++ suffix cc = x ++ suffix cc) by (unfold x; by rewrite <-app_assoc).
  pose proof (app_cons_ne p i s) as Hne. fold x in Hne. destruct (entry_suffix Hwf _ _ _ _ Hx Hj) as [t Et].
  assert (Hin : (i < length (children m))%nat) by (by eapply nibble_index).
  assert (Hback : forall k n, db' !! k = Some n -> k <> p -> db !! k = Some n /\ k <> x).
  { intros k n Hn Hkp. assert (k <> x) by (intros ->; congruence). by rewrite Ho in Hn. }
  assert (Hcx : x ++ suffix cc <> x) by (rewrite Et; apply app_cons_ne).
  assert (Hcp : x ++ suffix cc <> p) by (rewrite <-Hc; apply app_cons_ne).
  split.
  - intros k n Hn. destruct (decide (k = p)) as [->|]; [rewrite Hp' in Hn; injection Hn as <-; by apply node_wf_with|].
    apply Hback in Hn as [Hn _]; [|done]. by eapply wf_node.
  - eapply (wf_root_with db' p m); [done|done|]. intros. apply Ho; [done|]. apply not_eq_sym, app_cons_not_nil.
  - intros k n Hn Hkn. destruct (decide (k = p)) as [->|].
    { rewrite Hp' in Hn; injection Hn as <-. by apply (wf_non_root _ _ Hwf p m). }
    apply Hback in Hn as [Hn _]; [|done]. by eapply wf_non_root.
  - assert (Hold : forall q n j' c', db !! q = Some n -> entry n j' c' -> (q = p -> j' <> i) ->
      range_contains r (q ++ suffix c') = false -> is_Some (db' !! (q ++ suffix c'))).
    { intros q n j' c' Hq Hc' Hji Hr. destruct (wf_closed _ _ Hwf _ _ _ _ Hq Hc' Hr) as [t' Ht'].
      destruct (decide (q ++ suffix c' = p)) as [->|]; [by rewrite Hp'|]. rewrite Ho; [by rewrite Ht'|done|].
      intros E. destruct (parent_unique Hwf _ _ _ _ _ _ _ _ Hq Hc' Hp Hi) as [-> ->]; [by rewrite Es, E|]. by apply Hji. }
    intros k n j' c Hn Hc' Hr. destruct (decide (k = p)) as [->|].
    + rewrite Hp' in Hn. injection Hn as <-. apply entry_with in Hc' as [[-> [= <-]]|[Hj' Hc']].
      * cbn in Hr |- *. rewrite Hc in Hr |- *. rewrite Ho by done. by eapply (wf_closed _ _ Hwf x nx j cc).
      * eapply Hold; [done..|by intros _|done].
    + apply Hback in Hn as [Hn ?]; [|done]. by eapply Hold.
  - intros k n Hn Hkn. assert (exists n0, db !! k = Some n0 /\ k <> x) as (n0 & Hn0 & Hkx).
    { destruct (decide (k = p)) as [->|Hkp]; [by exists m|]. apply Hback in Hn as [Hn ?]; by eauto. }
    destruct (wf_parent _ _ Hwf _ _ Hn0 Hkn) as (q & m' & j' & c & Hq & Hc' & E).
    destruct (decide (q = x)) as [->|].
    + rewrite Hx in Hq. injection Hq as <-. pose proof (Honly _ _ Hc') as ->. unfold entry in *. simplify_eq.
      eexists p, _, i, (mk_child (i :: s ++ suffix cc) h). split; [done|].
      split; [by apply entry_with_new|]. cbn. by rewrite Hc.
    + destruct (decide (q = p)) as [->|]; [|exists q, m', j', c; split; [by rewrite Ho|done]].
      simplify_eq. eexists p, _, j', c. split; [done|]. split; [|done].
      apply entry_with_ne; [|done]. intros ->. unfold entry in *. simplify_eq. apply Hkx. by rewrite Es.
Qed.
End Steps.

(** ** Marking the path to a key *)

Definition mark_child (K k : key) (oc : option TrieNodeChild) : option TrieNodeChild :=
  match oc with
  | Some c => if is_prefix (k ++ suffix c) K then Some (mk_child (suffix c) 0) else Some c
  | None => None
  end.
Definition mark_node (K : key) (n : TrieNode) : TrieNode :=
  set_children n (mark_child K (node_key n) <$> children n).
Definition mark (K : key) (db : gmap key TrieNode) : gmap key TrieNode := mark_node K <$> db.

Lemma entry_mark K n i c' : entry (mark_node K n) i c' <->
  exists c, entry n i c /\ mark_child K (node_key n) (Some c) = Some c'.
Proof.
  unfold entry. cbn. rewrite list_lookup_fmap_Some. split.
  - intros ([c|] & Hm & Hc); [|done]. by exists c.
  - intros (c & Hc & Hm). exists (Some c). split; [by rewrite <-Hm|done].
Qed.
Lemma mark_child_suffix K k c c' : mark_child K k (Some c) = Some c' -> suffix c' = suffix c.
Proof. cbn. destruct (is_prefix _ _); by intros [= <-]. Qed.
Lemma same_shape_mark K n : same_shape n (mark_node K n).
Proof.
  split; [|done|done| |].
  - intros k [H1 H2 H3 H4]. split; [done|done|cbn; by rewrite length_fmap|].
    intros i c' (c & Hc & Hm)%entry_mark. destruct (H4 _ _ Hc) as (Hs & Hk & Hh).
    rewrite (mark_child_suffix _ _ _ _ Hm). split; [done|]. split; [done|].
    cbn in Hm. destruct (is_prefix _ _); injection Hm as <-; [apply hash_ok_0|done].
  - intros i c' (c & Hc & Hm)%entry_mark. exists c. by rewrite (mark_child_suffix _ _ _ _ Hm).
  - intros i c Hc. destruct (mark_child K (node_key n) (Some c)) as [c'|] eqn:E.
    + exists c'. rewrite entry_mark. split; [by exists c|]. symmetry. by eapply mark_child_suffix.
    + cbn in E. by destruct (is_prefix _ _).
Qed.
Lemma wf_mark r db K : wf r db -> wf r (mark K db).
Proof.
  intros Hwf. apply (wf_shape Hwf). intros k. unfold mark. rewrite lookup_fmap.
  destruct (db !! k); [apply same_shape_mark|done].
Qed.

Lemma mark_node_ext K K' n n' : node_key n = node_key n' -> root_data n = root_data n' -> value n = value n' ->
  length (children n) = length (children n') ->
  (forall i, mjoin (mark_child K (node_key n) <$> children n !! i) =
             mjoin (mark_child K' (node_key n) <$> children n' !! i)) -> mark_node K n = mark_node K' n'.
Proof.
  intros E1 E2 E3 E4 H. unfold mark_node, set_children. rewrite <-E1, <-E2, <-E3. f_equal.
  apply list_eq_same_length with (length (children n)); [by rewrite length_fmap|by rewrite length_fmap|].
  intros i x y Hi Hx Hy. specialize (H i). apply list_lookup_fmap_Some in Hx as (x0 & -> & Hx), Hy as (y0 & -> & Hy).
  by rewrite Hx, Hy in H.
Qed.
Lemma mark_node_same K K' n :
  (forall i c, entry n i c -> mark_child K (node_key n) (Some c) = mark_child K' (node_key n) (Some c)) ->
  mark_node K n = mark_node K' n.
Proof.
  intros H. apply mark_node_ext; [done..|]. intros i. destruct (children n !! i) as [[c|]|] eqn:E; [|done..].
  cbn [fmap option_fmap option_map mjoin option_join]. by apply (H i).
Qed.
Lemma mark_node_id K n :
  (forall i c, entry n i c -> node_key n ++ suffix c `prefix_of` K -> child_hash c = 0) -> mark_node K n = n.
Proof.
  intros H. unfold mark_node. transitivity (set_children n (children n)); [|by destruct n]. f_equal.
  apply list_eq. intros i. rewrite list_lookup_fmap. destruct (children n !! i) as [[c|]|] eqn:E; [|done..].
  cbn. unfold is_prefix. case_bool_decide as Hp; [|done]. by rewrite <-(H i c E Hp); destruct c.
Qed.

(** The entry towards [kc], without a hash. *)
Definition reset_entry (n : TrieNode) (kc : key) : TrieNode :=
  with_entry n (digit kc (length (node_key n))) (Some (mk_child (drop (length (node_key n)) kc) 0)).

Lemma reset_entry_app k n i s : node_key n = k ->
  reset_entry n (k ++ i :: s) = with_entry n i (Some (mk_child (i :: s) 0)).
Proof.
  intros <-. unfold reset_entry, digit. rewrite lookup_app_r by lia. rewrite Nat.sub_diag. cbn [lookup list_lookup default].
  by rewrite drop_app_exact.
Qed.

Lemma same_shape_with n i c c' : entry n i c -> suffix c = suffix c' -> hash_ok (child_hash c') ->
  same_shape n (with_entry n i (Some c')).
Proof.
  intros Hc Es Hh. assert (Hi : (i < length (children n))%nat) by (by eapply lookup_lt_Some).
  split; [|done|done| |].
  - intros k [H1 H2 H3 H4]. split; [done|done|cbn; by rewrite length_insert|].
    intros j d [[-> [= <-]]|[Hne Hd]]%entry_with; [|by apply H4]. rewrite <-Es.
    by destruct (H4 _ _ Hc) as (? & ? & _).
  - intros j d [[-> [= <-]]|[Hne Hd]]%entry_with; eauto.
  - intros j d Hd. destruct (decide (i = j)) as [->|Hne].
    + exists c'. split; [by apply entry_with_new|]. unfold entry in *. congruence.
    + exists d. split; [by apply entry_with_ne|done].
Qed.

(** ** Paths *)

(** The nodes above [k], the nearest first. *)
Inductive path_to (db : gmap key TrieNode) : list TrieNode -> key -> Prop :=
  | path_nil : path_to db [] []
  | path_cons n i c path :
      path_to db path (node_key n) -> db !! node_key n = Some n -> node_wf (node_key n) n ->
      is_root n = bool_decide (path = []) -> entry n i c ->
      path_to db (n :: path) (node_key n ++ suffix c).

Lemma path_prefix db path k n : path_to db path k -> n ∈ path -> exists i s, k = node_key n ++ i :: s.
Proof.
  induction 1 as [|m i c path Hpath IH Hm Hwf Hr Hc]; [by intros ?%not_elem_of_nil|].
  destruct (nw_entry _ _ Hwf _ _ Hc) as ((s & ->) & _).
  intros [->|Hn]%elem_of_cons; [eauto|]. destruct (IH Hn) as (i' & s' & ->). exists i', (s' ++ i :: s).
  by rewrite <-app_assoc.
Qed.

Lemma path_to_ext db db' path k : path_to db path k ->
  (forall n, n ∈ path -> db' !! node_key n = db !! node_key n) -> path_to db' path k.
Proof.
  induction 1 as [|m i c path Hpath IH Hm Hwf Hr Hc]; intros H; [constructor|].
  econstructor; [|by rewrite H by apply list_elem_of_here|done..].
  apply IH. intros n Hn. apply H. by apply list_elem_of_further.
Qed.
Lemma path_to_insert db path k x n : path_to db path k -> ~ (exists i s, k = x ++ i :: s) ->
  path_to (<[x := n]> db) path k.
Proof.
  intros Hp Hx. eapply path_to_ext; [done|]. intros m Hm. apply lookup_insert_ne. intros E. apply Hx. rewrite E.
  by eapply path_prefix.
Qed.
