(* ===== verification/TriePath.v ===== *)
(** * Steps of the Merkle radix trie

    The transaction records the changes of the contents since the recording
    started; [update_keys] marks the nodes above a changed node; the whole invariant
    of the trie, with the exemption that holds while an operation is under way. *)

From S2P Require Import Prelude Coin AccountTypes Codec TxContent Block KeyNibbles TrieNode.
From S2P Require Import Trie TrieInv.

Implicit Types (db : gmap key TrieNode) (r : range) (n m : TrieNode) (k p : key) (s : Txn).

(** ** Contents and recorded changes *)

(** The abstract state of the trie. *)
Definition contents (db : gmap key TrieNode) : gmap key (list Z) := omap value db.

Lemma lookup_contents db k : contents db !! k = db !! k ≫= value.
Proof. apply lookup_omap. Qed.
Lemma contents_insert db k n :
  contents (<[k := n]> db) = match value n with Some v => <[k := v]> (contents db) | None => delete k (contents db) end.
Proof. unfold contents. rewrite omap_insert. by destruct (value n). Qed.
Lemma contents_delete db k : contents (delete k db) = delete k (contents db).
Proof. apply omap_delete. Qed.
Lemma contents_insert_same db k n : value n = contents db !! k -> contents (<[k := n]> db) = contents db.
Proof.
  intros E. rewrite contents_insert, E. destruct (contents db !! k) as [v|] eqn:Ev.
  - by apply insert_id.
  - by apply delete_id.
Qed.
Lemma contents_fmap f db : (forall n, value (f n) = value n) -> contents (f <$> db) = contents db.
Proof.
  intros Hf. apply map_eq. intros k. rewrite !lookup_contents, lookup_fmap.
  destruct (db !! k) as [n|]; [|done]. apply Hf.
Qed.

(** The changes recorded since the contents were [m0]; [None] when not recording. *)
Definition recorded (om : option (gmap key (list Z))) (s : Txn) : Prop :=
  match om, txn_diff s with
  | None, None => True
  | Some m0, Some d => forall k, d !! k = from_old_and_new (m0 !! k) (contents (table s) !! k)
  | _, _ => False
  end.

(** The old value that a write reports, and the value before and after it. *)
Definition old_value_ok (old : OldValue) (before after : option (list Z)) : Prop :=
  match old with
  | Unchanged => before = after
  | OldNone => before = None
  | OldSome v => before = Some v
  end.

Lemma from_old_and_new_same o : from_old_and_new o o = None.
Proof. destruct o; cbn; [by rewrite bool_decide_true|done]. Qed.
Lemma into_from o (n : option (list Z)) c : from_old_and_new o n = Some c -> into_old_and_new c = (o, n).
Proof.
  destruct o, n; cbn; [|by intros [= <-]|by intros [= <-]|done].
  case_bool_decide; [done|by intros [= <-]].
Qed.
Lemma from_none o (n : option (list Z)) : from_old_and_new o n = None -> o = n.
Proof. destruct o, n; cbn; [|done..]. case_bool_decide; [congruence|done]. Qed.

Lemma combine_from {E : Type} a b c : from_old_and_new b c <> None ->
  @combine E (from_old_and_new a b) (from_old_and_new b c) = Ok (from_old_and_new a c).
Proof.
  intros Hne. destruct (from_old_and_new b c) as [y|] eqn:Ey; [|done]. destruct (from_old_and_new a b) as [x|] eqn:Ex.
  - cbn. rewrite (into_from _ _ _ Ex), (into_from _ _ _ Ey). cbn. by rewrite bool_decide_true.
  - cbn. apply from_none in Ex as ->. by rewrite Ey.
Qed.

Lemma value_change_from old before after : old_value_ok old before after ->
  value_change old after = from_old_and_new before after.
Proof.
  destruct old; cbn; intros ->; [by rewrite from_old_and_new_same|by destruct after|by destruct after].
Qed.

Lemma wp_record om k old new Q (QE : MerkleRadixTrieError -> Txn -> Prop) s :
  recorded om s -> old_value_ok old (contents (table s) !! k) new ->
  (forall s', table s' = table s ->
     (forall db', contents db' !! k = new -> (forall k', k' <> k -> contents db' !! k' = contents (table s) !! k') ->
        recorded om (mk_txn db' (txn_diff s'))) -> Q tt s') ->
  wp (record_value_change k old new) Q QE s.
Proof.
  intros Hrec Hold HQ. unfold record_value_change. wp_step. apply wp_gets. unfold recorded in Hrec.
  destruct om as [m0|], (txn_diff s) as [d|] eqn:Ed; try done; cbn [if_some].
  - rewrite (value_change_from _ _ _ Hold). destruct (from_old_and_new (contents (table s) !! k) new) as [ch|] eqn:Ech; cbn [if_some].
    + wp_step. unfold add_change. rewrite Hrec, <-Ech, combine_from by congruence.
      apply wp_lift; [|done|done]. intros d' [= <-]. apply wp_modify. apply HQ; [done|].
      intros db' Hk Ho k'. cbn [txn_diff table]. destruct (decide (k' = k)) as [->|Hne].
      * rewrite Hk. destruct (from_old_and_new (m0 !! k) new); [by rewrite lookup_insert_eq|by rewrite lookup_delete_eq].
      * rewrite (Ho _ Hne), <-Hrec. destruct (from_old_and_new (m0 !! k) new);
          rewrite ?lookup_insert_ne, lookup_delete_ne by done; done.
    + apply wp_ret. apply HQ; [done|]. intros db' Hk Ho. unfold recorded. cbn [txn_diff table]. rewrite Ed.
      intros k'. rewrite Hrec.
      destruct (decide (k' = k)) as [->|Hne]; [|by rewrite (Ho _ Hne)]. by rewrite Hk, (from_none _ _ Ech).
  - apply wp_ret. apply HQ; [done|]. intros db' _ _. unfold recorded. cbn. by rewrite Ed.
Qed.

Lemma wp_put_node om n old Q (QE : MerkleRadixTrieError -> Txn -> Prop) s :
  recorded om s -> old_value_ok old (contents (table s) !! node_key n) (value n) ->
  (forall s', table s' = <[node_key n := n]> (table s) -> recorded om s' -> Q tt s') ->
  wp (put_node n old) Q QE s.
Proof.
  intros Hrec Hold HQ. unfold put_node. wp_step. eapply wp_record; [done|done|]. intros s' Hs' Hrec'.
  apply wp_modify. apply HQ; cbn; [by rewrite Hs'|]. apply Hrec'; rewrite Hs'.
  - by rewrite lookup_contents, lookup_insert_eq.
  - intros k' Hk'. by rewrite !lookup_contents, lookup_insert_ne by done.
Qed.
Lemma wp_remove_node om k old Q (QE : MerkleRadixTrieError -> Txn -> Prop) s :
  recorded om s -> old_value_ok old (contents (table s) !! k) None ->
  (forall s', table s' = delete k (table s) -> recorded om s' -> Q tt s') ->
  wp (remove_node k old) Q QE s.
Proof.
  intros Hrec Hold HQ. unfold remove_node. wp_step. eapply wp_record; [done|done|]. intros s' Hs' Hrec'.
  apply wp_modify. apply HQ; cbn; [by rewrite Hs'|]. apply Hrec'; rewrite Hs'.
  - by rewrite lookup_contents, lookup_delete_eq.
  - intros k' Hk'. by rewrite !lookup_contents, lookup_delete_ne by done.
Qed.

(** Reading a node of a well-formed table. *)
Lemma wp_get_node r k n Q (QE : MerkleRadixTrieError -> Txn -> Prop) s :
  wf r (table s) -> table s !! k = Some n -> Q n s ->
  wp (node ← get_node k; expect node) Q QE s.
Proof.
  intros Hwf Hn HQ. wp_step. unfold get_node. apply wp_gets. rewrite Hn. cbn [fmap option_fmap option_map].
  apply wp_expect with n; [|done]. f_equal. pose proof (nw_key _ _ (wf_node _ _ Hwf _ _ Hn)) as <-. by destruct n.
Qed.

Lemma wp_unwrap_result {A} (o : outcome MerkleRadixTrieError A) a Q (QE : MerkleRadixTrieError -> Txn -> Prop) s :
  o = Ok a -> Q a s -> wp (unwrap_result o) Q QE s.
Proof. by intros ->. Qed.

(** ** The way up *)

(** [kc] lies below the top of the path. *)
Definition below (kc : key) (path : list TrieNode) : Prop :=
  match path with
  | [] => kc = []
  | p :: _ => exists i t, kc = node_key p ++ i :: t
  end.

(** The table with the entry of the nearest node leading to [kc]. *)
Definition link (kc : key) (path : list TrieNode) (db : gmap key TrieNode) : gmap key TrieNode :=
  match path with
  | [] => db
  | p :: _ => <[node_key p := reset_entry p kc]> db
  end.

Fixpoint climb (kc : key) (path : list TrieNode) (db : gmap key TrieNode) : gmap key TrieNode :=
  match path with
  | [] => db
  | p :: rest => climb (node_key p) rest (<[node_key p := reset_entry p kc]> db)
  end.

(** What the nodes of the path have to satisfy, given the contents. *)
Fixpoint chain (ct : gmap key (list Z)) (kc : key) (path : list TrieNode) : Prop :=
  match path with
  | [] => True
  | p :: rest =>
      (exists i t, kc = node_key p ++ i :: t) /\ node_wf (node_key p) p /\
      is_root p = bool_decide (rest = []) /\ value p = ct !! node_key p /\ chain ct (node_key p) rest
  end.

Lemma path_below db path k : path_to db path k -> below k path.
Proof.
  destruct 1 as [|n i c path Hp Hn Hwf Hr Hc]; [done|].
  destruct (nw_entry _ _ Hwf _ _ Hc) as ((t & ->) & _). cbn. eauto.
Qed.
Lemma path_to_chain db path k : path_to db path k -> forall kc, below kc path -> chain (contents db) kc path.
Proof.
  induction 1 as [|n i c path Hp IH Hn Hwf Hr Hc]; intros kc Hb; [done|].
  split; [done|]. split; [done|]. split; [done|]. split; [by rewrite lookup_contents, Hn|].
  apply IH. by eapply path_below.
Qed.

Lemma wp_update_keys_loop om path : forall kc child_node Q (QE : MerkleRadixTrieError -> Txn -> Prop) s,
  node_key child_node = kc -> key_ok kc -> chain (contents (table s)) kc path -> recorded om s ->
  (forall s', table s' = climb kc path (table s) -> recorded om s' -> Q tt s') ->
  wp (update_keys_loop child_node path) Q QE s.
Proof.
  induction path as [|p rest IH]; intros kc child_node Q QE s Hkc Hok Hch Hrec HQ.
  { cbn. by apply HQ. }
  destruct Hch as ((i & t & E) & Hwf & Hroot & Hval & Hch). cbn [update_keys_loop climb] in *.
  wp_step. apply wp_unwrap_result with (reset_entry p kc).
  { rewrite Hkc. rewrite E in Hok |- *. rewrite (reset_entry_app (node_key p)) by done. by apply put_child_app. }
  wp_step. apply wp_assert. { cbn. change (is_root (reset_entry p kc)) with (is_root p). rewrite Hroot. apply Bool.eqb_reflx. }
  wp_step. eapply wp_put_node; [done|cbn; by symmetry|]. intros s' Hs' Hrec'. cbn in Hs'.
  eapply (IH (node_key p)); [done|by apply (nw_key_ok _ _ Hwf)| |done|].
  - rewrite Hs'. by rewrite contents_insert_same.
  - intros s'' Hs''. apply HQ. by rewrite Hs'', Hs'.
Qed.

(** Marking from [p] up and marking from below [p], once the entry of [p] has no hash. *)
Lemma mark_below r db p m i t : wf r db -> db !! p = Some m -> entry m i (mk_child (i :: t) 0) ->
  forall k n, db !! k = Some n -> mark_node p n = mark_node (p ++ i :: t) n.
Proof.
  intros Hwf Hp Hi k n Hn. apply mark_node_same. intros j c Hc. cbn. unfold is_prefix.
  rewrite (nw_key _ _ (wf_node _ _ Hwf _ _ Hn)). destruct (entry_suffix Hwf _ _ _ _ Hn Hc) as [u Eu].
  destruct (decide (k ++ suffix c `prefix_of` p)) as [Hpre|Hpre].
  { rewrite !bool_decide_true; [done| |done]. by apply prefix_app_r. }
  rewrite (bool_decide_false (k ++ suffix c `prefix_of` p)) by done. case_bool_decide as Hpre'; [|done].
  f_equal. enough (child_hash c = 0) as E by (rewrite <-E; by destruct c).
  destruct (prefix_cases k p (p ++ i :: t)) as [->|[(j' & u' & E)|(j' & u' & E)]].
  - by eapply prefix_app_l.
  - apply strict_prefix.
  - rewrite Eu in Hpre'. apply prefix_app_cons in Hpre' as [-> _]. unfold entry in *. by simplify_eq.
  - exfalso. assert (j' = j) as ->.
    { rewrite Eu, E, <-app_assoc in Hpre'. by apply prefix_app_cons in Hpre' as [-> _]. }
    by pose proof (nothing_between Hwf _ _ _ _ _ _ _ Hn Hc Hp E).
  - exfalso. assert (j' = i) as ->.
    { rewrite E, <-app_assoc in Hpre'. by apply prefix_app_cons in Hpre' as [-> _]. }
    pose proof (nothing_between Hwf _ _ _ _ _ _ _ Hp Hi Hn E) as Hb. cbn in Hb.
    assert (Hl : k ++ suffix c `prefix_of` k) by (by etrans). rewrite Eu in Hl. by apply not_prefix_longer in Hl.
Qed.

Lemma mark_node_reset n j c : entry n j c -> node_wf (node_key n) n ->
  mark_node (node_key n ++ suffix c) (reset_entry n (node_key n ++ suffix c)) = mark_node (node_key n ++ suffix c) n.
Proof.
  intros Hc Hwf. destruct (nw_entry _ _ Hwf _ _ Hc) as ((u & Eu) & _). rewrite Eu at 2.
  rewrite (reset_entry_app (node_key n)) by done. apply mark_node_ext; [done|done|done|cbn; by rewrite length_insert|].
  intros j'. destruct (decide (j' = j)) as [->|Hne].
  - cbn [children with_entry set_children node_key]. rewrite list_lookup_insert_eq by (by eapply lookup_lt_Some).
    unfold entry in Hc. rewrite Hc. cbn. unfold is_prefix. rewrite <-Eu, bool_decide_true by done. done.
  - cbn [children with_entry set_children node_key]. by rewrite list_lookup_insert_ne.
Qed.

Lemma mark_root r db : wf r db -> mark [] db = db.
Proof.
  intros Hwf. unfold mark. apply map_eq. intros k. rewrite lookup_fmap. destruct (db !! k) as [n|] eqn:En; [|done].
  cbn. f_equal. apply mark_node_id. intros i c Hc Hpre. rewrite (nw_key _ _ (wf_node _ _ Hwf _ _ En)) in Hpre.
  destruct (entry_suffix Hwf _ _ _ _ En Hc) as [u Eu]. rewrite Eu in Hpre.
  by apply prefix_nil_inv, app_cons_not_nil in Hpre.
Qed.

(** The way up is marking. *)
Lemma climb_mark r path : forall kc k0 db, path_to db path k0 -> below kc path -> key_ok kc ->
  wf r (link kc path db) -> climb kc path db = mark kc (link kc path db).
Proof.
  induction path as [|p rest IH]; intros kc k0 db Hp Hb Hok Hwf; cbn [climb link below] in *.
  { subst kc. symmetry. by eapply mark_root. }
  destruct Hb as (i & t & ->). inversion Hp as [|? i0 c0 ? Hrest Hst Hpwf Hroot Hc E1 E2]; subst.
  set (db1 := <[node_key p := reset_entry p (node_key p ++ i :: t)]> db) in *.
  assert (Hrest1 : path_to db1 rest (node_key p)).
  { apply path_to_insert; [done|]. intros (i' & t' & E). by apply eq_sym, app_cons_ne in E. }
  assert (Hp1 : db1 !! node_key p = Some (reset_entry p (node_key p ++ i :: t))) by apply lookup_insert_eq.
  assert (Hi : entry (reset_entry p (node_key p ++ i :: t)) i (mk_child (i :: t) 0)).
  { rewrite (reset_entry_app (node_key p)) by done. apply entry_with_new. by eapply nibble_index. }
  assert (Hmark : mark (node_key p) db1 = mark (node_key p ++ i :: t) db1).
  { apply map_eq. intros k. unfold mark. rewrite !lookup_fmap. destruct (db1 !! k) as [n|] eqn:En; [|done].
    cbn. f_equal. by eapply mark_below. }
  rewrite <-Hmark. clear Hmark. destruct rest as [|q rest].
  { cbn [climb]. inversion Hrest as [E|]. symmetry. by eapply mark_root. }
  inversion Hrest1 as [|? j cq ? Hr2 Hq Hqwf Hqr Hcq E1 E2]; subst.
  assert (Hqk : node_key q ++ suffix cq = node_key p) by done.
  assert (Hshape : same_shape q (reset_entry q (node_key p))).
  { destruct (nw_entry _ _ Hqwf _ _ Hcq) as ((u & Eu) & _). rewrite <-Hqk, Eu.
    rewrite (reset_entry_app (node_key q)) by done. eapply same_shape_with; [done|by rewrite Eu|apply hash_ok_0]. }
  rewrite Hqk, (IH (node_key p) (node_key p)); [|done|by eapply path_below|by apply (nw_key_ok _ _ Hpwf)|by eapply wf_update].
  cbn [link]. apply map_eq. intros k. unfold mark. rewrite !lookup_fmap. destruct (decide (k = node_key q)) as [->|Hne].
  - rewrite lookup_insert_eq, Hq. cbn. f_equal. rewrite <-Hqk. by eapply mark_node_reset.
  - by rewrite lookup_insert_ne.
Qed.

(** ** The numbers of nodes at the root *)

Definition bump_root (cu : CountUpdates) (root : TrieNode) : TrieNode :=
  set_root_data root (update_root_data cu <$> root_data root).
Definition add_counts (cu : CountUpdates) (db : gmap key TrieNode) : gmap key TrieNode :=
  if counts_empty cu then db else alter (bump_root cu) [] db.

Lemma same_shape_bump cu n : same_shape n (bump_root cu n).
Proof.
  split; [|cbn; by destruct (root_data n)|done|eauto|eauto]. intros k [H1 H2 H3 H4]. split; [done|done|done|exact H4].
Qed.
Lemma wf_add_counts r cu db : wf r db -> wf r (add_counts cu db).
Proof.
  intros Hwf. unfold add_counts. destruct (counts_empty cu); [done|]. apply (wf_shape Hwf). intros k.
  destruct (decide (k = [])) as [->|Hne].
  - rewrite lookup_alter_eq. destruct (db !! []); [apply same_shape_bump|done].
  - rewrite lookup_alter_ne by done. destruct (db !! k); [apply same_shape_refl|done].
Qed.

Lemma last_cons_app {A} (x : A) l a : last (x :: l) = Some a -> l <> [] -> last l = Some a.
Proof. by destruct l. Qed.
Lemma set_bottom_cons n path root : path <> [] -> set_bottom (n :: path) root = n :: set_bottom path root.
Proof. unfold set_bottom. by destruct path. Qed.
Lemma alter_lookup db k n f : db !! k = Some n -> alter f k db = <[k := f n]> db.
Proof.
  intros Hn. apply map_eq. intros k'. destruct (decide (k' = k)) as [->|Hne].
  - by rewrite lookup_alter_eq, lookup_insert_eq, Hn.
  - by rewrite lookup_alter_ne, lookup_insert_ne.
Qed.

Lemma path_nil_inv db k : path_to db [] k -> k = [].
Proof. by inversion 1. Qed.
Lemma path_root_key db path k root : path_to db path k -> last path = Some root ->
  node_key root = [] /\ db !! [] = Some root /\ is_root root = true.
Proof.
  induction 1 as [|n i c path Hp IH Hn Hwf Hr Hc]; [done|]. intros Hl. destruct path as [|q path].
  - cbn in Hl. injection Hl as <-. apply path_nil_inv in Hp as E. rewrite E in Hn. by rewrite Hr.
  - apply IH. by eapply last_cons_app.
Qed.

Lemma path_to_bottom db path k root root' : path_to db path k -> last path = Some root ->
  same_shape root root' -> node_key root' = [] -> is_root root' = true ->
  path_to (<[[] := root']> db) (set_bottom path root') k.
Proof.
  intros Hp. induction Hp as [|n i c path Hp IH Hn Hwf Hr Hc]; [done|]. intros Hl Hs Hk Hroot.
  destruct path as [|q path].
  - cbn in Hl. injection Hl as <-. apply path_nil_inv in Hp as E. rewrite E in *. cbn.
    destruct (ss_entry' _ _ Hs _ _ Hc) as (c' & Hc' & Es). rewrite Es.
    replace (suffix c') with (node_key root' ++ suffix c') at 1 by (by rewrite Hk).
    econstructor; [by rewrite Hk; constructor|rewrite Hk; apply lookup_insert_eq| |done|done].
    rewrite Hk. by apply (ss_wf _ _ Hs).
  - rewrite set_bottom_cons by done. econstructor; [|rewrite lookup_insert_ne; [done|]|done| |done].
    + apply IH; [by eapply last_cons_app|done..].
    + destruct (path_below _ _ _ Hp) as (i' & t & ->). apply not_eq_sym, app_cons_not_nil.
    + rewrite Hr, !bool_decide_false; [done| |done]. unfold set_bottom. by destruct (removelast (q :: path)).
Qed.

Lemma climb_bottom db path root kc n : last path = Some root -> node_key root = [] ->
  climb kc path (<[[] := n]> db) = climb kc path db.
Proof.
  revert kc db. induction path as [|p path IH]; intros kc db Hl Hk; [done|]. cbn [climb].
  destruct path as [|q path].
  - cbn in Hl. injection Hl as ->. rewrite Hk. cbn. by rewrite insert_insert_eq.
  - destruct (decide (node_key p = [])) as [E|Hne].
    + rewrite E. by rewrite insert_insert_eq.
    + rewrite insert_insert_ne by done. apply IH; [by eapply last_cons_app|done].
Qed.

Lemma link_bump db path k0 root root' kc cu : path_to db path k0 -> last path = Some root ->
  root' = bump_root cu root ->
  link kc (set_bottom path root') (<[[] := root']> db) = alter (bump_root cu) [] (link kc path db).
Proof.
  intros Hp Hl ->. destruct (path_root_key _ _ _ _ Hp Hl) as (Hk & Hdb & _).
  destruct path as [|p [|q path]]; [done| |].
  - cbn in Hl. injection Hl as ->. cbn. rewrite Hk, insert_insert_eq.
    rewrite (alter_lookup _ [] (reset_entry root kc)) by apply lookup_insert_eq. rewrite insert_insert_eq. done.
  - rewrite set_bottom_cons by done. cbn [link]. inversion Hp as [|? i c ? Hp' Hn Hwf Hr Hc]; subst.
    assert (Hne : node_key p <> []) by (destruct (path_below _ _ _ Hp') as (i' & t & ->); apply app_cons_not_nil).
    rewrite (alter_lookup _ [] root) by (by rewrite lookup_insert_ne). by rewrite insert_insert_ne.
Qed.

(** [update_keys]: the path above the changed node is marked, the numbers of nodes at
    the root are updated. *)
Lemma wp_update_keys om r n path kc k0 cu Q (QE : MerkleRadixTrieError -> Txn -> Prop) s :
  table s !! kc = Some n -> node_key n = kc -> key_ok kc -> path_to (table s) path k0 -> below kc path ->
  wf r (link kc path (table s)) -> recorded om s ->
  (forall s', table s' = mark kc (add_counts cu (link kc path (table s))) -> recorded om s' -> Q tt s') ->
  wp (update_keys (n :: path) cu) Q QE s.
Proof.
  intros Hn Hkn Hok Hp Hb Hwf Hrec HQ. unfold update_keys. wp_step.
  destruct (last (n :: path)) as [root|] eqn:Hl; [|by apply last_None in Hl].
  apply wp_expect with root; [done|]. cbn [head tail hd_error].
  destruct (counts_empty cu) eqn:Hcu.
  { wp_step. apply wp_expect with n; [done|]. eapply wp_update_keys_loop; [done..|by eapply path_to_chain|done|].
    intros s' Hs'. apply HQ. rewrite Hs'. unfold add_counts. rewrite Hcu. by eapply climb_mark. }
  assert (Hroot : node_key root = [] /\ table s !! [] = Some root /\ is_root root = true).
  { destruct path as [|q path]; [|eapply path_root_key; [done|by eapply last_cons_app]].
    cbn in Hl, Hb, Hwf. injection Hl as <-. rewrite Hb in *. split; [done|]. split; [done|].
    destruct (wf_root _ _ Hwf) as (n' & Hn' & _ & Hr). rewrite Hn in Hn'. injection Hn' as <-.
    unfold is_root. by rewrite bool_decide_true. }
  destruct Hroot as (Hrk & Hrs & Hrr). unfold is_root in Hrr. apply bool_decide_eq_true in Hrr as [rd Hrd].
  wp_step. apply wp_expect with rd; [done|]. cbv zeta.
  set (root' := set_root_data root (Some (update_root_data cu rd))).
  assert (Hroot' : root' = bump_root cu root) by (unfold root', bump_root; by rewrite Hrd).
  assert (Hval : value root' = contents (table s) !! []) by (by rewrite lookup_contents, Hrs).
  destruct path as [|q path].
  { cbn in Hl, Hb, Hwf |- *. injection Hl as ->. subst kc. eapply wp_put_node; [done|by cbn; rewrite Hb|].
    intros s' Hs'. cbn in Hs'. rewrite Hb in *. apply HQ. rewrite Hs'. unfold add_counts. rewrite Hcu.
    rewrite (mark_root r) by (pose proof (wf_add_counts r cu _ Hwf) as Hw; unfold add_counts in Hw; by rewrite Hcu in Hw).
    rewrite (alter_lookup _ [] root) by done. by rewrite Hroot'. }
  rewrite set_bottom_cons by done. set (path' := set_bottom (q :: path) root').
  apply last_cons_app in Hl; [|done].
  assert (Hp' : path_to (<[[] := root']> (table s)) path' k0).
  { eapply path_to_bottom; [done|done|rewrite Hroot'; apply same_shape_bump|done|done]. }
  assert (Hl' : last path' = Some root') by apply last_snoc.
  assert (Hb' : below kc path').
  { unfold path'. destruct path as [|q' path]; [|by rewrite set_bottom_cons by done].
    cbn in Hl |- *. injection Hl as ->. done. }
  destruct (Nat.eqb_spec (length (n :: path')) 1) as [Hlen|_]; [by destruct path'|].
  cbn [head hd_error tail]. wp_step. apply wp_expect with n; [done|]. eapply wp_update_keys_loop; [done..| |done|].
  { replace (contents (table s)) with (contents (<[[] := root']> (table s))) by (by apply contents_insert_same).
    by eapply path_to_chain. }
  intros s' Hs'. apply HQ. rewrite Hs'. rewrite <-(climb_bottom _ _ root' kc root') by done. unfold add_counts. rewrite Hcu.
  assert (Hlink : link kc path' (<[[] := root']> (table s)) = alter (bump_root cu) [] (link kc (q :: path) (table s))).
  { by eapply link_bump. }
  rewrite <-Hlink. eapply climb_mark; [done..|]. rewrite Hlink.
  pose proof (wf_add_counts r cu _ Hwf) as Hw. unfold add_counts in Hw. by rewrite Hcu in Hw.
Qed.

(** ** The invariant *)

(** One if a node is of the given kind. *)
Definition kind_val (kd : TrieNodeKind.t) (o : option TrieNodeKind.t) : Z := if decide (o = Some kd) then 1 else 0.
Definition node_count (kd : TrieNodeKind.t) (db : gmap key TrieNode) : Z := map_sum (fun n => kind_val kd (kind n)) db.
Definition cu_get (cu : CountUpdates) (kd : TrieNodeKind.t) : Z :=
  match kd with
  | TrieNodeKind.Root => 0
  | TrieNodeKind.Branch => cu_branches cu
  | TrieNodeKind.Hybrid => cu_hybrids cu
  | TrieNodeKind.Leaf => cu_leaves cu
  end.
Definition rd_get (rd : RootData) (kd : TrieNodeKind.t) : Z :=
  match kd with
  | TrieNodeKind.Root => 0
  | TrieNodeKind.Branch => num_branches rd
  | TrieNodeKind.Hybrid => num_hybrids rd
  | TrieNodeKind.Leaf => num_leaves rd
  end.

(** The root knows the missing range and counts the nodes, modulo [2^64]. *)
Definition root_ok (ri : range) (db : gmap key TrieNode) : Prop :=
  exists root rd, db !! [] = Some root /\ root_data root = Some rd /\ incomplete rd = ri /\
    forall kd, kd <> TrieNodeKind.Root -> rd_get rd kd = wrap 64 (node_count kd db).

Definition compact (db : gmap key TrieNode) : Prop :=
  forall k n, db !! k = Some n -> k <> [] -> is_Some (value n) \/ (2 <= length (iter_children n))%nat.

(** Equations between numbers of nodes, kind by kind. *)
Ltac solve_counts kd :=
  destruct kd; [done|..]; unfold kind_val; repeat case_decide; try congruence; cbn; lia.

Section Hashes.
Context `{BEnv : BlockEnv}.

(** Entries with a hash have the hash of their node, except for the targets [X]. *)
Definition hashes_ok (X : key -> Prop) (db : gmap key TrieNode) : Prop :=
  forall k n i c m, db !! k = Some n -> entry n i c -> has_hash c = true -> ~ X (k ++ suffix c) ->
    db !! (k ++ suffix c) = Some m -> hash m = Some (child_hash c).

(** The table of a trie of which the keys in [r] are missing; the root says [ri]. *)
Record trie_inv (r ri : range) (db : gmap key TrieNode) : Prop := {
  ti_wf : wf r db;
  ti_compact : compact db;
  ti_hashes : hashes_ok (fun _ => False) db;
  ti_root : root_ok ri db;
}.

Lemma hashes_ok_weaken X db : hashes_ok (fun _ => False) db -> hashes_ok X db.
Proof. intros Hh q n j e m Hq He Hhash _ Hm. apply (Hh q n j e m); tauto. Qed.

Lemma iter_children_mark K n : length (iter_children (mark_node K n)) = length (iter_children n).
Proof.
  unfold iter_children. cbn [children mark_node set_children]. induction (children n) as [|[c|] l IH]; [done| |done].
  cbn. destruct (is_prefix _ _); cbn; by rewrite IH.
Qed.
Lemma kind_mark K n : kind (mark_node K n) = kind n.
Proof. unfold kind, has_children. by rewrite iter_children_mark. Qed.
Lemma kind_bump cu n : kind (bump_root cu n) = kind n.
Proof. unfold kind, is_root, bump_root. cbn. by destruct (root_data n). Qed.

Lemma map_sum_fmap {A B} (f : A -> B) (g : B -> Z) (mp : gmap key A) : map_sum g (f <$> mp) = map_sum (fun x => g (f x)) mp.
Proof.
  induction mp as [|k x mp Hk IH] using map_ind; [done|]. rewrite fmap_insert, !map_sum_insert_fresh; [by rewrite IH|done|].
  by rewrite lookup_fmap, Hk.
Qed.
Lemma node_count_mark kd K db : node_count kd (mark K db) = node_count kd db.
Proof. unfold node_count, mark. rewrite map_sum_fmap. apply map_sum_ext. intros k n _. by rewrite kind_mark. Qed.
Lemma node_count_insert kd db k n : node_count kd (<[k := n]> db) =
  node_count kd db - kind_val kd (db !! k ≫= kind) + kind_val kd (kind n).
Proof. unfold node_count. rewrite map_sum_insert. by destruct (db !! k). Qed.
Lemma node_count_delete kd db k : node_count kd (delete k db) = node_count kd db - kind_val kd (db !! k ≫= kind).
Proof. unfold node_count. rewrite map_sum_delete. by destruct (db !! k). Qed.
Lemma node_count_add_counts kd cu db : node_count kd (add_counts cu db) = node_count kd db.
Proof.
  unfold add_counts. destruct (counts_empty cu); [done|]. destruct (db !! []) as [root|] eqn:E.
  - rewrite (alter_lookup _ _ root) by done. rewrite node_count_insert, E. cbn [mbind option_bind]. rewrite kind_bump. lia.
  - by rewrite alter_id; [|intros ? ?; congruence].
Qed.

Lemma cu_get_apply cu prev cur kd : kd <> TrieNodeKind.Root ->
  cu_get (apply_update cu prev cur) kd = cu_get cu kd - kind_val kd prev + kind_val kd cur.
Proof.
  intros H. unfold apply_update, kind_val.
  destruct prev as [[]|], cur as [[]|], kd; try done; repeat case_decide; try congruence; cbn; lia.
Qed.
Lemma kind_val_None kd : kind_val kd None = 0.
Proof. done. Qed.
Lemma counts_empty_get cu kd : counts_empty cu = true -> cu_get cu kd = 0.
Proof.
  unfold counts_empty. intros [[H1%Z.eqb_eq H2%Z.eqb_eq]%andb_true_iff H3%Z.eqb_eq]%andb_true_iff. by destruct kd.
Qed.
Lemma rd_get_update cu rd kd : kd <> TrieNodeKind.Root ->
  rd_get (update_root_data cu rd) kd = wrap 64 (rd_get rd kd + cu_get cu kd).
Proof.
  intros H. destruct kd; [done| | |]; cbn; unfold apply_difference; destruct (Z.leb_spec 0 (cu_branches cu)), (Z.leb_spec 0 (cu_hybrids cu)), (Z.leb_spec 0 (cu_leaves cu));
    try done; f_equal; lia.
Qed.

(** The root after an operation that changed the nodes by [cu]. *)
Lemma root_ok_counts ri cu db db1 : root_ok ri db ->
  (root_data <$> db1 !! []) = (root_data <$> db !! []) ->
  (forall kd, kd <> TrieNodeKind.Root -> node_count kd db1 = node_count kd db + cu_get cu kd) ->
  root_ok ri (add_counts cu db1).
Proof.
  intros (root & rd & Hr & Hrd & Hi & Hc) Hsame Hcnt. rewrite Hr in Hsame. cbn in Hsame.
  destruct (db1 !! []) as [root1|] eqn:Hr1; [|done]. cbn in Hsame. injection Hsame as Hsame. rewrite Hrd in Hsame.
  destruct (counts_empty cu) eqn:Hcu.
  - unfold add_counts. rewrite Hcu. exists root1, rd. split; [done|]. split; [done|]. split; [done|].
    intros kd Hkd. rewrite (Hc kd Hkd), (Hcnt kd Hkd), (counts_empty_get _ _ Hcu). f_equal. lia.
  - exists (bump_root cu root1), (update_root_data cu rd). split.
    { unfold add_counts. by rewrite Hcu, lookup_alter_eq, Hr1. }
    split; [cbn; by rewrite Hsame|]. split; [done|]. intros kd Hkd.
    rewrite node_count_add_counts, rd_get_update, (Hc kd Hkd), (Hcnt kd Hkd) by done.
    unfold wrap. by rewrite Zplus_mod_idemp_l.
Qed.
Lemma root_ok_mark ri K db : root_ok ri db -> root_ok ri (mark K db).
Proof.
  intros (root & rd & Hr & Hrd & Hi & Hc). exists (mark_node K root), rd. split; [unfold mark; by rewrite lookup_fmap, Hr|].
  split; [done|]. split; [done|]. intros kd Hkd. by rewrite node_count_mark, Hc.
Qed.

Lemma hash_mark r db K k n : wf r db -> db !! k = Some n -> ~ k `prefix_of` K -> mark_node K n = n.
Proof.
  intros Hwf Hn Hk. apply mark_node_id. intros i c Hc Hpre. rewrite (nw_key _ _ (wf_node _ _ Hwf _ _ Hn)) in Hpre.
  destruct Hk. by eapply prefix_app_l.
Qed.
Lemma hashes_ok_mark r db K : wf r db -> hashes_ok (fun k => k `prefix_of` K) db ->
  hashes_ok (fun _ => False) (mark K db).
Proof.
  intros Hwf Hh k n' i c' m' Hn' Hc' Hhash _ Hm'. unfold mark in *.
  rewrite lookup_fmap_Some in Hn', Hm'. destruct Hn' as (n & <- & Hn), Hm' as (m & <- & Hm).
  apply entry_mark in Hc' as (c & Hc & Hmc). rewrite (nw_key _ _ (wf_node _ _ Hwf _ _ Hn)) in Hmc.
  rewrite (mark_child_suffix _ _ _ _ Hmc) in Hm. cbn in Hmc. unfold is_prefix in Hmc.
  case_bool_decide as Hpre; injection Hmc as <-; [done|]. rewrite (hash_mark r db K _ m Hwf Hm Hpre). by apply (Hh k n i c m).
Qed.

Lemma lookup_add_counts cu db k n : add_counts cu db !! k = Some n -> k <> [] -> db !! k = Some n.
Proof. unfold add_counts. destruct (counts_empty cu); [done|]. intros H Hk. by rewrite lookup_alter_ne in H. Qed.
Lemma lookup_add_counts_entry cu db k n : add_counts cu db !! k = Some n ->
  exists n0, db !! k = Some n0 /\ children n = children n0 /\ value n = value n0.
Proof.
  unfold add_counts. destruct (counts_empty cu); [eauto|]. intros H. destruct (decide (k = [])) as [->|Hk].
  - rewrite lookup_alter_eq in H. destruct (db !! []) as [n0|]; [|done]. cbn in H. injection H as <-. by exists n0.
  - rewrite lookup_alter_ne in H by done. eauto.
Qed.
Lemma hashes_ok_add_counts r X cu db : wf r db -> hashes_ok X db -> hashes_ok X (add_counts cu db).
Proof.
  intros Hwf Hh k n i c m Hn Hc Hhash HX Hm. destruct (lookup_add_counts_entry _ _ _ _ Hn) as (n0 & Hn0 & Ec & _).
  unfold entry in Hc. rewrite Ec in Hc. eapply Hh; [done|exact Hc|done|done|]. eapply lookup_add_counts; [done|].
  destruct (entry_suffix Hwf _ _ _ _ Hn0 Hc) as [t ->]. apply app_cons_not_nil.
Qed.
Lemma contents_add_counts cu db : contents (add_counts cu db) = contents db.
Proof.
  unfold add_counts. destruct (counts_empty cu); [done|]. apply map_eq. intros k. rewrite !lookup_contents.
  destruct (decide (k = [])) as [->|Hk]; [|by rewrite lookup_alter_ne].
  rewrite lookup_alter_eq. by destruct (db !! []).
Qed.
Lemma contents_mark K db : contents (mark K db) = contents db.
Proof. by apply contents_fmap. Qed.

Lemma compact_finish K cu db : compact db -> compact (mark K (add_counts cu db)).
Proof.
  intros Hc k n' Hn' Hk. unfold mark in Hn'. rewrite lookup_fmap_Some in Hn'. destruct Hn' as (n & <- & Hn).
  rewrite iter_children_mark. destruct (lookup_add_counts_entry _ _ _ _ Hn) as (n0 & Hn0 & E1 & E2).
  unfold iter_children. cbn [value mark_node set_children]. rewrite E1, E2. by apply (Hc k).
Qed.

(** The end of an operation: it changed nodes on the path to [kc] only, and the
    numbers of nodes by [cu]. *)
Lemma trie_inv_finish r ri cu db db1 kc : root_ok ri db ->
  wf r db1 -> compact db1 -> hashes_ok (fun k => k `prefix_of` kc) db1 ->
  (root_data <$> db1 !! []) = (root_data <$> db !! []) ->
  (forall kd, kd <> TrieNodeKind.Root -> node_count kd db1 = node_count kd db + cu_get cu kd) ->
  trie_inv r ri (mark kc (add_counts cu db1)).
Proof.
  intros Hroot Hwf Hcomp Hh Hsame Hcnt. split.
  - by apply wf_mark, wf_add_counts.
  - by apply compact_finish.
  - eapply hashes_ok_mark; [by apply wf_add_counts|by eapply hashes_ok_add_counts].
  - apply root_ok_mark. by eapply root_ok_counts.
Qed.
Lemma contents_finish cu db kc : contents (mark kc (add_counts cu db)) = contents db.
Proof. by rewrite contents_mark, contents_add_counts. Qed.
End Hashes.
