(* ===== verification/TriePut.v ===== *)
(** * Writing a value to the Merkle radix trie

    [put_raw] on a well-formed trie does not panic, keeps the invariant and changes
    the contents at the given key only; [update_within_missing_part_raw] marks the
    way to a key in the missing part and leaves the contents alone. *)

From S2P Require Import Prelude Coin AccountTypes Codec TxContent Block KeyNibbles TrieNode.
From S2P Require Import Trie TrieInv TriePath.

Implicit Types (db : gmap key TrieNode) (r : range) (n m : TrieNode) (k p : key) (s : Txn).

(** ** Numbers of children *)

Definition some_val {A} (o : option A) : nat := match o with Some _ => 1 | None => 0 end.

Lemma iter_children_with n i old oc : children n !! i = Some old ->
  (length (iter_children (with_entry n i oc)) + some_val old = length (iter_children n) + some_val oc)%nat.
Proof.
  unfold iter_children. cbn [children with_entry set_children]. revert i.
  induction (children n) as [|o l IH]; intros [|i] Hi; [done|done| |].
  - cbn in Hi. injection Hi as ->. cbn. destruct old, oc; cbn; lia.
  - cbn in Hi. specialize (IH _ Hi). cbn in IH |- *. destruct o; [apply (f_equal S)|]; exact IH.
Qed.
Lemma iter_children_entry n i c : entry n i c -> (1 <= length (iter_children n))%nat.
Proof.
  unfold iter_children, entry. revert i. induction (children n) as [|o l IH]; intros [|i] Hi; [done|done| |].
  - cbn in Hi. injection Hi as ->. cbn. lia.
  - cbn in Hi. specialize (IH _ Hi). cbn. destruct o; cbn; lia.
Qed.
Lemma has_children_entry n i c : entry n i c -> has_children n = true.
Proof.
  intros H%iter_children_entry. unfold has_children. destruct (Nat.eqb_spec (length (iter_children n)) 0); [lia|done].
Qed.
Lemma has_children_no_entry n : has_children n = false -> forall i c, ~ entry n i c.
Proof. intros H i c Hc%has_children_entry. congruence. Qed.
Lemma iter_children_replace n i c c' : entry n i c ->
  length (iter_children (with_entry n i (Some c'))) = length (iter_children n).
Proof. intros Hc. pose proof (iter_children_with n i _ (Some c') Hc) as H. cbn [some_val] in H. lia. Qed.
Lemma kind_replace n i c c' : entry n i c -> kind (with_entry n i (Some c')) = kind n.
Proof.
  intros Hc. unfold kind, has_children. by rewrite (iter_children_replace _ _ c).
Qed.

Lemma kind_hybrid n v j c : root_data n = None -> value n = Some v -> entry n j c -> kind n = Some TrieNodeKind.Hybrid.
Proof. intros Hr Hv Hc. unfold kind, is_root, has_value. by rewrite Hr, Hv, (has_children_entry _ _ _ Hc). Qed.
Lemma kind_branch n j c : root_data n = None -> value n = None -> entry n j c -> kind n = Some TrieNodeKind.Branch.
Proof. intros Hr Hv Hc. unfold kind, is_root, has_value. by rewrite Hr, Hv, (has_children_entry _ _ _ Hc). Qed.

(** ** The nodes above *)

Lemma path_to_top db path k n : path_to db (n :: path) k ->
  exists i c, entry n i c /\ k = node_key n ++ suffix c /\ db !! node_key n = Some n /\
    node_wf (node_key n) n /\ path_to db path (node_key n).
Proof. inversion 1 as [|? i c ? Hp Hn Hwf Hr Hc]; subst. by exists i, c. Qed.

Lemma reset_entry_proper n i c : node_wf (node_key n) n -> entry n i c ->
  exists t, suffix c = i :: t /\
    reset_entry n (node_key n ++ suffix c) = with_entry n i (Some (mk_child (suffix c) 0)).
Proof.
  intros Hwf Hc. destruct (nw_entry _ _ Hwf _ _ Hc) as ((t & Et) & _). exists t. split; [done|].
  rewrite Et. by apply reset_entry_app.
Qed.

Lemma root_path_stored db path k n : path_to db path k -> n ∈ path -> db !! node_key n = Some n.
Proof.
  induction 1 as [|m i c path Hp IH Hm Hwf Hr Hc]; [by intros ?%not_elem_of_nil|].
  intros [->|Hn]%elem_of_cons; [done|by apply IH].
Qed.
Lemma path_to_fresh db path k x n : path_to db path k -> db !! x = None -> path_to (<[x := n]> db) path k.
Proof.
  intros Hp Hx. eapply path_to_ext; [done|]. intros m Hm. apply lookup_insert_ne. intros ->.
  by rewrite (root_path_stored _ _ _ _ Hp Hm) in Hx.
Qed.

(** A step down from the current node. *)
Lemma path_extend r db path n i c : wf r db -> db !! node_key n = Some n -> path_to db path (node_key n) -> entry n i c ->
  path_to db (n :: path) (node_key n ++ suffix c).
Proof.
  intros Hwf Hn Hpath Hc. econstructor; [done|done|by eapply wf_node| |done]. destruct path as [|p rest].
  - apply path_nil_inv in Hpath as E. rewrite bool_decide_true by done. destruct (wf_root _ _ Hwf) as (n' & Hn' & _ & Hrd).
    rewrite E, Hn' in Hn. injection Hn as ->. unfold is_root. by rewrite bool_decide_true.
  - destruct (path_below _ _ _ Hpath) as (i' & t' & E). rewrite bool_decide_false by done.
    destruct (wf_non_root _ _ Hwf _ _ Hn) as [Hrd _]; [rewrite E; apply app_cons_not_nil|].
    unfold is_root. by rewrite Hrd.
Qed.

Section Put.
Context `{BEnv : BlockEnv}.

(** Linking a path that leads to [kc] already only resets the hash. *)
Lemma link_proper r db path kc : wf r db -> path_to db path kc ->
  wf r (link kc path db) /\ (compact db -> compact (link kc path db)) /\
  (hashes_ok (fun k => k `prefix_of` kc) db -> hashes_ok (fun k => k `prefix_of` kc) (link kc path db)) /\
  (forall kd, node_count kd (link kc path db) = node_count kd db) /\
  root_data <$> (link kc path db !! []) = root_data <$> (db !! []) /\
  contents (link kc path db) = contents db.
Proof.
  intros Hwf Hp. destruct path as [|p path]; [by split|]. cbn [link].
  destruct (path_to_top _ _ _ _ Hp) as (i & c & Hc & -> & Hst & Hpwf & Hrest).
  destruct (reset_entry_proper _ _ _ Hpwf Hc) as (t & Et & ->).
  assert (Hval : value (with_entry p i (Some (mk_child (suffix c) 0))) = contents db !! node_key p).
  { by rewrite lookup_contents, Hst. }
  split; [|split; [|split; [|split; [|split]]]].
  - eapply wf_update; [done|done|]. eapply same_shape_with; [done|done|apply hash_ok_0].
  - intros Hcomp k n Hn Hk. destruct (decide (k = node_key p)) as [->|Hne].
    + rewrite lookup_insert_eq in Hn. injection Hn as <-. rewrite (iter_children_replace _ _ c) by done.
      by apply (Hcomp _ _ Hst).
    + rewrite lookup_insert_ne in Hn by done. by apply (Hcomp k).
  - intros Hh k n j e m Hn He Hhash Hpre Hm.
    assert (Hm' : db !! (k ++ suffix e) = Some m).
    { rewrite lookup_insert_ne in Hm; [done|]. intros E. destruct Hpre. rewrite <-E. by apply prefix_app_r. }
    destruct (decide (k = node_key p)) as [->|Hne].
    + rewrite lookup_insert_eq in Hn. injection Hn as <-. apply entry_with in He as [[-> [= <-]]|[Hj He]]; [done|].
      by apply (Hh (node_key p) p j e m).
    + rewrite lookup_insert_ne in Hn by done. by apply (Hh k n j e m).
  - intros kd. rewrite node_count_insert, Hst. cbn [mbind option_bind]. rewrite (kind_replace _ _ c) by done. lia.
  - destruct (decide (node_key p = [])) as [E|Hne].
    + rewrite E in *. by rewrite lookup_insert_eq, Hst.
    + by rewrite lookup_insert_ne.
  - by apply contents_insert_same.
Qed.

(** The outcome of an operation: the invariant, the new contents, and the recording. *)
Definition step_ok (om : option (gmap key (list Z))) (r ri : range) (ct : gmap key (list Z)) (s' : Txn) : Prop :=
  trie_inv r ri (table s') /\ contents (table s') = ct /\ recorded om s'.

(** Update the keys above a changed node that its parent leads to. *)
Lemma wp_update_proper om r ri db n path kc cu Q (QE : MerkleRadixTrieError -> Txn -> Prop) s :
  root_ok ri db -> table s !! kc = Some n -> node_key n = kc -> path_to (table s) path kc ->
  wf r (table s) -> compact (table s) -> hashes_ok (fun k => k `prefix_of` kc) (table s) ->
  root_data <$> (table s !! []) = root_data <$> (db !! []) ->
  (forall kd, kd <> TrieNodeKind.Root -> node_count kd (table s) = node_count kd db + cu_get cu kd) ->
  recorded om s ->
  (forall s', step_ok om r ri (contents (table s)) s' -> Q tt s') ->
  wp (update_keys (n :: path) cu) Q QE s.
Proof.
  intros Hroot Hn Hkn Hp Hwf Hcomp Hh Hsame Hcnt Hrec HQ.
  destruct (link_proper _ _ _ _ Hwf Hp) as (H1 & H2 & H3 & H4 & H5 & H6).
  eapply wp_update_keys; [done|done|by apply (nw_key_ok _ _ (wf_node _ _ Hwf _ _ Hn))|done|by eapply path_below|done|done|].
  intros s' Hs' Hrec'. apply HQ. split; [|split]; [|by rewrite Hs', contents_finish|done].
  rewrite Hs'. apply (trie_inv_finish r ri cu db); [done|done|by apply H2|by apply H3|by rewrite H5|].
  intros kd Hkd. rewrite H4. by apply Hcnt.
Qed.

(** ** Structural steps with all parts of the invariant *)

Definition compact_at (k : key) (n : TrieNode) : Prop :=
  k <> [] -> is_Some (value n) \/ (2 <= length (iter_children n))%nat.

(** The root keeps its data when an entry of some node changes. *)
Lemma root_data_with db db1 p m i oc : db !! p = Some m -> db1 !! p = Some (with_entry m i oc) ->
  (p <> [] -> db1 !! [] = db !! []) -> root_data <$> (db1 !! []) = root_data <$> (db !! []).
Proof.
  intros Hp Hp1 Ho. destruct (decide (p = [])) as [->|Hne]; [by rewrite Hp, Hp1|by rewrite Ho].
Qed.

(** A new node between a node and the target of one of its entries. *)
Lemma between_ok r db p m i t j w ch h nx : wf r db -> hashes_ok (fun _ => False) db ->
  db !! p = Some m -> entry m i ch -> suffix ch = i :: t ++ j :: w ->
  range_contains r (p ++ i :: t) = false -> (h = 0 \/ h = child_hash ch) ->
  node_wf (p ++ i :: t) nx -> root_data nx = None -> entry nx j (mk_child (j :: w) h) ->
  (forall j' c, entry nx j' c -> j' = j) ->
  let x := p ++ i :: t in
  let db1 := <[p := with_entry m i (Some (mk_child (i :: t) 0))]> (<[x := nx]> db) in
  db !! x = None /\ wf r db1 /\ (forall k n, db1 !! k = Some n -> k <> x -> compact db -> compact_at k n) /\
  hashes_ok (fun k => k `prefix_of` x) db1 /\ root_data <$> (db1 !! []) = root_data <$> (db !! []) /\
  (forall kd, node_count kd db1 = node_count kd db + kind_val kd (kind nx)) /\
  contents db1 = match value nx with Some v => <[x := v]> (contents db) | None => contents db end.
Proof.
  intros Hwf Hh Hp Hch Es Hr Hhx Hnx Hrd Hj Honly x db1.
  assert (Hhok : hash_ok (child_hash ch)) by (by apply (nw_entry _ _ (wf_node _ _ Hwf _ _ Hp) _ _ Hch)).
  assert (Hhok' : hash_ok h) by (destruct Hhx as [->| ->]; [apply hash_ok_0|done]).
  assert (Ech : ch = mk_child (i :: t ++ j :: w) (child_hash ch)) by (rewrite <-Es; by destruct ch).
  pose proof (app_cons_ne p i t) as Hxp. fold x in Hxp, Hr, Hnx. pose proof (app_cons_not_nil p i t) as Hxn. fold x in Hxn.
  assert (Hp1 : db1 !! p = Some (with_entry m i (Some (mk_child (i :: t) 0)))) by apply lookup_insert_eq.
  assert (Hx1 : db1 !! x = Some nx) by (unfold db1; by rewrite lookup_insert_ne, lookup_insert_eq).
  assert (Ho : forall k, k <> p -> k <> x -> db1 !! k = db !! k).
  { intros k H1 H2. unfold db1. by rewrite !lookup_insert_ne. }
  assert (Hfresh : db !! x = None).
  { destruct (db !! x) as [n|] eqn:E; [|done]. exfalso.
    pose proof (nothing_between Hwf _ _ _ _ _ _ _ Hp Hch E eq_refl) as Hpre.
    rewrite Es, app_comm_cons, app_assoc in Hpre. by apply not_prefix_longer in Hpre. }
  assert (Hwf1 : wf r db1).
  { rewrite Ech in Hch. apply (wf_insert_between Hwf db1 p m i t j w (child_hash ch) h 0 nx); done. }
  assert (Htgt : x ++ j :: w = p ++ suffix ch) by (unfold x; by rewrite Es, <-app_assoc).
  split; [done|]. split; [done|]. split; [|split; [|split; [|split]]].
  - intros k n Hn Hk Hcomp Hkn. destruct (decide (k = p)) as [->|Hkp].
    + rewrite Hp1 in Hn. injection Hn as <-. rewrite (iter_children_replace _ _ ch) by done. by apply (Hcomp p m).
    + rewrite Ho in Hn by done. by apply (Hcomp k).
  - intros k n j' e n' Hn He Hhash Hpre Hn'.
    assert (Hold : forall n0 j0, db !! k = Some n0 -> entry n0 j0 e -> (k = p -> j0 <> i) -> hash n' = Some (child_hash e)).
    { intros n0 j0 Hn0 He0 Hji. apply (Hh k n0 j0 e n'); [done|done|done|tauto|]. rewrite Ho in Hn'; [done| |].
      - intros E. destruct Hpre. rewrite E. apply strict_prefix.
      - intros E. by destruct Hpre; rewrite E. }
    destruct (decide (k = p)) as [->|Hkp].
    + rewrite Hp1 in Hn. injection Hn as <-. apply entry_with in He as [[-> [= <-]]|[Hj' He]]; [done|].
      by apply (Hold m j').
    + destruct (decide (k = x)) as [->|Hkx].
      * rewrite Hx1 in Hn. injection Hn as <-. pose proof (Honly _ _ He) as ->. unfold entry in He, Hj.
        rewrite Hj in He. injection He as <-. cbn in Hhash, Hn', Hpre |- *. destruct Hhx as [->| ->]; [done|].
        eapply (Hh p m i ch); [done|done|done|tauto|]. rewrite Htgt in Hn', Hpre. rewrite Ho in Hn'; [done| |].
        -- rewrite Es. apply app_cons_ne.
        -- intros E. by destruct Hpre; rewrite E.
      * rewrite Ho in Hn by done. by apply (Hold n j').
  - apply (root_data_with _ _ p m i _ Hp Hp1). intros Hpn. by apply Ho.
  - intros kd. unfold db1. rewrite !node_count_insert, lookup_insert_ne, Hp, Hfresh by done. cbn [mbind option_bind].
    rewrite (kind_replace _ _ ch) by done. rewrite kind_val_None. lia.
  - unfold db1. rewrite contents_insert_same.
    + rewrite contents_insert. destruct (value nx); [done|]. apply delete_id. by rewrite lookup_contents, Hfresh.
    + cbn. rewrite !lookup_contents, lookup_insert_ne by done. by rewrite Hp.
Qed.

Lemma hash_ok_blake2b l : hash_ok (blake2b_hash l).
Proof.
  unfold hash_ok, blake2b_hash. destruct (blake2b_bytes l) as [Hl Hb]. pose proof (be_value_range _ Hb) as H.
  by rewrite Hl in H.
Qed.
Lemma hash_leaf k v : hash (new_leaf k v) = Some (blake2b_hash (node_content (new_leaf k v))).
Proof. done. Qed.
Lemma leaf_no_entry k v j c : ~ entry (new_leaf k v) j c.
Proof. unfold entry. by intros H%no_children_entry. Qed.

(** A new leaf where a node has no entry; [K] are the targets exempted already. *)
Lemma add_leaf_ok r db p m i t v K h : wf r db -> hashes_ok (fun k => k `prefix_of` K) db -> p `prefix_of` K ->
  db !! p = Some m -> children m !! i = Some None -> key_ok (p ++ i :: t) ->
  range_contains r (p ++ i :: t) = false -> hash (new_leaf (p ++ i :: t) v) = Some h ->
  let k := p ++ i :: t in
  let m1 := with_entry m i (Some (mk_child (i :: t) h)) in
  let db1 := <[p := m1]> (<[k := new_leaf k v]> db) in
  db !! k = None /\ wf r db1 /\
  (forall k' n, db1 !! k' = Some n -> k' <> p -> (forall n', db !! k' = Some n' -> compact_at k' n') -> compact_at k' n) /\
  hashes_ok (fun k => k `prefix_of` K) db1 /\ root_data <$> (db1 !! []) = root_data <$> (db !! []) /\
  (forall kd, node_count kd db1 =
     node_count kd db + kind_val kd (Some TrieNodeKind.Leaf) - kind_val kd (kind m) + kind_val kd (kind m1)) /\
  contents db1 = <[k := v]> (contents db).
Proof.
  intros Hwf Hh HpK Hp Hi Hok Hr Hhash k m1 db1.
  assert (Hhok : hash_ok h) by (rewrite hash_leaf in Hhash; injection Hhash as <-; apply hash_ok_blake2b).
  pose proof (app_cons_ne p i t) as Hkp. fold k in Hkp, Hok, Hr, Hhash. pose proof (app_cons_not_nil p i t) as Hkn. fold k in Hkn.
  assert (Hp1 : db1 !! p = Some m1) by apply lookup_insert_eq.
  assert (Hk1 : db1 !! k = Some (new_leaf k v)) by (unfold db1; by rewrite lookup_insert_ne, lookup_insert_eq).
  assert (Ho : forall k', k' <> p -> k' <> k -> db1 !! k' = db !! k').
  { intros k' H1 H2. unfold db1. by rewrite !lookup_insert_ne. }
  assert (Hfresh : db !! k = None).
  { destruct (db !! k) as [n|] eqn:E; [|done]. exfalso. by eapply (nothing_below_empty Hwf p m i k n t). }
  assert (Hwf1 : wf r db1).
  { apply (wf_add_entry Hwf db1 p m i t h); [done..| |done]. fold k. rewrite Hr. eexists. split; [done|].
    split; [by apply node_wf_leaf|]. split; [done|]. apply leaf_no_entry. }
  assert (Hi1 : entry m1 i (mk_child (i :: t) h)) by (apply entry_with_new; by eapply lookup_lt_Some).
  split; [done|]. split; [done|]. split; [|split; [|split; [|split]]].
  - intros k' n Hn Hk' Hcomp. destruct (decide (k' = k)) as [->|Hne].
    + rewrite Hk1 in Hn. injection Hn as <-. intros _. left. cbn. eauto.
    + rewrite Ho in Hn by done. by apply Hcomp.
  - intros q n j e n' Hn He Hhs Hpre Hn'. destruct (decide (q ++ suffix e = k)) as [Ek|Hne].
    { rewrite Ek, Hk1 in Hn'. injection Hn' as <-.
      destruct (parent_unique Hwf1 _ _ _ _ _ _ _ _ Hn He Hp1 Hi1 Ek) as [-> ->].
      rewrite Hp1 in Hn. injection Hn as <-. unfold entry in He, Hi1. rewrite Hi1 in He. injection He as <-. done. }
    assert (Hold : forall n0, db !! q = Some n0 -> entry n0 j e -> hash n' = Some (child_hash e)).
    { intros n0 Hn0 He0. apply (Hh q n0 j e n'); [done|done|done|done|]. rewrite Ho in Hn'; [done| |done].
      intros E. destruct Hpre. by rewrite E. }
    destruct (decide (q = p)) as [->|Hqp].
    + rewrite Hp1 in Hn. injection Hn as <-. apply entry_with in He as [[-> [= <-]]|[Hj He]]; [done|by apply (Hold m)].
    + destruct (decide (q = k)) as [->|Hqk]; [rewrite Hk1 in Hn; injection Hn as <-; by apply leaf_no_entry in He|].
      rewrite Ho in Hn by done. by apply (Hold n).
  - apply (root_data_with _ _ p m i _ Hp Hp1). intros Hpn. by apply Ho.
  - intros kd. unfold db1. rewrite !node_count_insert, lookup_insert_ne, Hp, Hfresh by done. cbn [mbind option_bind].
    rewrite kind_val_None. change (kind (new_leaf k v)) with (Some TrieNodeKind.Leaf). lia.
  - unfold db1. rewrite contents_insert_same; [by rewrite contents_insert|].
    cbn. rewrite !lookup_contents, lookup_insert_ne by done. by rewrite Hp.
Qed.

(** A new stump where a node has no entry. *)
Lemma add_stump_ok r db p m i t K : wf r db -> hashes_ok (fun k => k `prefix_of` K) db ->
  p `prefix_of` K -> db !! p = Some m -> children m !! i = Some None -> key_ok (p ++ i :: t) ->
  range_contains r (p ++ i :: t) = true ->
  let m1 := with_entry m i (Some (mk_child (i :: t) 0)) in
  let db1 := <[p := m1]> db in
  wf r db1 /\
  (forall k' n, db1 !! k' = Some n -> k' <> p -> (forall n', db !! k' = Some n' -> compact_at k' n') -> compact_at k' n) /\
  hashes_ok (fun k => k `prefix_of` K) db1 /\ root_data <$> (db1 !! []) = root_data <$> (db !! []) /\
  (forall kd, node_count kd db1 = node_count kd db - kind_val kd (kind m) + kind_val kd (kind m1)) /\
  contents db1 = contents db.
Proof.
  intros Hwf Hh HpK Hp Hi Hok Hr m1 db1. set (k := p ++ i :: t) in *.
  assert (Hp1 : db1 !! p = Some m1) by apply lookup_insert_eq.
  assert (Ho : forall k', k' <> p -> db1 !! k' = db !! k') by (intros k' H1; unfold db1; by rewrite lookup_insert_ne).
  pose proof (app_cons_ne p i t) as Hkp. fold k in Hkp.
  assert (Hwf1 : wf r db1).
  { apply (wf_add_entry Hwf db1 p m i t 0); [done..|apply hash_ok_0|done| |].
    - fold k. rewrite Hr, Ho by done. destruct (db !! k) as [n|] eqn:E; [|done]. exfalso.
      by eapply (nothing_below_empty Hwf p m i k n t).
    - intros k' H1 H2. by apply Ho. }
  split; [done|]. split; [|split; [|split; [|split]]].
  - intros k' n Hn Hk' Hcomp. rewrite Ho in Hn by done. by apply Hcomp.
  - intros q n j e n' Hn He Hhs Hpre Hn'.
    assert (Hold : forall n0, db !! q = Some n0 -> entry n0 j e -> hash n' = Some (child_hash e)).
    { intros n0 Hn0 He0. apply (Hh q n0 j e n'); [done|done|done|done|]. rewrite Ho in Hn'; [done|].
      intros E. destruct Hpre. by rewrite E. }
    destruct (decide (q = p)) as [->|Hqp].
    + rewrite Hp1 in Hn. injection Hn as <-. apply entry_with in He as [[-> [= <-]]|[Hj He]]; [done|by apply (Hold m)].
    + rewrite Ho in Hn by done. by apply (Hold n).
  - apply (root_data_with _ _ p m i _ Hp Hp1). intros Hpn. by apply Ho.
  - intros kd. unfold db1. rewrite !node_count_insert, Hp. cbn [mbind option_bind]. lia.
  - apply contents_insert_same. cbn. by rewrite lookup_contents, Hp.
Qed.

(** ** Keys *)

Lemma key_le_prefix (a x k : key) : key_le a x = true -> x `prefix_of` k -> key_le a k = true.
Proof.
  intros Ha [y ->]. revert a Ha. induction x as [|b x IH]; intros [|c a]; unfold key_le in *; cbn in *; try done.
  - by destruct y.
  - destruct (c ?= b)%nat; [|done|done]. apply IH.
Qed.
Lemma range_prefix r x k : x `prefix_of` k -> range_contains r k = false -> range_contains r x = false.
Proof.
  destruct r as [a|]; [|done]. cbn. intros Hp Hk. destruct (key_le a x) eqn:E; [|done].
  by rewrite (key_le_prefix a x k) in Hk.
Qed.
Lemma lcp_split (a b : key) : ~ a `prefix_of` b -> ~ b `prefix_of` a ->
  exists j w j' w', a = lcp a b ++ j :: w /\ b = lcp a b ++ j' :: w' /\ j <> j'.
Proof.
  revert b. induction a as [|x a IH]; intros [|y b] Ha Hb; [by destruct Ha|by destruct Ha; apply prefix_nil|by destruct Hb; apply prefix_nil|].
  cbn. destruct (Nat.eqb_spec x y) as [->|Hne]; [|by exists x, a, y, b].
  destruct (IH b) as (j & w & j' & w' & E1 & E2 & Hne).
  - intros H. by apply Ha, prefix_cons.
  - intros H. by apply Hb, prefix_cons.
  - exists j, w, j', w'. cbn. by rewrite <-E1, <-E2.
Qed.
Lemma key_ok_lcp a b : key_ok a -> key_ok (lcp a b).
Proof. intros H. eapply key_ok_prefix; [apply lcp_prefix_l|done]. Qed.

Lemma new_empty_one k j c : (j < 16)%nat -> forall j' c', entry (with_entry (new_empty k) j (Some c)) j' c' -> j' = j.
Proof. intros Hj j' c' [[-> _]|[_ H%no_children_entry]]%entry_with; done. Qed.
Lemma new_leaf_one k v j c : forall j' c', entry (with_entry (new_leaf k v) j (Some c)) j' c' -> j' = j.
Proof. intros j' c' [[-> _]|[_ H%no_children_entry]]%entry_with; done. Qed.

Lemma compact_by db1 x : (forall n, db1 !! x = Some n -> compact_at x n) ->
  (forall k n, db1 !! k = Some n -> k <> x -> compact_at k n) -> compact db1.
Proof. intros Hx H k n Hn. destruct (decide (k = x)) as [->|Hne]; [by apply Hx|by apply H]. Qed.

Lemma below_key_ok (x : key) j w : key_ok (x ++ j :: w) -> (j < 16)%nat.
Proof. intros [H _]. apply Forall_app in H as [_ H]. by apply Forall_cons in H as [H _]. Qed.

(** ** Joining a node or a stump *)

Section Join.
Context (om : option (gmap key (list Z))) (r ri : range) (s : Txn) (Hinv : trie_inv r ri (table s)) (Hrec : recorded om s).
Context (p : TrieNode) (rest : list TrieNode) (i : nat) (u t : key) (ch : TrieNodeChild) (h : Z).
Context (Hpath : path_to (table s) (p :: rest) (node_key p ++ i :: u)).
Context (Hch : entry p i ch) (Hsuf : suffix ch = i :: u) (Hh : h = 0 \/ h = child_hash ch).
Context (v : list Z) (Hok : key_ok (node_key p ++ i :: t)) (Hr : range_contains r (node_key p ++ i :: t) = false).
Context (Hnp : ~ u `prefix_of` t).
Context (Q : unit -> Txn -> Prop) (QE : MerkleRadixTrieError -> Txn -> Prop).
Let k := node_key p ++ i :: t.
Let c := node_key p ++ i :: u.
Context (HQ : forall s', step_ok om r ri (<[k := v]> (contents (table s))) s' -> Q tt s').

Lemma join_top : table s !! node_key p = Some p /\ node_wf (node_key p) p /\ key_ok c /\ hash_ok h.
Proof.
  destruct (path_to_top _ _ _ _ Hpath) as (_ & _ & _ & _ & Hp & Hpwf & _).
  destruct (nw_entry _ _ Hpwf _ _ Hch) as (_ & Hcok & Hhok). rewrite Hsuf in Hcok.
  split; [done|]. split; [done|]. split; [done|]. destruct Hh as [->| ->]; [apply hash_ok_0|done].
Qed.

Lemma wp_join_hybrid j w : u = t ++ j :: w ->
  wp (put_hybrid k v c h) (fun ncu s' => wp (update_keys (ncu.1 :: p :: rest) ncu.2) Q QE s') QE s.
Proof.
  intros Eu. destruct join_top as (Hp & Hpwf & Hcok & Hhok). destruct Hinv as [Hwf Hcomp Hhs Hroot].
  assert (Ec : c = k ++ j :: w) by (unfold c, k; by rewrite Eu, <-app_assoc).
  set (nx := with_entry (new_leaf k v) j (Some (mk_child (j :: w) h))).
  assert (Hj : (j < 16)%nat) by (rewrite Ec in Hcok; by eapply below_key_ok).
  assert (Hnx : node_wf k nx) by (apply node_wf_with; [by apply node_wf_leaf|by rewrite <-Ec|done]).
  assert (Hnj : entry nx j (mk_child (j :: w) h)) by (by apply entry_with_new).
  destruct (between_ok r (table s) (node_key p) p i t j w ch h nx Hwf Hhs Hp Hch) as
    (Hf & Hwf1 & Hc1 & Hh1 & Hr1 & Hn1 & Hct1); [by rewrite Hsuf, Eu|done|done|done|done|done|apply new_leaf_one|].
  fold k in Hf, Hwf1, Hc1, Hh1, Hr1, Hn1, Hct1. unfold put_hybrid.
  wp_step. apply wp_unwrap_result with nx. { rewrite Ec. apply put_child_app; [by apply node_wf_leaf|by rewrite <-Ec]. }
  wp_step. eapply wp_put_node; [done|cbn; by rewrite lookup_contents, Hf|]. intros s1 Hs1 Hrec1. cbn in Hs1.
  apply wp_ret. cbn [fst snd].
  assert (Hlink : link k (p :: rest) (table s1) =
    <[node_key p := with_entry p i (Some (mk_child (i :: t) 0))]> (<[k := nx]> (table s))).
  { cbn [link]. rewrite Hs1. unfold k. by rewrite (reset_entry_app (node_key p)). }
  eapply (wp_update_keys om r nx (p :: rest) k c); [by rewrite Hs1, lookup_insert_eq|done|done| |by exists i, t| |done|].
  - rewrite Hs1. by apply path_to_fresh.
  - by rewrite Hlink.
  - intros s2 Hs2 Hrec2. apply HQ. rewrite Hlink in Hs2. split; [|split]; [| |done].
    + rewrite Hs2. apply (trie_inv_finish r ri _ (table s)); [done|done| |done|done|].
      * apply (compact_by _ k); [|by intros; eapply Hc1]. intros n Hn. rewrite lookup_insert_ne, lookup_insert_eq in Hn by (apply not_eq_sym, app_cons_ne).
        injection Hn as <-. intros _. left. cbn. eauto.
      * intros kd Hkd. by rewrite Hn1, (kind_hybrid nx v j _ eq_refl eq_refl Hnj); destruct kd.
    + by rewrite Hs2, contents_finish, Hct1.
Qed.

Lemma wp_join_sibling : ~ k `prefix_of` c ->
  wp (put_sibling k v c h) (fun ncu s' => wp (update_keys (ncu.1 :: p :: rest) ncu.2) Q QE s') QE s.
Proof.
  intros Hkc. destruct join_top as (Hp & Hpwf & Hcok & Hhok). destruct Hinv as [Hwf Hcomp Hhs Hroot].
  destruct (lcp_split u t) as (j & w & j' & w' & Eu & Et & Hjj); [done|intros H; apply Hkc; by apply prefix_app, prefix_cons|].
  set (z := lcp u t) in *. set (x := node_key p ++ i :: z).
  assert (Ec : c = x ++ j :: w) by (unfold c, x; by rewrite Eu, <-app_assoc).
  assert (Ek : k = x ++ j' :: w') by (unfold k, x; by rewrite Et, <-app_assoc).
  assert (Hlcp : lcp c k = x) by (unfold c, k, x; rewrite lcp_app; cbn; by rewrite Nat.eqb_refl).
  assert (Hxr : range_contains r x = false) by (apply (range_prefix r x k); [rewrite Ek; apply strict_prefix|done]).
  assert (Hj : (j < 16)%nat) by (rewrite Ec in Hcok; by eapply below_key_ok).
  assert (Hxok : key_ok x) by (rewrite Ec in Hcok; by eapply key_ok_app_l).
  set (nx := with_entry (new_empty x) j (Some (mk_child (j :: w) h))).
  assert (Hnx : node_wf x nx) by (apply node_wf_with; [by apply node_wf_empty|by rewrite <-Ec|done]).
  assert (Hnj : entry nx j (mk_child (j :: w) h)) by (by apply entry_with_new).
  destruct (between_ok r (table s) (node_key p) p i z j w ch h nx Hwf Hhs Hp Hch) as
    (Hf & Hwf1 & Hc1 & Hh1 & Hr1 & Hn1 & Hct1); [by rewrite Hsuf, Eu|done|done|done|done|done|by apply new_empty_one|].
  fold x in Hf, Hwf1, Hc1, Hh1, Hr1, Hn1, Hct1.
  set (dbm := <[node_key p := with_entry p i (Some (mk_child (i :: z) 0))]> (<[x := nx]> (table s))) in *.
  assert (Hxp : x <> node_key p) by apply app_cons_ne.
  assert (Hxm : dbm !! x = Some nx) by (unfold dbm; by rewrite lookup_insert_ne, lookup_insert_eq).
  set (hl := blake2b_hash (node_content (new_leaf k v))).
  destruct (add_leaf_ok r dbm x nx j' w' v x hl Hwf1 Hh1) as (Hf2 & Hwf2 & Hc2 & Hh2 & Hr2 & Hn2 & Hct2);
    [done|done| |by rewrite <-Ek|by rewrite <-Ek|by rewrite <-Ek|].
  { unfold nx. cbn [children with_entry set_children new_empty]. rewrite list_lookup_insert_ne by done.
    apply lookup_replicate_2. apply (below_key_ok x j' w'). by rewrite <-Ek. }
  rewrite <-Ek in Hf2, Hwf2, Hc2, Hh2, Hr2, Hn2, Hct2.
  set (nx' := with_entry nx j' (Some (mk_child (j' :: w') hl))) in *.
  assert (Hkx : k <> x) by (rewrite Ek; apply app_cons_ne). assert (Hkp : k <> node_key p) by apply app_cons_ne.
  assert (Hkf : table s !! k = None) by (unfold dbm in Hf2; by rewrite !lookup_insert_ne in Hf2).
  unfold put_sibling. wp_step. eapply wp_put_node; [done|cbn; by rewrite lookup_contents, Hkf|]. intros s1 Hs1 Hrec1.
  cbn in Hs1. wp_step. apply wp_unwrap_result with nx.
  { rewrite Hlcp, Ec. apply put_child_app; [by apply node_wf_empty|by rewrite <-Ec]. }
  wp_step. unfold hash_assert. rewrite hash_leaf. apply wp_lift; [|done|done]. intros a [= <-]. fold hl.
  wp_step. apply wp_unwrap_result with nx'. { cbn. rewrite Ek. apply put_child_app; [done|by rewrite <-Ek]. }
  wp_step. eapply wp_put_node; [done| |].
  { cbn. rewrite Hs1, lookup_contents, lookup_insert_ne by done. by rewrite Hf. }
  intros s2 Hs2 Hrec2. change (node_key nx') with x in Hs2. rewrite Hs1 in Hs2. apply wp_ret. cbn [fst snd].
  assert (Hlink : link x (p :: rest) (table s2) = <[x := nx']> (<[k := new_leaf k v]> dbm)).
  { cbn [link]. rewrite Hs2. unfold x. rewrite (reset_entry_app (node_key p)) by done. fold x. unfold dbm.
    rewrite (insert_insert_ne _ k (node_key p)), (insert_insert_ne _ x (node_key p)), (insert_insert_ne _ k x), insert_insert_eq by done. done. }
  eapply (wp_update_keys om r nx' (p :: rest) x c); [by rewrite Hs2, lookup_insert_eq|done|done| |by exists i, z|by rewrite Hlink|done|].
  { rewrite Hs2. apply path_to_fresh; [by apply path_to_fresh|by rewrite lookup_insert_ne]. }
  intros s3 Hs3 Hrec3. apply HQ. rewrite Hlink in Hs3. split; [|split]; [| |done].
  - rewrite Hs3. apply (trie_inv_finish r ri _ (table s)); [done|done| |done|by rewrite Hr2|].
    + apply (compact_by _ x); [|intros k' n Hn Hne; apply (Hc2 k' n Hn Hne); intros n' Hn'; by apply (Hc1 k' n' Hn')].
      intros n Hn. rewrite lookup_insert_eq in Hn. injection Hn as <-. intros _. right.
      pose proof (iter_children_with nx j' None (Some (mk_child (j' :: w') hl))) as Hlen. cbn [some_val] in Hlen.
      pose proof (iter_children_entry _ _ _ Hnj). enough (children nx !! j' = Some None) by (unfold nx'; specialize (Hlen ltac:(done)); lia).
      unfold nx. cbn [children with_entry set_children new_empty]. rewrite list_lookup_insert_ne by done.
      apply lookup_replicate_2. apply (below_key_ok x j' w'). by rewrite <-Ek.
    + intros kd Hkd. rewrite Hn2, Hn1, !(kind_branch nx j _ eq_refl eq_refl Hnj).
      assert (entry nx' j (mk_child (j :: w) h)) as Hnj' by (by apply entry_with_ne).
      rewrite (kind_branch nx' j _ eq_refl eq_refl Hnj'). solve_counts kd.
  - rewrite Hs3, contents_finish, Hct2, Hct1. done.
Qed.
End Join.

(** The entry of a node towards a key below it. *)
Lemma checked_add_ok (p t : key) : key_ok (p ++ t) -> checked_add p t = Some (p ++ t).
Proof.
  intros [_ Hl]. rewrite length_app in Hl. unfold checked_add.
  destruct (Nat.ltb_spec (MAX_BYTES * 2) (length p + length t)); [lia|done].
Qed.
Lemma entry_key_ok r p c : key_ok (p ++ suffix c) ->
  entry_key c p r = if range_contains r (p ++ suffix c) then Err ChildIsStump else Ok (p ++ suffix c).
Proof. intros Hk. unfold entry_key, is_stump. by rewrite checked_add_ok. Qed.

Lemma child_towards p n i t : node_wf p n -> key_ok (p ++ i :: t) ->
  (children n !! i = Some None /\ child n (p ++ i :: t) = Err ChildDoesNotExist) \/
  (exists c, entry n i c /\ child n (p ++ i :: t) = Ok c).
Proof.
  intros Hn Hk. unfold child, child_index. rewrite (nw_key _ _ Hn), key_child_index_app. cbn [mbind outcome_bind].
  unfold array_get. destruct (lookup_lt_is_Some_2 (children n) i) as [[c|] E]; [by eapply nibble_index| |].
  - right. exists c. split; [done|]. by rewrite E.
  - left. split; [done|]. by rewrite E.
Qed.
Lemma child_key_towards r p n i t : node_wf p n -> key_ok (p ++ i :: t) ->
  (children n !! i = Some None /\ child_key n (p ++ i :: t) r = Err ChildDoesNotExist) \/
  (exists c, entry n i c /\ key_ok (p ++ suffix c) /\ child_key n (p ++ i :: t) r =
     if range_contains r (p ++ suffix c) then Err ChildIsStump else Ok (p ++ suffix c)).
Proof.
  intros Hn Hk. unfold child_key. destruct (child_towards _ _ _ _ Hn Hk) as [[H1 ->]|(c & H1 & ->)]; [by left|].
  right. exists c. destruct (nw_entry _ _ Hn _ _ H1) as (_ & Hc & _). split; [done|]. split; [done|].
  cbn [mbind outcome_bind]. rewrite (nw_key _ _ Hn). by apply entry_key_ok.
Qed.

Lemma wp_child_entry p n i t c Q (QE : MerkleRadixTrieError -> Txn -> Prop) s : node_wf p n -> key_ok (p ++ i :: t) ->
  entry n i c -> Q (p ++ suffix c, child_hash c) s -> wp (child_entry n (p ++ i :: t)) Q QE s.
Proof.
  intros Hn Hk Hc HQ. unfold child_entry. wp_step. apply wp_unwrap_result with i.
  { unfold child_index. rewrite (nw_key _ _ Hn). apply key_child_index_app. }
  wp_step. unfold array_get. rewrite Hc. apply wp_lift; [|done|done]. intros a [= <-].
  wp_step. apply wp_expect with c; [done|]. wp_step. apply wp_expect with (p ++ suffix c); [|done].
  rewrite (nw_key _ _ Hn). apply checked_add_ok. by apply (nw_entry _ _ Hn _ _ Hc).
Qed.

(** ** [put_raw] *)

(** The current node and the key have the same parent entry. *)
Definition towards (k : key) (cur : key) (path : list TrieNode) : Prop :=
  match path with
  | [] => cur = []
  | p :: _ => exists i t u, k = node_key p ++ i :: t /\ cur = node_key p ++ i :: u
  end.

Section PutRaw.
Context (om : option (gmap key (list Z))) (r ri : range) (k : key) (v : list Z) (s : Txn).
Context (Hinv : trie_inv r ri (table s)) (Hrec : recorded om s).
Context (Hok : key_ok k) (Hne : k <> []) (Hr : range_contains r k = false).
Context (Q : unit -> Txn -> Prop) (QE : MerkleRadixTrieError -> Txn -> Prop).
Context (HQ : forall s', step_ok om r ri (<[k := v]> (contents (table s))) s' -> Q tt s').

Let Post (x : list TrieNode * CountUpdates) (s' : Txn) : Prop := wp (update_keys x.1 x.2) Q QE s'.

(** Joining at [p] the target [c] of its entry, for both kinds of join. *)
Lemma wp_join (p : TrieNode) rest i u t ch h (b : bool) :
  path_to (table s) (p :: rest) (node_key p ++ i :: u) -> entry p i ch -> suffix ch = i :: u ->
  (h = 0 \/ h = child_hash ch) -> k = node_key p ++ i :: t -> ~ node_key p ++ i :: u `prefix_of` k ->
  b = bool_decide (k `prefix_of` node_key p ++ i :: u) ->
  wp (if b then put_hybrid k v (node_key p ++ i :: u) h else put_sibling k v (node_key p ++ i :: u) h)
    (fun ncu s' => wp (update_keys (ncu.1 :: p :: rest) ncu.2) Q QE s') QE s.
Proof.
  intros Hpath Hch Hsuf Hh Ek Hnp ->.
  assert (Hnp' : ~ u `prefix_of` t) by (intros H; apply Hnp; rewrite Ek; by apply prefix_app, prefix_cons).
  case_bool_decide as Hb.
  - rewrite Ek in Hb. apply prefix_app_cons in Hb as [_ Hb]. destruct (prefix_strict t u Hb) as (j & w & Eu).
    { intros ->. by apply Hnp'. }
    rewrite Ek in *. by eapply (wp_join_hybrid om r ri s Hinv Hrec p rest i u t ch h); eauto.
  - rewrite Ek in *. by eapply (wp_join_sibling om r ri s Hinv Hrec p rest i u t ch h); eauto.
Qed.

(** Overwriting the value of an existing node. *)
Lemma wp_put_here cur path : table s !! k = Some cur -> path_to (table s) path k ->
  wp ('(cur_node, old) ← unwrap_result (put_value cur v);
      put_node cur_node (old_value old);;
      mret (cur_node :: path, from_update (kind cur) (kind cur_node))) Post QE s.
Proof.
  intros Hcur Hpath. destruct Hinv as [Hwf Hcomp Hhs Hroot].
  destruct (wf_non_root _ _ Hwf _ _ Hcur Hne) as [Hrd _]. pose proof (wf_node _ _ Hwf _ _ Hcur) as Hn.
  set (cur' := set_node_value cur (Some v)).
  wp_step. apply wp_unwrap_result with (cur', value cur). { unfold put_value, is_root. by rewrite Hrd. }
  wp_step. assert (Hk' : node_key cur' = k) by apply (nw_key _ _ Hn).
  eapply wp_put_node; [done|rewrite Hk', lookup_contents, Hcur; by destruct (value cur) eqn:E; cbn; rewrite E|].
  intros s1 Hs1 Hrec1. rewrite Hk' in Hs1. apply wp_ret. unfold Post. cbn [fst snd].
  assert (Hct : contents (table s1) = <[k := v]> (contents (table s))) by (by rewrite Hs1, contents_insert).
  apply (wp_update_proper om r ri (table s) cur' path k); [done|by rewrite Hs1, lookup_insert_eq|done|..].
  - rewrite Hs1. apply path_to_insert; [done|]. intros (i & t & E). by apply eq_sym, app_cons_ne in E.
  - rewrite Hs1. eapply wf_update; [done|done|]. split; [|done| |eauto|eauto].
    + intros k' [H1 H2 H3 H4]. split; [done|done|done|exact H4].
    + rewrite Hrd. by intros [? ?].
  - rewrite Hs1. apply (compact_by _ k).
    + intros n Hn'. rewrite lookup_insert_eq in Hn'. injection Hn' as <-. intros _. left. cbn. eauto.
    + intros k' n Hn' Hk'' Hnil. rewrite lookup_insert_ne in Hn' by done. by apply (Hcomp k').
  - rewrite Hs1. intros q n j e m Hq He Hhash Hpre Hm. rewrite lookup_insert_ne in Hm.
    + destruct (decide (q = k)) as [->|Hqk].
      * rewrite lookup_insert_eq in Hq. injection Hq as <-. apply (Hhs k cur j e m); tauto.
      * rewrite lookup_insert_ne in Hq by done. apply (Hhs q n j e m); tauto.
    + intros E. destruct Hpre. by rewrite <-E.
  - rewrite Hs1, lookup_insert_ne by done. done.
  - intros kd Hkd. rewrite Hs1, node_count_insert, Hcur. cbn [mbind option_bind]. unfold from_update.
    rewrite cu_get_apply by done.
    assert (cu_get no_counts kd = 0) as -> by (by destruct kd). lia.
  - done.
  - intros s2 Hs2. apply HQ. by rewrite <-Hct.
Qed.

(** A new leaf below a node without an entry for it. *)
Lemma wp_put_leaf cur path i t : table s !! node_key cur = Some cur -> path_to (table s) path (node_key cur) ->
  k = node_key cur ++ i :: t -> children cur !! i = Some None ->
  wp (put_node (new_leaf k v) OldNone;;
      h ← lift (hash_assert (new_leaf k v));
      cur_node ← unwrap_result (put_child cur (node_key (new_leaf k v)) h);
      put_node cur_node Unchanged;;
      mret (cur_node :: path, apply_update (mk_counts 0 0 1) (kind cur) (kind cur_node))) Post QE s.
Proof.
  intros Hcur Hpath Ek Hi. destruct Hinv as [Hwf Hcomp Hhs Hroot]. pose proof (wf_node _ _ Hwf _ _ Hcur) as Hn.
  set (h := blake2b_hash (node_content (new_leaf k v))).
  destruct (add_leaf_ok r (table s) (node_key cur) cur i t v (node_key cur) h Hwf) as (Hf & Hwf1 & Hc1 & Hh1 & Hr1 & Hn1 & Hct1);
    [|done|done|done|by rewrite <-Ek|by rewrite <-Ek|by rewrite <-Ek|].
  { intros q n j e m Hq He Hhash _ Hm. apply (Hhs q n j e m); tauto. }
  rewrite <-Ek in Hf, Hwf1, Hc1, Hh1, Hr1, Hn1, Hct1. set (cur' := with_entry cur i (Some (mk_child (i :: t) h))) in *.
  assert (Hkc : k <> node_key cur) by (rewrite Ek; apply app_cons_ne).
  wp_step. eapply wp_put_node; [done|cbn; by rewrite lookup_contents, Hf|]. intros s1 Hs1 Hrec1. cbn in Hs1.
  wp_step. unfold hash_assert. rewrite hash_leaf. apply wp_lift; [|done|done]. intros a [= <-]. fold h.
  wp_step. apply wp_unwrap_result with cur'. { cbn [node_key new_leaf]. rewrite Ek. apply put_child_app; [done|by rewrite <-Ek]. }
  wp_step. eapply wp_put_node; [done| |].
  { cbn [node_key cur' with_entry set_children value old_value_ok]. rewrite Hs1, lookup_contents, lookup_insert_ne by done. by rewrite Hcur. }
  intros s2 Hs2 Hrec2. change (node_key cur') with (node_key cur) in Hs2. rewrite Hs1 in Hs2. apply wp_ret. unfold Post. cbn [fst snd].
  apply (wp_update_proper om r ri (table s) cur' path (node_key cur)); rewrite ?Hs2; [done|by rewrite lookup_insert_eq|done|..].
  - apply path_to_insert; [by apply path_to_fresh|]. intros (i' & t' & E). by apply eq_sym, app_cons_ne in E.
  - done.
  - apply (compact_by _ (node_key cur)).
    + intros n Hn'. rewrite lookup_insert_eq in Hn'. injection Hn' as <-. intros Hnil.
      pose proof (iter_children_with cur i None (Some (mk_child (i :: t) h)) Hi) as Hlen. cbn [some_val] in Hlen.
      destruct (Hcomp _ _ Hcur Hnil) as [Hv|Hl]; [by left|right]. unfold cur'. lia.
    + intros k' n Hn' Hk'. apply (Hc1 k' n Hn' Hk'). intros n' Hn'' Hnil. by apply (Hcomp k').
  - done.
  - done.
  - intros kd Hkd. rewrite Hn1, cu_get_apply by done. solve_counts kd.
  - done.
  - intros s3 Hs3. apply HQ. by rewrite <-Hct1.
Qed.

Lemma wp_put_loop fuel : forall cur path,
  (1 <= fuel)%nat -> (length k + 2 <= fuel + length (node_key cur))%nat ->
  table s !! node_key cur = Some cur -> path_to (table s) path (node_key cur) -> towards k (node_key cur) path ->
  wp (put_loop fuel k v r cur path) Post QE s.
Proof.
  pose proof (ti_wf _ _ _ Hinv) as Hwf. induction fuel as [|fuel IH]; intros cur path Hf1 Hf2 Hcur Hpath Htow; [lia|].
  cbn [put_loop]. pose proof (wf_node _ _ Hwf _ _ Hcur) as Hn.
  unfold is_prefix. destruct (decide (node_key cur `prefix_of` k)) as [Hpre|Hpre].
  2:{ rewrite bool_decide_false by done. cbn [negb]. destruct path as [|p rest]; cbn in Htow.
      { destruct Hpre. rewrite Htow. apply prefix_nil. }
      destruct Htow as (i & t & u & Ek & Eu). destruct (path_to_top _ _ _ _ Hpath) as (j & c & Hc & Ec & _ & Hpwf & _).
      assert (i = j /\ suffix c = i :: u) as [<- Es].
      { destruct (nw_entry _ _ Hpwf _ _ Hc) as ((w & Ew) & _). rewrite Eu in Ec. apply app_inv_head in Ec. rewrite Ew in Ec.
        injection Ec as -> ->. done. }
      rewrite Eu in *. wp_step. eapply wp_mono; [eapply (wp_join p rest i u t c 0); [done|done|done|by left|done|done|done]| |done].
      intros [n cu] s' Hs'. apply wp_ret. exact Hs'. }
  rewrite bool_decide_true by done. cbn [negb]. case_bool_decide as Heq.
  { rewrite Heq in Hcur, Hpath. by apply wp_put_here. }
  destruct (prefix_strict _ _ Hpre Heq) as (i & t & Ek).
  assert (Hok' : key_ok (node_key cur ++ i :: t)) by (by rewrite <-Ek).
  destruct (child_key_towards r _ _ i t Hn Hok') as [[Hi Hck]|(c & Hc & Hcok & Hck)]; rewrite <-Ek in Hck; rewrite Hck.
  { by eapply wp_put_leaf. }
  destruct (nw_entry _ _ Hn _ _ Hc) as ((u & Eu) & _).
  assert (Hpath' : path_to (table s) (cur :: path) (node_key cur ++ suffix c)).
  { by eapply path_extend. }
  destruct (range_contains r (node_key cur ++ suffix c)) eqn:Hrc.
  - wp_step. rewrite Ek. eapply wp_child_entry; [done|done|done|]. rewrite <-Ek. wp_step. rewrite Eu in *.
    eapply wp_mono; [eapply (wp_join cur path i u t c (child_hash c)); [done|done|done|by right|done| |]| |done].
    + intros H. rewrite (range_prefix r _ _ H Hr) in Hrc. done.
    + apply bool_decide_ext. split; [intros <-; apply lcp_prefix_l|]. intros H.
      apply (anti_symm prefix); [apply lcp_prefix_r|by apply lcp_longest].
    + intros [n cu] s' Hs'. apply wp_ret. exact Hs'.
  - destruct (wf_closed _ _ Hwf _ _ _ _ Hcur Hc Hrc) as [cn Hcn]. pose proof (wf_node _ _ Hwf _ _ Hcn) as Hcnwf.
    apply wp_bind. apply wp_gets. rewrite Hcn. cbn [fmap option_fmap option_map]. wp_step.
    apply wp_expect with cn; [f_equal; rewrite <-(nw_key _ _ Hcnwf) at 1; by destruct cn|].
    pose proof (nw_key _ _ Hcnwf) as Ecn. rewrite <-Ecn in Hcn, Hpath'. apply IH; [| |done|done|].
    + apply (f_equal length) in Ek. rewrite length_app in Ek. cbn in Ek. lia.
    + rewrite Ecn, length_app, Eu. cbn. lia.
    + cbn. exists i, t, u. by rewrite Ecn, Eu.
Qed.

(** [put_raw] writes the value and nothing else. *)
Lemma wp_put_raw : wp (put_raw k v r) Q QE s.
Proof.
  pose proof (ti_wf _ _ _ Hinv) as Hwf. destruct (wf_root _ _ Hwf) as (root & Hroot & _).
  pose proof (nw_key _ _ (wf_node _ _ Hwf _ _ Hroot)) as Ek. unfold put_raw.
  apply wp_bind. apply wp_gets. rewrite Hroot. cbn [fmap option_fmap option_map]. wp_step.
  apply wp_expect with root; [f_equal; rewrite <-Ek at 1; by destruct root|]. wp_step.
  eapply wp_mono; [apply wp_put_loop; rewrite ?Ek| |done].
  - unfold depth_fuel. lia.
  - destruct Hok. unfold depth_fuel. lia.
  - done.
  - constructor.
  - done.
  - by intros [path cu] s' Hs'.
Qed.
End PutRaw.

(** ** [update_within_missing_part_raw] *)

Section Missing.
Context (om : option (gmap key (list Z))) (r ri : range) (k : key) (s : Txn).
Context (Hinv : trie_inv r ri (table s)) (Hrec : recorded om s).
Context (Hok : key_ok k) (Hne : k <> []) (Hr : range_contains r k = true).
Context (Q : unit -> Txn -> Prop) (QE : MerkleRadixTrieError -> Txn -> Prop).
Context (HQ : forall s', step_ok om r ri (contents (table s)) s' -> Q tt s').

Let Post (x : list TrieNode * CountUpdates * bool) (s' : Txn) : Prop := wp (update_keys x.1.1 x.1.2) Q QE s'.

(** A new stump below a node without an entry for it. *)
Lemma wp_missing_stump cur path i t : table s !! node_key cur = Some cur -> path_to (table s) path (node_key cur) ->
  k = node_key cur ++ i :: t -> children cur !! i = Some None ->
  wp (node ← lift (put_child_no_hash cur k);
      put_node node Unchanged;;
      mret (node :: path, apply_update no_counts (kind cur) (kind node), true)) Post QE s.
Proof.
  intros Hcur Hpath Ek Hi. destruct Hinv as [Hwf Hcomp Hhs Hroot]. pose proof (wf_node _ _ Hwf _ _ Hcur) as Hn.
  destruct (add_stump_ok r (table s) (node_key cur) cur i t (node_key cur) Hwf) as (Hwf1 & Hc1 & Hh1 & Hr1 & Hn1 & Hct1);
    [by apply hashes_ok_weaken|done|done|done|by rewrite <-Ek|by rewrite <-Ek|].
  set (cur' := with_entry cur i (Some (mk_child (i :: t) 0))) in *.
  wp_step. apply wp_lift; [|unfold put_child_no_hash; rewrite Ek, put_child_app by (done || by rewrite <-Ek); done..].
  intros a Ha. unfold put_child_no_hash in Ha. rewrite Ek, put_child_app in Ha by (done || by rewrite <-Ek).
  injection Ha as <-. fold cur'. wp_step. eapply wp_put_node; [done|cbn; by rewrite lookup_contents, Hcur|].
  intros s2 Hs2 Hrec2. change (node_key cur') with (node_key cur) in Hs2. apply wp_ret. unfold Post. cbn [fst snd].
  apply (wp_update_proper om r ri (table s) cur' path (node_key cur)); rewrite ?Hs2; [done|by rewrite lookup_insert_eq|done|..].
  - apply path_to_insert; [done|]. intros (i' & t' & E). by apply eq_sym, app_cons_ne in E.
  - done.
  - apply (compact_by _ (node_key cur)).
    + intros n Hn'. rewrite lookup_insert_eq in Hn'. injection Hn' as <-. intros Hnil.
      pose proof (iter_children_with cur i None (Some (mk_child (i :: t) 0)) Hi) as Hlen. cbn [some_val] in Hlen.
      destruct (Hcomp _ _ Hcur Hnil) as [Hv|Hl]; [by left|right]. unfold cur'. lia.
    + intros k' n Hn' Hk'. apply (Hc1 k' n Hn' Hk'). intros n' Hn'' Hnil. by apply (Hcomp k').
  - done.
  - done.
  - intros kd Hkd. rewrite Hn1, cu_get_apply by done. solve_counts kd.
  - done.
  - intros s3 Hs3. apply HQ. by rewrite <-Hct1.
Qed.

(** The hash of an existing entry is reset. *)
Lemma wp_missing_reset cur path i c : table s !! node_key cur = Some cur -> path_to (table s) path (node_key cur) ->
  entry cur i c ->
  wp (node ← lift (put_child cur (node_key cur ++ suffix c) 0);
      put_node node Unchanged;;
      mret (node :: path, no_counts, false)) Post QE s.
Proof.
  intros Hcur Hpath Hc. destruct Hinv as [Hwf Hcomp Hhs Hroot]. pose proof (wf_node _ _ Hwf _ _ Hcur) as Hn.
  destruct (nw_entry _ _ Hn _ _ Hc) as ((u & Eu) & Hcok & _).
  set (cur' := with_entry cur i (Some (mk_child (i :: u) 0))).
  assert (Hput : put_child cur (node_key cur ++ suffix c) 0 = Ok cur') by (rewrite Eu in *; by apply put_child_app).
  rewrite Hput. wp_step. apply wp_lift; [|done|done]. intros a [= <-].
  wp_step. eapply wp_put_node; [done|cbn; by rewrite lookup_contents, Hcur|].
  intros s2 Hs2 Hrec2. change (node_key cur') with (node_key cur) in Hs2. apply wp_ret. unfold Post. cbn [fst snd].
  apply (wp_update_proper om r ri (table s) cur' path (node_key cur)); rewrite ?Hs2; [done|by rewrite lookup_insert_eq|done|..].
  - apply path_to_insert; [done|]. intros (i' & t' & E). by apply eq_sym, app_cons_ne in E.
  - eapply wf_update; [done|done|]. eapply same_shape_with; [done|done|apply hash_ok_0].
  - apply (compact_by _ (node_key cur)).
    + intros n Hn'. rewrite lookup_insert_eq in Hn'. injection Hn' as <-. intros Hnil.
      unfold cur'. rewrite (iter_children_replace _ _ c) by done. by apply (Hcomp _ _ Hcur).
    + intros k' n Hn' Hk' Hnil. rewrite lookup_insert_ne in Hn' by done. by apply (Hcomp k').
  - intros q n j e m Hq He Hhash Hpre Hm. rewrite lookup_insert_ne in Hm by (intros E; destruct Hpre; by rewrite <-E).
    destruct (decide (q = node_key cur)) as [->|Hqk].
    + rewrite lookup_insert_eq in Hq. injection Hq as <-. apply entry_with in He as [[-> [= <-]]|[Hj He]]; [done|].
      apply (Hhs (node_key cur) cur j e m); tauto.
    + rewrite lookup_insert_ne in Hq by done. apply (Hhs q n j e m); tauto.
  - apply (root_data_with _ _ (node_key cur) cur i (Some (mk_child (i :: u) 0)) Hcur); [by rewrite lookup_insert_eq|].
    intros Hnil. by rewrite lookup_insert_ne.
  - intros kd Hkd. rewrite node_count_insert, Hcur. cbn [mbind option_bind]. unfold cur'. rewrite (kind_replace _ _ c) by done.
    solve_counts kd.
  - done.
  - intros s3 Hs3. apply HQ. rewrite contents_insert_same in Hs3; [done|]. cbn. by rewrite lookup_contents, Hcur.
Qed.

(** A new branch for the child and a new stump. *)
Lemma wp_missing_split (p : TrieNode) rest i u t ch :
  path_to (table s) (p :: rest) (node_key p ++ i :: u) -> entry p i ch -> suffix ch = i :: u ->
  k = node_key p ++ i :: t -> ~ u `prefix_of` t -> ~ t `prefix_of` u ->
  let ck := node_key p ++ i :: u in
  range_contains r (lcp ck k) = false ->
  wp (new_parent ← lift (put_child (new_empty (lcp ck k)) ck (child_hash ch));
      new_parent ← lift (put_child_no_hash new_parent k);
      put_node new_parent OldNone;;
      mret (new_parent :: p :: rest, mk_counts 1 0 0, true)) Post QE s.
Proof.
  intros Hpath Hch Hsuf Ek0 Hut Htu ck Hxr. destruct Hinv as [Hwf Hcomp Hhs Hroot].
  destruct (path_to_top _ _ _ _ Hpath) as (_ & _ & _ & _ & Hp & Hpwf & _).
  destruct (nw_entry _ _ Hpwf _ _ Hch) as (_ & Hcok & Hhok). rewrite Hsuf in Hcok. fold ck in Hcok.
  destruct (lcp_split u t Hut Htu) as (j & w & j' & w' & Eu & Et & Hjj).
  set (z := lcp u t) in *. set (x := node_key p ++ i :: z).
  assert (Ec : ck = x ++ j :: w) by (unfold ck, x; by rewrite Eu, <-app_assoc).
  assert (Ek : k = x ++ j' :: w') by (rewrite Ek0; unfold x; by rewrite Et, <-app_assoc).
  assert (Hlcp : lcp ck k = x) by (rewrite Ek0; unfold ck, x; rewrite lcp_app; cbn; by rewrite Nat.eqb_refl).
  rewrite Hlcp in *. assert (Hxok : key_ok x) by (rewrite Ec in Hcok; by eapply key_ok_app_l).
  assert (Hj : (j < 16)%nat) by (rewrite Ec in Hcok; by eapply below_key_ok).
  set (nx := with_entry (new_empty x) j (Some (mk_child (j :: w) (child_hash ch)))).
  assert (Hnx : node_wf x nx) by (apply node_wf_with; [by apply node_wf_empty|by rewrite <-Ec|done]).
  assert (Hnj : entry nx j (mk_child (j :: w) (child_hash ch))) by (by apply entry_with_new).
  destruct (between_ok r (table s) (node_key p) p i z j w ch (child_hash ch) nx Hwf Hhs Hp Hch) as
    (Hf & Hwf1 & Hc1 & Hh1 & Hr1 & Hn1 & Hct1); [by rewrite Hsuf, Eu|done|by right|done|done|done|by apply new_empty_one|].
  fold x in Hf, Hwf1, Hc1, Hh1, Hr1, Hn1, Hct1.
  set (dbm := <[node_key p := with_entry p i (Some (mk_child (i :: z) 0))]> (<[x := nx]> (table s))) in *.
  assert (Hxp : x <> node_key p) by apply app_cons_ne.
  assert (Hxm : dbm !! x = Some nx) by (unfold dbm; by rewrite lookup_insert_ne, lookup_insert_eq).
  assert (Hnone : children nx !! j' = Some None).
  { unfold nx. cbn [children with_entry set_children new_empty]. rewrite list_lookup_insert_ne by done.
    apply lookup_replicate_2. apply (below_key_ok x j' w'). by rewrite <-Ek. }
  destruct (add_stump_ok r dbm x nx j' w' x Hwf1 Hh1) as (Hwf2 & Hc2 & Hh2 & Hr2 & Hn2 & Hct2);
    [done|done|done|by rewrite <-Ek|by rewrite <-Ek|].
  set (nx' := with_entry nx j' (Some (mk_child (j' :: w') 0))) in *.
  assert (Hput : put_child (new_empty x) ck (child_hash ch) = Ok nx).
  { rewrite Ec. apply put_child_app; [by apply node_wf_empty|by rewrite <-Ec]. }
  assert (Hput' : put_child_no_hash nx k = Ok nx') by (rewrite Ek; apply put_child_app; [done|by rewrite <-Ek]).
  rewrite Hput. wp_step. apply wp_lift; [|done|done]. intros a [= <-]. rewrite Hput'. wp_step. apply wp_lift; [|done|done].
  intros a [= <-]. wp_step. eapply wp_put_node; [done|cbn; by rewrite lookup_contents, Hf|].
  intros s2 Hs2 Hrec2. change (node_key nx') with x in Hs2. apply wp_ret. unfold Post. cbn [fst snd].
  assert (Hlink : link x (p :: rest) (table s2) = <[x := nx']> dbm).
  { cbn [link]. rewrite Hs2. unfold x. rewrite (reset_entry_app (node_key p)) by done. fold x. unfold dbm.
    rewrite (insert_insert_ne _ x (node_key p)), insert_insert_eq by done. done. }
  eapply (wp_update_keys om r nx' (p :: rest) x ck); [by rewrite Hs2, lookup_insert_eq|done|done| |by exists i, z|by rewrite Hlink|done|].
  { rewrite Hs2. by apply path_to_fresh. }
  intros s3 Hs3 Hrec3. apply HQ. rewrite Hlink in Hs3. split; [|split]; [| |done].
  - rewrite Hs3. apply (trie_inv_finish r ri _ (table s)); [done|done| |done|by rewrite Hr2|].
    + apply (compact_by _ x); [|intros k' n Hn Hk'; apply (Hc2 k' n Hn Hk'); intros n' Hn'; by apply (Hc1 k' n' Hn')].
      intros n Hn. rewrite lookup_insert_eq in Hn. injection Hn as <-. intros _. right.
      pose proof (iter_children_with nx j' None (Some (mk_child (j' :: w') 0)) Hnone) as Hlen. cbn [some_val] in Hlen.
      pose proof (iter_children_entry _ _ _ Hnj). unfold nx'. lia.
    + intros kd Hkd. rewrite Hn2, Hn1, !(kind_branch nx j _ eq_refl eq_refl Hnj).
      assert (entry nx' j (mk_child (j :: w) (child_hash ch))) as Hnj' by (by apply entry_with_ne).
      rewrite (kind_branch nx' j _ eq_refl eq_refl Hnj'). solve_counts kd.
  - rewrite Hs3, contents_finish, Hct2, Hct1. done.
Qed.

Lemma wp_missing_loop fuel : forall cur path,
  (1 <= fuel)%nat -> (length k + 2 <= fuel + length (node_key cur))%nat ->
  table s !! node_key cur = Some cur -> path_to (table s) path (node_key cur) -> node_key cur `prefix_of` k ->
  wp (missing_loop fuel k r cur path) Post QE s.
Proof.
  pose proof (ti_wf _ _ _ Hinv) as Hwf. induction fuel as [|fuel IH]; intros cur path Hf1 Hf2 Hcur Hpath Hpre; [lia|].
  cbn [missing_loop]. pose proof (wf_node _ _ Hwf _ _ Hcur) as Hn.
  unfold is_prefix. rewrite bool_decide_true by done. cbn [negb]. wp_step. apply wp_fail_if; [done|]. intros _.
  destruct (prefix_strict _ _ Hpre) as (i & t & Ek).
  { intros E. rewrite E in Hcur. destruct (wf_non_root _ _ Hwf _ _ Hcur Hne) as [_ Hc]. congruence. }
  assert (Hok' : key_ok (node_key cur ++ i :: t)) by (by rewrite <-Ek).
  assert (Hi : (i < length (children cur))%nat) by (by eapply nibble_index).
  assert (Hidx : child_index cur k = Ok i) by (rewrite Ek; apply key_child_index_app).
  rewrite Hidx. wp_step. apply wp_lift; [|done|done]. intros a [= <-].
  destruct (lookup_lt_is_Some_2 (children cur) i Hi) as [o Ho]. unfold array_get. rewrite Ho. cbn [unwrap].
  wp_step. apply wp_lift; [|done|done]. intros a [= <-]. destruct o as [c|]; [|by eapply wp_missing_stump].
  destruct (nw_entry _ _ Hn _ _ Ho) as ((u & Eu) & Hcok & _). wp_step.
  rewrite (checked_add_ok _ _ Hcok). apply wp_ok_or; [|done]. intros ck [= <-]. cbv zeta.
  unfold is_within_complete_part. rewrite negb_involutive.
  destruct (range_contains r (lcp (node_key cur ++ suffix c) k)) eqn:Hrc; [by eapply wp_missing_reset|].
  assert (Hpath' : path_to (table s) (cur :: path) (node_key cur ++ suffix c)).
  { by eapply path_extend. }
  case_bool_decide as Hlcp.
  - rewrite Hlcp in Hrc. destruct (wf_closed _ _ Hwf _ _ _ _ Hcur Ho Hrc) as [cn Hcn]. pose proof (wf_node _ _ Hwf _ _ Hcn) as Hcnwf.
    apply wp_bind. apply wp_gets. rewrite Hcn. cbn [fmap option_fmap option_map]. wp_step.
    apply wp_expect with cn; [f_equal; rewrite <-(nw_key _ _ Hcnwf) at 1; by destruct cn|].
    pose proof (nw_key _ _ Hcnwf) as Ecn. rewrite <-Ecn in Hcn, Hpath'. apply IH; [| |done|done|].
    + apply (f_equal length) in Ek. rewrite length_app in Ek. cbn in Ek. lia.
    + rewrite Ecn, length_app, Eu. cbn. lia.
    + rewrite Ecn, <-Hlcp. apply lcp_prefix_r.
  - rewrite Eu in *. eapply wp_missing_split; [done|done|done|done| | |done].
    + intros H. apply Hlcp. apply (anti_symm prefix); [apply lcp_prefix_l|]. apply lcp_longest; [done|].
      rewrite Ek. by apply prefix_app, prefix_cons.
    + intros H. assert (k `prefix_of` node_key cur ++ i :: u) as Hk by (rewrite Ek; by apply prefix_app, prefix_cons).
      rewrite (range_prefix r k (lcp (node_key cur ++ i :: u) k)) in Hr; [done| |done]. by apply lcp_longest.
Qed.

(** [update_within_missing_part_raw] leaves the contents alone. *)
Lemma wp_update_missing Q' : (forall b s', step_ok om r ri (contents (table s)) s' -> Q' b s') ->
  Q = (fun _ s' => forall b, Q' b s') -> wp (update_within_missing_part_raw k r) Q' QE s.
Proof.
  intros HQ' EQ. pose proof (ti_wf _ _ _ Hinv) as Hwf. destruct (wf_root _ _ Hwf) as (root & Hroot & _).
  pose proof (nw_key _ _ (wf_node _ _ Hwf _ _ Hroot)) as Ek. unfold update_within_missing_part_raw.
  rewrite bool_decide_false by done. wp_step. apply wp_fail_if; [done|]. intros _.
  apply wp_bind. apply wp_gets. rewrite Hroot. cbn [fmap option_fmap option_map]. wp_step.
  apply wp_expect with root; [f_equal; rewrite <-Ek at 1; by destruct root|]. wp_step.
  eapply wp_mono; [apply wp_missing_loop; rewrite ?Ek| |done].
  - unfold depth_fuel. lia.
  - destruct Hok. unfold depth_fuel. lia.
  - done.
  - constructor.
  - apply prefix_nil.
  - intros [[path cu] b] s' Hs'. unfold Post in Hs'. cbn [fst snd] in Hs'. wp_step. eapply wp_mono; [exact Hs'| |done].
    intros [] s'' Hs''. rewrite EQ in Hs''. apply wp_ret. apply Hs''.
Qed.
End Missing.

Lemma wp_missing om r ri k s Q (QE : MerkleRadixTrieError -> Txn -> Prop) :
  trie_inv r ri (table s) -> recorded om s -> key_ok k -> k <> [] -> range_contains r k = true ->
  (forall b s', step_ok om r ri (contents (table s)) s' -> Q b s') ->
  wp (update_within_missing_part_raw k r) Q QE s.
Proof.
  intros Hinv Hrec Hok Hne Hr HQ.
  apply (wp_update_missing om r ri k s Hinv Hrec Hok Hne Hr (fun _ s' => forall b, Q b s') QE); [auto|auto|done].
Qed.
End Put.
