(* ===== verification/TrieRemove.v ===== *)
(** * Removing a value from the Merkle radix trie

    [remove_raw] on a well-formed trie does not panic, keeps the invariant and
    removes the value at the given key only: a leaf disappears, with it a branch that
    is left with one child, and a hybrid node becomes a branch or is merged with its
    only child. *)

From S2P Require Import Prelude Coin AccountTypes Codec TxContent Block KeyNibbles TrieNode.
From S2P Require Import Trie TrieInv TriePath TriePut.

Implicit Types (db : gmap key TrieNode) (r : range) (n m : TrieNode) (k p : key) (s : Txn).

(** The only entry of a node. *)
Lemma only_child n : length (iter_children n) = 1%nat ->
  exists j c, entry n j c /\ head (iter_children n) = Some c /\ (forall j' c', entry n j' c' -> j' = j).
Proof.
  unfold iter_children, entry. induction (children n) as [|[c|] l IH]; intros Hl; [done| |].
  - cbn in Hl. exists 0%nat, c. split; [done|]. split; [done|]. intros [|j'] c' Hc'; [done|]. exfalso. cbn in Hc'.
    injection Hl as Hl. apply nil_length_inv in Hl. assert (c' ∈ omap id l) as Hin; [|rewrite Hl in Hin; by apply not_elem_of_nil in Hin].
    apply list_elem_of_omap. exists (Some c'). split; [by eapply list_elem_of_lookup_2|done].
  - cbn in Hl. destruct (IH Hl) as (j & c & Hc & Hh & Ho). exists (S j), c. split; [done|]. split; [done|].
    intros [|j'] c' Hc'; [done|]. f_equal. by eapply Ho.
Qed.

Section Remove.
Context `{BEnv : BlockEnv}.

(** Stored targets on the way to the target of an entry of [p] are on the way to [p]. *)
Lemma target_above r db p m i ch q e n : wf r db -> db !! p = Some m -> entry m i ch ->
  db !! (q ++ suffix e) = Some n -> q ++ suffix e `prefix_of` p ++ suffix ch -> q ++ suffix e <> p ++ suffix ch ->
  q ++ suffix e `prefix_of` p.
Proof.
  intros Hwf Hp Hch Hn Hq Hne. destruct (entry_suffix Hwf _ _ _ _ Hp Hch) as [t Et]. rewrite Et in Hq, Hne.
  destruct (prefix_cases (q ++ suffix e) p (p ++ i :: t) Hq) as [E|[(i' & t' & E)|(i' & t' & E)]];
    [apply strict_prefix|by rewrite E|rewrite E; apply strict_prefix|].
  assert (i' = i) as ->. { rewrite E in Hq. by apply prefix_app_cons in Hq as [-> _]. }
  pose proof (nothing_between Hwf _ _ _ _ _ _ _ Hp Hch Hn E) as H. rewrite Et in H. destruct Hne. by apply (anti_symm prefix).
Qed.

(** A leaf is removed from its parent. *)
Lemma remove_leaf_ok r db p m i ch lf : wf r db -> hashes_ok (fun k => k `prefix_of` p ++ suffix ch) db ->
  db !! p = Some m -> entry m i ch -> db !! (p ++ suffix ch) = Some lf -> has_children lf = false ->
  let c := p ++ suffix ch in
  let m1 := with_entry m i None in
  let db1 := <[p := m1]> (delete c db) in
  wf r db1 /\ (forall k n, db1 !! k = Some n -> k <> p -> db !! k = Some n) /\
  hashes_ok (fun k => k `prefix_of` p) db1 /\ root_data <$> (db1 !! []) = root_data <$> (db !! []) /\
  (forall kd, node_count kd db1 =
     node_count kd db - kind_val kd (kind lf) - kind_val kd (kind m) + kind_val kd (kind m1)) /\
  contents db1 = delete c (contents db).
Proof.
  intros Hwf Hh Hp Hch Hc Hlf c m1 db1. fold c in Hc, Hh.
  assert (c <> p /\ c <> []) as [Hcp Hcn].
  { unfold c. destruct (entry_suffix Hwf _ _ _ _ Hp Hch) as [t ->]. split; [apply app_cons_ne|apply app_cons_not_nil]. }
  assert (Hp1 : db1 !! p = Some m1) by apply lookup_insert_eq.
  assert (Hc1 : db1 !! c = None) by (unfold db1; by rewrite lookup_insert_ne, lookup_delete_eq).
  assert (Ho : forall k', k' <> p -> k' <> c -> db1 !! k' = db !! k').
  { intros k' H1 H2. unfold db1. by rewrite lookup_insert_ne, lookup_delete_ne. }
  assert (Hwf1 : wf r db1).
  { apply (wf_remove_entry Hwf db1 p m i ch); [done|done| |done|done|done]. intros n j e Hn. fold c in Hn.
    rewrite Hc in Hn. injection Hn as <-. by apply has_children_no_entry. }
  split; [done|]. split; [|split; [|split; [|split]]].
  - intros k n Hn Hk. assert (k <> c) by (intros ->; congruence). by rewrite Ho in Hn by done.
  - intros q n j e n' Hn He Hhs Hpre Hn'. assert (Hne : q ++ suffix e <> c) by (intros E; congruence).
    assert (Hn'' : db !! (q ++ suffix e) = Some n').
    { rewrite Ho in Hn'; [done| |done]. intros E. destruct Hpre. by rewrite E. }
    assert (Hpre' : ~ q ++ suffix e `prefix_of` c) by (intros Hq; apply Hpre; by apply (target_above r db p m i ch q e n')).
    destruct (decide (q = p)) as [->|Hqp].
    + rewrite Hp1 in Hn. injection Hn as <-. apply entry_with in He as [[-> [=]]|[Hj He]]. by apply (Hh p m j e n').
    + rewrite Ho in Hn by (done || intros ->; congruence). by apply (Hh q n j e n').
  - apply (root_data_with _ _ p m i _ Hp Hp1). intros Hpn. by apply Ho.
  - intros kd. unfold db1. rewrite node_count_insert, node_count_delete, lookup_delete_ne, Hp, Hc by done. cbn [mbind option_bind]. lia.
  - unfold db1. rewrite contents_insert_same; [apply contents_delete|].
    cbn. rewrite lookup_contents, lookup_delete_ne by done. by rewrite Hp.
Qed.

(** A node with a single entry is merged with its child. *)
Lemma merge_ok r db p m i chx nx j cc : wf r db ->
  db !! p = Some m -> entry m i chx -> db !! (p ++ suffix chx) = Some nx -> entry nx j cc ->
  (forall j' c, entry nx j' c -> j' = j) ->
  let x := p ++ suffix chx in
  let m1 := with_entry m i (Some (mk_child (suffix chx ++ suffix cc) (child_hash cc))) in
  let db1 := <[p := m1]> (delete x db) in
  hashes_ok (fun k => k `prefix_of` x) db ->
  wf r db1 /\ (forall k n, db1 !! k = Some n -> (forall n', db !! k = Some n' -> k <> x -> compact_at k n') -> compact_at k n) /\
  hashes_ok (fun k => k `prefix_of` p) db1 /\ root_data <$> (db1 !! []) = root_data <$> (db !! []) /\
  (forall kd, node_count kd db1 = node_count kd db - kind_val kd (kind nx)) /\
  contents db1 = delete x (contents db).
Proof.
  intros Hwf Hp Hch Hx Hcc Honly x m1 db1 Hh. fold x in Hx.
  destruct (entry_suffix Hwf _ _ _ _ Hp Hch) as [t Et]. destruct (entry_suffix Hwf _ _ _ _ Hx Hcc) as [w Ew].
  assert (x <> p /\ x <> []) as [Hxp Hxn].
  { unfold x. rewrite Et. split; [apply app_cons_ne|apply app_cons_not_nil]. }
  assert (Hhok : hash_ok (child_hash cc)) by apply (nw_entry _ _ (wf_node _ _ Hwf _ _ Hx) _ _ Hcc).
  assert (Hp1 : db1 !! p = Some m1) by apply lookup_insert_eq.
  assert (Hx1 : db1 !! x = None) by (unfold db1; by rewrite lookup_insert_ne, lookup_delete_eq).
  assert (Ho : forall k', k' <> p -> k' <> x -> db1 !! k' = db !! k').
  { intros k' H1 H2. unfold db1. by rewrite lookup_insert_ne, lookup_delete_ne. }
  assert (Hwf1 : wf r db1) by (by apply (wf_merge Hwf db1 p m i chx nx j cc (child_hash cc))).
  split; [done|]. split; [|split; [|split; [|split]]].
  - intros k n Hn Hcomp Hnil. destruct (decide (k = p)) as [->|Hkp].
    + rewrite Hp1 in Hn. injection Hn as <-. unfold m1. rewrite (iter_children_replace _ _ chx) by done.
      by apply (Hcomp m Hp).
    + assert (k <> x) by (intros ->; congruence). rewrite Ho in Hn by done. by apply (Hcomp n).
  - intros q n j' e n' Hn He Hhs Hpre Hn'. destruct (decide (q ++ suffix e = x)) as [E|Hqx]; [congruence|].
    assert (Hn'' : db !! (q ++ suffix e) = Some n').
    { rewrite Ho in Hn'; [done| |done]. intros E. destruct Hpre. by rewrite E. }
    assert (Hpre' : ~ q ++ suffix e `prefix_of` x) by (intros Hq; apply Hpre; by apply (target_above r db p m i chx q e n')).
    destruct (decide (q = p)) as [->|Hqp].
    + rewrite Hp1 in Hn. injection Hn as <-. apply entry_with in He as [[-> [= <-]]|[Hj He]]; [|by apply (Hh p m j' e n')].
      cbn in *. rewrite app_assoc in Hn'', Hpre'. fold x in Hn'', Hpre'. by apply (Hh x nx j cc n').
    + rewrite Ho in Hn by (done || intros ->; congruence). by apply (Hh q n j' e n').
  - apply (root_data_with _ _ p m i _ Hp Hp1). intros Hpn. by apply Ho.
  - intros kd. unfold db1. rewrite node_count_insert, node_count_delete, lookup_delete_ne, Hp, Hx by done. cbn [mbind option_bind].
    unfold m1. rewrite (kind_replace _ _ chx) by done. lia.
  - unfold db1. rewrite contents_insert_same; [apply contents_delete|].
    cbn. rewrite lookup_contents, lookup_delete_ne by done. by rewrite Hp.
Qed.

Lemma wp_replace_only p m i chx x nx cc Q (QE : MerkleRadixTrieError -> Txn -> Prop) s :
  node_wf p m -> entry m i chx -> x = p ++ suffix chx -> node_key nx = x -> key_ok (x ++ suffix cc) ->
  head (iter_children nx) = Some cc ->
  Q (with_entry m i (Some (mk_child (suffix chx ++ suffix cc) (child_hash cc)))) s ->
  wp (replace_with_only_child m nx) Q QE s.
Proof.
  intros Hm Hi -> Hk Hok Hh HQ. unfold replace_with_only_child. wp_step. apply wp_expect with cc; [done|].
  wp_step. rewrite Hk. apply wp_expect with ((p ++ suffix chx) ++ suffix cc); [by apply checked_add_ok|].
  destruct (nw_entry _ _ Hm _ _ Hi) as ((t & Et) & _). rewrite Et, <-app_assoc in *. cbn [app] in *.
  eapply wp_unwrap_result; [by apply put_child_app|done].
Qed.

Section RemoveRaw.
Context (om : option (gmap key (list Z))) (r ri : range) (k : key) (s : Txn).
Context (Hinv : trie_inv r ri (table s)) (Hrec : recorded om s) (Hok : key_ok k).
Context (Q : unit -> Txn -> Prop) (QE : MerkleRadixTrieError -> Txn -> Prop).
Context (HQ : forall s', step_ok om r ri (delete k (contents (table s))) s' -> Q tt s').

Lemma step_ok_absent : table s !! k ≫= value = None -> Q tt s.
Proof.
  intros Hk. apply HQ. split; [done|]. split; [|done]. symmetry. apply delete_id. by rewrite lookup_contents.
Qed.

(** A node with a value and several children, or the root: the value is taken. *)
Lemma wp_remove_value cur path : table s !! k = Some cur -> path_to (table s) path k ->
  is_root cur = true \/ (2 <= length (iter_children cur))%nat ->
  let cur' := set_node_value cur None in
  wp (put_node cur' (old_value (value cur));;
      update_keys (cur' :: path) (from_update (kind cur) (kind cur'))) Q QE s.
Proof.
  intros Hcur Hpath Hkeep cur'. destruct Hinv as [Hwf Hcomp Hhs Hroot].
  pose proof (wf_node _ _ Hwf _ _ Hcur) as Hn. pose proof (nw_key _ _ Hn) as Hk.
  wp_step. eapply wp_put_node; [done| |].
  { change (node_key cur') with (node_key cur). rewrite Hk, lookup_contents, Hcur. cbn. by destruct (value cur). }
  intros s1 Hs1 Hrec1. change (node_key cur') with (node_key cur) in Hs1. rewrite Hk in Hs1.
  apply (wp_update_proper om r ri (table s) cur' path k); rewrite ?Hs1; [done|by rewrite lookup_insert_eq|done|..].
  - apply path_to_insert; [done|]. intros (i & t & E). by apply eq_sym, app_cons_ne in E.
  - eapply wf_update; [done|done|]. split; [|done|done|eauto|eauto]. intros k' [H1 H2 H3 H4]. split; [done|done|done|exact H4].
  - apply (compact_by _ k).
    + intros n Hn'. rewrite lookup_insert_eq in Hn'. injection Hn' as <-. intros Hnil. right.
      destruct Hkeep as [Hr|Hl]; [|exact Hl]. destruct (wf_non_root _ _ Hwf _ _ Hcur Hnil) as [Hrd _].
      unfold is_root in Hr. by rewrite Hrd in Hr.
    + intros k' n Hn' Hk' Hnil. rewrite lookup_insert_ne in Hn' by done. by apply (Hcomp k').
  - intros q n j e m Hq He Hhash Hpre Hm. rewrite lookup_insert_ne in Hm by (intros E; destruct Hpre; by rewrite <-E).
    destruct (decide (q = k)) as [->|Hqk].
    + rewrite lookup_insert_eq in Hq. injection Hq as <-. apply (Hhs k cur j e m); tauto.
    + rewrite lookup_insert_ne in Hq by done. apply (Hhs q n j e m); tauto.
  - destruct (decide (k = [])) as [E|Hnil]; [rewrite E in *; by rewrite lookup_insert_eq, Hcur|by rewrite lookup_insert_ne].
  - intros kd Hkd. rewrite node_count_insert, Hcur. cbn [mbind option_bind]. unfold from_update. rewrite cu_get_apply by done.
    assert (cu_get no_counts kd = 0) as -> by (by destruct kd). lia.
  - done.
  - intros s2 Hs2. apply HQ. by rewrite contents_insert in Hs2.
Qed.

(** A hybrid node with one child is merged with it. *)
Lemma wp_remove_merge cur path : table s !! k = Some cur -> path_to (table s) path k -> k <> [] ->
  length (iter_children cur) = 1%nat ->
  wp (remove_node (node_key (set_node_value cur None)) (old_value (value cur));;
      parent ← expect (head path);
      parent ← replace_with_only_child parent (set_node_value cur None);
      put_node parent Unchanged;;
      update_keys (parent :: tail path) (mk_counts 0 (-1) 0)) Q QE s.
Proof.
  intros Hcur Hpath Hnil Hlen. destruct Hinv as [Hwf Hcomp Hhs Hroot].
  pose proof (wf_node _ _ Hwf _ _ Hcur) as Hn. pose proof (nw_key _ _ Hn) as Hk.
  destruct path as [|p rest]; [by apply path_nil_inv in Hpath|].
  destruct (path_to_top _ _ _ _ Hpath) as (i & ch & Hch & Ek & Hp & Hpwf & Hrest).
  destruct (only_child _ Hlen) as (j & cc & Hcc & Hhd & Honly).
  rewrite Ek in Hcur. destruct (merge_ok r (table s) (node_key p) p i ch cur j cc Hwf Hp Hch Hcur Hcc Honly)
    as (Hwf1 & Hc1 & Hh1 & Hr1 & Hn1 & Hct1); [by apply hashes_ok_weaken|]. rewrite <-Ek in Hcur, Hwf1, Hc1, Hh1, Hr1, Hn1, Hct1.
  set (p' := with_entry p i (Some (mk_child (suffix ch ++ suffix cc) (child_hash cc)))) in *.
  assert (Hkp : k <> node_key p). { rewrite Ek. destruct (nw_entry _ _ Hpwf _ _ Hch) as ((t & ->) & _). apply app_cons_ne. }
  change (node_key (set_node_value cur None)) with (node_key cur). rewrite Hk.
  wp_step. eapply wp_remove_node; [done|rewrite lookup_contents, Hcur; cbn; by destruct (value cur)|]. intros s1 Hs1 Hrec1.
  cbn [head hd_error tail]. wp_step. apply wp_expect with p; [done|]. wp_step.
  eapply (wp_replace_only (node_key p) p i ch k); [done|done|done|done| |done|].
  { by apply (nw_entry _ _ Hn _ _ Hcc). }
  fold p'. wp_step. eapply wp_put_node; [done| |].
  { change (node_key p') with (node_key p). rewrite Hs1, lookup_contents, lookup_delete_ne by done. by rewrite Hp. }
  intros s2 Hs2 Hrec2. change (node_key p') with (node_key p) in Hs2. rewrite Hs1 in Hs2.
  apply (wp_update_proper om r ri (table s) p' rest (node_key p)); rewrite ?Hs2; [done|by rewrite lookup_insert_eq|done|..].
  - eapply path_to_ext; [done|]. intros n' Hn'. destruct (path_prefix _ _ _ _ Hrest Hn') as (i' & t' & E).
    rewrite lookup_insert_ne, lookup_delete_ne; [done| |].
    + intros E'. rewrite <-E', Ek in E. apply (f_equal length) in E. rewrite !length_app in E. cbn in E. lia.
    + rewrite E. apply app_cons_ne.
  - done.
  - intros k' n Hn' Hnil'. apply (Hc1 k' n Hn'); [|done]. intros n' Hn'' _ _. by apply (Hcomp k').
  - done.
  - done.
  - intros kd Hkd. rewrite Hn1. destruct (Hcomp _ _ Hcur Hnil) as [[v Hv]|]; [|lia].
    destruct (wf_non_root _ _ Hwf _ _ Hcur Hnil) as [Hrd _]. rewrite (kind_hybrid _ _ _ _ Hrd Hv Hcc). solve_counts kd.
  - done.
  - intros s3 Hs3. apply HQ. by rewrite Hct1 in Hs3.
Qed.

(** A leaf is removed; its parent stays, or is merged with its last child. *)
Section RemoveLeaf.
Context (cur p : TrieNode) (rest : list TrieNode) (i : nat) (ch : TrieNodeChild).
Context (Hcur : table s !! k = Some cur) (Hnil : k <> []) (Hleaf : has_children cur = false).
Context (Hch : entry p i ch) (Ek : k = node_key p ++ suffix ch) (Hp : table s !! node_key p = Some p).
Context (Hpwf : node_wf (node_key p) p) (Hrest : path_to (table s) rest (node_key p)).
Context (Hproot : is_root p = bool_decide (rest = [])).
Context (s1 : Txn) (Hs1 : table s1 = delete k (table s)) (Hrec1 : recorded om s1).

Let p1 := with_entry p i None.
Let db1 := <[node_key p := p1]> (delete k (table s)).
Let cu1 := apply_update (mk_counts 0 0 (-1)) (kind p) (kind p1).

Lemma remove_leaf_step :
  wf r db1 /\ (forall k' n, db1 !! k' = Some n -> k' <> node_key p -> compact_at k' n) /\
  hashes_ok (fun k' => k' `prefix_of` node_key p) db1 /\ root_data <$> (db1 !! []) = root_data <$> (table s !! []) /\
  (forall kd, kd <> TrieNodeKind.Root -> node_count kd db1 = node_count kd (table s) + cu_get cu1 kd) /\
  contents db1 = delete k (contents (table s)) /\ k <> node_key p.
Proof.
  destruct Hinv as [Hwf Hcomp Hhs Hroot]. pose proof Hcur as Hcur'. rewrite Ek in Hcur'.
  destruct (remove_leaf_ok r (table s) (node_key p) p i ch cur Hwf (hashes_ok_weaken _ _ Hhs) Hp Hch Hcur' Hleaf) as (H1 & H2 & H3 & H4 & H5 & H6).
  rewrite <-Ek in H1, H2, H3, H4, H5, H6. fold p1 in H1, H2, H3, H4, H5, H6. fold db1 in H1, H2, H3, H4, H5, H6.
  split; [done|]. split; [intros k' n Hn Hk' Hnk; by apply (Hcomp k' n); [apply H2|]|]. split; [done|]. split; [done|]. split; [|split; [done|]].
  - intros kd Hkd. rewrite H5. unfold cu1. rewrite cu_get_apply by done.
    destruct (wf_non_root _ _ Hwf _ _ Hcur Hnil) as [Hrd _].
    assert (kind cur = Some TrieNodeKind.Leaf) as ->; [|solve_counts kd].
    destruct (Hcomp _ _ Hcur Hnil) as [[v Hv]|Hl].
    + unfold kind, is_root, has_value. by rewrite Hrd, Hv, Hleaf.
    + unfold has_children in Hleaf. destruct (Nat.eqb_spec (length (iter_children cur)) 0); [lia|done].
  - rewrite Ek. destruct (nw_entry _ _ Hpwf _ _ Hch) as ((t & ->) & _). apply app_cons_ne.
Qed.

Lemma iter_p1 : (length (iter_children p1) + 1 = length (iter_children p))%nat.
Proof. pose proof (iter_children_with p i _ None Hch) as H. cbn [some_val] in H. unfold p1. lia. Qed.

Lemma wp_remove_keep : compact_at (node_key p) p1 ->
  wp (put_node p1 Unchanged;; update_keys (p1 :: rest) cu1) Q QE s1.
Proof.
  intros Hpc. destruct remove_leaf_step as (Hwf1 & Hc1 & Hh1 & Hr1 & Hn1 & Hct1 & Hkp).
  wp_step. eapply wp_put_node; [done| |].
  { change (node_key p1) with (node_key p). rewrite Hs1, lookup_contents, lookup_delete_ne by done. by rewrite Hp. }
  intros s2 Hs2 Hrec2. change (node_key p1) with (node_key p) in Hs2. rewrite Hs1 in Hs2. fold db1 in Hs2.
  apply (wp_update_proper om r ri (table s) p1 rest (node_key p)); rewrite ?Hs2; [by apply (ti_root _ _ _ Hinv)|by unfold db1; rewrite lookup_insert_eq|done|..].
  - eapply path_to_ext; [done|]. intros n' Hn'. destruct (path_prefix _ _ _ _ Hrest Hn') as (i' & t' & E).
    unfold db1. rewrite lookup_insert_ne, lookup_delete_ne; [done| |].
    + intros E'. rewrite <-E', Ek in E. apply (f_equal length) in E. rewrite !length_app in E. cbn in E. lia.
    + rewrite E. apply app_cons_ne.
  - done.
  - apply (compact_by _ (node_key p)); [|done]. intros n Hn. unfold db1 in Hn. rewrite lookup_insert_eq in Hn. by injection Hn as <-.
  - done.
  - done.
  - done.
  - done.
  - intros s3 Hs3. apply HQ. by rewrite Hct1 in Hs3.
Qed.

Lemma wp_remove_collapse : length (iter_children p1) = 1%nat -> is_root p1 = false -> value p = None ->
  wp (remove_node (node_key p1) Unchanged;;
      grandparent ← expect (head rest);
      grandparent ← replace_with_only_child grandparent p1;
      put_node grandparent Unchanged;;
      update_keys (grandparent :: tail rest) (apply_update cu1 (kind p1) None)) Q QE s1.
Proof.
  intros Hlen Hnr Hval. destruct remove_leaf_step as (Hwf1 & Hc1 & Hh1 & Hr1 & Hn1 & Hct1 & Hkp).
  change (is_root p1) with (is_root p) in Hnr. destruct rest as [|gp rest2].
  { rewrite Hproot, bool_decide_true in Hnr by done. done. }
  destruct (path_to_top _ _ _ _ Hrest) as (j & cg & Hcg & Ep & Hgp & Hgpwf & Hrest2).
  assert (Hpp1 : db1 !! node_key p = Some p1) by apply lookup_insert_eq.
  assert (node_key gp <> node_key p /\ node_key gp <> k) as [Hgpp Hgpk].
  { destruct (nw_entry _ _ Hgpwf _ _ Hcg) as ((t & Et) & _). split.
    - rewrite Ep, Et. apply not_eq_sym, app_cons_ne.
    - rewrite Ek, Ep, Et, <-app_assoc. apply not_eq_sym, app_cons_ne. }
  assert (Hgp1 : db1 !! node_key gp = Some gp) by (unfold db1; by rewrite lookup_insert_ne, lookup_delete_ne).
  destruct (only_child _ Hlen) as (j' & cc & Hcc & Hhd & Honly). rewrite Ep in Hpp1.
  destruct (merge_ok r db1 (node_key gp) gp j cg p1 j' cc Hwf1 Hgp1 Hcg Hpp1 Hcc Honly)
    as (Hwf2 & Hc2 & Hh2 & Hr2 & Hn2 & Hct2); [by rewrite <-Ep|]. rewrite <-Ep in Hwf2, Hc2, Hh2, Hr2, Hn2, Hct2, Hpp1.
  set (gp' := with_entry gp j (Some (mk_child (suffix cg ++ suffix cc) (child_hash cc)))) in *.
  change (node_key p1) with (node_key p). wp_step. eapply wp_remove_node; [done| |].
  { cbn. rewrite Hs1, lookup_contents, lookup_delete_ne by done. by rewrite Hp. }
  intros s2 Hs2 Hrec2. rewrite Hs1 in Hs2. cbn [head hd_error tail]. wp_step. apply wp_expect with gp; [done|]. wp_step.
  eapply (wp_replace_only (node_key gp) gp j cg (node_key p)); [done|done|done|done| |done|].
  { by apply (nw_entry _ _ (wf_node _ _ Hwf1 _ _ Hpp1) _ _ Hcc). }
  fold gp'. wp_step. eapply wp_put_node; [done| |].
  { change (node_key gp') with (node_key gp). rewrite Hs2, lookup_contents, !lookup_delete_ne by done. by rewrite Hgp. }
  intros s3 Hs3 Hrec3. change (node_key gp') with (node_key gp) in Hs3. rewrite Hs2 in Hs3.
  assert (Hdb2 : table s3 = <[node_key gp := gp']> (delete (node_key p) db1)) by (unfold db1; by rewrite Hs3, delete_insert_eq).
  apply (wp_update_proper om r ri (table s) gp' rest2 (node_key gp)); rewrite ?Hdb2; [by apply (ti_root _ _ _ Hinv)|by rewrite lookup_insert_eq|done|..].
  - rewrite <-Hdb2, Hs3. eapply path_to_ext; [done|]. intros n' Hn'. destruct (path_prefix _ _ _ _ Hrest2 Hn') as (i' & t' & E).
    rewrite lookup_insert_ne, !lookup_delete_ne; [done| | |].
    + intros E'. rewrite <-E', Ek, Ep in E. apply (f_equal length) in E. rewrite !length_app in E. cbn in E. lia.
    + intros E'. rewrite <-E', Ep in E. apply (f_equal length) in E. rewrite !length_app in E. cbn in E. lia.
    + rewrite E. apply app_cons_ne.
  - done.
  - intros k' n Hn' Hnil'. apply (Hc2 k' n Hn'); [|done]. intros n' Hn'' Hk'. by apply Hc1.
  - done.
  - by rewrite Hr2.
  - intros kd Hkd. rewrite Hn2, Hn1, cu_get_apply by done. rewrite kind_val_None. lia.
  - done.
  - intros s4 Hs4. apply HQ. rewrite Hct2, Hct1 in Hs4. rewrite (delete_id (delete k _)) in Hs4; [done|].
    rewrite lookup_delete_ne, lookup_contents, Hp by done. done.
Qed.
End RemoveLeaf.

Lemma wp_remove_leaf cur path : table s !! k = Some cur -> path_to (table s) path k -> k <> [] ->
  has_children cur = false ->
  wp (remove_node k (old_value (value cur));; remove_loop k path (mk_counts 0 0 (-1))) Q QE s.
Proof.
  intros Hcur Hpath Hnil Hleaf. wp_step.
  eapply wp_remove_node; [done|rewrite lookup_contents, Hcur; cbn; by destruct (value cur)|]. intros s1 Hs1 Hrec1.
  destruct path as [|p rest]; [by apply path_nil_inv in Hpath|]. cbn [remove_loop].
  inversion Hpath as [|? i ch ? Hrest Hp Hpwf Hproot Hch Ep Ek]. subst n path.
  assert (Ek' : k = node_key p ++ suffix ch) by done. clear Ek.
  set (p1 := with_entry p i None). wp_step. apply wp_unwrap_result with p1.
  { destruct (nw_entry _ _ Hpwf _ _ Hch) as ((t & Et) & Hcok & _). rewrite Ek', Et in *. by apply remove_child_app. }
  pose proof (iter_p1 p i ch Hch) as Hlen. fold p1 in Hlen. cbv zeta.
  assert (Hcp : node_key p <> [] -> is_Some (value p) \/ (2 <= length (iter_children p))%nat).
  { intros H. by apply (ti_compact _ _ _ Hinv _ _ Hp). }
  assert (Hrk : is_root p1 = false <-> node_key p <> []).
  { change (is_root p1) with (is_root p). rewrite Hproot, bool_decide_eq_false. destruct rest as [|gp rest2].
    - apply path_nil_inv in Hrest as E. rewrite E. tauto.
    - destruct (path_below _ _ _ Hrest) as (i' & t' & ->). split; [intros _; apply app_cons_not_nil|done]. }
  destruct ((length (iter_children p1) =? 1)%nat && negb (is_root p1) && negb (is_hybrid p1)) eqn:Hb.
  - apply andb_true_iff in Hb as [[Hb1%Nat.eqb_eq Hb2%negb_true_iff]%andb_true_iff Hb3%negb_true_iff].
    eapply (wp_remove_collapse cur p rest i ch); try done.
    unfold is_hybrid in Hb3. rewrite Hb2 in Hb3. cbn [negb andb] in Hb3.
    assert (has_children p1 = true) as Hhc by (unfold has_children; by rewrite Hb1).
    rewrite Hhc, andb_true_r in Hb3. unfold has_value in Hb3. apply bool_decide_eq_false in Hb3.
    cbn in Hb3. destruct (value p); [|done]. by destruct Hb3.
  - destruct (is_empty p1) eqn:He; cbn [negb].
    + exfalso. unfold is_empty in He. apply andb_true_iff in He as [[He1%negb_true_iff He2%negb_true_iff]%andb_true_iff He3%negb_true_iff].
      unfold has_value in He2. apply bool_decide_eq_false in He2. cbn in He2.
      destruct (Hcp (proj1 Hrk He1)) as [Hv|Hl]; [done|]. unfold has_children in He3.
      destruct (Nat.eqb_spec (length (iter_children p1)) 0); [lia|done].
    + eapply (wp_remove_keep cur p rest i ch); try done. intros Hpn. destruct (Hcp Hpn) as [Hv|Hl]; [by left|].
      destruct (decide (is_Some (value p))) as [Hv|Hv]; [by left|right]. fold p1.
      destruct (decide (length (iter_children p1) = 1)%nat) as [E|]; [|lia]. exfalso.
      apply Hrk in Hpn. rewrite E, Hpn in Hb. cbn in Hb. unfold is_hybrid, has_value in Hb. rewrite Hpn in Hb. cbn in Hb.
      rewrite (bool_decide_false (is_Some (value p))) in Hb by done. done.
Qed.

Lemma wp_remove_at cur path : table s !! k = Some cur -> path_to (table s) path k -> wp (remove_at cur path) Q QE s.
Proof.
  intros Hcur Hpath. pose proof (ti_wf _ _ _ Hinv) as Hwf. pose proof (wf_node _ _ Hwf _ _ Hcur) as Hn.
  assert (Hrk : is_root cur = false <-> k <> []).
  { destruct (decide (k = [])) as [E|Hnil].
    - destruct (wf_root _ _ Hwf) as (n & Hn' & _ & Hrd). rewrite E, Hn' in Hcur. injection Hcur as ->.
      unfold is_root. rewrite bool_decide_true by done. by rewrite E.
    - destruct (wf_non_root _ _ Hwf _ _ Hcur Hnil) as [Hrd _]. unfold is_root. by rewrite Hrd. }
  unfold remove_at. cbv zeta. rewrite (nw_key _ _ Hn).
  change (is_root (set_node_value cur None)) with (is_root cur).
  change (has_children (set_node_value cur None)) with (has_children cur).
  change (iter_children (set_node_value cur None)) with (iter_children cur).
  destruct (is_root cur) eqn:Hr; cbn [orb negb].
  - rewrite andb_false_r. apply wp_remove_value; [done|done|by left].
  - pose proof (proj1 Hrk eq_refl) as Hnil. rewrite andb_true_r. destruct (has_children cur) eqn:Hc.
    + destruct (Nat.eqb_spec (length (iter_children cur)) 1) as [E|Hne].
      * by apply wp_remove_merge.
      * apply wp_remove_value; [done|done|right]. unfold has_children in Hc.
        destruct (Nat.eqb_spec (length (iter_children cur)) 0); [done|lia].
    + by apply wp_remove_leaf.
Qed.

Lemma wp_remove_descend (Hr : range_contains r k = false) fuel : forall cur path,
  (1 <= fuel)%nat -> (length k + 2 <= fuel + length (node_key cur))%nat ->
  table s !! node_key cur = Some cur -> path_to (table s) path (node_key cur) -> towards k (node_key cur) path ->
  wp (remove_descend fuel k r cur path) Q QE s.
Proof.
  pose proof (ti_wf _ _ _ Hinv) as Hwf. induction fuel as [|fuel IH]; intros cur path Hf1 Hf2 Hcur Hpath Htow; [lia|].
  cbn [remove_descend]. pose proof (wf_node _ _ Hwf _ _ Hcur) as Hn.
  unfold is_prefix. destruct (decide (node_key cur `prefix_of` k)) as [Hpre|Hpre].
  2:{ rewrite bool_decide_false by done. cbn [negb]. apply wp_ret, step_ok_absent. destruct path as [|p rest]; cbn in Htow.
      { destruct Hpre. rewrite Htow. apply prefix_nil. }
      destruct Htow as (i & t & u & Ek & Eu). destruct (path_to_top _ _ _ _ Hpath) as (j & c & Hc & Ec & Hp & Hpwf & _).
      destruct (table s !! k) as [n|] eqn:En; [|done]. destruct Hpre. rewrite Ec.
      assert (i = j) as <-. { destruct (nw_entry _ _ Hpwf _ _ Hc) as ((w & Ew) & _). rewrite Ec, Ew in Eu. by apply app_inv_head in Eu as [= ->]. }
      by eapply (nothing_between Hwf _ _ _ _ _ _ t Hp Hc En). }
  rewrite bool_decide_true by done. cbn [negb]. case_bool_decide as Heq.
  { rewrite Heq in Hcur, Hpath. by apply wp_remove_at. }
  destruct (prefix_strict _ _ Hpre Heq) as (i & t & Ek).
  assert (Hok' : key_ok (node_key cur ++ i :: t)) by (by rewrite <-Ek).
  destruct (child_key_towards r _ _ i t Hn Hok') as [[Hi Hck]|(c & Hc & Hcok & Hck)]; rewrite <-Ek in Hck; rewrite Hck.
  { apply wp_ret, step_ok_absent. destruct (table s !! k) as [n|] eqn:En; [|done]. exfalso.
    by eapply (nothing_below_empty Hwf _ _ _ _ _ t Hcur Hi En). }
  destruct (nw_entry _ _ Hn _ _ Hc) as ((u & Eu) & _). destruct (range_contains r (node_key cur ++ suffix c)) eqn:Hrc.
  { apply wp_ret, step_ok_absent. destruct (table s !! k) as [n|] eqn:En; [|done]. exfalso.
    pose proof (nothing_between Hwf _ _ _ _ _ _ t Hcur Hc En Ek) as H. by rewrite (range_prefix r _ _ H Hr) in Hrc. }
  destruct (wf_closed _ _ Hwf _ _ _ _ Hcur Hc Hrc) as [cn Hcn]. pose proof (wf_node _ _ Hwf _ _ Hcn) as Hcnwf.
  apply wp_bind. apply wp_gets. rewrite Hcn. cbn [fmap option_fmap option_map]. wp_step.
  apply wp_expect with cn; [f_equal; rewrite <-(nw_key _ _ Hcnwf) at 1; by destruct cn|].
  pose proof (nw_key _ _ Hcnwf) as Ecn. rewrite <-Ecn in Hcn. apply IH; [| |done| |].
  - apply (f_equal length) in Ek. rewrite length_app in Ek. cbn in Ek. lia.
  - rewrite Ecn, length_app, Eu. cbn. lia.
  - rewrite Ecn. by eapply path_extend.
  - cbn. exists i, t, u. by rewrite Ecn, Eu.
Qed.

(** [remove_raw] removes the value and nothing else. *)
Lemma wp_remove_raw (Hr : range_contains r k = false) : wp (remove_raw k r) Q QE s.
Proof.
  pose proof (ti_wf _ _ _ Hinv) as Hwf. destruct (wf_root _ _ Hwf) as (root & Hroot & _).
  pose proof (nw_key _ _ (wf_node _ _ Hwf _ _ Hroot)) as Ek. unfold remove_raw.
  apply wp_bind. apply wp_gets. rewrite Hroot. cbn [fmap option_fmap option_map]. wp_step.
  apply wp_expect with root; [f_equal; rewrite <-Ek at 1; by destruct root|].
  apply wp_remove_descend; [done|..]; rewrite ?Ek.
  - unfold depth_fuel. lia.
  - destruct Hok. unfold depth_fuel. lia.
  - done.
  - constructor.
  - done.
Qed.
End RemoveRaw.
End Remove.
