(* ===== verification/TrieHash.v ===== *)
(** * Hashes of the Merkle radix trie

    [update_hashes] fills in the missing hashes, fails only for a missing part of the
    trie or a digest that is zero, and changes nothing else.  The root hash of a
    complete trie determines the contents up to collisions, and the contents
    determine the root hash, whatever operations led to them. *)

From S2P Require Import Prelude Coin AccountTypes Codec TxContent Block KeyNibbles TrieNode.
From S2P Require Import Trie TrieInv TriePath TriePut.

Implicit Types (db : gmap key TrieNode) (r : range) (n m : TrieNode) (k p : key) (s : Txn).

(** ** Filling in hashes *)

Definition hash_ext (o o' : option TrieNodeChild) : Prop :=
  o' = o \/ exists c h, o = Some c /\ has_hash c = false /\ hash_ok h /\ o' = Some (mk_child (suffix c) h).
Definition node_ext (n n' : TrieNode) : Prop :=
  node_key n' = node_key n /\ root_data n' = root_data n /\ value n' = value n /\
  Forall2 hash_ext (children n) (children n').
Definition table_ext (db db' : gmap key TrieNode) : Prop :=
  forall k, match db !! k, db' !! k with Some n, Some n' => node_ext n n' | None, None => True | _, _ => False end.

Lemma hash_ext_refl o : hash_ext o o.
Proof. by left. Qed.
Lemma hash_ext_trans o1 o2 o3 : hash_ext o1 o2 -> hash_ext o2 o3 -> hash_ext o1 o3.
Proof.
  intros [->|(c & h & -> & Hc & Hh & ->)] H; [done|]. destruct H as [->|(c' & h' & [= <-] & Hc' & Hh' & ->)].
  - right. by exists c, h.
  - right. by exists c, h'.
Qed.
Lemma node_ext_refl n : node_ext n n.
Proof. split; [done|]. split; [done|]. split; [done|]. apply Forall2_same_length_lookup. split; [done|]. intros i x y H1 H2. left. congruence. Qed.
Lemma node_ext_trans n1 n2 n3 : node_ext n1 n2 -> node_ext n2 n3 -> node_ext n1 n3.
Proof.
  intros (A1 & A2 & A3 & A4) (B1 & B2 & B3 & B4). split; [congruence|]. split; [congruence|]. split; [congruence|].
  apply Forall2_same_length_lookup. split; [by rewrite (Forall2_length _ _ _ A4), (Forall2_length _ _ _ B4)|].
  intros i x z Hx Hz. destruct (Forall2_lookup_l _ _ _ _ _ A4 Hx) as (y & Hy & He).
  eapply hash_ext_trans; [done|]. by eapply (Forall2_lookup_lr _ _ _ _ _ _ B4).
Qed.
Lemma table_ext_refl db : table_ext db db.
Proof. intros k. destruct (db !! k); [apply node_ext_refl|done]. Qed.
Lemma table_ext_trans db1 db2 db3 : table_ext db1 db2 -> table_ext db2 db3 -> table_ext db1 db3.
Proof.
  intros H1 H2 k. specialize (H1 k). specialize (H2 k).
  destruct (db1 !! k), (db2 !! k), (db3 !! k); try done. by eapply node_ext_trans.
Qed.

Lemma node_ext_entry n n' i c' : node_ext n n' -> entry n' i c' -> exists c, entry n i c /\ hash_ext (Some c) (Some c').
Proof.
  intros (_ & _ & _ & H) Hc'. destruct (Forall2_lookup_r _ _ _ _ _ H Hc') as ([c|] & Hc & He).
  - by exists c.
  - destruct He as [|(? & ? & ? & _)]; done.
Qed.
Lemma node_ext_entry' n n' i c : node_ext n n' -> entry n i c -> exists c', entry n' i c' /\ hash_ext (Some c) (Some c').
Proof.
  intros (_ & _ & _ & H) Hc. destruct (Forall2_lookup_l _ _ _ _ _ H Hc) as ([c'|] & Hc' & He).
  - by exists c'.
  - destruct He as [|(? & ? & ? & _ & _ & ?)]; done.
Qed.
Lemma hash_ext_suffix c c' : hash_ext (Some c) (Some c') -> suffix c' = suffix c.
Proof. intros [[= ->]|(c0 & h & [= <-] & _ & _ & [= ->])]; done. Qed.

Lemma node_ext_shape n n' : node_ext n n' -> same_shape n n'.
Proof.
  intros H. pose proof H as (H1 & H2 & H3 & H4). split.
  - intros k [W1 W2 W3 W4]. split; [congruence|done|by rewrite <-(Forall2_length _ _ _ H4)|].
    intros i c' (c & Hc & He)%(node_ext_entry _ _ _ _ H). destruct (W4 _ _ Hc) as (Hs & Hk & Hh).
    rewrite (hash_ext_suffix _ _ He). split; [done|]. split; [done|].
    destruct He as [[= ->]|(? & h & [= <-] & _ & Hh' & [= ->])]; done.
  - by rewrite H2.
  - by rewrite H3.
  - intros i c' (c & Hc & He)%(node_ext_entry _ _ _ _ H). exists c. by rewrite (hash_ext_suffix _ _ He).
  - intros i c (c' & Hc & He)%(node_ext_entry' _ _ _ _ H). exists c'. by rewrite (hash_ext_suffix _ _ He).
Qed.
Lemma table_ext_wf r db db' : wf r db -> table_ext db db' -> wf r db'.
Proof.
  intros Hwf H. apply (wf_shape Hwf). intros k. specialize (H k).
  destruct (db !! k), (db' !! k); [by apply node_ext_shape|done..].
Qed.
Lemma iter_children_ext n n' : node_ext n n' -> length (iter_children n') = length (iter_children n).
Proof.
  intros (_ & _ & _ & H). unfold iter_children. induction H as [|o o' l l' He _ IH]; [done|].
  destruct He as [->|(c & h & -> & _ & _ & ->)]; [destruct o|]; cbn; by rewrite IH.
Qed.
Lemma kind_ext n n' : node_ext n n' -> kind n' = kind n.
Proof.
  intros H. pose proof H as (_ & H2 & H3 & _). unfold kind, is_root, has_value, has_children.
  by rewrite H2, H3, (iter_children_ext _ _ H).
Qed.
Lemma table_ext_lookup db db' k n : table_ext db db' -> db !! k = Some n -> exists n', db' !! k = Some n' /\ node_ext n n'.
Proof. intros H Hn. specialize (H k). rewrite Hn in H. destruct (db' !! k); [eauto|done]. Qed.
Lemma table_ext_lookup' db db' k n' : table_ext db db' -> db' !! k = Some n' -> exists n, db !! k = Some n /\ node_ext n n'.
Proof. intros H Hn. specialize (H k). rewrite Hn in H. destruct (db !! k); [eauto|done]. Qed.
Lemma table_ext_compact db db' : compact db -> table_ext db db' -> compact db'.
Proof.
  intros Hc H k n' (n & Hn & He)%(table_ext_lookup' _ _ _ _ H) Hk. rewrite (iter_children_ext _ _ He).
  destruct He as (_ & _ & -> & _). by apply (Hc k).
Qed.
Lemma table_ext_contents db db' : table_ext db db' -> contents db' = contents db.
Proof.
  intros H. apply map_eq. intros k. rewrite !lookup_contents. specialize (H k).
  destruct (db !! k), (db' !! k); [|done..]. cbn. apply H.
Qed.
Lemma table_ext_root ri db db' : root_ok ri db -> table_ext db db' -> root_ok ri db'.
Proof.
  intros (root & rd & Hr & Hrd & Hi & Hc) H. destruct (table_ext_lookup _ _ _ _ H Hr) as (root' & Hr' & He).
  exists root', rd. split; [done|]. destruct He as (_ & -> & _). split; [done|]. split; [done|].
  intros kd Hkd. rewrite (Hc kd Hkd). f_equal.
  assert (Hsum : forall d, node_count kd d = map_sum (kind_val kd) (kind <$> d)) by (intros d; by rewrite map_sum_fmap).
  rewrite !Hsum. f_equal. apply map_eq. intros k. rewrite !lookup_fmap. specialize (H k).
  destruct (db !! k), (db' !! k); [|done..]. cbn. f_equal. by rewrite (kind_ext _ _ H).
Qed.

(** A node that can be hashed does not change. *)
Lemma can_hash_entry n i c : can_hash n = true -> entry n i c -> has_hash c = true.
Proof.
  unfold can_hash, iter_children, entry. intros Hf Hc. rewrite forallb_forall in Hf. apply Hf.
  apply list_elem_of_In, list_elem_of_omap. exists (Some c). split; [by eapply list_elem_of_lookup_2|done].
Qed.
Lemma can_hash_intro n : (forall i c, entry n i c -> has_hash c = true) -> can_hash n = true.
Proof.
  intros H. unfold can_hash, iter_children. apply forallb_forall. intros c Hc%list_elem_of_In.
  apply list_elem_of_omap in Hc as ([c'|] & Hin & [= ->]). apply list_elem_of_lookup_1 in Hin as [i Hi]. by apply (H i).
Qed.
Lemma node_ext_hashed n n' : node_ext n n' -> can_hash n = true -> n' = n.
Proof.
  intros (H1 & H2 & H3 & H4) Hc. assert (children n' = children n) as E.
  { apply list_eq_Forall2, Forall2_same_length_lookup. split; [symmetry; by eapply Forall2_length|].
    intros i x y Hx Hy. destruct (Forall2_lookup_lr _ _ _ _ _ _ H4 Hy Hx) as [E|(c & h & -> & Hn & _)]; [done|].
    exfalso. eapply (can_hash_entry _ i c) in Hc; [congruence|exact Hy]. }
  destruct n, n'. cbn in *. congruence.
Qed.
Lemma node_ext_with n i c c' : entry n i c -> has_hash c = false -> suffix c' = suffix c -> hash_ok (child_hash c') ->
  node_ext n (with_entry n i (Some c')).
Proof.
  intros Hc Hh Hs Hok. split; [done|]. split; [done|]. split; [done|]. apply Forall2_same_length_lookup.
  split; [cbn; by rewrite length_insert|]. intros j x y Hx Hy. cbn in Hy. destruct (decide (i = j)) as [<-|Hne].
  - rewrite list_lookup_insert_eq in Hy by (by eapply lookup_lt_Some). unfold entry in Hc. simplify_eq. right.
    exists c, (child_hash c'). split; [done|]. split; [done|]. split; [done|]. rewrite <-Hs. by destruct c'.
  - rewrite list_lookup_insert_ne in Hy by done. left. congruence.
Qed.

(** ** [update_hashes] *)

Section UpdateHashes.
Context `{BEnv : BlockEnv} (om : option (gmap key (list Z))) (r : range).

(** Why hashes below [k] cannot be filled in. *)
Definition cause (db : gmap key TrieNode) (k : key) : Prop :=
  exists q n, k `prefix_of` q /\ db !! q = Some n /\
    ((exists i c, entry n i c /\ has_hash c = false /\ range_contains r (q ++ suffix c) = true) \/ hash n = Some 0).

(** What an update below [k] may change. *)
Definition updated (k : key) (s s' : Txn) : Prop :=
  table_ext (table s) (table s') /\ (forall k', ~ k `prefix_of` k' -> table s' !! k' = table s !! k') /\
  hashes_ok (fun _ => False) (table s') /\ recorded om s'.

(** The new entry of the node [k] for the entry [c]. *)
Definition entry_post (db : gmap key TrieNode) (k : key) (c c' : TrieNodeChild) : Prop :=
  suffix c' = suffix c /\ hash_ok (child_hash c') /\
  (c' = c \/ has_hash c = false) /\
  (has_hash c' = true -> c' = c \/ exists m, db !! (k ++ suffix c) = Some m /\ hash m = Some (child_hash c')) /\
  (has_hash c' = false -> range_contains r (k ++ suffix c) = true \/ cause db (k ++ suffix c)).

Lemma wp_catch_or {A} (m0 : TrieM A) Q (QE : MerkleRadixTrieError -> Txn -> Prop) s :
  wp m0 (fun a => Q (Ok a)) (fun e => Q (Err e)) s -> wp (catch m0) Q QE s.
Proof. apply wp_catch. Qed.

Lemma wp_update_entry update k n i o s :
  wf r (table s) -> hashes_ok (fun _ => False) (table s) -> recorded om s -> table s !! k = Some n ->
  children n !! i = Some o ->
  (forall c, entry n i c -> range_contains r (k ++ suffix c) = false ->
     wp (update (k ++ suffix c))
       (fun h s' => updated (k ++ suffix c) s s' /\ exists n', table s' !! (k ++ suffix c) = Some n' /\ hash n' = Some h)
       (fun _ s' => updated (k ++ suffix c) s s' /\ cause (table s') (k ++ suffix c)) s) ->
  wp (update_entry update k r o)
    (fun o' s' => match o with
       | None => o' = None /\ s' = s
       | Some c => (s' = s \/ updated (k ++ suffix c) s s') /\ exists c', o' = Some c' /\ entry_post (table s') k c c'
       end) (fun _ _ => False) s.
Proof.
  intros Hwf Hh Hrec Hn Ho Hup. pose proof (wf_node _ _ Hwf _ _ Hn) as Hnwf. unfold update_entry.
  destruct o as [c|]; [|by apply wp_ret]. destruct (nw_entry _ _ Hnwf _ _ Ho) as (_ & Hcok & Hhok).
  destruct (has_hash c) eqn:Hc.
  { apply wp_ret. split; [by left|]. exists c. split; [done|]. split; [done|]. split; [done|]. split; [by left|]. split; [by left|congruence]. }
  rewrite (entry_key_ok r k c Hcok). destruct (range_contains r (k ++ suffix c)) eqn:Hr.
  { apply wp_ret. split; [by left|]. exists c. split; [done|]. split; [done|]. split; [done|]. split; [by left|]. split; [by left|by left]. }
  wp_step. apply wp_catch_or. eapply wp_mono; [by apply Hup| |].
  - intros h s' (Hu & n' & Hn' & Hhash). apply wp_ret. split; [by right|]. eexists. split; [done|]. split; [done|].
    assert (Hhok' : hash_ok h).
    { unfold hash in Hhash. destruct (can_hash n'); [|done]. injection Hhash as <-. apply hash_ok_blake2b. }
    split; [done|]. split; [by right|]. split; [intros _; right; by exists n'|]. intros Hz.
    right. exists (k ++ suffix c), n'. split; [done|]. split; [done|]. right.
    unfold has_hash in Hz. cbn in Hz. apply negb_false_iff, Z.eqb_eq in Hz as ->. done.
  - intros e s' (Hu & Hcause). apply wp_ret. split; [by right|]. exists c. split; [done|]. split; [done|].
    split; [done|]. split; [by left|]. split; [by left|]. by right.
Qed.

Lemma cause_frame db db' t : (forall q, t `prefix_of` q -> db' !! q = db !! q) -> cause db t -> cause db' t.
Proof. intros Hf (q & n & Hp & Hn & Hc). exists q, n. split; [done|]. split; [by rewrite Hf|done]. Qed.
Lemma entry_post_frame db db' k c c' : (forall q, k ++ suffix c `prefix_of` q -> db' !! q = db !! q) ->
  entry_post db k c c' -> entry_post db' k c c'.
Proof.
  intros Hf (H1 & H2 & H3 & H4 & H5). split; [done|]. split; [done|]. split; [done|]. split.
  - intros Hh. destruct (H4 Hh) as [->|(m & Hm & Hhm)]; [by left|]. right. exists m. split; [by rewrite Hf|done].
  - intros Hh. destruct (H5 Hh) as [Hr|Hc]; [by left|]. right. by eapply cause_frame.
Qed.

Lemma cons_drop {A} (l : list A) d x l' : drop d l = x :: l' -> l !! d = Some x /\ drop (S d) l = l'.
Proof.
  revert l. induction d as [|d IH]; intros [|y l] H; try done.
  - cbn in H. injection H as -> ->. done.
  - by apply IH.
Qed.

(** Entries of the same node lead to disjoint parts of the trie. *)
Lemma siblings_disjoint k n i j c c' q : node_wf k n -> entry n i c -> entry n j c' -> i <> j ->
  k ++ suffix c `prefix_of` q -> ~ k ++ suffix c' `prefix_of` q.
Proof.
  intros Hn Hc Hc' Hij Hq Hq'. destruct (nw_entry _ _ Hn _ _ Hc) as ((t & Et) & _), (nw_entry _ _ Hn _ _ Hc') as ((t' & Et') & _).
  rewrite Et in Hq. rewrite Et' in Hq'. destruct Hq as [w ->], Hq' as [w' E]. rewrite <-!app_assoc in E.
  apply app_inv_head in E. by injection E.
Qed.

(** The call for the children from index [d] on. *)
Lemma wp_update_entries update k n l : forall d s, drop d (children n) = l ->
  wf r (table s) -> hashes_ok (fun _ => False) (table s) -> recorded om s -> table s !! k = Some n ->
  (forall s0 i c, entry n i c -> range_contains r (k ++ suffix c) = false -> wf r (table s0) ->
     hashes_ok (fun _ => False) (table s0) -> recorded om s0 -> is_Some (table s0 !! (k ++ suffix c)) ->
     wp (update (k ++ suffix c))
       (fun h s' => updated (k ++ suffix c) s0 s' /\ exists n', table s' !! (k ++ suffix c) = Some n' /\ hash n' = Some h)
       (fun _ s' => updated (k ++ suffix c) s0 s' /\ cause (table s') (k ++ suffix c)) s0) ->
  wp (mapM (update_entry update k r) l)
    (fun l' s' => table_ext (table s) (table s') /\
       (forall k', (forall i c, (d <= i)%nat -> entry n i c -> ~ k ++ suffix c `prefix_of` k') -> table s' !! k' = table s !! k') /\
       hashes_ok (fun _ => False) (table s') /\ recorded om s' /\
       Forall2 (fun o o' => match o with None => o' = None
         | Some c => exists c', o' = Some c' /\ entry_post (table s') k c c' end) l l') (fun _ _ => False) s.
Proof.
  induction l as [|o l IH]; intros d s Hd Hwf Hh Hrec Hn Hup.
  { unfold wp. cbn. split; [apply table_ext_refl|]. split; [done|]. split; [done|]. by split. }
  apply cons_drop in Hd as [Ho Hd]. pose proof (wf_node _ _ Hwf _ _ Hn) as Hnwf. cbn [mapM]. wp_step.
  eapply wp_mono; [apply (wp_update_entry update k n d o s); [done..|]| |done].
  { intros c Hc Hr. apply Hup with d; [done..|]. by eapply wf_closed. }
  intros o' s1 Ho'. wp_step.
  assert (H1 : table_ext (table s) (table s1) /\ hashes_ok (fun _ => False) (table s1) /\ recorded om s1 /\
    (forall k', (forall c, entry n d c -> ~ k ++ suffix c `prefix_of` k') -> table s1 !! k' = table s !! k')).
  { destruct o as [c|].
    - destruct Ho' as [[->|(E1 & E2 & E3 & E4)] _]; [split; [apply table_ext_refl|done]|].
      split; [done|]. split; [done|]. split; [done|]. intros k' Hk'. apply E2. by apply Hk'.
    - destruct Ho' as [_ ->]. split; [apply table_ext_refl|done]. }
  destruct H1 as (Hext1 & Hh1 & Hrec1 & Hf1).
  assert (Hn1 : table s1 !! k = Some n).
  { rewrite Hf1; [done|]. intros c Hc. destruct (nw_entry _ _ Hnwf _ _ Hc) as ((t & ->) & _). apply not_prefix_longer. }
  eapply wp_mono; [apply (IH (S d) s1 Hd); [by eapply table_ext_wf|done..]| |done].
  intros l' s2 (Hext2 & Hf2 & Hh2 & Hrec2 & Hl). wp_step. split; [by eapply table_ext_trans|]. split; [|split; [done|split; [done|]]].
  - intros k' Hk'. rewrite Hf2, Hf1; [done| |].
    + intros c Hc. by apply (Hk' d).
    + intros i c Hi Hc. apply (Hk' i); [lia|done].
  - constructor; [|done]. destruct o as [c|]; [|by destruct Ho']. destruct Ho' as (_ & c' & -> & Hpost). exists c'. split; [done|].
    eapply entry_post_frame; [|done]. intros q Hq. apply Hf2. intros i e Hi He.
    apply (siblings_disjoint k n d i c e q Hnwf Ho He); [lia|done].
Qed.

(** The node [k] with its new entries. *)
Lemma put_hashes s k n l' : wf r (table s) -> hashes_ok (fun _ => False) (table s) -> table s !! k = Some n ->
  Forall2 (fun o o' => match o with None => o' = None
         | Some c => exists c', o' = Some c' /\ entry_post (table s) k c c' end) (children n) l' ->
  let n' := set_children n l' in
  let db' := <[k := n']> (table s) in
  node_ext n n' /\ table_ext (table s) db' /\ hashes_ok (fun _ => False) db' /\
  (hash n' = None -> cause db' k).
Proof.
  intros Hwf Hh Hn Hl n' db'. pose proof (wf_node _ _ Hwf _ _ Hn) as Hnwf.
  assert (Hent : forall i c', entry n' i c' -> exists c, entry n i c /\ entry_post (table s) k c c').
  { intros i c' Hc'. destruct (Forall2_lookup_r _ _ _ _ _ Hl Hc') as ([c|] & Hc & Hp); [|done].
    destruct Hp as (c'' & [= <-] & Hp). eauto. }
  assert (Hext : node_ext n n').
  { split; [done|]. split; [done|]. split; [done|]. cbn. eapply Forall2_impl; [exact Hl|]. intros [c|] o'; [|by intros ->; left].
    intros (c' & -> & H1 & H2 & [->|H3] & _); [by left|]. right. exists c, (child_hash c'). split; [done|]. split; [done|].
    split; [done|]. rewrite <-H1. by destruct c'. }
  assert (Htab : table_ext (table s) db').
  { intros k'. unfold db'. destruct (decide (k' = k)) as [->|Hne]; [by rewrite lookup_insert_eq, Hn|].
    rewrite lookup_insert_ne by done. destruct (table s !! k'); [apply node_ext_refl|done]. }
  assert (Hne : forall c i, entry n i c -> k ++ suffix c <> k).
  { intros c i Hc. destruct (nw_entry _ _ Hnwf _ _ Hc) as ((t & ->) & _). apply app_cons_ne. }
  split; [done|]. split; [done|]. split.
  - intros q n0 i c' m Hq Hc' Hhash _ Hm. destruct (decide (q = k)) as [->|Hqk].
    + unfold db' in Hq, Hm. rewrite lookup_insert_eq in Hq. injection Hq as <-. destruct (Hent _ _ Hc') as (c & Hc & H1 & _ & _ & H4 & _).
      rewrite H1, lookup_insert_ne in Hm by (apply not_eq_sym; by eapply Hne).
      destruct (H4 Hhash) as [->|(m' & Hm' & Hhm)]; [by apply (Hh k n i c m); tauto|congruence].
    + unfold db' in Hq, Hm. rewrite lookup_insert_ne in Hq by done. destruct (decide (q ++ suffix c' = k)) as [E|Hqc].
      * rewrite E, lookup_insert_eq in Hm. injection Hm as <-. rewrite <-E in Hn.
        assert (Hold : hash n = Some (child_hash c')) by (apply (Hh q n0 i c' n); tauto).
        rewrite (node_ext_hashed _ _ Hext); [done|]. unfold hash in Hold. by destruct (can_hash n).
      * rewrite lookup_insert_ne in Hm by done. apply (Hh q n0 i c' m); tauto.
  - intros Hnone. unfold hash in Hnone. destruct (can_hash n') eqn:Hcan; [done|].
    assert (exists i c', entry n' i c' /\ has_hash c' = false) as (i & c' & Hc' & Hhash).
    { unfold can_hash, iter_children in Hcan. clear -Hcan. apply not_true_iff_false in Hcan.
      assert (exists c, c ∈ omap id (children n') /\ has_hash c = false) as (c & Hin & Hc).
      { induction (omap id (children n')) as [|c l IH]; [by destruct Hcan|]. cbn in Hcan.
        destruct (has_hash c) eqn:E; [|exists c; split; [apply list_elem_of_here|done]].
        destruct IH as (c0 & Hc0 & Hh0); [done|]. exists c0. split; [by apply list_elem_of_further|done]. }
      apply list_elem_of_omap in Hin as ([c0|] & Hin & [= ->]). apply list_elem_of_lookup_1 in Hin as [i Hi]. by exists i, c. }
    destruct (Hent _ _ Hc') as (c & Hc & H1 & _ & _ & _ & H5). destruct (H5 Hhash) as [Hr|(q & n0 & Hp & Hq & Hcs)].
    + exists k, n'. split; [done|]. split; [apply lookup_insert_eq|]. left. exists i, c'. by rewrite H1.
    + exists q, n0. split; [by eapply prefix_app_l|]. split; [|done]. unfold db'. rewrite lookup_insert_ne; [done|].
      intros <-. destruct (nw_entry _ _ Hnwf _ _ Hc) as ((t & Et) & _). rewrite Et in Hp. by apply not_prefix_longer in Hp.
Qed.

Lemma wp_update_hashes fuel : forall k s, (MAX_BYTES * 2 < fuel + length k)%nat ->
  wf r (table s) -> hashes_ok (fun _ => False) (table s) -> recorded om s -> is_Some (table s !! k) ->
  wp (update_hashes fuel k r)
    (fun h s' => updated k s s' /\ exists n', table s' !! k = Some n' /\ hash n' = Some h)
    (fun _ s' => updated k s s' /\ cause (table s') k) s.
Proof.
  induction fuel as [|fuel IH]; intros k s Hf Hwf Hh Hrec [n Hn]; pose proof (wf_node _ _ Hwf _ _ Hn) as Hnwf.
  { destruct (nw_key_ok _ _ Hnwf) as [_ Hl]. lia. }
  cbn [update_hashes]. apply wp_bind. apply wp_gets. rewrite Hn. cbn [fmap option_fmap option_map]. wp_step.
  apply wp_expect with n; [f_equal; rewrite <-(nw_key _ _ Hnwf) at 1; by destruct n|].
  destruct (has_children n) eqn:Hhc; cbn [negb].
  - wp_step. eapply wp_mono; [apply (wp_update_entries _ k n (children n) 0 s); [done..|]| |done].
    { intros s0 i c Hc _ Hwf0 Hh0 Hrec0 Hs0. apply IH; [|done..].
      destruct (nw_entry _ _ Hnwf _ _ Hc) as ((t & ->) & _). rewrite length_app. cbn [length]. lia. }
    intros l' s1 (Hext1 & Hf1 & Hh1 & Hrec1 & Hl). cbv zeta.
    assert (Hn1 : table s1 !! k = Some n).
    { rewrite Hf1; [done|]. intros i c _ Hc. destruct (nw_entry _ _ Hnwf _ _ Hc) as ((t & ->) & _). apply not_prefix_longer. }
    destruct (put_hashes s1 k n l') as (Hne & Hext2 & Hh2 & Hcause); [by eapply table_ext_wf|done..|].
    set (n' := set_children n l') in *. assert (Hk' : node_key n' = k) by apply (nw_key _ _ Hnwf).
    wp_step. eapply wp_put_node; [done|unfold old_value_ok; by rewrite Hk', lookup_contents, Hn1|]. intros s2 Hs2 Hrec2. rewrite Hk' in Hs2.
    assert (Hup : updated k s s2).
    { split; [rewrite Hs2; by eapply table_ext_trans|]. split; [|split; [by rewrite Hs2|done]].
      intros k' Hk. rewrite Hs2, lookup_insert_ne by (intros ->; by destruct Hk). apply Hf1. intros i c _ Hc Hp. apply Hk. by eapply prefix_app_l. }
    apply wp_ok_or.
    + intros h Hhash. split; [done|]. exists n'. by rewrite Hs2, lookup_insert_eq.
    + intros Hnone. split; [done|]. rewrite Hs2. by apply Hcause.
  - apply wp_ok_or.
    + intros h Hhash. split; [|by exists n]. split; [apply table_ext_refl|]. done.
    + intros Hnone. exfalso. unfold hash in Hnone. rewrite can_hash_intro in Hnone; [done|].
      intros i c Hc. by apply has_children_no_entry in Hc.
Qed.
End UpdateHashes.

(** ** What a hash determines *)

Section Content.
Context `{BEnv : BlockEnv}.

Definition child_ok (o : option TrieNodeChild) : Prop :=
  match o with Some c => key_ok (suffix c) /\ hash_ok (child_hash c) | None => True end.
Definition value_ok (v : list Z) : Prop := Z.of_nat (length v) < 2 ^ 64.
Definition pv_ok (pv : ProofValue) : Prop :=
  match pv with
  | NoValue => True
  | LeafValue v | HybridValue v => value_ok v
  | HybridHash h => hash_ok h
  end.

(** What the types of a node of a proof guarantee. *)
Definition proof_node_ok (pn : TrieProofNode) : Prop :=
  key_ok (pn_key pn) /\ pv_ok (pn_value pn) /\ length (pn_children pn) = 16%nat /\ Forall child_ok (pn_children pn).

Lemma child_fields_inj c c' : child_fields c = child_fields c' -> c = c'.
Proof. destruct c, c'. by intros [= -> ->]. Qed.
Lemma children_valid cs : Forall child_ok cs -> Forall (cvalid (option_codec child_codec)) (map (option_map child_fields) cs).
Proof. induction 1 as [|[c|] cs H _ IH]; cbn; constructor; done. Qed.
Lemma children_bytes_inj cs cs' : length cs = length cs' -> Forall child_ok cs -> Forall child_ok cs' ->
  children_bytes cs = children_bytes cs' -> cs = cs'.
Proof.
  intros Hl H1 H2 E. apply children_valid in H1, H2. unfold children_bytes in E.
  apply (f_equal (fun l => dec_list (option_codec child_codec) (length (map (option_map child_fields) cs)) (l ++ []))) in E.
  rewrite dec_enc_list in E by done. rewrite length_map, Hl, <-(length_map (option_map child_fields)), dec_enc_list in E by done.
  injection E as E. clear -Hl E. revert cs' Hl E. induction cs as [|o cs IH]; intros [|o' cs'] Hl E; try done.
  cbn in E. injection E as E1 E2. f_equal; [|by apply IH; [by injection Hl|]].
  destruct o as [c|], o' as [c'|]; try done. cbn in E1. f_equal. apply child_fields_inj. congruence.
Qed.

(** The digest of a value that is hashed on its own. *)
Definition pv_digest (pv : ProofValue) : option Z :=
  match pv with HybridHash h => Some h | HybridValue v => Some (blake2b_hash v) | _ => None end.
Definition pv_same (a b : ProofValue) : Prop :=
  match pv_digest a, pv_digest b with
  | Some h, Some h' => h = h'
  | None, None => a = b
  | _, _ => False
  end.

Lemma proof_content_inj pn pn' : proof_node_ok pn -> proof_node_ok pn' ->
  proof_node_content pn = proof_node_content pn' ->
  pn_key pn = pn_key pn' /\ pv_same (pn_value pn) (pn_value pn') /\ pn_children pn = pn_children pn'.
Proof.
  intros (K & V & L & C) (K' & V' & L' & C') E. unfold proof_node_content in E.
  apply cenc_inj_app in E as [EK E]; [|done|done]. split; [done|].
  assert (Hv : forall v, value_ok v -> cvalid vec_u8_codec v) by (intros v Hv; apply usize_valid; unfold value_ok in Hv; lia).
  assert (Hd : forall l, cvalid hash_codec (blake2b_hash l)) by (intros l; apply hash_ok_blake2b).
  assert (Hch : children_bytes (pn_children pn) = children_bytes (pn_children pn') -> pn_children pn = pn_children pn').
  { intros Ec. apply children_bytes_inj; [congruence|done..]. }
  destruct (pn_value pn) as [|v|h|v], (pn_value pn') as [|v'|h'|v']; cbn [pv_ok app] in *; try done; apply (f_equal tail) in E; cbn [tail] in E.
  - split; [done|by apply Hch].
  - apply (cenc_inj_app vec_u8_codec v v') in E as [-> E]; [|by apply Hv..]. split; [done|by apply Hch].
  - apply (cenc_inj_app hash_codec h h') in E as [-> E]; [|done..]. split; [done|by apply Hch].
  - apply (cenc_inj_app hash_codec h (blake2b_hash v')) in E as [-> E]; [|done..]. split; [done|by apply Hch].
  - apply (cenc_inj_app hash_codec (blake2b_hash v) h') in E as [<- E]; [|done..]. split; [done|by apply Hch].
  - apply (cenc_inj_app hash_codec (blake2b_hash v) (blake2b_hash v')) in E as [Eh E]; [|done..]. split; [done|by apply Hch].
Qed.

(** A node and the node of a proof made from it have the same hash. *)
Lemma to_proof_node_content b n : proof_node_content (to_proof_node b n) = node_content n.
Proof. unfold proof_node_content, node_content, to_proof_node. cbn. by destruct (has_children n), (value n), b. Qed.

Lemma to_proof_node_ok b k n : node_wf k n -> (forall v, value n = Some v -> value_ok v) -> proof_node_ok (to_proof_node b n).
Proof.
  intros [H1 H2 H3 H4] Hv. split; [cbn; by rewrite H1|]. split; [|split; [done|]].
  - cbn. destruct (has_children n), (value n) as [v|] eqn:E, b; cbn; try done; try (by apply Hv). apply hash_ok_blake2b.
  - cbn. apply Forall_lookup_2. intros i [c|] Hc; [|done]. destruct (H4 _ _ Hc) as (_ & Hk & Hh). split; [|done].
    by eapply key_ok_app_r.
Qed.

Lemma blake2b_hash_inj x y : blake2b_hash x = blake2b_hash y -> blake2b x = blake2b y.
Proof.
  unfold blake2b_hash. intros E. destruct (blake2b_bytes x) as [Lx Bx], (blake2b_bytes y) as [Ly By].
  rewrite <-(be_bytes_value (blake2b x)), <-(be_bytes_value (blake2b y)) by done. by rewrite E, Lx, Ly.
Qed.

(** The strings that are hashed on the way to the root hash. *)
Definition trie_strings (db : gmap key TrieNode) : list (list Z) :=
  map (fun kn => node_content kn.2) (map_to_list db) ++ map snd (map_to_list (contents db)).

Lemma node_string db k n : db !! k = Some n -> node_content n ∈ trie_strings db.
Proof.
  intros Hn. apply elem_of_app. left. apply list_elem_of_In, in_map_iff. exists (k, n). split; [done|].
  by apply list_elem_of_In, elem_of_map_to_list.
Qed.
Lemma value_string db k n v : db !! k = Some n -> value n = Some v -> v ∈ trie_strings db.
Proof.
  intros Hn Hv. apply elem_of_app. right. apply list_elem_of_In, in_map_iff. exists (k, v). split; [done|].
  apply list_elem_of_In, elem_of_map_to_list. by rewrite lookup_contents, Hn.
Qed.

Definition values_ok (db : gmap key TrieNode) : Prop := forall k v, contents db !! k = Some v -> value_ok v.

Lemma hash_content n h : hash n = Some h -> can_hash n = true /\ h = blake2b_hash (node_content n).
Proof. unfold hash. destruct (can_hash n); [|done]. intros [= <-]. done. Qed.

Section Binding.
Context (r1 r2 : range) (db1 db2 : gmap key TrieNode) (Hwf1 : wf r1 db1) (Hwf2 : wf r2 db2).
Context (Hv1 : values_ok db1) (Hv2 : values_ok db2).
Let coll := collision blake2b (trie_strings db1) (trie_strings db2).

Lemma same_hash k1 k2 n1 n2 h : db1 !! k1 = Some n1 -> db2 !! k2 = Some n2 -> hash n1 = Some h -> hash n2 = Some h ->
  coll \/ (k1 = k2 /\ children n1 = children n2 /\ value n1 = value n2).
Proof.
  intros Hn1 Hn2 H1 H2. apply hash_content in H1 as [_ ->], H2 as [_ E]. apply blake2b_hash_inj in E.
  destruct (no_collision blake2b (trie_strings db1) (trie_strings db2) _ _ (node_string _ _ _ Hn1) (node_string _ _ _ Hn2) E)
    as [Ec|Hc]; [|by left].
  rewrite <-!(to_proof_node_content true) in Ec. apply proof_content_inj in Ec as (Ek & Ev & Ech).
  - cbn in Ek, Ech. rewrite (nw_key _ _ (wf_node _ _ Hwf1 _ _ Hn1)), (nw_key _ _ (wf_node _ _ Hwf2 _ _ Hn2)) in Ek.
    assert (Hhc : has_children n1 = has_children n2) by (unfold has_children, iter_children; by rewrite Ech).
    cbn in Ev. rewrite Hhc in Ev. destruct (has_children n2), (value n1) as [v1|] eqn:E1, (value n2) as [v2|] eqn:E2; try done.
    + apply blake2b_hash_inj in Ev. destruct (no_collision blake2b (trie_strings db1) (trie_strings db2) v1 v2) as [->|Hc];
        [by eapply value_string|by eapply value_string|done|by right|by left].
    + by right.
    + unfold pv_same in Ev. cbn in Ev. right. by injection Ev as ->.
    + by right.
  - eapply to_proof_node_ok; [exact (wf_node _ _ Hwf1 _ _ Hn1)|]. intros v Hv. apply (Hv1 k1). by rewrite lookup_contents, Hn1.
  - eapply to_proof_node_ok; [exact (wf_node _ _ Hwf2 _ _ Hn2)|]. intros v Hv. apply (Hv2 k2). by rewrite lookup_contents, Hn2.
Qed.

Context (Hh1 : hashes_ok (fun _ => False) db1) (Hh2 : hashes_ok (fun _ => False) db2).

(** Nodes with the same hash have the same contents below them, outside of the missing
    ranges. *)
Lemma same_hash_contents d : forall k n1 n2 h, (MAX_BYTES * 2 < d + length k)%nat ->
  db1 !! k = Some n1 -> db2 !! k = Some n2 -> hash n1 = Some h -> hash n2 = Some h ->
  coll \/ forall q, k `prefix_of` q -> range_contains r1 q = false -> range_contains r2 q = false ->
    contents db1 !! q = contents db2 !! q.
Proof.
  induction d as [|d IH]; intros k n1 n2 h Hd Hn1 Hn2 Hs1 Hs2.
  { destruct (nw_key_ok _ _ (wf_node _ _ Hwf1 _ _ Hn1)) as [_ Hl]. lia. }
  destruct (same_hash _ _ _ _ _ Hn1 Hn2 Hs1 Hs2) as [Hc|(_ & Ech & Ev)]; [by left|].
  apply hash_content in Hs1 as [Hcan1 _], Hs2 as [Hcan2 _].
  assert (Hsub : coll \/ forall i c, entry n1 i c -> forall q, k ++ suffix c `prefix_of` q ->
    range_contains r1 q = false -> range_contains r2 q = false -> contents db1 !! q = contents db2 !! q).
  { assert (Hall : forall j, coll \/ forall i c, (i < j)%nat -> entry n1 i c -> forall q, k ++ suffix c `prefix_of` q ->
      range_contains r1 q = false -> range_contains r2 q = false -> contents db1 !! q = contents db2 !! q).
    { induction j as [|j [IHj|IHj]]; [right; lia|by left|]. destruct (children n1 !! j) as [[c|]|] eqn:Ej.
      2,3: right; intros i c' Hi Hc'; destruct (decide (i = j)) as [->|]; [unfold entry in Hc'; congruence|apply (IHj i c'); [lia|done]].
      assert (Hc1 : entry n1 j c) by done. assert (Hc2 : entry n2 j c) by (unfold entry; by rewrite <-Ech).
      assert (Hj : coll \/ forall q, k ++ suffix c `prefix_of` q -> range_contains r1 q = false -> range_contains r2 q = false ->
        contents db1 !! q = contents db2 !! q).
      { destruct (range_contains r1 (k ++ suffix c)) eqn:Hr1; [right; intros q Hq Hq1; by rewrite (range_prefix r1 _ _ Hq Hq1) in Hr1|].
        destruct (range_contains r2 (k ++ suffix c)) eqn:Hr2; [right; intros q Hq _ Hq2; by rewrite (range_prefix r2 _ _ Hq Hq2) in Hr2|].
        destruct (wf_closed _ _ Hwf1 _ _ _ _ Hn1 Hc1 Hr1) as [m1 Hm1], (wf_closed _ _ Hwf2 _ _ _ _ Hn2 Hc2 Hr2) as [m2 Hm2].
        pose proof (can_hash_entry _ _ _ Hcan1 Hc1) as Hhc. eapply (IH (k ++ suffix c) m1 m2 (child_hash c)); [|done|done| |].
        - destruct (entry_suffix Hwf1 _ _ _ _ Hn1 Hc1) as [t ->]. rewrite length_app. cbn [length]. lia.
        - apply (Hh1 k n1 j c m1); tauto.
        - apply (Hh2 k n2 j c m2); tauto. }
      destruct Hj as [Hj|Hj]; [by left|right]. intros i c' Hi Hc'. destruct (decide (i = j)) as [->|].
      - unfold entry in *. by simplify_eq.
      - apply (IHj i c'); [lia|done]. }
    destruct (Hall 16%nat) as [Hc|Hc]; [by left|right]. intros i c Hc'. apply (Hc i c); [|done].
    rewrite <-(nw_length _ _ (wf_node _ _ Hwf1 _ _ Hn1)). by eapply lookup_lt_Some. }
  destruct Hsub as [Hc|Hsub]; [by left|right]. intros q Hq Hq1 Hq2. destruct (decide (k = q)) as [<-|Hne].
  { by rewrite !lookup_contents, Hn1, Hn2. }
  destruct (prefix_strict _ _ Hq Hne) as (i & t & Eq).
  assert (Hnone : forall db n, db !! k = Some n -> forall ro, wf ro db -> children n = children n1 ->
    (forall c, entry n1 i c -> ~ k ++ suffix c `prefix_of` q) -> contents db !! q = None).
  { intros db n Hn ro Hwf En Hno. rewrite lookup_contents. destruct (db !! q) as [nq|] eqn:Enq; [|done]. exfalso.
    destruct (entry_towards_node Hwf _ _ _ _ _ _ Hn Enq Eq) as (c & Hc & Hp). unfold entry in Hc. rewrite En in Hc. by apply (Hno c). }
  destruct (children n1 !! i) as [[c|]|] eqn:Ei.
  - destruct (decide (k ++ suffix c `prefix_of` q)) as [Hp|Hp]; [by apply (Hsub i c)|].
    assert (forall c', entry n1 i c' -> ~ k ++ suffix c' `prefix_of` q) by (intros c' Hc'; unfold entry in Hc'; by simplify_eq).
    by rewrite (Hnone db1 n1 Hn1 r1), (Hnone db2 n2 Hn2 r2).
  - assert (forall c', entry n1 i c' -> ~ k ++ suffix c' `prefix_of` q) by (intros c' Hc'; unfold entry in Hc'; congruence).
    by rewrite (Hnone db1 n1 Hn1 r1), (Hnone db2 n2 Hn2 r2).
  - assert (forall c', entry n1 i c' -> ~ k ++ suffix c' `prefix_of` q) by (intros c' Hc'; unfold entry in Hc'; congruence).
    by rewrite (Hnone db1 n1 Hn1 r1), (Hnone db2 n2 Hn2 r2).
Qed.
End Binding.

(** ** The contents determine the hash *)

(** Every node of a complete trie leads to a value. *)
Lemma leads_to_value db : wf None db -> compact db -> forall d k n, (MAX_BYTES * 2 < d + length k)%nat ->
  db !! k = Some n -> k <> [] -> exists q v, k `prefix_of` q /\ contents db !! q = Some v.
Proof.
  intros Hwf Hcomp. induction d as [|d IH]; intros k n Hd Hn Hk.
  { destruct (nw_key_ok _ _ (wf_node _ _ Hwf _ _ Hn)) as [_ Hl]. lia. }
  destruct (Hcomp _ _ Hn Hk) as [[v Hv]|Hl]; [exists k, v; split; [done|by rewrite lookup_contents, Hn]|].
  destruct (iter_children n) as [|c l] eqn:Ei; [cbn in Hl; lia|].
  assert (c ∈ omap id (children n)) as Hin by (unfold iter_children in Ei; rewrite Ei; apply list_elem_of_here).
  apply list_elem_of_omap in Hin as ([c'|] & Hin & [= ->]). apply list_elem_of_lookup_1 in Hin as [i Hi].
  destruct (wf_closed _ _ Hwf _ _ _ _ Hn Hi eq_refl) as [m Hm]. destruct (entry_suffix Hwf _ _ _ _ Hn Hi) as [t Et].
  destruct (IH (k ++ suffix c) m) as (q & v & Hq & Hv); [rewrite Et, length_app; cbn [length]; lia|done|rewrite Et; apply app_cons_not_nil|].
  exists q, v. split; [by eapply prefix_app_l|done].
Qed.

Lemma two_entries n : (2 <= length (iter_children n))%nat -> exists i j c c', i <> j /\ entry n i c /\ entry n j c'.
Proof.
  unfold iter_children, entry. induction (children n) as [|[c|] l IH]; intros Hl; [cbn in Hl; lia| |].
  - destruct (omap id l) as [|c' l'] eqn:E; [cbn in Hl; rewrite E in Hl; cbn in Hl; lia|].
    assert (c' ∈ omap id l) as Hin by (rewrite E; apply list_elem_of_here).
    apply list_elem_of_omap in Hin as ([c''|] & Hin & [= ->]). apply list_elem_of_lookup_1 in Hin as [j Hj].
    by exists 0%nat, (S j), c, c'.
  - destruct (IH Hl) as (i & j & c & c' & Hij & Hi & Hj). exists (S i), (S j), c, c'. by split; [congruence|].
Qed.

(** The entry towards the same place leads at most as far in a trie with the same contents. *)
Lemma entry_not_longer db1 db2 p n1 n2 i c1 : wf None db1 -> wf None db2 -> compact db1 -> contents db1 = contents db2 ->
  db1 !! p = Some n1 -> db2 !! p = Some n2 -> entry n1 i c1 ->
  exists c2, entry n2 i c2 /\ p ++ suffix c2 `prefix_of` p ++ suffix c1.
Proof.
  intros Hwf1 Hwf2 Hcomp E Hn1 Hn2 Hc1. destruct (wf_closed _ _ Hwf1 _ _ _ _ Hn1 Hc1 eq_refl) as [m1 Hm1].
  destruct (entry_suffix Hwf1 _ _ _ _ Hn1 Hc1) as [t Et]. set (t1 := p ++ suffix c1) in *.
  assert (Hne : t1 <> []) by (unfold t1; rewrite Et; apply app_cons_not_nil).
  assert (Hstored : forall q v, contents db1 !! q = Some v -> exists m, db2 !! q = Some m).
  { intros q v Hq. rewrite E, lookup_contents in Hq. destruct (db2 !! q); [eauto|done]. }
  destruct (Hcomp _ _ Hm1 Hne) as [[v Hv]|Hl].
  - destruct (Hstored t1 v) as [m Hm]; [by rewrite lookup_contents, Hm1|].
    eapply (entry_towards_node Hwf2 p n2 t1 m i t); [done|done|]. unfold t1. by rewrite Et.
  - destruct (two_entries _ Hl) as (a & b & ca & cb & Hab & Ha & Hb).
    assert (Hval : forall x c, entry m1 x c -> exists q v w, contents db1 !! q = Some v /\ q = t1 ++ x :: w).
    { intros x c Hc. destruct (wf_closed _ _ Hwf1 _ _ _ _ Hm1 Hc eq_refl) as [mx Hmx].
      destruct (entry_suffix Hwf1 _ _ _ _ Hm1 Hc) as [u Eu].
      destruct (leads_to_value db1 Hwf1 Hcomp (S (MAX_BYTES * 2)) (t1 ++ suffix c) mx) as (q & v & [w Hq] & Hv);
        [lia|done|rewrite Eu; apply app_cons_not_nil|]. exists q, v, (u ++ w). split; [done|]. rewrite Hq, Eu, <-app_assoc. done. }
    destruct (Hval a ca Ha) as (qa & va & wa & Hqa & Ea), (Hval b cb Hb) as (qb & vb & wb & Hqb & Eb).
    destruct (Hstored _ _ Hqa) as [ma Hma], (Hstored _ _ Hqb) as [mb Hmb].
    assert (Eqt : forall w, t1 ++ w = p ++ i :: (t ++ w)) by (intros w; unfold t1; by rewrite Et, <-app_assoc).
    destruct (entry_towards_node Hwf2 p n2 qa ma i (t ++ a :: wa)) as (c2 & Hc2 & Hpa); [done|done|by rewrite Ea, Eqt|].
    pose proof (nothing_between Hwf2 p n2 i c2 qb mb (t ++ b :: wb) Hn2 Hc2 Hmb) as Hpb.
    exists c2. split; [done|]. specialize (Hpb ltac:(by rewrite Eb, Eqt)).
    destruct (prefix_cases (p ++ suffix c2) t1 qa Hpa) as [->|[(x & w & ->)|(x & w & Ex)]]; [rewrite Ea; apply strict_prefix|done|apply strict_prefix|].
    exfalso. rewrite Ex, Ea in Hpa. rewrite Ex, Eb in Hpb. apply prefix_app_cons in Hpa as [-> _], Hpb as [-> _]. done.
Qed.

Section Canonical.
Context (db1 db2 : gmap key TrieNode) (Hwf1 : wf None db1) (Hwf2 : wf None db2).
Context (Hc1 : compact db1) (Hc2 : compact db2) (E : contents db1 = contents db2).
Context (Hh1 : hashes_ok (fun _ => False) db1) (Hh2 : hashes_ok (fun _ => False) db2).

Lemma same_entries p n1 n2 i c1 : db1 !! p = Some n1 -> db2 !! p = Some n2 -> entry n1 i c1 ->
  exists c2, entry n2 i c2 /\ suffix c2 = suffix c1.
Proof.
  intros Hn1 Hn2 He1. destruct (entry_not_longer db1 db2 p n1 n2 i c1) as (c2 & He2 & Hp); [done..|].
  destruct (entry_not_longer db2 db1 p n2 n1 i c2) as (c1' & He1' & Hp'); [done..|].
  unfold entry in *. simplify_eq. exists c2. split; [done|].
  assert (p ++ suffix c2 = p ++ suffix c1) as Eq by (by apply (anti_symm prefix)). by apply app_inv_head in Eq.
Qed.

Lemma canonical_hash d : forall p n1 n2 h1 h2, (MAX_BYTES * 2 < d + length p)%nat ->
  db1 !! p = Some n1 -> db2 !! p = Some n2 -> hash n1 = Some h1 -> hash n2 = Some h2 -> h1 = h2.
Proof.
  induction d as [|d IH]; intros p n1 n2 h1 h2 Hd Hn1 Hn2 Hs1 Hs2.
  { destruct (nw_key_ok _ _ (wf_node _ _ Hwf1 _ _ Hn1)) as [_ Hl]. lia. }
  apply hash_content in Hs1 as [Hcan1 ->], Hs2 as [Hcan2 ->]. f_equal.
  pose proof (wf_node _ _ Hwf1 _ _ Hn1) as W1. pose proof (wf_node _ _ Hwf2 _ _ Hn2) as W2.
  assert (Ev : value n1 = value n2).
  { pose proof (f_equal (lookup p) E) as Ep. by rewrite !lookup_contents, Hn1, Hn2 in Ep. }
  assert (Ech : children n1 = children n2).
  { apply list_eq_same_length with 16%nat; [by apply W2|by apply W1|]. intros i o1 o2 _ Ho1 Ho2.
    destruct o1 as [c1|].
    - destruct (same_entries p n1 n2 i c1 Hn1 Hn2 Ho1) as (c2 & He2 & Es). unfold entry in He2. simplify_eq.
      destruct (wf_closed _ _ Hwf1 _ _ _ _ Hn1 Ho1 eq_refl) as [m1 Hm1], (wf_closed _ _ Hwf2 _ _ _ _ Hn2 Ho2 eq_refl) as [m2 Hm2].
      assert (Hx1 : hash m1 = Some (child_hash c1)) by (apply (Hh1 p n1 i c1 m1); [done|done|exact (can_hash_entry _ _ _ Hcan1 Ho1)|tauto|done]).
      assert (Hx2 : hash m2 = Some (child_hash c2)) by (apply (Hh2 p n2 i c2 m2); [done|done|exact (can_hash_entry _ _ _ Hcan2 Ho2)|tauto|done]).
      rewrite Es in Hm2. f_equal. destruct c1, c2. cbn in *. f_equal; [done|].
      eapply (IH (p ++ suffix) m1 m2); [|done..]. destruct (entry_suffix Hwf1 _ _ _ _ Hn1 Ho1) as [t Et]. cbn in Et.
      rewrite Et, length_app. cbn [length]. lia.
    - destruct o2 as [c2|]; [|done]. exfalso.
      destruct (entry_not_longer db2 db1 p n2 n1 i c2) as (c1 & He1 & _); [done..|]. unfold entry in He1. congruence. }
  unfold node_content, has_children, iter_children. by rewrite (nw_key _ _ W1), (nw_key _ _ W2), Ev, Ech.
Qed.
End Canonical.
End Content.
