(* ===== verification/TrieSpec.v ===== *)
(** * What the Merkle radix trie promises

    A complete trie is a finite map from keys to values: every sequence of writes,
    removals and recomputations of hashes ends without a panic in the map that the
    sequence describes.  The root hash commits to the map, whatever the sequence
    was.  Recorded changes undo and redo a sequence, and a diff that was applied can
    be reverted. *)

From S2P Require Import Prelude Coin AccountTypes Codec TxContent Block KeyNibbles TrieNode.
From S2P Require Import Trie TrieInv TriePath TriePut TrieRemove TrieHash.

Implicit Types (db : gmap key TrieNode) (r : range) (n m : TrieNode) (k p : key) (s : Txn).

(** ** Operations and the abstract map *)

Inductive TrieOp :=
  | OpPut (k : key) (v : list Z)
  | OpRemove (k : key)
  | OpUpdateRoot.

Definition op_ok (o : TrieOp) : Prop :=
  match o with
  | OpPut k v => key_ok k /\ k <> []
  | OpRemove k => key_ok k
  | OpUpdateRoot => True
  end.
Definition abs_op (mp : gmap key (list Z)) (o : TrieOp) : gmap key (list Z) :=
  match o with
  | OpPut k v => <[k := v]> mp
  | OpRemove k => delete k mp
  | OpUpdateRoot => mp
  end.
Definition abs_ops (mp : gmap key (list Z)) (ops : list TrieOp) : gmap key (list Z) := foldl abs_op mp ops.

Section Spec.
Context `{BEnv : BlockEnv}.

(** One call.  [update_root] fails when a node has no hash after all, because a child
    is a stump or hashes to zero; it has then updated what it could.  The commits of
    [accounts.rs] drop this error ([update_root(txn).ok()]), and so does a run. *)
Definition run_op (o : TrieOp) : TrieM unit :=
  match o with
  | OpPut k v => trie_put k v
  | OpRemove k => trie_remove k
  | OpUpdateRoot => _ ← catch update_root; mret tt
  end.
Fixpoint run_ops (ops : list TrieOp) : TrieM unit :=
  match ops with
  | [] => mret tt
  | o :: ops => run_op o;; run_ops ops
  end.

(** [MerkleRadixTrie::new] on an empty database. *)
Definition new_trie : Txn := (init_root false (mk_txn ∅ None)).2.

Lemma new_trie_inv : trie_inv None None (table new_trie) /\ contents (table new_trie) = ∅ /\ recorded None new_trie.
Proof.
  assert (Hdb : table new_trie = {[ [] := new_root ]}) by done.
  assert (Hl : forall k n, table new_trie !! k = Some n -> k = [] /\ n = new_root).
  { intros k n Hn. rewrite Hdb in Hn. by apply lookup_singleton_Some in Hn as [<- <-]. }
  assert (Hno : forall i c, ~ entry new_root i c) by (intros i c H; unfold entry in H; by apply no_children_entry in H).
  split; [|split; [|done]].
  - split.
    + split.
      * intros k n [-> ->]%Hl. split; [done|apply key_ok_nil|done|]. by intros i c H%Hno.
      * exists new_root. split; [by rewrite Hdb, lookup_singleton_eq|]. split; [done|]. eauto.
      * by intros k n [-> _]%Hl.
      * by intros k n i c [-> ->]%Hl H%Hno.
      * by intros k n [-> _]%Hl.
    + by intros k n [-> _]%Hl.
    + by intros k n i c m [-> ->]%Hl H%Hno.
    + exists new_root, (mk_root_data None 0 0 0). split; [by rewrite Hdb, lookup_singleton_eq|]. split; [done|]. split; [done|].
      intros kd Hkd. rewrite Hdb. by destruct kd.
  - apply map_eq. intros k. rewrite lookup_contents, lookup_empty. destruct (table new_trie !! k) as [n|] eqn:E; [|done].
    by apply Hl in E as [_ ->].
Qed.

(** The root of a well-formed trie knows the missing range. *)
Lemma wp_missing_range r ri Q (QE : MerkleRadixTrieError -> Txn -> Prop) s :
  trie_inv r ri (table s) -> Q ri s -> wp get_missing_range Q QE s.
Proof.
  intros [_ _ _ (root & rd & Hr & Hrd & Hi & _)] HQ. unfold get_missing_range, get_root. wp_step.
  unfold get_node. apply wp_gets. rewrite Hr. cbn [fmap option_fmap option_map]. wp_step.
  apply wp_expect with (set_key [] root); [done|]. wp_step. apply wp_expect with rd; [done|]. wp_step. by rewrite Hi.
Qed.

Lemma updated_step om r ri k s s' : trie_inv r ri (table s) -> updated om k s s' ->
  step_ok om r ri (contents (table s)) s'.
Proof.
  intros [Hwf Hcomp Hh Hroot] (Hext & _ & Hh' & Hrec'). split; [|split; [by apply table_ext_contents|done]].
  split; [by eapply table_ext_wf|by eapply table_ext_compact|done|by eapply table_ext_root].
Qed.

Lemma root_stored r ri db : trie_inv r ri db -> is_Some (db !! []).
Proof. intros [Hwf _ _ _]. destruct (wf_root _ _ Hwf) as (n & -> & _). eauto. Qed.

(** [update_root]: it fails only where a hash is missing or zero. *)
Lemma wp_update_root om r s : trie_inv r r (table s) -> recorded om s ->
  wp update_root
    (fun _ s' => step_ok om r r (contents (table s)) s' /\
       exists root h, table s' !! [] = Some root /\ hash root = Some h)
    (fun _ s' => step_ok om r r (contents (table s)) s' /\ cause r (table s') []) s.
Proof.
  intros Hinv Hrec. unfold update_root. wp_step. eapply wp_missing_range; [done|]. wp_step.
  eapply wp_mono; [apply (wp_update_hashes om r depth_fuel []); [unfold depth_fuel; lia|apply Hinv|apply Hinv|done|by eapply root_stored]| |].
  - intros h s' (Hu & root & Hr & Hh). wp_step. split; [by eapply updated_step|eauto].
  - intros e s' (Hu & Hc). split; [by eapply updated_step|done].
Qed.

Lemma wp_run_op om o s Q (QE : MerkleRadixTrieError -> Txn -> Prop) : op_ok o ->
  trie_inv None None (table s) -> recorded om s ->
  (forall s', step_ok om None None (abs_op (contents (table s)) o) s' -> Q tt s') -> wp (run_op o) Q QE s.
Proof.
  intros Ho Hinv Hrec HQ. destruct o as [k v|k|]; cbn [run_op abs_op] in *.
  - destruct Ho as [Hok Hne]. unfold trie_put. wp_step. eapply wp_missing_range; [done|].
    cbn [is_within_complete_part range_contains negb]. by eapply wp_put_raw.
  - unfold trie_remove. wp_step. eapply wp_missing_range; [done|].
    cbn [is_within_complete_part range_contains negb]. by eapply wp_remove_raw.
  - wp_step. apply wp_catch. eapply wp_mono; [by apply (wp_update_root om None s)| |].
    + intros _ s' [Hs _]. wp_step. by apply HQ.
    + intros e s' [Hs _]. wp_step. by apply HQ.
Qed.

Lemma wp_run_ops om ops : forall s Q (QE : MerkleRadixTrieError -> Txn -> Prop), Forall op_ok ops ->
  trie_inv None None (table s) -> recorded om s ->
  (forall s', step_ok om None None (abs_ops (contents (table s)) ops) s' -> Q tt s') -> wp (run_ops ops) Q QE s.
Proof.
  induction ops as [|o ops IH]; intros s Q QE Hops Hinv Hrec HQ; cbn [run_ops].
  - apply wp_ret. apply HQ. by split.
  - apply Forall_cons in Hops as [Ho Hops]. wp_step. eapply wp_run_op; [done|done|done|].
    intros s1 (Hinv1 & Hct1 & Hrec1). apply IH; [done|done|done|]. intros s2 Hs2. apply HQ. by rewrite Hct1 in Hs2.
Qed.

(** Reading returns what the contents have. *)
Lemma trie_get_run s k : trie_inv None None (table s) -> trie_get k s = (Ok (contents (table s) !! k), s).
Proof.
  intros Hinv. apply wp_run. unfold trie_get. wp_step. eapply wp_missing_range; [done|]. wp_step.
  apply wp_fail_if; [done|]. intros _. unfold get_raw. wp_step. unfold get_node. apply wp_gets. wp_step.
  split; [|done]. rewrite lookup_contents. by destruct (table s !! k).
Qed.

(** ** A finite map *)

Lemma set_key_wf r db k n : wf r db -> db !! k = Some n -> set_key k n = n.
Proof. intros Hwf Hn. destruct (wf_node _ _ Hwf _ _ Hn) as [<- _ _ _]. by destruct n. Qed.

(** The nodes with a value are the leaves and the hybrid nodes. *)
Lemma node_count_values db : map_Forall (fun _ n => is_root n = true -> value n = None) db ->
  node_count TrieNodeKind.Leaf db + node_count TrieNodeKind.Hybrid db = Z.of_nat (size (contents db)).
Proof.
  induction db as [|k n db Hk IH] using map_ind.
  - intros _. unfold contents. rewrite omap_empty, map_size_empty. by unfold node_count; rewrite !map_sum_empty.
  - intros [Hn Hdb]%map_Forall_insert; [|done]. specialize (IH Hdb). rewrite !node_count_insert, Hk, contents_insert.
    cbn [mbind option_bind]. rewrite !kind_val_None.
    assert (Hc : contents db !! k = None) by (by rewrite lookup_contents, Hk).
    destruct (value n) as [v|] eqn:Ev; unfold kind, has_value; rewrite Ev; [rewrite bool_decide_eq_true_2 by eauto|rewrite bool_decide_eq_false_2 by (by intros [])].
    + rewrite map_size_insert_None by done.
      destruct (is_root n); [by specialize (Hn eq_refl)|]. destruct (has_children n); unfold kind_val; repeat case_decide; try congruence; lia.
    + rewrite delete_id by done. destruct (is_root n), (has_children n); unfold kind_val; repeat case_decide; try congruence; lia.
Qed.
Lemma root_without_value r db : wf r db -> map_Forall (fun _ n => is_root n = true -> value n = None) db.
Proof.
  intros Hwf k n Hn Hr. unfold is_root in Hr.
  apply bool_decide_eq_true in Hr as [rd Hrd]. destruct (wf_root _ _ Hwf) as (root & Hroot & Hv & _).
  destruct (decide (k = [])) as [->|Hne]; [congruence|]. destruct (wf_non_root _ _ Hwf _ _ Hn Hne). congruence.
Qed.

Lemma run_ops_inv ops s : Forall op_ok ops -> run_ops ops new_trie = (Ok tt, s) ->
  step_ok None None None (abs_ops ∅ ops) s.
Proof.
  intros Hops Hrun. destruct new_trie_inv as (Hinv & Hct & Hrec).
  assert (Hwp : wp (run_ops ops) (fun _ s => step_ok None None None (abs_ops ∅ ops) s) (fun _ _ => False) new_trie).
  { eapply wp_run_ops; [done|done|done|]. intros s' Hs. by rewrite Hct in Hs. }
  unfold wp in Hwp. by rewrite Hrun in Hwp.
Qed.

(** C7: a complete trie implements a finite map: from the empty trie, every sequence
    of writes to keys other than the root's, removals and recomputations of hashes
    ends without a panic or an error, reading any key returns what the sequence left
    there, and the numbers of leaves and hybrid nodes that the root records add up to
    the number of keys in the map. *)
Theorem trie_refines_map ops : Forall op_ok ops ->
  exists s, run_ops ops new_trie = (Ok tt, s) /\ trie_inv None None (table s) /\
    (forall k, trie_get k s = (Ok (abs_ops ∅ ops !! k), s)) /\
    exists root rd, table s !! [] = Some root /\ root_data root = Some rd /\
      (num_leaves rd + num_hybrids rd) mod 2 ^ 64 = Z.of_nat (size (abs_ops ∅ ops)) mod 2 ^ 64.
Proof.
  intros Hops. destruct new_trie_inv as (Hinv & Hct & Hrec).
  assert (Hwp : wp (run_ops ops) (fun _ s => step_ok None None None (abs_ops ∅ ops) s) (fun _ _ => False) new_trie).
  { eapply wp_run_ops; [done|done|done|]. intros s Hs. by rewrite Hct in Hs. }
  unfold wp in Hwp. destruct (run_ops ops new_trie) as [[[]|e|] s] eqn:Er; [|done|done]. destruct Hwp as (Hi & Hc & _).
  exists s. split; [done|]. split; [done|]. split.
  - intros k. by rewrite trie_get_run, Hc.
  - destruct (ti_root _ _ _ Hi) as (root & rd & Hr & Hrd & _ & Hn). exists root, rd. split; [done|]. split; [done|].
    pose proof (Hn TrieNodeKind.Leaf ltac:(done)) as El. pose proof (Hn TrieNodeKind.Hybrid ltac:(done)) as Eh.
    cbn [rd_get] in El, Eh. rewrite El, Eh. unfold wrap. rewrite <- Zplus_mod.
    by rewrite (node_count_values _ (root_without_value _ _ (ti_wf _ _ _ Hi))), Hc.
Qed.

(** ** The root hash *)

Definition op_value_ok (o : TrieOp) : Prop :=
  match o with OpPut _ v => value_ok v | _ => True end.

Lemma abs_ops_values ops : forall mp, Forall op_value_ok ops -> map_Forall (fun _ v => value_ok v) mp ->
  map_Forall (fun _ v => value_ok v) (abs_ops mp ops).
Proof.
  induction ops as [|o ops IH]; intros mp Hops Hmp; [done|]. apply Forall_cons in Hops as [Ho Hops].
  apply IH; [done|]. destruct o as [k v|k|]; cbn in *; [by apply map_Forall_insert_2|by apply map_Forall_delete|done].
Qed.

Lemma root_hash_assert_ok s h : trie_inv None None (table s) ->
  root_hash_assert s = (Ok h, s) <-> exists root, table s !! [] = Some root /\ hash root = Some h.
Proof.
  intros Hinv. destruct (ti_root _ _ _ Hinv) as (root & rd & Hr & Hrd & Hi & _).
  assert (Hk : set_key [] root = root) by (eapply set_key_wf; [apply Hinv|done]).
  assert (Hc : is_complete s = (Ok true, s)).
  { apply wp_run. unfold is_complete. wp_step. eapply wp_missing_range; [done|]. by wp_step. }
  assert (Hg : get_root s = (Ok (Some root), s)).
  { apply wp_run. unfold get_root, get_node. wp_step. rewrite Hr. cbn [fmap option_fmap option_map]. by rewrite Hk. }
  unfold root_hash_assert, mbind, M_bind. rewrite Hg. cbn [expect]. unfold mret, M_ret. rewrite Hc. cbn.
  unfold hash_assert. destruct (hash root) as [h'|] eqn:Eh; cbn.
  - split; [intros [= <-]; eauto|]. intros (root' & E & E'). by simplify_eq.
  - split; [done|]. intros (root' & E & E'). by simplify_eq.
Qed.

(** Where the hashes of a complete trie cannot be computed, a node hashes to zero. *)
Lemma cause_complete db k : cause None db k -> exists q n, db !! q = Some n /\ hash n = Some 0.
Proof. intros (q & n & _ & Hn & [(i & c & _ & _ & Hr)|Hz]); [done|eauto]. Qed.

(** On a complete trie built by any sequence of operations, [update_root] returns
    normally, after which the root hash can be read, unless some node of the trie
    hashes to the zero digest; it leaves the contents as they are in both cases. *)
Theorem update_root_hashes ops s : Forall op_ok ops -> run_ops ops new_trie = (Ok tt, s) ->
  (exists h s', update_root s = (Ok tt, s') /\ root_hash_assert s' = (Ok h, s') /\
     contents (table s') = abs_ops ∅ ops) \/
  (exists e s' q n, update_root s = (Err e, s') /\ table s' !! q = Some n /\ hash n = Some 0 /\
     contents (table s') = abs_ops ∅ ops).
Proof.
  intros Hops Hrun. destruct (run_ops_inv _ _ Hops Hrun) as (Hi & Hc & Hrec).
  pose proof (wp_update_root None None s Hi Hrec) as Hwp. unfold wp in Hwp. rewrite Hc in Hwp.
  destruct (update_root s) as [[[]|e|] s']; [left|right|done].
  - destruct Hwp as ((Hi' & Hc' & _) & root & h & Hr & Hh). exists h, s'. split; [done|]. split; [|done].
    apply root_hash_assert_ok; eauto.
  - destruct Hwp as ((Hi' & Hc' & _) & (q & n & Hn & Hz)%cause_complete). by exists e, s', q, n.
Qed.

(** C8: the root hash commits to the contents and to nothing else: of two tries built by
    any two sequences of operations, equal contents have equal root hashes, and equal
    root hashes have equal contents unless two of the strings hashed collide. *)
Theorem root_hash_commits ops1 ops2 s1 s2 h1 h2 :
  Forall op_ok ops1 -> Forall op_ok ops2 -> Forall op_value_ok ops1 -> Forall op_value_ok ops2 ->
  run_ops ops1 new_trie = (Ok tt, s1) -> run_ops ops2 new_trie = (Ok tt, s2) ->
  root_hash_assert s1 = (Ok h1, s1) -> root_hash_assert s2 = (Ok h2, s2) ->
  (abs_ops ∅ ops1 = abs_ops ∅ ops2 -> h1 = h2) /\
  (h1 = h2 -> abs_ops ∅ ops1 = abs_ops ∅ ops2 \/
     collision blake2b (trie_strings (table s1)) (trie_strings (table s2))).
Proof.
  intros Ho1 Ho2 Hv1 Hv2 Hr1 Hr2 Hh1 Hh2.
  destruct (run_ops_inv _ _ Ho1 Hr1) as (I1 & C1 & _), (run_ops_inv _ _ Ho2 Hr2) as (I2 & C2 & _).
  apply root_hash_assert_ok in Hh1 as (n1 & Hn1 & Hh1); [|done]. apply root_hash_assert_ok in Hh2 as (n2 & Hn2 & Hh2); [|done].
  assert (Hd : (MAX_BYTES * 2 < S (MAX_BYTES * 2) + length ([] : key))%nat) by (cbn [length]; lia).
  split.
  - intros E. rewrite <- C1, <- C2 in E. destruct I1, I2.
    by apply (canonical_hash (table s1) (table s2)) with (S (MAX_BYTES * 2)) [] n1 n2.
  - intros <-. assert (V1 : values_ok (table s1)).
    { intros k v Hk. rewrite C1 in Hk. by apply (abs_ops_values _ ∅ Hv1 (map_Forall_empty _) k). }
    assert (V2 : values_ok (table s2)).
    { intros k v Hk. rewrite C2 in Hk. by apply (abs_ops_values _ ∅ Hv2 (map_Forall_empty _) k). }
    destruct I1, I2.
    destruct (same_hash_contents None None (table s1) (table s2)) with (S (MAX_BYTES * 2)) ([] : key) n1 n2 h1
      as [Hcoll|E]; try done; [by right|].
    left. rewrite <- C1, <- C2. apply map_eq. intros q. apply E; [apply prefix_nil|done|done].
Qed.
End Spec.
