(* ===== verification/TrieDiff.v ===== *)
(** * Diffs of the Merkle radix trie

    The changes recorded by a write transaction undo and redo what the transaction
    did, and a diff applied to a trie, complete or not, is reverted by what
    [apply_diff] returns. *)

From S2P Require Import Prelude Coin AccountTypes Codec TxContent Block KeyNibbles TrieNode.
From S2P Require Import Trie TrieInv TriePath TriePut TrieRemove TrieHash TrieSpec.

Implicit Types (db : gmap key TrieNode) (r : range) (n m : TrieNode) (k p : key) (s : Txn) (mp : gmap key (list Z)).

(** ** Sorted entries *)

Lemma insert_by_perm {A} cmp (a : A) l : insert_by cmp a l ≡ₚ a :: l.
Proof.
  induction l as [|b l IH]; [done|]. cbn [insert_by]. destruct (cmp a b); [done|done|].
  by rewrite IH, Permutation_swap.
Qed.
Lemma sort_by_perm {A} cmp (l : list A) : sort_by cmp l ≡ₚ l.
Proof. unfold sort_by. induction l as [|a l IH]; [done|]. cbn [foldr]. by rewrite insert_by_perm, IH. Qed.

Lemma btree_iter_NoDup {A} (d : gmap key A) : NoDup (btree_iter d).*1.
Proof. unfold btree_iter. rewrite sort_by_perm. apply NoDup_fst_map_to_list. Qed.
Lemma btree_iter_map {A} (d : gmap key A) : list_to_map (btree_iter d) = d.
Proof.
  rewrite <- (list_to_map_to_list d) at 2. apply list_to_map_proper; [apply btree_iter_NoDup|]. apply sort_by_perm.
Qed.
Lemma btree_iter_rev_map {A} (d : gmap key A) : list_to_map (rev (btree_iter d)) = d.
Proof.
  rewrite <- (btree_iter_map d) at 2. apply list_to_map_proper; [|symmetry; apply Permutation_rev].
  rewrite <- Permutation_rev. apply btree_iter_NoDup.
Qed.
Lemma btree_iter_Forall {A} (P : key -> Prop) (d : gmap key A) :
  (forall k, is_Some (d !! k) -> P k) -> Forall P (btree_iter d).*1.
Proof.
  intros H. apply Forall_forall. intros k Hk. unfold btree_iter in Hk. rewrite sort_by_perm in Hk.
  apply list_elem_of_fmap in Hk as ([k' v] & -> & Hk%elem_of_map_to_list). apply H. eauto.
Qed.

(** The root's key comes first. *)
Lemma sort_root {A} (v : A) (l : list (key * A)) : NoDup l.*1 -> ([], v) ∈ l ->
  exists l', sort_by (fun a b => lex a.1 b.1) l = ([], v) :: l'.
Proof.
  unfold sort_by. induction l as [|[k w] l IH]; intros Hnd Hin; [by apply not_elem_of_nil in Hin|]. cbn [foldr].
  cbn in Hnd. apply NoDup_cons in Hnd as [Hk Hnd]. apply elem_of_cons in Hin as [[= <- <-]|Hin].
  - destruct (foldr _ [] l) as [|[k' w'] l']; cbn [insert_by fst]; [eauto|]. destruct k'; cbn [lex]; eauto.
  - destruct (IH Hnd Hin) as (l' & ->). cbn [insert_by fst]. destruct k as [|x k]; [|cbn [lex]; eauto].
    destruct Hk. apply list_elem_of_fmap. by exists ([], v).
Qed.

(** ** What a diff does to the contents *)

Definition key_fine k : Prop := key_ok k /\ k <> [].

(** A diff changes the keys outside of the missing range. *)
Definition diffed r (d : TrieDiff) mp mp' : Prop :=
  forall k, mp' !! k = match d !! k with
    | Some v => if range_contains r k then mp !! k else v
    | None => mp !! k
    end.
(** What is returned for the entries of a diff, to revert them. *)
Definition reverts r (d : TrieDiff) mp (res0 res : RevertTrieDiff) : Prop :=
  forall k, match d !! k with
    | None => res !! k = res0 !! k
    | Some _ =>
        if range_contains r k then exists b, res !! k = Some (unknown_value b)
        else res !! k = Some (known_value (mp !! k))
    end.
(** The entries to revert fit the missing range, and what reverting them does. *)
Definition revert_fits r (d : RevertTrieDiff) : Prop :=
  forall k v, d !! k = Some v ->
    if range_contains r k then forall x, v <> RevertPut x else v <> UpdateStump.
Definition reverted r (d : RevertTrieDiff) mp mp' : Prop :=
  forall k, mp' !! k = match d !! k with
    | Some (RevertPut v) => if range_contains r k then mp !! k else Some v
    | Some RevertRemove => if range_contains r k then mp !! k else None
    | _ => mp !! k
    end.

Lemma reverts_fit r (d : TrieDiff) mp (res : RevertTrieDiff) : reverts r d mp ∅ res -> revert_fits r res.
Proof.
  intros H k v Hv. specialize (H k). destruct (d !! k); [|by rewrite lookup_empty in H; congruence].
  destruct (range_contains r k).
  - destruct H as [b Hb]. intros x ->. destruct b; cbn in Hb; congruence.
  - intros ->. destruct (mp !! k); cbn in *; congruence.
Qed.
(** Reverting an applied diff restores the contents. *)
Lemma diffed_reverted r (d : TrieDiff) mp mp1 mp2 (res : RevertTrieDiff) : diffed r d mp mp1 -> reverts r d mp ∅ res -> reverted r res mp1 mp2 -> mp2 = mp.
Proof.
  intros Hd Hr Hv. apply map_eq. intros k. specialize (Hd k). specialize (Hr k). specialize (Hv k). rewrite Hv.
  destruct (d !! k) as [v|]; [|by rewrite Hr, lookup_empty]. destruct (range_contains r k).
  - destruct Hr as [[] ->]; done.
  - rewrite Hr. by destruct (mp !! k).
Qed.

(** One entry of a diff. *)
Definition set_entry k (v : option (list Z)) mp : gmap key (list Z) :=
  match v with Some v => <[k := v]> mp | None => delete k mp end.
Lemma lookup_set_entry k v mp k' : set_entry k v mp !! k' = if decide (k = k') then v else mp !! k'.
Proof.
  destruct v; cbn [set_entry]; case_decide; subst;
    by rewrite ?lookup_insert_eq, ?lookup_delete_eq, ?lookup_insert_ne, ?lookup_delete_ne.
Qed.

Lemma diffed_cons r k (v : option (list Z)) (d : TrieDiff) mp ct : d !! k = None ->
  diffed r d (if range_contains r k then mp else set_entry k v mp) ct -> diffed r (<[k := v]> d) mp ct.
Proof.
  intros Hk Hd k'. specialize (Hd k'). rewrite Hd. destruct (decide (k = k')) as [<-|Hne].
  - rewrite lookup_insert_eq, Hk. destruct (range_contains r k); [done|]. by rewrite lookup_set_entry, decide_True.
  - rewrite lookup_insert_ne by done. destruct (range_contains r k); [done|]. by rewrite lookup_set_entry, decide_False.
Qed.
Lemma reverts_cons r k (v : option (list Z)) (rv : RevertDiffValue) (d : TrieDiff) mp (res res' : RevertTrieDiff) : d !! k = None ->
  (if range_contains r k then exists b, rv = unknown_value b else rv = known_value (mp !! k)) ->
  reverts r d (if range_contains r k then mp else set_entry k v mp) (<[k := rv]> res) res' ->
  reverts r (<[k := v]> d) mp res res'.
Proof.
  intros Hk Hrv Hd k'. specialize (Hd k'). destruct (decide (k = k')) as [<-|Hne].
  - rewrite Hk, lookup_insert_eq in Hd. rewrite lookup_insert_eq, Hd.
    destruct (range_contains r k); [destruct Hrv as [b ->]; eauto|by rewrite Hrv].
  - rewrite lookup_insert_ne by done. rewrite lookup_insert_ne in Hd by done.
    destruct (range_contains r k); [done|]. by rewrite lookup_set_entry, decide_False in Hd.
Qed.

Lemma reverted_cons r k (v : RevertDiffValue) (d : RevertTrieDiff) mp mp1 ct : d !! k = None ->
  reverted r {[ k := v ]} mp mp1 -> reverted r d mp1 ct -> reverted r (<[k := v]> d) mp ct.
Proof.
  intros Hk H1 Hd k'. rewrite (Hd k'), (H1 k'). destruct (decide (k = k')) as [<-|Hne].
  - by rewrite Hk, lookup_insert_eq, lookup_singleton_eq.
  - by rewrite lookup_insert_ne, lookup_singleton_ne.
Qed.
Lemma reverted_set_entry r k ov mp : range_contains r k = false ->
  reverted r {[ k := known_value ov ]} mp (set_entry k ov mp).
Proof.
  intros Er k'. rewrite lookup_set_entry. case_decide; [subst k'|by rewrite lookup_singleton_ne].
  rewrite lookup_singleton_eq, Er. by destruct ov.
Qed.
Lemma reverted_missing r k v mp : range_contains r k = true -> reverted r {[ k := v ]} mp mp.
Proof.
  intros Er k'. destruct (decide (k = k')) as [<-|Hne]; [|by rewrite lookup_singleton_ne].
  rewrite lookup_singleton_eq, Er. by destruct v.
Qed.

Section Diffs.
Context `{BEnv : BlockEnv} (om : option (gmap key (list Z))) (r : range).

Lemma get_raw_run k s Q (QE : MerkleRadixTrieError -> Txn -> Prop) :
  Q (contents (table s) !! k) s -> wp (get_raw k) Q QE s.
Proof.
  intros HQ. unfold get_raw, get_node. wp_step. apply wp_gets. wp_step. rewrite lookup_contents in HQ. by destruct (table s !! k).
Qed.

Lemma wp_apply_loop entries : forall res s, trie_inv r r (table s) -> recorded om s ->
  NoDup entries.*1 -> Forall key_fine entries.*1 -> Forall (fun k => res !! k = None) entries.*1 ->
  wp (apply_loop r entries res)
    (fun res' s' => exists ct, step_ok om r r ct s' /\ diffed r (list_to_map entries) (contents (table s)) ct /\
       reverts r (list_to_map entries) (contents (table s)) res res')
    (fun _ _ => False) s.
Proof.
  induction entries as [|[k v] entries IH]; intros res s Hinv Hrec Hnd Hok Hres; cbn [apply_loop].
  { wp_step. exists (contents (table s)). split; [by split|]. split; intros k; cbn [list_to_map foldr]; by rewrite lookup_empty. }
  cbn in Hnd, Hok, Hres. apply NoDup_cons in Hnd as [Hk Hnd]. apply Forall_cons in Hok as [[Hkok Hkne] Hok], Hres as [Hrk Hres].
  wp_step. apply wp_fail_if; [by intros ?%bool_decide_eq_true|]. intros _.
  assert (Hnk : (list_to_map entries : TrieDiff) !! k = None) by (by apply not_elem_of_list_to_map_1).
  assert (Hres' : forall rv, Forall (fun k' => <[k := rv]> res !! k' = None) entries.*1).
  { intros rv. apply Forall_forall. intros k' Hk'. rewrite lookup_insert_ne by (by intros ->).
    revert k' Hk'. by apply Forall_forall. }
  assert (Hrest : forall rv s1,
    (if range_contains r k then exists b, rv = unknown_value b else rv = known_value (contents (table s) !! k)) ->
    step_ok om r r (if range_contains r k then contents (table s) else set_entry k v (contents (table s))) s1 ->
    wp (assert_that (bool_decide (res !! k = None));; apply_loop r entries (<[k := rv]> res))
      (fun res' s' => exists ct, step_ok om r r ct s' /\
         diffed r (list_to_map ((k, v) :: entries)) (contents (table s)) ct /\
         reverts r (list_to_map ((k, v) :: entries)) (contents (table s)) res res') (fun _ _ => False) s1).
  { intros rv s1 Hrv (Hi1 & Hc1 & Hr1). wp_step. apply wp_assert; [by rewrite bool_decide_eq_true_2|].
    eapply wp_mono; [apply (IH _ s1 Hi1 Hr1 Hnd Hok (Hres' _))| |done]. intros res' s' (ct & Hs & Hd & Hv).
    rewrite Hc1 in Hd, Hv. exists ct. split; [done|]. split; [by apply diffed_cons|by eapply reverts_cons]. }
  unfold is_within_complete_part. destruct (range_contains r k) eqn:Er; cbn [negb].
  - wp_step. apply (wp_missing om r r); [done|done|done|done|done|]. intros b s1 Hs1. apply Hrest; eauto.
  - wp_step. apply get_raw_run. wp_step. destruct v as [v|]; [eapply wp_put_raw|eapply wp_remove_raw]; eauto.
Qed.

Lemma wp_revert_loop entries : forall s, trie_inv r r (table s) -> recorded om s ->
  NoDup entries.*1 -> Forall key_fine entries.*1 -> revert_fits r (list_to_map entries) ->
  wp (revert_loop r entries)
    (fun _ s' => exists ct, step_ok om r r ct s' /\ reverted r (list_to_map entries) (contents (table s)) ct)
    (fun _ _ => False) s.
Proof.
  induction entries as [|[k v] entries IH]; intros s Hinv Hrec Hnd Hok Hfit; cbn [revert_loop].
  { wp_step. exists (contents (table s)). split; [by split|]. intros k; cbn [list_to_map foldr]; by rewrite lookup_empty. }
  cbn in Hnd, Hok. apply NoDup_cons in Hnd as [Hk Hnd]. apply Forall_cons in Hok as [[Hkok Hkne] Hok].
  assert (Hnk : (list_to_map entries : RevertTrieDiff) !! k = None) by (by apply not_elem_of_list_to_map_1).
  pose proof (Hfit k v (lookup_insert_eq _ _ _)) as Hv.
  assert (Hrest : forall s1 mp1, step_ok om r r mp1 s1 -> reverted r {[ k := v ]} (contents (table s)) mp1 ->
    wp (revert_loop r entries)
      (fun _ s' => exists ct, step_ok om r r ct s' /\ reverted r (list_to_map ((k, v) :: entries)) (contents (table s)) ct)
      (fun _ _ => False) s1).
  { intros s1 mp1 (Hi1 & Hc1 & Hr1) Hthis. eapply wp_mono; [apply (IH s1 Hi1 Hr1 Hnd Hok)| |done].
    - intros k' v' Hv'. apply Hfit. cbn. rewrite lookup_insert_ne; [done|]. intros ->. congruence.
    - intros _ s' (ct & Hs & Hd). exists ct. split; [done|]. rewrite Hc1 in Hd. by eapply reverted_cons. }
  wp_step. unfold is_within_complete_part. destruct (range_contains r k) eqn:Er; cbn [negb].
  - destruct v as [x| |]; [by destruct (Hv x)|..]; wp_step; apply (wp_missing om r r); try done; intros b s1 Hs1; wp_step;
      by apply (Hrest _ _ Hs1), reverted_missing.
  - destruct v as [x| |]; [| |done]; [eapply wp_put_raw|eapply wp_remove_raw]; eauto; intros s1 Hs1; apply (Hrest _ _ Hs1).
    + by apply (reverted_set_entry r k (Some x)).
    + by apply (reverted_set_entry r k None).
Qed.

Lemma wp_apply_diff d s : trie_inv r r (table s) -> recorded om s -> (forall k, is_Some (d !! k) -> key_fine k) ->
  wp (apply_diff d)
    (fun res s' => exists ct, step_ok om r r ct s' /\ diffed r d (contents (table s)) ct /\ reverts r d (contents (table s)) ∅ res)
    (fun _ _ => False) s.
Proof.
  intros Hinv Hrec Hd. unfold apply_diff. wp_step. eapply wp_missing_range; [done|].
  pose proof (wp_apply_loop (btree_iter d) ∅ s) as H. rewrite btree_iter_map in H.
  apply H; [done|done|apply btree_iter_NoDup|by apply btree_iter_Forall|].
  apply Forall_forall. intros k _. apply lookup_empty.
Qed.
Lemma wp_revert_diff d s : trie_inv r r (table s) -> recorded om s -> (forall k, is_Some (d !! k) -> key_fine k) -> revert_fits r d ->
  wp (revert_diff d)
    (fun _ s' => exists ct, step_ok om r r ct s' /\ reverted r d (contents (table s)) ct) (fun _ _ => False) s.
Proof.
  intros Hinv Hrec Hd Hfit. unfold revert_diff. wp_step. eapply wp_missing_range; [done|].
  pose proof (wp_revert_loop (rev (btree_iter d)) s) as H. rewrite btree_iter_rev_map in H. apply H; [done|done|..|done].
  - rewrite <- Permutation_rev. apply btree_iter_NoDup.
  - rewrite <- Permutation_rev. by apply btree_iter_Forall.
Qed.

(** The root's key is refused before anything changes. *)
Lemma apply_diff_root d s : trie_inv r r (table s) -> is_Some (d !! []) ->
  apply_diff d s = (Err (InvalidChunk DiffKeyIsRoot), s).
Proof.
  intros Hinv [v Hv]. unfold apply_diff.
  assert (Hm : get_missing_range s = (Ok r, s)) by (apply wp_run; by eapply wp_missing_range).
  rewrite (bind_ok _ _ _ _ _ Hm). unfold btree_iter.
  destruct (sort_root v (map_to_list d)) as [l ->]; [apply NoDup_fst_map_to_list|by apply elem_of_map_to_list|done].
Qed.
End Diffs.

(** A run that cannot fail. *)
Lemma wp_total {S E A : Type} (m : M S E A) Q (s : S) : wp m Q (fun _ _ => False) s -> exists a (s' : S), m s = (Ok a, s') /\ Q a s'.
Proof. unfold wp. destruct (m s) as [[a|e|] s']; [eauto|done|done]. Qed.

Lemma wf_key_fine r db k : wf r db -> is_Some (contents db !! k) -> key_fine k.
Proof.
  intros Hwf [v Hv]. rewrite lookup_contents in Hv. destruct (db !! k) as [n|] eqn:Hn; [|done]. cbn in Hv.
  split; [apply (wf_node _ _ Hwf _ _ Hn)|]. intros ->. destruct (wf_root _ _ Hwf) as (root & Hr & Hrv & _). congruence.
Qed.

(** A recorded change has the old and the new value. *)
Lemma from_old_and_new_Some old new c : from_old_and_new old new = Some c -> into_old_and_new c = (old, new).
Proof. destruct old, new; cbn; repeat case_bool_decide; intros; simplify_eq; done. Qed.
Lemma from_old_and_new_None old new : from_old_and_new old new = None -> old = new.
Proof. destruct old, new; cbn; repeat case_bool_decide; intros; simplify_eq; done. Qed.

Section RoundTrips.
Context `{BEnv : BlockEnv}.

(** Run [m] with its changes recorded. *)
Definition recording (m : TrieM unit) : TrieM TrieDiffBuilder :=
  start_recording;; m;; stop_recording.

Lemma recorded_keys (m0 : gmap key (list Z)) (d : TrieDiffBuilder) s : trie_inv None None (table s) -> map_Forall (fun k _ => key_fine k) m0 ->
  (forall k, d !! k = from_old_and_new (m0 !! k) (contents (table s) !! k)) ->
  forall k, is_Some (d !! k) -> key_fine k.
Proof.
  intros Hinv Hm0 Hd k [c Hc]. rewrite Hd in Hc. destruct (m0 !! k) as [v|] eqn:E0; [by apply (Hm0 _ _ E0)|].
  destruct (contents (table s) !! k) as [v|] eqn:E1; [|done]. eapply wf_key_fine; [apply Hinv|eauto].
Qed.

(** A diff that says how [ct] differs from a complete trie leads there. *)
Lemma apply_diff_to (d : TrieDiff) s (ct : gmap key (list Z)) : trie_inv None None (table s) -> txn_diff s = None ->
  (forall k, is_Some (d !! k) -> key_fine k) ->
  (forall k, ct !! k = match d !! k with Some v => v | None => contents (table s) !! k end) ->
  exists res s', apply_diff d s = (Ok res, s') /\ trie_inv None None (table s') /\ contents (table s') = ct.
Proof.
  intros Hinv Hno Hd Hct.
  destruct (wp_total _ _ _ (wp_apply_diff None None d s Hinv ltac:(by unfold recorded; rewrite Hno) Hd))
    as (res & s' & Ha & ct' & (Hi & Hc & _) & Hdf & _).
  exists res, s'. split; [done|]. split; [done|]. rewrite Hc. apply map_eq. intros k. by rewrite (Hdf k), Hct.
Qed.

(** C15: recorded changes are a two-way diff: after any sequence of operations run
    between [start_recording] and [stop_recording] on a complete trie, applying the
    backward diff to the result restores the contents the trie had, and applying the
    forward diff to the trie as it was reaches the contents the sequence led to; no
    step panics or fails. *)
Theorem recorded_diff_round_trip ops s : trie_inv None None (table s) -> txn_diff s = None -> Forall op_ok ops ->
  exists d s', recording (run_ops ops) s = (Ok d, s') /\ contents (table s') = abs_ops (contents (table s)) ops /\
    (exists res s'', apply_diff (into_backward_diff d) s' = (Ok res, s'') /\
       trie_inv None None (table s'') /\ contents (table s'') = contents (table s)) /\
    (exists res s'', apply_diff (into_forward_diff d) s = (Ok res, s'') /\
       trie_inv None None (table s'') /\ contents (table s'') = contents (table s')).
Proof.
  intros Hinv Hno Hops.
  destruct (wp_total (recording (run_ops ops)) (fun d s' => trie_inv None None (table s') /\ txn_diff s' = None /\
    contents (table s') = abs_ops (contents (table s)) ops /\
    forall k, d !! k = from_old_and_new (contents (table s) !! k) (contents (table s') !! k)) s)
    as (d & s' & Hrun & Hinv' & Hno' & Hct & Hd).
  { unfold recording, start_recording, stop_recording. repeat wp_step. apply wp_assert; [by rewrite Hno|]. repeat wp_step.
    eapply (wp_run_ops (Some (contents (table s)))); [done|done| |].
    - intros k. rewrite lookup_empty. cbn [table]. destruct (contents (table s) !! k); cbn [from_old_and_new]; [by rewrite bool_decide_eq_true_2|done].
    - intros s1 (Hi1 & Hc1 & Hr1). repeat wp_step. unfold recorded in Hr1. destruct (txn_diff s1) as [d|]; [|done].
      by apply wp_expect with d. }
  assert (Hm0 : map_Forall (fun k _ => key_fine k) (contents (table s))).
  { intros k v Hk. eapply wf_key_fine; [apply Hinv|eauto]. }
  pose proof (recorded_keys _ _ _ Hinv' Hm0 Hd) as Hkeys.
  exists d, s'. split; [done|]. split; [done|]. split.
  - apply apply_diff_to; [done|done|..]; intros k; unfold into_backward_diff; rewrite lookup_fmap; [rewrite fmap_is_Some; apply Hkeys|].
    specialize (Hd k). symmetry in Hd. destruct (d !! k) as [c|]; cbn.
    + by rewrite (from_old_and_new_Some _ _ _ Hd).
    + by apply from_old_and_new_None.
  - apply apply_diff_to; [done|done|..]; intros k; unfold into_forward_diff; rewrite lookup_fmap; [rewrite fmap_is_Some; apply Hkeys|].
    specialize (Hd k). symmetry in Hd. destruct (d !! k) as [c|]; cbn.
    + by rewrite (from_old_and_new_Some _ _ _ Hd).
    + symmetry. by apply from_old_and_new_None.
Qed.

(** C16: a diff, from whoever it comes, is applied to a trie with or without missing
    keys without a panic: one that names the root's key is refused and changes nothing;
    any other sets the keys outside of the missing range as it says, leaves the
    contents otherwise alone, and what it returns reverts it to the contents before. *)
Theorem apply_diff_reverts r d s : trie_inv r r (table s) -> txn_diff s = None ->
  (forall k, is_Some (d !! k) -> key_ok k) ->
  (is_Some (d !! []) -> apply_diff d s = (Err (InvalidChunk DiffKeyIsRoot), s)) /\
  (d !! [] = None ->
    exists res s', apply_diff d s = (Ok res, s') /\ trie_inv r r (table s') /\
      diffed r d (contents (table s)) (contents (table s')) /\
      exists s'', revert_diff res s' = (Ok tt, s'') /\ trie_inv r r (table s'') /\
        contents (table s'') = contents (table s)).
Proof.
  intros Hinv Hno Hkeys. split; [by apply (apply_diff_root r)|]. intros Hroot.
  assert (Hfine : forall k, is_Some (d !! k) -> key_fine k).
  { intros k Hk. split; [auto|]. intros ->. rewrite Hroot in Hk. by destruct Hk. }
  destruct (wp_total _ _ _ (wp_apply_diff None r d s Hinv ltac:(by unfold recorded; rewrite Hno) Hfine))
    as (res & s' & Ha & ct & (Hi & Hc & Hr) & Hdf & Hrv).
  exists res, s'. split; [done|]. split; [done|]. rewrite Hc. split; [done|].
  assert (Hfine' : forall k, is_Some (res !! k) -> key_fine k).
  { intros k Hk. apply Hfine. specialize (Hrv k). destruct (d !! k); [eauto|]. rewrite Hrv, lookup_empty in Hk. by destruct Hk. }
  destruct (wp_total _ _ _ (wp_revert_diff None r res s' Hi Hr Hfine' (reverts_fit _ _ _ _ Hrv)))
    as ([] & s'' & Hb & ct' & (Hi' & Hc' & _) & Hrr).
  exists s''. split; [done|]. split; [done|]. rewrite Hc'. rewrite Hc in Hrr. by eapply diffed_reverted.
Qed.
End RoundTrips.
