(* ===== verification/TrieProof.v ===== *)
(** * Proofs about the contents of a trie

    [primitives/src/trie/trie_proof.rs] and [get_proof] of [primitives/trie/src/trie.rs]:
    a proof lists nodes of the trie in post-order, with the paths from the root to the
    nodes for the requested keys. *)

From S2P Require Import Prelude Coin AccountTypes Codec TxContent Block KeyNibbles TrieNode.
From S2P Require Import Trie TrieInv TriePath TriePut TrieRemove TrieHash TrieSpec TrieDiff.

Implicit Types (db : gmap key TrieNode) (r : range) (n m : TrieNode) (k p : key) (s : Txn) (pn x y : TrieProofNode).

(** [KeyNibbles::post_order_cmp], on nibbles. *)
Definition post_cmp (self other : key) : comparison :=
  match is_prefix self other, is_prefix other self with
  | true, true => Eq
  | true, false => Gt
  | false, true => Lt
  | false, false => lex self other
  end.

Record TrieProof := mk_proof { nodes : list TrieProofNode; missing_proven_by : gmap key key }.

Inductive ProofError :=
  | ProofInvalid
  | NotAllValuesPresent
  | ValueNotRequested
  | ProvenByNonParent
  | HybridValueMissing
  | NegativeProofMissing.

Section Proofs.
Context `{BEnv : BlockEnv}.

(** The [while let] loop of [verify]: the children on top of the stack that [node] has
    to account for are checked and dropped; [None] where [verify] returns false. *)
Fixpoint check_children {E : Type} (node : TrieProofNode) (children : list TrieProofNode)
  : outcome E (option (list TrieProofNode)) :=
  match children with
  | [] => Ok (Some [])
  | child :: children' =>
      if is_prefix (pn_key node) (pn_key child) then
        match pn_child node (pn_key child), pn_child_key node (pn_key child) with
        | Ok c, Ok k =>
            if negb (child_hash c =? proof_node_hash child) || negb (bool_decide (k = pn_key child)) then Ok None
            else check_children node children'
        | Panic, _ | _, Panic => Panic
        | _, _ => Ok None
        end
      else Ok (Some children)
  end.
(** The loop over the nodes; the top of the stack [children] comes first. *)
Fixpoint verify_loop {E : Type} (nodes children : list TrieProofNode) : outcome E (option (list TrieProofNode)) :=
  match nodes with
  | [] => Ok (Some children)
  | node :: nodes =>
      rest ← (if pn_has_children node then check_children node children else Ok (Some children));
      match rest with
      | None => Ok None
      | Some children => verify_loop nodes (node :: children)
      end
  end.
Definition verify {E : Type} (self : TrieProof) (root_hash : Z) : outcome E bool :=
  if (length (nodes self) =? 0)%nat then Ok false
  else
    children ← verify_loop (nodes self) [];
    match children with
    | None => Ok false
    | Some children =>
        if negb (length children =? 1)%nat then Ok false
        else
          root ← unwrap (head children);
          if negb (bool_decide (pn_key root = [])) then Ok false
          else if negb (proof_node_hash root =? root_hash) then Ok false
          else Ok true
    end.

(** The loop of [verify_values]; the current key and the current node are the heads of
    the lists.  Every turn takes one of them. *)
Fixpoint values_loop (fuel : nat) (keys : list (key * key)) (nodes : list TrieProofNode) (result : gmap key (option (list Z)))
  : outcome ProofError (gmap key (option (list Z))) :=
  match fuel with
  | O => Panic
  | S fuel =>
      let unrequested node nodes :=
        err_if (match into_value node with Some (Some _) => true | _ => false end) ValueNotRequested;;
        values_loop fuel keys nodes result in
      match keys, nodes with
      | [], [] => Ok result
      | _ :: _, [] => Err NotAllValuesPresent
      | [], node :: nodes => unrequested node nodes
      | (k0, k) :: keys', node :: nodes' =>
          match post_cmp k0 (pn_key node) with
          | Lt => Err NotAllValuesPresent
          | Gt => unrequested node nodes'
          | Eq =>
              err_if (negb (is_prefix (pn_key node) k)) ProvenByNonParent;;
              if bool_decide (pn_key node = k) then
                value ← or_err (into_value node) HybridValueMissing;
                if bool_decide (result !! pn_key node = None)
                then values_loop fuel keys' nodes' (<[pn_key node := value]> result) else Panic
              else
                match pn_child_key node k with
                | Panic => Panic
                | Ok child_key => err_if (is_prefix child_key k) NegativeProofMissing
                | Err _ => Ok tt
                end;;
                if bool_decide (result !! k = None)
                then values_loop fuel keys' nodes (<[k := None]> result) else Panic
          end
      end
  end.
Definition verify_values (self : TrieProof) (root_hash : Z) (keys : list key)
  : outcome ProofError (gmap key (option (list Z))) :=
  valid ← verify self root_hash;
  err_if (negb valid) ProofInvalid;;
  let keys := map (fun k => (default k (missing_proven_by self !! k), k)) keys in
  let keys := sort_by (fun a b => match post_cmp a.1 b.1 with Eq => post_cmp a.2 b.2 | c => c end) keys in
  values_loop (S (length keys + length (nodes self))) keys (nodes self) ∅.

(** ** Making a proof *)

(** Down from [pointer_node] to the node for [cur_key] or the last node before it; the
    third result says that the key is missing. *)
Fixpoint proof_descend (fuel : nat) (cur_key : key) (missing_range : range) (pointer_node : TrieNode) (root_path : list TrieNode)
  : TrieM (TrieNode * list TrieNode * bool) :=
  match fuel with
  | O => panic
  | S fuel =>
      if bool_decide (node_key pointer_node = cur_key) then mret (pointer_node, root_path, false)
      else
        match child_key pointer_node cur_key missing_range with
        | Panic => panic
        | Ok child_key =>
            if is_prefix child_key cur_key then
              child ← get_node child_key;
              child ← expect child;
              proof_descend fuel cur_key missing_range child (pointer_node :: root_path)
            else mret (pointer_node, root_path, true)
        | Err _ => mret (pointer_node, root_path, true)
        end
  end.
(** Up to a node whose key is a prefix of [cur_key]; [done] are the nodes left behind. *)
Fixpoint proof_ascend (cur_key : key) (pointer_node : TrieNode) (root_path done : list TrieNode)
  : TrieM (TrieNode * list TrieNode * list TrieNode) :=
  if is_prefix (node_key pointer_node) cur_key then mret (pointer_node, root_path, done)
  else
    match root_path with
    | [] => panic
    | parent :: root_path => proof_ascend cur_key parent root_path (done ++ [pointer_node])
    end.
(** The loop over the keys, [cur_key] first; [keys] are popped from their end. *)
Fixpoint proof_loop (missing_range : range) (cur_key : key) (keys : list key) (pointer_node : TrieNode)
  (root_path done : list TrieNode) (missing_proven_by : gmap key key) : TrieM (list TrieNode * gmap key key) :=
  res ← proof_descend depth_fuel cur_key missing_range pointer_node root_path;
  let '(pointer_node, root_path, missing) := (res : TrieNode * list TrieNode * bool) in
  when missing (assert_that (bool_decide (missing_proven_by !! cur_key = None)));;
  let missing_proven_by :=
    if missing then <[cur_key := node_key pointer_node]> missing_proven_by else missing_proven_by in
  match keys with
  | [] => mret (done ++ pointer_node :: root_path, missing_proven_by)
  | cur_key :: keys =>
      up ← proof_ascend cur_key pointer_node root_path done;
      let '(pointer_node, root_path, done) := (up : TrieNode * list TrieNode * list TrieNode) in
      proof_loop missing_range cur_key keys pointer_node root_path done missing_proven_by
  end.
Definition get_proof (keys : list key) : TrieM TrieProof :=
  match keys with
  | [] =>
      root ← get_root;
      root ← expect root;
      mret (mk_proof [to_proof_node false root] ∅)
  | _ =>
      let sorted := sort_by post_cmp keys in
      missing_range ← get_missing_range;
      fail_if (existsb (range_contains missing_range) sorted) IncompleteTrieError;;
      root ← get_root;
      root ← expect root;
      match rev sorted with
      | [] => panic
      | cur_key :: rest =>
          res ← proof_loop missing_range cur_key rest root [] [] ∅;
          let '(done, missing_proven_by) := (res : list TrieNode * gmap key key) in
          let to_proof node := to_proof_node (bool_decide (node_key node ∈ keys)) node in
          mret (mk_proof (sort_by (fun a b => post_cmp (pn_key a) (pn_key b)) (map to_proof done)) missing_proven_by)
      end
  end.
End Proofs.
