(* ===== verification/TrieProofSound.v ===== *)
(** * What a proof shows

    A proof that [verify_values] accepts against the root hash of a complete trie has
    the trie's own values for the requested keys, unless two of the hashed strings
    collide; and no proof makes the verification panic. *)

From S2P Require Import Prelude Coin AccountTypes Codec TxContent Block KeyNibbles TrieNode.
From S2P Require Import Trie TrieInv TriePath TriePut TrieRemove TrieHash TrieSpec TrieDiff.
From S2P Require Import TrieProof.

Implicit Types (db : gmap key TrieNode) (r : range) (n m : TrieNode) (k p : key) (s : Txn) (pn x y : TrieProofNode).

(** ** The children of a node of a proof *)

Lemma pn_child_cases y k : length (pn_children y) = 16%nat -> key_ok k ->
  (exists e, pn_child y k = Err e /\
     (pn_key y `prefix_of` k -> pn_key y <> k -> exists i t, k = pn_key y ++ i :: t /\ pn_children y !! i = Some None)) \/
  (exists i t c, k = pn_key y ++ i :: t /\ pn_children y !! i = Some (Some c) /\ pn_child y k = Ok c).
Proof.
  intros Hlen [Hn _]. unfold pn_child, key_child_index. destruct (is_prefix (pn_key y) k) eqn:Ep; cbn [negb orb].
  2: { left. exists WrongPrefix. split; [done|]. intros Hp. by apply bool_decide_eq_false in Ep. }
  apply bool_decide_eq_true in Ep as [t ->]. rewrite length_app. destruct t as [|i t].
  - left. exists WrongPrefix. cbn [length]. rewrite Nat.add_0_r, Nat.eqb_refl. split; [done|]. by rewrite app_nil_r.
  - rewrite (proj2 (Nat.eqb_neq _ _)) by (cbn [length]; lia). rewrite list_lookup_middle by done. cbn [or_err mbind outcome_bind].
    assert (Hi : (i < 16)%nat). { apply Forall_app in Hn as [_ Hn]. by apply Forall_cons in Hn as [Hi _]. }
    unfold array_get. destruct (lookup_lt_is_Some_2 (pn_children y) i) as [o Ho]; [by rewrite Hlen|]. rewrite Ho.
    destruct o as [c|]; cbn; [right|left]; eauto 10.
Qed.

Lemma pn_child_key_eq y k :
  pn_child_key y k = match pn_child y k with
    | Ok c => if (MAX_BYTES * 2 <? length (pn_key y) + length (suffix c))%nat then Err WrongPrefix else Ok (pn_key y ++ suffix c)
    | Err e => Err e
    | Panic => Panic
    end.
Proof.
  unfold pn_child_key. destruct (pn_child y k) as [c|e|]; [|done|done]. cbn [mbind outcome_bind].
  unfold entry_key, is_stump, checked_add. by destruct (MAX_BYTES * 2 <? length (pn_key y) + length (suffix c))%nat.
Qed.

Section Sound.
Context `{BEnv : BlockEnv}.

(** The node [y] has an entry for the node [x]. *)
Definition parent_of y x : Prop :=
  exists i c, pn_children y !! i = Some (Some c) /\ child_hash c = proof_node_hash x /\
    pn_key x = pn_key y ++ suffix c /\ (length (pn_key y) < length (pn_key x))%nat.

Lemma check_children_ok {E : Type} y stack : proof_node_ok y -> Forall proof_node_ok stack ->
  exists o, check_children (E := E) y stack = Ok o /\
    forall rest, o = Some rest -> exists l, stack = l ++ rest /\ Forall (parent_of y) l.
Proof.
  intros Hy. induction stack as [|x stack IH]; intros Hst; cbn [check_children].
  { exists (Some []). split; [done|]. intros rest [= <-]. by exists []. }
  apply Forall_cons in Hst as [Hx Hst]. destruct (is_prefix (pn_key y) (pn_key x)).
  2: { exists (Some (x :: stack)). split; [done|]. intros rest [= <-]. by exists []. }
  destruct Hx as [Hk _]. rewrite pn_child_key_eq.
  destruct (pn_child_cases y (pn_key x)) as [(e & -> & _)|(i & t & c & Ek & Hc & ->)]; [apply Hy|done|by exists None|].
  destruct (_ <? _)%nat; [by exists None|].
  destruct (child_hash c =? proof_node_hash x) eqn:Eh; cbn [negb orb]; [|by exists None].
  case_bool_decide as Es; cbn [negb]; [|by exists None]. destruct (IH Hst) as (o & -> & Ho). exists o. split; [done|].
  intros rest ->. destruct (Ho rest eq_refl) as (l & -> & Hl). exists (x :: l). split; [done|]. constructor; [|done].
  exists i, c. apply Z.eqb_eq in Eh. split; [done|]. split; [done|]. split; [done|]. rewrite Ek, length_app. cbn [length]. lia.
Qed.

Lemma verify_loop_ok {E : Type} l : forall stack, Forall proof_node_ok l -> Forall proof_node_ok stack ->
  exists o, verify_loop (E := E) l stack = Ok o /\
    forall final, o = Some final -> (forall x, x ∈ final -> x ∈ l ++ stack) /\
      forall x, x ∈ l ++ stack -> x ∈ final \/ exists y, y ∈ l /\ parent_of y x.
Proof.
  induction l as [|y l IH]; intros stack Hl Hst; cbn [verify_loop].
  { exists (Some stack). split; [done|]. intros final [= <-]. split; [done|]. by left. }
  apply Forall_cons in Hl as [Hy Hl].
  assert (Hrest : exists o, (if pn_has_children y then check_children (E := E) y stack else Ok (Some stack)) = Ok o /\
    forall rest, o = Some rest -> exists l0, stack = l0 ++ rest /\ Forall (parent_of y) l0).
  { destruct (pn_has_children y); [by apply check_children_ok|]. exists (Some stack). split; [done|].
    intros rest [= <-]. by exists []. }
  destruct Hrest as ([rest|] & -> & Ho); cbn; [|by exists None]. destruct (Ho rest eq_refl) as (l0 & -> & Hl0).
  apply Forall_app in Hst as [_ Hst]. destruct (IH (y :: rest) Hl) as (o & -> & Hf); [by constructor|]. exists o. split; [done|].
  intros final ->. destruct (Hf final eq_refl) as [Hf1 Hf2]. split.
  - intros x Hx%Hf1. set_solver.
  - intros x [->|[Hx|[Hx|Hx]%elem_of_app]%elem_of_app]%elem_of_cons.
    + destruct (Hf2 y) as [?|(z & Hz & Hp)]; [set_solver|by left|]. right. exists z. set_solver.
    + destruct (Hf2 x) as [?|(z & Hz & Hp)]; [set_solver|by left|]. right. exists z. set_solver.
    + right. exists y. split; [set_solver|]. rewrite Forall_forall in Hl0. by apply Hl0.
    + destruct (Hf2 x) as [?|(z & Hz & Hp)]; [set_solver|by left|]. right. exists z. set_solver.
Qed.

(** Every node of a valid proof is its root or has a parent in the proof. *)
Lemma verify_ok {E : Type} self h : Forall proof_node_ok (nodes self) ->
  exists b, verify (E := E) self h = Ok b /\
    (b = true -> exists root, root ∈ nodes self /\ pn_key root = [] /\ proof_node_hash root = h /\
       forall x, x ∈ nodes self -> x = root \/ exists y, y ∈ nodes self /\ parent_of y x).
Proof.
  intros Hok. unfold verify. destruct (length (nodes self) =? 0)%nat; [by exists false|].
  destruct (verify_loop_ok (E := E) (nodes self) [] Hok) as (o & -> & Hf); [done|]. cbn.
  destruct o as [final|]; [|by exists false]. destruct (Hf final eq_refl) as [Hf1 Hf2]. rewrite app_nil_r in Hf1, Hf2.
  destruct final as [|root [|? ?]]; cbn; [by exists false| |by exists false].
  case_bool_decide as Ek; cbn; [|by exists false]. destruct (proof_node_hash root =? h) eqn:Eh; cbn; [|by exists false].
  exists true. split; [done|]. intros _. exists root. apply Z.eqb_eq in Eh. split; [apply Hf1; set_solver|]. split; [done|].
  split; [done|]. intros x Hx. destruct (Hf2 x Hx) as [->%list_elem_of_singleton|Hp]; auto.
Qed.

(** ** The nodes of a valid proof are the trie's *)

(** The strings hashed to verify a proof. *)
Definition proof_strings (l : list TrieProofNode) : list (list Z) :=
  map proof_node_content l ++ omap (fun x => default None (into_value x)) l.

Lemma proof_string l x : x ∈ l -> proof_node_content x ∈ proof_strings l.
Proof. intros Hx. apply elem_of_app. left. by apply list_elem_of_fmap_2. Qed.
Lemma proof_value_string l x v : x ∈ l -> into_value x = Some (Some v) -> v ∈ proof_strings l.
Proof. intros Hx Hv. apply elem_of_app. right. apply list_elem_of_omap. exists x. by rewrite Hv. Qed.

Section Genuine.
Context (db : gmap key TrieNode) (l : list TrieProofNode).
Context (Hwf : wf None db) (Hvals : values_ok db) (Hhash : hashes_ok (fun _ => False) db) (Hl : Forall proof_node_ok l).
Let coll := collision blake2b (trie_strings db) (proof_strings l).

(** The node of a proof has what the trie's node with its key has. *)
Definition genuine x : Prop :=
  exists n, db !! pn_key x = Some n /\ pn_children x = children n /\
    pv_same (pn_value x) (pn_value (to_proof_node true n)) /\ can_hash n = true.

Lemma same_hash_genuine q n x : x ∈ l -> db !! q = Some n -> hash n = Some (proof_node_hash x) -> coll \/ genuine x.
Proof.
  intros Hx Hn [Hcan E]%hash_content. apply blake2b_hash_inj in E. symmetry in E.
  destruct (no_collision blake2b (trie_strings db) (proof_strings l) _ _ (node_string _ _ _ Hn) (proof_string _ _ Hx) E)
    as [Ec|Hc]; [|by left].
  right. rewrite <-(to_proof_node_content true) in Ec. symmetry in Ec.
  apply proof_content_inj in Ec as (Ek & Ev & Ech).
  - exists n. cbn in Ek. rewrite Ek, (nw_key _ _ (wf_node _ _ Hwf _ _ Hn)). done.
  - by apply (proj1 (Forall_forall _ _) Hl).
  - eapply to_proof_node_ok; [exact (wf_node _ _ Hwf _ _ Hn)|]. intros v Hv. apply (Hvals q). by rewrite lookup_contents, Hn.
Qed.

(** By induction on the length of the key, from the root down. *)
Lemma all_genuine root n0 h : db !! [] = Some n0 -> hash n0 = Some h ->
  root ∈ l -> proof_node_hash root = h -> (forall x, x ∈ l -> x = root \/ exists y, y ∈ l /\ parent_of y x) ->
  forall d x, (length (pn_key x) < d)%nat -> x ∈ l -> coll \/ genuine x.
Proof.
  intros Hn0 Hh Hr Erh Hp. induction d as [|d IH]; [lia|]. intros x Hd Hx.
  destruct (Hp x Hx) as [->|(y & Hy & i & c & Hc & Ech & Ek & Hlen)]; [by eapply same_hash_genuine; [|done|congruence]|].
  destruct (IH y) as [Hcoll|(n & Hn & Echs & _ & Hcan)]; [lia|done|by left|]. rewrite Echs in Hc.
  destruct (wf_closed _ _ Hwf _ _ _ _ Hn Hc eq_refl) as [m Hm]. eapply same_hash_genuine; [done|exact Hm|].
  rewrite <- Ech. apply (Hhash (pn_key y) n i c m); [done|done|by eapply can_hash_entry|tauto|done].
Qed.

(** The value of a genuine node. *)
Lemma genuine_value x ov : x ∈ l -> genuine x -> into_value x = Some ov -> coll \/ contents db !! pn_key x = ov.
Proof.
  intros Hx (n & Hn & _ & Hv & _) Ho. rewrite lookup_contents, Hn. cbn [mbind option_bind].
  pose proof (proof_value_string l x) as Hs. unfold into_value in Ho, Hs. unfold pv_same in Hv. cbn in Hv.
  destruct (pn_value x) as [|v|h|v], (has_children n), (value n) as [v'|] eqn:Ev; cbn in Hv; simplify_eq; try done; try by right.
  apply blake2b_hash_inj in Hv. symmetry in Hv.
  destruct (no_collision blake2b (trie_strings db) (proof_strings l) v' v) as [->|Hc];
    [by eapply value_string|by apply Hs|done|by right|by left].
Qed.

(** Where a genuine node has no entry towards a key, the trie has nothing there. *)
Lemma genuine_missing x k : x ∈ l -> genuine x -> key_ok k -> pn_key x `prefix_of` k -> pn_key x <> k ->
  (forall ck, pn_child_key x k = Ok ck -> ~ ck `prefix_of` k) -> contents db !! k = None.
Proof.
  intros Hx (n & Hn & Ech & _) Hk Hp Hne Hno. rewrite lookup_contents. destruct (db !! k) as [m|] eqn:Hm; [exfalso|done].
  pose proof (proj1 (Forall_forall _ _) Hl x Hx) as (_ & _ & Hlen & _).
  destruct (pn_child_cases x k Hlen Hk) as [(e & He & Hcase)|(i & t & c & Ek & Hc & He)].
  - destruct (Hcase Hp Hne) as (i & t & Ek & Hc). rewrite Ech in Hc. by eapply (nothing_below_empty Hwf (pn_key x) n i k m t).
  - rewrite Ech in Hc. destruct (nw_entry _ _ (wf_node _ _ Hwf _ _ Hn) _ _ Hc) as (_ & [_ Hb] & _).
    apply (Hno (pn_key x ++ suffix c)); [|by eapply (nothing_between Hwf (pn_key x) n i c k m t)].
    rewrite pn_child_key_eq, He. rewrite (proj2 (Nat.ltb_ge _ _)); [done|]. by rewrite <- length_app.
Qed.

(** The loop over keys and nodes. *)
Definition values_post (keys : list (key * key)) (res : gmap key (option (list Z)))
  (o : outcome ProofError (gmap key (option (list Z)))) : Prop :=
  match o with
  | Ok res' => coll \/ ((forall k, k ∈ keys.*2 -> res' !! k = Some (contents db !! k)) /\
                        forall k, k ∉ keys.*2 -> res' !! k = res !! k)
  | Err _ => True
  | Panic => False
  end.

Lemma values_post_cons k0 k keys res ov o : k ∉ keys.*2 -> coll \/ contents db !! k = ov ->
  values_post keys (<[k := ov]> res) o -> values_post ((k0, k) :: keys) res o.
Proof.
  intros Hk [Hc|<-] Ho; destruct o as [res'|e|]; cbn in *; try done; [by left|]. destruct Ho as [Hc|[H1 H2]]; [by left|right].
  split; intros k'; rewrite elem_of_cons.
  - intros [->|Hk']; [|by apply H1]. by rewrite H2, lookup_insert_eq.
  - intros Hno. rewrite H2 by tauto. rewrite lookup_insert_ne; [done|]. intros ->. tauto.
Qed.

Lemma values_loop_ok fuel : forall keys ns res, (length keys + length ns < fuel)%nat ->
  (forall x, x ∈ ns -> x ∈ l /\ (coll \/ genuine x)) ->
  Forall key_ok keys.*2 -> NoDup keys.*2 -> (forall k, k ∈ keys.*2 -> res !! k = None) ->
  values_post keys res (values_loop fuel keys ns res).
Proof.
  induction fuel as [|fuel IH]; intros keys ns res Hf Hns Hok Hnd Hres; [lia|]. cbn [values_loop].
  assert (Hskip : forall x ns', ns = x :: ns' -> values_post keys res
    (err_if (match into_value x with Some (Some _) => true | _ => false end) ValueNotRequested;; values_loop fuel keys ns' res)).
  { intros x ns' ->. unfold err_if. destruct (into_value x) as [[]|]; cbn [mbind outcome_bind]; [done|..];
      (apply IH; [cbn in Hf; lia| |done|done|done]; intros y Hy; apply Hns; set_solver). }
  destruct keys as [|[k0 k] keys], ns as [|x ns]; [right; cbn; set_solver|by apply Hskip|done|].
  destruct (post_cmp k0 (pn_key x)); [|done|by apply Hskip]. clear Hskip. cbn in Hnd, Hok, Hf.
  apply NoDup_cons in Hnd as [Hk Hnd]. apply Forall_cons in Hok as [Hkok Hok].
  pose proof (Hns x ltac:(set_solver)) as [Hxl Hg]. pose proof (Hres k ltac:(set_solver)) as Hresk.
  assert (Hres' : forall ov k', k' ∈ keys.*2 -> <[k := ov]> res !! k' = None).
  { intros ov k' Hk'. rewrite lookup_insert_ne by (by intros ->). apply Hres. set_solver. }
  destruct (is_prefix (pn_key x) k) eqn:Ep; cbn [negb err_if mbind outcome_bind]; [|done]. apply bool_decide_eq_true in Ep.
  case_bool_decide as Ek.
  - destruct (into_value x) as [ov|] eqn:Ev; cbn [or_err mbind outcome_bind]; [|done].
    rewrite Ek, bool_decide_eq_true_2 by done. apply (values_post_cons _ _ _ _ ov); [done| |].
    + destruct Hg as [?|Hg]; [by left|]. rewrite <- Ek. by apply genuine_value.
    + apply IH; [cbn; lia| |done|done|by apply Hres']. intros y Hy. apply Hns. set_solver.
  - assert (Hgo : (forall ck, pn_child_key x k = Ok ck -> ~ ck `prefix_of` k) -> values_post ((k0, k) :: keys) res
      (if bool_decide (res !! k = None) then values_loop fuel keys (x :: ns) (<[k := None]> res) else Panic)).
    { intros Hno. rewrite bool_decide_eq_true_2 by done. apply (values_post_cons _ _ _ _ None); [done| |].
      - destruct Hg as [?|Hg]; [by left|right]. by eapply (genuine_missing x k).
      - apply IH; [cbn; lia|done|done|done|by apply Hres']. }
    rewrite pn_child_key_eq in *. pose proof (proj1 (Forall_forall _ _) Hl x Hxl) as (_ & _ & Hlen & _).
    destruct (pn_child_cases x k Hlen Hkok) as [(e & He & _)|(i & t & c & _ & _ & He)]; rewrite He in *; [by apply Hgo|].
    destruct (_ <? _)%nat; [by apply Hgo|]. unfold err_if.
    destruct (is_prefix (pn_key x ++ suffix c) k) eqn:Ec; cbn [mbind outcome_bind]; [done|].
    apply bool_decide_eq_false in Ec. apply Hgo. by intros ck [= <-].
Qed.
End Genuine.

(** C9: what a proof shows: verifying a proof from anyone for distinct keys against the
    root hash of a complete trie does not panic, and if it succeeds it returns for every
    requested key exactly what the trie has there, present or not, and nothing for other
    keys, unless a string hashed by the verification collides with one of the trie's. *)
Theorem verify_values_sound s h proof keys :
  trie_inv None None (table s) -> values_ok (table s) -> root_hash_assert s = (Ok h, s) ->
  Forall proof_node_ok (nodes proof) -> Forall key_ok keys -> NoDup keys ->
  match verify_values proof h keys with
  | Ok result =>
      (forall k, result !! k = if decide (k ∈ keys) then Some (contents (table s) !! k) else None) \/
      collision blake2b (trie_strings (table s)) (proof_strings (nodes proof))
  | Err _ => True
  | Panic => False
  end.
Proof.
  intros Hinv Hvals (n0 & Hn0 & Hh)%root_hash_assert_ok Hns Hok Hnd; [|done]. unfold verify_values.
  destruct (verify_ok (E := ProofError) proof h Hns) as (b & -> & Hb). cbn [mbind outcome_bind]. destruct b; cbn [negb err_if mbind outcome_bind]; [|done].
  destruct (Hb eq_refl) as (root & Hr & _ & Hrh & Hpar).
  set (ks := sort_by _ _). assert (Hks : ks.*2 ≡ₚ keys).
  { unfold ks. rewrite sort_by_perm, <- list_fmap_compose. cbn. by rewrite list_fmap_id. }
  assert (Hpost : values_post (table s) (nodes proof) ks ∅ (values_loop (S (length ks + length (nodes proof))) ks (nodes proof) ∅)).
  { apply values_loop_ok; [apply Hinv|done|apply Hinv|done|lia| |by rewrite Hks|by rewrite Hks|intros; apply lookup_empty].
    intros x Hx. split; [done|]. eapply (all_genuine _ _ (ti_wf _ _ _ Hinv) Hvals (ti_hashes _ _ _ Hinv) Hns root n0 h); eauto. }
  destruct (values_loop _ _ _ _) as [res|e|]; [|done|done]. destruct Hpost as [Hc|[H1 H2]]; [by right|left].
  intros k. setoid_rewrite Hks in H1. setoid_rewrite Hks in H2. case_decide; [by apply H1|]. rewrite H2 by done. apply lookup_empty.
Qed.
End Sound.
