(* ===== verification/TrieProofComplete.v ===== *)
(** * Proofs made by [get_proof]

    [get_proof] makes a proof that verifies against the root hash, and
    [verify_values] returns the trie's values for the keys it was made for, except
    where a requested key lies below a leaf that was not requested itself. *)

From S2P Require Import Prelude Coin AccountTypes Codec TxContent Block KeyNibbles TrieNode.
From S2P Require Import Trie TrieInv TriePath TriePut TrieRemove TrieHash TrieSpec TrieDiff.
From S2P Require Import TrieProof TrieProofSound.
From Stdlib Require Import Sorting.Sorted.

Implicit Types (db : gmap key TrieNode) (r : range) (n m : TrieNode) (k p q : key) (s : Txn) (pn x y : TrieProofNode).

(** ** Post-order *)

Fixpoint post_lex (a b : key) : comparison :=
  match a, b with
  | [], [] => Eq
  | [], _ :: _ => Gt
  | _ :: _, [] => Lt
  | x :: a, y :: b => match (x ?= y)%nat with Eq => post_lex a b | c => c end
  end.

Lemma is_prefix_cons i j a b : is_prefix (i :: a) (j :: b) = (i =? j)%nat && is_prefix a b.
Proof.
  unfold is_prefix. destruct (Nat.eqb_spec i j) as [->|H]; cbn [andb].
  - apply bool_decide_ext. split; [apply prefix_cons_inv_2|apply prefix_cons].
  - apply bool_decide_eq_false_2. intros E. by apply prefix_cons_inv_1 in E.
Qed.
Lemma post_cmp_lex a b : post_cmp a b = post_lex a b.
Proof.
  revert b. induction a as [|i a IH]; intros [|j b].
  - done.
  - done.
  - done.
  - cbn [post_lex]. rewrite <- IH. unfold post_cmp. rewrite !is_prefix_cons. cbn [lex].
    rewrite (Nat.eqb_sym j i). destruct (Nat.eqb_spec i j) as [->|H]; cbn [andb]; [by rewrite Nat.compare_refl|].
    destruct (i ?= j)%nat eqn:E; [by apply Nat.compare_eq in E|done|done].
Qed.

(** The comparison of packed keys. *)
Lemma post_order_cmp_key_of l l' : key_ok l -> key_ok l' -> post_order_cmp (key_of l) (key_of l') = post_cmp l l'.
Proof.
  intros H H'. unfold post_order_cmp, post_cmp, is_prefix. by rewrite !is_prefix_of_key_of, cmp_key_of.
Qed.

Definition before a b : Prop := post_cmp a b = Lt.

Lemma post_cmp_eq a b : post_cmp a b = Eq -> a = b.
Proof.
  rewrite post_cmp_lex. revert b. induction a as [|i a IH]; intros [|j b]; cbn; try done.
  destruct (i ?= j)%nat eqn:E; try done. apply Nat.compare_eq in E as ->. intros H. f_equal. by apply IH.
Qed.
Lemma post_cmp_refl a : post_cmp a a = Eq.
Proof. rewrite post_cmp_lex. induction a; cbn; [done|]. by rewrite Nat.compare_refl. Qed.
Lemma post_cmp_antisym a b : post_cmp b a = CompOpp (post_cmp a b).
Proof.
  rewrite !post_cmp_lex. revert b. induction a as [|i a IH]; intros [|j b]; cbn; try done.
  rewrite Nat.compare_antisym. destruct (i ?= j)%nat; cbn; [apply IH|done|done].
Qed.
Lemma before_gt a b : post_cmp a b = Gt <-> before b a.
Proof. unfold before. rewrite (post_cmp_antisym a b). by destruct (post_cmp a b). Qed.

#[global] Instance before_trans : Transitive before.
Proof.
  unfold before. intros a b c. rewrite !post_cmp_lex. revert b c.
  induction a as [|i a IH]; intros [|j b] [|l c]; cbn; try done.
  destruct (Nat.compare_spec i j), (Nat.compare_spec j l), (Nat.compare_spec i l); subst; try done; try lia. by apply IH.
Qed.
Lemma before_irrefl a : ~ before a a.
Proof. unfold before. by rewrite post_cmp_refl. Qed.

(** A node comes after everything below it, and nothing else is in between. *)
Lemma before_prefix a b : a `prefix_of` b -> a <> b -> before b a.
Proof.
  intros [t ->] Hne. unfold before. rewrite post_cmp_lex. induction a as [|i a IH]; cbn.
  - by destruct t.
  - rewrite Nat.compare_refl. apply IH. intros E. apply Hne. cbn. by rewrite <- E.
Qed.
Lemma before_convex d a b c : d `prefix_of` a -> d `prefix_of` c -> before a b -> before b c -> d `prefix_of` b.
Proof.
  intros [ta ->] [tc ->]. unfold before. rewrite !post_cmp_lex. revert b. induction d as [|i d IH]; intros b; [intros; apply prefix_nil|].
  destruct b as [|j b]; cbn; [done|].
  destruct (Nat.compare_spec i j), (Nat.compare_spec j i); subst; try done; try lia. intros H1 H2. by apply prefix_cons, IH.
Qed.

(** ** Sorting *)

Section Sort.
Context {A : Type} (cmp : A -> A -> comparison).
Definition cmp_le (a b : A) : Prop := cmp a b <> Gt.
Context (Htrans : Transitive cmp_le) (Htotal : forall a b, cmp a b = Gt -> cmp_le b a).

Lemma insert_by_sorted a l : StronglySorted cmp_le l -> StronglySorted cmp_le (insert_by cmp a l).
Proof.
  induction 1 as [|b l Hs IH Hb]; cbn [insert_by]; [by repeat constructor|].
  assert (Hle : cmp a b <> Gt -> StronglySorted cmp_le (a :: b :: l)).
  { intros Hab. constructor; [by constructor|]. constructor; [done|]. eapply Forall_impl; [done|]. intros c. by apply Htrans. }
  destruct (cmp a b) eqn:E; [by apply Hle|by apply Hle|]. constructor; [done|]. rewrite insert_by_perm. constructor; [by apply Htotal|done].
Qed.
Lemma sort_by_sorted l : StronglySorted cmp_le (sort_by cmp l).
Proof. unfold sort_by. induction l as [|a l IH]; cbn [foldr]; [constructor|by apply insert_by_sorted]. Qed.
End Sort.

(** A list sorted by distinct keys. *)
Lemma sorted_before {A} (f : A -> key) (l : list A) : NoDup (f <$> l) ->
  StronglySorted (fun a b => before (f a) (f b)) (sort_by (fun a b => post_cmp (f a) (f b)) l).
Proof.
  intros Hnd. assert (Hs : StronglySorted (cmp_le (fun a b => post_cmp (f a) (f b))) (sort_by (fun a b => post_cmp (f a) (f b)) l)).
  { apply sort_by_sorted.
    - intros a b c Hab Hbc Hac. unfold cmp_le in *. apply before_gt in Hac.
      destruct (post_cmp (f a) (f b)) eqn:E1; [apply post_cmp_eq in E1; rewrite E1 in Hac; by apply before_gt in Hac| |done].
      destruct (post_cmp (f b) (f c)) eqn:E2; [apply post_cmp_eq in E2; rewrite <- E2 in Hac| |done].
      + by apply (before_irrefl (f a)); etrans.
      + apply (before_irrefl (f a)). by etrans; [|etrans].
    - intros a b Hab. unfold cmp_le. apply before_gt in Hab. by rewrite Hab. }
  rewrite <- (sort_by_perm (fun a b => post_cmp (f a) (f b)) l) in Hnd.
  induction Hs as [|a l' Hs IH Ha]; [constructor|]. cbn in Hnd. apply NoDup_cons in Hnd as [Hn Hnd].
  constructor; [by apply IH|]. apply Forall_forall. intros b Hb. rewrite Forall_forall in Ha. specialize (Ha b Hb).
  unfold cmp_le in Ha. unfold before. destruct (post_cmp (f a) (f b)) eqn:E; [|done|done].
  apply post_cmp_eq in E. destruct Hn. rewrite E. by apply list_elem_of_fmap_2.
Qed.

(** ** The nodes of a proof *)

Section Complete.
Context `{BEnv : BlockEnv} (s : Txn) (Hwf : wf None (table s)).
Abbreviation db := (table s).

Definition stored n : Prop := db !! node_key n = Some n.

Lemma stored_lookup q n : db !! q = Some n -> stored n /\ node_key n = q.
Proof. intros Hn. pose proof (nw_key _ _ (wf_node _ _ Hwf _ _ Hn)) as E. unfold stored. by rewrite E. Qed.

(** The path has all stored nodes above its end. *)
Lemma path_all path k : path_to db path k -> forall q n, db !! q = Some n -> q `prefix_of` k -> q <> k -> n ∈ path.
Proof.
  induction 1 as [|m i c path Hpath IH Hm Hmwf Hr Hc]; intros q n Hn Hq Hne.
  { by apply prefix_nil_inv in Hq. }
  destruct (prefix_cases q (node_key m) (node_key m ++ suffix c)) as [->|[(j & t & E)|(j & t & E)]]; [done|by apply prefix_app_r| | |].
  - rewrite Hm in Hn. injection Hn as ->. apply list_elem_of_here.
  - apply list_elem_of_further. apply (IH q n Hn); rewrite E; [by apply prefix_app_r|]. intros E'. apply (f_equal length) in E'. rewrite length_app in E'. cbn in E'. lia.
  - exfalso. destruct (entry_suffix Hwf _ _ _ _ Hm Hc) as [u Eu].
    assert (Ej : j = i). { rewrite E, Eu in Hq. apply prefix_app_inv in Hq. by apply prefix_cons_inv_1 in Hq. }
    subst j. pose proof (nothing_between Hwf _ _ _ _ _ _ _ Hm Hc Hn E) as Hb. apply Hne. by apply (anti_symm prefix).
Qed.

Lemma path_elem_stored path k n : path_to db path k -> n ∈ path -> stored n.
Proof.
  induction 1 as [|m j c path Hpath IH Hm _ _ _]; [by intros ?%not_elem_of_nil|]. intros [->|Hn]%elem_of_cons; [done|auto].
Qed.
Lemma chain_above path k n : path_to db path k -> n ∈ path -> stored n /\ node_key n `prefix_of` k /\ node_key n <> k.
Proof.
  intros Hp Hn. split; [by eapply path_elem_stored|]. destruct (path_prefix _ _ _ _ Hp Hn) as (i & t & ->).
  split; [apply strict_prefix|]. intros E. apply (f_equal length) in E. rewrite length_app in E. cbn in E. lia.
Qed.
Lemma path_NoDup path k : path_to db path k -> NoDup (node_key <$> path).
Proof.
  induction 1 as [|m i c path Hpath IH Hm _ _ _]; cbn; [constructor|]. constructor; [|done].
  intros (n & E & Hn)%list_elem_of_fmap. by destruct (chain_above _ _ _ Hpath Hn) as (_ & _ & []).
Qed.

(** [pointer] with the nodes above it. *)
Definition chain_ok n (path : list TrieNode) : Prop := stored n /\ path_to db path (node_key n).

Lemma chain_elem n path m : chain_ok n path -> m ∈ n :: path <-> stored m /\ node_key m `prefix_of` node_key n.
Proof.
  intros [Hn Hp]. rewrite elem_of_cons. split.
  - intros [->|Hm]; [done|]. by destruct (chain_above _ _ _ Hp Hm) as (? & ? & _).
  - intros [Hm Hpre]. destruct (decide (node_key m = node_key n)) as [E|Hne]; [left|right; by eapply path_all].
    unfold stored in *. congruence.
Qed.
Lemma chain_NoDup n path : chain_ok n path -> NoDup (node_key <$> (n :: path)).
Proof.
  intros [Hn Hp]. cbn. constructor; [|by eapply path_NoDup]. intros (m & E & Hm)%list_elem_of_fmap.
  by destruct (chain_above _ _ _ Hp Hm) as (_ & _ & []).
Qed.

(** The last stored node on the way to [k]. *)
Definition deepest n k : Prop := node_key n `prefix_of` k /\ forall m, stored m -> node_key m `prefix_of` k -> node_key m `prefix_of` node_key n.

Lemma wp_proof_descend k (QE : MerkleRadixTrieError -> Txn -> Prop) : key_ok k ->
  forall fuel n path, (MAX_BYTES * 2 < fuel + length (node_key n))%nat -> chain_ok n path -> node_key n `prefix_of` k ->
  wp (proof_descend fuel k None n path)
    (fun res s' => s' = s /\ exists n' path', res = (n', path', negb (bool_decide (node_key n' = k))) /\
       chain_ok n' path' /\ deepest n' k /\ node_key n `prefix_of` node_key n') QE s.
Proof.
  intros Hk. induction fuel as [|fuel IH]; intros n path Hf [Hn Hp] Hpre.
  { destruct (nw_key_ok _ _ (wf_node _ _ Hwf _ _ Hn)) as [_ Hb]. lia. }
  cbn [proof_descend]. case_bool_decide as Ek.
  { wp_step. split; [done|]. exists n, path. rewrite bool_decide_eq_true_2 by done. split; [done|]. split; [done|].
    split; [|done]. split; [done|]. intros m _. by rewrite Ek. }
  destruct (prefix_strict _ _ Hpre Ek) as (i & t & E).
  assert (Hstop : (forall m, stored m -> node_key m `prefix_of` k -> node_key m `prefix_of` node_key n) ->
    wp (mret (n, path, true)) (fun res s' => s' = s /\ exists n' path', res = (n', path', negb (bool_decide (node_key n' = k))) /\
       chain_ok n' path' /\ deepest n' k /\ node_key n `prefix_of` node_key n') QE s).
  { intros H. wp_step. split; [done|]. exists n, path. by rewrite bool_decide_eq_false_2. }
  assert (Hless : forall m, stored m -> node_key m `prefix_of` k ->
    node_key m `prefix_of` node_key n \/ exists u, node_key m = node_key n ++ i :: u).
  { intros m _ Hm. destruct (prefix_cases _ _ _ Hm Hpre) as [->|[(j & u & ->)|(j & u & E')]]; [by left|left; apply strict_prefix|right].
    rewrite E', E in Hm. apply prefix_app_inv, prefix_cons_inv_1 in Hm as ->. eauto. }
  rewrite E in Hk. destruct (child_key_towards None _ n i t (wf_node _ _ Hwf _ _ Hn) Hk) as [[Hc He]|(c & Hc & Hkc & He)];
    rewrite E, He, <- E; [|cbn [range_contains]].
  - apply Hstop. intros m Hm Hmk. destruct (Hless m Hm Hmk) as [|(u & Eu)]; [done|]. by destruct (nothing_below_empty Hwf _ _ _ _ _ _ Hn Hc Hm Eu).
  - destruct (is_prefix (node_key n ++ suffix c) k) eqn:Ec.
    + apply bool_decide_eq_true in Ec. destruct (wf_closed _ _ Hwf _ _ _ _ Hn Hc eq_refl) as [m Hm].
      wp_step. apply wp_gets. rewrite Hm. cbn [fmap option_fmap option_map]. rewrite (set_key_wf _ _ _ _ Hwf Hm). wp_step. apply wp_expect with m; [done|].
      destruct (stored_lookup _ _ Hm) as [Hms Emk]. destruct (entry_suffix Hwf _ _ _ _ Hn Hc) as [u Eu].
      eapply wp_mono; [apply (IH m (n :: path))| |done].
      * rewrite Emk, length_app, Eu. cbn [length]. lia.
      * split; [done|]. rewrite Emk. by eapply path_extend.
      * by rewrite Emk.
      * intros res s' (-> & n' & path' & -> & H1 & H2 & H3). split; [done|]. exists n', path'. split; [done|]. split; [done|].
        split; [done|]. etrans; [|exact H3]. rewrite Emk. by apply prefix_app_r.
    + apply bool_decide_eq_false in Ec. apply Hstop. intros m Hm Hmk. destruct (Hless m Hm Hmk) as [|(u & Eu)]; [done|].
      destruct Ec. etrans; [|exact Hmk]. by apply (nothing_between Hwf _ _ _ _ _ _ _ Hn Hc Hm Eu).
Qed.

Lemma wp_proof_ascend k (QE : MerkleRadixTrieError -> Txn -> Prop) : forall path n left, chain_ok n path ->
  wp (proof_ascend k n path left)
    (fun res s' => s' = s /\ exists n' path' popped, res = (n', path', left ++ popped) /\
       n :: path = popped ++ n' :: path' /\ chain_ok n' path' /\ node_key n' `prefix_of` k /\
       Forall (fun m => ~ node_key m `prefix_of` k) popped) QE s.
Proof.
  induction path as [|m path IH]; intros n left Hchain; cbn [proof_ascend]; destruct (is_prefix (node_key n) k) eqn:Ep.
  1,3: apply bool_decide_eq_true in Ep; wp_step; split; [done|]; eexists n, _, []; rewrite app_nil_r; split; [done|];
    split; [done|]; split; [done|]; split; [done|constructor].
  - exfalso. apply bool_decide_eq_false in Ep. destruct Hchain as [_ Hp]. apply Ep. inversion Hp. apply prefix_nil.
  - apply bool_decide_eq_false in Ep. destruct Hchain as [_ Hp].
    assert (Hm : chain_ok m path) by (by inversion Hp; subst). eapply wp_mono; [by apply (IH m (left ++ [n]))| |done].
    intros res s' (-> & n' & path' & popped & -> & E & Hc & Hk & Hpop). split; [done|].
    exists n', path', (n :: popped). rewrite <- app_assoc. split; [done|]. split; [cbn; by rewrite E|]. split; [done|]. split; [done|].
    by constructor.
Qed.

(** What the loop over the keys leaves: [ks] are the keys visited so far. *)
Record visited (ks : list key) (ns : list TrieNode) : Prop := {
  vi_stored : Forall stored ns;
  vi_NoDup : NoDup (node_key <$> ns);
  vi_all : forall n, n ∈ ns <-> stored n /\ exists k, k ∈ ks /\ node_key n `prefix_of` k;
}.
(** The missing keys with the nodes that prove it. *)
Definition proves (ks : list key) (mp : gmap key key) : Prop :=
  forall k, (k ∈ ks -> db !! k = None -> exists n, stored n /\ deepest n k /\ mp !! k = Some (node_key n)) /\
            (k ∉ ks \/ is_Some (db !! k) -> mp !! k = None).

(** The nodes left behind are those above visited keys and not above [k]. *)
Definition behind (ks rest : list key) n (left : list TrieNode) : Prop :=
  Forall stored left /\ NoDup (node_key <$> left) /\
  Forall (fun m => (exists k, k ∈ ks /\ node_key m `prefix_of` k) /\ forall k, k ∈ rest -> ~ node_key m `prefix_of` k) left /\
  forall m k, stored m -> k ∈ ks -> node_key m `prefix_of` k -> m ∈ left \/ node_key m `prefix_of` node_key n.

Lemma behind_down ks cur rest n n' left : behind ks (cur :: rest) n left -> deepest n' cur -> node_key n `prefix_of` node_key n' ->
  behind (cur :: ks) rest n' left /\ Forall (fun m => ~ node_key m `prefix_of` cur) left.
Proof.
  intros (H1 & H2 & H3 & H4) [Hd1 Hd2] Hn. split; [split; [done|split; [done|split]]|].
  - eapply Forall_impl; [done|]. intros m [(k & Hk & Hm) Hr]. split; [exists k; set_solver|]. intros k' Hk'. apply Hr. set_solver.
  - intros m k Hm [->|Hk]%elem_of_cons Hmk; [right; by apply Hd2|]. destruct (H4 m k Hm Hk Hmk) as [|H]; [by left|right; by etrans].
  - eapply Forall_impl; [done|]. intros m [_ Hr]. apply Hr. set_solver.
Qed.
Lemma behind_done ks n path left k : behind (k :: ks) [] n left -> chain_ok n path -> deepest n k ->
  Forall (fun m => ~ node_key m `prefix_of` k) left -> visited (k :: ks) (left ++ n :: path).
Proof.
  intros (H1 & H2 & H3 & H4) Hc [Hd1 Hd2] Hnot. split.
  - apply Forall_app. split; [done|]. apply Forall_forall. intros m Hm. by apply (chain_elem _ _ _ Hc).
  - rewrite fmap_app. apply NoDup_app. split; [done|]. split; [|by apply chain_NoDup].
    intros q (m & -> & Hm)%list_elem_of_fmap (m' & E & Hm')%list_elem_of_fmap.
    apply (chain_elem _ _ _ Hc) in Hm' as [_ Hm']. rewrite Forall_forall in Hnot. apply (Hnot m Hm). rewrite E. by etrans.
  - intros m. rewrite elem_of_app, (chain_elem _ _ _ Hc). split.
    + intros [Hm|[Hm Hpre]].
      * rewrite Forall_forall in H1, H3. destruct (H3 m Hm) as [? _]. split; [by apply H1|done].
      * split; [done|]. exists k. split; [set_solver|by etrans].
    + intros [Hm (k' & Hk' & Hpre)]. destruct (H4 m k' Hm Hk' Hpre); auto.
Qed.
Lemma behind_up ks cur next rest n path n' path' popped left : behind (cur :: ks) (next :: rest) n left ->
  before next cur -> Forall (fun k => before k next) rest -> chain_ok n path -> deepest n cur ->
  Forall (fun m => ~ node_key m `prefix_of` cur) left ->
  n :: path = popped ++ n' :: path' -> chain_ok n' path' -> Forall (fun m => ~ node_key m `prefix_of` next) popped ->
  behind (cur :: ks) (next :: rest) n' (left ++ popped).
Proof.
  intros (H1 & H2 & H3 & H4) Hnext Hrest Hc [Hd1 Hd2] Hnot E Hc' Hpop.
  assert (Hin : forall m, m ∈ popped -> stored m /\ node_key m `prefix_of` cur).
  { intros m Hm. assert (Hm' : m ∈ n :: path) by (rewrite E; set_solver). apply (chain_elem _ _ _ Hc) in Hm' as [? ?]. split; [done|by etrans]. }
  split; [|split; [|split]].
  - apply Forall_app. split; [done|]. apply Forall_forall. by intros m [? _]%Hin.
  - rewrite fmap_app. apply NoDup_app. split; [done|]. split.
    + intros q (m & -> & Hm)%list_elem_of_fmap (m' & Em & Hm')%list_elem_of_fmap. rewrite Forall_forall in Hnot.
      apply (Hnot m Hm). rewrite Em. by apply Hin.
    + pose proof (chain_NoDup _ _ Hc) as Hnd. rewrite E, fmap_app in Hnd. by apply NoDup_app in Hnd as [? _].
  - apply Forall_app. split; [done|]. apply Forall_forall. intros m Hm. destruct (Hin m Hm) as [_ Hmc].
    split; [exists cur; set_solver|]. rewrite Forall_forall in Hpop. rewrite Forall_forall in Hrest. intros k [->|Hk]%elem_of_cons; [by apply Hpop|].
    intros Hmk. apply (Hpop m Hm). by eapply (before_convex _ k next cur); [| |apply Hrest|].
  - intros m k Hm Hk Hmk. rewrite elem_of_app. destruct (H4 m k Hm Hk Hmk) as [|Hpre]; [by left; left|].
    assert (Hm' : m ∈ n :: path) by (by apply (chain_elem _ _ _ Hc)). rewrite E, elem_of_app in Hm'.
    destruct Hm' as [|Hm']; [by left; right|right]. by apply (chain_elem _ _ _ Hc') in Hm' as [_ Hm'].
Qed.

Lemma behind_nil root rest : behind [] rest root [].
Proof. repeat split; [constructor|constructor|constructor|]. intros m k _ Hk. by apply not_elem_of_nil in Hk. Qed.

Lemma proves_step ks mp k n : proves ks mp -> k ∉ ks -> stored n -> deepest n k ->
  proves (k :: ks) (if negb (bool_decide (node_key n = k)) then <[k := node_key n]> mp else mp).
Proof.
  intros Hp Hk Hn Hd k'. destruct (Hp k') as [H1 H2]. rewrite !elem_of_cons. case_bool_decide as E; cbn [negb].
  - split; [|intros [|]; apply H2; tauto]. intros [->|Hk'] Hno; [|auto]. unfold stored in Hn. congruence.
  - assert (Hno : db !! k = None).
    { destruct (db !! k) as [m|] eqn:Em; [|done]. destruct (stored_lookup _ _ Em) as [Hm Ek]. destruct Hd as [Hd1 Hd2].
      destruct E. apply (anti_symm prefix); [done|]. rewrite <- Ek. apply Hd2; [done|by rewrite Ek]. }
    destruct (decide (k = k')) as [<-|Hne].
    + rewrite lookup_insert_eq. split; [eauto|]. intros [H|H]; [tauto|]. rewrite Hno in H. by destruct H.
    + rewrite lookup_insert_ne by done. split; [intros [|]; [congruence|auto]|]. intros H. apply H2. tauto.
Qed.

Lemma wp_proof_loop (QE : MerkleRadixTrieError -> Txn -> Prop) rest : forall cur n path past mp ks,
  Forall key_ok (cur :: rest) -> StronglySorted (flip before) (cur :: rest) -> (forall k, k ∈ cur :: rest -> k ∉ ks) ->
  chain_ok n path -> node_key n `prefix_of` cur -> behind ks (cur :: rest) n past -> proves ks mp ->
  wp (proof_loop None cur rest n path past mp)
    (fun res s' => s' = s /\ visited (rev (cur :: rest) ++ ks) res.1 /\ proves (rev (cur :: rest) ++ ks) res.2) QE s.
Proof.
  induction rest as [|next rest IH]; intros cur n path past mp ks Hok Hsort Hnew Hc Hn Hb Hp; cbn [proof_loop];
    apply Forall_cons in Hok as [Hcur Hok]; inversion Hsort as [|? ? Hsort' Hbefore]; subst; wp_step;
    (eapply wp_mono; [apply (wp_proof_descend cur QE Hcur); [unfold depth_fuel; lia|done|done]| |done]);
    intros res s' (-> & n' & path' & -> & Hc' & Hd & Hnn); cbv beta iota;
    destruct (behind_down _ _ _ _ _ _ Hb Hd Hnn) as [Hb' Hnot];
    pose proof (proves_step ks mp cur n' Hp ltac:(apply Hnew; set_solver) (proj1 Hc') Hd) as Hp';
    (wp_step; unfold when; assert (Hmp : mp !! cur = None) by (apply Hp; left; apply Hnew; set_solver)).
  - assert (Hend : wp (mret (past ++ n' :: path',
        if negb (bool_decide (node_key n' = cur)) then <[cur:=node_key n']> mp else mp))
      (fun res s' => s' = s /\ visited (rev [cur] ++ ks) res.1 /\ proves (rev [cur] ++ ks) res.2) QE s).
    { wp_step. split; [done|]. split; [by apply behind_done|done]. }
    destruct (negb _); [|by wp_step]. apply wp_assert; [by rewrite bool_decide_eq_true_2|done].
  - assert (Hgo : wp (up ← proof_ascend next n' path' past;
        let '(pointer_node, root_path, past) := (up : TrieNode * list TrieNode * list TrieNode) in
        proof_loop None next rest pointer_node root_path past
          (if negb (bool_decide (node_key n' = cur)) then <[cur:=node_key n']> mp else mp))
      (fun res s' => s' = s /\ visited (rev (cur :: next :: rest) ++ ks) res.1 /\ proves (rev (cur :: next :: rest) ++ ks) res.2) QE s).
    { wp_step. eapply wp_mono; [by apply (wp_proof_ascend next QE)| |done].
      intros up s' (-> & n'' & path'' & popped & -> & E & Hc'' & Hpre & Hpop). cbv beta iota.
      assert (El : rev (cur :: next :: rest) ++ ks = rev (next :: rest) ++ cur :: ks) by (cbn [rev]; by rewrite <-!app_assoc).
      rewrite El. inversion Hsort' as [|? ? _ Hbefore']; subst. apply Forall_cons in Hbefore as [Hnc Hbefore].
      apply IH; [done|done| |done|done| |done].
      - intros k Hk [->|Hks]%elem_of_cons; [|by apply (Hnew k); [set_solver|]].
        apply elem_of_cons in Hk as [->|Hk]; [by apply before_irrefl in Hnc|].
        rewrite Forall_forall in Hbefore. by apply Hbefore, before_irrefl in Hk.
      - by eapply behind_up. }
    destruct (negb _); [|by wp_step]. apply wp_assert; [by rewrite bool_decide_eq_true_2|done].
Qed.

Lemma visited_ext ks ks' ns : (forall k, k ∈ ks <-> k ∈ ks') -> visited ks ns -> visited ks' ns.
Proof. intros E [H1 H2 H3]. split; [done|done|]. intros n. rewrite H3. by setoid_rewrite E. Qed.
Lemma proves_ext ks ks' mp : (forall k, k ∈ ks <-> k ∈ ks') -> proves ks mp -> proves ks' mp.
Proof. intros E H k. rewrite <-!E. apply H. Qed.

(** The proof for [ks] made of the nodes [ns]. *)
Definition proof_of (ks : list key) (ns : list TrieNode) (mp : gmap key key) : TrieProof :=
  mk_proof (sort_by (fun a b => post_cmp (pn_key a) (pn_key b))
    (map (fun n => to_proof_node (bool_decide (node_key n ∈ ks)) n) ns)) mp.

Lemma StronglySorted_rev {A} (R : A -> A -> Prop) l : StronglySorted R l -> StronglySorted (flip R) (rev l).
Proof.
  induction 1 as [|a l Hs IH Ha]; cbn [rev]; [constructor|]. apply StronglySorted_app_2; [|done|by repeat constructor].
  intros b a' Hb ->%list_elem_of_singleton. rewrite Forall_forall in Ha. apply Ha. by rewrite <- Permutation_rev in Hb.
Qed.

Lemma get_proof_run ks : trie_inv None None db -> ks <> [] -> NoDup ks -> Forall key_ok ks ->
  exists ns mp, get_proof ks s = (Ok (proof_of ks ns mp), s) /\ visited ks ns /\ proves ks mp.
Proof.
  intros Hinv Hne Hnd Hok.
  destruct (wp_total (get_proof ks) (fun res s' => s' = s /\ exists ns mp, res = proof_of ks ns mp /\ visited ks ns /\ proves ks mp) s)
    as (res & s' & Hrun & -> & ns & mp & -> & Hv & Hp); [|eauto].
  unfold get_proof. destruct ks as [|k0 ks0] eqn:Eks; [done|]. rewrite <- Eks in *. clear Hne.
  wp_step. eapply wp_missing_range; [done|]. wp_step. apply wp_fail_if; [rewrite existsb_exists; by intros (x & _ & Hx)|]. intros _.
  destruct (wf_root _ _ Hwf) as (root & Hroot & _). destruct (stored_lookup _ _ Hroot) as [Hrs Ekey].
  wp_step. unfold get_root. apply wp_gets. rewrite Hroot. cbn [fmap option_fmap option_map].
  rewrite (set_key_wf _ _ _ _ Hwf Hroot). wp_step. apply wp_expect with root; [done|].
  pose proof (sort_by_perm post_cmp ks) as Hperm.
  destruct (rev (sort_by post_cmp ks)) as [|cur rest] eqn:Er.
  { apply (f_equal (@rev key)) in Er. rewrite rev_involutive in Er. rewrite Er in Hperm. cbn in Hperm.
    apply Permutation_nil_l in Hperm. by rewrite <- Hperm in Eks. }
  assert (El : rev (cur :: rest) = sort_by post_cmp ks) by (by rewrite <- Er, rev_involutive).
  assert (Hpr : cur :: rest ≡ₚ ks) by (by rewrite <- Hperm, <- El, <- Permutation_rev).
  wp_step. eapply wp_mono; [apply (wp_proof_loop (fun _ _ => False) rest cur root [] [] ∅ [])| |done].
  - by rewrite Hpr.
  - rewrite <- Er. apply StronglySorted_rev. apply (sorted_before id). by rewrite list_fmap_id.
  - intros k _. apply not_elem_of_nil.
  - split; [done|]. rewrite Ekey. constructor.
  - rewrite Ekey. apply prefix_nil.
  - apply behind_nil.
  - intros k. split; [by intros ?%not_elem_of_nil|]. intros _. apply lookup_empty.
  - intros [ns mp] s' (-> & Hv & Hp). cbv beta iota. wp_step. split; [done|]. exists ns, mp.
    assert (Eall : forall k, k ∈ rev (cur :: rest) ++ [] <-> k ∈ ks) by (intros k; by rewrite app_nil_r, El, Hperm).
    split; [done|]. split; [by eapply visited_ext|by eapply proves_ext].
Qed.
End Complete.
