(* ===== verification/TrieProofRound.v ===== *)
(** * Verifying what [get_proof] returns

    The nodes that [get_proof] collects, sorted in post-order, pass [verify]; and the
    loop of [verify_values] reads the trie's values off them. *)

From S2P Require Import Prelude Coin AccountTypes Codec TxContent Block KeyNibbles TrieNode.
From S2P Require Import Trie TrieInv TriePath TriePut TrieRemove TrieHash TrieSpec TrieDiff.
From S2P Require Import TrieProof TrieProofSound TrieProofComplete.
From Stdlib Require Import Sorting.Sorted.

Implicit Types (r : range) (n m : TrieNode) (k p q : key) (s : Txn) (pn x y : TrieProofNode).

Section Round.
Context `{BEnv : BlockEnv} (s : Txn) (Hwf : wf None (table s)) (Hhash : hashes_ok (fun _ => False) (table s)).
Abbreviation db := (table s).
Context (Hroot : exists root, db !! [] = Some root /\ can_hash root = true).

(** Where the root's hash is known, all are. *)
Lemma all_hashed d : forall q n, (length q < d)%nat -> db !! q = Some n -> can_hash n = true.
Proof.
  induction d as [|d IH]; intros q n Hd Hn; [lia|]. destruct (decide (q = [])) as [->|Hne].
  { destruct Hroot as (root & Hr & Hc). congruence. }
  destruct (wf_parent _ _ Hwf _ _ Hn Hne) as (p & m & i & c & Hm & Hc & E).
  destruct (entry_suffix Hwf _ _ _ _ Hm Hc) as [t Et].
  assert (Hcan : can_hash m = true). { apply (IH p m); [|done]. rewrite E, length_app, Et in Hd. cbn in Hd. lia. }
  rewrite E in Hn. pose proof (Hhash p m i c n Hm Hc (can_hash_entry _ _ _ Hcan Hc) (fun H => H) Hn) as Hh.
  by apply hash_content in Hh as [? _].
Qed.
Lemma stored_hashed q n : db !! q = Some n -> can_hash n = true.
Proof. intros Hn. apply (all_hashed (S (length q)) q n); [lia|done]. Qed.

(** A node of a proof made from the stored node [n]. *)
Definition made_from x n : Prop := stored s n /\ exists b, x = to_proof_node b n.

Lemma made_key x n : made_from x n -> pn_key x = node_key n.
Proof. by intros [_ [b ->]]. Qed.
Lemma made_children x n : made_from x n -> pn_children x = children n.
Proof. by intros [_ [b ->]]. Qed.

(** A node accounts for the nodes its entries lead to. *)
Lemma made_child y x m n i c : made_from y m -> made_from x n -> entry m i c -> node_key n = node_key m ++ suffix c ->
  pn_child y (pn_key x) = Ok c /\ pn_child_key y (pn_key x) = Ok (pn_key x) /\ child_hash c = proof_node_hash x.
Proof.
  intros Hy Hx Hc E. pose proof (wf_node _ _ Hwf _ _ (proj1 Hx)) as Wn. pose proof (wf_node _ _ Hwf _ _ (proj1 Hy)) as Wm.
  assert (Hch : pn_child y (pn_key x) = Ok c).
  { rewrite (made_key _ _ Hx), E. destruct (entry_suffix Hwf _ _ _ _ (proj1 Hy) Hc) as [t Et]. rewrite Et.
    assert (Hl : length (pn_children y) = 16%nat) by (rewrite (made_children _ _ Hy); apply Wm).
    assert (Hk : key_ok (node_key m ++ i :: t)) by (rewrite <- Et, <- E; apply Wn).
    destruct (pn_child_cases y _ Hl Hk) as [(e & _ & H)|(j & u & c' & Ej & Hc' & ->)].
    - rewrite (made_key _ _ Hy), (made_children _ _ Hy) in H. destruct H as (j & u & Ej & Hno); [apply strict_prefix| |].
      + intros E'. apply (f_equal length) in E'. rewrite length_app in E'. cbn in E'. lia.
      + apply app_inv_head in Ej. injection Ej as -> _. unfold entry in Hc. congruence.
    - rewrite (made_key _ _ Hy) in Ej. rewrite (made_children _ _ Hy) in Hc'. apply app_inv_head in Ej. injection Ej as -> _.
      unfold entry in Hc. congruence. }
  split; [done|]. split.
  - rewrite pn_child_key_eq, Hch, (made_key _ _ Hy), (made_key _ _ Hx), E. destruct (nw_key_ok _ _ Wn) as [_ Hb].
    rewrite (proj2 (Nat.ltb_ge _ _)); [done|]. by rewrite <- length_app, <- E.
  - destruct Hx as [Hn [b ->]]. unfold stored in Hn. rewrite E in Hn.
    pose proof (Hhash _ m i c n (proj1 Hy) Hc (can_hash_entry _ _ _ (stored_hashed _ _ (proj1 Hy)) Hc) (fun H => H) Hn) as Hh.
    apply hash_content in Hh as [_ ->]. unfold proof_node_hash. by rewrite to_proof_node_content.
Qed.

(** ** The loop of [verify] *)

Definition pre x y : Prop := before (pn_key x) (pn_key y).

Lemma check_children_sorted {E : Type} y stack : StronglySorted (flip pre) stack -> Forall (fun x => pre x y) stack ->
  (forall x, x ∈ stack -> pn_key y `prefix_of` pn_key x ->
     exists c, pn_child y (pn_key x) = Ok c /\ pn_child_key y (pn_key x) = Ok (pn_key x) /\ child_hash c = proof_node_hash x) ->
  check_children (E := E) y stack = Ok (Some (filter (fun x => ~ pn_key y `prefix_of` pn_key x) stack)).
Proof.
  induction 1 as [|x stack Hs IH Hx]; intros Hy Hc; [done|]. cbn [check_children]. rewrite filter_cons.
  apply Forall_cons in Hy as [Hxy Hy]. destruct (is_prefix (pn_key y) (pn_key x)) eqn:Ep.
  - apply bool_decide_eq_true in Ep. destruct (Hc x ltac:(set_solver) Ep) as (c & -> & -> & ->).
    rewrite decide_False by tauto. rewrite Z.eqb_refl, bool_decide_eq_true_2 by done. cbn [negb orb].
    apply IH; [done|]. intros z Hz. apply Hc. set_solver.
  - apply bool_decide_eq_false in Ep. rewrite decide_True by done. do 3 f_equal. symmetry.
    rewrite list_filter_all; [done|]. apply Forall_forall. intros z Hz Hp. apply Ep. rewrite Forall_forall in Hx. by eapply (before_convex _ (pn_key z) _ (pn_key y)); [| |apply Hx|].
Qed.

Section Sorted.
Context (l : list TrieProofNode) (Hsort : StronglySorted pre l) (Hmade : forall x, x ∈ l -> exists n, made_from x n).
Context (Hclosed : forall x n, x ∈ l -> stored s n -> node_key n `prefix_of` pn_key x -> exists y, y ∈ l /\ made_from y n).

(** The stack has the nodes seen so far of which no node above was seen. *)
Definition stack_ok (seen stack : list TrieProofNode) : Prop :=
  StronglySorted (flip pre) stack /\
  forall x, x ∈ stack <-> x ∈ seen /\ forall y, y ∈ seen -> pn_key y `prefix_of` pn_key x -> pn_key y = pn_key x.

(** Where the node [y] is above a node on the stack, it is the node's parent. *)
Lemma stack_parent seen y later stack x : l = seen ++ y :: later -> stack_ok seen stack -> x ∈ stack ->
  pn_key y `prefix_of` pn_key x ->
  exists c, pn_child y (pn_key x) = Ok c /\ pn_child_key y (pn_key x) = Ok (pn_key x) /\ child_hash c = proof_node_hash x.
Proof.
  intros El [_ Hst] Hx Hyx. apply Hst in Hx as [Hx Hno]. rewrite El in Hsort.
  assert (Hxl : x ∈ l) by (rewrite El; set_solver). destruct (Hmade x Hxl) as [n Hn].
  assert (Hyl : y ∈ l) by (rewrite El; set_solver). destruct (Hmade y Hyl) as [m Hm].
  assert (Hxy : pre x y) by (eapply StronglySorted_app_1_elem_of; [done|done|set_solver]).
  assert (Hne : pn_key y <> pn_key x). { intros E. unfold pre in Hxy. rewrite E in Hxy. by apply before_irrefl in Hxy. }
  rewrite (made_key _ _ Hn), (made_key _ _ Hm) in *.
  destruct (prefix_strict _ _ Hyx Hne) as (j & t & E).
  destruct (wf_parent _ _ Hwf _ _ (proj1 Hn)) as (q & p & i & c & Hp & Hc & Eq); [rewrite E; by destruct (node_key m)|].
  destruct (stored_lookup s Hwf _ _ Hp) as [Hps Epq]. destruct (entry_suffix Hwf _ _ _ _ Hp Hc) as [u Eu].
  assert (Hqx : q `prefix_of` node_key n) by (rewrite Eq; by apply prefix_app_r).
  destruct (prefix_cases _ _ _ Hyx Hqx) as [Eyq|[(i' & t' & E')|(i' & t' & E')]].
  - assert (p = m) as -> by (pose proof (proj1 Hm) as H; unfold stored in H; congruence).
    exists c. rewrite <- (made_key _ _ Hn). apply (made_child y x m n i c); [done|done|done|]. by rewrite Eyq.
  - exfalso. destruct (Hclosed x p Hxl Hps) as (z & Hz & Hzp); [by rewrite Epq, (made_key _ _ Hn)|].
    assert (Hzy : pre z y).
    { unfold pre. rewrite (made_key _ _ Hzp), (made_key _ _ Hm), Epq. apply before_prefix; [rewrite E'; apply strict_prefix|].
      rewrite E'. intros H. apply (f_equal length) in H. rewrite length_app in H. cbn in H. lia. }
    rewrite El, elem_of_app in Hz. destruct Hz as [Hz|Hz].
    + assert (Ez : pn_key z = node_key n) by (apply Hno; [done|by rewrite (made_key _ _ Hzp), Epq]).
      rewrite (made_key _ _ Hzp), Epq, Eq, Eu in Ez. apply (f_equal length) in Ez. rewrite length_app in Ez. cbn in Ez. lia.
    + apply elem_of_cons in Hz as [->|Hz]; [by apply before_irrefl in Hzy|].
      assert (Hyz : pre y z). { apply StronglySorted_app_1_r in Hsort. inversion Hsort as [|? ? _ H]; subst. rewrite Forall_forall in H. by apply H. }
      apply (before_irrefl (pn_key y)). by etrans.
  - exfalso. assert (i' = i) as ->.
    { rewrite E', Eq, Eu in Hyx. by apply prefix_app_inv, prefix_cons_inv_1 in Hyx. }
    pose proof (nothing_between Hwf _ _ _ _ _ _ _ Hp Hc (proj1 Hm) E') as H. rewrite <- Eq in H.
    apply Hne. by apply (anti_symm prefix).
Qed.

(** A node without entries has nothing below it. *)
Lemma no_children_below y x : y ∈ l -> x ∈ l -> pn_has_children y = false -> pn_key y `prefix_of` pn_key x -> pn_key y = pn_key x.
Proof.
  intros Hy Hx Hno Hp. destruct (decide (pn_key y = pn_key x)) as [|Hne]; [done|exfalso].
  destruct (Hmade y Hy) as [m Hm], (Hmade x Hx) as [n Hn]. destruct (prefix_strict _ _ Hp Hne) as (i & t & E).
  rewrite (made_key _ _ Hm), (made_key _ _ Hn) in E.
  destruct (entry_towards_node Hwf _ _ _ _ _ _ (proj1 Hm) (proj1 Hn) E) as (c & Hc & _).
  unfold pn_has_children in Hno. rewrite (made_children _ _ Hm) in Hno. eapply not_true_iff_false; [exact Hno|].
  apply existsb_exists. exists (Some c). split; [|by rewrite bool_decide_eq_true_2]. apply list_elem_of_In. by eapply list_elem_of_lookup_2.
Qed.

Lemma stack_push seen y stack : StronglySorted pre (seen ++ [y]) -> stack_ok seen stack ->
  stack_ok (seen ++ [y]) (y :: filter (fun x => ~ pn_key y `prefix_of` pn_key x) stack).
Proof.
  intros Hs [H1 H2]. assert (Hlt : forall x, x ∈ seen -> pre x y).
  { intros x Hx. eapply StronglySorted_app_1_elem_of; [done|done|set_solver]. }
  split.
  - constructor.
    + clear -H1. induction H1 as [|x stack Hs IH Hx]; [constructor|]. rewrite filter_cons. case_decide; [|done].
      constructor; [done|]. apply Forall_forall. intros z [_ Hz]%list_elem_of_filter. rewrite Forall_forall in Hx. by apply Hx.
    + apply Forall_forall. intros x [_ Hx]%list_elem_of_filter. apply Hlt. by apply H2 in Hx as [? _].
  - intros x. rewrite elem_of_cons, list_elem_of_filter, H2, elem_of_app, list_elem_of_singleton. split.
    + intros [->|[Hn [Hx Hno]]]; (split; [tauto|]); intros z [Hz| ->%list_elem_of_singleton]%elem_of_app Hp; try done; [|by apply Hno].
      destruct (decide (pn_key z = pn_key y)) as [|Hne]; [done|]. apply Hlt in Hz. pose proof (before_prefix _ _ Hp Hne) as Hb.
      by destruct (before_irrefl (pn_key z)); etrans.
    + intros [[Hx| ->] Hno]; [right|by left]. split; [|split; [done|]; intros z Hz; apply Hno; set_solver].
      intros Hp. apply Hlt in Hx. unfold pre in Hx. rewrite (Hno y) in Hx; [by apply before_irrefl in Hx|set_solver|done].
Qed.

Lemma verify_loop_sorted {E : Type} later : forall seen stack, l = seen ++ later -> stack_ok seen stack ->
  exists final, verify_loop (E := E) later stack = Ok (Some final) /\ stack_ok l final.
Proof.
  induction later as [|y later IH]; intros seen stack El Hst; cbn [verify_loop].
  { exists stack. by rewrite El, app_nil_r. }
  assert (Hs : StronglySorted pre ((seen ++ [y]) ++ later)) by (rewrite <- app_assoc; cbn [app]; by rewrite <- El).
  assert (Hlt : Forall (fun x => pre x y) stack).
  { apply Forall_forall. intros x Hx. apply Hst in Hx as [Hx _]. rewrite El in Hsort.
    eapply StronglySorted_app_1_elem_of; [exact Hsort|done|set_solver]. }
  assert (Hin : forall x, x ∈ stack -> x ∈ l) by (intros x [Hx _]%Hst; rewrite El; set_solver).
  assert (Hrest : (if pn_has_children y then check_children (E := E) y stack else Ok (Some stack)) =
    Ok (Some (filter (fun x => ~ pn_key y `prefix_of` pn_key x) stack))).
  { destruct (pn_has_children y) eqn:Ec.
    - apply check_children_sorted; [apply Hst|done|]. intros x Hx. by eapply stack_parent.
    - rewrite list_filter_all; [done|]. apply Forall_forall. intros x Hx Hp.
      assert (Ek : pn_key y = pn_key x) by (apply no_children_below; [rewrite El; set_solver|by apply Hin|done|done]).
      rewrite Forall_forall in Hlt. specialize (Hlt x Hx). unfold pre in Hlt. rewrite Ek in Hlt. by apply before_irrefl in Hlt. }
  rewrite Hrest. cbn [mbind outcome_bind]. apply (IH (seen ++ [y])); [by rewrite <- app_assoc|].
  apply stack_push; [by apply StronglySorted_app_1_l in Hs|done].
Qed.

(** A sorted list of nodes that has the nodes above its nodes is a valid proof. *)
Lemma verify_sorted {E : Type} mp root h : db !! [] = Some root -> hash root = Some h -> l <> [] ->
  verify (E := E) (mk_proof l mp) h = Ok true.
Proof.
  intros Hr Hh Hne. unfold verify. cbn [nodes]. assert (exists x0, x0 ∈ l) as [x0 Hx0].
  { destruct l as [|x0 l0]; [done|]. exists x0. apply list_elem_of_here. }
  rewrite (proj2 (Nat.eqb_neq _ _)) by (by rewrite length_zero_iff_nil).
  destruct (verify_loop_sorted (E := E) l [] []) as (final & -> & Hs & Hf); [done|split; [constructor|set_solver]|]. cbn [mbind outcome_bind].
  destruct (stored_lookup s Hwf _ _ Hr) as [Hrs Ek]. destruct (Hclosed x0 root) as (y & Hy & Hym); [done|done|rewrite Ek; apply prefix_nil|].
  assert (Eyk : pn_key y = []) by (by rewrite (made_key _ _ Hym)).
  assert (Hall : forall x, x ∈ final -> pn_key x = []). { intros x [_ Hx]%Hf. rewrite <- Eyk. symmetry. apply Hx; [done|]. rewrite Eyk. apply prefix_nil. }
  assert (Hyf : y ∈ final). { apply Hf. split; [done|]. intros z Hz Hp. rewrite Eyk in *. by apply prefix_nil_inv in Hp. }
  destruct final as [|x1 [|x2 final]]; [by apply not_elem_of_nil in Hyf| |].
  - apply list_elem_of_singleton in Hyf as ->. cbn. rewrite Eyk. cbn.
    destruct Hym as [_ [b ->]]. apply hash_content in Hh as [_ ->]. unfold proof_node_hash. by rewrite to_proof_node_content, Z.eqb_refl.
  - exfalso. inversion Hs as [|? ? _ H]; subst. apply Forall_cons in H as [H _]. unfold flip, pre in H.
    rewrite (Hall x1), (Hall x2) in H by set_solver. by apply before_irrefl in H.
Qed.
End Sorted.

(** ** The loop of [verify_values] *)

Section Values.
Context (ks : list key) (mp : gmap key key) (Hp : proves s ks mp) (Hok : Forall key_ok ks).
Context (l : list TrieProofNode).
Context (Hmade : forall x, x ∈ l -> exists n, stored s n /\ x = to_proof_node (bool_decide (node_key n ∈ ks)) n).

Definition request_cmp (a b : key * key) : comparison :=
  match post_cmp a.1 b.1 with Eq => post_cmp a.2 b.2 | c => c end.
Definition request k : key * key := (default k (mp !! k), k).
(** A value that was not asked for. *)
Definition unrequested x : bool :=
  negb (bool_decide (pn_key x ∈ ks)) && match into_value x with Some (Some _) => true | _ => false end.

(** A key is proven by the last stored node on the way to it. *)
Lemma request_deepest k : k ∈ ks -> exists n, stored s n /\ deepest s n k /\ (request k).1 = node_key n.
Proof.
  intros Hk. destruct (Hp k) as [H1 H2]. cbn. destruct (db !! k) as [n|] eqn:En.
  - rewrite H2 by eauto. destruct (stored_lookup s Hwf _ _ En) as [Hn <-]. by exists n.
  - destruct (H1 Hk eq_refl) as (n & Hn & Hd & ->). by exists n.
Qed.

Lemma deepest_contents n k : stored s n -> deepest s n k ->
  contents db !! k = if bool_decide (node_key n = k) then value n else None.
Proof.
  intros Hn [Hd1 Hd2]. rewrite lookup_contents. case_bool_decide as E; [by rewrite <- E, Hn|].
  destruct (db !! k) as [m|] eqn:Em; [exfalso|done]. destruct (stored_lookup s Hwf _ _ Em) as [Hm <-].
  apply E. apply (anti_symm prefix); [done|]. by apply Hd2.
Qed.
Lemma deepest_no_child x n k : stored s n -> (exists b, x = to_proof_node b n) -> key_ok k -> deepest s n k -> node_key n <> k ->
  match pn_child_key x k with Panic => False | Ok ck => is_prefix ck k = false | Err _ => True end.
Proof.
  intros Hn [b ->] Hk [Hd1 Hd2] Hne. set (x := to_proof_node b n). pose proof (wf_node _ _ Hwf _ _ Hn) as Wn. rewrite pn_child_key_eq.
  destruct (pn_child_cases x k (nw_length _ _ Wn) Hk) as [(e & -> & _)|(i & t & c & Ek & Hc & ->)]; [done|].
  destruct (_ <? _)%nat; [done|]. apply bool_decide_eq_false_2. intros Hpre. cbn in Hpre, Hc.
  destruct (wf_closed _ _ Hwf _ _ _ _ Hn Hc eq_refl) as [m Hm]. destruct (stored_lookup s Hwf _ _ Hm) as [Hms Emk].
  rewrite <- Emk in Hpre. specialize (Hd2 m Hms Hpre). rewrite Emk in Hd2. destruct (entry_suffix Hwf _ _ _ _ Hn Hc) as [u Eu].
  rewrite Eu in Hd2. by apply not_prefix_longer in Hd2.
Qed.

(** What is left to do fits: every request has its node, and the value of every node
    that is requested is still to be read. *)
Record pending (reqs : list (key * key)) (ns : list TrieProofNode) : Prop := {
  pe_sorted : StronglySorted (cmp_le request_cmp) reqs;
  pe_nodes : StronglySorted pre ns;
  pe_sub : forall x, x ∈ ns -> x ∈ l;
  pe_req : forall a, a ∈ reqs -> a.2 ∈ ks /\ a = request a.2 /\ exists x, x ∈ ns /\ pn_key x = a.1;
  pe_node : forall x, x ∈ ns -> pn_key x ∈ ks -> (pn_key x, pn_key x) ∈ reqs;
  pe_NoDup : NoDup reqs.*2;
}.

Lemma pending_tail reqs x ns : pending reqs (x :: ns) -> (forall a, a ∈ reqs -> a.1 <> pn_key x) -> pending reqs ns.
Proof.
  intros [H1 H2 H3 H4 H5 H6] Hne. split; [done|by inversion H2|set_solver| |set_solver|done].
  intros a Ha. destruct (H4 a Ha) as (Hk & E & y & [->|Hy]%elem_of_cons & Ey); [by destruct (Hne a Ha)|eauto].
Qed.
(** The first node comes first among the nodes of the requests. *)
Lemma pending_first a reqs x ns : pending (a :: reqs) (x :: ns) -> post_cmp a.1 (pn_key x) <> Lt.
Proof.
  intros [_ H2 _ H4 _ _] Hlt. destruct (H4 a ltac:(set_solver)) as (_ & _ & y & Hy & Ey). rewrite <- Ey in Hlt.
  apply elem_of_cons in Hy as [->|Hy]; [by rewrite post_cmp_refl in Hlt|].
  inversion H2 as [|? ? _ H]; subst. rewrite Forall_forall in H. apply (before_irrefl (pn_key x)). by etrans; [apply (H y Hy)|].
Qed.
(** Where the first request is for a later node, no request is for the first. *)
Lemma pending_skip a reqs x ns : pending (a :: reqs) (x :: ns) -> post_cmp a.1 (pn_key x) = Gt ->
  forall b, b ∈ a :: reqs -> b.1 <> pn_key x.
Proof.
  intros [H1 _ _ _ _ _] Hgt b Hb E. apply elem_of_cons in Hb as [->|Hb]; [by rewrite E, post_cmp_refl in Hgt|].
  inversion H1 as [|? ? _ H]; subst. rewrite Forall_forall in H. apply (H b Hb). unfold request_cmp. by rewrite E, Hgt.
Qed.
(** After the request for the value of a node, none is for that node. *)
Lemma pending_exact k reqs x ns : pending ((pn_key x, k) :: reqs) (x :: ns) -> pn_key x = k -> pending reqs ns.
Proof.
  intros Hpe E. pose proof Hpe as [H1 H2 H3 H4 H5 H6]. inversion H1 as [|? ? H1' Hle]; subst. cbn in H6. apply NoDup_cons in H6 as [Hk H6].
  assert (Hne : forall b, b ∈ reqs -> b.1 <> pn_key x).
  { intros b Hb Eb. destruct (H4 b ltac:(set_solver)) as (Hbk & Erq & _). destruct (request_deepest _ Hbk) as (n & Hn & [Hd _] & En).
    rewrite Forall_forall in Hle. apply (Hle b Hb). unfold request_cmp. cbn. rewrite Eb, post_cmp_refl.
    apply before_gt, before_prefix; [by rewrite <- Eb, Erq, En|]. intros Ek. apply Hk. rewrite Ek. by apply list_elem_of_fmap_2. }
  split; [done|by inversion H2|set_solver| | |done].
  - intros b Hb. destruct (H4 b ltac:(set_solver)) as (Hbk & Erq & y & Hy & Ey). split; [done|]. split; [done|].
    apply elem_of_cons in Hy as [->|Hy]; [by destruct (Hne b Hb)|eauto].
  - intros y Hy Hyk. pose proof (H5 y ltac:(set_solver) Hyk) as [Ey|?]%elem_of_cons; [|done]. exfalso. injection Ey as Ey _.
    inversion H2 as [|? ? _ H]; subst. rewrite Forall_forall in H. specialize (H y Hy). unfold pre in H. rewrite Ey in H. by apply before_irrefl in H.
Qed.
(** After a request for a missing key, the node stays. *)
Lemma pending_missing a reqs ns : pending (a :: reqs) ns -> a.1 <> a.2 -> pending reqs ns.
Proof.
  intros [H1 H2 H3 H4 H5 H6] Hne. cbn in H6. apply NoDup_cons in H6 as [_ H6].
  split; [by inversion H1|done|done| | |done].
  - intros b Hb. apply H4. set_solver.
  - intros y Hy Hyk. pose proof (H5 y Hy Hyk) as [Ey|?]%elem_of_cons; [|done]. destruct Hne. by rewrite <- Ey.
Qed.

Lemma read_value x n : stored s n -> x = to_proof_node (bool_decide (node_key n ∈ ks)) n -> pn_key x ∈ ks -> into_value x = Some (value n).
Proof.
  intros _ -> Hk. cbn in Hk. unfold into_value, to_proof_node. cbn. rewrite bool_decide_eq_true_2 by done.
  by destruct (has_children n), (value n).
Qed.

Definition values_result (reqs : list (key * key)) (ns : list TrieProofNode) (res : gmap key (option (list Z)))
  (o : outcome ProofError (gmap key (option (list Z)))) : Prop :=
  if existsb unrequested ns then o = Err ValueNotRequested
  else exists res', o = Ok res' /\ forall k, res' !! k = if decide (k ∈ reqs.*2) then Some (contents db !! k) else res !! k.

Lemma values_result_cons a reqs ns res o : a.2 ∉ reqs.*2 ->
  values_result reqs ns (<[a.2 := contents db !! a.2]> res) o -> values_result (a :: reqs) ns res o.
Proof.
  intros Ha. unfold values_result. destruct (existsb unrequested ns); [done|]. intros (res' & -> & H). exists res'. split; [done|].
  intros k. rewrite H. cbn. destruct (decide (k = a.2)) as [->|Hne].
  - rewrite decide_False, decide_True by set_solver. by rewrite lookup_insert_eq.
  - rewrite lookup_insert_ne by done. destruct (decide (k ∈ reqs.*2)); [by rewrite decide_True by set_solver|by rewrite decide_False by set_solver].
Qed.

Lemma values_loop_honest fuel : forall reqs ns res, (length reqs + length ns < fuel)%nat -> pending reqs ns ->
  (forall k, k ∈ reqs.*2 -> res !! k = None) -> values_result reqs ns res (values_loop fuel reqs ns res).
Proof.
  induction fuel as [|fuel IH]; intros reqs ns res Hf Hpe Hres; [lia|]. cbn [values_loop].
  assert (Hskip : forall x ns', ns = x :: ns' -> (forall a, a ∈ reqs -> a.1 <> pn_key x) -> values_result reqs ns res
    (err_if (match into_value x with Some (Some _) => true | _ => false end) ValueNotRequested;; values_loop fuel reqs ns' res)).
  { intros x ns' -> Hne. assert (Hx : pn_key x ∉ ks). { intros Hx. by apply (Hne _ (pe_node _ _ Hpe x ltac:(set_solver) Hx)). }
    pose proof (IH reqs ns' res ltac:(cbn in Hf; lia) (pending_tail _ _ _ Hpe Hne) Hres) as Hrec.
    unfold values_result in *. cbn [existsb]. unfold unrequested at 1. rewrite bool_decide_eq_false_2 by done. cbn [negb andb].
    by destruct (into_value x) as [[]|]. }
  destruct reqs as [|[k0 k] reqs], ns as [|x ns]; [exists res; cbn; set_solver|apply Hskip; [done|set_solver]| |].
  { by destruct (pe_req _ _ Hpe (k0, k) ltac:(set_solver)) as (_ & _ & x & ?%not_elem_of_nil & _). }
  destruct (post_cmp k0 (pn_key x)) eqn:Ec; [|by apply (pending_first _ _ _ _ Hpe) in Ec|by apply Hskip; [|by eapply pending_skip]]. clear Hskip.
  apply post_cmp_eq in Ec as ->. destruct (pe_req _ _ Hpe (pn_key x, k) ltac:(set_solver)) as (Hk & Erq & _). cbn in Hk, Erq.
  destruct (request_deepest k Hk) as (n & Hn & Hd & En). rewrite <- Erq in En. cbn in En.
  destruct (Hmade x (pe_sub _ _ Hpe x ltac:(set_solver))) as (n' & Hn' & Ex).
  assert (n' = n) as -> by (rewrite Ex in En; cbn in En; unfold stored in *; congruence).
  assert (Hresk : res !! k = None) by (apply Hres; set_solver). pose proof (pe_NoDup _ _ Hpe) as Hnd. cbn in Hnd. apply NoDup_cons in Hnd as [Hknew _].
  pose proof (deepest_contents n k Hn Hd) as Hct. unfold is_prefix. rewrite (bool_decide_eq_true_2 (pn_key x `prefix_of` k)) by (rewrite En; apply Hd).
  cbn [negb err_if mbind outcome_bind]. apply (values_result_cons (pn_key x, k)); [done|]. cbn [snd]. rewrite Hct, <- En. clear Hct.
  assert (Hres' : forall ov k', k' ∈ reqs.*2 -> <[k := ov]> res !! k' = None).
  { intros ov k' Hk'. rewrite lookup_insert_ne by (by intros ->). apply Hres. set_solver. }
  destruct (bool_decide_reflect (pn_key x = k)) as [Ek|Ek].
  - rewrite (read_value x n Hn Ex) by (by rewrite Ek). cbn [or_err mbind outcome_bind]. rewrite Ek, bool_decide_eq_true_2 by done.
    pose proof (IH reqs ns (<[k := value n]> res) ltac:(cbn in Hf; lia) (pending_exact _ _ _ _ Hpe Ek) (Hres' _)) as Hrec.
    unfold values_result in *. cbn [existsb]. unfold unrequested at 1. rewrite Ek, bool_decide_eq_true_2 by done. exact Hrec.
  - pose proof (deepest_no_child x n k Hn ltac:(eauto) (proj1 (Forall_forall _ _) Hok k Hk) Hd ltac:(congruence)) as Hno.
    rewrite (bool_decide_eq_true_2 (res !! k = None)) by done.
    pose proof (IH reqs (x :: ns) (<[k := None]> res) ltac:(cbn in *; lia) (pending_missing _ _ _ Hpe Ek) (Hres' _)) as Hrec.
    destruct (pn_child_key x k) as [ck|e|]; [|done|done]. unfold err_if, is_prefix in *. by rewrite Hno.
Qed.
End Values.

Lemma request_le a b : cmp_le request_cmp a b <-> before a.1 b.1 \/ (a.1 = b.1 /\ (a.2 = b.2 \/ before a.2 b.2)).
Proof.
  unfold cmp_le, request_cmp, before. destruct (post_cmp a.1 b.1) eqn:E1.
  - apply post_cmp_eq in E1. destruct (post_cmp a.2 b.2) eqn:E2.
    + apply post_cmp_eq in E2. split; [auto|done].
    + split; [auto|done].
    + split; [done|]. intros [?|[_ [E|?]]]; [done| |done]. by rewrite E, post_cmp_refl in E2.
  - split; [auto|done].
  - split; [done|]. intros [?|[E _]]; [done|]. by rewrite E, post_cmp_refl in E1.
Qed.
Lemma requests_sorted l : StronglySorted (cmp_le request_cmp) (sort_by request_cmp l).
Proof.
  apply sort_by_sorted.
  - intros a b c. rewrite !request_le. intros [H1|[E1 H1]] [H2|[E2 H2]].
    + left. by etrans.
    + left. by rewrite <- E2.
    + left. by rewrite E1.
    + right. split; [congruence|]. destruct H1 as [->|H1], H2 as [<-|H2]; auto. right. by etrans.
  - intros a b H. rewrite request_le. unfold request_cmp in H. destruct (post_cmp a.1 b.1) eqn:E1; [|done|].
    + apply post_cmp_eq in E1. apply before_gt in H. auto.
    + apply before_gt in E1. auto.
Qed.

(** Whether a requested key lies below a leaf that is not requested. *)
Definition below_leaf (ks : list key) : Prop :=
  exists q n k, db !! q = Some n /\ has_children n = false /\ is_Some (value n) /\ k ∈ ks /\ q `prefix_of` k /\ q ∉ ks.

Section Honest.
Context (ks : list key) (mp : gmap key key) (l : list TrieProofNode) (root : TrieNode) (h : Z).
Context (Hr : db !! [] = Some root) (Hh : hash root = Some h) (Hp : proves s ks mp) (Hok : Forall key_ok ks) (Hnd : NoDup ks).
Context (Hsort : StronglySorted pre l) (Hne : l <> []).
Context (Hmade : forall x, x ∈ l -> exists n, stored s n /\ x = to_proof_node (bool_decide (node_key n ∈ ks)) n).
Context (Habove : forall n, stored s n -> (exists x, x ∈ l /\ node_key n `prefix_of` pn_key x) \/ (exists k, k ∈ ks /\ node_key n `prefix_of` k) ->
  to_proof_node (bool_decide (node_key n ∈ ks)) n ∈ l).
Context (Hunder : forall x, x ∈ l -> pn_key x = [] \/ exists k, k ∈ ks /\ pn_key x `prefix_of` k).

Lemma honest_verifies {E : Type} : verify (E := E) (mk_proof l mp) h = Ok true.
Proof.
  apply (verify_sorted l Hsort) with root; [|intros x n Hx Hn Hpre|done..].
  - intros x (n & Hn & ->)%Hmade. exists n. split; eauto.
  - eexists. split; [apply Habove; eauto|]. split; eauto.
Qed.

Lemma unrequested_below x : x ∈ l -> unrequested ks x = true -> below_leaf ks.
Proof.
  intros Hx Hu. destruct (Hmade x Hx) as (n & Hn & Ex). unfold unrequested in Hu. apply andb_true_iff in Hu as [Hk Hv].
  apply negb_true_iff, bool_decide_eq_false in Hk. rewrite Ex in Hk, Hv. cbn in Hk. rewrite bool_decide_eq_false_2 in Hv by done.
  destruct (Hunder x Hx) as [E|(k & Hkk & Hpre)].
  - exfalso. rewrite Ex in E. cbn in E. unfold stored in Hn. rewrite E, Hr in Hn. injection Hn as ->.
    destruct (wf_root _ _ Hwf) as (root' & Hr' & Hvr & _). rewrite Hr in Hr'. injection Hr' as <-. unfold into_value in Hv. cbn in Hv. rewrite Hvr in Hv.
    by destruct (has_children n).
  - rewrite Ex in Hpre. cbn in Hpre. exists (node_key n), n, k. unfold into_value in Hv. cbn in Hv.
    destruct (has_children n), (value n); try done; repeat split; eauto.
Qed.
Lemma below_unrequested : below_leaf ks -> existsb (unrequested ks) l = true.
Proof.
  intros (q & n & k & Hn & Hc & [v Hv] & Hk & Hpre & Hq). destruct (stored_lookup s Hwf _ _ Hn) as [Hs Eq].
  apply existsb_exists. exists (to_proof_node (bool_decide (node_key n ∈ ks)) n). split.
  - apply list_elem_of_In, Habove; [done|]. right. exists k. by rewrite Eq.
  - unfold unrequested, into_value. cbn. by rewrite Eq, bool_decide_eq_false_2, Hc, Hv.
Qed.

Lemma honest_values :
  (below_leaf ks -> verify_values (mk_proof l mp) h ks = Err ValueNotRequested) /\
  (~ below_leaf ks -> exists res, verify_values (mk_proof l mp) h ks = Ok res /\
     forall k, res !! k = if decide (k ∈ ks) then Some (contents db !! k) else None).
Proof.
  unfold verify_values. rewrite honest_verifies. cbn [mbind outcome_bind negb err_if nodes missing_proven_by].
  set (reqs := sort_by _ _). assert (Hreqs : reqs ≡ₚ map (request mp) ks) by apply sort_by_perm.
  assert (H2 : reqs.*2 ≡ₚ ks). { rewrite Hreqs, <- list_fmap_compose. cbn. by rewrite list_fmap_id. }
  assert (Hpe : pending ks mp l reqs l).
  { split; [apply requests_sorted|done|done| | |by rewrite H2].
    - intros a. rewrite Hreqs. intros (k & -> & Hk)%list_elem_of_fmap. split; [done|]. split; [done|].
      destruct (request_deepest ks mp Hp k Hk) as (n & Hn & [Hd _] & ->). eexists. split; [apply Habove; eauto|done].
    - intros x Hx Hk. rewrite Hreqs. destruct (Hmade x Hx) as (n & Hn & Ex). apply list_elem_of_fmap. exists (pn_key x).
      split; [|done]. unfold request. destruct (Hp (pn_key x)) as [_ H]. rewrite H; [done|]. right. rewrite Ex. cbn. unfold stored in Hn. eauto. }
  pose proof (values_loop_honest ks mp Hp Hok l Hmade (S (length reqs + length l)) reqs l ∅ ltac:(lia) Hpe (fun k _ => lookup_empty k)) as Hres.
  unfold values_result in Hres. split.
  - intros Hb. by rewrite (below_unrequested Hb) in Hres.
  - intros Hb. destruct (existsb (unrequested ks) l) eqn:Ex.
    + exfalso. apply existsb_exists in Ex as (x & Hx%list_elem_of_In & Hu). by apply Hb, (unrequested_below x).
    + destruct Hres as (res & -> & Hres). exists res. split; [done|]. intros k. rewrite Hres, lookup_empty.
      destruct (decide (k ∈ ks)) as [Hk|Hk]; [rewrite decide_True by (by rewrite H2)|rewrite decide_False by (by rewrite H2)]; done.
Qed.
End Honest.
End Round.

Section Claim.
Context `{BEnv : BlockEnv}.

(** What [get_proof] returns has the nodes above the requested keys, sorted. *)
Lemma get_proof_nodes s ks : trie_inv None None (table s) -> NoDup ks -> Forall key_ok ks ->
  exists l mp, get_proof ks s = (Ok (mk_proof l mp), s) /\ l <> [] /\ proves s ks mp /\ StronglySorted pre l /\
    (forall x, x ∈ l -> exists n, stored s n /\ x = to_proof_node (bool_decide (node_key n ∈ ks)) n) /\
    (forall n, stored s n -> (exists x, x ∈ l /\ node_key n `prefix_of` pn_key x) \/ (exists k, k ∈ ks /\ node_key n `prefix_of` k) ->
       to_proof_node (bool_decide (node_key n ∈ ks)) n ∈ l) /\
    (forall x, x ∈ l -> pn_key x = [] \/ exists k, k ∈ ks /\ pn_key x `prefix_of` k).
Proof.
  intros Hinv Hnd Hok. pose proof (ti_wf _ _ _ Hinv) as Hwf. destruct (wf_root _ _ Hwf) as (root & Hr & _).
  destruct (stored_lookup s Hwf _ _ Hr) as [Hrs Ek].
  assert (Hin : forall ks ns mp x, x ∈ nodes (proof_of ks ns mp) <-> exists n, n ∈ ns /\ x = to_proof_node (bool_decide (node_key n ∈ ks)) n).
  { intros ks' ns mp x. unfold proof_of. cbn. rewrite sort_by_perm, list_elem_of_fmap. split; intros (n & H1 & H2); by exists n. }
  destruct (decide (ks = [])) as [->|Hne].
  - exists [to_proof_node false root], ∅. split.
    { apply wp_run. unfold get_proof, get_root. wp_step. apply wp_gets. rewrite Hr. cbn [fmap option_fmap option_map].
      rewrite (set_key_wf _ _ _ _ Hwf Hr). wp_step. apply wp_expect with root; [done|]. by wp_step. }
    split; [done|]. split; [intros k; split; [by intros ?%not_elem_of_nil|intros _; apply lookup_empty]|].
    split; [repeat constructor|]. split; [|split].
    + intros x ->%list_elem_of_singleton. by exists root.
    + intros n Hn [(x & ->%list_elem_of_singleton & Hpre)|(k & ?%not_elem_of_nil & _)]; [|done]. cbn in Hpre. rewrite Ek in Hpre.
      apply prefix_nil_inv in Hpre. unfold stored in Hn. rewrite Hpre, Hr in Hn. injection Hn as ->. apply list_elem_of_here.
    + intros x ->%list_elem_of_singleton. by left.
  - destruct (get_proof_run s Hwf ks Hinv Hne Hnd Hok) as (ns & mp & Hrun & [Hs Hnn Hall] & Hp).
    exists (nodes (proof_of ks ns mp)), mp. split; [exact Hrun|].
    assert (Habove : forall n, stored s n -> (exists k, k ∈ ks /\ node_key n `prefix_of` k) ->
      to_proof_node (bool_decide (node_key n ∈ ks)) n ∈ nodes (proof_of ks ns mp)).
    { intros n Hn Hk. apply Hin. exists n. split; [|done]. by apply Hall. }
    split; [|split; [done|split; [|split; [|split]]]].
    + destruct ks as [|k ks]; [done|]. intros E. apply (not_elem_of_nil (to_proof_node (bool_decide (node_key root ∈ k :: ks)) root)).
      rewrite <- E. apply Habove; [done|]. exists k. split; [apply list_elem_of_here|]. rewrite Ek. apply prefix_nil.
    + apply (sorted_before pn_key). rewrite <- list_fmap_compose. exact Hnn.
    + intros x (n & Hn & ->)%Hin. exists n. split; [by apply Hall in Hn as [? _]|done].
    + intros n Hn [(x & (m & Hm & ->)%Hin & Hpre)|Hk]; [|by apply Habove]. apply Habove; [done|].
      apply Hall in Hm as [_ (k & Hk & Hmk)]. exists k. split; [done|by etrans].
    + intros x (n & Hn & ->)%Hin. right. by apply Hall in Hn as [_ ?].
Qed.

(** C14: proofs round-trip: on a complete trie whose root hash is known, [get_proof]
    returns, for any distinct keys, present or not, a proof that [verify] accepts against
    the root hash; [verify_values] reads off it the trie's value for every requested key,
    unless a requested key lies below a leaf that was not requested, in which case it
    refuses the proof because the leaf's node carries its value. *)
Theorem get_proof_round_trip s h ks :
  trie_inv None None (table s) -> root_hash_assert s = (Ok h, s) -> NoDup ks -> Forall key_ok ks ->
  exists proof, get_proof ks s = (Ok proof, s) /\ verify (E := ProofError) proof h = Ok true /\
    (~ below_leaf s ks -> exists res, verify_values proof h ks = Ok res /\
       forall k, res !! k = if decide (k ∈ ks) then Some (contents (table s) !! k) else None) /\
    (below_leaf s ks -> verify_values proof h ks = Err ValueNotRequested).
Proof.
  intros Hinv (root & Hr & Hh)%root_hash_assert_ok Hnd Hok; [|done]. pose proof (ti_wf _ _ _ Hinv) as Hwf.
  pose proof (ti_hashes _ _ _ Hinv) as Hhs.
  assert (Hroot : exists root, table s !! [] = Some root /\ can_hash root = true).
  { exists root. split; [done|]. by apply hash_content in Hh as [? _]. }
  destruct (get_proof_nodes s ks Hinv Hnd Hok) as (l & mp & Hrun & Hne & Hp & Hs & Hmade & Habove & Hunder).
  exists (mk_proof l mp). split; [done|].
  destruct (honest_values s Hwf Hhs Hroot ks mp l root h) as [H1 H2]; try done.
  split; [|done]. by eapply honest_verifies.
Qed.
End Claim.
