(* ===== verification/TrieChunk.v ===== *)
(** * Chunks of the trie

    The parts of [primitives/trie/src/trie.rs] that send and receive a trie in chunks,
    with [primitives/src/trie/trie_chunk.rs]: the items from a key on with a proof for
    the last of them, the stumps that stand for what is still missing, pushing a chunk
    onto an incomplete trie and removing the end of a trie again.  A stack is a list
    with its top first. *)

From S2P Require Import Prelude Coin AccountTypes Codec TxContent Block KeyNibbles TrieNode.
From S2P Require Import Trie TrieProof.

Record TrieItem := mk_item { item_key : key; item_value : list Z }.
Record TrieChunk := mk_chunk { end_key : option key; items : list TrieItem; chunk_proof : TrieProof }.
Inductive TrieChunkPushResult := Applied | Ignored.

Section Chunks.
Context `{BEnv : BlockEnv}.

(** ** Making a chunk *)

(** The child for an entry, unless it is a stump or ends before [start]. *)
Definition chunk_child (start : key) (missing_range : range) (item : TrieNode) (c : TrieNodeChild) : TrieM (list TrieNode) :=
  match entry_key c (node_key item) missing_range with
  | Ok combined =>
      if is_prefix combined start || key_le start combined then
        node ← get_node combined;
        node ← expect node;
        mret [node]
      else mret []
  | Err ChildIsStump => mret []
  | _ => panic
  end.
(** Every turn pops a node, none twice. *)
Fixpoint chunk_loop (fuel : nat) (start : key) (size : nat) (missing_range : range) (stack chunk : list TrieNode)
  : TrieM (list TrieNode) :=
  match fuel with
  | O => panic
  | S fuel =>
      match stack with
      | [] => mret chunk
      | item :: stack =>
          children ← mapM (chunk_child start missing_range item) (iter_children item);
          let stack := concat children ++ stack in
          if has_value item then
            let chunk :=
              if (length start <? length (node_key item))%nat || key_le start (node_key item)
              then chunk ++ [item] else chunk in
            if (size <=? length chunk)%nat then mret chunk
            else chunk_loop fuel start size missing_range stack chunk
          else chunk_loop fuel start size missing_range stack chunk
      end
  end.
Definition get_trie_chunk (start : key) (size : nat) : TrieM (list TrieNode) :=
  if (size =? 0)%nat then mret []
  else
    root ← get_root;
    root ← expect root;
    rd ← expect (root_data root);
    fuel ← gets (fun s => S (base.size (table s)));
    chunk_loop fuel start size (incomplete rd) [root] [].

(** Result of [child.key(..).expect(..)]. *)
Definition expect_key (o : outcome MerkleRadixTrieError key) : TrieM key := unwrap_result o.
Definition last_entry (cs : list (option TrieNodeChild)) : option TrieNodeChild := last (omap id cs).

(** The node where the way to the predecessor of [k] branches off, and whether it is
    found at the right below it. *)
Fixpoint predecessor_loop (fuel : nat) (k : key) (missing_range : range) (cur_node : TrieNode) (branch : option (key * bool))
  : TrieM (option (key * bool)) :=
  match fuel with
  | O => panic
  | S fuel =>
      if key_le k (node_key cur_node) then mret branch
      else
        let branch := if has_value cur_node then Some (node_key cur_node, false) else branch in
        let idx := match child_index cur_node k with Ok i => i | _ => 16%nat end in
        branch ← match last_entry (take idx (children cur_node)) with
                 | Some c => ck ← expect_key (entry_key c (node_key cur_node) missing_range); mret (Some (ck, true))
                 | None => mret branch
                 end;
        if (idx =? 16)%nat then mret branch
        else
          entry ← lift (array_get (children cur_node) idx);
          match entry with
          | None => mret branch
          | Some c =>
              match entry_key c (node_key cur_node) missing_range with
              | Ok ck =>
                  node ← get_node ck;
                  node ← expect node;
                  predecessor_loop fuel k missing_range node branch
              | Err _ => mret branch
              | Panic => panic
              end
          end
  end.
Fixpoint rightmost (fuel : nat) (missing_range : range) (cur_node : TrieNode) : TrieM TrieNode :=
  match fuel with
  | O => panic
  | S fuel =>
      match last_entry (children cur_node) with
      | None => mret cur_node
      | Some c =>
          ck ← expect_key (entry_key c (node_key cur_node) missing_range);
          node ← get_node ck;
          node ← expect node;
          rightmost fuel missing_range node
      end
  end.
Definition get_predecessor (k : key) : TrieM (option key) :=
  root ← get_root;
  root ← expect root;
  rd ← expect (root_data root);
  branch ← predecessor_loop depth_fuel k (incomplete rd) root None;
  match branch with
  | None => mret None
  | Some (k, need_to_go_down) =>
      node ← get_node k;
      node ← expect node;
      node ← (if (need_to_go_down : bool) then rightmost depth_fuel (incomplete rd) node else mret node);
      assert_that (has_value node);;
      mret (Some (node_key node))
  end.

Definition to_item (node : TrieNode) : TrieM TrieItem :=
  v ← expect (value node);
  mret (mk_item (node_key node) v).
Definition get_chunk_with_proof (start : key) (limit : nat) : TrieM TrieChunk :=
  chunk ← get_trie_chunk start (limit + 1);
  let full := (length chunk =? limit + 1)%nat in
  let first_not_included := if full then node_key <$> last chunk else None in
  let chunk := if full then removelast chunk else chunk in
  items ← mapM to_item chunk;
  proof ← match last items with
          | Some item =>
              r ← catch (get_proof [item_key item]);
              unwrap_result r
          | None =>
              pred ← get_predecessor start;
              match pred with
              | Some pred =>
                  r ← catch (get_proof [pred]);
                  unwrap_result r
              | None =>
                  root ← get_root;
                  root ← expect root;
                  mret (mk_proof [to_proof_node false root] ∅)
              end
          end;
  end_ ← match first_not_included with
         | None => mret None
         | Some k =>
             first ← expect (head (nodes proof));
             let max_len := (length (lcp (pn_key first) k) + 1)%nat in
             mret (Some (take (Nat.min (length k) max_len) k))
         end;
  mret (mk_chunk end_ items proof).

(** ** Stumps *)

(** The entries from [prune_from] on and a stump on the path are dropped. *)
Definition prune (start : key) (missing_range : range) (cur_node : TrieNode) : TrieM TrieNode :=
  let cur_digit := start !! length (node_key cur_node) in
  let is_last_digit := (length start <=? length (node_key cur_node) + 1)%nat in
  let prune_from := (default 0 cur_digit + if is_last_digit then 0 else 1)%nat in
  assert_that (bool_decide (node_key cur_node = []) || bool_decide (is_Some cur_digit));;
  assert_that (forallb (fun o => match o with Some c => is_stump c (node_key cur_node) missing_range | None => true end)
                 (drop prune_from (children cur_node)));;
  let cs := take prune_from (children cur_node) ++ replicate (16 - prune_from) None in
  let cs :=
    match cur_digit with
    | Some digit =>
        match cs !! digit with
        | Some (Some c) => if is_stump c (node_key cur_node) missing_range then <[digit := None]> cs else cs
        | _ => cs
        end
    | None => cs
    end in
  mret (set_children cur_node cs).
Fixpoint clear_down (fuel : nat) (start : key) (missing_range : range) (cur_node : TrieNode) (path : list TrieNode)
  (count_updates : CountUpdates) : TrieM (list TrieNode * CountUpdates) :=
  match fuel with
  | O => panic
  | S fuel =>
      let prev_kind := kind cur_node in
      cur_node ← prune start missing_range cur_node;
      let count_updates := apply_update count_updates prev_kind (kind cur_node) in
      next ← (if (length (node_key cur_node) =? length start)%nat then mret None
              else match child_key cur_node start missing_range with
                   | Ok ck => mret (if is_prefix ck start then Some ck else None)
                   | Err _ => mret None
                   | Panic => panic
                   end);
      match next with
      | Some ck =>
          node ← get_node ck;
          node ← expect node;
          clear_down fuel start missing_range node (cur_node :: path) count_updates
      | None => mret (cur_node :: path, count_updates)
      end
  end.
(** Back up from [node] along the path above it: nodes that lost all their children
    go, those with a single child are merged into it. *)
Fixpoint clear_up (node : TrieNode) (path : list TrieNode) (changed_child : option key) (count_updates : CountUpdates)
  : TrieM unit :=
  node ← match changed_child with
         | Some ck => unwrap_result (put_child node ck 0)
         | None => mret node
         end;
  match path with
  | parent :: path =>
      if negb (has_value node) && (length (iter_children node) <=? 1)%nat then
        remove_node (node_key node) Unchanged;;
        let count_updates := apply_update count_updates (kind node) None in
        let prev_parent_kind := kind parent in
        parent ← (if has_children node then replace_with_only_child parent node
                  else unwrap_result (remove_child parent (node_key node)));
        clear_up parent path None (apply_update count_updates prev_parent_kind (kind parent))
      else
        put_node node Unchanged;;
        clear_up parent path (Some (node_key node)) count_updates
  | [] =>
      rd ← expect (root_data node);
      put_node (set_root_data node (Some (update_root_data count_updates rd))) Unchanged
  end.
Definition clear_stumps (start : key) : TrieM unit :=
  root ← get_root;
  root ← expect root;
  rd ← expect (root_data root);
  '(path, count_updates) ← clear_down depth_fuel start (incomplete rd) root [] no_counts;
  match path with
  | [] => mret tt
  | node :: path => clear_up node path None count_updates
  end.

(** The entries of the proof's node from [start_idx] on, where the node has none. *)
Definition take_stumps (start : key) (cur_proof : TrieProofNode) (cur_node : TrieNode) : TrieM TrieNode :=
  let len := length (node_key cur_node) in
  let start_idx :=
    match start !! len with Some x => (x + if (len + 1 <? length start)%nat then 1 else 0)%nat | None => 0%nat end in
  assert_that (forallb (fun o => bool_decide (o = None)) (drop start_idx (children cur_node)));;
  mret (set_children cur_node (take start_idx (children cur_node) ++ drop start_idx (pn_children cur_proof))).
(** The node of the proof is split off where the trie does not have it. *)
Definition split_off (cur_proof : TrieProofNode) (cur_node : TrieNode) (count_updates : CountUpdates)
  : TrieM (TrieNode * CountUpdates) :=
  if bool_decide (node_key cur_node = pn_key cur_proof) then mret (cur_node, count_updates)
  else
    fail_if (negb (is_prefix (pn_key cur_proof) (node_key cur_node))) (InvalidChunk ProofMissesNodes);;
    new_node ← unwrap_result (put_child_no_hash (new_empty (pn_key cur_proof)) (node_key cur_node));
    mret (new_node, mk_counts (cu_branches count_updates + 1) (cu_hybrids count_updates) (cu_leaves count_updates)).
Fixpoint mark_loop (start : key) (cur_proof : TrieProofNode) (rest : list TrieProofNode) (cur_node : TrieNode)
  (root_path : list TrieNode) (count_updates : CountUpdates) : TrieM (list TrieNode * CountUpdates) :=
  '(cur_node, count_updates) ← split_off cur_proof cur_node count_updates;
  let prev_kind := kind cur_node in
  cur_node ← take_stumps start cur_proof cur_node;
  let count_updates := apply_update count_updates prev_kind (kind cur_node) in
  put_node cur_node Unchanged;;
  match rest with
  | [] => mret (cur_node :: root_path, count_updates)
  | cur_proof :: rest =>
      match child_key cur_node start (Some start) with
      | Err _ => mret (cur_node :: root_path, count_updates)
      | Ok ck =>
          child_node ← get_node ck;
          child_node ← expect child_node;
          mark_loop start cur_proof rest child_node (cur_node :: root_path) count_updates
      | Panic => panic
      end
  end.
Definition mark_stumps (start : key) (last_item_proof : list TrieProofNode) : TrieM unit :=
  root ← get_root;
  root ← expect root;
  match rev last_item_proof with
  | [] => fail (InvalidChunk ProofHasNoRoot)
  | cur_proof :: rest =>
      '(root_path, count_updates) ← mark_loop start cur_proof rest root [] no_counts;
      update_keys root_path count_updates
  end.

(** ** Pushing a chunk *)

(** A child of a node of the proof that is before the end and after the last item. *)
Definition skips_child (end_range : range) (last_item_key : key) (node : TrieProofNode) : bool :=
  existsb (fun c => match entry_key c (pn_key node) end_range with
                    | Ok k => key_lt last_item_key k
                    | _ => false
                    end) (omap id (pn_children node)).
Fixpoint items_sorted (items : list TrieItem) : bool :=
  match items with
  | a :: (b :: _) as items => negb (key_le (item_key b) (item_key a)) && items_sorted items
  | _ => true
  end.
Definition check_items (start_key : key) (chunk : TrieChunk) : TrieM unit :=
  match items chunk, last (items chunk) with
  | first :: _, Some last_item =>
      fail_if (key_lt (item_key first) start_key) (InvalidChunk FirstKeyInconsistent);;
      fail_if (bool_decide (item_key first = [])) (InvalidChunk ItemKeyIsRoot);;
      fail_if (match end_key chunk with Some end_key => key_le end_key (item_key last_item) | None => false end)
        (InvalidChunk LastKeyInconsistent);;
      fail_if (existsb (skips_child (end_key chunk) (item_key last_item)) (nodes (chunk_proof chunk)))
        (InvalidChunk FoundStumps);;
      fail_if (negb (items_sorted (items chunk))) (InvalidChunk ItemsNotSorted)
  | _, _ => mret tt
  end.
(** The end is one nibble below a node of the proof. *)
Definition check_end (chunk : TrieChunk) : TrieM unit :=
  if_some (end_key chunk) (fun end_key =>
    let first := head (nodes (chunk_proof chunk)) in
    let is_valid_end :=
      match first with Some n => bool_decide (pn_key n = end_key) | None => false end
      || existsb (fun n => (length (pn_key n) + 1 =? length end_key)%nat && is_prefix (pn_key n) end_key)
           (nodes (chunk_proof chunk)) in
    fail_if (negb is_valid_end) (InvalidChunk InvalidEndKey);;
    fail_if (match first with Some n => key_le end_key (pn_key n) | None => false end) (InvalidChunk EndKeyInconsistent)).
Fixpoint put_items (items : list TrieItem) (missing_range : range) : TrieM unit :=
  match items with
  | [] => mret tt
  | item :: items => put_raw (item_key item) (item_value item) missing_range;; put_items items missing_range
  end.
(** What changes the trie: the checks have passed. *)
Definition put_checked (start_key : key) (chunk : TrieChunk) (expected_hash : Z) : TrieM TrieChunkPushResult :=
  clear_stumps start_key;;
  put_items (items chunk) (end_key chunk);;
  if_some (end_key chunk) (fun end_key => mark_stumps end_key (nodes (chunk_proof chunk)));;
  r ← catch (update_hashes depth_fuel [] (end_key chunk));
  actual_hash ← match r with Ok h => mret h | Err _ => fail ChunkHashMismatch | Panic => panic end;
  fail_if (negb (actual_hash =? expected_hash)) ChunkHashMismatch;;
  root ← get_root;
  root ← expect root;
  rd ← expect (root_data root);
  put_node (set_root_data root (Some (mk_root_data (end_key chunk) (num_branches rd) (num_hybrids rd) (num_leaves rd)))) Unchanged;;
  mret Applied.
Definition put_chunk (start_key : key) (chunk : TrieChunk) (expected_hash : Z) : TrieM TrieChunkPushResult :=
  root ← get_root;
  root ← expect root;
  rd ← expect (root_data root);
  match incomplete rd with
  | None => fail TrieAlreadyComplete
  | Some start =>
      if negb (bool_decide (start = start_key)) then mret Ignored
      else
        fail_if (match end_key chunk with Some end_key => key_lt end_key start_key | None => false end) (InvalidChunk InvalidKeys);;
        check_items start_key chunk;;
        valid ← lift (verify (chunk_proof chunk) expected_hash);
        fail_if (negb valid) (InvalidChunk LastItemProofInvalid);;
        check_end chunk;;
        put_checked start_key chunk expected_hash
  end.

(** ** Removing the end of a trie *)

(** Every turn removes a node. *)
Fixpoint remove_subtree (fuel : nat) (missing_range : range) (stack : list key) (count_updates : CountUpdates) : TrieM CountUpdates :=
  match fuel with
  | O => panic
  | S fuel =>
      match stack with
      | [] => mret count_updates
      | k :: stack =>
          node ← get_node k;
          node ← expect node;
          let below := omap (fun c => match entry_key c (node_key node) missing_range with Ok ck => Some ck | _ => None end)
                         (iter_children node) in
          remove_node (node_key node) (old_value (value node));;
          remove_subtree fuel missing_range (rev below ++ stack) (apply_update count_updates (kind node) None)
      end
  end.
(** The entries of a node on the path: the next node of the path, if any. *)
Fixpoint remove_entries (start_key : key) (missing_range : range) (cur_key : key) (entries : list TrieNodeChild)
  (next : option key) (count_updates : CountUpdates) : TrieM (option key * CountUpdates) :=
  match entries with
  | [] => mret (next, count_updates)
  | c :: entries =>
      ck ← ok_or (checked_add cur_key (suffix c)) WrongPrefix;
      if key_lt ck start_key then
        remove_entries start_key missing_range cur_key entries (if is_prefix ck start_key then Some ck else next) count_updates
      else if negb (is_stump c cur_key missing_range) then
        fuel ← gets (fun s => S (base.size (table s)));
        count_updates ← remove_subtree fuel missing_range [ck] count_updates;
        remove_entries start_key missing_range cur_key entries next count_updates
      else remove_entries start_key missing_range cur_key entries next count_updates
  end.
Fixpoint remove_path (fuel : nat) (start_key : key) (missing_range : range) (cur_node : TrieNode) (count_updates : CountUpdates)
  : TrieM CountUpdates :=
  match fuel with
  | O => panic
  | S fuel =>
      let digit := default 0%nat (start_key !! length (node_key cur_node)) in
      '(next, count_updates) ← remove_entries start_key missing_range (node_key cur_node)
        (omap id (drop digit (children cur_node))) None count_updates;
      match next with
      | Some ck =>
          node ← get_node ck;
          node ← expect node;
          remove_path fuel start_key missing_range node count_updates
      | None => mret count_updates
      end
  end.
Definition remove_chunk (start_key : key) : TrieM unit :=
  missing_range ← get_missing_range;
  if match missing_range with Some start => key_le start start_key | None => false end then mret tt
  else
    _ ← catch (update_hashes depth_fuel [] missing_range);
    root ← get_root;
    root ← expect root;
    count_updates ← remove_path depth_fuel start_key missing_range root no_counts;
    root ← get_root;
    root ← expect root;
    rd ← expect (root_data root);
    let rd := update_root_data count_updates rd in
    put_node (set_root_data root (Some (mk_root_data (Some start_key) (num_branches rd) (num_hybrids rd) (num_leaves rd)))) Unchanged.
End Chunks.
