(* ===== verification/TrieTruncate.v ===== *)
(** * Removing the end of a trie

    [remove_chunk] on a trie whose invariant holds does not panic or fail: it removes
    the keys from the given one on and nothing else, keeps the invariant and, as the
    entries for the removed parts stay as stumps, the root hash. *)

From Stdlib Require Import Sorted.
From S2P Require Import Prelude Coin AccountTypes Codec TxContent Block KeyNibbles TrieNode.
From S2P Require Import Trie TrieInv TriePath TriePut TrieRemove TrieHash TrieSpec TrieDiff.
From S2P Require Import TrieProof TrieChunk.

Implicit Types (db : gmap key TrieNode) (r : range) (n m : TrieNode) (k p q st : key) (s : Txn).

(** ** The order of keys *)

Lemma key_lt_le a b : key_lt a b = negb (key_le b a).
Proof. unfold key_lt, key_le. rewrite (lex_antisym a b). by destruct (lex a b). Qed.
Lemma lex_refl (a : key) : lex a a = Eq.
Proof. induction a as [|x a IH]; [done|]. cbn. by rewrite Nat.compare_refl. Qed.
Lemma key_le_refl a : key_le a a = true.
Proof. unfold key_le. by rewrite lex_refl. Qed.
Lemma lex_eq (a b : key) : lex a b = Eq -> a = b.
Proof.
  revert b. induction a as [|x a IH]; intros [|y b]; cbn; try done.
  destruct (Nat.compare_spec x y) as [->| |]; [|done|done]. by intros ->%IH.
Qed.
Lemma key_le_trans a b c : key_le a b = true -> key_le b c = true -> key_le a c = true.
Proof.
  unfold key_le. revert b c. induction a as [|x a IH]; intros [|y b] [|z c]; cbn; try done.
  destruct (Nat.compare_spec x y) as [->|Hxy|Hxy]; [|intros _|done].
  - destruct (y ?= z)%nat; [apply IH|done|done].
  - destruct (Nat.compare_spec y z) as [->|Hyz|Hyz]; [|intros _|done].
    + by rewrite (proj2 (Nat.compare_lt_iff _ _) Hxy).
    + by rewrite (proj2 (Nat.compare_lt_iff x z)) by lia.
Qed.
Lemma key_lt_le_trans a b c : key_lt a b = true -> key_le b c = true -> key_lt a c = true.
Proof.
  rewrite !key_lt_le, !negb_true_iff. intros Hab Hbc. destruct (key_le c a) eqn:E; [|done].
  by rewrite (key_le_trans b c a) in Hab.
Qed.
Lemma key_le_lt_trans a b c : key_le a b = true -> key_lt b c = true -> key_lt a c = true.
Proof.
  rewrite !key_lt_le, !negb_true_iff. intros Hab Hbc. destruct (key_le c a) eqn:E; [|done].
  by rewrite (key_le_trans c a b) in Hbc.
Qed.
Lemma prefix_key_le a b : a `prefix_of` b -> key_le a b = true.
Proof. intros H. eapply key_le_prefix; [apply key_le_refl|done]. Qed.
Lemma key_le_antisym a b : key_le a b = true -> key_le b a = true -> a = b.
Proof.
  unfold key_le. rewrite (lex_antisym a b). destruct (lex a b) eqn:E; try done. intros _ _. by apply lex_eq.
Qed.
(** Keys below [p] reach [st] only if [p] does or lies on the way. *)
Lemma key_le_below p t st : key_le st (p ++ t) = true -> key_lt p st = true -> p `prefix_of` st.
Proof.
  unfold key_le, key_lt. revert st. induction p as [|x p IH]; intros [|y st]; cbn; try done; [intros; apply prefix_nil|].
  rewrite (Nat.compare_antisym y x). destruct (Nat.compare_spec y x) as [->| |]; cbn; [|done|done].
  intros H1 H2. by apply prefix_cons, IH.
Qed.
Lemma key_lt_digit p i j (a b : key) : (i < j)%nat -> key_lt (p ++ i :: a) (p ++ j :: b) = true.
Proof.
  intros Hij. unfold key_lt. induction p as [|x p IH]; cbn; [by rewrite (proj2 (Nat.compare_lt_iff _ _) Hij)|].
  by rewrite Nat.compare_refl.
Qed.
Lemma key_lt_strict p i (a : key) : key_lt p (p ++ i :: a) = true.
Proof. unfold key_lt. induction p as [|x p IH]; cbn; [done|]. by rewrite Nat.compare_refl. Qed.
Lemma key_lt_irrefl p : key_lt p p = false.
Proof. by rewrite key_lt_le, key_le_refl. Qed.

(** ** Keys of which none is above another *)

Definition apart (a b : key) : Prop := ~ a `prefix_of` b /\ ~ b `prefix_of` a.

Lemma apart_sym a b : apart a b -> apart b a.
Proof. intros [H1 H2]. by split. Qed.
Lemma apart_below a b k : apart a b -> a `prefix_of` k -> ~ b `prefix_of` k.
Proof. intros [H1 H2] Ha Hb. destruct (prefix_weak_total a b k); done. Qed.

Lemma strongly_sorted_perm {A} (R : relation A) l l' : Symmetric R -> l ≡ₚ l' ->
  StronglySorted R l -> StronglySorted R l'.
Proof.
  intros HR. induction 1 as [|x l l' Hp IH|x y l|l1 l2 l3 _ IH1 _ IH2]; [done| | |tauto].
  - intros [Hs Hx]%StronglySorted_inv. constructor; [by apply IH|]. by rewrite <-Hp.
  - intros [[Hs Hx]%StronglySorted_inv Hy]%StronglySorted_inv. apply Forall_cons in Hy as [Hyx Hy].
    constructor; [by constructor|]. constructor; [by symmetry|done].
Qed.
Lemma strongly_sorted_omap {A B} (R : relation B) (f : A -> option B) l :
  (forall i j x y a b, (i < j)%nat -> l !! i = Some x -> l !! j = Some y -> f x = Some a -> f y = Some b -> R a b) ->
  StronglySorted R (omap f l).
Proof.
  induction l as [|x l IH]; intros H; [constructor|].
  assert (Hl : StronglySorted R (omap f l)).
  { apply IH. intros i j y z a b Hij Hy Hz. apply (H (S i) (S j)); [lia|done|done]. }
  cbn. destruct (f x) as [a|] eqn:Ex; [|done]. constructor; [done|]. apply Forall_forall. intros b Hb.
  apply list_elem_of_omap in Hb as (y & Hy & Ey). apply list_elem_of_lookup_1 in Hy as [j Hj].
  by apply (H 0%nat (S j) x y a b); [lia|..].
Qed.
Lemma strongly_sorted_app {A} (R : relation A) l l' : StronglySorted R l -> StronglySorted R l' ->
  (forall x y, x ∈ l -> y ∈ l' -> R x y) -> StronglySorted R (l ++ l').
Proof.
  intros Hl Hl' H. induction Hl as [|x l Hl IH Hx]; [done|]. cbn. constructor.
  - apply IH. intros y z Hy. apply H. by apply list_elem_of_further.
  - apply Forall_app. split; [done|]. apply Forall_forall. intros y Hy. apply H; [apply list_elem_of_here|done].
Qed.

(** Reading a node and going on with it. *)
Lemma wp_fetch {A} k n (f : TrieNode -> TrieM A) Q QE s : table s !! k = Some n -> node_key n = k ->
  wp (f n) Q QE s -> wp (node ← get_node k; node ← expect node; f node) Q QE s.
Proof.
  intros Hn Hk Hf. wp_step. unfold get_node. apply wp_gets. rewrite Hn. cbn [fmap option_fmap option_map]. wp_step.
  apply wp_expect with n; [|done]. f_equal. rewrite <-Hk. by destruct n.
Qed.

(** Some key of the list is above [k]. *)
Definition covered (l : list key) (k : key) : bool := existsb (fun q => is_prefix q k) l.

Lemma covered_true l k : covered l k = true <-> exists q, q ∈ l /\ q `prefix_of` k.
Proof.
  unfold covered. rewrite existsb_exists. unfold is_prefix. setoid_rewrite bool_decide_eq_true.
  split; intros (q & Hq & Hp); exists q; (split; [by apply list_elem_of_In|done]).
Qed.
Lemma covered_false l k : covered l k = false <-> forall q, q ∈ l -> ~ q `prefix_of` k.
Proof.
  rewrite <-not_true_iff_false, covered_true. split.
  - intros H q Hq Hp. apply H. by exists q.
  - intros H (q & Hq & Hp). by apply (H q).
Qed.

Section Truncate.
Context (om : option (gmap key (list Z))) (r : range) (db0 : gmap key TrieNode) (Hwf : wf r db0).

(** The keys of the stored children. *)
Definition stored_below (n : TrieNode) : list key :=
  omap (fun c => match entry_key c (node_key n) r return option key with Ok ck => Some ck | _ => None end) (iter_children n).

Lemma stored_below_elem k n ck : db0 !! k = Some n ->
  ck ∈ stored_below n <-> exists i c, entry n i c /\ ck = k ++ suffix c /\ range_contains r ck = false.
Proof.
  intros Hn. pose proof (wf_node _ _ Hwf _ _ Hn) as Hnw. unfold stored_below, iter_children. rewrite (nw_key _ _ Hnw).
  rewrite list_elem_of_omap. split.
  - intros (c & ([c'|] & Hi & [= ->])%list_elem_of_omap & Hc). apply list_elem_of_lookup_1 in Hi as [i Hi]. exists i, c.
    rewrite entry_key_ok in Hc by apply (nw_entry _ _ Hnw _ _ Hi). split; [done|].
    destruct (range_contains r (k ++ suffix c)) eqn:E; [done|]. by injection Hc as <-.
  - intros (i & c & Hc & -> & Hr). exists c. split.
    + apply list_elem_of_omap. exists (Some c). split; [by eapply list_elem_of_lookup_2|done].
    + rewrite entry_key_ok by apply (nw_entry _ _ Hnw _ _ Hc). by rewrite Hr.
Qed.

Lemma omap_omap_id {A B} (f : A -> option B) (l : list (option A)) : omap f (omap id l) = omap (fun o => o ≫= f) l.
Proof. induction l as [|[x|] l IH]; [done| |done]. cbn. by rewrite IH. Qed.

Lemma stored_below_apart k n : db0 !! k = Some n -> StronglySorted apart (stored_below n).
Proof.
  intros Hn. pose proof (wf_node _ _ Hwf _ _ Hn) as Hnw. unfold stored_below, iter_children. rewrite omap_omap_id, (nw_key _ _ Hnw).
  apply strongly_sorted_omap. intros i j [c|] [d|] a b Hij Hi Hj Ha Hb; try done. cbn in Ha, Hb.
  destruct (nw_entry _ _ Hnw _ _ Hi) as ((t & Et) & Hc & _), (nw_entry _ _ Hnw _ _ Hj) as ((u & Eu) & Hd & _).
  rewrite entry_key_ok in Ha, Hb by done. destruct (range_contains r (k ++ suffix c)), (range_contains r (k ++ suffix d)); try done.
  injection Ha as <-. injection Hb as <-. rewrite Et, Eu. split; intros [E _]%prefix_app_cons; lia.
Qed.

(** What is stored below a node is below one of its children. *)
Lemma stored_below_covers k n q m : db0 !! k = Some n -> db0 !! q = Some m -> k `prefix_of` q -> k <> q ->
  covered (stored_below n) q = true.
Proof.
  intros Hn Hm Hp Hne. destruct (prefix_strict _ _ Hp Hne) as (i & t & E).
  destruct (entry_towards_node Hwf _ _ _ _ _ _ Hn Hm E) as (c & Hc & Hcq). apply covered_true. exists (k ++ suffix c).
  split; [|done]. apply (stored_below_elem k n _ Hn). exists i, c. split; [done|]. split; [done|].
  assert (Hq : q <> []) by (rewrite E; apply app_cons_not_nil).
  eapply range_prefix; [done|]. by apply (wf_non_root _ _ Hwf _ _ Hm Hq).
Qed.

(** Removing a node and then what is below its children removes what is below it. *)
Lemma covered_pop q n stack db k : db0 !! q = Some n ->
  (forall ck, ck ∈ stored_below n -> exists i t, ck = q ++ i :: t /\ is_Some (db0 !! ck)) ->
  (forall k, q `prefix_of` k -> db !! k = db0 !! k) ->
  (if covered (rev (stored_below n) ++ stack) k then None else delete q db !! k) =
  (if covered (q :: stack) k then None else db !! k).
Proof.
  intros Hn Hbelow Hsame. cbn [covered existsb]. fold (covered stack k). unfold covered at 1. rewrite existsb_app.
  fold (covered stack k). unfold is_prefix at 2. destruct (bool_decide_reflect (q `prefix_of` k)) as [Hp|Hp]; cbn [orb].
  - destruct (decide (q = k)) as [<-|Hne]; [rewrite lookup_delete_eq; by destruct (_ || _)|].
    rewrite lookup_delete_ne by done. destruct (existsb _ (rev _) || _) eqn:E; [done|].
    rewrite Hsame by done. destruct (db0 !! k) as [m|] eqn:Em; [|done].
    pose proof (stored_below_covers q n k m Hn Em Hp Hne) as Hc. apply orb_false_iff in E as [E _].
    apply covered_true in Hc as (ck & Hck & Hpk). apply not_true_iff_false in E. destruct E. apply existsb_exists.
    exists ck. split; [by apply -> in_rev; apply list_elem_of_In|]. by apply bool_decide_eq_true.
  - rewrite lookup_delete_ne by (intros ->; by apply Hp).
    destruct (existsb _ (rev (stored_below n))) eqn:E; [|done]. exfalso. apply existsb_exists in E as (ck & Hck & Hpk).
    apply in_rev, list_elem_of_In in Hck. destruct (Hbelow ck Hck) as (i & t & -> & _). apply bool_decide_eq_true in Hpk.
    apply Hp. by eapply prefix_app_l.
Qed.

(** The change of the numbers of nodes from one table to another. *)
Definition counted (cu cu' : CountUpdates) db db' : Prop :=
  forall kd, kd <> TrieNodeKind.Root -> node_count kd db' = node_count kd db + cu_get cu' kd - cu_get cu kd.

Lemma wp_remove_subtree fuel : forall stack cu s, (base.size (table s) < fuel)%nat -> recorded om s ->
  StronglySorted apart stack -> (forall q, q ∈ stack -> is_Some (db0 !! q)) ->
  (forall q k, q ∈ stack -> q `prefix_of` k -> table s !! k = db0 !! k) ->
  wp (remove_subtree fuel r stack cu)
    (fun cu' s' => recorded om s' /\ counted cu cu' (table s) (table s') /\
       forall k, table s' !! k = if covered stack k then None else table s !! k)
    (fun _ _ => False) s.
Proof.
  induction fuel as [|fuel IH]; intros stack cu s Hf Hrec Hsort Hst Hsame; [lia|]. cbn [remove_subtree].
  destruct stack as [|q stack].
  { apply wp_ret. split; [done|]. split; [|done]. intros kd _. lia. }
  destruct (Hst q) as [n Hn]; [apply list_elem_of_here|]. pose proof (wf_node _ _ Hwf _ _ Hn) as Hnw.
  assert (Hn' : table s !! q = Some n) by (rewrite (Hsame q q); [done|apply list_elem_of_here|done]).
  apply StronglySorted_inv in Hsort as [Hsort Hq]. rewrite Forall_forall in Hq.
  apply (wp_fetch q n); [done|by apply (nw_key _ _ Hnw)|]. change (omap _ (iter_children n)) with (stored_below n). rewrite (nw_key _ _ Hnw).
  wp_step. eapply wp_remove_node; [done|rewrite lookup_contents, Hn'; cbn; by destruct (value n)|]. intros s1 Hs1 Hrec1.
  assert (Hbelow : forall ck, ck ∈ stored_below n -> exists i t, ck = q ++ i :: t /\ is_Some (db0 !! ck)).
  { intros ck (i & c & Hc & -> & Hr)%(stored_below_elem q n _ Hn). destruct (nw_entry _ _ Hnw _ _ Hc) as ((t & Et) & _).
    exists i, t. split; [by rewrite Et|]. by eapply wf_closed. }
  eapply wp_mono; [apply IH| |done].
  - rewrite Hs1, map_size_delete, Hn'. assert (base.size (table s) <> 0%nat); [|lia].
    rewrite map_size_non_empty_iff. intros E. by rewrite E, lookup_empty in Hn'.
  - done.
  - apply strongly_sorted_app; [|done|].
    + apply (strongly_sorted_perm _ (stored_below n)); [by intros ? ?; apply apart_sym|apply Permutation_rev|by eapply stored_below_apart].
    + intros a b Ha%list_elem_of_In%in_rev%list_elem_of_In Hb. destruct (Hbelow a Ha) as (i & t & -> & _).
      destruct (Hq b Hb) as [H1 H2]. split; intros H.
      * apply H1. by eapply prefix_app_l.
      * destruct (prefix_weak_total b q (q ++ i :: t)); [done|apply strict_prefix|done|done].
  - intros a [Ha%list_elem_of_In%in_rev%list_elem_of_In|Ha]%elem_of_app; [by destruct (Hbelow a Ha) as (? & ? & _ & ?)|].
    apply Hst. by apply list_elem_of_further.
  - intros a k [Ha%list_elem_of_In%in_rev%list_elem_of_In|Ha]%elem_of_app Hk; rewrite Hs1.
    + destruct (Hbelow a Ha) as (i & t & -> & _). rewrite lookup_delete_ne.
      * apply (Hsame q); [apply list_elem_of_here|]. by eapply prefix_app_l.
      * intros <-. by apply not_prefix_longer in Hk.
    + rewrite lookup_delete_ne; [by apply (Hsame a); [apply list_elem_of_further|]|]. intros <-.
      by apply (apart_below _ _ q (Hq a Ha)).
  - intros cu' s' (Hrec' & Hcnt & Ht). split; [done|]. split.
    + intros kd Hkd. rewrite (Hcnt kd Hkd), Hs1, node_count_delete, Hn', cu_get_apply by done. cbn [mbind option_bind].
      rewrite kind_val_None. lia.
    + intros k. rewrite Ht, Hs1. apply (covered_pop q n); [done|done|]. intros k0. apply Hsame, list_elem_of_here.
Qed.

Context (st : key) (Hst : forall k, range_contains r k = true -> key_le st k = true).

(** The keys of the entries from [st] on. *)
Definition gone (p : key) (es : list TrieNodeChild) : list key :=
  base.filter (fun ck => key_le st ck = true) (map (fun c => p ++ suffix c) es).

Lemma gone_elem p es ck : ck ∈ gone p es <-> key_le st ck = true /\ exists c, c ∈ es /\ ck = p ++ suffix c.
Proof.
  unfold gone. rewrite list_elem_of_filter. rewrite list_elem_of_In, in_map_iff. split.
  - intros [H (c & <- & Hc)]. split; [done|]. exists c. by rewrite list_elem_of_In.
  - intros [H (c & Hc & ->)]. split; [done|]. exists c. by rewrite <-list_elem_of_In.
Qed.

(** The entry that leads on towards [st]. *)
Definition on_way (p : key) (c : TrieNodeChild) : Prop := key_lt (p ++ suffix c) st = true /\ p ++ suffix c `prefix_of` st.

Lemma wp_remove_entries p m : db0 !! p = Some m -> forall es next cu s, recorded om s ->
  StronglySorted apart (map (fun c => p ++ suffix c) es) -> (forall c, c ∈ es -> exists i, entry m i c) ->
  (forall q k, q ∈ gone p es -> q `prefix_of` k -> table s !! k = db0 !! k) ->
  wp (remove_entries st r p es next cu)
    (fun res s' => recorded om s' /\ counted cu res.2 (table s) (table s') /\
       (forall k, table s' !! k = if covered (gone p es) k then None else table s !! k) /\
       ((res.1 = next /\ (forall c, c ∈ es -> ~ on_way p c)) \/ exists c, c ∈ es /\ on_way p c /\ res.1 = Some (p ++ suffix c)))
    (fun _ _ => False) s.
Proof.
  intros Hm. pose proof (wf_node _ _ Hwf _ _ Hm) as Hmw.
  induction es as [|c es IH]; intros next cu s Hrec Hsort Hes Hsame; cbn [remove_entries].
  { apply wp_ret. split; [done|]. split; [intros kd _; cbn; lia|]. split; [done|]. left. split; [done|]. by intros c Hc%not_elem_of_nil. }
  destruct (Hes c) as [i Hi]; [apply list_elem_of_here|]. destruct (nw_entry _ _ Hmw _ _ Hi) as (_ & Hok & _).
  apply StronglySorted_inv in Hsort as [Hsort Hap]. rewrite Forall_forall in Hap.
  assert (Hes' : forall c, c ∈ es -> exists i, entry m i c) by (intros d Hd; apply Hes; by apply list_elem_of_further).
  wp_step. rewrite (checked_add_ok _ _ Hok). apply wp_ok_or; [|done]. intros ck [= <-].
  destruct (key_lt (p ++ suffix c) st) eqn:Elt.
  { eapply wp_mono; [apply IH; [done|done|done|]| |done].
    - intros q k (Hle & d & Hd & ->)%gone_elem. apply Hsame, gone_elem. split; [done|]. exists d. by split; [apply list_elem_of_further|].
    - intros [nx cu'] s' (H1 & H2 & H3 & H4). split; [done|]. split; [done|].
      assert (gone p (c :: es) = gone p es) as ->.
      { unfold gone. cbn [map]. rewrite filter_cons_False; [done|]. rewrite key_lt_le in Elt. by destruct (key_le _ _). }
      split; [done|]. unfold is_prefix in H4. destruct H4 as [[-> H4]|(d & Hd & Hw & ->)].
      + case_bool_decide as Hp; cbn.
        * right. exists c. split; [apply list_elem_of_here|]. by repeat split.
        * left. split; [done|]. intros d [->|Hd]%elem_of_cons; [|by apply H4]. by intros [_ ?].
      + right. exists d. split; [by apply list_elem_of_further|done]. }
  assert (Hle : key_le st (p ++ suffix c) = true) by (rewrite key_lt_le in Elt; by destruct (key_le _ _)).
  assert (Hgone : gone p (c :: es) = (p ++ suffix c) :: gone p es) by (unfold gone; cbn [map]; by rewrite filter_cons_True).
  assert (Hgc : p ++ suffix c ∈ gone p (c :: es)) by (rewrite Hgone; apply list_elem_of_here).
  assert (Hway : ~ on_way p c) by (intros [? _]; congruence).
  assert (Hend : forall res, ((res = next /\ (forall c, c ∈ es -> ~ on_way p c)) \/ (exists c, c ∈ es /\ on_way p c /\ res = Some (p ++ suffix c))) ->
    ((res = next /\ (forall d, d ∈ c :: es -> ~ on_way p d)) \/ (exists d, d ∈ c :: es /\ on_way p d /\ res = Some (p ++ suffix d)))).
  { intros res [[-> H]|(d & Hd & H)].
    - left. split; [done|]. by intros d [->|Hd]%elem_of_cons; [|apply H].
    - right. exists d. split; [by apply list_elem_of_further|done]. }
  unfold is_stump. rewrite (checked_add_ok _ _ Hok). destruct (range_contains r (p ++ suffix c)) eqn:Er; cbn [negb].
  - eapply wp_mono; [apply IH; [done|done|done|]| |done].
    { intros q k Hq. apply Hsame. rewrite Hgone. by apply list_elem_of_further. }
    intros [nx cu'] s' (H1 & H2 & H3 & H4). split; [done|]. split; [done|]. split; [|by apply Hend].
    intros k. rewrite H3, Hgone. cbn [covered existsb]. fold (covered (gone p es) k). unfold is_prefix at 1.
    destruct (bool_decide_reflect (p ++ suffix c `prefix_of` k)) as [Hp|_]; [|done]. cbn [orb].
    destruct (covered (gone p es) k); [done|]. rewrite (Hsame _ _ Hgc Hp). destruct (db0 !! k) as [x|] eqn:Ex; [|done]. exfalso.
    destruct (nw_entry _ _ Hmw _ _ Hi) as ((t & Et) & _). assert (k <> []).
    { intros ->. rewrite Et in Hp. by apply prefix_nil_inv, app_cons_not_nil in Hp. }
    destruct (wf_non_root _ _ Hwf _ _ Ex) as [_ Hr]; [done|]. by rewrite (range_prefix _ _ _ Hp Hr) in Er.
  - wp_step. apply wp_gets. wp_step. eapply wp_mono; [apply wp_remove_subtree; [lia|done|by repeat constructor| |]| |done].
    + intros q ->%list_elem_of_singleton. by eapply wf_closed.
    + intros q k ->%list_elem_of_singleton. by apply Hsame.
    + intros cu1 s1 (Hrec1 & Hcnt1 & Ht1). eapply wp_mono; [apply IH; [done|done|done|]| |done].
      * intros q k Hq Hp. rewrite Ht1. cbn [covered existsb]. unfold is_prefix. rewrite bool_decide_false; [cbn [orb]|].
        -- apply (Hsame q k); [rewrite Hgone; by apply list_elem_of_further|done].
        -- apply gone_elem in Hq as (_ & d & Hd & ->). apply (apart_below (p ++ suffix d)); [|done].
           apply apart_sym, Hap. apply list_elem_of_In, in_map_iff. exists d. by rewrite <-list_elem_of_In.
      * intros [nx cu'] s' (H1 & H2 & H3 & H4). split; [done|]. split; [|split; [|by apply Hend]].
        -- intros kd Hkd. rewrite (H2 kd Hkd), (Hcnt1 kd Hkd). cbn. lia.
        -- intros k. rewrite H3, Ht1, Hgone. cbn [covered existsb]. rewrite orb_false_r. fold (covered (gone p es) k).
           by destruct (covered (gone p es) k), (is_prefix (p ++ suffix c) k).
Qed.

Lemma entries_apart p m i j c d : node_wf p m -> entry m i c -> entry m j d -> i = j \/ apart (p ++ suffix c) (p ++ suffix d).
Proof.
  intros Hm Hc Hd. destruct (nw_entry _ _ Hm _ _ Hc) as ((t & Et) & _), (nw_entry _ _ Hm _ _ Hd) as ((u & Eu) & _).
  destruct (decide (i = j)) as [|Hne]; [by left|right]. rewrite Et, Eu. split; intros [E _]%prefix_app_cons; done.
Qed.
Lemma on_way_unique p m i j c d : node_wf p m -> entry m i c -> entry m j d -> on_way p c -> on_way p d -> c = d.
Proof.
  intros Hm Hc Hd [_ Hwc] [_ Hwd]. destruct (entries_apart p m i j c d Hm Hc Hd) as [->|Ha].
  - unfold entry in *. congruence.
  - by destruct (apart_below _ _ st Ha).
Qed.

(** The entries that [remove_path] looks at. *)
Definition end_entries (m : TrieNode) : list TrieNodeChild :=
  omap id (drop (default 0%nat (st !! length (node_key m))) (children m)).

Lemma end_entries_entry m c : c ∈ end_entries m -> exists i, entry m i c.
Proof.
  intros ([c'|] & Hi & [= ->])%list_elem_of_omap. apply list_elem_of_lookup_1 in Hi as [i Hi]. rewrite lookup_drop in Hi. eauto.
Qed.
Lemma end_entries_apart p m : node_wf p m -> StronglySorted apart (map (fun c => p ++ suffix c) (end_entries m)).
Proof.
  intros Hm. unfold end_entries. set (l := drop _ _).
  assert (map (fun c => p ++ suffix c) (omap id l) = omap (fun o => (fun c => p ++ suffix c) <$> o) l) as ->.
  { induction l as [|[c|] l IH]; [done| |done]. cbn. by rewrite IH. }
  apply strongly_sorted_omap. intros i j [c|] [d|] a b Hij Hi Hj Ha Hb; try done. injection Ha as <-. injection Hb as <-.
  unfold l in Hi, Hj. rewrite lookup_drop in Hi, Hj.
  destruct (entries_apart p m _ _ c d Hm Hi Hj); [lia|done].
Qed.

(** A stored key from [st] on, below a node before [st], is below one of these entries. *)
Lemma end_entries_reach p m k x : db0 !! p = Some m -> db0 !! k = Some x -> p `prefix_of` k -> p <> k ->
  p `prefix_of` st -> key_le st k = true ->
  exists c, c ∈ end_entries m /\ p ++ suffix c `prefix_of` k /\ (key_le st (p ++ suffix c) = true \/ on_way p c).
Proof.
  intros Hm Hx Hp Hne [w Hw] Hk. destruct (prefix_strict _ _ Hp Hne) as (i & t & E).
  destruct (entry_towards_node Hwf _ _ _ _ _ _ Hm Hx E) as (c & Hc & Hck). exists c. split; [|split; [done|]].
  - apply list_elem_of_omap. exists (Some c). split; [|done]. apply list_elem_of_lookup_2 with (i - default 0 (st !! length p))%nat.
    rewrite (nw_key _ _ (wf_node _ _ Hwf _ _ Hm)), lookup_drop.
    assert (default 0 (st !! length p) <= i)%nat; [|by replace (_ + _)%nat with i by lia].
    rewrite Hw. destruct w as [|d w]; [rewrite app_nil_r, lookup_ge_None_2 by lia; cbn; lia|].
    rewrite list_lookup_middle by done. cbn. destruct (decide (d <= i)%nat) as [|Hlt]; [done|]. exfalso.
    rewrite Hw, E in Hk. pose proof (key_lt_digit p i d t w ltac:(lia)) as Hl. rewrite key_lt_le, Hk in Hl. done.
  - destruct (key_le st (p ++ suffix c)) eqn:El; [by left|right]. split; [by rewrite key_lt_le, El|].
    destruct Hck as [u Hu]. rewrite Hu in Hk. eapply key_le_below; [done|]. by rewrite key_lt_le, El.
Qed.

Definition past (p k : key) : bool := is_prefix p k && negb (bool_decide (p = k)) && key_le st k.

Lemma past_spec p k : past p k = true <-> p `prefix_of` k /\ p <> k /\ key_le st k = true.
Proof. unfold past, is_prefix. rewrite !andb_true_iff, negb_true_iff, bool_decide_eq_true, bool_decide_eq_false. tauto. Qed.

Lemma gone_past p m k : db0 !! p = Some m -> covered (gone p (end_entries m)) k = true -> past p k = true.
Proof.
  intros Hm (q & (Hle & c & Hc & ->)%gone_elem & Hq)%covered_true. destruct (end_entries_entry m c Hc) as [i Hi].
  destruct (entry_suffix Hwf _ _ _ _ Hm Hi) as [t Et]. rewrite past_spec. split; [by eapply prefix_app_l|]. split.
  - intros <-. rewrite Et in Hq. by apply not_prefix_longer in Hq.
  - by eapply key_le_prefix.
Qed.

Lemma wp_remove_path fuel : forall p m cu s, (MAX_BYTES * 2 < fuel + length p)%nat -> recorded om s ->
  db0 !! p = Some m -> p `prefix_of` st -> (forall k, p `prefix_of` k -> table s !! k = db0 !! k) ->
  wp (remove_path fuel st r m cu)
    (fun cu' s' => recorded om s' /\ counted cu cu' (table s) (table s') /\
       forall k, table s' !! k = if past p k then None else table s !! k)
    (fun _ _ => False) s.
Proof.
  induction fuel as [|fuel IH]; intros p m cu s Hf Hrec Hm Hp Hsame; pose proof (wf_node _ _ Hwf _ _ Hm) as Hmw.
  { destruct (nw_key_ok _ _ Hmw) as [_ Hl]. lia. }
  cbn [remove_path]. change (omap id _) with (end_entries m). rewrite (nw_key _ _ Hmw). wp_step.
  eapply wp_mono; [apply (wp_remove_entries p m Hm (end_entries m)); [done|by apply end_entries_apart|apply end_entries_entry|]| |done].
  { intros q k (_ & c & _ & ->)%gone_elem Hq. apply Hsame. by eapply prefix_app_l. }
  intros [next cu1] s1 (Hrec1 & Hcnt1 & Ht1 & Hnext). cbn [fst snd] in *.
  (* what is left of the keys past [st] *)
  assert (Hleft : forall k, past p k = true -> covered (gone p (end_entries m)) k = false -> is_Some (table s !! k) ->
    exists c, next = Some (p ++ suffix c) /\ past (p ++ suffix c) k = true).
  { intros k (Hpk & Hne & Hk)%past_spec Hcov [x Hx]. rewrite Hsame in Hx by done.
    destruct (end_entries_reach p m k x Hm Hx Hpk Hne Hp Hk) as (c & Hc & Hck & [Hle|Hw]).
    - rewrite covered_false in Hcov. exfalso. apply (Hcov (p ++ suffix c)); [|done]. apply gone_elem. eauto.
    - destruct (end_entries_entry m c Hc) as [i Hi]. destruct Hnext as [[_ Hno]|(d & Hd & Hwd & ->)]; [by destruct (Hno c Hc)|].
      destruct (end_entries_entry m d Hd) as [j Hj]. rewrite <-(on_way_unique p m i j c d) by done. exists c. split; [done|].
      apply past_spec. split; [done|]. split; [|done]. intros E. destruct Hw as [Hlt _]. rewrite E, key_lt_le, Hk in Hlt. done. }
  destruct Hnext as [[-> Hno]|(c & Hc & [Hlt Hcp] & ->)].
  - apply wp_ret. split; [done|]. split; [done|]. intros k. rewrite Ht1. destruct (covered _ k) eqn:Ecov.
    + by rewrite (gone_past p m k Hm).
    + destruct (past p k) eqn:Epast; [|done]. destruct (table s !! k) eqn:Ek; [|done].
      destruct (Hleft k Epast Ecov) as (c & [=] & _). by rewrite Ek.
  - destruct (end_entries_entry m c Hc) as [i Hi]. destruct (entry_suffix Hwf _ _ _ _ Hm Hi) as [t Et].
    assert (Hr : range_contains r (p ++ suffix c) = false).
    { destruct (range_contains r _) eqn:E; [|done]. apply Hst in E. by rewrite key_lt_le, E in Hlt. }
    destruct (wf_closed _ _ Hwf _ _ _ _ Hm Hi Hr) as [m' Hm'].
    assert (Hsame1 : forall k, p ++ suffix c `prefix_of` k -> table s1 !! k = db0 !! k).
    { intros k Hk. rewrite Ht1. destruct (covered _ k) eqn:Ecov; [|apply Hsame; by eapply prefix_app_l]. exfalso.
      apply covered_true in Ecov as (q & (Hle & d & Hd & ->)%gone_elem & Hq). destruct (end_entries_entry m d Hd) as [j Hj].
      destruct (entries_apart p m i j c d Hmw Hi Hj) as [->|Ha]; [|by destruct (apart_below _ _ k Ha)].
      unfold entry in *. simplify_eq. by rewrite key_lt_le, Hle in Hlt. }
    apply (wp_fetch _ m'); [by rewrite Hsame1|by apply (nw_key _ _ (wf_node _ _ Hwf _ _ Hm'))|].
    eapply wp_mono; [apply (IH (p ++ suffix c)); [rewrite Et, length_app; cbn [length]; lia|done..]| |done].
    intros cu' s' (Hrec' & Hcnt' & Ht'). split; [done|]. split.
    + intros kd Hkd. rewrite (Hcnt' kd Hkd), (Hcnt1 kd Hkd). lia.
    + intros k. rewrite Ht', Ht1. destruct (covered _ k) eqn:Ecov.
      * rewrite (gone_past p m k Hm) by done. by destruct (past (p ++ suffix c) k).
      * destruct (past (p ++ suffix c) k) eqn:Epc.
        -- apply past_spec in Epc as (H1 & H2 & H3). assert (past p k = true) as ->; [|done]. apply past_spec.
           split; [by eapply prefix_app_l|]. split; [|done]. intros <-. rewrite Et in H1. by apply not_prefix_longer in H1.
        -- destruct (past p k) eqn:Epast; [|done]. destruct (table s !! k) eqn:Ek; [|done].
           destruct (Hleft k Epast Ecov) as (d & [= E] & Hd); [by rewrite Ek|]. rewrite E in Epc. congruence.
Qed.
End Truncate.

Section RemoveChunk.
Context `{BEnv : BlockEnv}.

(** What is left of a trie before [st], with the entries for the rest as stumps. *)
Lemma wf_cut r db db' st : wf r db -> (forall k, range_contains r k = true -> key_le st k = true) ->
  (forall k, db' !! k = if past st [] k then None else db !! k) -> wf (Some st) db'.
Proof.
  intros Hwf Hst Hdb.
  assert (Hkeep : forall k n, db' !! k = Some n -> db !! k = Some n /\ (k <> [] -> key_le st k = false)).
  { intros k n Hn. rewrite Hdb in Hn. destruct (past st [] k) eqn:E; [done|]. split; [done|]. intros Hk.
    destruct (key_le st k) eqn:El; [|done]. apply not_true_iff_false in E. destruct E. apply past_spec.
    split; [apply prefix_nil|done]. }
  assert (Hin : forall k, key_le st k = false -> db' !! k = db !! k).
  { intros k Hk. rewrite Hdb. destruct (past st [] k) eqn:E; [|done]. apply past_spec in E as (_ & _ & E). congruence. }
  split.
  - intros k n [Hn _]%Hkeep. by eapply wf_node.
  - destruct (wf_root _ _ Hwf) as (n & Hn & H). exists n. rewrite Hdb. by split.
  - intros k n [Hn Hk]%Hkeep Hne. split; [by apply (wf_non_root _ _ Hwf _ _ Hn)|]. by apply Hk.
  - intros k n i c [Hn _]%Hkeep Hc Hr. cbn in Hr. rewrite Hin by done. eapply wf_closed; [done|done|done|].
    destruct (range_contains r _) eqn:E; [|done]. apply Hst in E. congruence.
  - intros k n [Hn Hk]%Hkeep Hne. destruct (wf_parent _ _ Hwf _ _ Hn Hne) as (p & m & i & c & Hp & Hc & ->).
    exists p, m, i, c. split; [|done]. destruct (decide (p = [])) as [->|]; [by rewrite Hdb|].
    rewrite Hin; [done|]. specialize (Hk Hne). destruct (key_le st p) eqn:E; [|done].
    by rewrite (key_le_prefix _ _ _ E (prefix_app_r _ _ _ (reflexivity p))) in Hk.
Qed.

(** Same root, other root data. *)
Lemma wf_set_root r db n rd : wf r db -> db !! [] = Some n -> wf r (<[[] := set_root_data n (Some rd)]> db).
Proof.
  intros Hwf Hn. eapply wf_update; [done|done|]. destruct (wf_root _ _ Hwf) as (n' & Hn' & _ & Hrd). simplify_eq.
  split; [|cbn; split; eauto|done|eauto|eauto]. intros k [H1 H2 H3 H4]. by split.
Qed.
Lemma hashes_ok_set_root r db n rd : wf r db -> db !! [] = Some n -> hashes_ok (fun _ => False) db ->
  hashes_ok (fun _ => False) (<[[] := set_root_data n rd]> db).
Proof.
  intros Hwf Hn Hh k m i c x Hm Hc Hhash _ Hx.
  assert (exists m0, db !! k = Some m0 /\ entry m0 i c) as (m0 & Hm0 & Hc0).
  { destruct (decide (k = [])) as [->|Hne].
    - rewrite lookup_insert_eq in Hm. injection Hm as <-. eauto.
    - rewrite lookup_insert_ne in Hm by done. eauto. }
  destruct (entry_suffix Hwf _ _ _ _ Hm0 Hc0) as [t Et].
  rewrite lookup_insert_ne in Hx by (rewrite Et; apply not_eq_sym, app_cons_not_nil). apply (Hh k m0 i c x); tauto.
Qed.
Lemma compact_set_root db n rd : compact db -> compact (<[[] := set_root_data n rd]> db).
Proof. intros Hc k m Hm Hk. rewrite lookup_insert_ne in Hm by done. by apply (Hc k). Qed.
Lemma contents_set_root db n rd : db !! [] = Some n -> contents (<[[] := set_root_data n rd]> db) = contents db.
Proof. intros Hn. apply contents_insert_same. by rewrite lookup_contents, Hn. Qed.
Lemma kind_set_root n rd : is_Some (root_data n) -> kind (set_root_data n (Some rd)) = kind n.
Proof. intros [rd' Hrd]. unfold kind, is_root. by rewrite Hrd. Qed.
Lemma node_count_set_root kd db n rd : db !! [] = Some n -> is_Some (root_data n) ->
  node_count kd (<[[] := set_root_data n (Some rd)]> db) = node_count kd db.
Proof. intros Hn Hrd. rewrite node_count_insert, Hn. cbn [mbind option_bind]. rewrite kind_set_root by done. lia. Qed.

(** Keys from [st] on, with those that were missing before. *)
Definition truncated (r : range) (st : key) : range :=
  match r with Some a => if key_le a st then r else Some st | None => Some st end.
Definition kept (r : range) (ct : gmap key (list Z)) : gmap key (list Z) :=
  base.filter (fun kv => range_contains r kv.1 = false) ct.

Lemma kept_lookup r (ct : gmap key (list Z)) k : kept r ct !! k = if range_contains r k then None else ct !! k.
Proof.
  unfold kept. rewrite map_lookup_filter. destruct (ct !! k) as [v|] eqn:E; cbn; [|by destruct (range_contains r k)].
  destruct (range_contains r k) eqn:Er; [|by rewrite option_guard_True].
  by rewrite option_guard_False.
Qed.
Lemma kept_same r ri db : trie_inv r ri db -> kept r (contents db) = contents db.
Proof.
  intros [Hwf _ _ _]. apply map_eq. intros k. rewrite kept_lookup. destruct (range_contains r k) eqn:Er; [|done].
  rewrite lookup_contents. destruct (db !! k) as [n|] eqn:En; [|done]. destruct (decide (k = [])) as [->|Hk].
  - destruct (wf_root _ _ Hwf) as (n' & Hn' & Hv & _). by simplify_eq.
  - destruct (wf_non_root _ _ Hwf _ _ En Hk). congruence.
Qed.

(** The trie after the removal of the nodes. *)
Lemma cut_inv r db db' st cu : trie_inv r r db -> (forall k, range_contains r k = true -> key_le st k = true) ->
  (forall k, db' !! k = if past st [] k then None else db !! k) -> counted no_counts cu db db' ->
  exists root rd, db' !! [] = Some root /\ db !! [] = Some root /\ root_data root = Some rd /\
    let rd' := update_root_data cu rd in
    let db1 := <[[] := set_root_data root (Some (mk_root_data (Some st) (num_branches rd') (num_hybrids rd') (num_leaves rd')))]> db' in
    trie_inv (Some st) (Some st) db1 /\ contents db1 = kept (Some st) (contents db).
Proof.
  intros [Hwf Hcomp Hh (root & rd & Hr & Hrd & Hi & Hc)] Hst Hdb Hcnt.
  assert (Hsub : forall k n, db' !! k = Some n -> db !! k = Some n).
  { intros k n Hn. rewrite Hdb in Hn. by destruct (past st [] k). }
  assert (Hr' : db' !! [] = Some root) by (by rewrite Hdb). pose proof (wf_cut r db db' st Hwf Hst Hdb) as Hwf'.
  exists root, rd. split; [done|]. split; [done|]. split; [done|]. cbv zeta. split.
  - split; [by apply wf_set_root| | |].
    + apply compact_set_root. intros k n Hn. by apply (Hcomp k), Hsub.
    + apply (hashes_ok_set_root (Some st)); [done|done|]. intros k n i c m Hn Hc' Hhash _ Hm. apply (Hh k n i c m); auto.
    + eexists _, _. split; [by rewrite lookup_insert_eq|]. split; [done|]. split; [done|]. intros kd Hkd.
      rewrite node_count_set_root by eauto. rewrite (Hcnt kd Hkd). transitivity (rd_get (update_root_data cu rd) kd); [by destruct kd|].
      rewrite rd_get_update, (Hc kd Hkd) by done. assert (cu_get no_counts kd = 0) as -> by (by destruct kd).
      unfold wrap. rewrite Zplus_mod_idemp_l. f_equal. lia.
  - rewrite contents_set_root by done. apply map_eq. intros k. rewrite kept_lookup, !lookup_contents, Hdb. cbn [range_contains].
    destruct (past st [] k) eqn:E; [by apply past_spec in E as (_ & _ & ->)|]. destruct (key_le st k) eqn:El; [|done].
    destruct (decide (k = [])) as [->|Hne].
    + rewrite Hr. cbn. destruct (wf_root _ _ Hwf) as (n' & Hn' & Hv & _). by simplify_eq.
    + apply not_true_iff_false in E. destruct E. apply past_spec. split; [apply prefix_nil|]. split; [congruence|done].
Qed.

(** The part of [remove_chunk] after the update of the hashes. *)
Lemma wp_remove_end om r st Q (QE : MerkleRadixTrieError -> Txn -> Prop) s : trie_inv r r (table s) -> recorded om s ->
  (forall k, range_contains r k = true -> key_le st k = true) ->
  (forall s' root rd, step_ok om (Some st) (Some st) (kept (Some st) (contents (table s))) s' ->
     table s !! [] = Some root -> table s' !! [] = Some (set_root_data root (Some rd)) -> Q tt s') ->
  wp (root ← get_root; root ← expect root;
      count_updates ← remove_path depth_fuel st r root no_counts;
      root ← get_root; root ← expect root; rd ← expect (root_data root);
      let rd := update_root_data count_updates rd in
      put_node (set_root_data root (Some (mk_root_data (Some st) (num_branches rd) (num_hybrids rd) (num_leaves rd)))) Unchanged)
    Q QE s.
Proof.
  intros Hinv Hrec Hst HQ. pose proof (ti_wf _ _ _ Hinv) as Hwf. destruct (wf_root _ _ Hwf) as (root & Hroot & _).
  pose proof (nw_key _ _ (wf_node _ _ Hwf _ _ Hroot)) as Hk. apply (wp_fetch [] root); [done|done|]. wp_step.
  eapply wp_mono; [apply (wp_remove_path om r (table s) Hwf st Hst depth_fuel []); [unfold depth_fuel; lia|done|done|apply prefix_nil|done]| |done].
  intros cu s1 (Hrec1 & Hcnt & Hdb).
  destruct (cut_inv r (table s) (table s1) st cu Hinv Hst Hdb Hcnt) as (root' & rd & Hr1 & Hr0 & Hrd & Hinv' & Hct).
  rewrite Hroot in Hr0. injection Hr0 as <-. apply (wp_fetch [] root); [done|done|]. wp_step. apply wp_expect with rd; [done|]. cbv zeta.
  eapply wp_put_node; [done|cbn; by rewrite Hk, lookup_contents, Hr1|]. intros s' Hs' Hrec'. cbn in Hs'. rewrite Hk in Hs'.
  eapply HQ; [|done|by rewrite Hs', lookup_insert_eq]. split; [by rewrite Hs'|]. split; [by rewrite Hs'|done].
Qed.

Lemma wp_remove_chunk om r st s : trie_inv r r (table s) -> recorded om s ->
  wp (remove_chunk st)
    (fun _ s' => step_ok om (truncated r st) (truncated r st) (kept (truncated r st) (contents (table s))) s' /\
       forall n h, table s !! [] = Some n -> hash n = Some h -> exists n', table s' !! [] = Some n' /\ hash n' = Some h)
    (fun _ _ => False) s.
Proof.
  intros Hinv Hrec. unfold remove_chunk. wp_step. eapply wp_missing_range; [done|].
  destruct (match r with Some a => key_le a st | None => false end) eqn:Er.
  { apply wp_ret. assert (truncated r st = r) as -> by (destruct r as [a|]; cbn; by rewrite ?Er).
    split; [|eauto]. split; [done|]. split; [by erewrite kept_same|done]. }
  assert (Hrange : forall k, range_contains r k = true -> key_le st k = true).
  { intros k. destruct r as [a|]; [|done]. cbn. apply key_le_trans. pose proof (key_lt_le st a) as E. rewrite Er in E.
    unfold key_lt in E. unfold key_le. by destruct (lex st a). }
  assert (truncated r st = Some st) as -> by (destruct r as [a|]; cbn; by rewrite ?Er).
  wp_step. apply wp_catch.
  eapply wp_mono; [apply (wp_update_hashes om r depth_fuel []); [unfold depth_fuel; lia|apply Hinv|apply Hinv|done|by eapply root_stored]| |];
    intros ? s1 [Hu _]; destruct (updated_step _ _ _ _ _ _ Hinv Hu) as (Hinv1 & Hct1 & Hrec1);
    (eapply (wp_remove_end om r st); [done|done|done|]); intros s' root rd Hs' Hr1 Hr';
    (rewrite <-Hct1; split; [done|]); intros n h Hn Hh; (eexists; split; [done|]); (transitivity (hash root); [done|]);
    destruct Hu as [Hext _]; specialize (Hext []); rewrite Hn, Hr1 in Hext; destruct (hash_content _ _ Hh) as [Hcan _];
    by rewrite (node_ext_hashed n root).
Qed.
End RemoveChunk.

(** C17: removing the keys from [start_key] on returns without error or panic: exactly
    these keys are gone, the trie is well-formed and misses the keys from there on, or
    from where it missed them before, and a root hash that was known stays the same. *)
Theorem remove_chunk_exact `{BEnv : BlockEnv} om r start_key s : trie_inv r r (table s) -> recorded om s ->
  let r' := truncated r start_key in
  exists s', remove_chunk start_key s = (Ok tt, s') /\ trie_inv r' r' (table s') /\ recorded om s' /\
    (forall k, contents (table s') !! k = if range_contains r' k then None else contents (table s) !! k) /\
    forall n h, table s !! [] = Some n -> hash n = Some h -> exists n', table s' !! [] = Some n' /\ hash n' = Some h.
Proof.
  intros Hinv Hrec r'. destruct (wp_total _ _ _ (wp_remove_chunk om r start_key s Hinv Hrec)) as ([] & s' & E & (Hinv' & Hct & Hrec') & Hh).
  exists s'. split; [done|]. split; [done|]. split; [done|]. split; [|done]. intros k. by rewrite Hct, kept_lookup.
Qed.
