(* ===== verification/TrieStumps.v ===== *)
(** * Clearing the stumps of an incomplete trie

    [clear_stumps] on a trie that misses the keys from [start] on does not panic: it
    drops every entry for a missing part, and the nodes that are then empty or have a
    single child, and leaves a well-formed trie without missing parts that has the
    contents of before. *)

From S2P Require Import Prelude Coin AccountTypes Codec TxContent Block KeyNibbles TrieNode.
From S2P Require Import Trie TrieInv TriePath TriePut TrieRemove TrieHash TrieSpec TrieDiff.
From S2P Require Import TrieProof TrieChunk TrieTruncate.

Implicit Types (db : gmap key TrieNode) (r : range) (n m : TrieNode) (k p q : key) (s : Txn).

(** ** A node without its stumps *)

Definition keep_entry (r : range) (k : key) (o : option TrieNodeChild) : option TrieNodeChild :=
  match o with Some c => if range_contains r (k ++ suffix c) then None else Some c | None => None end.
Definition prune_node (r : range) (n : TrieNode) : TrieNode :=
  set_children n (keep_entry r (node_key n) <$> children n).

Lemma entry_prune r k n i c : node_wf k n -> entry (prune_node r n) i c <-> entry n i c /\ range_contains r (k ++ suffix c) = false.
Proof.
  intros Hn. unfold entry, prune_node. cbn. rewrite (nw_key _ _ Hn), list_lookup_fmap. split.
  - intros H. destruct (children n !! i) as [[d|]|]; [|done|done]. cbn in H.
    destruct (range_contains r (k ++ suffix d)) eqn:E; [done|]. by injection H as ->.
  - intros [-> Hr]. cbn. by rewrite Hr.
Qed.
Lemma prune_node_wf r k n : node_wf k n -> node_wf k (prune_node r n).
Proof.
  intros Hn. split; [apply Hn|apply Hn|cbn; rewrite length_fmap; apply Hn|].
  intros i c [Hc _]%(entry_prune r k n i c Hn). by apply Hn.
Qed.
Lemma prune_node_id r k n : node_wf k n -> (forall i c, entry n i c -> range_contains r (k ++ suffix c) = false) -> prune_node r n = n.
Proof.
  intros Hn H. unfold prune_node. transitivity (set_children n (children n)); [|by destruct n]. f_equal. rewrite (nw_key _ _ Hn).
  apply list_eq. intros i. rewrite list_lookup_fmap. destruct (children n !! i) as [[c|]|] eqn:E; [|done..]. cbn. by rewrite (H i c E).
Qed.
Lemma is_stump_ok r k c : key_ok (k ++ suffix c) -> is_stump c k r = range_contains r (k ++ suffix c).
Proof. intros H. unfold is_stump. by rewrite checked_add_ok. Qed.

(** The entries of a node on the way to [st]: those before, at and after its digit. *)
Lemma entry_order k d (w : key) i (t : key) :
  ((i < d)%nat -> key_le (k ++ d :: w) (k ++ i :: t) = false) /\ ((d < i)%nat -> key_le (k ++ d :: w) (k ++ i :: t) = true).
Proof.
  split; intros H.
  - pose proof (key_lt_digit k i d t w H) as Hl. rewrite key_lt_le in Hl. by destruct (key_le _ _).
  - pose proof (key_lt_digit k d i w t H) as Hl. unfold key_lt in Hl. unfold key_le. by destruct (lex _ _).
Qed.

Lemma prune_lookup st k n (d : nat) (w : key) i : node_wf k n -> st = k ++ d :: w -> (d < 16)%nat ->
  let pf := (d + if decide (w = []) then 0 else 1)%nat in
  (forall c, (pf <= i)%nat -> entry n i c -> range_contains (Some st) (k ++ suffix c) = true) /\
  (forall c, (i < d)%nat -> entry n i c -> range_contains (Some st) (k ++ suffix c) = false).
Proof.
  intros Hn -> Hd pf. cbn [range_contains]. split; intros c Hi Hc; destruct (nw_entry _ _ Hn _ _ Hc) as ((t & ->) & _).
  - destruct (decide (d = i)) as [<-|Hne].
    + unfold pf in Hi. destruct (decide (w = [])) as [->|]; [|lia].
      apply prefix_key_le, prefix_app, prefix_cons, prefix_nil.
    + apply entry_order. unfold pf in Hi. destruct (decide (w = [])); lia.
  - by apply entry_order.
Qed.

(** The list of children that [prune] makes. *)
Lemma prune_list st k n d (w : key) i : node_wf k n -> st = k ++ d :: w -> (d < 16)%nat ->
  let pf := (d + if bool_decide (w = []) then 0 else 1)%nat in
  let cs := take pf (children n) ++ replicate (16 - pf) None in
  (keep_entry (Some st) k <$> children n) !! i =
  (match cs !! d with
   | Some (Some c) => if is_stump c k (Some st) then <[d := None]> cs else cs
   | _ => cs
   end) !! i.
Proof.
  intros Hn Hst Hd pf cs. pose proof (nw_length _ _ Hn) as Hlen.
  destruct (prune_lookup st k n d w i Hn Hst Hd) as [Hge Hlt].
  assert (Hpf : (d + (if decide (w = []) then 0 else 1))%nat = pf) by (unfold pf; by rewrite <-decide_bool_decide). rewrite Hpf in Hge.
  assert (Hpf' : (pf = d \/ pf = S d)%nat) by (unfold pf; case_bool_decide; lia).
  assert (Hcs : forall j, cs !! j = if decide (j < pf)%nat then children n !! j else if decide (j < 16)%nat then Some None else None).
  { intros j. unfold cs. assert (Hl : length (take pf (children n)) = pf) by (rewrite length_take; lia). destruct (decide (j < pf)%nat).
    - by rewrite lookup_app_l, lookup_take_lt by lia.
    - rewrite lookup_app_r, Hl by lia. destruct (decide (j < 16)%nat); [by rewrite lookup_replicate_2 by lia|].
      apply lookup_ge_None_2. rewrite length_replicate. lia. }
  assert (Hlcs : length cs = 16%nat) by (unfold cs; rewrite length_app, length_take, length_replicate; lia).
  rewrite list_lookup_fmap. destruct (decide (i = d)) as [->|Hne].
  - rewrite (Hcs d). destruct (decide (d < pf)%nat) as [Hdp|Hdp].
    + destruct (children n !! d) as [[c|]|] eqn:E; cbn [fmap option_fmap option_map keep_entry].
      * rewrite is_stump_ok by apply (nw_entry _ _ Hn _ _ E). destruct (range_contains _ _).
        -- by rewrite list_lookup_insert_eq by lia.
        -- by rewrite (Hcs d), decide_True, E.
      * by rewrite (Hcs d), decide_True, E.
      * by rewrite (Hcs d), decide_True, E.
    + rewrite decide_True by lia. rewrite (Hcs d), decide_False, decide_True by lia.
      destruct (lookup_lt_is_Some_2 (children n) d) as [[c|] E]; [lia| |]; rewrite E; cbn [fmap option_fmap option_map keep_entry]; [|done].
      by rewrite (Hge c) by (lia || done).
  - transitivity (cs !! i).
    + rewrite Hcs. destruct (decide (i < pf)%nat) as [Hi|Hi].
      * destruct (children n !! i) as [[c|]|] eqn:E; [|done|done]. cbn [fmap option_fmap option_map keep_entry]. by rewrite (Hlt c) by (lia || done).
      * destruct (decide (i < 16)%nat); [|by rewrite lookup_ge_None_2 by lia].
        destruct (lookup_lt_is_Some_2 (children n) i) as [[c|] E]; [lia| |]; rewrite E; cbn [fmap option_fmap option_map keep_entry]; [|done].
        by rewrite (Hge c) by (lia || done).
    + destruct (cs !! d) as [[c|]|]; [|done..]. destruct (is_stump c k (Some st)); [|done]. by rewrite list_lookup_insert_ne.
Qed.

(** [prune] drops the stumps of a node on the way to [st]. *)
Lemma wp_prune st k n Q (QE : MerkleRadixTrieError -> Txn -> Prop) s : node_wf k n -> key_ok st -> k `prefix_of` st ->
  k = [] \/ key_lt k st = true -> Q (prune_node (Some st) n) s -> wp (prune st (Some st) n) Q QE s.
Proof.
  intros Hn Hst [w Hw] Hk HQ. pose proof (nw_length _ _ Hn) as Hlen. unfold prune. rewrite (nw_key _ _ Hn).
  destruct w as [|d w].
  - rewrite app_nil_r in Hw. subst k. assert (st = []) as -> by (destruct Hk as [|Hk]; [done|by rewrite key_lt_irrefl in Hk]).
    cbn [lookup list_lookup length default]. wp_step. apply wp_assert; [done|]. wp_step. apply wp_assert.
    { rewrite drop_0. apply forallb_forall. intros o Ho%list_elem_of_In. apply list_elem_of_lookup_1 in Ho as [i Hi].
      destruct o as [c|]; [|done]. rewrite is_stump_ok; [by apply prefix_key_le, prefix_nil|]. by apply (nw_entry _ _ Hn _ _ Hi). }
    apply wp_ret. cbn [take app]. replace (set_children n _) with (prune_node (Some []) n); [done|].
    unfold prune_node. f_equal. apply list_eq. intros i. rewrite list_lookup_fmap.
    change (take _ (children n) ++ _) with (replicate 16 (@None TrieNodeChild)).
    destruct (decide (i < 16)%nat) as [Hi|Hi].
    + rewrite lookup_replicate_2 by lia. destruct (lookup_lt_is_Some_2 (children n) i) as [o ->]; [lia|].
      destruct o as [c|]; [|done]. cbn [fmap option_fmap option_map keep_entry range_contains].
      by rewrite (prefix_key_le [] (node_key n ++ suffix c)) by apply prefix_nil.
    + rewrite !lookup_ge_None_2; [done|by rewrite length_replicate; lia|lia].
  - assert (Hd : (d < 16)%nat) by (rewrite Hw in Hst; by eapply below_key_ok).
    assert (Hdig : st !! length k = Some d) by (by rewrite Hw, list_lookup_middle). rewrite Hdig. cbn [default].
    assert (Hlast : (length st <=? length k + 1)%nat = bool_decide (w = [])).
    { rewrite Hw, length_app. cbn [length]. destruct w; cbn [length]; [rewrite bool_decide_true by done; apply Nat.leb_le; lia|].
      rewrite bool_decide_false by done. apply Nat.leb_gt. lia. }
    rewrite Hlast. set (pf := (d + (if bool_decide (w = []) then 0 else 1))%nat).
    pose proof (prune_lookup st k n d w) as Hl. cbv zeta in Hl.
    assert (Hpf : (d + (if decide (w = []) then 0 else 1))%nat = pf) by (unfold pf; by rewrite <-decide_bool_decide).
    rewrite Hpf in Hl. wp_step. apply wp_assert; [rewrite (bool_decide_true (is_Some _)) by eauto; apply orb_true_r|].
    wp_step. apply wp_assert.
    { apply forallb_forall. intros o Ho%list_elem_of_In. apply list_elem_of_lookup_1 in Ho as [i Hi]. rewrite lookup_drop in Hi.
      destruct o as [c|]; [|done]. rewrite is_stump_ok by apply (nw_entry _ _ Hn _ _ Hi). by apply (proj1 (Hl (pf + i)%nat Hn Hw Hd) c); [lia|]. }
    apply wp_ret. match goal with |- Q ?x s => replace x with (prune_node (Some st) n); [done|] end.
    unfold prune_node. f_equal. apply list_eq. intros i. rewrite (nw_key _ _ Hn). by apply (prune_list st k n d w).
Qed.

(** ** Nodes in memory over the stored ones *)

Fixpoint overlay (path : list TrieNode) db : gmap key TrieNode :=
  match path with
  | [] => db
  | p :: path => <[node_key p := p]> (overlay path db)
  end.

Lemma overlay_lookup_ne path db k : (forall p : TrieNode, p ∈ path -> node_key p <> k) -> overlay path db !! k = db !! k.
Proof.
  induction path as [|p path IH]; intros H; [done|]. cbn. rewrite lookup_insert_ne by (apply H, list_elem_of_here).
  apply IH. intros q Hq. apply H. by apply list_elem_of_further.
Qed.
Lemma overlay_insert path db k n : (forall p : TrieNode, p ∈ path -> node_key p <> k) ->
  overlay path (<[k := n]> db) = <[k := n]> (overlay path db).
Proof.
  induction path as [|p path IH]; intros H; [done|]. cbn. rewrite IH by (intros q Hq; apply H; by apply list_elem_of_further).
  apply insert_insert_ne, H, list_elem_of_here.
Qed.
Lemma overlay_delete path db k : (forall p : TrieNode, p ∈ path -> node_key p <> k) ->
  overlay path (delete k db) = delete k (overlay path db).
Proof.
  induction path as [|p path IH]; intros H; [done|]. cbn. rewrite IH by (intros q Hq; apply H; by apply list_elem_of_further).
  symmetry. apply delete_insert_ne, not_eq_sym, H, list_elem_of_here.
Qed.
Lemma path_keys_ne db path k (p : TrieNode) : path_to db path k -> p ∈ path -> node_key p <> k.
Proof. intros Hp Hin E. destruct (path_prefix _ _ _ _ Hp Hin) as (i & t & Et). rewrite E in Et. by apply eq_sym, app_cons_ne in Et. Qed.
Lemma overlay_contents path db : (forall p : TrieNode, p ∈ path -> contents db !! node_key p = value p) -> contents (overlay path db) = contents db.
Proof.
  induction path as [|p path IH]; intros H; [done|]. cbn. rewrite contents_insert_same.
  - apply IH. intros q Hq. apply H. by apply list_elem_of_further.
  - rewrite IH by (intros q Hq; apply H; by apply list_elem_of_further). symmetry. apply H, list_elem_of_here.
Qed.

(** Every stored node above [k] is on the path to it. *)
Lemma path_complete r db path k q m : wf r db -> path_to db path k -> db !! q = Some m -> q `prefix_of` k -> q <> k -> m ∈ path.
Proof.
  intros Hwf Hp Hm. induction Hp as [|n i c path Hp IH Hn Hnw Hr Hc]; intros Hq Hne; [by apply prefix_nil_inv in Hq|].
  destruct (nw_entry _ _ Hnw _ _ Hc) as ((t & Et) & _). rewrite Et in Hq, Hne.
  destruct (prefix_cases q (node_key n) _ Hq (strict_prefix _ _ _)) as [->|[(j & u & E)|(j & u & E)]].
  - rewrite Hn in Hm. injection Hm as <-. apply list_elem_of_here.
  - apply list_elem_of_further, IH; rewrite E; [apply strict_prefix|apply not_eq_sym, app_cons_ne].
  - exfalso. assert (j = i) as -> by (rewrite E in Hq; by apply prefix_app_cons in Hq as [-> _]).
    pose proof (nothing_between Hwf _ _ _ _ _ _ _ Hn Hc Hm E) as Hb. rewrite Et in Hb. apply Hne. by apply (anti_symm prefix).
Qed.

Section Down.
Context (ri : range) (st : key) (db : gmap key TrieNode) (Hwf : wf (Some st) db) (Hst : key_ok st).

(** Stumps are below nodes on the way to [st]. *)
Lemma stump_above k n i c : db !! k = Some n -> entry n i c -> range_contains (Some st) (k ++ suffix c) = true -> k `prefix_of` st.
Proof.
  intros Hn Hc Hr. destruct (decide (k = [])) as [->|Hk]; [apply prefix_nil|].
  destruct (wf_non_root _ _ Hwf _ _ Hn Hk) as [_ Hk']. cbn in Hr, Hk'. eapply key_le_below; [done|]. by rewrite key_lt_le, Hk'.
Qed.
Lemma prune_off_way k n : db !! k = Some n -> ~ k `prefix_of` st -> prune_node (Some st) n = n.
Proof.
  intros Hn Hk. apply (prune_node_id _ k); [by eapply wf_node|]. intros i c Hc.
  destruct (range_contains (Some st) (k ++ suffix c)) eqn:E; [|done]. destruct Hk. by eapply stump_above.
Qed.

(** The lowest node on the way to [st]. *)
Definition lowest (k : key) : Prop := k `prefix_of` st /\ forall q m, db !! q = Some m -> q `prefix_of` st -> q `prefix_of` k.

Lemma wp_clear_down fuel : forall k n opath cu s, (MAX_BYTES * 2 < fuel + length k)%nat -> table s = db -> db !! k = Some n ->
  path_to db opath k -> k `prefix_of` st -> k = [] \/ key_lt k st = true ->
  counted no_counts cu db (overlay (prune_node (Some st) <$> opath) db) ->
  wp (clear_down fuel st (Some st) n (prune_node (Some st) <$> opath) cu)
    (fun res s' => s' = s /\ exists k' n' opath', res.1 = prune_node (Some st) <$> (n' :: opath') /\ db !! k' = Some n' /\
       path_to db opath' k' /\ lowest k' /\ counted no_counts res.2 db (overlay res.1 db))
    (fun _ _ => False) s.
Proof.
  induction fuel as [|fuel IH]; intros k n opath cu s Hf Hs Hn Hpath Hk Hlt Hcnt; pose proof (wf_node _ _ Hwf _ _ Hn) as Hnw.
  { destruct (nw_key_ok _ _ Hnw) as [_ Hl]. lia. }
  cbn [clear_down]. wp_step. apply (wp_prune st k); [done|done|done|done|]. cbv zeta. set (n1 := prune_node (Some st) n).
  assert (Hn1 : node_wf k n1) by (by apply prune_node_wf).
  set (cu1 := apply_update cu (kind n) (kind n1)).
  assert (Hcnt1 : counted no_counts cu1 db (overlay (prune_node (Some st) <$> (n :: opath)) db)).
  { intros kd Hkd. cbn [fmap list_fmap overlay].
    change (node_key (prune_node (Some st) n)) with (node_key n). rewrite (nw_key _ _ Hnw), node_count_insert, (Hcnt kd Hkd).
    rewrite overlay_lookup_ne, Hn.
    - unfold cu1. rewrite cu_get_apply by done. cbn [mbind option_bind]. fold n1. lia.
    - intros p (q & -> & Hq)%list_elem_of_fmap. exact (path_keys_ne db opath k q Hpath Hq). }
  change (n1 :: (prune_node (Some st) <$> opath)) with (prune_node (Some st) <$> (n :: opath)).
  rewrite (nw_key _ _ Hn1).
  (* the next node on the way, if any *)
  assert (Hnext : forall o, (o = None /\ lowest k \/ exists i c, entry n i c /\ o = Some (k ++ suffix c) /\ k ++ suffix c `prefix_of` st /\
      range_contains (Some st) (k ++ suffix c) = false) ->
    wp (match o with
        | Some ck => node ← get_node ck; node ← expect node;
            clear_down fuel st (Some st) node (prune_node (Some st) <$> (n :: opath)) cu1
        | None => mret (prune_node (Some st) <$> (n :: opath), cu1)
        end) (fun res s' => s' = s /\ exists k' n' opath', res.1 = prune_node (Some st) <$> (n' :: opath') /\ db !! k' = Some n' /\
       path_to db opath' k' /\ lowest k' /\ counted no_counts res.2 db (overlay res.1 db)) (fun _ _ => False) s).
  { intros o [[-> Hlow]|(i & c & Hc & -> & Hp & Hr)].
    - apply wp_ret. split; [done|]. exists k, n, opath. by repeat (split; [done|]).
    - destruct (wf_closed _ _ Hwf _ _ _ _ Hn Hc Hr) as [m Hm]. destruct (entry_suffix Hwf _ _ _ _ Hn Hc) as [t Et].
      apply (wp_fetch _ m); [by rewrite Hs|by apply (nw_key _ _ (wf_node _ _ Hwf _ _ Hm))|].
      pose proof (nw_key _ _ Hnw) as Hkn. rewrite <-Hkn in Hn, Hpath.
      eapply (IH (k ++ suffix c) m (n :: opath)); [rewrite Et, length_app; cbn [length]; lia|done|done| |done|right|done].
      + rewrite <-Hkn. by eapply path_extend.
      + cbn in Hr. by rewrite key_lt_le, Hr. }
  assert (Hstop : forall w d, st = k ++ d :: w -> (forall c, entry n d c -> range_contains (Some st) (k ++ suffix c) = false ->
      k ++ suffix c `prefix_of` st -> False) -> lowest k).
  { intros w d Hw Hno. split; [done|]. intros q m Hm Hq. destruct (prefix_cases q k st Hq Hk) as [->|[(j & t & ->)|(j & t & E)]]; [done|apply strict_prefix|].
    exfalso. destruct (entry_towards_node Hwf _ _ _ _ _ _ Hn Hm E) as (c & Hc & Hcq).
    assert (j = d) as ->. { rewrite E, Hw in Hq. by apply prefix_app_cons in Hq as [-> _]. }
    apply (Hno c Hc); [|by etrans]. eapply range_prefix; [done|]. apply (wf_non_root _ _ Hwf _ _ Hm). rewrite E. apply app_cons_not_nil. }
  wp_step. destruct Hk as [[|d w] Hw].
  - rewrite app_nil_r in Hw. rewrite (proj2 (Nat.eqb_eq (length k) (length st))) by (by rewrite Hw). apply wp_ret.
    apply (Hnext None). left. split; [done|]. unfold lowest. rewrite Hw. split; [done|]. by intros q m _ Hq.
  - rewrite (proj2 (Nat.eqb_neq _ _)) by (rewrite Hw, length_app; cbn [length]; lia).
    assert (Hok : key_ok (k ++ d :: w)) by (by rewrite <-Hw).
    destruct (child_key_towards (Some st) k n1 d w Hn1 Hok) as [[Hno Hck]|(c & Hc & Hcok & Hck)]; rewrite <-Hw in Hck; rewrite Hck.
    + apply wp_ret. apply (Hnext None). left. split; [done|]. apply (Hstop w d Hw). intros c Hc Hr _.
      pose proof (proj2 (entry_prune (Some st) k n d c Hnw) (conj Hc Hr)) as Hc1. unfold entry in Hc1. fold n1 in Hc1. congruence.
    + pose proof Hc as Hc'. apply (entry_prune (Some st) k n d c Hnw) in Hc' as [Hc0 Hr]. rewrite Hr. apply wp_ret.
      unfold is_prefix. destruct (bool_decide_reflect (k ++ suffix c `prefix_of` st)) as [Hp|Hp]; [apply (Hnext (Some _))|apply (Hnext None)].
      * right. by exists d, c.
      * left. split; [done|]. apply (Hstop w d Hw). intros c' Hc'' _ Hp'. unfold entry in *. simplify_eq. done.
Qed.

(** ** The table without stumps *)

Lemma overlay_pruned k n opath : db !! k = Some n -> path_to db opath k -> lowest k ->
  overlay (prune_node (Some st) <$> (n :: opath)) db = prune_node (Some st) <$> db.
Proof.
  intros Hn Hpath [Hk Hlow]. apply map_eq. intros q. rewrite lookup_fmap.
  assert (Hin : forall l : list TrieNode, (forall p : TrieNode, p ∈ l -> db !! node_key p = Some p) ->
    overlay (prune_node (Some st) <$> l) db !! q = if decide (Exists (fun x : TrieNode => node_key x = q) l) then prune_node (Some st) <$> db !! q else db !! q).
  { induction l as [|p l IH]; intros Hl; cbn [fmap list_fmap overlay].
    - by rewrite decide_False by (by intros ?%Exists_nil).
    - change (node_key (prune_node (Some st) p)) with (node_key p). destruct (decide (node_key p = q)) as [<-|Hne].
      + rewrite lookup_insert_eq, decide_True by (by left). rewrite Hl by apply list_elem_of_here. done.
      + rewrite lookup_insert_ne by done. rewrite IH by (intros x Hx; apply Hl; by apply list_elem_of_further).
        destruct (decide (Exists _ l)); [by rewrite decide_True by (by right)|].
        rewrite decide_False; [done|]. by intros [|]%Exists_cons. }
  rewrite Hin.
  - destruct (decide (Exists _ _)) as [|Hno]; [done|]. destruct (db !! q) as [m|] eqn:Em; [|done]. cbn. f_equal. symmetry.
    apply (prune_off_way q); [done|]. intros Hq. apply Hno, Exists_exists. pose proof (nw_key _ _ (wf_node _ _ Hwf _ _ Em)) as Eq.
    exists m. split; [|done]. destruct (decide (q = k)) as [->|Hne]; [rewrite Hn in Em; injection Em as <-; apply list_elem_of_here|].
    apply list_elem_of_further. by eapply path_complete; [|done|done|apply (Hlow q m)|].
  - intros p [->|Hp]%elem_of_cons; [by rewrite (nw_key _ _ (wf_node _ _ Hwf _ _ Hn))|]. by eapply root_path_stored.
Qed.

Lemma wf_pruned : wf None (prune_node (Some st) <$> db).
Proof.
  assert (Hback : forall k n1, (prune_node (Some st) <$> db) !! k = Some n1 -> exists n, db !! k = Some n /\ n1 = prune_node (Some st) n).
  { intros k n1. rewrite lookup_fmap, fmap_Some. intros (n & Hn & ->). eauto. }
  split.
  - intros k n1 (n & Hn & ->)%Hback. apply prune_node_wf. by eapply wf_node.
  - destruct (wf_root _ _ Hwf) as (n & Hn & Hv & Hr). exists (prune_node (Some st) n). by rewrite lookup_fmap, Hn.
  - intros k n1 (n & Hn & ->)%Hback Hk. split; [|done]. by apply (wf_non_root _ _ Hwf k n).
  - intros k n1 i c (n & Hn & ->)%Hback [Hc Hr]%(entry_prune _ k); [|by eapply wf_node]. intros _. rewrite lookup_fmap.
    destruct (wf_closed _ _ Hwf _ _ _ _ Hn Hc Hr) as [m ->]. eauto.
  - intros k n1 (n & Hn & ->)%Hback Hk. destruct (wf_parent _ _ Hwf _ _ Hn Hk) as (p & m & i & c & Hm & Hc & ->).
    exists p, (prune_node (Some st) m), i, c. split; [by rewrite lookup_fmap, Hm|]. split; [|done].
    apply (entry_prune _ p); [by eapply wf_node|]. split; [done|]. by apply (wf_non_root _ _ Hwf _ _ Hn).
Qed.

Lemma path_pruned path k n : db !! k = Some n -> path_to db path k ->
  path_to (prune_node (Some st) <$> db) (prune_node (Some st) <$> path) k.
Proof.
  intros Hk Hp. revert n Hk. induction Hp as [|m i c path Hp IH Hm Hnw Hr Hc]; intros n Hk; [constructor|]. cbn [fmap list_fmap].
  change (node_key m) with (node_key (prune_node (Some st) m)). apply path_cons with i.
  - by apply (IH m).
  - rewrite lookup_fmap. cbn. by rewrite Hm.
  - by apply prune_node_wf.
  - change (is_root (prune_node (Some st) m)) with (is_root m). rewrite Hr. by destruct path.
  - apply (entry_prune _ (node_key m)); [done|]. split; [done|]. destruct (nw_entry _ _ Hnw _ _ Hc) as ((t & Et) & _).
    apply (wf_non_root _ _ Hwf _ _ Hk). rewrite Et. apply app_cons_not_nil.
Qed.
End Down.

(** ** Back up *)

Section Up.
Context `{BEnv : BlockEnv} (om : option (gmap key (list Z))) (ri : range) (db : gmap key TrieNode).

(** The table with the nodes in memory while the way up is at [k]: nodes above [k] may
    have too few children, and their parents an old hash for them. *)
Record clearing (k : key) (cu : CountUpdates) (db1 : gmap key TrieNode) : Prop := {
  cl_wf : wf None db1;
  cl_hashes : hashes_ok (fun q => q `prefix_of` k) db1;
  cl_compact : forall q n, db1 !! q = Some n -> ~ q `prefix_of` k -> compact_at q n;
  cl_root : root_data <$> (db1 !! []) = root_data <$> (db !! []);
  cl_counts : counted no_counts cu db db1;
  cl_contents : contents db1 = contents db;
}.

Section Step.
Context (db1 : gmap key TrieNode) (k : key) (cu : CountUpdates) (n p : TrieNode) (i : nat) (c : TrieNodeChild).
Context (Hcl : clearing k cu db1) (Hn : db1 !! k = Some n) (Hp : db1 !! node_key p = Some p) (Hc : entry p i c).
Context (Hk : k = node_key p ++ suffix c).

Lemma below_parent q : q `prefix_of` k -> ~ q `prefix_of` node_key p -> is_Some (db1 !! q) -> q = k.
Proof.
  intros Hq Hnp [m Hm]. destruct (decide (q = k)) as [|Hne]; [done|]. destruct Hnp. rewrite Hk in Hq, Hne.
  destruct (entry_suffix (cl_wf _ _ _ Hcl) _ _ _ _ Hp Hc) as [t Et]. rewrite Et in Hq, Hne.
  destruct (prefix_cases q (node_key p) _ Hq (strict_prefix _ _ _)) as [->|[(j & u & ->)|(j & u & E)]]; [done|apply strict_prefix|].
  exfalso. assert (j = i) as -> by (rewrite E in Hq; by apply prefix_app_cons in Hq as [-> _]).
  pose proof (nothing_between (cl_wf _ _ _ Hcl) _ _ _ _ _ _ _ Hp Hc Hm E) as Hb. rewrite Et in Hb. apply Hne. by apply (anti_symm prefix).
Qed.

(** The node stays. *)
Lemma clearing_keep : compact_at k n -> clearing (node_key p) cu (<[node_key p := reset_entry p k]> db1).
Proof.
  intros Hcomp. pose proof (wf_node _ _ (cl_wf _ _ _ Hcl) _ _ Hp) as Hpw. destruct Hcl as [Hwf Hh Hc1 Hr Hcnt Hct].
  destruct (reset_entry_proper _ _ _ Hpw Hc) as (t & Et & Er). rewrite Hk, Er.
  set (p1 := with_entry p i (Some (mk_child (suffix c) 0))).
  assert (Hp1 : same_shape p p1) by (eapply same_shape_with; [done|done|apply hash_ok_0]).
  split.
  - by eapply wf_update.
  - intros q m j e x Hm He Hhash Hpre Hx. rewrite lookup_insert_ne in Hx by (intros E; apply Hpre; by rewrite <-E).
    assert (Hpre' : (q = node_key p -> j <> i) -> ~ q ++ suffix e `prefix_of` k).
    { intros Hji Hq. pose proof (below_parent _ Hq Hpre ltac:(eauto)) as E.
      assert (exists m0, db1 !! q = Some m0 /\ entry m0 j e) as (m0 & Hm0 & He0).
      { destruct (decide (q = node_key p)) as [->|Hne].
        - rewrite lookup_insert_eq in Hm. injection Hm as <-. apply entry_with in He as [[-> _]|[_ He]]; [by destruct Hji|eauto].
        - rewrite lookup_insert_ne in Hm by done. eauto. }
      rewrite Hk in E. by destruct (parent_unique Hwf _ _ _ _ _ _ _ _ Hm0 He0 Hp Hc E) as [-> ->]; destruct Hji. }
    destruct (decide (q = node_key p)) as [->|Hne].
    + rewrite lookup_insert_eq in Hm. injection Hm as <-. apply entry_with in He as [[-> [= <-]]|[Hj He]]; [done|].
      eapply (Hh (node_key p) p j e x); [done|done|done|by apply Hpre'|done].
    + rewrite lookup_insert_ne in Hm by done. eapply (Hh q m j e x); [done|done|done|by apply Hpre'|done].
  - intros q m Hm Hq. rewrite lookup_insert_ne in Hm by (intros E; apply Hq; by rewrite <-E).
    destruct (decide (q `prefix_of` k)) as [Hqk|Hqk]; [|by apply (Hc1 q)].
    pose proof (below_parent q Hqk Hq ltac:(eauto)) as ->. by rewrite Hn in Hm; injection Hm as <-.
  - destruct (decide (node_key p = [])) as [E|Hne]; [|by rewrite lookup_insert_ne].
    rewrite E in *. rewrite lookup_insert_eq, <-Hr, Hp. done.
  - intros kd Hkd. rewrite node_count_insert, Hp, (Hcnt kd Hkd). cbn [mbind option_bind]. unfold p1. rewrite (kind_replace _ _ c) by done. lia.
  - rewrite <-Hct. apply contents_insert_same. by rewrite lookup_contents, Hp.
Qed.

(** The node goes: it has no children, or one that takes its place. *)
Lemma clearing_drop : has_value n = false -> has_children n = false ->
  let p1 := with_entry p i None in
  clearing (node_key p) (apply_update (apply_update cu (kind n) None) (kind p) (kind p1)) (<[node_key p := p1]> (delete k db1)).
Proof.
  intros Hv Hch p1. destruct Hcl as [Hwf Hh Hc1 Hr Hcnt Hct]. pose proof Hn as Hn'. rewrite Hk in Hn', Hh.
  destruct (remove_leaf_ok None db1 (node_key p) p i c n Hwf Hh Hp Hc Hn' Hch) as (H1 & H2 & H3 & H4 & H5 & H6).
  rewrite <-Hk in H1, H2, H3, H4, H5, H6. fold p1 in H1, H2, H3, H4, H5, H6. split; [done|done| |by rewrite H4| |].
  - intros q m Hm Hq. assert (Hqp : q <> node_key p) by (by intros ->). pose proof (H2 q m Hm Hqp) as Hm0.
    apply (Hc1 q m Hm0). intros Hqk. pose proof (below_parent q Hqk Hq ltac:(eauto)) as ->.
    by rewrite lookup_insert_ne, lookup_delete_eq in Hm.
  - intros kd Hkd. rewrite H5, (Hcnt kd Hkd), !cu_get_apply, kind_val_None by done. lia.
  - rewrite H6, Hct. apply delete_id. rewrite <-Hct, lookup_contents, Hn. cbn. unfold has_value in Hv. by destruct (value n).
Qed.

Lemma clearing_merge j cc : has_value n = false -> entry n j cc -> (forall j' c', entry n j' c' -> j' = j) ->
  let p1 := with_entry p i (Some (mk_child (suffix c ++ suffix cc) (child_hash cc))) in
  clearing (node_key p) (apply_update (apply_update cu (kind n) None) (kind p) (kind p1)) (<[node_key p := p1]> (delete k db1)).
Proof.
  intros Hv Hcc Honly p1. destruct Hcl as [Hwf Hh Hc1 Hr Hcnt Hct]. pose proof Hn as Hn'. rewrite Hk in Hn', Hh.
  destruct (merge_ok None db1 (node_key p) p i c n j cc Hwf Hp Hc Hn' Hcc Honly Hh) as (H1 & H2 & H3 & H4 & H5 & H6).
  rewrite <-Hk in H1, H2, H3, H4, H5, H6. fold p1 in H1, H2, H3, H4, H5, H6. split; [done|done| |by rewrite H4| |].
  - intros q m Hm Hq. apply (H2 q m Hm). intros m0 Hm0 Hqk. apply (Hc1 q m0 Hm0). intros Hqk'. apply Hqk.
    by apply below_parent; eauto.
  - intros kd Hkd. rewrite H5, (Hcnt kd Hkd), !cu_get_apply, kind_val_None by done. unfold p1. rewrite (kind_replace _ _ c) by done. lia.
  - rewrite H6, Hct. apply delete_id. rewrite <-Hct, lookup_contents, Hn. cbn. unfold has_value in Hv. by destruct (value n).
Qed.
End Step.

(** The tables of the steps, from the nodes in memory. *)
Lemma overlay_keep (n p p1 : TrieNode) rest db0 : node_key p1 = node_key p -> node_key p <> node_key n -> (forall q : TrieNode, q ∈ rest -> node_key q <> node_key n) ->
  overlay (p1 :: rest) (<[node_key n := n]> db0) = <[node_key p := p1]> (overlay (n :: p :: rest) db0).
Proof.
  intros Ek Hne Hrest. cbn [overlay]. rewrite Ek, overlay_insert by done.
  by rewrite (insert_insert_ne _ (node_key n) (node_key p)), insert_insert_eq by done.
Qed.
Lemma overlay_drop (n p p1 : TrieNode) rest db0 : node_key p1 = node_key p -> node_key p <> node_key n -> (forall q : TrieNode, q ∈ rest -> node_key q <> node_key n) ->
  overlay (p1 :: rest) (delete (node_key n) db0) = <[node_key p := p1]> (delete (node_key n) (overlay (n :: p :: rest) db0)).
Proof.
  intros Ek Hne Hrest. cbn [overlay]. rewrite Ek, overlay_delete by done.
  by rewrite delete_insert_eq, delete_insert_ne, insert_insert_eq by done.
Qed.

(** At the root. *)
Lemma wp_clear_root n cu s Q (QE : MerkleRadixTrieError -> Txn -> Prop) :
  clearing [] cu (<[[] := n]> (table s)) -> node_key n = [] -> value n = contents (table s) !! [] ->
  root_ok ri db -> recorded om s -> (forall s', step_ok om None ri (contents db) s' -> Q tt s') ->
  wp (rd ← expect (root_data n); put_node (set_root_data n (Some (update_root_data cu rd))) Unchanged) Q QE s.
Proof.
  intros [Hwf Hh Hcomp Hroot Hcnt Hct1] Ek Hval (root & rd & Hr & Hrd & Hi & Hc) Hrec HQ.
  set (db1 := <[[] := n]> (table s)) in *. assert (Hn : db1 !! [] = Some n) by apply lookup_insert_eq.
  rewrite Hn, Hr in Hroot. injection Hroot as Hroot. rewrite Hrd in Hroot.
  wp_step. apply wp_expect with rd; [done|]. eapply wp_put_node; [done|cbn; by rewrite Ek|]. intros s' Hs' Hrec'. cbn in Hs'.
  assert (Hs1 : table s' = <[[] := set_root_data n (Some (update_root_data cu rd))]> db1).
  { rewrite Hs'. unfold db1. by rewrite Ek, insert_insert_eq. }
  apply HQ. split; [|split; [|done]]; rewrite Hs1; [split|].
  - by apply wf_set_root.
  - apply compact_set_root. intros k m Hm Hk. apply (Hcomp k m Hm); [|done]. by intros ?%prefix_nil_inv.
  - apply (hashes_ok_set_root None); [done|done|]. intros k m i c x Hm He Hhash _ Hx. apply (Hh k m i c x); [done|done|done| |done].
    intros Hpre%prefix_nil_inv. destruct (entry_suffix Hwf _ _ _ _ Hm He) as [t Et]. rewrite Et in Hpre. by apply app_cons_not_nil in Hpre.
  - eexists _, _. split; [by rewrite lookup_insert_eq|]. split; [done|]. split; [done|]. intros kd Hkd.
    rewrite node_count_set_root, (Hcnt kd Hkd), rd_get_update, (Hc kd Hkd) by eauto.
    assert (cu_get no_counts kd = 0) as -> by (by destruct kd). unfold wrap. rewrite Zplus_mod_idemp_l. f_equal. lia.
  - by rewrite contents_set_root.
Qed.

Lemma wp_clear_up path : forall node n changed cu s Q (QE : MerkleRadixTrieError -> Txn -> Prop),
  match changed with None => n = node | Some ck => put_child node ck 0 = Ok n end ->
  clearing (node_key n) cu (overlay (n :: path) (table s)) -> path_to (overlay (n :: path) (table s)) path (node_key n) ->
  root_ok ri db -> recorded om s -> contents (table s) = contents db ->
  (forall s', step_ok om None ri (contents db) s' -> Q tt s') -> wp (clear_up node path changed cu) Q QE s.
Proof.
  induction path as [|p rest IH]; intros node n changed cu s Q QE Hchg Hcl Hpath Hroot Hrec Hct HQ; cbn [clear_up]; apply wp_bind.
  all: assert (Hnode : forall Q', Q' n s -> wp match changed with Some ck => unwrap_result (put_child node ck 0) | None => mret node end Q' QE s);
    [intros Q' HQ'; destruct changed as [ck|]; [by eapply wp_unwrap_result|subst n; by apply wp_ret]|apply Hnode; clear Hnode].
  all: set (db1 := overlay (n :: _) (table s)) in *; assert (Hn : db1 !! node_key n = Some n) by apply lookup_insert_eq.
  all: assert (Hval : contents (table s) !! node_key n = value n) by (by rewrite Hct, <-(cl_contents _ _ _ Hcl), lookup_contents, Hn).
  { apply path_nil_inv in Hpath as Ek. rewrite Ek in Hcl, Hval. eapply wp_clear_root; [|done|done|done|done|done].
    unfold db1 in Hcl. cbn [overlay] in Hcl. by rewrite Ek in Hcl. }
  destruct (path_to_top _ _ _ _ Hpath) as (i & c & Hc & Ek & Hp & Hpw & Hrest).
  destruct (nw_entry _ _ Hpw _ _ Hc) as ((t & Et) & Hcok & _).
  assert (Hpn : node_key p <> node_key n) by (rewrite Ek, Et; apply not_eq_sym, app_cons_ne).
  assert (Hrn : forall q : TrieNode, q ∈ rest -> node_key q <> node_key n).
  { intros q Hq. apply (path_keys_ne _ _ _ _ Hpath). by apply list_elem_of_further. }
  assert (Hins : forall (p1 : TrieNode) db', (forall q : TrieNode, q ∈ rest -> db' !! node_key q = db1 !! node_key q) ->
    path_to (<[node_key p := p1]> db') rest (node_key p)).
  { intros p1 db' Hsame. eapply path_to_ext; [done|]. intros q Hq. rewrite lookup_insert_ne; [by apply Hsame|].
    apply not_eq_sym, (path_keys_ne _ _ _ _ Hrest Hq). }
  destruct (negb (has_value n) && (length (iter_children n) <=? 1)%nat) eqn:Hgo.
  - apply andb_true_iff in Hgo as [Hv%negb_true_iff Hlen%Nat.leb_le]. assert (Hv' : value n = None) by (unfold has_value in Hv; by destruct (value n)).
    wp_step. eapply wp_remove_node; [done|cbn; by rewrite Hval|]. intros s1 Hs1 Hrec1. cbv zeta.
    assert (Hct1 : contents (table s1) = contents db) by (rewrite Hs1, contents_delete, delete_id; [done|by rewrite Hval]).
    assert (Hnext : forall p1 : TrieNode, node_key p1 = node_key p ->
      clearing (node_key p) (apply_update (apply_update cu (kind n) None) (kind p) (kind p1)) (<[node_key p := p1]> (delete (node_key n) db1)) ->
      wp (clear_up p1 rest None (apply_update (apply_update cu (kind n) None) (kind p) (kind p1))) Q QE s1).
    { intros p1 Ek1 Hcl1. apply (IH p1 p1); [done| | |done|done|done|done]; rewrite Hs1, (overlay_drop n p) by done; fold db1; rewrite Ek1; [done|].
      apply Hins. intros q Hq. by rewrite lookup_delete_ne by (apply not_eq_sym, Hrn, Hq). }
    wp_step. destruct (has_children n) eqn:Hhc.
    + assert (Hl1 : length (iter_children n) = 1%nat) by (unfold has_children in Hhc; destruct (Nat.eqb_spec (length (iter_children n)) 0); [done|lia]).
      destruct (only_child _ Hl1) as (j & cc & Hcc & Hhd & Honly).
      eapply (wp_replace_only (node_key p) p i c (node_key n)); [done|done|done|done| |done|].
      * by apply (nw_entry _ _ (wf_node _ _ (cl_wf _ _ _ Hcl) _ _ Hn) _ _ Hcc).
      * apply Hnext; [done|]. by eapply clearing_merge.
    + apply wp_unwrap_result with (with_entry p i None).
      { rewrite Ek, Et. rewrite Et in Hcok. by apply remove_child_app. }
      apply Hnext; [done|]. by eapply clearing_drop.
  - wp_step. eapply wp_put_node; [done|by cbn|]. intros s1 Hs1 Hrec1. pose proof Hpw as Hpw'.
    apply (IH p (reset_entry p (node_key n))); [| | |done|done| |done].
    + rewrite Ek, Et, (reset_entry_app (node_key p)) by done. rewrite Et in Hcok. by apply put_child_app.
    + rewrite Hs1. change (node_key (reset_entry p (node_key n))) with (node_key p). rewrite (overlay_keep n p) by done. fold db1.
      eapply clearing_keep; [done|done|done|done|done|]. intros _. apply andb_false_iff in Hgo as [Hv%negb_false_iff|Hlen%Nat.leb_gt]; [left|right; lia].
      unfold has_value in Hv. by destruct (value n).
    + rewrite Hs1. change (node_key (reset_entry p (node_key n))) with (node_key p). rewrite (overlay_keep n p) by done. fold db1. by apply Hins.
    + rewrite Hs1. by rewrite contents_insert_same.
Qed.
End Up.

(** ** [clear_stumps] *)

Lemma wp_clear_stumps `{BEnv : BlockEnv} om st Q (QE : MerkleRadixTrieError -> Txn -> Prop) s : key_ok st ->
  trie_inv (Some st) (Some st) (table s) -> recorded om s ->
  (forall s', step_ok om None (Some st) (contents (table s)) s' -> Q tt s') -> wp (clear_stumps st) Q QE s.
Proof.
  intros Hst [Hwf Hcomp Hh Hroot] Hrec HQ. set (db := table s) in *. pose proof Hroot as (root & rd & Hr & Hrd & Hi & _).
  pose proof (nw_key _ _ (wf_node _ _ Hwf _ _ Hr)) as Hk. unfold clear_stumps. apply (wp_fetch [] root); [done|done|].
  wp_step. apply wp_expect with rd; [done|]. rewrite Hi. wp_step.
  eapply wp_mono; [apply (wp_clear_down st db Hwf Hst depth_fuel [] root [])| |done].
  - unfold depth_fuel. lia.
  - done.
  - done.
  - constructor.
  - apply prefix_nil.
  - by left.
  - intros kd _. cbn. lia.
  - intros [path cu] s' (-> & k & n & opath & Epath & Hn & Hpath & Hlow & Hcnt). cbn [fst snd] in *. subst path.
    pose proof (overlay_pruned st db Hwf k n opath Hn Hpath Hlow) as Hov. rewrite Hov in Hcnt. cbn [fmap list_fmap] in *.
    pose proof (wf_node _ _ Hwf _ _ Hn) as Hnw.
    assert (Hct : contents (prune_node (Some st) <$> db) = contents db) by (by apply contents_fmap).
    assert (Hnk : node_key (prune_node (Some st) n) = k) by apply (nw_key _ _ Hnw).
    eapply (wp_clear_up om (Some st) db); [done| | |done|done|done|done]; fold db; rewrite Hov, Hnk; [|by eapply path_pruned].
    assert (Hsame : forall q m1, (prune_node (Some st) <$> db) !! q = Some m1 -> ~ q `prefix_of` k -> db !! q = Some m1).
    { intros q m1 Hm1 Hq. rewrite lookup_fmap, fmap_Some in Hm1. destruct Hm1 as (m & Hm & ->). rewrite Hm. f_equal. symmetry.
      eapply prune_off_way; [done|done|]. intros Hq'. apply Hq. by apply (proj2 Hlow q m). }
    split; [by apply wf_pruned| | | |done|done].
    + intros q m i c x Hm Hc Hhash Hpre Hx. apply Hsame in Hx; [|done]. rewrite lookup_fmap, fmap_Some in Hm.
      destruct Hm as (m0 & Hm0 & ->). apply (entry_prune _ q) in Hc as [Hc _]; [|by eapply wf_node]. apply (Hh q m0 i c x); tauto.
    + intros q m Hm Hq Hne. by apply (Hcomp q m); [apply Hsame|].
    + rewrite lookup_fmap, Hr. done.
Qed.
