(* ===== verification/TrieMark.v ===== *)
(** * Marking the stumps of an incomplete trie

    [mark_stumps] with the nodes of a verified proof does not panic: on the way to the
    end of a chunk it splits off the nodes that the trie does not have yet and takes
    over the entries of the proof from the end on, and leaves a well-formed trie that
    misses the keys from there on and has the contents of before. *)

From S2P Require Import Prelude Coin AccountTypes Codec TxContent Block KeyNibbles TrieNode.
From S2P Require Import Trie TrieInv TriePath TriePut TrieRemove TrieHash TrieSpec TrieDiff.
From S2P Require Import TrieProof TrieProofSound TrieChunk TrieTruncate TrieStumps.

Implicit Types (db : gmap key TrieNode) (r : range) (n m : TrieNode) (k p q : key) (s : Txn) (x y a : TrieProofNode).

(** ** Updating the keys along a path that is not linked yet *)

Lemma chain_keys ct path : forall kc (p : TrieNode), chain ct kc path -> p ∈ path -> exists i t, kc = node_key p ++ i :: t.
Proof.
  induction path as [|p0 path IH]; intros kc p Hch Hp; [by apply not_elem_of_nil in Hp|].
  destruct Hch as ((i & t & Ek) & _ & _ & _ & Hch). apply elem_of_cons in Hp as [->|Hp]; [eauto|].
  destruct (IH _ _ Hch Hp) as (j & u & Ej). exists j, (u ++ i :: t). by rewrite Ek, Ej, <-app_assoc.
Qed.
Lemma chain_key_ne ct path kc (p : TrieNode) : chain ct kc path -> p ∈ path -> node_key p <> kc.
Proof. intros Hch Hp E. destruct (chain_keys _ _ _ _ Hch Hp) as (i & t & Et). rewrite E in Et. by apply eq_sym, app_cons_ne in Et. Qed.

Lemma climb_insert path : forall kc db k n, (forall p : TrieNode, p ∈ path -> node_key p <> k) ->
  climb kc path (<[k := n]> db) = <[k := n]> (climb kc path db).
Proof.
  induction path as [|p path IH]; intros kc db k n H; [done|]. cbn [climb].
  rewrite (insert_insert_ne _ _ k) by (apply H, list_elem_of_here). apply IH.
  intros q Hq. apply H. by apply list_elem_of_further.
Qed.
Lemma climb_lookup_ne path : forall kc db k, (forall p : TrieNode, p ∈ path -> node_key p <> k) -> climb kc path db !! k = db !! k.
Proof.
  induction path as [|p path IH]; intros kc db k H; [done|]. cbn [climb]. rewrite IH.
  - apply lookup_insert_ne, H, list_elem_of_here.
  - intros q Hq. apply H. by apply list_elem_of_further.
Qed.
Lemma climb_top ct (p : TrieNode) path kc db : chain ct kc (p :: path) ->
  climb kc (p :: path) db = <[node_key p := reset_entry p kc]> (climb (node_key p) path db).
Proof. intros (_ & _ & _ & _ & Hch). cbn [climb]. apply climb_insert. intros q Hq. by eapply chain_key_ne. Qed.

(** The path ends at the root. *)
Definition rooted (path : list TrieNode) : Prop :=
  forall root, last path = Some root -> node_key root = [] /\ is_Some (root_data root).

Lemma climb_bump path cu : forall kc db root, last path = Some root -> node_key root = [] ->
  climb kc (set_bottom path (bump_root cu root)) db = alter (bump_root cu) [] (climb kc path db).
Proof.
  induction path as [|p path IH]; intros kc db root Hl Hk; [done|]. destruct path as [|q path].
  - cbn in Hl. injection Hl as ->. cbn. rewrite Hk.
    rewrite (alter_lookup _ [] (reset_entry root kc)) by apply lookup_insert_eq. by rewrite insert_insert_eq.
  - rewrite set_bottom_cons by done. cbn [climb]. apply IH; [|done]. by eapply last_cons_app.
Qed.
Lemma chain_bump ct path cu : forall kc root, chain ct kc path -> last path = Some root ->
  chain ct kc (set_bottom path (bump_root cu root)).
Proof.
  induction path as [|p path IH]; intros kc root Hch Hl; [done|]. destruct Hch as (Hk & Hw & Hr & Hv & Hch). destruct path as [|q path].
  - cbn in Hl. injection Hl as ->. split; [done|]. split; [by apply same_shape_bump|]. split; [|by split].
    rewrite <-Hr. unfold is_root, bump_root. cbn. by destruct (root_data root).
  - rewrite set_bottom_cons by done. split; [done|]. split; [done|]. split; [|split; [done|]].
    + rewrite Hr, !bool_decide_false; [done| |done]. unfold set_bottom. by destruct (removelast (q :: path)).
    + apply IH; [done|]. by eapply last_cons_app.
Qed.

Lemma wp_update_keys_climb om n path kc cu Q (QE : MerkleRadixTrieError -> Txn -> Prop) s :
  table s !! kc = Some n -> node_key n = kc -> key_ok kc -> chain (contents (table s)) kc path -> rooted (n :: path) ->
  recorded om s ->
  (forall s', table s' = add_counts cu (climb kc path (table s)) -> recorded om s' -> Q tt s') ->
  wp (update_keys (n :: path) cu) Q QE s.
Proof.
  intros Hn Hkn Hok Hch Hrt Hrec HQ. unfold update_keys. wp_step.
  destruct (last (n :: path)) as [root|] eqn:Hl; [|by apply last_None in Hl]. destruct (Hrt _ Hl) as [Hrk [rd Hrd]].
  apply wp_expect with root; [done|]. cbn [head tail hd_error]. destruct (counts_empty cu) eqn:Hcu.
  { wp_step. apply wp_expect with n; [done|]. eapply wp_update_keys_loop; [done..|].
    intros s' Hs'. apply HQ. rewrite Hs'. unfold add_counts. by rewrite Hcu. }
  wp_step. apply wp_expect with rd; [done|]. cbv zeta.
  assert (Hroot' : set_root_data root (Some (update_root_data cu rd)) = bump_root cu root) by (unfold bump_root; by rewrite Hrd).
  rewrite Hroot'. destruct path as [|q path].
  { cbn in Hl |- *. injection Hl as ->. eapply wp_put_node; [done|cbn; by rewrite Hkn, lookup_contents, Hn|].
    intros s' Hs'. cbn in Hs'. apply HQ. unfold add_counts. rewrite Hcu. cbn [climb].
    rewrite (alter_lookup _ [] root) by (by rewrite <-Hrk, Hkn). by rewrite Hs', Hrk. }
  rewrite set_bottom_cons by done. apply last_cons_app in Hl; [|done].
  destruct (Nat.eqb_spec (length (n :: set_bottom (q :: path) (bump_root cu root))) 1) as [Hlen|_].
  { unfold set_bottom in Hlen. cbn [length] in Hlen. rewrite length_app in Hlen. cbn in Hlen. lia. }
  cbn [head hd_error tail]. wp_step. apply wp_expect with n; [done|]. eapply wp_update_keys_loop; [done|done| |done|].
  { by apply chain_bump. }
  intros s' Hs'. apply HQ. rewrite Hs', climb_bump by done. unfold add_counts. by rewrite Hcu.
Qed.

(** ** Changes of one node *)

Section Steps.
Context `{BEnv : BlockEnv} (en : key) (db : gmap key TrieNode).

(** The table with the nodes of the path in memory while the way down is at [k]: the
    entries above [k] have no hash. *)
Record marking (k : key) (cu : CountUpdates) (db1 : gmap key TrieNode) : Prop := {
  mg_wf : wf (Some en) db1;
  mg_hashes : hashes_ok (fun _ => False) db1;
  mg_zero : forall q n i c, db1 !! q = Some n -> entry n i c -> q ++ suffix c `prefix_of` k -> child_hash c = 0;
  mg_root : root_data <$> (db1 !! []) = root_data <$> (db !! []);
  mg_counts : counted no_counts cu db db1;
  mg_contents : contents db1 = contents db;
}.

(** There are no stumps from [k] on down. *)
Definition clean (k : key) (db1 : gmap key TrieNode) : Prop :=
  forall q n i c, db1 !! q = Some n -> k `prefix_of` q -> entry n i c -> range_contains (Some en) (q ++ suffix c) = false.

Lemma zero_no_hash c : child_hash c = 0 -> has_hash c = false.
Proof. unfold has_hash. by intros ->. Qed.

(** Stumps are added to a node. *)
Lemma wf_add_stumps db1 k n n1 : wf (Some en) db1 -> db1 !! k = Some n -> node_wf k n1 -> value n1 = value n ->
  root_data n1 = root_data n -> (forall i c, entry n i c -> entry n1 i c) ->
  (forall i c, entry n1 i c -> entry n i c \/ range_contains (Some en) (k ++ suffix c) = true) ->
  wf (Some en) (<[k := n1]> db1).
Proof.
  intros Hwf Hn Hn1 Hv Hr Hold Hnew. split.
  - intros q m. destruct (decide (q = k)) as [->|Hne]; [rewrite lookup_insert_eq; by intros [= <-]|].
    rewrite lookup_insert_ne by done. apply (wf_node _ _ Hwf).
  - destruct (wf_root _ _ Hwf) as (m & Hm & Hmv & Hmr). destruct (decide (k = [])) as [->|Hne].
    + exists n1. rewrite lookup_insert_eq. simplify_eq. by rewrite Hv, Hr.
    + exists m. by rewrite lookup_insert_ne.
  - intros q m Hm Hq. destruct (decide (q = k)) as [->|Hne].
    + rewrite lookup_insert_eq in Hm. injection Hm as <-. rewrite Hr. by apply (wf_non_root _ _ Hwf k n).
    + rewrite lookup_insert_ne in Hm by done. by apply (wf_non_root _ _ Hwf q m).
  - intros q m i c Hm Hc Hrc.
    assert (is_Some (db1 !! (q ++ suffix c))) as [x Hx].
    { destruct (decide (q = k)) as [->|Hne].
      - rewrite lookup_insert_eq in Hm. injection Hm as <-. destruct (Hnew i c Hc) as [Hc'|]; [by eapply wf_closed|congruence].
      - rewrite lookup_insert_ne in Hm by done. by eapply wf_closed. }
    destruct (decide (k = q ++ suffix c)) as [->|Hne]; [by rewrite lookup_insert_eq|]. by rewrite lookup_insert_ne, Hx.
  - intros q m Hm Hq. assert (exists m0, db1 !! q = Some m0) as [m0 Hm0].
    { destruct (decide (q = k)) as [->|Hne]; [eauto|]. rewrite lookup_insert_ne in Hm by done. eauto. }
    destruct (wf_parent _ _ Hwf _ _ Hm0 Hq) as (p & x & i & c & Hx & Hc & E). destruct (decide (p = k)) as [->|Hne].
    + simplify_eq. exists k, n1, i, c. rewrite lookup_insert_eq. split; [done|]. split; [by apply Hold|done].
    + exists p, x, i, c. by rewrite lookup_insert_ne.
Qed.

Section Here.
Context (db1 : gmap key TrieNode) (k : key) (cu : CountUpdates) (n : TrieNode).
Context (Hmg : marking k cu db1) (Hn : db1 !! k = Some n).

(** Changing the node at [k] leaves the other nodes' hashes right: its parent has none for it. *)
Lemma hashes_change n1 : (forall i c, entry n1 i c -> has_hash c = true -> entry n i c \/ db1 !! (k ++ suffix c) = None) ->
  node_wf k n1 -> hashes_ok (fun _ => False) (<[k := n1]> db1).
Proof.
  intros Hold Hn1 q m i c x Hm Hc Hhash _ Hx. destruct Hmg as [Hwf Hh Hz _ _ _].
  assert (Hne : k <> q ++ suffix c).
  { intros E. destruct (decide (q = k)) as [->|Hqk].
    - rewrite lookup_insert_eq in Hm. injection Hm as <-. destruct (nw_entry _ _ Hn1 _ _ Hc) as ((t & Et) & _).
      rewrite Et in E. by apply eq_sym, app_cons_ne in E.
    - rewrite lookup_insert_ne in Hm by done. pose proof (Hz q m i c Hm Hc ltac:(by rewrite <-E)) as E0.
      by rewrite (zero_no_hash _ E0) in Hhash. }
  rewrite lookup_insert_ne in Hx by done. destruct (decide (q = k)) as [->|Hqk].
  - rewrite lookup_insert_eq in Hm. injection Hm as <-. destruct (Hold i c Hc Hhash) as [Hc'|]; [|congruence].
    apply (Hh k n i c x); tauto.
  - rewrite lookup_insert_ne in Hm by done. apply (Hh q m i c x); tauto.
Qed.

Lemma change_root n1 : root_data n1 = root_data n -> root_data <$> ((<[k := n1]> db1) !! []) = root_data <$> (db !! []).
Proof.
  intros Hr. rewrite <-(mg_root _ _ _ Hmg). destruct (decide (k = [])) as [->|Hne]; [by rewrite lookup_insert_eq, Hn; cbn; rewrite Hr|].
  by rewrite lookup_insert_ne.
Qed.
Lemma change_counts n1 : counted no_counts (apply_update cu (kind n) (kind n1)) db (<[k := n1]> db1).
Proof.
  intros kd Hkd. rewrite node_count_insert, Hn, (mg_counts _ _ _ Hmg kd Hkd), cu_get_apply by done. cbn [mbind option_bind]. lia.
Qed.
Lemma change_contents n1 : value n1 = value n -> contents (<[k := n1]> db1) = contents db.
Proof. intros Hv. rewrite <-(mg_contents _ _ _ Hmg). apply contents_insert_same. by rewrite lookup_contents, Hn. Qed.

(** The entries of the proof from the end on. *)
Lemma marking_take n1 : node_wf k n1 -> value n1 = value n -> root_data n1 = root_data n ->
  (forall i c, entry n i c -> entry n1 i c) ->
  (forall i c, entry n1 i c -> entry n i c \/ range_contains (Some en) (k ++ suffix c) = true) ->
  marking k (apply_update cu (kind n) (kind n1)) (<[k := n1]> db1).
Proof.
  intros Hn1 Hv Hr Hold Hnew. pose proof (mg_wf _ _ _ Hmg) as Hwf. split.
  - by eapply wf_add_stumps.
  - apply hashes_change; [|done]. intros i c Hc _. destruct (Hnew i c Hc) as [|Hrc]; [by left|right].
    destruct (db1 !! (k ++ suffix c)) as [x|] eqn:Ex; [|done]. destruct (nw_entry _ _ Hn1 _ _ Hc) as ((t & Et) & _).
    destruct (wf_non_root _ _ Hwf _ _ Ex); [rewrite Et; apply app_cons_not_nil|congruence].
  - intros q m i c Hm Hc Hp. destruct (decide (q = k)) as [->|Hne].
    + rewrite lookup_insert_eq in Hm. injection Hm as <-. destruct (nw_entry _ _ Hn1 _ _ Hc) as ((t & Et) & _).
      rewrite Et in Hp. by apply not_prefix_longer in Hp.
    + rewrite lookup_insert_ne in Hm by done. by apply (mg_zero _ _ _ Hmg q m i).
  - by apply change_root.
  - apply change_counts.
  - by apply change_contents.
Qed.

(** One step down. *)
Lemma marking_descend i c : entry n i c -> range_contains (Some en) (k ++ suffix c) = false ->
  marking (k ++ suffix c) cu (<[k := reset_entry n (k ++ suffix c)]> db1).
Proof.
  intros Hc Hrc. pose proof (mg_wf _ _ _ Hmg) as Hwf. pose proof (wf_node _ _ Hwf _ _ Hn) as Hnw. pose proof (nw_key _ _ Hnw) as Hk.
  rewrite <-Hk in Hnw. destruct (reset_entry_proper _ _ _ Hnw Hc) as (t & Et & Er). rewrite Hk in Er, Hnw. rewrite Er.
  set (n1 := with_entry n i (Some (mk_child (suffix c) 0))).
  assert (Hs : same_shape n n1) by (eapply same_shape_with; [done|done|apply hash_ok_0]).
  split.
  - by eapply wf_update.
  - apply hashes_change; [|by apply (ss_wf _ _ Hs)]. intros j d [[-> [= <-]]|[_ Hd]]%entry_with Hhash; [done|by left].
  - intros q m j d Hm Hd Hp. destruct (decide (q = k)) as [->|Hne].
    + rewrite lookup_insert_eq in Hm. injection Hm as <-. apply entry_with in Hd as [[-> [= <-]]|[Hj Hd]]; [done|].
      destruct (nw_entry _ _ Hnw _ _ Hd) as ((u & Eu) & _). rewrite Eu, Et in Hp. by apply prefix_app_cons in Hp as [-> _].
    + rewrite lookup_insert_ne in Hm by done. apply (mg_zero _ _ _ Hmg q m j d Hm Hd).
      destruct (wf_closed _ _ Hwf _ _ _ _ Hm Hd) as [x Hx]; [by eapply range_prefix|].
      eapply (target_above (Some en) db1 k n i c); [done|done|done|done|done|]. intros E.
      by destruct (parent_unique Hwf _ _ _ _ _ _ _ _ Hm Hd Hn Hc E).
  - by apply change_root.
  - intros kd Hkd. rewrite (change_counts n1 kd Hkd), cu_get_apply by done. unfold n1. rewrite (kind_replace _ _ c) by done. lia.
  - by apply change_contents.
Qed.
End Here.

(** A node of the proof between the current node and its parent. *)
Lemma marking_split db1 k cu p m i u j (w : key) ch : marking k cu db1 -> is_Some (db1 !! k) -> db1 !! p = Some m -> entry m i ch ->
  suffix ch = i :: u ++ j :: w -> k = p ++ suffix ch -> key_ok k ->
  let x := p ++ i :: u in
  let nx := with_entry (new_empty x) j (Some (mk_child (j :: w) 0)) in
  let db2 := <[p := with_entry m i (Some (mk_child (i :: u) 0))]> (<[x := nx]> db1) in
  marking x (mk_counts (cu_branches cu + 1) (cu_hybrids cu) (cu_leaves cu)) db2 /\ db1 !! x = None /\ db2 !! x = Some nx /\
  (clean k db1 -> clean x db2).
Proof.
  intros Hmg [nk Hnk] Hp Hch Es Ek Hkok x nx db2. pose proof (mg_wf _ _ _ Hmg) as Hwf.
  assert (Ekx : k = x ++ j :: w) by (unfold x; by rewrite Ek, Es, <-app_assoc).
  assert (Hkn : k <> []) by (rewrite Ekx; apply app_cons_not_nil).
  assert (Hxr : range_contains (Some en) x = false).
  { eapply range_prefix; [|by apply (wf_non_root _ _ Hwf _ _ Hnk)]. rewrite Ekx. apply strict_prefix. }
  assert (Hj : (j < 16)%nat) by (rewrite Ekx in Hkok; by eapply below_key_ok).
  assert (Hxok : key_ok x) by (rewrite Ekx in Hkok; by eapply key_ok_app_l).
  assert (Hnx : node_wf x nx) by (apply node_wf_with; [by apply node_wf_empty|by rewrite <-Ekx|apply hash_ok_0]).
  assert (Hnj : entry nx j (mk_child (j :: w) 0)) by (by apply entry_with_new).
  destruct (between_ok (Some en) db1 p m i u j w ch 0 nx Hwf (mg_hashes _ _ _ Hmg) Hp Hch Es Hxr) as (Hf & Hwf1 & _ & Hh1 & Hr1 & Hn1 & Hct1);
    [by left|done|done|done|by apply new_empty_one|].
  fold x in Hf, Hwf1, Hh1, Hr1, Hn1, Hct1. fold db2 in Hwf1, Hh1, Hr1, Hn1, Hct1.
  assert (Hxp : x <> p) by apply app_cons_ne.
  assert (Hx2 : db2 !! x = Some nx) by (unfold db2; by rewrite lookup_insert_ne, lookup_insert_eq).
  (* the entries of the new table *)
  assert (Hent : forall q n i' c, db2 !! q = Some n -> entry n i' c ->
    (q = p /\ i' = i /\ c = mk_child (i :: u) 0) \/ (q = x /\ c = mk_child (j :: w) 0) \/ (exists n0, db1 !! q = Some n0 /\ entry n0 i' c)).
  { intros q n i' c Hq Hc. unfold db2 in Hq. destruct (decide (q = p)) as [->|Hqp].
    - rewrite lookup_insert_eq in Hq. injection Hq as <-. apply entry_with in Hc as [[-> [= <-]]|[_ Hc]]; [by left|right; right; eauto].
    - rewrite lookup_insert_ne in Hq by done. destruct (decide (q = x)) as [->|Hqx]; [|rewrite lookup_insert_ne in Hq by done; right; right; eauto].
      rewrite lookup_insert_eq in Hq. injection Hq as <-. right. left. split; [done|].
      pose proof (new_empty_one x j _ Hj i' c Hc) as ->. unfold entry in *. congruence. }
  assert (Hzero : forall q n i' c, db2 !! q = Some n -> entry n i' c -> q ++ suffix c `prefix_of` x -> child_hash c = 0).
  { intros q n i' c Hq Hc Hpre. destruct (Hent q n i' c Hq Hc) as [(_ & _ & ->)|[(_ & ->)|(n0 & Hn0 & Hc0)]]; [done|done|].
    apply (mg_zero _ _ _ Hmg q n0 i' c Hn0 Hc0). rewrite Ekx. by apply prefix_app_r. }
  split; [split; [done| |done|by rewrite Hr1; apply Hmg| |]|split; [done|split; [done|]]].
  - intros q n i' c y Hq Hc Hhash _ Hy. apply (Hh1 q n i' c y); [done|done|done| |done]. intros Hpre.
    by rewrite (zero_no_hash _ (Hzero _ _ _ _ Hq Hc Hpre)) in Hhash.
  - intros kd Hkd. rewrite Hn1, (mg_counts _ _ _ Hmg kd Hkd), (kind_branch nx j _ eq_refl eq_refl Hnj). solve_counts kd.
  - by rewrite Hct1, (mg_contents _ _ _ Hmg).
  - intros Hclean q n i' c Hq Hxq Hc. destruct (Hent q n i' c Hq Hc) as [(-> & _)|[(-> & ->)|(n0 & Hn0 & Hc0)]].
    + by apply not_prefix_longer in Hxq.
    + cbn [suffix]. rewrite <-Ekx. by apply (wf_non_root _ _ Hwf _ _ Hnk).
    + apply (Hclean q n0 i' c Hn0); [|done]. destruct Hxq as [t Et]. unfold x in Et. rewrite <-app_assoc in Et. cbn in Et.
      rewrite Ek. by apply (nothing_between Hwf _ _ _ _ _ _ _ Hp Hch Hn0 Et).
Qed.

(** The end of the way. *)
Lemma marking_finish k cu db1 ri : marking k cu db1 -> root_ok ri db ->
  wf (Some en) (add_counts cu db1) /\ hashes_ok (fun _ => False) (add_counts cu db1) /\ root_ok ri (add_counts cu db1) /\
  contents (add_counts cu db1) = contents db.
Proof.
  intros [Hwf Hh _ Hr Hcnt Hct] Hroot. split; [by apply wf_add_counts|]. split; [by eapply hashes_ok_add_counts|].
  split; [|by rewrite contents_add_counts]. eapply root_ok_counts; [done|done|]. intros kd Hkd. rewrite (Hcnt kd Hkd).
  assert (cu_get no_counts kd = 0) as -> by (by destruct kd). lia.
Qed.
End Steps.

(** ** The way down *)

Section Way.
Context `{BEnv : BlockEnv} (om : option (gmap key (list Z))) (en : key) (Hen : key_ok en) (db : gmap key TrieNode).

(** The current node, with the nodes above it and what they make of the stored table. *)
Definition here (cur : TrieNode) (path : list TrieNode) s : gmap key TrieNode :=
  <[node_key cur := cur]> (climb (node_key cur) path (table s)).
Record position (cur : TrieNode) (path : list TrieNode) (cu : CountUpdates) s : Prop := {
  ps_marking : marking en db (node_key cur) cu (here cur path s);
  ps_chain : chain (contents db) (node_key cur) path;
  ps_rooted : rooted (cur :: path);
  ps_recorded : recorded om s;
  ps_contents : contents (table s) = contents db;
}.

Lemma here_lookup cur path s : here cur path s !! node_key cur = Some cur.
Proof. apply lookup_insert_eq. Qed.
Lemma here_stored cur path s : chain (contents db) (node_key cur) path -> table s !! node_key cur = Some cur ->
  here cur path s = climb (node_key cur) path (table s).
Proof. intros Hch Hcur. apply insert_id. rewrite climb_lookup_ne; [done|]. intros p. by eapply chain_key_ne. Qed.
Lemma position_node cur path cu s : position cur path cu s -> node_wf (node_key cur) cur.
Proof. intros [Hmg _ _ _ _]. eapply wf_node; [exact (mg_wf _ _ _ _ _ Hmg)|apply here_lookup]. Qed.

Lemma rooted_top n n' path : path <> [] -> rooted (n :: path) -> rooted (n' :: path).
Proof. intros Hne H root Hl. apply H. destruct path; [done|exact Hl]. Qed.

Lemma wp_split_off a cur path cu Q (QE : MerkleRadixTrieError -> Txn -> Prop) s :
  position cur path cu s -> clean en (node_key cur) (here cur path s) -> table s !! node_key cur = Some cur ->
  (pn_key a `prefix_of` node_key cur -> match path with [] => True | p :: _ => exists i t, pn_key a = node_key p ++ i :: t end) ->
  (~ pn_key a `prefix_of` node_key cur -> QE (InvalidChunk ProofMissesNodes) s) ->
  (forall cur' cu', node_key cur' = pn_key a -> pn_key a `prefix_of` node_key cur -> position cur' path cu' s ->
     clean en (pn_key a) (here cur' path s) -> Q (cur', cu') s) ->
  wp (split_off a cur cu) Q QE s.
Proof.
  intros Hpos Hclean Hst Htop HQE HQ. unfold split_off. case_bool_decide as Ek.
  { apply wp_ret. rewrite Ek in *. by apply HQ. }
  wp_step. unfold is_prefix. apply wp_fail_if.
  { intros Hp%negb_true_iff. apply HQE. by apply bool_decide_eq_false in Hp. }
  intros Hp%negb_false_iff. apply bool_decide_eq_true in Hp. destruct Hpos as [Hmg Hch Hrt Hrec Hct].
  destruct (prefix_strict _ _ Hp (not_eq_sym Ek)) as (j & w & Ekc). specialize (Htop Hp).
  assert (Hkok : key_ok (node_key cur)).
  { apply (nw_key_ok _ _ (wf_node _ _ (mg_wf _ _ _ _ _ Hmg) _ _ (here_lookup cur path s))). }
  destruct path as [|p rest].
  { destruct (Hrt cur eq_refl) as [E _]. rewrite E in Ekc. by apply eq_sym, app_cons_not_nil in Ekc. }
  destruct Htop as (i & u & Ea). rewrite here_stored in * by done. pose proof Hch as ((i' & t & Ekt) & Hpw & Hpr & Hpv & Hch').
  assert (i' = i /\ t = u ++ j :: w) as [-> ->].
  { rewrite Ekc, Ea, <-app_assoc in Ekt. apply app_inv_head in Ekt. cbn in Ekt. by injection Ekt as -> ->. }
  set (nx := with_entry (new_empty (pn_key a)) j (Some (mk_child (j :: w) 0))).
  assert (Hxok : key_ok (pn_key a)) by (rewrite Ekc in Hkok; by eapply key_ok_app_l).
  wp_step. apply wp_unwrap_result with nx.
  { unfold put_child_no_hash. rewrite Ekc. apply put_child_app; [by apply node_wf_empty|by rewrite <-Ekc]. }
  apply wp_ret. set (W := climb (node_key cur) (p :: rest) (table s)) in *.
  assert (HW : W = <[node_key p := reset_entry p (node_key cur)]> (climb (node_key p) rest (table s))) by (by eapply climb_top).
  assert (Hm : W !! node_key p = Some (reset_entry p (node_key cur))) by (rewrite HW; apply lookup_insert_eq).
  rewrite Ekt in Hkok. pose proof (nibble_index _ _ _ _ Hpw Hkok) as Hi. rewrite <-Ekt in Hkok.
  pose proof (reset_entry_app (node_key p) p i (u ++ j :: w) eq_refl) as Er. rewrite <-Ekt in Er.
  assert (He : entry (reset_entry p (node_key cur)) i (mk_child (i :: u ++ j :: w) 0)) by (rewrite Er; by apply entry_with_new).
  assert (HWk : W !! node_key cur = Some cur) by (unfold W; rewrite climb_lookup_ne; [done|intros q; by eapply chain_key_ne]).
  destruct (marking_split en db W (node_key cur) cu (node_key p) _ i u j w _ Hmg ltac:(eauto) Hm He eq_refl Ekt Hkok) as (Hmg' & Hf & Hx & Hcl).
  rewrite <-Ea in Hmg', Hf, Hx, Hcl. fold nx in Hmg', Hx, Hcl. set (db2 := <[node_key p := _]> (<[pn_key a := nx]> W)) in *.
  assert (Hpa : pn_key a <> node_key p) by (rewrite Ea; apply app_cons_ne).
  assert (Hcha : chain (contents db) (pn_key a) (p :: rest)) by (split; [eauto|done]).
  assert (Hdb2 : db2 = here nx (p :: rest) s).
  { unfold here. change (node_key nx) with (pn_key a). rewrite (climb_top (contents db)) by done.
    unfold db2. rewrite HW. rewrite (insert_insert_ne _ (pn_key a) (node_key p)), insert_insert_eq by done.
    rewrite insert_insert_ne by done. do 2 f_equal. rewrite Ea, Er, (reset_entry_app (node_key p)) by done.
    unfold with_entry, set_children. cbn. by rewrite list_insert_insert_eq. }
  apply HQ; [done|done| |].
  - split; [by rewrite <-Hdb2|done|by eapply rooted_top|done|done].
  - rewrite <-Hdb2. by apply Hcl.
Qed.

(** [take_stumps] takes the entries from the end on from a node with the same key. *)
Lemma wp_take_stumps a cur nr d (w : key) Q (QE : MerkleRadixTrieError -> Txn -> Prop) s : node_wf (pn_key a) cur -> node_wf (pn_key a) nr ->
  pn_children a = children nr -> en = pn_key a ++ d :: w ->
  (forall i c, entry cur i c -> range_contains (Some en) (pn_key a ++ suffix c) = false) ->
  (forall n1, node_wf (pn_key a) n1 -> value n1 = value cur -> root_data n1 = root_data cur ->
     (forall i c, entry cur i c -> entry n1 i c) ->
     (forall i c, entry n1 i c -> entry cur i c \/ range_contains (Some en) (pn_key a ++ suffix c) = true) -> Q n1 s) ->
  wp (take_stumps en a cur) Q QE s.
Proof.
  intros Hcur Hnr Hch Een Hclean HQ. unfold take_stumps. rewrite (nw_key _ _ Hcur), Hch.
  pose proof (nw_length _ _ Hcur) as Hl. pose proof (nw_length _ _ Hnr) as Hlr.
  assert (Hd : (d < 16)%nat) by (rewrite Een in Hen; by eapply below_key_ok).
  assert (en !! length (pn_key a) = Some d) as -> by (by rewrite Een, list_lookup_middle).
  assert (Hlast : (length (pn_key a) + 1 <? length en)%nat = negb (bool_decide (w = []))).
  { rewrite Een, length_app. destruct w; cbn [length]; [rewrite bool_decide_true by done; apply Nat.ltb_ge; lia|].
    rewrite bool_decide_false by done. apply Nat.ltb_lt. lia. }
  rewrite Hlast. set (si := (d + (if negb (bool_decide (w = [])) then 1 else 0))%nat).
  assert (Hsi : (d + (if decide (w = []) then 0 else 1))%nat = si) by (unfold si; destruct (decide (w = [])) as [->|]; [done|by rewrite bool_decide_false]).
  assert (Hge : forall m i c, node_wf (pn_key a) m -> (si <= i)%nat -> entry m i c -> range_contains (Some en) (pn_key a ++ suffix c) = true).
  { intros m i c Hm Hi Hc. apply (proj1 (prune_lookup en (pn_key a) m d w i Hm Een Hd) c); [by rewrite Hsi|done]. }
  assert (Hsi16 : (si <= 16)%nat) by (unfold si; destruct (negb _); lia).
  wp_step. apply wp_assert.
  { apply forallb_forall. intros o Ho%list_elem_of_In. apply list_elem_of_lookup_1 in Ho as [i Hi]. rewrite lookup_drop in Hi.
    destruct o as [c|]; [|done]. pose proof (Hclean _ _ Hi) as E. by rewrite (Hge cur (si + i)%nat c) in E by (done || lia). }
  apply wp_ret. set (n1 := set_children cur _).
  assert (Hcs : forall i, children n1 !! i = if decide (i < si)%nat then children cur !! i else children nr !! i).
  { intros i. unfold n1. cbn. assert (Hlt : length (take si (children cur)) = si) by (rewrite length_take; lia). destruct (decide (i < si)%nat).
    - by rewrite lookup_app_l, lookup_take_lt by lia.
    - rewrite lookup_app_r, Hlt, lookup_drop by lia. f_equal. lia. }
  assert (Hnew : forall i c, entry n1 i c -> entry cur i c \/ (entry nr i c /\ range_contains (Some en) (pn_key a ++ suffix c) = true)).
  { intros i c Hc. unfold entry in Hc. rewrite Hcs in Hc. destruct (decide (i < si)%nat); [by left|right]. split; [done|]. by apply (Hge nr i); [|lia|]. }
  apply HQ; [|done|done| |].
  - split; [apply Hcur|apply Hcur|unfold n1; cbn; rewrite length_app, length_take, length_drop; lia|].
    intros i c Hc. destruct (Hnew i c Hc) as [Hc'|[Hc' _]]; [by apply Hcur|by apply Hnr].
  - intros i c Hc. unfold entry. rewrite Hcs, decide_True; [done|]. destruct (decide (i < si)%nat); [done|].
    pose proof (Hclean _ _ Hc) as E. by rewrite (Hge cur i c) in E by (done || lia).
  - intros i c Hc. destruct (Hnew i c Hc) as [|[_ Hr]]; auto.
Qed.

(** The position with the new entries, once it is stored. *)
Lemma position_take cur n1 path cu s s1 : position cur path cu s -> clean en (node_key cur) (here cur path s) ->
  node_wf (node_key cur) n1 -> value n1 = value cur -> root_data n1 = root_data cur ->
  (forall i c, entry cur i c -> entry n1 i c) ->
  (forall i c, entry n1 i c -> entry cur i c \/ range_contains (Some en) (node_key cur ++ suffix c) = true) ->
  table s1 = <[node_key cur := n1]> (table s) -> recorded om s1 ->
  position n1 path (apply_update cu (kind cur) (kind n1)) s1 /\ table s1 !! node_key n1 = Some n1 /\
  (forall q m, here n1 path s1 !! q = Some m -> q <> node_key cur -> here cur path s !! q = Some m).
Proof.
  intros [Hmg Hch Hrt Hrec Hct] Hclean Hn1 Hv Hr Hold Hnew Hs1 Hrec1. pose proof (nw_key _ _ Hn1) as Ek.
  assert (Hne : forall p : TrieNode, p ∈ path -> node_key p <> node_key cur) by (intros p; by eapply chain_key_ne).
  assert (Hhere : here n1 path s1 = <[node_key cur := n1]> (here cur path s)).
  { unfold here. rewrite Ek, Hs1, climb_insert by done. by rewrite !insert_insert_eq. }
  pose proof (here_lookup cur path s) as Hcur.
  assert (Hval : value cur = contents db !! node_key cur) by (by rewrite <-(mg_contents _ _ _ _ _ Hmg), lookup_contents, Hcur).
  split; [|split].
  - split; rewrite ?Hhere, ?Ek.
    + by eapply marking_take.
    + done.
    + intros root Hl. destruct path as [|p path]; [|by apply Hrt]. cbn in Hl. injection Hl as <-. rewrite Ek, Hr. by apply Hrt.
    + done.
    + rewrite Hs1. rewrite contents_insert_same; [done|]. by rewrite Hv, Hval, Hct.
  - by rewrite Hs1, Ek, lookup_insert_eq.
  - intros q m Hq Hqk. by rewrite Hhere, lookup_insert_ne in Hq.
Qed.

(** The step to a stored child. *)
Lemma position_descend n1 path cu s i c m : position n1 path cu s -> table s !! node_key n1 = Some n1 -> entry n1 i c ->
  range_contains (Some en) (node_key n1 ++ suffix c) = false -> here n1 path s !! (node_key n1 ++ suffix c) = Some m ->
  (forall q (x : TrieNode), here n1 path s !! q = Some x -> q <> node_key n1 -> node_key n1 `prefix_of` q ->
     forall i c, entry x i c -> range_contains (Some en) (q ++ suffix c) = false) ->
  node_key m = node_key n1 ++ suffix c /\ table s !! node_key m = Some m /\ position m (n1 :: path) cu s /\
  clean en (node_key m) (here m (n1 :: path) s).
Proof.
  intros Hpos Hst Hc Hr Hm Hclean. pose proof (position_node _ _ _ _ Hpos) as Hn1. destruct Hpos as [Hmg Hch Hrt Hrec Hct].
  pose proof (mg_wf _ _ _ _ _ Hmg) as Hwf. pose proof (nw_key _ _ (wf_node _ _ Hwf _ _ Hm)) as Emk.
  destruct (nw_entry _ _ Hn1 _ _ Hc) as ((t & Et) & _). assert (Hne : node_key n1 ++ suffix c <> node_key n1) by (rewrite Et; apply app_cons_ne).
  assert (Hroot : is_root n1 = bool_decide (path = [])).
  { destruct path as [|p path].
    - destruct (Hrt n1 eq_refl) as [_ Hrd]. unfold is_root. by rewrite !bool_decide_true.
    - rewrite (bool_decide_false (_ :: _ = [])) by done. destruct Hch as ((j & u & E) & _).
      destruct (wf_non_root _ _ Hwf _ _ (here_lookup n1 (p :: path) s)) as [Hrd _]; [rewrite E; apply app_cons_not_nil|].
      unfold is_root. by rewrite Hrd, bool_decide_false by (by intros [? ?]). }
  assert (Hval : value n1 = contents db !! node_key n1) by (by rewrite <-(mg_contents _ _ _ _ _ Hmg), lookup_contents, here_lookup).
  assert (Hch' : chain (contents db) (node_key m) (n1 :: path)).
  { split; [exists i, t; by rewrite Emk, Et|]. by repeat (split; [done|]). }
  assert (Hmt : table s !! node_key m = Some m).
  { rewrite Emk. unfold here in Hm. rewrite lookup_insert_ne, climb_lookup_ne in Hm; [done| |done].
    intros p Hp E. destruct (chain_keys _ _ _ _ Hch Hp) as (j & u & E'). rewrite E', Et, <-app_assoc in E. by apply eq_sym, app_cons_ne in E. }
  assert (Hhere : here m (n1 :: path) s = <[node_key n1 := reset_entry n1 (node_key n1 ++ suffix c)]> (here n1 path s)).
  { rewrite (here_stored m) by done. rewrite (climb_top (contents db)) by done. rewrite Emk. unfold here. by rewrite insert_insert_eq. }
  split; [done|]. split; [done|]. split.
  - split; [|done| |done|done].
    + rewrite Hhere, Emk. by eapply marking_descend; [|apply here_lookup|..].
    + intros root Hl. apply Hrt. by eapply last_cons_app.
  - rewrite Hhere, Emk. intros q x j e Hx Hq He. assert (q <> node_key n1).
    { intros ->. rewrite Et in Hq. by apply not_prefix_longer in Hq. }
    rewrite lookup_insert_ne in Hx by done. apply (Hclean q x Hx ltac:(done) ltac:(by eapply prefix_app_l) j e He).
Qed.

(** The nodes of the proof from the root down, and the trie that they are from; the end
    is one nibble below one of them. *)
Section Loop.
Context (rf : gmap key TrieNode) (Hrf : wf None rf) (l : list TrieProofNode) (pe : key) (d0 : nat) (Hpe : en = pe ++ [d0]).
Context (Hgen : forall x, x ∈ l -> genuine rf x) (Hin : exists x, x ∈ l /\ pn_key x = pe).
Context (Hnext : forall l1 a y l2, l = l1 ++ a :: y :: l2 -> pn_has_children a = true -> pn_key a `prefix_of` pn_key y -> parent_of a y).
Context (Hup : forall l1 a y l2, l = l1 ++ a :: y :: l2 -> pn_key y `prefix_of` pn_key a -> pn_key y <> pn_key a -> False).

Lemma next_on_way l1 a y l2 e (u v : key) : l = l1 ++ a :: y :: l2 -> pe = pn_key a ++ e :: u ->
  pn_key y `prefix_of` pn_key a ++ e :: v -> pn_key y `prefix_of` pe /\ exists i t, pn_key y = pn_key a ++ i :: t.
Proof.
  intros El Epe Hy. assert (Ha : a ∈ l) by (rewrite El; set_solver).
  destruct (Hgen a Ha) as (na & Hna & Hca & _). destruct Hin as (x & Hx & Ex). destruct (Hgen x Hx) as (np & Hnp & _). rewrite Ex in Hnp.
  destruct (entry_towards_node Hrf _ _ _ _ _ _ Hna Hnp Epe) as (c & Hc & Hcp).
  assert (Hhc : pn_has_children a = true) by (unfold pn_has_children; rewrite Hca; apply existsb_exists; exists (Some c); split; [apply list_elem_of_In; by eapply list_elem_of_lookup_2|by rewrite bool_decide_true by eauto]).
  assert (Hay : pn_key a `prefix_of` pn_key y).
  { destruct (prefix_cases (pn_key y) (pn_key a) _ Hy (strict_prefix _ _ _)) as [->|[(i & t & E)|(i & t & ->)]]; [done| |apply strict_prefix].
    exfalso. apply (Hup l1 a y l2 El); rewrite E; [apply strict_prefix|apply not_eq_sym, app_cons_ne]. }
  destruct (Hnext l1 a y l2 El Hhc Hay) as (i & c' & Hc' & _ & Ey & _). rewrite Hca in Hc'.
  destruct (entry_suffix Hrf _ _ _ _ Hna Hc') as [t Et]. rewrite Ey, Et in Hy. apply prefix_app_cons in Hy as [-> _].
  unfold entry in Hc. rewrite Hc in Hc'. injection Hc' as <-. rewrite Ey. split; [done|]. exists e, t. by rewrite Et.
Qed.

Definition reached (res : list TrieNode * CountUpdates) s : Prop :=
  exists n path, res.1 = n :: path /\ position n path res.2 s /\ table s !! node_key n = Some n.

Lemma wp_mark_loop rest : forall l1 a cur path cu s, l = l1 ++ a :: rest -> (exists x, x ∈ a :: rest /\ pn_key x = pe) ->
  position cur path cu s -> clean en (node_key cur) (here cur path s) -> table s !! node_key cur = Some cur ->
  (pn_key a `prefix_of` node_key cur -> pn_key a `prefix_of` pe /\
     match path with [] => True | p :: _ => exists i t, pn_key a = node_key p ++ i :: t end) ->
  wp (mark_loop en a rest cur path cu) reached (fun e _ => e = InvalidChunk ProofMissesNodes) s.
Proof.
  induction rest as [|y rest IH]; intros l1 a cur path cu s El Hrest Hpos Hclean Hst Hway; cbn [mark_loop]; wp_step.
  all: apply (wp_split_off a cur path cu); [done|done|done|intros Hp; by apply Hway|done|]; intros cur' cu' Ek Hp Hpos' Hclean'; destruct (Hway Hp) as [Hape _].
  all: assert (Ha : a ∈ l) by (rewrite El; set_solver); destruct (Hgen a Ha) as (nr & Hnr & Hcr & _); pose proof (wf_node _ _ Hrf _ _ Hnr) as Hnrw.
  all: assert (Hent : exists d w, en = pn_key a ++ d :: w) by
    (destruct Hape as [[|d w] E]; [exists d0, []|exists d, (w ++ [d0])]; rewrite Hpe, E, ?app_nil_r, <-?app_assoc; done).
  all: destruct Hent as (d & w & Een); pose proof (position_node _ _ _ _ Hpos') as Hcw; rewrite Ek in Hcw; cbv zeta; wp_step.
  all: eapply (wp_take_stumps a cur' nr d w); [done|done|done|done|intros i c Hc; by eapply (Hclean' (pn_key a)); [rewrite <-Ek; apply here_lookup|..]|].
  all: intros n1 Hn1 Hv Hr Hold Hnew; rewrite <-Ek in Hn1, Hnew, Hclean'; pose proof (nw_key _ _ Hn1) as En1.
  all: assert (Hval : contents (table s) !! node_key cur' = value cur') by
    (rewrite (ps_contents _ _ _ _ Hpos'), <-(mg_contents _ _ _ _ _ (ps_marking _ _ _ _ Hpos')), lookup_contents, here_lookup; done).
  all: wp_step; eapply wp_put_node; [apply Hpos'|cbn; by rewrite En1, Hval|]; intros s1 Hs1 Hrec1; rewrite En1 in Hs1.
  all: destruct (position_take cur' n1 path cu' s s1 Hpos' Hclean' Hn1 Hv Hr Hold Hnew Hs1 Hrec1) as (Hpos1 & Hst1 & Hback).
  { apply wp_ret. by exists n1, path. }
  rewrite Ek in En1. destruct (child_key_towards (Some en) (pn_key a) n1 d w) as [[Hno Hck]|(c & Hc & Hcok & Hck)];
    [by rewrite <-Ek|by rewrite <-Een|rewrite <-Een in Hck; rewrite Hck; apply wp_ret; by exists n1, path|].
  rewrite <-Een in Hck. rewrite Hck. destruct (range_contains (Some en) (pn_key a ++ suffix c)) eqn:Hrc; [apply wp_ret; by exists n1, path|].
  pose proof (mg_wf _ _ _ _ _ (ps_marking _ _ _ _ Hpos1)) as Hwf1. rewrite <-En1 in Hrc.
  destruct (wf_closed _ _ Hwf1 _ _ _ _ (here_lookup n1 path s1) Hc Hrc) as [m Hm].
  destruct (position_descend n1 path _ s1 d c m Hpos1 Hst1 Hc Hrc Hm) as (Emk & Hmt & Hposm & Hcleanm).
  { intros q x Hx Hne Hq i e He. rewrite En1 in Hne, Hq. apply (Hclean' q x i e); [by apply Hback; [|rewrite Ek]|by rewrite Ek|done]. }
  rewrite <-En1, <-Emk. apply (wp_fetch _ m); [done|done|].
  destruct (entry_suffix Hwf1 _ _ _ _ (here_lookup n1 path s1) Hc) as [t Et]. rewrite Et, En1 in Emk.
  assert (Hne : pn_key a <> pe).
  { intros E. rewrite En1, Et in Hrc. cbn in Hrc. rewrite E in Een, Hrc. rewrite Hpe in Een. apply app_inv_head in Een. injection Een as <- _.
    rewrite Hpe in Hrc. by rewrite prefix_key_le in Hrc by (apply prefix_app, prefix_cons, prefix_nil). }
  destruct (prefix_strict _ _ Hape Hne) as (e & u & Epe).
  assert (e = d) as -> by (rewrite Hpe, Epe, <-app_assoc in Een; apply app_inv_head in Een; by injection Een).
  apply (IH (l1 ++ [a]) y); [by rewrite <-app_assoc| |done|done|done|].
  - destruct Hrest as (x & [->|Hx]%elem_of_cons & Ex); [done|]. by exists x.
  - intros Hy. rewrite Emk in Hy. rewrite En1. by eapply next_on_way.
Qed.
End Loop.
End Way.

(** ** The order of the nodes of a proof *)

Section Order.
Context `{BEnv : BlockEnv} {E : Type}.

Lemma check_children_top (node : TrieProofNode) x st rest : proof_node_ok node -> proof_node_ok x ->
  pn_key node `prefix_of` pn_key x -> check_children (E := E) node (x :: st) = Ok (Some rest) -> parent_of node x.
Proof.
  intros Hn [Hx _] Hp. cbn [check_children]. unfold is_prefix. rewrite bool_decide_true by done. rewrite pn_child_key_eq.
  destruct (pn_child_cases node (pn_key x)) as [(e & -> & _)|(i & t & c & Ek & Hc & ->)]; [apply Hn|done|done|].
  destruct (_ <? _)%nat; [done|]. destruct (child_hash c =? proof_node_hash x) eqn:Eh; cbn [negb orb]; [|done].
  case_bool_decide as Es; cbn [negb]; [|done]. intros _. exists i, c. apply Z.eqb_eq in Eh. split; [done|]. split; [done|]. split; [done|].
  rewrite Ek, length_app. cbn [length]. lia.
Qed.
Lemma check_children_stop (node : TrieProofNode) st x rest : check_children (E := E) node st = Ok (Some (x :: rest)) ->
  ~ pn_key node `prefix_of` pn_key x.
Proof.
  induction st as [|y st IH]; cbn [check_children]; [done|]. destruct (is_prefix (pn_key node) (pn_key y)) eqn:Ep.
  - destruct (pn_child node (pn_key y)) as [c| |], (pn_child_key node (pn_key y)) as [k| |]; try done. destruct (_ || _); [done|]. apply IH.
  - intros [= -> ->]. by apply bool_decide_eq_false in Ep.
Qed.

(** The entries of a node start with their index. *)
Definition digits_ok (node : TrieProofNode) : Prop := forall i c, pn_children node !! i = Some (Some c) -> exists t, suffix c = i :: t.

Lemma parents_apart (node : TrieProofNode) x y : digits_ok node -> parent_of node x -> parent_of node y -> pn_key y `prefix_of` pn_key x -> pn_key y = pn_key x.
Proof.
  intros Hd (i & c & Hc & _ & Ex & _) (j & e & He & _ & Ey & _) Hp. destruct (Hd _ _ Hc) as [t Et], (Hd _ _ He) as [u Eu].
  rewrite Ex, Ey, Et, Eu in Hp. apply prefix_app_cons in Hp as [-> _]. rewrite Ex, Ey. congruence.
Qed.

(** A node directly below one of its descendants on the stack stays there. *)
Lemma verify_loop_stuck l : forall T x y rest final, Forall proof_node_ok l -> Forall digits_ok l -> Forall proof_node_ok (T ++ x :: y :: rest) ->
  pn_key y `prefix_of` pn_key x -> pn_key y <> pn_key x ->
  verify_loop (E := E) l (T ++ x :: y :: rest) = Ok (Some final) -> exists T' x', final = T' ++ x' :: y :: rest.
Proof.
  induction l as [|w l IH]; intros T x y rest final Hl Hdl Hst Hp Hne; cbn [verify_loop]; [intros [= <-]; eauto|].
  apply Forall_cons in Hl as [Hw Hl], Hdl as [Hdw Hdl].
  assert (Hpush : verify_loop (E := E) l (w :: T ++ x :: y :: rest) = Ok (Some final) -> exists T' x', final = T' ++ x' :: y :: rest).
  { apply (IH (w :: T)); [done|done|by constructor|done|done]. }
  destruct (pn_has_children w); [|exact Hpush]. destruct (check_children_ok (E := E) w _ Hw Hst) as (o & Ho & Hl0). rewrite Ho.
  cbn [mbind outcome_bind]. destruct o as [st2|]; [|done]. destruct (Hl0 st2 eq_refl) as (l0 & Est & Hpar). intros Hv.
  apply app_eq_inv in Est as [(T2 & -> & ->)|(l2 & -> & Ex)].
  - apply (IH (w :: T2) x y rest final); [done|done| |done|done|exact Hv]. apply Forall_app in Hst as [HT Hst]. apply Forall_app in HT as [_ HT].
    by constructor; [|apply Forall_app].
  - destruct l2 as [|x2 l2]; [cbn in Ex; subst st2; apply (IH [w] x y rest final); [done|done| |done|done|exact Hv]; apply Forall_app in Hst as [_ Hst]; by constructor|].
    cbn in Ex. injection Ex as <- Ex. apply Forall_app in Hpar as [_ Hpar]. apply Forall_cons in Hpar as [Hpx Hpar].
    destruct l2 as [|y2 l2].
    + cbn in Ex. subst st2. apply check_children_stop in Ho as Hstop. destruct Hpx as (i & c & Hc & _ & Ex & _).
      destruct (Hdw _ _ Hc) as [t Et]. rewrite Et in Ex.
      assert (Hyw : pn_key y `prefix_of` pn_key w /\ pn_key y <> pn_key w).
      { rewrite Ex in Hp. destruct (prefix_cases (pn_key y) (pn_key w) _ Hp (strict_prefix _ _ _)) as [Eq|[(j & u & Eq)|(j & u & Eq)]].
        - by destruct Hstop; rewrite Eq.
        - rewrite Eq. split; [apply strict_prefix|apply not_eq_sym, app_cons_ne].
        - destruct Hstop. rewrite Eq. apply strict_prefix. }
      apply (IH [] w y rest final); [done|done| |apply Hyw|apply Hyw|exact Hv].
      apply Forall_app in Hst as [_ Hst]. apply Forall_cons in Hst as [_ Hst]. by constructor.
    + exfalso. cbn in Ex. injection Ex as <- _. apply Forall_cons in Hpar as [Hpy _]. by apply Hne, (parents_apart w).
Qed.

Lemma verify_loop_app l1 l2 st final : verify_loop (E := E) (l1 ++ l2) st = Ok (Some final) ->
  exists st1, verify_loop (E := E) l1 st = Ok (Some st1) /\ verify_loop (E := E) l2 st1 = Ok (Some final).
Proof.
  revert st. induction l1 as [|y l1 IH]; intros st; cbn [app verify_loop]; [eauto|].
  destruct (if pn_has_children y then _ else _) as [[st'|]| |]; cbn [mbind outcome_bind]; [apply IH|done..].
Qed.

(** Two nodes in a row, and the stacks when they are visited. *)
Lemma verify_pair (l : list TrieProofNode) final l1 a y l2 : Forall proof_node_ok l -> Forall digits_ok l -> verify_loop (E := E) l [] = Ok (Some final) ->
  rev l = l1 ++ a :: y :: l2 -> exists st1 st2,
    Forall proof_node_ok (a :: y :: st1) /\ Forall proof_node_ok (rev l1) /\ Forall digits_ok (rev l1) /\
    (if pn_has_children a then check_children (E := E) a (y :: st1) = Ok (Some st2) else st2 = y :: st1) /\
    verify_loop (E := E) (rev l1) (a :: st2) = Ok (Some final).
Proof.
  intros Hok Hd Ho Er. apply (f_equal (@rev _)) in Er. rewrite rev_involutive, rev_app_distr in Er. cbn [rev] in Er. rewrite <-!app_assoc in Er. cbn [app] in Er.
  rewrite Er in Ho, Hok, Hd. apply verify_loop_app in Ho as (st0 & Hst0 & Ho). apply Forall_app in Hok as [Hok2 Hok], Hd as [Hd2 Hd].
  apply Forall_cons in Hok as [Hy Hok], Hd as [_ Hd]. apply Forall_cons in Hok as [Ha Hok], Hd as [_ Hd].
  assert (Hst0' : Forall proof_node_ok st0).
  { destruct (verify_loop_ok (E := E) (rev l2) [] Hok2 ltac:(constructor)) as (o & Ho' & Hf). rewrite Hst0 in Ho'. injection Ho' as <-.
    apply Forall_forall. intros x Hx. destruct (Hf st0 eq_refl) as [Hf1 _]. apply Hf1 in Hx. rewrite app_nil_r in Hx. by apply (proj1 (Forall_forall _ _) Hok2). }
  cbn [verify_loop] in Ho.
  assert (exists st1, Forall proof_node_ok st1 /\ (if pn_has_children y then check_children (E := E) y st0 else Ok (Some st0)) = Ok (Some st1)) as (st1 & Hst1 & E1).
  { destruct (pn_has_children y); [|eauto]. destruct (check_children_ok (E := E) y st0 Hy Hst0') as (o & E1 & Hl). rewrite E1 in Ho |- *.
    destruct o as [st1|]; [|done]. exists st1. split; [|done]. destruct (Hl st1 eq_refl) as (l0 & -> & _). by apply Forall_app in Hst0' as [_ ?]. }
  rewrite E1 in Ho. cbn [mbind outcome_bind] in Ho.
  destruct (if pn_has_children a then _ else _) as [[st2|]| |] eqn:E2 in Ho; cbn [mbind outcome_bind] in Ho; try done.
  exists st1, st2. split; [by do 2 (constructor; [done|])|]. split; [done|]. split; [done|]. split; [|done].
  destruct (pn_has_children a); [done|]. by injection E2.
Qed.

Lemma verify_order self h : Forall proof_node_ok (nodes self) -> Forall digits_ok (nodes self) -> verify (E := E) self h = Ok true ->
  (forall l1 a y l2, rev (nodes self) = l1 ++ a :: y :: l2 -> pn_has_children a = true -> pn_key a `prefix_of` pn_key y -> parent_of a y) /\
  (forall l1 a y l2, rev (nodes self) = l1 ++ a :: y :: l2 -> pn_key y `prefix_of` pn_key a -> pn_key y <> pn_key a -> False).
Proof.
  intros Hok Hd Hv. unfold verify in Hv. destruct (length (nodes self) =? 0)%nat; [done|].
  destruct (verify_loop_ok (E := E) (nodes self) [] Hok ltac:(constructor)) as (o & Ho & _). rewrite Ho in Hv. cbn [mbind outcome_bind] in Hv.
  destruct o as [final|]; [|done].
  assert (Hlen : length final = 1%nat) by (destruct final as [|? [|? ?]]; [done|done|done]). clear Hv.
  split; intros l1 a y l2 Er; destruct (verify_pair (nodes self) final l1 a y l2 Hok Hd Ho Er) as (st1 & st2 & Hst & Hok1 & Hd1 & Hchk & Hfin);
    apply Forall_cons in Hst as [Ha Hst]; apply Forall_cons in Hst as [Hy Hst].
  - intros Hc Hp. rewrite Hc in Hchk. by eapply check_children_top.
  - intros Hp Hne. assert (st2 = y :: st1) as ->.
    { destruct (pn_has_children a); [|done]. cbn [check_children] in Hchk. unfold is_prefix in Hchk. rewrite bool_decide_false in Hchk; [by injection Hchk|].
      intros Hp'. apply Hne. by apply (anti_symm prefix). }
    destruct (verify_loop_stuck (rev l1) [] a y st1 final) as (T' & x' & ->); [done|done|by do 2 (constructor; [done|])|done|done|done|].
    rewrite length_app in Hlen. cbn in Hlen. lia.
Qed.
End Order.
