(* ===== verification/TriePutChunk.v ===== *)
(** * Pushing a chunk onto an incomplete trie

    [put_chunk] with any chunk that its sender could make: it does not panic, and a
    chunk that it applies leaves a trie with the contents that the trie with the
    expected root hash has before the end of the chunk, unless hashed strings
    collide. *)

From S2P Require Import Prelude Coin AccountTypes Codec TxContent Block KeyNibbles TrieNode.
From S2P Require Import Trie TrieInv TriePath TriePut TrieRemove TrieHash TrieSpec TrieDiff.
From S2P Require Import TrieProof TrieProofSound TrieChunk TrieTruncate TrieStumps TrieMark.

Implicit Types (db : gmap key TrieNode) (r : range) (n m : TrieNode) (k p q : key) (s : Txn).

(** ** Putting the items *)

Section Items.
Context `{BEnv : BlockEnv}.

(** [put_raw] does the same for two missing ranges that make the same stumps. *)
Lemma put_loop_range r r1 r2 k v fuel : forall cur path s, wf r (table s) -> key_ok k ->
  (forall k n i c, table s !! k = Some n -> entry n i c -> range_contains r1 (k ++ suffix c) = range_contains r2 (k ++ suffix c)) ->
  table s !! node_key cur = Some cur ->
  put_loop fuel k v r1 cur path s = put_loop fuel k v r2 cur path s.
Proof.
  induction fuel as [|fuel IH]; intros cur path s Hwf Hk Hsame Hcur; [done|]. cbn [put_loop].
  pose proof (wf_node _ _ Hwf _ _ Hcur) as Hcw.
  destruct (is_prefix (node_key cur) k) eqn:Hp; cbn [negb]; [|done]. case_bool_decide as Hne; [done|].
  apply bool_decide_eq_true in Hp. destruct (prefix_strict _ _ Hp Hne) as (i & t & Ek). rewrite Ek in Hk.
  assert (child_key cur k r1 = child_key cur k r2) as ->.
  { destruct (child_key_towards r1 _ cur i t Hcw Hk) as [[Hi E1]|(c & Hc & Hcok & E1)],
      (child_key_towards r2 _ cur i t Hcw Hk) as [[Hi' E2]|(c' & Hc' & Hcok' & E2)]; rewrite Ek, E1, E2; unfold entry in *; try congruence.
    simplify_eq. by rewrite (Hsame _ _ _ _ Hcur Hc). }
  destruct (child_key_towards r2 _ cur i t Hcw Hk) as [[Hi E2]|(c & Hc & Hcok & E2)]; rewrite <-Ek in E2; rewrite E2; [done|].
  destruct (range_contains r2 _) eqn:Hr; [done|].
  assert (Hget : forall (f : option TrieNode -> TrieM (list TrieNode * CountUpdates)) ck, (get_node ck ≫= f) s = f (set_key ck <$> table s !! ck) s) by done.
  rewrite !Hget. destruct (table s !! (node_key cur ++ suffix c)) as [m|] eqn:Em; [|done].
  cbn [fmap option_fmap option_map]. rewrite (set_key_wf r (table s)) by done.
  apply IH; [done|by rewrite Ek|done|by rewrite (nw_key _ _ (wf_node _ _ Hwf _ _ Em))].
Qed.
Lemma put_raw_range r r1 r2 k v s : wf r (table s) -> key_ok k ->
  (forall k n i c, table s !! k = Some n -> entry n i c -> range_contains r1 (k ++ suffix c) = range_contains r2 (k ++ suffix c)) ->
  put_raw k v r1 s = put_raw k v r2 s.
Proof.
  intros Hwf Hk Hsame. destruct (wf_root _ _ Hwf) as (root & Hroot & _). pose proof (nw_key _ _ (wf_node _ _ Hwf _ _ Hroot)) as Er.
  unfold put_raw.
  assert (Hget : forall (f : option TrieNode -> TrieM unit), (get_root ≫= f) s = f (set_key [] <$> table s !! []) s) by done.
  rewrite !Hget, Hroot. cbn [fmap option_fmap option_map]. rewrite (set_key_wf r (table s)) by done.
  assert (Hbind : forall (f : list TrieNode * CountUpdates -> TrieM unit) r', (expect (Some root) ≫= (fun cur => put_loop depth_fuel k v r' cur [] ≫= f)) s =
    match put_loop depth_fuel k v r' root [] s with (Ok a, s') => f a s' | (Err e, s') => (Err e, s') | (Panic, s') => (Panic, s') end) by done.
  rewrite !Hbind, (put_loop_range r r1 r2) by (done || by rewrite Er). done.
Qed.

(** The keys of a complete trie lie before [b] if those of its contents do. *)
Lemma complete_before db b : wf None db -> compact db -> (forall k v, contents db !! k = Some v -> key_lt k b = true) ->
  forall k n, db !! k = Some n -> k <> [] -> key_lt k b = true.
Proof.
  intros Hwf Hcomp Hct k n Hn Hk.
  destruct (leads_to_value db Hwf Hcomp (S (MAX_BYTES * 2)) k n) as (q & v & Hq & Hv); [lia|done|done|].
  eapply key_le_lt_trans; [by apply prefix_key_le|]. by eapply Hct.
Qed.

Definition item_ok (it : TrieItem) : Prop := key_ok (item_key it) /\ value_ok (item_value it).
Definition put_item (ct : gmap key (list Z)) (it : TrieItem) : gmap key (list Z) := <[item_key it := item_value it]> ct.

Definition before_end (e : range) k : Prop := range_contains e k = false.

(** Without stumps, the items of a chunk are put as into a complete trie. *)
Lemma wp_put_items om ri e its : forall Q (QE : MerkleRadixTrieError -> Txn -> Prop) s,
  Forall item_ok its -> Forall (fun it => item_key it <> [] /\ before_end e (item_key it)) its ->
  trie_inv None ri (table s) -> recorded om s -> (forall k v, contents (table s) !! k = Some v -> before_end e k) ->
  (forall s', step_ok om None ri (foldl put_item (contents (table s)) its) s' ->
     (forall k v, contents (table s') !! k = Some v -> before_end e k) -> Q tt s') ->
  wp (put_items its e) Q QE s.
Proof.
  induction its as [|it its IH]; intros Q QE s Hok Hbef Hinv Hrec Hct HQ; cbn [put_items].
  { apply wp_ret. apply HQ; [by split|done]. }
  apply Forall_cons in Hok as [[Hk Hv] Hok], Hbef as [[Hne Hb] Hbef]. pose proof (ti_wf _ _ _ Hinv) as Hwf.
  assert (Hsame : forall k n i c, table s !! k = Some n -> entry n i c -> range_contains e (k ++ suffix c) = range_contains None (k ++ suffix c)).
  { intros k n i c Hn Hc. destruct e as [b|]; [|done]. destruct (wf_closed _ _ Hwf _ _ _ _ Hn Hc eq_refl) as [m Hm].
    destruct (entry_suffix Hwf _ _ _ _ Hn Hc) as [t Et]. cbn.
    assert (key_lt (k ++ suffix c) b = true) as Hl.
    { eapply (complete_before (table s)); [done|apply Hinv| |done|rewrite Et; apply app_cons_not_nil].
      intros q v Hq. rewrite key_lt_le. apply Hct in Hq. unfold before_end in Hq. cbn in Hq. by rewrite Hq. }
    rewrite key_lt_le in Hl. by destruct (key_le b (k ++ suffix c)). }
  wp_step. unfold wp. rewrite (put_raw_range None e None) by done.
  change (wp (put_raw (item_key it) (item_value it) None) (fun _ s' => wp (put_items its e) Q QE s') QE s).
  eapply wp_put_raw; [done|done|done|done|done|]. intros s1 (Hinv1 & Hct1 & Hrec1). apply IH; [done|done|done|done| |].
  - intros k v Hkv. rewrite Hct1 in Hkv. apply lookup_insert_Some in Hkv as [[<- _]|[_ Hkv]]; [done|by eapply Hct].
  - intros s' Hs' Hb'. apply HQ; [|done]. cbn [foldl]. unfold put_item at 2. by rewrite <-Hct1.
Qed.
End Items.

(** ** Marking the stumps *)

Section Stumps.
Context `{BEnv : BlockEnv} (om : option (gmap key (list Z))) (ri : range).

(** A well-formed trie but for the numbers of children of its nodes. *)
Definition loose_inv (e : range) (ct : gmap key (list Z)) s : Prop :=
  wf e (table s) /\ hashes_ok (fun _ => False) (table s) /\ root_ok ri (table s) /\ contents (table s) = ct /\ recorded om s.

Lemma wf_before db b : wf None db -> (forall k n, db !! k = Some n -> k <> [] -> key_lt k b = true) -> wf (Some b) db.
Proof.
  intros Hwf Hb. split; [apply Hwf|apply Hwf| | |apply Hwf].
  - intros k n Hn Hk. split; [by apply (wf_non_root _ _ Hwf k n)|]. cbn. pose proof (Hb k n Hn Hk) as H.
    rewrite key_lt_le in H. by destruct (key_le b k).
  - intros k n i c Hn Hc _. by eapply wf_closed.
Qed.

Lemma wp_mark_stumps en rf l d0 pe Q (QE : MerkleRadixTrieError -> Txn -> Prop) s :
  key_ok en -> en = pe ++ [d0] -> wf None rf -> trie_inv None ri (table s) -> recorded om s ->
  (forall k v, contents (table s) !! k = Some v -> key_lt k en = true) ->
  (forall x, x ∈ l -> genuine rf x) -> (exists x, x ∈ l /\ pn_key x = pe) ->
  (forall l1 a y l2, rev l = l1 ++ a :: y :: l2 -> pn_has_children a = true -> pn_key a `prefix_of` pn_key y -> parent_of a y) ->
  (forall l1 a y l2, rev l = l1 ++ a :: y :: l2 -> pn_key y `prefix_of` pn_key a -> pn_key y <> pn_key a -> False) ->
  (forall s', loose_inv (Some en) (contents (table s)) s' -> Q tt s') -> (forall s', QE (InvalidChunk ProofMissesNodes) s') ->
  wp (mark_stumps en l) Q QE s.
Proof.
  intros Hen Epe Hrf Hinv Hrec Hct Hgen Hin Hnext Hup HQ HQE. pose proof (ti_wf _ _ _ Hinv) as Hwf.
  destruct (wf_root _ _ Hwf) as (root & Hroot & _ & Hrd). pose proof (nw_key _ _ (wf_node _ _ Hwf _ _ Hroot)) as Er.
  assert (Hbef : forall k n, table s !! k = Some n -> k <> [] -> key_lt k en = true) by (apply complete_before; [done|apply Hinv|done]).
  assert (Hrl : forall x, x ∈ rev l <-> x ∈ l) by (intros x; by rewrite !list_elem_of_In, <-in_rev).
  unfold mark_stumps. apply (wp_fetch [] root); [done|done|]. destruct (rev l) as [|a rest] eqn:El.
  { exfalso. destruct Hin as (x & Hx & _). apply Hrl in Hx. by apply not_elem_of_nil in Hx. }
  assert (Hhere : here root [] s = table s) by (unfold here; cbn [climb]; rewrite Er; by apply insert_id).
  assert (Hzero : forall q n i c, table s !! q = Some n -> entry n i c -> ~ q ++ suffix c `prefix_of` []).
  { intros q n i c Hn Hc Hp%prefix_nil_inv. destruct (entry_suffix Hwf _ _ _ _ Hn Hc) as [t Et]. rewrite Et in Hp. by apply app_cons_not_nil in Hp. }
  wp_step. eapply wp_mono; [eapply (wp_mark_loop om en Hen (table s) rf Hrf (a :: rest) pe d0 Epe) with (l1 := []) (cur := root) (path := []) (cu := no_counts)| |].
  - intros x Hx. apply Hgen. by apply Hrl.
  - destruct Hin as (x & Hx & Ex). exists x. split; [by apply Hrl|done].
  - done.
  - done.
  - done.
  - destruct Hin as (x & Hx & Ex). exists x. split; [by apply Hrl|done].
  - split; [|done| |done|done].
    + rewrite Hhere, Er. split; [by apply wf_before|apply Hinv| |done| |done].
      * intros q n i c Hn Hc Hp. by destruct (Hzero q n i c Hn Hc).
      * intros kd _. lia.
    + intros x [= <-]. by split.
  - rewrite Hhere. intros q n i c Hn _ Hc. destruct (wf_closed _ _ Hwf _ _ _ _ Hn Hc eq_refl) as [m Hm].
    destruct (entry_suffix Hwf _ _ _ _ Hn Hc) as [t Et]. pose proof (Hbef _ _ Hm ltac:(rewrite Et; apply app_cons_not_nil)) as H.
    cbn. rewrite key_lt_le in H. by destruct (key_le en _).
  - by rewrite Er.
  - intros Hp. rewrite Er in Hp. apply prefix_nil_inv in Hp as ->. split; [apply prefix_nil|done].
  - intros [path cu] s1 (n & path' & Ep & Hpos & Hn). cbn [fst snd] in Ep, Hpos. subst path.
    pose proof (position_node _ _ _ _ _ _ _ Hpos) as Hnw. destruct Hpos as [Hmg Hch Hrt Hrec1 Hct1].
    rewrite (here_stored (table s)) in Hmg by done.
    eapply wp_update_keys_climb; [exact Hn|done|apply Hnw|by rewrite Hct1|done|done|]. intros s' Hs' Hrec'. apply HQ.
    destruct (marking_finish en (table s) _ _ _ ri Hmg (ti_root _ _ _ Hinv)) as (H1 & H2 & H3 & H4). rewrite <-Hs' in H1, H2, H3, H4.
    by repeat (split; [done|]).
  - intros e s' ->. apply HQE.
Qed.
End Stumps.

(** ** The trie with the expected hash *)

Lemma or_forall {A} (C : Prop) (P : A -> Prop) (l : list A) : (forall x, x ∈ l -> C \/ P x) -> C \/ forall x, x ∈ l -> P x.
Proof.
  induction l as [|x l IH]; intros H; [right; by intros x Hx%not_elem_of_nil|].
  destruct (H x) as [|Hx]; [apply list_elem_of_here|by left|]. destruct IH as [|Hl]; [|by left|].
  - intros y Hy. apply H. by apply list_elem_of_further.
  - right. by intros y [->|Hy]%elem_of_cons; [|apply Hl].
Qed.

Section Same.
Context `{BEnv : BlockEnv} (r : range) (db rf : gmap key TrieNode) (Hwf : wf r db) (Hrf : wf None rf).
Context (Hv : values_ok db) (Hvr : values_ok rf).
Context (Hh : hashes_ok (fun _ => False) db) (Hhr : hashes_ok (fun _ => False) rf).
Let coll := collision blake2b (trie_strings db) (trie_strings rf).

Lemma same_hash_node n0 m0 h : db !! [] = Some n0 -> rf !! [] = Some m0 -> hash n0 = Some h -> hash m0 = Some h ->
  forall d k n, (length k < d)%nat -> db !! k = Some n ->
    coll \/ exists m, rf !! k = Some m /\ children n = children m /\ value n = value m /\ can_hash n = true.
Proof.
  intros Hn0 Hm0 Hhn Hhm. induction d as [|d IH]; intros k n Hd Hn; [lia|]. destruct (decide (k = [])) as [->|Hk].
  - rewrite Hn0 in Hn. injection Hn as <-. destruct (same_hash r None db rf Hwf Hrf Hv Hvr _ _ _ _ _ Hn0 Hm0 Hhn Hhm) as [|(_ & E1 & E2)]; [by left|].
    right. exists m0. destruct (hash_content _ _ Hhn). done.
  - destruct (wf_parent _ _ Hwf _ _ Hn Hk) as (p & x & i & c & Hx & Hc & Ek). destruct (entry_suffix Hwf _ _ _ _ Hx Hc) as [t Et].
    destruct (IH p x) as [|(y & Hy & Ech & _ & Hcan)]; [rewrite Ek, Et, length_app in Hd; cbn [length] in Hd; lia|done|by left|].
    assert (Hc' : entry y i c) by (unfold entry; by rewrite <-Ech). destruct (wf_closed _ _ Hrf _ _ _ _ Hy Hc' eq_refl) as [m Hm].
    pose proof (can_hash_entry _ _ _ Hcan Hc) as Hhc. rewrite <-Ek in Hm.
    assert (E1 : hash n = Some (child_hash c)) by (apply (Hh p x i c n); [done|done|done|tauto|by rewrite <-Ek]).
    assert (E2 : hash m = Some (child_hash c)) by (apply (Hhr p y i c m); [done|done|done|tauto|by rewrite <-Ek]).
    destruct (same_hash r None db rf Hwf Hrf Hv Hvr _ _ _ _ _ Hn Hm E1 E2) as [|(_ & Ec & Ev)]; [by left|].
    right. exists m. destruct (hash_content _ _ E1). done.
Qed.

(** A table with the root hash of a compact trie is compact, and has its contents. *)
Lemma same_hash_trie n0 m0 h : db !! [] = Some n0 -> rf !! [] = Some m0 -> hash n0 = Some h -> hash m0 = Some h -> compact rf ->
  (forall k v, contents db !! k = Some v -> range_contains r k = false) -> coll \/ (compact db /\ contents db = kept r (contents rf)).
Proof.
  intros Hn0 Hm0 Hhn Hhm Hcomp Hct.
  destruct (or_forall coll (fun kn => exists m, rf !! kn.1 = Some m /\ children kn.2 = children m /\ value kn.2 = value m /\ can_hash kn.2 = true) (map_to_list db)) as [|Hall].
  { intros [k n] Hkn%elem_of_map_to_list. apply (same_hash_node n0 m0 h Hn0 Hm0 Hhn Hhm (S (length k)) k n); [lia|done]. }
  { by left. }
  destruct (same_hash_contents r None db rf Hwf Hrf Hv Hvr Hh Hhr (S (MAX_BYTES * 2)) [] n0 m0 h) as [|Hsame]; [lia|done|done|done|done|by left|].
  right. split.
  - intros k n Hn Hk. destruct (Hall (k, n)) as (m & Hm & E1 & E2 & _); [by apply elem_of_map_to_list|]. cbn in E1, E2.
    unfold iter_children. rewrite E1, E2. by apply (Hcomp k m).
  - apply map_eq. intros k. rewrite kept_lookup. destruct (range_contains r k) eqn:Er.
    + destruct (contents db !! k) as [v|] eqn:Ev; [|done]. by rewrite (Hct k v Ev) in Er.
    + apply Hsame; [apply prefix_nil|done|done].
Qed.
End Same.

(** ** The checks *)

Lemma items_sorted_range first its : items_sorted (first :: its) = true -> forall x, x ∈ first :: its ->
  key_le (item_key first) (item_key x) = true /\ (forall z, last (first :: its) = Some z -> key_le (item_key x) (item_key z) = true).
Proof.
  revert first. induction its as [|b its IH]; intros first Hs x Hx.
  - apply list_elem_of_singleton in Hx as ->. split; [apply key_le_refl|]. intros z [= <-]. apply key_le_refl.
  - cbn [items_sorted] in Hs. apply andb_true_iff in Hs as [Hlt Hs]. rewrite <-key_lt_le in Hlt.
    assert (Hle : key_le (item_key first) (item_key b) = true) by (unfold key_lt in Hlt; unfold key_le; by destruct (lex _ _)).
    apply elem_of_cons in Hx as [->|Hx].
    + split; [apply key_le_refl|]. intros z Hz. destruct (IH b Hs b) as [_ H]; [apply list_elem_of_here|].
      eapply key_le_trans; [done|]. by apply H.
    + destruct (IH b Hs x Hx) as [H1 H2]. split; [by eapply key_le_trans|]. intros z Hz. by apply H2.
Qed.

Lemma wp_check_items `{BEnv : BlockEnv} st chunk s :
  wp (check_items st chunk)
    (fun _ s' => s' = s /\ Forall (fun it => item_key it <> [] /\ before_end (end_key chunk) (item_key it)) (items chunk))
    (fun _ s' => s' = s) s.
Proof.
  unfold check_items. destruct (items chunk) as [|first its] eqn:Eits; [by apply wp_ret|].
  destruct (last (first :: its)) as [z|] eqn:Ez; [|by apply last_None in Ez].
  wp_step. apply wp_fail_if; [done|intros _]. wp_step. apply wp_fail_if; [done|intros Hroot%bool_decide_eq_false].
  wp_step. apply wp_fail_if; [done|intros Hend]. wp_step. apply wp_fail_if; [done|intros _]. apply wp_fail_if; [done|intros Hs%negb_false_iff].
  split; [done|]. apply Forall_forall. intros x Hx. destruct (items_sorted_range first its Hs x Hx) as [H1 H2]. split.
  - intros E. rewrite E in H1. destruct (item_key first); [done|]. by unfold key_le in H1.
  - unfold before_end. destruct (end_key chunk) as [e|]; [|done]. cbn. specialize (H2 z Ez).
    destruct (key_le e (item_key x)) eqn:E; [|done]. by rewrite (key_le_trans e (item_key x) (item_key z)) in Hend.
Qed.

Lemma wp_check_end chunk s :
  wp (check_end chunk)
    (fun _ s' => s' = s /\ forall e, end_key chunk = Some e -> exists x d, x ∈ nodes (chunk_proof chunk) /\ e = pn_key x ++ [d])
    (fun _ s' => s' = s) s.
Proof.
  unfold check_end. destruct (end_key chunk) as [e|]; cbn [if_some]; [|apply wp_ret; by split].
  wp_step. apply wp_fail_if; [done|intros Hv%negb_false_iff]. apply wp_fail_if; [done|intros Hf]. split; [done|]. intros e' [= <-].
  apply orb_true_iff in Hv as [Hv|Hv].
  - exfalso. destruct (head (nodes (chunk_proof chunk))) as [x|]; [|done]. apply bool_decide_eq_true in Hv.
    by rewrite Hv, key_le_refl in Hf.
  - apply existsb_exists in Hv as (x & Hx & Hv). apply andb_true_iff in Hv as [Hl%Nat.eqb_eq [t ->]%bool_decide_eq_true].
    rewrite length_app in Hl. destruct t as [|d [|]]; cbn in Hl; [lia| |lia]. exists x, d. split; [by apply list_elem_of_In|done].
Qed.

(** ** [put_chunk] *)

Section PutChunk.
Context `{BEnv : BlockEnv} (om : option (gmap key (list Z))).
(** The trie that the expected hash is of. *)
Context (rf : gmap key TrieNode) (m0 : TrieNode) (expected : Z).
Context (Hrf : wf None rf) (Hcr : compact rf) (Hhr : hashes_ok (fun _ => False) rf) (Hvr : values_ok rf).
Context (Hm0 : rf !! [] = Some m0) (Hexp : hash m0 = Some expected).
Context (chunk : TrieChunk) (Hits : Forall item_ok (items chunk)) (Hnodes : Forall proof_node_ok (nodes (chunk_proof chunk))).
Context (Hend : forall e, end_key chunk = Some e -> key_ok e).

Lemma foldl_put_item its : forall (ct : gmap key (list Z)) k v, foldl put_item ct its !! k = Some v ->
  ct !! k = Some v \/ exists it, it ∈ its /\ v = item_value it.
Proof.
  induction its as [|it its IH]; intros ct k v H; [by left|]. cbn in H. destruct (IH _ _ _ H) as [Hl|(x & Hx & E)].
  - unfold put_item in Hl. apply lookup_insert_Some in Hl as [[_ <-]|[_ Hl]]; [right|by left]. exists it. split; [apply list_elem_of_here|done].
  - right. exists x. split; [by apply list_elem_of_further|done].
Qed.

(** The end of [put_chunk]: the hash decides. *)
Lemma wp_put_end ri ct s : loose_inv om ri (end_key chunk) ct s -> (forall k v, ct !! k = Some v -> value_ok v) ->
  (forall k v, ct !! k = Some v -> before_end (end_key chunk) k) ->
  wp (r ← catch (update_hashes depth_fuel [] (end_key chunk));
      actual_hash ← match r with Ok h => mret h | Err _ => fail ChunkHashMismatch | Panic => panic end;
      fail_if (negb (actual_hash =? expected)) ChunkHashMismatch;;
      root ← get_root;
      root ← expect root;
      rd ← expect (root_data root);
      put_node (set_root_data root (Some (mk_root_data (end_key chunk) (num_branches rd) (num_hybrids rd) (num_leaves rd)))) Unchanged;;
      mret Applied)
    (fun res s' => res = Applied /\ (collision blake2b (trie_strings (table s')) (trie_strings rf) \/
       step_ok om (end_key chunk) (end_key chunk) (kept (end_key chunk) (contents rf)) s'))
    (fun e _ => e = ChunkHashMismatch) s.
Proof.
  intros (Hwf & Hh & Hroot & Hct & Hrec) Hval Hbef. set (e := end_key chunk) in *. wp_step. apply wp_catch.
  eapply wp_mono; [apply (wp_update_hashes om e depth_fuel []); [unfold depth_fuel; lia|done|done|done|]| |].
  { destruct (wf_root _ _ Hwf) as (n & -> & _). eauto. }
  2: { intros er s1 _. wp_step. apply wp_fail. done. }
  intros h s1 ((Hext & _ & Hh1 & Hrec1) & n1 & Hn1 & Hhash). wp_step. apply wp_ret. wp_step.
  apply wp_fail_if; [done|]. intros Heq%negb_false_iff%Z.eqb_eq. subst h.
  pose proof (table_ext_wf _ _ _ Hwf Hext) as Hwf1. pose proof (table_ext_root _ _ _ Hroot Hext) as (root & rd & Hr & Hrd & Hi & Hc).
  rewrite Hn1 in Hr. injection Hr as <-. pose proof (nw_key _ _ (wf_node _ _ Hwf1 _ _ Hn1)) as Ek.
  apply (wp_fetch [] n1); [done|done|]. wp_step. apply wp_expect with rd; [done|]. wp_step.
  set (n2 := set_root_data n1 _). eapply wp_put_node; [done|cbn; by rewrite Ek, lookup_contents, Hn1|].
  intros s2 Hs2 Hrec2. cbn in Hs2. rewrite Ek in Hs2. apply wp_ret. split; [done|].
  assert (Hct2 : contents (table s2) = ct).
  { rewrite Hs2. unfold n2. rewrite contents_set_root, (table_ext_contents _ _ Hext) by done. done. }
  assert (Hwf2 : wf e (table s2)) by (rewrite Hs2; by apply wf_set_root).
  assert (Hh2 : hashes_ok (fun _ => False) (table s2)) by (rewrite Hs2; by eapply hashes_ok_set_root).
  assert (Hn2 : table s2 !! [] = Some n2) by (by rewrite Hs2, lookup_insert_eq).
  destruct (same_hash_trie e (table s2) rf Hwf2 Hrf ltac:(intros k v; rewrite Hct2; apply Hval) Hvr Hh2 Hhr n2 m0 expected Hn2 Hm0 Hhash Hexp Hcr)
    as [Hcoll|[Hcomp Hcts]]; [rewrite Hct2; exact Hbef|by left|right].
  split; [|done]. split; [done|done|done|]. eexists n2, _. split; [done|]. split; [done|]. split; [done|]. intros kd Hkd.
  transitivity (rd_get rd kd); [by destruct kd|]. rewrite (Hc kd Hkd), Hs2. f_equal. symmetry. apply node_count_set_root; eauto.
Qed.

(** What the checks before it establish of the chunk. *)
Context (Hgen : forall x, x ∈ nodes (chunk_proof chunk) -> genuine rf x).
Context (Horder : (forall l1 a y l2, rev (nodes (chunk_proof chunk)) = l1 ++ a :: y :: l2 ->
    pn_has_children a = true -> pn_key a `prefix_of` pn_key y -> parent_of a y) /\
  (forall l1 a y l2, rev (nodes (chunk_proof chunk)) = l1 ++ a :: y :: l2 -> pn_key y `prefix_of` pn_key a -> pn_key y <> pn_key a -> False)).

Lemma wp_put_checked st s : key_ok st -> trie_inv (Some st) (Some st) (table s) -> recorded om s -> values_ok (table s) ->
  (forall e, end_key chunk = Some e -> key_le st e = true) ->
  Forall (fun it => item_key it <> [] /\ before_end (end_key chunk) (item_key it)) (items chunk) ->
  (forall e, end_key chunk = Some e -> exists x d, x ∈ nodes (chunk_proof chunk) /\ e = pn_key x ++ [d]) ->
  wp (put_checked st chunk expected)
    (fun res s' => res = Applied /\ (collision blake2b (trie_strings (table s')) (trie_strings rf) \/
       step_ok om (end_key chunk) (end_key chunk) (kept (end_key chunk) (contents rf)) s'))
    (fun e _ => e = ChunkHashMismatch \/ e = InvalidChunk ProofMissesNodes) s.
Proof.
  intros Hst Hinv Hrec Hvals Hse Hbef Hpe. unfold put_checked.
  assert (Hold : forall k v, contents (table s) !! k = Some v -> before_end (end_key chunk) k).
  { intros k v Hk. rewrite <-(kept_same _ _ _ Hinv), kept_lookup in Hk. cbn in Hk. destruct (key_le st k) eqn:El; [done|].
    unfold before_end. destruct (end_key chunk) as [e|] eqn:Ee; [|done]. cbn. destruct (key_le e k) eqn:E; [|done].
    by rewrite (key_le_trans st e k (Hse e eq_refl) E) in El. }
  wp_step. eapply wp_clear_stumps; [done|done|done|]. intros s1 (Hinv1 & Hct1 & Hrec1).
  wp_step. eapply (wp_put_items om (Some st)); [done|done|done|done|by rewrite Hct1|]. intros s2 (Hinv2 & Hct2 & Hrec2) Hbef2.
  rewrite Hct1 in Hct2. set (ct := foldl put_item (contents (table s)) (items chunk)) in *. rewrite Hct2 in Hbef2.
  assert (Hvals2 : forall k v, ct !! k = Some v -> value_ok v).
  { intros k v [Hk|(it & Hit & ->)]%foldl_put_item; [by eapply Hvals|]. by apply (proj1 (Forall_forall _ _) Hits it Hit). }
  pose proof (wp_put_end (Some st) ct) as Hrest.
  wp_step. destruct (end_key chunk) as [e|] eqn:Ee; cbn [if_some].
  - destruct (Hpe e eq_refl) as (x & d & Hx & Exd). destruct Horder as [Hnext Hup].
    eapply (wp_mark_stumps om (Some st) e rf (nodes (chunk_proof chunk)) d (pn_key x)); [by apply Hend|done|done|done|done| |done|by exists x|done|done| |].
    + intros k v Hk. rewrite Hct2 in Hk. apply Hbef2 in Hk. unfold before_end in Hk. cbn in Hk. by rewrite key_lt_le, Hk.
    + intros s3 Hs3. rewrite Hct2 in Hs3. eapply wp_mono; [by apply Hrest|done|]. intros er s4 ->. by left.
    + intros s3. by right.
  - apply wp_ret. eapply wp_mono; [apply Hrest; [|done|done]|done|by intros er s4 ->; left]. split; [apply Hinv2|]. split; [apply Hinv2|]. split; [apply Hinv2|]. by split.
Qed.
End PutChunk.

(** What a valid proof is, unless hashed strings collide. *)
Lemma valid_proof `{BEnv : BlockEnv} rf m0 expected (proof : TrieProof) : wf None rf -> hashes_ok (fun _ => False) rf -> values_ok rf ->
  rf !! [] = Some m0 -> hash m0 = Some expected -> Forall proof_node_ok (nodes proof) ->
  collision blake2b (trie_strings rf) (proof_strings (nodes proof)) \/
  exists b, verify (E := MerkleRadixTrieError) proof expected = Ok b /\ (b = true ->
    (forall x, x ∈ nodes proof -> genuine rf x) /\
    (forall l1 a y l2, rev (nodes proof) = l1 ++ a :: y :: l2 -> pn_has_children a = true -> pn_key a `prefix_of` pn_key y -> parent_of a y) /\
    (forall l1 a y l2, rev (nodes proof) = l1 ++ a :: y :: l2 -> pn_key y `prefix_of` pn_key a -> pn_key y <> pn_key a -> False)).
Proof.
  intros Hrf Hhr Hvr Hm0 Hexp Hok. destruct (verify_ok (E := MerkleRadixTrieError) proof expected Hok) as (b & Hb & Htrue).
  destruct b; [|right; by exists false]. destruct (Htrue eq_refl) as (root & Hroot & _ & Hh & Hpar).
  destruct (or_forall (collision blake2b (trie_strings rf) (proof_strings (nodes proof))) (genuine rf) (nodes proof)) as [|Hgen]; [|by left|].
  { intros x Hx. by apply (all_genuine rf (nodes proof) Hrf Hvr Hhr Hok root m0 expected Hm0 Hexp Hroot Hh Hpar (S (length (pn_key x)))); [lia|]. }
  right. exists true. split; [done|]. intros _. split; [done|]. eapply verify_order; [done| |done].
  apply Forall_forall. intros x Hx i c Hc. destruct (Hgen x Hx) as (n & Hn & Ech & _). rewrite Ech in Hc. by eapply (entry_suffix Hrf).
Qed.

Section Push.
Context `{BEnv : BlockEnv} (om : option (gmap key (list Z))) (r : range) (s : Txn).
Context (rf : gmap key TrieNode) (m0 : TrieNode) (expected : Z) (start_key : key) (chunk : TrieChunk).

(** The outcome of a push. *)
Definition pushed (res : TrieChunkPushResult) s' : Prop :=
  match res with
  | Applied => r = Some start_key /\
      (collision blake2b (trie_strings (table s')) (trie_strings rf) \/
       (trie_inv (end_key chunk) (end_key chunk) (table s') /\ recorded om s' /\
        contents (table s') = kept (end_key chunk) (contents rf)))
  | Ignored => s' = s /\ exists start, r = Some start /\ start <> start_key
  end.
Definition refused (e : MerkleRadixTrieError) s' : Prop :=
  (r = None /\ e = TrieAlreadyComplete /\ s' = s) \/
  (r = Some start_key /\ (s' = s \/ e = ChunkHashMismatch \/ e = InvalidChunk ProofMissesNodes)).

Lemma wp_put_chunk : trie_inv r r (table s) -> recorded om s -> values_ok (table s) -> key_ok start_key ->
  trie_inv None None rf -> values_ok rf -> rf !! [] = Some m0 -> hash m0 = Some expected ->
  Forall item_ok (items chunk) -> Forall proof_node_ok (nodes (chunk_proof chunk)) ->
  (forall e, end_key chunk = Some e -> key_ok e) ->
  collision blake2b (trie_strings rf) (proof_strings (nodes (chunk_proof chunk))) \/
  wp (put_chunk start_key chunk expected) pushed refused s.
Proof.
  intros Hinv Hrec Hvals Hsk Hrf Hvr Hm0 Hexp Hits Hnodes Hend.
  destruct (valid_proof rf m0 expected (chunk_proof chunk)) as [|(b & Hb & Hvalid)]; [apply Hrf|apply Hrf|done|done|done|done|by left|right].
  pose proof (ti_root _ _ _ Hinv) as (root & rd & Hr & Hrd & Hi & _). unfold put_chunk.
  apply (wp_fetch [] root); [done|by apply (nw_key _ _ (wf_node _ _ (ti_wf _ _ _ Hinv) _ _ Hr))|].
  wp_step. apply wp_expect with rd; [done|]. rewrite Hi. destruct r as [start|] eqn:Er.
  2: { apply wp_fail. left; by split_and!. }
  case_bool_decide as Est; cbn [negb].
  2: { apply wp_ret. split; [done|]. by exists start. }
  subst start. assert (Hrefuse : forall e, refused e s) by (intros e; right; split; [done|by left]).
  wp_step. apply wp_fail_if; [done|intros Hlt].
  assert (Hse : forall e, end_key chunk = Some e -> key_le start_key e = true).
  { intros e Ee. rewrite Ee, key_lt_le in Hlt. by apply negb_false_iff in Hlt. }
  wp_step. eapply wp_mono; [apply wp_check_items| |by intros e s' ->]. intros _ s' [-> Hbef].
  wp_step. rewrite Hb. apply wp_lift; [|done|done]. intros v [= <-].
  wp_step. apply wp_fail_if; [done|intros Hv%negb_false_iff]. destruct (Hvalid Hv) as [Hgen Horder].
  wp_step. eapply wp_mono; [apply wp_check_end| |by intros e s' ->]. intros _ s' [-> Hpe].
  eapply wp_mono; [eapply (wp_put_checked om rf m0 expected); [apply Hrf|apply Hrf|apply Hrf|done..]| |].
  - intros res s' [-> [Hc|(H1 & H2 & H3)]]; (split; [done|]); [by left|by right].
  - intros e s' [->| ->]; right; (split; [done|]); auto.
Qed.
End Push.

(** C10: a chunk from anyone is pushed without a panic; where it is applied, the trie is
    well-formed again, misses the keys from the end of the chunk on and has the contents
    of the trie with the expected hash before that, unless hashed strings collide.  A
    chunk for another place is ignored, a complete trie takes none, and errors other
    than those of the structure and the hash leave the trie alone. *)
Theorem put_chunk_sound `{BEnv : BlockEnv} om r rf m0 expected start_key chunk s :
  trie_inv r r (table s) -> recorded om s -> values_ok (table s) -> key_ok start_key ->
  trie_inv None None rf -> values_ok rf -> rf !! [] = Some m0 -> hash m0 = Some expected ->
  Forall item_ok (items chunk) -> Forall proof_node_ok (nodes (chunk_proof chunk)) ->
  (forall e, end_key chunk = Some e -> key_ok e) ->
  collision blake2b (trie_strings rf) (proof_strings (nodes (chunk_proof chunk))) \/
  match put_chunk start_key chunk expected s with
  | (Ok Applied, s') => r = Some start_key /\
      (collision blake2b (trie_strings (table s')) (trie_strings rf) \/
       (trie_inv (end_key chunk) (end_key chunk) (table s') /\ recorded om s' /\
        contents (table s') = kept (end_key chunk) (contents rf)))
  | (Ok Ignored, s') => s' = s /\ exists start, r = Some start /\ start <> start_key
  | (Err e, s') => (r = None /\ e = TrieAlreadyComplete /\ s' = s) \/
      (r = Some start_key /\ (s' = s \/ e = ChunkHashMismatch \/ e = InvalidChunk ProofMissesNodes))
  | (Panic, _) => False
  end.
Proof.
  intros Hinv Hrec Hvals Hsk Hrf Hvr Hm0 Hexp Hits Hnodes Hend.
  destruct (wp_put_chunk om r s rf m0 expected start_key chunk) as [|Hwp]; [done..|by left|right].
  unfold wp in Hwp. by destruct (put_chunk start_key chunk expected s) as [[[|]|e|] s'].
Qed.

(** ** Synchronization *)

Section Sync.
Context `{BEnv : BlockEnv}.

Lemma empty_trie_inv r : trie_inv r r {[ [] := mk_node [] (Some (mk_root_data r 0 0 0)) None NO_CHILDREN ]} /\
  contents {[ [] := mk_node [] (Some (mk_root_data r 0 0 0)) None NO_CHILDREN ]} = ∅.
Proof.
  set (root := mk_node [] (Some (mk_root_data r 0 0 0)) None NO_CHILDREN). set (db := {[ [] := root ]}).
  assert (Hl : forall k n, db !! k = Some n -> k = [] /\ n = root).
  { intros k n Hn. by apply lookup_singleton_Some in Hn as [<- <-]. }
  assert (Hno : forall i c, ~ entry root i c) by (intros i c H; unfold entry in H; by apply no_children_entry in H).
  split; [split|].
  - split.
    + intros k n [-> ->]%Hl. split; [done|apply key_ok_nil|done|]. by intros i c H%Hno.
    + exists root. split; [by apply lookup_singleton_eq|]. split; [done|]. eauto.
    + by intros k n [-> _]%Hl.
    + by intros k n i c [-> ->]%Hl H%Hno.
    + by intros k n [-> _]%Hl.
  - by intros k n [-> _]%Hl.
  - by intros k n i c m [-> ->]%Hl H%Hno.
  - exists root, (mk_root_data r 0 0 0). split; [by apply lookup_singleton_eq|]. split; [done|]. split; [done|].
    intros kd Hkd. by destruct kd.
  - apply map_eq. intros k. rewrite lookup_contents, lookup_empty. destruct (db !! k) as [n|] eqn:E; [|done]. by apply Hl in E as [_ ->].
Qed.

(** What the types of a chunk guarantee. *)
Definition chunk_ok (chunk : TrieChunk) : Prop :=
  Forall item_ok (items chunk) /\ Forall proof_node_ok (nodes (chunk_proof chunk)) /\ (forall e, end_key chunk = Some e -> key_ok e).

(** A node that starts over and pushes chunks from anyone for one root hash; the
    transaction of a chunk that is refused is aborted.  With the strings hashed on the
    way. *)
Inductive syncing (expected : Z) : list (list Z) -> Txn -> Prop :=
  | sync_start s s' : txn_diff s = None -> reinitialize_as_incomplete s = (Ok tt, s') -> syncing expected [] s'
  | sync_chunk l s start_key chunk res s' : syncing expected l s -> key_ok start_key -> chunk_ok chunk ->
      put_chunk start_key chunk expected s = (Ok res, s') ->
      syncing expected (l ++ proof_strings (nodes (chunk_proof chunk)) ++ trie_strings (table s')) s'.

Lemma collision_incl (H : list Z -> list Z) xs ys ys' : (forall y, y ∈ ys -> y ∈ ys') -> collision H xs ys -> collision H xs ys'.
Proof. intros Hi (x & y & Hx & Hy & Hc). exists x, y. split; [done|]. split; [by apply Hi|done]. Qed.
Lemma collision_sym (H : list Z -> list Z) xs ys : collision H xs ys -> collision H ys xs.
Proof. intros (x & y & Hx & Hy & Hne & E). exists y, x. by split_and!. Qed.

(** C11: while a node synchronizes with one root hash, its trie is well-formed and has
    the contents that the trie with this hash has before the keys that it still misses,
    unless hashed strings collide; so once it misses none, it has all of them. *)
Theorem sync_sound rf m0 expected l s : trie_inv None None rf -> values_ok rf -> rf !! [] = Some m0 -> hash m0 = Some expected ->
  syncing expected l s ->
  collision blake2b (trie_strings rf) l \/
  exists r, trie_inv r r (table s) /\ contents (table s) = kept r (contents rf).
Proof.
  intros Hrf Hvr Hm0 Hexp Hs.
  enough (collision blake2b (trie_strings rf) l \/ (exists r, trie_inv r r (table s) /\ contents (table s) = kept r (contents rf)) /\ recorded None s)
    as [|[H _]]; [by left|by right|].
  induction Hs as [s s' Hd E|l s start_key chunk res s' Hs IH Hsk (H1 & H2 & H3) E].
  - right. unfold reinitialize_as_incomplete, init_root, get_root in E.
    assert (s' = mk_txn {[ [] := mk_node [] (Some (mk_root_data (Some []) 0 0 0)) None NO_CHILDREN ]} None) as ->.
    { destruct s as [db d]. cbn in Hd. subst d. by injection E as <-. }
    split; [|done]. exists (Some []). destruct (empty_trie_inv (Some [])) as [Hi Hc]. split; [done|]. cbn [table]. rewrite Hc.
    apply map_eq. intros k. rewrite kept_lookup, lookup_empty. cbn [range_contains]. by rewrite prefix_key_le by apply prefix_nil.
  - destruct IH as [Hc|[(r & Hinv & Hct) Hrec]]; [left; eapply collision_incl; [|done]; intros y Hy; apply elem_of_app; by left|].
    assert (Hvals : values_ok (table s)).
    { intros k v Hk. rewrite Hct, kept_lookup in Hk. destruct (range_contains r k); [done|]. by eapply Hvr. }
    destruct (wp_put_chunk None r s rf m0 expected start_key chunk) as [Hc|Hwp]; [done..| |].
    + left. eapply collision_incl; [|done]. intros y Hy. apply elem_of_app. right. apply elem_of_app. by left.
    + unfold wp in Hwp. rewrite E in Hwp. destruct res; cbn in Hwp.
      * destruct Hwp as (_ & [Hc|(Hinv' & Hrec' & Hct')]); [left|right; split; [eauto|done]].
        eapply collision_incl; [|apply collision_sym, Hc]. intros y Hy. apply elem_of_app. right. apply elem_of_app. by right.
      * destruct Hwp as [-> _]. right. split; [eauto|done].
Qed.
End Sync.
