(* ===== verification/TrieExample.v ===== *)
(** * A small trie

    A trie with a few keys, built in two ways, with its proofs, diffs and chunks: the
    hypotheses of the theorems about the trie hold for it. *)

From S2P Require Import Prelude Coin AccountTypes Codec TxContent Block KeyNibbles TrieNode.
From S2P Require Import Trie TrieInv TriePath TriePut TrieRemove TrieHash TrieSpec TrieDiff.
From S2P Require Import TrieProof TrieProofSound TrieProofComplete TrieProofRound TrieChunk.
From S2P Require Import TrieTruncate TrieStumps TrieMark TriePutChunk.

Module SmallTrie.
(** A digest that is quick to compute. *)
Definition digest (l : list Z) : list Z := be_bytes 32 (1 + Z.of_nat (length l)).
Lemma small_digest_bytes l : length (digest l) = 32%nat /\ Forall is_byte (digest l).
Proof. split; [apply be_bytes_length|apply be_bytes_bytes]. Qed.
Definition content_env : ContentEnv := {| usize_codec := u64_codec; usize_valid n Hn := Hn; blake2b := digest |}.
#[local] Instance env : BlockEnv := {|
  block_content_env := content_env;
  blake2s := digest;
  blake2b_bytes := small_digest_bytes;
  blake2s_bytes := small_digest_bytes;
|}.

(** Keys of different lengths, one below another, and a key that is removed. *)
Definition ops : list TrieOp :=
  [OpPut [1; 2]%nat [7]; OpPut [1; 3]%nat [8]; OpUpdateRoot; OpPut [1; 2; 5]%nat [9; 9]; OpRemove [1; 3]%nat;
   OpPut [4]%nat [3]; OpUpdateRoot].
(** The same contents in another way. *)
Definition ops' : list TrieOp :=
  [OpPut [4]%nat [1]; OpPut [1; 2; 5]%nat [9; 9]; OpPut [4]%nat [3]; OpPut [1; 2]%nat [7]; OpUpdateRoot].

Definition end_of (l : list TrieOp) : Txn := (run_ops l new_trie).2.
Definition hash_of (l : list TrieOp) : Z :=
  match (root_hash_assert (end_of l)).1 with Ok h => h | _ => 0 end.

Definition runs : (run_ops ops new_trie).1 = Ok tt := eq_refl.
Definition runs' : (run_ops ops' new_trie).1 = Ok tt := eq_refl.
Definition hashes : root_hash_assert (end_of ops) = (Ok (hash_of ops), end_of ops) := eq_refl.
Definition hashes' : root_hash_assert (end_of ops') = (Ok (hash_of ops'), end_of ops') := eq_refl.
Definition same : abs_ops ∅ ops = abs_ops ∅ ops' := eq_refl.

Definition key_check (k : key) : bool := forallb (fun i => i <? 16)%nat k && (length k <=? 126)%nat.
Lemma key_ok_check k : key_check k = true -> key_ok k.
Proof.
  intros [H1 H2]%andb_true_iff. split; [|apply Nat.leb_le in H2; exact H2]. apply Forall_forall. intros i Hi.
  rewrite forallb_forall in H1. apply list_elem_of_In, H1, Nat.ltb_lt in Hi. exact Hi.
Qed.
Definition op_check (o : TrieOp) : bool :=
  match o with
  | OpPut k v => key_check k && negb (length k =? 0)%nat && (Z.of_nat (length v) <? 2 ^ 64)
  | OpRemove k => key_check k
  | OpUpdateRoot => true
  end.
Lemma op_ok_check l : forallb op_check l = true -> Forall op_ok l /\ Forall op_value_ok l.
Proof.
  intros H. rewrite forallb_forall in H. split; apply Forall_forall; intros o Ho%list_elem_of_In%H; destruct o as [k v|k|]; cbn in *; try done.
  - apply andb_true_iff in Ho as [[H1 H2]%andb_true_iff _]. split; [by apply key_ok_check|]. by intros ->.
  - by apply key_ok_check.
  - apply andb_true_iff in Ho as [_ Hv]. by apply Z.ltb_lt in Hv.
Qed.
Lemma ops_ok : Forall op_ok ops /\ Forall op_ok ops'.
Proof. split; by apply op_ok_check. Qed.
Lemma ops_values : Forall op_value_ok ops /\ Forall op_value_ok ops'.
Proof. split; by apply op_ok_check. Qed.
Lemma run_end l : (run_ops l new_trie).1 = Ok tt -> run_ops l new_trie = (Ok tt, end_of l).
Proof. intros H. rewrite <- H. unfold end_of. by destruct (run_ops l new_trie). Qed.
#[local] Opaque end_of hash_of run_ops.

Lemma small_inv : trie_inv None None (table (end_of ops)) /\ contents (table (end_of ops)) = abs_ops ∅ ops /\
  recorded None (end_of ops).
Proof. apply run_ops_inv; [apply ops_ok|apply run_end, runs]. Qed.
Lemma small_values : values_ok (table (end_of ops)).
Proof.
  intros k v Hk. rewrite (proj1 (proj2 small_inv)) in Hk.
  by apply (abs_ops_values ops ∅ (proj1 ops_values) (map_Forall_empty _) k).
Qed.
Lemma small_no_diff : txn_diff (end_of ops) = None.
Proof. pose proof (proj2 (proj2 small_inv)) as H. unfold recorded in H. by destruct (txn_diff (end_of ops)). Qed.

Lemma trie_refines_map_witness : Forall op_ok ops /\
  exists s, run_ops ops new_trie = (Ok tt, s) /\ trie_inv None None (table s) /\
    (forall k, trie_get k s = (Ok (abs_ops ∅ ops !! k), s)) /\
    exists root rd, table s !! [] = Some root /\ root_data root = Some rd /\
      (num_leaves rd + num_hybrids rd) mod 2 ^ 64 = Z.of_nat (size (abs_ops ∅ ops)) mod 2 ^ 64.
Proof. split; [apply ops_ok|apply (trie_refines_map ops), ops_ok]. Defined.

Lemma root_hash_commits_witness : hash_of ops = hash_of ops'.
Proof.
  apply (root_hash_commits ops ops' (end_of ops) (end_of ops')).
  - apply ops_ok.
  - apply ops_ok.
  - apply ops_values.
  - apply ops_values.
  - apply run_end, runs.
  - apply run_end, runs'.
  - apply hashes.
  - apply hashes'.
  - apply same.
Defined.

Lemma update_root_hashes_witness :
  (exists h s', update_root (end_of ops) = (Ok tt, s') /\ root_hash_assert s' = (Ok h, s') /\
     contents (table s') = abs_ops ∅ ops) \/
  (exists e s' q n, update_root (end_of ops) = (Err e, s') /\ table s' !! q = Some n /\ hash n = Some 0 /\
     contents (table s') = abs_ops ∅ ops).
Proof. apply (update_root_hashes ops (end_of ops)); [apply ops_ok|apply run_end, runs]. Defined.

Lemma recorded_diff_round_trip_witness :
  exists d s', recording (run_ops ops') (end_of ops) = (Ok d, s') /\
    contents (table s') = abs_ops (contents (table (end_of ops))) ops' /\
    (exists res s'', apply_diff (into_backward_diff d) s' = (Ok res, s'') /\
       trie_inv None None (table s'') /\ contents (table s'') = contents (table (end_of ops))) /\
    (exists res s'', apply_diff (into_forward_diff d) (end_of ops) = (Ok res, s'') /\
       trie_inv None None (table s'') /\ contents (table s'') = contents (table s')).
Proof. exact (recorded_diff_round_trip ops' (end_of ops) (proj1 small_inv) small_no_diff (proj2 ops_ok)). Defined.

(** A diff with a new key, a changed one and a removed one. *)
Definition diff : TrieDiff := {[ [1; 2]%nat := Some [6]; [1; 7]%nat := Some [5]; [4]%nat := None ]}.
Lemma apply_diff_reverts_witness :
  exists res s', apply_diff diff (end_of ops) = (Ok res, s') /\ trie_inv None None (table s') /\
    diffed None diff (contents (table (end_of ops))) (contents (table s')) /\
    exists s'', revert_diff res s' = (Ok tt, s'') /\ trie_inv None None (table s'') /\
      contents (table s'') = contents (table (end_of ops)).
Proof.
  refine (proj2 (apply_diff_reverts None diff (end_of ops) (proj1 small_inv) small_no_diff _) eq_refl).
  intros k [v Hv]. unfold diff in Hv. rewrite !lookup_insert_Some, lookup_singleton_Some in Hv.
  destruct Hv as [[<- _]|[_ [[<- _]|[_ [<- _]]]]]; by apply key_ok_check.
Defined.

(** A proof for a key that is there, one that is not, and the root. *)
Definition keys : list key := [[1; 2; 5]; [1; 9]; []]%nat.
Lemma keys_ok : NoDup keys /\ Forall key_ok keys.
Proof.
  split; [by apply (bool_decide_unpack _)|]. apply Forall_forall. intros k Hk. apply key_ok_check.
  assert (Hall : forallb key_check keys = true) by done. rewrite forallb_forall in Hall. by apply Hall, list_elem_of_In.
Qed.

Lemma get_proof_round_trip_witness :
  exists proof, get_proof keys (end_of ops) = (Ok proof, end_of ops) /\ verify (E := ProofError) proof (hash_of ops) = Ok true /\
    (~ below_leaf (end_of ops) keys -> exists res, verify_values proof (hash_of ops) keys = Ok res /\
       forall k, res !! k = if decide (k ∈ keys) then Some (contents (table (end_of ops)) !! k) else None) /\
    (below_leaf (end_of ops) keys -> verify_values proof (hash_of ops) keys = Err ValueNotRequested).
Proof.
  exact (get_proof_round_trip (end_of ops) (hash_of ops) keys (proj1 small_inv) hashes (proj1 keys_ok) (proj2 keys_ok)).
Defined.

(** A key below the leaf [4]: the proof is refused. *)
Definition absent : list key := [[4; 0]]%nat.
Definition absent_result : outcome ProofError (gmap key (option (list Z))) :=
  match (get_proof absent (end_of ops)).1 with
  | Ok proof => verify_values proof (hash_of ops) absent
  | _ => Ok ∅
  end.
#[local] Transparent end_of hash_of run_ops.
Definition absence_below_leaf : absent_result = Err ValueNotRequested := eq_refl.

Definition proof : TrieProof :=
  match (get_proof keys (end_of ops)).1 with Ok proof => proof | _ => mk_proof [] ∅ end.
Definition child_check (o : option TrieNodeChild) : bool :=
  match o with Some c => key_check (suffix c) && (0 <=? child_hash c) && (child_hash c <? 256 ^ 32) | None => true end.
Definition pv_check (v : ProofValue) : bool :=
  match v with
  | NoValue => true
  | LeafValue v | HybridValue v => Z.of_nat (length v) <? 2 ^ 64
  | HybridHash h => (0 <=? h) && (h <? 256 ^ 32)
  end.
Definition node_check (x : TrieProofNode) : bool :=
  key_check (pn_key x) && pv_check (pn_value x) && (length (pn_children x) =? 16)%nat && forallb child_check (pn_children x).
Definition proof_check : forallb node_check (nodes proof) = true := eq_refl.
Definition value_is (o : outcome ProofError (gmap key (option (list Z)))) (k : key) (v : option (list Z)) : bool :=
  match o with Ok r => bool_decide (r !! k = Some v) | _ => false end.
Definition proof_verifies :
  value_is (verify_values proof (hash_of ops) keys) [1; 2; 5]%nat (Some [9; 9]) &&
  value_is (verify_values proof (hash_of ops) keys) [1; 9]%nat None = true := eq_refl.
#[local] Opaque end_of hash_of run_ops proof.

Lemma node_ok_check (l : list TrieProofNode) : forallb node_check l = true -> Forall proof_node_ok l.
Proof.
  intros H. apply Forall_forall. intros x Hx. rewrite forallb_forall in H. apply list_elem_of_In, H in Hx.
  unfold node_check in Hx. rewrite !andb_true_iff in Hx. destruct Hx as [[[H1 H2] H3] H4].
  split; [by apply key_ok_check|]. split; [|split; [by apply Nat.eqb_eq|]].
  - destruct (pn_value x) as [|v|h|v]; cbn in *; [done|by apply Z.ltb_lt| |by apply Z.ltb_lt].
    apply andb_true_iff in H2 as [?%Z.leb_le ?%Z.ltb_lt]. done.
  - apply Forall_forall. intros [c|] Hc; [|done]. rewrite forallb_forall in H4. apply list_elem_of_In, H4 in Hc.
    cbn in Hc. rewrite !andb_true_iff in Hc. destruct Hc as [[Hk ?%Z.leb_le] ?%Z.ltb_lt]. split; [by apply key_ok_check|done].
Qed.
Lemma proof_ok : Forall proof_node_ok (nodes proof).
Proof. apply node_ok_check, proof_check. Qed.

Lemma verify_values_sound_witness :
  match verify_values proof (hash_of ops) keys with
  | Ok result =>
      (forall k, result !! k = if decide (k ∈ keys) then Some (contents (table (end_of ops)) !! k) else None) \/
      collision blake2b (trie_strings (table (end_of ops))) (proof_strings (nodes proof))
  | Err _ => True
  | Panic => False
  end.
Proof.
  exact (verify_values_sound (end_of ops) (hash_of ops) proof keys (proj1 small_inv) small_values hashes proof_ok
    (proj2 keys_ok) (proj1 keys_ok)).
Defined.

(** ** Chunks *)

#[local] Transparent end_of hash_of run_ops.
Definition small_root : TrieNode := default new_root (table (end_of ops) !! []).
Definition small_root_stored : table (end_of ops) !! [] = Some small_root := eq_refl.
Definition small_root_hash : hash small_root = Some (hash_of ops) := eq_refl.

(** An empty incomplete trie, and the trie above in two chunks. *)
Definition fresh : Txn := (reinitialize_as_incomplete (mk_txn ∅ None)).2.
Definition origin : key := [].
Definition chunk_from (start : key) (limit : nat) : TrieChunk :=
  match (get_chunk_with_proof start limit (end_of ops)).1 with Ok c => c | _ => mk_chunk None [] (mk_proof [] ∅) end.
Definition chunk1 : TrieChunk := chunk_from [] 1.
Definition middle : key := default [] (end_key chunk1).
Definition chunk2 : TrieChunk := chunk_from middle 5.
Definition state1 : Txn := (put_chunk [] chunk1 (hash_of ops) fresh).2.
Definition state2 : Txn := (put_chunk middle chunk2 (hash_of ops) state1).2.
Definition first_applied : put_chunk [] chunk1 (hash_of ops) fresh = (Ok Applied, state1) := eq_refl.
Definition second_applied : put_chunk middle chunk2 (hash_of ops) state1 = (Ok Applied, state2) := eq_refl.
Definition ends : end_key chunk1 = Some middle /\ middle = [1; 2; 5]%nat /\ end_key chunk2 = None := conj eq_refl (conj eq_refl eq_refl).
Definition complete : contents (table state2) = contents (table (end_of ops)) := eq_refl.

Definition item_check (it : TrieItem) : bool := key_check (item_key it) && (Z.of_nat (length (item_value it)) <? 2 ^ 64).
Definition chunk_check (c : TrieChunk) : bool :=
  forallb item_check (items c) && forallb node_check (nodes (chunk_proof c)) &&
  match end_key c with Some e => key_check e | None => true end.
Definition chunks_check : chunk_check chunk1 && chunk_check chunk2 = true := eq_refl.
#[local] Opaque end_of hash_of run_ops small_root chunk1 chunk2 state1 state2.

Lemma chunk_ok_check c : chunk_check c = true -> chunk_ok c.
Proof.
  unfold chunk_check. rewrite !andb_true_iff. intros [[H1 H2] H3]. split; [|split].
  - apply Forall_forall. intros it Hit. rewrite forallb_forall in H1. apply list_elem_of_In, H1, andb_true_iff in Hit as [Hk Hv].
    split; [by apply key_ok_check|by apply Z.ltb_lt].
  - by apply node_ok_check.
  - intros e E. rewrite E in H3. by apply key_ok_check.
Qed.
Lemma chunks_ok : chunk_ok chunk1 /\ chunk_ok chunk2.
Proof. pose proof chunks_check as H. apply andb_true_iff in H as [H1 H2]. split; by apply chunk_ok_check. Qed.
Lemma fresh_inv : trie_inv (Some []) (Some []) (table fresh) /\ contents (table fresh) = ∅.
Proof. apply (empty_trie_inv (Some [])). Qed.
Lemma fresh_values : values_ok (table fresh).
Proof. intros k v Hk. by rewrite (proj2 fresh_inv), lookup_empty in Hk. Qed.

Lemma put_chunk_sound_witness :
  collision blake2b (trie_strings (table (end_of ops))) (proof_strings (nodes (chunk_proof chunk1))) \/
  match put_chunk origin chunk1 (hash_of ops) fresh with
  | (Ok Applied, s') => Some origin = Some origin /\
      (collision blake2b (trie_strings (table s')) (trie_strings (table (end_of ops))) \/
       (trie_inv (end_key chunk1) (end_key chunk1) (table s') /\ recorded None s' /\
        contents (table s') = kept (end_key chunk1) (contents (table (end_of ops)))))
  | (Ok Ignored, s') => s' = fresh /\ exists start, Some origin = Some start /\ start <> origin
  | (Err e, s') => (Some origin = None /\ e = TrieAlreadyComplete /\ s' = fresh) \/
      (Some origin = Some origin /\ (s' = fresh \/ e = ChunkHashMismatch \/ e = InvalidChunk ProofMissesNodes))
  | (Panic, _) => False
  end.
Proof.
  exact (put_chunk_sound None (Some []) (table (end_of ops)) small_root (hash_of ops) [] chunk1 fresh
    (proj1 fresh_inv) I fresh_values key_ok_nil (proj1 small_inv) small_values small_root_stored small_root_hash
    (proj1 (proj1 chunks_ok)) (proj1 (proj2 (proj1 chunks_ok))) (proj2 (proj2 (proj1 chunks_ok)))).
Defined.

Lemma sync_run : exists l, syncing (hash_of ops) l state2.
Proof.
  eexists. eapply (sync_chunk _ _ state1 middle chunk2 Applied state2);
    [eapply (sync_chunk _ _ fresh [] chunk1 Applied state1)|by apply key_ok_check|apply chunks_ok|exact second_applied].
  - by apply (sync_start _ (mk_txn ∅ None) fresh).
  - apply key_ok_nil.
  - apply chunks_ok.
  - exact first_applied.
Qed.
Lemma sync_sound_witness : exists l, collision blake2b (trie_strings (table (end_of ops))) l \/
  exists r, trie_inv r r (table state2) /\ contents (table state2) = kept r (contents (table (end_of ops))).
Proof.
  destruct sync_run as [l Hl]. exists l.
  exact (sync_sound (table (end_of ops)) small_root (hash_of ops) l state2 (proj1 small_inv) small_values small_root_stored small_root_hash Hl).
Defined.

Lemma remove_chunk_exact_witness :
  exists s', remove_chunk [1; 2; 5]%nat (end_of ops) = (Ok tt, s') /\
    trie_inv (Some [1; 2; 5]%nat) (Some [1; 2; 5]%nat) (table s') /\ recorded None s' /\
    (forall k, contents (table s') !! k = if range_contains (Some [1; 2; 5]%nat) k then None else contents (table (end_of ops)) !! k) /\
    forall n h, table (end_of ops) !! [] = Some n -> hash n = Some h -> exists n', table s' !! [] = Some n' /\ hash n' = Some h.
Proof. exact (remove_chunk_exact None None [1; 2; 5]%nat (end_of ops) (proj1 small_inv) (proj2 (proj2 small_inv))). Defined.
End SmallTrie.
