(* ===== verification/Mmr.v ===== *)
(** * Merkle mountain ranges

    [primitives/mmr/src]: positions of nodes and peaks, the stores, appending to and
    cutting a range, its root, proofs for leaves and for the number of leaves, and the
    range that keeps its peaks only.  With it come its users in [hash/src/lib.rs], in
    [primitives/transaction/src] and in [blockchain/src/history]: the hash function of
    the history tree, proofs of historic transactions and chunks of the history.

    A [usize] is a [Z] of 64 bits whose operators wrap.  A loop that does not return is
    a panic. *)

From S2P Require Import Prelude Coin AccountTypes Codec TxContent Block.

Module Usize.
Definition add (a b : Z) : Z := wrap 64 (a + b).
Definition sub (a b : Z) : Z := wrap 64 (a - b).
Definition mul (a b : Z) : Z := wrap 64 (a * b).
(** The amount of a shift is taken modulo the width. *)
Definition shl (a n : Z) : Z := wrap 64 (Z.shiftl a (n `mod` 64)).
Definition MAX : Z := 2 ^ 64 - 1.
End Usize.

(** [usize::count_ones]. *)
Fixpoint pos_ones (p : positive) : Z :=
  match p with
  | xH => 1
  | xO p => pos_ones p
  | xI p => 1 + pos_ones p
  end.
Definition count_ones (z : Z) : Z := match z with Zpos p => pos_ones p | _ => 0 end.
Definition is_power_of_two (z : Z) : bool := count_ones z =? 1.
(** [USIZE_BITS - v.leading_zeros()]. *)
Definition bit_length (v : Z) : Z := if v =? 0 then 0 else Z.log2 v + 1.

Inductive Error :=
  InconsistentStore | EmptyTree | ProveInvalidLeaves | InvalidProof | IncompleteProof | ProofOutOfOrder.
#[global] Instance Error_eq_dec : EqDecision Error.
Proof. solve_decision. Defined.
Abbreviation R := (outcome Error).

(** ** Positions *)

Record Position := mk_pos { index : Z; height : Z; right_node : bool }.

Definition all_ones (num : Z) : bool :=
  if num =? 0 then false else is_power_of_two (Usize.add num 1).
Definition move_left (index : Z) : Z :=
  let most_significant_bits := Usize.shl 1 (wrap 32 (bit_length index - 1)) in
  Usize.sub index (Usize.sub most_significant_bits 1).
(** Every turn clears a bit, as far as the loop returns. *)
Fixpoint height_loop (fuel : nat) (index : Z) : R Z :=
  if all_ones index then Ok (Usize.sub (count_ones index) 1)
  else match fuel with
       | O => Panic
       | S fuel => height_loop fuel (move_left index)
       end.
Definition index_to_height (index : Z) : R Z := height_loop 64 (Usize.add index 1).
Definition leaf_number_to_index (leaf_number : Z) : Z :=
  Usize.sub (Usize.mul 2 leaf_number) (count_ones leaf_number).

Definition sibling (self : Position) : Position :=
  let sibling_offset := Usize.sub (Usize.shl 2 (height self)) 1 in
  mk_pos (if right_node self then Usize.sub (index self) sibling_offset
          else Usize.add (index self) sibling_offset) (height self) (negb (right_node self)).
Definition parent (self : Position) : R Position :=
  let parent_offset := Usize.shl 2 (height self) in
  let index := if right_node self then Usize.add (index self) 1 else Usize.add (index self) parent_offset in
  next_height ← index_to_height (Usize.add index 1);
  mret (mk_pos index (Usize.add (height self) 1) (Usize.add (height self) 1 <? next_height)).
Definition left_child (self : Position) : option Position :=
  let parent_offset := Usize.shl 1 (height self) in
  if 0 <? height self then Some (mk_pos (Usize.sub (index self) parent_offset) (height self - 1) false) else None.
Definition right_child (self : Position) : option Position :=
  if 0 <? height self then Some (mk_pos (Usize.sub (index self) 1) (height self - 1) true) else None.
Definition leaves_below (self : Position) : Z := Usize.shl 1 (height self).
(** [Position::from(index)]. *)
Definition position_from (index : Z) : R Position :=
  height ← index_to_height index;
  next_height ← index_to_height (Usize.add index 1);
  mret (mk_pos index height (height <? next_height)).

(** ** Peaks *)

(** Doubles [k] while [k - 1 <= size], up to the width. *)
Fixpoint peak_bound (fuel : nat) (size k : Z) : R Z :=
  if Usize.sub k 1 <=? size then
    match checked_mul 64 k 2 with
    | Some next => match fuel with O => Panic | S fuel => peak_bound fuel size next end
    | None => Ok k
    end
  else Ok k.
Definition first_peak (size : Z) : R (option Position) :=
  if size =? 0 then mret None
  else
    k ← peak_bound 64 size 1;
    let peak_index_one_based := Usize.sub (Z.shiftr k 1) 1 in
    mret (Some (mk_pos (Usize.sub peak_index_one_based 1) (Usize.sub (count_ones peak_index_one_based) 1) false)).
(** The candidate or the first left child below it that is in the range. *)
Fixpoint peak_candidate (fuel : nat) (size : Z) (candidate : option Position) : R (option Position) :=
  match candidate with
  | None => Ok None
  | Some p =>
      if Usize.sub size 1 <? index p then
        match fuel with O => Panic | S fuel => peak_candidate fuel size (left_child p) end
      else Ok (Some p)
  end.
Fixpoint peaks_loop (fuel : nat) (size : Z) (current_peak : option Position) : R (list Position) :=
  match current_peak with
  | None => Ok []
  | Some p =>
      next ← peak_candidate 64 size (left_child (sibling p));
      match fuel with
      | O => Panic
      | S fuel => rest ← peaks_loop fuel size next; mret (p :: rest)
      end
  end.
(** The items of [PeakIterator::new(size)]. *)
Definition peaks (size : Z) : R (list Position) :=
  first ← first_peak size;
  peaks_loop 64 size first.

Fixpoint rev_peaks_loop (fuel : nat) (current_peak : Position) : R (list Position) :=
  let tree_nodes := Usize.sub (Usize.shl 2 (height current_peak)) 1 in
  if Usize.add (index current_peak) 1 =? tree_nodes then Ok [current_peak]
  else
    let index := Usize.sub (index current_peak) tree_nodes in
    height ← index_to_height index;
    match fuel with
    | O => Panic
    | S fuel => rest ← rev_peaks_loop fuel (mk_pos index height false); mret (current_peak :: rest)
    end.
(** The items of [RevPeakIterator::new(size)]. *)
Definition rev_peaks (size : Z) : R (list Position) :=
  if size =? 0 then Ok []
  else
    height ← index_to_height (size - 1);
    rev_peaks_loop 64 (mk_pos (size - 1) height false).

(** ** Hashes and stores *)

(** [trait Merge] and [trait Hash<H>]. *)
Class Merge (H : Type) := { empty : Z -> H; merge : H -> H -> Z -> H }.
Class Hash (H T : Type) := hash : T -> Z -> H.
(** [trait Store<H>]. *)
Class Store (H S : Type) := {
  st_push : S -> H -> S;
  st_append : S -> list H -> S;
  st_remove_back : S -> Z -> S;
  st_get : S -> Z -> option H;
  st_len : S -> Z;
}.

(** [MemoryStore]: the elements in a vector. *)
Record MemoryStore (H : Type) := mk_mem { inner : list H }.
Arguments mk_mem {H}.
Arguments inner {H}.
(** Where [n] is larger than the length, the difference wraps and nothing is cut. *)
#[global] Instance MemoryStore_store H : Store H (MemoryStore H) := {
  st_push s e := mk_mem (inner s ++ [e]);
  st_append s es := mk_mem (inner s ++ es);
  st_remove_back s n := mk_mem (take (Z.to_nat (Usize.sub (Z.of_nat (length (inner s))) n)) (inner s));
  st_get s pos := inner s !! Z.to_nat pos;
  st_len s := Z.of_nat (length (inner s));
}.

(** [MemoryTransaction]: new elements on top of a store. *)
Record MemoryTransaction (H S : Type) := mk_tx { tx_store : S; tx_pos : Z; tx_data : list H }.
Arguments mk_tx {H S}.
Arguments tx_store {H S}.
Arguments tx_pos {H S}.
Arguments tx_data {H S}.
Definition tx_new {H S} `{Store H S} (s : S) : MemoryTransaction H S := mk_tx s (st_len s) [].
Definition commit {H S} `{Store H S} (tx : MemoryTransaction H S) : S :=
  let s := tx_store tx in
  let s := if tx_pos tx <? st_len s then st_remove_back s (Usize.sub (st_len s) (tx_pos tx)) else s in
  st_append s (tx_data tx).
#[global] Instance MemoryTransaction_store H S `{Store H S} : Store H (MemoryTransaction H S) := {
  st_push tx e := mk_tx (tx_store tx) (tx_pos tx) (tx_data tx ++ [e]);
  st_append tx es := mk_tx (tx_store tx) (tx_pos tx) (tx_data tx ++ es);
  st_remove_back tx n :=
    let len := Z.of_nat (length (tx_data tx)) in
    if len <? n then mk_tx (tx_store tx) (Usize.sub (tx_pos tx) (n - len)) []
    else mk_tx (tx_store tx) (tx_pos tx) (take (Z.to_nat (len - n)) (tx_data tx));
  st_get tx pos := if pos <? tx_pos tx then st_get (tx_store tx) pos else tx_data tx !! Z.to_nat (pos - tx_pos tx);
  st_len tx := Usize.add (tx_pos tx) (Z.of_nat (length (tx_data tx)));
}.

(** ** Bagging *)

Section Bagging.
Context {H : Type} `{Merge H}.

Fixpoint bagging_loop (peaks_rev : list (H * Z)) (bagging_info : option (H * Z)) : option (H * Z) :=
  match peaks_rev with
  | [] => bagging_info
  | (peak_hash, peak_leaves) :: peaks_rev =>
      bagging_loop peaks_rev
        (match bagging_info with
         | None => Some (peak_hash, peak_leaves)
         | Some (root_hash, root_leaves) =>
             let sum_leaves := Usize.add root_leaves peak_leaves in
             Some (merge peak_hash root_hash sum_leaves, sum_leaves)
         end)
  end.
Definition bagging (peaks_rev : list (H * Z)) : R H :=
  match bagging_loop peaks_rev None with Some (root, _) => Ok root | None => Err ProveInvalidLeaves end.
End Bagging.

(** ** The range *)

Record MerkleMountainRange (S : Type) := mk_mmr { store : S; num_leaves : Z }.
Arguments mk_mmr {S}.
Arguments store {S}.
Arguments num_leaves {S}.

Record MmrProof (H : Type) := mk_proof { mmr_size : Z; nodes : list H }.
Arguments mk_proof {H}.
Arguments mmr_size {H}.
Arguments nodes {H}.
Record RangeProof (H : Type) := mk_range_proof { proof : MmrProof H; assume_previous : bool }.
Arguments mk_range_proof {H}.
Arguments proof {H}.
Arguments assume_previous {H}.
Inductive SizeProof (H T : Type) :=
  | SizeEmptyTree
  | SingleElement (size : Z) (item : T)
  | MultipleElements (size : Z) (left right : H).
Arguments SizeEmptyTree {H T}.
Arguments SingleElement {H T}.
Arguments MultipleElements {H T}.

(** Positions are compared by their index. *)
Definition pos_eq (a b : Position) : bool := index a =? index b.
Definition pos_le (a b : Position) : Prop := index a <= index b.
#[global] Instance pos_le_dec : RelDecision pos_le.
Proof. intros a b. unfold pos_le. apply _. Defined.
(** The positions up to the first after [peak], and the rest. *)
Fixpoint split_at_peak {A} (pos : A -> Position) (peak : Position) (l : list A) : list A * list A :=
  match l with
  | [] => ([], [])
  | a :: l' =>
      if index peak <? index (pos a) then ([], l)
      else let '(below, rest) := split_at_peak pos peak l' in (a :: below, rest)
  end.
(** A climb raises one of the positions per turn and stops below the width. *)
Definition climb_fuel {A} (positions : list A) : nat := S (65 * length positions).

Section Range.
Context {H T St : Type} `{Merge H} `{Hash H T} `{Store H St}.

Definition len (self : MerkleMountainRange St) : Z := st_len (store self).
Definition is_empty (self : MerkleMountainRange St) : bool := len self =? 0.
Definition new (s : St) : R (MerkleMountainRange St) :=
  if st_len s =? 0 then mret (mk_mmr s 0)
  else
    ps ← peaks (st_len s);
    mret (mk_mmr s (foldl (fun sum p => Usize.add sum (leaves_below p)) 0 ps)).
Definition get_leaf (self : MerkleMountainRange St) (leaf_index : Z) : option H :=
  if num_leaves self <=? leaf_index then None else st_get (store self) (leaf_number_to_index leaf_index).

(** Hash up while the position is a right child. *)
Fixpoint push_loop (fuel : nat) (pos : Position) (tx : MemoryTransaction H St) : R (MemoryTransaction H St) :=
  if right_node pos then
    left_elem ← or_err (st_get tx (index (sibling pos))) InconsistentStore;
    right_elem ← or_err (st_get tx (index pos)) InconsistentStore;
    pos ← parent pos;
    let tx := st_push tx (merge left_elem right_elem (leaves_below pos)) in
    match fuel with O => Panic | S fuel => push_loop fuel pos tx end
  else Ok tx.
Definition push (elem : T) : M (MerkleMountainRange St) Error Z :=
  num ← gets num_leaves;
  idx ← gets len;
  pos ← lift (position_from idx);
  tx ← gets (fun self => tx_new (store self));
  tx ← lift (push_loop 64 pos (st_push tx (hash elem (leaves_below pos))));
  modify (fun self => mk_mmr (commit tx) (Usize.add (num_leaves self) 1));;
  mret num.
Definition remove_back : M (MerkleMountainRange St) Error unit :=
  none ← gets is_empty;
  fail_if none EmptyTree;;
  length ← gets len;
  height ← lift (index_to_height (length - 1));
  modify (fun self => mk_mmr (st_remove_back (store self) (Usize.add height 1)) (num_leaves self)).

Definition get_peak (self : MerkleMountainRange St) (p : Position) : R (H * Z) :=
  h ← or_err (st_get (store self) (index p)) InconsistentStore;
  mret (h, leaves_below p).
Definition get_root (self : MerkleMountainRange St) : R H :=
  if is_empty self then mret (empty 0)
  else
    ps ← rev_peaks (len self);
    items ← mapM (get_peak self) ps;
    bagging items.

(** The length to prove for. *)
Definition proof_length (self : MerkleMountainRange St) (verifier_state : option Z) : R Z :=
  match verifier_state with
  | None => mret (len self)
  | Some x => if len self <? x then Err ProveInvalidLeaves else mret x
  end.

(** *** Proofs of the number of leaves *)

Record BaggingInfo := mk_info {
  info_hash : H; info_leaves : Z; left_child_hash : option H; right_child_hash : option H }.
Definition peak_info (self : MerkleMountainRange St) (p : Position) : R BaggingInfo :=
  h ← or_err (st_get (store self) (index p)) InconsistentStore;
  mret (mk_info h (leaves_below p)
          (left_child p ≫= fun q => st_get (store self) (index q))
          (right_child p ≫= fun q => st_get (store self) (index q))).
Fixpoint size_loop (peaks_rev : list BaggingInfo) (bagging_info : option BaggingInfo) : option BaggingInfo :=
  match peaks_rev with
  | [] => bagging_info
  | item :: peaks_rev =>
      size_loop peaks_rev
        (match bagging_info with
         | None => Some item
         | Some root =>
             let sum_leaves := Usize.add (info_leaves root) (info_leaves item) in
             Some (mk_info (merge (info_hash item) (info_hash root) sum_leaves) sum_leaves
                     (Some (info_hash item)) (Some (info_hash root)))
         end)
  end.
Definition size_proof (f : Z -> option T) (peaks_rev : list BaggingInfo) : R (SizeProof H T) :=
  match size_loop peaks_rev None with
  | Some (mk_info _ size (Some left_hash) (Some right_hash)) => mret (MultipleElements size left_hash right_hash)
  | Some (mk_info _ size None None) =>
      if size =? 1 then item ← or_err (f 0) InconsistentStore; mret (SingleElement size item)
      else Err ProveInvalidLeaves
  | None => mret SizeEmptyTree
  | _ => Err ProveInvalidLeaves
  end.
Definition prove_num_leaves (self : MerkleMountainRange St) (f : Z -> option T) (verifier_state : option Z)
  : R (SizeProof H T) :=
  if is_empty self then mret SizeEmptyTree
  else
    length ← proof_length self verifier_state;
    ps ← rev_peaks length;
    items ← mapM (peak_info self) ps;
    size_proof f items.

(** *** Proofs of leaves *)

Definition proof_node (self : MerkleMountainRange St) (lower_bound idx : Z) (proof_nodes : list H) : R (list H) :=
  if lower_bound <=? idx then
    h ← or_err (st_get (store self) idx) InconsistentStore;
    mret (proof_nodes ++ [h])
  else mret proof_nodes.
Fixpoint prove_climb (fuel : nat) (self : MerkleMountainRange St) (peak : Position) (lower_bound : Z)
  (queue : list Position) (proof_nodes : list H) : R (list H) :=
  match queue with
  | [] => Ok proof_nodes
  | position :: queue =>
      if pos_eq position peak then Ok proof_nodes
      else
        let sib := sibling position in
        '(queue, proof_nodes) ←
          match queue with
          | next :: queue' =>
              if pos_eq next sib then Ok (queue', proof_nodes)
              else proof_nodes ← proof_node self lower_bound (index sib) proof_nodes; mret (queue, proof_nodes)
          | [] => proof_nodes ← proof_node self lower_bound (index sib) proof_nodes; mret ([], proof_nodes)
          end;
        up ← parent position;
        match fuel with
        | O => Panic
        | S fuel => prove_climb fuel self peak lower_bound (queue ++ [up]) proof_nodes
        end
  end.
Definition prove_for_peak (self : MerkleMountainRange St) (proof_nodes : list H) (positions : list Position)
  (peak : Position) (lower_bound : Z) : R (list H) :=
  match positions with
  | [] => proof_node self lower_bound (index peak) proof_nodes
  | first :: others =>
      if (length others =? 0)%nat && pos_eq first peak then Ok proof_nodes
      else prove_climb (climb_fuel positions) self peak lower_bound positions proof_nodes
  end.
(** The peaks in order: the positions left, the peaks without positions since the last
    one with some, the nodes of the proof. *)
Fixpoint prove_peaks (self : MerkleMountainRange St) (lower_bound : Z) (ps : list Position)
  (positions baggable_peaks : list Position) (proof_nodes : list H) : R (list Position * list Position * list H) :=
  match ps with
  | [] => Ok (positions, baggable_peaks, proof_nodes)
  | peak :: ps =>
      let '(below, rest) := split_at_peak id peak positions in
      let baggable_peaks := if (length below =? 0)%nat then baggable_peaks ++ [peak] else [] in
      proof_nodes ← prove_for_peak self proof_nodes below peak lower_bound;
      prove_peaks self lower_bound ps rest baggable_peaks proof_nodes
  end.
(** [Vec::split_off] panics past the end. *)
Definition bag_last (baggable_peaks : list Position) (proof_nodes : list H) : R (list H) :=
  let n := length baggable_peaks in
  if (n =? 0)%nat then mret proof_nodes
  else if (length proof_nodes <? n)%nat then Panic
  else
    let at_ := (length proof_nodes - n)%nat in
    bagged ← bagging (rev (zip (drop at_ proof_nodes) (leaves_below <$> baggable_peaks)));
    mret (take at_ proof_nodes ++ [bagged]).
Definition prove_positions (self : MerkleMountainRange St) (positions : list Position) (tree_length : Z)
  (assume_previous : bool) : R (MmrProof H) :=
  match positions with
  | [] => if tree_length =? 0 then mret (mk_proof 0 []) else Err ProveInvalidLeaves
  | first :: others =>
      if (tree_length =? 1) && (length others =? 0)%nat && (index first =? 0) then mret (mk_proof tree_length [])
      else
        let lower_bound := if assume_previous then index first else 0 in
        ps ← peaks tree_length;
        '(rest, baggable_peaks, proof_nodes) ← prove_peaks self lower_bound ps positions [] [];
        err_if (negb (length rest =? 0)%nat) ProveInvalidLeaves;;
        proof_nodes ← bag_last baggable_peaks proof_nodes;
        mret (mk_proof tree_length proof_nodes)
  end.
Definition prove (self : MerkleMountainRange St) (positions : list Z) (verifier_state : option Z) : R (MmrProof H) :=
  length ← proof_length self verifier_state;
  positions ← mapM (fun i =>
    pos ← position_from (leaf_number_to_index i);
    if length <=? index pos then Err ProveInvalidLeaves else mret pos) positions;
  prove_positions self (merge_sort pos_le positions) length false.
(** Positions on alternating sides, from a leaf on the given side. *)
Fixpoint alternate (right_node : bool) (indices : list Z) : list Position :=
  match indices with
  | [] => []
  | i :: indices => mk_pos i 0 right_node :: alternate (negb right_node) indices
  end.
Definition prove_range (self : MerkleMountainRange St) (start end_ : Z) (verifier_state : option Z)
  (assume_previous : bool) : R (RangeProof H) :=
  length ← proof_length self verifier_state;
  let it := base.filter (fun i => i < len self) (leaf_number_to_index <$> seqZ start (end_ - start)) in
  first ← or_err (head it) ProveInvalidLeaves;
  first_position ← position_from first;
  p ← prove_positions self (alternate (right_node first_position) it) length assume_previous;
  mret (mk_range_proof p assume_previous).
End Range.
Arguments BaggingInfo : clear implicits.

(** ** Verification *)

Definition MAX_MMR_SIZE : Z := Usize.MAX / 2.

Section Verification.
Context {H T : Type} `{EqDecision H} `{Merge H} `{Hash H T}.

Definition size_verify (self : SizeProof H T) (root : H) : bool :=
  bool_decide (root = match self with
                      | SizeEmptyTree => empty 0
                      | SingleElement size item => hash item size
                      | MultipleElements size l r => merge l r size
                      end).
Definition size (self : SizeProof H T) : Z :=
  match self with SizeEmptyTree => 0 | SingleElement size _ | MultipleElements size _ _ => size end.

(** The positions whose hashes are known climb to the peak, with nodes of the proof
    for the siblings that are not. *)
Fixpoint root_climb (fuel : nat) (peak : Position) (queue : list (Position * H)) (proof_iter : list H) : R (H * list H) :=
  match queue with
  | [] => Err InvalidProof
  | (position, h) :: queue =>
      if pos_eq position peak then Ok (h, proof_iter)
      else
        let take_node :=
          match proof_iter with
          | node :: proof_iter => Ok (node, queue, proof_iter)
          | [] => Err InvalidProof
          end in
        '(sibling_hash, queue, proof_iter) ←
          match queue with
          | (next, next_hash) :: queue' =>
              if pos_eq next (sibling position) then Ok (next_hash, queue', proof_iter) else take_node
          | [] => take_node
          end;
        parent_pos ← parent position;
        let parent_hash :=
          if right_node position then merge sibling_hash h (leaves_below parent_pos)
          else merge h sibling_hash (leaves_below parent_pos) in
        match fuel with
        | O => Panic
        | S fuel => root_climb fuel peak (queue ++ [(parent_pos, parent_hash)]) proof_iter
        end
  end.
Definition calculate_root_for_peak (peak : Position) (leaves : list (Position * H)) (proof_iter : list H) : R (H * list H) :=
  let climb := root_climb (climb_fuel leaves) peak leaves proof_iter in
  match leaves with
  | [(position, h)] => if pos_eq position peak then Ok (h, proof_iter) else climb
  | _ => climb
  end.
(** [last_mut]: the leaves of a peak that is bagged into the last hash. *)
Definition add_to_last (n : Z) (hashes : list (H * Z)) : option (list (H * Z)) :=
  match rev hashes with
  | (h, leaves) :: before => Some (rev before ++ [(h, Usize.add leaves n)])
  | [] => None
  end.
Fixpoint peak_roots_loop (ps : list Position) (leaves : list (Position * H)) (proof_iter : list H)
  (peaks_hashes : list (H * Z)) : R (list (Position * H) * list H * list (H * Z)) :=
  match ps with
  | [] => Ok (leaves, proof_iter, peaks_hashes)
  | peak :: ps =>
      let '(below, rest) := split_at_peak fst peak leaves in
      match below, proof_iter with
      | [], node :: proof_iter => peak_roots_loop ps rest proof_iter (peaks_hashes ++ [(node, leaves_below peak)])
      | [], [] =>
          match add_to_last (leaves_below peak) peaks_hashes with
          | Some peaks_hashes => peak_roots_loop ps rest proof_iter peaks_hashes
          | None => Ok (leaves, proof_iter, peaks_hashes)
          end
      | _, _ =>
          '(h, proof_iter) ← calculate_root_for_peak peak below proof_iter;
          peak_roots_loop ps rest proof_iter (peaks_hashes ++ [(h, leaves_below peak)])
      end
  end.
Definition calculate_peak_roots (self : MmrProof H) (leaves : list (Position * H)) : R (list (H * Z)) :=
  let loop :=
    ps ← peaks (mmr_size self);
    '(rest, proof_iter, peaks_hashes) ← peak_roots_loop ps leaves (nodes self) [];
    err_if (negb (length rest =? 0)%nat || negb (length proof_iter =? 0)%nat) InvalidProof;;
    mret peaks_hashes in
  match leaves with
  | [(position, h)] => if (mmr_size self =? 1) && (index position =? 0) then mret [(h, 1)] else loop
  | _ => loop
  end.
Definition leaf_position (self : MmrProof H) (leaf : Z * T) : R (Position * H) :=
  let '(i, value) := leaf in
  err_if (mmr_size self <=? i) ProveInvalidLeaves;;
  pos ← position_from (leaf_number_to_index i);
  err_if (mmr_size self <=? index pos) ProveInvalidLeaves;;
  mret (pos, hash value (leaves_below pos)).
(** Two neighbours with one position. *)
Fixpoint repeated (l : list (Position * H)) : bool :=
  match l with
  | a :: (b :: _) as l => pos_eq (fst a) (fst b) || repeated l
  | _ => false
  end.
Definition leaf_le (a b : Position * H) : Prop := pos_le (fst a) (fst b).
#[global] Instance leaf_le_dec : RelDecision leaf_le.
Proof. intros a b. unfold leaf_le. apply _. Defined.
Definition calculate_root (self : MmrProof H) (leaves : list (Z * T)) : R H :=
  err_if (MAX_MMR_SIZE <? mmr_size self) InvalidProof;;
  positions ← mapM (leaf_position self) leaves;
  let positions := merge_sort leaf_le positions in
  err_if (repeated positions) InvalidProof;;
  peaks ← calculate_peak_roots self positions;
  bagging (rev peaks).
Definition verify (self : MmrProof H) (root : H) (leaves : list (Z * T)) : R bool :=
  err_if (MAX_MMR_SIZE <? mmr_size self) InvalidProof;;
  if (mmr_size self =? 0) && (length (nodes self) =? 0)%nat then mret (bool_decide (root = empty 0))
  else
    calculated_root ← calculate_root self leaves;
    mret (bool_decide (calculated_root = root)).

Definition convert_leaves_with_start (self : RangeProof H) (leaf_index : Z) (leaves : list T) : R (list (Z * T)) :=
  let n := Z.of_nat (length leaves) in
  err_if (negb (n =? 0) && (mmr_size (proof self) <=? leaf_number_to_index (Usize.sub (Usize.add leaf_index n) 1)))
    ProveInvalidLeaves;;
  mret (imap (fun i t => (Usize.add leaf_index (Z.of_nat i), t)) leaves).
Definition range_calculate_root (self : RangeProof H) (leaves : list (Z * T)) : R H :=
  err_if (assume_previous self) IncompleteProof;;
  calculate_root (proof self) leaves.
Definition calculate_root_with_start (self : RangeProof H) (leaf_index : Z) (leaves : list T) : R H :=
  err_if (assume_previous self) IncompleteProof;;
  leaves ← convert_leaves_with_start self leaf_index leaves;
  calculate_root (proof self) leaves.
Definition range_verify (self : RangeProof H) (root : H) (leaves : list (Z * T)) : R bool :=
  err_if (assume_previous self) IncompleteProof;;
  verify (proof self) root leaves.
Definition verify_with_start (self : RangeProof H) (root : H) (leaf_index : Z) (leaves : list T) : R bool :=
  err_if (assume_previous self) IncompleteProof;;
  leaves ← convert_leaves_with_start self leaf_index leaves;
  verify (proof self) root leaves.
End Verification.

(** ** The range of peaks *)

(** [PeaksMerkleMountainRange] over a [LightMemoryStore]. *)
Record PeaksMerkleMountainRange (H : Type) := mk_peaks { light_store : gmap Z H; peaks_len : Z; peaks_num_leaves : Z }.
Arguments mk_peaks {H}.
Arguments light_store {H}.
Arguments peaks_len {H}.
Arguments peaks_num_leaves {H}.

Section Peaks.
Context {H T : Type} `{Merge H} `{Hash H T}.
Abbreviation PM := (M (PeaksMerkleMountainRange H) Error).

Definition peaks_new (s : gmap Z H) : R (PeaksMerkleMountainRange H) :=
  let initial_len := Z.of_nat (base.size s) in
  if initial_len =? 0 then mret (mk_peaks s initial_len 0)
  else
    ps ← peaks initial_len;
    mret (mk_peaks s initial_len (foldl (fun sum p => Usize.add sum (leaves_below p)) 0 ps)).
(** [self.peaks().map(|pos| pos.index).collect()]. *)
Definition peak_indices (length : Z) : R (gset Z) :=
  ps ← peaks length;
  mret (list_to_set (index <$> ps)).
(** [self.store.insert(..); self.len += 1]. *)
Definition insert_node (idx : Z) (h : H) : PM unit :=
  modify (fun self => mk_peaks (<[idx := h]> (light_store self)) (Usize.add (peaks_len self) 1) (peaks_num_leaves self)).
Definition node_at (idx : Z) : PM H :=
  s ← gets light_store;
  ok_or (s !! idx) InconsistentStore.
Fixpoint peaks_push_loop (fuel : nat) (pos : Position) (temp_elements : gset Z) : PM (gset Z) :=
  if right_node pos then
    left_elem ← node_at (index (sibling pos));
    right_elem ← node_at (index pos);
    pos ← lift (parent pos);
    insert_node (index pos) (merge left_elem right_elem (leaves_below pos));;
    match fuel with
    | O => panic
    | S fuel => peaks_push_loop fuel pos ({[index pos]} ∪ temp_elements)
    end
  else mret temp_elements.
(** What is not a peak any more is removed, but for the first node. *)
Definition remove_old (old_peaks temp_elements new_peaks : gset Z) (s : gmap Z H) : gmap Z H :=
  base.filter (fun kv => ~ (kv.1 ∈ (old_peaks ∪ temp_elements) ∖ new_peaks /\ kv.1 <> 0)) s.
Definition peaks_push (elem : T) : PM Z :=
  num ← gets peaks_num_leaves;
  idx ← gets peaks_len;
  pos ← lift (position_from idx);
  old_peaks ← lift (peak_indices idx);
  insert_node (index pos) (hash elem (leaves_below pos));;
  temp_elements ← peaks_push_loop 64 pos {[index pos]};
  length ← gets peaks_len;
  new_peaks ← lift (peak_indices length);
  modify (fun self => mk_peaks (remove_old old_peaks temp_elements new_peaks (light_store self)) (peaks_len self)
                        (Usize.add (peaks_num_leaves self) 1));;
  mret num.
Definition peaks_root (self : PeaksMerkleMountainRange H) : R H :=
  if peaks_len self =? 0 then mret (empty 0)
  else
    ps ← rev_peaks (peaks_len self);
    items ← mapM (fun p => h ← or_err (light_store self !! index p) InconsistentStore; mret (h, leaves_below p)) ps;
    bagging items.
End Peaks.

(** ** The history tree *)

(** What is hashed: the prefix and two hashes, or the prefix and an item.  The
    serialization of an item is derived. *)
Class Item (T : Type) := item_bytes : T -> list Z.

Section History.
Context `{BEnv : BlockEnv} {T : Type} `{Item T}.

Definition merge_string (prefix l r : Z) : list Z := be_bytes 8 prefix ++ be_bytes 32 l ++ be_bytes 32 r.
Definition item_string (prefix : Z) (item : T) : list Z := be_bytes 8 prefix ++ item_bytes item.
#[global] Instance Blake2b_merge : Merge Z := {
  empty prefix := be_value (blake2b (be_bytes 8 prefix));
  merge l r prefix := be_value (blake2b (merge_string prefix l r));
}.
#[global] Instance Item_hash : Hash Z T := fun item prefix => be_value (blake2b (item_string prefix item)).

(** [Result::ok]. *)
Definition ok {A} (r : R A) : R (option A) :=
  match r with Ok a => Ok (Some a) | Err _ => Ok None | Panic => Panic end.
Record HistoryTreeProof := mk_history_proof { history_proof : MmrProof Z; history_positions : list Z; history : list T }.
Definition history_verify (self : HistoryTreeProof) (expected_root : Z) : R (option bool) :=
  if negb (length (history self) =? length (history_positions self))%nat then Ok None
  else ok (verify (history_proof self) expected_root (zip (history_positions self) (history self))).
Record HistoryTreeChunk := mk_history_chunk { chunk_proof : RangeProof Z; chunk_history : list T }.
Definition chunk_verify (self : HistoryTreeChunk) (expected_root leaf_index : Z) : R (option bool) :=
  ok (verify_with_start (chunk_proof self) expected_root leaf_index (chunk_history self)).
End History.
