(* ===== verification/MmrPosition.v ===== *)
(** * Positions of a Merkle mountain range

    The nodes of a range are numbered in post-order.  Node [j] at height [h] has the
    leaves from [j * 2 ^ h] on below it and the index [node_index h j]; the operations
    on positions, which work on indices, are those on the pair of [h] and [j]. *)

From S2P Require Import Prelude Mmr.

(** ** Bits *)

Lemma count_ones_nonneg z : 0 <= count_ones z.
Proof. destruct z as [|p|p]; cbn; [lia| |lia]. induction p; cbn [pos_ones]; lia. Qed.
Lemma count_ones_double z : count_ones (2 * z) = count_ones z.
Proof. by destruct z. Qed.
Lemma count_ones_succ_double z : 0 <= z -> count_ones (2 * z + 1) = count_ones z + 1.
Proof. destruct z as [|p|p]; [done| |lia]. intros _. change (2 * Z.pos p + 1) with (Z.pos p~1). cbn [count_ones pos_ones]. lia. Qed.

(** Induction on the bits of a number, the last one first. *)
Lemma bits_ind (P : Z -> Prop) : (forall z, z < 0 -> P z) -> P 0 -> (forall z, 0 < z -> P z -> P (2 * z)) ->
  (forall z, 0 <= z -> P z -> P (2 * z + 1)) -> forall z, P z.
Proof.
  intros Hn H0 H1 H2 [|p|p]; [done| |apply Hn; lia]. induction p as [p IH|p IH|].
  - rewrite Pos2Z.inj_xI. apply H2; [lia|done].
  - rewrite Pos2Z.inj_xO. apply H1; [lia|done].
  - apply (H2 0); [lia|done].
Qed.

Lemma count_ones_le z : 0 <= z -> count_ones z <= z.
Proof.
  induction z as [z Hz| |z Hz IH|z Hz IH] using bits_ind; intros H; [lia|done|..];
    rewrite ?count_ones_double, ?count_ones_succ_double; lia.
Qed.
Lemma count_ones_pos z : 0 < z -> 0 < count_ones z.
Proof.
  induction z as [z Hz| |z Hz IH|z Hz IH] using bits_ind; intros H; [lia..| |]; pose proof (count_ones_nonneg z);
    rewrite ?count_ones_double, ?count_ones_succ_double; lia.
Qed.
Lemma count_ones_succ z : 0 <= z -> count_ones (z + 1) <= count_ones z + 1.
Proof.
  induction z as [z Hz| |z Hz IH|z Hz IH] using bits_ind; intros H; [lia|done|..].
  - rewrite count_ones_succ_double, count_ones_double; lia.
  - replace (2 * z + 1 + 1) with (2 * (z + 1)) by lia. rewrite count_ones_double, count_ones_succ_double; lia.
Qed.

Lemma pow2_S (k : nat) : 2 ^ Z.of_nat (S k) = 2 * 2 ^ Z.of_nat k.
Proof. rewrite Nat2Z.inj_succ, Z.pow_succ_r; lia. Qed.
Lemma pow2_pos (k : nat) : 0 < 2 ^ Z.of_nat k.
Proof. apply Z.pow_pos_nonneg; lia. Qed.

(** The high and the low bits. *)
Lemma count_ones_split (k : nat) q r : 0 <= q -> 0 <= r < 2 ^ Z.of_nat k ->
  count_ones (2 ^ Z.of_nat k * q + r) = count_ones q + count_ones r.
Proof.
  revert q r. induction k as [|k IH]; intros q r Hq Hr.
  { replace r with 0 by (cbn in Hr; lia). replace (2 ^ Z.of_nat 0 * q + 0) with q by (cbn; lia). cbn; lia. }
  rewrite pow2_S in *. pose proof (pow2_pos k).
  assert (exists r' b, 0 <= r' < 2 ^ Z.of_nat k /\ 0 <= b <= 1 /\ r = 2 * r' + b) as (r' & b & Hr' & Hb & ->).
  { exists (r / 2), (r `mod` 2). pose proof (Z.div_mod r 2). pose proof (Z.mod_pos_bound r 2). lia. }
  replace (2 * 2 ^ Z.of_nat k * q + (2 * r' + b)) with (2 * (2 ^ Z.of_nat k * q + r') + b) by lia.
  assert (0 <= 2 ^ Z.of_nat k * q) by nia.
  assert (b = 0 \/ b = 1) as [-> | ->] by lia.
  - rewrite !Z.add_0_r, !count_ones_double. by apply IH.
  - rewrite !count_ones_succ_double, IH by lia. lia.
Qed.
Lemma count_ones_shift (k : nat) q : 0 <= q -> count_ones (2 ^ Z.of_nat k * q) = count_ones q.
Proof.
  intros Hq. pose proof (pow2_pos k). rewrite <-(Z.add_0_r (2 ^ _ * q)), count_ones_split by lia. cbn; lia.
Qed.
Lemma count_ones_all (k : nat) : count_ones (2 ^ Z.of_nat k - 1) = Z.of_nat k.
Proof.
  induction k as [|k IH]; [done|]. rewrite pow2_S. pose proof (pow2_pos k).
  replace (2 * 2 ^ Z.of_nat k - 1) with (2 * (2 ^ Z.of_nat k - 1) + 1) by lia. rewrite count_ones_succ_double; lia.
Qed.
Lemma count_ones_one z : 0 <= z -> count_ones z = 1 -> exists k : nat, z = 2 ^ Z.of_nat k.
Proof.
  induction z as [z Hz| |z Hz IH|z Hz IH] using bits_ind; intros H H1; [lia|done|..].
  - rewrite count_ones_double in H1. destruct (IH ltac:(lia) H1) as [k ->]. exists (S k). by rewrite pow2_S.
  - rewrite count_ones_succ_double in H1 by done. exists 0%nat.
    destruct (decide (z = 0)) as [->|Hz']; [done|]. pose proof (count_ones_pos z). lia.
Qed.

(** The leading bit. *)
Lemma log2_spec_nat z : 0 < z -> exists k : nat, Z.log2 z = Z.of_nat k /\ 2 ^ Z.of_nat k <= z < 2 * 2 ^ Z.of_nat k.
Proof.
  intros Hz. exists (Z.to_nat (Z.log2 z)). pose proof (Z.log2_nonneg z). rewrite Z2Nat.id by done.
  split; [done|]. pose proof (Z.log2_spec z Hz). rewrite Z.pow_succ_r in * by done. done.
Qed.
Lemma count_ones_top (k : nat) z : 2 ^ Z.of_nat k <= z < 2 * 2 ^ Z.of_nat k ->
  count_ones (z - 2 ^ Z.of_nat k) = count_ones z - 1.
Proof.
  intros Hz. pose proof (count_ones_split k 1 (z - 2 ^ Z.of_nat k)) as Hs.
  replace (2 ^ Z.of_nat k * 1 + (z - 2 ^ Z.of_nat k)) with z in Hs by lia. cbn [count_ones pos_ones] in Hs. lia.
Qed.
Lemma count_ones_bound (k : nat) z : 0 <= z < 2 ^ Z.of_nat k -> count_ones z <= Z.of_nat k.
Proof.
  revert z. induction k as [|k IH]; intros z Hz; [by replace z with 0 by (cbn in Hz; lia)|].
  destruct (decide (z < 2 ^ Z.of_nat k)) as [Hlt|Hge]; [specialize (IH z); lia|].
  rewrite pow2_S in Hz. specialize (IH (z - 2 ^ Z.of_nat k)). rewrite count_ones_top in IH; lia.
Qed.

(** ** Machine operations without overflow *)

Lemma usize_small x : 0 <= x < 2 ^ 64 -> wrap 64 x = x.
Proof. intros H. apply wrap_small. unfold in_width, max_value. lia. Qed.
Lemma shl_small (a : Z) (k : nat) : (k < 64)%nat -> 0 <= a * 2 ^ Z.of_nat k < 2 ^ 64 -> Usize.shl a (Z.of_nat k) = a * 2 ^ Z.of_nat k.
Proof. intros Hk Ha. unfold Usize.shl. rewrite Z.mod_small, Z.shiftl_mul_pow2 by lia. by apply usize_small. Qed.
Ltac usize :=
  unfold Usize.add, Usize.sub, Usize.mul in *;
  repeat match goal with |- context [wrap 64 ?x] => rewrite (usize_small x) by lia end.

(** ** Indices *)

Definition node_index (h : nat) (j : Z) : Z := 2 * 2 ^ Z.of_nat h * (j + 1) - 2 - count_ones j.
(** The number of nodes of a range with [n] leaves. *)
Definition tree_size (n : Z) : Z := 2 * n - count_ones n.
Definition pos_at (h : nat) (j : Z) : Position := mk_pos (node_index h j) (Z.of_nat h) (Z.odd j).
(** The node and its successors have indices within the width. *)
Definition in_range (h : nat) (j : Z) : Prop := 0 <= j /\ node_index h j + 3 < 2 ^ 64.

Lemma node_index_leaf n : node_index 0 n = tree_size n.
Proof. unfold node_index, tree_size. change (2 ^ Z.of_nat 0) with 1. lia. Qed.
Lemma node_index_nonneg h j : 0 <= j -> 0 <= node_index h j.
Proof.
  intros Hj. unfold node_index. pose proof (pow2_pos h). pose proof (count_ones_le j Hj). nia.
Qed.
Lemma node_index_right h j : 0 <= j -> node_index (S h) j = node_index h (2 * j + 1) + 1.
Proof. intros Hj. unfold node_index. rewrite pow2_S, count_ones_succ_double by done. lia. Qed.
Lemma node_index_sibling h j : 0 <= j -> node_index h (2 * j + 1) = node_index h (2 * j) + (2 * 2 ^ Z.of_nat h - 1).
Proof. intros Hj. unfold node_index. rewrite count_ones_double, count_ones_succ_double by done. lia. Qed.
(** After a left node comes the first leaf to the right of it. *)
Lemma node_index_next h j : 0 <= j -> Z.odd j = false -> node_index h j + 1 = node_index 0 (2 ^ Z.of_nat h * (j + 1)).
Proof.
  intros Hj Ho. assert (j = 2 * (j / 2)) as Hd.
  { pose proof (Z.div_mod j 2). rewrite Zmod_odd, Ho in *. lia. }
  assert (0 <= j / 2) by (apply Z.div_pos; lia).
  rewrite node_index_leaf. unfold node_index, tree_size. rewrite count_ones_shift by lia.
  assert (count_ones (j + 1) = count_ones j + 1) by (rewrite Hd, count_ones_double, count_ones_succ_double; done). lia.
Qed.
Lemma pow2_h_bound h j : in_range h j -> 2 * 2 ^ Z.of_nat h < 2 ^ 64 /\ (h < 63)%nat /\ j < 2 ^ 64.
Proof.
  intros [Hj Hr]. unfold node_index in Hr. pose proof (pow2_pos h). pose proof (count_ones_le j Hj).
  assert (2 * 2 ^ Z.of_nat h < 2 ^ 64) as Hp by nia. split; [done|]. split; [|nia].
  assert (2 ^ Z.of_nat h < 2 ^ 63) as Hp' by lia. apply Z.pow_lt_mono_r_iff in Hp'; lia.
Qed.

(** ** Heights *)

Lemma node_index_bits h j (m : nat) : 2 ^ Z.of_nat m <= j < 2 * 2 ^ Z.of_nat m ->
  2 ^ Z.of_nat (S h + m) < node_index h j + 2 < 2 * 2 ^ Z.of_nat (S h + m).
Proof.
  intros Hm. pose proof (count_ones_top m j Hm) as Ht. pose proof (pow2_pos m). pose proof (pow2_pos h).
  pose proof (count_ones_le (j - 2 ^ Z.of_nat m) ltac:(lia)). pose proof (count_ones_pos j ltac:(lia)).
  rewrite Nat2Z.inj_add, Z.pow_add_r, pow2_S by lia. unfold node_index. nia.
Qed.
(** [index_to_height] counts from one. *)
Lemma all_ones_node h j : in_range h j -> all_ones (node_index h j + 1) = (j =? 0).
Proof.
  intros Hr. pose proof (pow2_h_bound h j Hr) as (Hp & Hh & _). destruct Hr as [Hj Hr].
  pose proof (node_index_nonneg h j Hj) as Hn. unfold all_ones. destruct (Z.eqb_spec (node_index h j + 1) 0) as [|_]; [lia|].
  usize. unfold is_power_of_two. replace (node_index h j + 1 + 1) with (node_index h j + 2) by lia.
  destruct (Z.eqb_spec j 0) as [->|Hj0].
  - replace (node_index h 0 + 2) with (2 ^ Z.of_nat (S h) * 1) by (unfold node_index; rewrite pow2_S; cbn [count_ones]; lia).
    by rewrite count_ones_shift.
  - apply Z.eqb_neq. intros H1. destruct (log2_spec_nat j) as (m & _ & Hm); [lia|].
    pose proof (node_index_bits h j m Hm) as Hb. destruct (count_ones_one (node_index h j + 2)) as [k Hk]; [lia|done|].
    rewrite Hk in Hb. destruct Hb as [Hb1 Hb2]. rewrite <-pow2_S in Hb2.
    apply Z.pow_lt_mono_r_iff in Hb1; [|lia..]. apply Z.pow_lt_mono_r_iff in Hb2; lia.
Qed.
Lemma move_left_node h j (m : nat) : in_range h j -> 2 ^ Z.of_nat m <= j < 2 * 2 ^ Z.of_nat m ->
  move_left (node_index h j + 1) = node_index h (j - 2 ^ Z.of_nat m) + 1.
Proof.
  intros [Hj Hr] Hm. pose proof (node_index_bits h j m Hm) as Hb. unfold move_left.
  assert (Z.log2 (node_index h j + 1) = Z.of_nat (S h + m)) as Hl.
  { apply Z.log2_unique; [lia|]. rewrite Z.pow_succ_r by lia. lia. }
  assert ((S h + m < 64)%nat) as Hk.
  { assert (2 ^ Z.of_nat (S h + m) < 2 ^ 64) as Hp by lia. apply Z.pow_lt_mono_r_iff in Hp; lia. }
  unfold bit_length. destruct (Z.eqb_spec (node_index h j + 1) 0) as [|_]; [pose proof (node_index_nonneg h j Hj); lia|].
  rewrite Hl, Z.add_simpl_r, (wrap_small 32) by (unfold in_width, max_value; lia).
  pose proof (pow2_pos (S h + m)). rewrite shl_small by lia. usize.
  unfold node_index. rewrite count_ones_top by done. rewrite Nat2Z.inj_add, Z.pow_add_r, pow2_S by lia. lia.
Qed.
Lemma node_index_lt h i j : 0 <= i < j -> node_index h i < node_index h j.
Proof.
  intros Hij. replace j with (i + 1 + Z.of_nat (Z.to_nat (j - i - 1))) by lia. generalize (Z.to_nat (j - i - 1)) as k.
  assert (forall x, 0 <= x -> node_index h x < node_index h (x + 1)) as Hs.
  { intros x Hx. unfold node_index. pose proof (count_ones_succ x Hx). pose proof (pow2_pos h). nia. }
  induction k as [|k IH]; [rewrite Z.add_0_r; apply Hs; lia|]. specialize (Hs (i + 1 + Z.of_nat k) ltac:(lia)).
  replace (i + 1 + Z.of_nat (S k)) with (i + 1 + Z.of_nat k + 1) by lia. lia.
Qed.
Lemma in_range_below h j i : in_range h j -> 0 <= i <= j -> in_range h i.
Proof.
  intros [Hj Hr] Hi. destruct (decide (i = j)) as [->|Hne]; [done|]. split; [lia|]. pose proof (node_index_lt h i j). lia.
Qed.
Lemma height_loop_node h fuel j : in_range h j -> count_ones j <= Z.of_nat fuel ->
  height_loop fuel (node_index h j + 1) = Ok (Z.of_nat h).
Proof.
  revert j. induction fuel as [|fuel IH]; intros j Hr Hf; cbn [height_loop]; rewrite all_ones_node by done;
    pose proof (pow2_h_bound h j Hr) as (Hp & Hh & _); destruct (Z.eqb_spec j 0) as [->|Hj0].
  1,3: replace (node_index h 0 + 1) with (2 ^ Z.of_nat (S h) - 1) by (unfold node_index; rewrite pow2_S; cbn [count_ones]; lia);
    rewrite count_ones_all; usize; f_equal; lia.
  - pose proof (count_ones_pos j). destruct Hr; lia.
  - destruct (log2_spec_nat j) as (m & _ & Hm); [destruct Hr; lia|]. rewrite (move_left_node h j m) by done.
    pose proof (pow2_pos m). apply IH; [apply (in_range_below h j); [done|lia]|]. rewrite count_ones_top by done. lia.
Qed.
Lemma index_to_height_node h j : in_range h j -> index_to_height (node_index h j) = Ok (Z.of_nat h).
Proof.
  intros Hr. unfold index_to_height. pose proof (pow2_h_bound h j Hr) as (_ & _ & Hj).
  pose proof (node_index_nonneg h j ltac:(apply Hr)). destruct (Hr) as [Hj0 Hb]. usize. apply height_loop_node; [done|].
  pose proof (count_ones_bound 64 j). lia.
Qed.

(** ** Operations on positions *)

(** Node [j] at height [h] and the leaf after it are in range. *)
Definition fits (h : nat) (j : Z) : Prop := 0 <= j /\ node_index h j + 4 < 2 ^ 64.

Lemma fits_in_range h j : fits h j -> in_range h j.
Proof. unfold fits, in_range. lia. Qed.
Lemma fits_below h j i : fits h j -> 0 <= i <= j -> fits h i.
Proof.
  intros [Hj Hf] Hi. destruct (decide (i = j)) as [->|Hne]; [done|]. split; [lia|]. pose proof (node_index_lt h i j). lia.
Qed.
Lemma fits_leaves h j : 0 <= j -> 2 ^ Z.of_nat h * (j + 1) <= 2 ^ 62 -> fits h j.
Proof. intros Hj Hb. split; [done|]. unfold node_index. pose proof (count_ones_nonneg j). lia. Qed.
Lemma fits_leaf_number n : 0 <= n < 2 ^ 63 - 1 -> fits 0 n.
Proof.
  intros Hn. split; [lia|]. rewrite node_index_leaf. unfold tree_size. destruct (decide (n = 0)) as [->|]; [done|].
  pose proof (count_ones_pos n). lia.
Qed.
Lemma fits_bound h j : fits h j -> 0 <= node_index h j /\ 2 * 2 ^ Z.of_nat h < 2 ^ 64 /\ (h < 63)%nat /\ node_index h j + 4 < 2 ^ 64.
Proof.
  intros Hf. pose proof (pow2_h_bound h j (fits_in_range _ _ Hf)) as (? & ? & _). destruct Hf as [Hj Hf].
  pose proof (node_index_nonneg h j Hj). done.
Qed.

Lemma odd_cases j : (Z.odd j = true /\ j = 2 * (j / 2) + 1) \/ (Z.odd j = false /\ j = 2 * (j / 2)).
Proof. pose proof (Z.div_mod j 2 ltac:(lia)) as Hd. rewrite Zmod_odd in Hd. destruct (Z.odd j); [left|right]; lia. Qed.
Lemma next_height h j : fits h j -> exists next, index_to_height (Usize.add (node_index h j) 1) = Ok next /\ (Z.of_nat h <? next) = Z.odd j.
Proof.
  intros Hf. pose proof (fits_bound h j Hf) as (Hn & _ & _ & Hb). destruct Hf as [Hj Hf]. usize.
  assert (0 <= j / 2) by (apply Z.div_pos; lia). destruct (odd_cases j) as [[Ho Hd]|[Ho Hd]]; rewrite Ho.
  - assert (node_index h j + 1 = node_index (S h) (j / 2)) as He by (rewrite node_index_right, <-Hd by lia; done).
    exists (Z.of_nat (S h)). rewrite He. split; [apply index_to_height_node; split; lia|apply Z.ltb_lt; lia].
  - exists 0. rewrite node_index_next by done. split; [|apply Z.ltb_ge; lia]. apply (index_to_height_node 0). pose proof (pow2_pos h).
    split; [nia|]. rewrite <-node_index_next by done. lia.
Qed.
Lemma position_from_node h j : fits h j -> position_from (node_index h j) = Ok (pos_at h j).
Proof.
  intros Hf. unfold position_from. rewrite index_to_height_node by (by apply fits_in_range).
  destruct (next_height h j Hf) as (next & Hn & Ho). cbn [mbind outcome_bind]. rewrite Hn. cbn [mbind outcome_bind].
  by rewrite Ho.
Qed.
Lemma leaf_number_index n : 0 <= n < 2 ^ 63 -> leaf_number_to_index n = node_index 0 n.
Proof.
  intros Hn. unfold leaf_number_to_index. rewrite node_index_leaf. unfold tree_size.
  pose proof (count_ones_le n ltac:(lia)). pose proof (count_ones_nonneg n). by usize.
Qed.
Lemma leaves_below_at h j : (h < 64)%nat -> leaves_below (pos_at h j) = 2 ^ Z.of_nat h.
Proof.
  intros Hh. unfold leaves_below, pos_at. cbn [height]. pose proof (pow2_pos h).
  assert (2 ^ Z.of_nat h < 2 ^ 64) by (apply Z.pow_lt_mono_r; lia). rewrite shl_small; lia.
Qed.

(** The other child of the parent. *)
Definition other (j : Z) : Z := if Z.odd j then j - 1 else j + 1.
Lemma sibling_offset h : (h < 63)%nat -> Usize.sub (Usize.shl 2 (Z.of_nat h)) 1 = 2 * 2 ^ Z.of_nat h - 1.
Proof.
  intros Hh. pose proof (pow2_pos h). assert (2 ^ Z.of_nat h < 2 ^ 63) by (apply Z.pow_lt_mono_r; lia).
  rewrite shl_small by lia. by usize.
Qed.
Lemma odd_double j : Z.odd (2 * j) = false.
Proof. by rewrite Z.odd_mul. Qed.
Lemma odd_succ_double j : Z.odd (2 * j + 1) = true.
Proof. by rewrite Z.add_comm, Z.odd_add_mul_2. Qed.
Lemma half_double j : 2 * j / 2 = j.
Proof. rewrite Z.mul_comm. by apply Z.div_mul. Qed.
Lemma half_succ_double j : (2 * j + 1) / 2 = j.
Proof. symmetry. apply (Z.div_unique _ _ _ 1); lia. Qed.
(** Case analysis on the side of a node. *)
Ltac sides j :=
  let k := fresh "k" in let Ho := fresh "Ho" in let Hd := fresh "Hd" in
  destruct (odd_cases j) as [[Ho Hd]|[Ho Hd]]; remember (j / 2) as k eqn:Ek; clear Ek; subst j; clear Ho.
Lemma other_double j : other (2 * j) = 2 * j + 1.
Proof. unfold other. by rewrite odd_double. Qed.
Lemma other_succ_double j : other (2 * j + 1) = 2 * j.
Proof. unfold other. rewrite odd_succ_double. lia. Qed.

Lemma sibling_at h j : fits h j -> fits h (other j) -> sibling (pos_at h j) = pos_at h (other j).
Proof.
  intros Hf Hf'. pose proof (fits_bound h j Hf) as (Hn & Hp & Hh & Hb). pose proof (fits_bound h (other j) Hf') as (Hn' & _ & _ & Hb').
  destruct Hf as [Hj _]. unfold sibling, pos_at. cbn [index height right_node]. rewrite sibling_offset by done. sides j.
  - rewrite other_succ_double, odd_succ_double, odd_double in *. pose proof (node_index_sibling h k ltac:(lia)). usize. f_equal. lia.
  - rewrite other_double, odd_double, odd_succ_double in *. pose proof (node_index_sibling h k ltac:(lia)). usize. f_equal. lia.
Qed.
Lemma parent_at h j : fits h j -> fits (S h) (j / 2) -> parent (pos_at h j) = Ok (pos_at (S h) (j / 2)).
Proof.
  intros Hf Hf'. pose proof (fits_bound h j Hf) as (Hn & Hp & Hh & Hb). pose proof (fits_bound _ _ Hf') as (Hn' & _ & _ & Hb').
  destruct Hf as [Hj _]. destruct (next_height _ _ Hf') as (next & Hx & Ho'). unfold parent. cbn [pos_at index height right_node].
  assert ((if Z.odd j then Usize.add (node_index h j) 1 else Usize.add (node_index h j) (Usize.shl 2 (Z.of_nat h))) = node_index (S h) (j / 2)) as ->.
  { rewrite shl_small by (pose proof (pow2_pos h); lia). sides j.
    - rewrite odd_succ_double in *. pose proof (node_index_right h k ltac:(lia)). usize. lia.
    - rewrite odd_double in *. pose proof (node_index_right h k ltac:(lia)). pose proof (node_index_sibling h k ltac:(lia)). usize. lia. }
  rewrite Hx. cbn [mbind outcome_bind]. unfold Usize.add. rewrite usize_small by lia.
  replace (Z.of_nat h + 1) with (Z.of_nat (S h)) by lia. by rewrite Ho'.
Qed.
Lemma left_child_at h j : fits (S h) j -> left_child (pos_at (S h) j) = Some (pos_at h (2 * j)).
Proof.
  intros Hf. pose proof (fits_bound _ _ Hf) as (Hn & Hp & Hh & Hb). destruct Hf as [Hj _]. unfold left_child, pos_at. cbn [index height].
  destruct (Z.ltb_spec 0 (Z.of_nat (S h))) as [_|]; [|lia]. pose proof (pow2_pos (S h)). rewrite shl_small by lia.
  pose proof (node_index_right h j Hj). pose proof (node_index_sibling h j Hj). pose proof (node_index_nonneg h (2 * j) ltac:(lia)).
  rewrite pow2_S in *. usize. rewrite odd_double. do 2 f_equal; lia.
Qed.
Lemma right_child_at h j : fits (S h) j -> right_child (pos_at (S h) j) = Some (pos_at h (2 * j + 1)).
Proof.
  intros Hf. pose proof (fits_bound _ _ Hf) as (Hn & Hp & Hh & Hb). destruct Hf as [Hj _]. unfold right_child, pos_at. cbn [index height].
  destruct (Z.ltb_spec 0 (Z.of_nat (S h))) as [_|]; [|lia]. pose proof (node_index_right h j Hj).
  pose proof (node_index_nonneg h (2 * j + 1) ltac:(lia)). usize. rewrite odd_succ_double. do 2 f_equal; lia.
Qed.
Lemma child_leaf j : left_child (pos_at 0 j) = None /\ right_child (pos_at 0 j) = None.
Proof. done. Qed.

(** ** Order *)

Lemma tree_size_lt a b : 0 <= a < b -> tree_size a < tree_size b.
Proof. rewrite <-!node_index_leaf. apply node_index_lt. Qed.
Lemma tree_size_le a b : 0 <= a -> 0 <= b -> tree_size a <= tree_size b <-> a <= b.
Proof.
  intros Ha Hb. split; intros H.
  - destruct (decide (a <= b)) as [|Hn]; [done|]. pose proof (tree_size_lt b a). lia.
  - destruct (decide (a = b)) as [->|]; [lia|]. pose proof (tree_size_lt a b). lia.
Qed.
Lemma tree_size_nonneg n : 0 <= n -> 0 <= tree_size n.
Proof. intros Hn. unfold tree_size. pose proof (count_ones_le n Hn). lia. Qed.
Lemma tree_size_zero n : 0 <= n -> tree_size n = 0 -> n = 0.
Proof. intros Hn Hz. apply Z.le_antisymm; [|done]. apply tree_size_le; [done..|]. by rewrite Hz. Qed.
(** A leaf comes before the nodes above it and to its right. *)
Lemma leaf_before_node n h j : 0 <= n -> 0 <= j -> node_index 0 n <= node_index h j <-> n < 2 ^ Z.of_nat h * (j + 1).
Proof.
  intros Hn Hj. pose proof (pow2_pos h). rewrite node_index_leaf. split; intros Hl.
  - destruct (decide (n < 2 ^ Z.of_nat h * (j + 1))) as [|Hge]; [done|]. exfalso.
    assert (tree_size (2 ^ Z.of_nat h * (j + 1)) <= tree_size n) as Hm by (apply tree_size_le; nia).
    unfold tree_size at 1 in Hm. rewrite count_ones_shift in Hm by lia. pose proof (count_ones_succ j Hj).
    unfold node_index in Hl. lia.
  - assert (tree_size n <= tree_size (2 ^ Z.of_nat h * j + (2 ^ Z.of_nat h - 1))) as Hm by (apply tree_size_le; nia).
    unfold tree_size at 2 in Hm. rewrite count_ones_split, count_ones_all in Hm by lia. unfold node_index. nia.
Qed.
Lemma node_index_inj h j h' j' : fits h j -> fits h' j' -> node_index h j = node_index h' j' -> h = h' /\ j = j'.
Proof.
  intros Hf Hf' He. pose proof (index_to_height_node h j (fits_in_range _ _ Hf)) as H1.
  pose proof (index_to_height_node h' j' (fits_in_range _ _ Hf')) as H2. rewrite <-He, H1 in H2.
  assert (h = h') as -> by (injection H2; lia). split; [done|]. destruct Hf as [Hj _], Hf' as [Hj' _].
  destruct (Z.lt_total j j') as [Hl|[Hl|Hl]]; [|done|].
  - pose proof (node_index_lt h' j j'). lia.
  - pose proof (node_index_lt h' j' j). lia.
Qed.
(** The node with the leaves from [2 ^ h * q] on. *)
Lemma node_index_from h q : 0 <= q -> node_index h q = tree_size (2 ^ Z.of_nat h * q) + 2 * 2 ^ Z.of_nat h - 2.
Proof. intros Hq. unfold node_index, tree_size. rewrite count_ones_shift by done. lia. Qed.
Lemma node_index_within h j n : 0 <= j -> 2 ^ Z.of_nat h * (j + 1) <= n -> node_index h j < tree_size n.
Proof.
  intros Hj Hn. pose proof (pow2_pos h). assert (tree_size (2 ^ Z.of_nat h * (j + 1)) <= tree_size n) by (apply tree_size_le; nia).
  unfold node_index. unfold tree_size in *. rewrite count_ones_shift in * by lia. pose proof (count_ones_succ j Hj). lia.
Qed.
