(* ===== verification/MmrPeaks.v ===== *)
(** * Peaks of a Merkle mountain range

    The peaks are the perfect trees that the binary digits of the number of leaves
    stand for.  Both iterators of [primitives/mmr/src/mmr/peaks.rs] give exactly these. *)

From S2P Require Import Prelude Mmr MmrPosition.

(** The trees of height below [k] for [n] leaves, after [start] leaves. *)
Fixpoint trees (k : nat) (start n : Z) : list (nat * Z) :=
  match k with
  | O => []
  | S k =>
      let w := 2 ^ Z.of_nat k in
      if w <=? n then (k, start / w) :: trees k (start + w) (n - w) else trees k start n
  end.
(** Those that fit into [s] nodes. *)
Fixpoint trees_within (k : nat) (start s : Z) : list (nat * Z) :=
  match k with
  | O => []
  | S k =>
      let w := 2 ^ Z.of_nat k in
      if 2 * w - 1 <=? s then (k, start / w) :: trees_within k (start + w) (s - (2 * w - 1)) else trees_within k start s
  end.
Definition at_ (t : nat * Z) : Position := pos_at t.1 t.2.
(** Ranges of less than [2 ^ 62] leaves have indices within the width. *)
Definition max_height : nat := 62.
(** Sealed: unfolding it on a variable doubles at every height. *)
Definition trees_of_aux : seal (trees max_height 0).
Proof. by eexists. Qed.
Definition trees_of : Z -> list (nat * Z) := trees_of_aux.(unseal).
Lemma trees_of_eq n : trees_of n = trees max_height 0 n.
Proof. unfold trees_of. by rewrite trees_of_aux.(seal_eq). Qed.
Lemma max_height_62 : max_height = 62%nat.
Proof. done. Qed.
Lemma pow_max_height : 2 ^ Z.of_nat max_height = 2 ^ 62.
Proof. done. Qed.
#[global] Opaque max_height.


(** [start] is a multiple of [2 ^ k]. *)
Definition aligned (k : nat) (start : Z) : Prop := exists q, 0 <= q /\ start = 2 ^ Z.of_nat k * q.
Lemma aligned_S k start : aligned (S k) start -> aligned k start /\ aligned k (start + 2 ^ Z.of_nat k) /\
  exists q, 0 <= q /\ start / 2 ^ Z.of_nat k = 2 * q /\ start = 2 ^ Z.of_nat k * (2 * q).
Proof.
  intros (q & Hq & ->). rewrite pow2_S. pose proof (pow2_pos k). replace (2 * 2 ^ Z.of_nat k * q) with (2 ^ Z.of_nat k * (2 * q)) by lia.
  split; [exists (2 * q); lia|]. split; [exists (2 * q + 1); lia|]. exists q. split; [done|]. split; [|done].
  rewrite Z.mul_comm, Z.div_mul by lia. done.
Qed.
Lemma aligned_0 k : aligned k 0.
Proof. exists 0. lia. Qed.

(** ** Sizes and numbers of leaves *)

Lemma tree_size_top (k : nat) n : 2 ^ Z.of_nat k <= n < 2 * 2 ^ Z.of_nat k ->
  tree_size n = tree_size (n - 2 ^ Z.of_nat k) + (2 * 2 ^ Z.of_nat k - 1).
Proof. intros Hn. unfold tree_size. rewrite count_ones_top by done. lia. Qed.
Lemma tree_size_pow (k : nat) : tree_size (2 ^ Z.of_nat k) = 2 * 2 ^ Z.of_nat k - 1.
Proof. pose proof (pow2_pos k). rewrite (tree_size_top k), Z.sub_diag by lia. done. Qed.

Lemma trees_within_tree k start n : 0 <= n < 2 ^ Z.of_nat k -> trees_within k start (tree_size n) = trees k start n.
Proof.
  revert start n. induction k as [|k IH]; intros start n Hn; [done|]. rewrite pow2_S in Hn. pose proof (pow2_pos k).
  cbn [trees trees_within]. rewrite <-tree_size_pow.
  destruct (Z.leb_spec (2 ^ Z.of_nat k) n) as [Hle|Hlt].
  - destruct (Z.leb_spec (tree_size (2 ^ Z.of_nat k)) (tree_size n)) as [_|Hc]; [|apply Z.lt_nge in Hc; rewrite tree_size_le in Hc; lia].
    f_equal. rewrite (tree_size_top k n), tree_size_pow by lia. rewrite Z.add_simpl_r. apply IH. lia.
  - destruct (Z.leb_spec (tree_size (2 ^ Z.of_nat k)) (tree_size n)) as [Hc|_]; [rewrite tree_size_le in Hc; lia|]. apply IH. lia.
Qed.
(** Any size has the trees of a number of leaves. *)
Lemma trees_within_leaves k start s : 0 <= s -> exists n, 0 <= n < 2 ^ Z.of_nat k /\ tree_size n <= s /\
  trees_within k start s = trees k start n /\ (s = 0 \/ k = 0%nat \/ 0 < n).
Proof.
  revert start s. induction k as [|k IH]; intros start s Hs; [exists 0; naive_solver|]. pose proof (pow2_pos k).
  cbn [trees trees_within]. rewrite pow2_S. destruct (Z.leb_spec (2 * 2 ^ Z.of_nat k - 1) s) as [Hle|Hlt].
  - destruct (IH (start + 2 ^ Z.of_nat k) (s - (2 * 2 ^ Z.of_nat k - 1)) ltac:(lia)) as (n & Hn & Hsz & He & _).
    exists (n + 2 ^ Z.of_nat k). split; [lia|]. rewrite (tree_size_top k), Z.add_simpl_r by lia. split; [lia|].
    destruct (Z.leb_spec (2 ^ Z.of_nat k) (n + 2 ^ Z.of_nat k)) as [_|]; [|lia]. rewrite He. split; [done|]. right. right. lia.
  - destruct (IH start s Hs) as (n & Hn & Hsz & He & Hp). exists n. split; [lia|]. split; [done|].
    destruct (Z.leb_spec (2 ^ Z.of_nat k) n) as [|_]; [lia|]. split; [done|]. destruct Hp as [|[->|]]; [by left| |auto].
    left. cbn in Hlt. lia.
Qed.

(** ** The iterator *)

(** The position with the leaves from [start] on, below a tree of height [k]. *)
Definition candidate (k : nat) (start : Z) : option Position :=
  match k with O => None | S k => Some (pos_at k (start / 2 ^ Z.of_nat k)) end.

Lemma fits_start k q : 0 <= q -> 2 ^ Z.of_nat k * q + 2 ^ Z.of_nat k <= 2 ^ 62 -> fits k q.
Proof. intros Hq Hb. apply fits_leaves; lia. Qed.
Lemma left_child_candidate k q : fits k q -> left_child (pos_at k q) = candidate k (2 ^ Z.of_nat k * q).
Proof.
  intros Hf. destruct k as [|k]; [done|]. rewrite left_child_at by done. cbn [candidate]. pose proof (pow2_pos k).
  rewrite pow2_S. replace (2 * 2 ^ Z.of_nat k * q) with (2 * q * 2 ^ Z.of_nat k) by lia. by rewrite Z.div_mul by lia.
Qed.
(** The next candidate, in or out of the range. *)
Lemma candidate_next k start : aligned (S k) start -> start + 2 ^ Z.of_nat (S k) <= 2 ^ 62 ->
  let p := pos_at k (start / 2 ^ Z.of_nat k) in
  index p = tree_size start + 2 * 2 ^ Z.of_nat k - 2 /\ left_child p = candidate k start /\
  left_child (sibling p) = candidate k (start + 2 ^ Z.of_nat k).
Proof.
  intros Ha Hb p. destruct (aligned_S _ _ Ha) as (_ & _ & q & Hq & Hd & Hs). rewrite pow2_S in Hb. pose proof (pow2_pos k).
  subst p. rewrite Hd. assert (fits k (2 * q)) as Hf by (apply fits_start; lia). assert (fits k (2 * q + 1)) as Hf' by (apply fits_start; lia).
  split; [cbn [pos_at index]; rewrite node_index_from, <-Hs by lia; done|].
  split; [by rewrite left_child_candidate, <-Hs|]. rewrite sibling_at, other_double by (rewrite ?other_double; done).
  rewrite left_child_candidate by done. f_equal. lia.
Qed.
Lemma peaks_from size k start f f' : 1 <= size < 2 ^ 64 -> aligned k start -> start + 2 ^ Z.of_nat k <= 2 ^ 62 ->
  (k <= f)%nat -> (k <= f')%nat -> (k <= 64)%nat ->
  peak_candidate f size (candidate k start) ≫= peaks_loop f' size = Ok (at_ <$> trees_within k start (size - tree_size start)).
Proof.
  intros Hsz. revert start f f'. induction k as [|k IH]; intros start f f' Ha Hb Hf Hf' Hk.
  { destruct f, f'; done. }
  destruct (candidate_next k start Ha Hb) as (Hi & Hl & Hr). destruct (aligned_S _ _ Ha) as (Ha1 & Ha2 & q & Hq & Hd & Hs).
  rewrite pow2_S in Hb. pose proof (pow2_pos k). destruct f as [|f]; [lia|]. destruct f' as [|f']; [lia|].
  cbn [candidate trees_within]. cbn [peak_candidate]. rewrite Hi. unfold Usize.sub. rewrite usize_small by lia.
  destruct (Z.ltb_spec (size - 1) (tree_size start + 2 * 2 ^ Z.of_nat k - 2)) as [Hout|Hin].
  - destruct (Z.leb_spec (2 * 2 ^ Z.of_nat k - 1) (size - tree_size start)) as [|_]; [lia|].
    rewrite Hl. apply IH; [done|lia..].
  - destruct (Z.leb_spec (2 * 2 ^ Z.of_nat k - 1) (size - tree_size start)) as [_|]; [|lia].
    cbn [mbind outcome_bind peaks_loop]. rewrite Hr.
    specialize (IH (start + 2 ^ Z.of_nat k) 64%nat f' Ha2 ltac:(lia) ltac:(lia) ltac:(lia) ltac:(lia)).
    replace (size - tree_size start - (2 * 2 ^ Z.of_nat k - 1)) with (size - tree_size (start + 2 ^ Z.of_nat k)).
    2:{ subst start. replace (2 ^ Z.of_nat k * (2 * q) + 2 ^ Z.of_nat k) with (2 ^ Z.of_nat k * (2 * q + 1)) by lia.
        unfold tree_size. rewrite !count_ones_shift, count_ones_double, count_ones_succ_double by lia. lia. }
    destruct (peak_candidate 64 size (candidate k (start + 2 ^ Z.of_nat k))) as [next|e|]; [|done..].
    cbn [mbind outcome_bind] in IH |- *. by rewrite IH.
Qed.

(** The bound for the first peak. *)
Lemma peak_bound_at size (m fuel : nat) : 1 <= size <= 2 ^ 63 - 1 -> (m <= 62)%nat -> 2 ^ Z.of_nat m - 1 <= size ->
  (63 <= m + fuel)%nat ->
  exists m' : nat, (1 <= m' <= 62)%nat /\ 2 ^ Z.of_nat m' - 1 <= size /\ (size < 2 * 2 ^ Z.of_nat m' - 1 \/ m' = 62%nat) /\
    peak_bound fuel size (2 ^ Z.of_nat m) = Ok (2 * 2 ^ Z.of_nat m').
Proof.
  intros Hsz Hm Hle Hfuel. remember (62 - m)%nat as d eqn:Ed. revert m fuel Hm Hle Hfuel Ed.
  induction d as [|d IH]; intros m fuel Hm Hle Hfuel Ed; destruct fuel as [|fuel]; try lia; pose proof (pow2_pos m);
    assert (2 ^ Z.of_nat m <= 2 ^ 62) by (apply Z.pow_le_mono_r; lia);
    cbn [peak_bound]; unfold Usize.sub; rewrite usize_small by lia;
    (destruct (Z.leb_spec (2 ^ Z.of_nat m - 1) size) as [_|]; [|lia]); unfold checked_mul, max_value;
    (destruct (Z.leb_spec (2 ^ Z.of_nat m * 2) (2 ^ 64 - 1)) as [_|]; [|lia]).
  - assert (m = 62%nat) as -> by lia. exists 62%nat. change (2 ^ Z.of_nat 62 * 2) with (2 ^ 63). change (2 * 2 ^ Z.of_nat 62) with (2 ^ 63).
    split; [lia|]. split; [done|]. split; [by right|]. destruct fuel as [|fuel]; cbn [peak_bound]; unfold Usize.sub; rewrite usize_small by lia;
      destruct (Z.leb_spec (2 ^ 63 - 1) size); done.
  - rewrite (Z.mul_comm _ 2), <-pow2_S. destruct (decide (2 ^ Z.of_nat (S m) - 1 <= size)) as [Hle'|Hgt].
    { apply IH; lia. }
    exists m. rewrite pow2_S in *. assert ((1 <= m)%nat). { destruct m; [cbn in *; lia|lia]. }
    split; [lia|]. split; [done|]. split; [left; lia|].
    destruct fuel as [|fuel]; cbn [peak_bound]; unfold Usize.sub; rewrite usize_small by lia;
      (destruct (Z.leb_spec (2 * 2 ^ Z.of_nat m - 1) size); [lia|done]).
Qed.
Lemma trees_within_skip k (m : nat) start s : (m <= k)%nat -> s < 2 * 2 ^ Z.of_nat m - 1 -> trees_within k start s = trees_within m start s.
Proof.
  intros Hmk Hs. induction k as [|k IH]; [by replace m with 0%nat by lia|].
  destruct (decide (m = S k)) as [->|Hne]; [done|]. cbn [trees_within].
  assert (2 ^ Z.of_nat m <= 2 ^ Z.of_nat k) by (apply Z.pow_le_mono_r; lia).
  destruct (Z.leb_spec (2 * 2 ^ Z.of_nat k - 1) s) as [|_]; [lia|]. apply IH. lia.
Qed.
Lemma peaks_within size : 0 <= size <= 2 ^ 63 - 1 -> peaks size = Ok (at_ <$> trees_within max_height 0 size).
Proof.
  intros Hsz. unfold peaks, first_peak. destruct (Z.eqb_spec size 0) as [->|Hne].
  { by rewrite max_height_62. }
  destruct (peak_bound_at size 0 64) as (m & Hm & Hle & Hup & Hb); [lia..|cbn; lia|lia|].
  change (2 ^ Z.of_nat 0) with 1 in Hb. rewrite Hb. cbn [mbind outcome_bind]. destruct m as [|m]; [lia|].
  pose proof (pow2_pos (S m)). assert (2 ^ Z.of_nat (S m) <= 2 ^ 62) by (apply Z.pow_le_mono_r; lia).
  rewrite (Z.mul_comm 2), Z.shiftr_div_pow2, Z.pow_1_r, Z.div_mul by lia.
  assert (2 <= 2 ^ Z.of_nat (S m)) by (rewrite pow2_S; pose proof (pow2_pos m); lia).
  unfold Usize.sub. rewrite (usize_small (2 ^ Z.of_nat (S m) - 1)) by lia. rewrite count_ones_all, !usize_small by lia.
  assert (mk_pos (2 ^ Z.of_nat (S m) - 1 - 1) (Z.of_nat (S m) - 1) false = pos_at m 0) as ->.
  { unfold pos_at, node_index. rewrite pow2_S. cbn [count_ones Z.odd]. f_equal; lia. }
  assert (trees_within max_height 0 size = trees_within (S m) 0 size) as ->.
  { destruct Hup as [Hup|Hm62]; [apply trees_within_skip; [rewrite max_height_62; lia|done]|]. by rewrite Hm62, max_height_62. }
  pose proof (peaks_from size (S m) 0 64 64 ltac:(lia) (aligned_0 _) ltac:(lia) ltac:(lia) ltac:(lia) ltac:(lia)) as Hp.
  change (tree_size 0) with 0 in Hp. rewrite Z.sub_0_r in Hp. rewrite <-Hp. cbn [candidate peak_candidate]. rewrite Z.div_0_l by lia.
  cbn [pos_at index]. unfold Usize.sub. rewrite usize_small by lia.
  destruct (Z.ltb_spec (size - 1) (node_index m 0)) as [Hc|_]; [|done].
  unfold node_index in Hc. rewrite pow2_S in Hle. cbn [count_ones] in Hc. lia.
Qed.
(** The peaks of a range, and of any size that a proof may claim. *)
Lemma peaks_tree n : 0 <= n < 2 ^ 62 -> peaks (tree_size n) = Ok (at_ <$> trees_of n).
Proof.
  intros Hn. rewrite peaks_within; [by rewrite trees_of_eq, trees_within_tree by (by rewrite pow_max_height)|].
  pose proof (tree_size_nonneg n). unfold tree_size in *. pose proof (count_ones_nonneg n). lia.
Qed.
Lemma peaks_claimed size : 0 < size <= 2 ^ 63 - 1 ->
  exists n, 0 < n < 2 ^ 62 /\ tree_size n <= size /\ peaks size = Ok (at_ <$> trees_of n).
Proof.
  intros Hsz. destruct (trees_within_leaves max_height 0 size) as (n & Hn & Hs & He & Hp); [lia|].
  exists n. rewrite trees_of_eq, peaks_within, He by lia.
  split; [|done]. split; [destruct Hp as [|[|]]; [lia|pose proof max_height_62; congruence|done]|rewrite pow_max_height in Hn; apply Hn].
Qed.

(** ** The trees in order *)

Lemma fmap_rev {A B} (f : A -> B) l : f <$> rev l = rev (f <$> l).
Proof. induction l as [|a l IH]; [done|]. cbn [rev fmap list_fmap]. by rewrite fmap_app, IH. Qed.

Fixpoint leaves_of (l : list (nat * Z)) : Z :=
  match l with [] => 0 | (h, _) :: l => 2 ^ Z.of_nat h + leaves_of l end.
Lemma leaves_of_nonneg l : 0 <= leaves_of l.
Proof. induction l as [|[h j] l IH]; cbn [leaves_of]; [done|]. pose proof (pow2_pos h). lia. Qed.
Lemma leaves_of_app l l' : leaves_of (l ++ l') = leaves_of l + leaves_of l'.
Proof. induction l as [|[h j] l IH]; cbn [app leaves_of]; lia. Qed.
Lemma leaves_of_trees k start n : 0 <= n < 2 ^ Z.of_nat k -> leaves_of (trees k start n) = n.
Proof.
  revert start n. induction k as [|k IH]; intros start n Hn; [cbn in *; lia|]. rewrite pow2_S in Hn. cbn [trees].
  destruct (Z.leb_spec (2 ^ Z.of_nat k) n); [|apply IH; lia]. cbn [leaves_of]. rewrite IH; lia.
Qed.
Lemma trees_length k start n : (length (trees k start n) <= k)%nat.
Proof.
  revert start n. induction k as [|k IH]; intros start n; [done|]. cbn [trees]. destruct (_ <=? n); cbn [length];
    [specialize (IH (start + 2 ^ Z.of_nat k) (n - 2 ^ Z.of_nat k))|specialize (IH start n)]; lia.
Qed.
Lemma trees_zero k start : trees k start 0 = [].
Proof. revert start. induction k as [|k IH]; intros start; [done|]. cbn [trees]. pose proof (pow2_pos k). destruct (Z.leb_spec (2 ^ Z.of_nat k) 0); [lia|apply IH]. Qed.
(** What is known about one of the trees: it has the leaves after those of the trees
    before it, and the trees after it are lower. *)
Lemma trees_split k start n l1 h j l2 : aligned k start -> 0 <= n < 2 ^ Z.of_nat k -> trees k start n = l1 ++ (h, j) :: l2 ->
  (h < k)%nat /\ start + leaves_of l1 = 2 ^ Z.of_nat h * j /\ 0 <= j /\ Z.odd j = false /\
  l2 = trees h (2 ^ Z.of_nat h * (j + 1)) (n - leaves_of l1 - 2 ^ Z.of_nat h) /\ 0 <= n - leaves_of l1 - 2 ^ Z.of_nat h < 2 ^ Z.of_nat h.
Proof.
  revert start n l1. induction k as [|k IH]; intros start n l1 Ha Hn He; [by destruct l1|].
  destruct (aligned_S _ _ Ha) as (Ha1 & Ha2 & q & Hq & Hd & Hs). rewrite pow2_S in Hn. cbn [trees] in He.
  destruct (Z.leb_spec (2 ^ Z.of_nat k) n) as [Hle|Hlt].
  - destruct l1 as [|t l1]; cbn [app] in He.
    + injection He as <- <- <-. rewrite Hd. cbn [leaves_of]. split; [lia|]. split; [lia|]. split; [lia|].
      split; [apply odd_double|]. split; [|lia]. f_equal; lia.
    + injection He as <- He. destruct (IH (start + 2 ^ Z.of_nat k) (n - 2 ^ Z.of_nat k) l1 Ha2 ltac:(lia) He) as (H1 & H2 & H3 & H4 & H5 & H6).
      cbn [leaves_of]. split; [lia|]. split; [lia|]. split; [done|]. split; [done|].
      split; [rewrite H5; f_equal; lia|lia].
  - destruct (IH start n l1 Ha1 ltac:(lia) He) as (H1 & H2 & H3 & H4 & H5 & H6). split; [lia|done].
Qed.

Section TreesOf.
Variable n : Z.
Hypothesis Hn : 0 <= n < 2 ^ 62.

Lemma all_leaves : leaves_of (trees_of n) = n.
Proof. rewrite trees_of_eq. apply leaves_of_trees. by rewrite pow_max_height. Qed.
(** A tree of the range, with the leaves before it. *)
Lemma tree_at l1 h j l2 : trees_of n = l1 ++ (h, j) :: l2 ->
  leaves_of l1 = 2 ^ Z.of_nat h * j /\ 0 <= j /\ Z.odd j = false /\ 2 ^ Z.of_nat h * (j + 1) <= n /\
  l2 = trees h (2 ^ Z.of_nat h * (j + 1)) (n - 2 ^ Z.of_nat h * (j + 1)) /\ n - 2 ^ Z.of_nat h * (j + 1) < 2 ^ Z.of_nat h /\ fits h j.
Proof.
  intros He. rewrite trees_of_eq in He. pose proof Hn as Hm. rewrite <-pow_max_height in Hm.
  destruct (trees_split max_height 0 n l1 h j l2 (aligned_0 _) Hm He) as (H1 & H2 & H3 & H4 & H5 & H6).
  rewrite Z.add_0_l in H2. replace (n - leaves_of l1 - 2 ^ Z.of_nat h) with (n - 2 ^ Z.of_nat h * (j + 1)) in * by lia.
  split; [done|]. split; [done|]. split; [done|]. split; [lia|]. split; [done|]. split; [lia|]. apply fits_leaves; lia.
Qed.
Lemma rev_peaks_from l1 h j l2 fuel : trees_of n = l1 ++ (h, j) :: l2 -> (length l1 <= fuel)%nat ->
  rev_peaks_loop fuel (pos_at h j) = Ok (at_ <$> rev (l1 ++ [(h, j)])).
Proof.
  revert h j l2 fuel. induction l1 as [|[h' j'] l1 IH] using rev_ind; intros h j l2 fuel He Hf;
    destruct (tree_at _ _ _ _ He) as (Hl & Hj & Ho & Hle & _ & _ & Hfit); pose proof (fits_bound h j Hfit) as (Hi & Hp & Hh & Hb).
  all: destruct fuel as [|fuel]; cbn [rev_peaks_loop pos_at index height]; rewrite sibling_offset by done; usize.
  1,2: assert (j = 0) as -> by (pose proof (pow2_pos h); cbn in Hl; nia); rewrite node_index_from by lia;
    rewrite Z.mul_0_r; change (tree_size 0) with 0; (destruct (Z.eqb_spec (0 + 2 * 2 ^ Z.of_nat h - 2 + 1) (2 * 2 ^ Z.of_nat h - 1)); [done|lia]).
  { rewrite length_app in Hf. cbn in Hf. lia. }
  rewrite <-app_assoc in He. destruct (tree_at _ _ _ _ He) as (Hl' & Hj' & Ho' & Hle' & _ & _ & Hfit').
  rewrite leaves_of_app, Hl' in Hl. cbn [leaves_of] in Hl. pose proof (pow2_pos h').
  assert (node_index h j = node_index h' j' + (2 * 2 ^ Z.of_nat h - 1)) as Hidx.
  { rewrite (node_index_from h j) by done. replace (2 ^ Z.of_nat h * j) with (2 ^ Z.of_nat h' * (j' + 1)) by lia.
    rewrite <-node_index_leaf, <-node_index_next by done. lia. }
  pose proof (node_index_nonneg h' j' Hj'). destruct (Z.eqb_spec (node_index h j + 1) (2 * 2 ^ Z.of_nat h - 1)) as [|_]; [lia|].
  rewrite Hidx, Z.add_simpl_r, usize_small by lia. rewrite index_to_height_node by (by apply fits_in_range). cbn [mbind outcome_bind].
  pose proof (IH h' j' _ fuel He ltac:(rewrite length_app in Hf; cbn in Hf; lia)) as Hrec.
  unfold pos_at at 1 in Hrec. rewrite Ho' in Hrec. rewrite Hrec. cbn [mbind outcome_bind]. unfold mret, outcome_ret.
  by rewrite (rev_app_distr _ [(h, j)]).
Qed.
Lemma rev_peaks_tree : rev_peaks (tree_size n) = Ok (at_ <$> rev (trees_of n)).
Proof.
  unfold rev_peaks. destruct (Z.eqb_spec (tree_size n) 0) as [Hz|Hz].
  { apply tree_size_zero in Hz as ->; [by rewrite trees_of_eq, trees_zero|lia]. }
  destruct (decide (trees_of n = [])) as [He|He].
  { pose proof all_leaves as Hs. rewrite He in Hs. cbn in Hs. subst n. done. }
  destruct (exists_last He) as (l & [h j] & Hl). destruct (tree_at _ _ _ _ Hl) as (Hb & Hj & Ho & Hle & Hnil & Hlt & Hfit).
  pose proof all_leaves as Hs. rewrite Hl, leaves_of_app, Hb in Hs. cbn [leaves_of] in Hs.
  assert (tree_size n - 1 = node_index h j) as ->.
  { replace n with (2 ^ Z.of_nat h * (j + 1)) by lia. rewrite <-node_index_leaf, <-node_index_next by done. lia. }
  rewrite index_to_height_node by (by apply fits_in_range). cbn [mbind outcome_bind]. rewrite Hl, <-(rev_peaks_from l h j [] 64 Hl).
  - unfold pos_at. by rewrite Ho.
  - pose proof (trees_length max_height 0 n) as Hlen. rewrite <-trees_of_eq in Hlen. rewrite Hl, length_app in Hlen. rewrite max_height_62 in Hlen. cbn in Hlen. lia.
Qed.
End TreesOf.
