(* ===== verification/MmrSpec.v ===== *)
(** * What a Merkle mountain range computes

    Stores as lists, the hash of a list of items that the range is to have, and that
    appending, cutting and the root refine it: whatever items were appended and cut,
    the root is the hash of the list that is left. *)

From S2P Require Import Prelude Mmr MmrPosition MmrPeaks.

(** ** Stores *)

(** A store holds a list of hashes. *)
Class StoreLaws (H St : Type) `{Store H St} := {
  elems : St -> list H;
  append_elems s es : elems (st_append s es) = elems s ++ es;
  remove_elems s n : Z.of_nat (length (elems s)) < 2 ^ 64 -> 0 <= n <= Z.of_nat (length (elems s)) ->
    elems (st_remove_back s n) = take (Z.to_nat (Z.of_nat (length (elems s)) - n)) (elems s);
  get_elems s pos : 0 <= pos -> st_get s pos = elems s !! Z.to_nat pos;
  len_elems s : st_len s = Z.of_nat (length (elems s));
}.
#[global] Program Instance MemoryStore_laws H : StoreLaws H (MemoryStore H) := { elems := inner }.
Next Obligation. done. Qed.
Next Obligation.
  intros H s n Hl Hn. cbn [inner st_remove_back MemoryStore_store]. unfold Usize.sub. by rewrite usize_small by lia.
Qed.
Next Obligation. done. Qed.
Next Obligation. done. Qed.

Section Transaction.
Context {H St : Type} `{StoreLaws H St}.

(** What a transaction that has only appended shows. *)
Definition tx_elems (tx : MemoryTransaction H St) : list H := elems (tx_store tx) ++ tx_data tx.
Definition appending (tx : MemoryTransaction H St) : Prop := tx_pos tx = Z.of_nat (length (elems (tx_store tx))).
Lemma tx_get tx pos : appending tx -> 0 <= pos -> st_get tx pos = tx_elems tx !! Z.to_nat pos.
Proof.
  intros Ha Hp. cbn [st_get MemoryTransaction_store]. unfold tx_elems. rewrite Ha. destruct (Z.ltb_spec pos (Z.of_nat (length (elems (tx_store tx))))) as [Hl|Hl].
  - rewrite get_elems, lookup_app_l by lia. done.
  - rewrite lookup_app_r by lia. f_equal. lia.
Qed.
Lemma tx_push_elems tx e : appending tx -> appending (st_push tx e) /\ tx_elems (st_push tx e) = tx_elems tx ++ [e].
Proof. intros Ha. split; [done|]. unfold tx_elems. cbn [st_push MemoryTransaction_store tx_store tx_data]. by rewrite app_assoc. Qed.
Lemma tx_new_elems s : appending (tx_new s) /\ tx_elems (tx_new s) = elems s.
Proof. split; [apply len_elems|]. unfold tx_elems. cbn [tx_new tx_store tx_data]. by rewrite app_nil_r. Qed.
Lemma commit_elems tx : appending tx -> elems (commit tx) = tx_elems tx.
Proof.
  intros Ha. unfold commit. rewrite len_elems, Ha, Z.ltb_irrefl. apply append_elems.
Qed.
End Transaction.

(** ** Hashes of lists of items *)

Section Reference.
Context {H T : Type} `{Merge H} `{Hash H T}.

(** The hash of a perfect tree over the first [2 ^ h] items, and of trees of falling
    heights bagged from the right. *)
Fixpoint perfect (h : nat) (xs : list T) : H :=
  match h with
  | O => match xs with x :: _ => hash x 1 | [] => empty 0 end
  | S h' => merge (perfect h' xs) (perfect h' (drop (2 ^ h') xs)) (2 ^ Z.of_nat h)
  end.
Fixpoint bagged (k : nat) (xs : list T) : H :=
  match k with
  | O => empty 0
  | S k =>
      if (2 ^ k =? length xs)%nat then perfect k xs
      else if (2 ^ k <? length xs)%nat
      then merge (perfect k xs) (bagged k (drop (2 ^ k) xs)) (Z.of_nat (length xs))
      else bagged k xs
  end.
Definition reference_root (xs : list T) : H := match xs with [] => empty 0 | _ => bagged max_height xs end.

(** The hashes of the nodes of a range. *)
Definition leaf_hash (xs : list T) (i : Z) : H :=
  match xs !! Z.to_nat i with Some x => hash x 1 | None => empty 0 end.
Fixpoint node_hash (f : Z -> H) (h : nat) (j : Z) : H :=
  match h with
  | O => f j
  | S h' => merge (node_hash f h' (2 * j)) (node_hash f h' (2 * j + 1)) (2 ^ Z.of_nat h)
  end.
Lemma node_hash_ext f g h j : (forall i, 2 ^ Z.of_nat h * j <= i < 2 ^ Z.of_nat h * (j + 1) -> f i = g i) -> node_hash f h j = node_hash g h j.
Proof.
  revert j. induction h as [|h IH]; intros j Hfg; cbn [node_hash]; [apply Hfg; cbn; lia|].
  rewrite pow2_S in Hfg. pose proof (pow2_pos h). rewrite (IH (2 * j)), (IH (2 * j + 1)); [done|intros i Hi; apply Hfg; nia..].
Qed.
Lemma pow2_nat (k : nat) : Z.of_nat (2 ^ k) = 2 ^ Z.of_nat k.
Proof. by rewrite Nat2Z.inj_pow. Qed.
Lemma perfect_node xs h j : 0 <= j -> perfect h (drop (Z.to_nat (2 ^ Z.of_nat h * j)) xs) = node_hash (leaf_hash xs) h j.
Proof.
  revert j. induction h as [|h IH]; intros j Hj; cbn [perfect node_hash].
  - change (2 ^ Z.of_nat 0) with 1. rewrite Z.mul_1_l. unfold leaf_hash. rewrite <-(Nat.add_0_r (Z.to_nat j)), <-lookup_drop, Nat.add_0_r.
    by destruct (drop (Z.to_nat j) xs).
  - rewrite <-(IH (2 * j)), <-(IH (2 * j + 1)) by lia. rewrite drop_drop, pow2_S. pose proof (pow2_pos h).
    do 2 f_equal; [f_equal; lia|]. f_equal. rewrite <-pow2_nat in *. lia.
Qed.

(** Bagging the trees of a range. *)
Definition tree_items (f : Z -> H) (l : list (nat * Z)) : list (H * Z) :=
  (fun t => (node_hash f t.1 t.2, 2 ^ Z.of_nat t.1)) <$> l.
Lemma bagging_loop_app (l l' : list (H * Z)) o : bagging_loop (l ++ l') o = bagging_loop l' (bagging_loop l o).
Proof. revert o. induction l as [|[h n] l IH]; intros o; [done|]. cbn [app bagging_loop]. by rewrite IH. Qed.
Lemma bagging_trees xs k q : let start := 2 ^ Z.of_nat k * q in let n := Z.of_nat (length xs) - start in
  0 <= q -> 0 < n < 2 ^ Z.of_nat k -> n < 2 ^ 62 ->
  bagging_loop (rev (tree_items (leaf_hash xs) (trees k start n))) None = Some (bagged k (drop (Z.to_nat start) xs), n).
Proof.
  cbv zeta. revert q. induction k as [|k IH]; intros q Hq Hn Hs; [cbn in Hn; lia|]. cbn [trees bagged]. rewrite length_drop.
  pose proof (pow2_pos k). pose proof (pow2_nat k). rewrite pow2_S in *. set (start := 2 * 2 ^ Z.of_nat k * q) in *.
  assert (start / 2 ^ Z.of_nat k = 2 * q) as Hd.
  { subst start. replace (2 * 2 ^ Z.of_nat k * q) with (2 * q * 2 ^ Z.of_nat k) by lia. apply Z.div_mul. lia. }
  assert (2 ^ Z.of_nat k * (2 * q) = start /\ 2 ^ Z.of_nat k * (2 * q + 1) = start + 2 ^ Z.of_nat k /\ 0 <= start) as (Hs0 & Hs1 & Hs2) by (subst start; lia).
  destruct (Z.leb_spec (2 ^ Z.of_nat k) (Z.of_nat (length xs) - start)) as [Hle|Hlt].
  2:{ destruct (Nat.eqb_spec (2 ^ k) (length xs - Z.to_nat start)); [lia|]. destruct (Nat.ltb_spec (2 ^ k) (length xs - Z.to_nat start)); [lia|].
      specialize (IH (2 * q)). rewrite Hs0 in IH. apply IH; lia. }
  rewrite Hd. unfold tree_items. cbn [fmap list_fmap rev]. rewrite bagging_loop_app. cbn [fst snd].
  fold (tree_items (leaf_hash xs) (trees k (start + 2 ^ Z.of_nat k) (Z.of_nat (length xs) - start - 2 ^ Z.of_nat k))).
  assert (perfect k (drop (Z.to_nat start) xs) = node_hash (leaf_hash xs) k (2 * q)) as Hp by (rewrite <-perfect_node, Hs0 by lia; done).
  destruct (Nat.eqb_spec (2 ^ k) (length xs - Z.to_nat start)) as [He|Hne].
  - replace (Z.of_nat (length xs) - start - 2 ^ Z.of_nat k) with 0 by lia.
    assert (trees k (start + 2 ^ Z.of_nat k) 0 = []) as ->; [apply trees_zero|]. cbn [tree_items fmap list_fmap rev bagging_loop].
    rewrite Hp. do 2 f_equal. lia.
  - destruct (Nat.ltb_spec (2 ^ k) (length xs - Z.to_nat start)) as [_|]; [|lia]. specialize (IH (2 * q + 1)). rewrite Hs1 in IH.
    replace (Z.of_nat (length xs) - start - 2 ^ Z.of_nat k) with (Z.of_nat (length xs) - (start + 2 ^ Z.of_nat k)) by lia.
    rewrite IH by lia. cbn [bagging_loop]. unfold Usize.add. rewrite usize_small by lia. rewrite Hp, drop_drop.
    replace (Z.of_nat (length xs) - (start + 2 ^ Z.of_nat k) + 2 ^ Z.of_nat k) with (Z.of_nat (length xs - Z.to_nat start)) by lia.
    do 2 f_equal; [|lia]. f_equal. f_equal. f_equal. lia.
Qed.
Lemma bagging_root xs : 0 < Z.of_nat (length xs) < 2 ^ 62 ->
  bagging (rev (tree_items (leaf_hash xs) (trees_of (Z.of_nat (length xs))))) = Ok (reference_root xs).
Proof.
  intros Hn. unfold bagging. rewrite trees_of_eq. pose proof (bagging_trees xs max_height 0) as Hb. cbv zeta in Hb.
  rewrite Z.mul_0_r, Z.sub_0_r, pow_max_height in Hb. rewrite Hb by lia. destruct xs; [cbn in Hn; lia|done].
Qed.
End Reference.

(** ** The range *)

Section Refinement.
Context {H T St : Type} `{Merge H} `{Hash H T} `{StoreLaws H St}.
Implicit Types (xs : list T) (m : MerkleMountainRange St) (es : list H).

(** The nodes that are complete with [n] leaves, where those that end with the last
    leaf are there up to height [up]. *)
Definition nodes_upto (f : Z -> H) (es : list H) (n : Z) (up : nat) : Prop :=
  forall h j, 0 <= j -> 2 ^ Z.of_nat h * (j + 1) < n \/ 2 ^ Z.of_nat h * (j + 1) = n /\ (h <= up)%nat ->
    es !! Z.to_nat (node_index h j) = Some (node_hash f h j).
Definition all_nodes (f : Z -> H) (es : list H) (n : Z) : Prop :=
  Z.of_nat (length es) = tree_size n /\
  forall h j, 0 <= j -> 2 ^ Z.of_nat h * (j + 1) <= n -> es !! Z.to_nat (node_index h j) = Some (node_hash f h j).

Lemma last_is_complete f es h j : let n := 2 ^ Z.of_nat h * (j + 1) in
  0 <= j -> Z.odd j = false -> Z.of_nat (length es) = node_index h j + 1 -> nodes_upto f es n h -> all_nodes f es n.
Proof.
  cbv zeta. intros Hj Ho Hlen Hup. split; [by rewrite Hlen, node_index_next, node_index_leaf by done|].
  intros h' j' Hj' Hle. apply Hup; [done|]. destruct (decide (2 ^ Z.of_nat h' * (j' + 1) = 2 ^ Z.of_nat h * (j + 1))) as [He|]; [|left; lia].
  right. split; [done|]. destruct (decide (h' <= h)%nat) as [|Hgt]; [done|]. exfalso.
  replace (Z.of_nat h') with (Z.of_nat h + Z.of_nat (S (h' - h - 1))) in He by lia. rewrite Z.pow_add_r, pow2_S, <-Z.mul_assoc in He by lia.
  apply Z.mul_cancel_l in He; [|pose proof (pow2_pos h); lia]. rewrite <-Z.mul_assoc in He.
  assert (Z.odd (j + 1) = true) as Hodd by (rewrite Z.add_1_r, Z.odd_succ, <-Z.negb_odd, Ho; done).
  rewrite <-He, odd_double in Hodd. done.
Qed.
(** The hashes on the way up. *)
Lemma push_loop_ok f fuel h j (tx : MemoryTransaction H St) : let n := 2 ^ Z.of_nat h * (j + 1) in
  0 <= j -> n < 2 ^ 62 -> (64 <= fuel + h)%nat -> appending tx -> Z.of_nat (length (tx_elems tx)) = node_index h j + 1 ->
  nodes_upto f (tx_elems tx) n h ->
  exists tx' es, push_loop fuel (pos_at h j) tx = Ok tx' /\ appending tx' /\ tx_elems tx' = tx_elems tx ++ es /\ tx_store tx' = tx_store tx /\
    all_nodes f (tx_elems tx') n.
Proof.
  cbv zeta. revert h j tx. induction fuel as [|fuel IH]; intros h j tx Hj Hn Hf Ha Hlen Hup.
  all: assert (fits h j) as Hfit by (apply fits_leaves; lia); pose proof (fits_bound _ _ Hfit) as (Hi & _ & Hh & _).
  { lia. }
  cbn [push_loop]. cbn [right_node pos_at]. destruct (Z.odd j) eqn:Ho.
  2:{ exists tx, []. rewrite app_nil_r. split_and!; [done..|]. by apply last_is_complete. }
  destruct (odd_cases j) as [[_ Hd]|[? _]]; [|congruence]. remember (j / 2) as k eqn:Ek. subst j. pose proof (pow2_pos h).
  rewrite sibling_at, other_succ_double by (rewrite ?other_succ_double; (done || (apply (fits_below _ _ _ Hfit); lia))).
  cbn [index pos_at]. rewrite !tx_get by first [done|apply node_index_nonneg; lia].
  rewrite (Hup h (2 * k)) by first [lia|left; nia]. cbn [or_err mbind outcome_bind]. rewrite (Hup h (2 * k + 1)) by first [lia|right; split; [done|lia]].
  cbn [or_err mbind outcome_bind]. assert (fits (S h) k) as Hfit' by (apply fits_leaves; [lia|rewrite pow2_S; nia]).
  rewrite parent_at, half_succ_double by (rewrite ?half_succ_double; done). cbn [mbind outcome_bind]. rewrite leaves_below_at by lia.
  destruct (tx_push_elems tx (merge (node_hash f h (2 * k)) (node_hash f h (2 * k + 1)) (2 ^ Z.of_nat (S h))) Ha) as [Ha' He'].
  replace (2 ^ Z.of_nat h * (2 * k + 1 + 1)) with (2 ^ Z.of_nat (S h) * (k + 1)) in * by (rewrite pow2_S; lia).
  destruct (IH (S h) k (st_push tx (merge (node_hash f h (2 * k)) (node_hash f h (2 * k + 1)) (2 ^ Z.of_nat (S h)))))
    as (tx' & es & E & Ha2 & He2 & Hs2 & Hall); [lia|lia|lia|done| | |].
  - rewrite He', length_app, node_index_right by lia. cbn [length]. lia.
  - intros h' j' Hj' Hc. rewrite He'. destruct Hc as [Hlt|[Heq Hle]].
    { apply lookup_app_l_Some, Hup; [done|by left]. }
    destruct (decide (h' = S h)) as [->|Hne]; [|apply lookup_app_l_Some, Hup; [done|right; split; [done|lia]]].
    assert (j' = k) as -> by (pose proof (pow2_pos (S h)); nia). rewrite lookup_app_r by (rewrite node_index_right by lia; lia).
    rewrite node_index_right by lia. by replace (Z.to_nat (node_index h (2 * k + 1) + 1) - length (tx_elems tx))%nat with 0%nat by lia.
  - exists tx', ([merge (node_hash f h (2 * k)) (node_hash f h (2 * k + 1)) (2 ^ Z.of_nat (S h))] ++ es).
    split_and!; [done|done| |done|done]. by rewrite He2, He', <-app_assoc.
Qed.

(** The range holds the nodes for [xs]. *)
Definition holds (m : MerkleMountainRange St) (xs : list T) : Prop :=
  all_nodes (leaf_hash xs) (elems (store m)) (Z.of_nat (length xs)).
Lemma holds_len m xs : holds m xs -> len m = tree_size (Z.of_nat (length xs)).
Proof. intros [Hl _]. unfold len. by rewrite len_elems. Qed.
Lemma leaf_hash_app xs x i : 0 <= i < Z.of_nat (length xs) -> leaf_hash (xs ++ [x]) i = leaf_hash xs i.
Proof. intros Hi. unfold leaf_hash. by rewrite lookup_app_l by lia. Qed.
Lemma node_hash_app xs x h j : 0 <= j -> 2 ^ Z.of_nat h * (j + 1) <= Z.of_nat (length xs) ->
  node_hash (leaf_hash (xs ++ [x])) h j = node_hash (leaf_hash xs) h j.
Proof. intros Hj Hl. apply node_hash_ext. intros i Hi. apply leaf_hash_app. pose proof (pow2_pos h). nia. Qed.

Lemma push_ok m xs x : holds m xs -> Z.of_nat (length xs) + 1 < 2 ^ 62 ->
  exists m' es, push x m = (Ok (num_leaves m), m') /\ holds m' (xs ++ [x]) /\ elems (store m') = elems (store m) ++ es /\
    num_leaves m' = Usize.add (num_leaves m) 1.
Proof.
  intros Hh Hn. pose proof (holds_len m xs Hh) as Hlen. destruct Hh as [Hl Hall]. set (n := Z.of_nat (length xs)) in *.
  assert (fits 0 n) as Hfit by (apply fits_leaf_number; lia). destruct (tx_new_elems (store m)) as [Ha0 He0].
  destruct (tx_push_elems (tx_new (store m)) (hash x 1) Ha0) as [Ha1 He1]. rewrite He0 in He1.
  destruct (push_loop_ok (leaf_hash (xs ++ [x])) 64 0 n (st_push (tx_new (store m)) (hash x 1)))
    as (tx & es & E & Ha & He & _ & Hnodes); [lia|cbn; lia|lia|done| | |].
  - rewrite He1, length_app, node_index_leaf. cbn [length]. lia.
  - change (2 ^ Z.of_nat 0) with 1. intros h j Hj Hc. rewrite He1. destruct Hc as [Hlt|[Heq Hup]].
    + rewrite node_hash_app by lia. apply lookup_app_l_Some, Hall; lia.
    + assert (h = 0%nat) as -> by lia. change (2 ^ Z.of_nat 0) with 1 in Heq. assert (j = n) as -> by lia.
      rewrite node_index_leaf, <-Hl, Nat2Z.id, lookup_app_r, Nat.sub_diag by lia. cbn [node_hash]. unfold leaf_hash.
      subst n. by rewrite Nat2Z.id, lookup_app_r, Nat.sub_diag by lia.
  - exists (mk_mmr (commit tx) (Usize.add (num_leaves m) 1)), (hash x 1 :: es). split_and!.
    + unfold push, mbind, M_bind, gets, lift, modify. rewrite Hlen. rewrite <-node_index_leaf, position_from_node by done.
      rewrite leaves_below_at by lia. change (2 ^ Z.of_nat 0) with 1 in *. rewrite E. done.
    + unfold holds. cbn [store]. rewrite commit_elems by done. rewrite length_app. cbn [length].
      replace (Z.of_nat (length xs + 1)) with (2 ^ Z.of_nat 0 * (n + 1)) by (change (2 ^ Z.of_nat 0) with 1; lia). done.
    + cbn [store]. rewrite commit_elems, He, He1 by done. by rewrite <-app_assoc.
    + done.
Qed.

(** A number of leaves ends with a left node. *)
Lemma last_tree n : 0 < n -> exists h j, 0 <= j /\ Z.odd j = false /\ n = 2 ^ Z.of_nat h * (j + 1).
Proof.
  induction n as [z Hz| |z Hz IH|z Hz IH] using bits_ind; intros Hn; [lia..| |].
  - destruct (IH ltac:(lia)) as (h & j & Hj & Ho & ->). exists (S h), j. rewrite pow2_S. split_and!; [done|done|lia].
  - exists 0%nat, (2 * z). split_and!; [lia|apply odd_double|change (2 ^ Z.of_nat 0) with 1; lia].
Qed.
Lemma remove_back_ok m xs x : holds m (xs ++ [x]) -> Z.of_nat (length xs) + 1 < 2 ^ 62 ->
  exists m', remove_back m = (Ok tt, m') /\ holds m' xs /\ num_leaves m' = num_leaves m /\
    elems (store m') = take (Z.to_nat (tree_size (Z.of_nat (length xs)))) (elems (store m)).
Proof.
  intros Hh Hn. pose proof (holds_len _ _ Hh) as Hlen. destruct Hh as [Hl Hall]. rewrite length_app in *. cbn [length] in *.
  destruct (last_tree (Z.of_nat (length xs + 1))) as (h & j & Hj & Ho & Hd); [lia|]. rewrite Hd in *.
  assert (fits h j) as Hfit by (apply fits_leaves; lia). pose proof (fits_bound _ _ Hfit) as (Hi & _ & Hh & Hb). pose proof (pow2_pos h).
  assert (tree_size (2 ^ Z.of_nat h * (j + 1)) = node_index h j + 1) as Hsz by (rewrite <-node_index_leaf, <-node_index_next; done).
  assert (tree_size (Z.of_nat (length xs)) = node_index h j - Z.of_nat h) as Hsz'.
  { replace (Z.of_nat (length xs)) with (2 ^ Z.of_nat h * j + (2 ^ Z.of_nat h - 1)) by lia.
    unfold tree_size, node_index. rewrite count_ones_split, count_ones_all by lia. lia. }
  pose proof (tree_size_nonneg (Z.of_nat (length xs)) ltac:(lia)).
  exists (mk_mmr (st_remove_back (store m) (Usize.add (Z.of_nat h) 1)) (num_leaves m)). split_and!; [|split|done|].
  - unfold remove_back, is_empty, mbind, M_bind, gets, lift, modify, fail_if. rewrite Hlen, Hsz.
    destruct (Z.eqb_spec (node_index h j + 1) 0); [lia|]. unfold mret, M_ret. rewrite Hlen, Hsz, Z.add_simpl_r, index_to_height_node by (by apply fits_in_range). done.
  - cbn [store]. usize. rewrite remove_elems, length_take by lia. lia.
  - intros h' j' Hj' Hle. cbn [store]. usize. rewrite remove_elems by lia.
    pose proof (node_index_within h' j' _ Hj' Hle). pose proof (node_index_nonneg h' j' Hj').
    rewrite lookup_take_lt, Hall, node_hash_app by lia. done.
  - cbn [store]. usize. rewrite remove_elems by lia. f_equal. lia.
Qed.

Lemma mapM_ok {A B C} (f : B -> R C) (p : A -> B) (g : A -> C) l :
  (forall a, a ∈ l -> f (p a) = Ok (g a)) -> mapM f (p <$> l) = Ok (g <$> l).
Proof.
  induction l as [|a l IH]; intros Hf; [done|]. change (mapM f (p <$> (a :: l))) with (b ← f (p a); k ← mapM f (p <$> l); @mret R outcome_ret _ (b :: k)).
  rewrite (Hf a), IH; [done|intros b Hb; apply Hf; by right|by left].
Qed.
(** The trees of the range are in its store. *)
Lemma tree_in t n : 0 <= n < 2 ^ 62 -> t ∈ trees_of n -> 0 <= t.2 /\ 2 ^ Z.of_nat t.1 * (t.2 + 1) <= n /\ fits t.1 t.2 /\ Z.odd t.2 = false.
Proof.
  intros Hn Ht. destruct t as [h j]. apply list_elem_of_split in Ht as (l1 & l2 & He).
  destruct (tree_at n Hn _ _ _ _ He) as (_ & Hj & Ho & Hle & _ & _ & Hf). done.
Qed.
Lemma tree_items_rev (f : Z -> H) l : tree_items f (rev l) = rev (tree_items f l).
Proof. apply fmap_rev. Qed.
Lemma get_peaks_ok m xs l : holds m xs ->
  (forall t, t ∈ l -> 0 <= t.2 /\ 2 ^ Z.of_nat t.1 * (t.2 + 1) <= Z.of_nat (length xs) /\ fits t.1 t.2 /\ Z.odd t.2 = false) ->
  mapM (get_peak m) (at_ <$> l) = Ok (tree_items (leaf_hash xs) l).
Proof.
  intros [_ Hall] Hin. apply mapM_ok. intros t Ht. destruct (Hin t Ht) as (Hj & Hle & Hf & _). pose proof (fits_bound _ _ Hf) as (Hi & _ & Hh & _).
  unfold get_peak, at_. rewrite leaves_below_at by lia. cbn [index pos_at]. rewrite get_elems, Hall by done. done.
Qed.
Lemma get_root_ok m xs : holds m xs -> Z.of_nat (length xs) < 2 ^ 62 -> get_root m = Ok (reference_root xs).
Proof.
  intros Hh Hn. unfold get_root, is_empty. rewrite (holds_len m xs Hh). destruct (Z.eqb_spec (tree_size (Z.of_nat (length xs))) 0) as [Hz|Hz].
  { apply tree_size_zero in Hz; [by destruct xs|lia]. }
  assert (0 < Z.of_nat (length xs)) by (destruct xs; [done|cbn [length]; lia]).
  rewrite rev_peaks_tree by lia. cbn [mbind outcome_bind].
  rewrite (get_peaks_ok m xs), tree_items_rev by (first [done|intros t Ht; apply tree_in; [lia|by apply list_elem_of_In, in_rev, list_elem_of_In]]).
  cbn [mbind outcome_bind]. apply bagging_root. lia.
Qed.
Lemma get_leaf_ok m xs i x : holds m xs -> Z.of_nat (length xs) < 2 ^ 62 -> Z.of_nat (length xs) <= num_leaves m -> xs !! i = Some x ->
  get_leaf m (Z.of_nat i) = Some (hash x 1).
Proof.
  intros [Hl Hall] Hn Hnum Hi. pose proof (lookup_lt_Some _ _ _ Hi). unfold get_leaf. destruct (Z.leb_spec (num_leaves m) (Z.of_nat i)); [lia|].
  rewrite leaf_number_index by lia. rewrite get_elems by (apply node_index_nonneg; lia).
  rewrite (Hall 0%nat) by lia.
  cbn [node_hash]. unfold leaf_hash. by rewrite Nat2Z.id, Hi.
Qed.
Lemma sum_leaves l acc : (forall t, t ∈ l -> (t.1 < 64)%nat) -> 0 <= acc -> acc + leaves_of l < 2 ^ 64 ->
  foldl (fun sum p => Usize.add sum (leaves_below p)) acc (at_ <$> l) = acc + leaves_of l.
Proof.
  revert acc. induction l as [|[h j] l IH]; intros acc Hl Ha Hb; cbn [fmap list_fmap foldl leaves_of] in *; [lia|].
  pose proof (pow2_pos h). pose proof (leaves_of_nonneg l). change (at_ (h, j)) with (pos_at h j). rewrite leaves_below_at by (apply (Hl (h, j)); by left).
  unfold Usize.add at 2. rewrite usize_small, IH; [lia|intros t Ht; apply Hl; by right|lia..].
Qed.
Lemma reopen_ok (s : St) xs : holds (mk_mmr s 0) xs -> Z.of_nat (length xs) < 2 ^ 62 -> new s = Ok (mk_mmr s (Z.of_nat (length xs))).
Proof.
  intros Hh Hn. pose proof (holds_len _ xs Hh) as Hlen. unfold len in Hlen. cbn [store] in Hlen. unfold new. rewrite Hlen.
  set (n := Z.of_nat (length xs)) in *. destruct (Z.eqb_spec (tree_size n) 0) as [Hz|Hz].
  { apply tree_size_zero in Hz as ->; [done|lia]. }
  rewrite peaks_tree by lia. cbn [mbind outcome_bind]. pose proof (all_leaves n ltac:(lia)).
  rewrite sum_leaves; [unfold mret, outcome_ret; do 2 f_equal; lia| |lia|lia].
  intros t Ht. apply tree_in in Ht as (_ & _ & Hf & _); [|lia]. apply fits_bound in Hf. lia.
Qed.

(** *** Sequences of operations *)

Inductive op := Push (x : T) | RemoveBack.
Definition apply (o : op) (m : MerkleMountainRange St) : MerkleMountainRange St :=
  match o with Push x => snd (push x m) | RemoveBack => snd (remove_back m) end.
Definition run (ops : list op) (m : MerkleMountainRange St) : MerkleMountainRange St := foldl (fun m o => apply o m) m ops.
(** The items that are left, and the number of those that were appended. *)
Definition left_over (ops : list op) : list T :=
  foldl (fun xs o => match o with Push x => xs ++ [x] | RemoveBack => removelast xs end) [] ops.
Fixpoint appended (ops : list op) : nat :=
  match ops with [] => 0%nat | Push _ :: ops => S (appended ops) | RemoveBack :: ops => appended ops end.

Lemma appended_app ops o : appended (ops ++ [o]) = (appended ops + match o with Push _ => 1 | RemoveBack => 0 end)%nat.
Proof. induction ops as [|[x|] ops IH]; cbn [app appended]; [by destruct o|rewrite IH; lia|done]. Qed.
Lemma left_over_app ops o : left_over (ops ++ [o]) = match o with Push x => left_over ops ++ [x] | RemoveBack => removelast (left_over ops) end.
Proof. unfold left_over. by rewrite foldl_app. Qed.
Lemma left_over_length ops : (length (left_over ops) <= appended ops)%nat.
Proof.
  induction ops as [|o ops IH] using rev_ind; [done|]. rewrite left_over_app, appended_app. destruct o as [x|]; [rewrite length_app; cbn; lia|].
  destruct (left_over ops) as [|y l] using rev_ind; [cbn; lia|]. rewrite removelast_last. rewrite length_app in IH. cbn in *. lia.
Qed.
Lemma remove_back_empty m : holds m [] -> remove_back m = (Err EmptyTree, m).
Proof.
  intros Hh. unfold remove_back, is_empty, mbind, M_bind, gets, fail_if. by rewrite (holds_len m [] Hh).
Qed.
Lemma run_holds ops (s : St) : elems s = [] -> Z.of_nat (appended ops) < 2 ^ 62 ->
  holds (run ops (mk_mmr s 0)) (left_over ops) /\ num_leaves (run ops (mk_mmr s 0)) = Z.of_nat (appended ops).
Proof.
  intros Hs. induction ops as [|o ops IH] using rev_ind; intros Hn.
  { split; [|done]. split; [by cbn; rewrite Hs|]. intros h j Hj Hle. pose proof (pow2_pos h). cbn in Hle. nia. }
  rewrite left_over_app. unfold run. rewrite foldl_app. fold (run ops (mk_mmr s 0)). rewrite appended_app in *. cbn [foldl apply].
  destruct IH as [Hh Hnum]; [lia|]. pose proof (left_over_length ops). destruct o as [x|]; cbn [apply].
  - destruct (push_ok _ _ x Hh) as (m' & es & -> & Hh' & _ & Hnum'); [lia|]. split; [done|]. cbn [snd]. rewrite Hnum', Hnum. usize. lia.
  - rewrite Nat.add_0_r. destruct (left_over ops) as [|y l] eqn:E using rev_ind; [by rewrite remove_back_empty|]. clear IHl.
    rewrite length_app in *. cbn [length] in *. destruct (remove_back_ok _ _ _ Hh) as (m' & -> & Hh' & Hnum' & _); [lia|].
    rewrite removelast_last. split; [done|]. cbn [snd]. by rewrite Hnum', Hnum.
Qed.
End Refinement.

(** C18: a range refines a list of items.  After any appends and cuts its root is the
    hash of the items that are left, its leaves are theirs, and opening the store again
    gives their number; an append returns the number of appends before it and cutting
    the new item restores the store, and only the empty range cannot be cut. *)
Theorem mmr_refines {H T St} `{Merge H} `{Hash H T} `{StoreLaws H St} (ops : list (@op T)) (s : St) :
  elems s = [] -> Z.of_nat (appended ops) + 1 < 2 ^ 62 ->
  let m := run ops (mk_mmr s 0) in let xs := left_over ops in
  get_root m = Ok (reference_root xs) /\
  new (store m) = Ok (mk_mmr (store m) (Z.of_nat (length xs))) /\
  (forall i x, xs !! i = Some x -> get_leaf m (Z.of_nat i) = Some (hash x 1)) /\
  (xs = [] -> remove_back m = (Err EmptyTree, m)) /\
  (xs <> [] -> exists m', remove_back m = (Ok tt, m') /\ get_root m' = Ok (reference_root (removelast xs))) /\
  forall x, exists m' m'', push x m = (Ok (Z.of_nat (appended ops)), m') /\ get_root m' = Ok (reference_root (xs ++ [x])) /\
    remove_back m' = (Ok tt, m'') /\ elems (store m'') = elems (store m).
Proof.
  intros Hs Hn m xs. destruct (run_holds ops s Hs) as [Hh Hnum]; [lia|]. fold m xs in Hh, Hnum. pose proof (left_over_length ops) as Hlen. fold xs in Hlen.
  split_and!.
  - apply get_root_ok; [done|lia].
  - apply reopen_ok; [done|lia].
  - intros i x Hi. apply (get_leaf_ok m xs); [done|lia..|done].
  - intros E. apply remove_back_empty. by rewrite <-E.
  - intros Hne. destruct (exists_last Hne) as (l & y & E). rewrite E in *. rewrite length_app in Hlen. cbn in Hlen.
    destruct (remove_back_ok m l y Hh) as (m' & Hr & Hh' & _ & _); [lia|]. exists m'. rewrite removelast_last. split; [done|]. apply get_root_ok; [done|lia].
  - intros x. destruct (push_ok m xs x Hh) as (m' & es & Hp & Hh' & He & _); [lia|].
    destruct (remove_back_ok m' xs x Hh') as (m'' & Hr & _ & _ & He'); [lia|]. exists m', m''. rewrite Hp, Hnum.
    split; [done|]. split; [apply get_root_ok; [done|rewrite length_app; cbn; lia]|]. split; [done|].
    rewrite He', He. destruct Hh as [Hl _]. by rewrite <-Hl, Nat2Z.id, take_app_length.
Qed.
