(* ===== verification/MmrClimb.v ===== *)
(** * Climbing a tree

    Proofs are made and checked by a queue of positions: the one in front is replaced
    by its parent at the end, together with its sibling if that is next.  So the queue
    holds positions of one height, in order, followed by those of the next height that
    were reached already. *)

From S2P Require Import Prelude Mmr MmrPosition.

Section Climb.
(** The peak that is climbed to. *)
Variables (top : nat) (J : Z).
Hypothesis HJ : 0 <= J.
Hypothesis Htop : 2 ^ Z.of_nat top * (J + 1) <= 2 ^ 62.

(** Node [a] at height [g] is the peak or below it. *)
Definition under (g : nat) (a : Z) : Prop :=
  (g <= top)%nat /\ 2 ^ Z.of_nat (top - g) * J <= a < 2 ^ Z.of_nat (top - g) * (J + 1).
Lemma pow2_split (g : nat) : (g <= top)%nat -> 2 ^ Z.of_nat top = 2 ^ Z.of_nat g * 2 ^ Z.of_nat (top - g).
Proof. intros Hg. rewrite <-Z.pow_add_r by lia. f_equal. lia. Qed.
Lemma under_fits g a : under g a -> fits g a /\ 0 <= a.
Proof.
  intros [Hg Ha]. pose proof (pow2_pos (top - g)). assert (0 <= a) by nia. split; [|done]. apply fits_leaves; [done|].
  rewrite (pow2_split g) in Htop by done. pose proof (pow2_pos g). nia.
Qed.
Lemma under_S g : (g < top)%nat -> 2 ^ Z.of_nat (top - g) = 2 * 2 ^ Z.of_nat (top - S g).
Proof. intros Hg. rewrite <-pow2_S. do 2 f_equal. lia. Qed.
Lemma under_parent g a : under g a -> (g < top)%nat -> under (S g) (a / 2).
Proof.
  intros [Hg Ha] Hlt. rewrite (under_S g Hlt) in Ha. split; [lia|]. pose proof (Z.div_mod a 2). pose proof (Z.mod_pos_bound a 2). lia.
Qed.
Lemma under_other g a : under g a -> (g < top)%nat -> under g (other a).
Proof.
  intros [Hg Ha] Hlt. split; [done|]. rewrite (under_S g Hlt) in *. unfold other. destruct (odd_cases a) as [[-> Hd]|[-> Hd]]; lia.
Qed.
Lemma under_top a : under top a -> a = J.
Proof. intros [_ Ha]. rewrite Nat.sub_diag in Ha. change (2 ^ Z.of_nat 0) with 1 in Ha. lia. Qed.
Lemma top_under : under top J.
Proof. split; [done|]. rewrite Nat.sub_diag. change (2 ^ Z.of_nat 0) with 1. lia. Qed.
Lemma under_leaf i : under 0 i <-> 2 ^ Z.of_nat top * J <= i < 2 ^ Z.of_nat top * (J + 1).
Proof. unfold under. rewrite Nat.sub_0_r. split; [tauto|]. intros Hi. split; [lia|done]. Qed.

(** The queue holds the nodes [A] at height [g] and [B] at the next height. *)
Record climbing (g : nat) (A B : list Z) : Prop := {
  cl_here : Forall (under g) A;
  cl_next : Forall (fun b => (g < top)%nat /\ under (S g) b) B;
  cl_here_sorted : StronglySorted Z.lt A;
  cl_next_sorted : StronglySorted Z.lt B;
  cl_cross a b : a ∈ A -> b ∈ B -> b < a / 2;
}.
Lemma climbing_level g B : climbing g [] B -> B <> [] -> (g < top)%nat /\ climbing (S g) B [].
Proof.
  intros [_ Hn _ Hs _] Hne. split; [destruct Hn as [|b B [Hlt _] _]; [done|done]|].
  split; [|constructor|done|constructor|by intros a b _ ?%not_elem_of_nil].
  eapply Forall_impl; [exact Hn|]. by intros b [_ ?].
Qed.
Lemma climbing_top A B : climbing top A B -> B = [] /\ (A = [] \/ A = [J]).
Proof.
  intros [Hh Hn Hs _ _]. split; [destruct Hn as [|b B [Hlt _] _]; [done|lia]|].
  destruct A as [|a [|a' A]]; [by left|right|exfalso]; rewrite ?Forall_cons in Hh.
  - destruct Hh as [->%under_top _]. done.
  - destruct Hh as [->%under_top [->%under_top _]]. apply StronglySorted_inv in Hs as [_ Hs]. rewrite Forall_cons in Hs. lia.
Qed.
Lemma sorted_snoc (l : list Z) z : StronglySorted Z.lt l -> Forall (fun x => x < z) l -> StronglySorted Z.lt (l ++ [z]).
Proof.
  induction l as [|x l IH]; intros Hs Hz; [repeat constructor|]. apply StronglySorted_inv in Hs as [Hs Hx]. rewrite Forall_cons in Hz.
  cbn [app]. constructor; [apply IH; [done|apply Hz]|]. rewrite Forall_app, Forall_singleton. by split; [|apply Hz].
Qed.
Lemma half_lt a y : a < y -> y <> other a -> a / 2 < y / 2.
Proof.
  intros Hlt Hne. unfold other in Hne. pose proof (Z.div_mod y 2 ltac:(lia)). pose proof (Z.mod_pos_bound y 2 ltac:(lia)).
  destruct (odd_cases a) as [[Ho Hd]|[Ho Hd]]; rewrite Ho in Hne; lia.
Qed.
(** The front moves up, with its sibling if it is next: [A'] is what is left. *)
Definition moved (a : Z) (A A' : list Z) : Prop := (A' = A /\ forall A0, A <> other a :: A0) \/ A = other a :: A'.
Lemma moved_above a A A' : StronglySorted Z.lt (a :: A) -> moved a A A' ->
  StronglySorted Z.lt A' /\ (forall x, x ∈ A' -> x ∈ A /\ a / 2 < x / 2).
Proof.
  intros Hs Hm. apply StronglySorted_inv in Hs as [Hs Hlow]. rewrite Forall_forall in Hlow. destruct Hm as [[-> Hno]| ->].
  - split; [done|]. intros x Hx. split; [done|]. destruct A as [|y A]; [by apply not_elem_of_nil in Hx|].
    pose proof (half_lt a y (Hlow y ltac:(by left)) ltac:(intros ->; by eapply Hno)) as Hy.
    apply elem_of_cons in Hx as [->|Hx]; [done|]. apply StronglySorted_inv in Hs as [_ Hy']. rewrite Forall_forall in Hy'. specialize (Hy' x Hx).
    pose proof (Z.div_le_mono y x 2). lia.
  - apply StronglySorted_inv in Hs as [Hs Ho]. split; [done|]. intros x Hx. split; [by right|]. rewrite Forall_forall in Ho.
    specialize (Ho x Hx). specialize (Hlow (other a) ltac:(by left)). apply half_lt; lia.
Qed.
Lemma climbing_step g a A A' B : climbing g (a :: A) B -> (g < top)%nat -> moved a A A' -> climbing g A' (B ++ [a / 2]).
Proof.
  intros [Hh Hn Hs Hs' Hc] Hlt Hm. destruct (moved_above a A A' Hs Hm) as [Hs1 Hup]. rewrite Forall_forall in Hh. split.
  - rewrite Forall_forall. intros x Hx. apply Hh. right. by apply Hup.
  - rewrite Forall_app, Forall_singleton. split; [done|]. split; [done|]. apply under_parent; [|done]. apply Hh. by left.
  - done.
  - apply sorted_snoc; [done|]. rewrite Forall_forall. intros b Hb. apply Hc; [by left|done].
  - intros x b Hx Hb. destruct (Hup x Hx) as [HxA Hax]. apply elem_of_app in Hb as [Hb|Hb%list_elem_of_singleton]; [|by subst].
    apply Hc; [by right|done].
Qed.

(** ** The queue *)

Section Queue.
Context {X : Type}.
Implicit Types (A B : list (Z * X)).
Definition entry (g : nat) (a : Z * X) : Position * X := (pos_at g a.1, a.2).
Definition queue (g : nat) A B : list (Position * X) := (entry g <$> A) ++ (entry (S g) <$> B).
Lemma queue_level g B : queue g [] B = queue (S g) B [].
Proof. unfold queue. by rewrite app_nil_r. Qed.
Lemma queue_up g A B b : queue g A B ++ [entry (S g) b] = queue g A (B ++ [b]).
Proof. unfold queue. by rewrite fmap_app, app_assoc. Qed.

Lemma pos_eq_at g a h b : fits g a -> fits h b -> pos_eq (pos_at g a) (pos_at h b) = bool_decide (g = h /\ a = b).
Proof.
  intros Ha Hb. unfold pos_eq. cbn [index pos_at]. apply eq_bool_prop_intro. rewrite Is_true_true, Z.eqb_eq, bool_decide_spec.
  split; [intros; by apply node_index_inj|by intros [-> ->]].
Qed.
(** Is the sibling of the front next? *)
Lemma sibling_next g a A B : climbing g (a :: A.*1) B.*1 -> (g < top)%nat ->
  (exists A' y, A = (other a, y) :: A' /\ moved a A.*1 A'.*1 /\ queue g A B = entry g (other a, y) :: queue g A' B /\
     pos_eq (pos_at g (other a)) (sibling (pos_at g a)) = true) \/
  (moved a A.*1 A.*1 /\ forall p q, queue g A B = p :: q -> pos_eq p.1 (sibling (pos_at g a)) = false).
Proof.
  intros [Hh Hn _ _ _] Hlt. rewrite Forall_cons in Hh. destruct Hh as [Ha Hh]. pose proof (under_other g a Ha Hlt) as Ho.
  apply under_fits in Ha as [Hfa _]. apply under_fits in Ho as [Hfo _]. rewrite sibling_at by done.
  destruct A as [|[b y] A]; [|destruct (decide (b = other a)) as [->|Hne]].
  - right. split; [by left|]. intros p q Hq. destruct B as [|[b y] B]; [done|]. injection Hq as <- <-. cbn [entry fst].
    rewrite fmap_cons, Forall_cons in Hn. destruct Hn as [[_ [Hb _]%under_fits] _]. rewrite pos_eq_at by done.
    apply bool_decide_eq_false. intros [? _]. lia.
  - left. exists A, y. split; [done|]. split; [by right|]. split; [done|]. rewrite pos_eq_at by done. by apply bool_decide_eq_true.
  - right. split; [left; split; [done|]; intros A0 [=]; congruence|]. intros p q [= <- <-]. cbn [entry fst].
    rewrite fmap_cons, Forall_cons in Hh. destruct Hh as [[Hb _]%under_fits _]. rewrite pos_eq_at by done.
    apply bool_decide_eq_false. intros [_ ?]. congruence.
Qed.
(** The front is the peak only at the end. *)
Lemma front_below g a A B : climbing g (a :: A.*1) B.*1 -> (g < top)%nat -> pos_eq (pos_at g a) (pos_at top J) = false.
Proof.
  intros [Hh _ _ _ _] Hlt. rewrite Forall_cons in Hh. destruct Hh as [[Ha _]%under_fits _]. pose proof (under_fits _ _ top_under) as [Ht _].
  rewrite pos_eq_at by done. apply bool_decide_eq_false. intros [? _]. lia.
Qed.
Lemma front_top a A B : climbing top (a :: A.*1) B.*1 -> a = J /\ A = [] /\ B = [] /\ pos_eq (pos_at top a) (pos_at top J) = true.
Proof.
  intros Hc. destruct (climbing_top _ _ Hc) as [HB [|HA]]; [done|]. apply fmap_nil_inv in HB. injection HA as -> HA. apply fmap_nil_inv in HA.
  split_and!; [done..|]. unfold pos_eq. apply Z.eqb_refl.
Qed.
Lemma parent_below g a A B : climbing g (a :: A.*1) B.*1 -> (g < top)%nat -> parent (pos_at g a) = Ok (pos_at (S g) (a / 2)).
Proof.
  intros [Hh _ _ _ _] Hlt. rewrite Forall_cons in Hh. destruct Hh as [Ha _]. pose proof (under_parent g a Ha Hlt) as Hp.
  apply under_fits in Ha as [Ha _]. apply under_fits in Hp as [Hp _]. by apply parent_at.
Qed.
(** What is left to climb. *)
Definition climb_left (g : nat) A B : nat := (length A * (top - g) + length B * (top - S g))%nat.
Lemma climb_left_step g a A A' B b : (g < top)%nat -> (length A' <= length A)%nat ->
  (climb_left g A' (B ++ [b]) < climb_left g (a :: A) B)%nat.
Proof. intros Hg Hl. unfold climb_left. rewrite length_app. cbn [length]. destruct (top - g)%nat as [|d] eqn:E; [lia|]. replace (top - S g)%nat with d by lia. nia. Qed.
Lemma climb_left_level g B : climb_left g [] B = climb_left (S g) B [].
Proof. unfold climb_left. cbn [length]. lia. Qed.
End Queue.
End Climb.
