(* ===== verification/MmrTerm.v ===== *)
(** * What verification hashes

    The code for mountain ranges works for any type of hashes.  With terms as hashes it
    computes how a hash is put together; their value is the hash itself.  So the strings
    that verification hashes are those of a term, and two terms with one value agree
    wherever both are known, unless two of their strings collide. *)

From S2P Require Import Prelude Coin AccountTypes Codec TxContent Block Mmr MmrPosition.
From S2P Require Import MmrPeaks MmrSpec.

(** ** Changing the type of hashes *)

Definition rmap {A B} (f : A -> B) (o : R A) : R B :=
  match o with Ok a => Ok (f a) | Err e => Err e | Panic => Panic end.
Lemma rmap_bind {A B C} (f : B -> C) (o : R A) (k : A -> R B) : rmap f (o ≫= k) = o ≫= fun a => rmap f (k a).
Proof. by destruct o. Qed.
Lemma bind_rmap {A B C} (f : A -> B) (o : R A) (k : B -> R C) : rmap f o ≫= k = o ≫= fun a => k (f a).
Proof. by destruct o. Qed.

Section SortMap.
Context {A B : Type} (f : A -> B) (RA : relation A) (RB : relation B) `{!RelDecision RA, !RelDecision RB}.
Hypothesis Hf : forall a b, RA a b <-> RB (f a) (f b).

Lemma list_merge_map (l1 l2 : list A) : list_merge RB (f <$> l1) (f <$> l2) = f <$> list_merge RA l1 l2.
Proof.
  revert l2. induction l1 as [|x1 l1 IH1]; intros l2; [by destruct l2|]. induction l2 as [|x2 l2 IH2]; [done|].
  cbn [fmap list_fmap list_merge]. destruct (decide (RA x1 x2)) as [H|H].
  - rewrite decide_True by (by apply Hf). cbn [fmap list_fmap]. f_equal. apply (IH1 (x2 :: l2)).
  - rewrite decide_False by (by rewrite <-Hf). cbn [fmap list_fmap]. f_equal. apply IH2.
Qed.
Definition stack_map (st : list (option (list A))) : list (option (list B)) := fmap (M := list) (fmap (M := option) (fmap (M := list) f)) st.
Lemma merge_list_to_stack_map (st : list (option (list A))) (l : list A) : merge_list_to_stack RB (stack_map st) (f <$> l) = stack_map (merge_list_to_stack RA st l).
Proof.
  revert l. induction st as [|[l'|] st IH]; intros l; [done| |done]. cbn [stack_map fmap list_fmap option_fmap option_map merge_list_to_stack].
  f_equal. rewrite list_merge_map. apply IH.
Qed.
Lemma merge_stack_map (st : list (option (list A))) : merge_stack RB (stack_map st) = f <$> merge_stack RA st.
Proof.
  induction st as [|[l|] st IH]; [done| |apply IH]. cbn [stack_map fmap list_fmap option_fmap option_map merge_stack].
  unfold stack_map in IH. by rewrite IH, list_merge_map.
Qed.
Lemma merge_sort_map (l : list A) : merge_sort RB (f <$> l) = f <$> merge_sort RA l.
Proof.
  unfold merge_sort. change (@nil (option (list B))) with (stack_map []). generalize (@nil (option (list A))) as st.
  induction l as [|x l IH]; intros st; cbn [fmap list_fmap merge_sort_aux]; [apply merge_stack_map|].
  change [f x] with (f <$> [x]). rewrite merge_list_to_stack_map. apply IH.
Qed.
End SortMap.

Section Natural.
Context {H1 H2 T : Type} `{EqDecision H1, EqDecision H2} `{Merge H1, Merge H2} `{Hash H1 T, Hash H2 T}.
Variable ev : H1 -> H2.
Hypothesis ev_merge : forall l r p, ev (merge l r p) = merge (ev l) (ev r) p.
Hypothesis ev_hash : forall (x : T) p, ev (hash x p) = hash x p.

Definition evp (a : Position * H1) : Position * H2 := (a.1, ev a.2).
Definition evn (a : H1 * Z) : H2 * Z := (ev a.1, a.2).

Lemma root_climb_map fuel peak (q : list (Position * H1)) iter :
  root_climb fuel peak (evp <$> q) (ev <$> iter) = rmap (fun r => (ev r.1, ev <$> r.2)) (root_climb fuel peak q iter).
Proof.
  revert q iter. induction fuel as [|fuel IH]; intros [|[pos h] q] iter; try done; cbn [fmap list_fmap evp fst snd root_climb];
    (destruct (pos_eq pos peak); [done|]).
  all: destruct q as [|[next nh] q], iter as [|node iter]; cbn [fmap list_fmap evp fst snd]; try (destruct (pos_eq next (sibling pos)));
    try done; cbn [mbind outcome_bind]; (destruct (parent pos) as [up|e|]; [|done..]); cbn [mbind outcome_bind rmap]; try done.
  all: rewrite <-IH, fmap_app; do 2 f_equal; cbn [fmap list_fmap]; unfold evp; cbn [fst snd];
    destruct (right_node pos); by rewrite ev_merge.
Qed.
Lemma split_at_peak_map peak (l : list (Position * H1)) :
  split_at_peak fst peak (evp <$> l) = let '(a, b) := split_at_peak fst peak l in (evp <$> a, evp <$> b).
Proof.
  induction l as [|[p h] l IH]; [done|]. cbn [fmap list_fmap split_at_peak evp fst]. destruct (_ <? _); [done|]. rewrite IH.
  by destruct (split_at_peak fst peak l).
Qed.
Lemma calculate_root_for_peak_map peak (l : list (Position * H1)) iter :
  calculate_root_for_peak peak (evp <$> l) (ev <$> iter) = rmap (fun r => (ev r.1, ev <$> r.2)) (calculate_root_for_peak peak l iter).
Proof.
  unfold calculate_root_for_peak. rewrite root_climb_map. unfold climb_fuel. rewrite length_fmap.
  destruct l as [|[p h] [|]]; [done| |done]. cbn [fmap list_fmap evp fst snd]. by destruct (pos_eq p peak).
Qed.
Lemma add_to_last_map n (l : list (H1 * Z)) : add_to_last n (evn <$> l) = fmap (M := list) evn <$> add_to_last n l.
Proof.
  unfold add_to_last. rewrite <-fmap_rev. destruct (rev l) as [|[h n'] l']; [done|]. cbn [fmap list_fmap option_fmap option_map evn fst snd]. by rewrite fmap_app, fmap_rev.
Qed.
Definition ev_state (r : list (Position * H1) * list H1 * list (H1 * Z)) : list (Position * H2) * list H2 * list (H2 * Z) :=
  let '(leaves, iter, hashes) := r in (evp <$> leaves, ev <$> iter, evn <$> hashes).
Lemma peak_roots_loop_map ps (l : list (Position * H1)) iter hashes :
  peak_roots_loop ps (evp <$> l) (ev <$> iter) (evn <$> hashes) = rmap ev_state (peak_roots_loop ps l iter hashes).
Proof.
  revert l iter hashes. induction ps as [|peak ps IH]; intros l iter hashes; [done|]. cbn [peak_roots_loop]. rewrite split_at_peak_map.
  destruct (split_at_peak fst peak l) as [below rest]. destruct below as [|b below]; [destruct iter as [|node iter]; cbn [fmap list_fmap]|].
  - rewrite add_to_last_map. destruct (add_to_last (leaves_below peak) hashes) as [hashes'|]; cbn [fmap option_fmap option_map]; [apply (IH rest [])|done].
  - rewrite <-IH. by rewrite fmap_app.
  - remember (evp <$> (b :: below)) as bs eqn:Ebs. destruct bs as [|b' bs]; [done|]. rewrite Ebs, calculate_root_for_peak_map.
    destruct (calculate_root_for_peak peak (b :: below) iter) as [[h iter']|e|]; [|done..]. cbn [mbind outcome_bind rmap fst snd]. rewrite <-IH. by rewrite fmap_app.
Qed.
Definition evproof (p : MmrProof H1) : MmrProof H2 := mk_proof (mmr_size p) (ev <$> nodes p).
Lemma calculate_peak_roots_map p (l : list (Position * H1)) :
  calculate_peak_roots (evproof p) (evp <$> l) = rmap (fmap (M := list) evn) (calculate_peak_roots p l).
Proof.
  unfold calculate_peak_roots. cbn [evproof mmr_size nodes].
  assert ((ps ← peaks (mmr_size p); '(rest, proof_iter, peaks_hashes) ← peak_roots_loop ps (evp <$> l) (ev <$> nodes p) [];
           err_if (negb (length rest =? 0)%nat || negb (length proof_iter =? 0)%nat) InvalidProof;; mret peaks_hashes) =
          rmap (fmap (M := list) evn) (ps ← peaks (mmr_size p); '(rest, proof_iter, peaks_hashes) ← peak_roots_loop ps l (nodes p) [];
           err_if (negb (length rest =? 0)%nat || negb (length proof_iter =? 0)%nat) InvalidProof;; mret peaks_hashes)) as ->.
  { destruct (peaks (mmr_size p)) as [ps|e|]; [|done..]. cbn [mbind outcome_bind].
    pose proof (peak_roots_loop_map ps l (nodes p) []) as Hl. cbn [fmap list_fmap] in Hl. unfold fmap in *. rewrite Hl. destruct (peak_roots_loop ps l (nodes p) []) as [[[rest iter] hashes]|e|]; [|done..].
    cbn [mbind outcome_bind rmap ev_state]. rewrite !length_fmap. by destruct (_ || _). }
  destruct l as [|[pos h] [|]]; [done| |done]. cbn [fmap list_fmap evp fst snd]. by destruct (_ && _).
Qed.
Lemma bagging_map (l : list (H1 * Z)) : bagging (evn <$> l) = rmap ev (bagging l).
Proof.
  unfold bagging. assert (forall o, bagging_loop (evn <$> l) (evn <$> o) = evn <$> bagging_loop l o) as Hb.
  { induction l as [|[h n] l IH]; intros o; [done|]. cbn [fmap list_fmap bagging_loop evn fst snd]. rewrite <-IH. f_equal.
    destruct o as [[h' n']|]; [|done]. cbn [fmap option_fmap option_map]. unfold evn. cbn [fst snd]. by rewrite ev_merge. }
  specialize (Hb None). change (evn <$> None) with (@None (H2 * Z)) in Hb. rewrite Hb. by destruct (bagging_loop l None) as [[h n]|].
Qed.
Lemma leaf_position_map p (leaf : Z * T) : leaf_position (evproof p) leaf = rmap evp (leaf_position p leaf).
Proof.
  destruct leaf as [i x]. unfold leaf_position. cbn [evproof mmr_size]. destruct (_ <=? i); [done|]. cbn [err_if mbind outcome_bind].
  destruct (position_from (leaf_number_to_index i)) as [pos|e|]; [|done..]. cbn [mbind outcome_bind]. destruct (_ <=? index pos); [done|].
  cbn [err_if mbind outcome_bind rmap]. unfold mret, outcome_ret, evp. cbn [rmap fst snd]. by rewrite ev_hash.
Qed.
Lemma repeated_map (l : list (Position * H1)) : repeated (evp <$> l) = repeated l.
Proof. induction l as [|a [|b l] IH]; [done..|]. cbn [fmap list_fmap repeated] in *. by rewrite IH. Qed.
Lemma mapM_map {A B C} (f : A -> R B) (g : B -> C) (f' : A -> R C) l : (forall a, f' a = rmap g (f a)) -> mapM f' l = rmap (fmap (M := list) g) (mapM f l).
Proof.
  intros Hf. induction l as [|a l IH]; [done|]. cbn [mapM]. unfold mbind, outcome_bind in *. rewrite Hf. destruct (f a) as [b|e|]; [|done..].
  cbn [rmap]. rewrite IH. by destruct (mapM f l).
Qed.
Lemma calculate_root_map p (leaves : list (Z * T)) : calculate_root (evproof p) leaves = rmap ev (calculate_root p leaves).
Proof.
  unfold calculate_root. cbn [evproof mmr_size]. destruct (_ <? _); [done|]. cbn [err_if mbind outcome_bind].
  rewrite (mapM_map (leaf_position p) evp) by (intros; apply leaf_position_map). destruct (mapM (leaf_position p) leaves) as [ps|e|]; [|done..].
  cbn [rmap mbind outcome_bind]. rewrite (merge_sort_map evp leaf_le leaf_le), repeated_map by done. destruct (repeated _); [done|].
  cbn [err_if mbind outcome_bind]. rewrite calculate_peak_roots_map. destruct (calculate_peak_roots p _) as [hs|e|]; [|done..].
  cbn [rmap mbind outcome_bind]. by rewrite <-fmap_rev, bagging_map.
Qed.
Hypothesis ev_empty : forall p, ev (empty p) = empty p.
Lemma reference_root_map (xs : list T) : reference_root xs = ev (reference_root xs).
Proof.
  assert (forall h (l : list T), perfect h l = ev (perfect h l)) as Hp.
  { induction h as [|h IH]; intros l; cbn [perfect]; [destruct l; by rewrite ?ev_hash, ?ev_empty|]. by rewrite ev_merge, <-!IH. }
  unfold reference_root. destruct xs as [|x xs]; [by rewrite ev_empty|]. generalize (x :: xs) as l. clear x xs.
  induction max_height as [|k IH]; intros l; cbn [bagged]; [by rewrite ev_empty|].
  destruct (_ =? _)%nat; [apply Hp|]. destruct (_ <? _)%nat; [|apply IH]. by rewrite ev_merge, <-IH, <-Hp.
Qed.
End Natural.

(** ** Terms *)

Lemma collision_mono (h : list Z -> list Z) (xs xs' ys ys' : list (list Z)) : (forall x, x ∈ xs -> x ∈ xs') -> (forall y, y ∈ ys -> y ∈ ys') ->
  collision h xs ys -> collision h xs' ys'.
Proof. intros Hx Hy (x & y & Hxs & Hys & Hne & He). exists x, y. auto. Qed.

Inductive hterm (T : Type) :=
  | TEmpty (p : Z)
  | THash (p : Z) (x : T)
  | TMerge (p : Z) (l r : hterm T)
  | TOpaque (h : Z).
Arguments TEmpty {T}.
Arguments THash {T}.
Arguments TMerge {T}.
Arguments TOpaque {T}.
#[global] Instance hterm_merge T : Merge (hterm T) := { empty := TEmpty; merge l r p := TMerge p l r }.
#[global] Instance hterm_hash T : Hash (hterm T) T := fun x p => THash p x.

Definition digest (h : Z) : Prop := 0 <= h < 256 ^ 32.

Section Terms.
Context `{BEnv : BlockEnv} {T : Type} `{Item T}.

Fixpoint eval (t : hterm T) : Z :=
  match t with
  | TEmpty p => empty p
  | THash p x => hash x p
  | TMerge p l r => merge (eval l) (eval r) p
  | TOpaque h => h
  end.
(** The strings whose digests make up the value. *)
Fixpoint term_strings (t : hterm T) : list (list Z) :=
  match t with
  | TEmpty p => [be_bytes 8 p]
  | THash p x => [item_string p x]
  | TMerge p l r => merge_string p (eval l) (eval r) :: term_strings l ++ term_strings r
  | TOpaque _ => []
  end.
(** Items have the prefix one, inner nodes a larger one. *)
Fixpoint term_ok (t : hterm T) : Prop :=
  match t with
  | TEmpty p => p = 0
  | THash p _ => p = 1
  | TMerge p l r => 2 <= p < 2 ^ 64 /\ term_ok l /\ term_ok r
  | TOpaque h => digest h
  end.
Fixpoint known (t : hterm T) : Prop :=
  match t with TMerge _ l r => known l /\ known r | TOpaque _ => False | _ => True end.
(** The first term agrees with the second where it is known. *)
Inductive matches : hterm T -> hterm T -> Prop :=
  | match_opaque h t : matches (TOpaque h) t
  | match_empty p : matches (TEmpty p) (TEmpty p)
  | match_hash p x y : item_bytes x = item_bytes y -> matches (THash p x) (THash p y)
  | match_merge p l r l' r' : matches l l' -> matches r r' -> matches (TMerge p l r) (TMerge p l' r').

Lemma blake2b_value l : digest (be_value (blake2b l)).
Proof. destruct (blake2b_bytes l) as [Hl Hb]. pose proof (be_value_range _ Hb) as Hr. by rewrite Hl in Hr. Qed.
Lemma blake2b_value_inj l l' : be_value (blake2b l) = be_value (blake2b l') -> blake2b l = blake2b l'.
Proof.
  intros He. destruct (blake2b_bytes l) as [Hl Hb], (blake2b_bytes l') as [Hl' Hb'].
  by rewrite <-(be_bytes_value _ Hb), <-(be_bytes_value _ Hb'), Hl, Hl', He.
Qed.
Lemma eval_digest t : term_ok t -> digest (eval t).
Proof. destruct t; [intros _; apply blake2b_value..|done]. Qed.
Definition top_string (t : hterm T) : list Z :=
  match t with
  | TEmpty p => be_bytes 8 p
  | THash p x => item_string p x
  | TMerge p l r => merge_string p (eval l) (eval r)
  | TOpaque _ => []
  end.
Lemma prefix_inj p q l l' : 0 <= p < 2 ^ 64 -> 0 <= q < 2 ^ 64 -> be_bytes 8 p ++ l = be_bytes 8 q ++ l' -> p = q /\ l = l'.
Proof.
  intros Hp Hq He. apply app_inj_1 in He as [He Hl]; [|by rewrite !be_bytes_length]. split; [|done]. by apply (be_bytes_inj 8).
Qed.
Definition is_opaque (t : hterm T) : Prop := match t with TOpaque _ => True | _ => False end.
Lemma eval_top t : ~ is_opaque t -> eval t = be_value (blake2b (top_string t)) /\ top_string t ∈ term_strings t.
Proof. destruct t; intros Hn; [split; [done|by left]..|by destruct Hn]. Qed.
Lemma same_top t t' : ~ is_opaque t -> ~ is_opaque t' -> eval t = eval t' ->
  top_string t = top_string t' \/ collision blake2b (term_strings t) (term_strings t').
Proof.
  intros Ho Ho' He. destruct (eval_top t Ho) as [E Hin], (eval_top t' Ho') as [E' Hin']. rewrite E, E' in He.
  apply no_collision; [done..|]. by apply blake2b_value_inj.
Qed.
Lemma known_not_opaque t : known t -> ~ is_opaque t.
Proof. destruct t; cbn; tauto. Qed.
Lemma eval_matches t t' : term_ok t -> term_ok t' -> known t' -> eval t = eval t' ->
  matches t t' \/ collision blake2b (term_strings t) (term_strings t').
Proof.
  revert t'. induction t as [p|p x|p l IHl r IHr|h]; intros t' Hok Hok' Hk He; [..|left; constructor].
  all: lazymatch type of He with eval ?t = _ => destruct (same_top t t') as [Hs|]; [by intros []|by apply known_not_opaque|done| |by right] end;
    destruct t' as [p'|p' x'|p' l' r'|h']; [..|done]; cbn [term_ok known top_string] in *; unfold item_string, merge_string in Hs.
  - left. rewrite Hok, Hok'. constructor.
  - rewrite <-(app_nil_r (be_bytes 8 p)) in Hs. apply prefix_inj in Hs as [? _]; lia.
  - rewrite <-(app_nil_r (be_bytes 8 p)) in Hs. apply prefix_inj in Hs as [? _]; lia.
  - rewrite <-(app_nil_r (be_bytes 8 p')) in Hs. apply prefix_inj in Hs as [? _]; lia.
  - apply prefix_inj in Hs as [-> Hx]; [|lia..]. left. by constructor.
  - apply prefix_inj in Hs as [? _]; lia.
  - rewrite <-(app_nil_r (be_bytes 8 p')) in Hs. apply prefix_inj in Hs as [? _]; lia.
  - apply prefix_inj in Hs as [? _]; lia.
  - destruct Hok as (Hp & Hl & Hr), Hok' as (Hp' & Hl' & Hr'), Hk as [Kl Kr]. apply prefix_inj in Hs as [-> Hs]; [|lia..].
    apply app_inj_1 in Hs as [Hsl Hsr]; [|by rewrite !be_bytes_length].
    apply (be_bytes_inj 32) in Hsl; [|by apply eval_digest..]. apply (be_bytes_inj 32) in Hsr; [|by apply eval_digest..].
    destruct (IHl l' Hl Hl' Kl Hsl) as [Ml|Hc]; [destruct (IHr r' Hr Hr' Kr Hsr) as [Mr|Hc]; [left; by constructor|]|]; right.
    + eapply collision_mono; [..|exact Hc]; intros y Hy; right; apply elem_of_app; by right.
    + eapply collision_mono; [..|exact Hc]; intros y Hy; right; apply elem_of_app; by left.
Qed.

(** ** The instances *)

Lemma eval_calculate_root (p : MmrProof Z) (leaves : list (Z * T)) :
  calculate_root p leaves = rmap eval (calculate_root (mk_proof (mmr_size p) (TOpaque <$> nodes p)) leaves).
Proof.
  rewrite <-(calculate_root_map eval) by done. destruct p as [n l]. unfold evproof. cbn [mmr_size nodes]. do 2 f_equal.
  induction l as [|h l IH]; [done|]. cbn [fmap list_fmap eval]. by rewrite <-IH.
Qed.
Lemma eval_reference_root (xs : list T) : reference_root xs = eval (reference_root xs).
Proof. by apply (reference_root_map eval). Qed.
End Terms.
