(* ===== verification/MmrSound.v ===== *)
(** * What a verified proof shows

    A proof from anyone that verifies against the root of a range shows its leaves: each
    item has the bytes of the item with that number, unless two hashed strings collide.
    The number of leaves that the proof claims is not trusted. *)

From S2P Require Import Prelude Coin AccountTypes Codec TxContent Block Mmr MmrPosition.
From S2P Require Import MmrPeaks MmrSpec MmrClimb MmrTerm.

(** ** Items in terms *)

Section Contains.
Context `{BEnv : BlockEnv} {T : Type} `{Item T}.
Implicit Types (t : hterm T) (x y : T).

(** The term for node [j] at height [h] has item [x] as leaf [i]. *)
Fixpoint contains (t : hterm T) (h : nat) (j i : Z) (x : T) {struct h} : Prop :=
  match h with
  | O => t = THash 1 x /\ i = j
  | S h' =>
      match t with
      | TMerge p l r => p = 2 ^ Z.of_nat h /\ (contains l h' (2 * j) i x \/ contains r h' (2 * j + 1) i x)
      | _ => False
      end
  end.
Definition tprefix (t : hterm T) : option Z :=
  match t with TEmpty p | THash p _ | TMerge p _ _ => Some p | TOpaque _ => None end.

Lemma contains_prefix t h j i x : contains t h j i x -> tprefix t = Some (2 ^ Z.of_nat h).
Proof. destruct h as [|h]; [by intros [-> _]|]. destruct t as [|p y|p l r|]; [done|done| |done]. by intros [-> _]. Qed.
Lemma matches_prefix t t' p : matches t t' -> tprefix t = Some p -> tprefix t' = Some p.
Proof. by destruct 1. Qed.
Lemma matches_merge p l r p' l' r' : matches (TMerge p l r) (TMerge p' l' r') -> matches l l' /\ matches r r'.
Proof. by inversion 1. Qed.
Lemma contains_matches xs t h j i x : 0 <= j -> contains t h j i x -> matches t (node_hash (leaf_hash xs) h j) ->
  exists y, xs !! Z.to_nat i = Some y /\ item_bytes x = item_bytes y.
Proof.
  revert t j. induction h as [|h IH]; intros t j Hj Hc Hm; cbn [contains node_hash] in *.
  - destruct Hc as [-> ->]. unfold leaf_hash in Hm. destruct (xs !! Z.to_nat j) as [y|]; inversion Hm; subst. by exists y.
  - destruct t as [|p y|p l r|]; [done|done| |done]. destruct Hc as [-> Hc]. inversion Hm as [| | |p' l1 r1 l2 r2 Hl Hr]; subst.
    destruct Hc as [Hc|Hc]; [by apply (IH l (2 * j)); [lia|..]|by apply (IH r (2 * j + 1)); [lia|..]].
Qed.
(** A node and its sibling below their parent. *)
Definition join (g : nat) (a : Z) (t t' : hterm T) : hterm T :=
  if Z.odd a then TMerge (2 ^ Z.of_nat (S g)) t' t else TMerge (2 ^ Z.of_nat (S g)) t t'.
Lemma join_contains g a t t' i x : contains t g a i x \/ contains t' g (other a) i x -> contains (join g a t t') (S g) (a / 2) i x.
Proof.
  intros Hc. unfold join, other in *. destruct (odd_cases a) as [[Ho Hd]|[Ho Hd]]; rewrite Ho in *; cbn [contains]; (split; [done|]); rewrite <-?Hd.
  - replace (2 * (a / 2)) with (a - 1) by lia. tauto.
  - tauto.
Qed.
Lemma join_ok g a t t' : (g < 62)%nat -> term_ok t -> term_ok t' -> term_ok (join g a t t').
Proof.
  intros Hg Ht Ht'. assert (2 <= 2 ^ Z.of_nat (S g) < 2 ^ 64).
  { split; [rewrite pow2_S; pose proof (pow2_pos g); lia|apply Z.pow_lt_mono_r; lia]. }
  unfold join. destruct (Z.odd a); by cbn [term_ok].
Qed.

(** ** Climbing to a peak *)

Section Peak.
Variables (top : nat) (J : Z).
Hypothesis HJ : 0 <= J.
Hypothesis Htop : 2 ^ Z.of_nat top * (J + 1) <= 2 ^ 62.

Lemma top_62 : (top <= 62)%nat.
Proof. assert (2 ^ Z.of_nat top <= 2 ^ 62) as Hp by (pose proof (pow2_pos top); nia). apply Z.pow_le_mono_r_iff in Hp; lia. Qed.

Definition reached (Lv : list (Z * T)) (g : nat) (A B : list (Z * hterm T)) : Prop :=
  forall i x, (i, x) ∈ Lv -> (exists a t, (a, t) ∈ A /\ contains t g a i x) \/ (exists b t, (b, t) ∈ B /\ contains t (S g) b i x).
Definition terms_ok (l : list (Z * hterm T)) : Prop := Forall (fun a => term_ok a.2) l.
Definition climb_result (Lv : list (Z * T)) (o : R (hterm T * list (hterm T))) : Prop :=
  match o with
  | Ok (t, iter) => term_ok t /\ Forall term_ok iter /\ forall i x, (i, x) ∈ Lv -> contains t top J i x
  | Err e => e = InvalidProof
  | Panic => False
  end.
Lemma reached_step Lv g a t A A' B t' :
  reached Lv g ((a, t) :: A) B -> (A' = A \/ A = (other a, t') :: A') -> reached Lv g A' (B ++ [(a / 2, join g a t t')]).
Proof.
  intros Hr HA i x Hi. destruct (Hr i x Hi) as [(b & u & Hb & Hc)|(b & u & Hb & Hc)].
  - apply elem_of_cons in Hb as [[= -> ->]|Hb].
    { right. exists (a / 2), (join g a t t'). split; [apply elem_of_app; right; by left|]. apply join_contains. by left. }
    destruct HA as [->| ->]; [left; eauto|]. apply elem_of_cons in Hb as [[= -> ->]|Hb]; [|left; eauto].
    right. exists (a / 2), (join g a t t'). split; [apply elem_of_app; right; by left|]. apply join_contains. by right.
  - right. exists b, u. split; [apply elem_of_app; by left|done].
Qed.
(** One turn: the front is joined with its sibling, taken from the queue or the proof. *)
Lemma root_climb_turn fuel g a t A B iter : climbing top J g (a :: A.*1) B.*1 -> (g < top)%nat ->
  (exists A' t' iter', moved a A.*1 A'.*1 /\ (A' = A /\ iter = t' :: iter' \/ A = (other a, t') :: A' /\ iter' = iter) /\
    root_climb (S fuel) (pos_at top J) (queue g ((a, t) :: A) B) iter =
    root_climb fuel (pos_at top J) (queue g A' (B ++ [(a / 2, join g a t t')])) iter') \/
  (iter = [] /\ root_climb (S fuel) (pos_at top J) (queue g ((a, t) :: A) B) iter = Err InvalidProof).
Proof.
  intros Hc Hlt. pose proof (front_below top J HJ Htop g a A B Hc Hlt) as Hfb. pose proof (parent_below top J HJ Htop g a A B Hc Hlt) as Hp.
  change (queue g ((a, t) :: A) B) with ((pos_at g a, t) :: queue g A B). cbn [root_climb]. rewrite Hfb.
  pose proof top_62. assert (forall A' t' it, root_climb fuel (pos_at top J)
      (queue g A' B ++ [(pos_at (S g) (a / 2), if right_node (pos_at g a) then merge t' t (leaves_below (pos_at (S g) (a / 2)))
                                                 else merge t t' (leaves_below (pos_at (S g) (a / 2))))]) it =
    root_climb fuel (pos_at top J) (queue g A' (B ++ [(a / 2, join g a t t')])) it) as Hup.
  { intros A' t' it. rewrite leaves_below_at by lia. by rewrite <-queue_up. }
  destruct (sibling_next top J HJ Htop g a A B Hc Hlt) as [(A' & t' & -> & Hm & -> & Hs)|[Hm Hno]].
  - left. exists A', t', iter. split; [done|]. split; [by right|]. unfold entry at 1. cbn [fst snd]. rewrite Hs.
    cbn [mbind outcome_bind]. rewrite Hp. cbn [mbind outcome_bind]. apply Hup.
  - destruct iter as [|t' iter]; [right|left; exists A, t', iter]; (split; [done|]); [|split; [by left|]].
    + destruct (queue g A B) as [|[p h] q] eqn:Eq; [done|]. specialize (Hno _ _ eq_refl). cbn [fst] in Hno. by rewrite Hno.
    + destruct (queue g A B) as [|[p h] q] eqn:Eq; [|specialize (Hno _ _ eq_refl); cbn [fst] in Hno; rewrite Hno];
        cbn [mbind outcome_bind]; rewrite Hp; cbn [mbind outcome_bind]; specialize (Hup A t' iter); rewrite Eq in Hup; exact Hup.
Qed.
(** The queue starts with the positions of one height. *)
Record climb_state (Lv : list (Z * T)) (g : nat) (A B : list (Z * hterm T)) (iter : list (hterm T)) : Prop := {
  cs_climbing : climbing top J g A.*1 B.*1;
  cs_here : terms_ok A;
  cs_next : terms_ok B;
  cs_iter : Forall term_ok iter;
  cs_reached : reached Lv g A B;
}.
Lemma climb_state_level Lv g B iter : climb_state Lv g [] B iter -> B <> [] -> climb_state Lv (S g) B [] iter.
Proof.
  intros [Hc _ HB Hi Hr] Hne. split; [|done|constructor|done|].
  - apply (climbing_level top J g); [done|]. by destruct B.
  - intros i x Hx. destruct (Hr i x Hx) as [(a & t & Ha%not_elem_of_nil & _)|Hb]; [done|by left].
Qed.
Lemma climb_state_step Lv g a t A A' B iter t' iter' : climb_state Lv g ((a, t) :: A) B iter -> (g < top)%nat -> moved a A.*1 A'.*1 ->
  A' = A /\ iter = t' :: iter' \/ A = (other a, t') :: A' /\ iter' = iter -> climb_state Lv g A' (B ++ [(a / 2, join g a t t')]) iter'.
Proof.
  intros [Hc HA HB Hi Hr] Hlt Hm Hcase. unfold terms_ok in HA. rewrite Forall_cons in HA. destruct HA as [Ht HA]. cbn [snd] in Ht.
  assert (term_ok t' /\ terms_ok A' /\ Forall term_ok iter') as (Ht' & HA' & Hi').
  { destruct Hcase as [[-> ->]|[-> ->]]; [rewrite Forall_cons in Hi; tauto|]. rewrite Forall_cons in HA. tauto. }
  pose proof top_62. split; [|done| |done|].
  - rewrite fmap_app. by apply (climbing_step top J) with (A := A.*1).
  - apply Forall_app. split; [done|]. apply Forall_singleton. apply join_ok; [lia|done..].
  - apply (reached_step Lv g a t A); [done|]. destruct Hcase as [[-> _]|[-> _]]; auto.
Qed.
Lemma root_climb_sound Lv fuel g a t A B iter : climb_state Lv g ((a, t) :: A) B iter -> (climb_left top g ((a, t) :: A) B <= fuel)%nat ->
  climb_result Lv (root_climb fuel (pos_at top J) (queue g ((a, t) :: A) B) iter).
Proof.
  revert g a t A B iter. induction fuel as [|fuel IH]; intros g a t A B iter Hs Hf; pose proof (cs_climbing _ _ _ _ _ Hs) as Hc;
    (destruct (decide (g = top)) as [->|Hne];
     [destruct (front_top top J a A B Hc) as (-> & -> & -> & Hpe)|
      assert (g < top)%nat as Hlt by (destruct Hc as [Hh _ _ _ _]; cbn in Hh; rewrite Forall_cons in Hh; destruct Hh as [[? _] _]; lia)]).
  1,3: cbn [queue entry fmap list_fmap app root_climb fst snd]; rewrite Hpe; destruct Hs as [_ HA _ Hi Hr]; unfold terms_ok in HA; rewrite Forall_singleton in HA;
    (split; [done|]); (split; [done|]); intros i x Hx;
    (destruct (Hr i x Hx) as [(b & u & [= -> ->]%list_elem_of_singleton & Hcn)|(b & u & []%not_elem_of_nil & _)]; done).
  - unfold climb_left in Hf. cbn [length] in Hf. destruct (top - g)%nat eqn:E; [lia|]. nia.
  - destruct (root_climb_turn fuel g a t A B iter Hc Hlt) as [(A' & t' & iter' & Hm & Hcase & ->)|[_ ->]]; [|done].
    pose proof (climb_state_step Lv g a t A A' B iter t' iter' Hs Hlt Hm Hcase) as Hs'.
    assert (climb_left top g A' (B ++ [((a / 2)%Z, join g a t t')]) <= fuel)%nat as Hf'.
    { pose proof (climb_left_step top g (a, t) A A' B (a / 2, join g a t t') Hlt). destruct Hcase as [[-> _]|[-> _]]; cbn [length] in *; lia. }
    destruct A' as [|[a' u] A']; [|by apply IH]. apply climb_state_level in Hs'; [|by destruct B]. rewrite queue_level.
    rewrite climb_left_level in Hf'. destruct (B ++ [(a / 2, join g a t t')]) as [|[b u] B'] eqn:EB; [by destruct B|]. by apply IH.
Qed.

(** The leaves to prove, as positions with hashes. *)
Definition leafq (l : Z * T) : Position * hterm T := (pos_at 0 l.1, THash 1 l.2).
Lemma peak_sound Lv iter : Lv <> [] -> StronglySorted Z.lt Lv.*1 -> Forall (under top J 0) Lv.*1 -> Forall term_ok iter ->
  climb_result Lv (calculate_root_for_peak (pos_at top J) (leafq <$> Lv) iter).
Proof.
  intros Hne Hs Hu Hi.
  assert (climb_result Lv (root_climb (climb_fuel (leafq <$> Lv)) (pos_at top J) (leafq <$> Lv) iter)) as Hclimb.
  { set (A := (fun l => (l.1, THash 1 l.2)) <$> Lv : list (Z * hterm T)).
    assert (A.*1 = Lv.*1) as HA by (subst A; rewrite <-list_fmap_compose; done).
    assert (leafq <$> Lv = queue 0 A []) as ->.
    { unfold queue. cbn [fmap list_fmap]. rewrite app_nil_r. subst A. rewrite <-list_fmap_compose. done. }
    assert (length A = length Lv) as Hlen by (subst A; apply length_fmap).
    assert (climb_state Lv 0 A [] iter) as Hst.
    { split; [| |constructor|done|].
      - rewrite HA. split; [done|constructor|done|constructor|by intros a b _ ?%not_elem_of_nil].
      - subst A. apply Forall_fmap. by apply Forall_true.
      - intros i x Hx. left. exists i, (THash 1 x). split; [|done]. subst A. by apply (list_elem_of_fmap_2 (fun l => (l.1, THash 1 l.2)) Lv (i, x)). }
    pose proof top_62. assert (climb_left top 0 A [] <= climb_fuel (queue 0 A []))%nat as Hf.
    { unfold climb_left, climb_fuel, queue. rewrite app_nil_r, length_fmap. cbn [length]. nia. }
    destruct A as [|[a t] A]; [by destruct Lv|]. by apply root_climb_sound. }
  unfold calculate_root_for_peak. destruct Lv as [|[i x] [|l Lv]]; [done| |done]. cbn [fmap list_fmap leafq fst snd].
  destruct (pos_eq (pos_at 0 i) (pos_at top J)) eqn:Ep; [|exact Hclimb].
  cbn [fmap list_fmap fst] in Hu. rewrite Forall_singleton in Hu. pose proof (under_fits top J HJ Htop 0 i Hu) as [Hf _]. pose proof (under_fits top J HJ Htop _ _ (top_under top J)) as [Hft _].
  rewrite pos_eq_at in Ep by done. apply bool_decide_eq_true in Ep as [Et ->]. split; [done|]. split; [done|].
  intros i' x' [= -> ->]%list_elem_of_singleton. by rewrite <-Et.
Qed.
End Peak.

(** ** Peaks *)

(** A hash that verification puts together: the tree that it is for, those that are
    bagged with it unseen, the leaves below it. *)
Record group := mk_group { g_tree : nat * Z; g_extra : list (nat * Z); g_leaves : list (Z * T); g_term : hterm T }.
Definition g_trees (gs : list group) : list (nat * Z) := gs ≫= fun g => g_tree g :: g_extra g.
Definition all_below (gs : list group) : list (Z * T) := gs ≫= g_leaves.
Definition group_ok (g : group) : Prop :=
  term_ok (g_term g) /\ forall i x, (i, x) ∈ g_leaves g -> contains (g_term g) (g_tree g).1 (g_tree g).2 i x.
Definition g_count (g : group) : Z := leaves_of (g_tree g :: g_extra g).
Definition g_entries (gs : list group) : list (hterm T * Z) := (fun g => (g_term g, g_count g)) <$> gs.
Fixpoint bag_term (gs : list group) : hterm T :=
  match gs with
  | [] => TEmpty 0
  | [g] => g_term g
  | g :: gs => TMerge (leaves_of (g_trees (g :: gs))) (g_term g) (bag_term gs)
  end.
Lemma bag_term_cons g gs : gs <> [] -> bag_term (g :: gs) = TMerge (leaves_of (g_trees (g :: gs))) (g_term g) (bag_term gs).
Proof. by destruct gs. Qed.
Lemma g_trees_cons g gs : g_trees (g :: gs) = g_tree g :: g_extra g ++ g_trees gs.
Proof. done. Qed.
Lemma bagging_groups gs : gs <> [] -> leaves_of (g_trees gs) < 2 ^ 64 ->
  bagging_loop (rev (g_entries gs)) None = Some (bag_term gs, leaves_of (g_trees gs)).
Proof.
  induction gs as [|g gs IH]; intros Hne Hb; [done|]. unfold g_entries. cbn [fmap list_fmap rev]. rewrite bagging_loop_app.
  rewrite g_trees_cons in *. change (g_tree g :: g_extra g ++ g_trees gs) with ((g_tree g :: g_extra g) ++ g_trees gs) in *.
  rewrite leaves_of_app in *. fold (g_count g) in *. pose proof (leaves_of_nonneg (g_tree g :: g_extra g)) as Hc. fold (g_count g) in Hc.
  pose proof (leaves_of_nonneg (g_trees gs)). destruct (decide (gs = [])) as [->|Hgs].
  { cbn [fmap list_fmap rev bagging_loop bag_term g_trees mbind list_bind leaves_of]. by rewrite Z.add_0_r. }
  fold (g_entries gs). rewrite IH by (done || lia). cbn [bagging_loop]. rewrite bag_term_cons by done. unfold Usize.add. rewrite usize_small by lia.
  rewrite g_trees_cons. change (g_tree g :: g_extra g ++ g_trees gs) with ((g_tree g :: g_extra g) ++ g_trees gs).
  rewrite leaves_of_app. fold (g_count g). rewrite (Z.add_comm (g_count g)). done.
Qed.
End Contains.
