(* ===== verification/MmrVerify.v ===== *)
(** * Verification of proofs

    The hashes that verification bags, compared with the trees of the range: the claimed
    number of leaves can differ only where no leaf is shown.  So [Proof::verify] is sound,
    and so are the proofs of historic transactions and of the number of leaves. *)

From S2P Require Import Prelude Coin AccountTypes Codec TxContent Block Mmr MmrPosition.
From S2P Require Import MmrPeaks MmrSpec MmrClimb MmrTerm MmrSound.

(** ** The first of the trees *)

Lemma trees_head k start n : aligned k start -> 0 < n < 2 ^ Z.of_nat k ->
  exists h, (h < k)%nat /\ 2 ^ Z.of_nat h <= n < 2 * 2 ^ Z.of_nat h /\ aligned h (start + 2 ^ Z.of_nat h) /\ 0 <= start / 2 ^ Z.of_nat h /\
    start = 2 ^ Z.of_nat h * (start / 2 ^ Z.of_nat h) /\
    trees k start n = (h, start / 2 ^ Z.of_nat h) :: trees h (start + 2 ^ Z.of_nat h) (n - 2 ^ Z.of_nat h).
Proof.
  revert start. induction k as [|k IH]; intros start Ha Hn; [cbn in Hn; lia|]. destruct (aligned_S _ _ Ha) as (Ha1 & Ha2 & q & Hq & Hd & Hs).
  rewrite pow2_S in Hn. cbn [trees]. destruct (Z.leb_spec (2 ^ Z.of_nat k) n) as [Hle|Hlt].
  - exists k. split_and!; [lia..|done| |rewrite Hd; lia|done]. rewrite Hd. lia.
  - destruct (IH start Ha1 ltac:(lia)) as (h & Hh & Hrest). exists h. split; [lia|done].
Qed.
Lemma same_power (h h' : nat) : 2 ^ Z.of_nat h <= 2 ^ Z.of_nat h' < 2 * 2 ^ Z.of_nat h -> h = h'.
Proof. rewrite <-pow2_S. intros [H1 H2]. apply Z.pow_le_mono_r_iff in H1; [|lia..]. apply Z.pow_lt_mono_r_iff in H2; lia. Qed.

Section Bags.
Context `{BEnv : BlockEnv} {T : Type} `{Item T}.
Variable xs : list T.
Abbreviation f := (leaf_hash (H := hterm T) xs).
Implicit Types (g : @group T) (gs : list (@group T)).

(** The trees of the range, bagged. *)
Fixpoint tree_term (ts : list (nat * Z)) : hterm T :=
  match ts with
  | [] => TEmpty 0
  | [t] => node_hash f t.1 t.2
  | t :: ts => TMerge (leaves_of (t :: ts)) (node_hash f t.1 t.2) (tree_term ts)
  end.
Lemma tree_term_cons t ts : ts <> [] -> tree_term (t :: ts) = TMerge (leaves_of (t :: ts)) (node_hash f t.1 t.2) (tree_term ts).
Proof. by destruct ts. Qed.
Definition tree_group (t : nat * Z) : group := mk_group t [] [] (node_hash f t.1 t.2).
Lemma tree_groups ts : g_trees (tree_group <$> ts) = ts /\ bag_term (tree_group <$> ts) = tree_term ts /\
  g_entries (tree_group <$> ts) = tree_items f ts.
Proof.
  induction ts as [|t ts (IH1 & IH2 & IH3)]; [done|]. split_and!.
  - rewrite fmap_cons, g_trees_cons. cbn [tree_group g_tree g_extra app]. by rewrite IH1.
  - destruct ts as [|t' ts]; [done|]. rewrite fmap_cons, bag_term_cons, tree_term_cons, <-IH2 by done. rewrite g_trees_cons, IH1. done.
  - unfold g_entries, tree_items in *. rewrite !fmap_cons, IH3. f_equal. destruct t as [h j]. cbn [tree_group g_term g_count g_tree g_extra leaves_of fst snd].
    by rewrite Z.add_0_r.
Qed.
Lemma reference_tree_term : 0 < Z.of_nat (length xs) < 2 ^ 62 -> reference_root xs = tree_term (trees_of (Z.of_nat (length xs))).
Proof.
  intros Hn. pose proof (bagging_root (H := hterm T) xs Hn) as Hb. unfold bagging in Hb.
  destruct (tree_groups (trees_of (Z.of_nat (length xs)))) as (Ht & Hterm & He). rewrite <-He in Hb.
  rewrite bagging_groups, Hterm in Hb; [by injection Hb as <-| |rewrite Ht, all_leaves; lia].
  intros E. apply fmap_nil_inv in E. pose proof (all_leaves (Z.of_nat (length xs)) ltac:(lia)) as Hl. rewrite E in Hl. cbn in Hl. lia.
Qed.
Lemma node_prefix h j : 0 <= j -> 2 ^ Z.of_nat h * (j + 1) <= Z.of_nat (length xs) -> tprefix (node_hash f h j) = Some (2 ^ Z.of_nat h).
Proof.
  intros Hj Hle. destruct h as [|h]; [|done]. cbn [node_hash]. change (2 ^ Z.of_nat 0) with 1 in *. unfold leaf_hash.
  destruct (xs !! Z.to_nat j) as [x|] eqn:E; [done|]. apply lookup_ge_None in E. lia.
Qed.
Lemma tree_term_prefix k start n : aligned k start -> 0 < n < 2 ^ Z.of_nat k -> start + n <= Z.of_nat (length xs) ->
  tprefix (tree_term (trees k start n)) = Some n.
Proof.
  intros Ha Hn Hle. pose proof (leaves_of_trees k start n ltac:(lia)) as Hl. destruct (trees_head k start n Ha Hn) as (h & Hh & Hb & Ha' & Hj & Hs & E).
  rewrite E in *. destruct (decide (n = 2 ^ Z.of_nat h)) as [->|Hne].
  - rewrite Z.sub_diag, trees_zero. cbn [tree_term fst snd]. apply node_prefix; [done|]. lia.
  - rewrite tree_term_cons; [cbn [tprefix]; by rewrite Hl|]. intros E'. rewrite E' in Hl. cbn [leaves_of] in Hl. lia.
Qed.

(** ** Groups against trees *)

Definition shown (g : @group T) : Prop :=
  forall i x, (i, x) ∈ g_leaves g -> exists y, xs !! Z.to_nat i = Some y /\ item_bytes x = item_bytes y.
Lemma group_prefix g : group_ok g -> g_leaves g = [] \/ tprefix (g_term g) = Some (2 ^ Z.of_nat (g_tree g).1).
Proof.
  intros [_ Hc]. destruct (g_leaves g) as [|[i x] l]; [by left|right]. eapply contains_prefix, (Hc i x). by left.
Qed.
Lemma groups_positive gs : gs <> [] -> 0 < leaves_of (g_trees gs).
Proof.
  destruct gs as [|g gs]; [done|]. intros _. rewrite g_trees_cons. destruct (g_tree g) as [h j]. cbn [leaves_of]. rewrite leaves_of_app.
  pose proof (pow2_pos h). pose proof (leaves_of_nonneg (g_extra g)). pose proof (leaves_of_nonneg (g_trees gs)). lia.
Qed.
(** The term of several groups has the prefix of their leaves, a single one that of its tree. *)
Lemma bag_prefix gs : gs <> [] -> Forall group_ok gs ->
  Forall (fun g => g_leaves g = []) gs \/ exists p, tprefix (bag_term gs) = Some p /\ 0 < p <= leaves_of (g_trees gs).
Proof.
  intros Hne Hok. destruct gs as [|g [|g' gs]]; [done| |].
  - rewrite Forall_singleton in *. destruct (group_prefix g Hok) as [|Hp]; [by left|right]. exists (2 ^ Z.of_nat (g_tree g).1). split; [done|].
    cbn [g_trees mbind list_bind]. destruct (g_tree g) as [h j]. cbn [leaves_of fst]. rewrite app_nil_r. cbn [leaves_of]. pose proof (leaves_of_nonneg (g_extra g)). pose proof (pow2_pos h). lia.
  - right. rewrite bag_term_cons by done. eexists. split; [done|]. pose proof (groups_positive (g :: g' :: gs)). split; [auto|lia].
Qed.
Lemma one_tree k start (h : nat) : aligned k start -> 2 ^ Z.of_nat h < 2 ^ Z.of_nat k -> trees k start (2 ^ Z.of_nat h) = [(h, start / 2 ^ Z.of_nat h)].
Proof.
  intros Ha Hk. pose proof (pow2_pos h). destruct (trees_head k start (2 ^ Z.of_nat h) Ha) as (h' & _ & Hb & _ & _ & _ & ->); [lia|].
  apply same_power in Hb as ->. by rewrite Z.sub_diag, trees_zero.
Qed.
Lemma shown_nil g : g_leaves g = [] -> shown g.
Proof. intros E i x Hx. rewrite E in Hx. by apply not_elem_of_nil in Hx. Qed.
Lemma shown_match g h j : group_ok g -> g_tree g = (h, j) -> 0 <= j -> matches (g_term g) (node_hash f h j) -> shown g.
Proof. intros [_ Hc] Hg Hj Hm i x Hx. rewrite Hg in Hc. by apply (contains_matches xs (g_term g) h j); [|apply Hc|]. Qed.
(** Groups whose term matches the trees of the range show only its items. *)
Lemma groups_shown gs k start c r : aligned k start -> 0 < c < 2 ^ Z.of_nat k -> 0 < r < 2 ^ Z.of_nat k -> start + r <= Z.of_nat (length xs) ->
  gs <> [] -> g_trees gs = trees k start c -> Forall group_ok gs -> matches (bag_term gs) (tree_term (trees k start r)) -> Forall shown gs.
Proof.
  revert k start c r. induction gs as [|g gs IH]; intros k start c r Ha Hc Hr Hle Hne Ht Hok Hm; [done|].
  destruct (trees_head k start c Ha Hc) as (h & Hh & Hb & Ha' & Hj & Hs & Et). rewrite g_trees_cons, Et in Ht. injection Ht as Hg Ht.
  pose proof (tree_term_prefix k start r Ha Hr Hle) as Hpr. rewrite Forall_cons in Hok. destruct Hok as [Hokg Hok].
  destruct (decide (gs = [])) as [->|Hgs].
  - apply Forall_singleton. cbn [bag_term] in Hm. destruct (group_prefix g Hokg) as [Hnil|Hp]; [by apply shown_nil|].
    rewrite Hg in Hp. pose proof (matches_prefix _ _ _ Hm Hp) as Hp'. rewrite Hp' in Hpr. injection Hpr as Hpr. subst r.
    rewrite one_tree in Hm by (done || lia). cbn [tree_term fst snd] in Hm. by apply (shown_match g h (start / 2 ^ Z.of_nat h)).
  - assert (leaves_of (g_trees (g :: gs)) = c) as Hcount by (rewrite g_trees_cons, Hg, Ht, <-Et; apply leaves_of_trees; lia).
    rewrite bag_term_cons, Hcount in Hm by done. pose proof (matches_prefix _ _ _ Hm eq_refl) as Hp'. rewrite Hp' in Hpr. injection Hpr as Hpr. subst r.
    assert (leaves_of (trees h (start + 2 ^ Z.of_nat h) (c - 2 ^ Z.of_nat h)) = c - 2 ^ Z.of_nat h) as Hcr by (apply leaves_of_trees; lia).
    pose proof (groups_positive gs Hgs) as Hpos.
    rewrite <-Ht, leaves_of_app in Hcr. pose proof (leaves_of_nonneg (g_extra g)).
    rewrite Et, tree_term_cons in Hm by (intros E; rewrite E in Ht; apply app_nil in Ht as [_ Ht]; rewrite Ht in Hpos; cbn in Hpos; lia).
    cbn [fst snd] in Hm. apply matches_merge in Hm as [Hml Hmr].
    apply Forall_cons. split; [by apply (shown_match g h (start / 2 ^ Z.of_nat h))|].
    destruct (decide (g_extra g = [])) as [Hex|Hex].
    + rewrite Hex in Ht. cbn [app] in Ht. apply (IH h (start + 2 ^ Z.of_nat h) (c - 2 ^ Z.of_nat h) (c - 2 ^ Z.of_nat h)); [done|..|done|done|done|done];
        rewrite Hex in Hcr; cbn [leaves_of] in Hcr; lia.
    + destruct (bag_prefix gs Hgs Hok) as [Hnil|(p & Hp & _ & Hple)].
      { eapply Forall_impl; [exact Hnil|]. intros g'. apply shown_nil. }
      exfalso. pose proof (matches_prefix _ _ _ Hmr Hp) as Hp2. rewrite tree_term_prefix in Hp2; [|done|lia..]. injection Hp2 as <-.
      destruct (g_extra g) as [|[h' j'] ex]; [done|]. cbn [leaves_of] in Hcr. pose proof (pow2_pos h'). pose proof (leaves_of_nonneg ex). lia.
Qed.
End Bags.

(** ** The loop over the peaks *)

Section Loop.
Context `{BEnv : BlockEnv} {T : Type} `{Item T}.
Implicit Types (g : @group T) (gs : list (@group T)) (ls : list (Z * T)) (iter : list (hterm T)).

Lemma split_leaves h j ls : 0 <= j -> Forall (fun i => 0 <= i) ls.*1 -> exists l1 l2, ls = l1 ++ l2 /\
  split_at_peak fst (pos_at h j) (leafq <$> ls) = (leafq <$> l1, leafq <$> l2) /\ Forall (fun i => i < 2 ^ Z.of_nat h * (j + 1)) l1.*1 /\
  (StronglySorted Z.lt ls.*1 -> Forall (fun i => 2 ^ Z.of_nat h * (j + 1) <= i) l2.*1).
Proof.
  intros Hj. induction ls as [|[i x] ls IH]; intros Hi; [exists [], []; split_and!; [done|done|constructor|constructor]|].
  cbn [fmap list_fmap fst] in Hi. rewrite Forall_cons in Hi. destruct Hi as [Hi0 Hi]. cbn [fmap list_fmap split_at_peak leafq fst snd index pos_at].
  pose proof (leaf_before_node i h j Hi0 Hj) as Hlb. destruct (Z.ltb_spec (node_index h j) (node_index 0 i)) as [Hlt|Hge].
  - exists [], ((i, x) :: ls). split_and!; [done|done|constructor|]. intros Hs. cbn [fmap list_fmap fst] in *. apply StronglySorted_inv in Hs as [_ Hs].
    assert (2 ^ Z.of_nat h * (j + 1) <= i) by lia. constructor; [done|]. eapply Forall_impl; [exact Hs|]. intros i' Hi'. cbn in Hi'. lia.
  - destruct (IH Hi) as (l1 & l2 & -> & E & H1 & H2). exists ((i, x) :: l1), l2. unfold fmap in E |- *. rewrite E. split_and!; [done|done| |].
    + cbn [list_fmap fst]. constructor; [by apply Hlb|done].
    + intros Hs. apply H2. cbn [list_fmap fst app] in Hs. by apply StronglySorted_inv in Hs as [Hs _].
Qed.
Lemma g_trees_app gs gs' : g_trees (gs ++ gs') = g_trees gs ++ g_trees gs'.
Proof. unfold g_trees. apply bind_app. Qed.
Lemma g_trees_one g : g_trees [g] = g_tree g :: g_extra g.
Proof. rewrite g_trees_cons. by rewrite app_nil_r. Qed.
Lemma all_below_app gs gs' : all_below (gs ++ gs') = all_below gs ++ all_below gs'.
Proof. unfold all_below. apply bind_app. Qed.
Lemma all_below_one g : all_below [g] = g_leaves g.
Proof. unfold all_below. cbn. by rewrite app_nil_r. Qed.
Lemma entries_app gs g : g_entries (gs ++ [g]) = g_entries gs ++ [(g_term g, g_count g)].
Proof. unfold g_entries. by rewrite fmap_app. Qed.

(** The last group takes in a tree. *)
Definition absorb (t : nat * Z) (g : @group T) : @group T := mk_group (g_tree g) (g_extra g ++ [t]) (g_leaves g) (g_term g).
Lemma absorb_last gs g h j : leaves_of (g_trees (gs ++ [g])) + 2 ^ Z.of_nat h < 2 ^ 64 ->
  add_to_last (2 ^ Z.of_nat h) (g_entries (gs ++ [g])) = Some (g_entries (gs ++ [absorb (h, j) g])).
Proof.
  rewrite g_trees_app, g_trees_one, leaves_of_app. intros Hb. pose proof (leaves_of_nonneg (g_trees gs)). pose proof (pow2_pos h).
  pose proof (leaves_of_nonneg (g_tree g :: g_extra g)). rewrite !entries_app. unfold add_to_last. rewrite rev_app_distr. cbn [rev app].
  rewrite rev_involutive. unfold Usize.add, g_count in *. rewrite usize_small by lia. do 4 f_equal. cbn [absorb g_tree g_extra].
  change (g_tree g :: g_extra g ++ [(h, j)]) with ((g_tree g :: g_extra g) ++ [(h, j)]). rewrite leaves_of_app. cbn [leaves_of]. lia.
Qed.

Section Claimed.
Variable N : Z.
Hypothesis HN : 0 < N < 2 ^ 62.

Definition loop_result gs ls (o : R (list (Position * hterm T) * list (hterm T) * list (hterm T * Z))) : Prop :=
  match o with
  | Ok (rest, iter, hashes) => exists gs' ls', rest = leafq <$> ls' /\ hashes = g_entries gs' /\ Forall group_ok gs' /\
      all_below gs' ++ ls' = all_below gs ++ ls /\ (gs' = [] \/ g_trees gs' = trees_of N)
  | Err e => e = InvalidProof
  | Panic => False
  end.
Record loop_state gs (ts : list (nat * Z)) ls iter : Prop := {
  ls_trees : g_trees gs ++ ts = trees_of N;
  ls_groups : Forall group_ok gs;
  ls_iter : Forall term_ok iter;
  ls_sorted : StronglySorted Z.lt ls.*1;
  ls_after : Forall (fun i => leaves_of (g_trees gs) <= i) ls.*1;
}.
Lemma sorted_app (l1 l2 : list Z) : StronglySorted Z.lt (l1 ++ l2) -> StronglySorted Z.lt l1 /\ StronglySorted Z.lt l2.
Proof. intros Hs. split; [by eapply StronglySorted_app_1_l|by eapply StronglySorted_app_1_r]. Qed.
(** One peak: the leaves below it, and the state for the rest. *)
Lemma add_group gs h j lv t : let gs' := gs ++ [mk_group (h, j) [] lv t] in
  g_trees gs' = g_trees gs ++ [(h, j)] /\ g_entries gs' = g_entries gs ++ [(t, 2 ^ Z.of_nat h)] /\ all_below gs' = all_below gs ++ lv.
Proof.
  cbv zeta. rewrite g_trees_app, g_trees_one, entries_app, all_below_app, all_below_one. unfold g_count. cbn [g_tree g_extra g_term g_leaves leaves_of].
  by rewrite Z.add_0_r.
Qed.
Lemma loop_step gs h j ts ls iter : loop_state gs ((h, j) :: ts) ls iter ->
  0 <= j /\ 2 ^ Z.of_nat h * (j + 1) <= 2 ^ 62 /\ leaves_of (g_trees gs) + 2 ^ Z.of_nat h <= 2 ^ 62 /\
  exists l1 l2, ls = l1 ++ l2 /\ split_at_peak fst (pos_at h j) (leafq <$> ls) = (leafq <$> l1, leafq <$> l2) /\
    StronglySorted Z.lt l1.*1 /\ Forall (under h j 0) l1.*1 /\
    forall gs' iter', g_trees gs' = g_trees gs ++ [(h, j)] -> Forall group_ok gs' -> Forall term_ok iter' -> loop_state gs' ts l2 iter'.
Proof.
  intros [Ht Hg Hi Hs Ha]. destruct (tree_at N ltac:(lia) _ _ _ _ (eq_sym Ht)) as (Hl & Hj & _ & Hle & _ & _ & _). pose proof (pow2_pos h) as Hph.
  split; [done|]. split; [lia|]. split; [lia|]. pose proof (leaves_of_nonneg (g_trees gs)) as Hnn.
  destruct (split_leaves h j ls Hj) as (l1 & l2 & -> & E & H1 & H2).
  { eapply Forall_impl; [exact Ha|]. intros i Hi'. cbn in Hi'. lia. }
  exists l1, l2. specialize (H2 Hs). rewrite fmap_app in Hs, Ha. apply sorted_app in Hs as [Hs1 Hs2]. apply Forall_app in Ha as [Ha1 Ha2].
  split_and!; [done|done|done| |].
  - rewrite Forall_forall in *. intros i Hx. apply under_leaf. specialize (H1 i Hx). specialize (Ha1 i Hx). lia.
  - intros gs' iter' Ht' Hg' Hi'. split; [by rewrite Ht', <-app_assoc|done|done|done|].
    rewrite Ht', leaves_of_app. cbn [leaves_of]. eapply Forall_impl; [exact H2|]. intros i Hx. cbn in Hx. lia.
Qed.
Lemma loop_result_cons gs gs' l1 l2 o : all_below gs' = all_below gs ++ l1 -> loop_result gs' l2 o -> loop_result gs (l1 ++ l2) o.
Proof.
  intros E. destruct o as [[[rest iter] hs]|e|]; [|done..]. intros (gs2 & ls2 & H1 & H2 & H3 & H4 & H5). exists gs2, ls2.
  split_and!; [done..| |done]. by rewrite H4, E, app_assoc.
Qed.
Lemma loop_sound ts gs ls iter : loop_state gs ts ls iter ->
  loop_result gs ls (peak_roots_loop (at_ <$> ts) (leafq <$> ls) iter (g_entries gs)).
Proof.
  revert gs ls iter. induction ts as [|[h j] ts IH]; intros gs ls iter Hst.
  { destruct Hst as [Ht Hg _ _ _]. exists gs, ls. rewrite app_nil_r in Ht. split_and!; [done..|by right]. }
  destruct (loop_step gs h j ts ls iter Hst) as (Hj & Hle & Hcount & l1 & l2 & -> & E & Hs1 & Hu & Hnext). destruct Hst as [Ht Hg Hi _ _].
  assert ((h < 64)%nat) as Hh. { pose proof (top_62 h j Hj Hle). lia. }
  cbn [fmap list_fmap]. change (at_ (h, j)) with (pos_at h j). cbn [peak_roots_loop]. unfold fmap in E |- *. rewrite E. rewrite leaves_below_at by done.
  destruct l1 as [|l l1]; [destruct iter as [|node iter]|]; cbn [list_fmap].
  - destruct gs as [|g gs _] using rev_ind; [exists [], l2; split_and!; [done..|by left]|].
    rewrite absorb_last with (j := j) by lia. apply (loop_result_cons _ (gs ++ [absorb (h, j) g]) []).
    { rewrite !all_below_app, !all_below_one, app_nil_r. done. }
    apply IH, Hnext; [|apply Forall_app in Hg as [Hg1 Hg2]; apply Forall_app; split; [done|]; by rewrite Forall_singleton in *|done].
    rewrite !g_trees_app, !g_trees_one. cbn [absorb g_tree g_extra]. by rewrite app_comm_cons, app_assoc.
  - rewrite Forall_cons in Hi. destruct (add_group gs h j [] node) as (Htr & <- & Hab). apply (loop_result_cons _ (gs ++ [mk_group (h, j) [] [] node])); [done|].
    apply IH, Hnext; [done| |apply Hi]. apply Forall_app. split; [done|]. apply Forall_singleton. split; [apply Hi|]. by intros i x ?%not_elem_of_nil.
  - pose proof (peak_sound h j Hj Hle (l :: l1) iter ltac:(done) Hs1 Hu Hi) as Hp. unfold fmap in Hp. cbn [list_fmap] in Hp.
    destruct (calculate_root_for_peak (pos_at h j) (leafq l :: list_fmap _ _ leafq l1) iter) as [[e iter']|err|]; [|done..].
    destruct Hp as (Hok & Hi' & Hc). cbn [mbind outcome_bind]. destruct (add_group gs h j (l :: l1) e) as (Htr & <- & Hab).
    apply (loop_result_cons _ (gs ++ [mk_group (h, j) [] (l :: l1) e])); [done|]. apply IH, Hnext; [done| |done].
    apply Forall_app. split; [done|]. apply Forall_singleton. by split.
Qed.
End Claimed.
End Loop.

(** ** Roots of proofs *)

Section Roots.
Context `{BEnv : BlockEnv} {T : Type} `{Item T}.
Implicit Types (g : @group T) (gs : list (@group T)) (leaves : list (Z * T)).

Lemma leaf_position_ok (p : MmrProof (hterm T)) i x : 0 <= i -> mmr_size p <= 2 ^ 63 - 1 ->
  leaf_position p (i, x) = Err ProveInvalidLeaves \/ leaf_position p (i, x) = Ok (leafq (i, x)).
Proof.
  intros Hi Hsz. unfold leaf_position. destruct (Z.leb_spec (mmr_size p) i) as [|Hlt]; [by left|]. cbn [err_if mbind outcome_bind].
  rewrite leaf_number_index, position_from_node by (lia || apply fits_leaf_number; lia). cbn [mbind outcome_bind].
  destruct (mmr_size p <=? index (pos_at 0 i)); [by left|right]. cbn [err_if mbind outcome_bind]. by rewrite leaves_below_at by lia.
Qed.
Lemma leaf_positions_ok (p : MmrProof (hterm T)) leaves : Forall (fun i => 0 <= i) leaves.*1 -> mmr_size p <= 2 ^ 63 - 1 ->
  mapM (leaf_position p) leaves = Err ProveInvalidLeaves \/ mapM (leaf_position p) leaves = Ok (leafq <$> leaves).
Proof.
  intros Hi Hsz. induction leaves as [|[i x] leaves IH]; [by right|]. cbn [fmap list_fmap fst] in Hi. rewrite Forall_cons in Hi. destruct Hi as [Hi0 Hi].
  change (mapM (leaf_position p) ((i, x) :: leaves)) with
    (b ← leaf_position p (i, x); k ← mapM (leaf_position p) leaves; @mret R outcome_ret _ (b :: k)).
  destruct (leaf_position_ok p i x Hi0 Hsz) as [->| ->]; [by left|]. cbn [mbind outcome_bind]. destruct (IH Hi) as [->| ->]; [by left|by right].
Qed.

Definition number_le (a b : Z * T) : Prop := leaf_le (leafq a) (leafq b).
#[local] Instance number_le_dec : RelDecision number_le.
Proof. intros a b. unfold number_le. apply _. Defined.
#[local] Instance number_le_total : Total number_le.
Proof. intros a b. unfold number_le, leaf_le, pos_le. lia. Qed.
#[local] Instance number_le_trans : Transitive number_le.
Proof. intros a b c. unfold number_le, leaf_le, pos_le. lia. Qed.
Lemma strictly_sorted ls : Forall (fun i => 0 <= i) ls.*1 -> StronglySorted number_le ls -> repeated (leafq <$> ls) = false -> StronglySorted Z.lt ls.*1.
Proof.
  induction ls as [|a ls IH]; intros Hi Hs Hr; cbn [fmap list_fmap] in *; [constructor|]. rewrite Forall_cons in Hi. destruct Hi as [Ha Hi].
  apply StronglySorted_inv in Hs as [Hs Hle]. destruct ls as [|b ls]; [repeat constructor|]. cbn [repeated] in Hr. apply orb_false_iff in Hr as [Hne Hr].
  specialize (IH Hi Hs Hr). constructor; [done|]. apply Forall_cons in Hle as [Hab _]. apply Forall_cons in Hi as [Hb _]. cbn [fmap list_fmap] in *. apply Forall_cons.
  assert (a.1 < b.1) as Hlt.
  { unfold number_le, leaf_le, pos_le, leafq in Hab. unfold pos_eq, leafq in Hne. cbn [fst index pos_at] in *. rewrite !node_index_leaf in *.
    cbv beta in Ha, Hb. rewrite tree_size_le in Hab by lia. apply Z.eqb_neq in Hne. destruct (decide (a.1 = b.1)) as [E|]; [by rewrite E in Hne|lia]. }
  split; [done|]. apply StronglySorted_inv in IH as [_ IH]. eapply Forall_impl; [exact IH|]. intros z Hz. cbn in Hz. lia.
Qed.

(** What a successful computation of a root has put together. *)
Definition root_result leaves (o : R (hterm T)) : Prop :=
  match o with
  | Ok t => exists gs N, 0 < N < 2 ^ 62 /\ gs <> [] /\ g_trees gs = trees_of N /\ Forall group_ok gs /\ t = bag_term gs /\ all_below gs ≡ₚ leaves
  | Err _ => True
  | Panic => False
  end.
Lemma bagging_result gs N leaves : 0 < N < 2 ^ 62 -> (gs = [] \/ g_trees gs = trees_of N) -> Forall group_ok gs -> all_below gs ≡ₚ leaves ->
  root_result leaves (bagging (rev (g_entries gs))).
Proof.
  intros HN Ht Hok Hp. destruct (decide (gs = [])) as [->|Hne]; [done|]. destruct Ht as [|Ht]; [done|]. unfold bagging.
  rewrite bagging_groups by (done || rewrite Ht, all_leaves; lia). exists gs, N. split; [done|]. by split_and!.
Qed.
Lemma one_leaf (x : T) : root_result [(0, x)] (bagging (rev [(THash 1 x, 1)])).
Proof.
  apply (bagging_result [mk_group (0%nat, 0) [] [(0, x)] (THash 1 x)] 1); [lia| | |done].
  - right. rewrite g_trees_one, trees_of_eq. cbn [g_tree g_extra]. pose proof (one_tree max_height 0 0 (aligned_0 _)) as Ho.
    change (2 ^ Z.of_nat 0) with 1 in Ho. rewrite pow_max_height in Ho. rewrite Ho by done. done.
  - apply Forall_singleton. split; [done|]. by intros i y [= -> ->]%list_elem_of_singleton.
Qed.
Lemma peak_roots_result (p : MmrProof (hterm T)) ls : 0 <= mmr_size p <= 2 ^ 63 - 1 -> Forall term_ok (nodes p) ->
  StronglySorted Z.lt ls.*1 -> Forall (fun i => 0 <= i) ls.*1 ->
  root_result ls (hs ← calculate_peak_roots p (leafq <$> ls); bagging (rev hs)).
Proof.
  intros Hsz Hok Hs Hi. unfold calculate_peak_roots.
  set (loop := ps ← peaks (mmr_size p); '(rest, proof_iter, peaks_hashes) ← peak_roots_loop ps (leafq <$> ls) (nodes p) [];
               err_if (negb (length rest =? 0)%nat || negb (length proof_iter =? 0)%nat) InvalidProof;; mret peaks_hashes).
  assert (root_result ls (hs ← loop; bagging (rev hs))) as Hloop.
  { subst loop. destruct (decide (mmr_size p = 0)) as [->|Hne].
    { change (peaks 0) with (@Ok Error (list Position) []). cbn [mbind outcome_bind peak_roots_loop]. by destruct (_ || _). }
    destruct (peaks_claimed (mmr_size p)) as (N & HN & _ & ->); [lia|]. cbn [mbind outcome_bind].
    assert (loop_state N [] (trees_of N) ls (nodes p)) as Hst by (split; [done|constructor|done|done|exact Hi]).
    pose proof (loop_sound N HN (trees_of N) [] ls (nodes p) Hst) as Hl. change (g_entries []) with (@nil (hterm T * Z)) in Hl.
    destruct (peak_roots_loop (at_ <$> trees_of N) (leafq <$> ls) (nodes p) []) as [[[rest iter] hs]|e|]; [|done..].
    destruct Hl as (gs & ls' & -> & -> & Hg & Hab & Ht). cbn [mbind outcome_bind]. destruct ls' as [|l ls']; [|done].
    destruct (negb (length (leafq <$> []) =? 0)%nat || negb (length iter =? 0)%nat); [done|]. cbn [err_if mbind outcome_bind].
    apply (bagging_result gs N); [done..|]. rewrite app_nil_r in Hab. by rewrite Hab. }
  destruct ls as [|[i x] [|]]; [exact Hloop| |exact Hloop]. cbn [fmap list_fmap leafq fst snd] in *.
  destruct ((mmr_size p =? 1) && (index (pos_at 0 i) =? 0)) eqn:E; [|exact Hloop]. apply andb_true_iff in E as [_ E].
  apply Z.eqb_eq in E. cbn [index pos_at] in E. rewrite node_index_leaf in E. rewrite Forall_singleton in Hi.
  rewrite (tree_size_zero i Hi E). apply one_leaf.
Qed.
Lemma calculate_root_result (p : MmrProof (hterm T)) leaves : 0 <= mmr_size p -> Forall term_ok (nodes p) -> Forall (fun i => 0 <= i) leaves.*1 ->
  root_result leaves (calculate_root p leaves).
Proof.
  intros Hsz Hok Hi. unfold calculate_root. change MAX_MMR_SIZE with (2 ^ 63 - 1). destruct (Z.ltb_spec (2 ^ 63 - 1) (mmr_size p)) as [|Hle]; [done|].
  cbn [err_if mbind outcome_bind]. destruct (leaf_positions_ok p leaves Hi Hle) as [->| ->]; [done|]. cbn [mbind outcome_bind].
  rewrite (merge_sort_map leafq number_le leaf_le) by done. pose proof (merge_sort_Permutation number_le leaves) as Hperm.
  assert (Forall (fun i => 0 <= i) (merge_sort number_le leaves).*1) as Hi' by (by rewrite Hperm).
  pose proof (StronglySorted_merge_sort number_le leaves) as Hsort.
  destruct (repeated (leafq <$> merge_sort number_le leaves)) eqn:Hr; [done|]. cbn [err_if mbind outcome_bind].
  pose proof (peak_roots_result p (merge_sort number_le leaves) (conj Hsz Hle) Hok (strictly_sorted _ Hi' Hsort Hr) Hi') as Hres.
  destruct (calculate_peak_roots p (leafq <$> merge_sort number_le leaves)) as [hs|e|]; [|done..]. cbn [mbind outcome_bind] in *.
  destruct (bagging (rev hs)) as [t|e|]; [|done..]. destruct Hres as (gs & N & H1 & H2 & H3 & H4 & H5 & H6). exists gs, N. by rewrite Hperm in H6.
Qed.
End Roots.

(** ** Soundness *)

Section Soundness.
Context `{BEnv : BlockEnv} {T : Type} `{Item T}.
Implicit Types (g : @group T) (gs : list (@group T)) (leaves : list (Z * T)) (xs : list T).

(** The strings that are hashed for the root of a range and by verification. *)
Definition root_strings (xs : list T) : list (list Z) := term_strings (reference_root xs).
Definition verify_strings (p : MmrProof Z) (leaves : list (Z * T)) : list (list Z) :=
  match calculate_root (mk_proof (mmr_size p) (TOpaque <$> nodes p)) leaves with Ok t => term_strings t | _ => [] end.
(** The item of each leaf is the one with its number. *)
Definition leaves_shown (xs : list T) (leaves : list (Z * T)) : Prop :=
  forall i x, (i, x) ∈ leaves -> exists y, xs !! Z.to_nat i = Some y /\ item_bytes x = item_bytes y.
(** A proof and leaves as they come from the network. *)
Definition mmr_proof_ok (p : MmrProof Z) : Prop := 0 <= mmr_size p /\ Forall digest (nodes p).

Lemma perfect_known h xs : (h <= 62)%nat -> term_ok (perfect h xs) /\ known (perfect (H := hterm T) h xs).
Proof.
  revert xs. induction h as [|h IH]; intros xs Hh; cbn [perfect]; [by destruct xs|]. cbn [term_ok known merge hterm_merge].
  destruct (IH xs ltac:(lia)), (IH (drop (2 ^ h) xs) ltac:(lia)). split_and!; try done; [rewrite pow2_S; pose proof (pow2_pos h); lia|].
  apply Z.pow_lt_mono_r; lia.
Qed.
Lemma bagged_known k xs : (k <= 62)%nat -> Z.of_nat (length xs) < 2 ^ 62 -> term_ok (bagged k xs) /\ known (bagged (H := hterm T) k xs).
Proof.
  intros Hk. revert xs. induction k as [|k IH]; intros xs Hn; cbn [bagged]; [done|].
  destruct (2 ^ k =? length xs)%nat; [apply perfect_known; lia|]. destruct (Nat.ltb_spec (2 ^ k) (length xs)); [|apply IH; lia].
  cbn [term_ok known merge hterm_merge]. destruct (perfect_known k xs ltac:(lia)), (IH ltac:(lia) (drop (2 ^ k) xs)); [rewrite length_drop; lia|].
  pose proof (Nat.pow_nonzero 2 k). split_and!; try done; lia.
Qed.
Lemma reference_known xs : Z.of_nat (length xs) < 2 ^ 62 -> term_ok (reference_root xs) /\ known (reference_root (H := hterm T) xs).
Proof. unfold reference_root. destruct xs; [done|]. apply bagged_known. by rewrite max_height_62. Qed.
Lemma bag_term_ok gs : gs <> [] -> Forall group_ok gs -> leaves_of (g_trees gs) < 2 ^ 64 -> term_ok (bag_term gs).
Proof.
  induction gs as [|g gs IH]; intros Hne Hok Hb; [done|]. rewrite Forall_cons in Hok. destruct Hok as [[Ht _] Hok].
  destruct (decide (gs = [])) as [->|Hgs]; [done|]. rewrite bag_term_cons by done. rewrite g_trees_cons in *.
  pose proof (groups_positive gs Hgs) as Hpos. destruct (g_tree g) as [h j]. cbn [leaves_of term_ok] in *. rewrite leaves_of_app in *.
  pose proof (pow2_pos h). pose proof (leaves_of_nonneg (g_extra g)). split; [lia|]. split; [done|]. apply IH; [done|done|lia].
Qed.

Lemma terms_opaque (l : list Z) : Forall digest l -> Forall (@term_ok T) (TOpaque <$> l).
Proof. rewrite Forall_fmap. done. Qed.
(** A computed root that is the root of the range shows its leaves. *)
Lemma root_shows xs leaves t : Z.of_nat (length xs) < 2 ^ 62 -> root_result leaves (Ok t) -> eval t = reference_root xs ->
  leaves_shown xs leaves \/ collision blake2b (term_strings t) (root_strings xs).
Proof.
  intros Hn (gs & N & HN & Hne & Ht & Hok & -> & Hp) He. destruct (reference_known xs Hn) as [Hrok Hrk]. rewrite eval_reference_root in He.
  assert (term_ok (bag_term gs)) as Hbag by (apply bag_term_ok; [done|done|rewrite Ht, all_leaves; lia]).
  destruct (eval_matches _ _ Hbag Hrok Hrk He) as [Hm|Hc]; [left|by right].
  assert (Forall (shown xs) gs) as Hs.
  { destruct (decide (xs = [])) as [->|Hxs].
    - destruct (bag_prefix gs Hne Hok) as [Hnil|(q & Hq & Hq0 & _)].
      + eapply Forall_impl; [exact Hnil|]. intros g. apply shown_nil.
      + apply (matches_prefix _ _ _ Hm) in Hq. injection Hq as <-. lia.
    - assert (0 < Z.of_nat (length xs)) by (destruct xs; [done|cbn [length]; lia]). rewrite reference_tree_term, trees_of_eq in Hm by lia. rewrite trees_of_eq in Ht.
      eapply groups_shown; [apply aligned_0|rewrite pow_max_height; exact HN|rewrite pow_max_height|..|exact Hm]; [lia|lia|done|done|done]. }
  intros i x Hx. rewrite <-Hp in Hx. apply list_elem_of_bind in Hx as (g & Hx & Hg). rewrite Forall_forall in Hs. by apply (Hs g Hg).
Qed.
(** Verification against the empty root only looks at an empty proof. *)
Definition empty_proof (p : MmrProof Z) : bool := (mmr_size p =? 0) && (length (nodes p) =? 0)%nat.
Definition checked_strings (p : MmrProof Z) (leaves : list (Z * T)) : list (list Z) := be_bytes 8 0 :: verify_strings p leaves.
Definition verified (xs : list T) (p : MmrProof Z) (leaves : list (Z * T)) : Prop :=
  (empty_proof p = true /\ xs = []) \/ leaves_shown xs leaves \/ collision blake2b (checked_strings p leaves) (root_strings xs).
Lemma empty_root xs : Z.of_nat (length xs) < 2 ^ 62 -> reference_root (H := Z) xs = empty 0 -> xs = [] \/ collision blake2b [be_bytes 8 0] (root_strings xs).
Proof.
  intros Hn He. destruct (reference_known xs Hn) as [Hrok Hrk]. rewrite eval_reference_root in He.
  destruct (eval_matches (TEmpty 0) (reference_root xs)) as [Hm|Hc]; [done|done|done|done| |by right]. left.
  destruct (decide (xs = [])) as [->|Hxs]; [done|]. exfalso.
  assert (0 < Z.of_nat (length xs)) by (destruct xs; [done|cbn [length]; lia]). apply (matches_prefix _ _ 0) in Hm; [|done].
  rewrite reference_tree_term, trees_of_eq, tree_term_prefix in Hm; [injection Hm as Hm; lia|apply aligned_0|rewrite pow_max_height; lia|lia|lia].
Qed.
Lemma verify_shows xs p leaves : Z.of_nat (length xs) < 2 ^ 62 -> mmr_proof_ok p -> Forall (fun i => 0 <= i) leaves.*1 ->
  match verify p (reference_root xs) leaves with Ok true => verified xs p leaves | Panic => False | _ => True end.
Proof.
  intros Hn [Hsz Hd] Hi. unfold verify, verified, checked_strings, empty_proof. destruct (_ <? _); [done|]. cbn [err_if mbind outcome_bind].
  destruct ((mmr_size p =? 0) && (length (nodes p) =? 0)%nat) eqn:Ee.
  - case_bool_decide as He; [|done]. destruct (empty_root xs Hn He) as [->|Hc]; [by left|]. right. right.
    eapply collision_mono; [..|exact Hc]; [|done]. intros y ->%list_elem_of_singleton. by left.
  - rewrite eval_calculate_root. pose proof (calculate_root_result (mk_proof (mmr_size p) (TOpaque <$> nodes p)) leaves Hsz (terms_opaque _ Hd) Hi) as Hr.
    unfold verify_strings. destruct (calculate_root _ leaves) as [t|e|]; [|done..]. cbn [rmap mbind outcome_bind].
    unfold mret, outcome_ret. case_bool_decide as He; [|done]. right. destruct (root_shows xs leaves t Hn Hr He) as [Hs|Hc]; [by left|right].
    eapply collision_mono; [..|exact Hc]; [|done]. intros y Hy. by right.
Qed.
End Soundness.
