(* ===== verification/MmrComplete.v ===== *)
(** * Proofs that are made verify

    Proving and verifying climb the same queue: the hash that one takes from the store
    is the one that the other takes from the proof, and what is left of the proof is
    for the next peak.  So every proof that a range makes verifies against its root, or
    against the root it had when it was shorter. *)

From S2P Require Import Prelude Mmr MmrPosition MmrPeaks MmrSpec MmrClimb MmrTerm.
From S2P Require Import Coin AccountTypes Codec TxContent Block MmrSound MmrVerify.

Section Complete.
Context {H T St : Type} `{EqDecision H} `{Merge H} `{Hash H T} `{StoreLaws H St}.
Context (m : MerkleMountainRange St) (xs : list T).
Hypothesis Hm : holds m xs.
Let f : Z -> H := leaf_hash xs.

Lemma in_store h j : 0 <= j -> 2 ^ Z.of_nat h * (j + 1) <= Z.of_nat (length xs) -> st_get (store m) (node_index h j) = Some (node_hash f h j).
Proof. intros Hj Hle. destruct Hm as [_ Hall]. rewrite get_elems by (by apply node_index_nonneg). by apply Hall. Qed.

(** ** Below a peak *)

Section Peak.
Variables (top : nat) (J : Z).
Hypothesis HJ : 0 <= J.
Hypothesis Hin : 2 ^ Z.of_nat top * (J + 1) <= Z.of_nat (length xs).
Hypothesis Hn : Z.of_nat (length xs) < 2 ^ 62.

Let Htop : 2 ^ Z.of_nat top * (J + 1) <= 2 ^ 62.
Proof. lia. Qed.

Lemma under_in_store g a : under top J g a -> st_get (store m) (node_index g a) = Some (node_hash f g a).
Proof.
  intros Hu. pose proof (under_fits top J HJ Htop g a Hu) as [_ Ha]. destruct Hu as [Hg Hu]. apply in_store; [done|].
  rewrite (pow2_split top g Hg) in Hin. pose proof (pow2_pos g). nia.
Qed.
Definition right_hash (g : nat) (a : Z * H) : Prop := a.2 = node_hash f g a.1.
Definition joined (g : nat) (a : Z) : H := node_hash f (S g) (a / 2).
Lemma joined_eq g a : joined g a =
  if Z.odd a then merge (node_hash f g (other a)) (node_hash f g a) (2 ^ Z.of_nat (S g))
  else merge (node_hash f g a) (node_hash f g (other a)) (2 ^ Z.of_nat (S g)).
Proof.
  unfold joined, other. cbn [node_hash]. destruct (odd_cases a) as [[Ho Hd]|[Ho Hd]]; rewrite Ho.
  - by replace (2 * (a / 2)) with (a - 1) by lia; replace (a - 1 + 1) with a by lia.
  - by replace (2 * (a / 2)) with a by lia.
Qed.
(** One turn of both: the nodes that the proof gets are those that verification takes. *)
Lemma lockstep_turn fuel g a A B proof_nodes : climbing top J g (a :: A.*1) B.*1 -> (g < top)%nat -> Forall (right_hash g) A ->
  exists A' new, moved a A.*1 A'.*1 /\ Forall (right_hash g) A' /\ (length A' <= length A)%nat /\
    prove_climb (S fuel) m (pos_at top J) 0 (queue g ((a, node_hash f g a) :: A) B).*1 proof_nodes =
      prove_climb fuel m (pos_at top J) 0 (queue g A' (B ++ [(a / 2, joined g a)])).*1 (proof_nodes ++ new) /\
    forall iter, root_climb (S fuel) (pos_at top J) (queue g ((a, node_hash f g a) :: A) B) (new ++ iter) =
      root_climb fuel (pos_at top J) (queue g A' (B ++ [(a / 2, joined g a)])) iter.
Proof.
  intros Hc Hlt HA. pose proof (front_below top J HJ Htop g a A B Hc Hlt) as Hfb. pose proof (parent_below top J HJ Htop g a A B Hc Hlt) as Hp.
  assert (under top J g a) as Ha by (destruct Hc as [Hh _ _ _ _]; rewrite Forall_cons in Hh; apply Hh).
  pose proof (under_other top J g a Ha Hlt) as Ho. pose proof (under_fits top J HJ Htop g (other a) Ho) as [Hfo _].
  assert (S g < 64)%nat as Hg by (pose proof (under_parent top J g a Ha Hlt) as [Hf _]%(under_fits top J HJ Htop); apply fits_bound in Hf; lia).
  change (queue g ((a, node_hash f g a) :: A) B) with ((pos_at g a, node_hash f g a) :: queue g A B).
  cbn [fmap list_fmap fst prove_climb root_climb]. rewrite Hfb.
  assert (forall A', queue g A' B ++ [(pos_at (S g) (a / 2), joined g a)] = queue g A' (B ++ [(a / 2, joined g a)])) as Hup by (intros A'; apply (queue_up g A' B (a / 2, joined g a))).
  destruct (sibling_next top J HJ Htop g a A B Hc Hlt) as [(A' & t & -> & Hmv & HQ & Hs)|[Hmv Hno]].
  - rewrite Forall_cons in HA. destruct HA as [Ht HA]. unfold right_hash in Ht. cbn [fst snd] in Ht. subst t.
    exists A', []. split_and!; [done|done|cbn [length]; lia| |].
    + unfold fmap in HQ |- *. rewrite HQ. cbn [list_fmap entry fst]. rewrite Hs. cbn [mbind outcome_bind]. rewrite Hp. cbn [mbind outcome_bind].
      rewrite app_nil_r, <-Hup. by rewrite fmap_app.
    + intros iter. rewrite HQ. unfold entry at 1. cbn [fst snd]. rewrite Hs. cbn [mbind outcome_bind app]. rewrite Hp. cbn [mbind outcome_bind].
      rewrite leaves_below_at, <-Hup by done. cbn [right_node pos_at]. by rewrite joined_eq.
  - exists A, [node_hash f g (other a)]. pose proof (under_fits top J HJ Htop g a Ha) as [Hfa _]. pose proof (sibling_at g a Hfa Hfo) as Hsib. rewrite Hsib in *. cbn [index pos_at].
    assert (proof_node m 0 (node_index g (other a)) proof_nodes = Ok (proof_nodes ++ [node_hash f g (other a)])) as Hpn.
    { unfold proof_node. rewrite under_in_store by done. pose proof (fits_bound _ _ Hfo). destruct (Z.leb_spec 0 (node_index g (other a))); [done|lia]. }
    rewrite Hp, <-Hup. destruct (queue g A B) as [|[p h] q] eqn:Eq.
    all: try (specialize (Hno _ _ eq_refl); cbn [fst] in Hno).
    all: split_and!; [done|done|done| |].
    all: rewrite ?fmap_app; unfold fmap; cbn [list_fmap fst]; rewrite ?Hno, ?Hpn; cbn [mbind outcome_bind app].
    all: try done; intros iter; rewrite leaves_below_at, joined_eq by done; done.
Qed.
Definition agrees (g : nat) (A B : list (Z * H)) : Prop := climbing top J g A.*1 B.*1 /\ Forall (right_hash g) A /\ Forall (right_hash (S g)) B.
Lemma lockstep fuel g A B proof_nodes : A <> [] -> agrees g A B -> (climb_left top g A B <= fuel)%nat -> exists new,
  prove_climb fuel m (pos_at top J) 0 (queue g A B).*1 proof_nodes = Ok (proof_nodes ++ new) /\
  forall iter, root_climb fuel (pos_at top J) (queue g A B) (new ++ iter) = Ok (node_hash f top J, iter).
Proof.
  revert g A B proof_nodes. induction fuel as [|fuel IH]; intros g A B proof_nodes Hne (Hc & HA & HB) Hf; (destruct A as [|[a h] A]; [done|]);
    rewrite Forall_cons in HA; destruct HA as [Ha HA]; unfold right_hash in Ha; cbn [fst snd] in Ha; subst h; (destruct (decide (g = top)) as [->|Hgt];
     [destruct (front_top top J a A B Hc) as (-> & -> & -> & Hpe)|
      assert (g < top)%nat as Hlt by (destruct Hc as [Hh _ _ _ _]; cbn in Hh; rewrite Forall_cons in Hh; destruct Hh as [[? _] _]; lia)]).
  1,3: exists []; cbn [queue entry fmap list_fmap app prove_climb root_climb fst snd]; rewrite Hpe, app_nil_r; done.
  { unfold climb_left in Hf. cbn [length] in Hf. destruct (top - g)%nat eqn:E; [lia|]. nia. }
  destruct (lockstep_turn fuel g a A B proof_nodes Hc Hlt HA) as (A' & new & Hmv & HA' & Hlen & Hp & Hr).
  pose proof (climb_left_step top g (a, node_hash f g a) A A' B (a / 2, joined g a) Hlt Hlen) as Hf'.
  assert (agrees g A' (B ++ [(a / 2, joined g a)])) as Hag.
  { split; [rewrite fmap_app; by apply (climbing_step top J) with (A := A.*1)|]. split; [done|]. apply Forall_app. split; [done|]. by apply Forall_singleton. }
  assert (exists new', prove_climb fuel m (pos_at top J) 0 (queue g A' (B ++ [(a / 2, joined g a)])).*1 (proof_nodes ++ new) = Ok ((proof_nodes ++ new) ++ new') /\
    forall iter, root_climb fuel (pos_at top J) (queue g A' (B ++ [(a / 2, joined g a)])) (new' ++ iter) = Ok (node_hash f top J, iter)) as (new' & Hp' & Hr').
  { destruct A' as [|a' A']; [|apply IH; [done|done|lia]]. rewrite queue_level. rewrite climb_left_level in Hf'. destruct Hag as (Hc' & _ & HB').
    apply IH; [by destruct B| |lia]. split; [|by split]. apply (climbing_level top J g); [done|]. by destruct B. }
  exists (new ++ new'). rewrite Hp, Hp', app_assoc. split; [done|]. intros iter. by rewrite <-app_assoc, Hr, Hr'.
Qed.

(** The leaves to prove below the peak. *)
Definition leafp (i : Z) : Position * H := (pos_at 0 i, f i).
Lemma peak_lockstep l proof_nodes : l <> [] -> StronglySorted Z.lt l -> Forall (under top J 0) l -> exists new,
  prove_for_peak m proof_nodes (pos_at 0 <$> l) (pos_at top J) 0 = Ok (proof_nodes ++ new) /\
  forall iter, calculate_root_for_peak (pos_at top J) (leafp <$> l) (new ++ iter) = Ok (node_hash f top J, iter).
Proof.
  intros Hne Hs Hu. set (A := (fun i => (i, f i)) <$> l : list (Z * H)).
  assert (A.*1 = l) as HA by (subst A; rewrite <-list_fmap_compose; apply list_fmap_id).
  assert (queue 0 A [] = leafp <$> l) as HQ by (unfold queue; rewrite app_nil_r; subst A; by rewrite <-list_fmap_compose).
  assert ((queue 0 A []).*1 = pos_at 0 <$> l) as HQ1 by (rewrite HQ, <-list_fmap_compose; done).
  assert (length A = length l) as Hlen by (subst A; apply length_fmap).
  assert (top <= 62)%nat as Ht62.
  { assert (2 ^ Z.of_nat top <= 2 ^ 62) as Hp by (pose proof (pow2_pos top); nia). apply Z.pow_le_mono_r_iff in Hp; lia. }
  destruct (lockstep (climb_fuel l) 0 A [] proof_nodes) as (new & Hp & Hr).
  - intros E. rewrite E in HA. by subst l.
  - split; [rewrite HA; split; [done|constructor|done|constructor|by intros a b _ ?%not_elem_of_nil]|]. split; [|constructor].
    subst A. apply Forall_fmap. by apply Forall_true.
  - unfold climb_left, climb_fuel. rewrite Hlen. cbn [length]. nia.
  - rewrite HQ1 in Hp. rewrite HQ in Hr. assert (climb_fuel (pos_at 0 <$> l) = climb_fuel l /\ climb_fuel (leafp <$> l) = climb_fuel l) as [Hf1 Hf2] by (unfold climb_fuel; by rewrite !length_fmap).
    unfold prove_for_peak, calculate_root_for_peak. rewrite Hf1, Hf2. destruct l as [|i [|i' l]]; [done| |by exists new].
    cbn [fmap list_fmap leafp fst snd length Nat.eqb andb] in *. destruct (pos_eq (pos_at 0 i) (pos_at top J)) eqn:Ep; [|by exists new].
    rewrite Forall_singleton in Hu. pose proof (under_fits top J HJ Htop 0 i Hu) as [Hf _]. pose proof (under_fits top J HJ Htop _ _ (top_under top J)) as [Hft _].
    rewrite pos_eq_at in Ep by done. apply bool_decide_eq_true in Ep as [Et ->]. exists []. rewrite app_nil_r. split; [done|]. intros iter. by rewrite <-Et.
Qed.
End Peak.

(** ** The peaks *)

Lemma split_positions h j ls : 0 <= j -> Forall (fun i => 0 <= i) ls -> StronglySorted Z.lt ls -> exists l1 l2, ls = l1 ++ l2 /\
  (forall X (g : Z -> X) key, (forall i, key (g i) = pos_at 0 i) -> split_at_peak key (pos_at h j) (g <$> ls) = (g <$> l1, g <$> l2)) /\
  Forall (fun i => i < 2 ^ Z.of_nat h * (j + 1)) l1 /\ Forall (fun i => 2 ^ Z.of_nat h * (j + 1) <= i) l2.
Proof.
  intros Hj. induction ls as [|i ls IH]; intros Hi Hs; [by exists [], []|]. rewrite Forall_cons in Hi. destruct Hi as [Hi0 Hi].
  apply StronglySorted_inv in Hs as [Hs Hlow]. pose proof (leaf_before_node i h j Hi0 Hj) as Hlb. 
  destruct (decide (node_index h j < node_index 0 i)) as [Hlt|Hge].
  - exists [], (i :: ls). split_and!; [done| |done|].
    + intros X g key Hk. cbn [fmap list_fmap split_at_peak]. rewrite Hk. cbn [index pos_at]. by destruct (Z.ltb_spec (node_index h j) (node_index 0 i)); [|lia].
    + constructor; [lia|]. eapply Forall_impl; [exact Hlow|]. intros i' Hi'. cbn in Hi'. lia.
  - destruct (IH Hi Hs) as (l1 & l2 & -> & E & Hl1 & Hl2). exists (i :: l1), l2. split_and!; [done| |constructor; [by apply Hlb; lia|done]|done].
    intros X g key Hk. cbn [fmap list_fmap split_at_peak app]. rewrite Hk. cbn [index pos_at]. destruct (Z.ltb_spec (node_index h j) (node_index 0 i)); [lia|].
    specialize (E X g key Hk). unfold fmap in E |- *. by rewrite E.
Qed.

Section Peaks.
Variable N : Z.
Hypothesis HN : 0 < N <= Z.of_nat (length xs).
Hypothesis Hn : Z.of_nat (length xs) < 2 ^ 62.

Definition tree_hash (t : nat * Z) : H := node_hash f t.1 t.2.
(** The leaves [ls] are below the trees [ts]. *)
Record below_trees (ts : list (nat * Z)) (ls : list Z) : Prop := {
  bt_trees : exists before, before ++ ts = trees_of N /\ Forall (fun i => leaves_of before <= i < N) ls;
  bt_sorted : StronglySorted Z.lt ls;
}.
Lemma below_nil ls : below_trees [] ls -> ls = [].
Proof.
  intros [(before & Ht & Hls) _]. rewrite app_nil_r in Ht. subst before. rewrite all_leaves in Hls by lia. destruct ls; [done|]. rewrite Forall_cons in Hls. lia.
Qed.
Lemma below_cons h j ts ls : below_trees ((h, j) :: ts) ls -> 0 <= j /\ 2 ^ Z.of_nat h * (j + 1) <= Z.of_nat (length xs) /\ (h < 64)%nat /\
  exists l1 l2, ls = l1 ++ l2 /\
    (forall X (g : Z -> X) key, (forall i, key (g i) = pos_at 0 i) -> split_at_peak key (pos_at h j) (g <$> ls) = (g <$> l1, g <$> l2)) /\
    StronglySorted Z.lt l1 /\ Forall (under h j 0) l1 /\ below_trees ts l2.
Proof.
  intros [(before & Ht & Hls) Hs]. destruct (tree_at N ltac:(lia) _ _ _ _ (eq_sym Ht)) as (Hl & Hj & _ & Hle & _ & _ & Hf).
  apply fits_bound in Hf as (_ & _ & Hh & _). split_and!; [done|lia|lia|]. pose proof (leaves_of_nonneg before).
  destruct (split_positions h j ls) as (l1 & l2 & -> & E & Hl1 & Hl2); [done| |done|].
  { eapply Forall_impl; [exact Hls|]. intros i Hi. cbn in Hi. lia. }
  exists l1, l2. apply Forall_app in Hls as [Hls1 Hls2]. split_and!; [done|done|by eapply StronglySorted_app_1_l| |].
  - rewrite Forall_forall in *. intros i Hi. apply under_leaf. specialize (Hl1 i Hi). specialize (Hls1 i Hi). lia.
  - split; [|by eapply StronglySorted_app_1_r]. exists (before ++ [(h, j)]). split; [by rewrite <-app_assoc|]. rewrite leaves_of_app. cbn [leaves_of].
    rewrite Forall_forall in *. intros i Hi. specialize (Hl2 i Hi). specialize (Hls2 i Hi). cbn in Hl2, Hls2. lia.
Qed.

Lemma peak_node h j proof_nodes : 0 <= j -> 2 ^ Z.of_nat h * (j + 1) <= Z.of_nat (length xs) ->
  proof_node m 0 (index (pos_at h j)) proof_nodes = Ok (proof_nodes ++ [tree_hash (h, j)]).
Proof.
  intros Hj Hle. unfold proof_node. cbn [index pos_at]. rewrite in_store by done. pose proof (node_index_nonneg h j Hj).
  by destruct (Z.leb_spec 0 (node_index h j)); [|lia].
Qed.
(** Without leaves to prove, the peaks are collected for bagging. *)
Lemma no_leaves ts bag proof_nodes : below_trees ts [] ->
  prove_peaks m 0 (at_ <$> ts) [] bag proof_nodes = Ok ([], bag ++ (at_ <$> ts), proof_nodes ++ (tree_hash <$> ts)).
Proof.
  revert bag proof_nodes. induction ts as [|[h j] ts IH]; intros bag proof_nodes Hb; cbn [fmap list_fmap prove_peaks]; [by rewrite !app_nil_r|].
  destruct (below_cons h j ts [] Hb) as (Hj & Hle & Hh & l1 & l2 & El & _ & _ & _ & Hb'). symmetry in El. apply app_nil in El as [-> ->].
  change (at_ (h, j)) with (pos_at h j). cbn [split_at_peak length Nat.eqb prove_for_peak].
  rewrite peak_node by done.
  cbn [mbind outcome_bind]. rewrite IH by done. by rewrite <-!app_assoc.
Qed.
(** The peaks up to the last one with leaves take the nodes [new] of the proof; those
    after it, [post], are to be bagged. *)
Lemma peaks_lockstep ts ls bag proof_nodes : ls <> [] -> below_trees ts ls -> exists pre post new, ts = pre ++ post /\ pre <> [] /\
  prove_peaks m 0 (at_ <$> ts) (pos_at 0 <$> ls) bag proof_nodes = Ok ([], at_ <$> post, proof_nodes ++ new ++ (tree_hash <$> post)) /\
  forall iter hs, peak_roots_loop (at_ <$> ts) (leafp <$> ls) (new ++ iter) hs = peak_roots_loop (at_ <$> post) [] iter (hs ++ tree_items f pre).
Proof.
  revert ls bag proof_nodes. induction ts as [|[h j] ts IH]; intros ls bag proof_nodes Hne Hb; [by apply below_nil in Hb|].
  destruct (below_cons h j ts ls Hb) as (Hj & Hle & Hh & l1 & l2 & -> & E & Hs1 & Hu & Hb').
  cbn [fmap list_fmap prove_peaks peak_roots_loop]. change (at_ (h, j)) with (pos_at h j).
  pose proof (E _ (pos_at 0) id ltac:(done)) as E1. pose proof (E _ leafp fst ltac:(done)) as E2. unfold fmap in *. rewrite E1, E2.
  rewrite leaves_below_at by done. destruct l1 as [|i l1].
  - cbn [list_fmap length Nat.eqb prove_for_peak app] in *.
    rewrite peak_node by done.
    cbn [mbind outcome_bind]. destruct (IH l2 (bag ++ [pos_at h j]) (proof_nodes ++ [tree_hash (h, j)]) Hne Hb') as (pre & post & new & -> & _ & Hp & Hr).
    exists ((h, j) :: pre), post, (tree_hash (h, j) :: new). split_and!; [done|done| |].
    + rewrite Hp. by rewrite <-app_assoc.
    + intros iter hs. cbn [app]. rewrite Hr. by rewrite <-app_assoc.
  - destruct (peak_lockstep h j Hj Hle Hn (i :: l1) proof_nodes ltac:(done) Hs1 Hu) as (new & Hp & Hr). unfold fmap in Hp, Hr.
    rewrite Hp. cbn [list_fmap length Nat.eqb mbind outcome_bind] in *. destruct (decide (l2 = [])) as [->|Hne2].
    + exists [(h, j)], ts, new. split_and!; [done|done| |].
      * pose proof (no_leaves ts [] (proof_nodes ++ new) Hb') as Hnl. unfold fmap in Hnl. cbn [list_fmap app]. rewrite Hnl. by rewrite <-app_assoc.
      * intros iter hs. rewrite Hr. cbn [mbind outcome_bind]. done.
    + destruct (IH l2 [] (proof_nodes ++ new) Hne2 Hb') as (pre & post & new' & -> & _ & Hp' & Hr'). unfold fmap in Hp', Hr'.
      exists ((h, j) :: pre), post, (new ++ new'). split_and!; [done|done| |].
      * rewrite Hp'. by rewrite <-!app_assoc.
      * intros iter hs. rewrite <-app_assoc, Hr. cbn [mbind outcome_bind]. rewrite Hr'. by rewrite <-app_assoc.
Qed.

(** *** Bagging *)

Lemma bag_trees l : l <> [] -> leaves_of l < 2 ^ 64 -> exists b, bagging_loop (rev (tree_items f l)) None = Some (b, leaves_of l).
Proof.
  induction l as [|[h j] l IH]; intros Hne Hb; [done|]. cbn [leaves_of] in *. pose proof (pow2_pos h). pose proof (leaves_of_nonneg l).
  unfold tree_items. cbn [fmap list_fmap rev]. rewrite bagging_loop_app. destruct (decide (l = [])) as [->|Hl]; [exists (node_hash f h j); cbn; do 2 f_equal; lia|].
  destruct (IH Hl ltac:(lia)) as (b & E). unfold tree_items, fmap in E |- *. rewrite E. cbn [bagging_loop fst snd]. unfold Usize.add. rewrite usize_small by lia.
  eexists. do 2 f_equal. lia.
Qed.
Lemma absorb_rest (ts : list (nat * Z)) hs b c : Forall (fun t => (t.1 < 64)%nat) ts -> 0 <= c -> c + leaves_of ts < 2 ^ 64 ->
  peak_roots_loop (H := H) (at_ <$> ts) [] [] (hs ++ [(b, c)]) = Ok ([], [], hs ++ [(b, c + leaves_of ts)]).
Proof.
  revert c. induction ts as [|[h j] ts IH]; intros c Ht Hc Hb; cbn [leaves_of] in *; [by rewrite Z.add_0_r|]. rewrite Forall_cons in Ht. destruct Ht as [Hh Ht].
  pose proof (pow2_pos h). pose proof (leaves_of_nonneg ts). cbn [fmap list_fmap peak_roots_loop split_at_peak]. change (at_ (h, j)) with (pos_at h j).
  rewrite leaves_below_at by done. unfold add_to_last. rewrite rev_app_distr. cbn [rev app]. rewrite rev_involutive. unfold Usize.add. rewrite usize_small by lia.
  rewrite IH by (done || lia). do 5 f_equal. lia.
Qed.
Lemma tree_heights : Forall (fun t => (t.1 < 64)%nat) (trees_of N).
Proof. rewrite Forall_forall. intros t Ht. apply tree_in in Ht as (_ & _ & Hf & _); [|lia]. apply fits_bound in Hf. lia. Qed.
Lemma zip_trees ts : Forall (fun t => (t.1 < 64)%nat) ts -> zip (tree_hash <$> ts) (leaves_below <$> (at_ <$> ts)) = tree_items f ts.
Proof.
  induction 1 as [|[h j] ts Hh _ IH]; [done|]. unfold tree_items in *. unfold fmap in *. cbn [list_fmap zip zip_with]. rewrite IH. change (at_ (h, j)) with (pos_at h j).
  by rewrite leaves_below_at by done.
Qed.
Lemma bag_lockstep pre post new : trees_of N = pre ++ post -> exists last hs,
  bag_last (at_ <$> post) (new ++ (tree_hash <$> post)) = Ok (new ++ last) /\
  peak_roots_loop (at_ <$> post) [] last (tree_items f pre) = Ok ([], [], hs) /\ bagging (rev hs) = bagging (rev (tree_items f (trees_of N))).
Proof.
  intros Ht. pose proof tree_heights as Hh. rewrite Ht in Hh |- *. apply Forall_app in Hh as [_ Hh]. pose proof (all_leaves N ltac:(lia)) as Hl. rewrite Ht, leaves_of_app in Hl.
  pose proof (leaves_of_nonneg pre). unfold bag_last. rewrite length_fmap. destruct post as [|[h j] post].
  { exists [], (tree_items f pre). cbn. by rewrite !app_nil_r. }
  destruct (bag_trees ((h, j) :: post) ltac:(done) ltac:(lia)) as (b & Eb). exists [b], (tree_items f pre ++ [(b, leaves_of ((h, j) :: post))]).
  split_and!.
  - destruct (Nat.eqb_spec (length ((h, j) :: post)) 0) as [|_]; [done|]. rewrite length_app, length_fmap.
    destruct (Nat.ltb_spec (length new + length ((h, j) :: post)) (length ((h, j) :: post))) as [|_]; [lia|].
    rewrite Nat.add_sub, drop_app_length, take_app_length, zip_trees by done. unfold bagging. by rewrite Eb.
  - rewrite Forall_cons in Hh. destruct Hh as [Hh Hh']. cbn [fmap list_fmap peak_roots_loop split_at_peak]. change (at_ (h, j)) with (pos_at h j).
    rewrite leaves_below_at by done. cbn [leaves_of] in *. pose proof (pow2_pos h). rewrite absorb_rest by (done || lia). done.
  - unfold tree_items, bagging. rewrite fmap_app, !rev_app_distr, !bagging_loop_app. unfold tree_items in Eb. rewrite Eb. done.
Qed.

(** *** Proofs *)

Definition shorter : list T := take (Z.to_nat N) xs.
Lemma shorter_length : Z.of_nat (length shorter) = N.
Proof. unfold shorter. rewrite length_take. lia. Qed.
Lemma shorter_leaf i : 0 <= i < N -> leaf_hash shorter i = f i.
Proof. intros Hi. unfold f, leaf_hash, shorter. by rewrite lookup_take_lt by lia. Qed.
Lemma shorter_root : bagging (rev (tree_items f (trees_of N))) = Ok (reference_root shorter).
Proof.
  pose proof shorter_length as Hl. rewrite <-bagging_root, Hl by lia. do 2 f_equal. unfold tree_items. apply list_fmap_ext. intros k t Ht.
  apply list_elem_of_lookup_2, tree_in in Ht as (Hj & Hle & _); [|lia]. f_equal. apply node_hash_ext. intros i Hi. symmetry. apply shorter_leaf.
  pose proof (pow2_pos t.1). nia.
Qed.
Lemma size_bounds : N <= tree_size N <= 2 ^ 63 - 1.
Proof. unfold tree_size. pose proof (count_ones_le N ltac:(lia)). pose proof (count_ones_nonneg N). lia. Qed.
Lemma size_one : tree_size N = 1 -> N = 1.
Proof. intros E. destruct (decide (N <= 1)); [lia|]. pose proof (tree_size_lt 1 N ltac:(lia)) as Hlt. change (tree_size 1) with 1 in Hlt. lia. Qed.
Lemma loop_verifies l : l <> [] -> StronglySorted Z.lt l -> Forall (fun i => 0 <= i < N) l -> exists proof_nodes hs,
  ('(rest, baggable_peaks, proof_nodes) ← prove_peaks m 0 (at_ <$> trees_of N) (pos_at 0 <$> l) [] [];
   err_if (negb (length rest =? 0)%nat) ProveInvalidLeaves;;
   proof_nodes ← bag_last baggable_peaks proof_nodes;
   mret (mk_proof (tree_size N) proof_nodes)) = Ok (mk_proof (tree_size N) proof_nodes) /\
  peak_roots_loop (at_ <$> trees_of N) (leafp <$> l) proof_nodes [] = Ok ([], [], hs) /\ bagging (rev hs) = Ok (reference_root shorter).
Proof.
  intros Hne Hs Hi. destruct (peaks_lockstep (trees_of N) l [] [] Hne) as (pre & post & new & Ht & _ & Hp & Hr); [split; [by exists []|done]|].
  destruct (bag_lockstep pre post new Ht) as (last & hs & Hb & Hl & Hbag). exists (new ++ last), hs.
  rewrite Hp, Hr, app_nil_l. cbn [mbind outcome_bind length Nat.eqb negb err_if]. rewrite Hb, <-shorter_root. done.
Qed.
Lemma positions_verify l : l <> [] -> StronglySorted Z.lt l -> Forall (fun i => 0 <= i < N) l -> exists p,
  prove_positions m (pos_at 0 <$> l) (tree_size N) false = Ok p /\ mmr_size p = tree_size N /\
  (hs ← calculate_peak_roots p (leafp <$> l); bagging (rev hs)) = Ok (reference_root shorter).
Proof.
  intros Hne Hs Hi. pose proof (peaks_tree N ltac:(lia)) as Hpk. destruct (loop_verifies l Hne Hs Hi) as (proof_nodes & hs & Hp & Hr & Hb).
  destruct (decide (tree_size N = 1 /\ l = [0])) as [[E1 ->]|Hno].
  { exists (mk_proof 1 []). rewrite <-shorter_root, E1, (size_one E1). split; [done|]. split; [done|].
    rewrite trees_of_eq. change 1 with (2 ^ Z.of_nat 0) at 2. by rewrite (one_tree max_height 0 0 (aligned_0 _)) by (by rewrite pow_max_height). }
  exists (mk_proof (tree_size N) proof_nodes). cbn [mmr_size]. unfold prove_positions, calculate_peak_roots. cbn [mmr_size nodes]. rewrite Hpk. cbn [mbind outcome_bind].
  destruct l as [|i [|i' l]]; [done| |].
  - unfold fmap in *. cbn [list_fmap leafp length Nat.eqb index pos_at fst snd] in *. rewrite Hr, andb_true_r. cbn [mbind outcome_bind] in *. rewrite Hp.
    assert ((tree_size N =? 1) && (node_index 0 i =? 0) = false) as ->; [|done]. rewrite Forall_singleton in Hi. rewrite node_index_leaf.
    apply andb_false_iff. rewrite !Z.eqb_neq. destruct (decide (tree_size N = 1)); [right|by left]. intros E0. apply tree_size_zero in E0 as ->; [tauto|lia].
  - unfold fmap in *. cbn [list_fmap length Nat.eqb index pos_at] in *. rewrite andb_false_r. cbn [andb]. rewrite Hp, Hr. done.
Qed.

(** *** Leaves in any order *)

Definition leaf_order (a b : Z) : Prop := pos_le (pos_at 0 a) (pos_at 0 b).
#[local] Instance leaf_order_dec : RelDecision leaf_order.
Proof. intros a b. unfold leaf_order. apply _. Defined.
#[local] Instance leaf_order_total : Total leaf_order.
Proof. intros a b. unfold leaf_order, pos_le. lia. Qed.
#[local] Instance leaf_order_trans : Transitive leaf_order.
Proof. intros a b c. unfold leaf_order, pos_le. lia. Qed.
Lemma order_strict l : Forall (fun i => 0 <= i) l -> NoDup l -> StronglySorted leaf_order l -> StronglySorted Z.lt l.
Proof.
  intros Hi Hd. induction 1 as [|a l Hs IH Ha]; [constructor|]. rewrite Forall_cons in Hi. rewrite NoDup_cons in Hd.
  destruct Hi as [Ha0 Hi], Hd as [Hna Hd]. constructor; [by apply IH|]. rewrite Forall_forall in *. intros b Hb. specialize (Ha b Hb). specialize (Hi b Hb). unfold leaf_order, pos_le in Ha. cbn [index pos_at] in Ha.
  rewrite !node_index_leaf, tree_size_le in Ha by done. assert (a <> b) by congruence. lia.
Qed.
Lemma not_repeated l : Forall (fun i => 0 <= i) l -> StronglySorted Z.lt l -> repeated (leafp <$> l) = false.
Proof.
  intros Hi. induction 1 as [|a l Hs IH Ha]; [done|]. rewrite Forall_cons in Hi. destruct Hi as [Ha0 Hi]. specialize (IH Hi). destruct l as [|b l]; [done|].
  cbn [fmap list_fmap repeated] in *. rewrite IH, orb_false_r. unfold pos_eq. cbn [leafp fst index pos_at]. rewrite Forall_cons in Ha. rewrite !node_index_leaf.
  pose proof (tree_size_lt a b). apply Z.eqb_neq. lia.
Qed.
Lemma sorted_nodup l : StronglySorted Z.lt l -> NoDup l.
Proof. induction 1 as [|a l _ IH Ha]; constructor; [|done]. intros Hin. rewrite Forall_forall in Ha. specialize (Ha a Hin). lia. Qed.
Lemma sort_leaves l l' : Forall (fun i => 0 <= i) l -> StronglySorted Z.lt l -> l ≡ₚ l' -> merge_sort leaf_order l' = l.
Proof.
  intros Hi Hs Hp. assert (forall k, StronglySorted Z.lt k -> StronglySorted Z.le k) as Hle.
  { induction 1 as [|a k _ IH Ha]; constructor; [done|]. eapply Forall_impl; [exact Ha|]. intros b Hb. cbn in Hb. lia. }
  apply (StronglySorted_unique Z.le); [apply Hle, order_strict|by apply Hle|].
  - by rewrite merge_sort_Permutation, <-Hp.
  - rewrite merge_sort_Permutation, <-Hp. by apply sorted_nodup.
  - apply (StronglySorted_merge_sort _).
  - by rewrite merge_sort_Permutation.
Qed.
(** The items with their numbers in the shorter range. *)
Definition numbered (leaves : list (Z * T)) : Prop := forall i x, (i, x) ∈ leaves -> 0 <= i /\ shorter !! Z.to_nat i = Some x.
Lemma numbered_range leaves : numbered leaves -> Forall (fun i => 0 <= i < N) leaves.*1.
Proof.
  intros Hx. apply Forall_fmap, Forall_forall. intros [i x] Hin. destruct (Hx i x Hin) as [Hi0 Hl]. apply lookup_lt_Some in Hl. cbn [compose fst]. pose proof shorter_length. lia.
Qed.
Lemma leaf_positions p leaves : numbered leaves -> mmr_size p = tree_size N -> mapM (leaf_position p) leaves = Ok (leafp <$> leaves.*1).
Proof.
  intros Hx Hsz. pose proof (numbered_range leaves Hx) as Hi. pose proof size_bounds as Hb.
  rewrite <-list_fmap_compose. rewrite <-(list_fmap_id leaves) at 1. apply mapM_ok. intros [i x] Hin. destruct (Hx i x Hin) as [Hi1 Hl].
  rewrite Forall_fmap, Forall_forall in Hi. specialize (Hi _ Hin). cbn [compose fst] in *. unfold leaf_position, id. rewrite Hsz. destruct (Z.leb_spec (tree_size N) i); [lia|].
  cbn [err_if mbind outcome_bind]. rewrite leaf_number_index, position_from_node by (lia || apply fits_leaf_number; lia). cbn [mbind outcome_bind index pos_at].
  pose proof (node_index_within 0 i N ltac:(lia) ltac:(cbn; lia)). destruct (Z.leb_spec (tree_size N) (node_index 0 i)); [lia|]. cbn [err_if mbind outcome_bind].
  rewrite leaves_below_at by lia. unfold leafp. do 2 f_equal. rewrite <-shorter_leaf by done. unfold leaf_hash. by rewrite Hl.
Qed.
Lemma proof_verifies (leaves : list (Z * T)) l : leaves <> [] -> numbered leaves -> StronglySorted Z.lt l -> l ≡ₚ leaves.*1 ->
  exists p, prove_positions m (pos_at 0 <$> l) (tree_size N) false = Ok p /\ mmr_size p = tree_size N /\
    verify p (reference_root shorter) leaves = Ok true.
Proof.
  intros Hne Hx Hs Hperm. pose proof (numbered_range leaves Hx) as Hi. rewrite <-Hperm in Hi.
  assert (Forall (fun i => 0 <= i) l) as Hi0 by (eapply Forall_impl; [exact Hi|]; intros i Hi'; cbn in Hi'; lia).
  destruct (positions_verify l) as (p & Hp & Hsz & Hr); [|done|done|].
  { intros E. rewrite E in Hperm. apply Permutation_nil in Hperm. by destruct leaves. }
  exists p. split; [done|]. split; [done|]. unfold verify, calculate_root. rewrite Hsz. pose proof size_bounds as Hb. change MAX_MMR_SIZE with (2 ^ 63 - 1).
  destruct (Z.ltb_spec (2 ^ 63 - 1) (tree_size N)); [lia|]. destruct (Z.eqb_spec (tree_size N) 0); [lia|]. cbn [err_if mbind outcome_bind andb].
  rewrite leaf_positions by done. cbn [mbind outcome_bind]. rewrite (merge_sort_map leafp leaf_order leaf_le), (sort_leaves l), not_repeated by done.
  cbn [err_if mbind outcome_bind]. rewrite Hr. cbn [mbind outcome_bind]. by rewrite bool_decide_eq_true_2.
Qed.

(** *** The operations *)

(** A range is proven at the length it has or at a shorter one. *)
Definition at_length (verifier_state : option Z) : Prop :=
  match verifier_state with None => N = Z.of_nat (length xs) | Some size => size = tree_size N end.
Lemma proof_length_ok vs : at_length vs -> proof_length m vs = Ok (tree_size N).
Proof.
  unfold at_length, proof_length. rewrite (holds_len m xs Hm). destruct vs as [size|]; [intros ->|by intros ->].
  pose proof (proj2 (tree_size_le N (Z.of_nat (length xs)) ltac:(lia) ltac:(lia)) ltac:(lia)). by destruct (Z.ltb_spec (tree_size (Z.of_nat (length xs))) (tree_size N)); [lia|].
Qed.
Lemma prove_ok vs positions leaves : at_length vs -> leaves <> [] -> numbered leaves -> NoDup leaves.*1 -> positions ≡ₚ leaves.*1 ->
  exists p, prove m positions vs = Ok p /\ verify p (reference_root shorter) leaves = Ok true.
Proof.
  intros Hvs Hne Hx Hd Hperm. pose proof (numbered_range leaves Hx) as Hi. rewrite <-Hperm in Hi. unfold prove. rewrite (proof_length_ok vs Hvs). cbn [mbind outcome_bind].
  assert (mapM (fun i => pos ← position_from (leaf_number_to_index i); if tree_size N <=? index pos then Err ProveInvalidLeaves else mret pos) positions =
    Ok (pos_at 0 <$> positions)) as ->.
  { rewrite <-(list_fmap_id positions) at 1. apply mapM_ok. intros i Hin. rewrite Forall_forall in Hi. specialize (Hi i Hin). cbn in Hi. unfold id.
    rewrite leaf_number_index, position_from_node by (lia || apply fits_leaf_number; lia). cbn [mbind outcome_bind index pos_at].
    pose proof (node_index_within 0 i N ltac:(lia) ltac:(cbn; lia)). by destruct (Z.leb_spec (tree_size N) (node_index 0 i)); [lia|]. }
  cbn [mbind outcome_bind]. rewrite (merge_sort_map (pos_at 0) leaf_order pos_le) by done.
  pose proof (merge_sort_Permutation leaf_order positions) as Hp. destruct (proof_verifies leaves (merge_sort leaf_order positions) Hne Hx) as (p & E & _ & Hv).
  - apply order_strict; [rewrite Hp; eapply Forall_impl; [exact Hi|]; intros i Hi'; cbn in Hi'; lia|by rewrite Hp, Hperm|apply (StronglySorted_merge_sort _)].
  - by rewrite Hp.
  - by exists p.
Qed.

(** Positions on alternating sides are those of neighbouring leaves. *)
Lemma alternate_ok start k : 0 <= start -> 0 <= k -> alternate (Z.odd start) (node_index 0 <$> seqZ start k) = pos_at 0 <$> seqZ start k.
Proof.
  intros Hs Hk. revert start Hs. pattern k. apply natlike_ind; [done| |done]. clear k Hk. intros k Hk IH start Hs.
  rewrite seqZ_cons, Z.pred_succ by lia. cbn [fmap list_fmap alternate]. rewrite Z.negb_odd, <-Z.odd_succ. specialize (IH (Z.succ start) ltac:(lia)).
  unfold fmap in IH |- *. by rewrite IH.
Qed.
Lemma range_indices start last end_ : 0 <= start <= last -> last = Z.min end_ (Z.of_nat (length xs)) -> end_ <= 2 ^ 62 ->
  base.filter (fun i => i < len m) (leaf_number_to_index <$> seqZ start (end_ - start)) = node_index 0 <$> seqZ start (last - start).
Proof.
  intros Hs Hl He. rewrite (holds_len m xs Hm). replace (end_ - start) with (last - start + (end_ - last)) by lia. rewrite seqZ_app, fmap_app, filter_app by lia.
  assert (forall k i, i ∈ seqZ start (last - start) ++ seqZ (start + (last - start)) (end_ - last) -> k = leaf_number_to_index i ->
    k = node_index 0 i /\ (k < tree_size (Z.of_nat (length xs)) <-> i < Z.of_nat (length xs))) as Hk.
  { intros k i Hi ->. rewrite elem_of_app, !elem_of_seqZ in Hi. rewrite leaf_number_index by lia. split; [done|]. rewrite node_index_leaf.
    pose proof (tree_size_le (Z.of_nat (length xs)) i). lia. }
  rewrite list_filter_all, list_filter_none, app_nil_r.
  - apply list_fmap_ext. intros k i Hi. apply list_elem_of_lookup_2 in Hi. apply (Hk _ i); [by apply elem_of_app; left|done].
  - apply Forall_fmap, Forall_forall. intros i Hi. cbn. destruct (Hk _ i ltac:(by apply elem_of_app; right) eq_refl) as [_ ->]. rewrite elem_of_seqZ in Hi. lia.
  - apply Forall_fmap, Forall_forall. intros i Hi. cbn. destruct (Hk _ i ltac:(by apply elem_of_app; left) eq_refl) as [_ ->]. rewrite elem_of_seqZ in Hi. lia.
Qed.
Lemma seqZ_sorted start k : StronglySorted Z.lt (seqZ start k).
Proof.
  destruct (decide (k <= 0)) as [Hk|Hk]; [by rewrite seqZ_nil by lia; constructor|]. revert start. pattern k. apply (natlike_ind _); [constructor| |lia]. clear k Hk. intros k Hk IH start.
  rewrite seqZ_cons, Z.pred_succ by lia. constructor; [done|]. apply Forall_seqZ. lia.
Qed.
(** The items of a part of the range, numbered from its start. *)
Definition part (start last : Z) : list T := take (Z.to_nat (last - start)) (drop (Z.to_nat start) xs).
Definition numbered_from (start : Z) (items : list T) : list (Z * T) := imap (fun i t => (Usize.add start (Z.of_nat i), t)) items.
Lemma part_lookup start last i x : 0 <= start <= last -> last <= N -> part start last !! i = Some x -> start + Z.of_nat i < last /\ shorter !! Z.to_nat (start + Z.of_nat i) = Some x.
Proof.
  intros Hs Hl. unfold part, shorter. rewrite lookup_take, lookup_drop. case_decide; [|done]. intros Hx. split; [lia|]. rewrite lookup_take_lt by lia. rewrite <-Hx. f_equal. lia.
Qed.
Lemma part_numbers start last : 0 <= start <= last -> last <= N -> (numbered_from start (part start last)).*1 = seqZ start (last - start).
Proof.
  intros Hs Hl. unfold numbered_from. rewrite fmap_imap. apply list_eq. intros i. rewrite list_lookup_imap. 
  destruct (decide (Z.of_nat i < last - start)) as [Hi|Hi].
  - destruct (lookup_lt_is_Some_2 (part start last) i) as [x Hx]; [unfold part; rewrite length_take, length_drop; lia|]. rewrite Hx. symmetry. apply lookup_seqZ.
    cbn. unfold Usize.add. rewrite usize_small by lia. done.
  - rewrite (lookup_ge_None_2 (part start last)) by (unfold part; rewrite length_take, length_drop; lia). cbn. symmetry. apply lookup_seqZ_ge. lia.
Qed.
Lemma part_numbered start last : 0 <= start <= last -> last <= N -> numbered (numbered_from start (part start last)).
Proof.
  intros Hs Hl i x Hin. apply list_elem_of_lookup_1 in Hin as (k & Hk). unfold numbered_from in Hk. rewrite list_lookup_imap in Hk.
  destruct (part start last !! k) as [y|] eqn:Hy; [|done]. apply part_lookup in Hy as [Hb Hy]; [|done..]. injection Hk as <- <-.
  unfold Usize.add. rewrite usize_small by lia. split; [lia|done].
Qed.
Lemma prove_range_ok vs start end_ last : at_length vs -> 0 <= start < last -> last = Z.min end_ (Z.of_nat (length xs)) -> last <= N -> end_ <= 2 ^ 62 ->
  exists p, prove_range m start end_ vs false = Ok p /\ verify_with_start p (reference_root shorter) start (part start last) = Ok true.
Proof.
  intros Hvs Hs Hlast Hl He. unfold prove_range. rewrite (proof_length_ok vs Hvs). cbn [mbind outcome_bind]. rewrite (range_indices start last) by lia.
  assert (head (node_index 0 <$> seqZ start (last - start)) = Some (node_index 0 start)) as -> by (by rewrite seqZ_cons by lia).
  cbn [or_err mbind outcome_bind]. rewrite position_from_node by (apply fits_leaf_number; lia). cbn [mbind outcome_bind right_node pos_at]. rewrite alternate_ok by lia.
  set (leaves := numbered_from start (part start last)). assert (leaves.*1 = seqZ start (last - start)) as Hnum by (apply part_numbers; lia).
  destruct (proof_verifies leaves (seqZ start (last - start))) as (p & Hp & Hsz & Hv).
  - intros E. rewrite E, seqZ_cons in Hnum by lia. done.
  - apply part_numbered; lia.
  - apply seqZ_sorted.
  - by rewrite Hnum.
  - exists (mk_range_proof p false). rewrite Hp. split; [done|]. unfold verify_with_start, convert_leaves_with_start. cbn [assume_previous proof err_if mbind outcome_bind].
    assert (Z.of_nat (length (part start last)) = last - start) as -> by (unfold part; rewrite length_take, length_drop; lia).
    unfold Usize.add, Usize.sub. rewrite !usize_small by (rewrite ?usize_small; lia). rewrite leaf_number_index, Hsz by lia.
    pose proof (node_index_within 0 (start + (last - start) - 1) N ltac:(lia) ltac:(cbn; lia)).
    destruct (Z.leb_spec (tree_size N) (node_index 0 (start + (last - start) - 1))); [lia|]. rewrite andb_false_r. cbn [err_if mbind outcome_bind]. exact Hv.
Qed.
End Peaks.
End Complete.
