(* ===== verification/MmrSize.v ===== *)
(** * Proofs of the number of leaves

    The prefix of every hash is the number of leaves below it, so the root of a range
    commits to their number: a proof of another number shows a collision, and a range
    can always prove its number or that of a shorter range. *)

From S2P Require Import Prelude Coin AccountTypes Codec TxContent Block Mmr MmrPosition.
From S2P Require Import MmrPeaks MmrSpec MmrClimb MmrTerm MmrSound MmrVerify MmrComplete.

(** ** Proving *)

Section Prove.
Context {H T St : Type} `{EqDecision H} `{Merge H} `{Hash H T} `{StoreLaws H St}.
Implicit Types (i : BaggingInfo H) (l : list (BaggingInfo H)).

(** The children of the node, if it has some, make up its hash. *)
Definition info_ok (i : BaggingInfo H) : Prop :=
  match left_child_hash i, right_child_hash i with
  | Some l, Some r => info_hash i = merge l r (info_leaves i)
  | None, None => info_leaves i = 1
  | _, _ => False
  end.
Definition info_item (i : BaggingInfo H) : H * Z := (info_hash i, info_leaves i).
Lemma size_loop_bagging l o : info_item <$> size_loop l o = bagging_loop (info_item <$> l) (info_item <$> o).
Proof.
  revert o. induction l as [|[h n c c'] l IH]; intros o; [done|]. cbn [fmap list_fmap size_loop bagging_loop info_item info_hash info_leaves]. rewrite IH. f_equal.
  by destruct o as [[h' n' d d']|].
Qed.
Lemma size_loop_ok l o : Forall info_ok l -> match o with Some i => info_ok i | None => True end ->
  match size_loop l o with Some i => info_ok i | None => True end.
Proof.
  revert o. induction l as [|i l IH]; intros o Hl Ho; [done|]. rewrite Forall_cons in Hl. cbn [size_loop]. apply IH; [apply Hl|]. by destruct o; [|apply Hl].
Qed.

Section Range.
Context (m : MerkleMountainRange St) (xs : list T) (N : Z).
Hypothesis Hm : holds m xs.
Hypothesis HN : 0 < N <= Z.of_nat (length xs).
Hypothesis Hn : Z.of_nat (length xs) < 2 ^ 62.

Definition tree_info (t : nat * Z) : BaggingInfo H :=
  let child b := match t.1 with O => None | S h => Some (node_hash (leaf_hash xs) h (2 * t.2 + b)) end in
  mk_info (node_hash (leaf_hash xs) t.1 t.2) (2 ^ Z.of_nat t.1) (child 0) (child 1).
Lemma tree_info_ok t : info_ok (tree_info t).
Proof. destruct t as [[|h] j]; [done|]. unfold info_ok, tree_info. cbn [left_child_hash right_child_hash info_hash info_leaves fst snd node_hash]. by rewrite Z.add_0_r. Qed.
Lemma peak_info_ok t : t ∈ trees_of N -> peak_info m (at_ t) = Ok (tree_info t).
Proof.
  intros Ht. apply tree_in in Ht as (Hj & Hle & Hf & _); [|lia]. pose proof (fits_bound _ _ Hf) as (_ & _ & Hh & _). unfold peak_info, at_. destruct t as [h j]. cbn [fst snd] in *.
  cbn [index pos_at]. rewrite (in_store m xs Hm) by lia. cbn [or_err mbind outcome_bind]. rewrite leaves_below_at by lia. unfold tree_info. cbn [fst snd].
  destruct h as [|h]; [done|]. rewrite left_child_at, right_child_at by done. cbn [mbind option_bind index pos_at]. rewrite pow2_S in Hle. pose proof (pow2_pos h).
  rewrite !(in_store m xs Hm) by nia. by rewrite Z.add_0_r.
Qed.
Lemma infos_ok : Forall info_ok (tree_info <$> rev (trees_of N)).
Proof. apply Forall_fmap, Forall_forall. intros t _. apply tree_info_ok. Qed.
Lemma size_loop_range : exists i, size_loop (tree_info <$> rev (trees_of N)) None = Some i /\ info_ok i /\
  info_hash i = reference_root (shorter xs N) /\ info_leaves i = N.
Proof.
  pose proof (size_loop_bagging (tree_info <$> rev (trees_of N)) None) as Hb. pose proof (size_loop_ok _ None infos_ok I) as Hok.
  rewrite <-list_fmap_compose in Hb. change (info_item ∘ tree_info) with (fun t : nat * Z => (node_hash (leaf_hash xs) t.1 t.2, 2 ^ Z.of_nat t.1)) in Hb.
  fold (tree_items (leaf_hash xs) (rev (trees_of N))) in Hb. rewrite tree_items_rev in Hb.
  pose proof (all_leaves N ltac:(lia)) as Hl. pose proof (shorter_root xs N HN Hn) as Hr. unfold bagging in Hr.
  destruct (bag_trees xs (trees_of N)) as (b & Eb); [intros E; rewrite E in Hl; cbn in Hl; lia|lia|]. cbn [fmap option_fmap option_map] in Hb. rewrite Eb in Hb, Hr.
  destruct (size_loop _ None) as [i|]; [|done]. exists i. injection Hb as Hh Hs. injection Hr as Hr. split_and!; [done|done|congruence|congruence].
Qed.
Lemma one_root x : N = 1 -> head xs = Some x -> reference_root (shorter xs N) = hash x 1.
Proof.
  intros E Hx. pose proof (shorter_root xs N HN Hn) as Hr. rewrite E, trees_of_eq in Hr at 1. change 1 with (2 ^ Z.of_nat 0) in Hr at 1.
  rewrite (one_tree max_height 0 0 (aligned_0 _)) in Hr by (by rewrite pow_max_height). injection Hr as Hr. rewrite <-Hr. unfold leaf_hash. cbn. destruct xs; [done|]. by injection Hx as ->.
Qed.
Lemma prove_size_ok vs (g : Z -> option T) : at_length xs N vs -> g 0 = head xs ->
  exists p, prove_num_leaves m g vs = Ok p /\ size p = N /\ size_verify p (reference_root (shorter xs N)) = true.
Proof.
  intros Hvs Hg. unfold prove_num_leaves, is_empty. rewrite (holds_len m xs Hm). destruct (Z.eqb_spec (tree_size (Z.of_nat (length xs))) 0) as [Hz|_].
  { apply tree_size_zero in Hz; lia. }
  rewrite (proof_length_ok m xs Hm N HN vs Hvs). cbn [mbind outcome_bind]. rewrite rev_peaks_tree by lia. cbn [mbind outcome_bind].
  rewrite (mapM_ok (peak_info m) at_ tree_info) by (intros t Ht; apply peak_info_ok; by apply list_elem_of_In, in_rev, list_elem_of_In).
  cbn [mbind outcome_bind]. unfold size_proof. destruct size_loop_range as ([h n c c'] & -> & Hok & Hh & Hs). unfold info_ok in Hok. cbn [info_hash info_leaves left_child_hash right_child_hash] in *. subst n h.
  destruct c as [lh|], c' as [rh|]; [|done|done|].
  - exists (MultipleElements N lh rh). split; [done|]. split; [done|]. unfold size_verify. by rewrite Hok, bool_decide_eq_true_2.
  - rewrite Hok. cbn [Z.eqb Pos.eqb]. destruct (head xs) as [x|] eqn:Hx; [|destruct xs; [cbn in HN; lia|done]]. rewrite Hg. cbn [or_err mbind outcome_bind].
    exists (SingleElement 1 x). split; [done|]. split; [done|]. unfold size_verify. rewrite <-Hok, (one_root x Hok Hx), Hok. by rewrite bool_decide_eq_true_2.
Qed.
End Range.
End Prove.

(** ** Verifying *)

Section Verify.
Context `{BEnv : BlockEnv} {T : Type} `{Item T}.
Implicit Types (xs : list T) (t : hterm T) (p : SizeProof Z T).

Lemma reference_prefix xs : Z.of_nat (length xs) < 2 ^ 62 -> tprefix (reference_root (H := hterm T) xs) = Some (Z.of_nat (length xs)).
Proof.
  intros Hn. destruct (decide (xs = [])) as [->|Hxs]; [done|]. assert (0 < Z.of_nat (length xs)) by (destruct xs; [done|cbn [length]; lia]).
  rewrite reference_tree_term, trees_of_eq by lia. apply tree_term_prefix; [apply aligned_0|rewrite pow_max_height; lia|lia].
Qed.
Lemma top_prefix t n : tprefix t = Some n -> exists rest, top_string t = be_bytes 8 n ++ rest.
Proof. destruct t as [q|q x|q l r|h]; intros [= ->]; [exists []; by rewrite app_nil_r|by eexists..]. Qed.
(** A proof as it comes from the network, and what its verification hashes. *)
Definition size_proof_ok (p : SizeProof Z T) : Prop := 0 <= size p < 2 ^ 64.
Definition size_string (p : SizeProof Z T) : list Z :=
  match p with
  | SizeEmptyTree => be_bytes 8 0
  | SingleElement n x => item_string n x
  | MultipleElements n l r => merge_string n l r
  end.
Lemma size_shown xs p : Z.of_nat (length xs) < 2 ^ 62 -> size_proof_ok p -> size_verify p (reference_root xs) = true ->
  size p = Z.of_nat (length xs) \/ collision blake2b [size_string p] (root_strings xs).
Proof.
  intros Hn Hp Hv. apply bool_decide_eq_true in Hv. rewrite eval_reference_root in Hv. destruct (reference_known xs Hn) as [_ Hk].
  destruct (eval_top (reference_root xs)) as [He Hin]; [by apply known_not_opaque|]. rewrite He in Hv.
  assert (blake2b (top_string (reference_root xs)) = blake2b (size_string p)) as Hs by (apply blake2b_value_inj; by destruct p).
  destruct (no_collision blake2b [size_string p] (root_strings xs) (size_string p) (top_string (reference_root xs))) as [E|Hc]; [by left|done|done| |by right].
  left. destruct (top_prefix _ _ (reference_prefix xs Hn)) as [rest Er]. rewrite Er in E. unfold size_proof_ok in Hp.
  destruct p as [|n x|n l r]; cbn [size size_string] in *; [rewrite <-(app_nil_r (be_bytes 8 0)) in E|..]; apply prefix_inj in E as [E _]; lia.
Qed.
End Verify.
