(* ===== verification/MmrLight.v ===== *)
(** * The range that keeps only its peaks

    [PeaksMerkleMountainRange] computes the roots of the full range while it stores no
    more than its peaks and the first leaf. *)

From S2P Require Import Prelude Mmr MmrPosition MmrPeaks MmrSpec.

(** ** Which trees there are *)

Lemma trees_complete k start n h j : aligned k start -> 0 <= n < 2 ^ Z.of_nat k -> (h < k)%nat -> Z.odd j = false ->
  start <= 2 ^ Z.of_nat h * j -> 2 ^ Z.of_nat h * (j + 1) <= start + n < 2 ^ Z.of_nat h * (j + 2) -> (h, j) ∈ trees k start n.
Proof.
  revert start n. induction k as [|k IH]; intros start n Ha Hn Hh Ho Hs Hj; [lia|]. destruct (aligned_S _ _ Ha) as (Ha1 & Ha2 & q & Hq & Hd & Hst).
  cbn [trees]. pose proof (pow2_pos h). pose proof (pow2_pos k). rewrite pow2_S in Hn. destruct (decide (h = k)) as [->|Hne].
  - destruct (odd_cases j) as [[? _]|[_ Hj2]]; [congruence|]. assert (j = 2 * q) as -> by nia.
    destruct (Z.leb_spec (2 ^ Z.of_nat k) n); [|nia]. rewrite Hd. by left.
  - destruct (Z.leb_spec (2 ^ Z.of_nat k) n) as [Hle|Hlt]; [right|]; apply IH; [done|lia|lia|done| |lia|done|lia|lia|done|done|lia].
    destruct (odd_cases j) as [[? _]|[_ Hj2]]; [congruence|]. set (i := j / 2) in *. assert (2 ^ Z.of_nat k = 2 ^ Z.of_nat h * (2 * 2 ^ Z.of_nat (k - S h))) as Hk.
    { rewrite <-pow2_S, <-Z.pow_add_r by lia. f_equal. lia. }
    set (c := 2 ^ Z.of_nat (k - S h)) in *. assert (2 ^ Z.of_nat h * (2 * (c * (2 * q + 1))) < 2 ^ Z.of_nat h * (2 * (i + 1))) as Hlt by nia.
    apply Z.mul_lt_mono_pos_l in Hlt; [|done]. assert (2 ^ Z.of_nat h * (2 * (c * (2 * q + 1))) <= 2 ^ Z.of_nat h * (2 * i)) by (apply Z.mul_le_mono_nonneg_l; lia). nia.
Qed.
Lemma tree_iff n h j : 0 <= n < 2 ^ 62 -> (h, j) ∈ trees_of n <-> 0 <= j /\ Z.odd j = false /\ 2 ^ Z.of_nat h * (j + 1) <= n < 2 ^ Z.of_nat h * (j + 2).
Proof.
  intros Hn. pose proof (pow2_pos h). split.
  - intros Hin. apply list_elem_of_split in Hin as (l1 & l2 & He). destruct (tree_at n Hn _ _ _ _ He) as (_ & Hj & Ho & Hle & _ & Hlt & _). split_and!; [done|done|done|lia].
  - intros (Hj & Ho & Hle). rewrite trees_of_eq. apply trees_complete; [apply aligned_0|by rewrite pow_max_height| |done|lia|lia].
    rewrite max_height_62. assert (2 ^ Z.of_nat h < 2 ^ Z.of_nat 62) as Hp by (change (2 ^ Z.of_nat 62) with (2 ^ 62); nia).
    apply Z.pow_lt_mono_r_iff in Hp; lia.
Qed.
(** A tree with another leaf is there before or ends with that leaf. *)
Lemma tree_before n h j : 0 <= n -> n + 1 < 2 ^ 62 -> (h, j) ∈ trees_of (n + 1) -> (h, j) ∈ trees_of n \/ 2 ^ Z.of_nat h * (j + 1) = n + 1.
Proof. intros Hn Hb. rewrite !tree_iff by lia. intros (Hj & Ho & Hle). destruct (decide (2 ^ Z.of_nat h * (j + 1) = n + 1)); [by right|left]. split_and!; [done|done|lia|lia]. Qed.
Lemma same_last n h j h' j' : 0 <= j -> 0 <= j' -> Z.odd j = false -> Z.odd j' = false -> 2 ^ Z.of_nat h * (j + 1) = n -> 2 ^ Z.of_nat h' * (j' + 1) = n -> h = h' /\ j = j'.
Proof.
  assert (forall h h' j j', (h < h')%nat -> Z.odd j = false -> 2 ^ Z.of_nat h * (j + 1) = 2 ^ Z.of_nat h' * (j' + 1) -> False) as Hlt.
  { clear. intros h h' j j' Hh Ho He. replace (Z.of_nat h') with (Z.of_nat h + Z.of_nat (S (h' - S h))) in He by lia. rewrite Z.pow_add_r, pow2_S, <-!Z.mul_assoc in He by lia.
    pose proof (pow2_pos h). apply Z.mul_cancel_l in He; [|lia]. destruct (odd_cases j) as [[? _]|[_ Hj]]; [congruence|]. lia. }
  intros Hj Hj' Ho Ho' E E'. destruct (Nat.lt_trichotomy h h') as [Hh|[->|Hh]].
  - exfalso. apply (Hlt h h' j j'); [done|done|congruence].
  - split; [done|]. pose proof (pow2_pos h'). nia.
  - exfalso. apply (Hlt h' h j' j); [done|done|congruence].
Qed.

(** ** The range of peaks *)

Section Light.
Context {H T : Type} `{Merge H} `{Hash H T}.
Implicit Types (xs : list T) (self : PeaksMerkleMountainRange H) (s : gmap Z H).

Definition holds_peaks (f : Z -> H) (s : gmap Z H) (n : Z) : Prop :=
  forall h j, (h, j) ∈ trees_of n -> s !! node_index h j = Some (node_hash f h j).
Definition is_peak (n i : Z) : Prop := exists h j, (h, j) ∈ trees_of n /\ i = node_index h j.
Record keeps (self : PeaksMerkleMountainRange H) (xs : list T) : Prop := {
  kp_len : peaks_len self = tree_size (Z.of_nat (length xs));
  kp_num : peaks_num_leaves self = Z.of_nat (length xs);
  kp_peaks : holds_peaks (leaf_hash xs) (light_store self) (Z.of_nat (length xs));
  kp_only i : is_Some (light_store self !! i) -> i = 0 \/ is_peak (Z.of_nat (length xs)) i;
}.
Lemma peak_indices_ok n : 0 <= n < 2 ^ 62 -> exists ps, peak_indices (tree_size n) = Ok ps /\ forall i, i ∈ ps <-> is_peak n i.
Proof.
  intros Hn. unfold peak_indices. rewrite peaks_tree by done. eexists. split; [done|]. intros i. rewrite elem_of_list_to_set, <-list_fmap_compose, list_elem_of_fmap.
  split; [intros ([h j] & -> & Ht); by exists h, j|intros (h & j & Ht & ->); by exists (h, j)].
Qed.

(** The way up from leaf [n]. *)
Section Push.
Variables (f : Z -> H) (n : Z).
Hypothesis Hn : 0 <= n.
Hypothesis Hb : n + 1 < 2 ^ 62.

Record climbs (h : nat) (j : Z) self : Prop := {
  cb_j : 0 <= j;
  cb_end : 2 ^ Z.of_nat h * (j + 1) = n + 1;
  cb_len : peaks_len self = node_index h j + 1;
  cb_node : light_store self !! node_index h j = Some (node_hash f h j);
  cb_peaks : holds_peaks f (light_store self) n;
}.
Lemma climbs_fits h j self : climbs h j self -> fits h j.
Proof. intros [Hj He _ _ _]. apply fits_leaves; [done|lia]. Qed.
(** Its left sibling is a peak. *)
Lemma left_peak h k : 0 <= k -> 2 ^ Z.of_nat h * (2 * k + 1 + 1) = n + 1 -> (h, 2 * k) ∈ trees_of n.
Proof. intros Hk He. pose proof (pow2_pos h). apply tree_iff; [lia|]. split_and!; [lia|apply odd_double|nia|nia]. Qed.
Lemma peak_before h j : (h, j) ∈ trees_of n -> node_index h j < tree_size n.
Proof. rewrite tree_iff by lia. intros (Hj & _ & Hle & _). by apply node_index_within. Qed.
Lemma last_after h j : 0 <= j -> 2 ^ Z.of_nat h * (j + 1) = n + 1 -> tree_size n <= node_index h j.
Proof.
  intros Hj He. pose proof (pow2_pos h). pose proof (proj2 (leaf_before_node n h j Hn Hj)) as Hle. rewrite node_index_leaf in Hle. apply Hle. lia.
Qed.
Lemma climbs_up h k self : climbs h (2 * k + 1) self ->
  climbs (S h) k (mk_peaks (<[node_index (S h) k := node_hash f (S h) k]> (light_store self)) (Usize.add (peaks_len self) 1) (peaks_num_leaves self)).
Proof.
  intros Hc. pose proof (climbs_fits _ _ _ Hc) as Hf. apply fits_bound in Hf as (Hi & _ & _ & Hbd). destruct Hc as [Hj He Hl Hnode Hp].
  assert (2 ^ Z.of_nat (S h) * (k + 1) = n + 1) as He' by (rewrite pow2_S; lia). split; cbn [peaks_len light_store].
  - lia.
  - done.
  - rewrite Hl, node_index_right by lia. usize. lia.
  - by rewrite lookup_insert_eq.
  - intros h' j' Ht. pose proof (peak_before h' j' Ht). pose proof (last_after (S h) k ltac:(lia) He'). rewrite lookup_insert_ne by lia. by apply Hp.
Qed.
Definition added self self' (temp : gset Z) : Prop := forall i, is_Some (light_store self' !! i) -> is_Some (light_store self !! i) \/ i ∈ temp.
Lemma peaks_push_loop_ok fuel h j temp self : climbs h j self -> (64 <= fuel + h)%nat -> exists h' j' temp' self',
  peaks_push_loop fuel (pos_at h j) temp self = (Ok temp', self') /\ climbs h' j' self' /\ Z.odd j' = false /\
  peaks_num_leaves self' = peaks_num_leaves self /\ temp ⊆ temp' /\ added self self' temp'.
Proof.
  revert h j temp self. induction fuel as [|fuel IH]; intros h j temp self Hc Hf; pose proof (climbs_fits _ _ _ Hc) as Hfit; pose proof (fits_bound _ _ Hfit) as (_ & _ & Hh & _); [lia|].
  cbn [peaks_push_loop right_node pos_at]. destruct (Z.odd j) eqn:Ho.
  2:{ exists h, j, temp, self. split_and!; [done|done|done|done|done|]. intros i Hi. by left. }
  destruct (odd_cases j) as [[_ Hd]|[? _]]; [|congruence]. remember (j / 2) as k eqn:Ek. subst j. pose proof Hc as [Hj He Hl Hnode Hp]. pose proof (pow2_pos h).
  assert (fits h (2 * k)) as Hfs by (apply (fits_below _ _ _ Hfit); lia).
  rewrite sibling_at, other_succ_double by (rewrite ?other_succ_double; done). cbn [index pos_at].
  unfold node_at, mbind, M_bind, gets, ok_or, mret, M_ret. rewrite (Hp h (2 * k)) by (apply left_peak; lia). rewrite Hnode.
  assert (fits (S h) k) as Hfu by (apply fits_leaves; [lia|rewrite pow2_S; nia]). unfold lift.
  rewrite parent_at, half_succ_double by (rewrite ?half_succ_double; done). unfold insert_node, modify. cbn [index pos_at]. rewrite leaves_below_at by lia.
  destruct (IH (S h) k ({[node_index (S h) k]} ∪ temp) _ (climbs_up h k self Hc)) as (h' & j' & temp' & self' & E & Hc' & Ho' & Hnum & Ht & Ha); [lia|].
  exists h', j', temp', self'. split_and!; [exact E|done|done|done|set_solver|].
  intros i Hi. destruct (Ha i Hi) as [Hs|Hs]; [|by right]. cbn [light_store] in Hs. destruct (decide (i = node_index (S h) k)) as [->|Hne]; [right; set_solver|].
  rewrite lookup_insert_ne in Hs by done. by left.
Qed.
End Push.

Lemma first_climbs self xs x : keeps self xs -> Z.of_nat (length xs) + 1 < 2 ^ 62 ->
  climbs (leaf_hash (xs ++ [x])) (Z.of_nat (length xs)) 0 (Z.of_nat (length xs))
    (mk_peaks (<[node_index 0 (Z.of_nat (length xs)) := hash x 1]> (light_store self)) (Usize.add (peaks_len self) 1) (peaks_num_leaves self)).
Proof.
  intros [Hl _ Hp _] Hb. set (n := Z.of_nat (length xs)) in *. split; cbn [peaks_len light_store].
  - lia.
  - change (2 ^ Z.of_nat 0) with 1. lia.
  - rewrite Hl, node_index_leaf. unfold tree_size in *. pose proof (count_ones_nonneg n). pose proof (tree_size_nonneg n ltac:(lia)). unfold tree_size in *. usize. lia.
  - rewrite lookup_insert_eq. cbn [node_hash]. unfold leaf_hash. subst n. by rewrite Nat2Z.id, lookup_app_r, Nat.sub_diag by lia.
  - intros h j Ht. pose proof (peak_before n ltac:(lia) Hb h j Ht). rewrite node_index_leaf, lookup_insert_ne by lia. rewrite (Hp h j Ht). f_equal. symmetry.
    apply tree_iff in Ht as (Hj & _ & Hle & _); [|lia]. by apply node_hash_app.
Qed.
(** What is removed is no peak. *)
Lemma kept_peaks f n h j (old temp new : gset Z) self : 0 <= n -> n + 1 < 2 ^ 62 -> climbs f n h j self -> Z.odd j = false ->
  (forall i, i ∈ new <-> is_peak (n + 1) i) -> holds_peaks f (remove_old old temp new (light_store self)) (n + 1).
Proof.
  intros Hn Hb [Hj He _ Hnode Hp] Ho Hnew h' j' Ht. unfold remove_old. apply map_lookup_filter_Some. cbn [fst]. split.
  - destruct (tree_before n h' j' Hn Hb Ht) as [Hold|Hlast]; [by apply Hp|]. apply tree_iff in Ht as (Hj' & Ho' & _); [|lia].
    by destruct (same_last (n + 1) h j h' j' Hj Hj' Ho Ho' He Hlast) as [-> ->].
  - intros [Hin _]. apply elem_of_difference in Hin as [_ Hin]. apply Hin, Hnew. by exists h', j'.
Qed.
Lemma peaks_push_ok self xs x : keeps self xs -> Z.of_nat (length xs) + 1 < 2 ^ 62 ->
  exists self', peaks_push x self = (Ok (Z.of_nat (length xs)), self') /\ keeps self' (xs ++ [x]).
Proof.
  intros Hk Hb. pose proof (first_climbs self xs x Hk Hb) as Hc. destruct Hk as [Hl Hnum Hp Honly]. set (n := Z.of_nat (length xs)) in *.
  assert (fits 0 n) as Hfit by (apply fits_leaf_number; lia). destruct (peak_indices_ok n ltac:(lia)) as (old & Eold & Hold). destruct (peak_indices_ok (n + 1) ltac:(lia)) as (new & Enew & Hnew).
  destruct (peaks_push_loop_ok _ n ltac:(lia) Hb 64 0 n {[node_index 0 n]} _ Hc) as (h & j & temp & self1 & E & Hc1 & Ho & Hnum1 & Ht & Ha); [lia|].
  assert (peaks_len self1 = tree_size (n + 1)) as Hl1.
  { destruct Hc1 as [Hj He Hlen _ _]. rewrite Hlen, <-He. by rewrite node_index_next, node_index_leaf. }
  exists (mk_peaks (remove_old old temp new (light_store self1)) (peaks_len self1) (Usize.add (peaks_num_leaves self1) 1)). split.
  - unfold peaks_push, mbind, M_bind, gets, lift. rewrite Hnum, Hl, <-node_index_leaf, position_from_node by done. rewrite node_index_leaf, Eold. unfold insert_node, modify. cbn [index pos_at].
    rewrite leaves_below_at by lia. change (2 ^ Z.of_nat 0) with 1. rewrite Hl in E. rewrite Hl, E, Hl1, Enew. done.
  - cbn [peaks_num_leaves] in Hnum1. assert (Z.of_nat (length (xs ++ [x])) = n + 1) as Hlen by (rewrite length_app; cbn [length]; lia). split; cbn [peaks_len light_store peaks_num_leaves].
    + by rewrite Hlen.
    + rewrite Hnum1, Hnum, Hlen. usize. lia.
    + rewrite Hlen. apply (kept_peaks _ n h j); [lia|done|done|done|done].
    + rewrite Hlen. intros i [v Hi]. unfold remove_old in Hi. apply map_lookup_filter_Some in Hi as [Hi Hno]. cbn [fst] in Hno.
      destruct (decide (i = 0)) as [|Hi0]; [by left|right]. apply Hnew. destruct (decide (i ∈ new)) as [|Hnin]; [done|]. exfalso. apply Hno. split; [|done].
      apply elem_of_difference. split; [|done]. apply elem_of_union. destruct (Ha i (ex_intro _ v Hi)) as [Hs|]; [|by right]. cbn [light_store] in Hs.
      destruct (decide (i = node_index 0 n)) as [->|Hne]; [right; by apply Ht, elem_of_singleton|]. rewrite lookup_insert_ne in Hs by done. left. apply Hold. by destruct (Honly i Hs).
Qed.
Lemma peaks_root_ok self xs : keeps self xs -> Z.of_nat (length xs) < 2 ^ 62 -> peaks_root self = Ok (reference_root xs).
Proof.
  intros [Hl _ Hp _] Hn. unfold peaks_root. rewrite Hl. destruct (Z.eqb_spec (tree_size (Z.of_nat (length xs))) 0) as [Hz|Hz].
  { apply tree_size_zero in Hz; [by destruct xs|lia]. }
  assert (0 < Z.of_nat (length xs)) by (destruct xs; [done|cbn [length]; lia]). rewrite rev_peaks_tree by lia. cbn [mbind outcome_bind].
  erewrite (mapM_ok _ at_ (fun t => (node_hash (leaf_hash xs) t.1 t.2, 2 ^ Z.of_nat t.1))).
  - cbn [mbind outcome_bind]. rewrite fmap_rev. apply bagging_root. lia.
  - intros [h j] Ht. apply list_elem_of_In, in_rev, list_elem_of_In in Ht. pose proof (tree_in (h, j) (Z.of_nat (length xs)) ltac:(lia) Ht) as (_ & _ & Hf & _). apply fits_bound in Hf as (_ & _ & Hh & _).
    unfold at_. cbn [fst snd index pos_at] in *. rewrite (Hp h j Ht), leaves_below_at by lia. done.
Qed.
(** The nodes that are kept are few. *)
Lemma list_set_size (l : list Z) : (base.size (list_to_set l : gset Z) <= length l)%nat.
Proof.
  induction l as [|i l IH]; [done|]. cbn [list_to_set foldr length]. rewrite size_union_alt, size_singleton.
  pose proof (subseteq_size ((list_to_set l : gset Z) ∖ {[i]}) (list_to_set l) ltac:(set_solver)). unfold list_to_set in *. lia.
Qed.
Lemma kept_few self xs : keeps self xs -> (base.size (light_store self) <= 63)%nat.
Proof.
  intros [_ _ _ Honly]. set (n := Z.of_nat (length xs)) in *.
  assert (dom (light_store self) ⊆ (list_to_set (0 :: ((fun t => node_index t.1 t.2) <$> trees_of n)) : gset Z)) as Hs.
  { intros i Hi. apply elem_of_dom, Honly in Hi as [->|(h & j & Ht & ->)]; rewrite elem_of_list_to_set; [by left|right]. by apply (list_elem_of_fmap_2 (fun t : nat * Z => node_index t.1 t.2) _ (h, j)). }
  rewrite <-size_dom. pose proof (subseteq_size _ _ Hs). pose proof (list_set_size (0 :: ((fun t => node_index t.1 t.2) <$> trees_of n))) as Hle.
  cbn [length] in Hle. rewrite length_fmap in Hle. pose proof (trees_length max_height 0 n) as Hlen. rewrite <-trees_of_eq, max_height_62 in Hlen. lia.
Qed.

Definition peaks_run (xs : list T) (self : PeaksMerkleMountainRange H) : PeaksMerkleMountainRange H :=
  foldl (fun self x => snd (peaks_push x self)) self xs.
Lemma peaks_run_keeps xs self : peaks_new ∅ = Ok self -> Z.of_nat (length xs) < 2 ^ 62 -> keeps (peaks_run xs self) xs.
Proof.
  intros E. unfold peaks_new in E. rewrite map_size_empty in E. change (Z.of_nat 0) with 0 in E. rewrite Z.eqb_refl in E. injection E as <-. induction xs as [|x xs IH] using rev_ind; intros Hn.
  { split; [done|done| |].
    - intros h j Ht. cbn in Ht. rewrite trees_of_eq, trees_zero in Ht. by apply not_elem_of_nil in Ht.
    - intros i [v Hi]. cbn in Hi. done. }
  rewrite length_app in Hn. cbn [length] in Hn. unfold peaks_run. rewrite foldl_app. cbn [foldl].
  destruct (peaks_push_ok _ xs x (IH ltac:(lia))) as (self' & E & Hk); [lia|]. unfold peaks_run in E. by rewrite E.
Qed.
End Light.

(** The range that keeps only its peaks agrees with the full range.  After any
    items its root is the same, an append returns the number of the item, and it stores
    no more than 63 hashes. *)
Theorem peaks_agree {H T St} `{Merge H} `{Hash H T} `{StoreLaws H St} (xs : list T) (s : St) self :
  peaks_new ∅ = Ok self -> elems s = [] -> Z.of_nat (length xs) + 1 < 2 ^ 62 ->
  peaks_root (peaks_run xs self) = get_root (run (Push <$> xs) (mk_mmr s 0)) /\
  (forall x, exists self', peaks_push x (peaks_run xs self) = (Ok (Z.of_nat (length xs)), self')) /\
  (base.size (light_store (peaks_run xs self)) <= 63)%nat.
Proof.
  intros E Hs Hn. pose proof (peaks_run_keeps xs self E ltac:(lia)) as Hk.
  assert (appended (Push <$> xs) = length xs /\ left_over (Push <$> xs) = xs) as [Ha Hl].
  { clear. induction xs as [|x xs [IH1 IH2]] using rev_ind; [done|]. rewrite fmap_app. cbn [fmap list_fmap].
    rewrite appended_app, left_over_app, IH1, length_app. split; [done|]. by rewrite IH2. }
  destruct (run_holds (Push <$> xs) s Hs) as [Hh _]; [lia|]. rewrite Hl in Hh. split_and!.
  - rewrite (get_root_ok _ _ Hh) by lia. apply peaks_root_ok; [done|lia].
  - intros x. destruct (peaks_push_ok _ xs x Hk Hn) as (self' & E' & _). by exists self'.
  - by apply (kept_few _ xs).
Qed.
