(* ===== verification/MmrHistory.v ===== *)
(** * Proofs about the history

    What the proofs of a history show: the claims on verification for items and parts of
    the history tree, on the number of its leaves, and that the proofs that a range makes
    verify.  The hypotheses are shown to hold for a range of a few items. *)

From S2P Require Import Prelude Coin AccountTypes Codec TxContent Block Mmr MmrPosition.
From S2P Require Import MmrPeaks MmrSpec MmrClimb MmrTerm MmrSound MmrVerify MmrComplete.
From S2P Require Import MmrSize MmrLight TrieExample.

Section History.
Context `{BEnv : BlockEnv} {T : Type} `{Item T}.
Implicit Types (xs : list T) (p : HistoryTreeProof (T := T)) (c : HistoryTreeChunk (T := T)).

Definition same_item (xs : list T) (i : nat) (x : T) : Prop := exists y, xs !! i = Some y /\ item_bytes x = item_bytes y.
Definition history_leaves (p : HistoryTreeProof) : list (Z * T) := zip (history_positions p) (history p).
Definition chunk_leaves (c : HistoryTreeChunk) (leaf_index : Z) : list (Z * T) := numbered_from leaf_index (chunk_history c).

Lemma zip_positions (l : list Z) (k : list T) : length k = length l -> (zip l k).*1 = l.
Proof. intros E. apply fst_zip. lia. Qed.
Lemma history_shows xs p : Z.of_nat (length xs) < 2 ^ 62 -> mmr_proof_ok (history_proof p) -> Forall (fun i => 0 <= i) (history_positions p) ->
  match history_verify p (reference_root xs) with
  | Ok (Some true) => length (history p) = length (history_positions p) /\ verified xs (history_proof p) (history_leaves p)
  | Ok _ => True
  | _ => False
  end.
Proof.
  intros Hn Hp Hi. unfold history_verify, history_leaves. destruct (Nat.eqb_spec (length (history p)) (length (history_positions p))) as [E|]; [|done]. cbn [negb].
  pose proof (verify_shows xs (history_proof p) (zip (history_positions p) (history p)) Hn Hp) as Hv. rewrite zip_positions in Hv by done. specialize (Hv Hi).
  destruct (verify (history_proof p) (reference_root xs) (zip (history_positions p) (history p))) as [[]|e|]; done.
Qed.
Lemma numbered_nonneg start (items : list T) : 0 <= start -> start + Z.of_nat (length items) <= 2 ^ 64 -> Forall (fun i => 0 <= i) (numbered_from start items).*1.
Proof.
  intros Hs Hb. apply Forall_fmap, Forall_forall. intros [i x] Hin. apply list_elem_of_lookup_1 in Hin as (k & Hk). unfold numbered_from in Hk. rewrite list_lookup_imap in Hk.
  destruct (items !! k) as [y|] eqn:Hy; [|done]. apply lookup_lt_Some in Hy. injection Hk as <- <-. cbn. unfold Usize.add. rewrite usize_small by lia. lia.
Qed.
Lemma leaf_number_nonneg i : 0 <= leaf_number_to_index i.
Proof. unfold leaf_number_to_index, Usize.sub, wrap. apply Z.mod_pos_bound. lia. Qed.
(** A chunk with items is not taken for one of the empty history. *)
Lemma chunk_shows xs c leaf_index : Z.of_nat (length xs) < 2 ^ 62 -> mmr_proof_ok (proof (chunk_proof c)) -> 0 <= leaf_index ->
  leaf_index + Z.of_nat (length (chunk_history c)) <= 2 ^ 64 ->
  match chunk_verify c (reference_root xs) leaf_index with
  | Ok (Some true) => leaves_shown xs (chunk_leaves c leaf_index) \/
      collision blake2b (checked_strings (proof (chunk_proof c)) (chunk_leaves c leaf_index)) (root_strings xs)
  | Ok _ => True
  | _ => False
  end.
Proof.
  intros Hn Hp Hs Hb. unfold chunk_verify, verify_with_start, convert_leaves_with_start. destruct (assume_previous (chunk_proof c)); [done|]. cbn [err_if mbind outcome_bind].
  fold (numbered_from leaf_index (chunk_history c)). fold (chunk_leaves c leaf_index).
  destruct (negb (Z.of_nat (length (chunk_history c)) =? 0) && _) eqn:Ec; [done|]. cbn [err_if mbind outcome_bind].
  pose proof (verify_shows xs (proof (chunk_proof c)) (chunk_leaves c leaf_index) Hn Hp (numbered_nonneg _ _ Hs Hb)) as Hv.
  destruct (verify (proof (chunk_proof c)) (reference_root xs) (chunk_leaves c leaf_index)) as [[]|e|] eqn:Ev; unfold mret, outcome_ret; cbn [mbind outcome_bind]; rewrite Ev; cbn [ok]; [|done..].
  destruct Hv as [[He _]|Hv]; [left|done]. unfold chunk_leaves. destruct (chunk_history c) as [|x l]; [by intros i x Hx%not_elem_of_nil|].
  exfalso. apply andb_true_iff in He as [He _]. apply Z.eqb_eq in He. rewrite He in Ec. apply andb_false_iff in Ec as [Ec|Ec]; [done|].
  apply Z.leb_gt in Ec. pose proof (leaf_number_nonneg (Usize.sub (Usize.add leaf_index (Z.of_nat (length (x :: l)))) 1)). lia.
Qed.
Lemma zip_shown xs (l : list Z) (k : list T) : leaves_shown xs (zip l k) -> forall n i x, l !! n = Some i -> k !! n = Some x -> same_item xs (Z.to_nat i) x.
Proof. intros Hs n i x Hi Hx. apply (Hs i x). apply list_elem_of_lookup_2 with n. by rewrite lookup_zip_with, Hi, Hx. Qed.
Lemma from_shown xs start (items : list T) : 0 <= start -> start + Z.of_nat (length items) <= 2 ^ 64 -> leaves_shown xs (numbered_from start items) ->
  forall n x, items !! n = Some x -> same_item xs (Z.to_nat start + n) x.
Proof.
  intros Hs Hb Hsh n x Hx. pose proof (lookup_lt_Some _ _ _ Hx). destruct (Hsh (start + Z.of_nat n) x) as (y & Hy & E).
  - apply list_elem_of_lookup_2 with n. unfold numbered_from. rewrite list_lookup_imap, Hx. cbn. unfold Usize.add. by rewrite usize_small by lia.
  - exists y. split; [|done]. rewrite <-Hy. f_equal. lia.
Qed.
End History.

(** C19: what a proof about the history shows, from whomever it comes.  Verification
    against the root of a list of items never panics.  If it accepts, there is an item
    for each position, and each has the bytes of the item of the list at its position,
    unless two strings that were hashed collide.  The exception is the empty proof:
    against the root of the empty history it is accepted with any items. *)
Theorem history_proof_sound `{BEnv : BlockEnv} {T} `{Item T} (xs : list T) (p : HistoryTreeProof (T := T)) :
  Z.of_nat (length xs) < 2 ^ 62 -> mmr_proof_ok (history_proof p) -> Forall (fun i => 0 <= i) (history_positions p) ->
  (match history_verify p (reference_root xs) with
   | Ok (Some true) => length (history p) = length (history_positions p) /\
       ((empty_proof (history_proof p) = true /\ xs = []) \/
        (forall k i x, history_positions p !! k = Some i -> history p !! k = Some x -> same_item xs (Z.to_nat i) x) \/
        collision blake2b (checked_strings (history_proof p) (history_leaves p)) (root_strings xs))
   | Ok _ => True
   | _ => False
   end) /\
  forall positions items, length items = length positions ->
    history_verify (mk_history_proof (mk_proof 0 []) positions items) (reference_root (@nil T)) = Ok (Some true).
Proof.
  intros Hn Hp Hi. split.
  - pose proof (history_shows xs p Hn Hp Hi) as Hv. destruct (history_verify p (reference_root xs)) as [[[]|]|e|]; [|done..]. destruct Hv as [Hl Hv]. split; [done|].
    destruct Hv as [He|[Hs|Hc]]; [by left|right; left|by right; right]. by apply zip_shown.
  - intros positions items E. unfold history_verify. cbn [history history_positions history_proof]. rewrite E, Nat.eqb_refl. unfold verify. cbn [negb err_if mbind outcome_bind mmr_size nodes length Nat.eqb andb Z.eqb].
    change (MAX_MMR_SIZE <? 0) with false. cbn [err_if mbind outcome_bind]. by rewrite bool_decide_eq_true_2.
Qed.

(** C20: what a part of the history shows, from whomever it comes.  Verification against
    the root of a list of items never panics.  If it accepts, each item of the part has
    the bytes of the item of the list that has its number, counted from the given start,
    unless two strings that were hashed collide. *)
Theorem history_chunk_sound `{BEnv : BlockEnv} {T} `{Item T} (xs : list T) (c : HistoryTreeChunk (T := T)) (leaf_index : Z) :
  Z.of_nat (length xs) < 2 ^ 62 -> mmr_proof_ok (proof (chunk_proof c)) -> 0 <= leaf_index ->
  leaf_index + Z.of_nat (length (chunk_history c)) <= 2 ^ 64 ->
  match chunk_verify c (reference_root xs) leaf_index with
  | Ok (Some true) => (forall k x, chunk_history c !! k = Some x -> same_item xs (Z.to_nat leaf_index + k) x) \/
      collision blake2b (checked_strings (proof (chunk_proof c)) (chunk_leaves c leaf_index)) (root_strings xs)
  | Ok _ => True
  | _ => False
  end.
Proof.
  intros Hn Hp Hs Hb. pose proof (chunk_shows xs c leaf_index Hn Hp Hs Hb) as Hv. destruct (chunk_verify c (reference_root xs) leaf_index) as [[[]|]|e|]; [|done..].
  destruct Hv as [Hv|Hc]; [left|by right]. by apply from_shown.
Qed.

(** C22: the number that a verified size proof claims is the number of items under the
    root, unless the string that was hashed collides with one under the root. *)
Theorem size_proof_sound `{BEnv : BlockEnv} {T} `{Item T} (xs : list T) (p : SizeProof Z T) :
  Z.of_nat (length xs) < 2 ^ 62 -> size_proof_ok p -> size_verify p (reference_root xs) = true ->
  size p = Z.of_nat (length xs) \/ collision blake2b [size_string p] (root_strings xs).
Proof. apply size_shown. Qed.

(** C21: the proofs that a range makes verify.  After any appends and cuts, at the length
    the range has or at any shorter one, the proof for distinct leaves in any order, the
    proof for a part, cut at the end of the range, and the proof of the number of leaves
    are made without an error and verify against the root of that length. *)
Theorem proofs_verify {H T St} `{EqDecision H} `{Merge H} `{Hash H T} `{StoreLaws H St} (ops : list (@op T)) (s : St) (N : Z) (verifier_state : option Z) :
  elems s = [] -> Z.of_nat (appended ops) < 2 ^ 62 ->
  let m := run ops (mk_mmr s 0) in let xs := left_over ops in let root := reference_root (shorter xs N) in
  0 < N <= Z.of_nat (length xs) -> at_length xs N verifier_state ->
  (forall positions leaves, leaves <> [] -> numbered xs N leaves -> NoDup leaves.*1 -> positions ≡ₚ leaves.*1 ->
     exists p, prove m positions verifier_state = Ok p /\ verify p root leaves = Ok true) /\
  (forall start end_ last, 0 <= start < last -> last = Z.min end_ (Z.of_nat (length xs)) -> last <= N -> end_ <= 2 ^ 62 ->
     exists p, prove_range m start end_ verifier_state false = Ok p /\ verify_with_start p root start (part xs start last) = Ok true) /\
  (forall f, f 0 = head xs ->
     exists p, prove_num_leaves m f verifier_state = Ok p /\ size p = N /\ size_verify p root = true).
Proof.
  intros Hs Ha m xs root HN Hvs. destruct (run_holds ops s Hs Ha) as [Hm _]. fold m xs in Hm. pose proof (left_over_length ops) as Hl. fold xs in Hl.
  assert (Z.of_nat (length xs) < 2 ^ 62) as Hn by lia. split_and!.
  - intros positions leaves Hne Hx Hd Hp. by apply (prove_ok m xs Hm N HN Hn).
  - intros start end_ last Hst Hlast Hle He. by apply (prove_range_ok m xs Hm N HN Hn verifier_state start end_ last).
  - intros f Hf. by apply (prove_size_ok m xs N Hm HN Hn).
Qed.

(** ** A small range *)

Module SmallHistory.
#[local] Existing Instance SmallTrie.env.
#[local] Instance byte_item : Item Z := fun x => [x].
Abbreviation range := (MerkleMountainRange (MemoryStore Z)).

(** Five items, one of them cut. *)
Definition ops : list (@op Z) := [Push 2; Push 3; RemoveBack; Push 5; Push 7; Push 11; Push 13].
Definition items : list Z := [2; 5; 7; 11; 13].
Definition m : range := run ops (mk_mmr (mk_mem []) 0).
Definition m_items : left_over ops = items := eq_refl.
Definition leaves : list (Z * Z) := [(3, 11); (0, 2)].

Definition leaf_proof : MmrProof Z := match prove m [0; 3] None with Ok p => p | _ => mk_proof 0 [] end.
Definition part_proof : RangeProof Z := match prove_range m 1 4 None false with Ok p => p | _ => mk_range_proof (mk_proof 0 []) false end.
Definition number_proof : SizeProof Z Z := match prove_num_leaves m (fun _ => Some 2) None with Ok p => p | _ => SizeEmptyTree end.
Definition digest_check (h : Z) : bool := (0 <=? h) && (h <? 256 ^ 32).
Definition proofs_check : forallb digest_check (nodes leaf_proof) && forallb digest_check (nodes (proof part_proof)) &&
  (0 <=? mmr_size leaf_proof) && (0 <=? mmr_size (proof part_proof)) = true := eq_refl.
Definition leaf_proof_accepted : history_verify (mk_history_proof leaf_proof [3; 0] [11; 2]) (reference_root items) = Ok (Some true) := eq_refl.
Definition part_accepted : chunk_verify (mk_history_chunk part_proof [5; 7; 11]) (reference_root items) 1 = Ok (Some true) := eq_refl.
Definition number_accepted : size_verify number_proof (reference_root items) = true := eq_refl.
Definition number_five : size number_proof = 5 := eq_refl.
#[local] Opaque m leaf_proof part_proof number_proof.

Lemma digests_checked l : forallb digest_check l = true -> Forall MmrTerm.digest l.
Proof.
  intros H. apply Forall_forall. intros h Hh. rewrite forallb_forall in H. apply list_elem_of_In, H, andb_true_iff in Hh as [H1 H2]. apply Z.leb_le in H1. apply Z.ltb_lt in H2. by split.
Qed.
Lemma proofs_typed : mmr_proof_ok leaf_proof /\ mmr_proof_ok (proof part_proof).
Proof.
  pose proof proofs_check as H. apply andb_true_iff in H as [[[H1 H2]%andb_true_iff H3%Z.leb_le]%andb_true_iff H4%Z.leb_le]. repeat split; [done|by apply digests_checked|done|by apply digests_checked].
Qed.

Lemma mmr_refines_witness : get_root (run ops (mk_mmr (mk_mem []) 0)) = Ok (reference_root (left_over ops)).
Proof. exact (proj1 (mmr_refines ops (mk_mem []) eq_refl eq_refl)). Defined.

Lemma history_proof_sound_witness :
  length [11; 2] = length [3; 0] /\
    ((empty_proof leaf_proof = true /\ items = []) \/
     (forall k i x, [3; 0] !! k = Some i -> [11; 2] !! k = Some x -> same_item items (Z.to_nat i) x) \/
     collision blake2b (checked_strings leaf_proof (history_leaves (mk_history_proof leaf_proof [3; 0] [11; 2]))) (root_strings items)).
Proof.
  assert (Forall (fun i => 0 <= i) [3; 0]) as Hi by (repeat constructor; done).
  destruct (history_proof_sound items (mk_history_proof leaf_proof [3; 0] [11; 2]) eq_refl (proj1 proofs_typed) Hi) as [H _].
  rewrite leaf_proof_accepted in H. exact H.
Defined.
Lemma history_chunk_sound_witness :
  (forall k x, [5; 7; 11] !! k = Some x -> same_item items (Z.to_nat 1 + k) x) \/
  collision blake2b (checked_strings (proof part_proof) (chunk_leaves (mk_history_chunk part_proof [5; 7; 11]) 1)) (root_strings items).
Proof.
  pose proof (history_chunk_sound items (mk_history_chunk part_proof [5; 7; 11]) 1 eq_refl (proj2 proofs_typed) ltac:(done) ltac:(done)) as H.
  rewrite part_accepted in H. exact H.
Defined.
Lemma size_proof_sound_witness : size number_proof = 5 \/ collision blake2b [size_string number_proof] (root_strings items).
Proof.
  apply (size_proof_sound items number_proof eq_refl); [|exact number_accepted]. unfold size_proof_ok. rewrite number_five. lia.
Defined.
Lemma leaves_numbered : numbered items 5 leaves.
Proof. intros i x. unfold leaves. rewrite !elem_of_cons, elem_of_nil. intros [[= -> ->]|[[= -> ->]|[]]]; done. Qed.
Lemma leaves_distinct : NoDup leaves.*1 /\ [0; 3] ≡ₚ leaves.*1.
Proof. split; [|apply perm_swap]. apply (bool_decide_unpack (NoDup [3; 0])). exact I. Qed.
Lemma leaves_some : leaves <> [].
Proof. done. Qed.
Lemma proofs_verify_witness : exists p, prove (run ops (mk_mmr (mk_mem []) 0)) [0; 3] None = Ok p /\ verify p (reference_root (shorter (left_over ops) 5)) leaves = Ok true.
Proof.
  pose proof (proofs_verify (H := Z) ops (mk_mem []) 5 None) as H. destruct (H eq_refl eq_refl) as [Hp _]; [by split|done|].
  exact (Hp [0; 3] leaves leaves_some leaves_numbered (proj1 leaves_distinct) (proj2 leaves_distinct)).
Defined.
End SmallHistory.
